(* ===== verification/_CoqProject ===== *)
-Q . S2P
Prelude.v
Wire.v
Text.v
Ledger.v
Audiences.v
Document.v
Paging.v
Delta.v
Chains.v
PackParse.v
Locator.v
FlatIndex.v
Names.v
RefCollision.v
Tarjan.v
Refs.v
Resolve.v
RefHistory.v
Provenance.v
Transitions.v
Members.v
Embargo.v
Events.v
Overlay.v
Packs.v
Content.v
PackMirror.v
Approvals.v
ReviewFold.v
MergeCheck.v
LinkedIssues.v
Tlv.v
Checks.v
Threads.v
MergeAudit.v
Moderation.v
Bans.v
PushGrants.v
Globs.v
CodeOwners.v
UserErrors.v
Guard.v
PackPlan.v
HelperOptions.v
GitGraph.v
PushPlan.v
PushWrites.v
PushAudience.v
GuardPush.v
RemoteHelper.v
RetryQueue.v
QueueRuns.v
Dispatch.v
Ssrf.v
Slots.v
SealedDoc.v
Epochs.v
