(* ===== verification/Prelude.v ===== *)
(** * Dash Forge: a verification library

    Dash Forge keeps git repositories, their pull requests, issues and releases on Dash
    Platform: documents of a contract hold the ref updates, packs and events, and every
    client reads the same documents and must reach the same answer. What a repository
    is is therefore not stored anywhere; it is computed, by the rules of
    [src/crates/forge-core/src/rules.rs] and [rules/], from unordered documents that
    anyone may have written. This library models those rules, the readers of the packs
    and indexes the documents point at, the loops that fetch the documents, and the
    remote helper that turns git's commands into ref updates. It proves what a client
    relies on: that the answer exists, depends on nothing but the set of documents,
    ignores what is not authorized, and is the one the rules promise; and that what git
    is told of a push is what the documents will say.

    ** The parts, and the files that model them

    Shared vocabulary.
    - [Prelude]: Rust's comparators, stable sorts, [max_by], [BTreeMap] iteration,
      saturating and checked integers, ASCII strings; tactics and hints.
    - [Wire]: results with the code's [Error] (and [Panic], an outcome of the model, proved
      unreachable where a theorem says so), UTF-8 validity, LEB128 and fixed-width fields.
    - [Text]: Unicode white space and control characters, trimming, splitting, integers.
    - [UserErrors]: the error a person reads, its exit code, and the texts of [Error].
    - [Document]: the field values of a fetched document ([platform/mod.rs]).

    Refs ([rules.rs], [rules/ref_history.rs], [rules/provenance.rs], [rules/ref_collision.rs]).
    - [Names]: object ids, ref names, protection patterns. [RefCollision]: refs git cannot
      hold side by side.
    - [Tarjan]: the strongly connected components [cycle_to_break] walks. [Refs]: documents,
      validity, the causal order. [Resolve]: the theorems on what a ref resolves to.
    - [RefHistory]: a ref's activity, as a simulation of the fold of [Resolve].
      [Provenance]: whether a release's tag and assets are what they were.

    Collaboration ([rules/transition.rs], [rules/v2.rs], [rules/review.rs], [rules/parity.rs],
    [rules/moderation.rs], [rules/bans.rs], [rules/embargo.rs], [rules/merge_check.rs],
    [rules/merge_audit.rs], [rules/codeowners.rs], [rules/push_grant.rs]).
    - [Transitions]: the issue and pull request state machine. [Members]: roles and the role
      oracle. [Events]: verdicts and event folds. [Content]: which documents are well
      formed and who may see them.
    - [Approvals], [ReviewFold], [LinkedIssues], [MergeCheck], [Checks], [MergeAudit],
      [CodeOwners] (on [Globs]): reviews, review state, closing references, whether a
      merge holds the request, check runs, the rules at merge time, code owners.
    - [Threads], [Moderation], [Bans], [PushGrants], [Embargo]: pins and milestones, hides,
      bans, what a bot may push, publication dates.

    Packs and indexes ([rules.rs], [rules/v2.rs], [pack/], [private/tlv.rs]).
    - [Packs]: which packs a repository has and in what order they are read. [PackMirror]:
      the addresses a pack is read from ([rules/pack_mirror.rs]). [Overlay]: the
      file tree as a flat index under diffs.
    - [Delta], [Chains], [PackParse]: git deltas, delta chains, pack and index parsing and
      reads of a span. [Locator]: the object locator, its lookup, merge and construction.
      [FlatIndex]: a tree's file listing. [Tlv]: the plaintext of a sealed document.
    - [Paging]: the loops that read a query to its end, and the pager of large documents.

    The git remote helper ([src/crates/git-remote-dash/src/]).
    - [HelperOptions]: the options git sends ([options.rs]). [RemoteHelper]: the remote's
      address and the line protocol ([url.rs], [main.rs]).
    - [PushPlan]: what each refspec writes, or why it is refused ([plan_pushes] of
      [helper.rs]). [PushAudience]: who each pushed ref is for ([decide] of [members.rs],
      [decide_audiences] of [helper.rs]).
    - [PushWrites]: the writes of a planned push and what git is told ([write_ref_updates],
      [Writer::batch], [RefWrites::per_ref] and [finalize_outcomes] of [helper.rs], and the
      [write_ref_updates] of [forge-core/src/repo.rs]). Platform is the class
      [PushWrites.Chain], a state that one document is written to at a time, with the laws
      [PushWrites.ChainLaws]; [PushWrites.Memory] is an instance.

    Members-only content ([src/crates/forge-core/src/members_git/], [git-remote-dash/src/members.rs]).
    - [Ledger]: what a clone records of the sealed objects it holds. [Audiences]: who a ref
      is for, and which audiences are within which.
    - [Guard]: the publication guard, over an object graph (the class [Guard.ObjectGraph],
      with the laws [Guard.GraphLaws]). [GitGraph]: the graph that [git] answers for, an
      instance of both wherever [git] answers as documented ([GitGraph.Repo]).
    - [PackPlan]: the packs of a push, by audience. [GuardPush]: the guard in a push, from
      [PushAudience]'s view of the repository to [PushWrites]'s plan, and the pre-push hook.

    Webhooks ([src/crates/forge-relay/src/]).
    - [RetryQueue]: the durable queue of failed deliveries ([queue.rs]): its entries and the
      indexes its bounds use, each operation, the writer's batches and the load at start.
      Every operation is a run of the primitive changes [RetryQueue.change].
      [QueueRuns]: what holds of a queue over all its runs.
    - [Dispatch]: one delivery and its attempts, the circuit breaker, and the dispatcher
      ([deliver.rs]): a worker per hook with its channel, over the retry queue. A call is one
      step while it holds the hooks' lock, and what it does after is a list of actions, each a
      step of its own, as is each thing a worker does; steps are taken in any order.
    - [Ssrf]: the targets a delivery may go to ([ssrf.rs]) and the clients it is sent through
      ([Deliverer::client_for]). [Slots]: the pools of permits per host and address
      ([Deliverer::pool] and [slots]).

    Private repositories ([src/crates/forge-core/src/private/]).
    - [SealedDoc]: the keys of an epoch, the envelopes of a sealed document, what opens them
      and when it is shown ([keys.rs], [doc.rs], [bot_post.rs], and the framing of [named.rs]).
      The primitives are the class [SealedDoc.Crypto] with the laws [SealedDoc.CryptoLaws].
    - [Epochs]: the epochs a repository has, their anchors, the keys a reader recovers and the
      epoch it writes under ([epoch.rs]).

    ** How the parts interact

    [Paging] yields documents; [Names], [Members] and [Content] decide which count;
    [Refs] orders the counting updates and resolves each ref; [RefHistory], [Provenance]
    and [Resolve.pr_base_tips_spec] are read off that one order. [Events], [ReviewFold],
    [Checks] and [Approvals] fold the log of a pull request; [MergeAudit] judges a merge by
    them as of its time. [Packs] lists the packs, [Locator] says where in them an object
    is, and [PackParse] and [Chains] rebuild it with [Delta]. In a push, [RemoteHelper] reads
    the commands, [PushPlan] plans them over the refs [Refs] resolves with the leases of
    [HelperOptions] and the collisions of [RefCollision], [PushAudience] sorts them into
    lanes, and [PushWrites] writes them; [PushPlan.accepted_merge_resolves] takes the updates
    it writes back through [Refs], where they settle the race. Between the plan and the
    writes stands the guard: [GuardPush] gives [Guard] the ledger, the keys' commits and the
    public tips, and refuses the plan it does not pass; [GuardPush.sealed_commits_stay_in]
    follows a plan through both. In a private repository [Epochs] gives [SealedDoc] the keys and
    anchors it opens documents with, whose plaintext [Tlv] reads. [Dispatch] delivers over
    [RetryQueue], to the targets [Ssrf] lets through.

    ** What the theorems show

    - The answer is a function of the set of documents: [Resolve.resolution_order_independent],
      [Resolve.causal_order_spec], [Resolve.live_heads_spec], [Resolve.resolve_ref_tip].
    - Unauthorized documents are inert, and protection is judged by the config in force:
      [Resolve.invalid_update_inert], [Resolve.is_update_valid_spec],
      [Approvals.author_never_meets_policy], [MergeAudit.audit_merge_spec].
    - Derived views agree with the fold they are derived from: [RefHistory.ref_history_spec],
      [Provenance.release_provenance_spec], [Transitions.next_transition_refines].
    - Loops end and are complete: [Chains.resolve_chains_spec], [Paging.paced_read_terminates],
      [Paging.paged_read_complete], [Globs.glob_matches_spec].
    - What is written is read back, and nothing else is accepted: [Tlv.tlv_roundtrip],
      [Locator.parse_locator_spec], [FlatIndex.flat_index_roundtrip],
      [Tlv.parse_strict], [Embargo.embargo_value_canonical], [HelperOptions.cas_roundtrip].
    - Optimised readers equal their definition: [PackParse.span_read_spec],
      [Locator.lookup_oid_spec], [Locator.merge_spec], [Globs.matches_parts_spec].
    - A push is honest and leaves the repository usable: [PushPlan.plan_pushes_spec],
      [PushWrites.push_writes_land], [PushWrites.refs_stay_compatible],
      [PushWrites.per_ref_spec], [PushWrites.read_back_spec],
      [PushAudience.decide_audience_spec]; the helper's session is the commands git gave:
      [RemoteHelper.session_refines], [RemoteHelper.session_ends].
    - No members-only commit is pushed by accident: [Guard.guard_decides],
      [GuardPush.sealed_commits_stay_in], [GuardPush.pre_push_safe],
      [PackPlan.packs_keep_sealed]; the ledger forgets nothing, [Ledger.record_as_spec]; and
      the walks over git are those the guard asks for, [GitGraph.walk_git_spec].
    - A webhook is not lost, doubled or sent where it should not be:
      [QueueRuns.queue_invariant], [QueueRuns.restart_restores], [QueueRuns.due_spec],
      [QueueRuns.claims_exclusive], [Dispatch.claims_held], [Dispatch.removed_hook_silent],
      [Ssrf.non_public_spec], [Ssrf.deliveries_reach_public], [Slots.in_flight_bounds].
    - What is sealed opens to those who hold the keys and to what was sealed:
      [SealedDoc.sealed_opens], [SealedDoc.readable_authentic], [SealedDoc.ad_binds],
      [Epochs.anchors_refine], [Epochs.resolve_spec].
    - Bounds and errors of parsers of hostile bytes: [Delta.apply_delta_spec],
      [PackParse.parse_spec], [FlatIndex.flat_index_bounds].

    ** Modelling choices

    Integers are [N] with the code's saturating, checked or wrapping operations written
    out; [usize] has 64 bits. Strings are byte strings, as Rust's are; a [String] the code
    holds is valid UTF-8, which only the definitions that decode characters rely on.
    [sort_by] is the stable sort of [Prelude.sort_by]; a [BTreeMap] is a [gmap] iterated
    in key order. An [Option] that stands for a panic is said so at its definition. A write to
    git's standard output is taken to succeed, and the arithmetic of an octal escape wraps, as
    in a release build.

    Fuel, and why it is enough: the walk of a delta chain has 4097 steps and is proved to
    return for every chain within the code's depth limit, which the code itself refuses
    beyond ([Chains]); a LEB128 number has at most ten groups ([Wire]); the binary searches
    halve an interval for which the length is fuel enough ([Locator], [FlatIndex]); the glob
    walk and the scanners of [Text] and [LinkedIssues] take at least a byte a step; the
    paced loop of [Paging] is bounded by the pager's patience, a measure that falls with
    every answer; [Tarjan]'s stack machine is bounded by the edges it has left; a walk of the key
    chain goes to a lower epoch each step, and there are no more anchors than configs ([Epochs]).

    Parameters, for code that is not under [src/]: zlib and gzip, SHA-1, SHA-256 and HMAC,
    AES-GCM and HKDF, the WHATWG URL parser, hex and base58, the [git] binary, the [glob_match] crate, [serde_json] and the order a
    [HashMap] or directory is read in, Unicode lower-casing, and the
    commit graph where a rule asks it whether one commit contains another. Theorems that
    need a law of theirs name it as a hypothesis and have a witness.

    ** Not modelled

    Network, file and process I/O (the Platform client, storage back ends, the remote
    helper's fetching, packing and uploading, its pins, hook installation and progress,
    the [dg] command line, the relay's daemon, the importer, runner, gateway and notifier), key
    stores, sealed packs and letters, the TypeScript web client and the contract schemas. Of the
    rules, those listed as not modelled in the project manifest are left for later:
    boards, search, the history index and commit signatures. Printing for people (progress,
    notices, error words where the model keeps a constructor) is left out throughout. *)

(** Shared vocabulary of the development: the comparators and the stable sort of
    Rust's [slice::sort_by], [Iterator::max_by] and [min_by], the in-order
    iteration of [BTreeMap] and [BTreeSet], the saturating arithmetic of the
    machine integers, and the tactics and hints the components use. *)
From stdpp Require Export base gmap sets list strings sorting.
From Stdlib Require Export NArith ZArith Lia.
From Stdlib Require Ascii.
Export (notations) Stdlib.Strings.Ascii.

Declare Scope forge_scope.
Delimit Scope forge_scope with forge.

(** Rust's [==] on strings, integers, options and plain enums. *)
Notation "x == y" := (bool_decide (x = y)) (at level 70, no associativity) : forge_scope.
Notation "x != y" := (negb (bool_decide (x = y))) (at level 70, no associativity) : forge_scope.
Open Scope forge_scope.

Create HintDb forge.

(** ** Tactics *)

(** Case analysis on the boolean equality tests and the [decide]s of the goal. *)
Ltac case_tests :=
  repeat first [case_bool_decide | case_decide | case_match]; simplify_eq/=; try done.

(** Split every [Forall] over an explicit list into its elements. *)
Ltac split_forall :=
  repeat match goal with
  | H : Forall _ (_ :: _) |- _ => apply Forall_cons in H; destruct H
  end; cbv beta in *.

(** Split every boolean conjunction of the hypotheses into its conjuncts. *)
Ltac split_bools :=
  repeat match goal with
  | H : _ && _ = true |- _ => apply andb_true_iff in H; destruct H
  | H : negb _ = true |- _ => apply negb_true_iff in H
  | H : bool_decide _ = true |- _ => apply bool_decide_eq_true in H
  | H : bool_decide _ = false |- _ => apply bool_decide_eq_false in H
  end.

(** ** Machine integers *)

Definition u8_max : N := 255.
Definition u32_max : N := 4294967295.
Definition u64_max : N := 18446744073709551615.

(** [u64::saturating_add], [u64::saturating_mul] and [saturating_sub]. *)
Definition sat_add_u64 (a b : N) : N := N.min (a + b) u64_max.
Definition sat_mul_u64 (a b : N) : N := N.min (a * b) u64_max.
Definition sat_sub (a b : N) : N := (a - b)%N.

(** [u32::saturating_add]. *)
Definition sat_add_u32 (a b : N) : N := N.min (a + b) u32_max.

(** [u32::try_from] of a wider unsigned integer. *)
Definition u32_try_from (n : N) : option N := if (n <=? u32_max)%N then Some n else None.

(** ** Options *)

Definition is_some_and {A} (o : option A) (f : A -> bool) : bool :=
  match o with Some x => f x | None => false end.

Definition is_none_or {A} (o : option A) (f : A -> bool) : bool :=
  match o with Some x => f x | None => true end.

Definition opt_filter {A} (f : A -> bool) (o : option A) : option A :=
  match o with Some x => if f x then Some x else None | None => None end.

(** [matches!] of a number against literals. *)
Definition one_of (l : list N) (k : N) : bool := existsb (fun x => (k =? x)%N) l.

Lemma one_of_true l k : one_of l k = true <-> k ∈ l.
Proof.
  unfold one_of. rewrite existsb_exists, list_elem_of_In. split.
  - by intros (x & Hx & ->%N.eqb_eq).
  - intros Hk. exists k. by rewrite N.eqb_refl.
Qed.

Lemma is_some_and_true {A} (o : option A) f :
  is_some_and o f = true <-> exists x, o = Some x /\ f x = true.
Proof. destruct o as [x|]; simpl; [|by split; [|intros (? & ? & ?)]]. split; [by exists x|by intros (? & [= ->] & ?)]. Qed.

(** ** Lists *)

Lemma find_app {A} (f : A -> bool) l1 l2 :
  List.find f (l1 ++ l2) = match List.find f l1 with Some x => Some x | None => List.find f l2 end.
Proof. induction l1 as [|x l1 IH]; simpl; [done|]. by destruct (f x). Qed.

Lemma find_none_iff {A} (p : A -> bool) l : List.find p l = None <-> forall x, x ∈ l -> p x = false.
Proof.
  split; [intros H x Hx; by apply (List.find_none p l H), list_elem_of_In|].
  intros H. destruct (List.find p l) as [x|] eqn:E; [|done]. apply List.find_some in E as [Hin E].
  by rewrite H in E by by apply list_elem_of_In.
Qed.

Lemma filter_none {A} (f : A -> bool) l : (forall x, x ∈ l -> f x = false) -> List.filter f l = [].
Proof.
  induction l as [|x l IH]; intros H; simpl; [done|]. rewrite H by left. apply IH. intros y Hy. apply H. by right.
Qed.

Lemma List_filter_perm {A} (f : A -> bool) l1 l2 : l1 ≡ₚ l2 -> List.filter f l1 ≡ₚ List.filter f l2.
Proof.
  induction 1 as [|x l1 l2 _ IH|x y l|l1 l2 l3 _ IH1 _ IH2]; simpl; [done|by destruct (f x); rewrite IH| |by rewrite IH1].
  destruct (f x), (f y); try done. apply perm_swap.
Qed.

Lemma omap_filter {A B} (p : A -> bool) (f : A -> option B) (l : list A) :
  omap f (List.filter p l) = omap (fun x => if p x then f x else None) l.
Proof. induction l as [|x l IH]; [done|]. csimpl. rewrite <-IH. by destruct (p x). Qed.

Lemma omap_ext {A B} (f g : A -> option B) (l : list A) : (forall x, f x = g x) -> omap f l = omap g l.
Proof. intros H. induction l as [|x l IH]; [done|]. csimpl. by rewrite H, IH. Qed.

Lemma mapM_opt_app {A B} (f : A -> option B) l1 l2 :
  mapM f (l1 ++ l2) = (k1 ← mapM f l1; k2 ← mapM f l2; Some (k1 ++ k2)).
Proof.
  induction l1 as [|x l1 IH]; simpl; [by destruct (mapM f l2)|].
  destruct (f x); simpl; [|done]. rewrite IH.
  destruct (mapM f l1); simpl; [|done]. by destruct (mapM f l2).
Qed.

Lemma find_rev_last {A} (f : A -> bool) (l : list A) x :
  List.find f (rev l) = Some x <-> exists l1 l2, l = l1 ++ x :: l2 /\ f x = true /\ forall y, y ∈ l2 -> f y = false.
Proof.
  induction l as [|y l IH] using rev_ind.
  { split; [done|by intros ([] & ? & ? & _)]. }
  rewrite rev_unit. simpl. destruct (f y) eqn:Hf.
  - split; [intros [= ->]; exists l, []; split_and!; [done|done|by intros ? ?%not_elem_of_nil]|].
    intros (l1 & l2 & Heq & Hx & Hl2). destruct l2 as [|z l2 _] using rev_ind.
    + by apply app_inj_tail in Heq as [_ ->].
    + rewrite app_comm_cons, app_assoc in Heq. apply app_inj_tail in Heq as [_ ->].
      rewrite Hl2 in Hf; [done|set_solver].
  - rewrite IH. split.
    + intros (l1 & l2 & -> & Hx & Hl2). exists l1, (l2 ++ [y]). rewrite <-app_assoc. split_and!; [done..|].
      intros z [?| ->%list_elem_of_singleton]%elem_of_app; auto.
    + intros (l1 & l2 & Heq & Hx & Hl2). destruct l2 as [|z l2 _] using rev_ind.
      { apply app_inj_tail in Heq as [_ ->]. congruence. }
      rewrite app_comm_cons, app_assoc in Heq. apply app_inj_tail in Heq as [-> ->].
      exists l1, l2. split_and!; [done..|]. intros w Hw. apply Hl2. set_solver.
Qed.

Lemma app_sep_inj {A} (c : A) l1 l2 r1 r2 : c ∉ l1 -> c ∉ r1 -> l1 ++ c :: l2 = r1 ++ c :: r2 -> l1 = r1 /\ l2 = r2.
Proof.
  revert r1. induction l1 as [|x l1 IH]; intros [|y r1]; simpl; rewrite ?not_elem_of_cons; intros Hl Hr [=]; subst; try done.
  - by destruct Hr.
  - by destruct Hl.
  - destruct Hl, Hr. by edestruct (IH r1) as [-> ->].
Qed.

Lemma last_omap_Some {A B} (f : A -> option B) l y :
  last (omap f l) = Some y <-> exists l1 x l2, l = l1 ++ x :: l2 /\ f x = Some y /\ forall z, z ∈ l2 -> f z = None.
Proof.
  induction l as [|x l IH] using rev_ind.
  { split; [done|by intros ([] & ? & ? & ? & _)]. }
  rewrite omap_app. simpl. destruct (f x) as [y'|] eqn:Hx; simpl.
  - rewrite last_snoc. split.
    + intros [= ->]. exists l, x, []. split_and!; [done|done|by intros ? ?%not_elem_of_nil].
    + intros (l1 & z & l2 & Heq & Hz & Hn). destruct l2 as [|w l2 _] using rev_ind.
      * apply app_inj_tail in Heq as [_ ->]. congruence.
      * rewrite app_comm_cons, app_assoc in Heq. apply app_inj_tail in Heq as [_ ->].
        rewrite Hn in Hx; [done|]. apply elem_of_app. right. left.
  - rewrite app_nil_r, IH. split.
    + intros (l1 & z & l2 & -> & Hz & Hn). exists l1, z, (l2 ++ [x]). rewrite <-app_assoc. split_and!; [done..|].
      intros w [Hw|Hw%list_elem_of_singleton]%elem_of_app; [by apply Hn|by subst].
    + intros (l1 & z & l2 & Heq & Hz & Hn). destruct l2 as [|w l2 _] using rev_ind.
      { apply app_inj_tail in Heq as [_ ->]. congruence. }
      rewrite app_comm_cons, app_assoc in Heq. apply app_inj_tail in Heq as [-> ->].
      exists l1, z, l2. split_and!; [done..|]. intros v Hv. apply Hn, elem_of_app. by left.
Qed.

Lemma last_None_nil {A} (l : list A) : last l = None <-> l = [].
Proof. destruct l as [|x l _] using rev_ind; [done|]. rewrite last_snoc. split; [done|]. by destruct l. Qed.

(** ** Total preorders as comparison functions *)

(** What [sort_by] asks of its comparison: the order is total and transitive. *)
Class CmpOrd {A} (cmp : A -> A -> comparison) : Prop := {
  cmp_opp : forall x y, cmp y x = CompOpp (cmp x y);
  cmp_trans : forall x y z, cmp x y <> Gt -> cmp y z <> Gt -> cmp x z <> Gt
}.

(** The comparison tells every two values apart. *)
Class CmpStrict {A} (cmp : A -> A -> comparison) : Prop :=
  cmp_eq : forall x y, cmp x y = Eq -> x = y.

(** [Ordering::then_with]. *)
Definition cmp_then {A} (c1 c2 : A -> A -> comparison) (x y : A) : comparison :=
  match c1 x y with Eq => c2 x y | o => o end.

(** Comparison by a key, and the reversed comparison. *)
Definition cmp_on {A B} (f : A -> B) (c : B -> B -> comparison) (x y : A) : comparison := c (f x) (f y).
Definition cmp_rev {A} (c : A -> A -> comparison) (x y : A) : comparison := c y x.

(** [bool]'s order: [false] first. *)
Definition bool_cmp (a b : bool) : comparison :=
  match a, b with false, true => Lt | true, false => Gt | _, _ => Eq end.

Section cmp.
Context {A : Type} (c : A -> A -> comparison) `{!CmpOrd c}.

Lemma cmp_refl x : c x x = Eq.
Proof. pose proof (cmp_opp (cmp := c) x x). destruct (c x x); done. Qed.

Lemma cmp_le_total x y : c x y <> Gt \/ c y x <> Gt.
Proof. rewrite (cmp_opp (cmp := c) x y). destruct (c x y); simpl; auto. Qed.

Lemma cmp_gt_lt x y : c x y = Gt <-> c y x = Lt.
Proof. rewrite (cmp_opp (cmp := c) x y). destruct (c x y); simpl; naive_solver. Qed.

Lemma cmp_eq_sym x y : c x y = Eq -> c y x = Eq.
Proof. rewrite (cmp_opp (cmp := c) x y). by intros ->. Qed.

Lemma cmp_eq_trans x y z : c x y = Eq -> c y z = Eq -> c x z = Eq.
Proof.
  intros H1 H2.
  assert (c x z <> Gt) as Hxz by (apply (cmp_trans (cmp := c) x y z); congruence).
  assert (c z x <> Gt) as Hzx by (apply (cmp_trans (cmp := c) z y x); [rewrite (cmp_opp (cmp := c) y z), H2|rewrite (cmp_opp (cmp := c) x y), H1]; done).
  rewrite (cmp_opp (cmp := c) x z) in Hzx. destruct (c x z); done.
Qed.

Lemma cmp_lt_le_trans x y z : c x y = Lt -> c y z <> Gt -> c x z = Lt.
Proof.
  intros H1 H2. destruct (c x z) eqn:E; [|done|].
  - exfalso. apply (cmp_trans (cmp := c) y z x H2); [by rewrite (cmp_opp (cmp := c) x z), E|by apply cmp_gt_lt].
  - exfalso. apply (cmp_trans (cmp := c) y z x H2); [by rewrite (cmp_opp (cmp := c) x z), E|by apply cmp_gt_lt].
Qed.

Lemma cmp_le_lt_trans x y z : c x y <> Gt -> c y z = Lt -> c x z = Lt.
Proof.
  intros H1 H2. destruct (c x z) eqn:E; [|done|].
  - exfalso. apply (cmp_trans (cmp := c) z x y); [by rewrite (cmp_opp (cmp := c) x z), E|done|by apply cmp_gt_lt].
  - exfalso. apply (cmp_trans (cmp := c) z x y); [by rewrite (cmp_opp (cmp := c) x z), E|done|by apply cmp_gt_lt].
Qed.
End cmp.

#[global] Typeclasses Opaque cmp_then cmp_on cmp_rev.

#[export] Instance cmp_then_ord {A} (c1 c2 : A -> A -> comparison) `{!CmpOrd c1, !CmpOrd c2} :
  CmpOrd (cmp_then c1 c2).
Proof.
  split; unfold cmp_then.
  - intros x y. rewrite (cmp_opp (cmp := c1) x y). destruct (c1 x y); simpl; [apply cmp_opp|done|done].
  - intros x y z. destruct (c1 x y) eqn:H1; [| |done]; destruct (c1 y z) eqn:H2; try done; intros ??.
    + rewrite (cmp_eq_trans c1 x y z) by done. by eapply cmp_trans.
    + by rewrite (cmp_le_lt_trans c1 x y z) by congruence.
    + by rewrite (cmp_lt_le_trans c1 x y z) by congruence.
    + by rewrite (cmp_lt_le_trans c1 x y z) by congruence.
Qed.

#[export] Instance cmp_on_ord {A B} (f : A -> B) c `{!CmpOrd c} : CmpOrd (cmp_on f c).
Proof. split; unfold cmp_on; intros; [apply cmp_opp|by eapply cmp_trans]. Qed.

#[export] Instance cmp_rev_ord {A} (c : A -> A -> comparison) `{!CmpOrd c} : CmpOrd (cmp_rev c).
Proof. split; unfold cmp_rev; intros; [apply cmp_opp|by eapply cmp_trans]. Qed.

#[export] Instance N_compare_ord : CmpOrd N.compare.
Proof. split; intros; [apply N.compare_antisym|]. rewrite N.compare_le_iff in *. lia. Qed.

#[export] Instance N_compare_strict : CmpStrict N.compare.
Proof. intros x y. apply N.compare_eq. Qed.

#[export] Instance bool_cmp_ord : CmpOrd bool_cmp.
Proof. split; [by intros [] []|by intros [] [] []]. Qed.

Lemma ascii_compare_le a b : Ascii.compare a b <> Gt <-> (Ascii.N_of_ascii a <= Ascii.N_of_ascii b)%N.
Proof. apply N.compare_le_iff. Qed.

#[export] Instance ascii_compare_ord : CmpOrd Ascii.compare.
Proof.
  split; intros; [apply Ascii.compare_antisym|]. rewrite ascii_compare_le in *. lia.
Qed.

(** Rust compares strings byte by byte. *)
#[export] Instance str_compare_ord : CmpOrd String.compare.
Proof.
  split; [intros x y; apply String.compare_antisym|].
  intros x y z. revert x z. induction y as [|b y IH]; intros [|a x] [|d z]; simpl; try done.
  destruct (Ascii.compare a b) eqn:E1; [| |done]; destruct (Ascii.compare b d) eqn:E2; try done; intros H1 H2.
  - rewrite (cmp_eq_trans Ascii.compare a b d) by done. by apply IH.
  - by rewrite (cmp_le_lt_trans Ascii.compare a b d) by congruence.
  - by rewrite (cmp_lt_le_trans Ascii.compare a b d) by congruence.
  - by rewrite (cmp_lt_le_trans Ascii.compare a b d) by congruence.
Qed.

#[export] Instance str_compare_strict : CmpStrict String.compare.
Proof. intros x y. apply String.compare_eq_iff. Qed.

(** ** The stable sort *)

Section sort_by.
Context {A : Type} (c : A -> A -> comparison).

Fixpoint sort_insert (x : A) (l : list A) : list A :=
  match l with
  | [] => [x]
  | y :: l' => match c x y with Gt => y :: sort_insert x l' | _ => x :: l end
  end.

(** [slice::sort_by], which is stable. *)
Definition sort_by (l : list A) : list A := foldr sort_insert [] l.

(** [Iterator::max_by]: the last of the greatest elements. *)
Definition max_by (l : list A) : option A :=
  foldl (fun acc y => match acc with
                | None => Some y
                | Some x => Some (match c x y with Gt => x | _ => y end)
                end) None l.

(** [Iterator::min_by]: the first of the least elements. *)
Definition min_by (l : list A) : option A :=
  foldl (fun acc y => match acc with
                | None => Some y
                | Some x => Some (match c x y with Gt => y | _ => x end)
                end) None l.

Abbreviation le := (fun x y => c x y <> Gt).

Lemma sort_insert_perm x l : sort_insert x l ≡ₚ x :: l.
Proof.
  induction l as [|y l IH]; simpl; [done|]. destruct (c x y); try done.
  rewrite IH. apply perm_swap.
Qed.

Lemma sort_by_perm l : sort_by l ≡ₚ l.
Proof. induction l as [|x l IH]; simpl; [done|]. by rewrite sort_insert_perm, IH. Qed.

Lemma elem_of_sort_by x l : x ∈ sort_by l <-> x ∈ l.
Proof. by rewrite sort_by_perm. Qed.

Lemma sort_by_nil l : sort_by l = [] <-> l = [].
Proof.
  split; [|by intros ->]. intros H. apply Permutation_nil. by rewrite <-H, sort_by_perm.
Qed.

Context `{!CmpOrd c}.

Lemma sort_insert_sorted x l : StronglySorted le l -> StronglySorted le (sort_insert x l).
Proof.
  induction 1 as [|y l Hl IH Hy]; simpl; [by repeat constructor|].
  assert (c x y <> Gt -> StronglySorted le (x :: y :: l)).
  { intros Hxy. constructor; [by constructor|]. constructor; [done|].
    eapply Forall_impl; [exact Hy|]. simpl. intros z Hz. by eapply cmp_trans. }
  destruct (c x y) eqn:E; try (apply H; congruence).
  constructor; [done|]. rewrite sort_insert_perm. constructor; [|done].
  apply (cmp_gt_lt c) in E. congruence.
Qed.

Lemma sort_by_sorted l : StronglySorted le (sort_by l).
Proof. induction l; simpl; [constructor|by apply sort_insert_sorted]. Qed.

(** Sorting forgets the order of the input when no two of its elements tie. *)
Lemma sort_by_unique l1 l2 :
  l1 ≡ₚ l2 -> (forall x y, x ∈ l1 -> y ∈ l1 -> c x y = Eq -> x = y) -> sort_by l1 = sort_by l2.
Proof.
  intros Hp Hinj. apply (StronglySorted_unique_strong le).
  - intros x y Hx Hy H1 H2. rewrite elem_of_sort_by in Hx, Hy.
    rewrite <-Hp in Hy. apply Hinj; [done..|].
    rewrite (cmp_opp (cmp := c) x y) in H2. destruct (c x y); done.
  - apply sort_by_sorted.
  - apply sort_by_sorted.
  - by rewrite !sort_by_perm.
Qed.

Lemma sort_insert_le x l : Forall (le x) l -> sort_insert x l = x :: l.
Proof. destruct l as [|y l]; [done|]. simpl. intros [H _]%Forall_cons. by destruct (c x y). Qed.

Lemma sort_by_id l : StronglySorted le l -> sort_by l = l.
Proof. induction 1 as [|x l ? IH]; simpl; [done|]. rewrite IH. by apply sort_insert_le. Qed.

Lemma sort_insert_filter (p : A -> bool) x l :
  StronglySorted le l ->
  List.filter p (sort_insert x l) = if p x then sort_insert x (List.filter p l) else List.filter p l.
Proof.
  induction 1 as [|y l Hl IH Hy]; simpl; [by destruct (p x)|].
  assert (c x y <> Gt -> Forall (le x) (List.filter p (y :: l))) as Hle.
  { intros Hxy. apply List.Forall_forall. intros z [Hz _]%filter_In.
    destruct Hz as [<-|Hz]; [done|]. rewrite List.Forall_forall in Hy.
    eapply cmp_trans; [exact Hxy|by apply Hy]. }
  destruct (c x y) eqn:E; simpl.
  - destruct (p x) eqn:Ex; [|done]. rewrite sort_insert_le; [done|by apply Hle].
  - destruct (p x) eqn:Ex; [|done]. rewrite sort_insert_le; [done|by apply Hle].
  - rewrite IH. destruct (p y), (p x); simpl; rewrite ?E; done.
Qed.

Lemma sort_insert_app x l1 l2 :
  (forall y, y ∈ l2 -> c x y <> Gt) -> sort_insert x (l1 ++ l2) = sort_insert x l1 ++ l2.
Proof.
  intros H. induction l1 as [|y l1 IH]; simpl.
  - apply sort_insert_le. by apply Forall_forall.
  - destruct (c x y); [done|done|]. simpl. by rewrite IH.
Qed.

Lemma sort_by_app l1 l2 :
  (forall x y, x ∈ l1 -> y ∈ l2 -> c x y <> Gt) -> sort_by (l1 ++ l2) = sort_by l1 ++ sort_by l2.
Proof.
  induction l1 as [|x l1 IH]; intros H; simpl; [done|].
  rewrite IH by (intros; apply H; [by right|done]). apply sort_insert_app.
  intros y. rewrite elem_of_sort_by. intros Hy. apply H; [left|done].
Qed.

(** Filtering before or after the sort is the same: the sort is stable. *)
Lemma sort_by_filter (p : A -> bool) l : List.filter p (sort_by l) = sort_by (List.filter p l).
Proof.
  induction l as [|x l IH]; simpl; [done|].
  rewrite sort_insert_filter by apply sort_by_sorted. rewrite IH. by destruct (p x).
Qed.
End sort_by.

#[export] Hint Resolve sort_by_perm sort_by_sorted : forge.

(** ** Extremal elements *)

Section max_by.
Context {A : Type} (c : A -> A -> comparison) `{!CmpOrd c}.

Definition max2 (x y : A) : A := match c x y with Gt => x | _ => y end.

Lemma max2_le_l x y : c x (max2 x y) <> Gt.
Proof. unfold max2. destruct (c x y) eqn:E; [congruence..|]. by rewrite (cmp_refl c). Qed.
Lemma max2_le_r x y : c y (max2 x y) <> Gt.
Proof.
  unfold max2. destruct (c x y) eqn:E; try by rewrite (cmp_refl c).
  apply (cmp_gt_lt c) in E. congruence.
Qed.

Lemma max2_assoc x y z : max2 x (max2 y z) = max2 (max2 x y) z.
Proof.
  unfold max2. destruct (c y z) eqn:Hyz, (c x y) eqn:Hxy; rewrite ?Hyz, ?Hxy; try done.
  - by rewrite (cmp_eq_trans c x y z).
  - by rewrite (cmp_lt_le_trans c x y z) by congruence.
  - by rewrite (cmp_le_lt_trans c x y z) by congruence.
  - by rewrite (cmp_lt_le_trans c x y z) by congruence.
  - assert (c x z = Gt) as ->; [|done].
    apply (cmp_gt_lt c). apply (cmp_gt_lt c) in Hyz, Hxy.
    apply (cmp_lt_le_trans c z y x); congruence.
Qed.

Lemma foldl_max2_spec x l :
  let m := foldl max2 x l in m ∈ x :: l /\ forall y, y ∈ x :: l -> c y m <> Gt.
Proof.
  revert x. induction l as [|z l IH]; intros x; simpl.
  { split; [left|]. intros y ->%list_elem_of_singleton. by rewrite (cmp_refl c). }
  destruct (IH (max2 x z)) as [Hin Hle]. simpl in *. split.
  - apply elem_of_cons in Hin as [->|Hin]; [|by do 2 right].
    unfold max2. destruct (c x z); [right; left|right; left|left].
  - intros y Hy. rewrite !elem_of_cons in Hy. destruct Hy as [->|[->|Hy]].
    + eapply (cmp_trans (cmp := c)); [apply max2_le_l|]. apply Hle. left.
    + eapply (cmp_trans (cmp := c)); [apply max2_le_r|]. apply Hle. left.
    + apply Hle. by right.
Qed.

Lemma max_by_cons x l : max_by c (x :: l) = Some (foldl max2 x l).
Proof. unfold max_by. simpl. revert x. induction l as [|z l IH]; intros x; simpl; [done|]. apply IH. Qed.

Lemma max_by_None l : max_by c l = None <-> l = [].
Proof. destruct l; [done|]. by rewrite max_by_cons. Qed.

Lemma max_by_Some l m : max_by c l = Some m -> m ∈ l /\ forall y, y ∈ l -> c y m <> Gt.
Proof. destruct l as [|x l]; [done|]. rewrite max_by_cons. intros [= <-]. apply foldl_max2_spec. Qed.

Definition min2 (x y : A) : A := match c x y with Gt => y | _ => x end.

Lemma min2_le_l x y : c (min2 x y) x <> Gt.
Proof.
  unfold min2. destruct (c x y) eqn:E; try by rewrite (cmp_refl c).
  apply (cmp_gt_lt c) in E. congruence.
Qed.
Lemma min2_le_r x y : c (min2 x y) y <> Gt.
Proof. unfold min2. destruct (c x y) eqn:E; try congruence. by rewrite (cmp_refl c). Qed.

Lemma foldl_min2_spec x l :
  let m := foldl min2 x l in m ∈ x :: l /\ forall y, y ∈ x :: l -> c m y <> Gt.
Proof.
  revert x. induction l as [|z l IH]; intros x; simpl.
  { split; [left|]. intros y ->%list_elem_of_singleton. by rewrite (cmp_refl c). }
  destruct (IH (min2 x z)) as [Hin Hle]. simpl in *. split.
  - apply elem_of_cons in Hin as [->|Hin]; [|by do 2 right].
    unfold min2. destruct (c x z); [left|left|right; left].
  - intros y Hy. rewrite !elem_of_cons in Hy. destruct Hy as [->|[->|Hy]].
    + eapply (cmp_trans (cmp := c)); [|apply min2_le_l]. apply Hle. left.
    + eapply (cmp_trans (cmp := c)); [|apply min2_le_r]. apply Hle. left.
    + apply Hle. by right.
Qed.

Lemma min_by_cons x l : min_by c (x :: l) = Some (foldl min2 x l).
Proof. unfold min_by. simpl. revert x. induction l as [|z l IH]; intros x; simpl; [done|]. apply IH. Qed.

Lemma min_by_None l : min_by c l = None <-> l = [].
Proof. destruct l; [done|]. by rewrite min_by_cons. Qed.

Lemma min_by_Some l m : min_by c l = Some m -> m ∈ l /\ forall y, y ∈ l -> c m y <> Gt.
Proof. destruct l as [|x l]; [done|]. rewrite min_by_cons. intros [= <-]. apply foldl_min2_spec. Qed.

Lemma last_sort_insert x l :
  StronglySorted (fun x y => c x y <> Gt) l ->
  last (sort_insert c x l) = Some (match last l with Some z => max2 x z | None => x end).
Proof.
  intros Hs. induction Hs as [|y l Hl IH Hy]; simpl; [done|].
  assert (c x y <> Gt -> last (x :: y :: l) = Some (from_option (max2 x) x (last (y :: l)))) as Hle.
  { intros Hxy. rewrite (last_cons x (y :: l)). destruct (last (y :: l)) as [z|] eqn:Hz; [|done].
    simpl. f_equal. unfold max2. destruct (c x z) eqn:E; try done. exfalso.
    apply last_Some_elem_of, elem_of_cons in Hz as [->|Hz]; [done|].
    rewrite Forall_forall in Hy. apply (cmp_trans (cmp := c) x y z); [done|by apply Hy|done]. }
  change (match l with [] => Some y | _ :: _ => last l end) with (last (y :: l)).
  assert (c x y <> Gt -> last (x :: y :: l) = Some (match last (y :: l) with Some z => max2 x z | None => x end)) as Hle'.
  { intros Hxy. rewrite Hle by done. by destruct (last (y :: l)). }
  destruct (c x y) eqn:E; try (apply Hle'; congruence).
  rewrite last_cons, IH. rewrite last_cons. destruct (last l) as [z|]; simpl; [done|].
  unfold max2. by rewrite E.
Qed.

(** The maximum is the last element of the sorted list. *)
Lemma max_by_last_sort l : max_by c l = last (sort_by c l).
Proof.
  induction l as [|x l IH]; [done|]. simpl. rewrite last_sort_insert by (apply sort_by_sorted; apply _).
  rewrite <-IH, max_by_cons. f_equal. destruct l as [|y l]; [done|]. rewrite max_by_cons. simpl.
  clear IH. revert x y. induction l as [|z l IH]; intros x y; simpl; [done|].
  rewrite <-IH. f_equal. by rewrite max2_assoc.
Qed.
End max_by.

Lemma find_least {A} (cmp : A -> A -> comparison) `{!CmpOrd cmp} (f : A -> bool) l :
  StronglySorted (fun x y => cmp x y <> Gt) l ->
  match List.find f l with
  | Some x => (x ∈ l) /\ f x = true /\ forall y, y ∈ l -> f y = true -> cmp x y <> Gt
  | None => forall y, y ∈ l -> f y = false
  end.
Proof.
  induction 1 as [|x l _ IH Hx]; simpl; [by intros y ?%not_elem_of_nil|].
  rewrite Forall_forall in Hx. destruct (f x) eqn:Hf.
  - split_and!; [left|done|]. intros y [->|Hy]%elem_of_cons _; [by rewrite (cmp_refl cmp)|by apply Hx].
  - destruct (List.find f l) as [z|].
    + destruct IH as (Hz & Hfz & Hle). split_and!; [by right|done|].
      intros y [->|Hy]%elem_of_cons Hfy; [congruence|by apply Hle].
    + intros y [->|Hy]%elem_of_cons; [done|by apply IH].
Qed.

Lemma sorted_filter {A} (R : A -> A -> Prop) (f : A -> bool) l : StronglySorted R l -> StronglySorted R (List.filter f l).
Proof.
  induction 1 as [|x l Hs IH Hx]; simpl; [constructor|]. destruct (f x); [|done]. constructor; [done|].
  rewrite Forall_forall in Hx |- *. intros y Hy%list_elem_of_In. apply filter_In in Hy as [Hy _]. apply Hx. by apply list_elem_of_In.
Qed.

(** ** In-order iteration of [BTreeMap<String, V>] and [BTreeSet<String>] *)

Definition btree_items {V} (m : gmap string V) : list (string * V) :=
  sort_by (cmp_on fst String.compare) (map_to_list m).
Definition btree_keys {V} (m : gmap string V) : list string := map fst (btree_items m).
Definition btree_elems (s : gset string) : list string := sort_by String.compare (elements s).

Lemma elem_of_btree_items {V} (m : gmap string V) k v : (k, v) ∈ btree_items m <-> m !! k = Some v.
Proof. unfold btree_items. by rewrite elem_of_sort_by, elem_of_map_to_list. Qed.

Lemma elem_of_btree_elems s x : x ∈ btree_elems s <-> x ∈ s.
Proof. unfold btree_elems. by rewrite elem_of_sort_by, elem_of_elements. Qed.

Lemma NoDup_btree_items {V} (m : gmap string V) : NoDup (map fst (btree_items m)).
Proof.
  unfold btree_items. change (map fst) with (fmap (M := list) (@fst string V)).
  rewrite sort_by_perm. apply NoDup_fst_map_to_list.
Qed.

Lemma elem_of_btree_keys {V} (m : gmap string V) k : k ∈ btree_keys m <-> exists v, m !! k = Some v.
Proof.
  unfold btree_keys. rewrite list_elem_of_In, in_map_iff. split.
  - intros ([k' v] & <- & H%list_elem_of_In%elem_of_btree_items). by exists v.
  - intros (v & H%elem_of_btree_items%list_elem_of_In). by exists (k, v).
Qed.

Lemma btree_keys_sorted {V} (m : gmap string V) : StronglySorted (fun x y => String.compare x y <> Gt) (btree_keys m).
Proof.
  unfold btree_keys, btree_items. induction (sort_by_sorted (cmp_on fst String.compare) (map_to_list m)) as [|x l _ IH Hx];
    simpl; constructor; [done|]. apply Forall_map. eapply Forall_impl; [exact Hx|]. done.
Qed.

Lemma NoDup_btree_elems s : NoDup (btree_elems s).
Proof. unfold btree_elems. rewrite sort_by_perm. apply NoDup_elements. Qed.

Lemma btree_elems_sorted s : StronglySorted (fun x y => String.compare x y <> Gt) (btree_elems s).
Proof. apply sort_by_sorted, _. Qed.

(** ** Strings (Rust's UTF-8 [String], as its bytes) *)

Definition bytes (s : string) : list Ascii.ascii := String.list_ascii_of_string s.
Definition of_bytes (l : list Ascii.ascii) : string := String.string_of_list_ascii l.
Definition byte_val (a : Ascii.ascii) : N := Ascii.N_of_ascii a.

Lemma of_bytes_bytes s : of_bytes (bytes s) = s.
Proof. apply String.string_of_list_ascii_of_string. Qed.
Lemma bytes_of_bytes l : bytes (of_bytes l) = l.
Proof. apply String.list_ascii_of_string_of_list_ascii. Qed.
Lemma bytes_app s t : bytes (s +:+ t) = bytes s ++ bytes t.
Proof. induction s as [|a s IH]; simpl; [done|]. by rewrite <-IH. Qed.
Lemma length_bytes s : length (bytes s) = String.length s.
Proof. induction s as [|a s IH]; simpl; [done|]. by rewrite <-IH. Qed.

Lemma str_nil_app s : "" +:+ s = s.
Proof. done. Qed.
Lemma str_cons_app a s t : String a s +:+ t = String a (s +:+ t).
Proof. done. Qed.
Lemma str_app_assoc s t u : (s +:+ t) +:+ u = s +:+ t +:+ u.
Proof. induction s as [|a s IH]; rewrite ?str_nil_app, ?str_cons_app; [done|]. by rewrite IH. Qed.
Lemma str_app_nil s : s +:+ "" = s.
Proof. induction s as [|a s IH]; rewrite ?str_nil_app, ?str_cons_app; [done|]. by rewrite IH. Qed.

(** [str::strip_prefix], [starts_with], [strip_suffix], [ends_with] on bytes. *)
Fixpoint strip_prefix (p s : string) : option string :=
  match p, s with
  | EmptyString, _ => Some s
  | String a p', String b s' => if a == b then strip_prefix p' s' else None
  | String _ _, EmptyString => None
  end.
Definition starts_with (p s : string) : bool := is_some_and (strip_prefix p s) (fun _ => true).
Definition str_rev (s : string) : string := of_bytes (rev (bytes s)).
Definition strip_suffix (p s : string) : option string :=
  match strip_prefix (str_rev p) (str_rev s) with Some r => Some (str_rev r) | None => None end.
Definition ends_with (p s : string) : bool := is_some_and (strip_suffix p s) (fun _ => true).

(** [str::contains] with a string needle. *)
Fixpoint str_contains (needle s : string) : bool :=
  starts_with needle s ||
  match s with EmptyString => false | String _ s' => str_contains needle s' end.

(** [str::split] on a one-byte separator: always at least one piece. *)
Fixpoint split_on (sep : Ascii.ascii -> bool) (s : string) : list string :=
  match s with
  | EmptyString => [EmptyString]
  | String a s' =>
    if sep a then EmptyString :: split_on sep s'
    else match split_on sep s' with
         | p :: ps => String a p :: ps
         | [] => [String a EmptyString]
         end
  end.

(** [[T]::join] with a string separator. *)
Fixpoint str_join (sep : string) (l : list string) : string :=
  match l with
  | [] => EmptyString
  | [s] => s
  | s :: l' => s +:+ sep +:+ str_join sep l'
  end.

Definition in_range (lo hi : Ascii.ascii) (a : Ascii.ascii) : bool :=
  ((byte_val lo <=? byte_val a) && (byte_val a <=? byte_val hi))%N.
Definition is_digit (a : Ascii.ascii) : bool := in_range "0"%char "9"%char a.
Definition is_lower (a : Ascii.ascii) : bool := in_range "a"%char "z"%char a.
Definition is_upper (a : Ascii.ascii) : bool := in_range "A"%char "Z"%char a.
Definition is_alpha (a : Ascii.ascii) : bool := is_lower a || is_upper a.
Definition is_alnum (a : Ascii.ascii) : bool := is_alpha a || is_digit a.
Definition is_hex_digit (a : Ascii.ascii) : bool :=
  is_digit a || in_range "a"%char "f"%char a || in_range "A"%char "F"%char a.

(** [to_ascii_lowercase] and [eq_ignore_ascii_case]. *)
Definition lower (a : Ascii.ascii) : Ascii.ascii :=
  if is_upper a then Ascii.ascii_of_N (byte_val a + 32) else a.
Definition to_lower (s : string) : string := of_bytes (map lower (bytes s)).
Definition eq_ignore_case (s t : string) : bool := to_lower s == to_lower t.

(** The longest prefix of values that pass a test, and the rest. *)
Fixpoint span {A} (p : A -> bool) (l : list A) : list A * list A :=
  match l with
  | [] => ([], [])
  | x :: l' => if p x then let '(a, b) := span p l' in (x :: a, b) else ([], l)
  end.

Lemma span_spec {A} (p : A -> bool) l a b :
  span p l = (a, b) <-> l = a ++ b /\ Forall (fun x => p x = true) a /\ is_some_and (head b) p = false.
Proof.
  revert a b. induction l as [|x l IH]; intros a b; simpl.
  { split; [intros [= <- <-]; by split_and!|]. intros (Heq & _ & _). by destruct a, b. }
  destruct (p x) eqn:Hx.
  - destruct (span p l) as [a' b'] eqn:E. split.
    + intros [= <- <-]. destruct (proj1 (IH a' b') eq_refl) as (-> & Ha & Hb). split_and!; [done|by constructor|done].
    + intros (Heq & Ha & Hb). destruct a as [|y a]; simpl in *; [subst b; simpl in Hb; congruence|]. injection Heq as <- Heq.
      apply Forall_cons in Ha as [_ Ha]. assert ((a', b') = (a, b)) as [= -> ->] by by apply IH. done.
  - split.
    + intros [= <- <-]. simpl. rewrite Hx. by split_and!; [|constructor|].
    + intros (Heq & Ha & Hb). destruct a as [|y a]; simpl in *; [by subst|]. injection Heq as <- Heq.
      apply Forall_cons in Ha as [Ha _]. congruence.
Qed.

(** A run of [p] bytes before a byte that is none is the run [span] takes. *)
Lemma span_app {A} (p : A -> bool) a b :
  Forall (fun x => p x = true) a -> is_some_and (head b) p = false -> span p (a ++ b) = (a, b).
Proof. intros Ha Hb. by apply span_spec. Qed.

Lemma bytes_inj s t : bytes s = bytes t -> s = t.
Proof. intros H. by rewrite <-(of_bytes_bytes s), H, of_bytes_bytes. Qed.

Lemma filter_sublist {A} (f : A -> bool) l : sublist (List.filter f l) l.
Proof. induction l as [|x l IH]; simpl; [done|]. by destruct (f x); constructor. Qed.

Lemma StronglySorted_sublist {A} (R : A -> A -> Prop) l k :
  sublist k l -> StronglySorted R l -> StronglySorted R k.
Proof.
  induction 1 as [|x k l Hs IH|x k l Hs IH]; [done|..]; intros [Hl Hx]%StronglySorted_inv.
  - constructor; [by apply IH|]. rewrite Forall_forall in Hx |- *. intros y Hy. apply Hx.
    eapply elem_of_sublist; [exact Hy|exact Hs].
  - by apply IH.
Qed.
