(* ===== verification/Wire.v ===== *)
(** Bytes on the wire: outcomes of a fallible routine, big-endian integers, LEB128 varints and
    UTF-8, shared by the formats the other files parse. *)
From S2P Require Import Prelude.
From stdpp Require Export pretty.

(** ** Definitions *)

Abbreviation byte := Ascii.ascii.
Definition u16_max : N := 65535.
Definition len {A} (l : list A) : N := N.of_nat (length l).
Definition byte_of (n : N) : byte := Ascii.ascii_of_N n.


(** *** Outcomes *)

(** The crate's errors ([error.rs]), each with what it reports; a [Serde] error is its message. *)
Record UserError := mkUserError {
  ue_code : string;
  ue_message : string;
  ue_cause : option string;
  ue_fix : list string;
  ue_note : option string;
  ue_docs_url : option string;
}.

Inductive Error :=
  | InsufficientCredits (needed available : N)
  | Timeout (retryable : bool)
  | IncompleteRead (document_type : string) (fetched : N) (reason : string)
  | NotFound
  | IdentityNotFound (identity_id network : string) (key_network : option string)
  | DuplicateUniqueIndex (what : string)
  | Integrity
  | StaleProtocolVersion (what : string)
  | Nonce
  | Serde (error : string)
  | Io (msg : string)
  | Config (msg : string)
  | InvalidInput (msg : string)
  | V2NotDeployed (network : string)
  | ContractsMissing (network detail : string)
  | NotAMember (document_type detail : string)
  | ReferenceNotFound (document_type path detail : string)
  | FrozenField (document_type property detail : string)
  | RuleRefused (document_type rule detail : string)
  | NotPermitted (action reason needs : string)
  | Platform (msg : string)
  | CompositeRefused (unsupported : bool) (reason : string)
  | User (error : UserError).

(** A result of the code; [Panic] is an index or slice out of range, or an [expect] that fails. *)
Inductive Result (A : Type) := Ok (a : A) | Err (e : Error) | Panic.
Arguments Ok {A} a.
Arguments Err {A} e.
Arguments Panic {A}.

#[export] Instance Result_ret : MRet Result := @Ok.
#[export] Instance Result_bind : MBind Result := fun A B f m =>
  match m with Ok a => f a | Err e => Err e | Panic => Panic end.

(** [ok_or] and an index or slice that panics out of range. *)
Definition ok_or {A} (e : Error) (o : option A) : Result A := match o with Some a => Ok a | None => Err e end.
Definition or_panic {A} (o : option A) : Result A := match o with Some a => Ok a | None => Panic end.

(** *** The standard library's UTF-8 and big-endian integers *)

Definition byte_in (lo hi : N) (b : byte) : bool := (lo <=? byte_val b)%N && (byte_val b <=? hi)%N.
Definition continuation (b : byte) : bool := byte_in 128 191 b.

(** [str::from_utf8]: well-formed UTF-8 (Unicode table 3-7). *)
Fixpoint utf8_valid (l : list byte) : bool :=
  match l with
  | [] => true
  | b :: l1 =>
    if byte_in 0 127 b then utf8_valid l1 else
    match l1 with
    | [] => false
    | c :: l2 =>
      if byte_in 194 223 b then continuation c && utf8_valid l2 else
      match l2 with
      | [] => false
      | d :: l3 =>
        if byte_in 224 239 b then
          (if b == byte_of 224 then byte_in 160 191 c else if b == byte_of 237 then byte_in 128 159 c else continuation c)
          && continuation d && utf8_valid l3
        else
          match l3 with
          | [] => false
          | e :: l4 =>
            byte_in 240 244 b
            && (if b == byte_of 240 then byte_in 144 191 c else if b == byte_of 244 then byte_in 128 143 c else continuation c)
            && continuation d && continuation e && utf8_valid l4
          end
      end
    end
  end.

(** [chars().count()] of valid UTF-8. *)
Definition char_count (l : list byte) : N := len (List.filter (fun b => negb (continuation b)) l).

Definition be16 (n : N) : list byte := [byte_of (n / 256); byte_of (n mod 256)].
Definition be32 (n : N) : list byte :=
  [byte_of (n / 16777216); byte_of (n / 65536 mod 256); byte_of (n / 256 mod 256); byte_of (n mod 256)].
Definition from_be (l : list byte) : N := foldl (fun n b => 256 * n + byte_val b)%N 0%N l.

(** The low [w] bytes of an integer, most significant first: [to_be_bytes] at width [w]. *)
Fixpoint be (w : nat) (n : N) : list byte :=
  match w with O => [] | S k => be k (n / 256)%N ++ [byte_of (n mod 256)%N] end.

(** *** Slices and cursors *)

(** [buf.get(s..e)]. *)
Definition slice {A} (buf : list A) (s e : N) : option (list A) :=
  if (s <=? e)%N && (e <=? len buf)%N then Some (take (N.to_nat (e - s)) (drop (N.to_nat s) buf)) else None.

(** [buf.get(i)]. *)
Definition get {A} (buf : list A) (i : N) : option A :=
  if (i <? len buf)%N then buf !! N.to_nat i else None.

(** The next [n] bytes of a cursor, which is the bytes it has left. *)
Definition take_bytes (e : Error) (n : N) (rest : list byte) : Result (list byte * list byte) :=
  if (n <=? len rest)%N then Ok (take (N.to_nat n) rest, drop (N.to_nat n) rest) else Err e.

(** *** LEB128 varints *)

(** A [u64] takes at most ten groups of seven bits. *)
Fixpoint leb_groups (fuel : nat) (v : N) : list byte :=
  match fuel with
  | O => []
  | S k =>
    let b := N.land v 127 in
    let v := N.shiftr v 7 in
    if (v =? 0)%N then [byte_of b] else byte_of (N.lor b 128) :: leb_groups k v
  end.

Definition write_varint (v : N) : list byte := leb_groups 10 v.

(** The shifts of [(0..64).step_by(7)]. *)
Definition LEB_SHIFTS : list N := [0; 7; 14; 21; 28; 35; 42; 49; 56; 63]%N.

Fixpoint leb_read (truncated overflow : Error) (shifts : list N) (r : N) (rest : list byte) : Result (N * list byte) :=
  match shifts with
  | [] => Err overflow
  | s :: shifts =>
    match rest with
    | [] => Err truncated
    | b :: rest =>
      let bits := N.land (byte_val b) 127 in
      if (s =? 63)%N && (1 <? bits)%N then Err overflow
      else let r := N.lor r (N.shiftl bits s) in
           if (N.land (byte_val b) 128 =? 0)%N then Ok (r, rest) else leb_read truncated overflow shifts r rest
    end
  end.

Definition read_varint (truncated overflow : Error) (rest : list byte) : Result (N * list byte) :=
  leb_read truncated overflow LEB_SHIFTS 0 rest.

(** ** Properties *)

Lemma byte_val_of n : (n < 256)%N -> byte_val (byte_of n) = n.
Proof. apply Ascii.N_ascii_embedding. Qed.
Lemma byte_of_val b : byte_of (byte_val b) = b.
Proof. apply Ascii.ascii_N_embedding. Qed.
Lemma byte_val_lt b : (byte_val b < 256)%N.
Proof. apply Ascii.N_ascii_bounded. Qed.

Lemma from_be16 n : (n <= u16_max)%N -> from_be (be16 n) = n.
Proof.
  intros Hn. unfold from_be, be16, u16_max in *. simpl foldl. rewrite !byte_val_of.
  - pose proof (N.div_mod n 256). lia.
  - apply N.mod_lt. lia.
  - apply N.Div0.div_lt_upper_bound. lia.
Qed.

Lemma be16_from a b : be16 (from_be [a; b]) = [a; b].
Proof.
  unfold be16, from_be. simpl foldl. pose proof (byte_val_lt a). pose proof (byte_val_lt b).
  rewrite N.mul_0_r, N.add_0_l, N.mul_comm. rewrite N.div_add_l, N.div_small, N.add_0_r, byte_of_val by lia.
  by rewrite N.add_comm, N.Div0.mod_add, N.mod_small, byte_of_val by lia.
Qed.

Lemma be32_spec v n : be32 n = v -> (n <= u32_max)%N -> from_be v = n.
Proof.
  intros <- Hn. unfold from_be, be32, u32_max in *. simpl foldl.
  rewrite !byte_val_of by (try apply N.mod_lt; try apply N.Div0.div_lt_upper_bound; lia).
  change 16777216%N with (256 * (256 * 256))%N. change 65536%N with (256 * 256)%N. rewrite <-!N.Div0.div_div.
  pose proof (N.div_mod n 256). pose proof (N.div_mod (n / 256) 256). pose proof (N.div_mod (n / 256 / 256) 256). lia.
Qed.

Lemma from_be32_bound a b c d : (from_be [a; b; c; d] <= u32_max)%N.
Proof.
  unfold from_be, u32_max. simpl foldl.
  pose proof (byte_val_lt a). pose proof (byte_val_lt b). pose proof (byte_val_lt c). pose proof (byte_val_lt d). lia.
Qed.

Lemma be32_from v : len v = 4%N -> be32 (from_be v) = v.
Proof.
  intros Hv. destruct v as [|a [|b [|c [|d [|]]]]]; try (unfold len in Hv; simpl in Hv; lia).
  pose proof (byte_val_lt a). pose proof (byte_val_lt b). pose proof (byte_val_lt c). pose proof (byte_val_lt d).
  unfold be32. change 16777216%N with (256 * (256 * 256))%N. change 65536%N with (256 * 256)%N. rewrite <-!N.Div0.div_div.
  unfold from_be. simpl foldl. rewrite N.mul_0_r, N.add_0_l.
  assert (forall x y, (y < 256)%N -> ((256 * x + y) / 256 = x /\ (256 * x + y) mod 256 = y)%N) as Hdm.
  { intros x y Hy. rewrite N.mul_comm, N.div_add_l, N.div_small, N.add_0_r by lia.
    by rewrite N.add_comm, N.Div0.mod_add, N.mod_small by lia. }
  set (x := byte_val a). set (y := (256 * x + byte_val b)%N). set (z := (256 * y + byte_val c)%N).
  destruct (Hdm z (byte_val d)) as [-> ->]; [done|]. subst z. destruct (Hdm y (byte_val c)) as [-> ->]; [done|]. subst y.
  destruct (Hdm x (byte_val b)) as [-> ->]; [done|]. subst x. by rewrite !byte_of_val.
Qed.

Lemma be32_inj a b : (a <= u32_max)%N -> (b <= u32_max)%N -> be32 a = be32 b -> a = b.
Proof. intros Ha Hb Heq. by rewrite <-(be32_spec _ a eq_refl Ha), <-(be32_spec _ b eq_refl Hb), Heq. Qed.

(** ** Outcomes *)

Lemma bind_Ok {A B} (f : A -> Result B) (m : Result A) y : m ≫= f = Ok y <-> exists x, m = Ok x /\ f x = Ok y.
Proof.
  split; [destruct m as [a| |]; [by exists a|done..]|by intros (x & -> & ?)].
Qed.
Lemma ok_or_Ok {A} e (o : option A) x : ok_or e o = Ok x <-> o = Some x.
Proof. destruct o; simpl; split; by intros [= ->]. Qed.
Lemma or_panic_Ok {A} (o : option A) x : or_panic o = Ok x <-> o = Some x.
Proof. destruct o; simpl; split; by intros [= ->]. Qed.

Lemma mapM_Ok {A B} (f : A -> Result B) l k : mapM f l = Ok k <-> Forall2 (fun x y => f x = Ok y) l k.
Proof.
  revert k. induction l as [|x l IH]; intros k; simpl.
  - split; [by intros [= <-]|]. intros H. inversion H. done.
  - rewrite bind_Ok. split.
    + intros (y & Hy & H). apply bind_Ok in H as (k' & Hk & [= <-]). constructor; [done|by apply IH].
    + intros H. inversion H as [|? y ? k' Hy Hk]; subst. exists y. split; [done|]. apply bind_Ok. exists k'. split; [by apply IH|done].
Qed.

Lemma Forall2_rev_both {A B} (P : A -> B -> Prop) l k : Forall2 P l k -> Forall2 P (rev l) (rev k).
Proof. induction 1; simpl; [constructor|by apply Forall2_app; [|repeat constructor]]. Qed.

(** Takes apart the successful outcome in a hypothesis. *)
Ltac inv_ok H :=
  lazymatch type of H with
  | _ ≫= _ = Ok _ =>
    let x := fresh "x" in let Hx := fresh "Hx" in
    apply bind_Ok in H as (x & Hx & H); try inv_ok Hx; try inv_ok H
  | ok_or _ _ = Ok _ => apply ok_or_Ok in H
  | or_panic _ = Ok _ => apply or_panic_Ok in H
  | Ok _ = Ok _ => injection H as H
  | Err _ = Ok _ => discriminate H
  | Panic = Ok _ => discriminate H
  | (if ?c then _ else _) = Ok _ => let E := fresh "E" in destruct c eqn:E; try inv_ok H
  end.

(** ** Bit operations *)

Lemma land_low b k : N.land b (N.ones k) = (b mod 2 ^ k)%N.
Proof. apply N.land_ones. Qed.

Lemma land_127 b : N.land b 127 = (b mod 128)%N.
Proof. exact (N.land_ones b 7). Qed.

Lemma lor_shiftl r b s : (r < 2 ^ s)%N -> N.lor r (N.shiftl b s) = (r + b * 2 ^ s)%N.
Proof.
  intros Hr. assert (N.land r (N.shiftl b s) = 0)%N as H0.
  { apply N.bits_inj_0. intros n. rewrite N.land_spec. destruct (N.lt_ge_cases n s) as [Hn|Hn].
    - by rewrite N.shiftl_spec_low, andb_false_r.
    - rewrite <-(N.mod_small r (2 ^ s)), N.mod_pow2_bits_high by done. done. }
  by rewrite <-N.lxor_lor, <-N.add_nocarry_lxor, N.shiftl_mul_pow2.
Qed.

Lemma lor_128 b : (b < 128)%N -> N.lor b 128 = (b + 128)%N.
Proof. intros Hb. exact (lor_shiftl b 1 7 Hb). Qed.

Lemma land_128 b : (b < 256)%N -> N.land b 128 = if (b <? 128)%N then 0%N else 128%N.
Proof.
  intros Hb. apply N.bits_inj. intros n. rewrite N.land_spec. change 128%N with (2 ^ 7)%N. rewrite N.pow2_bits_eqb.
  destruct (N.eqb_spec 7 n) as [<-|Hn].
  - rewrite andb_true_r, N.testbit_eqb. change (2 ^ 7)%N with 128%N. destruct (N.ltb_spec b 128).
    + by rewrite N.div_small.
    + assert (b / 128 = 1)%N as ->; [|done]. assert (b / 128 < 2)%N by (apply N.Div0.div_lt_upper_bound; lia).
      assert (1 <= b / 128)%N by (apply N.div_le_lower_bound; lia). lia.
  - rewrite andb_false_r. destruct (N.ltb_spec b (2 ^ 7)); [by rewrite N.bits_0|].
    change 128%N with (2 ^ 7)%N. by rewrite N.pow2_bits_false.
Qed.

(** ** Big-endian integers *)

Lemma len_app {A} (l1 l2 : list A) : len (l1 ++ l2) = (len l1 + len l2)%N.
Proof. unfold len. rewrite length_app. lia. Qed.
Lemma len_cons {A} (x : A) l : len (x :: l) = (len l + 1)%N.
Proof. unfold len. simpl. lia. Qed.
Lemma len_nil {A} : len (@nil A) = 0%N.
Proof. done. Qed.

Lemma length_be w n : length (be w n) = w.
Proof. revert n. induction w as [|w IH]; intros n; simpl; [done|]. rewrite length_app, IH. simpl. lia. Qed.

Lemma from_be_snoc l b : from_be (l ++ [b]) = (256 * from_be l + byte_val b)%N.
Proof. unfold from_be. by rewrite foldl_snoc. Qed.

Lemma from_be_be w n : (n < 256 ^ N.of_nat w)%N -> from_be (be w n) = n.
Proof.
  revert n. induction w as [|w IH]; intros n Hn.
  - change (256 ^ N.of_nat 0)%N with 1%N in Hn. unfold from_be. simpl. lia.
  - rewrite Nnat.Nat2N.inj_succ, N.pow_succ_r' in Hn. simpl be. rewrite from_be_snoc, IH, byte_val_of.
    + symmetry. apply N.div_mod. lia.
    + apply N.mod_lt. lia.
    + by apply N.Div0.div_lt_upper_bound.
Qed.

Lemma from_be_lt l : (from_be l < 256 ^ len l)%N.
Proof.
  induction l as [|b l IH] using rev_ind; [by vm_compute|]. rewrite from_be_snoc, len_app.
  change (len [b]) with 1%N. rewrite N.add_1_r, N.pow_succ_r'. pose proof (byte_val_lt b). lia.
Qed.

Lemma be_from_be l : be (length l) (from_be l) = l.
Proof.
  induction l as [|b l IH] using rev_ind; [done|]. rewrite length_app, Nat.add_1_r. simpl be.
  rewrite from_be_snoc. pose proof (byte_val_lt b).
  rewrite N.mul_comm, N.div_add_l, N.div_small, N.add_0_r, IH by lia.
  by rewrite N.add_comm, N.Div0.mod_add, N.mod_small, byte_of_val by lia.
Qed.

(** ** Slices *)

Lemma slice_Some {A} (buf : list A) s e l :
  slice buf s e = Some l <-> (s <= e)%N /\ (e <= len buf)%N /\ l = take (N.to_nat (e - s)) (drop (N.to_nat s) buf).
Proof.
  unfold slice. destruct (N.leb_spec s e), (N.leb_spec e (len buf)); simpl; split; try done; try lia.
  - by intros [= <-].
  - by intros (_ & _ & ->).
Qed.

Lemma slice_len {A} (buf : list A) s e l : slice buf s e = Some l -> len l = (e - s)%N.
Proof.
  intros (? & ? & ->)%slice_Some. unfold len in *. rewrite length_take_le; [lia|]. rewrite length_drop. lia.
Qed.

Lemma slice_app {A} (a b c : list A) : slice (a ++ b ++ c) (len a) (len a + len b) = Some b.
Proof.
  apply slice_Some. rewrite !len_app. split_and!; [lia..|].
  replace (len a + len b - len a)%N with (len b) by lia. unfold len. rewrite !Nnat.Nat2N.id.
  by rewrite drop_app_length, take_app_length.
Qed.

Lemma get_Some {A} (buf : list A) i x : get buf i = Some x <-> buf !! N.to_nat i = Some x.
Proof.
  unfold get. destruct (N.ltb_spec i (len buf)) as [|Hi]; [done|]. split; [done|].
  intros Hx%lookup_lt_Some. unfold len in Hi. lia.
Qed.

Lemma take_bytes_Ok e n rest v rest' :
  take_bytes e n rest = Ok (v, rest') <-> rest = v ++ rest' /\ len v = n.
Proof.
  unfold take_bytes. destruct (N.leb_spec n (len rest)) as [Hn|Hn].
  - unfold len in *. split.
    + intros [= <- <-]. rewrite take_drop, length_take_le by lia. split; [done|lia].
    + intros [-> <-]. by rewrite Nnat.Nat2N.id, take_app_length, drop_app_length.
  - split; [done|]. intros [-> Hl]. rewrite len_app in Hn. lia.
Qed.

Lemma take_bytes_app e v rest : take_bytes e (len v) (v ++ rest) = Ok (v, rest).
Proof. by apply take_bytes_Ok. Qed.

(** ** Varints *)

Lemma leb_shifts_seq : LEB_SHIFTS = map (fun i => 7 * N.of_nat i)%N (seq 0 10).
Proof. done. Qed.

Lemma leb_groups_unfold k v :
  leb_groups (S k) v = if (v / 128 =? 0)%N then [byte_of (v mod 128)] else byte_of (v mod 128 + 128) :: leb_groups k (v / 128).
Proof.
  simpl leb_groups. rewrite land_127, N.shiftr_div_pow2. change (2 ^ 7)%N with 128%N.
  rewrite lor_128; [done|]. by apply N.mod_lt.
Qed.

Lemma leb_read_cons tr ov s shifts r b rest :
  leb_read tr ov (s :: shifts) r (b :: rest) =
  (let bits := (byte_val b mod 128)%N in
   if (s =? 63)%N && (1 <? bits)%N then Err ov
   else let r := N.lor r (N.shiftl bits s) in
        if (byte_val b <? 128)%N then Ok (r, rest) else leb_read tr ov shifts r rest).
Proof.
  cbn [leb_read]. rewrite land_127, land_128 by apply byte_val_lt. by destruct (byte_val b <? 128)%N.
Qed.

Lemma leb_read_groups tr ov n k r v rest :
  k + S n = 10 -> (r < 2 ^ (7 * N.of_nat k))%N -> (v < 2 ^ (64 - 7 * N.of_nat k))%N ->
  leb_read tr ov (map (fun i => 7 * N.of_nat i)%N (seq k (S n))) r (leb_groups (S n) v ++ rest)
  = Ok ((r + v * 2 ^ (7 * N.of_nat k))%N, rest).
Proof.
  revert k r v. induction n as [|n IH]; intros k r v Hk Hr Hv.
  - assert (k = 9) as -> by lia. change (2 ^ (64 - 7 * N.of_nat 9))%N with 2%N in Hv.
    rewrite leb_groups_unfold, N.div_small by lia. change (0 =? 0)%N with true. cbv iota. cbn [app seq map].
    change (7 * N.of_nat 9)%N with 63%N in *. rewrite leb_read_cons. cbv zeta.
    rewrite (N.mod_small v), byte_val_of, (N.mod_small v), (proj2 (N.ltb_ge 1 v)), (proj2 (N.ltb_lt v 128)) by lia.
    cbn [andb]. by rewrite lor_shiftl.
  - rewrite leb_groups_unfold. set (s := (7 * N.of_nat k)%N) in *. set (m := (v mod 128)%N).
    assert (m < 128)%N as Hm by (by apply N.mod_lt).
    assert ((s =? 63)%N = false) as Hs by (apply N.eqb_neq; lia).
    change (seq k (S (S n))) with (k :: seq (S k) (S n)). cbn [map]. fold s.
    destruct (N.eqb_spec (v / 128) 0) as [H0|H0]; cbn [app]; rewrite leb_read_cons; cbv zeta; rewrite byte_val_of, Hs by lia; cbn [andb].
    + rewrite (N.mod_small m), (proj2 (N.ltb_lt m 128)), lor_shiftl by done. subst m.
      apply N.div_small_iff in H0; [|done]. by rewrite N.mod_small.
    + assert ((m + 128) mod 128 = m)%N as ->.
      { replace (m + 128)%N with (m + 1 * 128)%N by lia. by rewrite N.Div0.mod_add, N.mod_small. }
      rewrite (proj2 (N.ltb_ge (m + 128) 128)), lor_shiftl by (done || lia).
      assert (2 ^ (7 * N.of_nat (S k)) = 128 * 2 ^ s)%N as Hp.
      { subst s. rewrite Nnat.Nat2N.inj_succ, N.mul_succ_r, N.add_comm, N.pow_add_r. done. }
      rewrite IH; [|lia| |].
      * f_equal. f_equal. rewrite Hp. pose proof (N.div_mod v 128 ltac:(done)). fold m in H. nia.
      * rewrite Hp. nia.
      * apply N.Div0.div_lt_upper_bound. change 128%N with (2 ^ 7)%N. rewrite <-N.pow_add_r.
        replace (7 + (64 - 7 * N.of_nat (S k)))%N with (64 - s)%N by lia. done.
Qed.

(** A varint reads back. *)
Lemma read_write_varint tr ov v rest : (v <= u64_max)%N -> read_varint tr ov (write_varint v ++ rest) = Ok (v, rest).
Proof.
  intros Hv. unfold read_varint, write_varint. rewrite leb_shifts_seq, leb_read_groups; [|done..|].
  - by rewrite N.add_0_l, N.mul_1_r.
  - unfold u64_max in Hv. change (2 ^ (64 - 7 * N.of_nat 0))%N with 18446744073709551616%N. lia.
Qed.

Lemma leb_read_Ok tr ov n k r rest v rest' :
  k + n = 10 -> (r < 2 ^ (7 * N.of_nat k))%N ->
  leb_read tr ov (map (fun i => 7 * N.of_nat i)%N (seq k n)) r rest = Ok (v, rest') ->
  (v <= u64_max)%N /\ exists p, rest = p ++ rest' /\ 1 <= length p <= n.
Proof.
  revert k r rest. induction n as [|n IH]; intros k r rest Hk Hr; [done|].
  change (seq k (S n)) with (k :: seq (S k) n). cbn [map]. set (s := (7 * N.of_nat k)%N) in *.
  destruct rest as [|b rest]; [done|]. rewrite leb_read_cons. cbv zeta. rewrite lor_shiftl by done.
  pose proof (N.mod_lt (byte_val b) 128 ltac:(done)) as Hm. set (m := (byte_val b mod 128)%N) in *.
  destruct ((s =? 63)%N && (1 <? m)%N) eqn:E63; [done|].
  assert (2 ^ (7 * N.of_nat (S k)) = 128 * 2 ^ s)%N as Hp.
  { subst s. rewrite Nnat.Nat2N.inj_succ, N.mul_succ_r, N.add_comm, N.pow_add_r. done. }
  destruct (byte_val b <? 128)%N.
  - intros [= <- <-]. split; [|exists [b]; simpl; split; [done|lia]]. unfold u64_max.
    destruct (N.eqb_spec s 63) as [Es|Es].
    + cbn [andb] in E63. apply N.ltb_ge in E63. rewrite Es in *. change (2 ^ 63)%N with 9223372036854775808%N in *. nia.
    + assert (k <= 8) by lia. assert (2 ^ s <= 2 ^ 56)%N as Hle by (apply N.pow_le_mono_r; lia).
      change (2 ^ 56)%N with 72057594037927936%N in Hle. nia.
  - intros Hrec. apply IH in Hrec as [Hv (p & -> & Hlen)]; [|lia|rewrite Hp; nia].
    split; [done|]. exists (b :: p). simpl. split; [done|lia].
Qed.

(** What a varint reads is a [u64], from at least one and at most ten bytes. *)
Lemma read_varint_Ok tr ov rest v rest' :
  read_varint tr ov rest = Ok (v, rest') -> (v <= u64_max)%N /\ exists p, rest = p ++ rest' /\ 1 <= length p <= 10.
Proof. intros H. by apply (leb_read_Ok tr ov 10 0 0). Qed.

Lemma write_varint_length v : 1 <= length (write_varint v) <= 10.
Proof.
  unfold write_varint. assert (forall n w, 1 <= length (leb_groups (S n) w) <= S n) as H; [|apply H].
  induction n as [|n IH]; intros w; rewrite leb_groups_unfold; destruct (_ =? _)%N; cbn [length]; try (simpl; lia).
  specialize (IH (w / 128)%N). lia.
Qed.

(** ** Byte strings in order *)

(** [Ord for [u8]]: lexicographic. *)
Definition bytes_cmp : list byte -> list byte -> comparison := cmp_on of_bytes String.compare.

Lemma of_bytes_inj l k : of_bytes l = of_bytes k -> l = k.
Proof. intros H. by rewrite <-(bytes_of_bytes l), <-(bytes_of_bytes k), H. Qed.

#[export] Instance bytes_cmp_ord : CmpOrd bytes_cmp.
Proof. apply _. Qed.

#[export] Instance bytes_cmp_strict : CmpStrict bytes_cmp.
Proof. intros l k H. by apply of_bytes_inj, str_compare_strict. Qed.

Lemma bytes_cmp_Lt_irrefl l : bytes_cmp l l <> Lt.
Proof. by rewrite (cmp_refl bytes_cmp l). Qed.

Lemma bytes_cmp_cons a b x y :
  bytes_cmp (a :: x) (b :: y) = match Ascii.compare a b with Eq => bytes_cmp x y | r => r end.
Proof. done. Qed.

(** Byte strings compare by their first bytes, then by the rest. *)
Lemma bytes_cmp_app a b c d : length a = length b ->
  bytes_cmp (a ++ c) (b ++ d) = match bytes_cmp a b with Eq => bytes_cmp c d | r => r end.
Proof.
  revert b. induction a as [|x a IH]; intros [|y b] Hl; try done. specialize (IH b ltac:(by injection Hl)).
  unfold bytes_cmp, cmp_on in *. simpl in *. destruct (Ascii.compare x y); try done.
Qed.
