(* ===== verification/Text.v ===== *)
(** Text of the standard library: Unicode white space and control characters in UTF-8,
    [trim], [split_whitespace] and the parsing of unsigned integers. *)
From S2P Require Import Wire.
From S2P Require Import Prelude.

(** ** Definitions *)

Definition utf8 (l : list N) : string := of_bytes (map byte_of l).

(** The characters of [char::is_whitespace] (Unicode [White_Space]), as their UTF-8. *)
Definition WHITE_SPACE : list string :=
  map utf8 ([[9]; [10]; [11]; [12]; [13]; [32]; [194; 133]; [194; 160]; [225; 154; 128]]
    ++ map (fun k => [226; 128; 128 + N.of_nat k]) (seq 0 11)
    ++ [[226; 128; 168]; [226; 128; 169]; [226; 128; 175]; [226; 129; 159]; [227; 128; 128]])%N.

(** What is left after the first of the prefixes that the text starts with. *)
Fixpoint strip_any (ps : list string) (s : string) : option string :=
  match ps with
  | [] => None
  | p :: ps => match strip_prefix p s with Some r => Some r | None => strip_any ps s end
  end.

(** Each step takes a character off, so the length is fuel enough. *)
Fixpoint trim_start_fuel (fuel : nat) (ps : list string) (s : string) : string :=
  match fuel with
  | O => s
  | S fuel => match strip_any ps s with Some r => trim_start_fuel fuel ps r | None => s end
  end.

Definition trim_start (s : string) : string := trim_start_fuel (String.length s) WHITE_SPACE s.
Definition trim_end (s : string) : string :=
  str_rev (trim_start_fuel (String.length s) (map str_rev WHITE_SPACE) (str_rev s)).
Definition trim (s : string) : string := trim_end (trim_start s).

(** A word being read, then the rest. *)
Fixpoint words (fuel : nat) (word s : string) : list string :=
  let flush := if word == "" then [] else [word] in
  match fuel with
  | O => flush
  | S fuel =>
    match strip_any WHITE_SPACE s with
    | Some r => flush ++ words fuel "" r
    | None => match s with EmptyString => flush | String a s => words fuel (word +:+ String a "") s end
    end
  end.

Definition split_whitespace (s : string) : list string := words (S (String.length s)) "" s.

Definition newline : string := of_bytes [byte_of 10].

(** [str::lines]: a line ends at a line feed, with the carriage return before it. *)
Fixpoint lines_of (pieces : list string) : list string :=
  match pieces with
  | [] => []
  | [last] => if last == "" then [] else [last]
  | l :: pieces => default l (strip_suffix (of_bytes [byte_of 13]) l) :: lines_of pieces
  end.
Definition str_lines (s : string) : list string := lines_of (split_on (fun a => a == byte_of 10) s).

(** [str::chars] of valid UTF-8: a character is the bytes that encode it. *)
Fixpoint chars_from (c : list byte) (l : list byte) : list (list byte) :=
  match l with
  | [] => [c]
  | b :: l => if continuation b then chars_from (c ++ [b]) l else c :: chars_from [b] l
  end.
Definition chars (l : list byte) : list (list byte) := match l with [] => [] | b :: l => chars_from [b] l end.

(** [char::is_control]: U+0000 to U+001F and U+007F to U+009F. *)
Fixpoint has_control (l : list byte) : bool :=
  match l with
  | [] => false
  | b :: l => byte_in 0 31 b || (b == byte_of 127)
    || ((b == byte_of 194) && match l with c :: _ => byte_in 128 159 c | [] => false end) || has_control l
  end.

(** A digit of a radix up to ten. *)
Definition digit_of (radix : N) (b : byte) : option N :=
  if is_digit b && (byte_val b - 48 <? radix)%N then Some (byte_val b - 48)%N else None.

(** [from_str_radix] of an unsigned integer: an optional sign, then digits that fit. *)
Definition parse_digits (radix max : N) (l : list byte) : option N :=
  foldl (fun acc b => v ← acc; d ← digit_of radix b; let v := (v * radix + d)%N in if (v <=? max)%N then Some v else None) (Some 0%N) l.

Definition parse_uint (radix max : N) (s : string) : option N :=
  let digits := bytes (default s (strip_prefix "+" s)) in
  if bool_decide (digits = []) then None else parse_digits radix max digits.

Example trim_wide : trim (utf8 [32; 227; 128; 128; 104; 105; 194; 160; 10]%N) = "hi".
Proof. vm_compute. reflexivity. Qed.

Example words_of : split_whitespace "  100644 blob	abc  - " = ["100644"; "blob"; "abc"; "-"].
Proof. vm_compute. reflexivity. Qed.

Example octal : parse_uint 8 u32_max "+100644" = Some 33188%N /\ parse_uint 8 u32_max "8" = None /\ parse_uint 10 u8_max "256" = None.
Proof. by vm_compute. Qed.

(** ** Properties *)

Lemma strip_prefix_app p s r : strip_prefix p s = Some r <-> s = p +:+ r.
Proof.
  revert s. induction p as [|a p IH]; intros s; simpl; [rewrite str_nil_app; naive_solver|].
  rewrite str_cons_app. destruct s as [|b s]; [naive_solver|]. case_bool_decide as Hab.
  - subst b. rewrite IH. naive_solver.
  - naive_solver.
Qed.

Lemma starts_with_app p s : starts_with p s = true <-> exists r, s = p +:+ r.
Proof.
  unfold starts_with. destruct (strip_prefix p s) as [r|] eqn:E; simpl.
  - apply strip_prefix_app in E. naive_solver.
  - split; [done|]. intros [r Hr%strip_prefix_app]. congruence.
Qed.

Lemma split_on_cat sep s c t : sep c = true -> split_on sep (s +:+ String c t) = split_on sep s ++ split_on sep t.
Proof.
  intros Hc. induction s as [|a s IH]; rewrite ?str_nil_app, ?str_cons_app; simpl; [by rewrite Hc|].
  destruct (sep a); [by rewrite IH|]. rewrite IH. destruct (split_on sep s) eqn:E; [|done].
  destruct s as [|b s]; simpl in E; [done|]. destruct (sep b); [done|]. by destruct (split_on sep s).
Qed.

Lemma split_on_one sep s : forallb (fun a => negb (sep a)) (bytes s) = true -> split_on sep s = [s].
Proof.
  induction s as [|a s IH]; simpl; [done|]. rewrite andb_true_iff, negb_true_iff. intros [-> Hs]. by rewrite IH.
Qed.

(** Complete lines are read one by one. *)
Lemma str_lines_cat s t : str_lines (s +:+ newline +:+ t) = str_lines (s +:+ newline) ++ str_lines t.
Proof.
  unfold str_lines. change (newline +:+ t) with (String (byte_of 10) t). change newline with (String (byte_of 10) "").
  rewrite !split_on_cat by (by apply bool_decide_eq_true_2). change (split_on _ "") with [""].
  assert (forall l r, r <> [] -> lines_of (l ++ r) = lines_of (l ++ [""]) ++ lines_of r) as H.
  { intros l r Hr. induction l as [|x l IH]; simpl; [done|]. destruct (l ++ r) eqn:El.
    { apply app_eq_nil in El as [-> ->]. done. }
    rewrite IH. destruct (l ++ [""]) eqn:E; [by destruct l|done]. }
  apply H. destruct t as [|a t]; simpl; [done|]. destruct (_ == _); [done|]. by destruct (split_on _ t).
Qed.

Lemma str_lines_one s : forallb (fun a => negb (a == byte_of 10)) (bytes s) = true ->
  str_lines (s +:+ newline) = [default s (strip_suffix (of_bytes [byte_of 13]) s)].
Proof.
  intros H. unfold str_lines. change newline with (String (byte_of 10) "").
  rewrite split_on_cat by (by apply bool_decide_eq_true_2). by rewrite split_on_one.
Qed.

Lemma starts_with_trans p q s : starts_with p q = true -> starts_with q s = true -> starts_with p s = true.
Proof. rewrite !starts_with_app. intros [r ->] [r' ->]. exists (r +:+ r'). by rewrite str_app_assoc. Qed.
