(* ===== verification/Ledger.v ===== *)
(** The clone's ledger of sealed objects ([members_git/ledger.rs]): its text, what a reader makes
    of it, and what an appended entry does to it. *)
From S2P Require Import Wire.
From S2P Require Import Prelude Text.

Definition HEADER : string := "# dash sealed-object ledger v1".

Inductive EntryAudience := EntryMembers | EntryNarrower (token : string).

#[export] Instance EntryAudience_eq_dec : EqDecision EntryAudience.
Proof. solve_decision. Defined.

Definition token_byte (b : byte) : bool :=
  is_lower b || is_digit b || existsb (fun c => b == c) (bytes ":._-").

Definition parse_entry_audience (token : string) : option EntryAudience :=
  if token == "members" then Some EntryMembers
  else if (token != "") && forallb token_byte (bytes token) then Some (EntryNarrower token) else None.

Definition token (a : EntryAudience) : option string :=
  match a with EntryMembers => None | EntryNarrower t => Some t end.

(** The narrower of two audiences; two different narrower ones keep the first recorded. *)
Definition narrowest (a b : EntryAudience) : EntryAudience :=
  match a with EntryMembers => b | n => n end.

Inductive EntryKind := EntryCommit | EntryPack.

Record Entry := mkEntry {
  en_kind : EntryKind;
  en_id : string;
  en_audience : EntryAudience
}.

Definition id_byte (b : byte) : bool := is_digit b || in_range "a"%char "f"%char b.

Definition valid_id (kind : EntryKind) (id : string) : bool :=
  match kind with
  | EntryCommit => (String.length id =? 40) || (String.length id =? 64)
  | EntryPack => String.length id =? 64
  end && forallb id_byte (bytes id).

Definition keyword (kind : EntryKind) : string :=
  match kind with EntryCommit => "commit" | EntryPack => "pack" end.

Definition entry_line (e : Entry) : option string :=
  if negb (valid_id (en_kind e) (en_id e)) then None
  else Some (keyword (en_kind e) +:+ " " +:+ en_id e +:+
    match token (en_audience e) with Some t => " " +:+ t | None => "" end).

(** A readable ledger: each commit and each pack with its narrowest recorded audience. *)
Record Ledger := mkLedger {
  l_commits : gmap string EntryAudience;
  l_packs : gmap string EntryAudience
}.

Definition empty_ledger : Ledger := mkLedger ∅ ∅.

Definition ledger_is_empty (l : Ledger) : bool := bool_decide (l_commits l = ∅) && bool_decide (l_packs l = ∅).

Inductive LedgerState := Absent | Unknown | Present (l : Ledger).

Definition narrow_in (id : string) (a : EntryAudience) (m : gmap string EntryAudience) : gmap string EntryAudience :=
  <[id := match m !! id with Some prev => narrowest prev a | None => a end]> m.

Definition record_entry (l : Ledger) (e : Entry) : Ledger :=
  match en_kind e with
  | EntryCommit => mkLedger (narrow_in (en_id e) (en_audience e) (l_commits l)) (l_packs l)
  | EntryPack => mkLedger (l_commits l) (narrow_in (en_id e) (en_audience e) (l_packs l))
  end.

Definition parse_entry (line : string) : option Entry :=
  match split_on (fun a => a == " "%char) line with
  | word :: id :: rest =>
    kind ← (if word == "commit" then Some EntryCommit else if word == "pack" then Some EntryPack else None);
    if negb (valid_id kind id) then None
    else match rest with
    | [] => Some (mkEntry kind id EntryMembers)
    | [t] => a ← parse_entry_audience t; Some (mkEntry kind id a)
    | _ => None
    end
  | _ => None
  end.

Fixpoint parse_entries (lines : list string) (l : Ledger) : option Ledger :=
  match lines with
  | [] => Some l
  | line :: lines =>
    if (line == "") || starts_with "#" line then parse_entries lines l
    else e ← parse_entry line; parse_entries lines (record_entry l e)
  end.

(** [None] is a ledger this reader cannot read. *)
Definition parse_ledger (text : string) : option Ledger :=
  match str_lines text with
  | first :: lines => if first == HEADER then parse_entries lines empty_ledger else None
  | [] => None
  end.

(** ** The file: [None] when there is none, else its bytes *)

Definition read_ledger (file : option string) : LedgerState :=
  match file with
  | None => Absent
  | Some text =>
    if negb (utf8_valid (bytes text)) then Unknown
    else match parse_ledger text with Some l => Present l | None => Unknown end
  end.

(** The file, and whether it was created. *)
Definition create_empty (file : option string) : option string * bool :=
  match file with
  | Some text => (Some text, false)
  | None => (Some (HEADER +:+ newline), true)
  end.

Inductive AppendError := InvalidData | FileNotFound.

(** The bytes up to the first line's end. *)
Definition first_line (text : string) : string := default "" (head (split_on (fun a => a == byte_of 10) text)).

(** The file an append leaves. *)
Definition append_entries (file : option string) (entries : list Entry) : string + AppendError :=
  match mapM entry_line entries with
  | None => inr InvalidData
  | Some lines =>
    match file with
    | None => inr FileNotFound
    | Some text =>
      if first_line text != HEADER then inr InvalidData
      else if lines == [] then inl text
      else inl (text +:+ str_join newline lines +:+ newline)
    end
  end.

(** ** Recording what the clone holds ([record_as] of [git-remote-dash/src/members.rs]) *)

Definition is_hex_oid (s : string) : bool :=
  ((String.length s =? 40) || (String.length s =? 64)) && forallb id_byte (bytes s).

Definition hex_oids (oids : list string) : list string := List.filter is_hex_oid oids.

Inductive RecordError := LedgerUnreadable | NotRecorded.

(** [packs] are the pack hashes, in hex. *)
Definition new_entries (audience : EntryAudience) (commits packs : list string) (held : Ledger) : list Entry :=
  map (fun c => mkEntry EntryCommit c audience)
    (List.filter (fun c => negb (is_some_and (l_commits held !! c) (fun _ => true))) (hex_oids commits))
  ++ map (fun p => mkEntry EntryPack p audience)
    (List.filter (fun p => negb (is_some_and (l_packs held !! p) (fun _ => true))) packs).

Definition record_as (audience : EntryAudience) (commits packs : list string) (file : option string)
    : option string * (unit + RecordError) :=
  if (commits == []) && (packs == []) then (file, inl tt)
  else
    let write held file :=
      match append_entries file (new_entries audience commits packs held) with
      | inl text => (Some text, inl tt)
      | inr InvalidData => (file, inr LedgerUnreadable)
      | inr FileNotFound => (file, inr NotRecorded)
      end in
    match read_ledger file with
    | Present l => write l file
    | Absent => write empty_ledger (create_empty file).1
    | Unknown => (file, inr LedgerUnreadable)
    end.

Definition example_oid : string := String.concat "" (repeat "a" 40).

Example record_two :
  let line := "commit " +:+ example_oid +:+ " branch:1" +:+ newline in
  let file := (record_as (EntryNarrower "branch:1") [example_oid; "short"; example_oid] [] None).1 in
  file = Some (HEADER +:+ newline +:+ line +:+ line)
  /\ read_ledger file = Present (mkLedger {[example_oid := EntryNarrower "branch:1"]} ∅).
Proof. split; vm_compute; reflexivity. Qed.

Example unknown_entry : read_ledger (Some (HEADER +:+ newline +:+ "tree 00")) = Unknown.
Proof. vm_compute. reflexivity. Qed.

(** ** Lines *)

(** A byte of an entry: ASCII, and no part of a line's end. *)
Definition plain (b : byte) : bool := byte_in 0 127 b && negb (b == byte_of 10) && negb (b == byte_of 13).

Lemma id_byte_plain b : id_byte b = true -> plain b = true /\ b <> " "%char.
Proof. destruct b as [[] [] [] [] [] [] [] []]; vm_compute; done. Qed.

Lemma token_byte_plain b : token_byte b = true -> plain b = true /\ b <> " "%char.
Proof. destruct b as [[] [] [] [] [] [] [] []]; vm_compute; done. Qed.

Lemma valid_id_bytes kind id : valid_id kind id = true -> forallb id_byte (bytes id) = true /\ id <> "".
Proof. unfold valid_id. intros [Hl Hb]%andb_true_iff. split; [done|]. intros ->. by destruct kind. Qed.

Lemma forallb_impl {A} (f g : A -> bool) l : (forall x, f x = true -> g x = true) -> forallb f l = true -> forallb g l = true.
Proof. intros H Hf. apply forallb_forall. intros x Hx. by apply H, (proj1 (forallb_forall f l) Hf). Qed.

(** An audience that a ledger can hold: one its own token names. *)
Definition audience_ok (a : EntryAudience) : Prop := parse_entry_audience (default "members" (token a)) = Some a.

Lemma audience_ok_token t : audience_ok (EntryNarrower t) -> t <> "members" /\ t <> "" /\ forallb token_byte (bytes t) = true.
Proof.
  unfold audience_ok, parse_entry_audience. simpl. case_bool_decide as Hm; [done|].
  destruct (negb (bool_decide (t = ""))) eqn:E; [|done]. apply negb_true_iff, bool_decide_eq_false in E.
  by destruct (forallb token_byte (bytes t)).
Qed.

Lemma split_space_one s : (forall b, b ∈ bytes s -> b <> " "%char) -> split_on (fun a => a == " "%char) s = [s].
Proof.
  intros H. apply split_on_one, forallb_forall. intros b Hb%list_elem_of_In. by apply negb_true_iff, bool_decide_eq_false, H.
Qed.

Lemma bytes_have s f P : forallb f (bytes s) = true -> (forall b, f b = true -> P b) -> forall b : byte, b ∈ bytes s -> P b.
Proof. intros H HP b Hb%list_elem_of_In. by apply HP, (proj1 (forallb_forall f (bytes s)) H). Qed.

Lemma split_space_cons w s : (forall b, b ∈ bytes w -> b <> " "%char) ->
  split_on (fun a => a == " "%char) (w +:+ " " +:+ s) = w :: split_on (fun a => a == " "%char) s.
Proof.
  intros H. change (" " +:+ s) with (String " "%char s). rewrite split_on_cat by done. by rewrite split_space_one.
Qed.

Lemma entry_line_spec e line : entry_line e = Some line -> audience_ok (en_audience e) ->
  parse_entry line = Some e /\ line <> "" /\ starts_with "#" line = false /\ forallb plain (bytes line) = true.
Proof.
  unfold entry_line. destruct e as [k id a]; simpl. destruct (valid_id k id) eqn:Hid; simpl; [|done].
  intros [= <-] Ha. pose proof (valid_id_bytes k id Hid) as [Hb _].
  assert (forall b, b ∈ bytes id -> b <> " "%char) as Hs by (apply (bytes_have _ _ _ Hb); apply id_byte_plain).
  assert (forall b, b ∈ bytes (keyword k) -> b <> " "%char) as Hk by (destruct k; simpl; set_solver).
  assert (forallb plain (bytes id) = true) as Hp by (eapply forallb_impl; [|exact Hb]; apply id_byte_plain).
  split_and!.
  - unfold parse_entry. rewrite split_space_cons by done. destruct a as [|t]; simpl token; cbv iota.
    + rewrite str_app_nil, split_space_one by done. destruct k; simpl; by rewrite Hid.
    + destruct (audience_ok_token t Ha) as (_ & _ & Ht). rewrite split_space_cons by done. rewrite split_space_one.
      2:{ apply (bytes_have _ _ _ Ht), token_byte_plain. }
      unfold audience_ok in Ha. simpl in Ha. destruct k; simpl; rewrite Hid; simpl; by rewrite Ha.
  - by destruct k.
  - by destruct k.
  - destruct a as [|t]; cbn [token]; rewrite !bytes_app, !forallb_app, Hp.
    + by destruct k.
    + destruct (audience_ok_token t Ha) as (_ & _ & Ht).
      assert (forallb plain (bytes t) = true) as Htp by (eapply forallb_impl; [|exact Ht]; apply token_byte_plain).
      rewrite Htp. by destruct k.
Qed.

Lemma plain_line s : forallb plain (bytes s) = true -> str_lines (s +:+ newline) = [s].
Proof.
  intros H.
  assert (forall b, b ∈ bytes s -> b <> byte_of 10 /\ b <> byte_of 13) as Hb.
  { intros b Hb%list_elem_of_In%(proj1 (forallb_forall _ _) H). unfold plain in Hb. apply andb_true_iff in Hb as [[_ H1]%andb_true_iff H2].
    by rewrite negb_true_iff, bool_decide_eq_false in H1, H2. }
  rewrite str_lines_one.
  - unfold strip_suffix. destruct (strip_prefix _ _) as [r|] eqn:E; [|done]. exfalso. apply strip_prefix_app in E.
    assert (byte_of 13 ∈ bytes s) as Hin; [|by apply Hb in Hin as [_ []]].
    apply (f_equal bytes) in E. unfold str_rev in E. rewrite bytes_app, !bytes_of_bytes in E.
    change (rev (bytes (of_bytes [byte_of 13]))) with [byte_of 13] in E.
    rewrite list_elem_of_In, in_rev, E. by left.
  - apply forallb_forall. intros b Hin%list_elem_of_In. by apply negb_true_iff, bool_decide_eq_false, Hb.
Qed.

Lemma plain_lines ls : Forall (fun l => forallb plain (bytes l) = true) ls -> ls <> [] ->
  str_lines (str_join newline ls +:+ newline) = ls.
Proof.
  induction 1 as [|l ls Hl Hls IH]; [done|]. intros _. destruct ls as [|l' ls]; [by apply plain_line|].
  change (str_join newline (l :: l' :: ls)) with (l +:+ newline +:+ str_join newline (l' :: ls)).
  rewrite !str_app_assoc, str_lines_cat, plain_line by done. by rewrite IH.
Qed.

Lemma parse_entries_app a b l : parse_entries (a ++ b) l = parse_entries a l ≫= parse_entries b.
Proof.
  revert l. induction a as [|x a IH]; intros l; simpl; [done|]. destruct (_ || _); [apply IH|].
  destruct (parse_entry x) as [e|]; simpl; [apply IH|done].
Qed.

Lemma parse_entry_lines es lines l :
  mapM entry_line es = Some lines -> Forall (fun e => audience_ok (en_audience e)) es ->
  parse_entries lines l = Some (foldl record_entry l es) /\ Forall (fun l => forallb plain (bytes l) = true) lines.
Proof.
  intros Hm%mapM_Some Hok. revert l. induction Hm as [|e line es lines He Hm IH]; intros l; [done|].
  apply Forall_cons in Hok as [Ha Hok]. destruct (entry_line_spec e line He Ha) as (Hp & Hne & Hh & Hpl).
  destruct (IH Hok (record_entry l e)) as [Hr Hf]. split; [|by constructor]. simpl.
  rewrite bool_decide_eq_false_2, Hh by done. simpl. by rewrite Hp.
Qed.

(** ** What a record leaves *)

Lemma utf8_valid_app a b : utf8_valid a = true -> utf8_valid (a ++ b) = utf8_valid b.
Proof.
  remember (length a) as n eqn:Hn. revert a Hn. induction n as [n IHn] using lt_wf_ind. intros a ->.
  assert (forall k, length k < length a -> utf8_valid k = true -> utf8_valid (k ++ b) = utf8_valid b) as IH by (intros; by eapply IHn).
  clear IHn. destruct a as [|x l1]; [done|]. cbn [utf8_valid app].
  destruct (byte_in 0 127 x); [intros H; apply IH; [simpl; lia|done]|].
  destruct l1 as [|c l2]; [done|]. cbn [app]. destruct (byte_in 194 223 x).
  { intros [-> H]%andb_true_iff. apply IH; [simpl; lia|done]. }
  destruct l2 as [|d l3]; [done|]. cbn [app]. destruct (byte_in 224 239 x).
  { intros [[-> ->]%andb_true_iff H]%andb_true_iff. apply IH; [simpl; lia|done]. }
  destruct l3 as [|e l4]; [done|]. cbn [app].
  intros [[[[-> ->]%andb_true_iff ->]%andb_true_iff ->]%andb_true_iff H]%andb_true_iff. apply IH; [simpl; lia|done].
Qed.

Lemma utf8_valid_plain l : forallb (byte_in 0 127) l = true -> utf8_valid l = true.
Proof. induction l as [|b l IH]; cbn [forallb utf8_valid]; [done|]. intros [-> H]%andb_true_iff. auto. Qed.

(** A file this client wrote: whole lines that a reader reads. *)
Definition written (text : string) (l : Ledger) : Prop :=
  (exists body, text = HEADER +:+ newline +:+ body /\ (body = "" \/ exists b, body = b +:+ newline))
  /\ utf8_valid (bytes text) = true /\ parse_ledger text = Some l.

Lemma append_written text l es :
  written text l -> Forall (fun e => audience_ok (en_audience e)) es -> Forall (fun e => valid_id (en_kind e) (en_id e) = true) es ->
  exists text', append_entries (Some text) es = inl text' /\ written text' (foldl record_entry l es).
Proof.
  intros ((body & Htext & Hbody) & Hutf & Hparse) Hok Hid.
  assert (exists lines, mapM entry_line es = Some lines) as [lines Hlines].
  { apply mapM_is_Some. eapply Forall_impl; [exact Hid|]. intros e He. simpl. unfold entry_line. rewrite He. by eexists. }
  unfold append_entries. rewrite Hlines. replace (first_line text) with HEADER.
  2:{ rewrite Htext. unfold first_line. change (newline +:+ body) with (String (byte_of 10) body).
      rewrite split_on_cat by (by apply bool_decide_eq_true_2). by vm_compute. }
  simpl. case_bool_decide as Hnil.
  { subst lines. apply mapM_Some in Hlines. inversion Hlines; subst. exists (HEADER +:+ newline +:+ body). split; [done|].
    split; [by exists body|done]. }
  eexists. split; [reflexivity|]. destruct (parse_entry_lines es lines l Hlines Hok) as [Hfold Hplain].
  split; [|split].
  - exists (body +:+ str_join newline lines +:+ newline). split; [by rewrite Htext, !str_app_assoc|].
    right. exists (body +:+ str_join newline lines). by rewrite str_app_assoc.
  - rewrite bytes_app, utf8_valid_app by done. apply utf8_valid_plain. rewrite bytes_app, forallb_app.
    apply andb_true_iff. split; [|done]. clear -Hplain. induction Hplain as [|s ls Hs Hls IH]; [done|].
    assert (forallb (byte_in 0 127) (bytes s) = true) as Ha.
    { eapply forallb_impl; [|exact Hs]. intros b [[? _]%andb_true_iff _]%andb_true_iff. done. }
    destruct ls as [|s' ls]; [done|]. change (str_join newline (s :: s' :: ls)) with (s +:+ newline +:+ str_join newline (s' :: ls)).
    by rewrite !bytes_app, !forallb_app, Ha, IH.
  - assert (str_lines (text +:+ str_join newline lines +:+ newline) = str_lines text ++ lines) as Hls.
    { assert (exists b, text = b +:+ newline) as [b ->].
      { destruct Hbody as [->|[b ->]]; [exists HEADER; by rewrite str_app_nil in Htext|].
        exists (HEADER +:+ newline +:+ b). by rewrite Htext, !str_app_assoc. }
      rewrite str_app_assoc, str_lines_cat. by rewrite plain_lines. }
    unfold parse_ledger in *. rewrite Hls. destruct (str_lines text) as [|first rest]; [done|]. simpl.
    destruct (first == HEADER); [|done]. rewrite parse_entries_app, Hparse. done.
Qed.

(** Entries of one kind and audience narrow their ids, and leave the others alone. *)
Definition narrow_all (a : EntryAudience) (ids : list string) (m : gmap string EntryAudience) : gmap string EntryAudience :=
  foldl (fun m id => narrow_in id a m) m ids.

Lemma narrow_all_lookup a ids m id :
  narrow_all a ids m !! id = if bool_decide (id ∈ ids) then Some (match m !! id with Some prev => narrowest prev a | None => a end) else m !! id.
Proof.
  revert m. induction ids as [|x ids IH]; intros m; [done|]. cbn [narrow_all foldl]. fold (narrow_all a ids (narrow_in x a m)).
  rewrite IH. unfold narrow_in. destruct (decide (id = x)) as [->|Hne].
  - rewrite lookup_insert, (bool_decide_eq_true_2 (x ∈ x :: ids)) by set_solver. rewrite decide_True by done.
    case_bool_decide; [|done]. f_equal. destruct (m !! x) as [p|]; [by destruct p, a|by destruct a].
  - rewrite lookup_insert_ne by done. repeat case_bool_decide; set_solver.
Qed.

Lemma foldl_entries k a ids l :
  foldl record_entry l (map (fun id => mkEntry k id a) ids) =
    match k with
    | EntryCommit => mkLedger (narrow_all a ids (l_commits l)) (l_packs l)
    | EntryPack => mkLedger (l_commits l) (narrow_all a ids (l_packs l))
    end.
Proof. revert l. induction ids as [|id ids IH]; intros l; [by destruct k, l|]. cbn [map foldl]. rewrite IH. by destruct k. Qed.

(** Ids that are not held are recorded, and those held keep their audience. *)
Definition added (a : EntryAudience) (held : gmap string EntryAudience) (ids : list string) (id : string) : option EntryAudience :=
  match held !! id with Some prev => Some prev | None => if bool_decide (id ∈ ids) then Some a else None end.

Lemma narrow_new a ids m id :
  narrow_all a (List.filter (fun c => negb (is_some_and (m !! c) (fun _ => true))) ids) m !! id = added a m ids id.
Proof.
  rewrite narrow_all_lookup. unfold added.
  assert (id ∈ List.filter (fun c => negb (is_some_and (m !! c) (fun _ => true))) ids <-> id ∈ ids /\ m !! id = None) as Hin.
  { rewrite !list_elem_of_In, filter_In. destruct (m !! id); simpl; naive_solver. }
  destruct (m !! id); repeat case_bool_decide; naive_solver.
Qed.

Definition held_by (file : option string) : Ledger := match read_ledger file with Present l => l | _ => empty_ledger end.

(** The ledger a client can add to: none yet, or one it wrote. *)
Definition ledger_ok (file : option string) : Prop :=
  match file with None => True | Some text => exists l, written text l end.

Lemma read_written text l : written text l -> read_ledger (Some text) = Present l.
Proof. intros (_ & Hutf & Hparse). simpl. by rewrite Hutf, Hparse. Qed.

Lemma is_hex_oid_valid id : is_hex_oid id = valid_id EntryCommit id.
Proof. done. Qed.

Lemma create_written : written (HEADER +:+ newline) empty_ledger.
Proof. split; [exists ""; split; [by rewrite str_app_nil|by left]|]. split; vm_compute; reflexivity. Qed.

(** C23: the ledger forgets nothing: recording what a clone fetched or pushed succeeds on every
    ledger this client wrote, and on none at all, and leaves one it can read and add to. That
    one holds every commit and pack held before, for the people it was for, and each new object
    id and pack for the audience recorded, whatever the text it is written as. *)
Theorem record_as_spec audience commits packs file
  (Hok : ledger_ok file) (Ha : audience_ok audience) (Hpacks : Forall (fun p => valid_id EntryPack p = true) packs)
  (Hne : commits <> [] \/ packs <> []) :
  exists file' l', record_as audience commits packs file = (file', inl tt) /\ ledger_ok file'
  /\ read_ledger file' = Present l'
  /\ (forall c, l_commits l' !! c = added audience (l_commits (held_by file)) (hex_oids commits) c)
  /\ (forall p, l_packs l' !! p = added audience (l_packs (held_by file)) packs p).
Proof.
  assert (forall l, Forall (fun e => audience_ok (en_audience e)) (new_entries audience commits packs l)
    /\ Forall (fun e => valid_id (en_kind e) (en_id e) = true) (new_entries audience commits packs l)) as Hnew.
  { intros l. unfold new_entries. rewrite !Forall_app, !Forall_map. split_and!; apply Forall_forall; simpl; try done;
      intros id; rewrite list_elem_of_In, filter_In, <-list_elem_of_In; intros [Hin _].
    - unfold hex_oids in Hin. rewrite list_elem_of_In, filter_In in Hin. apply Hin.
    - rewrite Forall_forall in Hpacks. by apply Hpacks. }
  assert (exists text l, written text l /\ held_by file = l
    /\ record_as audience commits packs file =
       match append_entries (Some text) (new_entries audience commits packs l) with
       | inl text => (Some text, inl tt)
       | inr InvalidData => (Some text, inr LedgerUnreadable)
       | inr FileNotFound => (Some text, inr NotRecorded)
       end) as (text & l & Hw & Hheld & ->).
  { unfold record_as, held_by. replace ((commits == []) && (packs == [])) with false.
    2:{ symmetry. apply andb_false_iff. rewrite !bool_decide_eq_false. naive_solver. }
    destruct file as [text|]; [destruct Hok as [l Hw]|].
    - rewrite (read_written text l Hw). by exists text, l.
    - exists (HEADER +:+ newline), empty_ledger. split; [apply create_written|done]. }
  destruct (Hnew l) as [H1 H2]. destruct (append_written text l _ Hw H1 H2) as (text' & -> & Hw').
  exists (Some text'), (foldl record_entry l (new_entries audience commits packs l)).
  split_and!; [done|by eexists|by apply read_written| |]; intros id; unfold new_entries; rewrite foldl_app, !foldl_entries, Hheld;
    simpl; apply narrow_new.
Qed.

Lemma record_as_spec_witness :
  exists file' l', record_as EntryMembers [example_oid] [] None = (file', inl tt) /\ ledger_ok file'
  /\ read_ledger file' = Present l'
  /\ (forall x, l_commits l' !! x = added EntryMembers (l_commits (held_by None)) (hex_oids [example_oid]) x)
  /\ (forall p, l_packs l' !! p = added EntryMembers (l_packs (held_by None)) [] p).
Proof.
  apply (record_as_spec EntryMembers [example_oid] [] None); [exact I|reflexivity|constructor|left; discriminate].
Defined.
