(* ===== verification/Audiences.v ===== *)
(** Who a ref, a commit or a pack is for ([members_git/mod.rs]), and when everyone one audience
    holds may read what another does ([members_git/guard.rs], [env/mod.rs]). *)
From S2P Require Import Wire.
From S2P Require Import Prelude Text Ledger.

Inductive Audience :=
| Public
| Members
| Narrower (token : string).

#[export] Instance Audience_eq_dec : EqDecision Audience.
Proof. solve_decision. Defined.

Definition is_sealed (a : Audience) : bool := a != Public.

Definition audience_str (a : Audience) : string :=
  match a with Public => "public" | Members => "members" | Narrower t => t end.

Definition audience_of_str (s : string) : option Audience :=
  if s == "public" then Some Public
  else if s == "members" then Some Members
  else match parse_entry_audience s with Some (EntryNarrower t) => Some (Narrower t) | _ => None end.

(** The audience the ledger records a commit with. *)
Definition audience_entry (a : Audience) : option EntryAudience :=
  match a with Public => None | Members => Some EntryMembers | Narrower t => Some (EntryNarrower t) end.

Inductive Group := Maintainers | Writers | AllMembers.

(** A narrower audience: a role group, or none, and people. *)
Record NarrowAudience := mkNarrowAudience {
  na_group : option Group;
  na_people : gset string
}.

Abbreviation NarrowAudiences := (gmap string NarrowAudience).

(** The audience of an environment or a narrower branch, as its people chose it. *)
Record EnvAudience := mkEnvAudience {
  ea_group : option Group;
  ea_also : list string
}.

Definition narrow_audience (a : EnvAudience) : NarrowAudience := mkNarrowAudience (ea_group a) (list_to_set (ea_also a)).

Definition group_rank (g : option Group) : N :=
  match g with None => 0 | Some Maintainers => 1 | Some Writers => 2 | Some AllMembers => 3 end.

(** The audience a token stands for. *)
Definition audience_of_token (audiences : NarrowAudiences) (t : string) : option NarrowAudience :=
  if t == "members" then Some (mkNarrowAudience (Some AllMembers) ∅) else audiences !! t.

(** Whether everyone [dst] is for may already read what [src] is for. *)
Definition within (dst src : string) (audiences : NarrowAudiences) : bool :=
  (dst == src) ||
  match audience_of_token audiences dst, audience_of_token audiences src with
  | Some d, Some s => (group_rank (na_group d) <=? group_rank (na_group s))%N && bool_decide (na_people d ⊆ na_people s)
  | _, _ => false
  end.

(** ** Properties *)

Lemma audience_str_roundtrip a : audience_of_str (audience_str a) = Some a <->
  match a with Narrower t => parse_entry_audience t = Some (EntryNarrower t) /\ t <> "public" | _ => True end.
Proof.
  destruct a as [| |t]; [done..|]. unfold audience_of_str. simpl. case_bool_decide as Hp.
  { subst t. split; [done|]. by intros [_ []]. }
  case_bool_decide as Hm; [subst t; split; [done|by intros [? _]]|].
  destruct (parse_entry_audience t) as [[|u]|]; split; try done; naive_solver.
Qed.

Lemma within_refl t audiences : within t t audiences = true.
Proof. unfold within. by rewrite bool_decide_eq_true_2. Qed.

(** Reading what a wider audience reads carries over. *)
Lemma within_trans a b c audiences : within a b audiences = true -> within b c audiences = true -> within a c audiences = true.
Proof.
  unfold within. destruct (decide (a = b)) as [->|Hab]; [done|]. rewrite (bool_decide_eq_false_2 (a = b)) by done. simpl.
  intros H1. destruct (decide (b = c)) as [<-|Hbc]; [intros _; by rewrite H1, orb_true_r|].
  rewrite (bool_decide_eq_false_2 (b = c)) by done. simpl. intros H2.
  destruct (audience_of_token audiences a) as [da|], (audience_of_token audiences b) as [db|], (audience_of_token audiences c) as [dc|];
    try done.
  apply andb_true_iff in H1 as [H1%N.leb_le H1'%bool_decide_eq_true], H2 as [H2%N.leb_le H2'%bool_decide_eq_true].
  apply orb_true_iff. right. apply andb_true_iff. split; [apply N.leb_le; lia|apply bool_decide_eq_true; set_solver].
Qed.
