(* ===== verification/Document.v ===== *)
(** Documents as the platform client hands them out ([platform/mod.rs]): the closed set of
    field values and the accessors of a fetched document. *)
From S2P Require Import Wire.
From S2P Require Import Prelude.

(** ** Definitions *)

(** [Integer], [Uint64] hold a [u64], [Signed] an [i64]; an object's fields are in key order. *)
Inductive FieldValue :=
  | Bytes (b : list byte)
  | Bytes32 (b : list byte)
  | Identifier (b : list byte)
  | Integer (n : N)
  | Uint64 (n : N)
  | Signed (n : Z)
  | Text (s : string)
  | Bool (b : bool)
  | Object (fields : list (string * FieldValue))
  | ListValue (items : list FieldValue).

Definition as_bytes (v : FieldValue) : option (list byte) :=
  match v with Bytes b | Bytes32 b | Identifier b => Some b | _ => None end.

Definition as_u64 (v : FieldValue) : option N :=
  match v with
  | Integer n | Uint64 n => Some n
  | Signed n => if (0 <=? n)%Z then Some (Z.to_N n) else None
  | _ => None
  end.

Definition i64_max : Z := 9223372036854775807.

Definition as_i64 (v : FieldValue) : option Z :=
  match v with
  | Integer n | Uint64 n => if (Z.of_N n <=? i64_max)%Z then Some (Z.of_N n) else None
  | Signed n => Some n
  | _ => None
  end.

Definition as_str (v : FieldValue) : option string := match v with Text s => Some s | _ => None end.

Definition as_text_list (v : FieldValue) : option (list string) :=
  match v with
  | ListValue items => mapM as_str items
  | Bytes [] => Some []
  | _ => None
  end.

Record FetchedDocument := mkFetchedDocument {
  fd_id : string;
  fd_owner_id : string;
  fd_created_at : option N;
  fd_created_at_block_height : option N;
  fd_updated_at_block_height : option N;
  fd_updated_at : option N;
  fd_fields : gmap string FieldValue;
  fd_revision : option N;
}.

Definition field_bytes (d : FetchedDocument) (name : string) : option (list byte) := v ← fd_fields d !! name; as_bytes v.
Definition field_bytes32 (d : FetchedDocument) (name : string) : option (list byte) :=
  b ← field_bytes d name; if (len b =? 32)%N then Some b else None.
Definition field_u64 (d : FetchedDocument) (name : string) : option N := v ← fd_fields d !! name; as_u64 v.
Definition field_str (d : FetchedDocument) (name : string) : option string := v ← fd_fields d !! name; as_str v.
Definition field_bool (d : FetchedDocument) (name : string) : bool :=
  match fd_fields d !! name with Some (Bool true) => true | _ => false end.

(** ** Properties *)

(** What [push] of an integer reads back as. *)
Lemma as_u64_i64 v n : as_u64 v = Some n -> (Z.of_N n <= i64_max)%Z -> as_i64 v = Some (Z.of_N n).
Proof.
  intros H Hn. destruct v; simplify_eq/=; try (rewrite (proj2 (Z.leb_le _ _)); done).
  destruct (Z.leb_spec 0 n0); simplify_eq. by rewrite Z2N.id.
Qed.
