(* ===== verification/Paging.v ===== *)
(** Reading a query to its end ([platform/mod.rs]): pages after an id cursor, of a fixed size or
    of a size and deadline that follow the network. *)
From Stdlib Require Import Floats.SpecFloat.
From S2P Require Import Wire.
From S2P Require Import Prelude.
From S2P Require Import Document.

(** ** Definitions *)

Definition PAGE_SIZE : N := 100.
Definition MAX_PAGES : nat := 1000.

(** The rows held so far, and their ids. *)
Definition hold (acc : list FetchedDocument * gset string) (d : FetchedDocument) : list FetchedDocument * gset string :=
  if bool_decide (fd_id d ∈ acc.2) then acc else (acc.1 ++ [d], {[fd_id d]} ∪ acc.2).
Definition hold_page (page : list FetchedDocument) (acc : list FetchedDocument * gset string) : list FetchedDocument * gset string :=
  foldl hold acc page.

Section page_until.
(** The query, whose answers may depend on what was asked before. *)
Context {S : Type} (document_type : string) (fetch : S -> option string -> Result (list FetchedDocument) * S) (max : N).

Definition incomplete (fetched : N) (reason : string) : Error := IncompleteRead document_type fetched reason.

Fixpoint page_loop (rounds : nat) (s : S) (acc : list FetchedDocument * gset string) (start_after : option string)
  : Result (list FetchedDocument) * S :=
  match rounds with
  | O => (Err (incomplete (len acc.1) ("the " +:+ pretty (N.of_nat MAX_PAGES) +:+ "-page safety cap was reached before a short page proved the end")), s)
  | Datatypes.S rounds =>
  let '(page, s) := fetch s start_after in
  match page with
  | Ok page =>
    let acc := hold_page page acc in
    if (len page <? PAGE_SIZE)%N || (max <? len acc.1)%N then (Ok acc.1, s)
    else match fd_id <$> last page with
         | None => (Err (incomplete (len acc.1) "a full page yielded no cursor document"), s)
         | Some cursor => page_loop rounds s acc (Some cursor)
         end
  | Err e => (Err e, s)
  | Panic => (Panic, s)
  end
  end.

Definition page_until (s : S) : Result (list FetchedDocument) * S := page_loop MAX_PAGES s ([], ∅) None.
End page_until.

(** *** Durations, as nanoseconds, and [f64] *)

Definition NANOS : N := 1000000000.
Definition duration_max : N := u64_max * NANOS + (NANOS - 1).
Definition secs (n : N) : N := n * NANOS.
Definition sat_mul_duration (d k : N) : N := N.min (d * k) duration_max.
Definition clamp (v lo hi : N) : N := if (v <? lo)%N then lo else if (hi <? v)%N then hi else v.

Definition f64 : Type := spec_float.
Definition f64_of (n : N) : f64 := binary_normalize 53 1024 (Z.of_N n) 0 false.
Definition f64_div : f64 -> f64 -> f64 := SFdiv 53 1024.
Definition f64_mul : f64 -> f64 -> f64 := SFmul 53 1024.
Definition f64_add : f64 -> f64 -> f64 := SFadd 53 1024.
(** [f64::max], of numbers. *)
Definition f64_max (x y : f64) : f64 := if SFltb x y then y else x.
(** [0.001] and [f64::MIN_POSITIVE]. *)
Definition MILLI : f64 := f64_div (f64_of 1) (f64_of 1000).
Definition MIN_POSITIVE : f64 := S754_finite false 4503599627370496 (-1074).

Definition as_secs_f64 (d : N) : f64 := f64_add (f64_of (d / NANOS)) (f64_div (f64_of (d mod NANOS)) (f64_of NANOS)).

(** [n / d] rounded to the nearest integer, halves to the even one. *)
Definition round_half_even (n d : N) : N :=
  let q := (n / d)%N in
  match (2 * (n mod d) ?= d)%N with Lt => q | Gt => (q + 1)%N | Eq => if N.even q then q else (q + 1)%N end.

(** [Duration::try_from_secs_f64]: the nearest nanosecond. *)
Definition try_from_secs_f64 (x : f64) : option N :=
  match x with
  | S754_zero _ => Some 0%N
  | S754_finite false m e =>
    let n := (Npos m * NANOS)%N in
    let d := if (0 <=? e)%Z then (n * 2 ^ Z.to_N e)%N else round_half_even n (2 ^ Z.to_N (- e))%N in
    if (d <=? duration_max)%N then Some d else None
  | _ => None
  end.

(** *** The pager *)

Definition LARGE_PAGE_START : N := 16.
Definition LARGE_PAGE_MAX : N := 48.
Definition LARGE_PAGE_MIN_TIMEOUT : N := secs 20.
Definition LARGE_PAGE_MAX_TIMEOUT : N := secs 120.
Definition LARGE_PAGE_ASSUMED_RATE : f64 := f64_of 1.
Definition LARGE_PAGE_HEADROOM : f64 := f64_of 3.
Definition LARGE_PAGE_RECOVERY : N := 8.

Record AdaptivePager := mkPager { pg_limit : N; pg_ceiling : N; pg_max : N; pg_quick : N; pg_timeout : N }.

Definition deadline_for (limit : N) (rate : f64) : N :=
  let s := f64_mul (f64_div (f64_of limit) (f64_max rate MIN_POSITIVE)) LARGE_PAGE_HEADROOM in
  clamp (default LARGE_PAGE_MAX_TIMEOUT (try_from_secs_f64 s)) LARGE_PAGE_MIN_TIMEOUT LARGE_PAGE_MAX_TIMEOUT.

Definition pager_new (start max : N) : AdaptivePager :=
  let max := N.max max 1 in
  let limit := clamp start 1 max in
  mkPager limit max max 0 (deadline_for limit LARGE_PAGE_ASSUMED_RATE).

Definition sat_mul_u32 (a b : N) : N := N.min (a * b) u32_max.

Definition on_page (p : AdaptivePager) (rows elapsed : N) : AdaptivePager :=
  if (rows =? 0)%N then p else
  let rate := f64_div (f64_of (default u32_max (u32_try_from rows))) (f64_max (as_secs_f64 elapsed) MILLI) in
  let p :=
    if (sat_mul_duration elapsed 4 <? pg_timeout p)%N then
      let quick := (pg_quick p + 1)%N in
      let '(ceiling, quick) :=
        if (pg_ceiling p <? pg_max p)%N && (LARGE_PAGE_RECOVERY <=? quick)%N
        then (N.min (sat_mul_u32 (pg_ceiling p) 2) (pg_max p), 0%N) else (pg_ceiling p, quick) in
      mkPager (N.min (sat_mul_u32 (pg_limit p) 2) ceiling) ceiling (pg_max p) quick (pg_timeout p)
    else mkPager (pg_limit p) (pg_ceiling p) (pg_max p) 0 (pg_timeout p) in
  mkPager (pg_limit p) (pg_ceiling p) (pg_max p) (pg_quick p) (deadline_for (pg_limit p) rate).

(** [None] when the read gives up. *)
Definition on_deadline (p : AdaptivePager) : option AdaptivePager :=
  if (pg_limit p =? 1)%N && (LARGE_PAGE_MAX_TIMEOUT <=? pg_timeout p)%N then None else
  let limit := N.max (pg_limit p / 2) 1 in
  Some (mkPager limit limit (pg_max p) 0 (clamp (sat_mul_duration (pg_timeout p) 2) LARGE_PAGE_MIN_TIMEOUT LARGE_PAGE_MAX_TIMEOUT)).

(** *** The paced read *)

(** How a page came back: with its rows after some time, out of time, or with another error. *)
Inductive PageAnswer :=
  | Page (rows : list FetchedDocument) (elapsed : N)
  | Deadline (detail : string)
  | Other (e : Error).

Definition MAX_ROWS : N := N.of_nat MAX_PAGES * PAGE_SIZE.

Section page_adaptively.
Context {S : Type} (document_type : string) (fetch : S -> option string -> N -> N -> PageAnswer * S).

Definition gave_up (timeout fetched : N) (detail : string) : Error :=
  Platform ("querying " +:+ document_type +:+ " documents: the network did not deliver even one document within "
  +:+ pretty (timeout / NANOS)%N +:+ " s, after " +:+ pretty fetched +:+ " were read (" +:+ detail +:+ ")").

(** [None] when the fuel runs out. *)
Fixpoint adaptive_loop (fuel : nat) (s : S) (pager : AdaptivePager) (acc : list FetchedDocument * gset string)
  (start_after : option string) : option (Result (list FetchedDocument) * S) :=
  match fuel with
  | O => None
  | Datatypes.S fuel =>
  if (len acc.1 <? MAX_ROWS)%N then
    let '(answer, s) := fetch s start_after (pg_limit pager) (pg_timeout pager) in
    match answer with
    | Other e => Some (Err e, s)
    | Deadline detail =>
      match on_deadline pager with
      | None => Some (Err (gave_up (pg_timeout pager) (len acc.1) detail), s)
      | Some pager => adaptive_loop fuel s pager acc start_after
      end
    | Page page elapsed =>
      let acc' := hold_page page acc in
      if (len page <? pg_limit pager)%N then Some (Ok acc'.1, s)
      else if (len acc'.1 =? len acc.1)%N then
        Some (Err (IncompleteRead document_type (len acc'.1) "a full page held no new document: the cursor did not advance"), s)
      else match fd_id <$> last page with
           | None => Some (Err (IncompleteRead document_type (len acc'.1) "a full page yielded no cursor document"), s)
           | Some cursor => adaptive_loop fuel s (on_page pager (len page) elapsed) acc' (Some cursor)
           end
    end
  else Some (Err (IncompleteRead document_type (len acc.1)
    ("the " +:+ pretty MAX_ROWS +:+ "-document safety cap was reached before a short page proved the end")), s)
  end.

Definition page_adaptively (fuel : nat) (pager : AdaptivePager) (s : S) : option (Result (list FetchedDocument) * S) :=
  adaptive_loop fuel s pager ([], ∅) None.
End page_adaptively.

(** ** The pager on examples *)

Definition shown (p : AdaptivePager) : N * N := (pg_limit p, pg_timeout p).
Definition started : AdaptivePager := pager_new LARGE_PAGE_START LARGE_PAGE_MAX.

Example pager_start : shown started = (16, secs 48)%N.
Proof. vm_compute. reflexivity. Qed.

Example pager_follows : shown (on_page started 16 (secs 8)) = (32, secs 48)%N
  /\ shown (on_page (on_page started 16 (secs 8)) 32 (secs 40)) = (32, LARGE_PAGE_MAX_TIMEOUT)%N.
Proof. split; vm_compute; reflexivity. Qed.

Example pager_slows : omap (fun k => shown <$> Nat.iter k (fun p => p ≫= on_deadline) (Some started)) [1; 2; 3; 4; 5]
  = [(8, secs 96); (4, secs 120); (2, secs 120); (1, secs 120)]%N.
Proof. vm_compute. reflexivity. Qed.

(** ** Rows held *)

Definition ids (l : list FetchedDocument) : list string := map fd_id l.

Definition holds (acc : list FetchedDocument * gset string) : Prop := NoDup (ids acc.1) /\ forall i, i ∈ acc.2 <-> i ∈ ids acc.1.

Lemma holds_nil : holds ([], ∅).
Proof. split; [constructor|]. simpl. set_solver. Qed.

Lemma hold_ok acc d : holds acc -> holds (hold acc d) /\ (hold acc d).1 = if bool_decide (fd_id d ∈ ids acc.1) then acc.1 else acc.1 ++ [d].
Proof.
  intros [Hn Hi]. unfold hold. rewrite (bool_decide_ext _ _ (Hi (fd_id d))). case_bool_decide as Hd; [by split|]. split; [|done].
  split; cbn [fst snd]; unfold ids in *; rewrite map_app.
  - apply NoDup_app. split_and!; [done| |apply NoDup_singleton]. intros i Hin ->%list_elem_of_singleton. done.
  - intros i. rewrite elem_of_union, elem_of_singleton, Hi, elem_of_app. cbn [map]. rewrite list_elem_of_singleton. tauto.
Qed.

Lemma hold_page_ok page acc : holds acc -> holds (hold_page page acc)
  /\ (exists more, (hold_page page acc).1 = acc.1 ++ more /\ more `sublist_of` page)
  /\ (forall i, i ∈ ids (hold_page page acc).1 <-> i ∈ ids acc.1 \/ i ∈ ids page).
Proof.
  revert acc. induction page as [|d page IH]; intros acc Ha; cbn [hold_page foldl].
  { split_and!; [done|exists []; by rewrite app_nil_r|]. intros i. unfold ids at 3. simpl. rewrite elem_of_nil. tauto. }
  destruct (hold_ok acc d Ha) as [Hh Heq]. destruct (IH (hold acc d) Hh) as (H1 & (more & Hm & Hsub) & H2). split_and!; [done| |].
  - unfold hold_page in Hm. rewrite Heq in Hm. case_bool_decide.
    + exists more. split; [done|by apply sublist_cons].
    + exists (d :: more). rewrite Hm, <-app_assoc. split; [done|by apply sublist_skip].
  - intros i. change (i ∈ ids (d :: page)) with (i ∈ fd_id d :: ids page). unfold hold_page in H2. rewrite H2, elem_of_cons.
    destruct (decide (fd_id d ∈ ids acc.1)) as [Hd|Hd].
    + rewrite bool_decide_eq_true_2 in Heq by done. rewrite Heq. split; [tauto|]. intros [Hi|[->|Hi]]; tauto.
    + rewrite bool_decide_eq_false_2 in Heq by done. rewrite Heq. unfold ids at 1. rewrite map_app, elem_of_app. cbn [map].
      rewrite list_elem_of_singleton. tauto.
Qed.

Lemma hold_page_new page acc : holds acc -> NoDup (ids (acc.1 ++ page)) -> (hold_page page acc).1 = acc.1 ++ page.
Proof.
  revert acc. induction page as [|d page IH]; intros acc Ha Hn; cbn [hold_page foldl]; [by rewrite app_nil_r|].
  destruct (hold_ok acc d Ha) as [Hh Heq]. assert (fd_id d ∉ ids acc.1) as Hd.
  { unfold ids in *. rewrite map_app in Hn. apply NoDup_app in Hn as (_ & Hn & _). intros Hin. apply (Hn _ Hin). left. }
  rewrite bool_decide_eq_false_2 in Heq by done. specialize (IH (hold acc d) Hh). unfold hold_page in IH.
  rewrite IH; rewrite Heq, <-app_assoc; done.
Qed.

(** ** A query's answers *)

(** The rows after a cursor, in the query's order. *)
Fixpoint rows_after (c : string) (rows : list FetchedDocument) : list FetchedDocument :=
  match rows with [] => [] | d :: rows => if fd_id d == c then rows else rows_after c rows end.
Definition serve (rows : list FetchedDocument) (cursor : option string) (limit : N) : list FetchedDocument :=
  take (N.to_nat limit) match cursor with None => rows | Some c => rows_after c rows end.

Lemma rows_after_at rows i d : NoDup (ids rows) -> rows !! i = Some d -> rows_after (fd_id d) rows = drop (S i) rows.
Proof.
  revert i. induction rows as [|e rows IH]; intros i Hn Hi; [done|]. cbn [rows_after]. apply NoDup_cons in Hn as [He Hn].
  destruct i as [|i]; simpl in Hi.
  - injection Hi as ->. by rewrite bool_decide_eq_true_2.
  - rewrite bool_decide_eq_false_2; [by apply IH|]. intros Heq. apply He. rewrite Heq. apply list_elem_of_fmap. exists d.
    split; [done|by eapply list_elem_of_lookup_2].
Qed.

(** A cursor that stands after the first [k] rows. *)
Definition stands (rows : list FetchedDocument) (k : nat) (cursor : option string) : Prop :=
  match cursor with None => k = 0 | Some c => exists i d, k = S i /\ rows !! i = Some d /\ c = fd_id d end.

Lemma serve_at rows k cursor limit : NoDup (ids rows) -> stands rows k cursor ->
  serve rows cursor limit = take (N.to_nat limit) (drop k rows).
Proof.
  intros Hn. unfold serve. destruct cursor as [c|]; simpl; [|by intros ->]. intros (i & d & -> & Hi & ->). by rewrite (rows_after_at rows i d).
Qed.

Lemma NoDup_ids_take rows k : NoDup (ids rows) -> NoDup (ids (take k rows)).
Proof. intros Hn. unfold ids in *. rewrite <-(take_drop k rows), map_app in Hn. by apply NoDup_app in Hn as (? & _ & _). Qed.

Lemma hold_served rows k limit acc : NoDup (ids rows) -> holds acc -> acc.1 = take k rows ->
  (hold_page (take limit (drop k rows)) acc).1 = take (k + limit) rows.
Proof. intros Hn Ha Hk. rewrite hold_page_new; [|done|]; rewrite Hk, take_take_drop; [done|]. by apply NoDup_ids_take. Qed.

Lemma last_served rows k limit d : k + limit <= length rows -> 0 < limit ->
  last (take limit (drop k rows)) = Some d -> stands rows (k + limit) (Some (fd_id d)).
Proof.
  intros Hk Hl. rewrite last_lookup, length_take_le, lookup_take_lt, lookup_drop by (rewrite ?length_drop; lia). intros Hd.
  exists (k + Nat.pred limit), d. split_and!; [lia|done|done].
Qed.

(** ** Pages of a fixed size *)

Section complete.
Context {S : Type} (document_type : string) (fetch : S -> option string -> Result (list FetchedDocument) * S) (max : N).
Context (rows : list FetchedDocument) (Hids : NoDup (ids rows)).
Context (Hserve : forall s cursor, (fetch s cursor).1 = Ok (serve rows cursor PAGE_SIZE)).

(** The rows a read that stops past [max] ends with, and the error of one that is cut off. *)
Definition stop_at : N := (PAGE_SIZE * (max / PAGE_SIZE + 1))%N.
Definition cut_off (fetched : N) : Error :=
  incomplete document_type fetched ("the " +:+ pretty (N.of_nat MAX_PAGES) +:+ "-page safety cap was reached before a short page proved the end").

Lemma stop_at_spec : (max < stop_at)%N /\ forall k, (PAGE_SIZE * k <= max)%N -> (PAGE_SIZE * (k + 1) <= stop_at)%N /\ (max < PAGE_SIZE * (k + 1) -> stop_at = PAGE_SIZE * (k + 1))%N.
Proof.
  unfold stop_at, PAGE_SIZE. pose proof (N.div_mod max 100 ltac:(done)) as Hd. pose proof (N.mod_lt max 100 ltac:(done)) as Hm.
  revert Hd Hm. generalize (max / 100)%N (max mod 100)%N. intros q r Hd Hm. split; [lia|]. intros k Hk. split; nia.
Qed.

Lemma page_loop_serve rounds s acc cursor j :
  holds acc -> acc.1 = take (100 * j) rows -> stands rows (100 * j) cursor -> 100 * j <= length rows -> (PAGE_SIZE * N.of_nat j <= max)%N ->
  (page_loop document_type fetch max rounds s acc cursor).1 =
  let cap := (PAGE_SIZE * N.of_nat (j + rounds))%N in
  if (len rows <? N.min stop_at cap)%N then Ok rows
  else if (stop_at <=? cap)%N then Ok (take (N.to_nat stop_at) rows) else Err (cut_off cap).
Proof.
  revert s acc cursor j. induction rounds as [|rounds IH]; intros s acc cursor j Ha Hacc Hc Hj Hm; destruct stop_at_spec as [Hmax Hstop].
  - cbn [page_loop fst]. cbv zeta. rewrite Nat.add_0_r. assert (len acc.1 = PAGE_SIZE * N.of_nat j)%N as ->.
    { rewrite Hacc. unfold len, PAGE_SIZE. rewrite length_take_le by done. lia. }
    rewrite (proj2 (N.ltb_ge _ _)), (proj2 (N.leb_gt _ _)); [done|lia|]. unfold len, PAGE_SIZE. lia.
  - cbn [page_loop]. pose proof (Hserve s cursor) as Hf. destruct (fetch s cursor) as [page s']. cbn [fst] in Hf. subst page.
    destruct (Hstop _ Hm) as [Hle Heq]. set (page := serve rows cursor PAGE_SIZE).
    assert (page = take 100 (drop (100 * j) rows)) as Hp by (by apply serve_at).
    pose proof (hold_served rows (100 * j) 100 acc Hids Ha Hacc) as Hh. rewrite <-Hp in Hh.
    assert (length page = Nat.min 100 (length rows - 100 * j)) as Hn by (by rewrite Hp, length_take, length_drop).
    assert (length (hold_page page acc).1 = Nat.min (100 * j + 100) (length rows)) as Hl by (by rewrite Hh, length_take).
    assert (100 * j + 100 = 100 * Datatypes.S j) as Hsj by lia. rewrite Hsj in Hh, Hl. cbv zeta.
    destruct (N.ltb_spec (len page) PAGE_SIZE) as [Hshort|Hfull]; cbn [orb].
    { cbn [fst]. rewrite Hh, take_ge by (unfold len, PAGE_SIZE in *; lia). rewrite (proj2 (N.ltb_lt _ _)); [done|]. unfold len, PAGE_SIZE in *. lia. }
    assert (100 * Datatypes.S j <= length rows) as Hj' by (unfold len, PAGE_SIZE in *; lia).
    assert (len (hold_page page acc).1 = PAGE_SIZE * (N.of_nat j + 1))%N as Hlen by (unfold len, PAGE_SIZE in *; lia). rewrite Hlen.
    destruct (N.ltb_spec max (PAGE_SIZE * (N.of_nat j + 1))) as [Hover|Hunder].
    { cbn [fst]. rewrite (Heq Hover), Hh. rewrite (proj2 (N.ltb_ge _ _)), (proj2 (N.leb_le _ _)) by (unfold len, PAGE_SIZE in *; lia).
      do 2 f_equal. unfold PAGE_SIZE. lia. }
    destruct (last page) as [d|] eqn:Hlast; [|apply last_None in Hlast; rewrite Hlast in Hfull; unfold len, PAGE_SIZE in Hfull; simpl in Hfull; lia].
    cbn [fmap option_fmap option_map]. rewrite (IH s' _ (Some (fd_id d)) (Datatypes.S j)); [| |done| |done|].
    + by replace (Datatypes.S j + rounds) with (j + Datatypes.S rounds) by lia.
    + by apply hold_page_ok.
    + rewrite <-Hsj. apply last_served; [lia|lia|by rewrite <-Hp].
    + unfold PAGE_SIZE in *. lia.
Qed.
End complete.

(** A server that answers each request with the next page of a script. *)
Definition script (pages : list (Result (list FetchedDocument))) (_ : option string)
    : Result (list FetchedDocument) * list (Result (list FetchedDocument)) :=
  match pages with [] => (Err NotFound, []) | p :: pages => (p, pages) end.

(** What one page adds to a read. *)
Lemma page_loop_script document_type max rounds pages acc cursor out rest :
  holds acc -> page_loop document_type script max rounds pages acc cursor = (Ok out, rest) ->
  exists full p, pages = map Ok full ++ Ok p :: rest /\ Forall (fun q => (PAGE_SIZE <= len q)%N) full
    /\ ((len p < PAGE_SIZE)%N \/ (max < len out)%N) /\ NoDup (ids out)
    /\ (exists more, out = acc.1 ++ more /\ more `sublist_of` concat full ++ p)
    /\ (forall i, i ∈ ids out <-> i ∈ ids acc.1 \/ i ∈ ids (concat full ++ p)).
Proof.
  revert pages acc cursor. induction rounds as [|rounds IH]; intros pages acc cursor Ha; cbn [page_loop]; [done|].
  destruct pages as [|[page| |] pages]; cbn [script]; try done. destruct (hold_page_ok page acc Ha) as (Hh & (more & Hm & Hsub) & Hi).
  cbv zeta. destruct (N.ltb_spec (len page) PAGE_SIZE) as [Hshort|Hfull]; cbn [orb].
  { intros [= <- <-]. exists [], page. split_and!; [done|constructor|by left|apply Hh|by exists more|done]. }
  destruct (N.ltb_spec max (len (hold_page page acc).1)) as [Hover|Hunder].
  { intros [= <- <-]. exists [], page. split_and!; [done|constructor|by right|apply Hh|by exists more|done]. }
  destruct (last page) as [d|]; [|done]. cbn [fmap option_fmap option_map]. intros H.
  destruct (IH _ _ _ Hh H) as (full & p & -> & Hf & Hend & Hn & (more' & Hm' & Hsub') & Hi').
  exists (page :: full), p. split_and!; [done|by constructor|done|done| |].
  - exists (more ++ more'). cbn [concat]. rewrite <-app_assoc, Hm', Hm, <-app_assoc. split; [done|by apply sublist_app].
  - intros i. rewrite Hi', Hi. cbn [concat]. unfold ids. rewrite <-app_assoc, !map_app, !elem_of_app. tauto.
Qed.

(** ** The pager *)

Definition pager_ok (p : AdaptivePager) : Prop :=
  (1 <= pg_limit p <= pg_ceiling p /\ pg_ceiling p <= pg_max p /\ pg_max p <= u32_max
  /\ LARGE_PAGE_MIN_TIMEOUT <= pg_timeout p <= LARGE_PAGE_MAX_TIMEOUT)%N.

Lemma clamp_bounds v lo hi : (lo <= hi)%N -> (lo <= clamp v lo hi <= hi)%N.
Proof. intros H. unfold clamp. destruct (N.ltb_spec v lo); [lia|]. destruct (N.ltb_spec hi v); lia. Qed.

Lemma deadline_for_bounds limit rate : (LARGE_PAGE_MIN_TIMEOUT <= deadline_for limit rate <= LARGE_PAGE_MAX_TIMEOUT)%N.
Proof. apply clamp_bounds. done. Qed.

Lemma pager_new_ok start max : (max <= u32_max)%N -> pager_ok (pager_new start max).
Proof.
  intros Hm. pose proof (clamp_bounds start 1 (N.max max 1) ltac:(lia)).
  unfold pager_ok, pager_new. cbn [pg_limit pg_ceiling pg_max pg_timeout]. split_and!; try apply deadline_for_bounds; unfold u32_max in *; lia.
Qed.

Lemma on_page_ok p rows elapsed : pager_ok p -> pager_ok (on_page p rows elapsed) /\ pg_max (on_page p rows elapsed) = pg_max p.
Proof.
  intros (Hl & Hc & Hm & Ht). unfold on_page. destruct (rows =? 0)%N; [by split|]. cbv zeta.
  set (rate := f64_div _ _). clearbody rate. destruct (_ <? _)%N; [destruct (_ && _)|]; split; try done; unfold pager_ok;
    cbn [pg_limit pg_ceiling pg_max pg_timeout]; unfold sat_mul_u32, u32_max in *; split_and!; try apply deadline_for_bounds; lia.
Qed.

(** How many more times a pager can run out of time before it gives up. *)
Definition timeout_steps (t : N) : nat :=
  if (secs 120 <=? t)%N then 0 else if (secs 60 <=? t)%N then 1 else if (secs 30 <=? t)%N then 2 else 3.
Definition patience (p : AdaptivePager) : nat := N.to_nat (N.log2 (pg_limit p)) + timeout_steps (pg_timeout p).

Lemma double_timeout t : (LARGE_PAGE_MIN_TIMEOUT <= t <= LARGE_PAGE_MAX_TIMEOUT)%N ->
  clamp (sat_mul_duration t 2) LARGE_PAGE_MIN_TIMEOUT LARGE_PAGE_MAX_TIMEOUT = N.min (t * 2) LARGE_PAGE_MAX_TIMEOUT.
Proof.
  intros Ht. unfold clamp, sat_mul_duration, LARGE_PAGE_MIN_TIMEOUT, LARGE_PAGE_MAX_TIMEOUT, duration_max, secs, NANOS, u64_max in *.
  rewrite N.min_l by lia. rewrite (proj2 (N.ltb_ge _ _)) by lia. destruct (N.ltb_spec (120 * 1000000000) (t * 2)); lia.
Qed.

Lemma on_deadline_Some p p' : pager_ok p -> on_deadline p = Some p' -> pager_ok p' /\ patience p' < patience p /\ pg_max p' = pg_max p.
Proof.
  intros (Hl & Hc & Hm & Ht). unfold on_deadline. destruct (_ && _) eqn:E; [done|]. intros [= <-].
  assert (pg_limit p / 2 <= pg_limit p)%N as Hhalf by (apply N.Div0.div_le_upper_bound; lia).
  assert (LARGE_PAGE_MIN_TIMEOUT <= clamp (sat_mul_duration (pg_timeout p) 2) LARGE_PAGE_MIN_TIMEOUT LARGE_PAGE_MAX_TIMEOUT <= LARGE_PAGE_MAX_TIMEOUT)%N
    as Hcl by (by apply clamp_bounds).
  split_and!; [|unfold patience|done].
  - unfold pager_ok. cbn [pg_limit pg_ceiling pg_max pg_timeout]. split_and!; lia.
  - cbn [pg_limit pg_timeout]. assert (timeout_steps (clamp (sat_mul_duration (pg_timeout p) 2) LARGE_PAGE_MIN_TIMEOUT LARGE_PAGE_MAX_TIMEOUT)
      <= timeout_steps (pg_timeout p) /\ ((pg_timeout p < LARGE_PAGE_MAX_TIMEOUT)%N ->
        timeout_steps (clamp (sat_mul_duration (pg_timeout p) 2) LARGE_PAGE_MIN_TIMEOUT LARGE_PAGE_MAX_TIMEOUT) < timeout_steps (pg_timeout p))) as [H1 H2].
    { rewrite double_timeout by done. clear -Ht. unfold timeout_steps, LARGE_PAGE_MIN_TIMEOUT, LARGE_PAGE_MAX_TIMEOUT, secs, NANOS in *.
      repeat match goal with |- context [(?a <=? ?b)%N] => destruct (N.leb_spec a b) end; lia. }
    destruct (N.eq_dec (pg_limit p) 1) as [H1l|H1l].
    + rewrite H1l in *. cbn [N.eqb Pos.eqb andb] in E. apply N.leb_gt in E. specialize (H2 E). simpl. lia.
    + assert (N.log2 (N.max (pg_limit p / 2) 1) + 1 = N.log2 (pg_limit p))%N; [|lia].
      assert (1 <= pg_limit p / 2)%N by (apply N.div_le_lower_bound; lia). rewrite N.max_l by lia.
      rewrite <-N.div2_div, N.div2_spec, N.log2_shiftr.
      assert (1 <= N.log2 (pg_limit p))%N; [|lia]. change 1%N with (N.log2 2). apply N.log2_le_mono. lia.
Qed.

Lemma on_deadline_None p : pager_ok p -> on_deadline p = None -> pg_limit p = 1%N /\ pg_timeout p = LARGE_PAGE_MAX_TIMEOUT.
Proof.
  intros (_ & _ & _ & Ht). unfold on_deadline. destruct (_ && _) eqn:E; [|done]. apply andb_true_iff in E as [?%N.eqb_eq ?%N.leb_le].
  intros _. split; [done|lia].
Qed.

(** ** The paced read *)

Section terminates.
Context {S : Type} (document_type : string) (fetch : S -> option string -> N -> N -> PageAnswer * S) (max : N).

(** A page that adds a row restores at most this much patience. *)
Definition most_patience : nat := N.to_nat (N.log2 max) + 3.

Lemma patience_bound p : pager_ok p -> pg_max p = max -> patience p <= most_patience.
Proof.
  intros (Hl & Hc & _) Hm. unfold patience, most_patience. assert (N.log2 (pg_limit p) <= N.log2 max)%N by (apply N.log2_le_mono; lia).
  assert (timeout_steps (pg_timeout p) <= 3); [|lia]. unfold timeout_steps. repeat (destruct (_ <=? _)%N); lia.
Qed.

Lemma adaptive_terminates m s pager acc cursor : pager_ok pager -> pg_max pager = max -> holds acc ->
  (N.to_nat (MAX_ROWS - len acc.1)) * (most_patience + 1) + patience pager < m ->
  exists n r, forall fuel, n <= fuel -> adaptive_loop document_type fetch fuel s pager acc cursor = Some r.
Proof.
  revert s pager acc cursor. induction m as [|m IH]; intros s pager acc cursor Hp Hmax Ha Hm; [by apply Nat.nlt_0_r in Hm|].
  assert (forall r, (forall fuel, adaptive_loop document_type fetch (Datatypes.S fuel) s pager acc cursor = Some r) ->
    exists n r, forall fuel, n <= fuel -> adaptive_loop document_type fetch fuel s pager acc cursor = Some r) as Hdone.
  { intros r Hr. exists 1, r. intros [|fuel] Hf; [lia|]. apply Hr. }
  assert (forall s' pager' acc' cursor', (exists n r, forall fuel, n <= fuel -> adaptive_loop document_type fetch fuel s' pager' acc' cursor' = Some r) ->
    (forall fuel, adaptive_loop document_type fetch (Datatypes.S fuel) s pager acc cursor = adaptive_loop document_type fetch fuel s' pager' acc' cursor') ->
    exists n r, forall fuel, n <= fuel -> adaptive_loop document_type fetch fuel s pager acc cursor = Some r) as Hnext.
  { intros s' pager' acc' cursor' (n & r & Hr) Heq. exists (Datatypes.S n), r. intros [|fuel] Hf; [lia|]. rewrite Heq. apply Hr. lia. }
  cbn [adaptive_loop] in Hdone, Hnext. destruct (N.ltb_spec (len acc.1) MAX_ROWS) as [Hlt|]; [|by eapply Hdone].
  destruct (fetch s cursor (pg_limit pager) (pg_timeout pager)) as [[page elapsed|detail|e] s']; [| |by eapply Hdone].
  - cbv zeta in Hdone, Hnext. destruct (hold_page_ok page acc Ha) as (Hh & (more & Hmore & _) & _).
    destruct (_ <? pg_limit pager)%N; [by eapply Hdone|]. destruct (N.eqb_spec (len (hold_page page acc).1) (len acc.1)) as [|Hne]; [by eapply Hdone|].
    destruct (fd_id <$> last page) as [c|]; [|by eapply Hdone]. destruct (on_page_ok pager (len page) elapsed Hp) as [Hp' Hpm].
    eapply Hnext; [|done]. apply IH; [done|congruence|done|]. pose proof (patience_bound _ Hp' ltac:(congruence)).
    rewrite Hmore, len_app in Hne |- *. clear -Hm Hlt Hne H.
    assert (1 <= len more)%N by lia. replace (N.to_nat (MAX_ROWS - len acc.1)) with (Datatypes.S (N.to_nat (MAX_ROWS - len acc.1 - 1))) in Hm by lia.
    assert (N.to_nat (MAX_ROWS - (len acc.1 + len more)) <= N.to_nat (MAX_ROWS - len acc.1 - 1)) by lia. nia.
  - destruct (on_deadline pager) as [pager'|] eqn:Ed; [|by eapply Hdone]. destruct (on_deadline_Some pager pager' Hp Ed) as (Hp' & Hpat & Hpm).
    eapply Hnext; [|done]. apply IH; [done|congruence|done|lia].
Qed.
End terminates.

Section paced.
Context {S : Type} (document_type : string) (fetch : S -> option string -> N -> N -> PageAnswer * S).
Context (rows : list FetchedDocument) (Hids : NoDup (ids rows)).
Context (Hserve : forall s cursor limit timeout,
  match (fetch s cursor limit timeout).1 with Page page _ => page = serve rows cursor limit | Deadline _ => True | Other _ => False end).

(** A request for one row at the longest deadline that ran out of time. *)
Definition starved : Prop := exists s cursor detail, (fetch s cursor 1 LARGE_PAGE_MAX_TIMEOUT).1 = Deadline detail.

Lemma adaptive_serve fuel s pager acc cursor k r s' : pager_ok pager -> holds acc -> acc.1 = take k rows -> stands rows k cursor ->
  k <= length rows -> adaptive_loop document_type fetch fuel s pager acc cursor = Some (r, s') ->
  match r with
  | Ok out => out = rows
  | Err e => ((MAX_ROWS <= len rows)%N /\ exists n reason, e = IncompleteRead document_type n reason /\ (MAX_ROWS <= n)%N) \/ starved
  | Panic => False
  end.
Proof.
  revert s pager acc cursor k. induction fuel as [|fuel IH]; intros s pager acc cursor k Hp Ha Hacc Hc Hk; cbn [adaptive_loop]; [done|].
  assert (len acc.1 = N.of_nat k) as Hlk by (unfold len; rewrite Hacc, length_take_le by done; done).
  destruct (N.ltb_spec (len acc.1) MAX_ROWS) as [Hlt|Hge].
  2: { intros [= <- <-]. left. split; [unfold len in *; lia|]. eexists _, _. split; [done|lia]. }
  pose proof (Hserve s cursor (pg_limit pager) (pg_timeout pager)) as Hs.
  destruct (fetch s cursor (pg_limit pager) (pg_timeout pager)) as [[page elapsed|detail|e] s1] eqn:Ef; cbn [fst] in Hs; [|clear Hs|done].
  - assert (page = take (N.to_nat (pg_limit pager)) (drop k rows)) as Hpage by (rewrite Hs; by apply serve_at).
    pose proof (hold_served rows k (N.to_nat (pg_limit pager)) acc Hids Ha Hacc) as Hh. rewrite <-Hpage in Hh.
    assert (length page = Nat.min (N.to_nat (pg_limit pager)) (length rows - k)) as Hn by (by rewrite Hpage, length_take, length_drop).
    cbv zeta. destruct (N.ltb_spec (len page) (pg_limit pager)) as [Hshort|Hfull].
    { intros [= <- <-]. rewrite Hh. apply take_ge. unfold len in Hshort. lia. }
    assert (k + N.to_nat (pg_limit pager) <= length rows) as Hk' by (unfold len in Hfull; lia). pose proof Hp as (Hlim & _).
    rewrite Hh. unfold len at 1. rewrite length_take_le, Hlk by done. destruct (N.eqb_spec (N.of_nat (k + N.to_nat (pg_limit pager))) (N.of_nat k)) as [|_]; [lia|].
    destruct (last page) as [d|] eqn:Hlast; [|apply last_None in Hlast; rewrite Hlast in Hfull; unfold len in Hfull; simpl in Hfull; lia].
    cbn [fmap option_fmap option_map]. apply (IH _ _ _ _ (k + N.to_nat (pg_limit pager))); [by apply on_page_ok|by apply hold_page_ok|done| |done].
    apply last_served; [done|lia|by rewrite <-Hpage].
  - destruct (on_deadline pager) as [pager'|] eqn:Ed.
    + apply (IH _ _ _ _ k); [by apply (on_deadline_Some pager)|done..].
    + intros [= <- <-]. right. destruct (on_deadline_None pager Hp Ed) as [Hl Ht]. exists s, cursor, detail. by rewrite <-Hl, <-Ht, Ef.
Qed.
End paced.

(** ** Theorems *)

(** C12: a read of a query is complete or fails. Against a server that continues after a cursor,
    the rows are all of the query's, in its order, when a short page proves the end; a capped
    read may stop, past its cap, on whole pages; and a query of more rows than the page cap can
    read is an [IncompleteRead], never a short answer. *)
Theorem paged_read_complete {S} document_type (fetch : S -> option string -> Result (list FetchedDocument) * S) max rows s
  (Hids : NoDup (ids rows)) (Hserve : forall s cursor, (fetch s cursor).1 = Ok (serve rows cursor PAGE_SIZE)) :
  (page_until document_type fetch max s).1 =
    if (len rows <? N.min (stop_at max) MAX_ROWS)%N then Ok rows
    else if (stop_at max <=? MAX_ROWS)%N then Ok (take (N.to_nat (stop_at max)) rows)
    else Err (cut_off document_type MAX_ROWS).
Proof.
  unfold page_until. rewrite (page_loop_serve document_type fetch max rows Hids Hserve MAX_PAGES s _ _ 0);
    [|apply holds_nil|done|done|apply Nat.le_0_l|unfold PAGE_SIZE; lia].
  cbv zeta. rewrite Nat.add_0_l. unfold MAX_ROWS. by rewrite N.mul_comm.
Qed.

(** Whatever a server answers, a read that succeeds read until a short page or past its
    cap: every page before was full, the rows are the pages' in order, each id once and no id
    lost, and nothing more was asked for. *)
Theorem paged_read_safe document_type max pages out rest (Hout : page_until document_type script max pages = (Ok out, rest)) :
  exists full p, pages = map Ok full ++ Ok p :: rest
    /\ Forall (fun q => (PAGE_SIZE <= len q)%N) full /\ ((len p < PAGE_SIZE)%N \/ (max < len out)%N)
    /\ NoDup (ids out) /\ out `sublist_of` concat full ++ p /\ (forall i, i ∈ ids out <-> i ∈ ids (concat full ++ p)).
Proof.
  destruct (page_loop_script _ _ _ _ _ _ _ _ holds_nil Hout) as (full & p & Hp & Hf & Hend & Hn & (more & Hm & Hsub) & Hi).
  exists full, p. simpl in Hm. subst more. split_and!; [done..|]. intros i. rewrite Hi. unfold ids at 1. simpl. rewrite elem_of_nil. tauto.
Qed.

(** C31: a paced read always ends, whatever the server answers and however long it takes: a page
    that runs out of time is retried a bounded number of times, and a page that adds no row
    ends the read. *)
Theorem paced_read_terminates {S} document_type (fetch : S -> option string -> N -> N -> PageAnswer * S) start max s
  (Hmax : (max <= u32_max)%N) :
  exists n r, forall fuel, n <= fuel -> page_adaptively document_type fetch fuel (pager_new start max) s = Some r.
Proof.
  unfold page_adaptively. pose proof (pager_new_ok start max Hmax) as Hp.
  eapply (adaptive_terminates document_type fetch (pg_max (pager_new start max))); [done|done|apply holds_nil|apply Nat.lt_succ_diag_r].
Qed.

(** However slowly a server answers and whichever pages run out of time, a paced read that
    succeeds holds exactly the query's rows, in order. It fails only when the query has more
    rows than the safety cap, or when a request for a single row ran out of the longest
    deadline. *)
Theorem paced_read_complete {S} document_type (fetch : S -> option string -> N -> N -> PageAnswer * S) start max rows fuel s r s'
  (Hids : NoDup (ids rows)) (Hmax : (max <= u32_max)%N)
  (Hserve : forall s cursor limit timeout,
    match (fetch s cursor limit timeout).1 with Page page _ => page = serve rows cursor limit | Deadline _ => True | Other _ => False end)
  (Hr : page_adaptively document_type fetch fuel (pager_new start max) s = Some (r, s')) :
  match r with
  | Ok out => out = rows
  | Err e => ((MAX_ROWS <= len rows)%N /\ exists n reason, e = IncompleteRead document_type n reason /\ (MAX_ROWS <= n)%N) \/ starved fetch
  | Panic => False
  end.
Proof.
  refine (adaptive_serve document_type fetch rows Hids Hserve fuel s _ ([], ∅) None 0 r s' (pager_new_ok start max Hmax) holds_nil _ _ (Nat.le_0_l _) Hr);
    by rewrite ?take_0.
Qed.

(** ** Witnesses *)

Definition example_doc (i : nat) : FetchedDocument := mkFetchedDocument (pretty i) "owner" None None None None ∅ None.
Definition example_rows : list FetchedDocument := map example_doc (seq 0 101).

Lemma example_ids : NoDup (ids example_rows).
Proof. by apply (bool_decide_unpack _), (Is_true_eq_left), (eq_refl true). Qed.

Definition example_server (calls : nat) (cursor : option string) : Result (list FetchedDocument) * nat :=
  (Ok (serve example_rows cursor PAGE_SIZE), S calls).

Lemma paged_read_complete_witness : (page_until "event" example_server u64_max 0).1 = Ok example_rows.
Proof. exact (paged_read_complete "event" example_server u64_max example_rows 0 example_ids (fun _ _ => eq_refl)). Defined.

Lemma paged_read_safe_witness : NoDup (ids [example_doc 3; example_doc 1]).
Proof.
  destruct (paged_read_safe "event" u64_max [Ok [example_doc 3; example_doc 1; example_doc 3]] [example_doc 3; example_doc 1] [])
    as (_ & _ & _ & _ & _ & H & _); [vm_compute; reflexivity|exact H].
Defined.

(** A server that lets every other request run out of time. *)
Definition example_slow (odd : bool) (cursor : option string) (limit timeout : N) : PageAnswer * bool :=
  (if odd then Deadline "slow node" else Page (serve example_rows cursor limit) (secs 2), negb odd).

Lemma paced_read_terminates_witness : exists n r, forall fuel, n <= fuel ->
  page_adaptively "chunk" example_slow fuel (pager_new LARGE_PAGE_START LARGE_PAGE_MAX) true = Some r.
Proof. apply (paced_read_terminates "chunk" example_slow LARGE_PAGE_START LARGE_PAGE_MAX true). by vm_compute. Defined.

Lemma paced_read_complete_witness : exists out,
  page_adaptively "chunk" example_slow 400 (pager_new LARGE_PAGE_START LARGE_PAGE_MAX) true = Some (Ok out, true) /\ out = example_rows.
Proof.
  eexists. split; [vm_compute; reflexivity|].
  refine (paced_read_complete "chunk" example_slow LARGE_PAGE_START LARGE_PAGE_MAX example_rows 400 true (Ok _) true example_ids _ _ _);
    [by vm_compute|intros s cursor limit timeout; by destruct s|vm_compute; reflexivity].
Defined.
