(* ===== verification/Delta.v ===== *)
(** Git's pack entries byte by byte ([pack/parse.rs]): the header of an entry, the back-pointer
    of an offset delta, and the delta that rebuilds an object from its base. Each reader is
    related to a declarative description of the bytes it accepts. *)
From S2P Require Import Prelude.
From S2P Require Import Wire.

(** ** Definitions *)

(** The code runs on 64-bit targets. *)
Definition usize_max : N := u64_max.
Definition OID_LEN : N := 20.
Definition MAX_DELTA_DEPTH : N := 4095.

Definition T_COMMIT : N := 1.
Definition T_TREE : N := 2.
Definition T_BLOB : N := 3.
Definition T_TAG : N := 4.
Definition T_OFS_DELTA : N := 6.
Definition T_REF_DELTA : N := 7.

Inductive GitObjType := Commit | Tree | Blob | Tag.

#[export] Instance GitObjType_eq_dec : EqDecision GitObjType.
Proof. solve_decision. Defined.

Definition from_code (code : N) : Result GitObjType :=
  if (code =? T_COMMIT)%N then Ok Commit
  else if (code =? T_TREE)%N then Ok Tree
  else if (code =? T_BLOB)%N then Ok Blob
  else if (code =? T_TAG)%N then Ok Tag
  else Err (Config ("non-base pack object type " +:+ pretty code)).

Definition header_keyword (t : GitObjType) : string :=
  match t with Commit => "commit" | Tree => "tree" | Blob => "blob" | Tag => "tag" end.

(** [usize::try_from] of a [u64]. *)
Definition usize_try_from (e : Error) (n : N) : Result N := if (n <=? usize_max)%N then Ok n else Err e.

(** [bits << shift] on a [u64], where no bit may fall off the top. *)
Definition shl_exact (bits shift : N) : option N :=
  if (64 <=? shift)%N then None
  else let v := (N.shiftl bits shift mod 2 ^ 64)%N in
       if (N.shiftr v shift =? bits)%N then Some v else None.

(** *** Entry headers: a position in [buf], of which [rest] is what follows *)

Definition more_follow (c : N) : bool := negb (N.land c 128 =? 0)%N.

Fixpoint header_size (c size shift p : N) (rest : list byte) : Result (N * N) :=
  if more_follow c then
    match rest with
    | [] => Err (Config "truncated object size varint")
    | b :: rest =>
      let c := byte_val b in
      x ← ok_or (Config "object size varint overflow") (shl_exact (N.land c 127) shift);
      header_size c (N.lor size x) (shift + 7)%N (p + 1)%N rest
    end
  else Ok (size, p).

Definition parse_obj_header (buf : list byte) (pos : N) : Result (N * N * N) :=
  match drop (N.to_nat pos) buf with
  | [] => Err (Config "truncated object header")
  | b :: rest =>
    let c := byte_val b in
    let t := N.land (N.shiftr c 4) 7 in
    '(size, p) ← header_size c (N.land c 15) 4 (pos + 1)%N rest;
    size ← usize_try_from (Config "object size exceeds usize") size;
    Ok (t, size, p)
  end.

Definition checked_u64 (n : N) : option N := if (n <=? u64_max)%N then Some n else None.

Fixpoint ofs_value (c ofs p : N) (rest : list byte) : Result (N * N) :=
  if more_follow c then
    match rest with
    | [] => Err (Config "truncated OFS base varint")
    | b :: rest =>
      let c := byte_val b in
      x ← ok_or (Config "OFS base varint overflow") (o ← checked_u64 (ofs + 1)%N; checked_u64 (o * 128)%N);
      ofs_value c (N.lor x (N.land c 127)) (p + 1)%N rest
    end
  else Ok (ofs, p).

Definition parse_ofs_base (buf : list byte) (pos : N) : Result (N * N) :=
  match drop (N.to_nat pos) buf with
  | [] => Err (Config "truncated OFS base varint")
  | b :: rest =>
    let c := byte_val b in
    '(ofs, p) ← ofs_value c (N.land c 127) (pos + 1)%N rest;
    if (ofs =? 0)%N then Err (Config "OFS delta names itself as its base") else Ok (ofs, p)
  end.

Inductive EntryBase := NoBase | Ofs (rel : N) | Ref (oid : list byte).

Record Entry := mkEntry { en_t : N; en_size : N; en_data : N; en_base : EntryBase }.

Definition read_entry (buf : list byte) (pos : N) : Result Entry :=
  '(t, size, after) ← parse_obj_header buf pos;
  '(data, base) ←
    (if (t =? T_OFS_DELTA)%N then
       '(rel, data) ← parse_ofs_base buf after; Ok (data, Ofs rel)
     else if (t =? T_REF_DELTA)%N then
       let end_ := (after + OID_LEN)%N in
       oid ← ok_or (Config "truncated REF_DELTA base oid") (slice buf after end_); Ok (end_, Ref oid)
     else Ok (after, NoBase));
  Ok (mkEntry t size data base).

(** *** Deltas: a cursor is the bytes left *)

Definition read_byte (rest : list byte) : Result (N * list byte) :=
  match rest with [] => Err (Config "unexpected end of delta") | b :: rest => Ok (byte_val b, rest) end.

Fixpoint delta_size_loop (r shift : N) (rest : list byte) : Result (N * list byte) :=
  match rest with
  | [] => Err (Config "unexpected end of delta")
  | b :: rest =>
    x ← ok_or (Config "delta size varint overflow") (shl_exact (N.land (byte_val b) 127) shift);
    let r := N.lor r x in
    if more_follow (byte_val b) then delta_size_loop r (shift + 7)%N rest else Ok (r, rest)
  end.

Definition read_delta_size (rest : list byte) : Result (N * list byte) :=
  '(r, rest) ← delta_size_loop 0 0 rest;
  r ← usize_try_from (Config "delta size exceeds usize") r;
  Ok (r, rest).

(** The bytes of a copy's offset or size that the opcode says are present, from bit [first]. *)
Fixpoint copy_arg (op first : N) (ixs : list N) (acc : N) (rest : list byte) : Result (N * list byte) :=
  match ixs with
  | [] => Ok (acc, rest)
  | i :: ixs =>
    if N.testbit op (first + i) then
      '(b, rest) ← read_byte rest; copy_arg op first ixs (N.lor acc (N.shiftl b (8 * i))) rest
    else copy_arg op first ixs acc rest
  end.

Definition overrun : Error := Config "delta output runs past its declared size".

(** One opcode: what it appends and the bytes left. *)
Definition delta_op (base : list byte) (dst : N) (op : N) (rest out : list byte) : Result (list byte * list byte) :=
  if N.testbit op 7 then
    '(cp_off, rest) ← copy_arg op 0 [0; 1; 2; 3]%N 0%N rest;
    '(cp_size, rest) ← copy_arg op 4 [0; 1; 2]%N 0%N rest;
    let cp_size := if (cp_size =? 0)%N then 65536%N else cp_size in
    s ← usize_try_from (Config "delta copy overflow") cp_off;
    e ← usize_try_from (Config "delta copy overflow") (s + cp_size)%N;
    src ← ok_or (Config "delta copy out of base bounds") (slice base s e);
    if (dst - len out <? len src)%N then Err overrun else Ok (out ++ src, rest)
  else if negb (op =? 0)%N then
    '(ins, rest) ← take_bytes (Config "delta insert past end") op rest;
    if (dst - len out <? op)%N then Err overrun else Ok (out ++ ins, rest)
  else Err (Config "reserved delta opcode 0").

(** Every opcode consumes a byte at least, so the bytes left are fuel enough. *)
Fixpoint delta_ops (fuel : nat) (base : list byte) (dst : N) (rest out : list byte) : Result (list byte) :=
  match fuel, rest with
  | _, [] => Ok out
  | O, _ => Panic
  | S fuel, op :: rest =>
    '(out, rest) ← delta_op base dst (byte_val op) rest out;
    delta_ops fuel base dst rest out
  end.

Definition apply_delta (base delta : list byte) (budget : N) : Result (list byte) :=
  '(src, rest) ← read_delta_size delta;
  if negb (src =? len base)%N then Err (Config "delta source size does not match its base") else
  '(dst, rest) ← read_delta_size rest;
  let per_op_byte := N.min (N.max (len base) 1) 16777215 in
  let can_produce := sat_mul_u64 (len rest) per_op_byte in
  if (N.min can_produce budget <? dst)%N then Err (Config "delta declares more output than it can produce") else
  out ← delta_ops (length rest) base dst rest [];
  if (len out =? dst)%N then Ok out else Err Integrity.

(** ** What the bytes mean *)

(** A little-endian varint of seven-bit groups. *)
Inductive leb_bytes : list byte -> N -> Prop :=
  | leb_last b : (byte_val b < 128)%N -> leb_bytes [b] (byte_val b)
  | leb_more b bs v : (128 <= byte_val b)%N -> leb_bytes bs v -> leb_bytes (b :: bs) (byte_val b - 128 + 128 * v)%N.

(** A size a delta may declare: a [u64] in at most ten groups. *)
Definition declares (bs : list byte) (n : N) : Prop := leb_bytes bs n /\ (n <= u64_max)%N /\ length bs <= 10.

(** The header of an entry: three bits of type, the low four of the size, and the rest of it. *)
Definition header_bytes (hs : list byte) (t size : N) : Prop :=
  exists b bs, hs = b :: bs /\ t = (byte_val b / 16 mod 8)%N /\ (size <= u64_max)%N /\ length bs <= 9
    /\ if (byte_val b <? 128)%N then bs = [] /\ size = (byte_val b mod 16)%N
       else exists v, leb_bytes bs v /\ size = (byte_val b mod 16 + 16 * v)%N.

(** Git's encoding of a back-pointer: each number has one. *)
Fixpoint ofs_high (fuel : nat) (m : N) : list byte :=
  match fuel with
  | O => []
  | S k => (if (m <? 128)%N then [] else ofs_high k (m / 128 - 1)) ++ [byte_of (128 + m mod 128)]
  end.

Definition encode_ofs (n : N) : list byte :=
  (if (n <? 128)%N then [] else ofs_high 10 (n / 128 - 1)) ++ [byte_of (n mod 128)].

(** The header of an entry at [pos], with the base it names. *)
Definition entry_bytes (hs : list byte) (pos : N) (e : Entry) : Prop :=
  exists h bs, hs = h ++ bs /\ header_bytes h (en_t e) (en_size e) /\ en_data e = (pos + len hs)%N
    /\ match en_base e with
       | NoBase => en_t e <> T_OFS_DELTA /\ en_t e <> T_REF_DELTA /\ bs = []
       | Ofs rel => en_t e = T_OFS_DELTA /\ (0 < rel <= u64_max)%N /\ bs = encode_ofs rel
       | Ref oid => en_t e = T_REF_DELTA /\ bs = oid /\ len oid = OID_LEN
       end.

(** The bytes of a copy's argument: one for each bit set from [first], least significant first. *)
Inductive arg_bytes (op first : N) : list N -> list byte -> N -> Prop :=
  | arg_end : arg_bytes op first [] [] 0
  | arg_absent i ixs bs v : N.testbit op (first + i) = false -> arg_bytes op first ixs bs v -> arg_bytes op first (i :: ixs) bs v
  | arg_present i ixs b bs v : N.testbit op (first + i) = true -> arg_bytes op first ixs bs v ->
      arg_bytes op first (i :: ixs) (b :: bs) (byte_val b * 256 ^ i + v)%N.

Definition copy_size (n : N) : N := if (n =? 0)%N then 65536%N else n.

(** What an opcode with its arguments appends. *)
Inductive opcode (base : list byte) (op : N) : list byte -> list byte -> Prop :=
  | opcode_copy ob sb off size src :
      N.testbit op 7 = true -> arg_bytes op 0 [0; 1; 2; 3]%N ob off -> arg_bytes op 4 [0; 1; 2]%N sb size ->
      slice base off (off + copy_size size)%N = Some src -> opcode base op (ob ++ sb) src
  | opcode_insert data : N.testbit op 7 = false -> op <> 0%N -> len data = op -> opcode base op data data.

(** What a delta's opcodes produce from its base. *)
Inductive produces (base : list byte) : list byte -> list byte -> Prop :=
  | produces_end : produces base [] []
  | produces_op op args piece rest out :
      opcode base (byte_val op) args piece -> produces base rest out -> produces base (op :: args ++ rest) (piece ++ out).

(** ** Varints *)

Lemma shl_exact_Some b s v : shl_exact b s = Some v <-> (s < 64)%N /\ v = (b * 2 ^ s)%N /\ (v <= u64_max)%N.
Proof.
  unfold shl_exact. destruct (N.leb_spec 64 s) as [Hs|Hs]; [split; [done|lia]|]. cbv zeta.
  rewrite N.shiftl_mul_pow2, N.shiftr_div_pow2. set (x := (b * 2 ^ s)%N).
  assert (2 ^ s <> 0)%N as H0 by (by apply N.pow_nonzero).
  change (2 ^ 64)%N with 18446744073709551616%N. unfold u64_max.
  destruct (N.eqb_spec (x mod 18446744073709551616 / 2 ^ s) b) as [Hb|Hb]; split.
  - intros [= <-]. assert (x mod 18446744073709551616 = x)%N as Heq.
    { apply N.le_antisymm; [by apply N.Div0.mod_le|]. subst x. rewrite <-Hb at 1. rewrite N.mul_comm. by apply N.Div0.mul_div_le. }
    rewrite Heq. split_and!; [done..|]. pose proof (N.mod_lt x 18446744073709551616 ltac:(done)). lia.
  - intros (_ & -> & Hx). by rewrite N.mod_small by lia.
  - done.
  - intros (_ & -> & Hx). destruct Hb. rewrite N.mod_small by lia. by apply N.div_mul.
Qed.

Lemma more_follow_ltb b : more_follow (byte_val b) = negb (byte_val b <? 128)%N.
Proof. unfold more_follow. rewrite land_128 by apply byte_val_lt. by destruct (_ <? _)%N. Qed.

Lemma byte_mod_128 b : (byte_val b mod 128 = if byte_val b <? 128 then byte_val b else byte_val b - 128)%N.
Proof.
  pose proof (byte_val_lt b). destruct (N.ltb_spec (byte_val b) 128); [by apply N.mod_small|].
  replace (byte_val b) with (byte_val b - 128 + 1 * 128)%N at 1 by lia. rewrite N.Div0.mod_add. apply N.mod_small. lia.
Qed.

(** One more group on top of the bits below [s]: what it adds fits exactly when the sum does. *)
Lemma group_fits r m s : (r < 2 ^ s)%N -> (s < 64)%N -> (m * 2 ^ s <= u64_max <-> r + m * 2 ^ s <= u64_max)%N.
Proof.
  intros Hr Hs. split; [|lia]. intros Hm.
  assert (u64_max + 1 = 2 ^ (64 - s) * 2 ^ s)%N as Hmax.
  { rewrite <-N.pow_add_r. by replace (64 - s + s)%N with 64%N by lia. }
  assert (m < 2 ^ (64 - s))%N by (apply (N.mul_lt_mono_pos_r (2 ^ s)); lia). nia.
Qed.

Lemma delta_size_loop_Ok rest r s n rest' : (r < 2 ^ s)%N ->
  delta_size_loop r s rest = Ok (n, rest')
  <-> exists bs v, rest = bs ++ rest' /\ leb_bytes bs v /\ n = (r + v * 2 ^ s)%N /\ (n <= u64_max)%N /\ (s + 7 * len bs < 71)%N.
Proof.
  revert r s. induction rest as [|b rest IH]; intros r s Hr; cbn [delta_size_loop].
  { split; [done|]. intros (bs & v & Heq & Hbs & _). symmetry in Heq. apply app_eq_nil in Heq as [-> _]. by inversion Hbs. }
  rewrite land_127, more_follow_ltb, byte_mod_128.
  set (m := (if (byte_val b <? 128)%N then byte_val b else byte_val b - 128)%N).
  assert (m < 128)%N as Hm by (pose proof (byte_val_lt b); subst m; destruct (N.ltb_spec (byte_val b) 128); lia).
  assert (2 ^ (s + 7) = 2 ^ s * 128)%N as H7 by (by rewrite N.pow_add_r).
  destruct (shl_exact m s) as [x|] eqn:Hx; cbn [ok_or mbind Result_bind].
  - apply shl_exact_Some in Hx as (Hs & -> & Hfit). rewrite <-N.shiftl_mul_pow2, lor_shiftl by done.
    destruct (N.ltb_spec (byte_val b) 128) as [Hb|Hb]; cbn [negb].
    + subst m. apply (group_fits r _ _ Hr Hs) in Hfit. split.
      * intros [= <- <-]. exists [b], (byte_val b). split_and!; try done; [by constructor|]. rewrite len_cons, len_nil. lia.
      * intros (bs & v & Heq & Hbs & -> & _ & _). inversion Hbs; subst; simplify_eq/=; [done|lia].
    + rewrite IH by nia. split.
      * intros (bs & v & -> & Hbs & -> & Hn & Hl). exists (b :: bs), (byte_val b - 128 + 128 * v)%N.
        split_and!; try done; [by constructor| |rewrite len_cons; lia]. fold m. rewrite H7. lia.
      * intros (bs & v & Heq & Hbs & -> & Hn & Hl). inversion Hbs as [|? bs' v' ? Hbs']; subst; simplify_eq/=; [lia|].
        exists bs', v'. fold m in Hn |- *. rewrite len_cons in Hl. split_and!; [done..|rewrite H7; lia|done|lia].
  - split; [done|]. intros (bs & v & Heq & Hbs & -> & Hn & Hl).
    enough (shl_exact m s = Some (m * 2 ^ s)%N) by congruence. apply shl_exact_Some.
    assert (m <= v)%N as Hle.
    { subst m. inversion Hbs; subst; simplify_eq/=; case_match eqn:E; (apply N.ltb_lt in E || apply N.ltb_ge in E); lia. }
    assert (1 <= len bs)%N by (inversion Hbs; subst; rewrite len_cons; lia). split_and!; [lia|done|nia].
Qed.

Lemma read_delta_size_Ok rest n rest' :
  read_delta_size rest = Ok (n, rest') <-> exists bs, rest = bs ++ rest' /\ declares bs n.
Proof.
  unfold read_delta_size, declares. rewrite bind_Ok. split.
  - intros ((r & l) & Hl & H). apply bind_Ok in H as (r' & Hr & [= -> ->]). unfold usize_try_from in Hr.
    destruct (N.leb_spec r usize_max); inv_ok Hr; subst.
    apply delta_size_loop_Ok in Hl as (bs & v & -> & Hbs & -> & Hn & Hlen); [|done].
    exists bs. change (2 ^ 0)%N with 1%N in *. rewrite N.add_0_l, N.mul_1_r in *. unfold len in Hlen. split_and!; [done..|lia].
  - intros (bs & -> & Hbs & Hn & Hlen). exists (n, rest'). split.
    + apply delta_size_loop_Ok; [done|]. exists bs, n. change (2 ^ 0)%N with 1%N. rewrite N.mul_1_r.
      split_and!; try done. unfold len. lia.
    + unfold usize_try_from, usize_max. by rewrite (proj2 (N.leb_le _ _) Hn).
Qed.

(** ** Deltas *)

Lemma copy_arg_Ok op first k i acc rest n rest' : (acc < 256 ^ N.of_nat i)%N ->
  copy_arg op first (map N.of_nat (seq i k)) acc rest = Ok (n, rest')
  <-> exists bs v, rest = bs ++ rest' /\ arg_bytes op first (map N.of_nat (seq i k)) bs v /\ n = (acc + v)%N.
Proof.
  revert i acc rest. induction k as [|k IH]; intros i acc rest Hacc; cbn [seq map copy_arg].
  { split.
    - intros [= <- <-]. exists [], 0%N. split_and!; [done|constructor|lia].
    - intros (bs & v & -> & Hbs & ->). inversion Hbs; subst. simpl. by rewrite N.add_0_r. }
  assert (256 ^ N.of_nat (S i) = 256 * 256 ^ N.of_nat i)%N as HS by (by rewrite Nnat.Nat2N.inj_succ, N.pow_succ_r').
  destruct (N.testbit op (first + N.of_nat i)) eqn:Hbit.
  - destruct rest as [|b rest]; cbn [read_byte mbind Result_bind].
    { split; [done|]. intros (bs & v & Heq & Hbs & _). symmetry in Heq. apply app_eq_nil in Heq as [-> ->].
      inversion Hbs; subst. congruence. }
    assert (2 ^ (8 * N.of_nat i) = 256 ^ N.of_nat i)%N as H8 by (by rewrite N.pow_mul_r).
    pose proof (byte_val_lt b) as Hb. rewrite lor_shiftl, H8 by (by rewrite H8). rewrite IH by nia. split.
    + intros (bs & v & -> & Hbs & ->). exists (b :: bs), (byte_val b * 256 ^ N.of_nat i + v)%N.
      split_and!; [done|by constructor|lia].
    + intros (bs & v & Heq & Hbs & ->). inversion Hbs; subst; [congruence|]. simplify_eq/=. eexists _, _. split_and!; [done..|lia].
  - rewrite IH by nia. split.
    + intros (bs & v & -> & Hbs & ->). exists bs, v. split_and!; [done|by constructor|done].
    + intros (bs & v & -> & Hbs & ->). inversion Hbs; subst; [|congruence]. by eexists _, _.
Qed.

Lemma arg_bytes_lt op first k i bs v :
  arg_bytes op first (map N.of_nat (seq i k)) bs v -> (v + 256 ^ N.of_nat i <= 256 ^ N.of_nat (i + k))%N.
Proof.
  revert i bs v. induction k as [|k IH]; intros i bs v Hbs; cbn [seq map] in Hbs.
  { inversion Hbs; subst. rewrite Nat.add_0_r. lia. }
  assert (256 ^ N.of_nat (S i) = 256 * 256 ^ N.of_nat i)%N as HS by (by rewrite Nnat.Nat2N.inj_succ, N.pow_succ_r').
  rewrite Nat.add_succ_r, <-Nat.add_succ_l. inversion Hbs as [|? ? ? ? ? Hr|? ? b ? ? ? Hr]; subst; apply IH in Hr; [nia|].
  pose proof (byte_val_lt b). nia.
Qed.

Lemma copy_offset_lt op bs v : arg_bytes op 0 [0; 1; 2; 3]%N bs v -> (v < 2 ^ 32)%N.
Proof. intros H. apply (arg_bytes_lt op 0 4 0) in H. change (256 ^ N.of_nat (0 + 4))%N with (2 ^ 32)%N in H. change (256 ^ N.of_nat 0)%N with 1%N in H. lia. Qed.

Lemma copy_size_lt op bs v : arg_bytes op 4 [0; 1; 2]%N bs v -> (v < 2 ^ 24)%N.
Proof. intros H. apply (arg_bytes_lt op 4 3 0) in H. change (256 ^ N.of_nat (0 + 3))%N with (2 ^ 24)%N in H. change (256 ^ N.of_nat 0)%N with 1%N in H. lia. Qed.

Lemma usize_try_from_Ok e n m : usize_try_from e n = Ok m <-> n = m /\ (n <= usize_max)%N.
Proof. unfold usize_try_from. destruct (N.leb_spec n usize_max); split; try done; [by intros [= ->]|by intros [-> _]|lia]. Qed.

Lemma delta_op_Ok base dst op rest out out' rest' : (len base <= u64_max)%N -> (len out <= dst)%N ->
  delta_op base dst op rest out = Ok (out', rest')
  <-> exists args piece, rest = args ++ rest' /\ out' = out ++ piece /\ (len out' <= dst)%N /\ opcode base op args piece.
Proof.
  intros Hbase Hout. unfold delta_op. destruct (N.testbit op 7) eqn:H7.
  - rewrite bind_Ok. split.
    + intros ((off & r1) & H1 & H). apply bind_Ok in H as ((size & r2) & H2 & H). cbv zeta in H. fold (copy_size size) in H.
      apply bind_Ok in H as (s & [<- _]%usize_try_from_Ok & H). apply bind_Ok in H as (e & [<- _]%usize_try_from_Ok & H).
      apply bind_Ok in H as (src & Hsrc%ok_or_Ok & H).
      apply (copy_arg_Ok op 0 4 0) in H1 as (ob & v & -> & Hob & ->); [|done].
      apply (copy_arg_Ok op 4 3 0) in H2 as (sb & v' & -> & Hsb & ->); [|done]. rewrite !N.add_0_l in *.
      destruct (N.ltb_spec (dst - len out) (len src)) as [|Hfit]; [done|]. injection H as <- <-.
      exists (ob ++ sb), src. rewrite <-app_assoc, len_app. split_and!; [done..|lia|by econstructor].
    + intros (args & piece & -> & -> & Hfit & Hop). inversion Hop as [ob sb off size src _ Hob Hsb Hsrc|]; subst; [|congruence].
      rewrite len_app in Hfit. exists (off, sb ++ rest'). split.
      { apply (copy_arg_Ok op 0 4 0); [done|]. exists ob, off. by rewrite app_assoc. }
      cbn beta iota. rewrite bind_Ok. exists (size, rest'). split.
      { apply (copy_arg_Ok op 4 3 0); [done|]. by exists sb, size. }
      cbv zeta. fold (copy_size size). pose proof (copy_offset_lt _ _ _ Hob). pose proof Hsrc as (_ & He & _)%slice_Some.
      rewrite bind_Ok. exists off. split; [apply usize_try_from_Ok; split; [done|unfold usize_max, u64_max; lia]|].
      rewrite bind_Ok. exists (off + copy_size size)%N. split; [apply usize_try_from_Ok; split; [done|unfold usize_max; lia]|].
      rewrite Hsrc. cbn. by rewrite (proj2 (N.ltb_ge _ _)) by lia.
  - destruct (N.eqb_spec op 0) as [H0|H0]; cbn [negb].
    + split; [done|]. intros (args & piece & _ & _ & _ & Hop). inversion Hop; congruence.
    + rewrite bind_Ok. split.
      * intros ((ins & r1) & [-> Hins]%take_bytes_Ok & H).
        destruct (N.ltb_spec (dst - len out) op) as [|Hfit]; [done|]. injection H as <- <-.
        exists ins, ins. rewrite len_app. split_and!; [done..|lia|by constructor].
      * intros (args & piece & -> & -> & Hfit & Hop). inversion Hop as [|? ? ? Hl]; subst; [congruence|].
        exists (piece, rest'). split; [by rewrite take_bytes_app|]. rewrite len_app in Hfit.
        by rewrite (proj2 (N.ltb_ge _ _)) by lia.
Qed.

Lemma delta_ops_Ok fuel base dst rest out res :
  (len base <= u64_max)%N -> (len out <= dst)%N -> length rest <= fuel ->
  delta_ops fuel base dst rest out = Ok res
  <-> exists tail, produces base rest tail /\ res = out ++ tail /\ (len res <= dst)%N.
Proof.
  intros Hbase. revert rest out. induction fuel as [|fuel IH]; intros [|op rest] out Hout Hfuel; simpl in Hfuel; try lia.
  1,2: simpl; split;
    [intros [= <-]; exists []; rewrite app_nil_r; split_and!; [constructor|done..]
    |intros (tail & Hp & -> & _); inversion Hp; subst; by rewrite app_nil_r].
  cbn [delta_ops]. rewrite bind_Ok. split.
  - intros ((out' & rest') & (args & piece & -> & -> & Hfit & Hop)%delta_op_Ok & H); [|done..].
    rewrite length_app in Hfuel. apply IH in H as (tail & Hp & -> & Hres); [|done|lia].
    exists (piece ++ tail). rewrite app_assoc. split_and!; [by constructor|done..].
  - intros (tail & Hp & -> & Hres). inversion Hp as [|? args piece rest' tail' Hop Hp']; subst.
    rewrite app_assoc, len_app in Hres. rewrite length_app in Hfuel.
    exists (out ++ piece, rest'). split.
    + apply delta_op_Ok; [done..|]. exists args, piece. split_and!; [done..|lia|done].
    + apply IH; [lia|lia|]. exists tail'. rewrite app_assoc, len_app. by split_and!.
Qed.

(** An opcode yields no more than each of its bytes may. *)
Lemma produces_bound base ops out :
  produces base ops out -> (len out <= len ops * N.min (N.max (len base) 1) 16777215)%N.
Proof.
  set (k := N.min (N.max (len base) 1) 16777215). assert (1 <= k)%N as Hk by lia.
  induction 1 as [|op args piece rest out Hop _ IH]; [by rewrite !len_nil|].
  rewrite len_cons, !len_app. enough (len piece <= (1 + len args) * k)%N by nia.
  inversion Hop as [ob sb off size src _ _ Hsb Hsrc|]; subst; [|nia].
  pose proof (slice_len _ _ _ _ Hsrc) as Hlen. apply slice_Some in Hsrc as (_ & He & _).
  apply copy_size_lt in Hsb. change (2 ^ 24)%N with 16777216%N in Hsb.
  assert (copy_size size <= 16777215)%N by (unfold copy_size; destruct (N.eqb_spec size 0); lia). nia.
Qed.

(** A delta rebuilds an object exactly when it declares its base's size and the object's, its
    opcodes produce the object, and the object is within the budget: the limits checked up front
    refuse no honest delta. *)
Lemma apply_delta_Ok base delta budget out :
  apply_delta base delta budget = Ok out
  <-> exists s d ops, delta = s ++ d ++ ops /\ declares s (len base) /\ declares d (len out)
      /\ (len out <= budget)%N /\ produces base ops out.
Proof.
  unfold apply_delta. rewrite bind_Ok. split.
  - intros ((src & r1) & (s & -> & Hs)%read_delta_size_Ok & H). destruct (N.eqb_spec src (len base)) as [->|]; [|done].
    cbn [negb] in H. apply bind_Ok in H as ((dst & r2) & (d & -> & Hd)%read_delta_size_Ok & H). cbv zeta in H.
    destruct (N.ltb_spec (N.min (sat_mul_u64 (len r2) (N.min (N.max (len base) 1) 16777215)) budget) dst) as [|Hb]; [done|].
    apply bind_Ok in H as (res & Hr & H). destruct (N.eqb_spec (len res) dst) as [<-|]; [|done]. injection H as <-.
    apply delta_ops_Ok in Hr as (tail & Hp & -> & _); [|apply Hs|by rewrite len_nil; apply N.le_0_l|done].
    exists s, d, r2. split_and!; [done..|lia|done].
  - intros (s & d & ops & -> & Hs & Hd & Hb & Hp). exists (len base, d ++ ops). split; [by apply read_delta_size_Ok; exists s|].
    rewrite N.eqb_refl. cbn [negb]. rewrite bind_Ok. exists (len out, ops). split; [by apply read_delta_size_Ok; exists d|].
    cbv zeta. pose proof (produces_bound _ _ _ Hp) as Hmax. destruct Hd as (_ & Hd & _).
    rewrite (proj2 (N.ltb_ge _ _)) by (unfold sat_mul_u64; lia). rewrite bind_Ok. exists out. rewrite N.eqb_refl. split; [|done].
    apply delta_ops_Ok; [apply Hs|by rewrite len_nil; apply N.le_0_l|done|]. by exists out.
Qed.

(** ** Entry headers *)

Lemma header_size_more c size shift p rest n q : more_follow c = true ->
  header_size c size shift p rest = Ok (n, q)
  <-> exists rest', delta_size_loop size shift rest = Ok (n, rest') /\ (q + len rest' = p + len rest)%N.
Proof.
  revert c size shift p. induction rest as [|b rest IH]; intros c size shift p Hc; cbn [header_size delta_size_loop]; rewrite Hc.
  { split; [done|]. by intros (? & ? & ?). }
  destruct (shl_exact _ _) as [x|]; cbn [ok_or mbind Result_bind]; [|split; [done|by intros (? & ? & ?)]].
  destruct (more_follow (byte_val b)) eqn:Hb.
  - rewrite IH by done. rewrite len_cons. by split; intros (rest' & ? & ?); exists rest'; (split; [done|lia]).
  - assert (header_size (byte_val b) (N.lor size x) (shift + 7) (p + 1) rest = Ok (N.lor size x, p + 1)%N) as ->.
    { destruct rest; cbn [header_size]; by rewrite Hb. }
    rewrite len_cons. split; [intros [= <- <-]; exists rest; split; [done|lia]|].
    intros (rest' & [= <- <-] & Hq). do 2 f_equal. lia.
Qed.

Lemma land_15 c : N.land c 15 = (c mod 16)%N.
Proof. exact (N.land_ones c 4). Qed.
Lemma land_7 c : N.land c 7 = (c mod 8)%N.
Proof. exact (N.land_ones c 3). Qed.

Lemma parse_obj_header_Ok buf pos t size p :
  parse_obj_header buf pos = Ok (t, size, p)
  <-> exists hs rest, drop (N.to_nat pos) buf = hs ++ rest /\ header_bytes hs t size /\ p = (pos + len hs)%N.
Proof.
  unfold parse_obj_header, header_bytes. destruct (drop (N.to_nat pos) buf) as [|b rest].
  { split; [done|]. intros (hs & rest & Heq & (b & bs & -> & _) & _). done. }
  rewrite land_15, land_7, N.shiftr_div_pow2. change (2 ^ 4)%N with 16%N.
  assert (byte_val b mod 16 < 16)%N as H16 by (by apply N.mod_lt).
  assert (forall n q, header_size (byte_val b) (byte_val b mod 16) 4 (pos + 1) rest = Ok (n, q) /\ (n <= u64_max)%N
    <-> exists bs rest', rest = bs ++ rest' /\ q = (pos + len (b :: bs))%N /\ (n <= u64_max)%N /\ length bs <= 9
        /\ if (byte_val b <? 128)%N then bs = [] /\ n = (byte_val b mod 16)%N
           else exists v, leb_bytes bs v /\ n = (byte_val b mod 16 + 16 * v)%N) as Hsize.
  { intros n q. pose proof (more_follow_ltb b) as Hm. destruct (byte_val b <? 128)%N; cbn [negb] in Hm.
    - assert (header_size (byte_val b) (byte_val b mod 16) 4 (pos + 1) rest = Ok (byte_val b mod 16, pos + 1)%N) as ->.
      { destruct rest; cbn [header_size]; by rewrite Hm. }
      split.
      + intros ([= <- <-] & Hn). exists [], rest. split_and!; try done. simpl. lia.
      + intros (bs & rest' & -> & -> & Hn & _ & -> & ->). by split.
    - rewrite header_size_more by done. split.
      + intros ((rest' & Hl & Hq) & Hn). apply delta_size_loop_Ok in Hl as (bs & v & -> & Hbs & -> & _ & Hlen); [|done].
        change (2 ^ 4)%N with 16%N. rewrite len_app in Hq. exists bs, rest'. rewrite len_cons. unfold len in Hlen.
        split_and!; [done|lia|done|lia|]. exists v. split; [done|lia].
      + intros (bs & rest' & -> & -> & Hn & Hlen & v & Hbs & ->). split; [|done]. exists rest'. rewrite len_cons, len_app.
        split; [|lia]. apply delta_size_loop_Ok; [done|]. exists bs, v. change (2 ^ 4)%N with 16%N.
        split_and!; [done..|lia|done|unfold len; lia]. }
  rewrite bind_Ok. split.
  - intros ((n & q) & Hh & H). apply bind_Ok in H as (m & (<- & Hn)%usize_try_from_Ok & [= <- <- <-]).
    destruct (proj1 (Hsize n q) (conj Hh Hn)) as (bs & rest' & -> & -> & _ & Hlen & Hbs).
    exists (b :: bs), rest'. split_and!; [done| |done]. by exists b, bs.
  - intros (hs & rest' & Heq & (b' & bs & -> & -> & Hn & Hlen & Hbs) & ->). injection Heq as <- ->.
    exists (size, pos + len (b :: bs))%N. split.
    + apply Hsize. by exists bs, rest'.
    + cbn beta iota. rewrite bind_Ok. exists size. split; [by apply usize_try_from_Ok|done].
Qed.

(** *** Back-pointers *)

(** The bytes after one of value [c]: another follows each that has its high bit. *)
Inductive ofs_tail : N -> list byte -> Prop :=
  | ofs_stop c : (c < 128)%N -> ofs_tail c []
  | ofs_more c b bs : (128 <= c)%N -> ofs_tail (byte_val b) bs -> ofs_tail c (b :: bs).

Definition ofs_step (o : N) (b : byte) : N := ((o + 1) * 128 + byte_val b mod 128)%N.

Lemma ofs_step_le o bs : (o <= foldl ofs_step o bs)%N.
Proof.
  revert o. induction bs as [|b bs IH]; intros o; simpl; [done|]. etrans; [|apply IH]. unfold ofs_step. generalize (byte_val b mod 128)%N. lia.
Qed.

Lemma ofs_checked o : (x ← checked_u64 (o + 1)%N; checked_u64 (x * 128)%N) = checked_u64 ((o + 1) * 128)%N.
Proof.
  unfold checked_u64. destruct (N.leb_spec (o + 1) u64_max); simpl; [done|].
  destruct (N.leb_spec ((o + 1) * 128) u64_max); [lia|done].
Qed.

Lemma low_bits_fit x m : (m < 128)%N -> (x * 128 <= u64_max)%N -> (x * 128 + m <= u64_max)%N.
Proof. unfold u64_max. lia. Qed.

Lemma ofs_value_Ok c ofs p rest n q : (c < 256)%N -> (ofs <= u64_max)%N ->
  ofs_value c ofs p rest = Ok (n, q)
  <-> exists bs rest', rest = bs ++ rest' /\ ofs_tail c bs /\ n = foldl ofs_step ofs bs /\ (n <= u64_max)%N /\ q = (p + len bs)%N.
Proof.
  revert c ofs p. induction rest as [|b rest IH]; intros c ofs p Hc Hofs; cbn [ofs_value];
    unfold more_follow; rewrite land_128 by done; destruct (N.ltb_spec c 128) as [H|H].
  1,3: change (negb (0 =? 0)%N) with false; cbv iota; split;
    [intros [= <- <-]; eexists [], _; split_and!; [by rewrite app_nil_l|by apply ofs_stop|done..|by rewrite len_nil, N.add_0_r]
    |intros (bs & rest' & _ & Hbs & -> & _ & ->); inversion Hbs; subst; [by rewrite len_nil, N.add_0_r|lia]].
  - split; [done|]. intros (bs & rest' & Heq & Hbs & _). symmetry in Heq. apply app_eq_nil in Heq as [-> _].
    inversion Hbs. lia.
  - change (negb (128 =? 0)%N) with true. cbv iota. rewrite ofs_checked, land_127. unfold checked_u64.
    pose proof (N.mod_lt (byte_val b) 128 ltac:(done)) as Hm.
    assert (N.lor ((ofs + 1) * 128) (byte_val b mod 128) = ofs_step ofs b) as Hstep.
    { rewrite N.lor_comm. change ((ofs + 1) * 128)%N with ((ofs + 1) * 2 ^ 7)%N.
      rewrite <-N.shiftl_mul_pow2, lor_shiftl by done. apply N.add_comm. }
    destruct (N.leb_spec ((ofs + 1) * 128) u64_max) as [Hfit|Hfit]; cbn [ok_or mbind Result_bind].
    + rewrite Hstep, IH by (try apply byte_val_lt; unfold ofs_step; by apply low_bits_fit). split.
      * intros (bs & rest' & -> & Hbs & -> & Hn & ->). exists (b :: bs), rest'. rewrite len_cons.
        split_and!; [done|by constructor|done..|lia].
      * intros (bs & rest' & Heq & Hbs & -> & Hn & ->). inversion Hbs; subst; [lia|]. simplify_eq/=.
        eexists _, _. rewrite len_cons. split_and!; [done..|lia].
    + split; [done|]. intros (bs & rest' & Heq & Hbs & -> & Hn & _). inversion Hbs as [|? b' bs' _ Hbs']; subst; [lia|]. simplify_eq/=.
      match goal with _ : (foldl ofs_step ?o ?l <= _)%N |- _ => pose proof (ofs_step_le o l) as Hle end.
      revert Hle. unfold ofs_step at 1. match goal with |- context [(?x mod 128)%N] => generalize (x mod 128)%N end. lia.
Qed.

Definition ofs_highs (bs : list byte) : Prop := Forall (fun b => 128 <= byte_val b)%N bs.

Lemma byte_high_mod b : (128 <= byte_val b)%N -> byte_of (128 + byte_val b mod 128) = b.
Proof.
  intros Hb. rewrite byte_mod_128, (proj2 (N.ltb_ge _ _) Hb). replace (128 + (byte_val b - 128))%N with (byte_val b) by lia.
  apply byte_of_val.
Qed.

Lemma ofs_step_div o b : (ofs_step o b / 128 = o + 1)%N /\ (ofs_step o b mod 128 = byte_val b mod 128)%N.
Proof.
  pose proof (N.mod_lt (byte_val b) 128 ltac:(done)) as Hm. unfold ofs_step. split.
  - rewrite N.div_add_l, N.div_small by (done || lia). lia.
  - by rewrite N.add_comm, N.Div0.mod_add, N.mod_small.
Qed.

Lemma ofs_step_big o b : (128 <= ofs_step o b)%N.
Proof. unfold ofs_step. generalize (byte_val b mod 128)%N. lia. Qed.

(** Read from the left, the high groups of a value are the ones git writes for it. *)
Lemma ofs_high_foldl fuel c bs : (128 <= byte_val c)%N -> ofs_highs bs -> length bs < fuel ->
  ofs_high fuel (foldl ofs_step (byte_val c mod 128)%N bs) = c :: bs.
Proof.
  revert fuel. induction bs as [|b bs IH] using rev_ind; intros [|fuel] Hc Hbs Hf; simpl in Hf; try lia; cbn [ofs_high foldl].
  - rewrite (proj2 (N.ltb_lt _ _)), N.Div0.mod_mod, byte_high_mod by (done || by apply N.mod_lt). done.
  - rewrite foldl_snoc. set (o := foldl _ _ _) in *. rewrite (proj2 (N.ltb_ge _ _) (ofs_step_big o b)).
    destruct (ofs_step_div o b) as [-> ->]. rewrite N.add_sub. unfold ofs_highs in Hbs.
    rewrite length_app in Hf. simpl in Hf. apply Forall_app in Hbs as [Hbs Hb]. inversion Hb; subst.
    subst o. rewrite IH, byte_high_mod by (done || lia). done.
Qed.

(** A value of [n] high groups before its last byte is at least [128 ^ n]. *)
Lemma ofs_foldl_big o bs : (128 ^ len bs <= foldl ofs_step o bs + 1)%N.
Proof.
  induction bs as [|b bs IH] using rev_ind; [by rewrite len_nil, N.pow_0_r; lia|].
  rewrite foldl_snoc, len_app. change (len [b]) with 1%N. rewrite N.add_1_r, N.pow_succ_r'. unfold ofs_step at 1.
  generalize (byte_val b mod 128)%N. lia.
Qed.

Lemma ofs_tail_split c b bs : byte_val b = c -> ofs_tail c bs ->
  exists hi last, b :: bs = hi ++ [last] /\ ofs_highs hi /\ (byte_val last < 128)%N.
Proof.
  intros Hb Ht. revert b Hb. induction Ht as [c Hc|c b' bs Hc Ht IH]; intros b <-.
  - exists [], b. split_and!; [done|constructor|done].
  - destruct (IH b' eq_refl) as (hi & last & -> & Hhi & Hlast). exists (b :: hi), last. split_and!; [done|by constructor|done].
Qed.

Lemma ofs_tail_of hi last : ofs_highs hi -> (byte_val last < 128)%N ->
  match hi ++ [last] with [] => False | b :: bs => ofs_tail (byte_val b) bs end.
Proof.
  intros Hhi Hlast. induction Hhi as [|b hi Hb Hhi IH]; simpl; [by constructor|].
  destruct hi as [|b' hi]; simpl in *; by constructor.
Qed.

Lemma ofs_high_highs fuel m : ofs_highs (ofs_high fuel m).
Proof.
  revert m. induction fuel as [|fuel IH]; intros m; simpl; [constructor|]. apply Forall_app. split.
  - destruct (_ <? _)%N; [constructor|apply IH].
  - constructor; [|constructor]. rewrite byte_val_of; [apply N.le_add_r|]. pose proof (N.mod_lt m 128). lia.
Qed.

Lemma ofs_high_value fuel m : (m < 128 ^ N.of_nat fuel)%N ->
  match ofs_high fuel m with [] => m = 0%N /\ fuel = O | b :: bs => foldl ofs_step (byte_val b mod 128)%N bs = m end.
Proof.
  revert m. induction fuel as [|fuel IH]; intros m Hm; [change (128 ^ N.of_nat 0)%N with 1%N in Hm; simpl; split; [lia|done]|].
  rewrite Nnat.Nat2N.inj_succ, N.pow_succ_r' in Hm. cbn [ofs_high].
  pose proof (N.mod_lt m 128 ltac:(done)) as H128. pose proof (N.div_mod m 128 ltac:(done)) as Hdm.
  assert (byte_val (byte_of (128 + m mod 128)) mod 128 = m mod 128)%N as Hlast.
  { rewrite byte_val_of by lia. rewrite N.add_comm. change 128%N with (1 * 128)%N at 2. by rewrite N.Div0.mod_add, N.Div0.mod_mod. }
  destruct (N.ltb_spec m 128) as [Hs|Hs]; cbn [app foldl].
  - rewrite Hlast. by apply N.mod_small.
  - assert (1 <= m / 128)%N by (apply N.div_le_lower_bound; lia).
    assert (m / 128 - 1 < 128 ^ N.of_nat fuel)%N as Hlt.
    { assert (m / 128 < 128 ^ N.of_nat fuel)%N by (by apply N.Div0.div_lt_upper_bound). lia. }
    specialize (IH _ Hlt). destruct (ofs_high fuel (m / 128 - 1)) as [|b bs]; cbn [app].
    + destruct IH as [H0 ->]. change (128 ^ N.of_nat 0)%N with 1%N in Hm. lia.
    + rewrite foldl_snoc, IH. unfold ofs_step. rewrite Hlast. lia.
Qed.

Lemma encode_ofs_value n : (n <= u64_max)%N ->
  match encode_ofs n with
  | [] => False
  | b :: bs => ofs_tail (byte_val b) bs /\ foldl ofs_step (byte_val b mod 128)%N bs = n
  end.
Proof.
  intros Hmax. unfold encode_ofs. assert (n mod 128 < 128)%N as Hl by (by apply N.mod_lt).
  set (hi := if (n <? 128)%N then [] else ofs_high 10 (n / 128 - 1)) in *.
  assert (ofs_highs hi) as Hhi by (subst hi; destruct (_ <? _)%N; [constructor|apply ofs_high_highs]).
  pose proof (ofs_tail_of hi (byte_of (n mod 128)) Hhi) as Ht. rewrite byte_val_of in Ht by lia. specialize (Ht Hl).
  enough (match hi ++ [byte_of (n mod 128)] with [] => False | b :: bs => foldl ofs_step (byte_val b mod 128)%N bs = n end) as Hv.
  { by destruct (hi ++ [byte_of (n mod 128)]). }
  pose proof (N.div_mod n 128 ltac:(done)) as Hdm. subst hi. destruct (N.ltb_spec n 128) as [Hs|Hs]; cbn [app].
  - cbn [foldl]. by rewrite byte_val_of, !(N.mod_small n) by (done || lia).
  - assert (1 <= n / 128)%N by (apply N.div_le_lower_bound; lia).
    assert (n / 128 - 1 < 128 ^ N.of_nat 10)%N as Hlt.
    { assert (n / 128 <= u64_max / 128)%N by (by apply N.Div0.div_le_mono). unfold u64_max in *.
      change (128 ^ N.of_nat 10)%N with 1180591620717411303424%N. change (18446744073709551615 / 128)%N with 144115188075855871%N in *. lia. }
    pose proof (ofs_high_value 10 _ Hlt) as Hv. destruct (ofs_high 10 (n / 128 - 1)) as [|c hi]; [by destruct Hv|].
    cbn [app]. rewrite foldl_snoc, Hv. unfold ofs_step. rewrite byte_val_of, N.Div0.mod_mod by lia. lia.
Qed.

Lemma parse_ofs_base_Ok buf pos n p :
  parse_ofs_base buf pos = Ok (n, p)
  <-> exists rest, drop (N.to_nat pos) buf = encode_ofs n ++ rest /\ (0 < n <= u64_max)%N /\ p = (pos + len (encode_ofs n))%N.
Proof.
  assert (forall b bs, ofs_tail (byte_val b) bs -> (foldl ofs_step (byte_val b mod 128)%N bs <= u64_max)%N ->
    encode_ofs (foldl ofs_step (byte_val b mod 128)%N bs) = b :: bs) as Henc.
  { intros b bs Ht Hmax. destruct (ofs_tail_split _ b bs eq_refl Ht) as (hi & last & Heq & Hhi & Hlast).
    unfold encode_ofs. destruct hi as [|c hi]; cbn [app] in Heq; injection Heq as -> ->; cbn [foldl].
    - rewrite (N.mod_small (byte_val last)), (proj2 (N.ltb_lt _ _) Hlast), N.mod_small, byte_of_val by done. done.
    - rewrite foldl_snoc in Hmax |- *. set (o := foldl _ _ hi) in *. rewrite (proj2 (N.ltb_ge _ _) (ofs_step_big o last)).
      destruct (ofs_step_div o last) as [-> ->]. rewrite N.add_sub, (N.mod_small (byte_val last)), byte_of_val by done.
      assert ((o + 1) * 128 <= u64_max)%N as Ho by (etrans; [apply N.le_add_r|exact Hmax]).
      inversion Hhi; subst. subst o. rewrite ofs_high_foldl; [done..|].
      pose proof (ofs_foldl_big (byte_val c mod 128)%N hi) as Hbig.
      destruct (Nat.lt_ge_cases (length hi) 10) as [|Hge]; [done|].
      assert (128 ^ 10 <= 128 ^ len hi)%N by (apply N.pow_le_mono_r; unfold len; lia).
      change (128 ^ 10)%N with 1180591620717411303424%N in *. unfold u64_max in Ho. lia. }
  unfold parse_ofs_base. destruct (drop (N.to_nat pos) buf) as [|b rest].
  { split; [done|]. intros (rest & Heq & _). symmetry in Heq. apply app_eq_nil in Heq as [Heq _]. unfold encode_ofs in Heq.
    apply app_eq_nil in Heq as [_ ?]. done. }
  rewrite land_127. pose proof (byte_val_lt b) as Hb. pose proof (N.mod_lt (byte_val b) 128 ltac:(done)) as Hmod.
  assert (byte_val b mod 128 <= u64_max)%N as Hm by (unfold u64_max; lia). rewrite bind_Ok. split.
  - intros ((m & q) & (bs & rest' & -> & Ht & -> & Hn & ->)%ofs_value_Ok & H); [|done..].
    destruct (N.eqb_spec (foldl ofs_step (byte_val b mod 128)%N bs) 0); [done|]. injection H as <- <-.
    rewrite Henc by done. exists rest'. rewrite len_cons. split_and!; [done|lia|done|lia].
  - intros (rest' & Heq & [Hpos Hmax] & ->). exists (n, (pos + len (encode_ofs n))%N).
    pose proof (encode_ofs_value n Hmax) as Hv. destruct (encode_ofs n) as [|b' bs] eqn:Hlist; [done|].
    cbn [app] in Heq. injection Heq as <- ->. destruct Hv as [Ht Hval]. split.
    + apply ofs_value_Ok; [done..|]. exists bs, rest'. rewrite Hval, len_cons. split_and!; [done..|lia].
    + by rewrite (proj2 (N.eqb_neq n 0)) by lia.
Qed.

Lemma drop_past (buf hs rest : list byte) pos :
  drop (N.to_nat pos) buf = hs ++ rest -> drop (N.to_nat (pos + len hs)) buf = rest.
Proof. intros Heq. unfold len. rewrite Nnat.N2Nat.inj_add, Nnat.Nat2N.id, <-drop_drop, Heq. apply drop_app_length. Qed.

Lemma slice_at (buf v rest : list byte) pos :
  drop (N.to_nat pos) buf = v ++ rest -> v <> [] -> slice buf pos (pos + len v) = Some v.
Proof.
  intros Heq Hv. apply slice_Some. assert (length v + length rest = length buf - N.to_nat pos) as Hl.
  { by rewrite <-length_app, <-Heq, length_drop. }
  assert (length v <> 0) by (by destruct v). split_and!; [lia|unfold len; lia|].
  replace (pos + len v - pos)%N with (len v) by lia. rewrite Heq. unfold len. by rewrite Nnat.Nat2N.id, take_app_length.
Qed.

Lemma slice_drop (buf v : list byte) pos e :
  slice buf pos e = Some v -> exists rest, drop (N.to_nat pos) buf = v ++ rest.
Proof. intros (_ & _ & ->)%slice_Some. eexists. symmetry. apply take_drop. Qed.

(** An entry is read exactly when its bytes are its header followed by the base it names. *)
Lemma read_entry_Ok buf pos e :
  read_entry buf pos = Ok e <-> exists hs rest, drop (N.to_nat pos) buf = hs ++ rest /\ entry_bytes hs pos e.
Proof.
  unfold read_entry, entry_bytes. rewrite bind_Ok. split.
  - intros (((t & size) & after) & (h & rest & Hd & Hh & ->)%parse_obj_header_Ok & H).
    apply bind_Ok in H as ((data & base) & Hb & [= <-]). pose proof (drop_past _ _ _ _ Hd) as Hr. simpl.
    destruct (N.eqb_spec t T_OFS_DELTA) as [->|H6]; [|destruct (N.eqb_spec t T_REF_DELTA) as [->|H7]].
    + apply bind_Ok in Hb as ((rel & p) & (rest' & Hd' & Hrel & ->)%parse_ofs_base_Ok & [= <- <-]).
      rewrite Hr in Hd'. subst rest. exists (h ++ encode_ofs rel), rest'. rewrite <-app_assoc. split; [done|].
      exists h, (encode_ofs rel). rewrite len_app. split_and!; try done; lia.
    + apply bind_Ok in Hb as (oid & Hs%ok_or_Ok & [= <- <-]). pose proof (slice_len _ _ _ _ Hs) as Hlen.
      apply slice_drop in Hs as [rest' Hd']. rewrite Hr in Hd'. subst rest.
      exists (h ++ oid), rest'. rewrite <-app_assoc. split; [done|]. exists h, oid. rewrite len_app.
      split_and!; [done..|lia|done|done|lia].
    + injection Hb as <- <-. exists h, rest. split; [done|]. exists h, []. by rewrite app_nil_r.
  - intros (hs & rest & Hd & h & bs & -> & Hh & Hdata & Hbase). rewrite <-app_assoc in Hd.
    exists (en_t e, en_size e, (pos + len h)%N). split; [apply parse_obj_header_Ok; by exists h, (bs ++ rest)|].
    pose proof (drop_past _ _ _ _ Hd) as Hr. cbn beta iota. rewrite bind_Ok. exists (en_data e, en_base e).
    split; [|by destruct e]. rewrite len_app in Hdata. destruct (en_base e) as [|rel|oid].
    + destruct Hbase as (H6%N.eqb_neq & H7%N.eqb_neq & ->). rewrite H6, H7, Hdata. by rewrite len_nil, N.add_0_r.
    + destruct Hbase as (-> & Hrel & ->). rewrite N.eqb_refl, bind_Ok. exists (rel, en_data e). split; [|done].
      apply parse_ofs_base_Ok. exists rest. split_and!; [by rewrite Hr|apply Hrel..|lia].
    + destruct Hbase as (-> & -> & Hlen). change (T_REF_DELTA =? T_OFS_DELTA)%N with false. rewrite N.eqb_refl, bind_Ok.
      exists oid. rewrite Hdata, <-Hlen, N.add_assoc. split; [|done]. apply ok_or_Ok.
      by apply (slice_at _ _ rest); [|destruct oid].
Qed.

(** ** Theorems *)

(** C17: a delta rebuilds an object exactly when it declares the size of its base and of the
    object, its opcodes produce the object from the base, and the object is within the
    budget; the limits the code checks before the opcodes refuse no such delta. *)
Theorem apply_delta_spec base delta budget out :
  apply_delta base delta budget = Ok out
  <-> exists s d ops, delta = s ++ d ++ ops /\ declares s (len base) /\ declares d (len out)
      /\ (len out <= budget)%N /\ produces base ops out.
Proof. apply apply_delta_Ok. Qed.

(** The header of a pack entry is read exactly when its bytes are a type and size varint
    that fits, then git's one encoding of the back-pointer of an offset delta or the twenty
    bytes of the base of a reference delta; the data starts right after. *)
Theorem read_entry_spec buf pos e :
  read_entry buf pos = Ok e <-> exists hs rest, drop (N.to_nat pos) buf = hs ++ rest /\ entry_bytes hs pos e.
Proof. apply read_entry_Ok. Qed.

(** ** Examples *)

(** Copies [hello] from the base, then inserts two bytes. *)
Example delta_example :
  apply_delta (bytes "hello world") (map byte_of [11; 7; 145; 0; 5; 2]%N ++ bytes "!!") 100 = Ok (bytes "hello!!").
Proof. vm_compute. reflexivity. Qed.
Example delta_bomb : apply_delta [] (map byte_of [0; 128; 128; 4; 1]%N) 100 = Err (Config "delta declares more output than it can produce").
Proof. vm_compute. reflexivity. Qed.
Example entry_example : read_entry (map byte_of [229; 1; 129; 0]%N) 0 = Ok (mkEntry 6 21 4 (Ofs 256)).
Proof. vm_compute. reflexivity. Qed.
