(* ===== verification/Chains.v ===== *)
(** The delta chains of a pack ([resolve_chains] of [pack/parse.rs]): each object's chain is
    resolved once and reused, against a relation that says what the chain of an object is. *)
From S2P Require Import Prelude.
From S2P Require Import Wire.
From S2P Require Import Delta.

(** ** Definitions *)

(** [root] is the type code of the entry the chain ends at. *)
Record Chain := mkChain { ch_root : N; ch_depth : N; ch_min_off : N; ch_contiguous : bool }.

Definition too_deep : Error := Config "delta chain deeper than 4095 (or a cycle)".

Section resolve.
Context (offsets raw_type : list N) (base_off : list (option N)) (at_offset : gmap N nat).

(** Walks from an object to one whose chain is known, pushing the deltas on the way; [path] has
the last one first. Every step pushes a delta and a path longer than [MAX_DELTA_DEPTH] is
refused, so the walk takes at most [MAX_DELTA_DEPTH] + 1 steps. *)
Fixpoint walk (fuel : nat) (chains : list (option Chain)) (on_path : list bool) (path : list (nat * N)) (j : nat) :
  Result (Chain * nat * list bool * list (nat * N)) :=
  match fuel with
  | O => Panic
  | S fuel =>
  known ← or_panic (chains !! j);
  match known with
  | Some c => Ok (c, j, on_path, path)
  | None =>
  seen ← or_panic (on_path !! j);
  if (seen : bool) then Err too_deep else
  base ← or_panic (base_off !! j);
  match base with
  | None =>
    root ← or_panic (raw_type !! j);
    off ← or_panic (offsets !! j);
    Ok (mkChain root 0 off true, j, on_path, path)
  | Some b =>
    match at_offset !! b with
    | None =>
      root ← or_panic (raw_type !! j);
      off ← or_panic (offsets !! j);
      Ok (mkChain root 1 (N.min off b) false, j, on_path, path)
    | Some next =>
      let path := (j, b) :: path in
      if (MAX_DELTA_DEPTH <? len path)%N then Err too_deep
      else walk fuel chains (<[j := true]> on_path) path next
    end
  end
  end
  end.

(** Pops the deltas of [path], each one hop past the chain below it. *)
Fixpoint unwind (chains : list (option Chain)) (on_path : list bool) (path : list (nat * N)) (chain : Chain) :
  Result (list (option Chain) * list bool) :=
  match path with
  | [] => Ok (chains, on_path)
  | (p, b) :: path =>
  off ← or_panic (offsets !! p);
  let chain := mkChain (ch_root chain) (ch_depth chain + 1) (N.min off (ch_min_off chain)) (ch_contiguous chain && (b <? off)%N) in
  if (MAX_DELTA_DEPTH <? ch_depth chain)%N then Err too_deep
  else unwind (<[p := Some chain]> chains) (<[p := false]> on_path) path chain
  end.

Definition WALK_FUEL : nat := 4097.

Definition resolve_one (st : list (option Chain) * list bool) (start : nat) : Result (list (option Chain) * list bool) :=
  '(chain, j, on_path, path) ← walk WALK_FUEL st.1 st.2 [] start;
  unwind (<[j := Some chain]> st.1) on_path path chain.

Fixpoint resolve_all (st : list (option Chain) * list bool) (order : list nat) : Result (list (option Chain) * list bool) :=
  match order with [] => Ok st | start :: order => st ← resolve_one st start; resolve_all st order end.

Definition resolve_chains (order : list nat) : Result (list Chain) :=
  '(chains, _) ← resolve_all (replicate (length offsets) None, replicate (length offsets) false) order;
  ok_or (Config "pack object left unresolved") (mapM id chains).

(** ** What the chain of an object is *)

Inductive chain_of : nat -> Chain -> Prop :=
  | chain_root j t o : base_off !! j = Some None -> raw_type !! j = Some t -> offsets !! j = Some o ->
  chain_of j (mkChain t 0 o true)
  | chain_outside j b t o : base_off !! j = Some (Some b) -> at_offset !! b = None ->
  raw_type !! j = Some t -> offsets !! j = Some o -> chain_of j (mkChain t 1 (N.min o b) false)
  | chain_hop j b next o c : base_off !! j = Some (Some b) -> at_offset !! b = Some next -> offsets !! j = Some o ->
  chain_of next c ->
  chain_of j (mkChain (ch_root c) (ch_depth c + 1) (N.min o (ch_min_off c)) (ch_contiguous c && (b <? o)%N)).

(** An object whose chain a git pack may have. *)
Definition shallow (j : nat) (c : Chain) : Prop := chain_of j c /\ (ch_depth c <= MAX_DELTA_DEPTH)%N.

(** Every object in the pack deeper than that. *)
Definition deep (j : nat) : Prop := forall c, chain_of j c -> (MAX_DELTA_DEPTH < ch_depth c)%N.

Lemma chain_of_fun j c c' : chain_of j c -> chain_of j c' -> c = c'.
Proof.
  intros H. revert c'. induction H as [| |j b next o c ? ? ? _ IH]; intros c' H'; inversion H'; simplify_eq; try congruence.
  by rewrite (IH _ ltac:(eassumption)).
Qed.

(** [path] leads from [start] to [j], its last hop first. *)
Fixpoint links (start : nat) (path : list (nat * N)) (j : nat) : Prop :=
  match path with
  | [] => j = start
  | (p, b) :: path => base_off !! p = Some (Some b) /\ at_offset !! b = Some j /\ links start path p
  end.

Lemma links_depth start path j c :
  links start path j -> chain_of start c -> exists c', chain_of j c' /\ (ch_depth c = ch_depth c' + len path)%N.
Proof.
  revert j. induction path as [|[p b] path IH]; intros j Hl Hc; simpl in Hl.
  - subst j. exists c. by rewrite len_nil, N.add_0_r.
  - destruct Hl as (Hb & Ha & Hl). destruct (IH p Hl Hc) as (cp & Hcp & Hd). rewrite len_cons.
    inversion Hcp as [| |? b' next o c' Hb' Ha' _ Hc']; simplify_eq; try congruence.
    exists c'. split; [congruence|]. rewrite Hd. simpl. lia.
Qed.

Lemma links_from start path j p : links start path j -> p ∈ path.*1 -> exists path', links p path' j /\ path' <> [].
Proof.
  revert j. induction path as [|[q b] path IH]; intros j Hl Hp; simpl in Hp; [by apply elem_of_nil in Hp|].
  destruct Hl as (Hb & Ha & Hl). apply elem_of_cons in Hp as [->|Hp].
  - by exists [(q, b)].
  - destruct (IH q Hl Hp) as (path' & Hl' & _). by exists ((q, b) :: path').
Qed.

(** A walk that comes back to its path is in a cycle: nothing on it has a chain. *)
Lemma links_cycle start path j : links start path j -> j ∈ path.*1 -> deep start.
Proof.
  intros Hl Hj c Hc. exfalso. destruct (links_depth _ _ _ _ Hl Hc) as (cj & Hcj & _).
  destruct (links_from _ _ _ _ Hl Hj) as (path' & Hl' & Hne). destruct (links_depth _ _ _ _ Hl' Hcj) as (cj' & Hcj' & Hd).
  rewrite (chain_of_fun _ _ _ Hcj' Hcj) in Hd. destruct path' as [|x path']; [done|]. rewrite len_cons in Hd. lia.
Qed.

(** ** The resolver *)

Context (Hraw : length raw_type = length offsets) (Hbase : length base_off = length offsets).
Context (Hat : forall b i, at_offset !! b = Some i -> i < length offsets).

Definition known (chains : list (option Chain)) (j : nat) : Prop := exists c, chains !! j = Some (Some c).

Definition inv (chains : list (option Chain)) (on_path : list bool) (path : list (nat * N)) : Prop :=
  length chains = length offsets /\ (forall j c, chains !! j = Some (Some c) -> shallow j c)
  /\ length on_path = length offsets /\ (forall j, on_path !! j = Some true -> j ∈ path.*1).

Lemma links_lt start path j p b : links start ((p, b) :: path) j -> p < length offsets.
Proof. intros (Hb%lookup_lt_Some & _). lia. Qed.

Lemma walk_spec fuel chains on_path path start j :
  inv chains on_path path -> links start path j -> j < length offsets ->
  (MAX_DELTA_DEPTH < len path + N.of_nat fuel)%N -> (len path <= MAX_DELTA_DEPTH)%N ->
  (exists c j' on_path' path', walk fuel chains on_path path j = Ok (c, j', on_path', path')
  /\ shallow j' c /\ links start path' j' /\ inv chains on_path' path' /\ j' < length offsets)
  \/ (walk fuel chains on_path path j = Err too_deep /\ deep start).
Proof.
  revert on_path path j. induction fuel as [|fuel IH]; intros on_path path j Hinv Hl Hj Hfuel Hlen; [lia|].
  pose proof Hinv as (Hn & Hok & Hn' & Hon). cbn [walk].
  destruct (lookup_lt_is_Some_2 chains j) as [k Hk]; [lia|]. rewrite Hk. cbn [or_panic mbind Result_bind].
  destruct k as [c|]; [left; exists c, j, on_path, path; split_and!; try done; by apply Hok|].
  destruct (lookup_lt_is_Some_2 on_path j) as [seen Hs]; [lia|]. rewrite Hs. cbn [or_panic mbind Result_bind].
  destruct seen; [right; split; [done|]; eapply links_cycle; [done|by apply Hon]|].
  destruct (lookup_lt_is_Some_2 base_off j) as [base Hb]; [lia|]. rewrite Hb. cbn [or_panic mbind Result_bind].
  destruct (lookup_lt_is_Some_2 raw_type j) as [t Ht]; [lia|]. destruct (lookup_lt_is_Some_2 offsets j) as [o Ho]; [lia|].
  destruct base as [b|].
  - destruct (at_offset !! b) as [next|] eqn:Ha.
    + destruct (N.ltb_spec MAX_DELTA_DEPTH (len ((j, b) :: path))) as [Hlong|Hlong].
      * right. split; [done|]. intros c Hc. assert (links start ((j, b) :: path) next) as Hl' by done.
        destruct (links_depth _ _ _ _ Hl' Hc) as (c' & _ & Hd). lia.
      * rewrite len_cons in Hlong. apply IH; [|done|by eapply Hat, Ha|rewrite len_cons; lia|rewrite len_cons; lia].
        split_and!; [done..|by rewrite length_insert|]. intros i. simpl. rewrite elem_of_cons.
        destruct (decide (i = j)) as [->|Hi]; [by left|]. rewrite list_lookup_insert_ne by done. intros Hi'. right. by apply Hon.
    + left. rewrite Ht, Ho. cbn [or_panic mbind Result_bind]. eexists _, j, on_path, path. split_and!; try done. split; [by econstructor|by vm_compute].
  - left. rewrite Ht, Ho. cbn [or_panic mbind Result_bind]. eexists _, j, on_path, path. split_and!; try done. split; [by econstructor|by vm_compute].
Qed.

Lemma unwind_spec chains on_path path chain start j :
  inv chains on_path path -> links start path j -> shallow j chain ->
  (exists chains' on_path', unwind chains on_path path chain = Ok (chains', on_path') /\ inv chains' on_path' []
  /\ (forall i, known chains i -> known chains' i) /\ (start = j \/ known chains' start))
  \/ (unwind chains on_path path chain = Err too_deep /\ deep start).
Proof.
  revert chains on_path chain j. induction path as [|[p b] path IH]; intros chains on_path chain j Hinv Hl Hc.
  { left. exists chains, on_path. simpl in Hl. subst j. split_and!; try done. by left. }
  pose proof Hinv as (Hn & Hok & Hn' & Hon). pose proof (links_lt _ _ _ _ _ Hl) as Hp. destruct Hl as (Hb & Ha & Hl).
  cbn [unwind]. destruct (lookup_lt_is_Some_2 offsets p Hp) as [o Ho]. rewrite Ho. cbn [or_panic mbind Result_bind ch_depth].
  destruct Hc as [Hc Hd]. pose proof (chain_hop _ _ _ _ _ Hb Ha Ho Hc) as Hcp.
  destruct (N.ltb_spec MAX_DELTA_DEPTH (ch_depth chain + 1)) as [Hdeep|Hdeep].
  - right. split; [done|]. intros c Hcs. destruct (links_depth _ _ _ _ Hl Hcs) as (c' & Hc' & Heq).
    rewrite (chain_of_fun _ _ _ Hc' Hcp) in Heq. simpl in Heq. lia.
  - set (chain' := mkChain _ _ _ _) in *. destruct (IH (<[p:=Some chain']> chains) (<[p:=false]> on_path) chain' p) as [Hr|Hr]; [|done|done| |by right].
    + split_and!; [by rewrite length_insert| |by rewrite length_insert|].
      * intros i c. destruct (decide (i = p)) as [->|Hi].
        -- rewrite list_lookup_insert_eq by lia. intros [= <-]. done.
        -- rewrite list_lookup_insert_ne by done. apply Hok.
      * intros i. destruct (decide (i = p)) as [->|Hi]; [by rewrite list_lookup_insert_eq by lia|].
        rewrite list_lookup_insert_ne by done. intros Hi'. apply Hon in Hi'. simpl in Hi'. by apply elem_of_cons in Hi' as [|].
    + left. destruct Hr as (chains' & on_path' & Hu & Hinv' & Hkeep & Hst). exists chains', on_path'.
      assert (forall i, known chains i \/ i = p -> known chains' i) as Hkeep'.
      { intros i Hi. apply Hkeep. unfold known. destruct (decide (i = p)) as [->|Hip].
        - exists chain'. by apply list_lookup_insert_eq; lia.
        - rewrite list_lookup_insert_ne by done. by destruct Hi. }
      split_and!; [done..|intros i Hi; apply Hkeep'; by left|]. right. destruct Hst as [->|Hst]; [|done]. apply Hkeep'. by right.
Qed.

Lemma resolve_one_spec chains on_path start : start < length offsets -> inv chains on_path [] ->
  (exists chains' on_path', resolve_one (chains, on_path) start = Ok (chains', on_path') /\ inv chains' on_path' []
  /\ (forall i, known chains i -> known chains' i) /\ known chains' start)
  \/ (resolve_one (chains, on_path) start = Err too_deep /\ deep start).
Proof.
  intros Hst Hinv. unfold resolve_one. cbn [fst snd].
  destruct (walk_spec WALK_FUEL chains on_path [] start start) as [(c & j & on' & path & -> & Hc & Hl & Hinv' & Hj)|[-> Hd]];
    [done..| |by right]. cbn [mbind Result_bind].
  destruct Hinv' as (Hn & Hok & Hn' & Hon).
  destruct (unwind_spec (<[j:=Some c]> chains) on' path c start j) as [(chains' & on'' & -> & Hinv'' & Hkeep & Hs)|Hr];
    [|done|done| |by right].
  - split_and!; [by rewrite length_insert| |done|done]. intros i c'. destruct (decide (i = j)) as [->|Hi].
    + rewrite list_lookup_insert_eq by lia. by intros [= <-].
    + rewrite list_lookup_insert_ne by done. apply Hok.
  - left. exists chains', on''. assert (forall i, known chains i \/ i = j -> known chains' i) as Hkeep'.
    { intros i Hi. apply Hkeep. unfold known. destruct (decide (i = j)) as [->|Hij].
      - exists c. apply list_lookup_insert_eq. lia.
      - rewrite list_lookup_insert_ne by done. by destruct Hi. }
    split_and!; [done..|intros i Hi; apply Hkeep'; by left|]. destruct Hs as [->|Hs]; [|done]. apply Hkeep'. by right.
Qed.

Lemma resolve_all_spec order chains on_path : (forall i, i ∈ order -> i < length offsets) -> inv chains on_path [] ->
  (exists chains' on_path', resolve_all (chains, on_path) order = Ok (chains', on_path') /\ inv chains' on_path' []
  /\ (forall i, known chains i \/ i ∈ order -> known chains' i))
  \/ (resolve_all (chains, on_path) order = Err too_deep /\ exists i, i ∈ order /\ deep i).
Proof.
  revert chains on_path. induction order as [|start order IH]; intros chains on_path Hlt Hinv; cbn [resolve_all].
  { left. exists chains, on_path. split_and!; try done. intros i [Hi|Hi]; [done|by apply elem_of_nil in Hi]. }
  destruct (resolve_one_spec chains on_path start) as [(ch1 & on1 & -> & Hinv1 & Hk1 & Hs1)|[-> Hd]]; [by apply Hlt, list_elem_of_here|done| |].
  - cbn [mbind Result_bind]. destruct (IH ch1 on1) as [(ch2 & on2 & -> & Hinv2 & Hk2)|[-> (i & Hi & Hd)]];
      [by intros i Hi; apply Hlt, list_elem_of_further|done| |].
    + left. exists ch2, on2. split_and!; [done..|]. intros i [Hi|Hi]; [by apply Hk2; left; apply Hk1|].
      apply elem_of_cons in Hi as [->|Hi]; apply Hk2; [by left|by right].
    + right. split; [done|]. exists i. split; [by apply list_elem_of_further|done].
  - right. split; [done|]. exists start. split; [apply list_elem_of_here|done].
Qed.

Lemma resolve_chains_cases order : (forall i, i ∈ order <-> i < length offsets) ->
  (exists chains, resolve_chains order = Ok chains /\ length chains = length offsets
  /\ forall i c, chains !! i = Some c -> shallow i c)
  \/ (resolve_chains order = Err too_deep /\ exists i, i < length offsets /\ deep i).
Proof.
  intros Hord. unfold resolve_chains.
  destruct (resolve_all_spec order (replicate (length offsets) None) (replicate (length offsets) false))
    as [(ch & on & -> & (Hn & Hok & _) & Hk)|[-> (i & Hi & Hd)]].
  - intros i. apply Hord.
  - split_and!; [apply length_replicate| |apply length_replicate|]; intros i; [intros c|]; intros [Hx _]%lookup_replicate; done.
  - left. cbn [mbind Result_bind]. assert (exists chains, mapM id ch = Some chains) as [chains Hc].
    { apply mapM_is_Some, Forall_lookup. intros i oc Hi. destruct (Hk i) as [c Hc]; [right; apply Hord; rewrite <-Hn; by eapply lookup_lt_Some|].
      exists c. simpl. congruence. }
    rewrite Hc. exists chains. split; [done|]. apply mapM_Some in Hc. split; [by rewrite <-Hn; symmetry; eapply Forall2_length|].
    intros i c Hi. destruct (Forall2_lookup_r _ _ _ _ _ Hc Hi) as (oc & Ho & Heq). apply Hok. simpl in Heq. congruence.
  - right. split; [done|]. exists i. split; [by apply Hord|done].
Qed.
End resolve.

(** ** Theorems *)

(** C18: every delta chain of a pack is resolved to what it is: the type it ends at, its hops,
    its lowest offset and whether each base is stored before its delta. The pack is refused
    exactly when some object's chain is a cycle or longer than git writes, and no list of
    bases drives the resolver into a panic or past its fuel. *)
Theorem resolve_chains_spec offsets raw_type base_off at_offset order
  (Hraw : length raw_type = length offsets) (Hbase : length base_off = length offsets)
  (Hat : forall b i, at_offset !! b = Some i -> i < length offsets)
  (Hord : forall i, i ∈ order <-> i < length offsets) :
  (forall chains, resolve_chains offsets raw_type base_off at_offset order = Ok chains
     <-> length chains = length offsets
         /\ forall i c, chains !! i = Some c -> chain_of offsets raw_type base_off at_offset i c /\ (ch_depth c <= MAX_DELTA_DEPTH)%N)
  /\ ((exists chains, resolve_chains offsets raw_type base_off at_offset order = Ok chains)
      \/ (resolve_chains offsets raw_type base_off at_offset order = Err too_deep
          /\ exists i, i < length offsets
               /\ forall c, chain_of offsets raw_type base_off at_offset i c -> (MAX_DELTA_DEPTH < ch_depth c)%N)).
Proof.
  destruct (resolve_chains_cases offsets raw_type base_off at_offset Hraw Hbase Hat order Hord)
    as [(chains & Heq & Hlen & Hch)|[Heq (i & Hi & Hd)]]; rewrite Heq; (split; [|eauto]); intros chains'.
  - split; [by intros [= <-]|]. intros (Hlen' & Hch'). f_equal. apply list_eq. intros i.
    destruct (chains !! i) as [c|] eqn:Hc; destruct (chains' !! i) as [c'|] eqn:Hc'; try done.
    + f_equal. by eapply chain_of_fun; [apply Hch|apply Hch'].
    + apply lookup_lt_Some in Hc. apply lookup_ge_None in Hc'. lia.
    + apply lookup_lt_Some in Hc'. apply lookup_ge_None in Hc. lia.
  - split; [done|]. intros (Hlen' & Hch'). destruct (lookup_lt_is_Some_2 chains' i) as [c Hc]; [lia|].
    destruct (Hch' _ _ Hc) as [Hc1 Hc2]. specialize (Hd _ Hc1). lia.
Qed.

(** An object, its delta and the delta's delta. *)
Definition example_at : gmap N nat := <[12%N := 0]> (<[40%N := 1]> (<[90%N := 2]> ∅)).

Lemma example_at_lt b i : example_at !! b = Some i -> i < 3.
Proof.
  unfold example_at. rewrite !lookup_insert_Some, lookup_empty.
  intros [[_ <-]|[_ [[_ <-]|[_ [[_ <-]|[_ Hi]]]]]]; [lia..|done].
Qed.

Lemma resolve_chains_spec_witness :
  resolve_chains [12; 40; 90]%N [3; 6; 7]%N [None; Some 12; Some 40]%N example_at [0; 1; 2]
  = Ok [mkChain 3 0 12 true; mkChain 3 1 12 true; mkChain 3 2 12 true].
Proof.
  apply (proj1 (resolve_chains_spec [12; 40; 90]%N [3; 6; 7]%N [None; Some 12; Some 40]%N
    example_at [0; 1; 2] eq_refl eq_refl example_at_lt
    ltac:(intros i; rewrite !elem_of_cons, elem_of_nil; simpl; lia))).
  split; [reflexivity|]. intros [|[|[|i]]] c; intros [= <-]; (split; [|by vm_compute]).
  - by constructor.
  - by apply (chain_hop _ _ _ _ 1 12%N 0 40%N (mkChain 3 0 12 true)); [..|constructor].
  - apply (chain_hop _ _ _ _ 2 40%N 1 90%N (mkChain 3 1 12 true)); [done..|].
    by apply (chain_hop _ _ _ _ 1 12%N 0 40%N (mkChain 3 0 12 true)); [..|constructor].
Defined.
