(* ===== verification/PackParse.v ===== *)
(** Packfiles ([pack/parse.rs]): the index, the geometry of a pack's objects, and rebuilding an
    object from the whole pack or from the one contiguous span its delta chain lies in. zlib and
    the SHA digests are parameters. *)
From S2P Require Import Prelude.
From S2P Require Import Wire.
From S2P Require Import Delta.
From S2P Require Import Chains.

(** ** Definitions *)

Definition PACK_TRAILER : N := 20.
Definition DEFLATE_MAX_RATIO : N := 1032.
Definition CHAIN_BUILD_HEADROOM : N := 256.

Definition indices (n : N) : list N := map N.of_nat (seq 0 (N.to_nat n)).

(** *** The pack index *)

Definition IDX_MAGIC : list byte := map byte_of [255; 116; 79; 99]%N.

Definition read_u32 (buf : list byte) (at_ : N) : Result N :=
  s ← ok_or (Config "index truncated (u32)") (slice buf at_ (sat_add_u64 at_ 4)); Ok (from_be s).

Definition read_u64 (buf : list byte) (at_ : N) : Result N :=
  s ← ok_or (Config "index truncated (u64)") (slice buf at_ (sat_add_u64 at_ 8)); Ok (from_be s).

(** The offset the [v] of the 32-bit table stands for. *)
Definition idx_offset (idx : list byte) (big_at v : N) : Result N :=
  if negb (N.land v 2147483648 =? 0)%N then
    let j := N.land v 2147483647 in
    at_ ← ok_or (Config "index truncated (u64)") (o ← checked_u64 (j * 8)%N; checked_u64 (o + big_at)%N);
    read_u64 idx at_
  else Ok v.

Definition parse_idx_v2 (idx : list byte) : Result (list (list byte) * list N) :=
  if (len idx <? 8 + 1024)%N || negb (take 4 idx == IDX_MAGIC) then Err (Config "not a v2 pack index") else
  version ← or_panic (slice idx 4 8);
  if negb (from_be version =? 2)%N then Err (Config "unsupported pack index version") else
  let fanout_at := 8%N in
  n ← read_u32 idx (fanout_at + 255 * 4)%N;
  let tables := (n * (OID_LEN + 4 + 4))%N in
  if (len idx <? 8 + 1024 + tables + 2 * PACK_TRAILER)%N then Err (Config "pack index too short for its object count") else
  let oids_at := (fanout_at + 256 * 4)%N in
  let off32_at := (oids_at + n * OID_LEN + n * 4)%N in
  let big_at := (off32_at + n * 4)%N in
  words ← mapM (fun i => read_u32 idx (off32_at + i * 4)%N) (indices n);
  let num_big := len (List.filter (fun v => negb (N.land v 2147483648 =? 0)%N) words) in
  let expected := (8 + 1024 + tables + num_big * 8 + 2 * PACK_TRAILER)%N in
  if negb (expected =? len idx)%N then
    Err (Config "pack index length does not match a SHA-1 v2 layout (SHA-256 packs are unsupported in v1, or the index is corrupt)")
  else
  oids ← mapM (fun i => or_panic (slice idx (oids_at + i * OID_LEN) (oids_at + i * OID_LEN + OID_LEN))%N) (indices n);
  offsets ← mapM (fun i => v ← read_u32 idx (off32_at + i * 4)%N; idx_offset idx big_at v) (indices n);
  Ok (oids, offsets).

(** *** A parsed pack *)

Record PackObject := mkPackObject {
  po_oid : list byte;
  po_offset : N;
  po_length : N;
  po_obj_type : GitObjType;
  po_delta_depth : N;
  po_is_ref_delta : bool;
  po_delta_chain_span : N;
  po_contiguous : bool;
}.

Definition po_end (o : PackObject) : N := sat_add_u64 (po_offset o) (po_length o).

Record ParsedPack := mkParsedPack {
  pp_pack_bytes : list byte;
  pp_pack_hash : list byte;
  pp_objects : list PackObject;
  pp_oid_to_idx : gmap (list byte) nat;
  pp_at_offset : gmap N nat;
  pp_bases : list (option nat);
}.

(** A [HashMap] collected from a list's items and their positions. *)
Definition index_map {K} `{Countable K} (l : list K) : gmap K nat :=
  foldl (fun m p => <[p.2 := p.1]> m) ∅ (imap pair l).

Definition offset_order (offsets : list N) : list nat :=
  sort_by (cmp_on (fun i => offsets !!! i) N.compare) (seq 0 (length offsets)).

(** Whether two neighbours of [windows(2)] share an offset. *)
Fixpoint shares_offset (offsets : list N) (order : list nat) : bool :=
  match order with
  | i :: (j :: _) as rest => (offsets !!! i =? offsets !!! j)%N || shares_offset offsets rest
  | _ => false
  end.

(** Each object's length: the gap to the next higher offset, or to the trailer. *)
Fixpoint gaps (offsets : list N) (trailer_at : N) (order : list nat) : Result (list (nat * N)) :=
  match order with
  | [] => Ok []
  | i :: order =>
    let end_ := match order with j :: _ => offsets !!! j | [] => trailer_at end in
    g ← (if (offsets !!! i <=? end_)%N then Ok (end_ - offsets !!! i)%N else Err (Config "overlapping pack offsets"));
    gs ← gaps offsets trailer_at order;
    Ok ((i, g) :: gs)
  end.

Definition lengths_of (n : nat) (gs : list (nat * N)) : list N := foldl (fun l p => <[p.1 := p.2]> l) (replicate n 0%N) gs.

(** The type, base offset and kind of the entry at an offset. *)
Definition entry_row (pack_bytes : list byte) (offsets : list N) (oid_to_idx : gmap (list byte) nat) (off : N) :
    Result (N * option N * bool) :=
  entry ← read_entry pack_bytes off;
  match en_base entry with
  | NoBase => Ok (en_t entry, None, false)
  | Ofs rel => if (rel <=? off)%N then Ok (en_t entry, Some (off - rel)%N, false) else Err (Config "OFS base before pack start")
  | Ref oid => Ok (en_t entry, (fun j => offsets !!! j) <$> oid_to_idx !! oid, true)
  end.

Definition pack_object (oid : list byte) (offset length : N) (is_ref : bool) (chain : Chain) : Result PackObject :=
  obj_type ← from_code (ch_root chain);
  let end_ := (offset + length)%N in
  Ok (mkPackObject oid offset length obj_type (ch_depth chain) is_ref
        (if ch_contiguous chain then (end_ - ch_min_off chain)%N else length) (ch_contiguous chain)).

Definition parse (sha256 : list byte -> list byte) (pack_bytes idx_bytes : list byte) : Result ParsedPack :=
  '(oids, offsets) ← parse_idx_v2 idx_bytes;
  let n := length oids in
  let pack_len := len pack_bytes in
  if (pack_len <? PACK_TRAILER)%N then Err (Config "packfile shorter than its trailer") else
  let order := offset_order offsets in
  if shares_offset offsets order then Err (Config "two pack objects share one offset") else
  gs ← gaps offsets (pack_len - PACK_TRAILER)%N order;
  let lengths := lengths_of n gs in
  let oid_to_idx := index_map oids in
  let at_offset := index_map offsets in
  rows ← mapM (entry_row pack_bytes offsets oid_to_idx) offsets;
  let raw_type := map (fun r => r.1.1) rows in
  let base_off := map (fun r => r.1.2) rows in
  let is_ref := map snd rows in
  chains ← resolve_chains offsets raw_type base_off at_offset order;
  objects ← mapM (fun p => pack_object (oids !!! p.1) (offsets !!! p.1) (lengths !!! p.1) (is_ref !!! p.1) p.2) (imap pair chains);
  let bases := map (fun off : option N => o ← off; at_offset !! o) base_off in
  Ok (mkParsedPack pack_bytes (sha256 pack_bytes) objects oid_to_idx at_offset bases).

Definition object_count (p : ParsedPack) : N := len (pp_objects p).
Definition ref_delta_count (p : ParsedPack) : N := len (List.filter po_is_ref_delta (pp_objects p)).

Definition object (p : ParsedPack) (oid : list byte) : option PackObject :=
  if (len oid =? OID_LEN)%N then i ← pp_oid_to_idx p !! oid; pp_objects p !! i else None.

Definition extent (p : ParsedPack) (at_ : N) : Result (N * N) :=
  obj ← ok_or (Config "delta base is not an object in the pack") (i ← pp_at_offset p !! at_; pp_objects p !! i);
  let end_ := e ← checked_u64 (po_offset obj + po_length obj)%N; if (e <=? len (pp_pack_bytes p))%N then Some e else None in
  match end_ with
  | Some e => if (po_offset obj <=? e)%N then Ok (po_offset obj, e) else Err (Config "object runs outside the pack")
  | None => Err (Config "object runs outside the pack")
  end.

(** *** Delta chains as stored *)

Record Link := mkLink { lk_start : N; lk_end : N; lk_size : N }.

Record Links := mkLinks { ls_obj_type : GitObjType; ls_base : Link; ls_deltas : list Link; ls_covered : N }.

(** Each step records a delta and at most [MAX_DELTA_DEPTH] are, so the fuel of the walk is
    enough. *)
Fixpoint chain_links (fuel : nat) (p : ParsedPack) (buf : list byte) (base_addr : N) (allow_ref : bool)
    (deltas : list Link) (covered : N) (seen : gset N) (at_ : N) : Result Links :=
  match fuel with
  | O => Panic
  | S fuel =>
    if bool_decide (at_ ∈ seen) then Err (Config "delta chain loops back on itself") else
    let seen := {[at_]} ∪ seen in
    pos ← (if (base_addr <=? at_)%N then Ok (at_ - base_addr)%N else Err (Config "delta base outside the bytes read"));
    '(end_, covered) ←
      (if allow_ref then '(start, end_) ← extent p at_; Ok (end_, sat_add_u64 covered (end_ - start))
       else Ok (len buf, covered));
    stored ← ok_or (Config "pack object outside the bytes read") (slice buf 0 end_);
    entry ← read_entry stored pos;
    let link := mkLink (en_data entry) end_ (en_size entry) in
    let next (at_ : N) :=
      let deltas := deltas ++ [link] in
      if (MAX_DELTA_DEPTH <? len deltas)%N then Err (Config "delta chain deeper than 4095")
      else chain_links fuel p buf base_addr allow_ref deltas covered seen at_ in
    match en_base entry with
    | NoBase =>
      t ← from_code (en_t entry);
      Ok (mkLinks t link deltas (if allow_ref then covered else len buf))
    | Ofs rel => if (rel <=? at_)%N then next (at_ - rel)%N else Err (Config "OFS base before pack start")
    | Ref oid =>
      if negb allow_ref then Err (Config "REF_DELTA in a span read (pack is not self-contained/OFS-only)")
      else o ← ok_or NotFound (object p oid); next (po_offset o)
    end
  end.

Definition links_at (p : ParsedPack) (buf : list byte) (base_addr abs_off : N) (allow_ref : bool) : Result Links :=
  chain_links WALK_FUEL p buf base_addr allow_ref [] 0 ∅ abs_off.

Record ReadBudget := mkReadBudget { rb_step : N; rb_left : N }.

Definition budget_new (covered : N) : ReadBudget :=
  let step := sat_mul_u64 covered DEFLATE_MAX_RATIO in mkReadBudget step (sat_mul_u64 step CHAIN_BUILD_HEADROOM).
Definition next_step (b : ReadBudget) : N := N.min (rb_step b) (rb_left b).
Definition spend (b : ReadBudget) (n : N) : Result ReadBudget :=
  if (n <=? rb_left b)%N then Ok (mkReadBudget (rb_step b) (rb_left b - n)) else Err (Config "delta chain builds more than one read may").

Section decode.
(** [ZlibDecoder::new(c).take(limit).read_to_end]: what the stream [c] inflates to, up to [limit] bytes. *)
Context (zlib : list byte -> N -> Result (list byte)).

Definition inflate (compressed : list byte) (expected : N) : Result (list byte) :=
  let most := sat_add_u64 (sat_mul_u64 (len compressed) DEFLATE_MAX_RATIO) 64 in
  if (most <? expected)%N then Err (Config "object declares more bytes than its stream can inflate to") else
  out ← zlib compressed (sat_add_u64 expected 1);
  if negb (len out =? expected)%N then Err Integrity else Ok out.

Definition inflate_link (buf : list byte) (l : Link) : Result (list byte) :=
  c ← or_panic (slice buf (lk_start l) (lk_end l)); inflate c (lk_size l).

Fixpoint build_deltas (buf : list byte) (deltas : list Link) (data : list byte) (budget : ReadBudget) : Result (list byte) :=
  match deltas with
  | [] => Ok data
  | l :: deltas =>
  delta ← inflate_link buf l;
  data ← apply_delta data delta (next_step budget);
  budget ← spend budget (len data);
  build_deltas buf deltas data budget
  end.

Definition build (buf : list byte) (links : Links) (budget : ReadBudget) : Result (list byte) :=
  data ← inflate_link buf (ls_base links);
  budget ← spend budget (len data);
  build_deltas buf (rev (ls_deltas links)) data budget.

Definition decode_at (p : ParsedPack) (buf : list byte) (base_addr abs_off : N) (allow_ref : bool) : Result (GitObjType * list byte) :=
  links ← links_at p buf base_addr abs_off allow_ref;
  data ← build buf links (budget_new (ls_covered links));
  Ok (ls_obj_type links, data).

Definition object_bytes (p : ParsedPack) (oid : list byte) : Result (GitObjType * list byte) :=
  obj ← ok_or NotFound (object p oid);
  decode_at p (pp_pack_bytes p) 0 (po_offset obj) true.

Definition reconstruct_from_span (p : ParsedPack) (obj : PackObject) (span_slice : list byte) : Result (GitObjType * list byte) :=
  if negb (po_contiguous obj) then Err (Config "object chain is not contiguous; use the per-base walk") else
  base_addr ← ok_or (Config "span geometry out of range")
  (end_ ← checked_u64 (po_offset obj + po_length obj)%N;
  if (po_delta_chain_span obj <=? end_)%N then Some (end_ - po_delta_chain_span obj)%N else None);
  if negb (len span_slice =? po_delta_chain_span obj)%N then Err (Config "span slice length mismatch") else
  decode_at p span_slice base_addr (po_offset obj) false.
End decode.

(** ** The layout of a pack *)

Lemma index_map_foldl {K} `{Countable K} (l : list K) n (m : gmap K nat) k i :
  foldl (fun m p => <[p.2 := p.1]> m) m (imap (fun i x => (n + i, x)) l) !! k = Some i ->
  (n <= i /\ l !! (i - n) = Some k) \/ (m !! k = Some i /\ k ∉ l).
Proof.
  revert n m. induction l as [|x l IH]; intros n m; [by right; split; [|apply not_elem_of_nil]|].
  rewrite imap_cons. cbn [foldl fst snd]. rewrite Nat.add_0_r.
  rewrite (imap_ext _ (fun i x => (S n + i, x))) by (intros; simpl; f_equal; lia).
  intros [[Hi Hl]|[Hm Hk]]%IH.
  - left. split; [lia|]. by replace (i - n) with (S (i - S n)) by lia.
  - destruct (decide (k = x)) as [->|Hx].
    + rewrite lookup_insert_eq in Hm. injection Hm as <-. left. rewrite Nat.sub_diag. by split.
    + rewrite lookup_insert_ne in Hm by done. right. split; [done|]. by apply not_elem_of_cons.
Qed.

Lemma index_map_Some {K} `{Countable K} (l : list K) k i : index_map l !! k = Some i -> l !! i = Some k.
Proof.
  unfold index_map. intros Hi. destruct (index_map_foldl l 0 ∅ k i Hi) as [[_ Hl]|[Hm _]]; [|by rewrite lookup_empty in Hm].
  by rewrite Nat.sub_0_r in Hl.
Qed.

Lemma index_map_foldl_keep {K} `{Countable K} (l : list K) n (m : gmap K nat) k :
  is_Some (m !! k) \/ k ∈ l -> is_Some (foldl (fun m p => <[p.2 := p.1]> m) m (imap (fun i x => (n + i, x)) l) !! k).
Proof.
  revert n m. induction l as [|x l IH]; intros n m; [by intros [?|?%elem_of_nil]|].
  rewrite imap_cons. cbn [foldl fst snd]. rewrite (imap_ext _ (fun i x => (S n + i, x))) by (intros; simpl; f_equal; lia).
  intros Hk. apply IH. destruct (decide (k = x)) as [->|Hx]; [left; by rewrite lookup_insert_eq|].
  rewrite lookup_insert_ne by done. destruct Hk as [|[]%elem_of_cons]; [by left|done|by right].
Qed.

Lemma index_map_NoDup {K} `{Countable K} (l : list K) k i : NoDup l -> index_map l !! k = Some i <-> l !! i = Some k.
Proof.
  intros Hnd. split; [apply index_map_Some|]. intros Hi. destruct (index_map_foldl_keep l 0 ∅ k) as [j Hj].
  { right. by eapply list_elem_of_lookup_2. }
  assert (index_map l !! k = Some j) as Hj' by exact Hj. rewrite Hj'. f_equal.
  apply index_map_Some in Hj'. by eapply NoDup_lookup.
Qed.

Section order.
Context (offsets : list N).

Lemma offset_order_perm : offset_order offsets ≡ₚ seq 0 (length offsets).
Proof. apply sort_by_perm. Qed.

Lemma elem_of_offset_order i : i ∈ offset_order offsets <-> i < length offsets.
Proof. rewrite offset_order_perm, elem_of_seq. lia. Qed.

Lemma strictly_sorted order :
  StronglySorted (fun i j => cmp_on (fun i => offsets !!! i) N.compare i j <> Gt) order -> shares_offset offsets order = false ->
  StronglySorted (fun i j => offsets !!! i < offsets !!! j)%N order.
Proof.
  induction order as [|i order IH]; intros Hs Hd; [constructor|]. inversion Hs as [|? ? Hs' Hi]; subst.
  destruct order as [|j order]; [by repeat constructor|]. cbn [shares_offset] in Hd. apply orb_false_iff in Hd as [Hij Hd].
  apply N.eqb_neq in Hij. specialize (IH Hs' Hd). constructor; [done|]. inversion Hi as [|? ? Hle _]; subst.
  assert (offsets !!! i <= offsets !!! j)%N as Hle' by exact Hle.
  assert (offsets !!! i < offsets !!! j)%N as Hlt by lia.
  constructor; [done|]. inversion IH as [|? ? _ Hj]; subst. eapply Forall_impl; [exact Hj|]. simpl. lia.
Qed.

Lemma gaps_Ok trailer_at order gs :
  StronglySorted (fun i j => offsets !!! i < offsets !!! j)%N order -> gaps offsets trailer_at order = Ok gs ->
  gs.*1 = order /\ forall i g, (i, g) ∈ gs ->
  (offsets !!! i + g <= trailer_at)%N /\ (forall j, j ∈ order -> offsets !!! i < offsets !!! j -> offsets !!! i + g <= offsets !!! j)%N
  /\ (offsets !!! i + g = trailer_at \/ exists j, j ∈ order /\ offsets !!! i + g = offsets !!! j)%N.
Proof.
  revert gs. induction order as [|i order IH]; intros gs Hs; cbn [gaps].
  { intros [= <-]. split; [done|]. by intros i g ?%elem_of_nil. }
  inversion Hs as [|? ? Hs' Hi]; subst. intros H. apply bind_Ok in H as (g & Hg & H). apply bind_Ok in H as (gs' & Hgs & [= <-]).
  destruct (IH gs' Hs' Hgs) as [Hfst Hall]. split; [by rewrite fmap_cons, Hfst|].
  assert (forall j, j ∈ order -> offsets !!! j <= trailer_at)%N as Hbound.
  { intros j Hj. rewrite <-Hfst in Hj. apply list_elem_of_fmap in Hj as ((j' & gj) & -> & Hj). apply Hall in Hj as (Hj & _). simpl. lia. }
  intros k gk Hk. apply elem_of_cons in Hk as [[= -> ->]|Hk].
  - destruct order as [|j order].
    + destruct (N.leb_spec (offsets !!! i) trailer_at); [|done]. injection Hg as <-. split_and!; [lia| |left; lia].
      intros j Hj Hlt. apply list_elem_of_singleton in Hj as ->. lia.
    + inversion Hi as [|? ? Hij Hrest]; subst. destruct (N.leb_spec (offsets !!! i) (offsets !!! j)); [|done]. injection Hg as <-.
      pose proof (Hbound j ltac:(apply list_elem_of_here)). split_and!; [lia| |].
      * intros k Hk Hlt. inversion Hs' as [|? ? _ Hj]; subst. rewrite !elem_of_cons in Hk. destruct Hk as [->|[->|Hk]]; [lia..|].
        rewrite Forall_forall in Hj. specialize (Hj _ Hk). simpl in Hj. lia.
      * right. exists j. split; [by apply elem_of_cons; right; apply list_elem_of_here|lia].
  - destruct (Hall _ _ Hk) as (H1 & H2 & H3). split_and!; [done| |].
    + intros j Hj Hlt. apply elem_of_cons in Hj as [->|Hj]; [|by apply H2].
      assert (k ∈ order) as Hko by (rewrite <-Hfst; apply list_elem_of_fmap; by exists (k, gk)).
      rewrite Forall_forall in Hi. specialize (Hi _ Hko). simpl in Hi. lia.
    + destruct H3 as [H3|(j & Hj & H3)]; [by left|]. right. exists j. split; [by apply elem_of_cons; right|done].
Qed.
End order.

Lemma lengths_of_lookup n gs i g : NoDup gs.*1 -> (forall p, p ∈ gs -> p.1 < n) -> (i, g) ∈ gs -> lengths_of n gs !! i = Some g.
Proof.
  unfold lengths_of. assert (forall l : list N, length l = n -> NoDup gs.*1 -> (forall p, p ∈ gs -> p.1 < n) ->
    ((i, g) ∈ gs \/ ((i ∉ gs.*1) /\ l !! i = Some g)) -> foldl (fun l p => <[p.1 := p.2]> l) l gs !! i = Some g) as H.
  { induction gs as [|[j gj] gs IH]; intros l Hl Hnd Hlt Hi; cbn [foldl].
    - destruct Hi as [Hi|[_ Hi]]; [by apply elem_of_nil in Hi|done].
    - simpl in Hnd. apply NoDup_cons in Hnd as [Hj Hnd]. apply IH; [by rewrite length_insert|done|intros p Hp; apply Hlt; by right|].
      cbn [fst snd]. rewrite elem_of_cons in Hi. simpl in Hi. rewrite not_elem_of_cons in Hi.
      destruct Hi as [[[= -> ->]|Hi]|[[Hij Hi] Hli]]; [|by left|].
      + right. split; [done|]. apply list_lookup_insert_eq. rewrite Hl. by apply (Hlt (j, gj)), list_elem_of_here.
      + right. split; [done|]. by rewrite list_lookup_insert_ne. }
  intros Hnd Hlt Hi. apply H; [apply length_replicate|done..|by left].
Qed.

(** *** What parsing establishes *)

Lemma length_indices n : length (indices n) = N.to_nat n.
Proof. unfold indices. by rewrite length_map, length_seq. Qed.

Lemma read_u32_lt buf at_ n : read_u32 buf at_ = Ok n -> (n < 2 ^ 32)%N.
Proof.
  unfold read_u32. intros (s & Hs%ok_or_Ok & [= <-])%bind_Ok. eapply N.lt_le_trans; [apply from_be_lt|].
  change (2 ^ 32)%N with (256 ^ 4)%N. apply N.pow_le_mono_r; [done|]. apply slice_len in Hs. rewrite Hs. unfold sat_add_u64. lia.
Qed.

Lemma parse_idx_v2_lengths idx oids offsets : parse_idx_v2 idx = Ok (oids, offsets) ->
  length oids = length offsets /\ Forall (fun o => len o = OID_LEN) oids /\ (len oids < 2 ^ 32)%N.
Proof.
  unfold parse_idx_v2. intros H. destruct (_ || _); [done|]. apply bind_Ok in H as (v & _ & H). destruct (negb _); [done|].
  cbv zeta in H. apply bind_Ok in H as (n & Hn%read_u32_lt & H). destruct (_ <? _)%N; [done|]. apply bind_Ok in H as (words & _ & H).
  destruct (negb _); [done|]. apply bind_Ok in H as (oids' & Ho%mapM_Ok & H). apply bind_Ok in H as (offs & Hf%mapM_Ok & [= <- <-]).
  split_and!; [by rewrite <-(Forall2_length _ _ _ Ho), <-(Forall2_length _ _ _ Hf)| |].
  - apply Forall_lookup. intros i o Hi. destruct (Forall2_lookup_r _ _ _ _ _ Ho Hi) as (k & _ & Hs%or_panic_Ok).
    apply slice_len in Hs. rewrite Hs. lia.
  - unfold len. rewrite <-(Forall2_length _ _ _ Ho), length_indices. lia.
Qed.

(** An offset delta's chain as the pack stores it, from its type, hops and lowest offset. *)
Inductive stored_chain (p : ParsedPack) : N -> N -> N -> N -> Prop :=
  | stored_base at_ e : is_Some (pp_at_offset p !! at_) -> read_entry (pp_pack_bytes p) at_ = Ok e -> en_base e = NoBase ->
      stored_chain p at_ (en_t e) 0 at_
  | stored_delta at_ e rel t d m : is_Some (pp_at_offset p !! at_) -> read_entry (pp_pack_bytes p) at_ = Ok e ->
      en_base e = Ofs rel -> (rel <= at_)%N -> (at_ - rel < at_)%N -> stored_chain p (at_ - rel) t d m ->
      stored_chain p at_ t (d + 1) (N.min at_ m).

Definition self_contained (p : ParsedPack) : Prop := forall o, o ∈ pp_objects p -> po_is_ref_delta o = false.

(** The geometry of a parsed pack: objects are found by their offsets, lie one after another
    up to the trailer, and a contiguous chain of offset deltas lies in the object's span. *)
Record geometry (p : ParsedPack) : Prop := {
  geo_oid o : o ∈ pp_objects p -> len (po_oid o) = OID_LEN;
  geo_count : (len (pp_objects p) < 2 ^ 32)%N;
  geo_at x i : pp_at_offset p !! x = Some i <-> exists o, pp_objects p !! i = Some o /\ po_offset o = x;
  geo_end o : o ∈ pp_objects p -> (po_offset o + po_length o + PACK_TRAILER <= len (pp_pack_bytes p))%N;
  geo_apart a b : a ∈ pp_objects p -> b ∈ pp_objects p -> (po_offset a < po_offset b)%N ->
    (po_offset a + po_length a <= po_offset b)%N;
  geo_tile a : a ∈ pp_objects p ->
    (po_offset a + po_length a + PACK_TRAILER = len (pp_pack_bytes p))%N
    \/ exists b, b ∈ pp_objects p /\ po_offset b = (po_offset a + po_length a)%N;
  geo_chain o : o ∈ pp_objects p -> self_contained p -> po_contiguous o = true ->
    exists t m, stored_chain p (po_offset o) t (po_delta_depth o) m /\ (m <= po_offset o)%N
      /\ po_delta_chain_span o = (po_offset o + po_length o - m)%N /\ from_code t = Ok (po_obj_type o);
}.

Lemma pack_object_Ok oid off l is_ref c o : pack_object oid off l is_ref c = Ok o ->
  po_oid o = oid /\ po_offset o = off /\ po_length o = l /\ po_is_ref_delta o = is_ref /\ po_contiguous o = ch_contiguous c
  /\ po_delta_depth o = ch_depth c /\ from_code (ch_root c) = Ok (po_obj_type o)
  /\ po_delta_chain_span o = (if ch_contiguous c then off + l - ch_min_off c else l)%N.
Proof. unfold pack_object. intros (t & Ht & [= <-])%bind_Ok. by split_and!. Qed.

Section parsed.
Context (pack : list byte) (oids : list (list byte)) (offsets : list N) (rows : list (N * option N * bool))
  (gs : list (nat * N)) (chains : list Chain) (objects : list PackObject).
Let raw : list N := map (fun r : N * option N * bool => r.1.1) rows.
Let base : list (option N) := map (fun r : N * option N * bool => r.1.2) rows.
Let is_ref : list bool := map snd rows.
Context (Hlen : length oids = length offsets) (Hoids : Forall (fun o => len o = OID_LEN) oids) (Hcount : (len oids < 2 ^ 32)%N)
  (Hpack : (PACK_TRAILER <= len pack)%N)
  (Hshare : shares_offset offsets (offset_order offsets) = false)
  (Hgs : gaps offsets (len pack - PACK_TRAILER)%N (offset_order offsets) = Ok gs)
  (Hrows : Forall2 (fun off r => entry_row pack offsets (index_map oids) off = Ok r) offsets rows)
  (Hchains : resolve_chains offsets raw base (index_map offsets) (offset_order offsets) = Ok chains)
  (Hobjs : Forall2 (fun p o => pack_object (oids !!! p.1) (offsets !!! p.1) (lengths_of (length oids) gs !!! p.1)
  (is_ref !!! p.1) p.2 = Ok o) (imap pair chains) objects).

Lemma parsed_sorted : StronglySorted (fun i j => offsets !!! i < offsets !!! j)%N (offset_order offsets).
Proof. apply strictly_sorted; [apply sort_by_sorted, _|done]. Qed.

Lemma parsed_distinct : NoDup offsets.
Proof.
  apply NoDup_alt. intros i j x Hi Hj. destruct (decide (i = j)) as [|Hij]; [done|exfalso].
  assert (forall l, StronglySorted (fun i j => offsets !!! i < offsets !!! j)%N l -> forall a b, a ∈ l -> b ∈ l -> a <> b ->
    offsets !!! a <> offsets !!! b) as Hne.
  { induction 1 as [|c l Hs IH Hall]; [by intros a b ?%elem_of_nil|]. rewrite Forall_forall in Hall.
    intros a b Ha Hb Hab. rewrite elem_of_cons in Ha, Hb.
    destruct Ha as [->|Ha], Hb as [->|Hb]; [done|specialize (Hall _ Hb); lia|specialize (Hall _ Ha); lia|by apply IH]. }
  apply (Hne _ parsed_sorted i j); [apply elem_of_offset_order; by eapply lookup_lt_Some..|done|].
  by rewrite (list_lookup_total_correct _ _ _ Hi), (list_lookup_total_correct _ _ _ Hj).
Qed.

Lemma parsed_at x i : index_map offsets !! x = Some i <-> offsets !! i = Some x.
Proof. apply index_map_NoDup, parsed_distinct. Qed.

Lemma parsed_chains : length chains = length offsets
  /\ forall i c, chains !! i = Some c -> chain_of offsets raw base (index_map offsets) i c.
Proof.
  assert (length rows = length offsets) as Hr by (by rewrite <-(Forall2_length _ _ _ Hrows)).
  destruct (resolve_chains_cases offsets raw base (index_map offsets)
    ltac:(unfold raw; by rewrite length_map) ltac:(unfold base; by rewrite length_map)
    ltac:(intros b i Hi; apply parsed_at in Hi; by eapply lookup_lt_Some) (offset_order offsets) (elem_of_offset_order offsets))
    as [(ch & Heq & Hl & Hc)|[Heq _]]; [|congruence].
  assert (ch = chains) as -> by congruence. split; [done|]. intros i c Hi. by apply Hc.
Qed.

Lemma parsed_object i o : objects !! i = Some o ->
  exists c r, chains !! i = Some c /\ rows !! i = Some r /\ offsets !! i = Some (po_offset o) /\ (i, po_length o) ∈ gs
  /\ pack_object (oids !!! i) (po_offset o) (po_length o) r.2 c = Ok o.
Proof.
  intros Hi. destruct (Forall2_lookup_r _ _ _ _ _ Hobjs Hi) as ([j c] & Hc & Ho). rewrite list_lookup_imap in Hc.
  destruct (chains !! i) as [c'|] eqn:Hci; simpl in Hc; [|done]. injection Hc as <- ->. cbn [fst snd] in Ho.
  pose proof (lookup_lt_Some _ _ _ Hci) as Hin. rewrite (proj1 parsed_chains) in Hin.
  destruct (lookup_lt_is_Some_2 offsets i Hin) as [off Hoff].
  destruct (Forall2_lookup_l _ _ _ _ _ Hrows Hoff) as (r & Hr & _).
  assert (i ∈ gs.*1) as Hig.
  { rewrite (proj1 (gaps_Ok _ _ _ _ parsed_sorted Hgs)). by apply elem_of_offset_order. }
  apply list_elem_of_fmap in Hig as ([k g] & Hk & Hg). cbn [fst] in Hk. subst k.
  rewrite (list_lookup_total_correct _ _ _ Hoff), (list_lookup_total_correct (lengths_of _ _) i g) in Ho.
  - unfold is_ref in Ho. rewrite (list_lookup_total_correct _ i r.2) in Ho by (by rewrite list_lookup_fmap, Hr).
    exists c, r. pose proof (pack_object_Ok _ _ _ _ _ _ Ho) as (_ & -> & -> & _). by split_and!.
  - apply lengths_of_lookup; [|intros [k gk] Hk|done].
    + rewrite (proj1 (gaps_Ok _ _ _ _ parsed_sorted Hgs)), offset_order_perm. apply NoDup_seq.
    + rewrite Hlen. apply elem_of_offset_order. rewrite <-(proj1 (gaps_Ok _ _ _ _ parsed_sorted Hgs)).
      apply list_elem_of_fmap. by exists (k, gk).
Qed.

Lemma parsed_objects i off : offsets !! i = Some off -> exists o, objects !! i = Some o /\ po_offset o = off.
Proof.
  intros Hi. assert (length objects = length offsets) as Hl.
  { rewrite <-(Forall2_length _ _ _ Hobjs), length_imap. apply parsed_chains. }
  destruct (lookup_lt_is_Some_2 objects i) as [o Ho]; [rewrite Hl; by eapply lookup_lt_Some|]. exists o. split; [done|].
  destruct (parsed_object i o Ho) as (c & r & _ & _ & Hoff & _). congruence.
Qed.

(** The gap of an object, in terms of the objects. *)
Lemma parsed_gap i o : objects !! i = Some o ->
  (po_offset o + po_length o + PACK_TRAILER <= len pack)%N
  /\ (forall j b, objects !! j = Some b -> po_offset o < po_offset b -> po_offset o + po_length o <= po_offset b)%N
  /\ (po_offset o + po_length o + PACK_TRAILER = len pack \/ exists b, b ∈ objects /\ po_offset b = po_offset o + po_length o)%N.
Proof.
  intros Hi. destruct (parsed_object i o Hi) as (c & r & _ & _ & Hoff & Hg & _).
  destruct (proj2 (gaps_Ok _ _ _ _ parsed_sorted Hgs) _ _ Hg) as (Hend & Hapart & Htile).
  rewrite (list_lookup_total_correct _ _ _ Hoff) in *. split_and!; [lia| |].
  - intros j b Hj Hlt. destruct (parsed_object j b Hj) as (c' & r' & _ & _ & Hoffb & _).
    specialize (Hapart j). rewrite (list_lookup_total_correct _ _ _ Hoffb) in Hapart. apply Hapart; [|done].
    apply elem_of_offset_order. by eapply lookup_lt_Some.
  - destruct Htile as [Ht|(j & Hj & Ht)]; [left; lia|right]. apply elem_of_offset_order in Hj.
    destruct (lookup_lt_is_Some_2 offsets j Hj) as [off Ho]. destruct (parsed_objects j off Ho) as (b & Hb & Hboff).
    exists b. split; [by eapply list_elem_of_lookup_2|]. rewrite (list_lookup_total_correct _ _ _ Ho) in Ht. congruence.
Qed.

Let bases : list (option nat) := map (fun off : option N => o ← off; index_map offsets !! o) base.
Context (hash : list byte).
Let p : ParsedPack := mkParsedPack pack hash objects (index_map oids) (index_map offsets) bases.

(** What an object that is not a reference delta stores. *)
Lemma parsed_entry i o : objects !! i = Some o -> po_is_ref_delta o = false ->
  exists e, read_entry pack (po_offset o) = Ok e /\ raw !! i = Some (en_t e)
  /\ match en_base e with
   | NoBase => base !! i = Some None
   | Ofs rel => (rel <= po_offset o)%N /\ base !! i = Some (Some (po_offset o - rel)%N)
   | Ref _ => False
   end.
Proof.
  intros Hi Hself. destruct (parsed_object i o Hi) as (c & r & _ & Hr & Hoff & _ & Ho).
  pose proof (Forall2_lookup_lr _ _ _ _ _ _ Hrows Hoff Hr) as Hrow. unfold raw, base. rewrite !list_lookup_fmap, Hr. simpl.
  assert (r.2 = false) as Hr2.
  { apply pack_object_Ok in Ho as (_ & _ & _ & <- & _). done. }
  unfold entry_row in Hrow. apply bind_Ok in Hrow as (e & He & Hrow). exists e. split; [done|].
  destruct (en_base e) as [|rel|oid].
  - by injection Hrow as <-.
  - destruct (N.leb_spec rel (po_offset o)); [|done]. by injection Hrow as <-.
  - injection Hrow as <-. done.
Qed.

Lemma parsed_chain i c o : chain_of offsets raw base (index_map offsets) i c -> objects !! i = Some o ->
  self_contained p -> ch_contiguous c = true ->
  stored_chain p (po_offset o) (ch_root c) (ch_depth c) (ch_min_off c) /\ (ch_min_off c <= po_offset o)%N.
Proof.
  intros Hc. revert o. induction Hc as [i t x Hb Ht Hx| |i b next x c Hb Ha Hx Hc IH]; intros obj Hi Hself Hcont; simpl in Hcont; [|done|];
    (destruct (parsed_entry i obj Hi) as (e & He & Hraw & Hbase); [by apply Hself; eapply list_elem_of_lookup_2|]);
    (destruct (parsed_object i obj Hi) as (_ & _ & _ & _ & Hoff & _)); assert (po_offset obj = x) as <- by congruence;
    (assert (is_Some (pp_at_offset p !! po_offset obj)) as Hat by (exists i; by apply parsed_at)); cbn [ch_root ch_depth ch_min_off].
  - split; [|done]. destruct (en_base e) as [|rel|] eqn:Heb; [|destruct Hbase; congruence|done].
    assert (t = en_t e) as -> by congruence. by eapply stored_base.
  - apply andb_true_iff in Hcont as [Hcont Hlt]. apply N.ltb_lt in Hlt.
    destruct (en_base e) as [|rel|] eqn:Heb; [congruence| |done]. destruct Hbase as [Hrel Hbase].
    assert (po_offset obj - rel = b)%N as Hbo by congruence. apply parsed_at in Ha.
    destruct (parsed_objects next b Ha) as (o' & Ho' & Heq). destruct (IH o' Ho' Hself Hcont) as [Hst Hmin].
    split; [|lia]. rewrite Heq in Hst. eapply stored_delta; rewrite ?Hbo; try done.
Qed.

Lemma parsed_geometry : geometry p.
Proof.
  assert (forall o, o ∈ objects -> exists i, objects !! i = Some o) as Hmem by (intros o Ho; by apply list_elem_of_lookup_1).
  split; cbn [p pp_objects pp_at_offset pp_pack_bytes].
  - intros o [i Hi]%Hmem. destruct (parsed_object i o Hi) as (c & r & _ & _ & Hoff & _ & Ho). apply pack_object_Ok in Ho as (-> & _).
    apply lookup_lt_Some in Hoff. destruct (lookup_lt_is_Some_2 oids i) as [oid Hoid]; [lia|].
    rewrite (list_lookup_total_correct _ _ _ Hoid). rewrite Forall_forall in Hoids. apply Hoids. by eapply list_elem_of_lookup_2.
  - unfold len. rewrite <-(Forall2_length _ _ _ Hobjs), length_imap, (proj1 parsed_chains), <-Hlen. exact Hcount.
  - intros x i. rewrite parsed_at. split; [intros Hi; by apply parsed_objects|].
    intros (o & Ho & <-). by destruct (parsed_object i o Ho) as (? & ? & ? & ? & ? & ?).
  - intros o [i Hi]%Hmem. apply (parsed_gap i o Hi).
  - intros a b [i Hi]%Hmem [j Hj]%Hmem. by apply (proj1 (proj2 (parsed_gap i a Hi)) j b).
  - intros a [i Hi]%Hmem. apply (parsed_gap i a Hi).
  - intros o [i Hi]%Hmem Hself Hcont. destruct (parsed_object i o Hi) as (c & r & Hc & Hr & _ & _ & Ho).
    apply pack_object_Ok in Ho as (_ & _ & _ & _ & Hcc & Hd & Ht & Hspan). rewrite Hcont in Hcc. rewrite <-Hcc in Hspan.
    destruct (parsed_chain i c _ (proj2 parsed_chains i c Hc) Hi Hself (eq_sym Hcc)) as [Hst Hmin].
    exists (ch_root c), (ch_min_off c). rewrite Hd. by split_and!.
Qed.
End parsed.

Lemma parse_geometry sha256 pack idx p : parse sha256 pack idx = Ok p -> geometry p /\ pp_pack_bytes p = pack.
Proof.
  unfold parse. intros H. apply bind_Ok in H as ([oids offsets] & Hidx & H). apply parse_idx_v2_lengths in Hidx as (Hlen & Hoids & Hcount).
  cbv zeta in H. destruct (N.ltb_spec (len pack) PACK_TRAILER) as [|Htr]; [done|].
  destruct (shares_offset offsets (offset_order offsets)) eqn:Hshare; [done|].
  apply bind_Ok in H as (gs & Hgs & H). apply bind_Ok in H as (rows & Hrows%mapM_Ok & H).
  apply bind_Ok in H as (chains & Hchains & H). apply bind_Ok in H as (objects & Hobjs%mapM_Ok & [= <-]).
  split; [|done]. by eapply parsed_geometry.
Qed.

(** ** One span read gives what the whole pack gives *)

Lemma read_entry_shift buf pos buf' pos' more e :
  drop (N.to_nat pos') buf' = drop (N.to_nat pos) buf ++ more -> read_entry buf pos = Ok e ->
  (pos <= en_data e)%N /\ read_entry buf' pos' = Ok (mkEntry (en_t e) (en_size e) (pos' + (en_data e - pos)) (en_base e)).
Proof.
  intros Hd (hs & rest & Heq & (h & bs & -> & Hh & Hdata & Hb))%read_entry_Ok. split; [lia|]. apply read_entry_Ok.
  exists (h ++ bs), (rest ++ more). split; [by rewrite Hd, Heq, app_assoc|]. exists h, bs. split_and!; simpl; try done. lia.
Qed.

Lemma slice_0 {A} (buf : list A) e l : slice buf 0 e = Some l <-> (e <= len buf)%N /\ l = take (N.to_nat e) buf.
Proof.
  rewrite slice_Some, N.sub_0_r. simpl. rewrite drop_0. split; [tauto|]. intros [? ->]. split_and!; [lia|done..].
Qed.

Lemma take_split {A} (l : list A) n m : n <= m -> take m l = take n l ++ take (m - n) (drop n l).
Proof. intros H. rewrite <-(take_drop n (take m l)), take_take, Nat.min_l, skipn_firstn_comm by done. done. Qed.

Section spans.
Context (zlib : list byte -> N -> Result (list byte)).
(** zlib stops at the end of a stream: what follows one that ends within the limit does not
matter. [u64::MAX] is no limit. *)
Context (zlib_trailing : forall c extra limit out, zlib c limit = Ok out -> (len out < limit \/ limit = u64_max)%N ->
  zlib (c ++ extra) limit = Ok out).

Lemma inflate_app c extra n out : inflate zlib c n = Ok out -> inflate zlib (c ++ extra) n = Ok out.
Proof.
  unfold inflate. cbv zeta. destruct (N.ltb_spec (sat_add_u64 (sat_mul_u64 (len c) DEFLATE_MAX_RATIO) 64) n) as [|Hn]; [done|].
  intros (out' & Hz & H)%bind_Ok. destruct (N.eqb_spec (len out') n) as [Hl|]; [|done]. injection H as ->.
  rewrite (proj2 (N.ltb_ge _ _)).
  - rewrite (zlib_trailing _ extra _ _ Hz); [simpl; by rewrite Hl, N.eqb_refl|]. rewrite Hl. unfold sat_add_u64 in *. lia.
  - etrans; [exact Hn|]. rewrite len_app. unfold sat_add_u64, sat_mul_u64, DEFLATE_MAX_RATIO. lia.
Qed.

Context (pack span : list byte).

(** A link into the span, with at least the bytes of the one into the pack. *)
Definition link_sim (l l' : Link) : Prop :=
  lk_size l = lk_size l' /\ forall c, slice pack (lk_start l) (lk_end l) = Some c ->
  exists extra, slice span (lk_start l') (lk_end l') = Some (c ++ extra).

Lemma inflate_link_sim l l' d : link_sim l l' -> inflate_link zlib pack l = Ok d -> inflate_link zlib span l' = Ok d.
Proof.
  intros [Hs Hc] (c & Hsl%or_panic_Ok & Hi)%bind_Ok. destruct (Hc c Hsl) as [extra Hsl'].
  unfold inflate_link. rewrite Hsl'. simpl. rewrite <-Hs. by apply inflate_app.
Qed.

Definition budget_le (b b' : ReadBudget) : Prop := (rb_step b <= rb_step b' /\ rb_left b <= rb_left b')%N.

Lemma spend_le b b' n b1 : budget_le b b' -> spend b n = Ok b1 -> exists b1', spend b' n = Ok b1' /\ budget_le b1 b1'.
Proof.
  unfold spend, budget_le. intros [Hs Hl]. destruct (N.leb_spec n (rb_left b)); [|done]. intros [= <-].
  rewrite (proj2 (N.leb_le _ _)) by lia. eexists. split; [done|]. simpl. lia.
Qed.

Lemma apply_delta_mono base delta b b' out : (b <= b')%N -> apply_delta base delta b = Ok out -> apply_delta base delta b' = Ok out.
Proof. intros Hb. rewrite !apply_delta_Ok. intros (s & d & ops & ? & ? & ? & ? & ?). exists s, d, ops. split_and!; [done..|lia|done]. Qed.

Lemma build_deltas_sim ls ls' data b b' out : Forall2 link_sim ls ls' -> budget_le b b' ->
  build_deltas zlib pack ls data b = Ok out -> build_deltas zlib span ls' data b' = Ok out.
Proof.
  intros Hl. revert data b b'. induction Hl as [|l l' ls ls' Hl _ IH]; intros data b b' Hb; cbn [build_deltas]; [done|].
  intros (d & Hd & H)%bind_Ok. apply bind_Ok in H as (data' & Ha & H). apply bind_Ok in H as (b1 & Hs & H).
  rewrite (inflate_link_sim _ _ _ Hl Hd). cbn [mbind Result_bind].
  rewrite (apply_delta_mono _ _ (next_step b) (next_step b') _) by (done || unfold next_step, budget_le in *; lia). cbn [mbind Result_bind].
  destruct (spend_le _ _ _ _ Hb Hs) as (b1' & -> & Hb1). cbn [mbind Result_bind]. by apply IH with b1.
Qed.

Lemma build_sim ls ls' b b' out : link_sim (ls_base ls) (ls_base ls') -> Forall2 link_sim (ls_deltas ls) (ls_deltas ls') ->
  budget_le b b' -> build zlib pack ls b = Ok out -> build zlib span ls' b' = Ok out.
Proof.
  intros Hbase Hds Hb (d & Hd & H)%bind_Ok. apply bind_Ok in H as (b1 & Hs & H). unfold build.
  rewrite (inflate_link_sim _ _ _ Hbase Hd). cbn [mbind Result_bind].
  destruct (spend_le _ _ _ _ Hb Hs) as (b1' & -> & Hb1). cbn [mbind Result_bind].
  by eapply build_deltas_sim; [apply Forall2_rev_both|..].
Qed.

Lemma budget_new_le c c' : (c <= c')%N -> budget_le (budget_new c) (budget_new c').
Proof. intros H. unfold budget_le, budget_new, sat_mul_u64, DEFLATE_MAX_RATIO, CHAIN_BUILD_HEADROOM. simpl. lia. Qed.

Section chain.
Context (p : ParsedPack) (Hgeo : geometry p) (Hself : self_contained p) (Hbytes : pp_pack_bytes p = pack).
Context (S_ E_ : N) (HSE : (S_ <= E_)%N) (HE : (E_ <= len pack)%N) (Hspan : slice pack S_ E_ = Some span).

Lemma extent_Ok at_ s e : extent p at_ = Ok (s, e) ->
  exists o, o ∈ pp_objects p /\ po_offset o = at_ /\ s = at_ /\ e = (at_ + po_length o)%N /\ (e <= len pack)%N
  /\ (e <= u64_max)%N.
Proof.
  unfold extent. intros (o & Ho%ok_or_Ok & H)%bind_Ok. apply bind_Some in Ho as (i & Hi & Ho).
  apply Hgeo in Hi as (o' & Ho' & Hoff). assert (o' = o) as -> by congruence. cbv zeta in H.
  unfold checked_u64 in H. destruct (N.leb_spec (po_offset o + po_length o) u64_max); simpl in H; [|done]. rewrite Hbytes in H.
  destruct (N.leb_spec (po_offset o + po_length o) (len pack)); [|done]. destruct (N.leb_spec (po_offset o) (po_offset o + po_length o)); [|done].
  injection H as <- <-. exists o. split_and!; [by eapply list_elem_of_lookup_2|congruence..|done|done].
Qed.

(** What follows a position in the span is what follows it in the pack, up to the span's end. *)
Lemma span_drop at_ e : (S_ <= at_)%N -> (at_ <= e)%N -> (e <= E_)%N ->
  exists more, drop (N.to_nat (at_ - S_)) span = drop (N.to_nat at_) (take (N.to_nat e) pack) ++ more.
Proof.
  intros Hs He HeE. apply slice_Some in Hspan as (_ & _ & ->). rewrite firstn_skipn_comm, drop_drop, (N2Nat.inj_sub at_).
  replace (N.to_nat S_ + (N.to_nat at_ - N.to_nat S_)) with (N.to_nat at_) by lia.
  replace (N.to_nat S_ + N.to_nat (E_ - S_)) with (N.to_nat E_) by lia.
  rewrite (take_split pack (N.to_nat e) (N.to_nat E_)) by lia.
  destruct (Nat.le_gt_cases (N.to_nat at_) (length (take (N.to_nat e) pack))) as [Hl|Hl].
  - rewrite drop_app_le by done. by eexists.
  - rewrite length_take_le in Hl by (unfold len in HE; lia). lia.
Qed.

Lemma span_link at_ e start size : (S_ <= at_)%N -> (at_ <= start)%N -> (e <= E_)%N ->
  link_sim (mkLink start e size) (mkLink (at_ - S_ + (start - at_)) (len span) size).
Proof.
  intros Hs Hst He. split; [done|]. cbn [lk_start lk_end]. intros c Hc. pose proof Hc as (Hse & _ & ->)%slice_Some.
  destruct (span_drop start e ltac:(lia) Hse He) as [more Hd].
  replace (at_ - S_ + (start - at_))%N with (start - S_)%N by lia. exists more. apply slice_Some.
  pose proof (slice_len _ _ _ _ Hspan) as Hl. split_and!; [lia|done|].
  rewrite firstn_skipn_comm, <-(N2Nat.inj_add start), N.add_comm, N.sub_add by done. rewrite <-Hd.
  symmetry. apply firstn_all2. rewrite length_drop. unfold len. lia.
Qed.

Lemma chain_links_sim fuel at_ t d m deltas deltas' cov seen ls :
  stored_chain p at_ t d m -> (S_ <= m)%N ->
  (forall o, o ∈ pp_objects p -> po_offset o = at_ -> po_offset o + po_length o + cov <= E_)%N ->
  Forall2 link_sim deltas deltas' ->
  chain_links fuel p pack 0 true deltas cov seen at_ = Ok ls ->
  forall cov', exists ls', chain_links fuel p span S_ false deltas' cov' seen at_ = Ok ls'
  /\ ls_obj_type ls' = ls_obj_type ls /\ link_sim (ls_base ls) (ls_base ls')
  /\ Forall2 link_sim (ls_deltas ls) (ls_deltas ls') /\ (ls_covered ls <= ls_covered ls')%N.
Proof.
  revert at_ t d m deltas deltas' cov seen. induction fuel as [|fuel IH]; intros at_ t d m deltas deltas' cov seen Hst Hm Hcov Hds; [done|].
  cbn [chain_links]. destruct (bool_decide (at_ ∈ seen)); [done|]. cbn [N.leb N.compare].
  assert ((0 <=? at_)%N = true) as -> by (by apply N.leb_le, N.le_0_l). cbn [mbind Result_bind].
  intros ([e cov1] & Hext & H)%bind_Ok. apply bind_Ok in Hext as ([s e'] & He & [= -> <-]).
  apply extent_Ok in He as (o & Ho & Hoff & -> & -> & Hlen & _). specialize (Hcov o Ho Hoff). subst at_.
  apply bind_Ok in H as (stored & Hstored%ok_or_Ok & H). apply bind_Ok in H as (en & Hen & H).
  rewrite N.sub_0_r in Hen. apply slice_0 in Hstored as [_ ->].
  assert (read_entry pack (po_offset o) = Ok en) as Hfull.
  { assert (exists more, drop (N.to_nat (po_offset o)) pack
      = drop (N.to_nat (po_offset o)) (take (N.to_nat (po_offset o + po_length o)) pack) ++ more) as [more Hd].
    { exists (drop (N.to_nat (po_offset o + po_length o)) pack). rewrite <-drop_app_le, take_drop; [done|].
      rewrite length_take_le; unfold len in Hlen; lia. }
    destruct (read_entry_shift _ _ pack (po_offset o) more _ Hd Hen) as [Hle Hr]. rewrite Hr. f_equal. destruct en; simpl in *.
    f_equal. lia. }
  assert (S_ <= po_offset o)%N as HS by (inversion Hst; subst; lia).
  destruct (span_drop (po_offset o) (po_offset o + po_length o) HS ltac:(lia) ltac:(lia)) as [more Hd].
  destruct (read_entry_shift _ _ span (po_offset o - S_)%N more _ Hd Hen) as [Hdata Hspan_en].
  intros cov'. rewrite (proj2 (N.leb_le _ _) HS). cbn [mbind Result_bind].
  assert (slice span 0 (len span) = Some span) as ->.
  { apply slice_0. split; [done|]. unfold len. by rewrite Nat2N.id, firstn_all. }
  cbn [ok_or mbind Result_bind]. rewrite Hspan_en. cbn [mbind Result_bind en_base en_t en_size en_data].
  pose proof (span_link (po_offset o) (po_offset o + po_length o) (en_data en) (en_size en) HS Hdata ltac:(lia)) as Hlink.
  inversion Hst as [? e0 _ He0 Hb Hx|? e0 rel t0 d0 m0 _ He0 Hb Hrel Hlt Hst' Hx]; subst.
  - rewrite Hbytes, Hfull in He0. injection He0 as <-. rewrite Hb in H |- *. apply bind_Ok in H as (ty & Hty & [= <-]).
    rewrite Hty. simpl. eexists. split; [done|]. simpl. split_and!; [done..|].
    pose proof (slice_len _ _ _ _ Hspan). unfold sat_add_u64. lia.
  - rewrite Hbytes, Hfull in He0. injection He0 as <-. rewrite Hb in H |- *. rewrite (proj2 (N.leb_le _ _) Hrel) in H |- *.
    assert (len (deltas' ++ [mkLink (po_offset o - S_ + (en_data en - po_offset o)) (len span) (en_size en)])
      = len (deltas ++ [mkLink (en_data en) (po_offset o + po_length o) (en_size en)])) as ->.
    { rewrite !len_app. unfold len. by rewrite (Forall2_length _ _ _ Hds). }
    destruct (MAX_DELTA_DEPTH <? _)%N; [done|]. eapply IH; [done|lia| |apply Forall2_app; [done|by constructor]|done].
    intros b Hb' Hboff. pose proof (geo_apart p Hgeo b o Hb' Ho ltac:(lia)). unfold sat_add_u64. lia.
Qed.

(** The chain of an object whose span is [S_..E_], read from the span. *)
Lemma links_at_sim obj t d ls : obj ∈ pp_objects p -> (po_offset obj + po_length obj = E_)%N ->
  stored_chain p (po_offset obj) t d S_ -> links_at p pack 0 (po_offset obj) true = Ok ls ->
  exists ls', links_at p span S_ (po_offset obj) false = Ok ls' /\ ls_obj_type ls' = ls_obj_type ls
  /\ link_sim (ls_base ls) (ls_base ls') /\ Forall2 link_sim (ls_deltas ls) (ls_deltas ls')
  /\ budget_le (budget_new (ls_covered ls)) (budget_new (ls_covered ls')).
Proof.
  unfold links_at. generalize WALK_FUEL. intros fuel Ho HoE Hst Hls.
  destruct (chain_links_sim fuel (po_offset obj) t d S_ [] [] 0%N ∅ ls Hst) with (cov' := 0%N) as (ls' & ? & ? & ? & ? & ?);
    [done| |constructor|done|exists ls'; split_and!; [done..|by apply budget_new_le]].
  intros o Ho' Hoff. destruct (list_elem_of_lookup_1 _ _ Ho) as [i Hi], (list_elem_of_lookup_1 _ _ Ho') as [j Hj].
  assert (pp_at_offset p !! po_offset obj = Some i) by (apply (geo_at p Hgeo); by exists obj).
  assert (pp_at_offset p !! po_offset obj = Some j) by (apply (geo_at p Hgeo); by exists o). simplify_eq. lia.
Qed.
End chain.
End spans.

Lemma chain_links_extent fuel p buf deltas cov seen at_ ls :
  chain_links fuel p buf 0 true deltas cov seen at_ = Ok ls -> exists x, extent p at_ = Ok x.
Proof.
  destruct fuel as [|fuel]; [done|]. cbn [chain_links]. destruct (bool_decide _); [done|].
  rewrite (proj2 (N.leb_le 0 _)) by apply N.le_0_l. cbn [mbind Result_bind].
  intros (ec & He & _)%bind_Ok. apply bind_Ok in He as (x & He & _). by exists x.
Qed.

Lemma links_at_extent p buf at_ ls : links_at p buf 0 at_ true = Ok ls -> exists x, extent p at_ = Ok x.
Proof. unfold links_at. generalize WALK_FUEL. intros fuel. apply chain_links_extent. Qed.

Lemma geometry_unique p a b : geometry p -> a ∈ pp_objects p -> b ∈ pp_objects p -> po_offset a = po_offset b -> a = b.
Proof.
  intros Hgeo [i Hi]%list_elem_of_lookup_1 [j Hj]%list_elem_of_lookup_1 Hab.
  assert (pp_at_offset p !! po_offset a = Some i) as Ha by (apply (geo_at p Hgeo); by exists a).
  assert (pp_at_offset p !! po_offset a = Some j) as Hb by (apply (geo_at p Hgeo); by exists b). congruence.
Qed.

Lemma self_contained_count p : ref_delta_count p = 0%N -> self_contained p.
Proof.
  unfold ref_delta_count. intros H o Ho. destruct (po_is_ref_delta o) eqn:E; [|done]. exfalso.
  assert (o ∈ List.filter po_is_ref_delta (pp_objects p)) as Hin by (by apply list_elem_of_In, filter_In; rewrite <-list_elem_of_In).
  destruct (List.filter _ _); [by apply elem_of_nil in Hin|]. rewrite len_cons in H. lia.
Qed.

Lemma object_In p oid o : object p oid = Some o -> o ∈ pp_objects p.
Proof.
  unfold object. destruct (_ =? _)%N; [|done]. intros (i & _ & Hi)%bind_Some. by eapply list_elem_of_lookup_2.
Qed.

Lemma decode_at_Ok zlib p buf base_addr at_ allow_ref r : decode_at zlib p buf base_addr at_ allow_ref = Ok r
  <-> exists ls data, links_at p buf base_addr at_ allow_ref = Ok ls /\ build zlib buf ls (budget_new (ls_covered ls)) = Ok data
      /\ r = (ls_obj_type ls, data).
Proof.
  unfold decode_at. generalize (links_at p buf base_addr at_ allow_ref). intros l. rewrite bind_Ok. split.
  - intros (ls & -> & H). apply bind_Ok in H as (data & Hb & [= <-]). by exists ls, data.
  - intros (ls & data & -> & Hb & ->). exists ls. split; [done|]. by rewrite Hb.
Qed.

Lemma object_bytes_Ok zlib p oid r : object_bytes zlib p oid = Ok r
  <-> exists obj, object p oid = Some obj /\ decode_at zlib p (pp_pack_bytes p) 0 (po_offset obj) true = Ok r.
Proof. unfold object_bytes. rewrite bind_Ok. by setoid_rewrite ok_or_Ok. Qed.

(** ** Theorems *)

(** A parsed pack's objects lie end to end: each ends where another starts or at the
    trailer, none overlaps another, each is found under its own offset and no other, and in a
    pack without reference deltas the span of a contiguous object starts at the lowest object
    of its delta chain. *)
Theorem parse_spec sha256 pack idx p (Hp : parse sha256 pack idx = Ok p) :
  pp_pack_bytes p = pack
  /\ (forall x i, pp_at_offset p !! x = Some i <-> exists o, pp_objects p !! i = Some o /\ po_offset o = x)
  /\ (forall a b, a ∈ pp_objects p -> b ∈ pp_objects p -> (po_offset a < po_offset b)%N ->
       (po_offset a + po_length a <= po_offset b)%N)
  /\ (forall a, a ∈ pp_objects p ->
       (po_offset a + po_length a + PACK_TRAILER = len pack)%N
       \/ exists b, b ∈ pp_objects p /\ po_offset b = (po_offset a + po_length a)%N)
  /\ (forall o, o ∈ pp_objects p -> ref_delta_count p = 0%N -> po_contiguous o = true ->
       exists t m, stored_chain p (po_offset o) t (po_delta_depth o) m /\ from_code t = Ok (po_obj_type o)
         /\ po_delta_chain_span o = (po_offset o + po_length o - m)%N).
Proof.
  destruct (parse_geometry _ _ _ _ Hp) as [Hgeo Hbytes]. rewrite <-Hbytes. split_and!; [done|apply Hgeo..|].
  intros o Ho Hself%self_contained_count Hcont. destruct (geo_chain p Hgeo o Ho Hself Hcont) as (t & m & ? & _ & ? & ?).
  by exists t, m.
Qed.

(** C2: the one-span read is sound: in a pack without reference deltas, whatever the whole
    pack rebuilds for an object whose chain is contiguous, the span alone rebuilds, bytes and
    type, within the limits of a span read. *)
Theorem span_read_spec sha256 zlib pack idx p oid obj r
  (zlib_trailing : forall c extra limit out, zlib c limit = Ok out -> (len out < limit \/ limit = u64_max)%N ->
     zlib (c ++ extra) limit = Ok out)
  (Hp : parse sha256 pack idx = Ok p) (Hself : ref_delta_count p = 0%N)
  (Hobj : object p oid = Some obj) (Hcont : po_contiguous obj = true) (Hr : object_bytes zlib p oid = Ok r) :
  exists span, slice pack (po_end obj - po_delta_chain_span obj) (po_end obj) = Some span
    /\ reconstruct_from_span zlib p obj span = Ok r.
Proof.
  destruct (parse_geometry _ _ _ _ Hp) as [Hgeo Hbytes]. apply self_contained_count in Hself. pose proof (object_In _ _ _ Hobj) as Ho.
  destruct (geo_chain p Hgeo obj Ho Hself Hcont) as (t & m & Hst & Hm & Hspan & _). pose proof (geo_end p Hgeo obj Ho) as Hend.
  apply object_bytes_Ok in Hr as (obj' & Hobj' & (ls & data & Hls & Hb & ->)%decode_at_Ok).
  assert (obj' = obj) as -> by congruence. rewrite Hbytes in *.
  assert (po_offset obj + po_length obj <= u64_max)%N as Hmax.
  { destruct (links_at_extent _ _ _ _ Hls) as ([s e] & He).
    apply (extent_Ok pack p Hgeo Hbytes) in He as (o & Ho' & Hoff & _ & -> & _ & Hle).
    assert (o = obj) as -> by (by apply (geometry_unique p)). exact Hle. }
  set (e := (po_offset obj + po_length obj)%N) in *. assert (po_end obj = e) as -> by (unfold po_end, sat_add_u64; lia).
  assert (e - po_delta_chain_span obj = m)%N as Hbase by lia. rewrite Hbase.
  assert (exists span, slice pack m e = Some span) as [span Hs].
  { eexists. apply slice_Some. split_and!; [lia|lia|done]. }
  exists span. split; [done|]. unfold reconstruct_from_span. rewrite Hcont. cbn [negb]. unfold checked_u64. fold e.
  rewrite (proj2 (N.leb_le _ _) Hmax). cbn [mbind option_bind]. rewrite (proj2 (N.leb_le (po_delta_chain_span obj) e)) by lia.
  cbn [ok_or mbind Result_bind]. rewrite Hbase, (slice_len _ _ _ _ Hs), Hspan, N.eqb_refl. cbn [negb].
  destruct (links_at_sim pack span p Hgeo Hbytes m e ltac:(lia) ltac:(lia) Hs obj _ _ _ Ho eq_refl Hst Hls) as (ls' & Hls' & Ht & Hlb & Hld & Hle).
  apply decode_at_Ok. exists ls', data. rewrite Ht. split_and!; [done| |done].
  by apply (build_sim zlib zlib_trailing pack span ls ls' (budget_new (ls_covered ls))).
Qed.

(** ** Examples *)

(** A stored stream: its length in one byte, then the bytes. *)
Definition stored_zlib (c : list byte) (limit : N) : Result (list byte) :=
  match c with
  | [] => Err (Io "empty stream")
  | n :: rest =>
    if (byte_val n <=? len rest)%N then Ok (take (N.to_nat (N.min limit (byte_val n))) rest) else Err (Io "truncated stream")
  end.

Lemma stored_zlib_trailing c extra limit out : stored_zlib c limit = Ok out -> (len out < limit \/ limit = u64_max)%N ->
  stored_zlib (c ++ extra) limit = Ok out.
Proof.
  destruct c as [|n rest]; [done|]. simpl. destruct (N.leb_spec (byte_val n) (len rest)) as [Hn|]; [|done]. intros [= <-] _.
  rewrite (proj2 (N.leb_le _ _)) by (rewrite len_app; lia). f_equal. apply take_app_le. unfold len in Hn. lia.
Qed.

(** A blob and a delta of it. *)
Definition example_pack : list byte :=
  bytes "PACK00000000" ++ map byte_of [59; 11]%N ++ bytes "hello world"
  ++ map byte_of [104; 13; 8; 11; 7; 145; 0; 5; 2]%N ++ bytes "!!" ++ repeat (byte_of 0) 20.

Definition example_idx : list byte :=
  IDX_MAGIC ++ be 4 2 ++ repeat (byte_of 0) 1020 ++ be 4 2 ++ repeat (byte_of 7) 20 ++ repeat (byte_of 9) 20
  ++ repeat (byte_of 0) 8 ++ be 4 12 ++ be 4 25 ++ repeat (byte_of 0) 40.

Definition example_parsed : ParsedPack :=
  match parse (fun _ => []) example_pack example_idx with Ok p => p | _ => mkParsedPack [] [] [] ∅ ∅ [] end.

Definition example_object : PackObject := mkPackObject (repeat (byte_of 9) 20) 25 11 Blob 1 false 24 true.

Lemma parse_spec_witness : pp_pack_bytes example_parsed = example_pack.
Proof. apply (parse_spec (fun _ => []) example_pack example_idx example_parsed). vm_compute. reflexivity. Defined.

Lemma span_read_spec_witness :
  exists span, slice example_pack (po_end example_object - po_delta_chain_span example_object) (po_end example_object) = Some span
    /\ reconstruct_from_span stored_zlib example_parsed example_object span = Ok (Blob, bytes "hello!!").
Proof.
  apply (span_read_spec (fun _ => []) stored_zlib example_pack example_idx example_parsed (repeat (byte_of 9) 20)
    example_object (Blob, bytes "hello!!") stored_zlib_trailing); vm_compute; reflexivity.
Defined.
