(* ===== verification/Locator.v ===== *)
(** The object locator ([pack/locator.rs]): a fanout header and fixed-width rows in [(oid,
    packRef)] order. Building, parsing, the binary search of one bucket, and the merge of
    published locators. *)
From S2P Require Import Prelude.
From S2P Require Import Wire.
From S2P Require Import Delta.
From S2P Require Import PackParse.

(** ** Definitions *)

Definition LOCATOR_ROW_LEN : N := OID_LEN + 2 + 5 + 4 + 4 + 1.
Definition FANOUT_LEN : N := 256 * 4.
Definition SPAN_SINGLE_READ_THRESHOLD : N := 64 * 1024.
Definition SPAN_SENTINEL : N := u32_max.
Definition SORT_KEY_LEN : N := OID_LEN + 2.
Definition OFF_PACKREF : N := OID_LEN.
Definition OFF_OFFSET : N := OFF_PACKREF + 2.
Definition OFF_LENGTH : N := OFF_OFFSET + 5.
Definition OFF_SPAN : N := OFF_LENGTH + 4.
Definition OFF_HINT : N := OFF_SPAN + 4.

Record LocatorEntry := mkLocatorEntry {
  le_pack_ref : N;
  le_offset : N;
  le_length : N;
  le_delta_chain_span : N;
  le_delta_depth : N;
}.

Definition single_read_advised (e : LocatorEntry) : bool :=
  negb (le_delta_chain_span e =? SPAN_SENTINEL)%N && (le_delta_chain_span e <=? SPAN_SINGLE_READ_THRESHOLD)%N.

Record ObjectLocator := mkObjectLocator { ol_bytes : list byte; ol_count : N }.

(** [&buf[start..][..n]], where the caller has checked that the bytes are there. *)
Definition sub (buf : list byte) (start n : N) : list byte := take (N.to_nat n) (drop (N.to_nat start) buf).

Definition row_at (bytes : list byte) (i : N) : list byte := sub bytes (FANOUT_LEN + i * LOCATOR_ROW_LEN) LOCATOR_ROW_LEN.
Definition fanout_at (bytes : list byte) (b : N) : N := from_be (sub bytes (b * 4) 4).
Definition row (l : ObjectLocator) : N -> list byte := row_at (ol_bytes l).
Definition fanout (l : ObjectLocator) : N -> N := fanout_at (ol_bytes l).

Definition first_byte (r : list byte) : N := match r with [] => 0%N | b :: _ => byte_val b end.
Definition sort_key (r : list byte) : list byte := take (N.to_nat SORT_KEY_LEN) r.
Definition row_oid (r : list byte) : list byte := take (N.to_nat OID_LEN) r.

(** [(lo..hi)]. *)
Definition range (lo hi : N) : list N := map (fun k => lo + N.of_nat k)%N (seq 0 (N.to_nat (hi - lo))).

(** *** Building *)

Definition fanout_counts (rows : list (list byte)) : list N :=
  foldl (fun f r => let b := N.to_nat (first_byte r) in <[b := f !!! b + 1]> f)%N (replicate 256 0%N) rows.

Fixpoint cumulate (cum : N) (f : list N) : list N :=
  match f with [] => [] | x :: f => let cum := (cum + x)%N in cum :: cumulate cum f end.

Definition from_sorted_rows (rows : list (list byte)) : ObjectLocator :=
  mkObjectLocator (concat (map (be 4) (cumulate 0 (fanout_counts rows))) ++ concat rows) (len rows).

Definition sat_u32 (v : N) : N := N.min v u32_max.
Definition sat_u8 (v : N) : N := N.min v u8_max.

Definition u40_be (v : N) : Result (list byte) :=
  if (1099511627775 <? v)%N then Err (Config "pack offset exceeds 5-byte locator field") else Ok (be 5 v).

Definition object_row (pack_ref : N) (o : PackObject) : Result (list byte) :=
  let span := if po_contiguous o then sat_u32 (po_delta_chain_span o) else SPAN_SENTINEL in
  off ← u40_be (po_offset o);
  Ok (po_oid o ++ be 2 pack_ref ++ off ++ be 4 (sat_u32 (po_length o)) ++ be 4 span ++ [byte_of (sat_u8 (po_delta_depth o))]).

Definition rows_for (pack : ParsedPack) (pack_ref : N) : Result (list (list byte)) :=
  let refs := ref_delta_count pack in
  let noncontig := len (List.filter (fun o => negb (po_contiguous o)) (pp_objects pack)) in
  if (0 <? refs)%N || (0 <? noncontig)%N then
    Err (Config ("objectLocator requires a self-contained repacked pack (found " +:+ pretty refs +:+ " REF_DELTA + "
      +:+ pretty noncontig +:+ " non-contiguous objects); build it from repack_all output"))
  else mapM (object_row pack_ref) (sort_by (cmp_on po_oid bytes_cmp) (pp_objects pack)).

Definition build_locator (pack : ParsedPack) (pack_ref : N) : Result ObjectLocator :=
  rows ← rows_for pack pack_ref; Ok (from_sorted_rows rows).

(** *** Parsing *)

Definition bad (what : string) : Error := Config ("locator " +:+ what).

Fixpoint check_buckets (bytes : list byte) (count lo : N) (bs : list N) : Result unit :=
  match bs with
  | [] => Ok tt
  | b :: bs =>
    let hi := fanout_at bytes b in
    if negb ((lo <=? hi) && (hi <=? count))%N then Err (bad "fanout is not cumulative")
    else if existsb (fun i => negb (first_byte (row_at bytes i) =? b)%N) (range lo hi) then Err (bad "row outside its fanout bucket")
    else check_buckets bytes count hi bs
  end.

Definition parse_locator (bytes : list byte) : Result ObjectLocator :=
  if (len bytes <? FANOUT_LEN)%N then Err (bad "shorter than fanout") else
  let count := fanout_at bytes 255 in
  if negb (count * LOCATOR_ROW_LEN + FANOUT_LEN =? len bytes)%N then Err (bad "length inconsistent with fanout") else
  _ ← check_buckets bytes count 0 (range 0 256);
  if existsb (fun i => match bytes_cmp (sort_key (row_at bytes (i - 1))) (sort_key (row_at bytes i)) with Gt => true | _ => false end)
       (range 1 count)
  then Err (bad "rows out of order")
  else Ok (mkObjectLocator bytes count).

(** *** Lookup *)

Definition decode_row (r : list byte) : LocatorEntry :=
  mkLocatorEntry (from_be (sub r OFF_PACKREF 2)) (from_be (sub r OFF_OFFSET 5)) (from_be (sub r OFF_LENGTH 4))
    (from_be (sub r OFF_SPAN 4)) (first_byte (sub r OFF_HINT 1)).

(** Each step at least halves the interval, so its bit length is fuel enough. *)
Fixpoint first_not_below (fuel : nat) (l : ObjectLocator) (oid : list byte) (lo hi : N) : N :=
  match fuel with
  | O => lo
  | S fuel =>
    if (lo <? hi)%N then
      let mid := ((lo + hi) / 2)%N in
      match bytes_cmp (row_oid (row l mid)) oid with
      | Lt => first_not_below fuel l oid (mid + 1)%N hi
      | _ => first_not_below fuel l oid lo mid
      end
    else lo
  end.

Definition lookup_oid (l : ObjectLocator) (oid : list byte) : option LocatorEntry :=
  if negb (len oid =? OID_LEN)%N then None else
  let b := first_byte oid in
  let lo := if (b =? 0)%N then 0%N else fanout l (b - 1) in
  let end_ := fanout l b in
  let lo := first_not_below (N.to_nat (N.size (end_ - lo))) l oid lo end_ in
  if (lo <? end_)%N && (row_oid (row l lo) == oid) then Some (decode_row (row l lo)) else None.

Definition pack_ref_iter (l : ObjectLocator) : list N := map (fun i => from_be (sub (row l i) OFF_PACKREF 2)) (range 0 (ol_count l)).
Definition max_pack_ref (l : ObjectLocator) : option N := max_by N.compare (pack_ref_iter l).

(** *** Merging: a cursor is the rows it has left *)

Definition all_rows (l : ObjectLocator) : list (list byte) := map (row l) (range 0 (ol_count l)).

Definition key_cmp : list byte -> list byte -> comparison := cmp_on sort_key bytes_cmp.

(** The first cursor with the least row. *)
Fixpoint pick_part (i : nat) (pick : option (nat * list byte)) (cursors : list (list (list byte))) : option (nat * list byte) :=
  match cursors with
  | [] => pick
  | [] :: cursors => pick_part (S i) pick cursors
  | (r :: _) :: cursors =>
    let better := match pick with None => true | Some (_, s) => match key_cmp r s with Lt => true | _ => false end end in
    pick_part (S i) (if better then Some (i, r) else pick) cursors
  end.

Fixpoint skip_key (r : list byte) (rows : list (list byte)) : list (list byte) :=
  match rows with
  | s :: rest => if sort_key s == sort_key r then skip_key r rest else rows
  | [] => []
  end.

(** Every step takes a row, so their number is fuel enough. *)
Fixpoint merge_rows (fuel : nat) (cursors : list (list (list byte))) : list (list byte) :=
  match fuel with
  | O => []
  | S fuel =>
    match pick_part 0 None cursors with
    | None => []
    | Some (i, r) => r :: merge_rows fuel (map (skip_key r) (alter (@tail (list byte)) i cursors))
    end
  end.

Definition merge (parts : list ObjectLocator) : ObjectLocator :=
  let cursors := map all_rows parts in from_sorted_rows (merge_rows (length (concat cursors)) cursors).

(** ** What a locator is *)

Definition row_wf (r : list byte) : Prop := length r = 36.
Definition key_le (r s : list byte) : Prop := key_cmp r s <> Gt.
Definition key_lt (r s : list byte) : Prop := key_cmp r s = Lt.

(** Rows a locator can hold. *)
Definition sorted_rows (rows : list (list byte)) : Prop :=
  Forall row_wf rows /\ StronglySorted key_le rows /\ (len rows < 2 ^ 32)%N.

(** The rows through a first byte. *)
Definition rows_upto (rows : list (list byte)) (b : N) : list (list byte) := List.filter (fun r => first_byte r <=? b)%N rows.

(** ** Fixed-width rows *)

Lemma chunk_at {A} (w : nat) (ls : list (list A)) rest i x :
  Forall (fun l => length l = w) ls -> ls !! i = Some x -> take w (drop (i * w) (concat ls ++ rest)) = x.
Proof.
  intros Hw. revert i. induction Hw as [|l ls Hl _ IH]; intros i Hi; [done|]. cbn [concat]. rewrite <-app_assoc.
  destruct i as [|i]; simpl in Hi.
  - injection Hi as ->. rewrite Nat.mul_0_l, drop_0, <-Hl. apply take_app_length.
  - rewrite Nat.mul_succ_l, Nat.add_comm, <-drop_drop, <-Hl, drop_app_length, Hl. by apply IH.
Qed.

Lemma chunks_concat {A} (w n : nat) (l : list A) : length l = n * w ->
  concat (map (fun i => take w (drop (i * w) l)) (seq 0 n)) = l.
Proof.
  revert l. induction n as [|n IH]; intros l Hl; simpl in Hl; [by destruct l|].
  cbn [seq map concat]. rewrite Nat.mul_0_l, drop_0, <-seq_shift, map_map.
  rewrite (map_ext _ (fun i => take w (drop (i * w) (drop w l)))).
  - rewrite IH by (rewrite length_drop; lia). apply take_drop.
  - intros i. by rewrite drop_drop.
Qed.

Lemma length_concat_fixed {A} (w : nat) (ls : list (list A)) :
  Forall (fun l => length l = w) ls -> length (concat ls) = length ls * w.
Proof. induction 1 as [|l ls Hl _ IH]; simpl; [done|]. by rewrite length_app, Hl, IH. Qed.

Lemma elem_of_range lo hi i : i ∈ range lo hi <-> (lo <= i < hi)%N.
Proof.
  unfold range. rewrite list_elem_of_fmap. split.
  - intros (k & -> & Hk%elem_of_seq). lia.
  - intros Hi. exists (N.to_nat (i - lo)). split; [lia|]. apply elem_of_seq. lia.
Qed.

Lemma range_0 n : range 0 n = map N.of_nat (seq 0 (N.to_nat n)).
Proof. unfold range. rewrite N.sub_0_r. apply map_ext. lia. Qed.

Lemma existsb_false {A} (f : A -> bool) l : existsb f l = false <-> forall x, x ∈ l -> f x = false.
Proof.
  split.
  - intros H x Hx. destruct (f x) eqn:E; [|done]. enough (existsb f l = true) by congruence.
    apply existsb_exists. exists x. by rewrite <-list_elem_of_In.
  - intros H. destruct (existsb f l) eqn:E; [|done]. apply existsb_exists in E as (x & Hx%list_elem_of_In & Hf).
    by rewrite (H x Hx) in Hf.
Qed.

(** ** The fanout *)

Definition count_byte (rows : list (list byte)) (b : N) : N := len (List.filter (fun r => first_byte r =? b)%N rows).

Lemma first_byte_lt r : (first_byte r < 256)%N.
Proof. destruct r; simpl; [done|apply byte_val_lt]. Qed.

Lemma fanout_counts_lookup rows (b : nat) : b < 256 -> fanout_counts rows !! b = Some (count_byte rows (N.of_nat b)).
Proof.
  unfold fanout_counts. assert (forall f : list N, length f = 256 -> b < 256 ->
    foldl (fun f r => let b := N.to_nat (first_byte r) in <[b := f !!! b + 1]> f)%N f rows !! b
    = Some (f !!! b + count_byte rows (N.of_nat b))%N) as H.
  { unfold count_byte. induction rows as [|r rows IH]; intros f Hf Hb; cbn [foldl List.filter].
    - destruct (lookup_lt_is_Some_2 f b) as [x Hx]; [lia|]. by rewrite (list_lookup_total_correct _ _ _ Hx), N.add_0_r.
    - pose proof (first_byte_lt r). rewrite IH by (rewrite ?length_insert; done). f_equal.
      destruct (N.eqb_spec (first_byte r) (N.of_nat b)) as [->|Hne].
      + rewrite Nat2N.id, list_lookup_total_insert_eq by lia. rewrite len_cons. lia.
      + by rewrite list_lookup_total_insert_ne by lia. }
  intros Hb. rewrite H; [|apply length_replicate|done]. f_equal. by rewrite lookup_total_replicate_2.
Qed.

Lemma length_fanout_counts rows : length (fanout_counts rows) = 256.
Proof.
  unfold fanout_counts. rewrite <-(length_replicate 256 0%N) at 2. generalize (replicate 256 0%N).
  induction rows as [|r rows IH]; intros f; simpl; [done|]. by rewrite IH, length_insert.
Qed.

Lemma length_cumulate cum f : length (cumulate cum f) = length f.
Proof. revert cum. induction f as [|x f IH]; intros cum; simpl; [done|]. by rewrite IH. Qed.

Lemma cumulate_S cum f i x y : cumulate cum f !! i = Some x -> f !! S i = Some y -> cumulate cum f !! S i = Some (x + y)%N.
Proof.
  revert cum i. induction f as [|z f IH]; intros cum i Hx Hy; [done|]. destruct i as [|i]; simpl in *.
  - destruct f; simplify_eq/=. done.
  - by apply IH.
Qed.

Lemma rows_upto_S rows b : len (rows_upto rows (b + 1)) = (len (rows_upto rows b) + count_byte rows (b + 1))%N.
Proof.
  unfold rows_upto, count_byte. induction rows as [|r rows IH]; [done|]. cbn [List.filter].
  destruct (N.leb_spec (first_byte r) (b + 1)), (N.leb_spec (first_byte r) b), (N.eqb_spec (first_byte r) (b + 1)); rewrite ?len_cons; lia.
Qed.

Lemma cumulate_counts rows (b : nat) : b < 256 -> cumulate 0 (fanout_counts rows) !! b = Some (len (rows_upto rows (N.of_nat b))).
Proof.
  induction b as [|b IH]; intros Hb.
  - pose proof (fanout_counts_lookup rows 0 Hb) as H0. destruct (fanout_counts rows) as [|x f]; [done|]. simplify_eq/=. f_equal.
    unfold count_byte, rows_upto. rewrite N.add_0_l. change (N.of_nat 0) with 0%N. f_equal. apply filter_ext. intros r. destruct (N.eqb_spec (first_byte r) 0), (N.leb_spec (first_byte r) 0); lia.
  - rewrite (cumulate_S _ _ _ _ _ (IH ltac:(lia)) (fanout_counts_lookup rows (S b) Hb)).
    replace (N.of_nat (S b)) with (N.of_nat b + 1)%N by lia. by rewrite rows_upto_S.
Qed.

(** *** What [from_sorted_rows] writes *)

Section built.
Context (rows : list (list byte)) (Hwf : Forall row_wf rows) (Hmax : (len rows < 2 ^ 32)%N).
Let fan : list (list byte) := map (be 4) (cumulate 0 (fanout_counts rows)).

Lemma fan_wf : Forall (fun l => length l = 4) fan.
Proof. apply Forall_map, Forall_true. intros x. apply length_be. Qed.

Lemma length_fan : length (concat fan) = 1024.
Proof. rewrite (length_concat_fixed 4 _ fan_wf). unfold fan. by rewrite length_map, length_cumulate, length_fanout_counts. Qed.

Lemma built_row i r : rows !! N.to_nat i = Some r -> row_at (ol_bytes (from_sorted_rows rows)) i = r.
Proof.
  intros Hi. unfold row_at, sub, from_sorted_rows. cbn [ol_bytes]. fold fan.
  change (N.to_nat LOCATOR_ROW_LEN) with 36.
  replace (N.to_nat (FANOUT_LEN + i * LOCATOR_ROW_LEN)) with (length (concat fan) + N.to_nat i * 36)
    by (rewrite length_fan; unfold FANOUT_LEN, LOCATOR_ROW_LEN, OID_LEN; lia).
  rewrite <-drop_drop, drop_app_length. rewrite <-(app_nil_r (concat rows)). by apply chunk_at.
Qed.

Lemma built_fanout b : (b < 256)%N -> fanout_at (ol_bytes (from_sorted_rows rows)) b = len (rows_upto rows b).
Proof.
  intros Hb. unfold fanout_at, sub, from_sorted_rows. cbn [ol_bytes]. fold fan. change (N.to_nat 4) with 4.
  assert (fan !! N.to_nat b = Some (be 4 (len (rows_upto rows b)))) as Hf.
  { unfold fan. rewrite list_lookup_fmap, cumulate_counts, N2Nat.id by lia. done. }
  rewrite N2Nat.inj_mul. change (N.to_nat 4) with 4. rewrite (chunk_at 4 fan _ _ _ fan_wf Hf), from_be_be; [done|].
  unfold rows_upto. eapply N.le_lt_trans; [|exact Hmax]. unfold len. pose proof (List.filter_length_le (fun r => first_byte r <=? b)%N rows). lia.
Qed.

Lemma built_length : len (ol_bytes (from_sorted_rows rows)) = (FANOUT_LEN + len rows * LOCATOR_ROW_LEN)%N.
Proof.
  unfold from_sorted_rows. cbn [ol_bytes]. fold fan. rewrite len_app. unfold len. rewrite length_fan, (length_concat_fixed 36 _ Hwf).
  unfold FANOUT_LEN, LOCATOR_ROW_LEN, OID_LEN. lia.
Qed.

Lemma all_rows_built : all_rows (from_sorted_rows rows) = rows.
Proof.
  unfold all_rows. cbn [from_sorted_rows ol_count]. rewrite range_0. unfold len. rewrite Nat2N.id, map_map. apply list_eq. intros i.
  rewrite list_lookup_fmap. destruct (rows !! i) as [r|] eqn:Hi.
  - rewrite lookup_seq_lt by (by eapply lookup_lt_Some). simpl. f_equal. apply built_row. by rewrite Nat2N.id.
  - apply lookup_ge_None in Hi. by rewrite lookup_seq_ge by done.
Qed.
End built.

(** ** Order *)

#[export] Instance key_cmp_ord : CmpOrd key_cmp.
Proof. apply _. Qed.

#[export] Instance key_le_trans : Transitive key_le.
Proof. intros r s t. apply cmp_trans. Qed.

Lemma ascii_lt_first a b x y : bytes_cmp (a :: x) (b :: y) <> Gt -> (byte_val a <= byte_val b)%N.
Proof.
  rewrite bytes_cmp_cons. intros H. apply (proj1 (ascii_compare_le a b)). destruct (Ascii.compare a b); congruence.
Qed.

Lemma key_le_first r s : row_wf r -> row_wf s -> key_le r s -> (first_byte r <= first_byte s)%N.
Proof.
  unfold row_wf, key_le, key_cmp, cmp_on, sort_key. destruct r as [|a r]; [done|]. destruct s as [|b s]; [done|]. intros _ _.
  change (N.to_nat SORT_KEY_LEN) with 22. cbn [take first_byte]. apply ascii_lt_first.
Qed.

(** Rows in key order are in oid order. *)
Lemma key_le_oid r s : row_wf r -> row_wf s -> key_le r s -> bytes_cmp (row_oid r) (row_oid s) <> Gt.
Proof.
  unfold row_wf, key_le, key_cmp, cmp_on, sort_key, row_oid. intros Hr Hs.
  change (N.to_nat SORT_KEY_LEN) with (20 + 2). change (N.to_nat OID_LEN) with 20.
  rewrite <-!(take_take_drop _ 20 2), bytes_cmp_app by (rewrite !length_take; lia).
  destruct (bytes_cmp (take 20 r) (take 20 s)); congruence.
Qed.

Lemma sorted_adjacent {A} (R : A -> A -> Prop) `{!Transitive R} l :
  (forall i x y, l !! i = Some x -> l !! S i = Some y -> R x y) -> StronglySorted R l.
Proof.
  intros H. apply Sorted_StronglySorted; [done|]. induction l as [|x l IH]; [constructor|]. constructor.
  - apply IH. intros i. apply (H (S i)).
  - destruct l as [|y l]; constructor. by apply (H 0).
Qed.

Lemma StronglySorted_lookup {A} (R : A -> A -> Prop) l i j x y :
  StronglySorted R l -> l !! i = Some x -> l !! j = Some y -> i < j -> R x y.
Proof.
  intros Hs. revert i j. induction Hs as [|z l Hs IH Hz]; intros i j Hi Hj Hij; [done|].
  destruct i as [|i], j as [|j]; simpl in *; try lia.
  - injection Hi as ->. rewrite Forall_forall in Hz. apply Hz. by eapply list_elem_of_lookup_2.
  - by apply (IH i j); [..|lia].
Qed.

Lemma sorted_first rows : Forall row_wf rows -> StronglySorted key_le rows -> StronglySorted (fun r s => first_byte r <= first_byte s)%N rows.
Proof.
  intros Hwf Hs. induction Hs as [|r rows Hs IH Hr]; [constructor|]. inversion Hwf as [|? ? Hw Hws]; subst. constructor; [by apply IH|].
  rewrite Forall_forall in Hr, Hws |- *. intros s Hin. apply key_le_first; [done|by apply Hws|by apply Hr].
Qed.

(** A filter that holds up to an index keeps the rows before it. *)
Lemma filter_prefix {A} (f : A -> bool) l k : k <= length l ->
  (forall i x, l !! i = Some x -> f x = true <-> i < k) -> length (List.filter f l) = k.
Proof.
  revert k. induction l as [|x l IH]; intros k Hk H; simpl in *; [lia|]. destruct k as [|k].
  - destruct (f x) eqn:E; [by apply (H 0 x eq_refl) in E; lia|]. apply IH; [lia|]. intros i y Hi. rewrite (H (S i) y Hi). lia.
  - rewrite (proj2 (H 0 x eq_refl)) by lia. simpl. f_equal. apply IH; [lia|]. intros i y Hi. rewrite (H (S i) y Hi). lia.
Qed.

(** In sorted rows, those through a first byte come first. *)
Lemma rows_upto_prefix rows b i r : StronglySorted (fun r s => first_byte r <= first_byte s)%N rows ->
  rows !! i = Some r -> (first_byte r <= b)%N <-> i < length (rows_upto rows b).
Proof.
  unfold rows_upto. intros Hs. revert i. induction Hs as [|s rows Hs IH Hr]; intros i Hi; [done|]. cbn [List.filter].
  destruct i as [|i]; simpl in Hi.
  - injection Hi as ->. destruct (N.leb_spec (first_byte r) b); simpl; [lia|]. split; [lia|]. rewrite filter_none; [simpl; lia|].
    intros s Hin. rewrite Forall_forall in Hr. specialize (Hr s Hin). simpl in Hr. apply N.leb_gt. lia.
  - rewrite (IH i Hi). destruct (N.leb_spec (first_byte s) b); simpl; [lia|]. rewrite filter_none; [simpl; lia|].
    intros t Hin. rewrite Forall_forall in Hr. specialize (Hr t Hin). simpl in Hr. apply N.leb_gt. lia.
Qed.

(** ** Parsing *)

Definition upto_before (rows : list (list byte)) (b : N) : N := if (b =? 0)%N then 0%N else len (rows_upto rows (b - 1)).

Lemma rows_upto_mono rows b c : (b <= c)%N -> (len (rows_upto rows b) <= len (rows_upto rows c))%N.
Proof.
  intros Hbc. unfold rows_upto, len. induction rows as [|r rows IH]; simpl; [done|].
  destruct (N.leb_spec (first_byte r) b), (N.leb_spec (first_byte r) c); simpl; lia.
Qed.

Lemma rows_upto_le rows b : (len (rows_upto rows b) <= len rows)%N.
Proof. unfold rows_upto, len. pose proof (List.filter_length_le (fun r => first_byte r <=? b)%N rows). lia. Qed.

Lemma rows_upto_255 rows : rows_upto rows 255 = rows.
Proof.
  unfold rows_upto. induction rows as [|r rows IH]; simpl; [done|]. pose proof (first_byte_lt r).
  by rewrite (proj2 (N.leb_le _ _)), IH by lia.
Qed.

Lemma check_buckets_built rows k n : sorted_rows rows -> k + n = 256 ->
  check_buckets (ol_bytes (from_sorted_rows rows)) (len rows) (upto_before rows (N.of_nat k)) (map N.of_nat (seq k n)) = Ok tt.
Proof.
  intros (Hwf & Hs & Hmax). revert k. induction n as [|n IH]; intros k Hk; [done|]. cbn [seq map check_buckets].
  rewrite built_fanout by (done || lia). set (b := N.of_nat k) in *. set (hi := len (rows_upto rows b)).
  assert (upto_before rows b <= hi)%N as Hlo.
  { unfold upto_before. destruct (b =? 0)%N; [lia|]. apply rows_upto_mono. lia. }
  pose proof (rows_upto_le rows b) as Hhi. fold hi in Hhi. rewrite (proj2 (N.leb_le _ _) Hlo), (proj2 (N.leb_le _ _) Hhi). cbn [negb andb].
  replace (existsb _ _) with false.
  - specialize (IH (S k) ltac:(lia)). unfold upto_before in IH. rewrite (proj2 (N.eqb_neq _ _)) in IH by lia.
    replace (N.of_nat (S k) - 1)%N with b in IH by lia. exact IH.
  - symmetry. apply existsb_false. intros i [Hil Hih]%elem_of_range. apply negb_false_iff, N.eqb_eq.
    destruct (lookup_lt_is_Some_2 rows (N.to_nat i)) as [r Hr]; [unfold len in *; lia|].
    rewrite (built_row rows Hwf Hmax i r Hr). pose proof (sorted_first _ Hwf Hs) as Hf.
    pose proof (proj2 (rows_upto_prefix rows b _ r Hf Hr) ltac:(unfold hi, len in Hih; lia)) as Hle.
    unfold upto_before in Hil. destruct (N.eqb_spec b 0) as [Hb0|Hb0]; [lia|].
    destruct (N.le_gt_cases (first_byte r) (b - 1)) as [Hlt|Hlt]; [|lia].
    apply (rows_upto_prefix rows (b - 1) _ r Hf Hr) in Hlt. unfold len in Hil. lia.
Qed.

Lemma parse_built rows : sorted_rows rows -> parse_locator (ol_bytes (from_sorted_rows rows)) = Ok (from_sorted_rows rows).
Proof.
  intros Hsr. pose proof Hsr as (Hwf & Hs & Hmax). unfold parse_locator.
  rewrite built_length, built_fanout, rows_upto_255 by done. rewrite (proj2 (N.ltb_ge _ _)) by apply N.le_add_r.
  rewrite N.add_comm, N.eqb_refl. cbn [negb]. change (range 0 256) with (map N.of_nat (seq 0 256)).
  pose proof (check_buckets_built rows 0 256 Hsr eq_refl) as Hb. change (upto_before rows (N.of_nat 0)) with 0%N in Hb.
  rewrite Hb. cbn [mbind Result_bind]. replace (existsb _ _) with false; [done|].
  symmetry. apply existsb_false. intros i [Hi1 Hi2]%elem_of_range.
  destruct (lookup_lt_is_Some_2 rows (N.to_nat i)) as [r Hr]; [unfold len in *; lia|].
  destruct (lookup_lt_is_Some_2 rows (N.to_nat (i - 1))) as [s Hsr']; [unfold len in *; lia|].
  rewrite (built_row rows Hwf Hmax _ _ Hr), (built_row rows Hwf Hmax _ _ Hsr').
  pose proof (StronglySorted_lookup _ _ _ _ _ _ Hs Hsr' Hr ltac:(lia)) as Hle. unfold key_le, key_cmp, cmp_on in Hle.
  destruct (bytes_cmp (sort_key s) (sort_key r)); try done; congruence.
Qed.

(** What the bucket check establishes: each row read below a count belongs to a bucket. *)
Lemma check_buckets_Ok bytes count k n lo : k + n = 256 -> check_buckets bytes count lo (map N.of_nat (seq k n)) = Ok tt ->
  (lo <= count)%N ->
  (forall b, (k <= b < 256)%nat -> lo <= fanout_at bytes (N.of_nat b) <= count)%N
  /\ (forall b i, k <= b < 256 -> (lo <= i < count)%N ->
       ((first_byte (row_at bytes i) <= N.of_nat b)%N -> (i < fanout_at bytes (N.of_nat b))%N \/ (fanout_at bytes 255 <= i)%N)
       /\ ((i < fanout_at bytes (N.of_nat b))%N -> (N.of_nat k <= first_byte (row_at bytes i) <= N.of_nat b)%N)).
Proof.
  revert k lo. induction n as [|n IH]; intros k lo Hk H Hlo; [split; intros; lia|]. cbn [seq map check_buckets] in H.
  set (hi := fanout_at bytes (N.of_nat k)) in *.
  destruct (N.leb_spec lo hi) as [Hlh|]; [|done]. destruct (N.leb_spec hi count) as [Hhc|]; [|done]. cbn [negb andb] in H.
  destruct (existsb _ _) eqn:Hex; [done|]. pose proof (proj1 (existsb_false _ _) Hex) as Hrow.
  destruct (IH (S k) hi ltac:(lia) H Hhc) as [Hmono Hrest]. split.
  - intros b Hb. destruct (decide (b = k)) as [->|Hbk]; [fold hi; lia|]. specialize (Hmono b ltac:(lia)). lia.
  - intros b i Hb Hi. destruct (N.lt_ge_cases i hi) as [Hih|Hih].
    + specialize (Hrow i ltac:(apply elem_of_range; lia)). apply negb_false_iff, N.eqb_eq in Hrow. rewrite Hrow. split; [|lia].
      intros _. left. destruct (decide (b = k)) as [->|Hbk]; [done|]. specialize (Hmono b ltac:(lia)). lia.
    + destruct (decide (b = k)) as [->|Hbk].
      * fold hi. split; [|lia]. intros Hfb. right. destruct (N.lt_ge_cases i (fanout_at bytes 255)) as [Hlt|]; [|done].
        exfalso. destruct (decide (k = 255)) as [->|]; [subst hi; change (N.of_nat 255) with 255%N in *; lia|].
        destruct (Hrest 255 i ltac:(lia) ltac:(lia)) as [_ Hx]. specialize (Hx Hlt). lia.
      * destruct (Hrest b i ltac:(lia) ltac:(lia)) as [H1 H2]. split; [done|]. intros Hx. specialize (H2 Hx). lia.
Qed.

Lemma sub_sub buf s n : (s + n <= len buf)%N -> length (sub buf s n) = N.to_nat n.
Proof. intros H. unfold sub. rewrite length_take_le; [done|]. rewrite length_drop. unfold len in H. lia. Qed.

Lemma be_sub buf s (w : nat) : (s + N.of_nat w <= len buf)%N -> be w (from_be (sub buf s (N.of_nat w))) = sub buf s (N.of_nat w).
Proof. intros H. rewrite <-(be_from_be (sub buf s (N.of_nat w))) at 2. rewrite sub_sub, Nat2N.id by done. done. Qed.

Lemma all_rows_at l i r : all_rows l !! i = Some r <-> (N.of_nat i < ol_count l)%N /\ r = row l (N.of_nat i).
Proof.
  unfold all_rows. rewrite range_0, map_map. split.
  - intros (j & -> & Hj)%list_lookup_fmap_Some. apply lookup_seq in Hj as [Hj Hi]. subst j. split; [lia|done].
  - intros [Hi ->]. apply list_lookup_fmap_Some. exists i. split; [done|]. apply lookup_seq. lia.
Qed.

Lemma length_all_rows l : len (all_rows l) = ol_count l.
Proof. unfold all_rows, range, len. rewrite !length_map, length_seq. lia. Qed.

(** The fanout and the rows of bytes of the right length make up the bytes. *)
Lemma rebuild bytes count : len bytes = (FANOUT_LEN + count * LOCATOR_ROW_LEN)%N ->
  (forall b, (b < 256)%N -> fanout_at bytes b = len (rows_upto (all_rows (mkObjectLocator bytes count)) b)) ->
  from_sorted_rows (all_rows (mkObjectLocator bytes count)) = mkObjectLocator bytes count.
Proof.
  intros Hlen Hfan. set (l := mkObjectLocator bytes count) in *. unfold from_sorted_rows. rewrite length_all_rows. f_equal.
  assert (length bytes = 1024 + N.to_nat count * 36) as Hl by (unfold len, FANOUT_LEN, LOCATOR_ROW_LEN, OID_LEN in Hlen; lia).
  rewrite <-(take_drop 1024 bytes) at 1. f_equal.
  - rewrite <-(chunks_concat 4 256 (take 1024 bytes)) by (rewrite length_take_le; lia). f_equal. apply list_eq. intros i.
    rewrite !list_lookup_fmap. destruct (Nat.lt_ge_cases i 256) as [Hi|Hi].
    + rewrite cumulate_counts, lookup_seq_lt by done. cbn [fmap option_fmap option_map]. f_equal.
      rewrite <-Hfan by lia. unfold fanout_at. change 4%N with (N.of_nat 4) at 2. rewrite be_sub by (unfold len; lia).
      unfold sub. rewrite Nat2N.id, skipn_firstn_comm, take_take. f_equal; [lia|]. f_equal. lia.
    + rewrite lookup_seq_ge by done. rewrite lookup_ge_None_2; [done|]. by rewrite length_cumulate, length_fanout_counts.
  - rewrite <-(chunks_concat 36 (N.to_nat count) (drop 1024 bytes)) by (rewrite length_drop; lia). f_equal.
    unfold all_rows. rewrite range_0, map_map. apply map_ext. intros i. unfold row, row_at, sub. cbn [l ol_bytes].
    rewrite drop_drop. change (N.to_nat LOCATOR_ROW_LEN) with 36. f_equal. f_equal. unfold FANOUT_LEN, LOCATOR_ROW_LEN, OID_LEN. lia.
Qed.

Lemma parse_locator_Ok bytes l : parse_locator bytes = Ok l ->
  sorted_rows (all_rows l) /\ from_sorted_rows (all_rows l) = l /\ ol_bytes l = bytes.
Proof.
  unfold parse_locator. destruct (N.ltb_spec (len bytes) FANOUT_LEN) as [|H1024]; [done|]. set (count := fanout_at bytes 255).
  destruct (N.eqb_spec (count * LOCATOR_ROW_LEN + FANOUT_LEN) (len bytes)) as [Hlen|]; [|done]. cbn [negb].
  intros ([] & Hb & H)%bind_Ok. destruct (existsb _ _) eqn:Hex; [done|]. injection H as <-.
  pose proof (proj1 (existsb_false _ _) Hex) as Hord. clear Hex.
  change (range 0 256) with (map N.of_nat (seq 0 256)) in Hb.
  destruct (check_buckets_Ok bytes count 0 256 0 eq_refl Hb (N.le_0_l _)) as [Hfan Hrow].
  set (l := mkObjectLocator bytes count). split_and!; [split_and!| |done].
  - apply Forall_lookup. intros i r [Hi ->]%all_rows_at. unfold row_wf, row, row_at. apply sub_sub. cbn [l ol_count ol_bytes] in *.
    unfold FANOUT_LEN, LOCATOR_ROW_LEN, OID_LEN in *. lia.
  - apply sorted_adjacent; [apply _|]. intros i r s [Hi ->]%all_rows_at [Hj ->]%all_rows_at. cbn [l ol_count row ol_bytes] in *.
    specialize (Hord (N.of_nat (S i)) ltac:(apply elem_of_range; lia)). cbn beta in Hord.
    unfold key_le, key_cmp, cmp_on. replace (N.of_nat (S i) - 1)%N with (N.of_nat i) in Hord by lia.
    intros HGt. change (bytes_cmp (sort_key (row_at bytes (N.of_nat i))) (sort_key (row_at bytes (N.of_nat (S i)))) = Gt) in HGt.
    by rewrite HGt in Hord.
  - rewrite length_all_rows. cbn [l ol_count]. subst count. unfold fanout_at. pose proof (from_be_lt (sub bytes (255 * 4) 4)) as Hlt.
    unfold len in Hlt. rewrite sub_sub in Hlt by (unfold FANOUT_LEN in H1024; lia). exact Hlt.
  - apply rebuild; [lia|]. intros b Hb256. unfold rows_upto, len. fold l.
    pose proof (Hfan (N.to_nat b) ltac:(lia)) as Hmax. rewrite N2Nat.id in Hmax.
    rewrite (filter_prefix _ _ (N.to_nat (fanout_at bytes b))); [lia| |].
    + pose proof (length_all_rows l) as Hl. unfold len in Hl. cbn [l ol_count] in Hl. lia.
    + intros i r [Hi ->]%all_rows_at. cbn [l ol_count row ol_bytes] in *. rewrite N.leb_le.
      destruct (Hrow (N.to_nat b) (N.of_nat i) ltac:(lia) ltac:(lia)) as [H1 H2]. rewrite N2Nat.id in H1, H2. fold count in H1.
      split; [intros H; destruct (H1 H); lia|]. intros H. apply H2. lia.
Qed.

(** ** Lookup *)

Lemma find_at {A} (f : A -> bool) l i x : l !! i = Some x -> f x = true ->
  (forall j y, j < i -> l !! j = Some y -> f y = false) -> List.find f l = Some x.
Proof.
  revert i. induction l as [|y l IH]; intros i Hi Hx Hlt; [done|]. destruct i as [|i]; simpl in *.
  - injection Hi as ->. by rewrite Hx.
  - rewrite (Hlt 0 y ltac:(lia) eq_refl). apply (IH i Hi Hx). intros j z Hj. apply (Hlt (S j)). lia.
Qed.

Lemma find_absent {A} (f : A -> bool) l : (forall x, x ∈ l -> f x = false) -> List.find f l = None.
Proof.
  intros H. destruct (List.find f l) as [x|] eqn:E; [|done]. apply find_some in E as [Hx Hf].
  by rewrite (H x) in Hf by (by apply list_elem_of_In).
Qed.

Section lookup.
Context (rows : list (list byte)) (Hrows : sorted_rows rows) (oid : list byte).
Let l : ObjectLocator := from_sorted_rows rows.

(** The row at an index is below the oid. *)
Definition below (i : N) : Prop := bytes_cmp (row_oid (row l i)) oid = Lt.

Lemma rows_at i : (i < len rows)%N -> exists r, rows !! N.to_nat i = Some r /\ row l i = r /\ row_wf r.
Proof.
  intros Hi. destruct Hrows as (Hwf & _ & Hmax). destruct (lookup_lt_is_Some_2 rows (N.to_nat i)) as [r Hr]; [unfold len in Hi; lia|].
  exists r. split_and!; [done|by apply (built_row rows Hwf Hmax)|]. rewrite Forall_forall in Hwf. apply Hwf. by eapply list_elem_of_lookup_2.
Qed.

Lemma oid_mono i j : (i <= j)%N -> (j < len rows)%N -> bytes_cmp (row_oid (row l i)) (row_oid (row l j)) <> Gt.
Proof.
  intros Hij Hj. destruct (decide (i = j)) as [->|Hne]; [by rewrite (cmp_refl bytes_cmp)|].
  destruct (rows_at i ltac:(lia)) as (r & Hr & -> & Hwr), (rows_at j Hj) as (s & Hs & -> & Hws).
  apply key_le_oid; [done..|]. apply (StronglySorted_lookup key_le rows (N.to_nat i) (N.to_nat j)); [apply Hrows|done..|lia].
Qed.

Lemma below_mono i j : (i <= j)%N -> (j < len rows)%N -> below j -> below i.
Proof. intros Hij Hj Hb. eapply (cmp_le_lt_trans bytes_cmp); [by apply (oid_mono i j)|exact Hb]. Qed.

(** The search ends at the first row of the interval that is not below the oid. *)
Lemma first_not_below_spec fuel start lo hi end_ :
  (start <= lo /\ lo <= hi /\ hi <= end_ /\ end_ <= len rows)%N -> (hi - lo < 2 ^ N.of_nat fuel)%N ->
  (forall i, (start <= i < lo)%N -> below i) -> (forall i, (hi <= i < end_)%N -> ~ below i) ->
  exists m, first_not_below fuel l oid lo hi = m /\ (start <= m <= end_)%N
  /\ (forall i, (start <= i < m)%N -> below i) /\ (forall i, (m <= i < end_)%N -> ~ below i).
Proof.
  revert lo hi. induction fuel as [|fuel IH]; intros lo hi Hint Hfuel Hlo Hhi; cbn [first_not_below].
  { change (2 ^ N.of_nat 0)%N with 1%N in Hfuel. assert (hi = lo) as -> by lia. exists lo. split_and!; [done|lia..|done|done]. }
  destruct (N.ltb_spec lo hi) as [Hlh|Hlh]; [|assert (hi = lo) as -> by lia; exists lo; split_and!; [done|lia..|done|done]].
  rewrite Nat2N.inj_succ, N.pow_succ_r' in Hfuel. set (mid := ((lo + hi) / 2)%N).
  assert (lo <= mid < hi /\ 2 * mid <= lo + hi < 2 * mid + 2)%N as Hmid.
  { pose proof (N.div_mod (lo + hi) 2 ltac:(done)) as Hd. pose proof (N.mod_lt (lo + hi) 2 ltac:(done)) as Hm.
    fold mid in Hd. revert Hd Hm. generalize ((lo + hi) mod 2)%N. lia. }
  clearbody mid. destruct (bytes_cmp (row_oid (row l mid)) oid) eqn:Hc.
  2: apply IH; [lia|lia| |done]; intros i Hi; destruct (N.lt_ge_cases i lo); [by apply Hlo; lia|by apply (below_mono i mid); [lia..|]].
  all: apply IH; [lia|lia|done|]; intros i Hi Hb; apply (below_mono mid i) in Hb; [|lia..]; unfold below in Hb; congruence.
Qed.

Lemma first_byte_oid r : row_wf r -> first_byte (row_oid r) = first_byte r.
Proof. unfold row_wf, row_oid. by destruct r. Qed.

(** The bucket of an oid's first byte: where rows with the oid can be. *)
Lemma bucket i r : rows !! i = Some r -> row_oid r = oid ->
  (upto_before rows (first_byte oid) <= N.of_nat i < len (rows_upto rows (first_byte oid)))%N.
Proof.
  intros Hi Heq. destruct Hrows as (Hwf & Hs & _). pose proof (sorted_first _ Hwf Hs) as Hf.
  assert (first_byte r = first_byte oid) as Hfb.
  { rewrite <-Heq. symmetry. apply first_byte_oid. rewrite Forall_forall in Hwf. apply Hwf. by eapply list_elem_of_lookup_2. }
  pose proof (proj1 (rows_upto_prefix rows (first_byte oid) i r Hf Hi) ltac:(lia)). unfold upto_before, len in *.
  destruct (N.eqb_spec (first_byte oid) 0) as [|Hb]; [lia|].
  destruct (Nat.lt_ge_cases i (length (rows_upto rows (first_byte oid - 1)))) as [Hlt|]; [|lia].
  apply (rows_upto_prefix _ _ i r Hf Hi) in Hlt. lia.
Qed.

Lemma lookup_built : len oid = OID_LEN -> lookup_oid l oid = decode_row <$> List.find (fun r => row_oid r == oid) rows.
Proof.
  intros Hlen. pose proof Hrows as (Hwf & Hs & Hmax). unfold lookup_oid. rewrite Hlen, N.eqb_refl. cbn [negb].
  pose proof (first_byte_lt oid) as Hb256. set (b := first_byte oid) in *. set (end_ := fanout l b).
  assert (end_ = len (rows_upto rows b)) as Hend by (by apply built_fanout).
  assert ((if (b =? 0)%N then 0%N else fanout l (b - 1)) = upto_before rows b) as Hlo.
  { unfold upto_before. destruct (N.eqb_spec b 0); [done|]. apply built_fanout; [done|lia]. }
  rewrite Hlo. assert (upto_before rows b <= end_)%N as Hle.
  { unfold upto_before. destruct (b =? 0)%N; [lia|]. rewrite Hend. apply rows_upto_mono. lia. }
  destruct (first_not_below_spec (N.to_nat (N.size (end_ - upto_before rows b))) (upto_before rows b) (upto_before rows b) end_ end_)
    as (m & -> & Hm & Hbelow & Habove); [pose proof (rows_upto_le rows b); lia|rewrite N2Nat.id; apply N.size_gt|intros i Hi; lia..|].
  assert (forall j r, rows !! j = Some r -> row_oid r = oid -> (m <= N.of_nat j < end_)%N) as Hin.
  { intros j r Hj Heq. pose proof (bucket j r Hj Heq) as Hbk. fold b in Hbk. split; [|lia].
    destruct (N.lt_ge_cases (N.of_nat j) m) as [Hlt|]; [|done]. exfalso. specialize (Hbelow (N.of_nat j) ltac:(lia)).
    unfold below in Hbelow. unfold row, l in Hbelow. rewrite (built_row rows Hwf Hmax _ r) in Hbelow by (by rewrite Nat2N.id).
    rewrite Heq in Hbelow. by apply (bytes_cmp_Lt_irrefl oid). }
  destruct (N.ltb_spec m end_) as [Hme|Hme]; cbn [andb].
  - destruct (rows_at m) as (r & Hr & Hrow & _); [pose proof (rows_upto_le rows b); lia|]. rewrite Hrow.
    case_bool_decide as Heq; cbn [andb].
    + rewrite (find_at _ _ _ r Hr); [done|by apply bool_decide_eq_true|]. intros j s Hj Hs'. apply bool_decide_eq_false.
      intros Hso. specialize (Hin j s Hs' Hso). lia.
    + rewrite find_absent; [done|]. intros s [j Hj]%list_elem_of_lookup_1. apply bool_decide_eq_false. intros Hso.
      specialize (Hin j s Hj Hso) as Hij. apply Heq. apply (cmp_eq (cmp := bytes_cmp)).
      pose proof (Habove m ltac:(lia)) as Hnb. unfold below in Hnb. rewrite Hrow in Hnb.
      pose proof (oid_mono m (N.of_nat j) ltac:(lia) ltac:(pose proof (rows_upto_le rows b); lia)) as Hmono. rewrite Hrow in Hmono.
      unfold row, l in Hmono. rewrite (built_row rows Hwf Hmax _ s), Hso in Hmono by (by rewrite Nat2N.id).
      destruct (bytes_cmp (row_oid r) oid); congruence.
  - rewrite find_absent; [done|]. intros s [j Hj]%list_elem_of_lookup_1. apply bool_decide_eq_false. intros Hso.
    specialize (Hin j s Hj Hso). lia.
Qed.
End lookup.

(** ** Merging *)

Lemma filter_all {A} (f : A -> bool) l : (forall x, x ∈ l -> f x = true) -> List.filter f l = l.
Proof.
  induction l as [|x l IH]; intros H; simpl; [done|]. rewrite (H x) by apply list_elem_of_here. f_equal.
  apply IH. intros y Hy. apply H. by right.
Qed.

Lemma key_cmp_Eq r s : key_cmp r s = Eq <-> sort_key r = sort_key s.
Proof. unfold key_cmp, cmp_on. split; [apply (cmp_eq (cmp := bytes_cmp))|intros ->; apply (cmp_refl bytes_cmp)]. Qed.

Definition other_key (r s : list byte) : bool := sort_key s != sort_key r.

Lemma skip_key_filter r rows : StronglySorted key_le rows -> Forall (key_le r) rows ->
  skip_key r rows = List.filter (other_key r) rows.
Proof.
  unfold other_key. intros Hs. induction Hs as [|s rows Hs IH Hle]; intros Hr; [done|]. inversion Hr as [|? ? Hrs Hr']; subst.
  cbn [skip_key List.filter]. case_bool_decide as Hk; cbn [negb]; [by apply IH|]. f_equal. symmetry. apply filter_all.
  intros t Ht. apply negb_true_iff, bool_decide_eq_false. intros Htr. apply Hk. rewrite Forall_forall in Hle. specialize (Hle t Ht).
  apply key_cmp_Eq. apply key_cmp_Eq in Htr. unfold key_le in *. pose proof (cmp_opp (cmp := key_cmp) r s) as Hop.
  assert (key_cmp s r <> Gt) as Hsr by (eapply cmp_trans; [exact Hle|]; congruence).
  destruct (key_cmp r s), (key_cmp s r); simpl in *; congruence.
Qed.

(** The pick is the first of the least heads. *)
Definition pick_ok (cs : list (list (list byte))) (pick : option (nat * list byte)) : Prop :=
  match pick with
  | None => Forall (eq []) cs
  | Some (i, r) =>
    (exists rest, cs !! i = Some (r :: rest))
    /\ (forall k s rest, k < i -> cs !! k = Some (s :: rest) -> key_lt r s)
    /\ (forall s rest, (s :: rest) ∈ cs -> key_le r s)
  end.

Lemma key_le_refl r : key_le r r.
Proof. unfold key_le. by rewrite (cmp_refl key_cmp). Qed.

Lemma pick_ok_snoc cs pick c : pick_ok cs pick ->
  pick_ok (cs ++ [c]) match c with
    | [] => pick
    | r :: _ => if match pick with None => true | Some (_, s) => match key_cmp r s with Lt => true | _ => false end end
                then Some (length cs, r) else pick
    end.
Proof.
  intros Hp. destruct c as [|r rest].
  { destruct pick as [[i s]|]; simpl in *; [|apply Forall_app; split; [done|by repeat constructor]].
    destruct Hp as ((rest & Hi) & Hlt & Hle). split_and!.
    - exists rest. by apply lookup_app_l_Some.
    - intros k t rest' Hk Hkt. apply (Hlt k t rest' Hk). rewrite lookup_app_l in Hkt; [done|]. apply lookup_lt_Some in Hi. lia.
    - intros t rest' [Ht|Ht%list_elem_of_singleton]%elem_of_app; [by apply (Hle t rest')|done]. }
  assert (pick_ok (cs ++ [r :: rest]) (Some (length cs, r)) <->
    (forall k s rest, cs !! k = Some (s :: rest) -> key_lt r s)) as Hnew.
  { split.
    - intros (_ & Hlt & _) k s rest' Hk. apply (Hlt k s rest'); [by eapply lookup_lt_Some|by apply lookup_app_l_Some].
    - intros Hlt. split_and!.
      + exists rest. by rewrite lookup_app_r, Nat.sub_diag by done.
      + intros k s rest' Hk. rewrite lookup_app_l by done. apply Hlt.
      + intros s rest' [Hs|Hs%list_elem_of_singleton]%elem_of_app; [|by injection Hs as -> _; apply key_le_refl].
        apply list_elem_of_lookup_1 in Hs as [k Hk]. unfold key_le. rewrite (Hlt k s rest' Hk). done. }
  destruct pick as [[i s]|]; [destruct (key_cmp r s) eqn:Hrs|].
  2: { apply Hnew. destruct Hp as (_ & _ & Hle). intros k t rest' Hk. unfold key_lt.
       eapply (cmp_lt_le_trans key_cmp); [exact Hrs|]. apply (Hle t rest'). by eapply list_elem_of_lookup_2. }
  3: { apply Hnew. simpl in Hp. intros k t rest' Hk. rewrite Forall_forall in Hp. by specialize (Hp _ (list_elem_of_lookup_2 _ _ _ Hk)). }
  all: destruct Hp as ((rest' & Hi) & Hlt & Hle); split_and!;
    [exists rest'; by apply lookup_app_l_Some
    |intros k t rest'' Hk Hkt; apply (Hlt k t rest'' Hk); rewrite lookup_app_l in Hkt; [done|apply lookup_lt_Some in Hi; lia]
    |intros t rest'' [Ht|Ht%list_elem_of_singleton]%elem_of_app; [by apply (Hle t rest'')|injection Ht as -> _]].
  all: unfold key_le; rewrite (cmp_opp (cmp := key_cmp)), Hrs; done.
Qed.

Lemma pick_part_ok cs cursors pick : pick_ok cs pick -> pick_ok (cs ++ cursors) (pick_part (length cs) pick cursors).
Proof.
  revert cs pick. induction cursors as [|c cursors IH]; intros cs pick Hp; [by rewrite app_nil_r|].
  pose proof (pick_ok_snoc cs pick c Hp) as Hs. specialize (IH (cs ++ [c]) _ Hs). rewrite <-app_assoc in IH.
  rewrite length_app, Nat.add_1_r in IH. by destruct c.
Qed.

(** *** The rows that are left after a pick *)

Lemma concat_filter {A} (f : A -> bool) ls : concat (map (List.filter f) ls) = List.filter f (concat ls).
Proof. induction ls as [|l ls IH]; simpl; [done|]. by rewrite List.filter_app, IH. Qed.

(** Every row of sorted cursors is at least the picked one. *)
Lemma pick_least cs i r : Forall (StronglySorted key_le) cs -> pick_ok cs (Some (i, r)) ->
  forall c, c ∈ cs -> Forall (key_le r) c.
Proof.
  intros Hs (_ & _ & Hle) c Hc. rewrite Forall_forall in Hs. specialize (Hs c Hc). destruct c as [|s c]; [constructor|].
  specialize (Hle s c Hc). constructor; [done|]. inversion Hs as [|? ? _ Hsc]; subst. rewrite Forall_forall in Hsc |- *.
  intros t Ht. etrans; [exact Hle|by apply Hsc].
Qed.

Lemma advance_filter cs i r : Forall (StronglySorted key_le) cs -> pick_ok cs (Some (i, r)) ->
  map (skip_key r) (alter (@tail (list byte)) i cs) = map (List.filter (other_key r)) cs.
Proof.
  intros Hs Hp. pose proof (pick_least cs i r Hs Hp) as Hle. destruct Hp as ((rest & Hi) & _ & _).
  apply list_eq. intros k. rewrite !list_lookup_fmap. rewrite Forall_forall in Hs. destruct (decide (i = k)) as [<-|Hik].
  - rewrite list_lookup_alter_eq, Hi. cbn [fmap option_fmap option_map tail]. f_equal. assert ((r :: rest) ∈ cs) as Hin by (by eapply list_elem_of_lookup_2).
    rewrite <-(skip_key_filter r (r :: rest) (Hs _ Hin) (Hle _ Hin)). cbn [skip_key]. by rewrite bool_decide_eq_true_2.
  - rewrite list_lookup_alter_ne by done. destruct (cs !! k) as [c|] eqn:Hk; [|done]. simpl. f_equal.
    apply list_elem_of_lookup_2 in Hk. by apply skip_key_filter; [apply Hs|apply Hle].
Qed.

(** The first row with a key, in part order. *)
Definition first_with (k : list byte) (rows : list (list byte)) : option (list byte) := List.find (fun s => sort_key s == k) rows.

Lemma first_with_filter r k rows : k <> sort_key r -> first_with k (List.filter (other_key r) rows) = first_with k rows.
Proof.
  intros Hk. unfold first_with, other_key. induction rows as [|s rows IH]; simpl; [done|].
  case_bool_decide as Hsr; cbn [negb]; simpl.
  - rewrite IH. rewrite (bool_decide_eq_false_2 (sort_key s = k)) by congruence. done.
  - by rewrite IH.
Qed.

Lemma first_with_concat k cs i c r : cs !! i = Some c -> first_with k c = Some r ->
  (forall j c', j < i -> cs !! j = Some c' -> first_with k c' = None) -> first_with k (concat cs) = Some r.
Proof.
  revert i. induction cs as [|c' cs IH]; intros i Hi Hr Hlt; [done|]. simpl. unfold first_with in *. rewrite find_app.
  destruct i as [|i]; simpl in Hi.
  - injection Hi as ->. by rewrite Hr.
  - rewrite (Hlt 0 c') by (done || lia). apply (IH i Hi Hr). intros j c'' Hj. apply (Hlt (S j)). lia.
Qed.

Lemma pick_first cs i r : Forall (StronglySorted key_le) cs -> pick_ok cs (Some (i, r)) -> first_with (sort_key r) (concat cs) = Some r.
Proof.
  intros Hs ((rest & Hi) & Hlt & _). apply (first_with_concat _ _ i _ _ Hi).
  - unfold first_with. simpl. by rewrite bool_decide_eq_true_2.
  - intros j c Hj Hc. apply find_absent. intros s Hsc. apply bool_decide_eq_false. intros Heq%key_cmp_Eq.
    rewrite Forall_forall in Hs. specialize (Hs c (list_elem_of_lookup_2 _ _ _ Hc)). destruct c as [|h c]; [by apply elem_of_nil in Hsc|].
    specialize (Hlt j h c Hj Hc). unfold key_lt in Hlt. apply elem_of_cons in Hsc as [->|Hsc].
    + rewrite (cmp_opp (cmp := key_cmp)), Heq in Hlt. done.
    + inversion Hs as [|? ? _ Hh]; subst. rewrite Forall_forall in Hh. specialize (Hh s Hsc). unfold key_le in Hh.
      pose proof (cmp_lt_le_trans key_cmp r h s Hlt Hh) as Hrs. rewrite (cmp_opp (cmp := key_cmp)), Heq in Hrs. done.
Qed.

(** *** The merge *)

Lemma merge_rows_spec fuel cs : Forall (StronglySorted key_le) cs -> length (concat cs) <= fuel ->
  StronglySorted key_lt (merge_rows fuel cs)
  /\ forall r, r ∈ merge_rows fuel cs <-> first_with (sort_key r) (concat cs) = Some r.
Proof.
  revert cs. induction fuel as [|fuel IH]; intros cs Hs Hf.
  { destruct (concat cs) eqn:Hc; simpl in Hf; [|lia]. split; [constructor|]. intros r. split; [by intros ?%elem_of_nil|done]. }
  cbn [merge_rows]. pose proof (pick_part_ok [] cs None) as Hp. cbn [app length] in Hp. specialize (Hp (List.Forall_nil _)).
  destruct (pick_part 0 None cs) as [[i r]|]; simpl in Hp.
  - rewrite (advance_filter cs i r Hs Hp). pose proof (pick_first cs i r Hs Hp) as Hfirst. pose proof (pick_least cs i r Hs Hp) as Hleast.
    destruct (IH (map (List.filter (other_key r)) cs)) as [Hsorted Hmem].
    + apply Forall_map. eapply Forall_impl; [exact Hs|]. intros c Hc. by apply sorted_filter.
    + rewrite concat_filter. apply find_some in Hfirst as [Hin _]. apply list_elem_of_In in Hin.
      apply list_elem_of_split in Hin as (l1 & l2 & Heq). rewrite Heq in Hf |- *. rewrite List.filter_app. simpl.
      unfold other_key at 2. rewrite bool_decide_eq_true_2 by done. cbn [negb].
      pose proof (List.filter_length_le (other_key r) l1). pose proof (List.filter_length_le (other_key r) l2).
      rewrite length_app in *. simpl in Hf. lia.
    + rewrite concat_filter in Hmem. split.
      * constructor; [done|]. apply Forall_forall. intros s Hs'%Hmem. unfold key_lt.
        apply find_some in Hs' as [Hin _]. apply filter_In in Hin as [Hin Hother]. apply list_elem_of_In in Hin.
        apply negb_true_iff, bool_decide_eq_false in Hother. assert (key_le r s) as Hle.
        { apply list_elem_of_In, in_concat in Hin as (c & Hc & Hsc). specialize (Hleast c ltac:(by apply list_elem_of_In)).
          rewrite Forall_forall in Hleast. apply Hleast. by apply list_elem_of_In. }
        unfold key_le in Hle. destruct (key_cmp r s) eqn:Hrs; [|done|done]. apply key_cmp_Eq in Hrs. congruence.
      * intros s. rewrite elem_of_cons, Hmem. destruct (decide (sort_key s = sort_key r)) as [Heq|Hne].
        -- rewrite Heq, Hfirst. split; [|intros [= ->]; by left]. intros [->|Hx]; [done|].
           apply find_some in Hx as [Hin _]. apply filter_In in Hin as [_ Hin]. apply negb_true_iff, bool_decide_eq_false in Hin. done.
        -- rewrite first_with_filter by done. split; [intros [->|Hx]; [done|exact Hx]|by right].
  - split; [constructor|]. intros r. split; [by intros ?%elem_of_nil|]. enough (concat cs = []) as -> by done.
    clear -Hp. induction Hp as [|c cs <- _ IH]; simpl; done.
Qed.

Lemma merge_rows_In fuel cs r : Forall (StronglySorted key_le) cs -> length (concat cs) <= fuel ->
  r ∈ merge_rows fuel cs -> r ∈ concat cs.
Proof.
  intros Hs Hf Hr. apply (merge_rows_spec fuel cs Hs Hf) in Hr. apply find_some in Hr as [Hin _]. by apply list_elem_of_In.
Qed.

(** A part: a locator over sorted rows, as every parsed or built one is. *)
Definition valid (l : ObjectLocator) : Prop := sorted_rows (all_rows l) /\ from_sorted_rows (all_rows l) = l.

Lemma valid_built rows : sorted_rows rows -> valid (from_sorted_rows rows).
Proof. intros H. pose proof H as (Hwf & _ & Hmax). unfold valid. by rewrite all_rows_built. Qed.

Lemma valid_parse bytes l : parse_locator bytes = Ok l -> valid l.
Proof. intros (H1 & H2 & _)%parse_locator_Ok. by split. Qed.

Lemma StronglySorted_key_NoDup rows : StronglySorted key_lt rows -> NoDup rows.
Proof.
  induction 1 as [|r rows _ IH Hr]; constructor; [|done]. intros Hin. rewrite Forall_forall in Hr. specialize (Hr r Hin).
  unfold key_lt in Hr. by rewrite (cmp_refl key_cmp) in Hr.
Qed.

Lemma parts_wf parts : Forall valid parts -> Forall row_wf (concat (map all_rows parts)).
Proof.
  intros Hv. apply Forall_forall. intros r Hr. apply list_elem_of_In, in_concat in Hr as (c & (l & <- & Hl)%in_map_iff & Hrc).
  rewrite Forall_forall in Hv. destruct (Hv l ltac:(by apply list_elem_of_In)) as [(Hwf & _) _].
  rewrite Forall_forall in Hwf. apply Hwf. by apply list_elem_of_In.
Qed.

Lemma merge_sorted parts : Forall valid parts -> (len (concat (map all_rows parts)) < 2 ^ 32)%N ->
  let rows := merge_rows (length (concat (map all_rows parts))) (map all_rows parts) in
  sorted_rows rows /\ StronglySorted key_lt rows
  /\ forall r, r ∈ rows <-> first_with (sort_key r) (concat (map all_rows parts)) = Some r.
Proof.
  intros Hv Hmax rows. set (cs := map all_rows parts) in *.
  assert (Forall (StronglySorted key_le) cs) as Hs.
  { apply Forall_map. eapply Forall_impl; [exact Hv|]. intros l [(_ & Hs & _) _]. exact Hs. }
  destruct (merge_rows_spec (length (concat cs)) cs Hs (le_n _)) as [Hlt Hmem].
  assert (forall r, r ∈ rows -> r ∈ concat cs) as Hin by (intros r; by apply merge_rows_In).
  split; [|by split]. split_and!.
  - pose proof (parts_wf parts Hv) as Hwf. rewrite Forall_forall in Hwf |- *. intros r Hr%Hin. by apply Hwf.
  - clear -Hlt. fold rows in Hlt. induction Hlt as [|r l _ IH Hr]; constructor; [done|]. eapply Forall_impl; [exact Hr|].
    intros s Hrs. unfold key_le. unfold key_lt in Hrs. congruence.
  - eapply N.le_lt_trans; [|exact Hmax]. unfold len.
    assert (length rows <= length (concat cs)); [|lia]. apply NoDup_incl_length.
    + apply NoDup_ListNoDup. by apply StronglySorted_key_NoDup.
    + intros r Hr%list_elem_of_In. by apply list_elem_of_In, Hin.
Qed.

(** ** The lowest [packRef] *)

Lemma from_be_cons b l : from_be (b :: l) = (byte_val b * 256 ^ len l + from_be l)%N.
Proof.
  induction l as [|c l IH] using rev_ind; [unfold from_be, len; simpl; lia|].
  rewrite app_comm_cons, !from_be_snoc, IH, len_app. change (len [c]) with 1%N. rewrite N.add_1_r, N.pow_succ_r'. lia.
Qed.

Lemma bytes_cmp_from_be a b : length a = length b -> bytes_cmp a b <> Gt -> (from_be a <= from_be b)%N.
Proof.
  revert b. induction a as [|x a IH]; intros [|y b] Hl; simpl in Hl; try lia. intros Hc.
  pose proof (ascii_lt_first _ _ _ _ Hc) as Hxy. rewrite !from_be_cons. assert (len a = len b) as -> by (unfold len; lia).
  destruct (N.eq_dec (byte_val x) (byte_val y)) as [Heq|Hne].
  - rewrite Heq. apply N.add_le_mono_l, IH; [lia|]. rewrite bytes_cmp_cons in Hc. destruct (Ascii.compare x y) eqn:E; [done| |done].
    unfold byte_val in Heq. unfold Ascii.compare in E. by rewrite Heq, N.compare_refl in E.
  - pose proof (from_be_lt a). assert (len a = len b) as Hab by (unfold len; lia). rewrite Hab in *.
    assert (byte_val x + 1 <= byte_val y)%N as Hs by lia. apply (N.mul_le_mono_r _ _ (256 ^ len b)) in Hs. lia.
Qed.

Lemma sort_key_split r : sort_key r = row_oid r ++ sub r OFF_PACKREF 2.
Proof.
  unfold sort_key, row_oid, sub, OFF_PACKREF. change (N.to_nat SORT_KEY_LEN) with (20 + 2). change (N.to_nat OID_LEN) with 20.
  symmetry. apply take_take_drop.
Qed.

Lemma key_le_pack_ref r s : row_wf r -> row_wf s -> row_oid r = row_oid s -> key_le r s ->
  (le_pack_ref (decode_row r) <= le_pack_ref (decode_row s))%N.
Proof.
  unfold row_wf, key_le, key_cmp, cmp_on. intros Hr Hs Ho. rewrite !sort_key_split, Ho, bytes_cmp_app, (cmp_refl bytes_cmp) by done.
  apply bytes_cmp_from_be. rewrite !sub_sub; [done|unfold len, OFF_PACKREF, OID_LEN; lia..].
Qed.

(** The first row for an oid has the lowest [packRef]. *)
Lemma find_lowest rows oid r s : sorted_rows rows -> List.find (fun r => row_oid r == oid) rows = Some r ->
  s ∈ rows -> row_oid s = oid -> (le_pack_ref (decode_row r) <= le_pack_ref (decode_row s))%N.
Proof.
  intros (Hwf & Hs & _) Hr Hin Hso. induction Hs as [|t rows Hs IH Ht]; [done|]. inversion Hwf as [|? ? Hwt Hws]; subst.
  simpl in Hr. case_bool_decide as Hto.
  - injection Hr as <-. apply elem_of_cons in Hin as [->|Hin]; [done|]. rewrite Forall_forall in Ht, Hws.
    apply key_le_pack_ref; [done|by apply Hws|done|by apply Ht].
  - apply elem_of_cons in Hin as [->|Hin]; [done|]. by apply IH.
Qed.

Lemma find_oid rows oid : match List.find (fun r => row_oid r == oid) rows with
  | Some r => r ∈ rows /\ row_oid r = oid | None => forall s, s ∈ rows -> row_oid s <> oid end.
Proof.
  destruct (List.find _ rows) as [r|] eqn:E.
  - apply find_some in E as [Hin Ho]. apply bool_decide_eq_true in Ho. split; [by apply list_elem_of_In|done].
  - intros s Hs Ho. apply (find_none _ _ E) in Hs || (apply list_elem_of_In in Hs; apply (find_none _ _ E) in Hs).
    by apply bool_decide_eq_false in Hs.
Qed.

(** What a lookup answers: the lowest-[packRef] row for the oid, if there is one. *)
Definition answers (rows : list (list byte)) (oid : list byte) (e : option LocatorEntry) : Prop :=
  match e with
  | Some e => exists r, r ∈ rows /\ row_oid r = oid /\ e = decode_row r
      /\ forall s, s ∈ rows -> row_oid s = oid -> (le_pack_ref e <= le_pack_ref (decode_row s))%N
  | None => len oid = OID_LEN -> forall s, s ∈ rows -> row_oid s <> oid
  end.

Lemma lookup_valid l oid : valid l -> answers (all_rows l) oid (lookup_oid l oid).
Proof.
  intros [Hs Hl]. destruct (N.eqb_spec (len oid) OID_LEN) as [Ho|Ho].
  - rewrite <-Hl at 2. rewrite (lookup_built _ Hs oid Ho). pose proof (find_oid (all_rows l) oid) as Hf.
    destruct (List.find _ _) as [r|] eqn:E; simpl; [|done]. destruct Hf as [Hin Hro]. exists r. split_and!; [done..|].
    intros s. by apply (find_lowest _ oid).
  - unfold lookup_oid. apply N.eqb_neq in Ho as Hb. rewrite Hb. intros Hx. done.
Qed.

(** ** The rows of a pack *)

(** The entry an object's row decodes to. *)
Definition entry_of (pack_ref : N) (o : PackObject) : LocatorEntry :=
  mkLocatorEntry pack_ref (po_offset o) (sat_u32 (po_length o)) (sat_u32 (po_delta_chain_span o)) (sat_u8 (po_delta_depth o)).

(** What a pack must be for its objects to have rows. *)
Definition locator_quality (p : ParsedPack) : Prop :=
  forall o, o ∈ pp_objects p -> po_is_ref_delta o = false /\ po_contiguous o = true /\ (po_offset o < 2 ^ 40)%N.

Lemma sub_app_l a b n : len a = n -> sub (a ++ b) 0 n = a.
Proof. intros H. unfold sub. rewrite drop_0. rewrite <-H. unfold len. by rewrite Nat2N.id, take_app_length. Qed.

Lemma sub_skip a b k s n : len a = k -> sub (a ++ b) (k + s) n = sub b s n.
Proof.
  intros <-. unfold sub. replace (N.to_nat (len a + s)) with (length a + N.to_nat s) by (unfold len; lia).
  by rewrite <-drop_drop, drop_app_length.
Qed.

Lemma len_be w n : len (be w n) = N.of_nat w.
Proof. unfold len. by rewrite length_be. Qed.

Lemma Ok_inj {A} (x y : A) : Ok x = Ok y -> x = y.
Proof. congruence. Qed.

Lemma object_row_Ok pack_ref o r : len (po_oid o) = OID_LEN -> (pack_ref <= u16_max)%N -> po_contiguous o = true ->
  object_row pack_ref o = Ok r ->
  (po_offset o < 2 ^ 40)%N /\ row_wf r /\ row_oid r = po_oid o /\ sub r OFF_PACKREF 2 = be 2 pack_ref /\ decode_row r = entry_of pack_ref o.
Proof.
  intros Ho Href Hc. unfold object_row, u40_be. rewrite Hc. destruct (N.ltb_spec 1099511627775 (po_offset o)) as [|Hoff]; [done|].
  cbn [mbind Result_bind]. intros <-%Ok_inj. change (2 ^ 40)%N with 1099511627776%N. split; [lia|].
  assert (sat_u32 (po_length o) < 256 ^ 4 /\ sat_u32 (po_delta_chain_span o) < 256 ^ 4 /\ sat_u8 (po_delta_depth o) < 256)%N as (Hl & Hsp & Hd).
  { unfold sat_u32, sat_u8. change (256 ^ 4)%N with (u32_max + 1)%N. change 256%N with (u8_max + 1)%N. lia. }
  unfold row_wf, row_oid, decode_row, entry_of.
  change (N.to_nat OID_LEN) with 20. change OFF_PACKREF with 20%N. change OFF_OFFSET with 22%N. change OFF_LENGTH with 27%N.
  change OFF_SPAN with 31%N. change OFF_HINT with 35%N. change OID_LEN with 20%N in Ho.
  split_and!.
  - rewrite !length_app, !length_be. unfold len in Ho. simpl. lia.
  - replace 20 with (length (po_oid o)) by (unfold len in Ho; lia). apply take_app_length.
  - change 20%N with (20 + 0)%N at 1. rewrite (sub_skip _ _ _ _ _ Ho). apply sub_app_l, (len_be 2).
  - change 20%N with (20 + 0)%N at 1. change 22%N with (20 + (2 + 0))%N. change 27%N with (20 + (2 + (5 + 0)))%N.
    change 31%N with (20 + (2 + (5 + (4 + 0))))%N. change 35%N with (20 + (2 + (5 + (4 + (4 + 0)))))%N.
    rewrite !(sub_skip _ _ _ _ _ Ho), !(sub_skip _ _ _ _ _ (len_be 2 _)), !(sub_skip _ _ _ _ _ (len_be 5 _)),
      !(sub_skip _ _ _ _ _ (len_be 4 _)), (sub_app_l _ _ 2 (len_be 2 _)), (sub_app_l _ _ 5 (len_be 5 _)), !(sub_app_l _ _ 4 (len_be 4 _)).
    rewrite !from_be_be; [f_equal; by apply byte_val_of|done|done|change (256 ^ N.of_nat 5)%N with 1099511627776%N; lia|].
    change (256 ^ N.of_nat 2)%N with (u16_max + 1)%N. lia.
Qed.

Lemma object_row_total pack_ref o : (po_offset o < 2 ^ 40)%N -> exists r, object_row pack_ref o = Ok r.
Proof.
  intros Ho. unfold object_row, u40_be. change (2 ^ 40)%N with 1099511627776%N in Ho. rewrite (proj2 (N.ltb_ge _ _)) by lia.
  cbn [mbind Result_bind]. by eexists.
Qed.

Lemma object_row_not_panic pack_ref o : object_row pack_ref o <> Panic.
Proof. unfold object_row, u40_be. by destruct (_ <? _)%N. Qed.

Lemma mapM_total {A B} (f : A -> Result B) l : (forall x, x ∈ l -> exists y, f x = Ok y) -> exists k, mapM f l = Ok k.
Proof.
  induction l as [|x l IH]; intros H; simpl; [by eexists|]. destruct (H x ltac:(left)) as [y ->].
  destruct IH as [k ->]; [|by eexists]. intros z Hz. apply H. by right.
Qed.

Lemma mapM_not_panic {A B} (f : A -> Result B) l : (forall x, f x <> Panic) -> mapM f l <> Panic.
Proof.
  intros H. induction l as [|x l IH]; simpl; [done|]. specialize (H x). destruct (f x); [|done..]. simpl.
  by destruct (mapM f l).
Qed.

Lemma length_filter_0 {A} (f : A -> bool) l : (0 <? len (List.filter f l))%N = false <-> forall x, x ∈ l -> f x = false.
Proof.
  induction l as [|x l IH]; simpl; [split; [by intros _ y ?%elem_of_nil|done]|]. destruct (f x) eqn:E.
  - rewrite len_cons. split; [intros H%N.ltb_ge; lia|]. intros H. by rewrite H in E by left.
  - rewrite IH. setoid_rewrite elem_of_cons. split; [by intros H y [->|Hy]; [|apply H]|auto].
Qed.

(** An object's row carries its oid, so finding a row is finding an object; the sort is
    stable, so the first of either is the same. *)
Lemma find_object (objects : list PackObject) oid :
  List.find (fun o => po_oid o == oid) (sort_by (cmp_on po_oid bytes_cmp) objects) = List.find (fun o => po_oid o == oid) objects.
Proof.
  assert (forall l : list PackObject, List.find (fun o => po_oid o == oid) l = head (List.filter (fun o => po_oid o == oid) l)) as Hh.
  { intros l. induction l as [|o l IH]; simpl; [done|]. by case_bool_decide. }
  rewrite !Hh, (sort_by_filter _). f_equal. apply sort_by_id.
  induction objects as [|o l IH]; simpl; [constructor|]. case_bool_decide as Ho; [|done]. constructor; [done|].
  apply Forall_forall. intros o' Ho'. apply list_elem_of_In, filter_In in Ho' as [_ Ho'%bool_decide_eq_true].
  unfold cmp_on. by rewrite Ho, Ho', (cmp_refl bytes_cmp).
Qed.

Lemma find_rows pack_ref objects rows oid :
  Forall2 (fun o r => row_oid r = po_oid o /\ decode_row r = entry_of pack_ref o) objects rows ->
  decode_row <$> List.find (fun r => row_oid r == oid) rows = entry_of pack_ref <$> List.find (fun o => po_oid o == oid) objects.
Proof.
  induction 1 as [|o r objects rows [Ho Hd] _ IH]; simpl; [done|]. rewrite Ho. case_bool_decide; [|done]. simpl. by rewrite Hd.
Qed.

Section rows_for.
Context (p : ParsedPack) (Hgeo : geometry p) (pack_ref : N) (Href : (pack_ref <= u16_max)%N).

Lemma rows_for_quality : match rows_for p pack_ref with
  | Ok _ => locator_quality p | Err _ => ~ locator_quality p | Panic => False end.
Proof.
  unfold rows_for, ref_delta_count. destruct (0 <? len (List.filter po_is_ref_delta _))%N eqn:Hr; cbn [orb].
  { intros Hq. assert ((0 <? len (List.filter po_is_ref_delta (pp_objects p)))%N = false); [|congruence].
    apply length_filter_0. intros o Ho. by apply Hq. }
  pose proof (proj1 (length_filter_0 _ _) Hr) as Hself. destruct (0 <? len (List.filter (fun o => negb _) _))%N eqn:Hn.
  { intros Hq. assert ((0 <? len (List.filter (fun o => negb (po_contiguous o)) (pp_objects p)))%N = false); [|congruence].
    apply length_filter_0. intros o Ho. apply negb_false_iff. apply (Hq o Ho). }
  pose proof (proj1 (length_filter_0 _ _) Hn) as Hcont.
  destruct (mapM _ _) as [rows| |] eqn:Hm; simpl.
  - apply mapM_Ok in Hm. intros o Ho. pose proof (Hcont o Ho) as Hc%negb_false_iff. split_and!; [by apply Hself|done|].
    assert (o ∈ sort_by (cmp_on po_oid bytes_cmp) (pp_objects p)) as [i Hi]%list_elem_of_lookup_1 by (by apply elem_of_sort_by).
    destruct (Forall2_lookup_l _ _ _ _ _ Hm Hi) as (r & _ & Hr'). by apply (object_row_Ok pack_ref o r (geo_oid p Hgeo o Ho)).
  - intros Hq. destruct (mapM_total (object_row pack_ref) (sort_by (cmp_on po_oid bytes_cmp) (pp_objects p))) as [k Hk]; [|congruence].
    intros o Ho%elem_of_sort_by. apply object_row_total, Hq, Ho.
  - by apply (mapM_not_panic (object_row pack_ref)) in Hm; [|apply object_row_not_panic].
Qed.

Lemma rows_for_Ok rows : rows_for p pack_ref = Ok rows -> sorted_rows rows
  /\ Forall2 (fun o r => row_oid r = po_oid o /\ decode_row r = entry_of pack_ref o) (sort_by (cmp_on po_oid bytes_cmp) (pp_objects p)) rows.
Proof.
  intros H. pose proof rows_for_quality as Hq. rewrite H in Hq. revert H. unfold rows_for. destruct (_ || _); [done|].
  intros Hm%mapM_Ok. set (objects := sort_by (cmp_on po_oid bytes_cmp) (pp_objects p)) in *.
  assert (Forall2 (fun o r => row_wf r /\ row_oid r = po_oid o /\ sub r OFF_PACKREF 2 = be 2 pack_ref /\ decode_row r = entry_of pack_ref o)
    objects rows) as Hall.
  { apply Forall2_same_length_lookup. split; [by eapply Forall2_length|]. intros i o r Ho Hr.
    pose proof (Forall2_lookup_lr _ _ _ _ _ _ Hm Ho Hr) as Hrow.
    assert (o ∈ pp_objects p) as Hin by (apply (elem_of_sort_by (cmp_on po_oid bytes_cmp)); by eapply list_elem_of_lookup_2).
    by apply object_row_Ok; [apply (geo_oid p Hgeo)|..|apply Hq|]. }
  split; [|eapply Forall2_impl; [exact Hall|]; simpl; tauto]. split_and!.
  - clear -Hall. induction Hall as [|o r ? ? (? & _)]; by constructor.
  - pose proof (sort_by_sorted (cmp_on po_oid bytes_cmp) (pp_objects p)) as Hs. fold objects in Hs. clearbody objects.
    clear -Hall Hs. induction Hall as [|o r objects rows (Hwf & Ho & Hp & _) Hall IH]; [constructor|].
    inversion Hs as [|? ? Hs' Hle]; subst. constructor; [by apply IH|]. apply Forall_lookup. intros i s Hsi.
    destruct (Forall2_lookup_r _ _ _ _ _ Hall Hsi) as (o' & Ho' & Hwf' & Hoid' & Hp' & _).
    rewrite Forall_lookup in Hle. specialize (Hle i o' Ho'). unfold cmp_on in Hle. unfold key_le, key_cmp, cmp_on.
    rewrite !sort_key_split, Hp, Hp', bytes_cmp_app, Ho, Hoid', (cmp_refl bytes_cmp).
    + by destruct (bytes_cmp _ _).
    + unfold row_wf, row_oid in *. rewrite !length_take. lia.
  - unfold len. rewrite <-(Forall2_length _ _ _ Hall). unfold objects. rewrite (Permutation_length (sort_by_perm _ _)). apply Hgeo.
Qed.
End rows_for.

(** Only the keys of the rows matter to what answers say, save the entry itself. *)
Lemma pack_ref_key r : le_pack_ref (decode_row r) = from_be (sub r OFF_PACKREF 2).
Proof. done. Qed.

Lemma sort_key_parts r s : row_wf r -> row_wf s -> sort_key r = sort_key s ->
  row_oid r = row_oid s /\ le_pack_ref (decode_row r) = le_pack_ref (decode_row s).
Proof.
  unfold row_wf. intros Hr Hs. rewrite !sort_key_split, !pack_ref_key. intros Hk. apply app_inj_1 in Hk as [-> ->]; [done|].
  unfold row_oid. rewrite !length_take. lia.
Qed.

(** Rows with the same keys, of which the first are the ones looked through. *)
Lemma answers_rows rows rows' oid e : Forall row_wf rows -> Forall row_wf rows' -> (forall r, r ∈ rows -> r ∈ rows') ->
  (forall r, r ∈ rows' -> exists s, s ∈ rows /\ sort_key s = sort_key r) ->
  answers rows oid e -> answers rows' oid e.
Proof.
  rewrite !Forall_forall. intros Hw Hw' Hin Hkey. destruct e as [e|]; cbn [answers].
  - intros (r & Hr & Ho & -> & Hle). exists r. split_and!; [by apply Hin|done..|]. intros s Hs Hso.
    destruct (Hkey s Hs) as (t & Ht & Hk). destruct (sort_key_parts t s (Hw t Ht) (Hw' s Hs) Hk) as [Hto <-].
    apply Hle; [done|congruence].
  - intros Hn Ho s Hs Hso. destruct (Hkey s Hs) as (t & Ht & Hk).
    destruct (sort_key_parts t s (Hw t Ht) (Hw' s Hs) Hk) as [Hto _]. apply (Hn Ho t Ht). congruence.
Qed.

(** ** Theorems *)

(** The bytes the parser accepts are exactly those that sorted rows serialize to, fanout
    included, so a parsed locator is one [from_sorted_rows] could have built. *)
Theorem parse_locator_spec bytes l :
  parse_locator bytes = Ok l <-> exists rows, sorted_rows rows /\ l = from_sorted_rows rows /\ bytes = ol_bytes l.
Proof.
  split.
  - intros (Hs & Hl & Hb)%parse_locator_Ok. exists (all_rows l). by split_and!.
  - intros (rows & Hs & -> & ->). by apply parse_built.
Qed.

(** Looking an oid up in a parsed locator, by one bucket and a binary search, answers as a
    scan of all the rows would: the row with the lowest [packRef] for the oid, or none when no
    row has it. *)
Theorem lookup_oid_spec bytes l oid (Hl : parse_locator bytes = Ok l) :
  answers (all_rows l) oid (lookup_oid l oid)
  /\ (len oid = OID_LEN -> lookup_oid l oid = decode_row <$> List.find (fun r => row_oid r == oid) (all_rows l)).
Proof.
  apply valid_parse in Hl as Hv. split; [by apply lookup_valid|]. intros Ho. destruct Hv as [Hs Hb]. rewrite <-Hb at 1. by apply lookup_built.
Qed.

(** C20: merging published locators gives one that parses again, whose rows are strictly
    sorted and are, for each [(oid, packRef)], the first part's row for it, so that a lookup
    answers with the lowest [packRef] any part has for the oid and none is lost. *)
Theorem merge_spec parts (Hparts : forall l, l ∈ parts -> exists bytes, parse_locator bytes = Ok l)
  (Hmax : (len (concat (map all_rows parts)) < 2 ^ 32)%N) :
  parse_locator (ol_bytes (merge parts)) = Ok (merge parts)
  /\ StronglySorted key_lt (all_rows (merge parts))
  /\ (forall r, r ∈ all_rows (merge parts) <-> first_with (sort_key r) (concat (map all_rows parts)) = Some r)
  /\ (forall oid, answers (concat (map all_rows parts)) oid (lookup_oid (merge parts) oid)).
Proof.
  assert (Forall valid parts) as Hv by (apply Forall_forall; intros l Hl; destruct (Hparts l Hl); by eapply valid_parse).
  destruct (merge_sorted parts Hv Hmax) as (Hs & Hlt & Hmem). unfold merge. set (rows := merge_rows _ _) in *.
  pose proof Hs as (Hwf & _ & Hcount). rewrite all_rows_built by done. split_and!; [by apply parse_built|done..|].
  intros oid. pose proof (lookup_valid _ oid (valid_built rows Hs)) as Ha. rewrite all_rows_built in Ha by done.
  assert (forall r, r ∈ rows -> r ∈ concat (map all_rows parts)) as Hin.
  { intros r Hr%Hmem. apply find_some in Hr as [Hin _]. by apply list_elem_of_In. }
  apply (answers_rows rows); [done|by apply parts_wf|done| |done]. intros r Hr%list_elem_of_In.
  destruct (first_with (sort_key r) (concat (map all_rows parts))) as [s|] eqn:E.
  - pose proof E as [_ Hk]%find_some. apply bool_decide_eq_true in Hk. exists s. split; [apply Hmem; by rewrite Hk|done].
  - apply (find_none _ _ E) in Hr. by apply bool_decide_eq_false in Hr.
Qed.

(** The locator of a parsed pack: it is refused exactly when the pack has a reference
    delta, a chain that is not contiguous or an offset over five bytes, never panics, and
    otherwise parses again and answers every oid with the offset, length, span and depth of the
    first object of the pack with it. *)
Theorem build_lookup_spec sha256 pack idx p pack_ref (Hp : parse sha256 pack idx = Ok p) (Href : (pack_ref <= u16_max)%N) :
  match build_locator p pack_ref with
  | Ok l => locator_quality p /\ parse_locator (ol_bytes l) = Ok l
      /\ forall oid, len oid = OID_LEN ->
           lookup_oid l oid = entry_of pack_ref <$> List.find (fun o => po_oid o == oid) (pp_objects p)
  | Err _ => ~ locator_quality p
  | Panic => False
  end.
Proof.
  destruct (parse_geometry _ _ _ _ Hp) as [Hgeo _]. pose proof (rows_for_quality p Hgeo pack_ref Href) as Hq. unfold build_locator.
  destruct (rows_for p pack_ref) as [rows| |] eqn:E; [|done..]. destruct (rows_for_Ok p Hgeo pack_ref Href rows E) as [Hs Hall].
  cbn [mbind Result_bind]. split_and!; [done|by apply parse_built|]. intros oid Ho.
  rewrite lookup_built by done. by rewrite (find_rows _ _ _ oid Hall), find_object.
Qed.

(** ** Witnesses *)

(** The example pack, as the pack of two positions. *)
Definition example_locator (pack_ref : N) : ObjectLocator :=
  match build_locator example_parsed pack_ref with Ok l => l | _ => mkObjectLocator [] 0 end.

Example example_row : lookup_oid (example_locator 7) (repeat (byte_of 9) 20) = Some (mkLocatorEntry 7 25 11 24 1).
Proof. vm_compute. reflexivity. Qed.

Example example_short : parse_locator (bytes "fanout") = Err (Config "locator shorter than fanout").
Proof. vm_compute. reflexivity. Qed.

Lemma lookup_oid_spec_witness :
  lookup_oid (example_locator 7) (repeat (byte_of 9) 20)
  = decode_row <$> List.find (fun r => row_oid r == repeat (byte_of 9) 20) (all_rows (example_locator 7)).
Proof.
  refine (proj2 (lookup_oid_spec (ol_bytes (example_locator 7)) (example_locator 7) (repeat (byte_of 9) 20) _) _); vm_compute; reflexivity.
Defined.

Lemma merge_spec_witness :
  answers (concat (map all_rows [example_locator 4; example_locator 2])) (repeat (byte_of 9) 20)
    (lookup_oid (merge [example_locator 4; example_locator 2]) (repeat (byte_of 9) 20))
  /\ lookup_oid (merge [example_locator 4; example_locator 2]) (repeat (byte_of 9) 20) = Some (mkLocatorEntry 2 25 11 24 1).
Proof.
  split; [|vm_compute; reflexivity].
  refine (proj2 (proj2 (proj2 (merge_spec [example_locator 4; example_locator 2] _ _))) _); [|vm_compute; reflexivity].
  intros l Hl. rewrite !elem_of_cons in Hl. destruct Hl as [->|[->|[]%elem_of_nil]];
    [exists (ol_bytes (example_locator 4))|exists (ol_bytes (example_locator 2))]; vm_compute; reflexivity.
Defined.

Lemma build_lookup_spec_witness : match build_locator example_parsed 7 with Ok l => locator_quality example_parsed | _ => False end.
Proof.
  pose proof (build_lookup_spec (fun _ => []) example_pack example_idx example_parsed 7) as H.
  specialize (H ltac:(vm_compute; reflexivity) ltac:(vm_compute; discriminate)).
  destruct (build_locator example_parsed 7) as [l| |] eqn:E; [apply H|vm_compute in E; discriminate|exact H].
Defined.
