(* ===== verification/FlatIndex.v ===== *)
(** The flat index ([pack/flatindex.rs]): a tip's recursive listing, path-sorted, as one
    compressed artifact. Serializing, parsing, lookup and directory listing. *)
From S2P Require Import Wire.
From S2P Require Import Prelude.
From S2P Require Import Text.
From S2P Require Import Delta.

(** ** Definitions *)

Definition MODE_GITLINK : N := 57344.
Definition MODE_TREE : N := 16384.
Definition MAX_INFLATED : N := 64 * 1024 * 1024.
Definition MIN_ROW_LEN : N := 4 + OID_LEN + 1 + 1.

Record FlatEntry := mkFlatEntry { fe_path : string; fe_oid : list byte; fe_mode : N; fe_size : N }.

Definition is_gitlink (e : FlatEntry) : bool := (fe_mode e =? MODE_GITLINK)%N.
Definition is_tree (e : FlatEntry) : bool := (fe_mode e =? MODE_TREE)%N.

Record FlatIndex := mkFlatIndex { fi_tip : list byte; fi_entries : list FlatEntry }.

Definition path_cmp : FlatEntry -> FlatEntry -> comparison := cmp_on fe_path String.compare.
Definition from_parts (tip : list byte) (entries : list FlatEntry) : FlatIndex := mkFlatIndex tip (sort_by path_cmp entries).

(** *** One line of the listing *)

Section ls_tree.
(** [hex::decode]. *)
Context (hex_decode : string -> option (list byte)).

(** [iter().position(..)]: what is before the first tab, and after it. *)
Fixpoint split_tab (rec : list byte) : option (list byte * list byte) :=
  match rec with
  | [] => None
  | b :: rec => if b == byte_of 9 then Some ([], rec) else '(meta, path) ← split_tab rec; Some (b :: meta, path)
  end.

Definition from_utf8 (e : Error) (l : list byte) : Result string := if utf8_valid l then Ok (of_bytes l) else Err e.

Definition parse_ls_tree_record (rec : list byte) : Result FlatEntry :=
  '(meta, path) ← ok_or (Config "ls-tree record missing tab") (split_tab rec);
  meta ← from_utf8 (Config "ls-tree non-utf8 meta") meta;
  path ← from_utf8 (Config "ls-tree non-utf8 path") path;
  let it := split_whitespace meta in
  mode ← ok_or (Config "ls-tree no mode") (it !! 0);
  _ ← ok_or (Config "ls-tree no type") (it !! 1);
  oid_hex ← ok_or (Config "ls-tree no oid") (it !! 2);
  size ← ok_or (Config "ls-tree no size") (it !! 3);
  mode ← ok_or (Config "ls-tree bad mode") (parse_uint 8 u32_max mode);
  oid ← ok_or (Config "ls-tree bad oid") (hex_decode oid_hex);
  oid ← (if (len oid =? OID_LEN)%N then Ok oid else Err (Config "ls-tree oid not 20 bytes"));
  let size := if size == "-" then 0%N else default 0%N (parse_uint 10 u64_max size) in
  Ok (mkFlatEntry path oid mode size).
End ls_tree.

(** *** Lookup *)

(** [slice::binary_search_by]: the interval starts at [base] and halves down to one element.
    Every step shrinks it, so its length is fuel enough. *)
Fixpoint bsearch_base {A} (fuel : nat) (f : A -> comparison) (l : list A) (base size : nat) : nat :=
  match fuel with
  | O => base
  | S fuel =>
    if size <=? 1 then base else
    let half := size / 2 in
    let mid := base + half in
    let base := match f <$> l !! mid with Some Gt => base | _ => mid end in
    bsearch_base fuel f l base (size - half)
  end.

Definition binary_search_by {A} (f : A -> comparison) (l : list A) : option nat :=
  match l with
  | [] => None
  | _ =>
    let base := bsearch_base (length l) f l 0 (length l) in
    match f <$> l !! base with Some Eq => Some base | _ => None end
  end.

Definition lookup_path (i : FlatIndex) (path : string) : option FlatEntry :=
  k ← binary_search_by (fun e => String.compare (fe_path e) path) (fi_entries i); fi_entries i !! k.

Definition list_dir (i : FlatIndex) (prefix : string) : list FlatEntry :=
  let norm := if (prefix == "") || ends_with "/" prefix then prefix else prefix +:+ "/" in
  List.filter (fun e => match strip_prefix norm (fe_path e) with
                        | None => false
                        | Some rest => (rest != "") && negb (str_contains "/" rest)
                        end) (fi_entries i).

(** *** The artifact *)

Definition row_bytes (e : FlatEntry) : list byte :=
  be 4 (fe_mode e) ++ fe_oid e ++ write_varint (fe_size e) ++ write_varint (len (bytes (fe_path e))) ++ bytes (fe_path e).

Definition body (i : FlatIndex) : list byte :=
  fi_tip i ++ write_varint (len (fi_entries i)) ++ concat (map row_bytes (fi_entries i)).

Definition fi_take (what : string) : N -> list byte -> Result (list byte * list byte) :=
  take_bytes (Config ("flatIndex truncated (" +:+ what +:+ ")")).
Definition fi_varint : list byte -> Result (N * list byte) :=
  read_varint (Config "flatIndex truncated (varint)") (Config "flatIndex varint overflow").

Definition parse_row (rest : list byte) : Result (FlatEntry * list byte) :=
  '(mode, rest) ← fi_take "mode" 4 rest;
  '(oid, rest) ← fi_take "oid" OID_LEN rest;
  '(size, rest) ← fi_varint rest;
  '(plen, rest) ← fi_varint rest;
  plen ← usize_try_from (Config "flatIndex path length overflow") plen;
  '(path, rest) ← fi_take "path" plen rest;
  path ← from_utf8 (Config "flatIndex non-utf8 path") path;
  Ok (mkFlatEntry path oid (from_be mode) size, rest).

Fixpoint parse_rows (n : nat) (rest : list byte) : Result (list FlatEntry) :=
  match n with
  | O => Ok []
  | S n => '(e, rest) ← parse_row rest; es ← parse_rows n rest; Ok (e :: es)
  end.

Definition parse_body (body : list byte) : Result FlatIndex :=
  '(tip, rest) ← fi_take "tip" OID_LEN body;
  '(nrows, rest) ← fi_varint rest;
  if (len rest / MIN_ROW_LEN <? nrows)%N then Err (Config "flatIndex declares more rows than it holds") else
  entries ← parse_rows (N.to_nat nrows) rest;
  Ok (mkFlatIndex tip entries).

Section gzip.
(** [GzEncoder] at level 9, and [GzDecoder::new(c).take(limit).read_to_end]. *)
Context (gzip : list byte -> Result (list byte)) (gunzip : list byte -> N -> Result (list byte)).

Definition to_compressed (i : FlatIndex) : Result (list byte) := gzip (body i).

Definition parse_bounded (compressed : list byte) (max_inflated : N) : Result FlatIndex :=
  b ← gunzip compressed (max_inflated + 1)%N;
  if (max_inflated <? len b)%N then Err (Config "flatIndex inflates past its size limit") else parse_body b.

Definition parse_flat (compressed : list byte) : Result FlatIndex := parse_bounded compressed MAX_INFLATED.
End gzip.

(** ** Binary search *)

Lemma binary_search_cons {A} (f : A -> comparison) l : length l <> 0 ->
  binary_search_by f l = let base := bsearch_base (length l) f l 0 (length l) in
    match f <$> l !! base with Some Eq => Some base | _ => None end.
Proof. by destruct l. Qed.

Section bsearch.
Context {A : Type} (f : A -> comparison) (l : list A).
(** Lesser elements, then equal ones, then greater ones. *)
Context (Hlt : forall i j x y, i <= j -> l !! i = Some x -> l !! j = Some y -> f y = Lt -> f x = Lt).
Context (Hgt : forall i j x y, i <= j -> l !! i = Some x -> l !! j = Some y -> f x = Gt -> f y = Gt).

Lemma bsearch_base_spec fuel base size : size <= fuel -> 1 <= size -> base + size <= length l ->
  (base = 0 \/ exists x, l !! base = Some x /\ f x <> Gt) -> (forall j y, base + size <= j -> l !! j = Some y -> f y = Gt) ->
  exists b, bsearch_base fuel f l base size = b /\ b < length l
  /\ (b = 0 \/ exists x, l !! b = Some x /\ f x <> Gt) /\ (forall j y, b < j -> l !! j = Some y -> f y = Gt).
Proof.
  revert base size. induction fuel as [|fuel IH]; intros base size Hf H1 Hl Hb Hj; [lia|]. cbn [bsearch_base].
  destruct (Nat.leb_spec size 1).
  { exists base. split_and!; [done|lia|done|]. intros j y Hjb. apply Hj. lia. }
  assert (1 <= size / 2 < size /\ size / 2 + size / 2 <= size) as [Hhalf Hdouble].
  { pose proof (Nat.div_mod_eq size 2) as Hd. pose proof (Nat.mod_upper_bound size 2). lia. }
  destruct (lookup_lt_is_Some_2 l (base + size / 2)) as [x Hx]; [lia|]. rewrite Hx. cbn [fmap option_fmap option_map].
  destruct (f x) eqn:Hfx; apply IH; try lia; try done.
  - right. exists x. split; [done|congruence].
  - intros j y Hjb. apply Hj. lia.
  - right. exists x. split; [done|congruence].
  - intros j y Hjb. apply Hj. lia.
  - intros j y Hjb Hy. apply (Hgt (base + size / 2) j x y); [lia|done..].
Qed.

Lemma binary_search_by_spec : match binary_search_by f l with
  | Some i => exists x, l !! i = Some x /\ f x = Eq
  | None => forall x, x ∈ l -> f x <> Eq
  end.
Proof.
  destruct (Nat.eq_dec (length l) 0) as [H0|H0].
  { apply length_zero_iff_nil in H0. rewrite H0. by intros x ?%elem_of_nil. }
  rewrite binary_search_cons by done.
  cbv zeta. destruct (bsearch_base_spec (length l) 0 (length l)) as (b & -> & Hb & Hle & Hafter); [lia..|by left| |].
  { intros j y Hj Hy. apply lookup_lt_Some in Hy. lia. }
  destruct (lookup_lt_is_Some_2 l b Hb) as [x Hx]. rewrite Hx. cbn [fmap option_fmap option_map].
  destruct (f x) eqn:Hfx; [by exists x| |]; intros y [j Hy]%list_elem_of_lookup_1 Hfy;
    (destruct (Nat.lt_trichotomy j b) as [Hj|[->|Hj]]; [|congruence|rewrite (Hafter j y Hj Hy) in Hfy; done]).
  - rewrite (Hlt j b y x) in Hfy by (done || lia). done.
  - destruct Hle as [->|(x' & Hx' & Hne')]; [lia|congruence].
Qed.
End bsearch.

(** ** Rows *)

(** What an index holds, as a listing or a parse gives it. *)
Definition entry_wf (e : FlatEntry) : Prop :=
  len (fe_oid e) = OID_LEN /\ (fe_mode e <= u32_max)%N /\ (fe_size e <= u64_max)%N /\ utf8_valid (bytes (fe_path e)) = true.
Definition index_wf (i : FlatIndex) : Prop := len (fi_tip i) = OID_LEN /\ Forall entry_wf (fi_entries i).

Lemma from_utf8_Ok e l s : from_utf8 e l = Ok s <-> utf8_valid l = true /\ bytes s = l.
Proof.
  unfold from_utf8. destruct (utf8_valid l); [split|by split; [|intros [? _]]].
  - intros [= <-]. by rewrite bytes_of_bytes.
  - intros [_ <-]. by rewrite of_bytes_bytes.
Qed.

Lemma parse_row_bytes e rest : entry_wf e -> (len (bytes (fe_path e)) <= u64_max)%N ->
  parse_row (row_bytes e ++ rest) = Ok (e, rest).
Proof.
  intros (Ho & Hm & Hs & Hu) Hp. unfold parse_row, row_bytes, fi_take, fi_varint. rewrite <-!app_assoc.
  assert (len (be 4 (fe_mode e)) = 4%N) as H4 by (unfold len; by rewrite length_be).
  rewrite <-H4 at 1. rewrite take_bytes_app. cbn [mbind Result_bind]. rewrite <-Ho at 1. rewrite take_bytes_app. cbn [mbind Result_bind].
  rewrite read_write_varint by done. cbn [mbind Result_bind]. rewrite read_write_varint by done. cbn [mbind Result_bind].
  unfold usize_try_from, usize_max. rewrite (proj2 (N.leb_le _ _) Hp). cbn [mbind Result_bind]. rewrite take_bytes_app.
  cbn [mbind Result_bind]. unfold from_utf8. rewrite Hu. cbn [mbind Result_bind]. rewrite of_bytes_bytes, from_be_be.
  - by destruct e.
  - change (256 ^ N.of_nat 4)%N with (u32_max + 1)%N. lia.
Qed.

Lemma parse_rows_bytes es rest : Forall entry_wf es -> Forall (fun e => (len (bytes (fe_path e)) <= u64_max)%N) es ->
  parse_rows (length es) (concat (map row_bytes es) ++ rest) = Ok es.
Proof.
  intros Hwf. revert rest. induction Hwf as [|e es He _ IH]; intros rest Hp; [done|]. inversion Hp as [|? ? Hpe Hpes]; subst.
  cbn [length parse_rows map concat]. rewrite <-app_assoc, parse_row_bytes by done. cbn [mbind Result_bind]. by rewrite IH.
Qed.

Lemma len_row_bytes e : len (fe_oid e) = OID_LEN -> (MIN_ROW_LEN + len (bytes (fe_path e)) <= len (row_bytes e))%N.
Proof.
  intros Ho. unfold row_bytes. rewrite !len_app, Ho. pose proof (write_varint_length (fe_size e)).
  pose proof (write_varint_length (len (bytes (fe_path e)))). assert (len (be 4 (fe_mode e)) = 4%N) as -> by (unfold len; by rewrite length_be).
  unfold MIN_ROW_LEN, OID_LEN, len in *. lia.
Qed.

Lemma len_rows es : Forall entry_wf es -> (len es * MIN_ROW_LEN <= len (concat (map row_bytes es)))%N.
Proof.
  induction 1 as [|e es (He & _) _ IH]; [done|]. cbn [map concat]. rewrite len_app, len_cons. pose proof (len_row_bytes e He). lia.
Qed.

Lemma len_path e es : Forall entry_wf es -> e ∈ es -> (len (bytes (fe_path e)) <= len (concat (map row_bytes es)))%N.
Proof.
  intros Hwf. induction Hwf as [|e' es He Hwf IH]; [by intros ?%elem_of_nil|]. cbn [map concat]. rewrite len_app.
  intros [->|Hin]%elem_of_cons; [|specialize (IH Hin); lia]. pose proof (len_row_bytes e' (proj1 He)). lia.
Qed.

Lemma parse_body_bytes i : index_wf i -> (len (body i) <= u64_max)%N -> parse_body (body i) = Ok i.
Proof.
  intros [Ht Hwf] Hmax. unfold body in Hmax |- *. rewrite !len_app in Hmax. pose proof (len_rows _ Hwf) as Hrows.
  unfold parse_body, fi_take, fi_varint. rewrite <-Ht at 1. rewrite take_bytes_app. cbn [mbind Result_bind].
  assert (len (fi_entries i) <= u64_max)%N as Hn by (unfold MIN_ROW_LEN, OID_LEN in Hrows; lia).
  rewrite read_write_varint by done. cbn [mbind Result_bind]. rewrite (proj2 (N.ltb_ge _ _)) by (apply N.div_le_lower_bound; [done|lia]).
  unfold len at 1. rewrite Nat2N.id, <-(app_nil_r (concat _)). rewrite parse_rows_bytes; [|done|].
  - cbn [mbind Result_bind]. by destruct i.
  - apply Forall_forall. intros e He. pose proof (len_path e _ Hwf He). lia.
Qed.

(** What a parse returns. *)
Lemma parse_row_Ok rest e rest' : parse_row rest = Ok (e, rest') -> entry_wf e /\ (MIN_ROW_LEN + len rest' <= len rest)%N.
Proof.
  unfold parse_row, fi_take, fi_varint. intros ([m r1] & H1 & H)%bind_Ok. apply bind_Ok in H as ([o r2] & H2 & H).
  apply bind_Ok in H as ([s r3] & H3 & H). apply bind_Ok in H as ([pl r4] & H4 & H). apply bind_Ok in H as (pl' & H5 & H).
  apply bind_Ok in H as ([p r5] & H6 & H). apply bind_Ok in H as (p' & H7 & H).
  assert (mkFlatEntry p' o (from_be m) s = e /\ r5 = rest') as [<- ->] by (by injection H as <- <-).
  apply take_bytes_Ok in H1 as [-> Hm], H2 as [-> Ho], H6 as [-> _].
  apply read_varint_Ok in H3 as [Hs (q1 & -> & Hq1)], H4 as [_ (q2 & -> & Hq2)]. apply from_utf8_Ok in H7 as [Hu Hb]. split.
  - split_and!; cbn [fe_oid fe_mode fe_size fe_path]; [done| |done|congruence]. pose proof (from_be_lt m). rewrite Hm in *. unfold u32_max.
    change (256 ^ 4)%N with 4294967296%N in *. lia.
  - rewrite !len_app. unfold MIN_ROW_LEN, OID_LEN, len in *. lia.
Qed.

Lemma parse_rows_Ok n rest es : parse_rows n rest = Ok es -> Forall entry_wf es /\ length es = n /\ (N.of_nat n * MIN_ROW_LEN <= len rest)%N.
Proof.
  revert rest es. induction n as [|n IH]; intros rest es; cbn [parse_rows]; [intros [= <-]; split_and!; [done|done|lia]|].
  intros ([e r] & (He & Hl)%parse_row_Ok & H)%bind_Ok. apply bind_Ok in H as (es' & (Hes & Hn & Hr)%IH & H).
  injection H as <-. split_and!; [by constructor|simpl; by f_equal|]. lia.
Qed.

Lemma parse_body_Ok b i : parse_body b = Ok i -> index_wf i /\ (len (fi_entries i) * MIN_ROW_LEN + OID_LEN < len b)%N.
Proof.
  unfold parse_body, fi_take, fi_varint. intros ([tip r] & [-> Ht]%take_bytes_Ok & H)%bind_Ok.
  apply bind_Ok in H as ([n r'] & (_ & q & -> & Hq)%read_varint_Ok & H). destruct (_ <? _)%N; [done|].
  apply bind_Ok in H as (es & (Hes & Hn & Hr)%parse_rows_Ok & [= <-]). cbn [fi_tip fi_entries]. split; [by split|].
  rewrite !len_app, Ht. unfold len in *. rewrite Hn. lia.
Qed.

(** ** Paths in order *)

#[export] Instance path_cmp_ord : CmpOrd path_cmp.
Proof. apply _. Qed.

Definition path_sorted (i : FlatIndex) : Prop := StronglySorted (fun a b => path_cmp a b <> Gt) (fi_entries i).

Lemma sorted_lookup_le {A} (R : A -> A -> Prop) l i j x y : (forall z, R z z) -> StronglySorted R l ->
  l !! i = Some x -> l !! j = Some y -> i <= j -> R x y.
Proof.
  intros Hr Hs. revert i j. induction Hs as [|z l _ IH Hz]; intros i j Hi Hj Hij; [done|].
  destruct i as [|i], j as [|j]; simpl in *; simplify_eq; [done| |lia|by apply (IH i j); [..|lia]].
  rewrite Forall_forall in Hz. apply Hz. by eapply list_elem_of_lookup_2.
Qed.

Lemma lookup_path_sorted i path : path_sorted i -> match lookup_path i path with
  | Some e => e ∈ fi_entries i /\ fe_path e = path
  | None => forall e, e ∈ fi_entries i -> fe_path e <> path
  end.
Proof.
  intros Hs. unfold lookup_path. set (f := fun e : FlatEntry => String.compare (fe_path e) path).
  assert (forall j k x y, j <= k -> fi_entries i !! j = Some x -> fi_entries i !! k = Some y -> path_cmp x y <> Gt) as Hle.
  { intros j k x y Hjk Hx Hy. refine (sorted_lookup_le _ _ _ _ _ _ _ Hs Hx Hy Hjk). intros z. by rewrite (cmp_refl path_cmp). }
  pose proof (binary_search_by_spec f (fi_entries i)) as Hb. destruct (binary_search_by f (fi_entries i)) as [k|].
  - destruct Hb as (x & Hx & Hfx); cycle 2.
    + cbn [mbind option_bind]. rewrite Hx. split; [by eapply list_elem_of_lookup_2|]. by apply (cmp_eq (cmp := String.compare)).
    + intros j k' x y Hjk Hx Hy. apply (cmp_le_lt_trans String.compare). exact (Hle j k' x y Hjk Hx Hy).
    + intros j k' x y Hjk Hx Hy Hgt. apply (cmp_gt_lt String.compare). apply (cmp_gt_lt String.compare) in Hgt.
      apply (cmp_lt_le_trans String.compare _ (fe_path x)); [done|exact (Hle j k' x y Hjk Hx Hy)].
  - intros e He Hpe. refine (Hb _ _ e He _).
    + intros j k' x y Hjk Hx Hy. apply (cmp_le_lt_trans String.compare). exact (Hle j k' x y Hjk Hx Hy).
    + intros j k' x y Hjk Hx Hy Hgt. apply (cmp_gt_lt String.compare). apply (cmp_gt_lt String.compare) in Hgt.
      apply (cmp_lt_le_trans String.compare _ (fe_path x)); [done|exact (Hle j k' x y Hjk Hx Hy)].
    + unfold f. by rewrite Hpe, (cmp_refl String.compare).
Qed.

Lemma elem_of_filtered {A} (f : A -> bool) l x : x ∈ List.filter f l <-> x ∈ l /\ f x = true.
Proof. by rewrite !list_elem_of_In, filter_In. Qed.

Lemma child_of norm path : match strip_prefix norm path with None => false | Some rest => (rest != "") && negb (str_contains "/" rest) end = true
  <-> exists name, name <> "" /\ str_contains "/" name = false /\ path = norm +:+ name.
Proof.
  destruct (strip_prefix norm path) as [rest|] eqn:E.
  - apply strip_prefix_app in E as Hp. rewrite andb_true_iff, !negb_true_iff, bool_decide_eq_false. split.
    + intros [H1 H2]. by exists rest.
    + intros (name & H1 & H2 & Hn%strip_prefix_app). by simplify_eq.
  - split; [done|]. intros (name & _ & _ & Hn%strip_prefix_app). congruence.
Qed.

(** The parser fails with an error, never by an index out of range. *)
Lemma take_bytes_total e n rest : take_bytes e n rest <> Panic.
Proof. unfold take_bytes. by destruct (_ <=? _)%N. Qed.

Lemma read_varint_total t o rest : read_varint t o rest <> Panic.
Proof.
  unfold read_varint. generalize LEB_SHIFTS 0%N. intros l. revert rest. induction l as [|s l IH]; intros rest r; cbn [leb_read]; [done|].
  destruct rest as [|b rest]; [done|]. cbv zeta. destruct (_ && _); [done|]. by destruct (_ =? _)%N.
Qed.

Lemma bind_total {A B} (m : Result A) (f : A -> Result B) : m <> Panic -> (forall a, f a <> Panic) -> (m ≫= f) <> Panic.
Proof. destruct m; simpl; auto. Qed.

Lemma parse_row_total rest : parse_row rest <> Panic.
Proof.
  unfold parse_row, fi_take, fi_varint, usize_try_from, from_utf8.
  repeat (apply bind_total; [apply take_bytes_total || apply read_varint_total || by case_match|intros a; try destruct a]); done.
Qed.

Lemma parse_rows_total n rest : parse_rows n rest <> Panic.
Proof.
  revert rest. induction n as [|n IH]; intros rest; cbn [parse_rows]; [done|]. apply bind_total; [apply parse_row_total|intros [e r]].
  by apply bind_total.
Qed.

Lemma parse_body_total b : parse_body b <> Panic.
Proof.
  unfold parse_body, fi_take, fi_varint. apply bind_total; [apply take_bytes_total|intros [tip r]].
  apply bind_total; [apply read_varint_total|intros [n r']]. case_match; [done|]. apply bind_total; [apply parse_rows_total|done].
Qed.

(** ** Theorems *)

(** C37: a flat index comes back whole, and finds what was listed: an index built of a listing, in
    whatever order the listing came, holds its entries in path order; what it compresses to parses
    to that index, as long as its entries are well-formed and it stays within the size the reader
    inflates; and in the index read, looking a path up gives an entry listed with that path, and
    nothing only when none was. *)
Theorem flat_index_roundtrip gzip gunzip tip listing z
  (gzip_lossless : forall b z limit, gzip b = Ok z -> (len b < limit)%N -> gunzip z limit = Ok b)
  (Hwf : index_wf (from_parts tip listing)) (Hmax : (len (body (from_parts tip listing)) <= MAX_INFLATED)%N)
  (Hz : to_compressed gzip (from_parts tip listing) = Ok z) :
  exists i, parse_flat gunzip z = Ok i /\ fi_tip i = tip /\ fi_entries i ≡ₚ listing /\ path_sorted i
  /\ forall path, match lookup_path i path with
     | Some e => e ∈ listing /\ fe_path e = path
     | None => forall e, e ∈ listing -> fe_path e <> path
     end.
Proof.
  exists (from_parts tip listing). split_and!; [|done|apply sort_by_perm|apply sort_by_sorted, _|].
  - unfold parse_flat, parse_bounded. rewrite (gzip_lossless _ _ (MAX_INFLATED + 1)%N Hz) by lia. cbn [mbind Result_bind].
    rewrite (proj2 (N.ltb_ge _ _)) by done. apply parse_body_bytes; [done|]. unfold MAX_INFLATED, u64_max in *. lia.
  - intros path. pose proof (lookup_path_sorted (from_parts tip listing) path ltac:(apply sort_by_sorted, _)) as H.
    pose proof (fun e => elem_of_sort_by path_cmp e listing) as Hin. destruct (lookup_path _ path) as [e|].
    + destruct H as [H ?]. split; [by apply Hin|done].
    + intros e He. by apply H, Hin.
Qed.

(** Whatever artifact is read, the parser never panics; what it accepts is well-formed,
    inflated within the limit, and has no more entries than the inflated bytes can hold, so a
    declared row count reserves no more than they do. *)
Theorem flat_index_bounds gunzip z limit (gunzip_total : gunzip z (limit + 1)%N <> Panic) :
  match parse_bounded gunzip z limit with
  | Ok i => index_wf i /\ (len (fi_entries i) * MIN_ROW_LEN + OID_LEN < limit)%N
  | Err _ => True
  | Panic => False
  end.
Proof.
  unfold parse_bounded. destruct (gunzip z (limit + 1)%N) as [b| |]; [|done..]. cbn [mbind Result_bind].
  destruct (N.ltb_spec limit (len b)) as [|Hb]; [done|]. destruct (parse_body b) as [i| |] eqn:E; [|done|by apply parse_body_total in E].
  apply parse_body_Ok in E as [Hwf Hl]. split; [done|lia].
Qed.

(** In an index in path order, looking a path up answers with an entry that has it, and with
    nothing only when no entry does; listing a directory gives exactly its immediate children,
    in the order of the index. *)
Theorem flat_lookup_spec i (Hs : path_sorted i) :
  (forall path, match lookup_path i path with
     | Some e => e ∈ fi_entries i /\ fe_path e = path
     | None => forall e, e ∈ fi_entries i -> fe_path e <> path
     end)
  /\ (forall dir e, dir <> "" -> ends_with "/" dir = false ->
       e ∈ list_dir i dir <-> e ∈ fi_entries i /\ exists name, name <> "" /\ str_contains "/" name = false /\ fe_path e = dir +:+ "/" +:+ name)
  /\ (forall e, e ∈ list_dir i "" <-> e ∈ fi_entries i /\ fe_path e <> "" /\ str_contains "/" (fe_path e) = false)
  /\ (forall dir, list_dir i dir `sublist_of` fi_entries i).
Proof.
  split_and!; [intros path; by apply lookup_path_sorted| | |intros dir; apply filter_sublist].
  - intros dir e Hd He. unfold list_dir. rewrite bool_decide_eq_false_2, He by done. cbn [orb]. rewrite elem_of_filtered. f_equiv.
    rewrite child_of. setoid_rewrite str_app_assoc. done.
  - intros e. unfold list_dir. rewrite bool_decide_eq_true_2 by done. cbn [orb]. rewrite elem_of_filtered, child_of. f_equiv.
    setoid_rewrite str_nil_app. naive_solver.
Qed.

(** ** Witnesses *)

Definition example_hex (s : string) : option (list byte) := if String.length s =? 40 then Some (repeat (byte_of 7) 20) else None.

Definition example_oid : string := "0707070707070707070707070707070707070707".

Example ls_tree_blob :
  parse_ls_tree_record example_hex (bytes ("100644 blob " +:+ example_oid +:+ "      12	src/a b.rs"))
  = Ok (mkFlatEntry "src/a b.rs" (repeat (byte_of 7) 20) 33188 12).
Proof. vm_compute. reflexivity. Qed.

Example ls_tree_gitlink :
  is_gitlink <$> match parse_ls_tree_record example_hex (bytes ("160000 commit " +:+ example_oid +:+ "       -	sub")) with Ok e => Some e | _ => None end = Some true.
Proof. vm_compute. reflexivity. Qed.

Example ls_tree_no_tab : parse_ls_tree_record example_hex (bytes "100644 blob") = Err (Config "ls-tree record missing tab").
Proof. vm_compute. reflexivity. Qed.

Definition example_entry (path : string) (mode : N) : FlatEntry := mkFlatEntry path (repeat (byte_of 7) 20) mode 300.
Definition example_listing : list FlatEntry :=
  [example_entry "src/lib.rs" 33188; example_entry "README" 33188; example_entry "src" MODE_TREE].
Definition example_index : FlatIndex := from_parts (repeat (byte_of 1) 20) example_listing.

(** A compressor that stores. *)
Definition stored_gzip (b : list byte) : Result (list byte) := Ok b.
Definition stored_gunzip (z : list byte) (limit : N) : Result (list byte) := Ok (take (N.to_nat (N.min limit (len z))) z).

Lemma flat_index_roundtrip_witness : exists i, parse_flat stored_gunzip (body example_index) = Ok i
  /\ match lookup_path i "src" with Some e => fe_path e = "src" | None => False end.
Proof.
  destruct (flat_index_roundtrip stored_gzip stored_gunzip (repeat (byte_of 1) 20) example_listing (body example_index))
    as (i & Hp & _ & _ & _ & Hl).
  - intros b z limit [= <-] Hl. unfold stored_gunzip. rewrite N.min_r by lia. unfold len. by rewrite Nat2N.id, firstn_all.
  - split; [vm_compute; reflexivity|]. repeat constructor; vm_compute; done.
  - vm_compute. done.
  - reflexivity.
  - exists i. split; [done|]. specialize (Hl "src"). destruct (lookup_path i "src"); [apply Hl|].
    apply (Hl (example_entry "src" MODE_TREE)); [|done]. unfold example_listing. set_solver.
Defined.

Lemma flat_index_bounds_witness : match parse_bounded stored_gunzip (body example_index) 1000 with Ok i => index_wf i | _ => False end.
Proof.
  pose proof (flat_index_bounds stored_gunzip (body example_index) 1000) as H. specialize (H ltac:(done)).
  destruct (parse_bounded _ _ _) as [i| |] eqn:E; [apply H|vm_compute in E; discriminate|exact H].
Defined.

Lemma flat_lookup_spec_witness : match lookup_path example_index "src/lib.rs" with Some e => fe_path e = "src/lib.rs" | None => False end.
Proof.
  assert (path_sorted example_index) as Hs by (repeat constructor; vm_compute; discriminate).
  pose proof (proj1 (flat_lookup_spec example_index Hs) "src/lib.rs") as H.
  destruct (lookup_path example_index "src/lib.rs") eqn:E; [apply H|vm_compute in E; discriminate].
Defined.
