(* ===== verification/Names.v ===== *)
(** Names: git object ids, ref names, branches, tags, repository slugs and the
    protected-pattern matching of [rules.rs] (with [is_valid_repo_name] and
    [normalize_repo_name] of [rules/v2.rs]). *)
From S2P Require Import Prelude.

(** ** Definitions *)

(** A git object id, hex-encoded. *)
Definition Oid := string.

Definition is_null_oid (oid : string) : bool :=
  (oid == "") || forallb (fun b => b == "0"%char) (bytes oid).

(** Bytes of the wire protocol a ref name must not carry. *)
Definition FORBIDDEN : list Ascii.ascii := bytes "~^:?*[\".

Definition forbidden_byte (b : Ascii.ascii) : bool :=
  (byte_val b <=? 32)%N || (byte_val b =? 127)%N || existsb (fun f => b == f) FORBIDDEN.

Definition is_slash (a : Ascii.ascii) : bool := a == "/"%char.

(** A component is not empty and does not start with a dot. *)
Definition path_comp_ok (c : string) : bool := (c != "") && negb (starts_with "." c).

Definition is_legal_ref_path (path : string) : bool :=
  (path != "")
  && negb (str_contains ".." path)
  && negb (str_contains "@{" path)
  && negb (ends_with "." path)
  && negb (existsb forbidden_byte (bytes path))
  && forallb path_comp_ok (split_on is_slash path).

Definition MAX_REF_NAME_BYTES : nat := 255.
Definition MAX_TAG_NAME_BYTES : nat := 63.

Definition is_legal_ref_name (name : string) : bool :=
  (String.length name <=? MAX_REF_NAME_BYTES)%nat
  && is_some_and (strip_prefix "refs/" name) is_legal_ref_path
  && negb (ends_with ".lock" name).

Definition is_git_ref_name (name : string) : bool :=
  is_legal_ref_name name && negb (existsb (ends_with ".lock") (split_on is_slash name)).

(** [str::trim_start_matches] on one character. *)
Fixpoint trim_start_char (ch : Ascii.ascii) (s : string) : string :=
  match s with
  | String a s' => if a == ch then trim_start_char ch s' else s
  | EmptyString => EmptyString
  end.

Definition is_legal_branch_name (branch : string) : bool :=
  let after_ats := trim_start_char "@" branch in
  let only_ats :=
    (String.length after_ats <? String.length branch)%nat
    && ((after_ats == "") || (starts_with "." after_ats || starts_with "/" after_ats)) in
  (String.length branch <=? MAX_REF_NAME_BYTES)%nat
  && negb (starts_with "-" branch)
  && negb only_ats
  && is_legal_ref_path branch.

Definition is_legal_tag_name (tag : string) : bool :=
  (String.length tag <=? MAX_TAG_NAME_BYTES)%nat && is_legal_ref_path tag.

Definition is_sha256_hex (h : string) : bool :=
  (String.length h =? 64)%nat && forallb is_hex_digit (bytes h).

(** *** Repository names *)

Definition MAX_REPO_NAME_LEN : nat := 63.

Definition repo_alnum (b : Ascii.ascii) : bool := is_lower b || is_digit b.

Definition is_valid_repo_name (name : string) : bool :=
  match bytes name with
  | first :: rest =>
    (String.length name <=? MAX_REPO_NAME_LEN)%nat
    && repo_alnum first
    && forallb (fun b => repo_alnum b || ((b == "."%char) || (b == "_"%char) || (b == "-"%char))) rest
  | [] => false
  end.

Definition normalize_repo_name (input : string) : option string :=
  let lowered := to_lower input in
  if is_valid_repo_name lowered then Some lowered else None.

(** *** Protected patterns *)

(** The leading run of [!], each escaped, then the rest with its braces escaped. *)
Fixpoint escape_braces (s : string) : string :=
  match s with
  | EmptyString => EmptyString
  | String c s' =>
    if (c == "{"%char) || (c == "}"%char) then String "\" (String c (escape_braces s'))
    else String c (escape_braces s')
  end.

Fixpoint neutralize_wildmatch (pattern : string) : string :=
  match pattern with
  | String c s' =>
    if c == "!"%char then String "\" (String "!" (neutralize_wildmatch s'))
    else escape_braces pattern
  | EmptyString => EmptyString
  end.

Definition ALL_TAGS_PATTERN : string := "refs/tags/**".
Definition ALL_TAG_PATTERNS : list string := ["refs/tags/**"; "refs/**"; "**"].

Definition default_protected_patterns (default_branch : string) : list string :=
  let short := default default_branch (strip_prefix "refs/heads/" default_branch) in
  ["refs/heads/" +:+ short; ALL_TAGS_PATTERN].

Section glob.
(** The [glob_match] crate. *)
Variable glob_match : string -> string -> bool.

Definition matches_protected (ref_name : string) (patterns : list string) : bool :=
  existsb (fun p => glob_match (neutralize_wildmatch p) ref_name) patterns.

Definition routes_protected (ref_name : string) (patterns : option (list string))
  (pusher_is_owner : bool) : bool :=
  match patterns with
  | Some p => matches_protected ref_name p
  | None => pusher_is_owner
  end.

Definition missing_default_protection (default_branch : string) (patterns : list string)
  : list string :=
  let all_tags := existsb (fun p => existsb (fun q => p == q) ALL_TAG_PATTERNS) patterns in
  List.filter (fun d => if d == ALL_TAGS_PATTERN then negb all_tags
             else negb (matches_protected d patterns))
   (default_protected_patterns default_branch).
End glob.

(** *** Specifications *)

(** The contract's grammar of a ref path: components joined by a slash, by a dot
    and a slash, or by a dot. *)
Definition comp_byte (b : Ascii.ascii) : bool :=
  negb (forbidden_byte b) && (b != "."%char) && (b != "/"%char).

Definition component (s : string) : Prop :=
  s <> "" /\ forallb comp_byte (bytes s) = true /\ str_contains "@{" s = false.

Inductive ref_grammar : string -> Prop :=
| rg_component c : component c -> ref_grammar c
| rg_slash c g : component c -> ref_grammar g -> ref_grammar (c +:+ "/" +:+ g)
| rg_dot_slash c g : component c -> ref_grammar g -> ref_grammar (c +:+ "./" +:+ g)
| rg_dot c g : component c -> ref_grammar g -> ref_grammar (c +:+ "." +:+ g).

(** The text a pattern of literals and escapes stands for; [None] when the
    pattern holds a wildcard or a class. *)
Fixpoint literal_text (p : string) : option string :=
  match p with
  | EmptyString => Some EmptyString
  | String a p' =>
    if a == "\"%char then
      match p' with
      | String b p'' => String b <$> literal_text p''
      | EmptyString => None
      end
    else if existsb (fun w => a == w) (bytes "*?[{}") then None
    else String a <$> literal_text p'
  end.

(** ** The ref grammar *)

Lemma ends_with_one x s : ends_with (String x "") s = bool_decide (last (bytes s) = Some x).
Proof.
  unfold ends_with, strip_suffix, str_rev. simpl.
  assert (last (bytes s) = head (rev (bytes s))) as ->.
  { by rewrite <-(reverse_involutive (bytes s)), last_reverse, reverse_involutive, rev_alt. }
  destruct (rev (bytes s)) as [|b l]; simpl; [done|].
  case_bool_decide as H; case_bool_decide; simplify_eq; done.
Qed.

Lemma split_on_nonempty sep s : split_on sep s <> [].
Proof. destruct s as [|a s]; simpl; [done|]. destruct (sep a); [done|]. by destruct (split_on sep s). Qed.

Lemma split_on_app sep c s :
  forallb (fun a => negb (sep a)) (bytes c) = true ->
  split_on sep (c +:+ s) =
    match split_on sep s with h :: t => (c +:+ h) :: t | [] => [] end.
Proof.
  induction c as [|a c IH]; rewrite ?str_nil_app, ?str_cons_app; simpl; intros H.
  { pose proof (split_on_nonempty sep s). by destruct (split_on sep s). }
  apply andb_true_iff in H as [Ha Hc]. apply negb_true_iff in Ha. rewrite Ha, IH by done.
  pose proof (split_on_nonempty sep s). by destruct (split_on sep s).
Qed.

Lemma comp_byte_spec b :
  comp_byte b = true <-> forbidden_byte b = false /\ b <> "."%char /\ b <> "/"%char.
Proof.
  unfold comp_byte. rewrite !andb_true_iff, !negb_true_iff, !bool_decide_eq_false. tauto.
Qed.

Lemma comp_bytes_no_slash c :
  forallb comp_byte (bytes c) = true -> forallb (fun a => negb (is_slash a)) (bytes c) = true.
Proof.
  rewrite !forallb_forall. intros H a Ha. apply H, comp_byte_spec in Ha as (_ & _ & Ha).
  unfold is_slash. by apply negb_true_iff, bool_decide_eq_false.
Qed.

Lemma contains_dots_comp c s :
  forallb comp_byte (bytes c) = true -> str_contains ".." (c +:+ s) = str_contains ".." s.
Proof.
  induction c as [|a c IH]; [done|]. intros [Ha Hc]%andb_true_iff.
  apply comp_byte_spec in Ha as (_ & Ha & _).
  rewrite str_cons_app. simpl. unfold starts_with at 1. simpl.
  rewrite bool_decide_eq_false_2 by congruence. simpl. by apply IH.
Qed.

(** No [@{] straddles the border of [c] and [s] when [s] does not start with a brace. *)
Lemma contains_at_app c s :
  starts_with "{" s = false ->
  str_contains "@{" (c +:+ s) = str_contains "@{" c || str_contains "@{" s.
Proof.
  intros Hs. induction c as [|a c IH]; [done|]. rewrite str_cons_app. cbn [str_contains]. rewrite IH.
  assert (starts_with "@{" (String a (c +:+ s)) = starts_with "@{" (String a c)) as ->.
  { unfold starts_with. simpl. case_bool_decide; [|done].
    destruct c as [|b c]; [rewrite str_nil_app; exact Hs|rewrite str_cons_app; simpl; by case_bool_decide]. }
  by rewrite orb_assoc.
Qed.

Lemma existsb_forbidden_comp c s :
  forallb comp_byte (bytes c) = true ->
  existsb forbidden_byte (bytes (c +:+ s)) = existsb forbidden_byte (bytes s).
Proof.
  induction c as [|a c IH]; [done|]. intros [Ha Hc]%andb_true_iff.
  apply comp_byte_spec in Ha as (Ha & _). rewrite str_cons_app. simpl. rewrite Ha. by apply IH.
Qed.

Lemma last_bytes_app s a g : last (bytes (s +:+ String a g)) = last (bytes (String a g)).
Proof. rewrite bytes_app. apply (last_app_cons (bytes s) (bytes g) a). Qed.

(** A ref path starts with a component byte. *)
Definition comp_start (g : string) : Prop := exists b g', g = String b g' /\ comp_byte b = true.

Lemma legal_path_start g : is_legal_ref_path g = true -> comp_start g.
Proof.
  unfold is_legal_ref_path. rewrite !andb_true_iff, !negb_true_iff, bool_decide_eq_false.
  intros (((((Hne & _) & _) & _) & Hf) & Hs). destruct g as [|b g]; [done|].
  exists b, g. split; [done|]. apply comp_byte_spec. simpl in Hf, Hs. apply orb_false_iff in Hf as [Hf _].
  split; [done|]. destruct (decide (b = "/"%char)) as [->|Hb]; [done|]. split; [|done]. intros ->.
  simpl in Hs. by destruct (split_on is_slash g).
Qed.

Inductive ref_sep : string -> Prop :=
| sep_slash : ref_sep "/"
| sep_dot_slash : ref_sep "./"
| sep_dot : ref_sep ".".

Lemma path_comp_ok_cons a c : a <> "."%char -> path_comp_ok (String a c) = true.
Proof.
  intros Ha. unfold path_comp_ok, starts_with. simpl. by rewrite (bool_decide_eq_false_2 (_ = a)) by congruence.
Qed.

Lemma split_on_comp_start b g :
  b <> "/"%char -> exists t l, split_on is_slash (String b g) = String b t :: l.
Proof.
  intros Hb. simpl. unfold is_slash at 1. rewrite bool_decide_eq_false_2 by done.
  destruct (split_on is_slash g) as [|h l]; eauto.
Qed.

Lemma split_on_sep sep b g :
  ref_sep sep -> comp_byte b = true ->
  exists h l, split_on is_slash (sep +:+ String b g) = h :: l
    /\ forallb path_comp_ok l = forallb path_comp_ok (split_on is_slash (String b g)).
Proof.
  intros Hsep (_ & Hbd & Hbs)%comp_byte_spec.
  destruct (split_on_comp_start b g Hbs) as (t & l & Hl).
  destruct Hsep.
  - exists "", (split_on is_slash (String b g)). done.
  - exists ".", (split_on is_slash (String b g)). done.
  - exists (String "." (String b t)), l. split.
    + change (match split_on is_slash (String b g) with
              | p :: ps => String "." p :: ps | [] => ["."] end = String "." (String b t) :: l).
      by rewrite Hl.
    + rewrite Hl. simpl. by rewrite path_comp_ok_cons.
Qed.

Lemma sep_transparent sep b g :
  ref_sep sep -> comp_byte b = true ->
  let s := sep +:+ String b g in
  starts_with "{" s = false
  /\ str_contains "@{" s = str_contains "@{" (String b g)
  /\ str_contains ".." s = str_contains ".." (String b g)
  /\ existsb forbidden_byte (bytes s) = existsb forbidden_byte (bytes (String b g)).
Proof.
  intros Hsep (_ & Hbd & _)%comp_byte_spec.
  assert (starts_with ".." (String "." (String b g)) = false) as Hdd.
  { unfold starts_with. simpl. by rewrite (bool_decide_eq_false_2 (_ = b)) by congruence. }
  destruct Hsep; simpl; rewrite ?str_cons_app, str_nil_app; repeat split; try reflexivity.
  cbn [str_contains]. by rewrite Hdd.
Qed.

(** Legality of a path, piece by piece. *)
Lemma legal_path_join_eq c sep g :
  c <> "" -> forallb comp_byte (bytes c) = true -> ref_sep sep -> comp_start g ->
  is_legal_ref_path (c +:+ sep +:+ g) = negb (str_contains "@{" c) && is_legal_ref_path g.
Proof.
  intros Hne Hc Hsep (b & g' & -> & Hb).
  destruct (sep_transparent sep b g' Hsep Hb) as (Hbr & Hat & Hdd & Hfb).
  destruct (split_on_sep sep b g' Hsep Hb) as (h & l & Hl & Hok).
  unfold is_legal_ref_path.
  rewrite contains_dots_comp, contains_at_app, existsb_forbidden_comp, Hat, Hdd, Hfb, !ends_with_one by done.
  rewrite <-str_app_assoc, last_bytes_app, str_app_assoc.
  rewrite split_on_app, Hl by by apply comp_bytes_no_slash.
  destruct c as [|a c]; [done|].
  assert (path_comp_ok ((String a c) +:+ h) = true) as Hh.
  { simpl in Hc. apply andb_true_iff in Hc as [(_ & Ha & _)%comp_byte_spec _].
    rewrite str_cons_app. by apply path_comp_ok_cons. }
  cbn [forallb]. rewrite Hh, Hok, str_cons_app.
  rewrite !(bool_decide_eq_false_2 (String _ _ = "")) by done.
  by destruct (str_contains "@{" (String a c)), (str_contains ".." (String b g')),
    (str_contains "@{" (String b g')).
Qed.

Lemma ref_grammar_start g : ref_grammar g -> comp_start g.
Proof.
  assert (forall c s, component c -> comp_start (c +:+ s)) as Hc.
  { intros [|a c] s (Hne & Hb & _); [done|]. exists a, (c +:+ s). split; [done|].
    simpl in Hb. by apply andb_true_iff in Hb as [? _]. }
  destruct 1; [rewrite <-(str_app_nil c)|..]; by apply Hc.
Qed.

Lemma component_legal c : component c -> is_legal_ref_path c = true.
Proof.
  intros (Hne & Hb & Hat). unfold is_legal_ref_path.
  rewrite bool_decide_eq_false_2, Hat, ends_with_one by done.
  pose proof (contains_dots_comp c "" Hb) as Hdd. pose proof (existsb_forbidden_comp c "" Hb) as Hf.
  pose proof (split_on_app is_slash c "" (comp_bytes_no_slash c Hb)) as Hs.
  rewrite !str_app_nil in *. rewrite Hdd, Hf, Hs. simpl. rewrite str_app_nil.
  assert (last (bytes c) <> Some "."%char) as Hl.
  { intros Hl. apply last_Some_elem_of, list_elem_of_In in Hl. rewrite forallb_forall in Hb.
    by apply Hb, comp_byte_spec in Hl as (_ & ? & _). }
  rewrite bool_decide_eq_false_2 by done. destruct c as [|a c]; [done|].
  simpl in Hb. apply andb_true_iff in Hb as [(_ & ? & _)%comp_byte_spec _].
  by rewrite path_comp_ok_cons.
Qed.

Lemma ref_grammar_legal g : ref_grammar g -> is_legal_ref_path g = true.
Proof.
  induction 1 as [c Hc|c g (Hne & Hb & Hat) Hg IH|c g (Hne & Hb & Hat) Hg IH|c g (Hne & Hb & Hat) Hg IH];
    [by apply component_legal|..].
  all: rewrite legal_path_join_eq, Hat, IH by (done || constructor || by apply ref_grammar_start); done.
Qed.

(** After a run of component bytes a legal path goes on with a separator and
    another path, or ends. *)
Lemma legal_path_next c a s :
  c <> "" -> forallb comp_byte (bytes c) = true -> comp_byte a = false ->
  is_legal_ref_path (c +:+ String a s) = true ->
  exists sep g, ref_sep sep /\ String a s = sep +:+ g /\ comp_start g.
Proof.
  intros Hne Hc Ha Hleg. unfold is_legal_ref_path in Hleg.
  rewrite contains_dots_comp, existsb_forbidden_comp, ends_with_one, last_bytes_app in Hleg by done.
  rewrite split_on_app in Hleg by by apply comp_bytes_no_slash.
  rewrite !andb_true_iff, !negb_true_iff, bool_decide_eq_false in Hleg.
  destruct Hleg as (((((_ & Hdd) & _) & Hlast%bool_decide_eq_false) & Hf) & Hs).
  simpl in Hf. apply orb_false_iff in Hf as [Hfa Hf].
  assert (forall b g, existsb forbidden_byte (bytes (String b g)) = false -> b <> "."%char ->
            forallb path_comp_ok (split_on is_slash (String b g)) = true -> comp_start (String b g)) as Hstart.
  { intros b g Hfb Hb Hok. exists b, g. split; [done|]. apply comp_byte_spec. simpl in Hfb.
    apply orb_false_iff in Hfb as [Hfb _]. split_and!; [done..|]. intros ->. done. }
  destruct (decide (a = "/"%char)) as [->|Hslash].
  { exists "/", s. split_and!; [constructor|done|]. simpl in Hs. apply andb_true_iff in Hs as [_ Hs].
    destruct s as [|b g]; [done|]. apply Hstart; [done| |done]. intros ->.
    simpl in Hs. by destruct (split_on is_slash g). }
  assert (a = "."%char) as ->.
  { destruct (decide (a = "."%char)) as [|Hdot]; [done|].
    rewrite (proj2 (comp_byte_spec a)) in Ha by done. done. }
  destruct s as [|b g]; [done|].
  assert (b <> "."%char) as Hb. { intros ->. done. }
  destruct (decide (b = "/"%char)) as [->|Hbs].
  - exists "./", g. split_and!; [constructor|done|].
    change (split_on is_slash (String "." (String "/" g))) with ("." :: split_on is_slash g) in Hs.
    cbn [forallb] in Hs. apply andb_true_iff in Hs as [_ Hs].
    destruct g as [|b g]; [done|]. simpl in Hf. apply Hstart; [done| |done]. intros ->.
    simpl in Hs. by destruct (split_on is_slash g).
  - exists ".", (String b g). split_and!; [constructor|done|]. exists b, g. split; [done|].
    apply comp_byte_spec. simpl in Hf. by apply orb_false_iff in Hf as [? _].
Qed.

Lemma legal_ref_grammar_aux n s c :
  (String.length s < n)%nat -> c <> "" -> forallb comp_byte (bytes c) = true ->
  is_legal_ref_path (c +:+ s) = true -> ref_grammar (c +:+ s).
Proof.
  revert s c. induction n as [|n IH]; intros s c Hn Hne Hc Hleg; [lia|].
  destruct s as [|a s].
  { rewrite str_app_nil in *. constructor. split_and!; [done..|].
    unfold is_legal_ref_path in Hleg. rewrite !andb_true_iff, !negb_true_iff in Hleg. tauto. }
  simpl in Hn. destruct (comp_byte a) eqn:Ha.
  { assert (c +:+ String a s = (c +:+ String a "") +:+ s) as Hcs
      by by rewrite str_app_assoc, str_cons_app, str_nil_app.
    rewrite Hcs in *. apply IH; [lia|by destruct c| |done]. rewrite bytes_app, forallb_app, Hc. simpl. by rewrite Ha. }
  destruct (legal_path_next c a s Hne Hc Ha Hleg) as (sep & g & Hsep & Heq & Hg). rewrite Heq in *.
  rewrite legal_path_join_eq in Hleg by done. apply andb_true_iff in Hleg as [Hat%negb_true_iff Hleg].
  assert (ref_grammar g) as HG.
  { destruct Hg as (b & g' & -> & Hb). change (String b g') with (String b "" +:+ g') in *.
    apply IH; [|done|simpl; by rewrite Hb|done].
    apply (f_equal String.length) in Heq. destruct Hsep; simpl in *; rewrite ?str_cons_app, str_nil_app in Heq; simpl in Heq; lia. }
  destruct Hsep; by constructor.
Qed.

(** The hand-written path check accepts exactly the contract's grammar:
    components (no control byte, space, DEL, [~^:?*[\] or [@{]) joined by [/], [./] or [.]. *)
Lemma is_legal_ref_path_grammar path :
  is_legal_ref_path path = true <-> ref_grammar path.
Proof.
  split; [|apply ref_grammar_legal]. intros Hleg.
  destruct (legal_path_start path Hleg) as (b & g & -> & Hb).
  change (String b g) with (String b "" +:+ g) in *.
  eapply legal_ref_grammar_aux; [apply Nat.lt_succ_diag_r|done|simpl; by rewrite Hb|done].
Qed.

(** ** Ref names on the wire *)

Lemma strip_prefix_Some p s r : strip_prefix p s = Some r <-> s = p +:+ r.
Proof.
  revert s. induction p as [|a p IH]; intros s; rewrite ?str_nil_app, ?str_cons_app; simpl.
  { split; congruence. }
  destruct s as [|b s]; [done|]. case_bool_decide as Hab; [|by split; [|intros [=]; congruence]].
  subst. rewrite IH. split; [by intros ->|by intros [= ->]].
Qed.

(** A suffix without slashes is looked for in the last component only. *)
Lemma strip_prefix_sep p s t :
  forallb (fun a => negb (is_slash a)) (bytes p) = true ->
  is_some_and (strip_prefix p (s +:+ String "/" t)) (fun _ => true)
  = is_some_and (strip_prefix p s) (fun _ => true).
Proof.
  revert s. induction p as [|a p IH]; intros s; simpl; [done|]. intros [Ha Hp]%andb_true_iff.
  destruct s as [|b s]; rewrite ?str_nil_app, ?str_cons_app.
  - unfold is_slash in Ha. by apply negb_true_iff in Ha as ->.
  - case_bool_decide; [by apply IH|done].
Qed.

Lemma is_some_and_map {A B} (o : option A) (f : A -> B) :
  is_some_and (match o with Some r => Some (f r) | None => None end) (fun _ => true)
  = is_some_and o (fun _ => true).
Proof. by destruct o. Qed.

Lemma ends_with_last_component p s t :
  forallb (fun a => negb (is_slash a)) (bytes (str_rev p)) = true ->
  ends_with p (s +:+ "/" +:+ t) = ends_with p t.
Proof.
  intros Hp. unfold ends_with, strip_suffix. rewrite !is_some_and_map.
  assert (str_rev (s +:+ "/" +:+ t) = str_rev t +:+ String "/" (str_rev s)) as ->.
  { unfold str_rev. rewrite !bytes_app, !rev_app_distr, <-app_assoc.
    rewrite <-(of_bytes_bytes (_ +:+ _)), bytes_app. simpl. by rewrite !bytes_of_bytes. }
  by apply strip_prefix_sep.
Qed.

Lemma legal_ref_name_iff name :
  is_legal_ref_name name = true <->
  (exists path, name = "refs/" +:+ path /\ ref_grammar path)
  /\ (String.length name <= 255)%nat /\ ends_with ".lock" name = false.
Proof.
  unfold is_legal_ref_name. rewrite !andb_true_iff, Nat.leb_le, negb_true_iff, is_some_and_true.
  setoid_rewrite strip_prefix_Some. setoid_rewrite is_legal_ref_path_grammar. unfold MAX_REF_NAME_BYTES.
  split; intros; destruct_and!; eauto.
Qed.

(** A ref name the fold and the helper admit is [refs/] followed by a path of the
    contract's grammar, at most 255 bytes long and not ending in [.lock]; and nothing else is. *)
Theorem is_legal_ref_name_spec name :
  is_legal_ref_name name = true <->
  (exists path, name = "refs/" +:+ path /\ ref_grammar path)
  /\ (String.length name <= 255)%nat /\ ends_with ".lock" name = false.
Proof. apply legal_ref_name_iff. Qed.

(** A legal ref name cannot inject into the wire protocol or a shell: no control byte
    (newline, NUL, tab), no space or DEL and none of [~^:?*[\\]. *)
Theorem legal_ref_name_no_injection name b :
  is_legal_ref_name name = true -> b ∈ bytes name ->
  (32 < byte_val b)%N /\ byte_val b <> 127%N /\ b ∉ FORBIDDEN.
Proof.
  unfold is_legal_ref_name. rewrite !andb_true_iff, is_some_and_true.
  intros [[_ (path & ->%strip_prefix_Some & Hleg)] _] Hb.
  assert (forbidden_byte b = false) as Hf.
  { rewrite bytes_app in Hb. apply elem_of_app in Hb as [Hb|Hb].
    - repeat (apply elem_of_cons in Hb as [->|Hb]; [done|]). by apply elem_of_nil in Hb.
    - unfold is_legal_ref_path in Hleg. rewrite !andb_true_iff, !negb_true_iff in Hleg.
      destruct Hleg as [[_ Hf] _]. destruct (forbidden_byte b) eqn:E; [|done].
      rewrite <-not_true_iff_false, existsb_exists in Hf. destruct Hf. exists b.
      by rewrite <-list_elem_of_In. }
  unfold forbidden_byte in Hf. rewrite !orb_false_iff in Hf. destruct Hf as [[H1%N.leb_gt H2%N.eqb_neq] H3].
  split_and!; [done|done|]. intros Hin. rewrite <-not_true_iff_false, existsb_exists in H3. apply H3.
  exists b. rewrite <-list_elem_of_In, bool_decide_eq_true. done.
Qed.

Lemma legal_ref_name_no_injection_witness :
  is_legal_ref_name "refs/heads/fix@{x" = false
  /\ (32 < byte_val "m"%char)%N /\ byte_val "m"%char <> 127%N /\ "m"%char ∉ FORBIDDEN.
Proof.
  split; [by vm_compute|].
  apply (legal_ref_name_no_injection "refs/heads/main" "m"%char); [by vm_compute|].
  vm_compute. by repeat first [left | right].
Defined.

(** A branch name a repository may default to is a legal ref name once prefixed, as long
    as it leaves room for the prefix and does not end in [.lock]. *)
Theorem legal_branch_is_legal_ref branch :
  is_legal_branch_name branch = true -> (String.length branch <= 244)%nat ->
  ends_with ".lock" branch = false ->
  is_legal_ref_name ("refs/heads/" +:+ branch) = true.
Proof.
  unfold is_legal_branch_name. rewrite !andb_true_iff. intros [_ Hleg] Hlen Hlock.
  apply legal_ref_name_iff. split_and!.
  - exists ("heads" +:+ "/" +:+ branch). split; [done|].
    apply rg_slash; [by vm_compute|by apply is_legal_ref_path_grammar].
  - rewrite <-length_bytes, bytes_app, length_app, !length_bytes. simpl. lia.
  - change (ends_with ".lock" ("refs/heads" +:+ "/" +:+ branch) = false).
    by rewrite (ends_with_last_component ".lock" "refs/heads" branch).
Qed.

Lemma legal_branch_is_legal_ref_witness :
  is_legal_branch_name "release/1.x" = true /\ is_legal_ref_name "refs/heads/release/1.x" = true.
Proof.
  split; [by vm_compute|].
  apply (legal_branch_is_legal_ref "release/1.x"); vm_compute; [done|lia|done].
Defined.

(** ** Repository names *)

Lemma lower_idem a : lower (lower a) = lower a.
Proof. by destruct a as [[] [] [] [] [] [] [] []]. Qed.

Lemma to_lower_idem s : to_lower (to_lower s) = to_lower s.
Proof.
  unfold to_lower. rewrite bytes_of_bytes, map_map. f_equal. apply map_ext. apply lower_idem.
Qed.

Lemma repo_alnum_lower a : repo_alnum a = true -> lower a = a.
Proof. by destruct a as [[] [] [] [] [] [] [] []]. Qed.

(** Normalising a repository name yields a valid name that is its own normal form, equal
    to the input up to ASCII case; and every valid name is kept as it is. *)
Theorem normalize_repo_name_spec input :
  match normalize_repo_name input with
  | Some name => is_valid_repo_name name = true
      /\ normalize_repo_name name = Some name /\ eq_ignore_case input name = true
  | None => forall name, is_valid_repo_name name = true -> eq_ignore_case input name = false
  end.
Proof.
  assert (forall n, is_valid_repo_name n = true -> to_lower n = n) as Hfix.
  { intros n. unfold is_valid_repo_name, to_lower. intros Hn.
    rewrite <-(of_bytes_bytes n) at 2. f_equal. destruct (bytes n) as [|a l]; [done|]. split_bools. simpl.
    f_equal; [by apply repo_alnum_lower|]. rewrite forallb_forall in H0. rewrite <-(map_id l) at 2.
    apply map_ext_in. intros b Hb%H0. rewrite !orb_true_iff, !bool_decide_eq_true in Hb.
    destruct Hb as [Hb|[[->| ->]| ->]]; [by apply repo_alnum_lower|done..]. }
  unfold normalize_repo_name. destruct (is_valid_repo_name (to_lower input)) eqn:E.
  - split_and!; [done|by rewrite to_lower_idem, E|].
    unfold eq_ignore_case. by rewrite to_lower_idem, bool_decide_eq_true.
  - intros name Hn. unfold eq_ignore_case. rewrite bool_decide_eq_false, (Hfix name Hn).
    intros Heq. rewrite Heq in E. congruence.
Qed.

(** ** Default protection *)

Lemma neutralize_no_negation p : starts_with "!" (neutralize_wildmatch p) = false.
Proof.
  destruct p as [|a p]; [done|]. simpl. case_bool_decide as Ha; [done|].
  destruct ((a == "{"%char) || (a == "}"%char)); [done|].
  unfold starts_with. simpl. by rewrite bool_decide_eq_false_2 by congruence.
Qed.

(** Bytes that are neither a wildcard, a class nor an escape. *)
Definition plain_byte (a : Ascii.ascii) : bool := negb (existsb (fun w => a == w) (bytes "*?[\")).

Lemma literal_escape_braces s :
  forallb plain_byte (bytes s) = true -> literal_text (escape_braces s) = Some s.
Proof.
  induction s as [|a s IH]; [done|]. simpl. intros [Ha Hs]%andb_true_iff.
  unfold plain_byte in Ha. simpl in Ha. rewrite !negb_true_iff, !orb_false_iff, !bool_decide_eq_false in Ha.
  destruct_and!. destruct ((a == "{"%char) || (a == "}"%char)) eqn:E; simpl; [by rewrite IH|].
  rewrite orb_false_iff, !bool_decide_eq_false in E. destruct_and!.
  rewrite !bool_decide_eq_false_2 by done. simpl. by rewrite IH.
Qed.

Lemma literal_neutralize s :
  forallb plain_byte (bytes s) = true -> literal_text (neutralize_wildmatch s) = Some s.
Proof.
  induction s as [|a s IH]; [done|]. intros Hs. simpl. case_bool_decide as Ha.
  - simpl in Hs. apply andb_true_iff in Hs as [_ Hs]. simpl. rewrite IH by done. by subst.
  - exact (literal_escape_braces (String a s) Hs).
Qed.

Section glob_proofs.
Variable glob_match : string -> string -> bool.
(** A pattern of literals and escapes, with no negation, matches its text only. *)
Hypothesis glob_literal : forall p text name,
  literal_text p = Some text -> starts_with "!" p = false -> glob_match p name = (text == name).

Lemma matches_protected_literal name p ps :
  forallb plain_byte (bytes p) = true -> p = name \/ matches_protected glob_match name ps = true ->
  matches_protected glob_match name (p :: ps) = true.
Proof.
  intros Hp H. unfold matches_protected in *. simpl. apply orb_true_iff.
  destruct H as [->|H]; [left|by right].
  rewrite (glob_literal _ name); [by apply bool_decide_eq_true|by apply literal_neutralize|].
  apply neutralize_no_negation.
Qed.
End glob_proofs.

Lemma plain_of_not_forbidden s :
  existsb forbidden_byte (bytes s) = false -> forallb plain_byte (bytes s) = true.
Proof.
  intros Hs. apply forallb_forall. intros a Ha. destruct (plain_byte a) eqn:E; [done|].
  rewrite <-not_true_iff_false, existsb_exists in Hs. destruct Hs. exists a. split; [done|].
  unfold plain_byte in E. apply negb_false_iff in E. unfold forbidden_byte. simpl in *.
  rewrite !orb_true_iff, !bool_decide_eq_true in E.
  destruct E as [->|[->|[->|[->|E]]]]; done.
Qed.

Lemma path_tail_plain p branch :
  is_legal_ref_path branch = true -> strip_prefix "refs/heads/" branch = Some p \/ branch = p ->
  forallb plain_byte (bytes p) = true.
Proof.
  intros Hleg Hp. apply plain_of_not_forbidden. unfold is_legal_ref_path in Hleg.
  rewrite !andb_true_iff, !negb_true_iff in Hleg. destruct Hleg as [[_ Hf] _].
  destruct Hp as [->%strip_prefix_Some| ->]; [|done].
  rewrite bytes_app, existsb_app in Hf. by apply orb_false_iff in Hf as [_ ?].
Qed.

(** The patterns a new repository starts with protect its default branch, leave no default
    protection missing and route a push to that branch through the protected type, given
    that [glob_match] reads a pattern of literals and escapes as its text. *)
Theorem default_protection_complete glob_match branch owner :
  (forall p text name, literal_text p = Some text -> starts_with "!" p = false ->
     glob_match p name = (text == name)) ->
  is_legal_branch_name branch = true ->
  let ps := default_protected_patterns branch in
  let full := "refs/heads/" +:+ default branch (strip_prefix "refs/heads/" branch) in
  matches_protected glob_match full ps = true
  /\ routes_protected glob_match full (Some ps) owner = true
  /\ missing_default_protection glob_match branch ps = [].
Proof.
  intros Hglob Hb ps full.
  assert (matches_protected glob_match full ps = true) as Hm.
  { apply matches_protected_literal; [done| |by left].
    unfold full. rewrite bytes_app, forallb_app. apply andb_true_iff. split; [done|].
    unfold is_legal_branch_name in Hb. apply andb_true_iff in Hb as [_ Hb].
    eapply path_tail_plain; [exact Hb|]. destruct (strip_prefix "refs/heads/" branch); [by left|by right]. }
  split_and!; [done|done|]. unfold missing_default_protection.
  assert (existsb (fun p => existsb (fun q => p == q) ALL_TAG_PATTERNS) ps = true) as ->.
  { apply existsb_exists. exists ALL_TAGS_PATTERN. split; [by right; left|done]. }
  unfold default_protected_patterns. fold full. cbn [List.filter].
  rewrite (bool_decide_eq_false_2 (full = ALL_TAGS_PATTERN)), Hm by by unfold full.
  done.
Qed.

Lemma default_protection_complete_witness :
  let glob := fun p name => is_some_and (literal_text p) (fun t => t == name) in
  matches_protected glob "refs/heads/main" (default_protected_patterns "main") = true
  /\ routes_protected glob "refs/heads/main" (Some (default_protected_patterns "main")) false = true
  /\ missing_default_protection glob "main" (default_protected_patterns "main") = [].
Proof.
  intros glob. apply (default_protection_complete glob "main" false); [|by vm_compute].
  intros p text name Hp _. unfold glob. by rewrite Hp.
Defined.
