(* ===== verification/RefCollision.v ===== *)
(** Ref-name collisions ([rules/ref_collision.rs]): the existing ref that git could not
    hold next to a new one, as files of a case-insensitive file system. *)
From S2P Require Import Prelude Names.

(** [parent] is a directory of [child], ignoring ASCII case. *)
Definition is_path_prefix (parent child : string) : bool :=
  let n := length (bytes parent) in
  (n <? length (bytes child))
  && eq_ignore_case (of_bytes (take n (bytes child))) parent
  && (bytes child !! n == Some "/"%char).

Definition ref_collision (existing : list string) (name : string) : option string :=
  min_by String.compare
    (List.filter (fun e => is_path_prefix e name || is_path_prefix name e || eq_ignore_case e name)
       (List.filter (fun e => e != name) existing)).

Definition collision_reason (name existing : string) : string :=
  if eq_ignore_case existing name then existing +:+ " exists and differs only in letter case"
  else if is_path_prefix existing name
  then existing +:+ " exists, so " +:+ name +:+ " cannot be created under it"
  else existing +:+ " exists under it".

(** ** Refs as files *)

(** The path of a ref on a file system that ignores case: its folders and its file. *)
Definition folders (name : string) : list string := split_on (fun c => c == "/"%char) (to_lower name).

(** The two cannot both be files: they are one file, or one is a folder of the other. *)
Definition collides (a b : string) : Prop := folders a `prefix_of` folders b \/ folders b `prefix_of` folders a.

Lemma lower_slash c : lower c = "/"%char <-> c = "/"%char.
Proof. destruct c as [[] [] [] [] [] [] [] []]; vm_compute; split; congruence. Qed.

Lemma bytes_to_lower s : bytes (to_lower s) = map lower (bytes s).
Proof. unfold to_lower. by rewrite bytes_of_bytes. Qed.

Lemma is_path_prefix_spec parent child :
  is_path_prefix parent child = true <-> exists rest, to_lower child = to_lower parent +:+ String "/" rest.
Proof.
  unfold is_path_prefix, eq_ignore_case. rewrite !andb_true_iff, !bool_decide_eq_true, Nat.ltb_lt.
  set (p := bytes parent). set (c := bytes child). set (n := length p). split.
  - intros [[Hn Hl] Hs]. exists (of_bytes (map lower (drop (S n) c))). apply bytes_inj.
    rewrite bytes_app, !bytes_to_lower. change (bytes (String ?a ?s)) with (a :: bytes s).
    rewrite bytes_of_bytes. fold p c. rewrite <-(take_drop_middle c n _ Hs) at 1. rewrite map_app.
    apply (f_equal bytes) in Hl. rewrite !bytes_to_lower, bytes_of_bytes in Hl. fold p in Hl. by rewrite Hl.
  - intros [rest Hr]. apply (f_equal bytes) in Hr. rewrite bytes_app, !bytes_to_lower in Hr.
    change (bytes (String "/" rest)) with ("/"%char :: bytes rest) in Hr. fold p c in Hr.
    assert (n < length c) as Hn.
    { apply (f_equal length) in Hr. rewrite length_app, !length_map in Hr. simpl in Hr. unfold n. lia. }
    split_and!; [done| |].
    + apply bytes_inj. rewrite !bytes_to_lower, bytes_of_bytes. fold p. rewrite <-firstn_map.
      change (take n (map lower c) = map lower p). rewrite Hr, take_app_le by (rewrite length_map; unfold n; lia).
      apply take_ge. rewrite length_map. unfold n. lia.
    + destruct (lookup_lt_is_Some_2 c n Hn) as [x Hx]. rewrite Hx. f_equal. apply lower_slash.
      assert (map lower c !! n = Some (lower x)) as Hm by by rewrite list_lookup_fmap, Hx.
      rewrite Hr, lookup_app_r, length_map in Hm by (rewrite length_map; unfold n; lia).
      unfold n in Hm. rewrite Nat.sub_diag in Hm. simpl in Hm. congruence.
Qed.

Abbreviation slash := (fun c => c == "/"%char).

Lemma split_on_at s t : split_on slash (s +:+ String "/" t) = split_on slash s ++ split_on slash t.
Proof.
  induction s as [|a s IH]; [done|]. rewrite str_cons_app. simpl. rewrite IH.
  pose proof (split_on_nonempty slash s). destruct (a == "/"%char); [done|]. by destruct (split_on _ s).
Qed.

Lemma join_split s : str_join "/" (split_on slash s) = s.
Proof.
  induction s as [|a s IH]; [done|]. simpl. pose proof (split_on_nonempty slash s) as Hne.
  destruct (a == "/"%char) eqn:E.
  - apply bool_decide_eq_true in E as ->. simpl. destruct (split_on _ s) as [|h l]; [done|]. by rewrite IH.
  - destruct (split_on _ s) as [|h l]; [done|]. destruct l; simpl in *; [by rewrite IH|].
    by rewrite str_cons_app, IH.
Qed.

Lemma join_app l k : l <> [] -> k <> [] -> str_join "/" (l ++ k) = str_join "/" l +:+ String "/" (str_join "/" k).
Proof.
  intros Hl Hk. induction l as [|x l IH]; [done|]. destruct l as [|y l].
  - simpl. destruct k; [done|]. done.
  - simpl in *. rewrite IH by done. by rewrite !str_app_assoc.
Qed.

(** The folders of one are the first folders of the other exactly when they are the same
    file or one is in the other. *)
Lemma folders_prefix a b :
  folders a `prefix_of` folders b <-> to_lower a = to_lower b \/ is_path_prefix a b = true.
Proof.
  rewrite is_path_prefix_spec. unfold folders. split.
  - intros [k Hk]. rewrite <-(join_split (to_lower b)), Hk. destruct k as [|x k].
    + left. by rewrite app_nil_r, join_split.
    + right. rewrite join_app, join_split; [by eexists|apply split_on_nonempty|done].
  - intros [-> | [rest ->]]; [done|]. rewrite split_on_at. by apply prefix_app_r.
Qed.

Lemma collides_iff e name :
  collides e name
  <-> is_path_prefix e name || is_path_prefix name e || eq_ignore_case e name = true.
Proof.
  unfold collides, eq_ignore_case. rewrite !folders_prefix, !orb_true_iff, bool_decide_eq_true.
  intuition congruence.
Qed.

Lemma ref_collision_facts existing name :
  match ref_collision existing name with
  | Some e => ((e ∈ existing) /\ e <> name /\ collides e name)
      /\ forall e', e' ∈ existing -> e' <> name -> collides e' name -> String.compare e e' <> Gt
  | None => forall e, e ∈ existing -> e <> name -> ~ collides e name
  end.
Proof.
  unfold ref_collision.
  assert (forall e, e ∈ List.filter (fun e => is_path_prefix e name || is_path_prefix name e || eq_ignore_case e name)
      (List.filter (fun e => e != name) existing)
    <-> (e ∈ existing) /\ e <> name /\ collides e name) as Hin.
  { intros e. rewrite list_elem_of_In, !filter_In, <-list_elem_of_In, negb_true_iff, bool_decide_eq_false, <-collides_iff.
    tauto. }
  destruct (min_by _ _) as [e|] eqn:E.
  - apply min_by_Some in E as [He Hmin]; [|apply _]. rewrite Hin in He. split; [done|].
    intros e' ???. apply Hmin. by rewrite Hin.
  - apply min_by_None in E. intros e ???. apply (not_elem_of_nil e). rewrite <-E, Hin. done.
Qed.

(** A client refuses a new ref exactly when git could not hold it: the ref named is an
    existing one that would be the same file, or a folder of the other, on a file system
    that ignores case, and the first such ref in byte order; nothing is named exactly when
    no existing ref but the one itself collides with it. *)
Theorem ref_collision_spec existing name :
  match ref_collision existing name with
  | Some e => ((e ∈ existing) /\ e <> name /\ collides e name)
      /\ forall e', e' ∈ existing -> e' <> name -> collides e' name -> String.compare e e' <> Gt
  | None => forall e, e ∈ existing -> e <> name -> ~ collides e name
  end.
Proof. apply ref_collision_facts. Qed.

(** The reason given for a collision is the one that holds. *)
Theorem collision_reason_spec name e :
  collides e name ->
  (collision_reason name e = e +:+ " exists and differs only in letter case" /\ to_lower e = to_lower name)
  \/ (collision_reason name e = e +:+ " exists, so " +:+ name +:+ " cannot be created under it"
      /\ exists rest, to_lower name = to_lower e +:+ String "/" rest)
  \/ (collision_reason name e = e +:+ " exists under it"
      /\ exists rest, to_lower e = to_lower name +:+ String "/" rest).
Proof.
  intros Hc%collides_iff. unfold collision_reason, eq_ignore_case in *. case_bool_decide; [by left|right].
  destruct (is_path_prefix e name) eqn:E1; [left|right]; (split; [done|]); apply is_path_prefix_spec; [done|].
  by rewrite orb_false_r in Hc.
Qed.

Example case_collision : ref_collision ["refs/heads/a"; "refs/heads/Feature"] "refs/heads/feature/x" = Some "refs/heads/Feature".
Proof. vm_compute. reflexivity. Qed.
