(* ===== verification/Tarjan.v ===== *)
(** The cycle breaker of [rules.rs] ([cycle_to_break]): Tarjan's strongly
    connected components, iterative, over the updates of one block. The model
    follows the loop statement by statement; an array initialised to [NONE] is a
    finite map that lacks the key. The theorems say that the search ends within
    its fuel, always finds a vertex (so the code's [expect] cannot fire), and
    that every successor of the vertex found leads back to it. *)
From S2P Require Import Prelude.

Section tarjan.
(** [n] vertices, [placed] those no longer in the graph, [edge v u] the edges
([edge] of the code includes [!placed[u]]). *)
Variables (n : nat) (placed : nat -> bool) (edge : nat -> nat -> bool).

Record tstate := TState {
  t_index : gmap nat nat;
  t_low : gmap nat nat;
  t_comp : gmap nat nat;
  t_on_stack : gset nat;
  t_stack : list nat;
  t_next : nat;
  t_comps : nat;
  t_call : list (nat * nat)
  }.

Definition tinit : tstate := TState ∅ ∅ ∅ ∅ [] 0 0 [].

(** The next neighbour of [v] to look at, from [from] on. *)
Definition next_neighbour (s : tstate) (v from : nat) : option nat :=
  List.find (fun u => edge v u && (bool_decide (t_index s !! u = None) || bool_decide (u ∈ t_on_stack s)))
  (seq from (n - from)).

(** Give [u] its index and push it on both stacks. *)
Definition enter (s : tstate) (u : nat) (call : list (nat * nat)) : tstate :=
  TState (<[u := t_next s]> (t_index s)) (<[u := t_next s]> (t_low s)) (t_comp s)
  ({[u]} ∪ t_on_stack s) (u :: t_stack s) (S (t_next s)) (t_comps s) ((u, 0) :: call).

(** [while let Some(w) = stack.pop()]: close the component of [v]. *)
Fixpoint pop_component (v k : nat) (stack : list nat) (on : gset nat) (comp : gmap nat nat)
  : list nat * gset nat * gmap nat nat :=
  match stack with
  | [] => ([], on, comp)
  | w :: rest =>
  let on := on ∖ {[w]} in
  let comp := <[w := k]> comp in
  if w =? v then (rest, on, comp) else pop_component v k rest on comp
  end.

Definition lower_parent (low : gmap nat nat) (call : list (nat * nat)) (v : nat) : gmap nat nat :=
  match call with
  | (parent, _) :: _ => <[parent := low !!! parent `min` low !!! v]> low
  | [] => low
  end.

(** One turn of [while let Some(&(v, from)) = call.last()]; [None] when the call stack is empty. *)
Definition tstep (s : tstate) : option tstate :=
  match t_call s with
  | [] => None
  | (v, from) :: rest =>
  match next_neighbour s v from with
  | Some u =>
  let call := (v, S u) :: rest in
  match t_index s !! u with
  | None => Some (enter s u call)
  | Some iu =>
  Some (TState (t_index s) (<[v := t_low s !!! v `min` iu]> (t_low s)) (t_comp s)
          (t_on_stack s) (t_stack s) (t_next s) (t_comps s) call)
  end
  | None =>
  let low := lower_parent (t_low s) rest v in
  if low !!! v =? t_index s !!! v then
  let '(stack, on, comp) := pop_component v (t_comps s) (t_stack s) (t_on_stack s) (t_comp s) in
  Some (TState (t_index s) low comp on stack (t_next s) (S (t_comps s)) rest)
  else
  Some (TState (t_index s) low (t_comp s) (t_on_stack s) (t_stack s) (t_next s) (t_comps s) rest)
  end
  end.

Fixpoint trun (fuel : nat) (s : tstate) : option tstate :=
  match tstep s with
  | None => Some s
  | Some s' => match fuel with O => None | S fuel => trun fuel s' end
  end.

Definition tfuel : nat := S n * (n + 2).

(** One turn of the loop over the roots; [None] when the fuel ran out. *)
Definition troot (s : tstate) (root : nat) : option tstate :=
  match t_index s !! root with
  | Some _ => Some s
  | None => trun tfuel (enter s root [])
  end.

Definition tarjan : option tstate :=
  foldl (fun acc root => acc ≫= fun s => troot s root) (Some tinit)
  (List.filter (fun r => negb (placed r)) (seq 0 n)).

(** The smallest vertex all of whose successors are in its own component. *)
Definition sink_member (s : tstate) : option nat :=
  List.find (fun v => negb (placed v)
  && forallb (fun u => negb (edge v u) || bool_decide (t_comp s !! u = t_comp s !! v)) (seq 0 n))
  (seq 0 n).

Definition find_cycle_breaker : option nat := tarjan ≫= sink_member.
End tarjan.

(** ** Correctness *)

Section tarjan_proofs.
Variables (n : nat) (placed : nat -> bool) (edge : nat -> nat -> bool).
Hypothesis edge_ok : forall v u, edge v u = true -> u < n /\ placed u = false.

Abbreviation reach := (rtc (fun a b => edge a b = true)).
Abbreviation cn s := (map fst (t_call s)).
Abbreviation above s := (fun a b => t_index s !!! b < t_index s !!! a).

(** The deepest call-stack node at or below [w]: the search is inside its subtree at [w]. *)
Definition owner (s : tstate) (w c : nat) : Prop :=
  c ∈ cn s /\ t_index s !!! c <= t_index s !!! w
  /\ forall c', c' ∈ cn s -> t_index s !!! c' <= t_index s !!! w -> t_index s !!! c' <= t_index s !!! c.

(** The edge from [w] to [u] has been looked at. *)
Definition looked_at (s : tstate) (w u : nat) : Prop :=
  w ∉ cn s \/ exists from, (w, from) ∈ t_call s /\ u < from.

Record tinv (s : tstate) : Prop := {
  inv_on : forall w, w ∈ t_on_stack s <-> w ∈ t_stack s;
  inv_visited : forall w, is_Some (t_index s !! w) <-> w ∈ t_stack s \/ is_Some (t_comp s !! w);
  inv_disj : forall w, w ∈ t_stack s -> t_comp s !! w = None;
  inv_lt : forall w i, t_index s !! w = Some i -> i < t_next s;
  inv_inj : forall w w' i, t_index s !! w = Some i -> t_index s !! w' = Some i -> w = w';
  inv_range : forall w i, t_index s !! w = Some i -> w < n /\ placed w = false;
  inv_stack_sorted : StronglySorted (above s) (t_stack s);
  inv_call_sorted : StronglySorted (above s) (cn s);
  inv_call_stack : forall c, c ∈ cn s -> c ∈ t_stack s;
  inv_call_reach : StronglySorted (fun a b => reach b a) (cn s);
  inv_low : forall w, w ∈ t_stack s -> exists x, x ∈ t_stack s /\ t_index s !!! x = t_low s !!! w
        /\ reach w x /\ t_index s !!! x <= t_index s !!! w;
  inv_fin_low : forall w, w ∈ t_stack s -> w ∉ cn s -> t_low s !!! w < t_index s !!! w;
  inv_own : forall w, w ∈ t_stack s -> exists c, owner s w c /\ reach c w;
  inv_own_low : forall w c, w ∈ t_stack s -> owner s w c -> t_low s !!! c <= t_low s !!! w;
  inv_edges : forall w c u, w ∈ t_stack s -> owner s w c -> edge w u = true -> looked_at s w u ->
        is_Some (t_index s !! u) /\ (u ∈ t_stack s -> t_low s !!! c <= t_index s !!! u);
  inv_comp_edges : forall w k u, t_comp s !! w = Some k -> edge w u = true ->
        exists k', t_comp s !! u = Some k' /\ k' <= k;
  inv_comp_lt : forall w k, t_comp s !! w = Some k -> k < t_comps s;
  inv_comp_0 : 0 < t_comps s -> exists w, t_comp s !! w = Some 0;
  inv_comp_reach : forall w u k, t_comp s !! w = Some k -> t_comp s !! u = Some k -> reach w u
  }.

Lemma inv_stack_visited s w : tinv s -> w ∈ t_stack s -> exists i, t_index s !! w = Some i /\ t_index s !!! w = i.
Proof.
  intros I Hw. destruct (proj2 (inv_visited _ I w)) as [i Hi]; [by left|].
  exists i. split; [done|]. by apply lookup_total_correct.
Qed.

Lemma inv_idx_eq s w w' :
  tinv s -> w ∈ t_stack s -> w' ∈ t_stack s -> t_index s !!! w = t_index s !!! w' -> w = w'.
Proof.
  intros I Hw Hw' Heq.
  destruct (inv_stack_visited s w I Hw) as (i & Hi & Hi'), (inv_stack_visited s w' I Hw') as (j & Hj & Hj').
  eapply (inv_inj _ I); [exact Hi|]. congruence.
Qed.

Lemma owner_unique s w c c' : tinv s -> owner s w c -> owner s w c' -> c = c'.
Proof.
  intros I (Hc & Hle & Hmax) (Hc' & Hle' & Hmax').
  apply (inv_idx_eq s); [done|by apply (inv_call_stack _ I)..|].
  specialize (Hmax c' Hc' Hle'). specialize (Hmax' c Hc Hle). lia.
Qed.

(** The top call node owns itself and everything above it. *)
Lemma owner_top s v from rest w :
  tinv s -> t_call s = (v, from) :: rest -> w ∈ t_stack s -> t_index s !!! v <= t_index s !!! w ->
  owner s w v.
Proof.
  intros I Hcall Hw Hle. pose proof (inv_call_sorted _ I) as Hs. unfold owner. rewrite Hcall in *.
  simpl in *. apply StronglySorted_inv in Hs as [_ Hs]. rewrite Forall_forall in Hs.
  split_and!; [left|done|]. intros c' Hc' _. apply elem_of_cons in Hc' as [->|Hc']; [done|].
  specialize (Hs c' Hc'). simpl in Hs. lia.
Qed.

Lemma tinv_init : tinv tinit.
Proof.
  split; simpl; intros; rewrite ?lookup_empty in *; try (by constructor); try done;
    try by match goal with H : _ ∈ [] |- _ => apply elem_of_nil in H end.
  - by rewrite elem_of_empty, elem_of_nil.
  - split; [by intros []|]. intros [Hw|[? ?]]; [by apply elem_of_nil in Hw|done].
  - lia.
Qed.

(** *** Entering an unvisited vertex *)
Section enter.
Variables (s : tstate) (u : nat) (call : list (nat * nat)).
Hypothesis I : tinv s.
Hypothesis Hu : t_index s !! u = None.
Hypothesis Hcn : map fst call = cn s.

Let s' := enter s u call.

Lemma enter_cn : cn s' = u :: cn s.
Proof. unfold s'. simpl. by rewrite Hcn. Qed.

Lemma enter_new : (u ∉ t_stack s) /\ t_comp s !! u = None.
Proof.
  assert (~ is_Some (t_index s !! u)) as H by (rewrite Hu; by intros []).
  rewrite (inv_visited _ I) in H. split; [tauto|].
  destruct (t_comp s !! u) eqn:E; [|done]. destruct H. right. by eexists.
Qed.

Lemma enter_idx_u : t_index s' !!! u = t_next s.
Proof. unfold s'. simpl. apply lookup_total_insert_eq. Qed.
Lemma enter_idx w : w ∈ t_stack s -> t_index s' !!! w = t_index s !!! w /\ t_index s !!! w < t_next s.
Proof.
  intros Hw. destruct (inv_stack_visited s w I Hw) as (i & Hi & ->).
  assert (w <> u) by congruence. unfold s'. simpl. rewrite lookup_total_insert_ne by done.
  split; [by apply lookup_total_correct|]. by eapply inv_lt.
Qed.
Lemma enter_low w : w ∈ t_stack s -> t_low s' !!! w = t_low s !!! w.
Proof. intros Hw. unfold s'. simpl. apply lookup_total_insert_ne. intros <-. by apply enter_new. Qed.

Lemma enter_owner_old w c : w ∈ t_stack s -> (owner s' w c <-> owner s w c).
Proof.
  intros Hw. destruct (enter_idx w Hw) as [Ew Hlt]. unfold owner. rewrite enter_cn, Ew.
  assert (forall c0, c0 ∈ u :: cn s -> t_index s' !!! c0 <= t_index s !!! w ->
    c0 ∈ cn s /\ t_index s' !!! c0 = t_index s !!! c0) as Hold.
  { intros c0 [->|Hc0]%elem_of_cons Hle; [rewrite enter_idx_u in Hle; lia|].
    split; [done|]. by apply enter_idx, (inv_call_stack _ I). }
  split.
  - intros (Hc & Hle & Hmax). destruct (Hold c Hc Hle) as [Hc' Ec]. rewrite Ec in Hle, Hmax.
    split_and!; [done|done|]. intros c' Hc'' Hle'.
    assert (t_index s' !!! c' = t_index s !!! c') as Ec' by (by apply enter_idx, (inv_call_stack _ I)).
    rewrite <-Ec'. apply Hmax; [by right|congruence].
  - intros (Hc & Hle & Hmax).
    assert (t_index s' !!! c = t_index s !!! c) as Ec by (by apply enter_idx, (inv_call_stack _ I)).
    rewrite Ec. split_and!; [by right|done|]. intros c' Hc' Hle'.
    destruct (Hold c' Hc' Hle') as [Hc'' ->]. apply Hmax; [done|].
    by rewrite <-(proj1 (enter_idx c' (inv_call_stack _ I c' Hc''))).
Qed.

Lemma enter_owner_new c : owner s' u c <-> c = u.
Proof.
  unfold owner. rewrite enter_cn, enter_idx_u. split.
  - intros (Hc & _ & Hmax). specialize (Hmax u ltac:(left)). rewrite enter_idx_u in Hmax.
    apply elem_of_cons in Hc as [->|Hc]; [done|].
    destruct (enter_idx c) as [Ec Hlt]; [by apply (inv_call_stack _ I)|]. lia.
  - intros ->. rewrite enter_idx_u. split_and!; [left|done|]. intros c' [->|Hc']%elem_of_cons; [done|].
    destruct (enter_idx c') as [Ec Hlt]; [by apply (inv_call_stack _ I)|]. intros _. lia.
Qed.

Hypothesis Hn : u < n /\ placed u = false.
Hypothesis Hreach : forall b, b ∈ cn s -> reach b u.
Hypothesis Hlooked : forall w c v, w ∈ t_stack s -> owner s w c -> edge w v = true ->
  (w ∉ cn s \/ exists from, (w, from) ∈ call /\ v < from) ->
  v = u \/ is_Some (t_index s !! v) /\ (v ∈ t_stack s -> t_low s !!! c <= t_index s !!! v).

Lemma enter_sorted l :
  StronglySorted (above s) l -> (forall c, c ∈ l -> c ∈ t_stack s) -> StronglySorted (above s') (u :: l).
Proof.
  intros Hl Hin. constructor.
  - induction Hl as [|a l Hl IH Ha]; [constructor|]. constructor.
    + apply IH. intros c Hc. apply Hin. by right.
    + rewrite Forall_forall in *. intros b Hb. specialize (Ha b Hb). simpl in *.
      destruct (enter_idx a) as [Ea _]; [apply Hin; left|].
      destruct (enter_idx b) as [Eb _]; [apply Hin; by right|]. unfold s' in Ea, Eb. simpl in Ea, Eb. lia.
  - apply Forall_forall. intros b Hb. rewrite enter_idx_u.
    destruct (enter_idx b (Hin b Hb)). lia.
Qed.

Lemma tinv_enter : tinv s'.
Proof.
  destruct enter_new as [Hus Huc].
  assert (forall w, w ∈ t_stack s' <-> w = u \/ w ∈ t_stack s) as Hst by (intros; apply elem_of_cons).
  pose proof enter_cn as Hcn'.
  split.
  - intros w. unfold s'. simpl. rewrite elem_of_cons, elem_of_union, elem_of_singleton, (inv_on _ I). done.
  - intros w. unfold s'. simpl. rewrite lookup_insert, elem_of_cons. case_decide as Hw.
    + subst. split; [by left; left|by eexists].
    + rewrite (inv_visited _ I). split; [intros [?|?]; [left; by right|by right]|].
      intros [[?|?]|?]; [done|by left|by right].
  - intros w [->|Hw]%Hst; [done|]. by apply (inv_disj _ I).
  - intros w i. unfold s'. simpl. rewrite lookup_insert. case_decide; [intros [= <-]; lia|].
    intros Hi. apply (inv_lt _ I) in Hi. lia.
  - intros w w' i. unfold s'. simpl. rewrite !lookup_insert. repeat case_decide; try congruence.
    + intros [= <-] Hi%(inv_lt _ I). lia.
    + intros Hi%(inv_lt _ I) [= <-]. lia.
    + apply (inv_inj _ I).
  - intros w i. unfold s'. simpl. rewrite lookup_insert. case_decide; [by subst|]. apply (inv_range _ I).
  - apply enter_sorted; [apply (inv_stack_sorted _ I)|done].
  - rewrite Hcn'. apply enter_sorted; [apply (inv_call_sorted _ I)|apply (inv_call_stack _ I)].
  - intros c. rewrite Hcn', Hst. intros [->|Hc]%elem_of_cons; [by left|right]. by apply (inv_call_stack _ I).
  - rewrite Hcn'. constructor; [apply (inv_call_reach _ I)|]. by apply Forall_forall.
  - intros w [->|Hw]%Hst.
    + exists u. rewrite Hst, enter_idx_u. split_and!; [by left|unfold s'; simpl; by rewrite lookup_total_insert_eq|done|done].
    + destruct (inv_low _ I w Hw) as (x & Hx & Ex & Hr & Hle). exists x.
      rewrite Hst, enter_low, (proj1 (enter_idx x Hx)), (proj1 (enter_idx w Hw)) by done. auto.
  - intros w Hw Hnc. rewrite Hcn', not_elem_of_cons in Hnc. apply Hst in Hw as [->|Hw]; [tauto|].
    rewrite enter_low, (proj1 (enter_idx w Hw)) by done. by apply (inv_fin_low _ I), Hnc.
  - intros w [->|Hw]%Hst.
    + exists u. by rewrite enter_owner_new.
    + destruct (inv_own _ I w Hw) as (c & Hc & Hr). exists c. by rewrite enter_owner_old.
  - intros w c [->|Hw]%Hst.
    + by intros ->%enter_owner_new.
    + rewrite enter_owner_old by done. intros Hc. rewrite !enter_low; [|done|].
      * by apply (inv_own_low _ I).
      * apply (inv_call_stack _ I), Hc.
  - intros w c v Hw Hc Hv Hl.
    assert (is_Some (t_index s' !! u)) as Hsu by (unfold s'; simpl; rewrite lookup_insert_eq; by eexists).
    assert (forall v0, is_Some (t_index s !! v0) -> is_Some (t_index s' !! v0)) as Hmono.
    { intros v0 Hv0. unfold s'. simpl. rewrite lookup_insert. case_decide; [by eexists|done]. }
    apply Hst in Hw as [->|Hw].
    { exfalso. destruct Hl as [Hl|(from & Hin & Hlt)]; [rewrite Hcn' in Hl; by destruct Hl; left|].
      unfold s' in Hin. simpl in Hin. apply elem_of_cons in Hin as [[= ->]|Hin]; [lia|].
      apply Hus, (inv_call_stack _ I). rewrite <-Hcn. apply list_elem_of_fmap. by exists (u, from). }
    rewrite enter_owner_old in Hc by done.
    assert (w <> u) as Hwu by (by intros ->).
    destruct (Hlooked w c v Hw Hc Hv) as [->|[Hvis Hle]].
    { destruct Hl as [Hl|(from & Hin & Hlt)]; [left; rewrite Hcn', not_elem_of_cons in Hl; apply Hl|right].
      exists from. split; [|done]. unfold s' in Hin. simpl in Hin. apply elem_of_cons in Hin as [[= ]|Hin]; done. }
    + split; [done|]. intros _. rewrite enter_low by apply (inv_call_stack _ I), Hc.
      rewrite enter_idx_u. destruct (inv_low _ I c) as (x & Hx & <- & _); [apply (inv_call_stack _ I), Hc|].
      destruct (enter_idx x Hx). lia.
    + split; [by apply Hmono|]. intros [->|Hvs]%Hst; [by rewrite Hu in Hvis; destruct Hvis|].
      rewrite enter_low, (proj1 (enter_idx v Hvs)) by apply (inv_call_stack _ I), Hc. by apply Hle.
  - apply (inv_comp_edges _ I).
  - apply (inv_comp_lt _ I).
  - apply (inv_comp_0 _ I).
  - apply (inv_comp_reach _ I).
Qed.
End enter.

(** *** Looking at an edge to a vertex on the stack *)

(** The vertices from [from] up to [to] need no visit from [v]. *)
Definition passed_over (s : tstate) (v from to : nat) : Prop :=
  forall u, from <= u -> u < to -> edge v u = true -> is_Some (t_index s !! u) /\ (u ∉ t_stack s).

Lemma inv_low_le s w : tinv s -> w ∈ t_stack s -> t_low s !!! w <= t_index s !!! w.
Proof. intros I Hw. destruct (inv_low _ I w Hw) as (x & _ & <- & _ & ?). done. Qed.

(** The nodes at or above the top call node have all been searched, but for
the edges of that node still ahead. *)
Lemma inv_top_edges s v from rest w u :
  tinv s -> t_call s = (v, from) :: rest -> w ∈ t_stack s -> t_index s !!! v <= t_index s !!! w ->
  edge w u = true -> (w = v -> u < from) ->
  is_Some (t_index s !! u) /\ (u ∈ t_stack s -> t_low s !!! v <= t_index s !!! u).
Proof.
  intros I Hcall Hw Hle Hwu Hfrom. eapply (inv_edges _ I); [done|by eapply owner_top|done|].
  destruct (decide (w = v)) as [->|Hne].
  - right. exists from. rewrite Hcall. split; [left|auto].
  - left. intros Hc. pose proof (inv_call_sorted _ I) as Hs. rewrite Hcall in Hc, Hs. simpl in *.
    apply StronglySorted_inv in Hs as [_ Hs]. rewrite Forall_forall in Hs.
    apply elem_of_cons in Hc as [->|Hc]; [done|]. specialize (Hs w Hc). simpl in Hs. lia.
Qed.

Lemma tinv_relax s v from rest u iu :
  tinv s -> t_call s = (v, from) :: rest -> from <= u -> edge v u = true ->
  passed_over s v from u -> u ∈ t_stack s -> t_index s !! u = Some iu ->
  tinv (TState (t_index s) (<[v := t_low s !!! v `min` iu]> (t_low s)) (t_comp s)
    (t_on_stack s) (t_stack s) (t_next s) (t_comps s) ((v, S u) :: rest)).
Proof.
  intros I Hcall Hfu Hvu Hpass Hus Hiu.
  set (low' := <[v := t_low s !!! v `min` iu]> (t_low s)).
  set (s' := TState _ low' _ _ _ _ _ _).
  assert (cn s' = cn s) as Hcn by (simpl; by rewrite Hcall).
  assert (forall w c, owner s' w c <-> owner s w c) as Hown by (intros; unfold owner; by rewrite Hcn).
  assert (v ∈ t_stack s) as Hvs by (apply (inv_call_stack _ I); rewrite Hcall; left).
  assert (t_index s !!! u = iu) as Hiu' by by apply lookup_total_correct.
  assert (low' !!! v = t_low s !!! v `min` iu) as Hlv by apply lookup_total_insert_eq.
  assert (forall w, w <> v -> low' !!! w = t_low s !!! w) as Hlw
    by (intros; by apply lookup_total_insert_ne).
  assert (forall w, low' !!! w <= t_low s !!! w) as Hlle.
  { intros w. destruct (decide (w = v)) as [->|Hne]; [lia|]. by rewrite Hlw. }
  split; try apply I; try (rewrite Hcn; apply I).
  - intros w Hw. destruct (inv_low _ I w Hw) as (x & Hx & Ex & Hr & Hle).
    destruct (decide (w = v)) as [->|Hne]; [|exists x; simpl; by rewrite Hlw].
    destruct (decide (t_low s !!! v <= iu)).
    + exists x. simpl. rewrite Hlv. split_and!; [done|lia|done|done].
    + exists u. simpl. rewrite Hlv. split_and!; [done|lia|by apply rtc_once|lia].
  - intros w Hw. rewrite Hcn. intros Hnc. simpl. rewrite Hlw; [by apply (inv_fin_low _ I)|].
    intros ->. apply Hnc. rewrite Hcall. left.
  - intros w Hw. setoid_rewrite Hown. by apply (inv_own _ I).
  - intros w c Hw Hc%Hown. simpl. pose proof (inv_own_low _ I w c Hw Hc). pose proof (Hlle c).
    destruct (decide (w = v)) as [->|Hne]; [|rewrite (Hlw w) by done; lia].
    assert (c = v) as ->; [|done].
    eapply (owner_unique s v); [done|done|]. by eapply owner_top.
  - intros w c u0 Hw Hc%Hown Hwu Hl. simpl. pose proof (Hlle c).
    destruct (decide (w = v)) as [->|Hne].
    + assert (c = v) as -> by (eapply (owner_unique s v); [done|done|by eapply owner_top]).
      assert (u0 < S u) as Hlt.
      { destruct Hl as [Hl|(f & Hin & Hlt)]; [destruct Hl; rewrite Hcn, Hcall; left|].
        simpl in Hin. apply elem_of_cons in Hin as [[= ->]|Hin]; [done|].
        exfalso. pose proof (inv_call_sorted _ I) as Hs. rewrite Hcall in Hs. simpl in Hs.
        apply StronglySorted_inv in Hs as [_ Hs]. rewrite Forall_forall in Hs.
        assert (v ∈ map fst rest) as Hv by (apply list_elem_of_fmap; by exists (v, f)).
        specialize (Hs v Hv). simpl in Hs. lia. }
      destruct (decide (u0 = u)) as [->|]; [split; [by eexists|rewrite Hlv; lia]|].
      destruct (decide (u0 < from)).
      * destruct (inv_top_edges s v from rest v u0) as [? Hle]; try done.
        split; [done|]. intros Hu0. specialize (Hle Hu0). lia.
      * destruct (Hpass u0) as [? Hns]; [lia|lia|done|]. split; [done|]. intros Hu0. by destruct Hns.
    + destruct (inv_edges _ I w c u0) as [? Hle]; try done.
      { destruct Hl as [Hl|(f & Hin & Hlt)]; [left; by rewrite Hcn in Hl|right].
        exists f. split; [|done]. rewrite Hcall. simpl in Hin.
        apply elem_of_cons in Hin as [[= ->]|Hin]; [done|by right]. }
      split; [done|]. intros Hu0. specialize (Hle Hu0). lia.
Qed.

(** *** Leaving a vertex *)
Section leave.
Variables (s : tstate) (v from : nat) (rest : list (nat * nat)).
Hypothesis I : tinv s.
Hypothesis Hcall : t_call s = (v, from) :: rest.
Hypothesis Hdone : forall u, from <= u -> edge v u = true -> is_Some (t_index s !! u) /\ (u ∉ t_stack s).

Lemma leave_v_stack : v ∈ t_stack s.
Proof. apply (inv_call_stack _ I). rewrite Hcall. left. Qed.

Lemma leave_cn c : c ∈ cn s <-> c = v \/ c ∈ map fst rest.
Proof. rewrite Hcall. apply elem_of_cons. Qed.

Lemma leave_rest c : c ∈ map fst rest ->
  c ∈ t_stack s /\ t_index s !!! c < t_index s !!! v /\ reach c v.
Proof.
  intros Hc. split; [apply (inv_call_stack _ I), leave_cn; by right|].
  pose proof (inv_call_sorted _ I) as H1. pose proof (inv_call_reach _ I) as H2. rewrite Hcall in H1, H2.
  apply StronglySorted_inv in H1 as [_ H1], H2 as [_ H2]. rewrite Forall_forall in H1, H2. auto.
Qed.

(** Every edge from the part of the stack that [v] owns has been looked at. *)
Lemma leave_edges w u :
  w ∈ t_stack s -> t_index s !!! v <= t_index s !!! w -> edge w u = true ->
  is_Some (t_index s !! u) /\ (u ∈ t_stack s -> t_low s !!! v <= t_index s !!! u).
Proof.
  intros Hw Hle Hwu. destruct (decide (w = v /\ from <= u)) as [[-> Hf]|Hn].
  - destruct (Hdone u Hf Hwu) as [? Hns]. split; [done|]. intros Hu. by destruct Hns.
  - eapply inv_top_edges; try done. intros ->. lia.
Qed.

Lemma leave_owner_top w :
  w ∈ t_stack s -> t_index s !!! v <= t_index s !!! w -> owner s w v.
Proof. by eapply owner_top. Qed.

Lemma leave_owned w : w ∈ t_stack s -> t_index s !!! v <= t_index s !!! w ->
  reach v w /\ t_low s !!! v <= t_low s !!! w.
Proof.
  intros Hw Hle. pose proof (leave_owner_top w Hw Hle) as Ho. split.
  - destruct (inv_own _ I w Hw) as (c & Hc & Hr). by rewrite (owner_unique s w v c).
  - by apply (inv_own_low _ I).
Qed.

Lemma leave_sorted_cn : StronglySorted (above s) (map fst rest) /\ StronglySorted (fun a b => reach b a) (map fst rest).
Proof.
  pose proof (inv_call_sorted _ I) as H1. pose proof (inv_call_reach _ I) as H2. rewrite Hcall in H1, H2.
  by apply StronglySorted_inv in H1 as [H1 _], H2 as [H2 _].
Qed.

(** When [low] is still the index, all of the owned part leads back to [v]. *)
Lemma leave_back w :
  t_low s !!! v = t_index s !!! v -> w ∈ t_stack s -> t_index s !!! v <= t_index s !!! w -> reach w v.
Proof.
  intros Hroot. remember (t_index s !!! w) as i eqn:Hi. revert w Hi.
  induction (lt_wf i) as [i _ IH]; intros w -> Hw Hle.
  destruct (decide (w = v)) as [->|Hne]; [done|].
  assert (w ∉ cn s) as Hnc.
  { intros [->|Hc]%leave_cn; [done|]. apply leave_rest in Hc as (_ & ? & _). lia. }
  pose proof (inv_fin_low _ I w Hw Hnc) as Hlt. destruct (inv_low _ I w Hw) as (x & Hx & Ex & Hr & _).
  destruct (leave_owned w Hw Hle) as [_ Hll].
  etrans; [exact Hr|]. by apply (IH (t_index s !!! x)); [lia| |done|lia].
Qed.

(** **** The vertex is no root: its part goes to its parent. *)
Section keep.
Variables (p fp : nat) (rest' : list (nat * nat)).
Hypothesis Hrest : rest = (p, fp) :: rest'.
Hypothesis Hlow : t_low s !!! v < t_index s !!! v.

Let low' := <[p := t_low s !!! p `min` t_low s !!! v]> (t_low s).
Let s' := TState (t_index s) low' (t_comp s) (t_on_stack s) (t_stack s) (t_next s) (t_comps s) rest.

Lemma keep_p : p ∈ map fst rest.
Proof. rewrite Hrest. left. Qed.

Lemma keep_low w : low' !!! w <= t_low s !!! w /\ (w <> p -> low' !!! w = t_low s !!! w).
Proof.
  unfold low'. destruct (decide (w = p)) as [->|].
  - rewrite lookup_total_insert_eq. split; [lia|done].
  - by rewrite lookup_total_insert_ne.
Qed.

Lemma keep_owner_p w : w ∈ t_stack s -> t_index s !!! v <= t_index s !!! w -> owner s' w p.
Proof.
  intros Hw Hle. destruct (leave_rest p keep_p) as (_ & Hlt & _). unfold owner. simpl.
  split_and!; [exact keep_p|lia|]. intros c Hc _. rewrite Hrest in Hc. apply elem_of_cons in Hc as [->|Hc]; [done|].
  destruct leave_sorted_cn as [H1 _]. rewrite Hrest in H1. apply StronglySorted_inv in H1 as [_ H1].
  rewrite Forall_forall in H1. specialize (H1 c Hc). simpl in H1. lia.
Qed.

Lemma keep_owner w c : w ∈ t_stack s -> owner s' w c ->
  owner s w c \/ c = p /\ t_index s !!! v <= t_index s !!! w.
Proof.
  intros Hw Ho. destruct (decide (t_index s !!! v <= t_index s !!! w)) as [Hle|Hgt].
  - right. split; [|done]. pose proof (keep_owner_p w Hw Hle) as (Hp & Hp1 & Hp2).
    destruct Ho as (Hc & Hc1 & Hc2). simpl in *.
    apply (inv_idx_eq s); [done|apply leave_rest, Hc|apply leave_rest, Hp|].
    specialize (Hp2 c Hc Hc1). specialize (Hc2 p Hp Hp1). lia.
  - left. destruct Ho as (Hc & Hc1 & Hc2). simpl in *. split_and!; [apply leave_cn; by right|done|].
    intros c' [->|Hc']%leave_cn; [lia|by apply Hc2].
Qed.

Lemma tinv_keep : tinv s'.
Proof.
  pose proof leave_v_stack as Hv. destruct (leave_rest p keep_p) as (Hps & Hpv & Hpr).
  split; try apply I.
  - apply leave_sorted_cn.
  - intros c Hc. by apply leave_rest.
  - apply leave_sorted_cn.
  - intros w Hw. simpl in *. destruct (inv_low _ I w Hw) as (x & Hx & Ex & Hr & Hle).
    destruct (keep_low w) as [_ Hlw]. destruct (decide (w = p)) as [->|]; [|exists x; by rewrite Hlw].
    unfold low'. rewrite lookup_total_insert_eq.
    destruct (decide (t_low s !!! p <= t_low s !!! v)); [exists x; split_and!; [done|lia|done|done]|].
    destruct (inv_low _ I v Hv) as (y & Hy & Ey & Hry & Hley). exists y.
    split_and!; [done|lia|etrans; [exact Hpr|exact Hry]|]. pose proof (inv_low_le s p I Hps). lia.
  - intros w Hw Hnc. simpl in *. destruct (keep_low w) as [Hle _].
    destruct (decide (w = v)) as [->|]; [lia|].
    assert (t_low s !!! w < t_index s !!! w); [|lia].
    apply (inv_fin_low _ I); [done|]. rewrite leave_cn. tauto.
  - intros w Hw. simpl in Hw. destruct (decide (t_index s !!! v <= t_index s !!! w)) as [Hle|Hgt].
    + exists p. split; [by apply keep_owner_p|]. etrans; [exact Hpr|by apply leave_owned].
    + destruct (inv_own _ I w Hw) as (c & (Hc & Hc1 & Hc2) & Hr). exists c. split; [|done].
      apply leave_cn in Hc as [->|Hc]; [lia|]. split_and!; [done|done|].
      intros c' Hc' Hle'. apply Hc2; [apply leave_cn; by right|done].
  - intros w c Hw Ho. simpl in *. destruct (keep_low c) as [Hlc _], (keep_low w) as [_ Hlw].
    apply keep_owner in Ho as [Ho|[-> Hle]]; [| |done].
    + pose proof (inv_own_low _ I w c Hw Ho). destruct (decide (w = p)) as [->|]; [|rewrite Hlw by done; lia].
      assert (c = p) as ->; [|done]. destruct Ho as (Hc & Hc1 & Hc2).
      apply (inv_idx_eq s); [done|by apply (inv_call_stack _ I)|done|].
      specialize (Hc2 p ltac:(apply leave_cn; right; exact keep_p) ltac:(done)). lia.
    + destruct (decide (w = p)) as [->|]; [done|]. rewrite Hlw by done.
      destruct (leave_owned w Hw Hle). unfold low'. rewrite lookup_total_insert_eq. lia.
  - intros w c u Hw Ho Hwu Hl. simpl in *. destruct (keep_low c) as [Hlc _].
    apply keep_owner in Ho as [Ho|[-> Hle]]; [| |done].
    + destruct (decide (t_index s !!! v <= t_index s !!! w)) as [Hle|Hgt].
      * assert (c = v) as -> by (eapply owner_unique; [done|exact Ho|by apply leave_owner_top]).
        destruct (leave_edges w u Hw Hle Hwu) as [? Hu]. split; [done|]. intros Hus. specialize (Hu Hus). lia.
      * destruct (inv_edges _ I w c u Hw Ho Hwu) as [? Hu].
        { destruct Hl as [Hl|(f & Hin & Hlt)]; [left|right; exists f; rewrite Hcall; split; [by right|done]].
          simpl in Hl. rewrite leave_cn. intros [->|]; [lia|done]. }
        split; [done|]. intros Hus. specialize (Hu Hus). lia.
    + destruct (leave_edges w u Hw Hle Hwu) as [? Hu]. split; [done|]. intros Hus. specialize (Hu Hus).
      unfold low'. rewrite lookup_total_insert_eq. lia.
Qed.
End keep.

(** **** The vertex is a root: its part is a component. *)
Section close.
Variables (stack : list nat) (on : gset nat) (comp : gmap nat nat) (low' : gmap nat nat).
Hypothesis Hroot : t_low s !!! v = t_index s !!! v.
Hypothesis Hlow' : forall w, low' !!! w = t_low s !!! w.
Hypothesis Hstack : forall w, w ∈ stack <-> w ∈ t_stack s /\ t_index s !!! w < t_index s !!! v.
Hypothesis Hsorted : StronglySorted (above s) stack.
Hypothesis Hon : forall w, w ∈ on <-> w ∈ stack.
Hypothesis Hcomp : forall w, comp !! w =
  if decide (w ∈ t_stack s /\ t_index s !!! v <= t_index s !!! w) then Some (t_comps s) else t_comp s !! w.

Let s' := TState (t_index s) low' comp on stack (t_next s) (S (t_comps s)) rest.

Lemma close_comp_old w k : comp !! w = Some k ->
  (w ∈ t_stack s /\ t_index s !!! v <= t_index s !!! w /\ k = t_comps s) \/ (w ∉ t_stack s) /\ t_comp s !! w = Some k.
Proof.
  rewrite Hcomp. case_decide as Hw; [intros [= <-]; left; tauto|]. intros Hk. right. split; [|done].
  intros Hws. by rewrite (inv_disj _ I w Hws) in Hk.
Qed.

Lemma close_comp_keep w k : t_comp s !! w = Some k -> comp !! w = Some k.
Proof.
  intros Hk. rewrite Hcomp, decide_False; [done|]. intros [Hw _]. by rewrite (inv_disj _ I w Hw) in Hk.
Qed.

Lemma close_owner w c : w ∈ stack -> owner s' w c <-> owner s w c.
Proof.
  intros [Hw Hlt]%Hstack. unfold owner. simpl. setoid_rewrite leave_cn. split.
  - intros (Hc & Hle & Hmax). split_and!; [by right|done|]. intros c' [->|Hc']; [lia|by apply Hmax].
  - intros ([->|Hc] & Hle & Hmax); [lia|]. split_and!; [done|done|]. intros c' Hc'. apply Hmax. by right.
Qed.

Lemma tinv_close : tinv s'.
Proof.
  split; simpl.
  - exact Hon.
  - intros w. rewrite Hstack. split.
    + intros [Hw|[k Hk]]%(inv_visited _ I); [|right; eexists; by apply close_comp_keep].
      destruct (decide (t_index s !!! v <= t_index s !!! w)); [right|left; split; [done|lia]].
      rewrite Hcomp, decide_True by done. by eexists.
    + intros [[Hw _]|[k Hk]]; [by apply (inv_visited _ I); left|].
      apply close_comp_old in Hk as [(Hw & _)|[_ Hk]]; apply (inv_visited _ I); [by left|right; by eexists].
  - intros w [Hw Hlt]%Hstack. rewrite Hcomp, decide_False by (intros [_ ?]; lia). by apply (inv_disj _ I).
  - apply I.
  - apply I.
  - apply I.
  - exact Hsorted.
  - apply leave_sorted_cn.
  - intros c Hc. apply Hstack. split; by apply leave_rest.
  - apply leave_sorted_cn.
  - intros w [Hw Hlt]%Hstack. destruct (inv_low _ I w Hw) as (x & Hx & Ex & Hr & Hle).
    exists x. rewrite Hlow', Hstack. split_and!; [done|lia|done|done|done].
  - intros w [Hw Hlt]%Hstack Hnc. rewrite Hlow'. apply (inv_fin_low _ I); [done|].
    rewrite leave_cn. intros [->|]; [lia|done].
  - intros w Hws. pose proof Hws as [Hw Hlt]%Hstack. destruct (inv_own _ I w Hw) as (c & Hc & Hr).
    exists c. by rewrite close_owner.
  - intros w c Hws. pose proof Hws as [Hw Hlt]%Hstack. rewrite close_owner by done.
    rewrite !Hlow'. by apply (inv_own_low _ I).
  - intros w c u Hws Ho Hwu Hl. pose proof Hws as [Hw Hlt]%Hstack. rewrite close_owner in Ho by done.
    destruct (inv_edges _ I w c u Hw Ho Hwu) as [? Hu].
    { destruct Hl as [Hl|(f & Hin & Hlt')]; [left|right; exists f; rewrite Hcall; split; [by right|done]].
      simpl in Hl. rewrite leave_cn. intros [->|]; [lia|done]. }
    split; [done|]. rewrite Hlow'. intros [Hus _]%Hstack. by apply Hu.
  - intros w k u Hk Hwu. apply close_comp_old in Hk as [(Hw & Hle & ->)|[Hns Hk]].
    + destruct (leave_edges w u Hw Hle Hwu) as [Hvis Hu].
      apply (inv_visited _ I) in Hvis as [Hus|[k Hk]].
      * specialize (Hu Hus). exists (t_comps s). rewrite Hcomp, decide_True by (split; [done|lia]). done.
      * exists k. split; [by apply close_comp_keep|]. apply (inv_comp_lt _ I) in Hk. lia.
    + destruct (inv_comp_edges _ I w k u Hk Hwu) as (k' & Hk' & ?). exists k'.
      split; [by apply close_comp_keep|done].
  - intros w k [(_ & _ & ->)|[_ Hk]]%close_comp_old; [lia|]. apply (inv_comp_lt _ I) in Hk. lia.
  - intros _. destruct (decide (t_comps s = 0)) as [H0|H0].
    + exists v. rewrite Hcomp, decide_True by (split; [apply leave_v_stack|done]). by rewrite H0.
    + destruct (inv_comp_0 _ I) as [w Hw]; [lia|]. exists w. by apply close_comp_keep.
  - intros w u k [(Hw & Hlew & ->)|[_ Hw]]%close_comp_old [(Hu & Hleu & Hk)|[_ Hu]]%close_comp_old.
    + etrans; [by apply leave_back|by apply leave_owned].
    + apply (inv_comp_lt _ I) in Hu. lia.
    + apply (inv_comp_lt _ I) in Hw. lia.
    + by eapply (inv_comp_reach _ I).
Qed.
End close.
End leave.

(** Popping a component takes off exactly the stack down to its root. *)
Lemma pop_component_spec v k stack on comp :
  NoDup stack -> v ∈ stack -> (forall w, w ∈ on <-> w ∈ stack) ->
  exists seg rest on' comp',
  stack = seg ++ v :: rest
  /\ pop_component v k stack on comp = (rest, on', comp')
  /\ (forall w, w ∈ on' <-> w ∈ rest)
  /\ forall w, comp' !! w = if decide (w ∈ seg ++ [v]) then Some k else comp !! w.
Proof.
  intros Hnd Hv Hon. revert on comp Hon. induction Hnd as [|w stack Hw Hnd IH]; intros on comp Hon.
  { by apply elem_of_nil in Hv. }
  simpl. destruct (Nat.eqb_spec w v) as [->|Hne].
  - exists [], stack, (on ∖ {[v]}), (<[v := k]> comp). split_and!; [done|done| |].
    + intros x. rewrite elem_of_difference, elem_of_singleton, Hon, elem_of_cons.
      split; [intros [[->|] ?]; done|]. intros Hx. split; [by right|]. by intros ->.
    + intros x. rewrite lookup_insert. simpl. destruct (decide (x ∈ [v])) as [H|H], (decide (v = x)); try done;
        rewrite list_elem_of_singleton in H; congruence.
  - apply elem_of_cons in Hv as [->|Hv]; [done|].
    destruct (IH Hv (on ∖ {[w]}) (<[w := k]> comp)) as (seg & rest & on' & comp' & -> & -> & Hon' & Hcomp').
    { intros x. rewrite elem_of_difference, elem_of_singleton, Hon, elem_of_cons.
      split; [intros [[->|] ?]; done|]. intros Hx. split; [by right|]. by intros ->. }
    exists (w :: seg), rest, on', comp'. split_and!; [done|done|done|].
    intros x. rewrite Hcomp', lookup_insert. simpl.
    destruct (decide (x ∈ seg ++ [v])) as [H1|H1], (decide (x ∈ w :: seg ++ [v])) as [H2|H2], (decide (w = x));
      try done; rewrite elem_of_cons in H2; exfalso; intuition congruence.
Qed.

(** *** One turn of the loop *)

(** How many turns are left: unvisited vertices, and what is left of each frame. *)
Definition tmeasure (s : tstate) : nat :=
  (n - size (t_index s)) * (n + 2) + sum_list_with (fun f => 1 + (S n - snd f)) (t_call s).

Lemma tinv_size s : tinv s -> size (t_index s) <= n.
Proof.
  intros I. rewrite <-size_dom. etrans; [|apply Nat.eq_le_incl, (size_set_seq (C := gset nat) 0 n)].
  apply subseteq_size. intros w [i Hi]%elem_of_dom. apply elem_of_set_seq.
  apply (inv_range _ I) in Hi. lia.
Qed.

Lemma next_neighbour_Some s v from u :
  tinv s -> next_neighbour n edge s v from = Some u ->
  from <= u /\ u < n /\ edge v u = true /\ (t_index s !! u = None \/ u ∈ t_stack s) /\ passed_over s v from u.
Proof.
  intros I Hf. unfold next_neighbour in Hf.
  apply find_some in Hf as Hu. destruct Hu as [Hu%in_seq Hp]. apply andb_true_iff in Hp as [Huv Hp].
  rewrite orb_true_iff, !bool_decide_eq_true, (inv_on _ I) in Hp. split_and!; [lia|lia|done|done|].
  intros u' Hle Hlt Huv'.
  assert (List.find (fun u => edge v u && (bool_decide (t_index s !! u = None) || bool_decide (u ∈ t_on_stack s)))
    (seq from (u - from)) = None) as Hnone.
  { destruct (List.find _ (seq from (u - from))) as [x|] eqn:Hx; [|done]. exfalso.
    pose proof Hx as [Hin%in_seq _]%find_some.
    replace (n - from) with ((u - from) + (n - u)) in Hf by lia.
    rewrite seq_app, find_app, Hx in Hf. simplify_eq. lia. }
  pose proof (find_none _ _ Hnone u' ltac:(apply in_seq; lia)) as Hx. simpl in Hx.
  rewrite Huv', andb_true_l, orb_false_iff, !bool_decide_eq_false, (inv_on _ I) in Hx.
  destruct Hx as [H1 H2]. split; [|done]. by apply not_eq_None_Some in H1.
Qed.

Lemma next_neighbour_None s v from u :
  tinv s -> next_neighbour n edge s v from = None -> from <= u -> edge v u = true ->
  is_Some (t_index s !! u) /\ (u ∉ t_stack s).
Proof.
  intros I Hf Hle Hvu. pose proof (find_none _ _ Hf u) as Hx.
  destruct (edge_ok v u Hvu) as [Hn _]. specialize (Hx ltac:(apply in_seq; lia)). simpl in Hx.
  rewrite Hvu, andb_true_l, orb_false_iff, !bool_decide_eq_false, (inv_on _ I) in Hx.
  destruct Hx as [H1 H2]. split; [|done]. by apply not_eq_None_Some in H1.
Qed.

Definition visited_grow (s s' : tstate) : Prop := forall w, is_Some (t_index s !! w) -> is_Some (t_index s' !! w).

Lemma tstep_enter s v from rest u :
  tinv s -> t_call s = (v, from) :: rest -> next_neighbour n edge s v from = Some u ->
  t_index s !! u = None ->
  let s' := enter s u ((v, S u) :: rest) in
  tinv s' /\ tmeasure s' < tmeasure s /\ visited_grow s s'.
Proof.
  intros I Hcall Hnb Hu s'. destruct (next_neighbour_Some s v from u I Hnb) as (Hfu & Hun & Hvu & _ & Hpass).
  assert (tinv s') as I'.
  { apply tinv_enter; [done|done|simpl; by rewrite Hcall|by apply (edge_ok v)|..].
    - intros b Hb. apply (rtc_r b v u); [|done]. rewrite Hcall in Hb. simpl in Hb.
      apply elem_of_cons in Hb as [->|Hb]; [done|]. by eapply leave_rest.
    - intros w c u0 Hw Ho Hwu Hl. destruct (decide (u0 = u)) as [|Hne]; [by left|right].
      destruct (decide (w = v /\ from <= u0)) as [[-> Hle]|Hn].
      + assert (u0 < u) as Hlt0.
        { destruct Hl as [Hl|(f & Hin & Hlt)]; [destruct Hl; rewrite Hcall; left|].
          apply elem_of_cons in Hin as [[= ->]|Hin]; [lia|]. exfalso.
          assert (v ∈ map fst rest) as Hv by (apply list_elem_of_fmap; by exists (v, f)).
          apply (leave_rest s v from rest I Hcall) in Hv as (_ & ? & _). lia. }
        destruct (Hpass u0 Hle Hlt0 Hwu) as [? Hns]. split; [done|]. intros Hu0. by destruct Hns.
      + eapply (inv_edges _ I); [done|done|done|].
        destruct (decide (w = v)) as [->|Hwv]; [right; exists from; rewrite Hcall; split; [left|lia]|].
        destruct Hl as [Hl|(f & Hin & Hlt)]; [by left|right]. exists f. split; [|done].
        rewrite Hcall. apply elem_of_cons in Hin as [[= ->]|Hin]; [done|by right]. }
  split_and!; [done| |].
  - pose proof (tinv_size s' I') as Hsz. unfold tmeasure. unfold s' in *. simpl in *.
    rewrite map_size_insert_None in * by done. rewrite Hcall. simpl. nia.
  - intros w Hw. simpl. rewrite lookup_insert. case_decide; [by eexists|done].
Qed.

Lemma tstep_leave s v from rest s' :
  tinv s -> t_call s = (v, from) :: rest -> next_neighbour n edge s v from = None ->
  tstep n edge s = Some s' ->
  tinv s' /\ t_call s' = rest /\ t_index s' = t_index s.
Proof.
  intros I Hcall Hnb Hstep.
  assert (forall u, from <= u -> edge v u = true -> is_Some (t_index s !! u) /\ (u ∉ t_stack s)) as Hdone
    by (intros; by eapply next_neighbour_None).
  unfold tstep in Hstep. rewrite Hcall, Hnb in Hstep.
  assert (lower_parent (t_low s) rest v !!! v = t_low s !!! v) as Hlv.
  { unfold lower_parent. destruct rest as [|[p fp] rest']; [done|]. apply lookup_total_insert_ne. intros ->.
    destruct (leave_rest s v from _ I Hcall v) as (_ & ? & _); [left|lia]. }
  rewrite Hlv in Hstep. destruct (Nat.eqb_spec (t_low s !!! v) (t_index s !!! v)) as [Hroot|Hne].
  - pose proof (leave_v_stack s v from rest I Hcall) as Hv.
    pose proof (inv_stack_sorted _ I) as Hs.
    assert (NoDup (t_stack s)) as Hnd.
    { clear -Hs. induction Hs as [|x l Hs IH Hx]; constructor; [|done]. intros Hin.
      rewrite Forall_forall in Hx. specialize (Hx x Hin). simpl in Hx. lia. }
    destruct (pop_component_spec v (t_comps s) (t_stack s) (t_on_stack s) (t_comp s) Hnd Hv (inv_on _ I))
      as (seg & st & on' & comp' & Hst & Hpop & Hon' & Hcomp').
    rewrite Hpop in Hstep. simplify_eq. split_and!; [|done|done].
    rewrite Hst in Hs. apply StronglySorted_app in Hs as (Hsep & Hseg & Hs).
    apply StronglySorted_inv in Hs as [Hs Hvst]. rewrite Forall_forall in Hvst.
    assert (forall w, w ∈ st <-> w ∈ t_stack s /\ t_index s !!! w < t_index s !!! v) as Hlow.
    { intros w. rewrite Hst, elem_of_app, elem_of_cons. split.
      - intros Hw. split; [by right; right|by apply Hvst].
      - intros [[Hw|[->|Hw]] Hlt]; [|lia|done]. specialize (Hsep w v Hw ltac:(left)). simpl in Hsep. lia. }
    eapply tinv_close; try done.
    + intros w. unfold lower_parent. destruct rest as [|[p fp] rest']; [done|].
      destruct (leave_rest s v from _ I Hcall p) as (Hp & Hlt & _); [left|].
      pose proof (inv_low_le s p I Hp). destruct (decide (w = p)) as [->|].
      * rewrite lookup_total_insert_eq. lia.
      * by rewrite lookup_total_insert_ne.
    + intros w. rewrite Hcomp'. assert (w ∈ seg ++ [v] <-> w ∈ t_stack s /\ t_index s !!! v <= t_index s !!! w) as Hiff.
      { rewrite elem_of_app, list_elem_of_singleton. rewrite Hst, elem_of_app, elem_of_cons. split.
        - intros [Hw| ->]; [|split; [by right; left|done]]. specialize (Hsep w v Hw ltac:(left)).
          simpl in Hsep. split; [by left|lia].
        - intros [[Hw|[->|Hw]] Hle]; [by left|by right|]. apply Hvst in Hw. lia. }
      destruct (decide (w ∈ seg ++ [v])), (decide (w ∈ t_stack s /\ t_index s !!! v <= t_index s !!! w)); tauto.
  - simplify_eq. split_and!; [|done|done].
    assert (t_low s !!! v < t_index s !!! v) as Hlt.
    { pose proof (inv_low_le s v I (leave_v_stack s v from rest I Hcall)). lia. }
    destruct rest as [|[p fp] rest'].
    + exfalso. destruct (inv_low _ I v (leave_v_stack s v from [] I Hcall)) as (x & Hx & Ex & _).
      destruct (inv_own _ I x Hx) as (c & (Hc & Hle & _) & _). rewrite Hcall in Hc.
      apply list_elem_of_singleton in Hc as ->. simpl in Hle. lia.
    + by eapply tinv_keep.
Qed.

Lemma tstep_spec s s' :
  tinv s -> tstep n edge s = Some s' -> tinv s' /\ tmeasure s' < tmeasure s /\ visited_grow s s'.
Proof.
  intros I Hstep. destruct (t_call s) as [|[v from] rest] eqn:Hcall.
  { unfold tstep in Hstep. by rewrite Hcall in Hstep. }
  destruct (next_neighbour n edge s v from) as [u|] eqn:Hnb.
  - destruct (t_index s !! u) as [iu|] eqn:Hu.
    + unfold tstep in Hstep. rewrite Hcall, Hnb, Hu in Hstep. simplify_eq.
      destruct (next_neighbour_Some s v from u I Hnb) as (Hfu & Hun & Hvu & Hon & Hpass).
      split_and!; [|unfold tmeasure; simpl; rewrite Hcall; simpl; lia|by intros ?].
      eapply tinv_relax; try done. by destruct Hon as [Hon|Hon]; [congruence|].
    + unfold tstep in Hstep. rewrite Hcall, Hnb, Hu in Hstep. simplify_eq. by apply (tstep_enter s v from rest).
  - destruct (tstep_leave s v from rest s' I Hcall Hnb Hstep) as (I' & Hc & Hi).
    split_and!; [done|unfold tmeasure; rewrite Hc, Hi, Hcall; simpl; lia|]. intros w. by rewrite Hi.
Qed.

Lemma trun_spec fuel s :
  tinv s -> tmeasure s <= fuel ->
  exists s', trun n edge fuel s = Some s' /\ tinv s' /\ t_call s' = [] /\ visited_grow s s'.
Proof.
  revert s. induction fuel as [|fuel IH]; intros s I Hm; simpl;
    (destruct (tstep n edge s) as [s1|] eqn:Hstep;
    [destruct (tstep_spec s s1 I Hstep) as (I1 & Hlt & Hg)|]).
  - lia.
  - exists s. split_and!; [done|done| |by intros ?]. unfold tstep in Hstep.
    destruct (t_call s) as [|[v from] rest]; [done|]. by repeat case_match.
  - destruct (IH s1 I1) as (s' & Hr & I' & Hc & Hg'); [lia|]. exists s'. split_and!; [done|done|done|].
    intros w Hw. by apply Hg', Hg.
  - exists s. split_and!; [done|done| |by intros ?]. unfold tstep in Hstep.
    destruct (t_call s) as [|[v from] rest]; [done|]. by repeat case_match.
Qed.

Lemma troot_spec s root :
  tinv s -> t_call s = [] -> root < n -> placed root = false ->
  exists s', troot n edge s root = Some s' /\ tinv s' /\ t_call s' = []
  /\ visited_grow s s' /\ is_Some (t_index s' !! root).
Proof.
  intros I Hcall Hn Hp. unfold troot. destruct (t_index s !! root) as [i|] eqn:Hr.
  { exists s. split_and!; [done|done|done|by intros ?|by eexists]. }
  assert (tinv (enter s root [])) as I'.
  { apply tinv_enter; [done|done|by rewrite Hcall|done|..].
    - intros b Hb. rewrite Hcall in Hb. by apply elem_of_nil in Hb.
    - intros w c v Hw Ho. destruct Ho as (Hc & _). rewrite Hcall in Hc. by apply elem_of_nil in Hc. }
  destruct (trun_spec (tfuel n) (enter s root []) I') as (s' & Hrun & I'' & Hc & Hg).
  { pose proof (tinv_size _ I') as Hsz. unfold tmeasure, tfuel in *. simpl in *. nia. }
  exists s'. split_and!; [done|done|done| |].
  - intros w Hw. apply Hg. simpl. rewrite lookup_insert. case_decide; [by eexists|done].
  - apply Hg. simpl. rewrite lookup_insert_eq. by eexists.
Qed.

Lemma tarjan_roots_spec roots s :
  tinv s -> t_call s = [] -> (forall r, r ∈ roots -> r < n /\ placed r = false) ->
  exists s', foldl (fun acc root => acc ≫= fun s => troot n edge s root) (Some s) roots = Some s'
  /\ tinv s' /\ t_call s' = [] /\ visited_grow s s' /\ (forall r, r ∈ roots -> is_Some (t_index s' !! r)).
Proof.
  revert s. induction roots as [|r roots IH]; intros s I Hc Hr; simpl.
  { exists s. split_and!; [done|done|done|by intros ?|]. intros r Hin. by apply elem_of_nil in Hin. }
  destruct (Hr r ltac:(left)) as [Hrn Hrp].
  destruct (troot_spec s r I Hc Hrn Hrp) as (s1 & Hroot & I1 & Hc1 & Hg1 & Hv1).
  destruct (IH s1 I1 Hc1) as (s' & Hf & I' & Hc' & Hg' & Hv'); [intros r' Hr'; apply Hr; by right|].
  exists s'. change (Some s ≫= (fun s0 => troot n edge s0 r)) with (troot n edge s r). rewrite Hroot.
  split_and!; [done|done|done|intros w Hw; by apply Hg', Hg1|].
  intros r' [->|Hr']%elem_of_cons; [by apply Hg'|by apply Hv'].
Qed.

(** The components found: every vertex still in the graph has one, edges never lead to a
later one, and two vertices share one exactly when each leads to the other. *)
Lemma tarjan_spec :
  exists s, tarjan n placed edge = Some s
  /\ (forall v, v < n -> placed v = false -> exists k, t_comp s !! v = Some k)
  /\ (forall w k u, t_comp s !! w = Some k -> edge w u = true -> exists k', t_comp s !! u = Some k' /\ k' <= k)
  /\ (forall w u k, t_comp s !! w = Some k -> t_comp s !! u = Some k -> reach w u)
  /\ (forall w k, t_comp s !! w = Some k -> (w < n /\ placed w = false) /\ exists w0, t_comp s !! w0 = Some 0).
Proof.
  destruct (tarjan_roots_spec (List.filter (fun r => negb (placed r)) (seq 0 n)) tinit)
    as (s & Hs & I & Hc & _ & Hv); [apply tinv_init|done|..].
  { intros r Hr. apply list_elem_of_In, filter_In in Hr as [Hr%in_seq Hp%negb_true_iff]. split; [lia|done]. }
  exists s. split_and!; [done| |apply (inv_comp_edges _ I)|apply (inv_comp_reach _ I)|].
  - intros v Hn Hp. destruct (Hv v) as [i Hi].
    { apply list_elem_of_In, filter_In. split; [apply in_seq; lia|by rewrite Hp]. }
    assert (is_Some (t_index s !! v)) as Hvis by by eexists.
    apply (inv_visited _ I) in Hvis as [Hst|Hk]; [|done].
    destruct (inv_own _ I v Hst) as (c & (Hcn & _) & _). rewrite Hc in Hcn. by apply elem_of_nil in Hcn.
  - intros w k Hk. split.
    + assert (is_Some (t_index s !! w)) as [i Hi] by (apply (inv_visited _ I); right; by eexists).
      by apply (inv_range _ I) in Hi.
    + apply (inv_comp_0 _ I). apply (inv_comp_lt _ I) in Hk. lia.
Qed.

Lemma comp_mono s w u k :
  (forall w k u, t_comp s !! w = Some k -> edge w u = true -> exists k', t_comp s !! u = Some k' /\ k' <= k) ->
  reach w u -> t_comp s !! w = Some k -> exists k', t_comp s !! u = Some k' /\ k' <= k.
Proof.
  intros Hedges Hr. revert k. induction Hr as [w|w x u Hwx Hr IH]; intros k Hk; [eauto|].
  destruct (Hedges w k x Hk Hwx) as (k1 & Hk1 & ?). destruct (IH k1 Hk1) as (k2 & Hk2 & ?).
  exists k2. split; [done|lia].
Qed.

(** The vertex found is the least one whose every successor leads back to it; and one is
found whenever a vertex is left in the graph. *)
Lemma find_cycle_breaker_spec :
  match find_cycle_breaker n placed edge with
  | Some v => (v < n /\ placed v = false) /\ (forall u, edge v u = true -> reach u v)
  /\ (forall v', v' < v -> placed v' = false -> exists u, edge v' u = true /\ ~ reach u v')
  | None => forall v, v < n -> placed v = true
  end.
Proof.
  destruct tarjan_spec as (s & Hs & Hcomp & Hedges & Hreach & Hrange).
  unfold find_cycle_breaker. rewrite Hs. simpl. unfold sink_member.
  set (p := fun v => negb (placed v) && _).
  assert (forall v, v < n -> placed v = false -> p v = true <-> forall u, edge v u = true -> reach u v) as Hp.
  { intros v Hn Hpl. unfold p. rewrite Hpl. simpl. rewrite forallb_forall.
    destruct (Hcomp v Hn Hpl) as [k Hk]. split.
    - intros Hall u Hvu. destruct (edge_ok v u Hvu) as [Hu _].
      specialize (Hall u ltac:(apply in_seq; lia)). rewrite Hvu in Hall. simpl in Hall.
      apply bool_decide_eq_true in Hall. rewrite Hk in Hall. by eapply Hreach.
    - intros Hall u _. destruct (edge v u) eqn:Hvu; [|done]. simpl. apply bool_decide_eq_true.
      destruct (Hedges v k u Hk Hvu) as (k1 & Hk1 & ?).
      destruct (comp_mono s u v k1 Hedges (Hall u Hvu) Hk1) as (k2 & Hk2 & ?).
      rewrite Hk in Hk2. simplify_eq. rewrite Hk, Hk1. f_equal. lia. }
  destruct (List.find p (seq 0 n)) as [v|] eqn:Hf.
  - apply find_some in Hf as Hv. destruct Hv as [Hv%in_seq Hpv].
    assert (placed v = false) as Hpl by (unfold p in Hpv; by destruct (placed v)).
    split_and!; [lia|done|by apply Hp; [lia|..]|]. intros v' Hlt Hpl'.
    assert (p v' = false) as Hpv'.
    { replace n with (v + (n - v)) in Hf by lia. rewrite seq_app, find_app in Hf.
      destruct (List.find p (seq 0 v)) as [x|] eqn:Hx.
      - apply find_some in Hx as [Hx%in_seq _]. simplify_eq. lia.
      - apply (find_none _ _ Hx). apply in_seq. lia. }
    unfold p in Hpv'. rewrite Hpl' in Hpv'. simpl in Hpv'.
    apply not_true_iff_false in Hpv'. rewrite forallb_forall in Hpv'.
    destruct (Hcomp v' ltac:(lia) Hpl') as [k Hk].
    destruct (decide (Exists (fun u => edge v' u = true /\ t_comp s !! u <> t_comp s !! v') (seq 0 n))) as [He|Hne].
    + apply Exists_exists in He as (u & _ & Hvu & Hneq). exists u. split; [done|]. intros Hr.
      destruct (Hedges v' k u Hk Hvu) as (k1 & Hk1 & ?).
      destruct (comp_mono s u v' k1 Hedges Hr Hk1) as (k2 & Hk2 & ?).
      rewrite Hk in Hk2. simplify_eq. apply Hneq. rewrite Hk, Hk1. f_equal. lia.
    + exfalso. apply Hpv'. intros u Hu. destruct (edge v' u) eqn:Hvu; [|done]. simpl.
      apply bool_decide_eq_true. destruct (decide (t_comp s !! u = t_comp s !! v')) as [|Hneq]; [done|].
      exfalso. apply Hne, Exists_exists. exists u. split; [by apply list_elem_of_In|done].
  - intros v Hn. destruct (placed v) eqn:Hpl; [done|]. exfalso.
    destruct (Hcomp v Hn Hpl) as [k Hk]. destruct (Hrange v k Hk) as [_ [w0 H0]].
    destruct (Hrange w0 0 H0) as [[Hn0 Hpl0] _].
    pose proof (find_none _ _ Hf w0 ltac:(apply in_seq; lia)) as Hpw. apply not_true_iff_false in Hpw.
    apply Hpw, Hp; [done|done|]. intros u Hu. destruct (Hedges w0 0 u H0 Hu) as (k' & Hk' & ?).
    assert (k' = 0) as -> by lia. by eapply Hreach.
Qed.
End tarjan_proofs.
