(* ===== verification/Refs.v ===== *)
(** Ref resolution ([rules.rs]): the update and config documents, the causal
    order, protection as of a time, the live heads of a ref and what they resolve
    to, and the base history a pull request is judged against. *)
From S2P Require Import Prelude Names Tarjan.

(** ** Documents *)

Record RefUpdate := mkRefUpdate {
  ru_id : string;
  ru_ref_name_hash : string;
  ru_ref_name : string;
  ru_prev_oid : Oid;
  ru_new_oid : Oid;
  ru_force : bool;
  ru_protected : bool;
  ru_author : string;
  ru_created_at : N
}.

Record ConfigDoc := mkConfigDoc {
  cd_id : string;
  cd_created_at : N;
  cd_protected_patterns : list string;
  cd_author : option string
}.

Record RefHead := mkRefHead {
  rh_id : string;
  rh_oid : Oid;
  rh_author : string;
  rh_created_at : N
}.

Inductive RefState :=
| Unborn
| Resolved (oid : Oid) (author : string) (created_at : N)
| Diverged (heads : list RefHead).

(** The precomputed ancestry pairs of the conformance vectors. *)
Record Ancestry := mkAncestry { an_pairs : list (Oid * Oid) }.

#[export] Instance RefUpdate_eq_dec : EqDecision RefUpdate.
Proof. solve_decision. Defined.

(** ** Operations *)

Definition is_ancestor (a : Ancestry) (ancestor descendant : string) : bool :=
  (ancestor == descendant)
  || existsb (fun p => (p.1 == ancestor) && (p.2 == descendant)) (an_pairs a).

Definition tip_of (state : RefState) : option string :=
  match state with
  | Resolved oid _ _ => Some oid
  | Diverged heads => rh_oid <$> head heads
  | Unborn => None
  end.

Definition builds_on (v u : RefUpdate) : bool :=
  negb (is_null_oid (ru_prev_oid v)) && (ru_prev_oid v == ru_new_oid u) && (ru_new_oid v != ru_new_oid u).

(** The [(createdAt, id)] total order. *)
Definition update_cmp : RefUpdate -> RefUpdate -> comparison :=
  cmp_then (cmp_on ru_created_at N.compare) (cmp_on ru_id String.compare).

Definition config_cmp : ConfigDoc -> ConfigDoc -> comparison :=
  cmp_then (cmp_on cd_created_at N.compare) (cmp_on cd_id String.compare).

(** [slice::chunk_by]: maximal runs of neighbours that satisfy [same]. *)
Fixpoint chunk_by {A} (same : A -> A -> bool) (l : list A) : list (list A) :=
  match l with
  | [] => []
  | x :: l' =>
    match chunk_by same l' with
    | (y :: b) :: bs => if same x y then (x :: y :: b) :: bs else [x] :: (y :: b) :: bs
    | bs => [x] :: bs
    end
  end.

Definition builds_on_at (block : list RefUpdate) (v u : nat) : bool :=
  match block !! v, block !! u with
  | Some a, Some b => builds_on a b
  | _, _ => false
  end.

Definition cycle_to_break (block : list RefUpdate) (placed : gset nat) : option nat :=
  find_cycle_breaker (length block) (fun i => bool_decide (i ∈ placed))
    (fun v u => negb (bool_decide (u ∈ placed)) && builds_on_at block v u).

(** [waiting] before anything is placed: how many updates of the block each builds on. *)
Definition initial_waiting (block : list RefUpdate) : list nat :=
  map (fun v => length (List.filter (builds_on v) block)) block.

(** The index placed next; [None] where the code would panic. *)
Definition next_to_place (block : list RefUpdate) (waiting : list nat) (placed : gset nat) : option nat :=
  match List.find (fun i => (waiting !!! i =? 0)%nat)
          (List.filter (fun i => negb (bool_decide (i ∈ placed))) (seq 0 (length block))) with
  | Some i => Some i
  | None => cycle_to_break block placed
  end.

(** [waiting] once [next] is placed. *)
Definition release_waiting (block : list RefUpdate) (placed : gset nat) (next : nat) (waiting : list nat)
    : list nat :=
  imap (fun v w => if negb (bool_decide (v ∈ placed)) && builds_on_at block v next then pred w else w) waiting.

Fixpoint place_block (turns : nat) (block : list RefUpdate) (waiting : list nat) (placed : gset nat)
    : option (list nat) :=
  match turns with
  | O => Some []
  | S turns =>
    next ← next_to_place block waiting placed;
    let placed := {[next]} ∪ placed in
    rest ← place_block turns block (release_waiting block placed next waiting) placed;
    Some (next :: rest)
  end.

Definition order_block (block : list RefUpdate) : option (list RefUpdate) :=
  order ← place_block (length block) block (initial_waiting block) ∅;
  mapM (fun i => block !! i) order.

Definition same_time (a b : RefUpdate) : bool := (ru_created_at a =? ru_created_at b)%N.

Definition causal_order (updates : list RefUpdate) : option (list RefUpdate) :=
  blocks ← mapM order_block (chunk_by same_time (sort_by update_cmp updates));
  Some (concat blocks).

Definition config_as_of (config_history : list ConfigDoc) (at_ : N) : option ConfigDoc :=
  max_by config_cmp (List.filter (fun c => (cd_created_at c <=? at_)%N) config_history).

Definition head_of (u : RefUpdate) : RefHead :=
  mkRefHead (ru_id u) (ru_new_oid u) (ru_author u) (ru_created_at u).

(** Whether [v], later in the causal order, supersedes [u]. *)
Definition supersedes (is_anc : string -> string -> bool) (u v : RefUpdate) : bool :=
  is_null_oid (ru_new_oid v) || ru_force v || builds_on v u || is_anc (ru_new_oid u) (ru_new_oid v).

(** The loop of [live_heads] over the causal order backwards: [rev_valid] is what
    is left, newest first, [later] the updates already passed. *)
Fixpoint collect_heads (is_anc : string -> string -> bool) (rev_valid later : list RefUpdate)
    (heads : list RefHead) : list RefHead :=
  match rev_valid with
  | [] => heads
  | u :: rest =>
    let heads :=
      if is_null_oid (ru_new_oid u) || existsb (fun h => rh_oid h == ru_new_oid u) heads then heads
      else if existsb (supersedes is_anc u) later then heads
      else heads ++ [head_of u] in
    collect_heads is_anc rest (u :: later) heads
  end.

Fixpoint settling_prev_oids (is_anc : string -> string -> bool) (heads : list Oid) (new_oid : string)
    : list string + string :=
  match heads with
  | [] => inl []
  | head :: heads =>
    if head == new_oid then settling_prev_oids is_anc heads new_oid
    else if is_anc head new_oid then
      match settling_prev_oids is_anc heads new_oid with
      | inl prevs => inl (head :: prevs)
      | inr missing => inr missing
      end
    else inr head
  end.

Record MergeBaseTips := mkMergeBaseTips {
  mb_historical : list Oid;
  mb_tip : option Oid;
  mb_current : option Oid
}.

Definition mb_contains (t : MergeBaseTips) (oid : string) : bool :=
  existsb (fun x => x == oid) (mb_historical t).

(** The distinct non-null tips, in the order they were first set. *)
Definition distinct_tips (valid : list RefUpdate) : list Oid :=
  foldl (fun hist u =>
           if negb (is_null_oid (ru_new_oid u)) && negb (existsb (fun h => h == ru_new_oid u) hist)
           then hist ++ [ru_new_oid u] else hist) [] valid.

(** [before] of [pr_base_tips]. *)
Definition updates_upto (opened_at : N) (updates : list RefUpdate) : list RefUpdate :=
  List.filter (fun u => (ru_created_at u <=? opened_at)%N) updates.

Section resolution.
(** The [glob_match] crate, and [hex::encode(sha256(..))] of the [sha2] and [hex] crates. *)
Variable glob_match : string -> string -> bool.
Variable sha256_hex : string -> string.

Definition ref_name_hash_matches (ref_name ref_name_hash : string) : bool :=
  eq_ignore_case (sha256_hex ref_name) ref_name_hash.

Definition is_update_valid (u : RefUpdate) (config_history : list ConfigDoc) : bool :=
  if negb (is_legal_ref_name (ru_ref_name u)) then false
  else if is_sha256_hex (ru_ref_name_hash u)
    && negb (ref_name_hash_matches (ru_ref_name u) (ru_ref_name_hash u)) then false
  else match config_as_of config_history (ru_created_at u) with
  | None => true
  | Some cfg =>
   if matches_protected glob_match (ru_ref_name u) (cd_protected_patterns cfg)
   then ru_protected u else true
  end.

Definition valid_updates (updates : list RefUpdate) (config_history : list ConfigDoc)
  (ref_name_hash : string) : option (list RefUpdate) :=
  causal_order (List.filter (fun u => (ru_ref_name_hash u == ref_name_hash)
                                && is_update_valid u config_history) updates).

Definition live_heads (updates : list RefUpdate) (config_history : list ConfigDoc)
  (ref_name_hash : string) (is_anc : string -> string -> bool) : option (list RefHead) :=
  valid ← valid_updates updates config_history ref_name_hash;
  match last valid with
  | None => Some []
  | Some newest =>
  if is_null_oid (ru_new_oid newest) then Some []
  else Some (collect_heads is_anc (rev valid) [] [])
  end.

Definition resolve_ref (updates : list RefUpdate) (config_history : list ConfigDoc)
  (ref_name_hash : string) (is_anc : string -> string -> bool) : option RefState :=
  heads ← live_heads updates config_history ref_name_hash is_anc;
  Some match heads with
  | [] => Unborn
  | [h] => Resolved (rh_oid h) (rh_author h) (rh_created_at h)
  | _ => Diverged heads
  end.

Definition valid_tips (updates : list RefUpdate) (config_history : list ConfigDoc)
  (ref_name_hash : string) : option (gset Oid * option N) :=
  valid ← valid_updates updates config_history ref_name_hash;
  Some (list_to_set (map ru_new_oid (List.filter (fun u => negb (is_null_oid (ru_new_oid u))) valid)),
  ru_created_at <$> last valid).

Definition display_ref_name (updates : list RefUpdate) (ref_name_hash : string) : option string :=
  ru_ref_name <$> max_by update_cmp
  (List.filter (fun u => (ru_ref_name_hash u == ref_name_hash)
                     && ref_name_hash_matches (ru_ref_name u) ref_name_hash) updates).

Definition merge_base_tips (updates : list RefUpdate) (config_history : list ConfigDoc)
  (ref_name_hash : string) : option MergeBaseTips :=
  valid ← valid_updates updates config_history ref_name_hash;
  Some (mkMergeBaseTips (distinct_tips valid)
    (ru_new_oid <$> List.find (fun u => negb (is_null_oid (ru_new_oid u))) (rev valid))
    (ru_new_oid <$> opt_filter (fun u => negb (is_null_oid (ru_new_oid u))) (last valid))).

Definition pr_base_tips (updates : list RefUpdate) (config_history : list ConfigDoc)
  (ref_name_hash : string) (opened_at : N) : option MergeBaseTips :=
  tips ← merge_base_tips updates config_history ref_name_hash;
  before ← merge_base_tips (updates_upto opened_at updates) config_history ref_name_hash;
  Some match mb_current before with
  | Some _ => tips
  | None => mkMergeBaseTips [] None (mb_current tips)
  end.
End resolution.

(** ** The causal order of one block *)

#[export] Instance update_cmp_ord : CmpOrd update_cmp.
Proof. unfold update_cmp. apply _. Qed.
#[export] Instance config_cmp_ord : CmpOrd config_cmp.
Proof. unfold config_cmp. apply _. Qed.

Lemma builds_on_at_spec block v u :
  builds_on_at block v u = true <->
  exists a b, block !! v = Some a /\ block !! u = Some b /\ builds_on a b = true.
Proof.
  unfold builds_on_at. split; [|by intros (a & b & -> & -> & ?)].
  destruct (block !! v) as [a|], (block !! u) as [b|]; try done. intros H. by exists a, b.
Qed.

Section block.
Variable block : list RefUpdate.

Abbreviation len := (length block).
Abbreviation at_ := (builds_on_at block).

Definition unplaced (placed : gset nat) : list nat :=
  List.filter (fun i => negb (bool_decide (i ∈ placed))) (seq 0 len).

(** How many unplaced updates [v] still waits for. *)
Definition waits (placed : gset nat) (v : nat) : nat :=
  length (List.filter (fun u => negb (bool_decide (u ∈ placed)) && at_ v u) (seq 0 len)).

Definition waiting_ok (waiting : list nat) (placed : gset nat) : Prop :=
  length waiting = len /\ forall v, v < len -> v ∉ placed -> waiting !!! v = waits placed v.

Lemma elem_of_unplaced placed i : i ∈ unplaced placed <-> i < len /\ (i ∉ placed).
Proof.
  unfold unplaced. rewrite list_elem_of_In, filter_In, in_seq, negb_true_iff, bool_decide_eq_false.
  intuition lia.
Qed.

Lemma NoDup_unplaced placed : NoDup (unplaced placed).
Proof. apply NoDup_ListNoDup, List.NoDup_filter, seq_NoDup. Qed.

Lemma length_filter_lookup {A} (f : A -> bool) (l : list A) :
  length (List.filter (fun i => match l !! i with Some x => f x | None => false end) (seq 0 (length l)))
  = length (List.filter f l).
Proof.
  induction l as [|x l IH]; [done|]. cbn [length seq]. rewrite <-seq_shift. simpl.
  assert (forall k, length (List.filter (fun i => match (x :: l) !! i with Some y => f y | None => false end) (map S k))
    = length (List.filter (fun i => match l !! i with Some y => f y | None => false end) k)) as Hk.
  { induction k as [|j k IHk]; simpl; [done|]. by destruct (match l !! j with Some y => f y | None => false end);
      simpl; rewrite IHk. }
  by destruct (f x); simpl; rewrite Hk, IH.
Qed.

Lemma initial_waiting_ok : waiting_ok (initial_waiting block) ∅.
Proof.
  split; [unfold initial_waiting; by rewrite length_map|]. intros v Hv _.
  apply lookup_lt_is_Some_2 in Hv as [a Ha]. unfold initial_waiting.
  erewrite list_lookup_total_correct; [|by rewrite list_lookup_fmap, Ha]. unfold waits.
  rewrite <-length_filter_lookup. f_equal. apply filter_ext. intros u.
  rewrite bool_decide_eq_false_2 by set_solver. unfold builds_on_at. by rewrite Ha.
Qed.

Lemma waits_remove placed v x :
  x < len -> x ∉ placed ->
  waits ({[x]} ∪ placed) v + (if at_ v x then 1 else 0) = waits placed v.
Proof.
  intros Hx Hxp. unfold waits.
  assert (forall l, NoDup l ->
    length (List.filter (fun u => negb (bool_decide (u ∈ {[x]} ∪ placed)) && at_ v u) l)
    + (if bool_decide (x ∈ l) && at_ v x then 1 else 0)
    = length (List.filter (fun u => negb (bool_decide (u ∈ placed)) && at_ v u) l)) as Hl.
  { induction 1 as [|u l Hu Hnd IH]; [done|]. simpl. destruct (decide (u = x)) as [->|Hne].
    - rewrite (bool_decide_eq_true_2 (x ∈ {[x]} ∪ placed)), (bool_decide_eq_false_2 (x ∈ placed)),
        (bool_decide_eq_true_2 (x ∈ x :: l)) by (done || set_solver || left).
      rewrite (bool_decide_eq_false_2 (x ∈ l)) in IH by done. simpl in *.
      destruct (at_ v x); simpl; lia.
    - assert (bool_decide (u ∈ {[x]} ∪ placed) = bool_decide (u ∈ placed)) as ->
        by (apply bool_decide_ext; set_solver).
      assert (bool_decide (x ∈ u :: l) = bool_decide (x ∈ l)) as ->.
      { apply bool_decide_ext. rewrite elem_of_cons. intuition congruence. }
      destruct (negb _ && at_ v u); simpl; lia. }
  rewrite <-(Hl (seq 0 len)) by apply NoDup_ListNoDup, seq_NoDup.
  rewrite bool_decide_eq_true_2; [done|]. apply list_elem_of_In, in_seq. lia.
Qed.

Lemma release_waiting_ok waiting placed next :
  waiting_ok waiting placed -> next < len -> next ∉ placed ->
  waiting_ok (release_waiting block ({[next]} ∪ placed) next waiting) ({[next]} ∪ placed).
Proof.
  intros [Hlen Hw] Hn Hnp. unfold release_waiting. split; [by rewrite length_imap|].
  intros v Hv Hvp. destruct (lookup_lt_is_Some_2 waiting v) as [w Hwv]; [lia|].
  erewrite list_lookup_total_correct; [|by rewrite list_lookup_imap, Hwv].
  pose proof (waits_remove placed v next Hn Hnp) as Hr.
  rewrite bool_decide_eq_false_2 by done. simpl.
  specialize (Hw v Hv ltac:(set_solver)). rewrite (list_lookup_total_correct _ _ _ Hwv) in Hw.
  destruct (at_ v next); lia.
Qed.

(** What the choice of the next update guarantees: anything unplaced that it builds on
builds back on it, through updates still unplaced. *)
Lemma next_to_place_spec waiting placed :
  waiting_ok waiting placed -> unplaced placed <> [] ->
  exists i, next_to_place block waiting placed = Some i /\ i ∈ unplaced placed
  /\ forall u, u ∉ placed -> at_ i u = true -> rtc (fun a b => at_ a b = true) u i.
Proof.
  intros [Hlen Hw] Hne. unfold next_to_place. fold (unplaced placed).
  destruct (List.find _ (unplaced placed)) as [i|] eqn:Hf.
  - apply find_some in Hf as [Hi%list_elem_of_In H0%Nat.eqb_eq]. exists i. split_and!; [done|done|].
    intros u Hu Hiu. pose proof Hi as [Hil Hip]%elem_of_unplaced. rewrite Hw in H0 by done. exfalso.
    unfold waits in H0. apply nil_length_inv in H0. eapply (in_nil (a := u)). rewrite <-H0.
    apply filter_In. rewrite Hiu, bool_decide_eq_false_2 by done. split; [|done].
    apply builds_on_at_spec in Hiu as (? & ? & _ & Hu' & _). apply lookup_lt_Some in Hu'.
    apply in_seq. lia.
  - unfold cycle_to_break.
    set (edge := fun v u => negb (bool_decide (u ∈ placed)) && at_ v u).
    assert (forall v u, edge v u = true -> u < len /\ bool_decide (u ∈ placed) = false) as Hedge.
    { intros v u [Hu%negb_true_iff Huv]%andb_true_iff. split; [|done].
      apply builds_on_at_spec in Huv as (? & ? & _ & Hu' & _). by apply lookup_lt_Some in Hu'. }
    pose proof (find_cycle_breaker_spec len (fun i => bool_decide (i ∈ placed)) edge Hedge) as Hs.
    destruct (find_cycle_breaker _ _ _) as [v|].
    + destruct Hs as ((Hv & Hvp%bool_decide_eq_false) & Hback & _).
      exists v. split_and!; [done|by apply elem_of_unplaced|]. intros u Hu Hvu.
      apply (rtc_subrel (fun a b => edge a b = true)).
      * intros a b [_ Hab]%andb_true_iff. done.
      * apply Hback. unfold edge. by rewrite bool_decide_eq_false_2.
    + exfalso. destruct (unplaced placed) as [|i l] eqn:Hu; [done|].
      assert (i ∈ unplaced placed) as [Hi Hip]%elem_of_unplaced by (rewrite Hu; left).
      apply Hs in Hi. by apply bool_decide_eq_true in Hi.
Qed.

(** In [order] nothing comes before what it builds on, unless that builds back on it. *)
Definition respects_chain (order : list nat) : Prop :=
  forall l1 v l2 u, order = l1 ++ v :: l2 -> u ∈ l2 -> at_ v u = true ->
  rtc (fun a b => at_ a b = true) u v.

Lemma unplaced_step placed i :
  i ∈ unplaced placed -> unplaced placed ≡ₚ i :: unplaced ({[i]} ∪ placed).
Proof.
  intros Hi. apply NoDup_Permutation; [apply NoDup_unplaced|constructor; [|apply NoDup_unplaced]|].
  - rewrite elem_of_unplaced. set_solver.
  - intros x. rewrite elem_of_cons, !elem_of_unplaced, elem_of_union, elem_of_singleton.
    apply elem_of_unplaced in Hi. destruct (decide (x = i)) as [->|]; tauto.
Qed.

Lemma place_block_spec turns waiting placed :
  waiting_ok waiting placed -> length (unplaced placed) = turns ->
  exists order, place_block turns block waiting placed = Some order
  /\ order ≡ₚ unplaced placed /\ respects_chain order.
Proof.
  revert waiting placed. induction turns as [|turns IH]; intros waiting placed Hw Hlen; simpl.
  { exists []. apply nil_length_inv in Hlen. rewrite Hlen. split_and!; [done|done|].
    intros l1 v l2 u Heq. by destruct l1. }
  destruct (next_to_place_spec waiting placed Hw) as (i & -> & Hi & Hback); [by destruct (unplaced placed)|].
  pose proof (unplaced_step placed i Hi) as Hp. pose proof Hi as [Hil Hip]%elem_of_unplaced.
  destruct (IH (release_waiting block ({[i]} ∪ placed) i waiting) ({[i]} ∪ placed))
    as (order & Ho & Hperm & Hchain); [by apply release_waiting_ok|rewrite Hp in Hlen; simpl in Hlen; lia|].
  exists (i :: order). simpl. rewrite Ho. split_and!; [done|by rewrite Hp, Hperm|].
  intros l1 v l2 u Heq Hu Hvu. destruct l1 as [|x l1]; simplify_eq/=; [|by eapply Hchain].
  apply Hback; [|done]. rewrite Hperm in Hu. apply elem_of_unplaced in Hu. set_solver.
Qed.
End block.

(** ** The causal order *)

(** Same-time updates of [l], each built on the next. *)
Definition leads_back (l : list RefUpdate) : RefUpdate -> RefUpdate -> Prop :=
  rtc (fun a b => (a ∈ l) /\ (b ∈ l) /\ ru_created_at a = ru_created_at b /\ builds_on a b = true).

(** Nothing of [out] comes before an update of the same time it builds on, unless that
    one builds back on it. *)
Definition causal (l out : list RefUpdate) : Prop :=
  forall l1 v l2 u, out = l1 ++ v :: l2 -> u ∈ l2 -> builds_on v u = true ->
    (ru_created_at v < ru_created_at u)%N \/ leads_back l u v.

Abbreviation time_le := (fun a b => (ru_created_at a <= ru_created_at b)%N).

Lemma mapM_lookup_perm {A} (l : list A) order :
  order ≡ₚ seq 0 (length l) ->
  exists out, mapM (fun i => l !! i) order = Some out /\ out ≡ₚ l
    /\ forall j x, out !! j = Some x -> exists i, order !! j = Some i /\ l !! i = Some x.
Proof.
  intros Hp.
  assert (exists out, mapM (fun i => l !! i) order = Some out) as [out Hout].
  { assert (Forall (fun i => i < length l) order) as Hall.
    { rewrite Hp. apply List.Forall_forall. intros i Hi%in_seq. lia. }
    clear Hp. induction Hall as [|i order Hi _ [out IH]]; [by exists []|].
    apply lookup_lt_is_Some_2 in Hi as [x Hx]. exists (x :: out). simpl. by rewrite Hx, IH. }
  exists out. split; [done|]. pose proof Hout as Hf%mapM_Some. split.
  - assert (out = omap (fun i => l !! i) order) as ->.
    { clear Hp Hout. induction Hf as [|i x order out Hi Hf IH]; [done|]. simpl. rewrite Hi. by f_equal. }
    rewrite Hp. assert (omap (fun i => l !! i) (seq 0 (length l)) = l) as ->; [|done].
    clear. induction l as [|x l IH]; [done|]. simpl. f_equal. rewrite <-seq_shift.
    rewrite <-IH at 2. generalize (seq 0 (length l)). intros k.
    induction k as [|j k IHk]; [done|]. simpl. by rewrite IHk.
  - intros j x Hx. eapply Forall2_lookup_r in Hf as (i & ? & ?); [|done]. by exists i.
Qed.

Lemma unplaced_empty block : unplaced block ∅ = seq 0 (length block).
Proof.
  unfold unplaced. apply List.forallb_filter_id. apply List.forallb_forall. intros i _.
  by rewrite bool_decide_eq_false_2 by set_solver.
Qed.

(** Writing the causal order of a block down: every update once, and nothing before
    what it builds on unless that builds back on it. *)
Lemma order_block_spec block :
  (forall a b, a ∈ block -> b ∈ block -> ru_created_at a = ru_created_at b) ->
  exists out, order_block block = Some out /\ out ≡ₚ block /\ causal block out.
Proof.
  intros Htime. unfold order_block.
  destruct (place_block_spec block (length block) (initial_waiting block) ∅) as (order & -> & Hp & Hc);
    [apply initial_waiting_ok|by rewrite unplaced_empty, length_seq|].
  rewrite unplaced_empty in Hp. simpl.
  destruct (mapM_lookup_perm block order Hp) as (out & -> & Hperm & Hlk). exists out.
  split_and!; [done|done|]. intros l1 v l2 u Heq Hu Hvu. right.
  assert (exists j, l2 !! j = Some u) as [j Hj] by by apply list_elem_of_lookup_1.
  destruct (Hlk (length l1) v) as (i & Hi & Hbi); [subst; by rewrite list_lookup_middle|].
  destruct (Hlk (length l1 + S j) u) as (k & Hk & Hbk).
  { subst. rewrite lookup_app_r by lia. by replace (length l1 + S j - length l1) with (S j) by lia. }
  assert (rtc (fun a b => builds_on_at block a b = true) k i) as Hr.
  { rewrite <-(take_drop_middle order (length l1) i Hi) in Hc. eapply Hc; [done| |].
    - apply list_elem_of_lookup. exists j. rewrite lookup_drop. by rewrite <-Hk; f_equal; lia.
    - apply builds_on_at_spec. by exists v, u. }
  clear - Hr Hbi Hbk Htime. unfold leads_back. revert u Hbk. induction Hr as [k|k m i Hkm _ IH]; intros u Hbk.
  { rewrite Hbi in Hbk. injection Hbk as ->. apply rtc_refl. }
  apply builds_on_at_spec in Hkm as (a & b & Ha & Hb & Hab). rewrite Hbk in Ha. injection Ha as <-.
  apply list_elem_of_lookup_2 in Hbk. pose proof Hb as Hb'%list_elem_of_lookup_2.
  eapply rtc_l; [|apply IH; [done|exact Hb]]. split_and!; [done|done|by apply Htime|done].
Qed.

Lemma chunk_by_concat {A} (same : A -> A -> bool) l : concat (chunk_by same l) = l.
Proof.
  induction l as [|x l IH]; [done|]. simpl. destruct (chunk_by same l) as [|[|y b] bs]; simpl in *.
  - by rewrite IH.
  - by rewrite IH.
  - destruct (same x y); simpl; by rewrite IH.
Qed.

(** The neighbours in a block are pairwise related. *)
Lemma chunk_by_blocks {A} (same : A -> A -> bool) (R : A -> A -> Prop) `{!Equivalence R} l :
  (forall x y, same x y = true -> R x y) ->
  Forall (fun b => forall x y, x ∈ b -> y ∈ b -> R x y) (chunk_by same l).
Proof.
  intros Hsame. induction l as [|x l IH]; [constructor|]. simpl.
  assert (forall a b, a ∈ [x] -> b ∈ [x] -> R a b) as Hx.
  { intros a b. rewrite !list_elem_of_singleton. intros -> ->. reflexivity. }
  destruct (chunk_by same l) as [|[|y b] bs]; [by repeat constructor|by constructor|].
  destruct (same x y) eqn:E; [|by constructor]. apply Hsame in E.
  apply Forall_cons in IH as [Hb Hbs]. constructor; [|done].
  assert (forall z, z ∈ x :: y :: b -> R z y) as Hz.
  { intros z [->|Hz]%elem_of_cons; [done|]. apply Hb; [done|left]. }
  intros a c Ha Hc. transitivity y; [by apply Hz|]. symmetry. by apply Hz.
Qed.

Lemma leads_back_mono l l' u v : (forall x, x ∈ l -> x ∈ l') -> leads_back l u v -> leads_back l' u v.
Proof. intros Hl. apply rtc_subrel. intros a b (? & ? & ? & ?). split_and!; auto. Qed.

Lemma order_blocks_spec blocks :
  Forall (fun b => forall x y, x ∈ b -> y ∈ b -> ru_created_at x = ru_created_at y) blocks ->
  exists outs, mapM order_block blocks = Some outs
    /\ Forall2 (fun b o => o ≡ₚ b /\ causal b o) blocks outs.
Proof.
  induction 1 as [|b blocks Hb _ (outs & IH & Hf)]; [by exists []|].
  destruct (order_block_spec b Hb) as (o & Ho & ? & ?). exists (o :: outs). simpl. rewrite Ho. simpl.
  rewrite IH. split; [done|by constructor].
Qed.

Lemma blocks_perm blocks outs :
  Forall2 (fun b o => o ≡ₚ b /\ causal b o) blocks outs -> concat outs ≡ₚ concat blocks.
Proof. induction 1 as [|b o ? ? [Ho _] _ IH]; simpl; [done|]. by rewrite Ho, IH. Qed.

Lemma blocks_sorted blocks outs :
  Forall2 (fun b o => o ≡ₚ b /\ causal b o) blocks outs ->
  Forall (fun b => forall x y, x ∈ b -> y ∈ b -> ru_created_at x = ru_created_at y) blocks ->
  StronglySorted time_le (concat blocks) -> StronglySorted time_le (concat outs).
Proof.
  induction 1 as [|b o bs os [Ho _] Hf IH]; [done|]. intros [Hb Hbs]%Forall_cons. simpl.
  rewrite !StronglySorted_app. intros (Hbb & Hsb & Hsbs). split_and!; [|clear IH|by apply IH].
  - intros x y Hx Hy. rewrite Ho in Hx. rewrite (blocks_perm bs os Hf) in Hy. by apply Hbb.
  - assert (forall l, (forall x, x ∈ l -> x ∈ b) -> StronglySorted time_le l) as Hall.
    { induction l as [|x l IHl]; intros Hl; [constructor|]. constructor; [apply IHl; intros; apply Hl; by right|].
      apply Forall_forall. intros y Hy. rewrite (Hb x y); [lia|apply Hl; left|apply Hl; by right]. }
    apply Hall. intros x. by rewrite Ho.
Qed.

Abbreviation block_lt :=
  (fun b b' => forall x y, x ∈ b -> y ∈ b' -> (ru_created_at x < ru_created_at y)%N).

Lemma chunk_by_nonempty {A} (same : A -> A -> bool) l : Forall (fun b => b <> []) (chunk_by same l).
Proof.
  induction l as [|x l IH]; simpl; [constructor|].
  destruct (chunk_by same l) as [|[|y b] bs]; [by repeat constructor|by constructor|].
  apply Forall_cons in IH as [_ IH]. destruct (same x y); repeat constructor; done.
Qed.

Lemma chunks_increase l :
  StronglySorted time_le l -> StronglySorted block_lt (chunk_by same_time l).
Proof.
  induction 1 as [|x l Hl IH Hx]; [constructor|]. simpl.
  pose proof (chunk_by_concat same_time l) as Hc. pose proof (chunk_by_nonempty same_time l) as Hne.
  rewrite Forall_forall in Hx.
  destruct (chunk_by same_time l) as [|[|y b] bs]; [by repeat constructor|by apply Forall_cons in Hne as [? _]|].
  pose proof IH as [IHbs Hb]%StronglySorted_inv. rewrite Forall_forall in Hb.
  assert (y ∈ y :: b) as Hy by left.
  destruct (same_time x y) eqn:E; unfold same_time in E.
  - apply N.eqb_eq in E. constructor; [done|]. apply Forall_forall. intros b' Hb' z w Hz Hw.
    apply elem_of_cons in Hz as [->|Hz]; [|by apply (Hb b')]. rewrite E. by apply (Hb b').
  - apply N.eqb_neq in E. constructor; [done|].
    assert (forall w, w ∈ l -> (ru_created_at y <= ru_created_at w)%N) as Hyl.
    { rewrite <-Hc in Hl |- *. simpl in *. apply StronglySorted_inv in Hl as [_ Hl].
      rewrite Forall_forall in Hl. intros w [->|Hw]%elem_of_cons; [lia|by apply Hl]. }
    assert (ru_created_at x <= ru_created_at y)%N by (apply Hx; rewrite <-Hc; simpl; left).
    apply Forall_forall. intros b' Hb' z w ->%list_elem_of_singleton Hw.
    assert (w ∈ l) as Hwl%Hyl.
    { rewrite <-Hc. apply list_elem_of_In, in_concat. exists b'. by rewrite <-!list_elem_of_In. }
    lia.
Qed.

Lemma blocks_causal blocks outs :
  Forall2 (fun b o => o ≡ₚ b /\ causal b o) blocks outs ->
  StronglySorted block_lt blocks -> causal (concat blocks) (concat outs).
Proof.
  induction 1 as [|b o bs os [Ho Hc] Hf IH]; [intros _ [] v l2 u; discriminate|].
  intros [Hsb Hlt]%StronglySorted_inv l1 v l2 u Heq Hu Hvu. simpl in *.
  assert (forall w, w ∈ concat os -> exists b', (b' ∈ bs) /\ w ∈ b') as Hin.
  { intros w. rewrite (blocks_perm bs os Hf), list_elem_of_In, in_concat.
    intros (b' & ? & ?). exists b'. by rewrite !list_elem_of_In. }
  apply app_eq_app in Heq as [k [[-> Hk]|[-> Hk]]].
  - destruct k as [|v' k]; simpl in Hk; [|injection Hk as <- ->].
    + destruct (IH Hsb [] v l2 u) as [?|Hl]; [done..|by left|right].
      eapply leads_back_mono; [|done]. intros x. rewrite elem_of_app. by right.
    + apply elem_of_app in Hu as [Hu|Hu].
      * destruct (Hc l1 v k u) as [?|Hl]; [done..|by left|right].
        eapply leads_back_mono; [|done]. intros x. rewrite elem_of_app. by left.
      * left. apply Hin in Hu as (b' & Hb' & Hu). rewrite Forall_forall in Hlt.
        apply (Hlt b' Hb'); [|done]. rewrite <-Ho. set_solver.
  - destruct (IH Hsb k v l2 u) as [?|Hl]; [done..|by left|right].
    eapply leads_back_mono; [|done]. intros x. rewrite elem_of_app. by right.
Qed.

(** Sorting by [update_cmp] puts the times in order. *)
Lemma sorted_times l : StronglySorted time_le (sort_by update_cmp l).
Proof.
  pose proof (sort_by_sorted update_cmp l) as Hs. induction Hs as [|x l' _ IH Hx]; constructor; [done|].
  eapply Forall_impl; [exact Hx|]. intros y. unfold update_cmp, cmp_then, cmp_on. intros Hxy.
  apply N.compare_le_iff. intros E. by rewrite E in Hxy.
Qed.

Lemma same_time_blocks l :
  Forall (fun b => forall x y, x ∈ b -> y ∈ b -> ru_created_at x = ru_created_at y) (chunk_by same_time l).
Proof.
  assert (Equivalence (fun x y : RefUpdate => ru_created_at x = ru_created_at y)) by (split; congruence).
  apply (chunk_by_blocks same_time (fun x y => ru_created_at x = ru_created_at y)).
  intros x y. apply N.eqb_eq.
Qed.

Lemma causal_order_total l :
  exists out, causal_order l = Some out /\ out ≡ₚ l /\ StronglySorted time_le out /\ causal l out.
Proof.
  pose proof (same_time_blocks (sort_by update_cmp l)) as Hb.
  destruct (order_blocks_spec _ Hb) as (outs & Hm & Hf).
  pose proof (sorted_times l) as Hs. pose proof (chunk_by_concat same_time (sort_by update_cmp l)) as Hc.
  exists (concat outs). unfold causal_order. rewrite Hm. simpl. split_and!; [done|..].
  - by rewrite (blocks_perm _ _ Hf), Hc, sort_by_perm.
  - apply (blocks_sorted _ _ Hf Hb). by rewrite Hc.
  - intros l1 v l2 u Heq Hu Hvu. destruct (blocks_causal _ _ Hf (chunks_increase _ Hs) l1 v l2 u) as [?|Hl];
      [done..|by left|right].
    eapply leads_back_mono; [|done]. intros x. by rewrite Hc, elem_of_sort_by.
Qed.

(** When no two updates share time and id, the causal order depends on the set of
    updates alone. *)
Lemma causal_order_unique l1 l2 :
  l1 ≡ₚ l2 -> (forall x y, x ∈ l1 -> y ∈ l1 -> update_cmp x y = Eq -> x = y) ->
  causal_order l1 = causal_order l2.
Proof. intros Hp Hinj. unfold causal_order. by rewrite (sort_by_unique update_cmp l1 l2). Qed.

Lemma chunk_by_app {A} (same : A -> A -> bool) l1 l2 :
  (forall x y, x ∈ l1 -> y ∈ l2 -> same x y = false) ->
  chunk_by same (l1 ++ l2) = chunk_by same l1 ++ chunk_by same l2.
Proof.
  induction l1 as [|x l1 IH]; intros H; simpl; [done|].
  rewrite IH by (intros; apply H; [by right|done]).
  pose proof (chunk_by_nonempty same l2) as Hn2. pose proof (chunk_by_concat same l2) as Hc2.
  pose proof (chunk_by_nonempty same l1) as Hn1.
  destruct (chunk_by same l1) as [|[|y b] bs]; simpl.
  - destruct (chunk_by same l2) as [|[|z b] bs]; [done|by apply Forall_cons in Hn2 as [? _]|].
    rewrite (H x z); [done|left|]. rewrite <-Hc2. simpl. left.
  - by apply Forall_cons in Hn1 as [? _].
  - by destruct (same x y).
Qed.

(** Later updates come after all earlier ones, and do not disturb their order. *)
Lemma causal_order_app l1 l2 :
  (forall x y, x ∈ l1 -> y ∈ l2 -> (ru_created_at x < ru_created_at y)%N) ->
  causal_order (l1 ++ l2) = (o1 ← causal_order l1; o2 ← causal_order l2; Some (o1 ++ o2)).
Proof.
  intros Hlt. unfold causal_order. rewrite sort_by_app, chunk_by_app, mapM_opt_app.
  - destruct (mapM order_block (chunk_by same_time (sort_by update_cmp l1))); simpl; [|done].
    destruct (mapM order_block (chunk_by same_time (sort_by update_cmp l2))); simpl; [|done].
    by rewrite concat_app.
  - intros x y. rewrite !elem_of_sort_by. intros Hx Hy. apply N.eqb_neq. specialize (Hlt x y Hx Hy). lia.
  - intros x y Hx Hy. specialize (Hlt x y Hx Hy). apply N.compare_lt_iff in Hlt.
    unfold update_cmp, cmp_then, cmp_on. by rewrite Hlt.
Qed.

Lemma causal_order_nil : causal_order [] = Some [].
Proof. done. Qed.
