(* ===== verification/Resolve.v ===== *)
(** What a ref resolves to: the theorems of [Refs]. The causal order is a total order of
    the valid updates; the live heads are the tips nothing later supersedes; an invalid
    update is inert; a merge written once per live head settles a race; and a pull
    request counts only tips its base validly had. *)
From S2P Require Import Prelude Names Tarjan Refs.

Section resolve.
Context (glob_match : string -> string -> bool) (sha256_hex : string -> string).

Abbreviation is_valid := (is_update_valid glob_match sha256_hex).
Abbreviation valids := (valid_updates glob_match sha256_hex).
Abbreviation heads_of := (live_heads glob_match sha256_hex).
Abbreviation resolve := (resolve_ref glob_match sha256_hex).

(** The update counts for the ref: it is keyed to it and validly moves it. *)
Definition counts (configs : list ConfigDoc) (h : string) (u : RefUpdate) : bool :=
  (ru_ref_name_hash u == h) && is_valid u configs.

Lemma valids_total us configs h :
  exists valid, valids us configs h = Some valid /\ valid ≡ₚ List.filter (counts configs h) us
  /\ StronglySorted time_le valid /\ causal (List.filter (counts configs h) us) valid.
Proof. unfold valid_updates. apply causal_order_total. Qed.

Lemma valids_elem us configs h valid u :
  valids us configs h = Some valid -> u ∈ valid <-> (u ∈ us) /\ counts configs h u = true.
Proof.
  intros Hv. destruct (valids_total us configs h) as (v' & Hv' & Hp & _). simplify_eq.
  by rewrite Hp, list_elem_of_In, filter_In, <-list_elem_of_In.
Qed.

Lemma valids_sorted us configs h valid :
  valids us configs h = Some valid -> StronglySorted time_le valid.
Proof. intros Hv. destruct (valids_total us configs h) as (v' & Hv' & _ & Hs & _). by simplify_eq. Qed.

Lemma valids_ext us1 us2 configs h :
  List.filter (counts configs h) us1 = List.filter (counts configs h) us2 ->
  valids us1 configs h = valids us2 configs h.
Proof. unfold valid_updates, counts. by intros ->. Qed.

(** Updates of a later time extend the valid history at its end. *)
Lemma valids_app us1 us2 configs h v1 v2 :
  (forall x y, x ∈ us1 -> y ∈ us2 -> (ru_created_at x < ru_created_at y)%N) ->
  valids us1 configs h = Some v1 -> valids us2 configs h = Some v2 ->
  valids (us1 ++ us2) configs h = Some (v1 ++ v2).
Proof.
  unfold valid_updates. intros Hlt H1 H2. rewrite List.filter_app, causal_order_app, H1, H2; [done|].
  intros x y. rewrite !list_elem_of_In, !filter_In, <-!list_elem_of_In. intros [? _] [? _]. by apply Hlt.
Qed.

(** *** The loop over the heads *)

Section heads.
Context (is_anc : string -> string -> bool).

Definition live (u : RefUpdate) (later : list RefUpdate) : bool :=
  negb (is_null_oid (ru_new_oid u)) && negb (existsb (supersedes is_anc u) later).

(** The updates nothing later supersedes, newest first. *)
Fixpoint live_updates (valid : list RefUpdate) : list RefUpdate :=
  match valid with
  | [] => []
  | u :: later => live_updates later ++ (if live u later then [u] else [])
  end.

Lemma collect_heads_prefix rv later heads : exists k, collect_heads is_anc rv later heads = heads ++ k.
Proof.
  revert later heads. induction rv as [|u rv IH]; intros later heads; simpl.
  { exists []. by rewrite app_nil_r. }
  destruct (_ || _); [apply IH|]. destruct (existsb _ _); [apply IH|].
  destruct (IH (u :: later) (heads ++ [head_of u])) as [k ->]. eexists. by rewrite <-app_assoc.
Qed.

Lemma elem_of_live_updates valid u :
  u ∈ live_updates valid <-> exists l1 l2, valid = l1 ++ u :: l2 /\ live u l2 = true.
Proof.
  induction valid as [|v later IH]; simpl.
  { split; [by intros ?%not_elem_of_nil|by intros ([] & ? & ? & _)]. }
  rewrite elem_of_app, IH. split.
  - intros [(l1 & l2 & -> & Hl)|Hu]; [by exists (v :: l1), l2|].
    destruct (live v later) eqn:E; [apply list_elem_of_singleton in Hu as ->; by exists [], later|
      by apply not_elem_of_nil in Hu].
  - intros ([|w l1] & l2 & Heq & Hl); simplify_eq/=; [right; rewrite Hl; by left|left; by exists l1, l2].
Qed.

Context (Hrefl : forall o, is_anc o o = true).

Lemma supersedes_same u v : ru_new_oid u = ru_new_oid v -> supersedes is_anc u v = true.
Proof. intros Heq. unfold supersedes. by rewrite Heq, Hrefl, !orb_true_r. Qed.

Lemma live_no_same u later : live u later = true -> forall v, v ∈ later -> ru_new_oid v <> ru_new_oid u.
Proof.
  intros [_ Hl%negb_true_iff]%andb_true_iff v Hv Heq.
  assert (existsb (supersedes is_anc u) later = true); [|congruence].
  apply existsb_exists. exists v. rewrite <-list_elem_of_In. split; [done|]. by apply supersedes_same.
Qed.

Lemma live_updates_sub valid u : u ∈ live_updates valid -> u ∈ valid.
Proof. intros (l1 & l2 & -> & _)%elem_of_live_updates. set_solver. Qed.

Lemma collect_heads_spec rv later :
  collect_heads is_anc rv later (map head_of (live_updates later))
  = map head_of (live_updates (rev rv ++ later)).
Proof.
  revert later. induction rv as [|u rv IH]; intros later; simpl; [done|].
  rewrite <-app_assoc. simpl. rewrite <-IH. f_equal. simpl. rewrite map_app. unfold live.
  destruct (is_null_oid (ru_new_oid u)) eqn:En; simpl; [by rewrite app_nil_r|].
  destruct (existsb (fun h => rh_oid h == ru_new_oid u) _) eqn:Ed.
  - apply existsb_exists in Ed as (h & Hh & He%bool_decide_eq_true).
    apply in_map_iff in Hh as (v & <- & Hv). rewrite <-list_elem_of_In in Hv.
    assert (existsb (supersedes is_anc u) later = true) as ->; [|simpl; by rewrite app_nil_r].
    apply existsb_exists. exists v. rewrite <-list_elem_of_In.
    split; [by apply live_updates_sub|by apply supersedes_same].
  - destruct (existsb (supersedes is_anc u) later); simpl; [by rewrite app_nil_r|done].
Qed.

Lemma live_updates_NoDup valid : NoDup (map ru_new_oid (live_updates valid)).
Proof.
  induction valid as [|u later IH]; simpl; [constructor|]. rewrite map_app.
  destruct (live u later) eqn:E; simpl; [|by rewrite app_nil_r].
  apply NoDup_app. split_and!; [done| |apply NoDup_singleton].
  intros o Ho ->%list_elem_of_singleton. apply list_elem_of_In, in_map_iff in Ho as (v & Heq & Hv).
  rewrite <-list_elem_of_In in Hv. by eapply live_no_same; [|apply live_updates_sub|].
Qed.

Lemma live_updates_newest_first valid :
  StronglySorted time_le valid ->
  StronglySorted (fun a b => (ru_created_at b <= ru_created_at a)%N) (live_updates valid).
Proof.
  induction 1 as [|u later _ IH Hu]; simpl; [constructor|]. rewrite Forall_forall in Hu.
  apply StronglySorted_app. split_and!; [|done|destruct (live u later); by repeat constructor].
  intros v w Hv Hw. assert (w = u) as ->.
  { destruct (live u later); [by apply list_elem_of_singleton in Hw|by apply not_elem_of_nil in Hw]. }
  apply Hu. by apply live_updates_sub.
Qed.

(** A deletion supersedes everything before it. *)
Lemma live_updates_deleted valid d :
  is_null_oid (ru_new_oid d) = true -> live_updates (valid ++ [d]) = [].
Proof.
  intros Hd. destruct (live_updates (valid ++ [d])) as [|u l] eqn:E; [done|exfalso].
  assert (u ∈ live_updates (valid ++ [d])) as (l1 & l2 & Heq & Hl)%elem_of_live_updates by (rewrite E; left).
  apply andb_true_iff in Hl as [Hn%negb_true_iff Hs%negb_true_iff].
  destruct l2 as [|x l2 _] using rev_ind; [apply app_inj_tail in Heq as [_ ->]; congruence|].
  rewrite app_comm_cons, app_assoc in Heq. apply app_inj_tail in Heq as [_ ->].
  rewrite existsb_app in Hs. apply orb_false_iff in Hs as [_ Hs]. simpl in Hs.
  unfold supersedes in Hs. by rewrite Hd in Hs.
Qed.
End heads.

(** *** Resolution *)

Lemma heads_of_eq us configs h is_anc valid :
  (forall o, is_anc o o = true) -> valids us configs h = Some valid ->
  heads_of us configs h is_anc = Some (map head_of (live_updates is_anc valid)).
Proof.
  intros Hrefl Hv. unfold live_heads. rewrite Hv. simpl.
  destruct valid as [|d valid _] using rev_ind; [done|]. rewrite last_snoc.
  destruct (is_null_oid (ru_new_oid d)) eqn:Hd.
  - by rewrite live_updates_deleted.
  - pose proof (collect_heads_spec is_anc Hrefl (rev (valid ++ [d])) []) as Hc. simpl in Hc.
    rewrite Hc. by rewrite rev_involutive, app_nil_r.
Qed.

(** The tip of the newest valid update, unless that is a deletion. *)
Definition newest_tip (valid : list RefUpdate) : option Oid :=
  ru_new_oid <$> opt_filter (fun u => negb (is_null_oid (ru_new_oid u))) (last valid).

Lemma resolve_tip us configs h is_anc valid :
  valids us configs h = Some valid ->
  exists st, resolve us configs h is_anc = Some st /\ tip_of st = newest_tip valid
  /\ (st = Unborn <-> newest_tip valid = None)
  /\ (forall hs, st = Diverged hs -> 2 <= length hs).
Proof.
  intros Hv. unfold resolve_ref, live_heads, newest_tip. rewrite Hv. simpl.
  destruct valid as [|d valid _] using rev_ind; simpl.
  { eexists. by split_and!. }
  rewrite last_snoc. simpl. destruct (is_null_oid (ru_new_oid d)) eqn:Hd; simpl.
  { eexists. by split_and!. }
  rewrite rev_unit. simpl. rewrite Hd. simpl.
  destruct (collect_heads_prefix is_anc (rev valid) [d] [head_of d]) as [k ->].
  destruct k as [|h' k]; simpl; eexists; (split_and!; [done|done|done|]); intros hs Heq;
    [done|injection Heq as <-; simpl; lia].
Qed.
End resolve.

(** ** Helper lemmas on protection, settling and the base history *)

Section helpers.
(** The config is the newest of the history at time [t]. *)
Definition in_force (configs : list ConfigDoc) (t : N) (cfg : ConfigDoc) : Prop :=
  (cfg ∈ configs) /\ (cd_created_at cfg <= t)%N
  /\ forall c, c ∈ configs -> (cd_created_at c <= t)%N -> config_cmp c cfg <> Gt.

Definition distinct_configs (configs : list ConfigDoc) : Prop :=
  forall c c', c ∈ configs -> c' ∈ configs -> config_cmp c c' = Eq -> c = c'.

Definition distinct_updates (us : list RefUpdate) : Prop :=
  forall u u', u ∈ us -> u' ∈ us -> update_cmp u u' = Eq -> u = u'.

Lemma elem_of_upto configs t c :
  c ∈ List.filter (fun c => (cd_created_at c <=? t)%N) configs <-> (c ∈ configs) /\ (cd_created_at c <= t)%N.
Proof. by rewrite !list_elem_of_In, filter_In, N.leb_le. Qed.

Lemma config_as_of_spec configs t cfg :
  distinct_configs configs -> config_as_of configs t = Some cfg <-> in_force configs t cfg.
Proof.
  intros Hd. unfold config_as_of, in_force. split.
  - intros [Hin Hmax]%max_by_Some; [|apply _]. rewrite elem_of_upto in Hin. destruct Hin as [? ?].
    split_and!; [done..|]. intros c ??. apply Hmax. by rewrite elem_of_upto.
  - intros (Hin & Hle & Hmax).
    destruct (max_by config_cmp _) as [m|] eqn:Hm.
    + apply max_by_Some in Hm as [Hmin Hm]; [|apply _]. rewrite elem_of_upto in Hmin.
      destruct Hmin as [Hmin Hmle]. f_equal. apply Hd; [done..|].
      specialize (Hmax m Hmin Hmle). specialize (Hm cfg). rewrite elem_of_upto in Hm.
      specialize (Hm (conj Hin Hle)). rewrite (cmp_opp (cmp := config_cmp) m cfg) in Hm.
      destruct (config_cmp m cfg); done.
    + apply max_by_None in Hm. assert (cfg ∈ @nil ConfigDoc) as []%not_elem_of_nil.
      rewrite <-Hm, elem_of_upto. done.
Qed.

Lemma config_as_of_perm c1 c2 t : c1 ≡ₚ c2 -> distinct_configs c1 -> config_as_of c1 t = config_as_of c2 t.
Proof.
  intros Hp Hd.
  assert (distinct_configs c2) as Hd2.
  { intros c c' H1 H2. rewrite <-Hp in H1, H2. by apply Hd. }
  apply option_eq. intros cfg. rewrite !config_as_of_spec by done. unfold in_force.
  setoid_rewrite Hp. done.
Qed.

(** *** Settling *)

Lemma settling_spec graph heads m :
  match settling_prev_oids graph heads m with
  | inl prevs => prevs = List.filter (fun o => o != m) heads /\ forall o, o ∈ prevs -> graph o m = true
  | inr o => exists l1 l2, heads = l1 ++ o :: l2 /\ o <> m /\ graph o m = false
  /\ forall o', o' ∈ l1 -> o' <> m -> graph o' m = true
  end.
Proof.
  induction heads as [|o heads IH]; simpl; [split; [done|by intros ? ?%not_elem_of_nil]|].
  destruct (decide (o = m)) as [->|Hne].
  - rewrite !bool_decide_eq_true_2 by done. simpl. destruct (settling_prev_oids graph heads m) as [p|x]; [done|].
    destruct IH as (l1 & l2 & -> & ? & ? & Hb). exists (m :: l1), l2. split_and!; [done..|].
    intros o' [->|?]%elem_of_cons ?; [done|auto].
  - rewrite !bool_decide_eq_false_2 by done. simpl. destruct (graph o m) eqn:Hg.
    + destruct (settling_prev_oids graph heads m) as [p|x]; simpl.
      * destruct IH as [-> Hp]. split; [done|]. intros o' [->|?]%elem_of_cons; auto.
      * destruct IH as (l1 & l2 & -> & ? & ? & Hb). exists (o :: l1), l2. split_and!; [done..|].
        intros o' [->|?]%elem_of_cons ?; auto.
    + exists [], heads. split_and!; [done..|]. by intros ? ?%not_elem_of_nil.
Qed.

Definition identity (a b : string) : bool := a == b.

Lemma identity_refl o : identity o o = true.
Proof. by apply bool_decide_eq_true. Qed.

Lemma live_updates_last is_anc valid d :
  is_null_oid (ru_new_oid d) = false -> d ∈ live_updates is_anc (valid ++ [d]).
Proof. intros Hd. apply elem_of_live_updates. exists valid, []. unfold live. by rewrite Hd. Qed.

Lemma live_sub is_anc u l1 l2 : live is_anc u (l1 ++ l2) = true -> live is_anc u l1 = true.
Proof.
  unfold live. rewrite existsb_app, negb_orb. intros [-> [-> _]%andb_true_iff]%andb_true_iff. done.
Qed.

(** A group of newer updates to one tip [m], that name every other live head, leaves
the last of them as the only live one. *)
Lemma live_updates_settled valid ws d m :
  is_null_oid m = false -> (forall w, w ∈ ws ++ [d] -> ru_new_oid w = m) ->
  (forall u, u ∈ live_updates identity valid -> ru_new_oid u <> m ->
  exists w, (w ∈ ws ++ [d]) /\ ru_prev_oid w = ru_new_oid u) ->
  live_updates identity (valid ++ ws ++ [d]) = [d].
Proof.
  intros Hm Hws Hcover.
  assert (forall u, u ∈ live_updates identity (valid ++ ws ++ [d]) -> ru_new_oid u = m) as Honly.
  { intros u (l1 & l2 & Heq & Hl)%elem_of_live_updates.
    apply app_eq_app in Heq as [k [[-> Hk]|[-> Hk]]]; [|apply Hws; rewrite Hk; set_solver].
    destruct k as [|u' k]; simpl in Hk; [apply Hws; rewrite <-Hk; left|]. injection Hk as <- ->.
    destruct (decide (ru_new_oid u = m)) as [|Hne]; [done|exfalso].
    destruct (Hcover u) as (w & Hw & Hp); [|done|].
    { apply elem_of_live_updates. exists l1, k. split; [done|]. by eapply live_sub. }
    apply andb_true_iff in Hl as [Hn%negb_true_iff Hs%negb_true_iff].
    assert (existsb (supersedes identity u) (k ++ ws ++ [d]) = true); [|congruence].
    apply existsb_exists. exists w. rewrite <-list_elem_of_In, elem_of_app. split; [by right|].
    unfold supersedes, builds_on. rewrite Hp, Hn, bool_decide_eq_true_2 by done.
    rewrite bool_decide_eq_false_2 by (rewrite Hws; auto). by rewrite !orb_true_r. }
  pose proof (live_updates_NoDup identity identity_refl (valid ++ ws ++ [d])) as Hnd.
  assert (d ∈ live_updates identity (valid ++ ws ++ [d])) as Hd.
  { rewrite app_assoc. apply live_updates_last. rewrite Hws; [done|set_solver]. }
  destruct (live_updates identity (valid ++ ws ++ [d])) as [|x l]; [by apply not_elem_of_nil in Hd|].
  destruct l as [|y l].
  - by apply list_elem_of_singleton in Hd as ->.
  - exfalso. simpl in Hnd. apply NoDup_cons in Hnd as [Hx _]. apply Hx.
    rewrite (Honly x) by left. rewrite (Honly y) by (right; left). left.
Qed.

(** *** The base history *)

Lemma elem_of_distinct_tips valid o :
  o ∈ distinct_tips valid <-> exists u, (u ∈ valid) /\ is_null_oid (ru_new_oid u) = false /\ ru_new_oid u = o.
Proof.
  unfold distinct_tips. induction valid as [|u valid IH] using rev_ind; simpl.
  { split; [by intros ?%not_elem_of_nil|by intros (? & ?%not_elem_of_nil & _)]. }
  rewrite foldl_snoc. setoid_rewrite elem_of_app. setoid_rewrite list_elem_of_singleton.
  match goal with |- context [foldl ?f [] valid] => set (hist := foldl f [] valid) in * end.
  destruct (is_null_oid (ru_new_oid u)) eqn:Hn; simpl.
  { rewrite IH. split; [intros (v & ? & ?); exists v; auto|]. intros (v & [Hv| ->] & ? & ?); [by exists v|congruence]. }
  destruct (existsb (fun h => h == ru_new_oid u) hist) eqn:He; simpl.
  - apply existsb_exists in He as (x & Hx & ->%bool_decide_eq_true). rewrite <-list_elem_of_In in Hx.
    rewrite IH. split; [intros (v & ? & ?); exists v; auto|].
    intros (v & [Hv| ->] & ? & ?); [by exists v|]. subst o. by apply IH in Hx.
  - rewrite elem_of_app, list_elem_of_singleton, IH. split.
    + intros [(v & ? & ?)| ->]; [exists v; auto|exists u; auto].
    + intros (v & [Hv| ->] & ? & ?); [left; by exists v|by right].
Qed.

Lemma distinct_tips_NoDup valid : NoDup (distinct_tips valid).
Proof.
  unfold distinct_tips. induction valid as [|u valid IH] using rev_ind; simpl; [constructor|].
  rewrite foldl_snoc.
  match goal with |- context [foldl ?f [] valid] => set (hist := foldl f [] valid) in * end.
  destruct (negb _ && _) eqn:E; [|done]. apply andb_true_iff in E as [_ E%negb_true_iff].
  apply NoDup_app. split_and!; [done| |apply NoDup_singleton].
  intros x Hx ->%list_elem_of_singleton.
  assert (existsb (fun h => h == ru_new_oid u) hist = true); [|congruence].
  apply existsb_exists. exists (ru_new_oid u). rewrite <-list_elem_of_In, bool_decide_eq_true. done.
Qed.

Lemma sorted_split_le valid l1 u l2 :
  StronglySorted time_le valid -> valid = l1 ++ u :: l2 -> forall v, v ∈ l1 -> (ru_created_at v <= ru_created_at u)%N.
Proof. intros Hs -> v Hv. apply StronglySorted_app in Hs as (Hs & _). apply Hs; [done|left]. Qed.
End helpers.

Section counts_helpers.
Context (glob_match : string -> string -> bool) (sha256_hex : string -> string).
Abbreviation counts := (counts glob_match sha256_hex).

Lemma filter_invalid configs h l1 u l2 :
  counts configs h u = false ->
  List.filter (counts configs h) (l1 ++ u :: l2) = List.filter (counts configs h) (l1 ++ l2).
Proof. intros Hu. rewrite !List.filter_app. simpl. by rewrite Hu. Qed.
End counts_helpers.

Section theorems.
Context (glob_match : string -> string -> bool) (sha256_hex : string -> string).
Abbreviation counts := (counts glob_match sha256_hex).
Abbreviation valids := (valid_updates glob_match sha256_hex).
Abbreviation heads_of := (live_heads glob_match sha256_hex).
Abbreviation resolve := (resolve_ref glob_match sha256_hex).

(** C15: the causal order is total and lawful on every list of updates: each update
appears once, times never go back, and among the updates of one time nothing
comes before an update it builds on, unless that one builds back on it. *)
Theorem causal_order_spec (updates : list RefUpdate) :
  exists out, causal_order updates = Some out /\ out ≡ₚ updates
  /\ StronglySorted (fun a b => (ru_created_at a <= ru_created_at b)%N) out
  /\ causal updates out.
Proof. apply causal_order_total. Qed.

(** The search for a chain cycle to break never fails while an update is
unplaced: the index it returns is unplaced, every unplaced update it builds on
leads back to it, and no smaller unplaced index has this property. *)
Theorem cycle_to_break_spec (block : list RefUpdate) (placed : gset nat) :
  let edge v u := negb (bool_decide (u ∈ placed)) && builds_on_at block v u in
  let back u v := rtc (fun a b => edge a b = true) u v in
  match cycle_to_break block placed with
  | Some v => v < length block /\ (v ∉ placed) /\ (forall u, edge v u = true -> back u v)
  /\ (forall v', v' < v -> v' ∉ placed -> exists u, edge v' u = true /\ ~ back u v')
  | None => forall v, v < length block -> v ∈ placed
  end.
Proof.
  intros edge back. unfold cycle_to_break.
  pose proof (find_cycle_breaker_spec (length block) (fun i => bool_decide (i ∈ placed)) edge) as Hs.
  fold edge. destruct (find_cycle_breaker _ _ _) as [v|].
  - destruct Hs as ((Hv & Hp%bool_decide_eq_false) & Hb & Hl).
    { intros v' u [Hu%negb_true_iff Huv]%andb_true_iff. split; [|done].
      apply builds_on_at_spec in Huv as (? & ? & _ & Hu' & _). by apply lookup_lt_Some in Hu'. }
    split_and!; [done..|]. intros v' Hlt Hv'. apply Hl; [done|]. by apply bool_decide_eq_false.
  - intros v Hv. apply (bool_decide_eq_true (v ∈ placed)). apply Hs; [|done].
    intros v' u [Hu%negb_true_iff Huv]%andb_true_iff. split; [|done].
    apply builds_on_at_spec in Huv as (? & ? & _ & Hu' & _). by apply lookup_lt_Some in Hu'.
Qed.

(** C1: resolution never fails, and the tip a reader takes from it is the tip of the
newest valid update: Unborn exactly when there is none or it deletes the ref
(so a non-null newest update never reads as a deleted ref), and Diverged only
with two heads or more. *)
Theorem resolve_ref_tip updates configs h is_anc :
  exists valid st, valids updates configs h = Some valid
  /\ resolve updates configs h is_anc = Some st
  /\ tip_of st = newest_tip valid /\ (st = Unborn <-> newest_tip valid = None)
  /\ (forall hs, st = Diverged hs -> 2 <= length hs).
Proof.
  destruct (valids_total glob_match sha256_hex updates configs h) as (valid & Hv & _).
  destruct (resolve_tip glob_match sha256_hex updates configs h is_anc valid Hv) as (st & Hst).
  by exists valid, st.
Qed.

(** C11: the live heads are exactly the non-null tips of valid updates that no later
valid update supersedes (by deleting the ref, by force, by building on them, or
by descending from them), each tip once, newest first. *)
Theorem live_heads_spec updates configs h is_anc (Hrefl : forall o, is_anc o o = true) :
  exists valid heads, valids updates configs h = Some valid
  /\ heads_of updates configs h is_anc = Some heads
  /\ (forall r, r ∈ heads <-> exists l1 u l2, valid = l1 ++ u :: l2 /\ r = head_of u
     /\ is_null_oid (ru_new_oid u) = false
     /\ forall v, v ∈ l2 -> supersedes is_anc u v = false)
  /\ NoDup (map rh_oid heads)
  /\ StronglySorted (fun a b => (rh_created_at b <= rh_created_at a)%N) heads.
Proof.
  destruct (valids_total glob_match sha256_hex updates configs h) as (valid & Hv & _ & Hs & _).
  exists valid, (map head_of (live_updates is_anc valid)). split_and!; [done|by apply heads_of_eq| | |].
  - intros r. rewrite list_elem_of_In, in_map_iff. setoid_rewrite <-list_elem_of_In.
    setoid_rewrite elem_of_live_updates. unfold live. setoid_rewrite andb_true_iff.
    setoid_rewrite negb_true_iff. split.
    + intros (u & <- & l1 & l2 & -> & Hn & Hl). exists l1, u, l2. split_and!; [done..|].
      intros v Hv'. destruct (supersedes is_anc u v) eqn:E; [|done].
      assert (existsb (supersedes is_anc u) l2 = true); [|congruence].
      apply existsb_exists. exists v. by rewrite <-list_elem_of_In.
    + intros (l1 & u & l2 & -> & -> & Hn & Hl). exists u. split; [done|]. exists l1, l2.
      split_and!; [done..|]. apply not_true_iff_false. intros (v & Hv' & Hsup)%existsb_exists.
      rewrite <-list_elem_of_In in Hv'. by rewrite Hl in Hsup.
  - rewrite map_map. simpl. by apply live_updates_NoDup.
  - pose proof (live_updates_newest_first is_anc Hrefl valid Hs) as Hn. clear -Hn.
    induction Hn as [|u l _ IH Hu]; simpl; constructor; [done|]. apply Forall_map. exact Hu.
Qed.

(** C22: every client reads the same state, whatever the order its documents arrive
in: when no two updates share time and id and no two configs do, permuting the
updates and the configs changes neither the resolved state nor the merge base. *)
Theorem resolution_order_independent us1 us2 cfgs1 cfgs2 h is_anc opened_at :
  us1 ≡ₚ us2 -> cfgs1 ≡ₚ cfgs2 -> distinct_updates us1 -> distinct_configs cfgs1 ->
  resolve us1 cfgs1 h is_anc = resolve us2 cfgs2 h is_anc
  /\ pr_base_tips glob_match sha256_hex us1 cfgs1 h opened_at
  = pr_base_tips glob_match sha256_hex us2 cfgs2 h opened_at.
Proof.
  intros Hu Hc Hdu Hdc.
  assert (forall l1 l2, l1 ≡ₚ l2 -> (forall x, x ∈ l1 -> x ∈ us1) -> valids l1 cfgs1 h = valids l2 cfgs2 h) as Hv.
  { intros l1 l2 Hl Hin. unfold valid_updates.
    assert (forall u, is_update_valid glob_match sha256_hex u cfgs1 = is_update_valid glob_match sha256_hex u cfgs2)
      as Hvalid by (intros u; unfold is_update_valid; by rewrite (config_as_of_perm cfgs1 cfgs2)).
    erewrite (List.filter_ext (fun u => _ && is_update_valid _ _ u cfgs2)) by (intros u; by rewrite <-Hvalid).
    apply causal_order_unique; [by apply List_filter_perm|].
    intros x y Hx Hy. rewrite list_elem_of_In, filter_In, <-list_elem_of_In in Hx, Hy.
    apply Hdu; apply Hin; [apply Hx|apply Hy]. }
  unfold resolve_ref, live_heads, pr_base_tips, merge_base_tips.
  rewrite (Hv us1 us2) by done. rewrite (Hv (updates_upto opened_at us1) (updates_upto opened_at us2)); [done|by apply List_filter_perm|].
  intros x. unfold updates_upto. rewrite !list_elem_of_In, filter_In. by intros [? _].
Qed.

(** An update that does not validly move the ref is inert: whoever posts it and
wherever it lands in the history, no reader's view of the ref changes. *)
Theorem invalid_update_inert l1 u l2 configs h is_anc opened_at (Hu : counts configs h u = false) :
  resolve (l1 ++ u :: l2) configs h is_anc = resolve (l1 ++ l2) configs h is_anc
  /\ heads_of (l1 ++ u :: l2) configs h is_anc = heads_of (l1 ++ l2) configs h is_anc
  /\ valid_tips glob_match sha256_hex (l1 ++ u :: l2) configs h
  = valid_tips glob_match sha256_hex (l1 ++ l2) configs h
  /\ pr_base_tips glob_match sha256_hex (l1 ++ u :: l2) configs h opened_at
  = pr_base_tips glob_match sha256_hex (l1 ++ l2) configs h opened_at.
Proof.
  assert (valids (l1 ++ u :: l2) configs h = valids (l1 ++ l2) configs h) as Hv
    by by apply valids_ext, filter_invalid.
  unfold resolve_ref, live_heads, valid_tips, pr_base_tips, merge_base_tips. rewrite Hv. split_and!; [done..|].
  unfold updates_upto. rewrite !List.filter_app. simpl. destruct (ru_created_at u <=? opened_at)%N; [|done].
  by rewrite (valids_ext glob_match sha256_hex (_ ++ u :: _) (updates_upto opened_at l1
    ++ updates_upto opened_at l2)) by by apply filter_invalid.
Qed.

(** What it takes to move a ref: a legal name, which hashes to the key when the
key is a content hash, and, when the config in force at the update's time
protects the name, the maintainers' protected update type. *)
Theorem is_update_valid_spec u configs (Hd : distinct_configs configs) :
  is_update_valid glob_match sha256_hex u configs = true <->
  is_legal_ref_name (ru_ref_name u) = true
  /\ (is_sha256_hex (ru_ref_name_hash u) = true ->
  to_lower (sha256_hex (ru_ref_name u)) = to_lower (ru_ref_name_hash u))
  /\ (forall cfg, in_force configs (ru_created_at u) cfg ->
  matches_protected glob_match (ru_ref_name u) (cd_protected_patterns cfg) = true -> ru_protected u = true).
Proof.
  unfold is_update_valid, ref_name_hash_matches, eq_ignore_case.
  assert (forall P : Prop, (if config_as_of configs (ru_created_at u) is Some cfg then
    if matches_protected glob_match (ru_ref_name u) (cd_protected_patterns cfg) then ru_protected u else true
    else true) = true <-> forall cfg, in_force configs (ru_created_at u) cfg ->
    matches_protected glob_match (ru_ref_name u) (cd_protected_patterns cfg) = true -> ru_protected u = true) as Hc.
  { intros _. split.
    - intros H cfg Hcfg Hm. apply config_as_of_spec in Hcfg; [|done]. by rewrite Hcfg, Hm in H.
    - intros H. destruct (config_as_of configs (ru_created_at u)) as [cfg|] eqn:E; [|done].
      apply config_as_of_spec in E; [|done]. specialize (H cfg E).
      by destruct (matches_protected _ _ _); [apply H|]. }
  specialize (Hc True). destruct (is_legal_ref_name (ru_ref_name u)); simpl; [|by split; [|intros (? & _)]].
  destruct (is_sha256_hex (ru_ref_name_hash u)); simpl.
  - destruct (decide (to_lower (sha256_hex (ru_ref_name u)) = to_lower (ru_ref_name_hash u))) as [He|He].
    + rewrite bool_decide_eq_true_2 by done. simpl. rewrite Hc. tauto.
    + rewrite bool_decide_eq_false_2 by done. simpl. split; [done|]. intros (_ & H & _). by rewrite H in He.
  - rewrite Hc. split; [|tauto]. intros H. by split_and!.
Qed.

Lemma settling_resolves us ws configs h heads graph m prevs :
  heads_of us configs h identity = Some heads ->
  settling_prev_oids graph (map rh_oid heads) m = inl prevs -> ws <> [] -> is_null_oid m = false ->
  (forall u w, u ∈ us -> w ∈ ws -> (ru_created_at u < ru_created_at w)%N) ->
  (forall w, w ∈ ws -> counts configs h w = true /\ ru_new_oid w = m) ->
  (forall p, p ∈ prevs -> exists w, (w ∈ ws) /\ ru_prev_oid w = p) ->
  exists author t, resolve (us ++ ws) configs h identity = Some (Resolved m author t).
Proof.
  intros Hh Hp Hne Hm Hlt Hws Hcover.
  destruct (valids_total glob_match sha256_hex us configs h) as (v1 & Hv1 & _).
  destruct (valids_total glob_match sha256_hex ws configs h) as (v2 & Hv2 & Hp2 & _).
  pose proof (valids_app glob_match sha256_hex us ws configs h v1 v2 Hlt Hv1 Hv2) as Hv.
  rewrite List.forallb_filter_id in Hp2 by (apply forallb_forall; intros w Hw; apply Hws; by apply list_elem_of_In).
  destruct v2 as [|d v2 _] using rev_ind; [by apply Permutation_nil in Hp2|].
  rewrite (heads_of_eq glob_match sha256_hex us configs h identity v1 identity_refl Hv1) in Hh.
  injection Hh as <-. pose proof (settling_spec graph (map rh_oid (map head_of (live_updates identity v1))) m) as Hs.
  rewrite Hp in Hs. destruct Hs as [Hprevs _].
  exists (ru_author d), (ru_created_at d). unfold resolve_ref.
  rewrite (heads_of_eq glob_match sha256_hex _ configs h identity _ identity_refl Hv).
  rewrite (live_updates_settled v1 v2 d m Hm).
  - simpl. rewrite (proj2 (Hws d ltac:(rewrite <-Hp2; set_solver))). done.
  - intros w Hw. apply Hws. by rewrite <-Hp2.
  - intros u Hu Hne'. destruct (Hcover (ru_new_oid u)) as (w & Hw & ?).
    + rewrite Hprevs, list_elem_of_In, filter_In. split; [|by rewrite bool_decide_eq_false_2].
      rewrite map_map. apply in_map_iff. exists u. by rewrite <-list_elem_of_In.
    + exists w. by rewrite Hp2.
Qed.

(** C19: settling a race. When a pusher's commit contains every live head and it
writes, at a later time, updates to that commit naming each head
[settling_prev_oids] lists, every reader, holding no commits, resolves the ref
to it alone. *)
Theorem settling_updates_resolve us ws configs h heads graph m prevs :
  heads_of us configs h identity = Some heads ->
  settling_prev_oids graph (map rh_oid heads) m = inl prevs -> ws <> [] -> is_null_oid m = false ->
  (forall u w, u ∈ us -> w ∈ ws -> (ru_created_at u < ru_created_at w)%N) ->
  (forall w, w ∈ ws -> counts configs h w = true /\ ru_new_oid w = m) ->
  (forall p, p ∈ prevs -> exists w, (w ∈ ws) /\ ru_prev_oid w = p) ->
  exists author t, resolve (us ++ ws) configs h identity = Some (Resolved m author t).
Proof. apply settling_resolves. Qed.

Lemma base_tips_facts us configs h is_anc :
  exists tips st, merge_base_tips glob_match sha256_hex us configs h = Some tips
  /\ (forall oid, mb_contains tips oid = true <->
   exists u, (u ∈ us) /\ counts configs h u = true /\ is_null_oid (ru_new_oid u) = false /\ ru_new_oid u = oid)
  /\ NoDup (mb_historical tips)
  /\ (mb_tip tips = None <-> mb_historical tips = [])
  /\ (forall t, mb_tip tips = Some t -> exists u, (u ∈ us) /\ counts configs h u = true /\ ru_new_oid u = t
   /\ forall v, v ∈ us -> counts configs h v = true -> is_null_oid (ru_new_oid v) = false ->
        (ru_created_at v <= ru_created_at u)%N)
  /\ resolve us configs h is_anc = Some st /\ mb_current tips = tip_of st.
Proof.
  destruct (valids_total glob_match sha256_hex us configs h) as (valid & Hv & _ & Hs & _).
  destruct (resolve_tip glob_match sha256_hex us configs h is_anc valid Hv) as (st & Hst & Htip & _).
  unfold merge_base_tips. rewrite Hv. simpl. eexists _, st. split; [done|]. simpl.
  assert (forall u, u ∈ valid <-> (u ∈ us) /\ counts configs h u = true) as Hin by by intros u; apply valids_elem.
  split_and!; [|apply distinct_tips_NoDup| | |done|done].
  - intros oid. unfold mb_contains. simpl. rewrite existsb_exists. setoid_rewrite bool_decide_eq_true.
    setoid_rewrite <-list_elem_of_In. setoid_rewrite elem_of_distinct_tips. split.
    + intros (x & (u & Hu%Hin & Hn & Hux) & ->). exists u. tauto.
    + intros (u & Hu & Hc & Hn & <-). exists (ru_new_oid u). split; [|done]. exists u. by rewrite Hin.
  - destruct (List.find _ (rev valid)) as [u|] eqn:Hf; simpl.
    + apply find_some in Hf as [Hu Hn%negb_true_iff]. rewrite <-in_rev, <-list_elem_of_In in Hu.
      split; [done|]. intros Hnil. assert (ru_new_oid u ∈ distinct_tips valid) as Ht.
      { apply elem_of_distinct_tips. by exists u. }
      rewrite Hnil in Ht. by apply not_elem_of_nil in Ht.
    + split; [|done]. intros _. destruct (distinct_tips valid) as [|o l] eqn:Ht; [done|exfalso].
      assert (o ∈ distinct_tips valid) as (u & Hu & Hn & _)%elem_of_distinct_tips by (rewrite Ht; left).
      assert (In u (rev valid)) as Hr by by rewrite <-in_rev, <-list_elem_of_In.
      apply (find_none _ _ Hf) in Hr. by rewrite Hn in Hr.
  - intros t Ht. destruct (List.find _ (rev valid)) as [u|] eqn:Hf; simplify_eq/=.
    apply find_rev_last in Hf as (l1 & l2 & Heq & Hn & Hl2). exists u.
    assert (u ∈ valid) as Hu%Hin by (rewrite Heq; set_solver). split_and!; [apply Hu..|done|].
    intros v Hv1 Hv2 Hvn. assert (v ∈ valid) as Hvv by by apply Hin. rewrite Heq in Hvv.
    apply elem_of_app in Hvv as [Hvv|[->|Hvv]%elem_of_cons].
    + by eapply sorted_split_le.
    + done.
    + apply Hl2 in Hvv. by rewrite Hvn in Hvv.
Qed.

(** The base history of a pull request: a merge of [oid] counts exactly when
some valid update set the base to it and deleted nothing; each tip is kept once;
there is a tip as soon as there is one in the history; and the current tip is the
one every reader resolves the ref to, whatever ancestry it knows. *)
Theorem merge_base_tips_spec us configs h is_anc :
  exists tips st, merge_base_tips glob_match sha256_hex us configs h = Some tips
  /\ (forall oid, mb_contains tips oid = true <->
   exists u, (u ∈ us) /\ counts configs h u = true /\ is_null_oid (ru_new_oid u) = false /\ ru_new_oid u = oid)
  /\ NoDup (mb_historical tips)
  /\ (mb_tip tips = None <-> mb_historical tips = [])
  /\ (forall t, mb_tip tips = Some t -> exists u, (u ∈ us) /\ counts configs h u = true /\ ru_new_oid u = t
   /\ forall v, v ∈ us -> counts configs h v = true -> is_null_oid (ru_new_oid v) = false ->
        (ru_created_at v <= ru_created_at u)%N)
  /\ resolve us configs h is_anc = Some st /\ mb_current tips = tip_of st.
Proof. apply base_tips_facts. Qed.

(** A pull request counts merges only into a base that was a branch when it was
opened. With [us] the updates up to its opening and [later] those after it: if the
base pointed nowhere at the opening, no merge ever counts, whatever is pushed to
that name later; otherwise the whole history counts, and a tip that counts goes on
counting whatever is pushed on top. *)
Theorem pr_base_tips_spec us later later' configs h opened_at :
  (forall u, u ∈ us -> (ru_created_at u <= opened_at)%N) ->
  (forall u, u ∈ later ++ later' -> (opened_at < ru_created_at u)%N) ->
  exists before tips out out',
  merge_base_tips glob_match sha256_hex us configs h = Some before
  /\ merge_base_tips glob_match sha256_hex (us ++ later) configs h = Some tips
  /\ pr_base_tips glob_match sha256_hex (us ++ later) configs h opened_at = Some out
  /\ pr_base_tips glob_match sha256_hex (us ++ later ++ later') configs h opened_at = Some out'
  /\ (mb_current before = None -> mb_historical out = [] /\ mb_tip out = None)
  /\ (mb_current before <> None -> out = tips)
  /\ mb_current out = mb_current tips
  /\ (forall oid, mb_contains out oid = true -> mb_contains out' oid = true).
Proof.
  intros Hus Hlater.
  assert (forall l, (forall u, u ∈ l -> (opened_at < ru_created_at u)%N) -> updates_upto opened_at (us ++ l) = us) as Hupto.
  { intros l Hl. unfold updates_upto. rewrite List.filter_app.
    rewrite List.forallb_filter_id by (apply forallb_forall; intros u Hu; apply N.leb_le, Hus; by apply list_elem_of_In).
    rewrite (filter_none _ l); [by rewrite app_nil_r|].
    intros u Hu. apply N.leb_gt. by apply Hl. }
  destruct (base_tips_facts us configs h identity) as (before & _ & Hb & _).
  destruct (base_tips_facts (us ++ later) configs h identity) as (tips & _ & Ht & Htc & _).
  destruct (base_tips_facts (us ++ later ++ later') configs h identity) as (tips' & _ & Ht' & Htc' & _).
  unfold pr_base_tips. rewrite !Hupto by (intros; apply Hlater; set_solver).
  rewrite Hb, Ht, Ht'. simpl. eexists before, tips, _, _. split_and!; [done..| | | |].
  - by intros ->.
  - by destruct (mb_current before).
  - by destruct (mb_current before).
  - intros oid. destruct (mb_current before); [|done]. rewrite Htc, Htc'.
    intros (u & Hu & ?). exists u. split; [set_solver|done].
Qed.

(** [valid_tips] lists exactly the commits the ref has validly pointed at, and the
time of its newest valid update, deletions included. *)
Theorem valid_tips_spec us configs h :
  exists tips newest, valid_tips glob_match sha256_hex us configs h = Some (tips, newest)
  /\ (forall oid, oid ∈ tips <->
   exists u, (u ∈ us) /\ counts configs h u = true /\ is_null_oid (ru_new_oid u) = false /\ ru_new_oid u = oid)
  /\ match newest with
  | Some t => (exists u, (u ∈ us) /\ counts configs h u = true /\ ru_created_at u = t)
     /\ forall u, u ∈ us -> counts configs h u = true -> (ru_created_at u <= t)%N
  | None => forall u, u ∈ us -> counts configs h u = false
  end.
Proof.
  destruct (valids_total glob_match sha256_hex us configs h) as (valid & Hv & _ & Hs & _).
  assert (forall u, u ∈ valid <-> (u ∈ us) /\ counts configs h u = true) as Hin by by intros u; apply valids_elem.
  unfold valid_tips. rewrite Hv. simpl. eexists _, _. split_and!; [done| |].
  - intros oid. rewrite elem_of_list_to_set, list_elem_of_In, in_map_iff. setoid_rewrite filter_In.
    setoid_rewrite <-list_elem_of_In. setoid_rewrite Hin. setoid_rewrite negb_true_iff.
    split; intros (u & H); exists u; tauto.
  - destruct valid as [|d valid _] using rev_ind; simpl.
    + intros u Hu. apply not_true_iff_false. intros Hc. by apply (not_elem_of_nil u), Hin.
    + rewrite last_snoc. simpl. assert ((d ∈ us) /\ counts configs h d = true) as [? ?] by (apply Hin; set_solver).
      split; [by exists d|].
      intros u Hu Hc. assert (u ∈ valid ++ [d]) as [Hu'|Hu'%list_elem_of_singleton]%elem_of_app by by apply Hin.
      * by eapply sorted_split_le.
      * by subst.
Qed.

(** The display name of a ref is always a name that hashes to the key, taken from
the newest such update; there is none only when no update carries one, so a ref
keyed by a content hash that validly points anywhere always has a name. *)
Theorem display_ref_name_spec us configs h :
  match display_ref_name sha256_hex us h with
  | Some name => exists u, (u ∈ us) /\ ru_ref_name_hash u = h /\ ru_ref_name u = name
  /\ to_lower (sha256_hex name) = to_lower h
  /\ forall v, v ∈ us -> ru_ref_name_hash v = h -> to_lower (sha256_hex (ru_ref_name v)) = to_lower h ->
     update_cmp v u <> Gt
  | None => (forall u, u ∈ us -> ru_ref_name_hash u = h -> to_lower (sha256_hex (ru_ref_name u)) <> to_lower h)
  /\ (is_sha256_hex h = true -> forall u, u ∈ us -> counts configs h u = false)
  end.
Proof.
  unfold display_ref_name.
  assert (forall u, u ∈ List.filter (fun u => (ru_ref_name_hash u == h) && ref_name_hash_matches sha256_hex (ru_ref_name u) h) us
    <-> (u ∈ us) /\ ru_ref_name_hash u = h /\ to_lower (sha256_hex (ru_ref_name u)) = to_lower h) as Hin.
  { intros u. rewrite !list_elem_of_In, filter_In, andb_true_iff. unfold ref_name_hash_matches, eq_ignore_case.
    by rewrite !bool_decide_eq_true. }
  destruct (max_by update_cmp _) as [u|] eqn:Hm; simpl.
  - apply max_by_Some in Hm as [Hu%Hin Hmax]; [|apply _]. exists u. split_and!; [apply Hu..|done|apply Hu|].
    intros v Hv Hh Hs. apply Hmax, Hin. done.
  - apply max_by_None in Hm. assert (forall u, u ∈ us -> ru_ref_name_hash u = h ->
      to_lower (sha256_hex (ru_ref_name u)) <> to_lower h) as Hno.
    { intros u Hu Hh Hs. apply (not_elem_of_nil u). rewrite <-Hm. by apply Hin. }
    split; [done|]. intros Hsha u Hu. apply not_true_iff_false. unfold Resolve.counts.
    intros [Hh%bool_decide_eq_true Hv]%andb_true_iff. unfold is_update_valid in Hv. rewrite Hh in Hv.
    destruct (negb (is_legal_ref_name _)); [done|]. rewrite Hsha in Hv. simpl in Hv.
    destruct (ref_name_hash_matches sha256_hex (ru_ref_name u) h) eqn:E; [|done].
    apply bool_decide_eq_true in E. by apply (Hno u).
Qed.
End theorems.

(** ** Concrete instances *)

(** Updates of [refs/heads/main], filed under a symbolic key. *)
Definition main_update (id prev new : string) (protected : bool) (t : N) : RefUpdate :=
  mkRefUpdate id "k" "refs/heads/main" prev new false protected "alice" t.
Definition race : list RefUpdate := [main_update "1" "" "b" true 10; main_update "2" "b" "c" true 20; main_update "3" "b" "d" true 20].
Definition merge_of_race : list RefUpdate := [main_update "4" "c" "m" true 30; main_update "5" "d" "m" true 30].
Definition main_config : ConfigDoc := mkConfigDoc "g" 5 ["refs/heads/main"] None.
(** A matcher that knows literal patterns only, and a hash that is the identity. *)
Definition literal_match (pattern name : string) : bool := pattern == name.
Definition no_hash (s : string) : string := s.

Lemma live_heads_spec_witness :
  exists valid heads, valid_updates literal_match no_hash race [main_config] "k" = Some valid
    /\ live_heads literal_match no_hash race [main_config] "k" identity = Some heads /\ NoDup (map rh_oid heads).
Proof.
  destruct (live_heads_spec literal_match no_hash race [main_config] "k" identity identity_refl)
    as (valid & heads & ? & ? & _ & ? & _). by exists valid, heads.
Defined.

Lemma resolution_order_independent_witness :
  resolve_ref literal_match no_hash race [main_config] "k" identity
  = resolve_ref literal_match no_hash (rev race) [main_config] "k" identity.
Proof.
  apply (resolution_order_independent literal_match no_hash race (rev race) [main_config] [main_config] "k" identity 0).
  - apply Permutation_rev.
  - done.
  - intros u u' Hu Hu'. unfold race in *. rewrite !elem_of_cons in Hu, Hu'.
    destruct Hu as [->|[->|[->|[]%not_elem_of_nil]]], Hu' as [->|[->|[->|[]%not_elem_of_nil]]]; done.
  - intros c c' ->%list_elem_of_singleton ->%list_elem_of_singleton. done.
Defined.

Lemma invalid_update_inert_witness :
  resolve_ref literal_match no_hash ([] ++ main_update "9" "d" "evil" false 40 :: race) [main_config] "k" identity
  = resolve_ref literal_match no_hash ([] ++ race) [main_config] "k" identity.
Proof.
  apply (invalid_update_inert literal_match no_hash [] (main_update "9" "d" "evil" false 40) race [main_config] "k"
    identity 0). vm_compute. reflexivity.
Defined.

Lemma is_update_valid_spec_witness :
  is_update_valid literal_match no_hash (main_update "9" "d" "evil" false 40) [main_config] <> true.
Proof.
  intros H. apply (is_update_valid_spec literal_match no_hash (main_update "9" "d" "evil" false 40) [main_config]) in H
    as (_ & _ & H); [|by intros c c' ->%list_elem_of_singleton ->%list_elem_of_singleton].
  discriminate (H main_config); [|reflexivity]. split_and!; [by left|done|].
  intros c ->%list_elem_of_singleton. done.
Defined.

Lemma settling_updates_resolve_witness :
  exists author t, resolve_ref literal_match no_hash (race ++ merge_of_race) [main_config] "k" identity
    = Some (Resolved "m" author t).
Proof.
  apply (settling_updates_resolve literal_match no_hash race merge_of_race [main_config] "k"
    [mkRefHead "3" "d" "alice" 20; mkRefHead "2" "c" "alice" 20] (fun _ _ => true) "m" ["d"; "c"]);
    [vm_compute; reflexivity|vm_compute; reflexivity|done|reflexivity|..];
    unfold race, merge_of_race; repeat setoid_rewrite elem_of_cons; setoid_rewrite elem_of_nil.
  - intros u w [->|[->|[->|[]]]] [->|[->|[]]]; vm_compute; reflexivity.
  - intros w [->|[->|[]]]; split; reflexivity.
  - intros p [->|[->|[]]]; eexists; split; [right; left; reflexivity|done|left; reflexivity|done].
Defined.

Lemma pr_base_tips_spec_witness :
  exists out, pr_base_tips literal_match no_hash ([] ++ race) [main_config] "k" 5 = Some out
    /\ mb_historical out = [] /\ mb_tip out = None.
Proof.
  destruct (pr_base_tips_spec literal_match no_hash [] race [] [main_config] "k" 5)
    as (before & tips & out & out' & Hb & _ & Ho & _ & Hn & _).
  - by intros u []%not_elem_of_nil.
  - intros u. unfold race. rewrite app_nil_r, !elem_of_cons, elem_of_nil.
    intros [->|[->|[->|[]]]]; vm_compute; reflexivity.
  - exists out. split; [done|]. apply Hn. vm_compute in Hb. by injection Hb as <-.
Defined.
