(* ===== verification/RefHistory.v ===== *)
(** A ref's activity ([rules/ref_history.rs]): the moves of its valid updates, judged
    against the live heads they supersede, the changes of its protection, and the two
    merged by time. *)
From S2P Require Import Prelude Names Tarjan Refs Resolve.

Inductive RefEventKind :=
| Created
| Pushed
| ForcePushed
| Updated
| Moved
| Deleted
| Diverged
| ProtectionAdded
| ProtectionLifted
| ProtectionRestored.

#[export] Instance RefEventKind_eq_dec : EqDecision RefEventKind.
Proof. solve_decision. Defined.

Record RefEvent := mkRefEvent {
  re_kind : RefEventKind;
  re_id : string;
  re_at : N;
  re_by : option string;
  re_from : option string;
  re_to : option string
}.

#[export] Instance RefEvent_eq_dec : EqDecision RefEvent.
Proof. solve_decision. Defined.

(** The event of update [v]. *)
Definition move_event (v : RefUpdate) (kind : RefEventKind) (from to : option string) : RefEvent :=
  mkRefEvent kind (ru_id v) (ru_created_at v) (Some (ru_author v)) from to.

Definition protection_event (c : ConfigDoc) (kind : RefEventKind) : RefEvent :=
  mkRefEvent kind (cd_id c) (cd_created_at c) None None None.

(** What becomes of the live heads when [v] comes: the superseded ones, each with
    whether [v] contains it, and the kept ones. A head with [v]'s tip is [v]'s now. *)
Fixpoint drain_heads (contains : string -> string -> option bool) (v : RefUpdate) (heads : list RefUpdate)
    : list (RefUpdate * option bool) * list RefUpdate :=
  match heads with
  | [] => ([], [])
  | h :: heads =>
    let '(superseded, kept) := drain_heads contains v heads in
    if ru_new_oid h == ru_new_oid v then (superseded, kept)
    else if ru_force v || builds_on v h
    then ((h, contains (ru_new_oid h) (ru_new_oid v)) :: superseded, kept)
    else (superseded, h :: kept)
  end.

Definition move_kind (is_tag : bool) (answers : list (option bool)) : RefEventKind :=
  if is_tag then Moved
  else if existsb (fun has => has == Some false) answers then ForcePushed
  else if forallb (fun has => has == Some true) answers then Pushed
  else Updated.

(** One turn of the loop over the valid updates: the moves so far and the live heads,
    oldest first. *)
Definition ref_move (is_tag : bool) (contains : string -> string -> option bool)
    (st : list RefEvent * list RefUpdate) (v : RefUpdate) : list RefEvent * list RefUpdate :=
  let '(moves, heads) := st in
  if is_null_oid (ru_new_oid v) then
    match last heads with
    | Some newest => (moves ++ [move_event v Deleted (Some (ru_new_oid newest)) None], [])
    | None => (moves, [])
    end
  else match last heads with
  | None => (moves ++ [move_event v Created None (Some (ru_new_oid v))], heads ++ [v])
  | Some newest =>
    let same := existsb (fun h => ru_new_oid h == ru_new_oid v) heads in
    let '(superseded, kept) := drain_heads contains v heads in
    let heads := kept ++ [v] in
    match last superseded with
    | None =>
      if same then (moves, heads)
      else (moves ++ [move_event v Diverged (Some (ru_new_oid newest)) (Some (ru_new_oid v))], heads)
    | Some (h, _) =>
      let kind := move_kind is_tag (map snd superseded) in
      (moves ++ [move_event v kind (Some (ru_new_oid h)) (Some (ru_new_oid v))], heads)
    end
  end.

Section history.
Context (glob_match : string -> string -> bool) (sha256_hex : string -> string).

Definition ref_moves (ref_name ref_name_hash : string) (updates : list RefUpdate) (configs : list ConfigDoc)
    (contains : string -> string -> option bool) : option (list RefEvent) :=
  valid ← valid_updates glob_match sha256_hex updates configs ref_name_hash;
  Some (foldl (ref_move (starts_with "refs/tags/" ref_name) contains) ([], []) valid).1.

(** The loop over the sorted configs, skipping all but the last of one time. *)
Fixpoint protection_walk (ref_name : string) (now ever : bool) (sorted : list ConfigDoc) : list RefEvent :=
  match sorted with
  | [] => []
  | c :: rest =>
    if is_some_and (head rest) (fun n => (cd_created_at n =? cd_created_at c)%N)
    then protection_walk ref_name now ever rest
    else
      let protects := matches_protected glob_match ref_name (cd_protected_patterns c) in
      if Bool.eqb protects now then protection_walk ref_name now ever rest
      else
        let kind := match protects, ever with
                    | false, _ => ProtectionLifted
                    | true, false => ProtectionAdded
                    | true, true => ProtectionRestored
                    end in
        protection_event c kind :: protection_walk ref_name protects (ever || protects) rest
  end.

(** The merge by time; a config change goes before the updates of its block. *)
Fixpoint merge_events (m : list RefEvent) : list RefEvent -> list RefEvent :=
  fix merge_from (p : list RefEvent) : list RefEvent :=
    match m, p with
    | u :: m', c :: p' => if (re_at c <=? re_at u)%N then c :: merge_from p' else u :: merge_events m' p
    | [], _ => p
    | _, [] => m
    end.

Definition ref_history (ref_name ref_name_hash : string) (updates : list RefUpdate) (configs : list ConfigDoc)
    (contains : string -> string -> option bool) : option (list RefEvent) :=
  moves ← ref_moves ref_name ref_name_hash updates configs contains;
  Some (merge_events moves (protection_walk ref_name false false (sort_by config_cmp configs))).
End history.

(** ** The moves *)

(** The heads of [before] whose tip is no tip of [after], newest first. *)
Definition gone (before after : list RefUpdate) : list RefUpdate :=
  List.filter (fun h => negb (existsb (fun k => ru_new_oid k == ru_new_oid h) after)) before.

(** The entry an update has, by the live heads the readers' fold shows just before it
    and just after it. *)
Definition expected_move (is_tag : bool) (contains : string -> string -> option bool)
    (before after : list RefUpdate) (v : RefUpdate) : option RefEvent :=
  let to := ru_new_oid v in
  match before with
  | [] => if is_null_oid to then None else Some (move_event v Created None (Some to))
  | newest :: _ =>
    if is_null_oid to then Some (move_event v Deleted (Some (ru_new_oid newest)) None)
    else match gone before after with
    | [] => if bool_decide (to ∈ map ru_new_oid before) then None
            else Some (move_event v Diverged (Some (ru_new_oid newest)) (Some to))
    | (g :: _) as lost =>
      let kind := move_kind is_tag (map (fun h => contains (ru_new_oid h) to) lost) in
      Some (move_event v kind (Some (ru_new_oid g)) (Some to))
    end
  end.

Abbreviation shown := (live_updates identity).

(** Whether the head [h] stays one when [v] comes. *)
Definition stays (v h : RefUpdate) : bool := negb (supersedes identity h v).

Lemma live_updates_snoc valid v :
  shown (valid ++ [v])
  = (if is_null_oid (ru_new_oid v) then [] else [v]) ++ List.filter (stays v) (shown valid).
Proof.
  induction valid as [|u valid IH]; simpl.
  { unfold live. simpl. rewrite andb_true_r, app_nil_r. by destruct (is_null_oid (ru_new_oid v)). }
  rewrite IH, List.filter_app, app_assoc. f_equal. unfold live. rewrite existsb_app. simpl.
  rewrite orb_false_r, negb_orb, andb_assoc.
  destruct (negb (is_null_oid (ru_new_oid u)) && negb (existsb (supersedes identity u) valid)); simpl; [|done].
  unfold stays. by destruct (negb (supersedes identity u v)).
Qed.

Lemma stays_eq v h :
  is_null_oid (ru_new_oid v) = false ->
  stays v h = negb ((ru_force v || builds_on v h) || (ru_new_oid h == ru_new_oid v)).
Proof. intros Hv. unfold stays, supersedes. by rewrite Hv. Qed.

(** The loop splits the heads as the fold does. *)
Lemma drain_heads_spec contains v heads :
  is_null_oid (ru_new_oid v) = false ->
  drain_heads contains v heads
  = (map (fun h => (h, contains (ru_new_oid h) (ru_new_oid v)))
       (List.filter (fun h => (ru_new_oid h != ru_new_oid v) && negb (stays v h)) heads),
     List.filter (stays v) heads).
Proof.
  intros Hv. induction heads as [|h heads IH]; [done|]. cbn [drain_heads List.filter]. rewrite IH.
  rewrite stays_eq by done. destruct (ru_new_oid h == ru_new_oid v), (ru_force v || builds_on v h); done.
Qed.

Lemma gone_after v heads :
  is_null_oid (ru_new_oid v) = false -> NoDup (map ru_new_oid heads) ->
  gone heads (v :: List.filter (stays v) heads)
  = List.filter (fun h => (ru_new_oid h != ru_new_oid v) && negb (stays v h)) heads.
Proof.
  intros Hv Hnd. unfold gone.
  apply List.filter_ext_in. intros h Hh. rewrite <-list_elem_of_In in Hh. simpl. rewrite negb_orb.
  rewrite (bool_decide_ext (ru_new_oid v = ru_new_oid h) (ru_new_oid h = ru_new_oid v)) by (split; congruence).
  f_equal. f_equal. destruct (stays v h) eqn:Hs.
  - apply existsb_exists. exists h. rewrite filter_In, <-list_elem_of_In, bool_decide_eq_true. done.
  - destruct (existsb _ _) eqn:E; [|done]. apply existsb_exists in E as (k & Hk & He%bool_decide_eq_true).
    rewrite filter_In, <-list_elem_of_In in Hk. destruct Hk as [Hk Hks].
    assert (k = h) as ->; [|congruence].
    apply list_elem_of_lookup in Hk as [i Hi]. apply list_elem_of_lookup in Hh as [j Hj].
    assert (i = j) as ->; [|congruence]. eapply NoDup_lookup; [done|..]; rewrite list_lookup_fmap.
    + by rewrite Hi.
    + rewrite Hj. simpl. by rewrite He.
Qed.

Lemma last_rev_head {A} (l : list A) : last (rev l) = head l.
Proof. destruct l as [|x l]; [done|]. simpl. by rewrite last_snoc. Qed.

Lemma last_map {A B} (f : A -> B) (l : list A) : last (map f l) = f <$> last l.
Proof. apply fmap_last. Qed.

Lemma move_kind_rev is_tag answers : move_kind is_tag (rev answers) = move_kind is_tag answers.
Proof.
  unfold move_kind. destruct is_tag; [done|].
  assert (forall p, existsb p (rev answers) = existsb p answers) as ->.
  { intros p. apply eq_true_iff_eq. rewrite !existsb_exists. by setoid_rewrite <-in_rev. }
  assert (forall p, forallb p (rev answers) = forallb p answers) as ->; [|done].
  intros p. apply eq_true_iff_eq. rewrite !List.forallb_forall. by setoid_rewrite <-in_rev.
Qed.

(** One turn of the loop: the entry the readers' fold calls for, and its heads. *)
Lemma ref_move_spec is_tag contains moves valid v :
  ref_move is_tag contains (moves, rev (shown valid)) v
  = (moves ++ option_list (expected_move is_tag contains (shown valid) (shown (valid ++ [v])) v),
     rev (shown (valid ++ [v]))).
Proof.
  unfold ref_move, expected_move. rewrite last_rev_head, live_updates_snoc.
  pose proof (live_updates_NoDup identity identity_refl valid) as Hnd.
  destruct (is_null_oid (ru_new_oid v)) eqn:Hv.
  - assert (forall l, List.filter (stays v) l = []) as ->.
    { intros l. apply filter_none. intros h _. unfold stays, supersedes. by rewrite Hv. }
    destruct (shown valid); simpl; [by rewrite app_nil_r|done].
  - destruct (shown valid) as [|newest heads] eqn:E; [done|]. rewrite <-E in *.
    replace (head (shown valid)) with (Some newest) by by rewrite E.
    rewrite drain_heads_spec by done. cbn [app]. rewrite (gone_after v (shown valid)) by done.
    set (lost := List.filter _ (shown valid)).
    assert (List.filter (stays v) (rev (shown valid)) = rev (List.filter (stays v) (shown valid))) as ->
      by apply List.filter_rev.
    assert (List.filter (fun h => (ru_new_oid h != ru_new_oid v) && negb (stays v h)) (rev (shown valid)) = rev lost)
      as -> by apply List.filter_rev.
    rewrite map_map. cbn [snd]. rewrite map_rev, last_rev_head.
    assert (existsb (fun h => ru_new_oid h == ru_new_oid v) (rev (shown valid))
            = bool_decide (ru_new_oid v ∈ map ru_new_oid (shown valid))) as ->.
    { apply eq_true_iff_eq. rewrite existsb_exists, bool_decide_eq_true, list_elem_of_In, in_map_iff.
      split; intros (h & ? & ?); exists h; rewrite <-in_rev in *; rewrite ?bool_decide_eq_true in *; done. }
    destruct lost as [|g lost']; simpl.
    + by destruct (bool_decide _); rewrite ?app_nil_r.
    + change (rev lost' ++ [g]) with (rev (g :: lost')). by rewrite map_rev, move_kind_rev.
Qed.

Lemma ref_moves_loop is_tag contains past todo moves :
  foldl (ref_move is_tag contains) (moves, rev (shown past)) todo
  = (moves ++ omap id (imap (fun i v => expected_move is_tag contains (shown (past ++ take i todo))
                                          (shown (past ++ take (S i) todo)) v) todo),
     rev (shown (past ++ todo))).
Proof.
  revert past moves. induction todo as [|v todo IH]; intros past moves; [by rewrite !app_nil_r|].
  cbn [foldl]. rewrite ref_move_spec, IH. cbn [imap omap list_omap]. rewrite take_0, app_nil_r.
  cbn [take]. rewrite <-!app_assoc. cbn [app]. f_equal. f_equal.
  change (take 0 todo) with (@nil RefUpdate).
  assert (forall (o : option RefEvent) l, option_list o ++ l = match o with Some y => y :: l | None => l end) as ->
    by by intros [].
  unfold id at 2. erewrite imap_ext; [done|]. intros i x _. simpl. by rewrite <-!app_assoc.
Qed.

(** ** The changes of protection *)

(** What an entry says of the protection, given what held before it. *)
Definition protection_after (before : bool) (e : RefEvent) : bool :=
  match re_kind e with
  | ProtectionAdded | ProtectionRestored => true
  | ProtectionLifted => false
  | _ => before
  end.

(** The protection a reader of the activity sees at [t]. *)
Definition protection_at (t : N) (before : bool) (events : list RefEvent) : bool :=
  foldl protection_after before (List.filter (fun e => (re_at e <=? t)%N) events).

Definition is_move (e : RefEvent) : bool := is_some_and (re_by e) (fun _ => true).
Definition is_protection (e : RefEvent) : bool := negb (is_move e).

(** The first change adds the protection, then liftings and restorations alternate. *)
Fixpoint alternates (now ever : bool) (kinds : list RefEventKind) : bool :=
  match kinds with
  | [] => true
  | k :: kinds =>
    (k == (if now then ProtectionLifted else if ever then ProtectionRestored else ProtectionAdded))
    && alternates (negb now) (ever || negb now) kinds
  end.

Abbreviation config_time_le := (fun a b => (cd_created_at a <= cd_created_at b)%N).

Section protection.
Context (glob_match : string -> string -> bool).

Lemma protection_walk_times ref_name now ever l e :
  e ∈ protection_walk glob_match ref_name now ever l ->
  exists c, (c ∈ l) /\ re_at e = cd_created_at c /\ re_id e = cd_id c /\ is_protection e = true.
Proof.
  revert now ever. induction l as [|c l IH]; intros now ever; cbn [protection_walk];
    [by intros ?%not_elem_of_nil|].
  assert (forall n v, e ∈ protection_walk glob_match ref_name n v l ->
    exists c', (c' ∈ c :: l) /\ re_at e = cd_created_at c' /\ re_id e = cd_id c' /\ is_protection e = true) as Hl.
  { intros n v (c' & ? & ?)%IH. exists c'. split; [by right|done]. }
  destruct (is_some_and _ _); [apply Hl|]. destruct (Bool.eqb _ _); [apply Hl|].
  intros [->|He]%elem_of_cons; [|by eapply Hl]. exists c. split_and!; [left|done..].
Qed.

(** Replaying the changes up to [t] gives the protection of the config in force then. *)
Lemma protection_walk_replay ref_name now ever l t :
  StronglySorted config_time_le l ->
  protection_at t now (protection_walk glob_match ref_name now ever l)
  = match last (List.filter (fun c => (cd_created_at c <=? t)%N) l) with
    | Some c => matches_protected glob_match ref_name (cd_protected_patterns c)
    | None => now
    end.
Proof.
  intros Hs. revert now ever. induction Hs as [|c l Hs IH Hc]; intros now ever; [done|].
  rewrite Forall_forall in Hc. cbn [protection_walk List.filter].
  destruct (cd_created_at c <=? t)%N eqn:Ht.
  2:{ apply N.leb_gt in Ht.
    rewrite (filter_none _ l) by (intros c' Hc'; apply N.leb_gt; specialize (Hc c' Hc'); lia). cbn [last].
    unfold protection_at. rewrite filter_none; [done|]. intros e He. apply N.leb_gt.
    assert (exists c', (c' ∈ c :: l) /\ re_at e = cd_created_at c') as (c' & Hin & ->).
    { change (e ∈ protection_walk glob_match ref_name now ever (c :: l)) in He.
      apply protection_walk_times in He as (c' & ? & ? & _). by exists c'. }
    apply elem_of_cons in Hin as [->|Hin]; [done|]. specialize (Hc c' Hin). lia. }
  rewrite last_cons. destruct (is_some_and (head l) _) eqn:Eh.
  { rewrite IH. destruct l as [|n l]; [done|]. simpl in Eh. apply N.eqb_eq in Eh. cbn [List.filter].
    rewrite Eh, Ht, last_cons. by destruct (last (List.filter _ l)). }
  set (protects := matches_protected _ _ _). destruct (Bool.eqb protects now) eqn:Ep.
  { apply eqb_prop in Ep. rewrite IH, <-Ep. by destruct (last (List.filter _ l)). }
  unfold protection_at. cbn [List.filter protection_event re_at]. rewrite Ht. cbn [foldl].
  assert (forall k, protection_after now (protection_event c k) = protection_after now (mkRefEvent k "" 0 None None None))
    as -> by done.
  assert (protection_after now (mkRefEvent (match protects, ever with
    | false, _ => ProtectionLifted | true, false => ProtectionAdded | true, true => ProtectionRestored end)
    "" 0 None None None) = protects) as -> by by destruct protects, ever.
  etransitivity; [apply IH|]. by destruct (last (List.filter _ l)).
Qed.

Lemma protection_walk_alternates ref_name now ever l :
  (now = true -> ever = true) ->
  alternates now ever (map re_kind (protection_walk glob_match ref_name now ever l)) = true.
Proof.
  revert now ever. induction l as [|c l IH]; intros now ever Hne; cbn [protection_walk]; [done|].
  destruct (is_some_and _ _); [by apply IH|].
  destruct (matches_protected _ _ _), now, ever; cbn; try by apply IH.
  all: try by specialize (Hne eq_refl).
Qed.
End protection.

(** Only the protection entries change the protection. *)
Definition plain_move (e : RefEvent) : Prop :=
  match re_kind e with ProtectionAdded | ProtectionLifted | ProtectionRestored => False | _ => True end.

Lemma protection_at_filter t before events :
  (forall e, e ∈ events -> is_move e = true -> plain_move e) ->
  protection_at t before (List.filter is_protection events) = protection_at t before events.
Proof.
  unfold protection_at. revert before. induction events as [|e events IH]; intros before Hpl; [done|].
  assert (forall b, foldl protection_after b (List.filter (fun e => (re_at e <=? t)%N) (List.filter is_protection events))
    = foldl protection_after b (List.filter (fun e => (re_at e <=? t)%N) events)) as IH'.
  { intros b. apply IH. intros e' He'. apply Hpl. by right. }
  cbn [List.filter]. unfold is_protection at 1. destruct (is_move e) eqn:Em; cbn [negb List.filter].
  - rewrite IH'. destruct (re_at e <=? t)%N; [|done]. cbn [foldl].
    assert (plain_move e) as Hp by (apply Hpl; [left|done]). unfold plain_move in Hp. unfold protection_after.
    by destruct (re_kind e).
  - destruct (re_at e <=? t)%N; cbn [foldl]; apply IH'.
Qed.

(** ** The merge *)

(** By time, a config change first. *)
Definition entry_cmp : RefEvent -> RefEvent -> comparison :=
  cmp_then (cmp_on re_at N.compare) (cmp_on is_move bool_cmp).

#[export] Instance entry_cmp_ord : CmpOrd entry_cmp.
Proof. unfold entry_cmp. apply _. Qed.

Abbreviation entry_le := (fun a b => entry_cmp a b <> Gt).

Lemma merge_events_perm m p : merge_events m p ≡ₚ m ++ p.
Proof.
  revert p. induction m as [|u m IHm]; [by intros []|]. induction p as [|c p IHp]; [by rewrite app_nil_r|].
  simpl in *. destruct (re_at c <=? re_at u)%N; [rewrite IHp; apply (Permutation_middle (u :: m))|by rewrite IHm].
Qed.

Lemma merge_events_nil_r m : merge_events m [] = m.
Proof. by destruct m. Qed.

Lemma merge_events_filter f m p :
  (forall e, e ∈ m -> f e = true) -> (forall e, e ∈ p -> f e = false) -> List.filter f (merge_events m p) = m.
Proof.
  revert p. induction m as [|u m IHm]; intros p Hm.
  { intros Hp. destruct p; by apply filter_none. }
  induction p as [|c p IHp]; intros Hp; [apply List.forallb_filter_id, List.forallb_forall; intros e; rewrite <-list_elem_of_In; apply Hm|].
  simpl. destruct (re_at c <=? re_at u)%N; cbn [List.filter].
  - rewrite (Hp c) by left. apply IHp. intros e He. apply Hp. by right.
  - rewrite (Hm u) by left. f_equal. apply IHm; [|done]. intros e He. apply Hm. by right.
Qed.

Lemma merge_events_filter_r f m p :
  (forall e, e ∈ m -> f e = false) -> (forall e, e ∈ p -> f e = true) -> List.filter f (merge_events m p) = p.
Proof.
  revert p. induction m as [|u m IHm]; intros p Hm.
  { intros Hp. destruct p; [done|]. apply List.forallb_filter_id, List.forallb_forall; intros e; rewrite <-list_elem_of_In; apply Hp. }
  induction p as [|c p IHp]; intros Hp; [by apply filter_none|].
  simpl. destruct (re_at c <=? re_at u)%N; cbn [List.filter].
  - rewrite (Hp c) by left. f_equal. apply IHp. intros e He. apply Hp. by right.
  - rewrite (Hm u) by left. apply IHm; [|done]. intros e He. apply Hm. by right.
Qed.

Lemma entry_le_iff a b :
  entry_cmp a b <> Gt <-> (re_at a < re_at b)%N \/ (re_at a = re_at b /\ (is_move a = true -> is_move b = true)).
Proof.
  unfold entry_cmp, cmp_then, cmp_on. destruct (N.compare_spec (re_at a) (re_at b)).
  - destruct (is_move a), (is_move b); simpl; intuition (lia || done).
  - split; [by left|done].
  - split; [done|]. intros [?|[? _]]; lia.
Qed.

Lemma merge_events_sorted m p :
  (forall e, e ∈ m -> is_move e = true) -> (forall e, e ∈ p -> is_move e = false) ->
  StronglySorted entry_le m -> StronglySorted entry_le p -> StronglySorted entry_le (merge_events m p).
Proof.
  intros Hm Hp Hsm. revert p Hp. induction Hsm as [|u m Hsm IHm Hu]; intros p Hp; [by destruct p|].
  induction 1 as [|c p Hsp IHp Hc]; [by constructor|].
  simpl. destruct (re_at c <=? re_at u)%N eqn:E; [apply N.leb_le in E|apply N.leb_gt in E].
  - constructor; [apply IHp; intros e He; apply Hp; by right|].
    change (Forall (fun e => entry_cmp c e <> Gt) (merge_events (u :: m) p)).
    rewrite merge_events_perm. apply Forall_app. split; [|done].
    assert (entry_cmp c u <> Gt) as Hcu.
    { apply entry_le_iff. rewrite (Hp c) by left. destruct (decide (re_at c = re_at u)); [by right|left; lia]. }
    constructor; [done|]. eapply Forall_impl; [exact Hu|]. intros e He. by eapply cmp_trans.
  - constructor; [apply IHm; [intros e He; apply Hm; by right|done|by constructor]|].
    rewrite merge_events_perm. apply Forall_app. split; [done|].
    assert (entry_cmp u c <> Gt) as Huc by (apply entry_le_iff; by left).
    constructor; [done|]. eapply Forall_impl; [exact Hc|]. intros e He. by eapply cmp_trans.
Qed.

(** ** The activity *)

Lemma expected_move_event is_tag contains before after v e :
  expected_move is_tag contains before after v = Some e ->
  (is_move e = true /\ plain_move e) /\ re_at e = ru_created_at v.
Proof.
  unfold expected_move. intros H. repeat case_match; simplify_eq; split_and!; try done.
  unfold plain_move, move_kind. simpl. by repeat case_match.
Qed.

(** The entries of a list of updates in time order are in time order. *)
Lemma moves_sorted (f : nat -> RefUpdate -> option RefEvent) l :
  (forall i v e, f i v = Some e -> (is_move e = true /\ plain_move e) /\ re_at e = ru_created_at v) ->
  StronglySorted time_le l ->
  StronglySorted entry_le (omap id (imap f l))
  /\ forall e, e ∈ omap id (imap f l) -> (is_move e = true /\ plain_move e) /\ exists v, (v ∈ l) /\ re_at e = ru_created_at v.
Proof.
  intros Hf Hs. revert f Hf. induction Hs as [|v l Hs IH Hv]; intros f Hf.
  { split; [constructor|by intros e ?%not_elem_of_nil]. }
  rewrite Forall_forall in Hv. cbn [imap].
  destruct (IH (f ∘ S) (fun i => Hf (S i))) as [IHs IHe].
  change (omap id (f 0 v :: imap (f ∘ S) l)) with
    (match f 0 v with Some y => y :: omap id (imap (f ∘ S) l) | None => omap id (imap (f ∘ S) l) end).
  destruct (f 0 v) as [e|] eqn:E.
  - apply Hf in E as [Hm He]. split.
    + constructor; [done|]. apply Forall_forall. intros e' (Hm' & v' & Hv' & He')%IHe.
      apply entry_le_iff. rewrite He, He'. specialize (Hv v' Hv').
      destruct (decide (ru_created_at v = ru_created_at v')); [right; by destruct Hm, Hm'|left; lia].
    + intros e' [->|(Hm' & v' & Hv' & He')%IHe]%elem_of_cons; (split; [done|]).
      * exists v. split; [left|done].
      * exists v'. split; [by right|done].
  - split; [done|]. intros e' (Hm' & v' & Hv' & He')%IHe. split; [done|]. exists v'. split; [by right|done].
Qed.

Lemma config_times l : StronglySorted config_time_le (sort_by config_cmp l).
Proof.
  pose proof (sort_by_sorted config_cmp l) as Hs. induction Hs as [|x l' _ IH Hx]; constructor; [done|].
  eapply Forall_impl; [exact Hx|]. intros y. unfold config_cmp, cmp_then, cmp_on. intros Hxy.
  apply N.compare_le_iff. intros E. by rewrite E in Hxy.
Qed.

Lemma protection_walk_sorted glob_match ref_name now ever l :
  StronglySorted config_time_le l -> StronglySorted entry_le (protection_walk glob_match ref_name now ever l).
Proof.
  intros Hs. revert now ever. induction Hs as [|c l Hs IH Hc]; intros now ever; cbn [protection_walk]; [constructor|].
  rewrite Forall_forall in Hc. destruct (is_some_and _ _); [apply IH|]. destruct (Bool.eqb _ _); [apply IH|].
  constructor; [apply IH|]. apply Forall_forall. intros e (c' & Hc' & He & _ & Hp)%protection_walk_times.
  apply entry_le_iff. rewrite He. simpl. specialize (Hc c' Hc').
  destruct (decide (cd_created_at c = cd_created_at c')); [by right|left; lia].
Qed.

Section activity.
Context (glob_match : string -> string -> bool) (sha256_hex : string -> string).

Abbreviation valids := (valid_updates glob_match sha256_hex).

(** C40: a ref's activity is what its readers saw happen: the entries of its updates are,
  one by one, the change between the live heads the readers' fold shows just before the
  update and just after it (created, deleted, moved with every head the move drops, or
  two tips racing; nothing when the tips are the same); replaying the protection entries
  up to any time gives the protection of the config in force then, added once and then
  lifted and restored in turn; and the entries are in time order, a config change before
  the updates of its block. *)
Theorem ref_history_spec ref_name h updates configs contains :
  exists valid out,
    valids updates configs h = Some valid
    /\ live_heads glob_match sha256_hex updates configs h identity = Some (map head_of (shown valid))
    /\ ref_history glob_match sha256_hex ref_name h updates configs contains = Some out
    /\ List.filter is_move out
       = omap id (imap (fun i v => expected_move (starts_with "refs/tags/" ref_name) contains
                                     (shown (take i valid)) (shown (take (S i) valid)) v) valid)
    /\ (forall t, protection_at t false out
       = is_some_and (config_as_of configs t)
           (fun c => matches_protected glob_match ref_name (cd_protected_patterns c)))
    /\ alternates false false (map re_kind (List.filter is_protection out)) = true
    /\ StronglySorted entry_le out.
Proof.
  destruct (valids_total glob_match sha256_hex updates configs h) as (valid & Hv & _ & Hsorted & _).
  unfold ref_history, ref_moves. rewrite Hv. cbn [mbind option_bind].
  pose proof (ref_moves_loop (starts_with "refs/tags/" ref_name) contains [] valid []) as Hl.
  cbn [live_updates rev app] in Hl. rewrite Hl. cbn [fst].
  set (moves := omap id _). set (prot := protection_walk _ _ _ _ _).
  assert (StronglySorted entry_le moves /\ forall e, e ∈ moves -> (is_move e = true /\ plain_move e)
    /\ exists v, (v ∈ valid) /\ re_at e = ru_created_at v) as [Hms Hm].
  { apply moves_sorted; [|done]. intros i v e. apply expected_move_event. }
  assert (forall e, e ∈ prot -> is_move e = false) as Hp.
  { intros e (_ & _ & _ & _ & He%negb_true_iff)%protection_walk_times. done. }
  pose proof (config_times configs) as Hct.
  assert (List.filter is_protection (merge_events moves prot) = prot) as Hfp.
  { apply merge_events_filter_r; intros e; unfold is_protection; [by intros [[-> _] _]%Hm|by intros ->%Hp]. }
  assert (forall e, e ∈ merge_events moves prot -> is_move e = true -> plain_move e) as Hplain.
  { intros e. rewrite merge_events_perm. intros [[[_ ?] _]%Hm|He%Hp]%elem_of_app ?; congruence. }
  exists valid, (merge_events moves prot). split_and!; [done| |done|..].
  - by apply heads_of_eq; [apply identity_refl|].
  - apply merge_events_filter; [by intros e [[] _]%Hm|done].
  - intros t. rewrite <-protection_at_filter, Hfp by (intros e He Hm'; apply (Hplain e He Hm')). unfold prot. rewrite protection_walk_replay by done.
    rewrite sort_by_filter, <-max_by_last_sort by apply _. unfold config_as_of. by destruct (max_by _ _).
  - rewrite Hfp. by apply protection_walk_alternates.
  - apply merge_events_sorted; [by intros e [[] _]%Hm|done|done|]. by apply protection_walk_sorted.
Qed.
End activity.
