(* ===== verification/Provenance.v ===== *)
(** Release provenance ([rules/provenance.rs]): what a release's tag pointed at when the
    release was first published, and whether the tag or the assets changed since. *)
From S2P Require Import Prelude Names Tarjan Refs Resolve.

Record ProvenanceAsset := mkProvenanceAsset { pa_name : string; pa_sha256 : string }.

Record ProvenanceRevision := mkProvenanceRevision {
  pr_id : string;
  pr_created_at : N;
  pr_delta : Z;
  pr_publisher : string;
  pr_assets : list ProvenanceAsset
}.

Record ProvenanceTip := mkProvenanceTip { pt_oid : string; pt_by : string; pt_at : N }.

Record TagMove := mkTagMove {
  tm_id : string;
  tm_at : N;
  tm_by : string;
  tm_from : option string;
  tm_to : option string
}.

Inductive TagVerdict :=
| TagUnchanged
| TagRestored
| TagMoved
| TagDeleted
| TagDiverged
| TagMissing.

#[export] Instance TagVerdict_eq_dec : EqDecision TagVerdict.
Proof. solve_decision. Defined.

Record AssetChanges := mkAssetChanges { ac_added : list string; ac_removed : list string; ac_replaced : list string }.

Definition no_changes : AssetChanges := mkAssetChanges [] [] [].

Definition changes_empty (c : AssetChanges) : bool :=
  (ac_added c == []) && (ac_removed c == []) && (ac_replaced c == []).

Record Published := mkPublished { pb_id : string; pb_at : N; pb_by : string }.

Record ReleaseProvenance := mkReleaseProvenance {
  rp_published : option Published;
  rp_baseline : option ProvenanceTip;
  rp_pinned_by : string;
  rp_late_tag : bool;
  rp_current : option ProvenanceTip;
  rp_moves : list TagMove;
  rp_tag : TagVerdict;
  rp_assets : AssetChanges;
  rp_recorded : option string;
  rp_record_differs : bool
}.

Definition altered (p : ReleaseProvenance) : bool :=
  match rp_tag p with TagMoved | TagDeleted | TagDiverged | TagMissing => true | _ => false end
  || negb (changes_empty (rp_assets p))
  || rp_record_differs p.

Definition resolved_tip (state : RefState) : option ProvenanceTip :=
  match state with
  | Resolved oid author created_at => Some (mkProvenanceTip oid author created_at)
  | _ => None
  end.

(** The assets of a revision by name, a later one of a name winning. *)
Definition asset_map (r : ProvenanceRevision) : gmap string string :=
  foldl (fun m a => <[pa_name a := to_lower (pa_sha256 a)]> m) ∅ (pr_assets r).

Definition asset_changes (first newest : ProvenanceRevision) : AssetChanges :=
  let was := asset_map first in
  let now := asset_map newest in
  mkAssetChanges
    (List.filter (fun n => was !! n == None) (btree_keys now))
    (List.filter (fun n => now !! n == None) (btree_keys was))
    (map fst (List.filter (fun '(n, h) => is_some_and (was !! n) (fun w => w != h)) (btree_items now))).

Definition tip_set (u : RefUpdate) : option string :=
  if is_null_oid (ru_new_oid u) then None else Some (ru_new_oid u).

Fixpoint moves_from (tip : option string) (walk : list RefUpdate) : list TagMove :=
  match walk with
  | [] => []
  | u :: walk =>
    let to := tip_set u in
    if to == tip then moves_from tip walk
    else mkTagMove (ru_id u) (ru_created_at u) (ru_author u) tip to :: moves_from to walk
  end.

Definition revision_cmp : ProvenanceRevision -> ProvenanceRevision -> comparison :=
  cmp_then (cmp_on pr_created_at N.compare) (cmp_on pr_id String.compare).

Definition live_revisions (revisions : list ProvenanceRevision) : list ProvenanceRevision :=
  List.filter (fun r => (0 <=? pr_delta r)%Z) (sort_by revision_cmp revisions).

Definition same (a b : string) : bool := a == b.

(** A recorded tip: lower-cased, the null oid none at all. *)
Definition record_of (o : option string) : option string :=
  to_lower <$> opt_filter (fun p => negb (is_null_oid p)) o.

(** What follows the first element that satisfies [f], with that element. *)
Fixpoint from_first {A} (f : A -> bool) (l : list A) : option (A * list A) :=
  match l with
  | [] => None
  | x :: l => if f x then Some (x, l) else from_first f l
  end.

Section provenance.
Context (glob_match : string -> string -> bool) (sha256_hex : string -> string).

Definition release_provenance (ref_name_hash : string) (updates : list RefUpdate) (configs : list ConfigDoc)
    (revisions : list ProvenanceRevision) (pin target : option string) : option ReleaseProvenance :=
  let live := live_revisions revisions in
  let first := head live in
  let newest := last live in
  let assets := match first, newest with Some f, Some n => asset_changes f n | _, _ => no_changes end in
  valid ← valid_updates glob_match sha256_hex updates configs ref_name_hash;
  now_state ← resolve_ref glob_match sha256_hex updates configs ref_name_hash same;
  let current := resolved_tip now_state in
  let published_at := match first with Some f => pr_created_at f | None => u64_max end in
  let before := List.filter (fun u => (ru_created_at u <=? published_at)%N) valid in
  publish_state ← resolve_ref glob_match sha256_hex before configs ref_name_hash same;
  let at_publish := resolved_tip publish_state in
  let later := List.filter (fun u => (published_at <? ru_created_at u)%N) valid in
  let first_later := from_first (fun u => negb (is_null_oid (ru_new_oid u))) later in
  let late_tag := (before == []) && match first_later with Some _ => true | None => false end in
  let recorded := record_of target in
  let record_differs :=
  match recorded, at_publish with Some t, Some a => t != to_lower (pt_oid a) | _, _ => false end in
  let pin :=
  match at_publish with
  | Some _ => None
  | None => match recorded with Some r => Some r | None => record_of pin end
  end in
  let tag_baseline :=
  if late_tag then (fun '(u, _) => mkProvenanceTip (ru_new_oid u) (ru_author u) (ru_created_at u)) <$> first_later
  else at_publish in
  let baseline :=
  match pin with
  | Some p => Some (mkProvenanceTip p (default "" (pr_publisher <$> first)) published_at)
  | None => tag_baseline
  end in
  let walk := match late_tag, first_later with true, Some (_, rest) => rest | _, _ => later end in
  let moves := moves_from (pt_oid <$> tag_baseline) walk in
  let tag :=
  if valid == [] then TagMissing
  else match now_state with
  | Diverged _ => TagDiverged
  | _ =>
    match current, baseline with
    | None, _ => TagDeleted
    | Some c, Some b =>
      if pt_oid c == pt_oid b then match moves with [] => TagUnchanged | _ => TagRestored end else TagMoved
    | Some _, None => TagMoved
    end
  end in
  Some (mkReleaseProvenance
  ((fun f => mkPublished (pr_id f) (pr_created_at f) (pr_publisher f)) <$> first)
  baseline (match pin with Some _ => "release" | None => "tag" end) late_tag current moves tag assets recorded
  record_differs).
End provenance.

(** ** The assets *)

Lemma changes_empty_spec first newest :
  changes_empty (asset_changes first newest) = true <-> asset_map newest = asset_map first.
Proof.
  unfold changes_empty, asset_changes. cbn. rewrite !andb_true_iff, !bool_decide_eq_true.
  set (was := asset_map first). set (now := asset_map newest). split.
  - intros [[Ha Hr] Hc]. apply map_eq. intros n. apply option_eq. intros h.
    assert (forall m n', (is_Some (now !! n') -> m = was -> is_Some (m !! n'))) as Hin.
    { intros m n' [v Hv] ->. destruct (was !! n') eqn:E; [done|].
      assert (n' ∈ List.filter (fun n => was !! n == None) (btree_keys now)) as Hx.
      { rewrite list_elem_of_In, filter_In, <-list_elem_of_In, elem_of_btree_keys, bool_decide_eq_true. eauto. }
      rewrite Ha in Hx. by apply not_elem_of_nil in Hx. }
    assert (forall v w, now !! n = Some v -> was !! n = Some w -> v = w) as Heq.
    { intros v w Hv Hw. destruct (decide (v = w)) as [|Hne]; [done|exfalso].
      assert (n ∈ map fst (List.filter (fun '(n, h) => is_some_and (was !! n) (fun w => w != h)) (btree_items now))) as Hx.
      { rewrite list_elem_of_In, in_map_iff. exists (n, v). split; [done|].
        rewrite filter_In, <-list_elem_of_In, elem_of_btree_items. split; [done|]. rewrite Hw. simpl.
        by rewrite bool_decide_eq_false_2. }
      rewrite Hc in Hx. by apply not_elem_of_nil in Hx. }
    split; intros Hh.
    + destruct (Hin was n) as [w Hw]; [by exists h|done|]. by rewrite Hw, (Heq h w).
    + destruct (now !! n) as [v|] eqn:E; [by rewrite (Heq v h)|].
      assert (n ∈ List.filter (fun n => now !! n == None) (btree_keys was)) as Hx.
      { rewrite list_elem_of_In, filter_In, <-list_elem_of_In, elem_of_btree_keys, bool_decide_eq_true. eauto. }
      rewrite Hr in Hx. by apply not_elem_of_nil in Hx.
  - intros ->. split_and!.
    + apply filter_none. intros n (v & Hv)%elem_of_btree_keys. by rewrite Hv.
    + apply filter_none. intros n (v & Hv)%elem_of_btree_keys. by rewrite Hv.
    + rewrite filter_none; [done|]. intros [n h] Hn%elem_of_btree_items. rewrite Hn. simpl.
      by rewrite bool_decide_eq_true_2.
Qed.

(** ** The moves *)

Lemma moves_from_nil tip walk : moves_from tip walk = [] <-> forall u, u ∈ walk -> tip_set u = tip.
Proof.
  induction walk as [|u walk IH]; simpl; [split; [by intros _ u ?%not_elem_of_nil|done]|].
  case_bool_decide as E.
  - rewrite IH. split; [intros H v [->|?]%elem_of_cons; auto|]. intros H v Hv. apply H. by right.
  - split; [done|]. intros H. destruct E. apply H. left.
Qed.

Section theorems.
Context (glob_match : string -> string -> bool) (sha256_hex : string -> string).

Abbreviation valids := (valid_updates glob_match sha256_hex).
Abbreviation resolve := (resolve_ref glob_match sha256_hex).

Lemma filter_upto_perm t (us : list RefUpdate) :
  updates_upto t us ++ List.filter (fun u => (t <? ru_created_at u)%N) us ≡ₚ us.
Proof.
  induction us as [|u us IH]; [done|]. unfold updates_upto in *. simpl.
  destruct (N.leb_spec (ru_created_at u) t) as [H|H].
  - rewrite (proj2 (N.ltb_ge _ _)) by done. simpl. by rewrite IH.
  - rewrite (proj2 (N.ltb_lt _ _)) by done. by rewrite <-Permutation_middle, IH.
Qed.

(** The valid updates of a time and before are the valid ones among those. *)
Lemma valids_upto updates configs h t valid :
  distinct_updates updates -> valids updates configs h = Some valid ->
  valids (updates_upto t updates) configs h = Some (updates_upto t valid).
Proof.
  intros Hd Hv.
  set (later := List.filter (fun u => (t <? ru_created_at u)%N) updates).
  destruct (valids_total glob_match sha256_hex (updates_upto t updates) configs h) as (v1 & H1 & Hp1 & _).
  destruct (valids_total glob_match sha256_hex later configs h) as (v2 & H2 & Hp2 & _).
  assert (valids (updates_upto t updates ++ later) configs h = Some (v1 ++ v2)) as Happ.
  { apply valids_app; [|done..]. intros x y. unfold updates_upto, later.
    rewrite !list_elem_of_In, !filter_In, N.leb_le, N.ltb_lt. lia. }
  assert (valids (updates_upto t updates ++ later) configs h = valids updates configs h) as Heq.
  { unfold valid_updates. apply causal_order_unique; [by apply List_filter_perm, filter_upto_perm|].
    assert (forall x, x ∈ updates_upto t updates ++ later -> x ∈ updates) as Hin.
    { intros x. unfold later. by rewrite filter_upto_perm. }
    intros x y. rewrite !list_elem_of_In, !filter_In, <-!list_elem_of_In.
    intros [Hx%Hin _] [Hy%Hin _]. by apply Hd. }
  rewrite Happ, Hv in Heq. injection Heq as <-. rewrite H1. f_equal. unfold updates_upto.
  rewrite List.filter_app, (filter_none _ v2), app_nil_r.
  - symmetry. apply List.forallb_filter_id, List.forallb_forall. intros u. rewrite <-list_elem_of_In, Hp1.
    unfold updates_upto. rewrite !list_elem_of_In, !filter_In. tauto.
  - intros u. rewrite Hp2. unfold later. rewrite !list_elem_of_In, !filter_In, N.ltb_lt, N.leb_gt. tauto.
Qed.

(** Folding valid updates again folds what they are. *)
Lemma resolve_valid updates configs h valid is_anc :
  distinct_updates updates -> valids updates configs h = Some valid ->
  resolve valid configs h is_anc = resolve updates configs h is_anc.
Proof.
  intros Hd Hv. assert (valids valid configs h = valids updates configs h) as Heq.
  { destruct (valids_total glob_match sha256_hex updates configs h) as (v & Hv' & Hp & _). simplify_eq.
    unfold valid_updates. apply causal_order_unique.
    - assert (List.filter (fun u => (ru_ref_name_hash u == h) && is_update_valid glob_match sha256_hex u configs) valid = valid) as ->.
      { apply List.forallb_filter_id, List.forallb_forall. intros u. rewrite <-list_elem_of_In, Hp.
        rewrite list_elem_of_In, filter_In. by intros [_ ?]. }
      exact Hp.
    - intros x y. rewrite !list_elem_of_In, !filter_In, <-!list_elem_of_In, !Hp, !list_elem_of_In, !filter_In.
      rewrite <-!list_elem_of_In. intros [[Hx _] _] [[Hy _] _]. by apply Hd. }
  unfold resolve_ref, live_heads. by rewrite Heq.
Qed.
End theorems.

Section spec.
Context (glob_match : string -> string -> bool) (sha256_hex : string -> string).

Abbreviation resolve := (resolve_ref glob_match sha256_hex).

Lemma tip_set_Some u o : is_null_oid o = false -> tip_set u = Some o <-> ru_new_oid u = o.
Proof.
  intros Ho. unfold tip_set. destruct (is_null_oid (ru_new_oid u)) eqn:E; [|naive_solver].
  split; [done|]. intros <-. congruence.
Qed.

(** C38: what a release is judged by is what readers saw: when its tag named a tip for every
  reader at the first publish, that tip is the baseline, whatever the release itself
  records; the tag reads unchanged or restored exactly when readers see that tip now, and
  unchanged exactly when besides no valid update since set anything else; so a release
  that is not called altered has its tag where it was, the assets it had, and no record
  that names another tip. *)
Theorem release_provenance_spec h updates configs revisions pin target first newest a st
  (Hd : distinct_updates updates)
  (Hfirst : head (live_revisions revisions) = Some first) (Hnewest : last (live_revisions revisions) = Some newest)
  (Hpublish : resolve (updates_upto (pr_created_at first) updates) configs h same = Some st)
  (Ha : resolved_tip st = Some a) :
  exists p now, release_provenance glob_match sha256_hex h updates configs revisions pin target = Some p
  /\ resolve updates configs h same = Some now
  /\ rp_baseline p = Some a
  /\ ((rp_tag p = TagUnchanged \/ rp_tag p = TagRestored) <-> exists c, resolved_tip now = Some c /\ pt_oid c = pt_oid a)
  /\ (rp_tag p = TagUnchanged <->
        (exists c, resolved_tip now = Some c /\ pt_oid c = pt_oid a)
        /\ forall u, u ∈ updates -> counts glob_match sha256_hex configs h u = true ->
             (pr_created_at first < ru_created_at u)%N -> ru_new_oid u = pt_oid a)
  /\ (altered p = false <->
        (exists c, resolved_tip now = Some c /\ pt_oid c = pt_oid a)
        /\ asset_map newest = asset_map first
        /\ forall t, target = Some t -> is_null_oid t = false -> to_lower t = to_lower (pt_oid a)).
Proof.
  destruct (valids_total glob_match sha256_hex updates configs h) as (valid & Hv & _).
  set (t := pr_created_at first) in *.
  pose proof (valids_upto glob_match sha256_hex updates configs h t valid Hd Hv) as Hbefore.
  assert (resolve (updates_upto t valid) configs h same = Some st) as Hst.
  { rewrite <-Hpublish. apply resolve_valid; [|done]. intros x y. unfold updates_upto.
    rewrite !list_elem_of_In, !filter_In, <-!list_elem_of_In. intros [Hx _] [Hy _]. by apply Hd. }
  destruct (resolve_tip glob_match sha256_hex _ configs h same _ Hbefore) as (st' & Hst' & Htip & _).
  rewrite Hpublish in Hst'. injection Hst' as <-.
  destruct (resolve_tip glob_match sha256_hex updates configs h same valid Hv) as (now & Hnow & Hntip & _).
  destruct st as [|oid author created|]; try done. injection Ha as <-. cbn [tip_of] in Htip. cbn [pt_oid].
  unfold newest_tip in Htip. destruct (last (updates_upto t valid)) as [u0|] eqn:Hlast; [|done]. cbn in Htip.
  destruct (is_null_oid (ru_new_oid u0)) eqn:Hnull; [done|]. cbn in Htip. injection Htip as ->.
  assert (updates_upto t valid <> []) as Hne by (intros E; by rewrite E in Hlast).
  assert (valid <> []) as Hne' by (intros ->; done).
  unfold release_provenance. rewrite Hfirst, Hnewest, Hv. cbn [mbind option_bind]. rewrite Hnow. cbn [mbind option_bind].
  fold t. change (List.filter (fun u => (ru_created_at u <=? t)%N) valid) with (updates_upto t valid).
  rewrite Hst. cbn [mbind option_bind resolved_tip]. rewrite (bool_decide_eq_false_2 (updates_upto t valid = [])) by done.
  rewrite (bool_decide_eq_false_2 (valid = [])) by done.
  cbn [andb]. eexists _, now. split; [reflexivity|]. split; [done|]. cbn [rp_baseline]. split; [done|].
  set (later := List.filter _ valid). cbn [rp_tag fmap option_fmap option_map pt_oid].
  assert (forall u, u ∈ later <-> (u ∈ updates) /\ counts glob_match sha256_hex configs h u = true /\ (t < ru_created_at u)%N) as Hlater.
  { intros u. unfold later. rewrite list_elem_of_In, filter_In, <-list_elem_of_In, N.ltb_lt.
    rewrite (valids_elem _ _ _ _ _ _ _ Hv). tauto. }
  assert (moves_from (Some (ru_new_oid u0)) later = [] <-> forall u, u ∈ updates ->
    counts glob_match sha256_hex configs h u = true -> (t < ru_created_at u)%N -> ru_new_oid u = ru_new_oid u0) as Hmoves.
  { rewrite moves_from_nil. setoid_rewrite (tip_set_Some _ (ru_new_oid u0) Hnull). setoid_rewrite Hlater. naive_solver. }
  set (moves := moves_from _ later) in *.
  set (tag := match now with Diverged _ => TagDiverged | _ => _ end).
  assert ((tag = TagUnchanged \/ tag = TagRestored) <-> exists c, resolved_tip now = Some c /\ pt_oid c = ru_new_oid u0) as Htag.
  { unfold tag. destruct now as [|o b c|hs]; cbn.
    - split; [by intros [?|?]|by intros (? & ? & _)].
    - case_bool_decide; [|split; [by intros [?|?]|naive_solver]].
      split; [naive_solver|]. intros _. destruct moves; auto.
    - split; [by intros [?|?]|by intros (? & ? & _)]. }
  split; [exact Htag|]. split.
  - rewrite <-Hmoves, <-Htag. unfold tag. destruct now as [|o b c|hs]; cbn; [naive_solver| |naive_solver].
    case_bool_decide; [|naive_solver]. destruct moves; naive_solver.
  - unfold altered. cbn [rp_tag rp_assets rp_record_differs]. rewrite <-Htag, <-changes_empty_spec.
    rewrite !orb_false_iff, negb_false_iff.
    assert (match tag with TagMoved | TagDeleted | TagDiverged | TagMissing => true | _ => false end = false
      <-> tag = TagUnchanged \/ tag = TagRestored) as -> by (destruct tag; naive_solver).
    assert (match record_of target with Some r => r != to_lower (ru_new_oid u0) | None => false end = false
      <-> forall r, target = Some r -> is_null_oid r = false -> to_lower r = to_lower (ru_new_oid u0)) as Hrec; [|rewrite Hrec; tauto].
    unfold record_of. destruct target as [r|]; cbn; [|by split].
    destruct (is_null_oid r) eqn:Er; cbn.
    + split; [|done]. intros _ r' [= <-] E. congruence.
    + rewrite negb_false_iff, bool_decide_eq_true. split; [by intros H r' [= <-] _|]. intros H. by apply H.
Qed.
End spec.

(** *** A tag moved after its release *)

Definition any_match (pattern name : string) : bool := pattern == name.
Definition plain_hash (s : string) : string := s.
Definition tag_update (id prev new : string) (t : N) : RefUpdate :=
  mkRefUpdate id "refs/tags/v1" "refs/tags/v1" prev new false true "ann" t.
Definition moved_tag : list RefUpdate := [tag_update "1" "" "aa" 10; tag_update "2" "aa" "bb" 30].
Definition first_release : ProvenanceRevision := mkProvenanceRevision "r" 20 1 "ann" [mkProvenanceAsset "a.zip" "00"].

Lemma release_provenance_spec_witness :
  exists p, release_provenance any_match plain_hash "refs/tags/v1" moved_tag [] [first_release] None None = Some p
    /\ altered p = true.
Proof.
  assert (distinct_updates moved_tag) as Hd.
  { intros u u' Hu Hu'. unfold moved_tag in *. rewrite !elem_of_cons, elem_of_nil in Hu, Hu'.
    destruct Hu as [->|[->|[]]], Hu' as [->|[->|[]]]; vm_compute; congruence. }
  assert (resolve_ref any_match plain_hash (updates_upto (pr_created_at first_release) moved_tag) [] "refs/tags/v1" same
          = Some (Resolved "aa" "ann" 10)) as Hst by (vm_compute; reflexivity).
  destruct (release_provenance_spec any_match plain_hash "refs/tags/v1" moved_tag [] [first_release] None None
    first_release first_release (mkProvenanceTip "aa" "ann" 10) (Resolved "aa" "ann" 10) Hd eq_refl eq_refl Hst eq_refl)
    as (p & now & Hp & Hnow & _ & Htag & _).
  exists p. split; [exact Hp|]. vm_compute in Hnow. injection Hnow as <-. unfold altered.
  destruct (rp_tag p); try reflexivity; exfalso.
  - destruct (proj1 Htag (or_introl eq_refl)) as (c & [= <-] & E). discriminate E.
  - destruct (proj1 Htag (or_intror eq_refl)) as (c & [= <-] & E). discriminate E.
Defined.
