(* ===== verification/Transitions.v ===== *)
(** Issue and pull-request state as a running sum of transition deltas ([transition.rs]):
    the moves a client writes, the reading of a sum, the close reason of an issue and the
    repository totals. The machine is related to an abstract one of named flags. *)
From S2P Require Import Prelude Names.

(** ** Definitions *)

Definition ISSUE_CLOSE : N := 1.
Definition ISSUE_REOPEN : N := 2.
Definition PR_CLOSE : N := 11.
Definition PR_REOPEN : N := 12.
Definition PR_MERGE : N := 13.
Definition PR_DRAFT : N := 14.
Definition PR_READY : N := 15.
Definition PR_DRAFT_CLOSE : N := 16.
Definition PR_DRAFT_REOPEN : N := 17.
Definition ISSUE_LOCK : N := 3.
Definition ISSUE_UNLOCK : N := 4.
Definition PR_LOCK : N := 18.
Definition PR_UNLOCK : N := 19.
Definition LOCK_DELTA : Z := 16.

Definition TRANSITION_KINDS : list N :=
  [ISSUE_CLOSE; ISSUE_REOPEN; ISSUE_LOCK; ISSUE_UNLOCK; PR_CLOSE; PR_REOPEN; PR_MERGE;
   PR_DRAFT; PR_READY; PR_DRAFT_CLOSE; PR_DRAFT_REOPEN; PR_LOCK; PR_UNLOCK].

Definition delta_of (kind : N) : option Z :=
  if one_of [ISSUE_CLOSE; PR_CLOSE; PR_DRAFT_CLOSE] kind then Some 1%Z
  else if one_of [ISSUE_REOPEN; PR_REOPEN; PR_DRAFT_REOPEN] kind then Some (-1)%Z
  else if (kind =? PR_MERGE)%N then Some 2%Z
  else if (kind =? PR_DRAFT)%N then Some 8%Z
  else if (kind =? PR_READY)%N then Some (-8)%Z
  else if one_of [ISSUE_LOCK; PR_LOCK] kind then Some LOCK_DELTA
  else if one_of [ISSUE_UNLOCK; PR_UNLOCK] kind then Some (- LOCK_DELTA)%Z
  else None.

Inductive TransitionTarget := Issue | Patch.

Definition target_code (t : TransitionTarget) : N := match t with Issue => 0 | Patch => 1 end.

Inductive StateAction := Close | Reopen | Merge | Draft | Ready | Lock | Unlock.

Inductive Actor := Member | Author | Other.

Record TransitionMove := mkTransitionMove {
  tm_kind : N;
  tm_delta : Z;
  tm_target_kind : N;
  tm_as_author : N;
  tm_after : Z
}.

(** The sum mod 16 (Rust's [rem_euclid]), and whether it reaches the lock bit. *)
Definition fold_sum (sum : Z) : Z * bool := (Z.modulo sum LOCK_DELTA, (LOCK_DELTA <=? sum)%Z).

(** The [kind] the move takes. *)
Definition move_kind (target : TransitionTarget) (action : StateAction) (code : Z) (locked member : bool)
    : option N :=
  match target, action, code with
  | Issue, Lock, _ => if member && negb locked then Some ISSUE_LOCK else None
  | Issue, Unlock, _ => if member && locked then Some ISSUE_UNLOCK else None
  | Patch, Lock, _ => if member && negb locked then Some PR_LOCK else None
  | Patch, Unlock, _ => if member && locked then Some PR_UNLOCK else None
  | Issue, Close, 0%Z => Some ISSUE_CLOSE
  | Issue, Reopen, 1%Z => Some ISSUE_REOPEN
  | Patch, Close, 0%Z => Some PR_CLOSE
  | Patch, Close, 8%Z => Some PR_DRAFT_CLOSE
  | Patch, Reopen, 1%Z => Some PR_REOPEN
  | Patch, Reopen, 9%Z => Some PR_DRAFT_REOPEN
  | Patch, Merge, 0%Z => if member then Some PR_MERGE else None
  | Patch, Draft, 0%Z => Some PR_DRAFT
  | Patch, Ready, 8%Z => Some PR_READY
  | _, _, _ => None
  end.

Definition next_transition (target : TransitionTarget) (sum : Z) (action : StateAction) (actor : Actor)
    (target_number : N) : option TransitionMove :=
  member ← match actor with Member => Some true | Author => Some false | Other => None end;
  let '(code, locked) := fold_sum sum in
  kind ← move_kind target action code locked member;
  delta ← delta_of kind;
  Some (mkTransitionMove kind delta (target_code target) (if member : bool then 0%N else target_number)
          (sum + delta)%Z).

Record StateStatus := mkStateStatus {
  ss_open : bool;
  ss_merged : bool;
  ss_draft : bool;
  ss_locked : bool
}.

Definition status_of_code (sum : Z) : StateStatus :=
  let '(code, locked) := fold_sum sum in
  let closed := negb (Z.land code 1 =? 0)%Z in
  let merged := negb (Z.land code 2 =? 0)%Z in
  let draft := negb (Z.land code 8 =? 0)%Z in
  mkStateStatus (negb closed && negb merged) merged draft locked.

Record Transition := mkTransition {
  tr_id : string;
  tr_kind : N;
  tr_actor : string;
  tr_oid : option Oid;
  tr_as_author : N;
  tr_created_at : N;
  tr_reason : option N;
  tr_dup_number : option N;
  tr_closed_by_pr : option N
}.

Inductive CloseReason := Completed | NotPlanned | Duplicate.

#[export] Instance CloseReason_eq_dec : EqDecision CloseReason.
Proof. solve_decision. Defined.

Definition reason_code (r : CloseReason) : N :=
  match r with Completed => 1 | NotPlanned => 2 | Duplicate => 3 end.

Definition reason_from_code (code : N) : option CloseReason :=
  match code with 1%N => Some Completed | 2%N => Some NotPlanned | 3%N => Some Duplicate | _ => None end.

Definition reason_as_str (r : CloseReason) : string :=
  match r with Completed => "completed" | NotPlanned => "not_planned" | Duplicate => "duplicate" end.

Record ClosedAs := mkClosedAs { ca_reason : CloseReason; ca_duplicate_of : option N }.

Definition close_reason_of (t : Transition) (target_number : N) : option ClosedAs :=
  if negb (tr_kind t =? ISSUE_CLOSE)%N then None
  else
    code ← tr_reason t;
    reason ← reason_from_code code;
    Some (mkClosedAs reason
      (opt_filter (fun n => (reason == Duplicate) && negb (n =? target_number)%N && negb (n =? 0)%N)
         (tr_dup_number t))).

Definition state_sum (transitions : list Transition) : Z :=
  foldr Z.add 0%Z (omap (fun t => delta_of (tr_kind t)) transitions).

Definition state_code (transitions : list Transition) : Z := (fold_sum (state_sum transitions)).1.

Definition is_locked (transitions : list Transition) : bool := (fold_sum (state_sum transitions)).2.

Definition tr_cmp : Transition -> Transition -> comparison :=
  cmp_then (cmp_on tr_created_at N.compare) (cmp_on tr_id String.compare).

Definition moves_open (t : Transition) : bool := one_of [ISSUE_CLOSE; ISSUE_REOPEN] (tr_kind t).

Definition current_close_reason (transitions : list Transition) (target_number : N) : option ClosedAs :=
  if negb (state_code transitions =? 1)%Z then None
  else
    t ← max_by tr_cmp (List.filter moves_open transitions);
    close_reason_of t target_number.

Definition merge_transition (transitions : list Transition) : option Transition :=
  List.find (fun t => (tr_kind t =? PR_MERGE)%N) transitions.

Record RepoCounts := mkRepoCounts {
  rc_issues_open : N;
  rc_issues_closed : N;
  rc_prs_open : N;
  rc_prs_closed : N;
  rc_prs_merged : N;
  rc_prs_draft : N
}.

Definition repo_counts (issues patches : N) (kinds : gmap N N) : RepoCounts :=
  let c k := default 0%N (kinds !! k) in
  let issues_closed := sat_sub (c ISSUE_CLOSE) (c ISSUE_REOPEN) in
  let ready_closed := sat_sub (c PR_CLOSE) (c PR_REOPEN) in
  let draft_closed := sat_sub (c PR_DRAFT_CLOSE) (c PR_DRAFT_REOPEN) in
  let prs_merged := c PR_MERGE in
  let prs_closed := sat_add_u64 ready_closed draft_closed in
  mkRepoCounts (sat_sub issues issues_closed) issues_closed
    (sat_sub patches (sat_add_u64 prs_merged prs_closed)) prs_closed prs_merged
    (sat_sub (sat_sub (c PR_DRAFT) (c PR_READY)) draft_closed).

Definition dense_number (issues patches : N) : option N :=
  u32_try_from (sat_add_u64 (sat_add_u64 issues patches) 1).

Definition DENSE_RULE : string := "dense".

(** The byte of a double quote, and the two spellings of the rule in a refusal's text. *)
Definition quote : string := String (Ascii.ascii_of_N 34) "".
Definition names_dense_rule (message : string) : bool :=
  str_contains ("rule " +:+ quote +:+ "dense" +:+ quote) message
  || str_contains ("rule \" +:+ quote +:+ "dense\" +:+ quote) message.

(** ** The abstract machine *)

(** A target's state in words. *)
Record Flags := mkFlags { fl_closed : bool; fl_merged : bool; fl_draft : bool; fl_locked : bool }.

#[export] Instance Flags_eq_dec : EqDecision Flags.
Proof. solve_decision. Defined.

Definition fl_open (f : Flags) : bool := negb (fl_closed f) && negb (fl_merged f).

(** What an action asks of the state, and what it makes of it; only members merge, lock
    and unlock, issues have no drafts and no merges, and a merged request stays as it is
    but for its lock. *)
Definition spec_step (target : TransitionTarget) (action : StateAction) (member : bool) (f : Flags)
    : option Flags :=
  match action with
  | Lock => if member && negb (fl_locked f) then Some (mkFlags (fl_closed f) (fl_merged f) (fl_draft f) true) else None
  | Unlock => if member && fl_locked f then Some (mkFlags (fl_closed f) (fl_merged f) (fl_draft f) false) else None
  | Close => if fl_open f then Some (mkFlags true (fl_merged f) (fl_draft f) (fl_locked f)) else None
  | Reopen => if fl_closed f then Some (mkFlags false (fl_merged f) (fl_draft f) (fl_locked f)) else None
  | Merge =>
    match target with
    | Patch => if member && fl_open f && negb (fl_draft f) then Some (mkFlags false true false (fl_locked f)) else None
    | Issue => None
    end
  | Draft =>
    match target with
    | Patch => if fl_open f && negb (fl_draft f) then Some (mkFlags false false true (fl_locked f)) else None
    | Issue => None
    end
  | Ready =>
    match target with
    | Patch => if fl_open f && fl_draft f then Some (mkFlags false false false (fl_locked f)) else None
    | Issue => None
    end
  end.

(** The flags a target of either kind can have. *)
Definition flags_ok (target : TransitionTarget) (f : Flags) : bool :=
  match target with
  | Issue => negb (fl_merged f) && negb (fl_draft f)
  | Patch => negb (fl_merged f) || (negb (fl_closed f) && negb (fl_draft f))
  end.

Definition encode (f : Flags) : Z :=
  (Z.b2z (fl_closed f) + 2 * Z.b2z (fl_merged f) + 8 * Z.b2z (fl_draft f) + 16 * Z.b2z (fl_locked f))%Z.

(** What consensus accepts of a transition whose deltas, its own among them, sum to [sum]: the
    contract's enumeration of kinds and its rules [a], [b1] to [b4], [c1] to [c6], [f] and [g]. *)
Definition consensus_accepts (target_kind kind : N) (delta : Z) (as_author : N) (sum : Z) : bool :=
  let on (kinds : list N) (rule : bool) : bool := negb (one_of kinds kind) || rule in
  let after (code : Z) : bool := (sum mod 16 =? code)%Z in
  one_of [1; 2; 3; 4; 11; 12; 13; 14; 15; 16; 17; 18; 19]%N kind
  && (target_kind =? kind / 10)%N
  && on [1; 11; 16]%N (delta =? 1)%Z && on [2; 12; 17]%N (delta =? -1)%Z
  && on [13]%N (delta =? 2)%Z && on [14]%N (delta =? 8)%Z && on [15]%N (delta =? -8)%Z
  && on [3; 18]%N (delta =? 16)%Z && on [4; 19]%N (delta =? -16)%Z
  && on [1; 11]%N (after 1%Z) && on [2; 12; 15]%N (after 0%Z) && on [13]%N (after 2%Z)
  && on [14; 17]%N (after 8%Z) && on [16]%N (after 9%Z)
  && on [3; 4; 18; 19]%N (sum / 16 =? (delta + 16) / 32)%Z
  && on [13]%N (as_author =? 0)%N && on [3; 4; 18; 19]%N (as_author =? 0)%N.

Definition is_member (a : Actor) : option bool :=
  match a with Member => Some true | Author => Some false | Other => None end.

(** ** Legal histories *)

(** The transitions of one target, each the move of some action by some actor from the
    sum of those before it. *)
Inductive legal (target : TransitionTarget) : list Transition -> Z -> Prop :=
| legal_nil : legal target [] 0
| legal_snoc h sum t action actor number m :
    legal target h sum -> next_transition target sum action actor number = Some m ->
    tr_kind t = tm_kind m -> tr_as_author t = tm_as_author m ->
    legal target (h ++ [t]) (tm_after m).

(** How many transitions of [h] have kind [k]. *)
Definition count_kind (k : N) (h : list Transition) : N :=
  N.of_nat (length (List.filter (fun t => (tr_kind t =? k)%N) h)).

(** ** The machine refines the abstract one *)

Ltac cases_flags := repeat match goal with
  | f : Flags |- _ => destruct f as [[] [] [] []]
  end.

Lemma status_of_encode f :
  status_of_code (encode f) = mkStateStatus (fl_open f) (fl_merged f) (fl_draft f) (fl_locked f).
Proof. by cases_flags. Qed.

Lemma fold_encode f :
  fold_sum (encode f) = (encode (mkFlags (fl_closed f) (fl_merged f) (fl_draft f) false), fl_locked f).
Proof. by cases_flags. Qed.

#[local] Arguments encode : simpl never.

Lemma encode_inj f g : encode f = encode g -> f = g.
Proof. by cases_flags. Qed.

Lemma refines target f action actor number :
  flags_ok target f = true ->
  match is_member actor ≫= fun member => spec_step target action member f with
  | Some f' =>
    flags_ok target f' = true
    /\ exists kind delta, next_transition target (encode f) action actor number
         = Some (mkTransitionMove kind delta (target_code target)
                   (if actor is Member then 0%N else number) (encode f'))
       /\ kind ∈ TRANSITION_KINDS /\ delta_of kind = Some delta
       /\ consensus_accepts (target_code target) kind delta (if actor is Member then 0%N else number) (encode f') = true
  | None => next_transition target (encode f) action actor number = None
  end.
Proof.
  intros Hok. destruct target, action, actor, f as [[] [] [] []]; try discriminate Hok;
    first [reflexivity|split; [reflexivity|eexists _, _; split; [reflexivity|split; [|split; reflexivity]]]];
    apply (bool_decide_eq_true_1 _); reflexivity.
Qed.

(** The sums a state adds up to with what consensus accepts next. *)
Lemma accepted_written target f actor number kind delta :
  flags_ok target f = true -> (actor = Author -> number <> 0%N) -> actor <> Other ->
  consensus_accepts (target_code target) kind delta (if actor is Member then 0%N else number) (encode f + delta) = true ->
  exists action, next_transition target (encode f) action actor number
    = Some (mkTransitionMove kind delta (target_code target) (if actor is Member then 0%N else number) (encode f + delta)).
Proof.
  intros Hok Hnum Hactor Hc. unfold consensus_accepts in Hc. repeat setoid_rewrite andb_true_iff in Hc.
  destruct Hc as ((((((((((((((((Hkind & Ht) & Hb1) & Hb2) & Hb3) & Hb4) & Hb5) & Hb6) & Hb7) & Hc1) & Hc2) & Hc3) & Hc4) & Hc5) & Hc6) & Hf) & Hg).
  apply one_of_true in Hkind.
  repeat (apply elem_of_cons in Hkind as [->|Hkind];
    [simpl in *; repeat match goal with Heq : (delta =? _)%Z = true |- _ => apply Z.eqb_eq in Heq; subst delta end|]);
    [..|by apply not_elem_of_nil in Hkind].
  all: destruct target; try discriminate Ht; destruct f as [[] [] [] []]; try discriminate Hok;
    try discriminate Hc1; try discriminate Hc2; try discriminate Hc3; try discriminate Hc4; try discriminate Hc5; try discriminate Hc6.
  all: destruct actor; [|try (exfalso; apply Hnum; [done|]; by apply N.eqb_eq; first [exact Hf|exact Hg])|done].
  all: first [by exists Close|by exists Reopen|by exists Merge|by exists Draft|by exists Ready|by exists Lock|by exists Unlock].
Qed.


(** The move read back: the flags it starts from and leads to. *)
Lemma next_transition_inv target f action actor number m :
  flags_ok target f = true -> next_transition target (encode f) action actor number = Some m ->
  exists f' member, is_member actor = Some member /\ spec_step target action member f = Some f'
    /\ flags_ok target f' = true /\ tm_after m = encode f' /\ delta_of (tm_kind m) = Some (tm_delta m)
    /\ tm_after m = (encode f + tm_delta m)%Z.
Proof.
  intros Hok Hm. pose proof (refines target f action actor number Hok) as Hr.
  destruct (is_member actor) as [member|]; simpl in Hr; [|congruence].
  destruct (spec_step target action member f) as [f'|] eqn:Hs; [|congruence].
  destruct Hr as (Hok' & kind & delta & Hr & _ & Hd & _). rewrite Hm in Hr. injection Hr as ->.
  exists f', member. split_and!; [done..|]. unfold next_transition in Hm.
  destruct (match actor with Member => _ | _ => _ end); [|done]. simpl in Hm.
  destruct (fold_sum (encode f)) as [code locked]. destruct (move_kind _ _ _ _ _); [|done]. simpl in Hm.
  destruct (delta_of n); [|done]. cbn -[encode] in Hm.
  injection Hm as H1 H2 H3 H4. cbn -[encode]. congruence.
Qed.

Lemma state_sum_snoc h t : state_sum (h ++ [t]) = (state_sum h + default 0 (delta_of (tr_kind t)))%Z.
Proof.
  unfold state_sum. rewrite omap_app, foldr_app. simpl.
  assert (forall l a, foldr Z.add a l = (foldr Z.add 0 l + a)%Z) as Hf.
  { induction l as [|x l IH]; intros a; simpl; [lia|]. rewrite IH. lia. }
  rewrite Hf. f_equal. destruct (delta_of (tr_kind t)); simpl; lia.
Qed.

(** A legal history stands for flags its target can have, and its deltas sum to them. *)
Lemma legal_flags target h sum :
  legal target h sum -> exists f, flags_ok target f = true /\ sum = encode f /\ state_sum h = sum.
Proof.
  induction 1 as [|h sum t action actor number m _ (f & Hok & -> & Hs) Hm Hk _].
  { exists (mkFlags false false false false). by destruct target. }
  destruct (next_transition_inv target f action actor number m Hok Hm) as (f' & _ & _ & _ & Hok' & Ha & Hd & Had).
  exists f'. split_and!; [done|done|]. rewrite state_sum_snoc, Hs, Hk, Hd. by rewrite Had.
Qed.

Lemma legal_app_inv target h h' sum : legal target (h ++ h') sum -> exists sum0, legal target h sum0.
Proof.
  revert sum. induction h' as [|t h' IH] using rev_ind; intros sum H; [rewrite app_nil_r in H; by exists sum|].
  rewrite app_assoc in H. remember ((h ++ h') ++ [t]) as l eqn:El.
  destruct H as [|h0 s0 t0 a ac n m Hl]; [by destruct ((h ++ h'))|].
  apply app_inj_tail in El as [-> _]. by eapply IH.
Qed.

Lemma legal_snoc_inv target h t sum :
  legal target (h ++ [t]) sum -> exists sum0 action actor number m,
    legal target h sum0 /\ next_transition target sum0 action actor number = Some m
    /\ tr_kind t = tm_kind m /\ tr_as_author t = tm_as_author m /\ sum = tm_after m.
Proof.
  intros H. remember (h ++ [t]) as l eqn:El. destruct H as [|h0 s0 t0 a ac n m Hl Hm Hk Ha].
  { by destruct h. }
  apply app_inj_tail in El as [-> ->]. by exists s0, a, ac, n, m.
Qed.

(** ** Tallies *)

Definition count_if (b : bool) : N := if b then 1 else 0.

Lemma count_kind_snoc k h t :
  count_kind k (h ++ [t]) = (count_kind k h + count_if (tr_kind t =? k)%N)%N.
Proof.
  unfold count_kind. rewrite List.filter_app, length_app. simpl. destruct (tr_kind t =? k)%N; simpl; lia.
Qed.

(** What the counts by kind of one target's transitions say of its state. *)
Definition tally (target : TransitionTarget) (f : Flags) (h : list Transition) : Prop :=
  match target with
  | Issue =>
    count_kind ISSUE_CLOSE h = (count_kind ISSUE_REOPEN h + count_if (fl_closed f))%N
    /\ Forall (fun k => count_kind k h = 0%N)
         [PR_CLOSE; PR_REOPEN; PR_MERGE; PR_DRAFT; PR_READY; PR_DRAFT_CLOSE; PR_DRAFT_REOPEN]
  | Patch =>
    count_kind PR_CLOSE h = (count_kind PR_REOPEN h + count_if (fl_closed f && negb (fl_draft f)))%N
    /\ count_kind PR_DRAFT_CLOSE h = (count_kind PR_DRAFT_REOPEN h + count_if (fl_closed f && fl_draft f))%N
    /\ count_kind PR_MERGE h = count_if (fl_merged f)
    /\ count_kind PR_DRAFT h = (count_kind PR_READY h + count_if (fl_draft f))%N
    /\ Forall (fun k => count_kind k h = 0%N) [ISSUE_CLOSE; ISSUE_REOPEN]
  end.

Lemma tally_step target f h t action actor number m f' :
  flags_ok target f = true -> tally target f h ->
  next_transition target (encode f) action actor number = Some m -> tr_kind t = tm_kind m ->
  tm_after m = encode f' -> tally target f' (h ++ [t]).
Proof.
  intros Hok Ht Hm Hk Ha. unfold tally in *. destruct target, action, actor, f as [[] [] [] []];
    try discriminate Hok; try discriminate Hm; injection Hm as <-; simpl in Hk, Ha;
    destruct f' as [[] [] [] []]; try discriminate Ha; clear Ha Hok;
    rewrite ?Forall_cons in *; rewrite !count_kind_snoc, Hk; cbv [count_if fl_closed fl_merged fl_draft andb negb] in *;
    cbn [N.eqb Pos.eqb ISSUE_CLOSE ISSUE_REOPEN PR_CLOSE PR_REOPEN PR_MERGE PR_DRAFT PR_READY PR_DRAFT_CLOSE PR_DRAFT_REOPEN
      ISSUE_LOCK ISSUE_UNLOCK PR_LOCK PR_UNLOCK]; destruct_and!; repeat match goal with |- _ /\ _ => split end; try lia; try constructor.
Qed.

Lemma legal_tally target h sum :
  legal target h sum -> exists f, flags_ok target f = true /\ sum = encode f /\ tally target f h.
Proof.
  induction 1 as [|h sum t action actor number m _ (f & Hok & -> & Ht) Hm Hk _].
  { exists (mkFlags false false false false). split_and!; [by destruct target|done|].
    destruct target; split_and!; repeat constructor. }
  destruct (next_transition_inv target f action actor number m Hok Hm) as (f' & _ & _ & _ & Hok' & Ha & _).
  exists f'. split_and!; [done|done|]. exact (tally_step target f h t action actor number m f' Hok Ht Hm Hk Ha).
Qed.

(** The sum of [g] over a list, and the number of elements a test holds of. *)
Definition sum_of {A} (g : A -> N) (l : list A) : N := foldr (fun x n => (g x + n)%N) 0%N l.
Definition count_where {A} (p : A -> bool) (l : list A) : N := sum_of (fun x => count_if (p x)) l.

Lemma sum_of_cons {A} (g : A -> N) x l : sum_of g (x :: l) = (g x + sum_of g l)%N.
Proof. done. Qed.

(** A target as a reader sees it: its transitions and its state. *)
Abbreviation target_history := (list Transition * Z)%type.

Definition status_is (p : StateStatus -> bool) (x : target_history) : bool := p (status_of_code x.2).

(** The counts by kind over all of a repository's issues and requests. *)
Definition kinds_of (issues patches : list target_history) (k : N) : N :=
  (sum_of (fun x => count_kind k x.1) issues + sum_of (fun x => count_kind k x.1) patches)%N.

Lemma issue_tallies issues :
  Forall (fun x => legal Issue x.1 x.2) issues ->
  sum_of (fun x => count_kind ISSUE_CLOSE x.1) issues
    = (sum_of (fun x => count_kind ISSUE_REOPEN x.1) issues
       + count_where (status_is (fun s => negb (ss_open s))) issues)%N
  /\ N.of_nat (length issues)
    = (count_where (status_is ss_open) issues + count_where (status_is (fun s => negb (ss_open s))) issues)%N
  /\ Forall (fun k => sum_of (fun x => count_kind k x.1) issues = 0%N)
       [PR_CLOSE; PR_REOPEN; PR_MERGE; PR_DRAFT; PR_READY; PR_DRAFT_CLOSE; PR_DRAFT_REOPEN].
Proof.
  unfold count_where. induction 1 as [|[h sum] l Hl _ (H1 & H2 & H3)]; [by split_and!; repeat constructor|].
  destruct (legal_tally _ _ _ Hl) as (f & Hok & Hs & H4 & H5). rewrite !Forall_cons in *. destruct_and!.
  simpl in Hs. subst sum. unfold status_is in *. rewrite !sum_of_cons. cbn [fst snd length]. rewrite !status_of_encode.
  destruct f as [[] [] [] []]; try discriminate Hok;
    cbn [fst snd fl_open fl_closed fl_merged fl_draft ss_open ss_merged ss_draft count_if andb negb] in *;
    split_and!; try lia; constructor.
Qed.

Lemma patch_tallies patches :
  Forall (fun x => legal Patch x.1 x.2) patches ->
  (exists closed_ready closed_draft,
    sum_of (fun x => count_kind PR_CLOSE x.1) patches
      = (sum_of (fun x => count_kind PR_REOPEN x.1) patches + closed_ready)%N
    /\ sum_of (fun x => count_kind PR_DRAFT_CLOSE x.1) patches
      = (sum_of (fun x => count_kind PR_DRAFT_REOPEN x.1) patches + closed_draft)%N
    /\ (closed_ready + closed_draft)%N
      = count_where (status_is (fun s => negb (ss_open s) && negb (ss_merged s))) patches
    /\ sum_of (fun x => count_kind PR_DRAFT x.1) patches
      = (sum_of (fun x => count_kind PR_READY x.1) patches + closed_draft
         + count_where (status_is (fun s => ss_open s && ss_draft s)) patches)%N)
  /\ sum_of (fun x => count_kind PR_MERGE x.1) patches = count_where (status_is ss_merged) patches
  /\ N.of_nat (length patches)
    = (count_where (status_is ss_open) patches + count_where (status_is ss_merged) patches
       + count_where (status_is (fun s => negb (ss_open s) && negb (ss_merged s))) patches)%N
  /\ Forall (fun k => sum_of (fun x => count_kind k x.1) patches = 0%N) [ISSUE_CLOSE; ISSUE_REOPEN].
Proof.
  unfold count_where. induction 1 as [|[h sum] l Hl _ ((a & b & H1 & H2 & H3 & H4) & H5 & H6 & H7)].
  { split; [by exists 0%N, 0%N|]. by split_and!; repeat constructor. }
  destruct (legal_tally _ _ _ Hl) as (f & Hok & Hs & T1 & T2 & T3 & T4 & T5). rewrite !Forall_cons in *. destruct_and!.
  simpl in Hs. subst sum. unfold status_is in *. rewrite !sum_of_cons. cbn [fst snd length]. rewrite !status_of_encode. split.
  - exists (a + count_if (fl_closed f && negb (fl_draft f)))%N, (b + count_if (fl_closed f && fl_draft f))%N.
    destruct f as [[] [] [] []]; try discriminate Hok;
      cbn [fst snd fl_open fl_closed fl_merged fl_draft ss_open ss_merged ss_draft count_if andb negb] in *;
      split_and!; lia.
  - destruct f as [[] [] [] []]; try discriminate Hok;
    cbn [fst snd fl_open fl_closed fl_merged fl_draft ss_open ss_merged ss_draft count_if andb negb] in *;
    split_and!; try lia; constructor.
Qed.

#[export] Instance tr_cmp_ord : CmpOrd tr_cmp.
Proof. unfold tr_cmp. apply _. Qed.

(** ** Theorems *)

(** C16: the moves a client writes are exactly the legal steps of the abstract machine, and
    exactly what consensus accepts. From the sum that encodes a state, [next_transition] gives
    nothing when the step is not allowed (merging, locking and unlocking take a member; a merged
    request only has its lock moved; an issue has no drafts and no merges), and otherwise a move
    of the kind and delta the contract's rules accept there, which names the target's number
    exactly when an author writes it, and whose new sum encodes the abstract next state; and
    every kind and delta that the rules on those fields accept from that state, of a member or of
    the target's author, is the move of some action. *)
Theorem next_transition_refines target f action actor number (Hok : flags_ok target f = true) :
  match is_member actor ≫= fun member => spec_step target action member f with
  | Some f' =>
    flags_ok target f' = true
    /\ exists kind delta, next_transition target (encode f) action actor number
         = Some (mkTransitionMove kind delta (target_code target)
                   (if actor is Member then 0%N else number) (encode f'))
       /\ kind ∈ TRANSITION_KINDS /\ delta_of kind = Some delta
       /\ consensus_accepts (target_code target) kind delta (if actor is Member then 0%N else number) (encode f') = true
  | None => next_transition target (encode f) action actor number = None
  end
  /\ forall kind delta, (actor = Author -> number <> 0%N) -> actor <> Other ->
     consensus_accepts (target_code target) kind delta (if actor is Member then 0%N else number) (encode f + delta) = true ->
     exists action, next_transition target (encode f) action actor number
       = Some (mkTransitionMove kind delta (target_code target) (if actor is Member then 0%N else number) (encode f + delta)).
Proof. split; [by apply refines|]. intros kind delta. by apply accepted_written. Qed.

Lemma next_transition_refines_witness :
  exists delta, next_transition Patch 8 Close Author 7 = Some (mkTransitionMove PR_DRAFT_CLOSE delta 1 7 9)
    /\ consensus_accepts 1 PR_DRAFT_CLOSE delta 7 9 = true.
Proof.
  destruct (next_transition_refines Patch (mkFlags false false true false) Close Author 7 eq_refl)
    as [(_ & kind & delta & He & _ & _ & Hk) _]. simpl in He. injection He as <- <-. by exists 1%Z.
Defined.

(** The sum of a target's legal transitions is its state: it encodes flags the
    target can have, the readers' status, state code and lock are those flags, and an
    issue's code is 0 or 1, a request's 0, 1, 2, 8 or 9. *)
Theorem legal_history_state target h sum (H : legal target h sum) :
  exists f, flags_ok target f = true /\ state_sum h = encode f /\ sum = encode f
    /\ status_of_code sum = mkStateStatus (fl_open f) (fl_merged f) (fl_draft f) (fl_locked f)
    /\ is_locked h = fl_locked f
    /\ state_code h ∈ match target with Issue => [0; 1]%Z | Patch => [0; 1; 2; 8; 9]%Z end.
Proof.
  destruct (legal_flags target h sum H) as (f & Hok & -> & Hs). exists f.
  split_and!; [done|done|done|apply status_of_encode|unfold is_locked; by rewrite Hs, fold_encode|].
  unfold state_code. rewrite Hs, fold_encode. simpl.
  destruct target, f as [[] [] [] []]; try discriminate Hok; vm_compute encode;
    rewrite !elem_of_cons; tauto.
Qed.

(** A merge is final: once a request's transitions hold a merge, every continuation
    is still merged, neither open nor draft, holds that one merge only, and moves
    nothing but the conversation lock. *)
Theorem merge_is_final h h' sum sum' :
  legal Patch h sum -> ss_merged (status_of_code sum) = true -> legal Patch (h ++ h') sum' ->
  ss_merged (status_of_code sum') = true /\ ss_open (status_of_code sum') = false
  /\ ss_draft (status_of_code sum') = false /\ count_kind PR_MERGE (h ++ h') = 1%N
  /\ Forall (fun t => tr_kind t = PR_LOCK \/ tr_kind t = PR_UNLOCK) h'.
Proof.
  intros Hl Hm Hl'. assert (exists f, flags_ok Patch f = true /\ sum' = encode f /\ fl_merged f = true
      /\ Forall (fun t => tr_kind t = PR_LOCK \/ tr_kind t = PR_UNLOCK) h') as (f & Hok & -> & Hf & Hall).
  { revert sum' Hl'. induction h' as [|t h' IH] using rev_ind; intros sum' Hl'.
    - rewrite app_nil_r in Hl'. destruct (legal_flags _ _ _ Hl) as (f & Hok & -> & Hs).
      destruct (legal_flags _ _ _ Hl') as (f' & Hok' & -> & Hs'). rewrite Hs in Hs'. apply encode_inj in Hs' as <-.
      rewrite status_of_encode in Hm. by exists f.
    - rewrite app_assoc in Hl'. apply legal_snoc_inv in Hl' as (s0 & action & actor & n & m & Hl0 & Hn & Hk & _ & ->).
      destruct (IH s0 Hl0) as (f & Hok & -> & Hf & Hall).
      destruct (next_transition_inv Patch f action actor n m Hok Hn) as (f' & mb & Hmb & Hs & Hok' & Ha & _).
      exists f'. split_and!; [done|done| |apply Forall_app; split; [done|constructor; [|constructor]]];
        destruct f as [[] [] [] []]; try discriminate Hok; try discriminate Hf;
        destruct action, actor; try discriminate Hn; injection Hn as <-; simpl in Hs; simplify_eq/=; auto. }
  rewrite status_of_encode. destruct (legal_tally _ _ _ Hl') as (g & Hg & Heq & _ & _ & Hmg & _).
  apply encode_inj in Heq as <-. rewrite Hmg, Hf. simpl.
  destruct f as [[] [] [] []]; try discriminate Hok; try discriminate Hf; by split_and!.
Qed.

(** The totals of a repository are exact: from the counts by kind of all its legal
    transitions, [repo_counts] gives the number of issues and requests in each state. *)
Theorem repo_counts_exact issues patches (kinds : gmap N N) :
  Forall (fun x => legal Issue x.1 x.2) issues -> Forall (fun x => legal Patch x.1 x.2) patches ->
  (forall k, default 0%N (kinds !! k) = kinds_of issues patches k) ->
  (N.of_nat (length patches) <= u64_max)%N ->
  repo_counts (N.of_nat (length issues)) (N.of_nat (length patches)) kinds
  = mkRepoCounts (count_where (status_is ss_open) issues)
      (count_where (status_is (fun s => negb (ss_open s))) issues)
      (count_where (status_is ss_open) patches)
      (count_where (status_is (fun s => negb (ss_open s) && negb (ss_merged s))) patches)
      (count_where (status_is ss_merged) patches)
      (count_where (status_is (fun s => ss_open s && ss_draft s)) patches).
Proof.
  intros Hi Hp Hk Hmax. destruct (issue_tallies issues Hi) as (I1 & I2 & I3).
  destruct (patch_tallies patches Hp) as ((a & b & P1 & P2 & P3 & P4) & P5 & P6 & P7).
  split_forall. unfold repo_counts. rewrite !Hk. unfold kinds_of, sat_sub, sat_add_u64.
  f_equal; lia.
Qed.

(** The next number of a repository is one more than its issues and requests
    together, and is refused exactly when it does not fit in 32 bits. *)
Theorem dense_number_spec issues patches :
  match dense_number issues patches with
  | Some n => n = (issues + patches + 1)%N /\ (n <= u32_max)%N
  | None => (u32_max < issues + patches + 1)%N
  end.
Proof.
  unfold dense_number, u32_try_from, sat_add_u64, u32_max, u64_max.
  match goal with |- context [(?x <=? ?y)%N] => destruct (N.leb_spec x y) as [Hle|Hlt] end; [split|]; lia.
Qed.

Lemma legal_last_close h sum :
  legal Issue h sum -> ss_open (status_of_code sum) = false ->
  exists h1 t h2, h = h1 ++ t :: h2 /\ tr_kind t = ISSUE_CLOSE /\ Forall (fun x => moves_open x = false) h2.
Proof.
  induction 1 as [|h sum t action actor number m Hl IH Hm Hk _]; [done|]. intros Hc.
  destruct (legal_flags _ _ _ Hl) as (f & Hok & -> & _).
  destruct (next_transition_inv Issue f action actor number m Hok Hm) as (f' & mb & Hmb & Hs & Hok' & Ha & _).
  rewrite Ha, status_of_encode in Hc. rewrite status_of_encode in IH. unfold moves_open.
  destruct f as [[] [] [] []]; try discriminate Hok; destruct action, actor; try discriminate Hm;
    injection Hm as <-; injection Hmb as <-; simpl in Hs; simplify_eq; try discriminate Hc; simpl in Hk, IH;
    first [exists h, t, []; split_and!; [done|done|constructor]
          |destruct IH as (h1 & t' & h2 & -> & Ht' & Hh2); [reflexivity|];
           exists h1, t', (h2 ++ [t]); split_and!;
             [by rewrite <-app_assoc|done|apply Forall_app; split; [exact Hh2|apply Forall_singleton; by rewrite Hk]]].
Qed.

(** A closed issue's reason is its last close's: with the transitions in order, an
    open issue has none, and a closed one the reason (if any, in range) of a close that
    nothing but locks follows; a duplicate's number counts only for that reason, is
    never the issue's own and never zero. *)
Theorem current_close_reason_spec h sum number :
  legal Issue h sum -> StronglySorted (fun a b => tr_cmp a b <> Gt) h ->
  if ss_open (status_of_code sum) then current_close_reason h number = None
  else exists h1 t h2, h = h1 ++ t :: h2 /\ tr_kind t = ISSUE_CLOSE
    /\ Forall (fun x => moves_open x = false) h2
    /\ match current_close_reason h number with
       | Some ca => tr_reason t = Some (reason_code (ca_reason ca))
           /\ forall d, ca_duplicate_of ca = Some d ->
                ca_reason ca = Duplicate /\ tr_dup_number t = Some d /\ d <> number /\ d <> 0%N
       | None => forall r, tr_reason t <> Some (reason_code r)
       end.
Proof.
  intros Hl Hs. destruct (legal_flags _ _ _ Hl) as (f & Hok & -> & Hsum).
  assert (state_code h = if fl_closed f then 1%Z else 0%Z) as Hcode.
  { unfold state_code. rewrite Hsum, fold_encode. by destruct f as [[] [] [] []]. }
  unfold current_close_reason. rewrite Hcode.
  destruct (ss_open (status_of_code (encode f))) eqn:Ho; rewrite status_of_encode in Ho.
  { by destruct f as [[] [] [] []]. }
  destruct (legal_last_close h (encode f) Hl) as (h1 & t & h2 & -> & Hk & Hh2); [by rewrite status_of_encode|].
  exists h1, t, h2. split_and!; [done..|].
  assert (fl_closed f = true) as -> by by destruct f as [[] [] [] []]. simpl.
  assert (max_by tr_cmp (List.filter moves_open (h1 ++ t :: h2)) = Some t) as ->.
  { rewrite max_by_last_sort by apply tr_cmp_ord. rewrite <-sort_by_filter, sort_by_id by first [apply tr_cmp_ord|done].
    rewrite List.filter_app. simpl. unfold moves_open at 2. rewrite Hk. simpl.
    rewrite (filter_none _ h2); [apply last_snoc|]. by apply Forall_forall. }
  simpl. unfold close_reason_of. rewrite Hk. simpl. destruct (tr_reason t) as [code|]; [|done]. simpl.
  destruct (reason_from_code code) as [r|] eqn:Hr; simpl.
  - split.
    + f_equal. destruct code as [|[[p|p|]|[p|p|]|]]; simpl in Hr; try discriminate Hr; by injection Hr as <-.
    + intros d Hd. destruct (tr_dup_number t) as [d'|]; simpl in Hd; [|done].
      destruct ((r == Duplicate) && negb (d' =? number)%N && negb (d' =? 0)%N) eqn:E; simplify_eq.
      apply andb_true_iff in E as [[->%bool_decide_eq_true H1]%andb_true_iff H2].
      rewrite negb_true_iff, N.eqb_neq in H1, H2. done.
  - intros r [= ->]. by destruct r.
Qed.

Lemma legal_history_state_witness :
  legal Issue [mkTransition "a" 1 "x" None 0 10 (Some 2%N) None None] 1
  /\ state_code [mkTransition "a" 1 "x" None 0 10 (Some 2%N) None None] ∈ [0; 1]%Z.
Proof.
  assert (legal Issue [mkTransition "a" 1 "x" None 0 10 (Some 2%N) None None] 1) as H.
  { refine (legal_snoc Issue [] 0 _ Close Member 5 (mkTransitionMove ISSUE_CLOSE 1 0 0 1) (legal_nil _) _ _ _);
      reflexivity. }
  destruct (legal_history_state Issue _ 1 H) as (f & _ & _ & _ & _ & _ & Hc). by split.
Defined.

(** A merged request, then locked. *)
Definition merge_doc : Transition := mkTransition "a" PR_MERGE "x" (Some "c0ffee") 0 10 None None None.
Definition lock_doc : Transition := mkTransition "b" PR_LOCK "x" None 0 20 None None None.

Lemma legal_merged : legal Patch [merge_doc] 2.
Proof.
  refine (legal_snoc Patch [] 0 _ Merge Member 5 (mkTransitionMove PR_MERGE 2 1 0 2) (legal_nil _) _ _ _); reflexivity.
Qed.

Lemma legal_merged_locked : legal Patch ([merge_doc] ++ [lock_doc]) 18.
Proof.
  refine (legal_snoc Patch [merge_doc] 2 _ Lock Member 5 (mkTransitionMove PR_LOCK 16 1 0 18) legal_merged _ _ _);
    reflexivity.
Qed.

Lemma merge_is_final_witness : ss_merged (status_of_code 18) = true /\ ss_open (status_of_code 18) = false.
Proof.
  destruct (merge_is_final [merge_doc] [lock_doc] 2 18 legal_merged eq_refl legal_merged_locked)
    as (? & ? & _). by split.
Defined.

Lemma repo_counts_exact_witness :
  repo_counts 0 1 {[PR_MERGE := 1%N; PR_LOCK := 1%N]}
  = mkRepoCounts 0 0 0 0 (count_where (status_is ss_merged) [([merge_doc; lock_doc], 18%Z)]) 0.
Proof.
  rewrite (repo_counts_exact [] [([merge_doc; lock_doc], 18%Z)] {[PR_MERGE := 1%N; PR_LOCK := 1%N]}).
  - reflexivity.
  - constructor.
  - constructor; [apply legal_merged_locked|constructor].
  - intros k. unfold kinds_of, sum_of, count_kind. simpl.
    destruct (decide (k = PR_MERGE)) as [->|H1]; [reflexivity|].
    rewrite lookup_insert_ne by done. destruct (decide (k = PR_LOCK)) as [->|H2]; [reflexivity|].
    rewrite lookup_singleton_ne by done. apply N.eqb_neq in H1, H2. rewrite N.eqb_sym in H1, H2.
    simpl in H1, H2. by rewrite H1, H2.
  - vm_compute. discriminate.
Defined.

(** An issue closed as a duplicate of #3. *)
Definition close_doc : Transition := mkTransition "a" ISSUE_CLOSE "x" None 0 10 (Some 3%N) (Some 3%N) None.

Lemma current_close_reason_spec_witness :
  exists t, tr_kind t = ISSUE_CLOSE /\ current_close_reason [close_doc] 8 = Some (mkClosedAs Duplicate (Some 3%N)).
Proof.
  assert (legal Issue [close_doc] 1) as Hl.
  { refine (legal_snoc Issue [] 0 _ Close Member 8 (mkTransitionMove ISSUE_CLOSE 1 0 0 1) (legal_nil _) _ _ _);
      reflexivity. }
  destruct (current_close_reason_spec [close_doc] 1 8 Hl ltac:(by repeat constructor))
    as (h1 & t & h2 & _ & Hk & _). by exists t.
Defined.
