(* ===== verification/Members.v ===== *)
(** Membership ([rules/v2.rs]): the roles, their stored codes and names, and the oracle
    that answers what an identity was from the current membership documents. *)
From S2P Require Import Prelude.

(** ** Definitions *)

(** Best first. *)
Inductive Role := Maintainer | Writer | Triage | Reader | Bot.

#[export] Instance Role_eq_dec : EqDecision Role.
Proof. solve_decision. Defined.

Definition ALL_ROLES : list Role := [Maintainer; Writer; Triage; Reader; Bot].

(** The derived order, by declaration. *)
Definition role_index (r : Role) : N :=
  match r with Maintainer => 0 | Writer => 1 | Triage => 2 | Reader => 3 | Bot => 4 end.
Definition role_cmp : Role -> Role -> comparison := cmp_on role_index N.compare.

Definition writer_role_code (r : Role) : option N :=
  match r with
  | Maintainer => None | Writer => Some 1%N | Triage => Some 2%N | Reader => Some 3%N | Bot => Some 4%N
  end.

Definition from_writer_role_code (code : option N) : option Role :=
  match code with
  | None | Some 1%N => Some Writer
  | Some 2%N => Some Triage
  | Some 3%N => Some Reader
  | Some 4%N => Some Bot
  | Some _ => None
  end.

Definition is_approver (r : Role) : bool := match r with Maintainer | Writer => true | _ => false end.

Definition role_label (r : Role) : string :=
  match r with Maintainer => "Maintain" | Writer => "Write" | Triage => "Triage" | Reader => "Read" | Bot => "Bot" end.

Definition role_as_str (r : Role) : string :=
  match r with
  | Maintainer => "maintainer" | Writer => "writer" | Triage => "triage" | Reader => "reader" | Bot => "bot"
  end.

Definition role_noun (r : Role) : string :=
  match r with
  | Maintainer => "a maintainer" | Writer => "a writer" | Triage => "a triage member"
  | Reader => "a reader" | Bot => "a bot"
  end.

Definition role_parse (name : string) : option Role := List.find (fun r => role_as_str r == name) ALL_ROLES.

Record Membership := mkMembership {
  ms_identity : string;
  ms_role : Role;
  ms_created_at : N
}.

(** The repository's current membership documents. *)
Definition RoleOracle := list Membership.

Definition role_at (oracle : RoleOracle) (identity : string) (at_ : N) : option Role :=
  min_by role_cmp
    (map ms_role (List.filter (fun m => (ms_identity m == identity) && (ms_created_at m <=? at_)%N) oracle)).

Definition member_at (oracle : RoleOracle) (identity : string) (at_ : N) : bool :=
  is_some_and (role_at oracle identity at_) (fun _ => true).

Definition approver_at (oracle : RoleOracle) (identity : string) (at_ : N) : bool :=
  is_some_and (role_at oracle identity at_) is_approver.

Definition current_approver (oracle : RoleOracle) (identity : string) : bool := approver_at oracle identity u64_max.

Definition current_role (oracle : RoleOracle) (identity : string) : option Role := role_at oracle identity u64_max.

(** ** Helper lemmas *)

#[export] Instance role_cmp_ord : CmpOrd role_cmp.
Proof. unfold role_cmp. apply _. Qed.

Lemma role_cmp_le r s : role_cmp r s <> Gt <-> (role_index r <= role_index s)%N.
Proof. apply N.compare_le_iff. Qed.

Lemma role_index_inj r s : role_index r = role_index s -> r = s.
Proof. by destruct r, s. Qed.

(** The membership document [m] speaks for [identity] at [at_]. *)
Definition speaks_for (identity : string) (at_ : N) (m : Membership) : Prop :=
  ms_identity m = identity /\ (ms_created_at m <= at_)%N.

Lemma role_at_facts oracle identity at_ :
  match role_at oracle identity at_ with
  | Some r => (exists m, (m ∈ oracle) /\ speaks_for identity at_ m /\ ms_role m = r)
      /\ forall m, m ∈ oracle -> speaks_for identity at_ m -> (role_index r <= role_index (ms_role m))%N
  | None => forall m, m ∈ oracle -> ~ speaks_for identity at_ m
  end.
Proof.
  unfold role_at.
  assert (forall r, r ∈ map ms_role (List.filter (fun m => (ms_identity m == identity) && (ms_created_at m <=? at_)%N) oracle)
    <-> exists m, (m ∈ oracle) /\ speaks_for identity at_ m /\ ms_role m = r) as Hin.
  { intros r. rewrite list_elem_of_In, in_map_iff. setoid_rewrite filter_In. setoid_rewrite andb_true_iff.
    setoid_rewrite bool_decide_eq_true. setoid_rewrite N.leb_le. setoid_rewrite <-list_elem_of_In.
    unfold speaks_for. split; intros (m & H); exists m; tauto. }
  destruct (min_by _ _) as [r|] eqn:Hm.
  - apply min_by_Some in Hm as [Hr Hmin]; [|apply _]. split; [by apply Hin|].
    intros m Hm Hs. apply role_cmp_le, Hmin, Hin. by exists m.
  - apply min_by_None in Hm. intros m Hmo Hs. apply (not_elem_of_nil (ms_role m)). rewrite <-Hm. apply Hin. by exists m.
Qed.

Lemma approver_at_iff oracle identity at_ :
  approver_at oracle identity at_ = true <->
  exists m, (m ∈ oracle) /\ speaks_for identity at_ m /\ is_approver (ms_role m) = true.
Proof.
  unfold approver_at. pose proof (role_at_facts oracle identity at_) as Hf.
  destruct (role_at oracle identity at_) as [r|]; simpl; [|split; [done|intros (m & Hm & Hs & _); exfalso; exact (Hf m Hm Hs)]].
  destruct Hf as [(m & Hm & Hs & Hr) Hmin]. split; [intros Ha; exists m; rewrite Hr; by split_and!|].
  intros (m' & Hm' & Hs' & Ha). specialize (Hmin m' Hm' Hs'). destruct r, (ms_role m'); simpl in *; try done; lia.
Qed.

(** ** Theorems *)

(** An identity's role is the best one a current document of an earlier or equal
    time gives it; it is an approver exactly when some such document makes it a
    maintainer or a writer; a later document, or one of someone else, never matters; and
    membership, once there, lasts. *)
Theorem role_at_spec oracle identity at_ :
  (match role_at oracle identity at_ with
   | Some r => (exists m, (m ∈ oracle) /\ speaks_for identity at_ m /\ ms_role m = r)
       /\ forall m, m ∈ oracle -> speaks_for identity at_ m -> (role_index r <= role_index (ms_role m))%N
   | None => forall m, m ∈ oracle -> ~ speaks_for identity at_ m
   end)
  /\ (approver_at oracle identity at_ = true <->
      exists m, (m ∈ oracle) /\ speaks_for identity at_ m /\ is_approver (ms_role m) = true)
  /\ (forall later, (at_ <= later)%N -> approver_at oracle identity at_ = true -> approver_at oracle identity later = true)
  /\ (forall m, ~ speaks_for identity at_ m -> role_at (m :: oracle) identity at_ = role_at oracle identity at_).
Proof.
  split_and!; [apply role_at_facts|apply approver_at_iff| |].
  - intros later Hle. rewrite !approver_at_iff. intros (m & Hm & [? ?] & Ha). exists m.
    split_and!; [done|split; [done|lia]|done].
  - intros m Hn. unfold role_at. simpl.
    assert ((ms_identity m == identity) && (ms_created_at m <=? at_)%N = false) as ->; [|done].
    apply not_true_iff_false. rewrite andb_true_iff, bool_decide_eq_true, N.leb_le. exact Hn.
Qed.

(** The stored role codes and the role names round-trip, an absent code is a writer,
    a code above 4 is no role, and a name that is not a role's is refused. *)
Theorem role_codes_roundtrip :
  (forall r, r <> Maintainer -> from_writer_role_code (writer_role_code r) = Some r)
  /\ (forall code r, from_writer_role_code (Some code) = Some r -> writer_role_code r = Some code)
  /\ from_writer_role_code None = Some Writer
  /\ (forall code, (4 < code)%N -> from_writer_role_code (Some code) = None)
  /\ (forall r, role_parse (role_as_str r) = Some r)
  /\ (forall name r, role_parse name = Some r -> role_as_str r = name).
Proof.
  split_and!.
  - by intros [].
  - intros code r. destruct code as [|[[p|p|]|[[p|p|]|[p|p|]|]|]]; simpl; intros H; try discriminate H;
      by injection H as <-.
  - done.
  - intros code Hc. destruct code as [|[[p|p|]|[[p|p|]|[p|p|]|]|]]; simpl; try done; lia.
  - by intros [].
  - intros name r Hr. unfold role_parse in Hr. apply find_some in Hr as [_ Hr]. by apply bool_decide_eq_true in Hr.
Qed.
