(* ===== verification/Embargo.v ===== *)
(** Publication dates of coordinated fixes ([rules/embargo.rs]): the value a member event of
    kind 28 carries and its canonical form, which records count, the embargo of each
    target and the checklist of its release. *)
From S2P Require Import Wire.
From S2P Require Import Prelude Text Names Members.

Definition EMBARGO_KIND : N := 28.
Definition VALUE_MAX : N * N := (120, 480)%N.
Definition VERSION : N := 1.
Definition AT_MAX : N := 2 ^ 53 - 1.

Record EmbargoPlan := mkEmbargoPlan {
  ep_at : N;
  ep_pr : option N;
  ep_branch : option string;
  ep_onto : option string;
  ep_tag : option string;
  ep_message : option string
}.

Inductive EmbargoValue :=
| Schedule (plan : EmbargoPlan)
| Cancel
| Done (commit : string).

(** The value's wire form. *)
Record WireValue := mkWireValue {
  wv_v : N;
  wv_at : option N;
  wv_pr : option N;
  wv_b : option string;
  wv_o : option string;
  wv_t : option string;
  wv_m : option string;
  wv_cancel : option bool;
  wv_done : option string
}.

#[export] Instance EmbargoPlan_eq_dec : EqDecision EmbargoPlan.
Proof. solve_decision. Defined.
#[export] Instance EmbargoValue_eq_dec : EqDecision EmbargoValue.
Proof. solve_decision. Defined.
#[export] Instance WireValue_eq_dec : EqDecision WireValue.
Proof. solve_decision. Defined.

(** What [encode] refuses, one constructor per message. *)
Inductive PlanProblem :=
| DateMissing
| DateOutOfRange
| PullRequestZero
| NotABranchName (name : string)
| OntoItself
| PrNamesBranch
| NothingToPublish
| NoPublicBranch
| NotATagName (name : string)
| MessageEmpty
| MessageControl
| NotACommit (commit : string)
| TooLong (chars : N).

Definition plan_branch_name (name : string) : bool :=
  negb (starts_with "refs/" name) && is_legal_ref_name ("refs/heads/" +:+ name).

Definition plan_tag_name (name : string) : bool :=
  negb (starts_with "refs/" name) && is_legal_ref_name ("refs/tags/" +:+ name).

Definition lower_hex_digit (b : Ascii.ascii) : bool := is_digit b || in_range "a"%char "f"%char b.

Definition is_commit (hex : string) : bool :=
  ((String.length hex =? 40) || (String.length hex =? 64)) && forallb lower_hex_digit (bytes hex).

Definition line_feed : Ascii.ascii := Ascii.ascii_of_N 10.

Definition blank_message (m : string) : bool :=
  forallb (fun c => (c == " "%char) || (c == line_feed)) (bytes m).

(** A character of the message is a control character other than a line feed. *)
Definition controls_in (m : string) : bool :=
  existsb (fun c => has_control c && (c != [line_feed])) (chars (bytes m)).

Definition what_problem (pr : option N) (branch onto : option string) : option PlanProblem :=
  match pr, branch, onto with
  | Some 0%N, _, _ => Some PullRequestZero
  | Some _, None, None => None
  | None, Some b, Some o =>
    if negb (plan_branch_name b) then Some (NotABranchName b)
    else if negb (plan_branch_name o) then Some (NotABranchName o)
    else if b == o then Some OntoItself else None
  | Some _, _, _ => Some PrNamesBranch
  | None, None, _ => Some NothingToPublish
  | None, Some _, None => Some NoPublicBranch
  end.

Definition tag_problem (tag : option string) : option PlanProblem :=
  match tag with Some t => if plan_tag_name t then None else Some (NotATagName t) | None => None end.

Definition message_problem (message : option string) : option PlanProblem :=
  match message with
  | Some m => if blank_message m then Some MessageEmpty else if controls_in m then Some MessageControl else None
  | None => None
  end.

Definition plan_problem (plan : EmbargoPlan) : option PlanProblem :=
  if (ep_at plan =? 0)%N then Some DateMissing
  else if (AT_MAX <? ep_at plan)%N then Some DateOutOfRange
  else match what_problem (ep_pr plan) (ep_branch plan) (ep_onto plan) with
  | Some why => Some why
  | None =>
    match tag_problem (ep_tag plan) with
    | Some why => Some why
    | None => message_problem (ep_message plan)
    end
  end.

Definition wire_of (value : EmbargoValue) : WireValue :=
  match value with
  | Schedule p =>
    mkWireValue VERSION (Some (ep_at p)) (ep_pr p) (ep_branch p) (ep_onto p) (ep_tag p) (ep_message p) None None
  | Cancel => mkWireValue VERSION None None None None None None (Some true) None
  | Done commit => mkWireValue VERSION None None None None None None None (Some commit)
  end.

Section json.
(** [serde_json]: the canonical text of a wire value, and its reader. *)
Context (to_json : WireValue -> string) (from_json : string -> option WireValue).

Definition encode (value : EmbargoValue) : string + PlanProblem :=
  let problem := match value with
               | Schedule p => plan_problem p
               | Done commit => if is_commit commit then None else Some (NotACommit commit)
               | Cancel => None
               end in
  match problem with
  | Some why => inr why
  | None =>
  let s := to_json (wire_of value) in
  let count := N.of_nat (length (chars (bytes s))) in
  if (VALUE_MAX.1 <? count)%N || (VALUE_MAX.2 <? N.of_nat (String.length s))%N then inr (TooLong count)
  else inl s
  end.

Definition value_of_wire (w : WireValue) : option EmbargoValue :=
  let no_plan := (wv_pr w == None) && (wv_b w == None) && (wv_o w == None) && (wv_t w == None) && (wv_m w == None) in
  match wv_at w, wv_cancel w, wv_done w with
  | Some at_, None, None =>
  Some (Schedule (mkEmbargoPlan at_ (wv_pr w) (wv_b w) (wv_o w) (wv_t w) (wv_m w)))
  | None, Some true, None => if no_plan then Some Cancel else None
  | None, None, Some commit => if no_plan then Some (Done commit) else None
  | _, _, _ => None
  end.

Definition parse (text : string) : option EmbargoValue :=
  w ← from_json text;
  if (wv_v w != VERSION) then None
  else
  value ← value_of_wire w;
  match encode value with
  | inl canonical => if canonical == text then Some value else None
  | inr _ => None
  end.
End json.

Record EmbargoEvent := mkEmbargoEvent {
  ee_id : string;
  ee_repo_id : string;
  ee_target_id : string;
  ee_target_number : N;
  ee_kind : N;
  ee_ref_id : option string;
  ee_value : option string;
  ee_actor : string;
  ee_created_at : N
}.

Record EmbargoRecord := mkEmbargoRecord {
  er_id : string;
  er_target_id : string;
  er_number : N;
  er_value : EmbargoValue;
  er_actor : string;
  er_created_at : N
}.

#[export] Instance EmbargoRecord_eq_dec : EqDecision EmbargoRecord.
Proof. solve_decision. Defined.

Definition embargo_record to_json from_json (repo_id : string) (e : EmbargoEvent) : option EmbargoRecord :=
  if negb (ee_kind e =? EMBARGO_KIND)%N || (ee_repo_id e != repo_id) || (ee_ref_id e != Some repo_id) then None
  else
    number ← opt_filter (fun n => (0 <? n)%N) (u32_try_from (ee_target_number e));
    text ← ee_value e;
    value ← parse to_json from_json text;
    Some (mkEmbargoRecord (ee_id e) (ee_target_id e) number value (ee_actor e) (ee_created_at e)).

Definition record_counts (rec : EmbargoRecord) (owner : string) (oracle : RoleOracle) : bool :=
  negb (match er_value rec with Schedule _ => true | _ => false end)
  || (er_actor rec == owner)
  || approver_at oracle (er_actor rec) (er_created_at rec).

Inductive EmbargoState :=
| Scheduled
| Cancelled (by_ : string) (at_ : N)
| Published (commit by_ : string) (at_ : N).

#[export] Instance EmbargoState_eq_dec : EqDecision EmbargoState.
Proof. solve_decision. Defined.

Record Embargo := mkEmbargo {
  em_target_id : string;
  em_number : N;
  em_plan : EmbargoPlan;
  em_set_by : string;
  em_set_at : N;
  em_id : string;
  em_state : EmbargoState
}.

Definition due (e : Embargo) (now : N) : bool := (em_state e == Scheduled) && (ep_at (em_plan e) <=? now)%N.

Definition record_cmp : EmbargoRecord -> EmbargoRecord -> comparison :=
  cmp_then (cmp_on er_created_at N.compare) (cmp_on er_id String.compare).

Definition schedule_of (r : EmbargoRecord) : option EmbargoPlan :=
  match er_value r with Schedule plan => Some plan | _ => None end.

Definition end_of (r : EmbargoRecord) : option EmbargoState :=
  match er_value r with
  | Cancel => Some (Cancelled (er_actor r) (er_created_at r))
  | Done commit => Some (Published commit (er_actor r) (er_created_at r))
  | Schedule _ => None
  end.

(** The last schedule of the sorted records, with the records after it. *)
Fixpoint last_schedule (mine : list EmbargoRecord) : option (EmbargoRecord * EmbargoPlan * list EmbargoRecord) :=
  match mine with
  | [] => None
  | r :: rest =>
    match last_schedule rest with
    | Some found => Some found
    | None => plan ← schedule_of r; Some (r, plan, rest)
    end
  end.

Definition embargo_of (target_id : string) (records : list EmbargoRecord) : option Embargo :=
  let mine := sort_by record_cmp (List.filter (fun r => er_target_id r == target_id) records) in
  '(s, plan, later) ← last_schedule mine;
  Some (mkEmbargo (er_target_id s) (er_number s) plan (er_actor s) (er_created_at s) (er_id s)
          (default Scheduled (head (omap end_of later)))).

Definition embargo_cmp : Embargo -> Embargo -> comparison :=
  cmp_then (cmp_on em_number N.compare) (cmp_on em_target_id String.compare).

(** [sort_unstable] and [dedup] of the target ids. *)
Definition embargoes (records : list EmbargoRecord) : list Embargo :=
  let targets := btree_elems (list_to_set (map er_target_id records)) in
  sort_by embargo_cmp (omap (fun t => embargo_of t records) targets).

Inductive Step :=
| MakePublic (issue : N)
| Publish
| Tag (tag : string)
| Release (tag : string).

Record Facts := mkFacts {
  ft_issue_public : option bool;
  ft_published : option bool;
  ft_tagged : option bool;
  ft_released : option bool
}.

Record ChecklistItem := mkChecklistItem { ci_step : Step; ci_done : bool }.

Definition checklist (e : Embargo) (target_is_issue : bool) (facts : Facts) : list ChecklistItem :=
  let complete := match em_state e with Published _ _ _ => true | _ => false end in
  let item step fact := mkChecklistItem step (complete || (fact == Some true)) in
  (if target_is_issue then [item (MakePublic (em_number e)) (ft_issue_public facts)] else [])
  ++ [item Publish (ft_published facts)]
  ++ match ep_tag (em_plan e) with
     | Some t => [item (Tag t) (ft_tagged facts); item (Release t) (ft_released facts)]
     | None => []
     end.

(** ** The values *)

(** A plan: a date, one thing to publish, and legal names and message. *)
Definition plan_ok (p : EmbargoPlan) : Prop :=
  (0 < ep_at p <= AT_MAX)%N
  /\ ((exists n, ep_pr p = Some n /\ n <> 0%N /\ ep_branch p = None /\ ep_onto p = None)
      \/ (exists b o, ep_pr p = None /\ ep_branch p = Some b /\ ep_onto p = Some o
            /\ plan_branch_name b = true /\ plan_branch_name o = true /\ b <> o))
  /\ (forall t, ep_tag p = Some t -> plan_tag_name t = true)
  /\ (forall m, ep_message p = Some m -> blank_message m = false /\ controls_in m = false).

Definition value_ok (v : EmbargoValue) : Prop :=
  match v with
  | Schedule p => plan_ok p
  | Cancel => True
  | Done commit => is_commit commit = true
  end.

Lemma what_problem_None pr b o :
  what_problem pr b o = None <->
  (exists n, pr = Some n /\ n <> 0%N /\ b = None /\ o = None)
  \/ (exists b' o', pr = None /\ b = Some b' /\ o = Some o'
        /\ plan_branch_name b' = true /\ plan_branch_name o' = true /\ b' <> o').
Proof.
  unfold what_problem. destruct pr as [[|n]|], b as [b|], o as [o|]; simpl; try naive_solver.
  destruct (plan_branch_name b) eqn:?, (plan_branch_name o) eqn:?; simpl; try naive_solver.
  all: split; [try case_bool_decide; try done; intros _; right; by exists b, o|].
  all: intros [(? & ? & _)|(b' & o' & _ & [= <-] & [= <-] & ? & ? & ?)]; [done|].
  all: try rewrite bool_decide_eq_false_2; congruence.
Qed.

Lemma tag_problem_None tag : tag_problem tag = None <-> forall t, tag = Some t -> plan_tag_name t = true.
Proof. destruct tag as [t|]; simpl; [|done]. destruct (plan_tag_name t) eqn:E; split; try done; [by intros _ ? [= <-]|].
  intros H. by rewrite (H t) in E.
Qed.

Lemma message_problem_None message :
  message_problem message = None <->
  forall m, message = Some m -> blank_message m = false /\ controls_in m = false.
Proof.
  destruct message as [m|]; simpl; [|done].
  destruct (blank_message m) eqn:E, (controls_in m) eqn:E'; split; try done; try (by intros _ ? [= <-]).
  all: intros H; destruct (H m eq_refl); congruence.
Qed.

Lemma plan_problem_None p : plan_problem p = None <-> plan_ok p.
Proof.
  unfold plan_problem, plan_ok. rewrite <-what_problem_None, <-tag_problem_None, <-message_problem_None.
  destruct (N.eqb_spec (ep_at p) 0); [split; [done|lia]|].
  destruct (N.ltb_spec AT_MAX (ep_at p)); [split; [done|lia]|].
  destruct (what_problem _ _ _); [split; [done|by intros (_ & ? & _)]|].
  destruct (tag_problem _); [split; [done|by intros (_ & _ & ? & _)]|].
  split; [intros ->; split_and!; (done || lia)|by intros (_ & _ & _ & ?)].
Qed.

Lemma wire_roundtrip v : value_of_wire (wire_of v) = Some v.
Proof. by destruct v as [[]| |]. Qed.

Section values.
Context (to_json : WireValue -> string) (from_json : string -> option WireValue).

Lemma encode_spec v text :
  encode to_json v = inl text <->
  value_ok v /\ text = to_json (wire_of v)
  /\ (N.of_nat (length (chars (bytes text))) <= 120)%N /\ (N.of_nat (String.length text) <= 480)%N.
Proof.
  assert (forall (problem : option PlanProblem), (problem = None <-> value_ok v) ->
    (match problem with
    | Some why => inr why
    | None =>
    let s := to_json (wire_of v) in
    let count := N.of_nat (length (chars (bytes s))) in
    if (VALUE_MAX.1 <? count)%N || (VALUE_MAX.2 <? N.of_nat (String.length s))%N then inr (TooLong count)
    else inl s
    end = inl text <-> value_ok v /\ text = to_json (wire_of v)
    /\ (N.of_nat (length (chars (bytes text))) <= 120)%N /\ (N.of_nat (String.length text) <= 480)%N)) as Hp.
  { intros problem Hv. destruct problem as [why|]; [split; [done|intros (? & _); by apply Hv in H]|].
    cbv zeta. destruct (N.ltb_spec VALUE_MAX.1 (N.of_nat (length (chars (bytes (to_json (wire_of v))))))) as [H|H],
      (N.ltb_spec VALUE_MAX.2 (N.of_nat (String.length (to_json (wire_of v))))) as [H'|H']; simpl in *.
    1-3: split; [done|intros (_ & -> & ? & ?); lia].
    split; [intros [= <-]; split_and!; [by apply Hv|done|done|done]|by intros (_ & -> & _)]. }
  unfold encode. apply Hp. destruct v as [p| |c]; simpl; [apply plan_problem_None|done|].
  destruct (is_commit c); done.
Qed.

(** A stored publication date has one meaning and one form: a value is stored only when
  it is well formed (a date in range; one pull request, or one branch and another it goes
  onto; legal names and message; a commit id) and fits the field, as its canonical text;
  and a text is read as a value exactly when it is that value's canonical text, so no
  other spelling of it is a record. *)
Theorem embargo_value_canonical v text (Hjson : from_json (to_json (wire_of v)) = Some (wire_of v)) :
  (encode to_json v = inl text <->
   value_ok v /\ text = to_json (wire_of v)
   /\ (N.of_nat (length (chars (bytes text))) <= 120)%N /\ (N.of_nat (String.length text) <= 480)%N)
  /\ (parse to_json from_json text = Some v <-> encode to_json v = inl text).
Proof.
  split; [apply encode_spec|]. unfold parse. split.
  - destruct (from_json text) as [w|]; simpl; [|done]. destruct (wv_v w != VERSION); [done|].
    destruct (value_of_wire w) as [v'|]; simpl; [|done]. destruct (encode to_json v') as [canonical|] eqn:E; [|done].
    case_bool_decide; [|done]. intros [= ->]. congruence.
  - intros E. pose proof E as (_ & -> & _)%encode_spec. rewrite Hjson. cbn [mbind option_bind].
    assert ((wv_v (wire_of v) != VERSION) = false) as -> by by destruct v.
    rewrite wire_roundtrip. cbn [mbind option_bind]. rewrite E. by rewrite bool_decide_eq_true_2.
Qed.
End values.

(** ** The embargo of a target *)

#[export] Instance record_cmp_ord : CmpOrd record_cmp.
Proof. unfold record_cmp. apply _. Qed.

Lemma last_schedule_spec mine :
  match last_schedule mine with
  | Some (s, plan, later) => exists before, mine = before ++ s :: later /\ schedule_of s = Some plan
      /\ forall r, r ∈ later -> schedule_of r = None
  | None => forall r, r ∈ mine -> schedule_of r = None
  end.
Proof.
  induction mine as [|r mine IH]; simpl; [by intros r ?%not_elem_of_nil|].
  destruct (last_schedule mine) as [[[s plan] later]|].
  - destruct IH as (before & -> & ? & ?). by exists (r :: before).
  - destruct (schedule_of r) as [plan|] eqn:E; simpl; [by exists []|].
    intros q [->|?]%elem_of_cons; auto.
Qed.

Lemma schedule_of_Some r plan : schedule_of r = Some plan <-> er_value r = Schedule plan.
Proof. unfold schedule_of. destruct (er_value r); naive_solver. Qed.

Lemma end_of_schedule r : is_Some (end_of r) <-> schedule_of r = None.
Proof. unfold end_of, schedule_of. destruct (er_value r); split; intros H; try done; by destruct H. Qed.

(** The records of a target, each no later than the next. *)
Definition about (target_id : string) (records : list EmbargoRecord) (r : EmbargoRecord) : Prop :=
  (r ∈ records) /\ er_target_id r = target_id.

Lemma elem_of_mine target_id records r :
  r ∈ sort_by record_cmp (List.filter (fun r => er_target_id r == target_id) records) <-> about target_id records r.
Proof. by rewrite elem_of_sort_by, list_elem_of_In, filter_In, <-list_elem_of_In, bool_decide_eq_true. Qed.

Abbreviation not_after := (fun a b => record_cmp a b <> Gt).

Lemma sorted_around (before later : list EmbargoRecord) s r :
  StronglySorted not_after (before ++ s :: later) -> r ∈ before ++ s :: later ->
  (record_cmp r s <> Gt /\ (r ∉ later)) \/ (r ∈ later /\ record_cmp s r <> Gt).
Proof.
  intros (Hb & _ & [_ Hl]%StronglySorted_inv)%StronglySorted_app Hr. rewrite Forall_forall in Hl.
  destruct (decide (r ∈ later)) as [|Hn]; [right; split; [done|by apply Hl]|left].
  split; [|done]. apply elem_of_app in Hr as [Hr|[->|?]%elem_of_cons]; [|by rewrite cmp_refl by apply _|done].
  apply Hb; [done|left].
Qed.

(** A target's embargo is its newest schedule and what became of it: no schedule of the
    target is newer than the one it names, whose plan, writer and time it carries; it waits
    only while no withdrawal or completion of the target is newer; and it is withdrawn or
    published by a record of the target no older than the schedule, the first of those
    after it. A target without a schedule has no embargo. *)
Theorem embargo_of_spec target_id records :
  match embargo_of target_id records with
  | None => forall r, about target_id records r -> schedule_of r = None
  | Some e => exists s plan,
      about target_id records s /\ er_value s = Schedule plan
      /\ (forall r, about target_id records r -> is_Some (schedule_of r) -> record_cmp r s <> Gt)
      /\ e = mkEmbargo target_id (er_number s) plan (er_actor s) (er_created_at s) (er_id s) (em_state e)
      /\ ((em_state e = Scheduled
            /\ forall r, about target_id records r -> is_Some (end_of r) -> record_cmp r s <> Gt)
          \/ exists r, about target_id records r /\ end_of r = Some (em_state e) /\ record_cmp s r <> Gt
              /\ forall r', about target_id records r' -> is_Some (end_of r') -> record_cmp s r' = Lt ->
                   record_cmp r r' <> Gt)
  end.
Proof.
  unfold embargo_of. set (mine := sort_by _ _). pose proof (last_schedule_spec mine) as Hs.
  assert (forall r, r ∈ mine <-> about target_id records r) as Hmine by apply elem_of_mine.
  assert (StronglySorted not_after mine) as Hsort by (apply sort_by_sorted, _).
  destruct (last_schedule mine) as [[[s plan] later]|]; cbn [mbind option_bind].
  2:{ intros r. rewrite <-Hmine. apply Hs. }
  destruct Hs as (before & Heq & Hplan & Hlater). rewrite Heq in Hsort, Hmine.
  pose proof (fun r => sorted_around before later s r Hsort) as Har.
  assert (about target_id records s) as Hsa by (apply Hmine; set_solver).
  exists s, plan. split_and!; [done|by apply schedule_of_Some| | |].
  - intros r Hr%Hmine [p Hp]. destruct (Har r Hr) as [[? _]|[Hl%Hlater _]]; [done|congruence].
  - destruct Hsa as [_ <-]. done.
  - cbn [em_state]. destruct (head (omap end_of later)) as [st|] eqn:Eh; [right|left]; cbn [default].
    + assert (exists l1 r l2, later = l1 ++ r :: l2 /\ end_of r = Some st /\ forall z, z ∈ l1 -> end_of z = None)
        as (l1 & r & l2 & -> & Hr & Hl1).
      { clear - Eh. induction later as [|r later IH]; [done|]. simpl in Eh. destruct (end_of r) eqn:Er.
        - injection Eh as ->. exists [], r, later. split_and!; [done..|]. by intros ? ?%not_elem_of_nil.
        - destruct IH as (l1 & q & l2 & -> & ? & ?); [done|]. exists (r :: l1), q, l2. split_and!; [done..|].
          intros z [->|?]%elem_of_cons; auto. }
      assert (StronglySorted not_after (l1 ++ r :: l2)) as Hls.
      { apply StronglySorted_app in Hsort as (_ & _ & [? _]%StronglySorted_inv). done. }
      exists r. split_and!; [apply Hmine; set_solver|done| |].
      * destruct (Har r) as [[_ []]|[_ ?]]; [set_solver|set_solver|done].
      * intros r' Hr'%Hmine [x Hx] Hlt. destruct (Har r' Hr') as [[Hle _]|[Hin _]].
        { exfalso. apply Hle. by apply cmp_gt_lt; [apply _|]. }
        destruct (sorted_around l1 l2 r r' Hls Hin) as [[_ Hn]|[_ ?]]; [|done].
        apply elem_of_app in Hin as [Hin|[->|?]%elem_of_cons]; [|by rewrite cmp_refl by apply _|done].
        apply Hl1 in Hin. congruence.
    + split; [done|]. intros r Hr%Hmine [x Hx]. destruct (Har r Hr) as [[? _]|[Hl _]]; [done|exfalso].
      clear - Eh Hl Hx. induction later as [|q later IH]; [by apply not_elem_of_nil in Hl|]. simpl in Eh.
      destruct (end_of q) eqn:Eq; [done|]. apply elem_of_cons in Hl as [->|?]; [congruence|auto].
Qed.

(** No two records share a time and an id. *)
Definition distinct_records (records : list EmbargoRecord) : Prop :=
  forall r r', r ∈ records -> r' ∈ records -> record_cmp r r' = Eq -> r = r'.

Definition counted (owner : string) (oracle : RoleOracle) (records : list EmbargoRecord) : list EmbargoRecord :=
  List.filter (fun r => record_counts r owner oracle) records.

Lemma elem_of_counted_record owner oracle records r :
  r ∈ counted owner oracle records <-> (r ∈ records) /\ record_counts r owner oracle = true.
Proof. unfold counted. by rewrite !list_elem_of_In, filter_In. Qed.

Lemma end_counts r owner oracle : is_Some (end_of r) -> record_counts r owner oracle = true.
Proof. intros H%end_of_schedule. unfold record_counts, schedule_of in *. by destruct (er_value r). Qed.

(** A date that was withdrawn, or whose fix was published, never comes due again when
    members leave: once a target's counted embargo is ended, it is still ended (or gone) by
    any later reading of the memberships under which no further record counts, whoever was
    removed, the writer of the withdrawal too. *)
Theorem ended_stays_ended target_id records owner before after e e' now
  (Hd : distinct_records records)
  (Hless : forall r, r ∈ records -> record_counts r owner after = true -> record_counts r owner before = true)
  (He : embargo_of target_id (counted owner before records) = Some e)
  (Hended : em_state e <> Scheduled)
  (He' : embargo_of target_id (counted owner after records) = Some e') :
  em_state e' <> Scheduled /\ due e' now = false.
Proof.
  assert (em_state e' <> Scheduled) as Hne; [|unfold due; by rewrite bool_decide_eq_false_2].
  pose proof (embargo_of_spec target_id (counted owner before records)) as H1. rewrite He in H1.
  destruct H1 as (s & plan & _ & _ & Hnew & _ & [[? _]|(r & [Hr Hrt] & Hend & Hsr & _)]); [done|].
  pose proof (embargo_of_spec target_id (counted owner after records)) as H2. rewrite He' in H2.
  destruct H2 as (s' & plan' & [Hs' Ht'] & Hv' & _ & _ & [[_ Hnone]|(r' & _ & Hr' & _)]).
  2:{ intros E. rewrite E in Hr'. unfold end_of in Hr'. by destruct (er_value r'). }
  exfalso. apply elem_of_counted_record in Hr as [Hr _]. apply elem_of_counted_record in Hs' as [Hs' Hc'].
  assert (record_cmp s' r <> Gt) as H1.
  { apply (cmp_trans s' s r); [|done]. apply Hnew; [|by eexists; apply schedule_of_Some].
    split; [|done]. apply elem_of_counted_record. auto. }
  assert (record_cmp r s' <> Gt) as H2.
  { apply Hnone; [|by eexists]. split; [|done]. apply elem_of_counted_record. split; [done|].
    apply end_counts. by eexists. }
  assert (r = s') as ->.
  { apply Hd; [done..|]. rewrite (cmp_opp (cmp := record_cmp) s' r) in H2 |- *. by destruct (record_cmp s' r). }
  unfold end_of in Hend. by rewrite Hv' in Hend.
Qed.

(** The list of embargoes: one per target with a schedule, by number and target. *)
Theorem embargoes_spec records :
  (forall e, e ∈ embargoes records <-> exists t, embargo_of t records = Some e)
  /\ StronglySorted (fun a b => embargo_cmp a b <> Gt) (embargoes records).
Proof.
  assert (CmpOrd embargo_cmp) by (unfold embargo_cmp; apply _).
  split; [|by apply sort_by_sorted]. intros e. unfold embargoes. rewrite elem_of_sort_by, list_elem_of_omap.
  split; [intros (t & _ & Ht); by exists t|]. intros [t Ht]. exists t. split; [|done].
  apply elem_of_btree_elems, elem_of_list_to_set.
  pose proof (embargo_of_spec t records) as Hs. rewrite Ht in Hs. destruct Hs as (s & _ & [Hs <-] & _).
  apply list_elem_of_In, in_map. by rewrite <-list_elem_of_In.
Qed.

(** *** A withdrawn date *)

Definition fix_plan : EmbargoPlan := mkEmbargoPlan 1000 (Some 7%N) None None (Some "v1.2") None.
Definition fix_records : list EmbargoRecord :=
  [mkEmbargoRecord "e1" "issue" 3 (Schedule fix_plan) "alice" 10; mkEmbargoRecord "e2" "issue" 3 Cancel "bob" 20].
Definition fix_text : string := "{'v':1,'at':1000,'pr':7,'t':'v1.2'}".
Definition example_to_json (w : WireValue) : string := if w == wire_of (Schedule fix_plan) then fix_text else "".
Definition example_from_json (s : string) : option WireValue :=
  if s == fix_text then Some (wire_of (Schedule fix_plan)) else None.

Lemma embargo_value_canonical_witness :
  encode example_to_json (Schedule fix_plan) = inl fix_text
  /\ parse example_to_json example_from_json fix_text = Some (Schedule fix_plan).
Proof.
  assert (encode example_to_json (Schedule fix_plan) = inl fix_text) as He by (vm_compute; reflexivity).
  split; [exact He|].
  refine (proj2 (proj2 (embargo_value_canonical example_to_json example_from_json (Schedule fix_plan) fix_text _)) He).
  vm_compute. reflexivity.
Defined.

Lemma ended_stays_ended_witness :
  em_state (mkEmbargo "issue" 3 fix_plan "alice" 10 "e1" (Cancelled "bob" 20)) <> Scheduled
  /\ due (mkEmbargo "issue" 3 fix_plan "alice" 10 "e1" (Cancelled "bob" 20)) 2000 = false.
Proof.
  refine (ended_stays_ended "issue" fix_records "alice" [mkMembership "bob" Writer 5] [] _
    (mkEmbargo "issue" 3 fix_plan "alice" 10 "e1" (Cancelled "bob" 20)) 2000 _ _ eq_refl _ eq_refl).
  - intros r r' Hr Hr'. unfold fix_records in *. rewrite !elem_of_cons, elem_of_nil in Hr, Hr'.
    destruct Hr as [->|[->|[]]], Hr' as [->|[->|[]]]; vm_compute; congruence.
  - intros r Hr _. unfold fix_records in *. rewrite !elem_of_cons, elem_of_nil in Hr.
    destruct Hr as [->|[->|[]]]; vm_compute; reflexivity.
  - discriminate.
Defined.
