(* ===== verification/Events.v ===== *)
(** Collaboration events ([rules.rs]) and the issue and pull-request state folded from them
    and from the transition sum ([rules/v2.rs]): labels, assignees, the base ref, and the
    base a merge is judged against. *)
From S2P Require Import Prelude Names Members Transitions.

(** ** Definitions *)

Inductive Verdict :=
| Approve | RequestChanges | Comment | ApproveNonMember | RequestChangesNonMember | Unknown (code : N).

#[export] Instance Verdict_eq_dec : EqDecision Verdict.
Proof. solve_decision. Defined.

Definition verdict_from_code (code : N) : Verdict :=
  match code with
  | 1%N => Approve | 2%N => RequestChanges | 3%N => Comment
  | 4%N => ApproveNonMember | 5%N => RequestChangesNonMember
  | other => Unknown other
  end.

Definition verdict_code (v : Verdict) : N :=
  match v with
  | Approve => 1 | RequestChanges => 2 | Comment => 3
  | ApproveNonMember => 4 | RequestChangesNonMember => 5 | Unknown c => c
  end.

Definition verdict_label (v : Verdict) : string :=
  match v with
  | Approve => "approved" | RequestChanges => "changes requested" | Comment => "commented"
  | ApproveNonMember => "approved (not a member)"
  | RequestChangesNonMember => "changes requested (not a member)"
  | Unknown _ => "unknown verdict"
  end.

Definition as_written_by (v : Verdict) (member : bool) : Verdict :=
  match v, member with
  | (Approve | ApproveNonMember), true => Approve
  | (Approve | ApproveNonMember), false => ApproveNonMember
  | (RequestChanges | RequestChangesNonMember), true => RequestChanges
  | (RequestChanges | RequestChangesNonMember), false => RequestChangesNonMember
  | other, _ => other
  end.

Definition needs_member_proof (v : Verdict) : bool :=
  match v with Approve | RequestChanges => true | _ => false end.

Inductive EventKind :=
| Close | Reopen | Merge | LabelAdd | LabelRemove | Assign | Unassign | Retarget | Draft | Ready
| ThreadResolve | ThreadUnresolve | ReviewRequest | ReviewRequestRemove | ReviewDismiss | HeadUpdate
| MilestoneSet | MilestoneClear | Pin | Unpin | Lock | Unlock | PolicyBypass | Hide | Unhide.

#[export] Instance EventKind_eq_dec : EqDecision EventKind.
Proof. solve_decision. Defined.

Record Event := mkEvent {
  e_id : string;
  e_target_id : string;
  e_kind : EventKind;
  e_actor : string;
  e_value : option string;
  e_oid : option Oid;
  e_ref_id : option string;
  e_created_at : N
}.

Record IssueState := mkIssueState {
  is_open : bool;
  is_labels : gset string;
  is_assignees : gset string
}.

Definition IssueState_default : IssueState := mkIssueState true ∅ ∅.

Record PrState := mkPrState {
  ps_open : bool;
  ps_merged : bool;
  ps_draft : bool;
  ps_base_ref : option string;
  ps_labels : gset string;
  ps_assignees : gset string;
  ps_merge_on_base : option bool
}.

Definition PrState_default : PrState := mkPrState true false false None ∅ ∅ None.

(** [BTreeSet::insert] and [remove] of an optional value. *)
Definition set_add (v : option string) (s : gset string) : gset string :=
  match v with Some x => {[x]} ∪ s | None => s end.
Definition set_del (v : option string) (s : gset string) : gset string :=
  match v with Some x => s ∖ {[x]} | None => s end.

Definition apply_issue_event (s : IssueState) (e : Event) : IssueState :=
  match e_kind e with
  | Close => mkIssueState false (is_labels s) (is_assignees s)
  | Reopen => mkIssueState true (is_labels s) (is_assignees s)
  | LabelAdd => mkIssueState (is_open s) (set_add (e_value e) (is_labels s)) (is_assignees s)
  | LabelRemove => mkIssueState (is_open s) (set_del (e_value e) (is_labels s)) (is_assignees s)
  | Assign => mkIssueState (is_open s) (is_labels s) (set_add (e_value e) (is_assignees s))
  | Unassign => mkIssueState (is_open s) (is_labels s) (set_del (e_value e) (is_assignees s))
  | _ => s
  end.

Definition pr_with_flags (s : PrState) (open_ merged draft : bool) : PrState :=
  mkPrState open_ merged draft (ps_base_ref s) (ps_labels s) (ps_assignees s) (ps_merge_on_base s).
Definition pr_with_labels (s : PrState) (l : gset string) : PrState :=
  mkPrState (ps_open s) (ps_merged s) (ps_draft s) (ps_base_ref s) l (ps_assignees s) (ps_merge_on_base s).
Definition pr_with_assignees (s : PrState) (a : gset string) : PrState :=
  mkPrState (ps_open s) (ps_merged s) (ps_draft s) (ps_base_ref s) (ps_labels s) a (ps_merge_on_base s).
Definition pr_with_base (s : PrState) (b : option string) : PrState :=
  mkPrState (ps_open s) (ps_merged s) (ps_draft s) b (ps_labels s) (ps_assignees s) (ps_merge_on_base s).

Definition apply_pr_event (s : PrState) (e : Event) : PrState :=
  match e_kind e with
  | Close => pr_with_flags s false (ps_merged s) (ps_draft s)
  | Reopen => if negb (ps_merged s) then pr_with_flags s true (ps_merged s) (ps_draft s) else s
  | Merge => pr_with_flags s false true (ps_draft s)
  | LabelAdd => pr_with_labels s (set_add (e_value e) (ps_labels s))
  | LabelRemove => pr_with_labels s (set_del (e_value e) (ps_labels s))
  | Assign => pr_with_assignees s (set_add (e_value e) (ps_assignees s))
  | Unassign => pr_with_assignees s (set_del (e_value e) (ps_assignees s))
  | Retarget =>
    match e_value e with
    | Some v => if is_legal_ref_name v then pr_with_base s (Some v) else s
    | None => s
    end
  | Draft => pr_with_flags s (ps_open s) (ps_merged s) true
  | Ready => pr_with_flags s (ps_open s) (ps_merged s) false
  | _ => s
  end.

(** The [(createdAt, id)] total order. *)
Definition event_order : Event -> Event -> comparison :=
  cmp_then (cmp_on e_created_at N.compare) (cmp_on e_id String.compare).

Definition is_state_kind (kind : EventKind) : bool :=
  match kind with Close | Reopen | Merge | Draft | Ready | Lock | Unlock => true | _ => false end.

Definition meta_log (events : list Event) : list Event :=
  sort_by event_order (List.filter (fun e => negb (is_state_kind (e_kind e))) events).

Definition issue_state_v2 (state_code : Z) (events : list Event) : IssueState :=
  let s := foldl apply_issue_event IssueState_default (meta_log events) in
  mkIssueState (ss_open (status_of_code state_code)) (is_labels s) (is_assignees s).

Definition pr_state_v2 (state_code : Z) (merge_oid : option string) (events : list Event)
    (base_tip : option string) (is_anc : string -> string -> bool) : PrState :=
  let s := foldl apply_pr_event PrState_default (meta_log events) in
  let status := status_of_code state_code in
  let merge_oid := opt_filter (fun o => o != "") merge_oid in
  mkPrState (ss_open status) (ss_merged status) (ss_draft status) (ps_base_ref s) (ps_labels s) (ps_assignees s)
    match ss_merged status, merge_oid, base_tip with
    | false, _, _ | true, None, _ => None
    | true, Some _, None => Some false
    | true, Some oid, Some tip => Some (is_anc oid tip)
    end.

Record MergeBase := mkMergeBase { mg_ref_name : string; mg_since : N; mg_retargeted : bool }.

(** A retarget that counts: its legal new base, and when. *)
Definition counted_retarget (merged_at : option N) (e : Event) : option (string * N) :=
  if (e_kind e == Retarget) && is_none_or merged_at (fun m => e_created_at e <=? m)%N
  then (fun v => (v, e_created_at e)) <$> opt_filter is_legal_ref_name (e_value e) else None.

Definition pr_merge_base (opened_base : string) (opened_at : N) (events : list Event) (merged_at : option N)
    : MergeBase :=
  match last (omap (counted_retarget merged_at) (meta_log events)) with
  | None => mkMergeBase opened_base opened_at false
  | Some (v, at_) => mkMergeBase v at_ true
  end.

Definition trusted_upstream_number (upstream_number : option N) (author repo_owner : string) (oracle : RoleOracle)
    : option N :=
  n ← opt_filter (fun n => (0 <? n)%N) upstream_number;
  if (author == repo_owner) || current_approver oracle author then Some n else None.

(** ** Helper lemmas *)

#[export] Instance event_order_ord : CmpOrd event_order.
Proof. unfold event_order. apply _. Qed.

Definition distinct_events (events : list Event) : Prop :=
  forall a b, a ∈ events -> b ∈ events -> event_order a b = Eq -> a = b.

Lemma elem_of_meta_log events e : e ∈ meta_log events <-> (e ∈ events) /\ is_state_kind (e_kind e) = false.
Proof.
  unfold meta_log. by rewrite elem_of_sort_by, !list_elem_of_In, filter_In, negb_true_iff.
Qed.

Lemma meta_log_perm l1 l2 : l1 ≡ₚ l2 -> distinct_events l1 -> meta_log l1 = meta_log l2.
Proof.
  intros Hp Hd. apply sort_by_unique; [apply _|by apply List_filter_perm|].
  intros x y. rewrite !list_elem_of_In, !filter_In, <-!list_elem_of_In. intros [? _] [? _]. by apply Hd.
Qed.

Lemma meta_log_state_kind l1 e l2 :
  is_state_kind (e_kind e) = true -> meta_log (l1 ++ e :: l2) = meta_log (l1 ++ l2).
Proof. intros He. unfold meta_log. rewrite !List.filter_app. simpl. by rewrite He. Qed.

(** The newest element of [log] that either switches a property on or off decides it. *)
Definition last_wins {A} (on off : A -> bool) (log : list A) : bool :=
  match List.find (fun x => on x || off x) (rev log) with Some x => on x | None => false end.

Lemma last_wins_snoc {A} (on off : A -> bool) log x :
  last_wins on off (log ++ [x]) = if on x then true else if off x then false else last_wins on off log.
Proof. unfold last_wins. rewrite rev_unit. simpl. by destruct (on x) eqn:E1, (off x) eqn:E2; simpl; rewrite ?E1. Qed.

Lemma foldl_last_wins {S A} (step : S -> A -> S) (P : S -> bool) (on off : A -> bool) s0 :
  P s0 = false -> (forall s x, P (step s x) = if on x then true else if off x then false else P s) ->
  forall log, P (foldl step s0 log) = last_wins on off log.
Proof.
  intros H0 Hstep log. induction log as [|x log IH] using rev_ind; [done|].
  by rewrite foldl_snoc, Hstep, last_wins_snoc, IH.
Qed.

(** An event of [kind] that names [x]. *)
Definition names (kind : EventKind) (x : string) (e : Event) : bool := (e_kind e == kind) && (e_value e == Some x).

Lemma in_set_add x v s : bool_decide (x ∈ set_add v s) = if v == Some x then true else bool_decide (x ∈ s).
Proof.
  destruct v as [y|]; [|done]. simpl.
  destruct (decide (y = x)) as [->|Hne]; [rewrite !bool_decide_eq_true_2 by (done || set_solver); done|].
  rewrite (bool_decide_eq_false_2 (Some y = Some x)) by congruence. apply bool_decide_ext. set_solver.
Qed.

Lemma in_set_del x v s : bool_decide (x ∈ set_del v s) = if v == Some x then false else bool_decide (x ∈ s).
Proof.
  destruct v as [y|]; [|done]. simpl.
  destruct (decide (y = x)) as [->|Hne].
  { rewrite (bool_decide_eq_true_2 (Some x = Some x)) by done. apply bool_decide_eq_false_2. set_solver. }
  rewrite (bool_decide_eq_false_2 (Some y = Some x)) by congruence. apply bool_decide_ext. set_solver.
Qed.

Lemma issue_labels_step x s e :
  bool_decide (x ∈ is_labels (apply_issue_event s e))
  = if names LabelAdd x e then true else if names LabelRemove x e then false else bool_decide (x ∈ is_labels s).
Proof.
  unfold apply_issue_event, names. destruct (e_kind e); simpl; rewrite ?in_set_add, ?in_set_del; try done;
    by destruct (e_value e == Some x).
Qed.

Lemma issue_assignees_step x s e :
  bool_decide (x ∈ is_assignees (apply_issue_event s e))
  = if names Assign x e then true else if names Unassign x e then false else bool_decide (x ∈ is_assignees s).
Proof.
  unfold apply_issue_event, names. destruct (e_kind e); simpl; rewrite ?in_set_add, ?in_set_del; try done;
    by destruct (e_value e == Some x).
Qed.

Lemma pr_labels_step x s e :
  bool_decide (x ∈ ps_labels (apply_pr_event s e))
  = if names LabelAdd x e then true else if names LabelRemove x e then false else bool_decide (x ∈ ps_labels s).
Proof.
  unfold apply_pr_event, names. destruct (e_kind e); simpl; rewrite ?in_set_add, ?in_set_del; try done;
    [by destruct (e_value e == Some x)..| |]; repeat case_match; done.
Qed.

Lemma pr_assignees_step x s e :
  bool_decide (x ∈ ps_assignees (apply_pr_event s e))
  = if names Assign x e then true else if names Unassign x e then false else bool_decide (x ∈ ps_assignees s).
Proof.
  unfold apply_pr_event, names. destruct (e_kind e); simpl; rewrite ?in_set_add, ?in_set_del; try done;
    [by destruct (e_value e == Some x)..| |]; repeat case_match; done.
Qed.

(** The base ref the fold keeps is the last legal retarget's. *)
Lemma pr_base_fold log :
  ps_base_ref (foldl apply_pr_event PrState_default log) = fst <$> last (omap (counted_retarget None) log).
Proof.
  induction log as [|e log IH] using rev_ind; [done|]. rewrite foldl_snoc, omap_app. simpl.
  set (s := foldl apply_pr_event PrState_default log) in *.
  unfold apply_pr_event, counted_retarget. simpl.
  destruct (e_kind e) eqn:Ek; simpl; rewrite ?app_nil_r; try exact IH; try (destruct (ps_merged s); exact IH).
  destruct (e_value e) as [v|]; simpl; [|by rewrite app_nil_r].
  destruct (is_legal_ref_name v); simpl; [by rewrite last_snoc|by rewrite app_nil_r].
Qed.

Lemma counted_retarget_Some merged_at e v t :
  counted_retarget merged_at e = Some (v, t) <->
  e_kind e = Retarget /\ e_value e = Some v /\ is_legal_ref_name v = true /\ t = e_created_at e
  /\ forall m, merged_at = Some m -> (e_created_at e <= m)%N.
Proof.
  unfold counted_retarget.
  assert (is_none_or merged_at (fun m => e_created_at e <=? m)%N = true
    <-> forall m, merged_at = Some m -> (e_created_at e <= m)%N) as Hm.
  { destruct merged_at as [m|]; simpl; [|done]. rewrite N.leb_le. split; [by intros ? ? [= <-]|by auto]. }
  destruct (decide (e_kind e = Retarget)) as [->|Hk].
  - rewrite bool_decide_eq_true_2 by done. simpl. rewrite <-Hm.
    destruct (is_none_or _ _); simpl; [|by split; [|intros (_ & _ & _ & _ & ?)]].
    destruct (e_value e) as [w|]; simpl; [|by split; [|intros (_ & ? & _)]].
    destruct (is_legal_ref_name w) eqn:Hl; simpl.
    + split; [intros [= <- <-]; by split_and!|by intros (_ & [= ->] & _ & -> & _)].
    + split; [done|]. intros (_ & [= ->] & Hl' & _). congruence.
  - rewrite bool_decide_eq_false_2 by done. simpl. split; [done|by intros (? & _)].
Qed.

Lemma sorted_before events l1 e l2 e' :
  meta_log events = l1 ++ e :: l2 -> (e' ∈ l1) \/ e' = e -> event_order e' e <> Gt.
Proof.
  intros Heq H. pose proof (sort_by_sorted event_order (List.filter (fun e => negb (is_state_kind (e_kind e))) events)) as Hs.
  fold (meta_log events) in Hs. rewrite Heq in Hs. apply StronglySorted_app in Hs as (Hs & _).
  destruct H as [H| ->]; [apply Hs; [done|left]|by rewrite (cmp_refl event_order)].
Qed.

(** ** Theorems *)

(** An issue is open exactly when its transition sum says so; a label or an assignee
    stands exactly when the newest event that adds or removes it adds it; and neither the
    order the events arrive in nor a state event among them changes anything. *)
Theorem issue_state_v2_spec code events (Hd : distinct_events events) :
  let s := issue_state_v2 code events in
  is_open s = ss_open (status_of_code code)
  /\ (forall x, x ∈ is_labels s <-> last_wins (names LabelAdd x) (names LabelRemove x) (meta_log events) = true)
  /\ (forall x, x ∈ is_assignees s <-> last_wins (names Assign x) (names Unassign x) (meta_log events) = true)
  /\ (forall events', events ≡ₚ events' -> issue_state_v2 code events' = s)
  /\ (forall e, is_state_kind (e_kind e) = true -> issue_state_v2 code (events ++ [e]) = s).
Proof.
  intros s. unfold s. split_and!; [done| | | |].
  - intros x. rewrite <-(foldl_last_wins apply_issue_event (fun s => bool_decide (x ∈ is_labels s))
      (names LabelAdd x) (names LabelRemove x) IssueState_default); [by rewrite bool_decide_eq_true|done|intros; apply issue_labels_step].
  - intros x. rewrite <-(foldl_last_wins apply_issue_event (fun s => bool_decide (x ∈ is_assignees s))
      (names Assign x) (names Unassign x) IssueState_default); [by rewrite bool_decide_eq_true|done|intros; apply issue_assignees_step].
  - intros events' Hp. unfold issue_state_v2. by rewrite (meta_log_perm events events').
  - intros e He. unfold issue_state_v2. by rewrite meta_log_state_kind, app_nil_r.
Qed.

Lemma issue_state_v2_spec_witness :
  "bug" ∈ is_labels (issue_state_v2 1 [mkEvent "b" "i" LabelAdd "m" (Some "bug") None None 20;
                                       mkEvent "a" "i" LabelRemove "m" (Some "bug") None None 10]).
Proof.
  apply issue_state_v2_spec; [|reflexivity].
  intros x y Hx Hy. rewrite !elem_of_cons, elem_of_nil in Hx, Hy.
  destruct Hx as [->|[->|[]]], Hy as [->|[->|[]]]; done.
Defined.

(** A pull request is open, merged and draft exactly as its transition sum says,
    whatever the events hold; labels and assignees follow their newest event; its base
    is the one a merge is judged against; and the merge is on the base exactly when
    its known, non-empty commit is a tip the base had, unknown when the commit is. *)
Theorem pr_state_v2_spec code merge_oid events base_tip is_anc opened_base opened_at :
  let s := pr_state_v2 code merge_oid events base_tip is_anc in
  (ps_open s, ps_merged s, ps_draft s)
    = (ss_open (status_of_code code), ss_merged (status_of_code code), ss_draft (status_of_code code))
  /\ (forall x, x ∈ ps_labels s <-> last_wins (names LabelAdd x) (names LabelRemove x) (meta_log events) = true)
  /\ (forall x, x ∈ ps_assignees s <-> last_wins (names Assign x) (names Unassign x) (meta_log events) = true)
  /\ default opened_base (ps_base_ref s) = mg_ref_name (pr_merge_base opened_base opened_at events None)
  /\ (ps_merge_on_base s = None <-> ss_merged (status_of_code code) = false \/ default "" merge_oid = "")
  /\ (ps_merge_on_base s = Some true <-> ss_merged (status_of_code code) = true
       /\ exists oid tip, merge_oid = Some oid /\ oid <> "" /\ base_tip = Some tip /\ is_anc oid tip = true).
Proof.
  intros s. unfold s. split_and!; [done| | | | |].
  - intros x. rewrite <-(foldl_last_wins apply_pr_event (fun s => bool_decide (x ∈ ps_labels s))
      (names LabelAdd x) (names LabelRemove x) PrState_default); [by rewrite bool_decide_eq_true|done|intros; apply pr_labels_step].
  - intros x. rewrite <-(foldl_last_wins apply_pr_event (fun s => bool_decide (x ∈ ps_assignees s))
      (names Assign x) (names Unassign x) PrState_default); [by rewrite bool_decide_eq_true|done|intros; apply pr_assignees_step].
  - simpl. rewrite pr_base_fold. unfold pr_merge_base. by destruct (last _) as [[v t]|].
  - unfold pr_state_v2. cbn [ps_merge_on_base]. destruct (ss_merged (status_of_code code)); [|by split; auto].
    destruct merge_oid as [o|]; simpl; [|by split; auto].
    destruct (decide (o = "")) as [->|Hne].
    + rewrite bool_decide_eq_true_2 by done. simpl. by split; auto.
    + rewrite bool_decide_eq_false_2 by done. simpl. destruct base_tip; split; try done; by intros [?|Ho].
  - unfold pr_state_v2. cbn [ps_merge_on_base]. destruct (ss_merged (status_of_code code)); [|by split; [|intros [? _]]]. destruct merge_oid as [o|]; simpl.
    2: { split; [done|]. by intros (_ & ? & ? & ? & _). }
    destruct (decide (o = "")) as [->|Hne].
    + rewrite bool_decide_eq_true_2 by done. simpl. split; [done|]. by intros (_ & ? & ? & [= <-] & ? & _).
    + rewrite bool_decide_eq_false_2 by done. simpl. destruct base_tip as [tip|]; simpl.
      * split; [intros [= Ha]; split; [done|]; by exists o, tip|]. by intros (_ & ? & ? & [= <-] & _ & [= <-] & ->).
      * split; [done|]. by intros (_ & ? & ? & _ & _ & ? & _).
Qed.

(** The base a merge is judged against is the newest legal retarget not written after
    the merge, at its own time, and else the base the request was opened with: no
    illegal ref name and no later retarget ever becomes the base. *)
Theorem pr_merge_base_spec opened_base opened_at events merged_at :
  let counted e v := (e ∈ events) /\ e_kind e = Retarget /\ e_value e = Some v /\ is_legal_ref_name v = true
                     /\ forall m, merged_at = Some m -> (e_created_at e <= m)%N in
  let b := pr_merge_base opened_base opened_at events merged_at in
  if mg_retargeted b
  then exists e, counted e (mg_ref_name b) /\ mg_since b = e_created_at e
       /\ forall e' v, counted e' v -> event_order e' e <> Gt
  else mg_ref_name b = opened_base /\ mg_since b = opened_at /\ forall e v, ~ counted e v.
Proof.
  intros counted b. unfold b, pr_merge_base.
  assert (forall e v, counted e v <-> (e ∈ meta_log events) /\ counted_retarget merged_at e = Some (v, e_created_at e)) as Hc.
  { intros e v. rewrite counted_retarget_Some, elem_of_meta_log. unfold counted. split.
    - intros (He & Hk & Hv & Hl & Hm). rewrite Hk. by split_and!.
    - intros ((He & _) & Hk & Hv & Hl & _ & Hm). by split_and!. }
  destruct (last (omap (counted_retarget merged_at) (meta_log events))) as [[v t]|] eqn:Hlast; simpl.
  - apply last_omap_Some in Hlast as (l1 & e & l2 & Heq & He & Hn).
    pose proof He as (_ & _ & _ & -> & _)%counted_retarget_Some. exists e. split_and!; [|done|].
    + apply Hc. split; [rewrite Heq; set_solver|done].
    + intros e' v' [He' Hs']%Hc. rewrite Heq in He'. eapply sorted_before; [exact Heq|].
      apply elem_of_app in He' as [?|[->|H2]%elem_of_cons]; [by left|by right|]. apply Hn in H2. congruence.
  - split_and!; [done|done|]. intros e v [He Hs]%Hc. apply last_None_nil in Hlast.
    assert ((v, e_created_at e) ∈ omap (counted_retarget merged_at) (meta_log events)) as Hin.
    { apply list_elem_of_omap. by exists e. }
    rewrite Hlast in Hin. by apply not_elem_of_nil in Hin.
Qed.
