(* ===== verification/Overlay.v ===== *)
(** The staleness overlay of a flat index ([rules.rs]): the tree diffs of later commits
    layered on a path-sorted listing. *)
From S2P Require Import Prelude Names.

(** ** Definitions *)

Record FlatIndexEntry := mkFlatIndexEntry {
  fe_path : string;
  fe_oid : Oid;
  fe_mode : N;
  fe_size : N
}.

Record FlatIndex := mkFlatIndex { fi_tip : Oid; fi_entries : list FlatIndexEntry }.

Inductive PathChange :=
| Upsert (path : string) (oid : Oid) (mode size : N)
| Delete (path : string).

Record TreeDiff := mkTreeDiff { td_commit : Oid; td_changes : list PathChange }.

(** The entries of the base as a map: of two entries of one path the later one stays. *)
Definition tree_of (entries : list FlatIndexEntry) : gmap string FlatIndexEntry :=
  foldl (fun tree e => <[fe_path e := e]> tree) ∅ entries.

Definition apply_change (tree : gmap string FlatIndexEntry) (change : PathChange) : gmap string FlatIndexEntry :=
  match change with
  | Upsert path oid mode size => <[path := mkFlatIndexEntry path oid mode size]> tree
  | Delete path => delete path tree
  end.

(** One diff: its changes, then its commit as the tip. *)
Definition apply_diff (st : gmap string FlatIndexEntry * Oid) (diff : TreeDiff) : gmap string FlatIndexEntry * Oid :=
  (foldl apply_change st.1 (td_changes diff), td_commit diff).

Definition overlay_tree (base : FlatIndex) (later_commit_tree_diffs : list TreeDiff) : FlatIndex :=
  let '(tree, tip) := foldl apply_diff (tree_of (fi_entries base), fi_tip base) later_commit_tree_diffs in
  mkFlatIndex tip (map snd (btree_items tree)).

(** ** Helper lemmas *)

Definition change_path (c : PathChange) : string := match c with Upsert p _ _ _ => p | Delete p => p end.
Definition change_entry (c : PathChange) : option FlatIndexEntry :=
  match c with Upsert p o m s => Some (mkFlatIndexEntry p o m s) | Delete _ => None end.

(** What the newest entry or change of path [p] makes of it. *)
Definition final_entry (entries : list FlatIndexEntry) (changes : list PathChange) (p : string)
    : option FlatIndexEntry :=
  match List.find (fun c => change_path c == p) (rev changes) with
  | Some c => change_entry c
  | None => List.find (fun e => fe_path e == p) (rev entries)
  end.

(** Every entry is filed under its own path. *)
Definition own_paths (tree : gmap string FlatIndexEntry) : Prop := forall p e, tree !! p = Some e -> fe_path e = p.

Lemma tree_of_lookup entries p : tree_of entries !! p = List.find (fun e => fe_path e == p) (rev entries).
Proof.
  unfold tree_of. induction entries as [|e entries IH] using rev_ind; [done|].
  rewrite foldl_snoc, rev_unit. simpl. destruct (decide (fe_path e = p)) as [->|Hne].
  - by rewrite lookup_insert_eq, bool_decide_eq_true_2.
  - by rewrite lookup_insert_ne, bool_decide_eq_false_2.
Qed.

Lemma apply_changes_lookup changes tree p :
  foldl apply_change tree changes !! p
  = match List.find (fun c => change_path c == p) (rev changes) with
    | Some c => change_entry c
    | None => tree !! p
    end.
Proof.
  induction changes as [|c changes IH] using rev_ind; [done|].
  rewrite foldl_snoc, rev_unit. simpl. destruct (decide (change_path c = p)) as [Heq|Hne].
  - rewrite bool_decide_eq_true_2 by done. destruct c; simpl in *; subst; [apply lookup_insert_eq|apply lookup_delete_eq].
  - rewrite bool_decide_eq_false_2 by done. rewrite <-IH.
    destruct c; simpl in *; [by rewrite lookup_insert_ne|by rewrite lookup_delete_ne].
Qed.

Lemma tree_of_own entries : own_paths (tree_of entries).
Proof. intros p e. rewrite tree_of_lookup. intros [_ H]%find_some. by apply bool_decide_eq_true in H. Qed.

Lemma apply_changes_own changes tree : own_paths tree -> own_paths (foldl apply_change tree changes).
Proof.
  intros Ht p e. rewrite apply_changes_lookup. destruct (List.find _ _) as [c|] eqn:Hf; [|apply Ht].
  apply find_some in Hf as [_ Hc]. apply bool_decide_eq_true in Hc. destruct c; simpl in *; [by intros [= <-]|done].
Qed.

Lemma apply_diffs diffs tree tip :
  foldl apply_diff (tree, tip) diffs
  = (foldl apply_change tree (concat (map td_changes diffs)), List.last (map td_commit diffs) tip).
Proof.
  revert tree tip. induction diffs as [|d diffs IH]; intros tree tip; simpl; [done|].
  unfold apply_diff at 2. simpl. rewrite IH, foldl_app. f_equal.
  destruct diffs as [|d' diffs]; [done|]. simpl. clear. revert d'. induction diffs as [|d'' diffs IH]; intros d'; [done|].
  simpl in *. apply IH.
Qed.

Lemma overlay_tree_eq base diffs :
  overlay_tree base diffs
  = mkFlatIndex (List.last (map td_commit diffs) (fi_tip base))
      (map snd (btree_items (foldl apply_change (tree_of (fi_entries base)) (concat (map td_changes diffs))))).
Proof. unfold overlay_tree. by rewrite apply_diffs. Qed.

Lemma btree_values_own (tree : gmap string FlatIndexEntry) :
  own_paths tree -> map fe_path (map snd (btree_items tree)) = map fst (btree_items tree).
Proof.
  intros Ht. rewrite map_map. apply map_ext_in. intros [p e] Hin. simpl. apply Ht.
  by apply elem_of_btree_items, list_elem_of_In.
Qed.

Lemma find_NoDup_path entries p e :
  NoDup (map fe_path entries) -> (e ∈ entries) -> fe_path e = p ->
  List.find (fun e => fe_path e == p) entries = Some e.
Proof.
  induction entries as [|x entries IH]; intros Hnd Hin Hp; [by apply not_elem_of_nil in Hin|]. simpl in *.
  apply NoDup_cons in Hnd as [Hx Hnd]. apply elem_of_cons in Hin as [<-|Hin].
  - by rewrite bool_decide_eq_true_2.
  - rewrite bool_decide_eq_false_2; [by apply IH|]. intros Hxp. apply Hx. rewrite Hxp, <-Hp.
    apply list_elem_of_In, in_map. by apply list_elem_of_In.
Qed.

Lemma tree_of_values tree : own_paths tree -> tree_of (map snd (btree_items tree)) = tree.
Proof.
  intros Ht. apply map_eq. intros p. rewrite tree_of_lookup.
  assert (NoDup (map fe_path (rev (map snd (btree_items tree))))) as Hnd.
  { rewrite map_rev, btree_values_own by done. rewrite <-Permutation_rev. apply NoDup_btree_items. }
  assert (forall e, e ∈ rev (map snd (btree_items tree)) <-> exists q, tree !! q = Some e) as Hin.
  { intros e. rewrite list_elem_of_In, <-in_rev, in_map_iff. split.
    - intros ([q e'] & <- & Hq). exists q. by apply elem_of_btree_items, list_elem_of_In.
    - intros (q & Hq). exists (q, e). split; [done|]. by apply list_elem_of_In, elem_of_btree_items. }
  destruct (tree !! p) as [e|] eqn:He.
  - apply find_NoDup_path; [done|apply Hin; by exists p|by apply Ht].
  - destruct (List.find _ _) as [e|] eqn:Hf; [|done]. apply find_some in Hf as [Hin' Hp%bool_decide_eq_true].
    rewrite <-list_elem_of_In in Hin'. apply Hin in Hin' as (q & Hq). pose proof (Ht q e Hq). congruence.
Qed.

(** ** Theorems *)

(** The overlaid tree holds, for each path, exactly what the newest change of that path
    leaves (the last entry of the base where no diff touches it), each path once, sorted
    by path, under the last diff's commit. *)
Theorem overlay_tree_spec base diffs :
  let r := overlay_tree base diffs in
  (forall e, e ∈ fi_entries r <->
     final_entry (fi_entries base) (concat (map td_changes diffs)) (fe_path e) = Some e)
  /\ NoDup (map fe_path (fi_entries r))
  /\ StronglySorted (fun a b => String.compare (fe_path a) (fe_path b) <> Gt) (fi_entries r)
  /\ fi_tip r = List.last (map td_commit diffs) (fi_tip base).
Proof.
  intros r. unfold r. rewrite overlay_tree_eq. simpl.
  set (tree := foldl apply_change (tree_of (fi_entries base)) (concat (map td_changes diffs))).
  assert (own_paths tree) as Ht by (apply apply_changes_own, tree_of_own).
  split_and!; [| | |done].
  - intros e. unfold final_entry. rewrite <-tree_of_lookup, <-apply_changes_lookup. fold tree.
    rewrite list_elem_of_In, in_map_iff. split.
    + intros ([q e'] & <- & Hq). rewrite <-list_elem_of_In in Hq. apply elem_of_btree_items in Hq. simpl.
      by rewrite (Ht q e' Hq).
    + intros He. exists (fe_path e, e). split; [done|]. by rewrite <-list_elem_of_In, elem_of_btree_items.
  - rewrite btree_values_own by done. apply NoDup_btree_items.
  - assert (StronglySorted (fun a b => cmp_on fst String.compare a b <> Gt) (btree_items tree)) as Hs.
    { unfold btree_items. apply sort_by_sorted, _. }
    assert (forall p e, (p, e) ∈ btree_items tree -> fe_path e = p) as Hk
      by by intros p e Hin%elem_of_btree_items; apply Ht.
    clear -Hs Hk. induction Hs as [|[p e] l Hl IH Hx]; simpl; constructor.
    + apply IH. intros q e' Hin. apply Hk. by right.
    + apply Forall_map. rewrite Forall_forall in Hx |- *. intros [q e'] Hin. specialize (Hx _ Hin).
      unfold cmp_on in Hx. simpl in *. rewrite (Hk p e), (Hk q e'); [done|by right|left].
Qed.

(** The overlay is incremental: catching up in two goes is catching up in one. *)
Theorem overlay_tree_app base diffs1 diffs2 :
  overlay_tree (overlay_tree base diffs1) diffs2 = overlay_tree base (diffs1 ++ diffs2).
Proof.
  rewrite !overlay_tree_eq. simpl. rewrite tree_of_values by (apply apply_changes_own, tree_of_own).
  rewrite !map_app, concat_app, foldl_app. f_equal.
  destruct (map td_commit diffs2) as [|c l]; [by rewrite app_nil_r|].
  assert (forall (l1 : list Oid) c l d d', List.last (l1 ++ c :: l) d = List.last (c :: l) d') as Hlast.
  { clear. intros l1 c l d d'. induction l1 as [|x l1 IH]; simpl.
    - revert c. induction l as [|y l IH]; intros c; [done|apply IH].
    - rewrite IH. by destruct l1. }
  by rewrite (Hlast _ c l (fi_tip base) (List.last (map td_commit diffs1) (fi_tip base))).
Qed.
