(* ===== verification/Packs.v ===== *)
(** Pack copies and the pack list ([rules/v2.rs]): the order a reader tries copies in, the
    copy it reads, the order of packs, their positions, and which are superseded. *)
From S2P Require Import Prelude Members.

(** ** Definitions *)

Record PackCopy := mkPackCopy {
  pc_id : string;
  pc_pack_hash : string;
  pc_owner_role : option Role;
  pc_created_at : N;
  pc_verified : bool;
  pc_supersedes : list string
}.

Definition role_rank (role : option Role) : N :=
  match role with
  | Some Maintainer => 0
  | Some (Writer | Triage | Reader) => 1
  | Some Bot => 2
  | None => 3
  end.

Definition claimed_supersedes (role : option Role) (supersedes : list string) : list string :=
  if role == Some Bot then [] else supersedes.

(** The comparison of [sort_copies]. *)
Definition copy_cmp : PackCopy -> PackCopy -> comparison :=
  cmp_then (cmp_then (cmp_on (fun c => role_rank (pc_owner_role c)) N.compare) (cmp_on pc_created_at N.compare))
    (cmp_on pc_id String.compare).

Definition order_pack_copies (copies : list PackCopy) : list PackCopy := sort_by copy_cmp copies.

Definition select_pack_copy (copies : list PackCopy) : option PackCopy :=
  List.find pc_verified (order_pack_copies copies).

Record PackPick := mkPackPick { pp_pack_hash : string; pp_copy_id : string; pp_superseded : bool }.

(** The copy selected for one pack hash. *)
Definition selected_of (copies : list PackCopy) (hash : string) : option PackCopy :=
  select_pack_copy (List.filter (fun c => pc_pack_hash c == hash) copies).

(** The selected copy of each pack that has a verified one, by pack hash. *)
Definition selected_copies (copies : list PackCopy) : list PackCopy :=
  omap (selected_of copies) (btree_elems (list_to_set (map pc_pack_hash copies))).

(** The packs the selected copies claim to consolidate. *)
Definition superseded_by (selected : list PackCopy) : gset string :=
  list_to_set (concat (map (fun c => List.filter (fun s => s != pc_pack_hash c)
    (claimed_supersedes (pc_owner_role c) (pc_supersedes c))) selected)).

Definition read_cmp (superseded : gset string) : PackCopy -> PackCopy -> comparison :=
  cmp_then (cmp_then (cmp_on (fun c => bool_decide (pc_pack_hash c ∈ superseded)) bool_cmp)
              (cmp_on pc_created_at N.compare)) (cmp_on pc_pack_hash String.compare).

Definition pack_read_order (copies : list PackCopy) : list PackPick :=
  let selected := selected_copies copies in
  let superseded := superseded_by selected in
  map (fun c => mkPackPick (pc_pack_hash c) (pc_id c) (bool_decide (pc_pack_hash c ∈ superseded)))
    (sort_by (read_cmp superseded) selected).

Record CopyKey := mkCopyKey { ck_created_at : N; ck_id : string }.

(** The derived order. *)
Definition key_cmp : CopyKey -> CopyKey -> comparison :=
  cmp_then (cmp_on ck_created_at N.compare) (cmp_on ck_id String.compare).

Record PackCopyRow := mkPackCopyRow {
  cr_id : string;
  cr_pack_hash : string;
  cr_kind : N;
  cr_created_at : N;
  cr_owner_role : option Role;
  cr_size_bytes : N;
  cr_object_count : N;
  cr_chunk_count : N;
  cr_supersedes : list string;
  cr_verified : option bool
}.

Record V2Pack := mkV2Pack {
  vp_pack_ref : nat;
  vp_pack_hash : string;
  vp_kind : N;
  vp_size_bytes : N;
  vp_object_count : N;
  vp_chunk_count : N;
  vp_supersedes : list string;
  vp_first : CopyKey;
  vp_copies : list string;
  vp_superseded : bool
}.

Definition supersedes_claim_counts (claimant_hash : string) (claimant_kind : N) (claimed_hash : string)
    (claimed_kind : N) : bool :=
  (claimed_hash != claimant_hash) && (claimed_kind =? claimant_kind)%N.

Definition row_key (c : PackCopyRow) : CopyKey := mkCopyKey (cr_created_at c) (cr_id c).

Definition row_cmp : PackCopyRow -> PackCopyRow -> comparison :=
  cmp_then (cmp_then (cmp_on (fun c => role_rank (cr_owner_role c)) N.compare) (cmp_on cr_created_at N.compare))
    (cmp_on cr_id String.compare).

Definition key_le (a b : CopyKey) : bool := match key_cmp a b with Gt => false | _ => true end.

(** The copies at or before [as_of]. *)
Definition rows_as_of (copies : list PackCopyRow) (as_of : option CopyKey) : list PackCopyRow :=
  List.filter (fun c => is_none_or as_of (fun a => key_le (row_key c) a)) copies.

(** The copies of one hash, in the order they were given ([groups]). *)
Definition group_of (rows : list PackCopyRow) (hash : string) : list PackCopyRow :=
  List.filter (fun c => cr_pack_hash c == hash) rows.

Definition usable_rows (group : list PackCopyRow) : list PackCopyRow :=
  List.filter (fun c => cr_verified c != Some false) (sort_by row_cmp group).

(** The pack of one group, before it has a position, and whether its representative
    verified; [None] when no copy is usable. *)
Definition group_pack (hash : string) (group : list PackCopyRow) : option (V2Pack * bool) :=
  first ← min_by key_cmp (map row_key group);
  rep ← head (usable_rows group);
  Some (mkV2Pack 0 hash (cr_kind rep) (cr_size_bytes rep) (cr_object_count rep) (cr_chunk_count rep)
          (claimed_supersedes (cr_owner_role rep) (cr_supersedes rep)) first
          (map cr_id (List.filter (fun c => (cr_kind c =? cr_kind rep)%N) (usable_rows group))) false,
        cr_verified rep == Some true).

Definition listed_packs (rows : list PackCopyRow) : list (V2Pack * bool) :=
  omap (fun h => group_pack h (group_of rows h)) (btree_elems (list_to_set (map cr_pack_hash rows))).

(** [kind_of]: the kind of a listed pack. *)
Definition kind_of (packs : list (V2Pack * bool)) (hash : string) : option N :=
  (fun p => vp_kind p.1) <$> List.find (fun p => vp_pack_hash p.1 == hash) packs.

Definition superseded_packs (packs : list (V2Pack * bool)) : gset string :=
  list_to_set (concat (map (fun p : V2Pack * bool =>
    if p.2 then List.filter (fun s => is_some_and (kind_of packs s)
                               (fun kind => supersedes_claim_counts (vp_pack_hash p.1) (vp_kind p.1) s kind))
                  (vp_supersedes p.1)
    else []) packs)).

Definition pack_cmp : V2Pack -> V2Pack -> comparison :=
  cmp_then (cmp_on vp_kind N.compare) (cmp_on vp_first key_cmp).

Definition placed_pack (superseded : gset string) (pack_ref : nat) (p : V2Pack) : V2Pack :=
  mkV2Pack pack_ref (vp_pack_hash p) (vp_kind p) (vp_size_bytes p) (vp_object_count p) (vp_chunk_count p)
    (vp_supersedes p) (vp_first p) (vp_copies p) (bool_decide (vp_pack_hash p ∈ superseded)).

(** The final loop: positions restart at each kind. *)
Fixpoint number_packs (superseded : gset string) (kind : option N) (index : nat) (packs : list V2Pack) : list V2Pack :=
  match packs with
  | [] => []
  | p :: packs =>
    let index := if kind == Some (vp_kind p) then index else 0 in
    placed_pack superseded index p :: number_packs superseded (Some (vp_kind p)) (S index) packs
  end.

Definition v2_pack_list (copies : list PackCopyRow) (as_of : option CopyKey) : list V2Pack :=
  let packs := listed_packs (rows_as_of copies as_of) in
  number_packs (superseded_packs packs) None 0 (sort_by pack_cmp (map fst packs)).

Definition planning_superseded (copies : list PackCopyRow) (kind : N) : gset string :=
  list_to_set (concat (map
    (fun c => List.filter (fun s => supersedes_claim_counts (cr_pack_hash c) (cr_kind c) s kind) (cr_supersedes c))
    (List.filter (fun c => match cr_owner_role c with Some (Maintainer | Writer) => true | _ => false end)
       (List.filter (fun c => (cr_kind c =? kind)%N) copies)))).

(** ** Helper lemmas *)

#[export] Instance copy_cmp_ord : CmpOrd copy_cmp.
Proof. unfold copy_cmp. apply _. Qed.
#[export] Instance key_cmp_ord : CmpOrd key_cmp.
Proof. unfold key_cmp. apply _. Qed.
#[export] Instance row_cmp_ord : CmpOrd row_cmp.
Proof. unfold row_cmp. apply _. Qed.
#[export] Instance pack_cmp_ord : CmpOrd pack_cmp.
Proof. unfold pack_cmp. apply _. Qed.
#[export] Instance read_cmp_ord s : CmpOrd (read_cmp s).
Proof. unfold read_cmp. apply _. Qed.

(** The first element of a sorted list that passes a test is the least that does. *)
Lemma find_sorted {A} (cmp : A -> A -> comparison) `{!CmpOrd cmp} (f : A -> bool) l :
  match List.find f (sort_by cmp l) with
  | Some x => (x ∈ l) /\ f x = true /\ forall y, y ∈ l -> f y = true -> cmp x y <> Gt
  | None => forall y, y ∈ l -> f y = false
  end.
Proof.
  pose proof (find_least cmp f (sort_by cmp l) (sort_by_sorted cmp l)) as H.
  destruct (List.find f (sort_by cmp l)); setoid_rewrite (elem_of_sort_by cmp) in H; exact H.
Qed.

Lemma select_facts copies :
  match select_pack_copy copies with
  | Some c => (c ∈ copies) /\ pc_verified c = true /\ forall d, d ∈ copies -> pc_verified d = true -> copy_cmp c d <> Gt
  | None => forall d, d ∈ copies -> pc_verified d = false
  end.
Proof. apply find_sorted, _. Qed.

Lemma elem_of_of_hash copies hash c :
  c ∈ List.filter (fun c => pc_pack_hash c == hash) copies <-> (c ∈ copies) /\ pc_pack_hash c = hash.
Proof. by rewrite !list_elem_of_In, filter_In, bool_decide_eq_true. Qed.

Lemma selected_of_hash copies hash c : selected_of copies hash = Some c -> (c ∈ copies) /\ pc_pack_hash c = hash.
Proof.
  unfold selected_of. intros Hc. pose proof (select_facts (List.filter (fun c => pc_pack_hash c == hash) copies)) as Hs.
    rewrite Hc in Hs. apply elem_of_of_hash, Hs.
Qed.

Lemma elem_of_selected copies c : c ∈ selected_copies copies <-> selected_of copies (pc_pack_hash c) = Some c.
Proof.
  unfold selected_copies. rewrite list_elem_of_omap. split.
  - intros (h & _ & Hc). by destruct (selected_of_hash _ _ _ Hc) as [_ ->].
  - intros Hc. exists (pc_pack_hash c). split; [|done]. apply elem_of_btree_elems, elem_of_list_to_set.
    apply list_elem_of_In, in_map. apply list_elem_of_In. by apply selected_of_hash in Hc as [? _].
Qed.

Lemma NoDup_omap_key {A B K} (key : B -> K) (f : A -> option B) (k : A -> K) l :
  (forall x y, f x = Some y -> key y = k x) -> NoDup (map k l) -> NoDup (map key (omap f l)).
Proof.
  intros Hk. induction l as [|x l IH]; simpl; [done|]. intros [Hx Hl]%NoDup_cons.
  destruct (f x) as [y|] eqn:Hy; [|by apply IH]. simpl. apply NoDup_cons. split; [|by apply IH].
  intros Hin. apply Hx. rewrite <-(Hk x y Hy). apply list_elem_of_In, in_map_iff in Hin as (z & Hz & Hin).
  apply list_elem_of_In, list_elem_of_omap in Hin as (x' & Hx' & Hf). rewrite <-Hz, (Hk x' z Hf).
  apply list_elem_of_In, in_map. by apply list_elem_of_In.
Qed.

Lemma selected_NoDup copies : NoDup (map pc_pack_hash (selected_copies copies)).
Proof.
  apply (NoDup_omap_key pc_pack_hash _ id); [by intros h c [_ ?]%selected_of_hash|].
  rewrite map_id. apply NoDup_btree_elems.
Qed.

Lemma elem_of_superseded_by selected h :
  h ∈ superseded_by selected <->
  exists c, (c ∈ selected) /\ pc_owner_role c <> Some Bot /\ (h ∈ pc_supersedes c) /\ h <> pc_pack_hash c.
Proof.
  unfold superseded_by. rewrite elem_of_list_to_set, list_elem_of_In, in_concat.
  setoid_rewrite in_map_iff. setoid_rewrite <-list_elem_of_In. unfold claimed_supersedes. split.
  - intros (l & (c & <- & Hc) & Hh). exists c. rewrite list_elem_of_In, filter_In, <-list_elem_of_In in Hh.
    destruct Hh as [Hh Hne]. rewrite negb_true_iff, bool_decide_eq_false in Hne.
    case_bool_decide; [by apply not_elem_of_nil in Hh|done].
  - intros (c & Hc & Hr & Hh & Hne). eexists. split; [by exists c|].
    rewrite bool_decide_eq_false_2 by done. rewrite list_elem_of_In, filter_In, <-list_elem_of_In.
    by rewrite bool_decide_eq_false_2.
Qed.

(** *** Positions *)

Definition of_kind (k : N) (l : list V2Pack) : nat := length (List.filter (fun p => (vp_kind p =? k)%N) l).

Lemma number_packs_length s kind index l : length (number_packs s kind index l) = length l.
Proof. revert kind index. induction l as [|p l IH]; intros kind index; simpl; [done|]. by rewrite IH. Qed.

(** Positions count the earlier packs of the same kind. *)
Lemma number_packs_lookup s kind index l i p :
  StronglySorted (fun a b => (vp_kind a <= vp_kind b)%N) l ->
  (forall k, kind = Some k -> forall q, q ∈ l -> (k <= vp_kind q)%N) -> l !! i = Some p ->
  number_packs s kind index l !! i
  = Some (placed_pack s (of_kind (vp_kind p) (take i l) + (if kind == Some (vp_kind p) then index else 0)) p).
Proof.
  intros Hs. revert kind index i. induction Hs as [|x l _ IH Hx]; intros kind index i Hk Hp; [done|].
  rewrite Forall_forall in Hx. destruct i as [|i]; simpl in *; [by simplify_eq|].
  rewrite IH; [|intros k [= <-]; exact Hx|done]. f_equal. f_equal. unfold of_kind. simpl.
  assert (p ∈ l) as Hpl by by eapply list_elem_of_lookup_2.
  destruct (N.eqb_spec (vp_kind x) (vp_kind p)) as [Heq|Hne]; simpl.
  - rewrite bool_decide_eq_true_2 by congruence. rewrite Heq. lia.
  - rewrite bool_decide_eq_false_2 by congruence.
    rewrite (bool_decide_eq_false_2 (kind = Some (vp_kind p))); [lia|]. intros Hkp.
    specialize (Hk _ Hkp x ltac:(left)). specialize (Hx p Hpl). lia.
Qed.

Lemma sorted_kinds l : StronglySorted (fun a b => (vp_kind a <= vp_kind b)%N) (sort_by pack_cmp l).
Proof.
  pose proof (sort_by_sorted pack_cmp l) as Hs. induction Hs as [|x l' _ IH Hx]; constructor; [done|].
  eapply Forall_impl; [exact Hx|]. intros y. unfold pack_cmp, cmp_then, cmp_on. intros Hxy.
  apply N.compare_le_iff. intros E. by rewrite E in Hxy.
Qed.

Lemma group_pack_hash hash group p : group_pack hash group = Some p -> vp_pack_hash p.1 = hash.
Proof.
  unfold group_pack. destruct (min_by _ _); [|done]. simpl. destruct (head _); [|done]. simpl. by intros [= <-].
Qed.

Lemma elem_of_group rows hash c : c ∈ group_of rows hash <-> (c ∈ rows) /\ cr_pack_hash c = hash.
Proof. unfold group_of. by rewrite !list_elem_of_In, filter_In, bool_decide_eq_true. Qed.

Lemma elem_of_usable group c : c ∈ usable_rows group <-> (c ∈ group) /\ cr_verified c <> Some false.
Proof.
  unfold usable_rows. by rewrite list_elem_of_In, filter_In, <-list_elem_of_In, elem_of_sort_by, negb_true_iff,
    bool_decide_eq_false.
Qed.

Lemma usable_sorted group : StronglySorted (fun a b => row_cmp a b <> Gt) (usable_rows group).
Proof. unfold usable_rows. rewrite sort_by_filter by apply _. apply sort_by_sorted, _. Qed.

(** The representative is the best ranked usable copy. *)
Lemma representative group rep :
  head (usable_rows group) = Some rep ->
  (rep ∈ group) /\ cr_verified rep <> Some false
  /\ forall c, c ∈ group -> cr_verified c <> Some false -> row_cmp rep c <> Gt.
Proof.
  intros Hh. pose proof (usable_sorted group) as Hs. pose proof (elem_of_usable group) as Hin.
  destruct (usable_rows group) as [|r l]; [done|]. injection Hh as ->.
  destruct (proj1 (Hin rep) ltac:(left)) as [? ?]. split_and!; [done|done|]. intros c Hc Hv.
  apply StronglySorted_inv in Hs as [_ Hs]. rewrite Forall_forall in Hs.
  assert (c ∈ rep :: l) as [->|Hcl]%elem_of_cons by by apply Hin.
  - by rewrite (cmp_refl row_cmp).
  - by apply Hs.
Qed.

Lemma elem_of_listed rows p : p ∈ listed_packs rows <-> group_pack (vp_pack_hash p.1) (group_of rows (vp_pack_hash p.1)) = Some p.
Proof.
  unfold listed_packs. rewrite list_elem_of_omap. split.
  - intros (h & _ & Hp). by rewrite (group_pack_hash _ _ _ Hp).
  - intros Hp. exists (vp_pack_hash p.1). split; [|done]. apply elem_of_btree_elems, elem_of_list_to_set.
    unfold group_pack in Hp. destruct (min_by _ _); [|done]. simpl in Hp.
    destruct (head (usable_rows _)) as [rep|] eqn:Hh; [|done].
    apply representative in Hh as ([Hr <-]%elem_of_group & _).
    apply list_elem_of_In, in_map. by apply list_elem_of_In.
Qed.

Lemma listed_NoDup rows : NoDup (map vp_pack_hash (map fst (listed_packs rows))).
Proof.
  rewrite map_map. apply (NoDup_omap_key (fun p : V2Pack * bool => vp_pack_hash p.1) _ id).
  - intros h p. apply group_pack_hash.
  - rewrite map_id. apply NoDup_btree_elems.
Qed.

Lemma kind_of_spec rows s k :
  kind_of (listed_packs rows) s = Some k <-> exists p, (p ∈ listed_packs rows) /\ vp_pack_hash p.1 = s /\ vp_kind p.1 = k.
Proof.
  unfold kind_of. destruct (List.find _ _) as [p|] eqn:Hf; simpl.
  - apply find_some in Hf as [Hp Hh%bool_decide_eq_true]. rewrite <-list_elem_of_In in Hp. split; [intros [= <-]; by exists p|].
    intros (q & Hq & Hqh & <-). f_equal. f_equal. apply elem_of_listed in Hp, Hq. congruence.
  - split; [done|]. intros (p & Hp & Hh & _). rewrite list_elem_of_In in Hp.
    apply (find_none _ _ Hf) in Hp. by apply bool_decide_eq_false in Hp.
Qed.

Lemma elem_of_superseded_packs rows s :
  s ∈ superseded_packs (listed_packs rows) <->
  exists q p, ((q, true) ∈ listed_packs rows) /\ (p ∈ listed_packs rows) /\ vp_pack_hash p.1 = s
    /\ (s ∈ vp_supersedes q) /\ s <> vp_pack_hash q /\ vp_kind p.1 = vp_kind q.
Proof.
  unfold superseded_packs. rewrite elem_of_list_to_set, list_elem_of_In, in_concat.
  setoid_rewrite in_map_iff. setoid_rewrite <-list_elem_of_In. split.
  - intros (l & ([q []] & <- & Hq) & Hs); simpl in Hs; [|by apply not_elem_of_nil in Hs].
    rewrite list_elem_of_In, filter_In, <-list_elem_of_In, is_some_and_true in Hs.
    destruct Hs as (Hs & k & (p & Hp & Hh & Hk)%kind_of_spec & Hc). unfold supersedes_claim_counts in Hc.
    split_bools. apply N.eqb_eq in H0. exists q, p. split_and!; [done..|congruence].
  - intros (q & p & Hq & Hp & Hh & Hs & Hne & Hk). eexists. split; [by exists (q, true)|]. simpl.
    rewrite list_elem_of_In, filter_In, <-list_elem_of_In, is_some_and_true. split; [done|].
    exists (vp_kind p.1). split; [apply kind_of_spec; by exists p|]. unfold supersedes_claim_counts.
    rewrite bool_decide_eq_false_2 by done. simpl. by apply N.eqb_eq.
Qed.

Lemma number_packs_map {B} (f : V2Pack -> B) s kind index l :
  (forall i p, f (placed_pack s i p) = f p) -> map f (number_packs s kind index l) = map f l.
Proof.
  intros Hf. revert kind index. induction l as [|p l IH]; intros kind index; simpl; [done|]. by rewrite Hf, IH.
Qed.

Lemma elem_of_number_packs s kind index l p :
  p ∈ number_packs s kind index l -> exists i q, (q ∈ l) /\ p = placed_pack s i q.
Proof.
  revert kind index. induction l as [|q l IH]; intros kind index; simpl; [by intros ?%not_elem_of_nil|].
  intros [->|Hp]%elem_of_cons; [eexists _, q; split; [left|done]|].
  destruct (IH _ _ Hp) as (i & q' & Hq & ->). exists i, q'. split; [by right|done].
Qed.

Lemma of_kind_take k l1 l2 i : map vp_kind l1 = map vp_kind l2 -> of_kind k (take i l1) = of_kind k (take i l2).
Proof.
  revert l2 i. induction l1 as [|p l1 IH]; intros [|q l2] i Heq; try done. simpl in Heq. injection Heq as Hk Heq.
  destruct i as [|i]; [done|]. unfold of_kind in *. simpl. rewrite Hk. specialize (IH l2 i Heq).
  destruct (vp_kind q =? k)%N; simpl; congruence.
Qed.

(** What one listed pack says of its copies. *)
Definition pack_of (rows : list PackCopyRow) (p : V2Pack) : Prop :=
  let mine c := (c ∈ rows) /\ cr_pack_hash c = vp_pack_hash p in
  (exists rep, mine rep /\ cr_verified rep <> Some false
     /\ (forall c, mine c -> cr_verified c <> Some false -> row_cmp rep c <> Gt)
     /\ vp_kind p = cr_kind rep
     /\ vp_size_bytes p = cr_size_bytes rep /\ vp_object_count p = cr_object_count rep /\ vp_chunk_count p = cr_chunk_count rep
     /\ vp_supersedes p = claimed_supersedes (cr_owner_role rep) (cr_supersedes rep)
     /\ head (vp_copies p) = Some (cr_id rep))
  /\ (exists l, vp_copies p = map cr_id l /\ StronglySorted (fun a b => row_cmp a b <> Gt) l
     /\ forall c, c ∈ l <-> mine c /\ cr_verified c <> Some false /\ cr_kind c = vp_kind p)
  /\ (exists c, mine c /\ row_key c = vp_first p)
  /\ (forall c, mine c -> key_cmp (vp_first p) (row_key c) <> Gt).

Lemma listed_pack_of rows p : p ∈ listed_packs rows -> pack_of rows p.1.
Proof.
  intros Hp%elem_of_listed. unfold group_pack in Hp.
  destruct (min_by _ _) as [first|] eqn:Hm; [|done]. simpl in Hp.
  destruct (head (usable_rows _)) as [rep|] eqn:Hh; [|done]. simpl in Hp. injection Hp as <-. simpl in *.
  apply min_by_Some in Hm as [Hmin Hle]; [|apply _]. pose proof (representative _ _ Hh) as (Hr & Hv & Hbest).
  split_and!.
  - exists rep. rewrite <-elem_of_group. split_and!; [done|done| |done..|].
    + intros c Hc. rewrite <-elem_of_group in Hc. by apply Hbest.
    + destruct (usable_rows _) as [|r l]; [done|]. injection Hh as ->. simpl. by rewrite N.eqb_refl.
  - eexists. split_and!; [done|by apply sorted_filter, usable_sorted|]. intros c.
    rewrite list_elem_of_In, filter_In, <-list_elem_of_In, elem_of_usable, elem_of_group, N.eqb_eq. tauto.
  - apply list_elem_of_In, in_map_iff in Hmin as (c & <- & Hc%list_elem_of_In%elem_of_group). by exists c.
  - intros c Hc%elem_of_group. apply Hle. apply list_elem_of_In, in_map. by apply list_elem_of_In.
Qed.

Lemma listed_iff_usable rows h :
  (exists p, (p ∈ listed_packs rows) /\ vp_pack_hash p.1 = h) <->
  exists c, (c ∈ rows) /\ cr_pack_hash c = h /\ cr_verified c <> Some false.
Proof.
  split.
  - intros (p & Hp & <-). destruct (listed_pack_of rows p Hp) as ((rep & [? ?] & ? & _) & _). by exists rep.
  - intros (c & Hc & Hh & Hv).
    assert (c ∈ group_of rows h) as Hg by by apply elem_of_group.
    assert (c ∈ usable_rows (group_of rows h)) as Hu by by apply elem_of_usable.
    destruct (group_pack h (group_of rows h)) as [p|] eqn:Hp.
    + exists p. pose proof (group_pack_hash _ _ _ Hp) as Hph. split; [|done]. apply elem_of_listed. by rewrite Hph.
    + exfalso. unfold group_pack in Hp. destruct (min_by _ _) eqn:Hm.
      * simpl in Hp. destruct (usable_rows _); [by apply not_elem_of_nil in Hu|done].
      * apply min_by_None in Hm. destruct (group_of rows h); [by apply not_elem_of_nil in Hg|done].
Qed.

Lemma elem_of_v2_pack_list copies as_of p :
  p ∈ v2_pack_list copies as_of -> exists q b, ((q, b) ∈ listed_packs (rows_as_of copies as_of))
    /\ p = placed_pack (superseded_packs (listed_packs (rows_as_of copies as_of))) (vp_pack_ref p) q.
Proof.
  unfold v2_pack_list. intros (i & q & Hq & ->)%elem_of_number_packs.
  rewrite elem_of_sort_by, list_elem_of_In, in_map_iff in Hq. destruct Hq as ([q' b] & <- & Hq).
  exists q', b. split; [by apply list_elem_of_In|done].
Qed.

Lemma rows_as_of_later l1 l2 k :
  (forall c, c ∈ l2 -> key_cmp k (row_key c) = Lt) -> rows_as_of (l1 ++ l2) (Some k) = rows_as_of l1 (Some k).
Proof.
  intros H. unfold rows_as_of. rewrite List.filter_app, (filter_none _ l2); [by rewrite app_nil_r|].
  intros c Hc. simpl. unfold key_le. specialize (H c Hc). apply (cmp_gt_lt key_cmp) in H. by rewrite H.
Qed.

Lemma key_cmp_eq a b : key_cmp a b = Eq -> a = b.
Proof.
  destruct a as [t1 i1], b as [t2 i2]. unfold key_cmp, cmp_then, cmp_on. simpl.
  destruct (t1 ?= t2)%N eqn:Ht; try done. apply N.compare_eq in Ht as ->. intros ->%String.compare_eq_iff. done.
Qed.

(** ** Theorems *)

(** A reader fetches every pack that has a verified copy, once, from the best verified
    copy (by the uploader's role, then time, then id); a pack is marked superseded
    exactly when the copy read of another pack, not a bot's, claims it; and the
    superseded packs come after the rest, none dropped. *)
Theorem pack_read_order_spec copies :
  let r := pack_read_order copies in
  NoDup (map pp_pack_hash r)
  /\ (forall h, h ∈ map pp_pack_hash r <-> exists c, (c ∈ copies) /\ pc_pack_hash c = h /\ pc_verified c = true)
  /\ (forall p, p ∈ r -> exists c, (c ∈ copies) /\ pc_pack_hash c = pp_pack_hash p /\ pc_id c = pp_copy_id p
        /\ pc_verified c = true
        /\ (forall d, d ∈ copies -> pc_pack_hash d = pp_pack_hash p -> pc_verified d = true -> copy_cmp c d <> Gt)
        /\ (pp_superseded p = true <-> exists d, selected_of copies (pc_pack_hash d) = Some d
              /\ pc_owner_role d <> Some Bot /\ (pp_pack_hash p ∈ pc_supersedes d) /\ pp_pack_hash p <> pc_pack_hash d))
  /\ StronglySorted (fun a b => pp_superseded a = true -> pp_superseded b = true) r.
Proof.
  intros r. unfold r, pack_read_order. set (sel := selected_copies copies). set (sup := superseded_by sel).
  assert (forall c, c ∈ sel <-> selected_of copies (pc_pack_hash c) = Some c) as Hsel by apply elem_of_selected.
  assert (forall p, p ∈ map (fun c => mkPackPick (pc_pack_hash c) (pc_id c) (bool_decide (pc_pack_hash c ∈ sup)))
      (sort_by (read_cmp sup) sel) <-> exists c, selected_of copies (pc_pack_hash c) = Some c
        /\ p = mkPackPick (pc_pack_hash c) (pc_id c) (bool_decide (pc_pack_hash c ∈ sup))) as Hin.
  { intros p. rewrite list_elem_of_In, in_map_iff. setoid_rewrite <-list_elem_of_In.
    setoid_rewrite elem_of_sort_by. setoid_rewrite Hsel. split; intros (c & ? & ?); by exists c. }
  split_and!.
  - rewrite map_map. simpl. change (map pc_pack_hash) with (fmap (M := list) pc_pack_hash).
    rewrite sort_by_perm. apply selected_NoDup.
  - intros h. rewrite map_map. simpl. rewrite list_elem_of_In, in_map_iff. setoid_rewrite <-list_elem_of_In.
    setoid_rewrite elem_of_sort_by. setoid_rewrite Hsel. split.
    + intros (c & <- & Hc). pose proof (selected_of_hash _ _ _ Hc) as [? _]. unfold selected_of in Hc.
      pose proof (select_facts (List.filter (fun d => pc_pack_hash d == pc_pack_hash c) copies)) as Hs.
      rewrite Hc in Hs. exists c. split_and!; [done|done|apply Hs].
    + intros (c & Hc & Hh & Hv). destruct (selected_of copies h) as [d|] eqn:Hd.
      * pose proof (selected_of_hash _ _ _ Hd) as [_ Hdh]. exists d. split; [done|by rewrite Hdh].
      * pose proof (select_facts (List.filter (fun d => pc_pack_hash d == h) copies)) as Hs.
        unfold selected_of in Hd. rewrite Hd in Hs. rewrite Hs in Hv; [done|by apply elem_of_of_hash].
  - intros p (c & Hc & ->)%Hin. simpl. pose proof (selected_of_hash _ _ _ Hc) as [Hcin _].
    pose proof (select_facts (List.filter (fun d => pc_pack_hash d == pc_pack_hash c) copies)) as Hs.
    unfold selected_of in Hc. rewrite Hc in Hs. destruct Hs as (_ & Hv & Hbest).
    exists c. split_and!; [done..| |].
    + intros d Hd Hdh Hdv. apply Hbest; [by apply elem_of_of_hash|done].
    + rewrite bool_decide_eq_true. unfold sup. rewrite elem_of_superseded_by. by setoid_rewrite Hsel.
  - pose proof (sort_by_sorted (read_cmp sup) sel) as Hs. clear Hin. induction Hs as [|x l _ IH Hx]; constructor; [done|].
    apply Forall_map. eapply Forall_impl; [exact Hx|]. intros y. simpl. unfold read_cmp, cmp_then, cmp_on.
    by destruct (bool_decide (pc_pack_hash x ∈ sup)), (bool_decide (pc_pack_hash y ∈ sup)).
Qed.


(** Positions are stable: copies uploaded after a locator's cut-off change nothing in
    its list, and later copies of a pack, whatever their uploader's rank, never move the
    key it is placed by. *)
Theorem v2_pack_list_stable l1 l2 k :
  (forall c, c ∈ l2 -> key_cmp k (row_key c) = Lt) ->
  v2_pack_list (l1 ++ l2) (Some k) = v2_pack_list l1 (Some k)
  /\ ((forall c, c ∈ l1 -> key_cmp (row_key c) k <> Gt) ->
      forall p p', p ∈ v2_pack_list l1 None -> p' ∈ v2_pack_list (l1 ++ l2) None ->
        vp_pack_hash p = vp_pack_hash p' -> vp_first p' = vp_first p).
Proof.
  intros Hlater. split; [unfold v2_pack_list; by rewrite rows_as_of_later|].
  intros Hearlier p p' Hp Hp' Hh.
  assert (forall l, rows_as_of l None = l) as Hall by (intros l; apply List.forallb_filter_id, forallb_forall; done).
  destruct (elem_of_v2_pack_list _ _ _ Hp) as (q & b & Hq & Heq).
  destruct (elem_of_v2_pack_list _ _ _ Hp') as (q' & b' & Hq' & Heq'). rewrite Hall in Hq, Hq', Heq, Heq'.
  destruct (listed_pack_of _ _ Hq) as (_ & _ & (c & [Hc Hch] & Hck) & Hmin).
  destruct (listed_pack_of _ _ Hq') as (_ & _ & (c' & [Hc' Hch'] & Hck') & Hmin'). simpl in *.
  assert (vp_pack_hash p = vp_pack_hash q /\ vp_first p = vp_first q) as [Hph ->] by by rewrite Heq.
  assert (vp_pack_hash p' = vp_pack_hash q' /\ vp_first p' = vp_first q') as [Hph' ->] by by rewrite Heq'.
  apply key_cmp_eq. pose proof (Hmin' c ltac:(split; [set_solver|congruence])) as H1. rewrite Hck in H1.
  apply elem_of_app in Hc' as [Hc'|Hc'].
  - pose proof (Hmin c' ltac:(split; [done|congruence])) as H2. rewrite Hck' in H2.
    destruct (key_cmp (vp_first q') (vp_first q)) eqn:E; [done| |done].
    by rewrite (proj2 (cmp_gt_lt key_cmp _ _) E) in H2.
  - specialize (Hlater c' Hc'). rewrite Hck' in Hlater. specialize (Hearlier c Hc). rewrite Hck in Hearlier.
    pose proof (cmp_le_lt_trans key_cmp _ _ _ Hearlier Hlater) as H2. by rewrite (proj2 (cmp_gt_lt key_cmp _ _) H2) in H1.
Qed.

(** Planning honours exactly the claims of maintainers' and writers' manifests of the
    kind asked for, and none on the manifest's own pack: a bot, a triage member, a reader
    or a past member retires nothing. *)
Theorem planning_superseded_spec copies kind h :
  h ∈ planning_superseded copies kind <->
  exists c, (c ∈ copies) /\ cr_kind c = kind /\ (cr_owner_role c = Some Maintainer \/ cr_owner_role c = Some Writer)
    /\ (h ∈ cr_supersedes c) /\ h <> cr_pack_hash c.
Proof.
  unfold planning_superseded. rewrite elem_of_list_to_set, list_elem_of_In, in_concat.
  setoid_rewrite in_map_iff. split.
  - intros (l & (c & <- & Hc) & Hh). rewrite !filter_In in Hc. rewrite filter_In in Hh.
    destruct Hc as [[Hc Hk%N.eqb_eq] Hr], Hh as [Hh Hcl]. unfold supersedes_claim_counts in Hcl.
    apply andb_true_iff in Hcl as [Hcl%negb_true_iff _]. apply bool_decide_eq_false in Hcl.
    exists c. rewrite !list_elem_of_In. split_and!; [done..| |done|done].
    destruct (cr_owner_role c) as [[]|]; auto; done.
  - intros (c & Hc & Hk & Hr & Hh & Hne). eexists. split.
    + exists c. split; [done|]. rewrite !filter_In, <-list_elem_of_In. split_and!; [done|by apply N.eqb_eq|].
      by destruct Hr as [-> | ->].
    + rewrite filter_In, <-list_elem_of_In. split; [done|]. unfold supersedes_claim_counts.
      rewrite bool_decide_eq_false_2 by done. simpl. by apply N.eqb_eq.
Qed.

(** A pack uploaded by a writer, and a maintainer's later copy of it. *)
Definition row (id : string) (role : Role) (t : N) : PackCopyRow :=
  mkPackCopyRow id "aa" 0 t (Some role) 1 1 1 [] (Some true).

Lemma v2_pack_list_stable_witness :
  v2_pack_list ([row "1" Writer 10] ++ [row "2" Maintainer 20]) (Some (mkCopyKey 15 ""))
  = v2_pack_list [row "1" Writer 10] (Some (mkCopyKey 15 "")).
Proof. apply v2_pack_list_stable. by intros c ->%list_elem_of_singleton. Defined.
