(* ===== verification/Content.v ===== *)
(** Content well-formedness and audiences ([rules/v2.rs]): which documents a reader accepts
    as plaintext or sealed, in public and private repositories, on the discussion and the
    git plane, and how the audiences of a reply and its parent nest. *)
From S2P Require Import Prelude Names.

(** ** Definitions *)

Inductive Visibility := VPublic | VPrivate.

#[export] Instance Visibility_eq_dec : EqDecision Visibility.
Proof. solve_decision. Defined.

Inductive ContentKind := KIssue | KPatch | KComment | KReview | KRefUpdate | KConfig | KRelease.

#[export] Instance ContentKind_eq_dec : EqDecision ContentKind.
Proof. solve_decision. Defined.

Record ContentDoc := mkContentDoc {
  d_kind : ContentKind;
  d_title : option string;
  d_body : option string;
  d_ref_name : option string;
  d_base_ref_name : option string;
  d_source_ref_name : option string;
  d_ref_name_hash : option string;
  d_base_ref_name_hash : option string;
  d_source_ref_name_hash : option string;
  d_path : option string;
  d_default_branch : option string;
  d_protected_patterns : option (list string);
  d_enc : option string;
  d_epoch : option N;
  d_release_fields : list string
}.

Definition RELEASE_PLAINTEXT_FIELDS : list string := ["name"; "notes"; "assets"; "assetManifest"; "yanked"; "imported"].

Definition present (s : option string) : bool := is_some_and s (fun s => s != "").

Record Plaintext := mkPlaintext { pt_required_missing : bool; pt_any : bool }.

Definition plaintext (d : ContentDoc) : Plaintext :=
  let any := existsb present in
  let '(required, any) :=
    match d_kind d with
    | KIssue => (Some (d_title d), any [d_title d; d_body d])
    | KPatch => (Some (d_title d), any [d_title d; d_body d; d_base_ref_name d; d_source_ref_name d])
    | KComment => (Some (d_body d), any [d_body d; d_path d])
    | KReview => (None, present (d_body d))
    | KRefUpdate => (Some (d_ref_name d), present (d_ref_name d))
    | KConfig =>
      (None, present (d_default_branch d) || is_some_and (d_protected_patterns d) (fun p => negb (p == [])))
    | KRelease => (None, negb (d_release_fields d == []))
    end in
  mkPlaintext (is_some_and required (fun f => negb (present f))) any.

Definition ENC_MEMBERS : N := 3.
Definition ENC_SPECIFIC_PEOPLE : N := 4.

(** The document's own stamp [vis], judged beside the repository's visibility. *)
Definition doc_visibility (vis : option string) (repository : Visibility) : option Visibility :=
  if vis == Some "private" then Some VPrivate
  else if vis == Some "public" then
    match repository with VPublic => Some VPublic | VPrivate => None end
  else Some repository.

Definition hex_val (a : Ascii.ascii) : option N :=
  if is_digit a then Some (byte_val a - 48)%N
  else if in_range "a"%char "f"%char a then Some (byte_val a - 87)%N
  else if in_range "A"%char "F"%char a then Some (byte_val a - 55)%N
  else None.

(** [u8::from_str_radix] of two bytes, base 16: a leading plus sign is accepted. *)
Definition u8_from_hex2 (a b : Ascii.ascii) : option N :=
  if a == "+"%char then hex_val b
  else hi ← hex_val a; lo ← hex_val b; Some (16 * hi + lo)%N.

Definition enc_version (d : ContentDoc) : option N :=
  match opt_filter (fun e => e != "") (d_enc d) with
  | Some (String a (String b _)) => u8_from_hex2 a b
  | _ => None
  end.

Inductive Audience := Public | Members | SpecificPeople.

#[export] Instance Audience_eq_dec : EqDecision Audience.
Proof. solve_decision. Defined.

Definition audience_of (d : ContentDoc) : Audience :=
  match enc_version d with
  | None => if negb (present (d_enc d)) then Public else Members
  | Some v => if (v =? ENC_SPECIFIC_PEOPLE)%N then SpecificPeople else Members
  end.

Definition fits_under (self parent : Audience) : bool :=
  match self, parent with
  | _, Public | SpecificPeople, Members => true
  | Public, _ => false
  | child, parent => child == parent
  end.

Definition binding (self : Audience) (written_private : bool) : Audience := if written_private then Public else self.

Definition narrower (self other : Audience) : Audience := if fits_under self other then self else other.

Section hashes.
(** The hash functions: hex of SHA-256, and of HMAC-SHA256 under a key. *)
Variable sha256_hex : string -> string.
Variable hmac_sha256_hex : string -> string -> string.

Definition name_matches (ref_key : option string) (name hash : string) : bool :=
  match ref_key with
  | None => eq_ignore_case (sha256_hex name) hash
  | Some key => eq_ignore_case (hmac_sha256_hex key name) hash
  end.

Definition agrees (ref_key : option string) (name hash : option string) : bool :=
  match name with
  | Some n => if n != "" then is_some_and hash (fun h => name_matches ref_key n h) else true
  | None => true
  end.

Definition ref_name_hashes_agree (d : ContentDoc) (ref_key : option string) : bool :=
  match d_kind d with
  | KRefUpdate => agrees ref_key (d_ref_name d) (d_ref_name_hash d)
  | KPatch => agrees ref_key (d_base_ref_name d) (d_base_ref_name_hash d)
        && agrees ref_key (d_source_ref_name d) (d_source_ref_name_hash d)
  | _ => true
  end.

Definition git_plane_well_formed (d : ContentDoc) : bool :=
  negb (present (d_enc d)) && negb (pt_required_missing (plaintext d)) && ref_name_hashes_agree d None.

Definition is_discussion (k : ContentKind) : bool :=
  match k with KIssue | KPatch | KComment | KReview => true | _ => false end.

Definition content_well_formed (d : ContentDoc) (visibility : Visibility) : bool :=
  let plain := plaintext d in
  let encrypted := present (d_enc d) in
  match visibility with
  | VPublic =>
  if negb encrypted then git_plane_well_formed d
  else is_discussion (d_kind d) && is_some_and (enc_version d) (fun v => ENC_MEMBERS <=? v)%N
   && is_some_and (d_epoch d) (fun _ => true) && negb (pt_any plain)
  | VPrivate => encrypted && is_some_and (d_epoch d) (fun _ => true) && negb (pt_any plain)
  end.
End hashes.

Definition edit_keeps_audience (stored edited : ContentDoc) : bool :=
  let a := audience_of stored in
  let b := audience_of edited in
  (a == b) && ((b == Public) || negb (pt_any (plaintext edited))).

(** ** Helper lemmas *)

Lemma enc_version_present d v : enc_version d = Some v -> present (d_enc d) = true.
Proof.
  unfold enc_version, present. destruct (d_enc d) as [e|]; [|done]. simpl. by destruct (e != "").
Qed.

Lemma hex_val_bound a v : hex_val a = Some v -> (v < 16)%N.
Proof. destruct a as [[] [] [] [] [] [] [] []]; vm_compute; intros H; simplify_eq; done. Qed.

Lemma enc_version_bound d v : enc_version d = Some v -> (v <= 255)%N.
Proof.
  unfold enc_version. destruct (opt_filter _ _) as [[|a [|b s]]|]; try done. unfold u8_from_hex2.
  case_bool_decide; [intros H1%hex_val_bound; lia|].
  destruct (hex_val a) as [hi|] eqn:Ha; [|done]. destruct (hex_val b) as [lo|] eqn:Hb; [|done].
  apply hex_val_bound in Ha, Hb. simpl. intros [= <-]. lia.
Qed.

(** The required field is one of the plaintext fields. *)
Lemma no_plaintext_misses_required d :
  pt_any (plaintext d) = false -> is_discussion (d_kind d) = true -> d_kind d <> KReview ->
  pt_required_missing (plaintext d) = true.
Proof.
  unfold plaintext. destruct (d_kind d); try done; simpl; intros H _ _; rewrite !orb_false_iff in H; by destruct H as [-> _].
Qed.

Lemma agrees_spec sha hmac key name hash :
  agrees sha hmac key name hash = true <->
  forall n, name = Some n -> n <> "" -> exists h, hash = Some h /\ name_matches sha hmac key n h = true.
Proof.
  unfold agrees. destruct name as [n|]; [|by split].
  destruct (decide (n = "")) as [->|Hne].
  - rewrite bool_decide_eq_true_2 by done. simpl. split; [|done]. by intros _ ? [= <-].
  - rewrite bool_decide_eq_false_2 by done. simpl. rewrite is_some_and_true. split; [by intros ? ? [= <-]|by intros H; apply H].
Qed.

(** ** Theorems *)

(** What content a reader accepts. In a private repository: sealed, with an epoch, and no
    plaintext field. In a public one: either no seal, the kind's required field, and names
    that hash to their keys; or, for the discussion kinds only, a seal of the members-only
    version or a later one, with an epoch and no plaintext field. So plaintext never
    sits beside a seal, and a sealed ref update, config or release is never public content. *)
Theorem content_well_formed_spec sha hmac d visibility :
  content_well_formed sha hmac d visibility = true <->
  match visibility with
  | VPrivate => present (d_enc d) = true /\ d_epoch d <> None /\ pt_any (plaintext d) = false
  | VPublic =>
    (present (d_enc d) = false /\ pt_required_missing (plaintext d) = false
     /\ ref_name_hashes_agree sha hmac d None = true)
    \/ (is_discussion (d_kind d) = true /\ (exists v, enc_version d = Some v /\ 3 <= v <= 255)%N
        /\ d_epoch d <> None /\ pt_any (plaintext d) = false)
  end.
Proof.
  assert (is_some_and (d_epoch d) (fun _ => true) = true <-> d_epoch d <> None) as He by by destruct (d_epoch d).
  unfold content_well_formed, git_plane_well_formed. destruct visibility.
  - destruct (present (d_enc d)) eqn:Hp; simpl.
    + rewrite !andb_true_iff, negb_true_iff, He, is_some_and_true. setoid_rewrite N.leb_le. unfold ENC_MEMBERS. split.
      * intros [[[Hk (v & Hv & Hle)] Hep] Ha]. right. split_and!; [done| |done|done].
        exists v. split_and!; [done|done|by eapply enc_version_bound].
      * intros [(? & _)|(Hk & (v & Hv & Hle & _) & Hep & Ha)]; [done|]. split_and!; [done| |done|done]. by exists v.
    + rewrite andb_true_iff, negb_true_iff. split; [intros [? ?]; by left|].
      intros [(_ & ? & ?)|(_ & (v & Hv & _) & _)]; [done|]. apply enc_version_present in Hv. congruence.
  - rewrite !andb_true_iff, negb_true_iff, He. tauto.
Qed.

(** The git plane takes plaintext only. A settings or ref document that carries any seal,
    of any version, is refused; one that is accepted names refs that hash to the keys
    they are indexed under; and every unsealed document accepted as public content is
    one of these. *)
Theorem git_plane_unsealed sha hmac d :
  (git_plane_well_formed sha hmac d = true <->
   present (d_enc d) = false /\ pt_required_missing (plaintext d) = false
   /\ match d_kind d with
      | KRefUpdate => forall n, d_ref_name d = Some n -> n <> "" ->
          exists h, d_ref_name_hash d = Some h /\ to_lower (sha n) = to_lower h
      | KPatch => (forall n, d_base_ref_name d = Some n -> n <> "" ->
          exists h, d_base_ref_name_hash d = Some h /\ to_lower (sha n) = to_lower h)
        /\ (forall n, d_source_ref_name d = Some n -> n <> "" ->
          exists h, d_source_ref_name_hash d = Some h /\ to_lower (sha n) = to_lower h)
      | _ => True
      end)
  /\ (audience_of d = Public <-> present (d_enc d) = false)
  /\ (content_well_formed sha hmac d VPublic = true -> audience_of d = Public -> git_plane_well_formed sha hmac d = true).
Proof.
  split_and!.
  - unfold git_plane_well_formed, ref_name_hashes_agree. rewrite !andb_true_iff, !negb_true_iff.
    destruct (d_kind d); rewrite ?andb_true_iff, ?agrees_spec; unfold name_matches, eq_ignore_case;
      repeat setoid_rewrite bool_decide_eq_true; tauto.
  - unfold audience_of. destruct (enc_version d) as [v|] eqn:Hv.
    + apply enc_version_present in Hv. rewrite Hv. by destruct (v =? ENC_SPECIFIC_PEOPLE)%N.
    + by destruct (present (d_enc d)).
  - unfold content_well_formed, audience_of. destruct (present (d_enc d)) eqn:Hp; simpl; [|done].
    intros _. destruct (enc_version d) as [v|]; [by destruct (v =? ENC_SPECIFIC_PEOPLE)%N|done].
Qed.

(** Audiences nest in one chain, specific people inside members inside everyone: fitting
    under is reflexive, antisymmetric, transitive and total, the narrower of two is the
    greatest audience that fits under both, a parent written while the repository was
    private binds nothing, and an edit keeps the audience or is refused. *)
Theorem audience_order :
  (forall a, fits_under a a = true)
  /\ (forall a b, fits_under a b = true -> fits_under b a = true -> a = b)
  /\ (forall a b c, fits_under a b = true -> fits_under b c = true -> fits_under a c = true)
  /\ (forall a b, fits_under a b = true \/ fits_under b a = true)
  /\ (forall a b c, fits_under c (narrower a b) = true <-> fits_under c a = true /\ fits_under c b = true)
  /\ (forall a c, fits_under c (binding a true) = true /\ binding a false = a)
  /\ (forall s e, edit_keeps_audience s e = true ->
        audience_of e = audience_of s /\ (audience_of s <> Public -> pt_any (plaintext e) = false)).
Proof.
  split_and!; try by (intros; repeat match goal with x : Audience |- _ => destruct x end; simpl in *; auto).
  - intros [] [] []; simpl; tauto.
  - unfold edit_keeps_audience. intros s e [H1 H2]%andb_true_iff. apply bool_decide_eq_true in H1.
    split; [done|]. intros Hn. rewrite <-H1, bool_decide_eq_false_2 in H2 by done. by apply negb_true_iff in H2.
Qed.
