(* ===== verification/PackMirror.v ===== *)
(** Pack mirrors ([rules/pack_mirror.rs]): the addresses a writer may record for a pack and the
    addresses a reader tries, in order. *)
From S2P Require Import Wire.
From S2P Require Import Prelude Text Members Content Packs.

Definition KIND_HTTPS : N := 1.
Definition KIND_IPFS : N := 2.
Definition MAX_URIS : nat := 4.
Definition MAX_URI_CHARS : nat := 300.
Definition MIRROR_URIS_TRIED : nat := 8.
Definition STRANGER_URIS_TRIED : nat := 2.

Inductive UriProblem :=
| NoAddress
| TooMany
| Length
| Address
| IpfsPath
| Duplicate
| MixedKinds.

Inductive UriCheck :=
| UriOk (kind : N)
| Refused (problem : UriProblem) (index : option nat).

Definition is_posix_space (c : Ascii.ascii) : bool :=
  existsb (fun n => byte_val c =? n)%N [32; 9; 10; 11; 12; 13]%N.

Definition starts_tail (c : Ascii.ascii) : bool := (c == "/"%char) || (c == "?"%char) || (c == "#"%char).

Definition is_tail (rest : list Ascii.ascii) : bool :=
  match rest with
  | [] => true
  | c :: _ => starts_tail c && negb (existsb is_posix_space rest)
  end.

Definition char_count (uri : string) : nat := length (chars (bytes uri)).

Definition uri_kind (uri : string) : option N :=
  let n := char_count uri in
  if (n =? 0) || (MAX_URI_CHARS <? n) then None
  else match strip_prefix "ipfs://" uri with
  | Some cid => if (cid != "") && forallb is_alnum (bytes cid) then Some KIND_IPFS else None
  | None =>
    rest ← strip_prefix "https://" uri;
    let '(host, tail) := span (fun c => negb (starts_tail c)) (bytes rest) in
    if (host != []) && negb (existsb (fun c => (c == "@"%char) || is_posix_space c) host) && is_tail tail
    then Some KIND_HTTPS else None
  end.

Definition admitted (uri : string) : bool :=
  match strip_prefix "ipfs://" uri with
  | Some rest => let '(cid, tail) := span is_alnum (bytes rest) in (cid != []) && is_tail tail
  | None => uri_kind uri == Some KIND_HTTPS
  end.

(** The loop over the addresses: [seen] are those before it, [kinds] theirs. *)
Fixpoint check_uris (i : nat) (seen : list string) (kinds : list N) (uris : list string) : UriCheck + list N :=
  match uris with
  | [] => inr kinds
  | uri :: uris =>
    let n := char_count uri in
    if (n =? 0) || (MAX_URI_CHARS <? n) then inl (Refused Length (Some i))
    else if negb (admitted uri) then inl (Refused Address (Some i))
    else match uri_kind uri with
    | None => inl (Refused IpfsPath (Some i))
    | Some kind =>
      if bool_decide (uri ∈ seen) then inl (Refused Duplicate (Some i))
      else check_uris (S i) (seen ++ [uri]) (kinds ++ [kind]) uris
    end
  end.

Definition check_mirror_uris (uris : list string) : UriCheck :=
  if uris == [] then Refused NoAddress None
  else if MAX_URIS <? length uris then Refused TooMany None
  else match check_uris 0 [] [] uris with
  | inl refused => refused
  | inr kinds =>
    let first := hd 0%N kinds in
    if existsb (fun k => negb (k =? first)%N) kinds then Refused MixedKinds None else UriOk first
  end.

Record MirrorRecord := mkMirrorRecord {
  mr_id : string;
  mr_owner_role : option Role;
  mr_created_at : N;
  mr_pack_hash : string;
  mr_kind : N;
  mr_uris : list string
}.

Record MirrorReadInput := mkMirrorReadInput {
  mi_pack_hash : string;
  mi_listed : list string;
  mi_visibility : Visibility;
  mi_mirrors : list MirrorRecord
}.

Definition capped (role : option Role) : bool := match role with None | Some Bot => true | _ => false end.

Definition mirror_cmp : MirrorRecord -> MirrorRecord -> comparison :=
  cmp_then (cmp_then (cmp_on (fun m => role_rank (mr_owner_role m)) N.compare) (cmp_on mr_created_at N.compare))
    (cmp_on mr_id String.compare).

(** The loop over one record's addresses; [true] with the result when the read is full. *)
Fixpoint give (is_capped : bool) (kind : N) (given : nat) (out uris : list string) : list string * bool :=
  match uris with
  | [] => (out, false)
  | uri :: uris =>
    if is_capped && (given =? STRANGER_URIS_TRIED) then (out, false)
    else if (uri_kind uri == Some kind) && negb (bool_decide (uri ∈ out)) then
      let out := out ++ [uri] in
      if length out =? MIRROR_URIS_TRIED then (out, true) else give is_capped kind (S given) out uris
    else give is_capped kind given out uris
  end.

Fixpoint give_all (out : list string) (records : list MirrorRecord) : list string :=
  match records with
  | [] => out
  | m :: records =>
    let '(out, full) := give (capped (mr_owner_role m)) (mr_kind m) 0 out (mr_uris m) in
    if full then out else give_all out records
  end.

(** The records a read of [want] may use, members' first. *)
Definition read_records (want : string) (mirrors : list MirrorRecord) : list MirrorRecord :=
  sort_by mirror_cmp
    (List.filter (fun m => (mr_kind m =? KIND_HTTPS)%N || (mr_kind m =? KIND_IPFS)%N)
      (List.filter (fun m => eq_ignore_case (mr_pack_hash m) want) mirrors)).

Definition mirror_read_order (input : MirrorReadInput) : list string :=
  let want := to_lower (mi_pack_hash input) in
  if (mi_visibility input == VPrivate) || negb (existsb (fun h => eq_ignore_case h want) (mi_listed input)) then []
  else give_all [] (read_records want (mi_mirrors input)).

Example check_two : check_mirror_uris ["https://a.example/p"; "https://b.example"] = UriOk 1.
Proof. vm_compute. reflexivity. Qed.
Example check_path : check_mirror_uris ["ipfs://bafy"; "ipfs://bafy/x"] = Refused IpfsPath (Some 1).
Proof. vm_compute. reflexivity. Qed.

(** ** What a writer may record *)

Lemma uri_kind_admitted uri kind : uri_kind uri = Some kind -> admitted uri = true.
Proof.
  unfold admitted, uri_kind. destruct ((char_count uri =? 0) || _) eqn:En; [done|].
  destruct (strip_prefix "ipfs://" uri) as [cid|] eqn:Ei.
  - destruct ((cid != "") && _) eqn:Ec; [|done]. intros _. split_bools.
    rewrite <-(app_nil_r (bytes cid)), span_app; [|by apply Forall_forall; intros x Hx%list_elem_of_In; eapply List.forallb_forall|done].
    simpl. rewrite andb_true_r, bool_decide_eq_false_2; [done|]. intros E. destruct cid; done.
  - intros Hk. rewrite Hk. apply bool_decide_eq_true. f_equal.
    destruct (strip_prefix "https://" uri) as [rest|]; simpl in Hk; [|done].
    destruct (span _ _) as [host tail]. destruct ((host != []) && _ && _); by simplify_eq.
Qed.

Lemma uri_kind_length uri kind :
  uri_kind uri = Some kind -> (char_count uri =? 0) || (MAX_URI_CHARS <? char_count uri) = false.
Proof. unfold uri_kind. by destruct (_ || _). Qed.

Lemma check_uris_spec i seen kinds uris :
  match check_uris i seen kinds uris with
  | inr ks => exists ks', ks = kinds ++ ks' /\ Forall2 (fun u k => uri_kind u = Some k) uris ks'
      /\ NoDup uris /\ forall u, u ∈ uris -> u ∉ seen
  | inl r => (exists p j, r = Refused p j)
      /\ ~ (exists ks', Forall2 (fun u k => uri_kind u = Some k) uris ks' /\ NoDup uris /\ forall u, u ∈ uris -> u ∉ seen)
  end.
Proof.
  revert i seen kinds. induction uris as [|u uris IH]; intros i seen kinds; simpl.
  { exists []. rewrite app_nil_r. split_and!; [done|constructor|constructor|by intros ? ?%not_elem_of_nil]. }
  assert (forall A (P : Prop), uri_kind u = None -> ~ (exists ks' : list N,
    Forall2 (fun u k => uri_kind u = Some k) (u :: uris) ks' /\ A /\ P)) as Hnone.
  { intros A P Hu (ks & Hf & _). inversion Hf; congruence. }
  destruct ((char_count u =? 0) || _) eqn:En.
  { split; [by eexists _, _|]. apply Hnone. unfold uri_kind. by rewrite En. }
  destruct (admitted u) eqn:Ea; cbn [negb].
  2:{ split; [by eexists _, _|]. apply Hnone. destruct (uri_kind u) eqn:Ek; [|done]. apply uri_kind_admitted in Ek. congruence. }
  destruct (uri_kind u) as [k|] eqn:Ek; [|split; [by eexists _, _|by apply Hnone]].
  case_bool_decide as Hseen.
  { split; [by eexists _, _|]. intros (ks & _ & _ & Hn). apply (Hn u); [left|done]. }
  specialize (IH (S i) (seen ++ [u]) (kinds ++ [k])). destruct (check_uris _ _ _ uris) as [r|ks].
  - destruct IH as [Hr Hn]. split; [done|]. intros (ks & Hf & [Hu Hnd]%NoDup_cons & Hs). apply Hn.
    inversion Hf as [|? ? ? ks' ? Hf']; subst. exists ks'. split_and!; [done..|]. intros v Hv.
    rewrite elem_of_app, list_elem_of_singleton. intros [?| ->]; [by apply (Hs v); [right|]|done].
  - destruct IH as (ks' & -> & Hf & Hnd & Hs). exists (k :: ks'). split_and!.
    + by rewrite <-app_assoc.
    + by constructor.
    + constructor; [|done]. intros Hu. apply (Hs u); [done|]. set_solver.
    + intros v [->|Hv]%elem_of_cons; [done|]. specialize (Hs v Hv). set_solver.
Qed.

(** A writer may record addresses exactly when a reader will take each of them under the one
    kind they make: one to four, no two the same. *)
Theorem check_mirror_uris_spec uris kind :
  check_mirror_uris uris = UriOk kind <->
  (1 <= length uris <= MAX_URIS) /\ NoDup uris /\ forall u, u ∈ uris -> uri_kind u = Some kind.
Proof.
  unfold check_mirror_uris. case_bool_decide as E; [subst; simpl; split; [done|lia]|].
  destruct (Nat.ltb_spec MAX_URIS (length uris)); [split; [done|lia]|].
  assert (1 <= length uris) as Hlen by (destruct uris; [done|simpl; lia]).
  pose proof (check_uris_spec 0 [] [] uris) as Hs. destruct (check_uris 0 [] [] uris) as [r|ks].
  - destruct Hs as [(p & j & ->) Hn]. split; [done|]. intros (_ & Hnd & Hk). exfalso. apply Hn.
    exists (map (fun _ => kind) uris). split_and!; [|done|by intros ? _ ?%not_elem_of_nil].
    clear -Hk. induction uris as [|u uris IH]; constructor; [apply Hk; left|]. apply IH. intros v Hv. apply Hk. by right.
  - destruct Hs as (ks' & -> & Hf & Hnd & _). cbn [app]. split.
    + destruct (existsb _ ks') eqn:Ee; [done|]. intros [= Hkind]. split_and!; [done..|]. intros u Hu.
      apply list_elem_of_lookup in Hu as [i Hi]. eapply Forall2_lookup_l in Hf as (k & Hk & ->); [|exact Hi].
      f_equal. rewrite <-Hkind. apply list_elem_of_lookup_2 in Hk. rewrite list_elem_of_In in Hk.
      destruct (N.eqb_spec k (hd 0%N ks')) as [|Hne]; [done|exfalso].
      assert (existsb (fun k => negb (k =? hd 0%N ks')%N) ks' = true); [|congruence].
      apply existsb_exists. exists k. split; [done|]. by apply negb_true_iff, N.eqb_neq.
    + intros (_ & _ & Hk). assert (forall k, k ∈ ks' -> k = kind) as Hall.
      { intros k Hin. apply list_elem_of_lookup in Hin as [i Hi]. eapply Forall2_lookup_r in Hf as (u & Hu & Huk); [|exact Hi].
        apply list_elem_of_lookup_2 in Hu. rewrite (Hk u Hu) in Huk. congruence. }
      assert (hd 0%N ks' = kind) as Hhd.
      { destruct ks' as [|k ks']; [|apply Hall; left]. apply Forall2_length in Hf. simpl in Hf. lia. }
      destruct (existsb _ ks') eqn:Ee; [|by rewrite Hhd]. exfalso.
      apply existsb_exists in Ee as (k & Hin & Hne%negb_true_iff%N.eqb_neq). apply Hne. rewrite Hhd. apply Hall.
      by apply list_elem_of_In.
Qed.

(** ** What a reader tries *)

(** The addresses of a record that are new to [seen] and of its kind. *)
Fixpoint fresh (kind : N) (seen uris : list string) : list string :=
  match uris with
  | [] => []
  | uri :: uris =>
    if (uri_kind uri == Some kind) && negb (bool_decide (uri ∈ seen)) then uri :: fresh kind (seen ++ [uri]) uris
    else fresh kind seen uris
  end.

(** What a record adds to the addresses before it. *)
Definition offers (seen : list string) (m : MirrorRecord) : list string :=
  let new := fresh (mr_kind m) seen (mr_uris m) in
  if capped (mr_owner_role m) then take STRANGER_URIS_TRIED new else new.

(** All that the records offer, were a read unlimited. *)
Definition all_offers (seen : list string) (records : list MirrorRecord) : list string :=
  foldl (fun seen m => seen ++ offers seen m) seen records.

(** Without a cap the count of given addresses does not matter. *)
Lemma give_unlimited kind g h out uris : give false kind g out uris = give false kind h out uris.
Proof.
  revert g h out. induction uris as [|v uris IH]; intros g h out; simpl; [done|].
  destruct ((uri_kind v == Some kind) && _); [|apply IH]. destruct (_ =? _); [done|apply IH].
Qed.

Lemma give_spec (is_capped : bool) kind given out uris :
  length out < MIRROR_URIS_TRIED -> given <= STRANGER_URIS_TRIED ->
  let new := fresh kind out uris in
  let all := out ++ (if is_capped then take (STRANGER_URIS_TRIED - given) new else new) in
  give is_capped kind given out uris = (take MIRROR_URIS_TRIED all, MIRROR_URIS_TRIED <=? length all).
Proof.
  cbv zeta. revert given out. induction uris as [|u uris IH]; intros given out Hout Hgiven; cbn [give fresh].
  { rewrite ?firstn_nil. destruct is_capped; rewrite !app_nil_r, take_ge, (proj2 (Nat.leb_gt _ _)) by lia; done. }
  destruct (is_capped && (given =? STRANGER_URIS_TRIED)) eqn:Ec.
  { apply andb_true_iff in Ec as [-> ->%Nat.eqb_eq]. rewrite Nat.sub_diag, take_0, app_nil_r, take_ge by lia.
    by rewrite (proj2 (Nat.leb_gt _ _)) by lia. }
  destruct ((uri_kind u == Some kind) && _); [|by apply IH].
  assert (is_capped = true -> given < STRANGER_URIS_TRIED) as Hlt.
  { intros ->. simpl in Ec. apply Nat.eqb_neq in Ec. lia. }
  assert (forall l, out ++ (if is_capped then take (STRANGER_URIS_TRIED - given) (u :: l) else u :: l)
    = (out ++ [u]) ++ (if is_capped then take (STRANGER_URIS_TRIED - S given) l else l)) as ->.
  { intros l. rewrite <-app_assoc. simpl. destruct is_capped; [|done]. specialize (Hlt eq_refl).
    replace (STRANGER_URIS_TRIED - given) with (S (STRANGER_URIS_TRIED - S given)) by lia. done. }
  destruct (Nat.eqb_spec (length (out ++ [u])) MIRROR_URIS_TRIED) as [E|E].
  - rewrite take_app_length' by done. rewrite length_app, E, (proj2 (Nat.leb_le _ _)) by lia. done.
  - rewrite length_app in E. simpl in E. destruct is_capped eqn:Eic.
    + apply IH; [rewrite length_app; simpl; lia|by apply Hlt].
    + rewrite (give_unlimited kind (S given) 0). apply IH; [rewrite length_app; simpl; lia|lia].
Qed.

Lemma all_offers_prefix seen records : exists k, all_offers seen records = seen ++ k.
Proof.
  revert seen. induction records as [|m records IH]; intros seen; [exists []; by rewrite app_nil_r|].
  destruct (IH (seen ++ offers seen m)) as [k Hk]. exists (offers seen m ++ k). unfold all_offers in *. simpl.
  by rewrite Hk, app_assoc.
Qed.

Lemma give_all_spec out records :
  length out < MIRROR_URIS_TRIED -> give_all out records = take MIRROR_URIS_TRIED (all_offers out records).
Proof.
  revert out. induction records as [|m records IH]; intros out Hout; [by rewrite take_ge by (unfold all_offers; simpl; lia)|].
  cbn [give_all]. rewrite give_spec by (done || lia).
  change (out ++ _) with (out ++ offers out m).
  change (all_offers out (m :: records)) with (all_offers (out ++ offers out m) records).
  destruct (Nat.leb_spec MIRROR_URIS_TRIED (length (out ++ offers out m))) as [H|H].
  - destruct (all_offers_prefix (out ++ offers out m) records) as [k ->]. symmetry. by apply take_app_le.
  - rewrite take_ge by lia. by apply IH.
Qed.

Lemma fresh_facts kind seen uris :
  (forall u, u ∈ fresh kind seen uris <-> (u ∈ uris) /\ uri_kind u = Some kind /\ (u ∉ seen))
  /\ NoDup (fresh kind seen uris).
Proof.
  revert seen. induction uris as [|v uris IH]; intros seen; cbn [fresh].
  { split; [intros u; rewrite elem_of_nil; tauto|constructor]. }
  destruct ((uri_kind v == Some kind) && _) eqn:E.
  - split_bools. destruct (IH (seen ++ [v])) as [Hin Hnd]. split.
    + intros u. rewrite !elem_of_cons, Hin, elem_of_app, list_elem_of_singleton.
      destruct (decide (u = v)) as [->|]; [tauto|]. tauto.
    + constructor; [|done]. rewrite Hin, elem_of_app, list_elem_of_singleton. tauto.
  - destruct (IH seen) as [Hin Hnd]. split; [|done]. intros u. rewrite elem_of_cons, Hin.
    split; [tauto|]. intros ([->|?] & Hk & Hs); [|done]. exfalso.
    rewrite !bool_decide_eq_true_2, bool_decide_eq_false_2 in E by done. done.
Qed.

Lemma elem_of_offers seen m u :
  (u ∈ offers seen m -> (u ∈ mr_uris m) /\ uri_kind u = Some (mr_kind m) /\ (u ∉ seen))
  /\ (capped (mr_owner_role m) = false -> u ∈ mr_uris m -> uri_kind u = Some (mr_kind m) -> u ∉ seen -> u ∈ offers seen m).
Proof.
  destruct (fresh_facts (mr_kind m) seen (mr_uris m)) as [Hin _]. unfold offers. split.
  - intros Hu. apply Hin. destruct (capped _); [|done]. by apply elem_of_take in Hu as (i & Hi%list_elem_of_lookup_2 & _).
  - intros -> ???. by apply Hin.
Qed.

Lemma offers_NoDup seen m : NoDup seen -> NoDup (seen ++ offers seen m).
Proof.
  intros Hs. destruct (fresh_facts (mr_kind m) seen (mr_uris m)) as [Hin Hnd]. apply NoDup_app. split_and!; [done| |].
  - intros u Hu Ho%elem_of_offers. tauto.
  - unfold offers. destruct (capped _); [|done]. eapply sublist_NoDup; [exact Hnd|apply sublist_take].
Qed.

Lemma all_offers_facts seen records :
  NoDup seen ->
  NoDup (all_offers seen records)
  /\ (forall u, u ∈ all_offers seen records -> (u ∈ seen)
       \/ exists m, (m ∈ records) /\ (u ∈ mr_uris m) /\ uri_kind u = Some (mr_kind m))
  /\ (forall m u, m ∈ records -> capped (mr_owner_role m) = false -> u ∈ mr_uris m ->
        uri_kind u = Some (mr_kind m) -> u ∈ all_offers seen records)
  /\ ((forall m, m ∈ records -> capped (mr_owner_role m) = true) ->
        length (all_offers seen records) <= length seen + STRANGER_URIS_TRIED * length records).
Proof.
  revert seen. induction records as [|m records IH]; intros seen Hs.
  { split_and!; [done|by left|by intros ? ? ?%not_elem_of_nil|simpl; lia]. }
  change (all_offers seen (m :: records)) with (all_offers (seen ++ offers seen m) records).
  destruct (IH (seen ++ offers seen m)) as (Hnd & Hsrc & Hall & Hcap); [by apply offers_NoDup|]. split_and!; [done|..].
  - intros u [[?|Hu%elem_of_offers]%elem_of_app|(m' & ? & ?)]%Hsrc; [by left|right; exists m; split; [left|tauto]|].
    right. exists m'. split; [by right|done].
  - intros m' u [->|Hm']%elem_of_cons Hc Hu Hk; [|by eapply Hall].
    destruct (all_offers_prefix (seen ++ offers seen m) records) as [k ->]. rewrite !elem_of_app. left.
    destruct (decide (u ∈ seen)); [by left|right]. by apply elem_of_offers.
  - intros Hc. rewrite Hcap by (intros m' Hm'; apply Hc; by right). rewrite length_app.
    assert (length (offers seen m) <= STRANGER_URIS_TRIED); [|unfold STRANGER_URIS_TRIED in *; cbn [length]; lia].
    unfold offers. rewrite (Hc m) by left. rewrite length_take. lia.
Qed.

#[export] Instance mirror_cmp_ord : CmpOrd mirror_cmp.
Proof. unfold mirror_cmp. apply _. Qed.

Lemma elem_of_read_records want mirrors m :
  m ∈ read_records want mirrors <->
  (m ∈ mirrors) /\ to_lower (mr_pack_hash m) = to_lower want /\ (mr_kind m = KIND_HTTPS \/ mr_kind m = KIND_IPFS).
Proof.
  unfold read_records, eq_ignore_case. rewrite elem_of_sort_by, list_elem_of_In, !filter_In, <-list_elem_of_In.
  rewrite bool_decide_eq_true, orb_true_iff, !N.eqb_eq. tauto.
Qed.

(** A reader's fallback is bounded and cannot be crowded out: for a private repository or
    a pack its manifests do not list it tries no mirror; else it tries the first eight of
    what the pack's records offer, members' records before bots' and strangers', no address
    twice, each of its record's kind; every readable address of a member is among them
    unless eight came before; and records of strangers and bots alone give at most two each. *)
Theorem mirror_read_order_spec input :
  let out := mirror_read_order input in
  let want := to_lower (mi_pack_hash input) in
  let records := read_records want (mi_mirrors input) in
  if (mi_visibility input == VPrivate) || negb (existsb (fun h => eq_ignore_case h want) (mi_listed input)) then out = []
  else
    out = take MIRROR_URIS_TRIED (all_offers [] records)
    /\ StronglySorted (fun a b => mirror_cmp a b <> Gt) records
    /\ NoDup out /\ length out <= MIRROR_URIS_TRIED
    /\ (forall u, u ∈ out -> exists m, (m ∈ mi_mirrors input) /\ to_lower (mr_pack_hash m) = to_lower want
          /\ (u ∈ mr_uris m) /\ uri_kind u = Some (mr_kind m))
    /\ (forall m u, m ∈ records -> capped (mr_owner_role m) = false -> u ∈ mr_uris m -> uri_kind u = Some (mr_kind m) ->
          (u ∈ out) \/ length out = MIRROR_URIS_TRIED)
    /\ ((forall m, m ∈ records -> capped (mr_owner_role m) = true) ->
          length out <= STRANGER_URIS_TRIED * length records).
Proof.
  cbv zeta. unfold mirror_read_order. destruct (_ || _); [done|].
  rewrite give_all_spec by (simpl; unfold MIRROR_URIS_TRIED; lia).
  set (records := read_records _ _). destruct (all_offers_facts [] records) as (Hnd & Hsrc & Hall & Hcap); [constructor|].
  split_and!; [done|by apply sort_by_sorted, _| | | | |].
  - eapply sublist_NoDup; [exact Hnd|apply sublist_take].
  - rewrite length_take. lia.
  - intros u (i & Hi%list_elem_of_lookup_2 & _)%elem_of_take. apply Hsrc in Hi as [?%not_elem_of_nil|(m & Hm & ? & ?)]; [done|].
    apply elem_of_read_records in Hm as (? & ? & _). by exists m.
  - intros m u Hm Hc Hu Hk. pose proof (Hall m u Hm Hc Hu Hk) as Hin. rewrite length_take.
    destruct (Nat.le_gt_cases (length (all_offers [] records)) MIRROR_URIS_TRIED) as [Hle|Hgt].
    + left. by rewrite take_ge.
    + right. lia.
  - intros Hc. specialize (Hcap Hc). rewrite length_take. cbn [length] in Hcap. lia.
Qed.
