(* ===== verification/Approvals.v ===== *)
(** Approvals and branch policy ([rules/v2.rs], [rules/review.rs]): which reviews count, what
    each reviewer's standing verdict is, and whether they meet the branch's policy. *)
From S2P Require Import Prelude Names Members Events Content.

(** ** Definitions *)

Record Review := mkReview {
  rv_id : string;
  rv_reviewer : string;
  rv_verdict : N;
  rv_commit_oid : Oid;
  rv_created_at : N
}.

Record Approvals := mkApprovals { ap_approvers : gset string; ap_changes_requested : gset string }.

(** The filter of [count_approvals]. *)
Definition review_counts (oracle : RoleOracle) (head_oid : string) (dismissed : gset string) (pr_author : string)
    (r : Review) : bool :=
  match verdict_from_code (rv_verdict r) with Approve | RequestChanges => true | _ => false end
  && (rv_reviewer r != pr_author)
  && negb (bool_decide (rv_id r ∈ dismissed))
  && (rv_commit_oid r == head_oid)
  && approver_at oracle (rv_reviewer r) (rv_created_at r).

Definition review_cmp : Review -> Review -> comparison :=
  cmp_then (cmp_on rv_created_at N.compare) (cmp_on rv_id String.compare).

(** One review moves its reviewer from one set to the other. *)
Definition apply_review (out : Approvals) (r : Review) : Approvals :=
  if verdict_from_code (rv_verdict r) == Approve
  then mkApprovals ({[rv_reviewer r]} ∪ ap_approvers out) (ap_changes_requested out ∖ {[rv_reviewer r]})
  else mkApprovals (ap_approvers out ∖ {[rv_reviewer r]}) ({[rv_reviewer r]} ∪ ap_changes_requested out).

Definition count_approvals (reviews : list Review) (oracle : RoleOracle) (head_oid : string)
    (dismissed : gset string) (pr_author : string) : Approvals :=
  foldl apply_review (mkApprovals ∅ ∅)
    (sort_by review_cmp (List.filter (review_counts oracle head_oid dismissed pr_author) reviews)).

Record ReadReview := mkReadReview {
  rr_review : Review;
  rr_sealed : bool;
  rr_opened : bool;
  rr_as_member : bool
}.

Definition counted_reviews (reviews : list ReadReview) (visibility : Visibility) : list Review :=
  map rr_review (List.filter
    (fun r => negb (rr_sealed r) || rr_opened r || ((visibility == VPublic) && rr_as_member r)) reviews).

Record Policy := mkPolicy {
  po_required_approvals : N;
  po_approver_role : N;
  po_require_checks : bool;
  po_merge_methods : N;
  po_required_checks : list string;
  po_required_check_sources : list string;
  po_require_code_owners : bool
}.

Record PolicyStatus := mkPolicyStatus {
  st_met : bool;
  st_have : N;
  st_need : N;
  st_blocked_by : list string
}.

Definition nothing_required : PolicyStatus := mkPolicyStatus true 0 0 [].

Definition short (s : PolicyStatus) : bool := (st_have s <? st_need s)%N.

Definition counts_for (oracle : RoleOracle) (policy : Policy) (identity : string) : bool :=
  match current_role oracle identity with
  | Some Maintainer => true
  | Some Writer => (po_approver_role policy =? 0)%N
  | Some (Triage | Reader | Bot) | None => false
  end.

Definition meets_policy (approvals : Approvals) (oracle : RoleOracle) (policy : Policy) : PolicyStatus :=
  let counts := counts_for oracle policy in
  let have := default u32_max (u32_try_from (N.of_nat (length
    (List.filter counts (btree_elems (ap_approvers approvals)))))) in
  let blocked_by :=
    if (po_required_approvals policy =? 0)%N then []
    else List.filter counts (btree_elems (ap_changes_requested approvals)) in
  mkPolicyStatus ((po_required_approvals policy <=? have)%N && (blocked_by == [])) have
    (po_required_approvals policy) blocked_by.

(** ** Helper lemmas *)

#[export] Instance review_cmp_ord : CmpOrd review_cmp.
Proof. unfold review_cmp. apply _. Qed.

Definition distinct_reviews (reviews : list Review) : Prop :=
  forall a b, a ∈ reviews -> b ∈ reviews -> review_cmp a b = Eq -> a = b.

Lemma verdict_code_from code : verdict_code (verdict_from_code code) = code.
Proof. destruct code as [|[[p|p|]|[[p|p|]|p|]|]]; try done; by destruct p. Qed.

Lemma verdict_from_is code v :
  (match v with Unknown _ => False | _ => True end) -> verdict_from_code code = v <-> code = verdict_code v.
Proof.
  intros Hv. split; [intros <-; by rewrite verdict_code_from|]. intros ->. by destruct v.
Qed.

(** A review that counts, in words. *)
Definition counting (oracle : RoleOracle) (head : string) (dismissed : gset string) (author : string) (r : Review)
    : Prop :=
  (rv_verdict r = 1%N \/ rv_verdict r = 2%N) /\ rv_reviewer r <> author /\ (rv_id r ∉ dismissed)
  /\ rv_commit_oid r = head /\ approver_at oracle (rv_reviewer r) (rv_created_at r) = true.

Lemma review_counts_spec oracle head dismissed author r :
  review_counts oracle head dismissed author r = true <-> counting oracle head dismissed author r.
Proof.
  unfold review_counts, counting. rewrite !andb_true_iff, !negb_true_iff, !bool_decide_eq_false, bool_decide_eq_true.
  assert (match verdict_from_code (rv_verdict r) with Approve | RequestChanges => true | _ => false end = true
    <-> rv_verdict r = 1%N \/ rv_verdict r = 2%N) as ->; [|tauto].
  split.
  - destruct (verdict_from_code (rv_verdict r)) eqn:Hv; try done; intros _;
      rewrite <-(verdict_code_from (rv_verdict r)), Hv; [by left|by right].
  - by intros [-> | ->].
Qed.

(** The newest element of a sorted list that satisfies a test is greatest among them. *)
Lemma find_rev_greatest {A} (cmp : A -> A -> comparison) `{!CmpOrd cmp} (f : A -> bool) l x :
  StronglySorted (fun a b => cmp a b <> Gt) l -> List.find f (rev l) = Some x ->
  (x ∈ l) /\ f x = true /\ forall y, y ∈ l -> f y = true -> cmp y x <> Gt.
Proof.
  intros Hs (l1 & l2 & -> & Hx & Hl2)%find_rev_last. split_and!; [set_solver|done|].
  intros y [Hy|[->|Hy]%elem_of_cons]%elem_of_app Hfy.
  - apply StronglySorted_app in Hs as (Hs & _). apply Hs; [done|left].
  - by rewrite (cmp_refl cmp).
  - apply Hl2 in Hy. congruence.
Qed.

Definition approves (x : string) (r : Review) : bool :=
  (rv_reviewer r == x) && (verdict_from_code (rv_verdict r) == Approve).
Definition objects (x : string) (r : Review) : bool :=
  (rv_reviewer r == x) && (verdict_from_code (rv_verdict r) != Approve).

Lemma in_toggle (x y : string) (s : gset string) :
  bool_decide (x ∈ {[y]} ∪ s) = (if y == x then true else bool_decide (x ∈ s))
  /\ bool_decide (x ∈ s ∖ {[y]}) = (if y == x then false else bool_decide (x ∈ s)).
Proof.
  destruct (decide (y = x)) as [->|Hne].
  - rewrite !(bool_decide_eq_true_2 (x = x)) by done. split; [apply bool_decide_eq_true_2|apply bool_decide_eq_false_2]; set_solver.
  - rewrite !(bool_decide_eq_false_2 (y = x)) by done. split; apply bool_decide_ext; set_solver.
Qed.

Lemma approvers_step x out r :
  bool_decide (x ∈ ap_approvers (apply_review out r))
  = if approves x r then true else if objects x r then false else bool_decide (x ∈ ap_approvers out).
Proof.
  unfold apply_review, approves, objects. destruct (verdict_from_code (rv_verdict r) == Approve); simpl;
    rewrite ?(proj1 (in_toggle _ _ _)), ?(proj2 (in_toggle _ _ _)); by destruct (rv_reviewer r == x).
Qed.

Lemma changes_step x out r :
  bool_decide (x ∈ ap_changes_requested (apply_review out r))
  = if objects x r then true else if approves x r then false else bool_decide (x ∈ ap_changes_requested out).
Proof.
  unfold apply_review, approves, objects. destruct (verdict_from_code (rv_verdict r) == Approve); simpl;
    rewrite ?(proj1 (in_toggle _ _ _)), ?(proj2 (in_toggle _ _ _)); by destruct (rv_reviewer r == x).
Qed.

(** What [last_wins] over the counted reviews says. *)
Lemma standing reviews (keep : Review -> bool) (on off : Review -> bool) :
  distinct_reviews reviews ->
  last_wins on off (sort_by review_cmp (List.filter keep reviews)) = true <->
  exists r, (r ∈ reviews) /\ keep r = true /\ on r = true
    /\ forall r', r' ∈ reviews -> keep r' = true -> on r' || off r' = true -> review_cmp r' r <> Gt.
Proof.
  intros Hd. set (l := sort_by review_cmp (List.filter keep reviews)).
  assert (forall r, r ∈ l <-> (r ∈ reviews) /\ keep r = true) as Hin.
  { intros r. unfold l. by rewrite elem_of_sort_by, !list_elem_of_In, filter_In. }
  pose proof (sort_by_sorted review_cmp (List.filter keep reviews)) as Hs. fold l in Hs.
  unfold last_wins. destruct (List.find _ (rev l)) as [x|] eqn:Hf.
  - apply (find_rev_greatest review_cmp) in Hf as (Hx & Hon & Hmax); [|done]. apply Hin in Hx as [Hx Hk]. split.
    + intros Hox. exists x. split_and!; [done..|]. intros r' Hr' Hk'. apply Hmax. by apply Hin.
    + intros (r & Hr & Hkr & Honr & Hmaxr).
      assert (review_cmp r x <> Gt) as H1 by (apply Hmax; [by apply Hin|by rewrite Honr]).
      assert (review_cmp x r <> Gt) as H2 by by apply Hmaxr.
      assert (x = r) as ->; [|done]. apply Hd; [done..|].
      rewrite (cmp_opp (cmp := review_cmp) x r) in H1. destruct (review_cmp x r); done.
  - split; [done|]. intros (r & Hr & Hkr & Honr & _). exfalso.
    assert (In r (rev l)) as Hrl by (rewrite <-in_rev; apply list_elem_of_In, Hin; done).
    apply (find_none _ _ Hf) in Hrl. by rewrite Honr in Hrl.
Qed.

Lemma count_approvers_spec reviews oracle head dismissed author x :
  x ∈ ap_approvers (count_approvals reviews oracle head dismissed author) <->
  last_wins (approves x) (objects x) (sort_by review_cmp (List.filter (review_counts oracle head dismissed author) reviews)) = true.
Proof.
  rewrite <-(foldl_last_wins apply_review (fun s => bool_decide (x ∈ ap_approvers s))
    (approves x) (objects x) (mkApprovals ∅ ∅)); [by rewrite bool_decide_eq_true|done|intros; apply approvers_step].
Qed.

Lemma count_changes_spec reviews oracle head dismissed author x :
  x ∈ ap_changes_requested (count_approvals reviews oracle head dismissed author) <->
  last_wins (objects x) (approves x) (sort_by review_cmp (List.filter (review_counts oracle head dismissed author) reviews)) = true.
Proof.
  rewrite <-(foldl_last_wins apply_review (fun s => bool_decide (x ∈ ap_changes_requested s))
    (objects x) (approves x) (mkApprovals ∅ ∅)); [by rewrite bool_decide_eq_true|done|intros; apply changes_step].
Qed.

Lemma elem_of_counted (f : string -> bool) s x : x ∈ List.filter f (btree_elems s) <-> (x ∈ s) /\ f x = true.
Proof. by rewrite list_elem_of_In, filter_In, <-list_elem_of_In, elem_of_btree_elems. Qed.

Lemma approves_iff x r : approves x r = true <-> rv_reviewer r = x /\ rv_verdict r = 1%N.
Proof. unfold approves. rewrite andb_true_iff, !bool_decide_eq_true. by rewrite (verdict_from_is _ Approve I). Qed.

Lemma on_or_off x r : approves x r || objects x r = true <-> rv_reviewer r = x.
Proof.
  unfold approves, objects. rewrite orb_true_iff, !andb_true_iff, bool_decide_eq_true, negb_true_iff.
  destruct (verdict_from_code (rv_verdict r) == Approve); tauto.
Qed.

Lemma objects_iff oracle head dismissed author x r :
  counting oracle head dismissed author r -> objects x r = true <-> rv_reviewer r = x /\ rv_verdict r = 2%N.
Proof.
  intros ([Hv|Hv] & _); unfold objects; rewrite Hv; simpl; rewrite andb_true_iff, bool_decide_eq_true; intuition done.
Qed.

Lemma objects_or_approves x r : objects x r || approves x r = true <-> rv_reviewer r = x.
Proof. rewrite orb_comm. apply on_or_off. Qed.

(** ** Theorems *)

(** The standing verdicts of a pull request. A reviewer approves exactly when their
    newest counting review does, and asks for changes exactly when it does that: a review
    counts when it is a member's verdict, on the current head, not dismissed, not the
    request's own author's, by someone who was an approver when it was written. Nobody is
    in both sets, and the order the reviews arrive in does not matter. *)
Theorem count_approvals_spec reviews oracle head dismissed author (Hd : distinct_reviews reviews) :
  let out := count_approvals reviews oracle head dismissed author in
  let standing x v := exists r, (r ∈ reviews) /\ counting oracle head dismissed author r /\ rv_reviewer r = x
    /\ rv_verdict r = v /\ forall r', r' ∈ reviews -> counting oracle head dismissed author r' ->
         rv_reviewer r' = x -> review_cmp r' r <> Gt in
  (forall x, x ∈ ap_approvers out <-> standing x 1%N)
  /\ (forall x, x ∈ ap_changes_requested out <-> standing x 2%N)
  /\ (forall x, x ∈ ap_approvers out -> x ∉ ap_changes_requested out)
  /\ (author ∉ ap_approvers out) /\ (author ∉ ap_changes_requested out)
  /\ (forall reviews', reviews ≡ₚ reviews' -> count_approvals reviews' oracle head dismissed author = out).
Proof.
  intros out standing_.
  assert (forall x, x ∈ ap_approvers out <-> standing_ x 1%N) as Ha.
  { intros x. unfold out. rewrite count_approvers_spec, standing by done. unfold standing_.
    setoid_rewrite review_counts_spec. setoid_rewrite approves_iff. setoid_rewrite on_or_off.
    split; intros (r & H); exists r; tauto. }
  assert (forall x, x ∈ ap_changes_requested out <-> standing_ x 2%N) as Hc.
  { intros x. unfold out. rewrite count_changes_spec, standing by done. unfold standing_.
    setoid_rewrite review_counts_spec. setoid_rewrite objects_or_approves.
    split; intros (r & Hr & Hk & Ho & Hm); exists r.
    - apply (objects_iff oracle head dismissed author) in Ho as [? ?]; [by split_and!|done].
    - destruct Hm as [Hv Hm]. split_and!; [done|done|by apply (objects_iff oracle head dismissed author)|done]. }
  split_and!; [done|done| | | |].
  - intros x (r & Hr & Hk & Hx & Hv & Hm)%Ha (r' & Hr' & Hk' & Hx' & Hv' & Hm')%Hc.
    specialize (Hm r' Hr' Hk' Hx'). specialize (Hm' r Hr Hk Hx).
    assert (r = r') as ->; [|congruence]. apply Hd; [done..|].
    rewrite (cmp_opp (cmp := review_cmp) r r') in Hm. destruct (review_cmp r r'); done.
  - intros (r & _ & (_ & Hne & _) & Hx & _)%Ha. done.
  - intros (r & _ & (_ & Hne & _) & Hx & _)%Hc. done.
  - intros reviews' Hp. unfold out, count_approvals. f_equal. symmetry. apply sort_by_unique; [apply _|by apply List_filter_perm|].
    intros a b. rewrite !list_elem_of_In, !filter_In, <-!list_elem_of_In. intros [? _] [? _]. by apply Hd.
Qed.

(** A member's approval of commit [c0]. *)
Definition approval (id reviewer : string) (t : N) : Review := mkReview id reviewer 1 "c0" t.
Definition team : RoleOracle := [mkMembership "ann" Maintainer 1; mkMembership "bob" Writer 1].

Lemma count_approvals_spec_witness :
  exists r, (r ∈ [approval "r1" "bob" 10]) /\ rv_reviewer r = "bob"
    /\ "bob" ∈ ap_approvers (count_approvals [approval "r1" "bob" 10] team "c0" ∅ "ann").
Proof.
  assert ("bob" ∈ ap_approvers (count_approvals [approval "r1" "bob" 10] team "c0" ∅ "ann")) as Hb by reflexivity.
  pose proof Hb as Hb'.
  apply (count_approvals_spec [approval "r1" "bob" 10] team "c0" ∅ "ann") in Hb as (r & Hr & _ & Hx & _).
  - by exists r.
  - by intros a b ->%list_elem_of_singleton ->%list_elem_of_singleton.
Defined.

(** A branch policy is met exactly when enough standing approvers count for it now and,
    if it requires any approval, nobody whose approval would count stands against it. *)
Theorem meets_policy_spec approvals oracle policy :
  (po_required_approvals policy <= u32_max)%N ->
  let s := meets_policy approvals oracle policy in
  (st_met s = true <->
    (po_required_approvals policy
       <= N.of_nat (size (filter (fun x => counts_for oracle policy x = true) (ap_approvers approvals))))%N
    /\ (po_required_approvals policy <> 0%N ->
        forall x, x ∈ ap_changes_requested approvals -> counts_for oracle policy x = false))
  /\ (forall x, x ∈ st_blocked_by s <-> po_required_approvals policy <> 0%N
        /\ (x ∈ ap_changes_requested approvals) /\ counts_for oracle policy x = true)
  /\ (short s = true -> st_met s = false).
Proof.
  intros Hmax s. unfold s, meets_policy. simpl.
  assert (length (List.filter (counts_for oracle policy) (btree_elems (ap_approvers approvals)))
    = size (filter (fun x => counts_for oracle policy x = true) (ap_approvers approvals))) as ->.
  { rewrite <-(size_list_to_set (C := gset string)).
    - f_equal. apply set_eq. intros x. rewrite elem_of_list_to_set, elem_of_counted, elem_of_filter. tauto.
    - apply NoDup_ListNoDup, List.NoDup_filter, NoDup_ListNoDup, NoDup_btree_elems. }
  set (n := size _). set (need := po_required_approvals policy) in *.
  assert (forall k, (need <=? default u32_max (u32_try_from k))%N = (need <=? k)%N) as Hle.
  { intros k. unfold u32_try_from. destruct (N.leb_spec k u32_max); simpl; [done|].
    destruct (N.leb_spec need u32_max), (N.leb_spec need k); lia. }
  assert (forall x, x ∈ (if (need =? 0)%N then [] else List.filter (counts_for oracle policy)
      (btree_elems (ap_changes_requested approvals))) <->
    need <> 0%N /\ (x ∈ ap_changes_requested approvals) /\ counts_for oracle policy x = true) as Hb.
  { intros x. destruct (N.eqb_spec need 0) as [->|Hne]; [split; [by intros ?%not_elem_of_nil|by intros [? _]]|].
    rewrite elem_of_counted. tauto. }
  split_and!; [|exact Hb|].
  - rewrite andb_true_iff, Hle, N.leb_le, bool_decide_eq_true.
    assert (forall l : list string, l = [] <-> forall x, x ∉ l) as Hnil.
    { intros l. split; [intros -> x; apply not_elem_of_nil|]. destruct l as [|x l]; [done|]. intros H. destruct (H x). left. }
    rewrite Hnil. split; intros [H1 H2]; (split; [done|]).
    + intros Hne x Hx. apply not_true_iff_false. intros Hc. by apply (H2 x), Hb.
    + intros x (Hne & Hx & Hc)%Hb. rewrite H2 in Hc by done. done.
  - unfold short. simpl. intros Hlt%N.ltb_lt. apply andb_false_iff. left. apply N.leb_gt. exact Hlt.
Qed.

Lemma meets_policy_spec_witness :
  st_met (meets_policy (mkApprovals {["bob"]} ∅) team (mkPolicy 1 0 false 0 [] [] false)) = true.
Proof.
  apply meets_policy_spec; [vm_compute; discriminate|]. split; [vm_compute; discriminate|].
  intros _ x Hx. by apply not_elem_of_empty in Hx.
Defined.

(** Nobody meets a branch policy alone on their own request: when every review that
    names an approver or maintainer is the author's, a policy that requires an approval
    is not met, whatever roles the author holds. *)
Theorem author_never_meets_policy reviews oracle head dismissed author policy :
  distinct_reviews reviews -> (forall r, r ∈ reviews -> rv_reviewer r = author) ->
  (0 < po_required_approvals policy)%N ->
  st_met (meets_policy (count_approvals reviews oracle head dismissed author) oracle policy) = false.
Proof.
  intros Hd Hauthor Hpos.
  assert (ap_approvers (count_approvals reviews oracle head dismissed author) = ∅) as Hempty.
  { apply set_eq. intros x. rewrite count_approvers_spec, standing by done.
    split; [|by intros ?%not_elem_of_empty]. intros (r & Hr & Hk & _).
    apply review_counts_spec in Hk as (_ & Hne & _). by destruct (Hne (Hauthor r Hr)). }
  unfold meets_policy. simpl. rewrite Hempty. apply andb_false_iff. left.
  assert (btree_elems ∅ = []) as -> by done. simpl. apply N.leb_gt. exact Hpos.
Qed.

Lemma author_never_meets_policy_witness :
  st_met (meets_policy (count_approvals [approval "r1" "ann" 10] team "c0" ∅ "ann") team
    (mkPolicy 1 0 false 0 [] [] false)) = false.
Proof.
  apply author_never_meets_policy.
  - by intros a b ->%list_elem_of_singleton ->%list_elem_of_singleton.
  - by intros r ->%list_elem_of_singleton.
  - reflexivity.
Defined.

(** Which reviews a reader takes: each review that is plain, that the reader opened, or,
    in a public repository only, that is sealed with proof of membership; so in a private
    repository a review the reader could not open never counts. *)
Theorem counted_reviews_spec reviews visibility r :
  (r ∈ counted_reviews reviews visibility <->
   exists rr, (rr ∈ reviews) /\ rr_review rr = r
     /\ (rr_sealed rr = false \/ rr_opened rr = true \/ (visibility = VPublic /\ rr_as_member rr = true)))
  /\ (forall rr, visibility = VPrivate -> rr_sealed rr = true -> rr_opened rr = false ->
      counted_reviews (rr :: reviews) visibility = counted_reviews reviews visibility).
Proof.
  unfold counted_reviews. split.
  - rewrite list_elem_of_In, in_map_iff. setoid_rewrite filter_In. setoid_rewrite <-list_elem_of_In.
    setoid_rewrite orb_true_iff. setoid_rewrite orb_true_iff. setoid_rewrite negb_true_iff.
    setoid_rewrite andb_true_iff. setoid_rewrite bool_decide_eq_true.
    split; intros (rr & H); exists rr; tauto.
  - intros rr -> Hs Ho. simpl. by rewrite Hs, Ho.
Qed.
