(* ===== verification/ReviewFold.v ===== *)
(** The review state of a pull request folded from its events ([rules/review.rs]): the head,
    requested reviewers, resolved threads, dismissed reviews and milestone; the anchors of
    inline comments and the comments of a review. *)
From S2P Require Import Prelude Names Members Transitions Events.

(** ** Definitions *)

Definition is_author_kind (kind : EventKind) : bool :=
  match kind with
  | ThreadResolve | ThreadUnresolve | ReviewRequest | ReviewRequestRemove | HeadUpdate => true
  | _ => false
  end.

Record HeadMove := mkHeadMove { hm_oid : Oid; hm_actor : string; hm_created_at : N; hm_id : string }.

Record RequestedReviewer := mkRequestedReviewer { rq_identity : string; rq_requested_at : N }.

Record Dismissal := mkDismissal {
  dm_review_id : string;
  dm_actor : string;
  dm_reason : string;
  dm_created_at : N
}.

Record PrReviewState := mkPrReviewState {
  pv_head : Oid;
  pv_head_updates : list HeadMove;
  pv_requested_reviewers : list RequestedReviewer;
  pv_resolved_threads : list string;
  pv_dismissed_reviews : list Dismissal;
  pv_milestone : option string
}.

Definition author_event_applies (e : Event) (target_author : string) : bool :=
  is_author_kind (e_kind e) && (e_actor e == target_author).

Definition merged_log (events author_events : list Event) (target_author : string) : list Event :=
  sort_by event_order (events ++ List.filter (fun e => author_event_applies e target_author) author_events).

Definition is_hex_oid (s : string) : bool :=
  ((String.length s =? 40)%nat || (String.length s =? 64)%nat) && forallb is_hex_digit (bytes s).

(** A payload that is present and not empty. *)
Definition non_empty (s : option string) : option string := opt_filter (fun v => v != "") s.

(** The accumulators of the loop. *)
Record FoldState := mkFoldState {
  fs_head_updates : list HeadMove;
  fs_requested : gmap string (option N);
  fs_resolved : gmap string bool;
  fs_dismissed : gmap string Dismissal;
  fs_milestone : option string
}.

Definition FoldState_default : FoldState := mkFoldState [] ∅ ∅ ∅ None.

Definition apply_head_update (hs : list HeadMove) (e : Event) : list HeadMove :=
  match opt_filter is_hex_oid (non_empty (e_oid e)) with
  | Some o => hs ++ [mkHeadMove (to_lower o) (e_actor e) (e_created_at e) (e_id e)]
  | None => hs
  end.

(** [entry(k).or_insert(v)]: the first value of a key stays. *)
Definition or_insert {V} (k : string) (v : V) (m : gmap string V) : gmap string V :=
  match m !! k with Some _ => m | None => <[k := v]> m end.

Definition review_step (known_roots : gset string) (s : FoldState) (e : Event) : FoldState :=
  match e_kind e with
  | HeadUpdate =>
    mkFoldState (apply_head_update (fs_head_updates s) e) (fs_requested s) (fs_resolved s) (fs_dismissed s) (fs_milestone s)
  | ReviewRequest | ReviewRequestRemove =>
    match non_empty (e_ref_id e) with
    | Some who =>
      mkFoldState (fs_head_updates s)
        (<[who := if e_kind e == ReviewRequest then Some (e_created_at e) else None]> (fs_requested s))
        (fs_resolved s) (fs_dismissed s) (fs_milestone s)
    | None => s
    end
  | ThreadResolve | ThreadUnresolve =>
    match opt_filter (fun r => bool_decide (r ∈ known_roots)) (non_empty (e_ref_id e)) with
    | Some root =>
      mkFoldState (fs_head_updates s) (fs_requested s) (<[root := e_kind e == ThreadResolve]> (fs_resolved s))
        (fs_dismissed s) (fs_milestone s)
    | None => s
    end
  | ReviewDismiss =>
    match non_empty (e_ref_id e) with
    | Some review_id =>
      mkFoldState (fs_head_updates s) (fs_requested s) (fs_resolved s)
        (or_insert review_id (mkDismissal review_id (e_actor e) (default "" (e_value e)) (e_created_at e)) (fs_dismissed s))
        (fs_milestone s)
    | None => s
    end
  | MilestoneSet =>
    match non_empty (e_value e) with
    | Some v => mkFoldState (fs_head_updates s) (fs_requested s) (fs_resolved s) (fs_dismissed s) (Some v)
    | None => s
    end
  | MilestoneClear => mkFoldState (fs_head_updates s) (fs_requested s) (fs_resolved s) (fs_dismissed s) None
  | _ => s
  end.

(** The collected state. *)
Definition collect_review (initial_head : string) (s : FoldState) : PrReviewState :=
  mkPrReviewState
    match last (fs_head_updates s) with Some h => hm_oid h | None => initial_head end
    (fs_head_updates s)
    (omap (fun p => mkRequestedReviewer p.1 <$> p.2) (btree_items (fs_requested s)))
    (omap (fun p : string * bool => if p.2 then Some p.1 else None) (btree_items (fs_resolved s)))
    (map snd (btree_items (fs_dismissed s)))
    (fs_milestone s).

Definition fold_pr_review_v2 (events author_events : list Event) (target_author initial_head : string)
    (known_roots : gset string) : PrReviewState :=
  collect_review initial_head
    (foldl (review_step known_roots) FoldState_default (merged_log events author_events target_author)).

(** *** Anchors *)

Record AnchorFields := mkAnchorFields {
  af_path : option string;
  af_line : option N;
  af_start_line : option N;
  af_side : option N;
  af_commit_oid : option string
}.

Record Anchor := mkAnchor {
  an_path : string;
  an_line : option N;
  an_start_line : option N;
  an_side : option N;
  an_commit_oid : string
}.

(** The lines and the side; [None] when they are malformed. *)
Definition anchor_lines (line side start_line : option N) : option (option N * option N * option N) :=
  match line, side, start_line with
  | None, None, None => Some (None, None, None)
  | Some line, Some side, start =>
    if (side =? 0)%N || (side =? 1)%N then
      let start := default line start in
      if (line <? start)%N then None else Some (Some line, Some start, Some side)
    else None
  | _, _, _ => None
  end.

Definition anchor_of (f : AnchorFields) : option Anchor :=
  path ← opt_filter (fun p => p != "") (af_path f);
  let commit_oid := to_lower (default "" (af_commit_oid f)) in
  if negb ((commit_oid == "") || is_hex_oid commit_oid) then None
  else
    '(line, start_line, side) ← anchor_lines (af_line f) (af_side f) (af_start_line f);
    Some (mkAnchor path line start_line side commit_oid).

(** *** A review's comments *)

Record ReviewComment := mkReviewComment {
  rcm_id : string;
  rcm_owner : string;
  rcm_review_id : option string;
  rcm_created_at : N
}.

Record ReviewGroup := mkReviewGroup { rg_comments : list string; rg_landed : N; rg_expected : N }.

Definition comment_cmp : ReviewComment -> ReviewComment -> comparison :=
  cmp_then (cmp_on rcm_created_at N.compare) (cmp_on rcm_id String.compare).

Definition group_review_comments (review_id reviewer : string) (comment_count : option N)
    (comments : list ReviewComment) : ReviewGroup :=
  let mine := sort_by comment_cmp
    (List.filter (fun c => (rcm_review_id c == Some review_id) && (rcm_owner c == reviewer)) comments) in
  mkReviewGroup (map rcm_id mine) (default u32_max (u32_try_from (N.of_nat (length mine)))) (default 0%N comment_count).

(** ** Helper lemmas *)

#[export] Instance comment_cmp_ord : CmpOrd comment_cmp.
Proof. unfold comment_cmp. apply _. Qed.

(** A field of the loop's state folds on its own. *)
Lemma foldl_proj {S T A} (step : S -> A -> S) (proj : S -> T) (g : T -> A -> T) s0 :
  (forall s e, proj (step s e) = g (proj s) e) -> forall log, proj (foldl step s0 log) = foldl g (proj s0) log.
Proof. intros H log. revert s0. induction log as [|e log IH]; intros s0; simpl; [done|]. by rewrite IH, H. Qed.

(** Insertions in turn: the last one of a key stands. *)
Lemma foldl_insert_lookup {V A} (f : A -> option (string * V)) (log : list A) k :
  foldl (fun (m : gmap string V) e => match f e with Some (k', v) => <[k' := v]> m | None => m end) ∅ log !! k
  = last (omap (fun e => p ← f e; if p.1 == k then Some p.2 else None) log).
Proof.
  induction log as [|e log IH] using rev_ind; [done|]. rewrite foldl_snoc, omap_app. simpl.
  destruct (f e) as [[k' v]|]; simpl; [|by rewrite app_nil_r].
  destruct (decide (k' = k)) as [->|Hne].
  - rewrite bool_decide_eq_true_2, lookup_insert_eq by done. by rewrite last_snoc.
  - rewrite bool_decide_eq_false_2, lookup_insert_ne by done. by rewrite app_nil_r.
Qed.

(** With [or_insert] the first one stands. *)
Lemma or_insert_lookup {V} k' (v : V) m k :
  or_insert k' v m !! k = match m !! k with Some w => Some w | None => if k' == k then Some v else None end.
Proof.
  unfold or_insert. destruct (decide (k' = k)) as [->|Hne].
  - rewrite bool_decide_eq_true_2 by done. destruct (m !! k) eqn:Hm; [done|]. apply lookup_insert_eq.
  - rewrite bool_decide_eq_false_2 by done. destruct (m !! k'); [|rewrite lookup_insert_ne by done]; by destruct (m !! k).
Qed.

Lemma foldl_or_insert_lookup {V A} (f : A -> option (string * V)) (log : list A) k :
  foldl (fun (m : gmap string V) e => match f e with Some (k', v) => or_insert k' v m | None => m end) ∅ log !! k
  = head (omap (fun e => p ← f e; if p.1 == k then Some p.2 else None) log).
Proof.
  induction log as [|e log IH] using rev_ind; [done|]. rewrite foldl_snoc, omap_app. simpl.
  destruct (f e) as [[k' v]|]; simpl; [|by rewrite app_nil_r].
  rewrite or_insert_lookup, IH. destruct (omap _ log); simpl; [|done]. by destruct (k' == k).
Qed.

(** What each event does to each table. *)
Definition request_of (e : Event) : option (string * option N) :=
  match e_kind e with
  | ReviewRequest => (fun who => (who, Some (e_created_at e))) <$> non_empty (e_ref_id e)
  | ReviewRequestRemove => (fun who => (who, None)) <$> non_empty (e_ref_id e)
  | _ => None
  end.

Definition resolve_of (known_roots : gset string) (e : Event) : option (string * bool) :=
  match e_kind e with
  | ThreadResolve => (fun r => (r, true)) <$> opt_filter (fun r => bool_decide (r ∈ known_roots)) (non_empty (e_ref_id e))
  | ThreadUnresolve => (fun r => (r, false)) <$> opt_filter (fun r => bool_decide (r ∈ known_roots)) (non_empty (e_ref_id e))
  | _ => None
  end.

Definition dismissal_of (e : Event) : option (string * Dismissal) :=
  match e_kind e with
  | ReviewDismiss =>
    (fun r => (r, mkDismissal r (e_actor e) (default "" (e_value e)) (e_created_at e))) <$> non_empty (e_ref_id e)
  | _ => None
  end.

Definition head_move_of (e : Event) : option HeadMove :=
  match e_kind e with
  | HeadUpdate => (fun o => mkHeadMove (to_lower o) (e_actor e) (e_created_at e) (e_id e))
                  <$> opt_filter is_hex_oid (non_empty (e_oid e))
  | _ => None
  end.

(** The milestone an event leaves, when it is about the milestone. *)
Definition milestone_of (e : Event) : option (option string) :=
  match e_kind e with
  | MilestoneSet => Some <$> non_empty (e_value e)
  | MilestoneClear => Some None
  | _ => None
  end.

Section fold.
Context (known_roots : gset string).
Abbreviation run := (foldl (review_step known_roots) FoldState_default).

Ltac by_kind e := destruct (e_kind e); simpl; try done; repeat (case_match; simplify_eq/=); done.

Lemma fold_requested log who :
  fs_requested (run log) !! who = last (omap (fun e => p ← request_of e; if p.1 == who then Some p.2 else None) log).
Proof.
  rewrite <-foldl_insert_lookup. f_equal. apply (foldl_proj (review_step known_roots) fs_requested).
  intros s e. unfold review_step, request_of. by_kind e.
Qed.

Lemma fold_resolved log root :
  fs_resolved (run log) !! root
  = last (omap (fun e => p ← resolve_of known_roots e; if p.1 == root then Some p.2 else None) log).
Proof.
  rewrite <-foldl_insert_lookup. f_equal. apply (foldl_proj (review_step known_roots) fs_resolved).
  intros s e. unfold review_step, resolve_of. by_kind e.
Qed.

Lemma fold_dismissed log r :
  fs_dismissed (run log) !! r = head (omap (fun e => p ← dismissal_of e; if p.1 == r then Some p.2 else None) log).
Proof.
  rewrite <-foldl_or_insert_lookup. f_equal. apply (foldl_proj (review_step known_roots) fs_dismissed).
  intros s e. unfold review_step, dismissal_of. by_kind e.
Qed.

Lemma fold_heads log : fs_head_updates (run log) = omap head_move_of log.
Proof.
  transitivity (foldl (fun hs e => match head_move_of e with Some h => hs ++ [h] | None => hs end) [] log).
  - apply (foldl_proj (review_step known_roots) fs_head_updates).
    intros s e. unfold review_step, head_move_of, apply_head_update. by_kind e.
  - induction log as [|e log IH] using rev_ind; [done|]. rewrite foldl_snoc, omap_app, IH. simpl.
    destruct (head_move_of e); [done|by rewrite app_nil_r].
Qed.

Lemma fold_milestone log : fs_milestone (run log) = default None (last (omap milestone_of log)).
Proof.
  transitivity (foldl (fun m e => default m (milestone_of e)) None log).
  - apply (foldl_proj (review_step known_roots) fs_milestone).
    intros s e. unfold review_step, milestone_of. by_kind e.
  - induction log as [|e log IH] using rev_ind; [done|]. rewrite foldl_snoc, omap_app, IH. simpl.
    destruct (milestone_of e); simpl; [by rewrite last_snoc|by rewrite app_nil_r].
Qed.
End fold.

(** *** The newest and the oldest event about something *)

Definition newest {A} (about : A -> Prop) (log : list A) (e : A) : Prop :=
  exists l1 l2, log = l1 ++ e :: l2 /\ about e /\ forall e', e' ∈ l2 -> ~ about e'.
Definition oldest {A} (about : A -> Prop) (log : list A) (e : A) : Prop :=
  exists l1 l2, log = l1 ++ e :: l2 /\ about e /\ forall e', e' ∈ l1 -> ~ about e'.

(** The value [f] files under the key [k], if any. *)
Definition filed {A V} (f : A -> option (string * V)) (k : string) (e : A) : option V :=
  p ← f e; if p.1 == k then Some p.2 else None.

Lemma filed_Some {A V} (f : A -> option (string * V)) k e v : filed f k e = Some v <-> f e = Some (k, v).
Proof.
  unfold filed. destruct (f e) as [[k' v']|]; simpl; [|done]. destruct (decide (k' = k)) as [->|Hne].
  - rewrite bool_decide_eq_true_2 by done. split; congruence.
  - rewrite bool_decide_eq_false_2 by done. split; congruence.
Qed.

Lemma last_newest {A V} (g : A -> option V) log v :
  last (omap g log) = Some v <-> exists e, newest (fun e => g e <> None) log e /\ g e = Some v.
Proof.
  rewrite last_omap_Some. split.
  - intros (l1 & e & l2 & -> & Hg & Hn). exists e. split; [|done]. exists l1, l2. split_and!; [done|congruence|].
    intros e' He' Hc. by apply Hc, Hn.
  - intros (e & (l1 & l2 & -> & _ & Hn) & Hg). exists l1, e, l2. split_and!; [done..|].
    intros z Hz. specialize (Hn z Hz). by destruct (g z); [destruct Hn|].
Qed.

Lemma head_oldest {A V} (g : A -> option V) log v :
  head (omap g log) = Some v <-> exists e, oldest (fun e => g e <> None) log e /\ g e = Some v.
Proof.
  induction log as [|x log IH]; simpl.
  { split; [done|by intros (e & ([] & ? & ? & _) & _)]. }
  destruct (g x) as [w|] eqn:Hx; simpl.
  - split.
    + intros [= ->]. exists x. split; [|done]. exists [], log. split_and!; [done|congruence|by intros ? ?%not_elem_of_nil].
    + intros (e & ([|y l1] & l2 & Heq & Hne & Hn) & Hg); simplify_eq/=; [congruence|].
      destruct (Hn y); [left|congruence].
  - rewrite IH. split; intros (e & (l1 & l2 & Heq & Hne & Hn) & Hg).
    + exists e. split; [|done]. exists (x :: l1), l2. split_and!; [by rewrite Heq|done|].
      intros e' [->|He']%elem_of_cons; [congruence|by apply Hn].
    + destruct l1 as [|y l1]; simplify_eq/=. exists e. split; [|done]. exists l1, l2. split_and!; [done..|].
      intros e' He'. apply Hn. by right.
Qed.

Lemma newest_ext {A} (p q : A -> Prop) log e : (forall x, p x <-> q x) -> newest p log e <-> newest q log e.
Proof. intros H. unfold newest. by setoid_rewrite H. Qed.

Lemma oldest_ext {A} (p q : A -> Prop) log e : (forall x, p x <-> q x) -> oldest p log e <-> oldest q log e.
Proof. intros H. unfold oldest. by setoid_rewrite H. Qed.

Lemma non_empty_Some o v : non_empty o = Some v <-> o = Some v /\ v <> "".
Proof.
  unfold non_empty. destruct o as [w|]; simpl; [|by split; [|intros [? _]]].
  destruct (decide (w = "")) as [->|Hne].
  - rewrite bool_decide_eq_true_2 by done. simpl. split; [done|by intros [[= <-] ?]].
  - rewrite bool_decide_eq_false_2 by done. simpl. split; [intros [= <-]; done|by intros [[= ->] _]].
Qed.

(** The events of a kind that name [x]. *)
Definition refers (kinds : list EventKind) (x : string) (e : Event) : Prop :=
  (e_kind e ∈ kinds) /\ e_ref_id e = Some x /\ x <> "".

Lemma request_of_Some e who v :
  request_of e = Some (who, v) <->
  refers [ReviewRequest; ReviewRequestRemove] who e /\ v = if e_kind e == ReviewRequest then Some (e_created_at e) else None.
Proof.
  unfold request_of, refers. rewrite !elem_of_cons, elem_of_nil.
  destruct (e_kind e); cbv beta iota; try (split; [discriminate|intros [[[?|[?|[]]] _] _]; discriminate]);
    rewrite fmap_Some; setoid_rewrite non_empty_Some; (split; [intros (w & (-> & Hw) & [= -> ->]); tauto|]);
    intros ((_ & -> & Hw) & ->); by exists who.
Qed.

Lemma opt_filter_Some {A} (f : A -> bool) o x : opt_filter f o = Some x <-> o = Some x /\ f x = true.
Proof.
  destruct o as [y|]; simpl; [|by split; [|intros [? _]]]. destruct (f y) eqn:E.
  - split; [by intros [= ->]|by intros [[= ->] _]].
  - split; [done|]. intros [[= ->] ?]. congruence.
Qed.

Lemma resolve_of_Some roots e root v :
  resolve_of roots e = Some (root, v) <->
  refers [ThreadResolve; ThreadUnresolve] root e /\ (root ∈ roots) /\ v = (e_kind e == ThreadResolve).
Proof.
  unfold resolve_of, refers. rewrite !elem_of_cons, elem_of_nil.
  destruct (e_kind e); cbv beta iota; try (split; [discriminate|intros [[[?|[?|[]]] _] _]; discriminate]);
    rewrite fmap_Some; setoid_rewrite opt_filter_Some; setoid_rewrite non_empty_Some; setoid_rewrite bool_decide_eq_true;
    (split; [intros (w & ((-> & Hw) & Hr) & [= -> ->]); tauto|]);
    intros ((_ & -> & Hw) & Hr & ->); by exists root.
Qed.

Lemma dismissal_of_Some e r d :
  dismissal_of e = Some (r, d) <->
  refers [ReviewDismiss] r e /\ d = mkDismissal r (e_actor e) (default "" (e_value e)) (e_created_at e).
Proof.
  unfold dismissal_of, refers. rewrite !elem_of_cons, elem_of_nil.
  destruct (e_kind e); cbv beta iota; try (split; [discriminate|intros [[[?|[]] _] _]; discriminate]).
  rewrite fmap_Some. setoid_rewrite non_empty_Some. split; [intros (w & (-> & Hw) & [= -> ->]); tauto|].
  intros ((_ & -> & Hw) & ->). by exists r.
Qed.

Lemma filed_about {A V} (f : A -> option (string * V)) k (about : A -> Prop) :
  (forall e, about e <-> exists v, f e = Some (k, v)) -> forall e, filed f k e <> None <-> about e.
Proof.
  intros H e. rewrite H. destruct (filed f k e) as [v|] eqn:E.
  - apply filed_Some in E. split; [by exists v|done].
  - split; [done|]. intros (v & Hv). apply filed_Some in Hv. congruence.
Qed.

Lemma request_newest log who v :
  last (omap (filed request_of who) log) = Some v <->
  exists e, newest (refers [ReviewRequest; ReviewRequestRemove] who) log e
    /\ v = if e_kind e == ReviewRequest then Some (e_created_at e) else None.
Proof.
  rewrite last_newest. assert (forall e, filed request_of who e <> None <-> refers [ReviewRequest; ReviewRequestRemove] who e) as Ha.
  { apply filed_about. intros e. setoid_rewrite request_of_Some. split; [intros H; by eexists|by intros (? & ? & _)]. }
  setoid_rewrite (newest_ext _ _ log _ Ha). setoid_rewrite filed_Some. setoid_rewrite request_of_Some.
  split; intros (e & Hn & H); exists e; [tauto|]. pose proof Hn as (l1 & l2 & _ & ? & _). tauto.
Qed.

Lemma resolve_newest roots log root v :
  last (omap (filed (resolve_of roots) root) log) = Some v <->
  (root ∈ roots) /\ exists e, newest (refers [ThreadResolve; ThreadUnresolve] root) log e /\ v = (e_kind e == ThreadResolve).
Proof.
  destruct (decide (root ∈ roots)) as [Hr|Hr].
  - rewrite last_newest. assert (forall e, filed (resolve_of roots) root e <> None <-> refers [ThreadResolve; ThreadUnresolve] root e) as Ha.
    { apply filed_about. intros e. setoid_rewrite resolve_of_Some. split; [intros H; by eexists|by intros (? & ? & _)]. }
    setoid_rewrite (newest_ext _ _ log _ Ha). setoid_rewrite filed_Some. setoid_rewrite resolve_of_Some.
    split; [intros (e & Hn & _ & _ & H); split; [done|by exists e]|]. intros (_ & e & Hn & H). exists e.
    pose proof Hn as (l1 & l2 & _ & ? & _). tauto.
  - split; [|by intros [? _]]. rewrite last_newest. intros (e & _ & He). apply filed_Some, resolve_of_Some in He. tauto.
Qed.

Lemma dismissal_oldest log r d :
  head (omap (filed dismissal_of r) log) = Some d <->
  exists e, oldest (refers [ReviewDismiss] r) log e
    /\ d = mkDismissal r (e_actor e) (default "" (e_value e)) (e_created_at e).
Proof.
  rewrite head_oldest. assert (forall e, filed dismissal_of r e <> None <-> refers [ReviewDismiss] r e) as Ha.
  { apply filed_about. intros e. setoid_rewrite dismissal_of_Some. split; [intros H; by eexists|by intros (? & ? & _)]. }
  setoid_rewrite (oldest_ext _ _ log _ Ha). setoid_rewrite filed_Some. setoid_rewrite dismissal_of_Some.
  split; intros (e & Hn & H); exists e; [tauto|]. pose proof Hn as (l1 & l2 & _ & ? & _). tauto.
Qed.

(** *** Collecting *)

Lemma elem_of_requested s x :
  x ∈ omap (fun p : string * option N => mkRequestedReviewer p.1 <$> p.2) (btree_items (fs_requested s)) <->
  fs_requested s !! rq_identity x = Some (Some (rq_requested_at x)).
Proof.
  rewrite list_elem_of_omap. split.
  - intros ([who v] & Hp & Hx). simpl in Hx. apply fmap_Some in Hx as (t & -> & ->). simpl. by apply elem_of_btree_items.
  - intros Hx. exists (rq_identity x, Some (rq_requested_at x)). split; [by apply elem_of_btree_items|]. by destruct x.
Qed.

Lemma elem_of_resolved s r :
  r ∈ omap (fun p : string * bool => if p.2 then Some p.1 else None) (btree_items (fs_resolved s)) <->
  fs_resolved s !! r = Some true.
Proof.
  rewrite list_elem_of_omap. split.
  - intros ([root []] & Hp & Hx); simplify_eq/=. by apply elem_of_btree_items.
  - intros Hx. exists (r, true). split; [by apply elem_of_btree_items|done].
Qed.

Lemma elem_of_values {V} (m : gmap string V) v : v ∈ map snd (btree_items m) <-> exists k, m !! k = Some v.
Proof.
  rewrite list_elem_of_In, in_map_iff. setoid_rewrite <-list_elem_of_In. split.
  - intros ([k w] & <- & Hp). exists k. by apply elem_of_btree_items.
  - intros (k & Hk). exists (k, v). split; [done|]. by apply elem_of_btree_items.
Qed.

Lemma lower_hex a : is_hex_digit a = true -> is_hex_digit (lower a) = true.
Proof. by destruct a as [[] [] [] [] [] [] [] []]. Qed.

Lemma to_lower_hex_oid s : is_hex_oid s = true -> is_hex_oid (to_lower s) = true.
Proof.
  unfold is_hex_oid. intros [Hl Hh]%andb_true_iff. apply andb_true_iff.
  assert (String.length (to_lower s) = String.length s) as ->.
  { rewrite <-!length_bytes. unfold to_lower. by rewrite bytes_of_bytes, length_map. }
  split; [done|]. unfold to_lower. rewrite bytes_of_bytes, forallb_forall. intros a Ha.
  apply in_map_iff in Ha as (b & <- & Hb). rewrite forallb_forall in Hh. by apply lower_hex, Hh.
Qed.

Lemma merged_log_inert events a1 e a2 author :
  author_event_applies e author = false ->
  merged_log events (a1 ++ e :: a2) author = merged_log events (a1 ++ a2) author.
Proof. intros He. unfold merged_log. rewrite !List.filter_app. simpl. by rewrite He. Qed.

(** ** Theorems *)

(** C30: the review state of a pull request. With the applicable events in order: the head is
    the newest head update's commit (a well-formed one), else the patch's; a reviewer is
    requested exactly when the newest request or removal naming them is a request, at its
    time; a thread is resolved exactly when it is one of the known roots and the newest
    resolve or unresolve of it resolves; the first dismissal of a review stands; and the
    milestone is the newest set or cleared. *)
Theorem fold_pr_review_v2_spec events author_events author initial_head roots :
  let log := merged_log events author_events author in
  let st := fold_pr_review_v2 events author_events author initial_head roots in
  (pv_head_updates st = omap head_move_of log
   /\ pv_head st = match last (pv_head_updates st) with Some h => hm_oid h | None => initial_head end
   /\ forall h, h ∈ pv_head_updates st -> is_hex_oid (hm_oid h) = true)
  /\ (forall x, x ∈ pv_requested_reviewers st <->
        exists e, newest (refers [ReviewRequest; ReviewRequestRemove] (rq_identity x)) log e
          /\ e_kind e = ReviewRequest /\ rq_requested_at x = e_created_at e)
  /\ (forall r, r ∈ pv_resolved_threads st <-> (r ∈ roots)
        /\ exists e, newest (refers [ThreadResolve; ThreadUnresolve] r) log e /\ e_kind e = ThreadResolve)
  /\ (forall d, d ∈ pv_dismissed_reviews st <->
        exists e, oldest (refers [ReviewDismiss] (dm_review_id d)) log e
          /\ d = mkDismissal (dm_review_id d) (e_actor e) (default "" (e_value e)) (e_created_at e))
  /\ pv_milestone st = default None (last (omap milestone_of log)).
Proof.
  intros log st. unfold st, fold_pr_review_v2, collect_review. fold log. cbn [pv_head pv_head_updates
    pv_requested_reviewers pv_resolved_threads pv_dismissed_reviews pv_milestone].
  set (s := foldl (review_step roots) FoldState_default log). split_and!.
  - apply fold_heads.
  - done.
  - intros h. unfold s. rewrite fold_heads, list_elem_of_omap. intros (e & _ & He). unfold head_move_of in He.
    destruct (e_kind e); try done. apply fmap_Some in He as (o & Ho & ->). apply opt_filter_Some in Ho as [_ Ho].
    by apply to_lower_hex_oid.
  - intros x. rewrite elem_of_requested. unfold s. rewrite fold_requested. fold (filed request_of (rq_identity x)).
    rewrite request_newest. split; intros (e & Hn & H); exists e; (split; [done|]).
    + destruct (decide (e_kind e = ReviewRequest)) as [Hk|Hk].
      * rewrite bool_decide_eq_true_2 in H by done. split; [done|congruence].
      * by rewrite bool_decide_eq_false_2 in H.
    + destruct H as [Hk ->]. by rewrite bool_decide_eq_true_2.
  - intros r. rewrite elem_of_resolved. unfold s. rewrite fold_resolved. fold (filed (resolve_of roots) r).
    rewrite resolve_newest. split; intros (Hr & e & Hn & H); (split; [done|]); exists e; (split; [done|]).
    + symmetry in H. by apply bool_decide_eq_true in H.
    + by rewrite H.
  - intros d. rewrite elem_of_values. unfold s. setoid_rewrite fold_dismissed. split.
    + intros (k & Hk). apply (dismissal_oldest log k d) in Hk as (e & Ho & ->). by exists e.
    + intros Hd. exists (dm_review_id d). by apply (dismissal_oldest log (dm_review_id d) d).
  - apply fold_milestone.
Qed.

(** A non-member moves only what is theirs: an event of the author's type that is not of
    an author's kind, or not by the request's author, changes nothing; so nobody but a
    member dismisses a review or sets the milestone. *)
Theorem author_events_gated events a1 e a2 author initial_head roots :
  is_author_kind (e_kind e) = false \/ e_actor e <> author ->
  fold_pr_review_v2 events (a1 ++ e :: a2) author initial_head roots
    = fold_pr_review_v2 events (a1 ++ a2) author initial_head roots
  /\ forall x, x ∈ pv_dismissed_reviews (fold_pr_review_v2 events (a1 ++ e :: a2) author initial_head roots) ->
       exists m, (m ∈ events) /\ e_kind m = ReviewDismiss /\ e_ref_id m = Some (dm_review_id x) /\ e_actor m = dm_actor x.
Proof.
  intros He. assert (author_event_applies e author = false) as Ha.
  { unfold author_event_applies. destruct He as [->|Hne]; [done|]. by rewrite bool_decide_eq_false_2, andb_false_r. }
  split; [unfold fold_pr_review_v2; by rewrite merged_log_inert|].
  intros x. unfold fold_pr_review_v2, collect_review. cbn [pv_dismissed_reviews]. rewrite elem_of_values.
  setoid_rewrite fold_dismissed. intros (k & Hk). apply (dismissal_oldest _ k x) in Hk as (m & (l1 & l2 & Hl & (Hkind & Href & _) & _) & ->).
  exists m. apply list_elem_of_singleton in Hkind.
  assert (m ∈ merged_log events (a1 ++ e :: a2) author) as Hm by (rewrite Hl; set_solver).
  unfold merged_log in Hm. rewrite elem_of_sort_by, elem_of_app in Hm.
  destruct Hm as [Hm|[_ Hm]%list_elem_of_In%filter_In]; [done|]. unfold author_event_applies in Hm. by rewrite Hkind in Hm.
Qed.

Lemma author_events_gated_witness :
  let stranger := mkEvent "z" "p" HeadUpdate "mallory" None (Some "deadbeef") None 5 in
  fold_pr_review_v2 [] ([] ++ stranger :: []) "ann" "c0" ∅ = fold_pr_review_v2 [] ([] ++ []) "ann" "c0" ∅.
Proof. apply author_events_gated. by right. Defined.

(** An anchor a reader shows is well-formed: its path is there and not empty, its commit
    is empty or a lowercase object id, and it has either no line at all or a range
    inside one side of the file; anything else is no anchor, so no comment is shown at a
    wrong place. *)
Theorem anchor_of_spec f :
  match anchor_of f with
  | Some a => af_path f = Some (an_path a) /\ an_path a <> ""
      /\ an_commit_oid a = to_lower (default "" (af_commit_oid f))
      /\ (an_commit_oid a = "" \/ is_hex_oid (an_commit_oid a) = true)
      /\ an_line a = af_line f /\ an_side a = af_side f
      /\ match an_line a with
         | None => an_start_line a = None /\ an_side a = None /\ af_start_line f = None
         | Some line => exists start side, an_start_line a = Some start /\ (start <= line)%N
             /\ start = default line (af_start_line f) /\ an_side a = Some side /\ (side <= 1)%N
         end
  | None => default "" (af_path f) = ""
      \/ (default "" (af_commit_oid f) <> "" /\ is_hex_oid (to_lower (default "" (af_commit_oid f))) = false)
      \/ (af_line f = None /\ (af_side f <> None \/ af_start_line f <> None))
      \/ (exists line, af_line f = Some line
            /\ (default 2%N (af_side f) > 1 \/ line < default line (af_start_line f))%N)
  end.
Proof.
  unfold anchor_of. destruct (opt_filter (fun p => p != "") (af_path f)) as [path|] eqn:Hp; simpl.
  2: { left. destruct (af_path f) as [p|]; simpl in *; [|done]. by case_bool_decide. }
  apply opt_filter_Some in Hp as [Hp Hne]. rewrite negb_true_iff, bool_decide_eq_false in Hne.
  destruct (negb ((to_lower (default "" (af_commit_oid f)) == "") || is_hex_oid (to_lower (default "" (af_commit_oid f))))) eqn:Hc.
  { apply negb_true_iff, orb_false_iff in Hc as [Hc1 Hc2]. right. left. split; [|done].
    intros He. rewrite He in Hc1. done. }
  apply negb_false_iff, orb_true_iff in Hc. rewrite bool_decide_eq_true in Hc.
  destruct (anchor_lines _ _ _) as [[[line start] side]|] eqn:Hl; simpl.
  - unfold anchor_lines in Hl. split_and!; [done|done|done|done|..].
    all: destruct (af_line f) as [l|], (af_side f) as [sd|], (af_start_line f) as [st|]; try discriminate Hl;
      try (injection Hl as <- <- <-; done);
      destruct ((sd =? 0)%N || (sd =? 1)%N) eqn:Hsd; try discriminate Hl; simpl in Hl;
      match type of Hl with context [(?a <? ?b)%N] => destruct (N.ltb_spec a b) end; try discriminate Hl;
      injection Hl as <- <- <-; try done;
      eexists _, sd; split_and!; try done;
      apply orb_true_iff in Hsd; rewrite !N.eqb_eq in Hsd; lia.
  - right. right. unfold anchor_lines in Hl.
    destruct (af_line f) as [l|], (af_side f) as [sd|]; [| |left; split; [done|by left]|].
    + right. exists l. split; [done|]. simpl. destruct ((sd =? 0)%N || (sd =? 1)%N) eqn:Hsd.
      * destruct (N.ltb_spec l (default l (af_start_line f))); [by right|done].
      * left. apply orb_false_iff in Hsd as [H0%N.eqb_neq H1%N.eqb_neq]. lia.
    + right. exists l. split; [done|]. left. simpl. lia.
    + left. split; [done|]. destruct (af_start_line f); [by right|done].
Qed.
