(* ===== verification/MergeCheck.v ===== *)
(** Merge integrity ([rules/merge_check.rs]): from the facts a client gathered in git,
    whether a recorded merge contains the pull request, makes its changes as a squash or
    a rebase, or does not contain it. *)
From S2P Require Import Prelude Names ReviewFold.

(** Each changed path and the blob it ends with; [""] when the change deletes it. *)
Abbreviation TreeChange := (gmap string string).

Record MergeFacts := mkMergeFacts {
  mf_head_oid : string;
  mf_merge_oid : string;
  mf_tip_before : string;
  mf_merge_parents : list string;
  mf_head_in_merge : option bool;
  mf_tip_before_in_merge : option bool;
  mf_merge_change : option TreeChange;
  mf_pr_change : option TreeChange;
  mf_base_change : option TreeChange
}.

Inductive MergeVerdict :=
| Contains
| Squash
| Rebase
| Missing
| Unknown.

#[export] Instance MergeVerdict_eq_dec : EqDecision MergeVerdict.
Proof. solve_decision. Defined.

Record MergeContent := mkMergeContent { mc_verdict : MergeVerdict; mc_combined : list string }.

Definition content_of (verdict : MergeVerdict) : MergeContent := mkMergeContent verdict [].

(** The paths the merge does not leave with the pull request's blob, in path order. *)
Definition differing_paths (merge pr : TreeChange) : list string :=
  map fst (List.filter (fun '(path, blob) => merge !! path != Some blob) (btree_items pr)).

(** [Result<Option<Vec<String>>, ()>]: [inr tt] is the error. *)
Definition same_changes (f : MergeFacts) : option (list string) + unit :=
  if (mf_tip_before f == "") || (mf_tip_before_in_merge f == Some false) then inl None
  else match mf_tip_before_in_merge f, mf_merge_change f, mf_pr_change f with
  | Some true, Some merge, Some pr =>
    if existsb (fun p => pr !! p == None) (btree_keys merge) then inl None
    else
      let differing := differing_paths merge pr in
      match differing with
      | [] => inl (Some [])
      | _ =>
        match mf_base_change f with
        | None => inr tt
        | Some base =>
          if negb (forallb (fun p => base !! p != None) differing) then inl None
          else inl (Some (List.filter (fun p => negb ((merge !! p == None) && (base !! p == pr !! p))) differing))
        end
      end
  | _, _, _ => inr tt
  end.

Definition merge_content (f : MergeFacts) : MergeContent :=
  if (mf_head_in_merge f == Some true) || ((mf_head_oid f != "") && (mf_head_oid f == mf_merge_oid f))
  then content_of Contains
  else match same_changes f with
  | inl (Some combined) =>
    let squash := mf_merge_parents f == [mf_tip_before f] in
    mkMergeContent (if squash then Squash else Rebase) combined
  | inl None => if mf_head_in_merge f == Some false then content_of Missing else content_of Unknown
  | inr _ => content_of Unknown
  end.

Definition head_at (review : PrReviewState) (initial_head : string) (merged_at : N) : string :=
  match List.find (fun u => (hm_created_at u <=? merged_at)%N) (rev (pv_head_updates review)) with
  | Some u => hm_oid u
  | None => initial_head
  end.

(** ** What the labels say *)

(** The merge commit is the head, or the head is one of its ancestors. *)
Definition holds_head (f : MergeFacts) : Prop :=
  mf_head_in_merge f = Some true \/ (mf_head_oid f <> "" /\ mf_head_oid f = mf_merge_oid f).

(** [merge] is the change of [pr], put on a base that itself changed [base]: it touches
    nothing else, and where it does not leave the pull request's blob the base changed
    the path too. *)
Definition same_change (merge pr : TreeChange) (base : option TreeChange) : Prop :=
  (forall p, is_Some (merge !! p) -> is_Some (pr !! p))
  /\ (forall p blob, pr !! p = Some blob -> merge !! p <> Some blob ->
        exists b, base = Some b /\ is_Some (b !! p)).

(** The merged paths neither side alone explains. *)
Definition combined_path (merge pr : TreeChange) (base : option TreeChange) (p : string) : Prop :=
  exists blob, pr !! p = Some blob /\ merge !! p <> Some blob
    /\ ~ (merge !! p = None /\ exists b, base = Some b /\ b !! p = Some blob).

(** Nothing of the merge was built on the base's previous tip, or its change is another. *)
Definition other_change (f : MergeFacts) : Prop :=
  mf_tip_before f = "" \/ mf_tip_before_in_merge f = Some false
  \/ exists merge pr, mf_tip_before_in_merge f = Some true
       /\ mf_merge_change f = Some merge /\ mf_pr_change f = Some pr
       /\ ((exists p, is_Some (merge !! p) /\ pr !! p = None)
           \/ exists base p blob, mf_base_change f = Some base
                /\ pr !! p = Some blob /\ merge !! p <> Some blob /\ base !! p = None).

Lemma elem_of_differing merge pr p :
  p ∈ differing_paths merge pr <-> exists blob, pr !! p = Some blob /\ merge !! p <> Some blob.
Proof.
  unfold differing_paths. rewrite list_elem_of_In, in_map_iff. split.
  - intros ([q blob] & <- & Hq). rewrite filter_In, <-list_elem_of_In, elem_of_btree_items in Hq.
    destruct Hq as [? Hne%negb_true_iff%bool_decide_eq_false]. by exists blob.
  - intros (blob & Hp & Hne). exists (p, blob). split; [done|].
    rewrite filter_In, <-list_elem_of_In, elem_of_btree_items. by rewrite bool_decide_eq_false_2.
Qed.

Abbreviation path_lt := (fun x y => String.compare x y = Lt).

(** No path twice, in order. *)
Lemma btree_keys_increase {V} (m : gmap string V) : StronglySorted path_lt (btree_keys m).
Proof.
  pose proof (btree_keys_sorted m) as Hs. pose proof (NoDup_btree_items m) as Hnd.
  unfold btree_keys in *. induction Hs as [|x l Hs IH Hx]; [constructor|].
  apply NoDup_cons in Hnd as [Hxl Hnd]. constructor; [by apply IH|]. rewrite Forall_forall in Hx |- *.
  intros y Hy. specialize (Hx y Hy). destruct (String.compare x y) eqn:E; [|done|done].
  apply (cmp_eq (cmp := String.compare)) in E as ->. done.
Qed.

Lemma differing_sorted merge pr : StronglySorted path_lt (differing_paths merge pr).
Proof.
  eapply StronglySorted_sublist; [|apply (btree_keys_increase pr)].
  unfold differing_paths, btree_keys. induction (btree_items pr) as [|[k v] l IH]; simpl; [done|].
  destruct (_ != _); simpl; by constructor.
Qed.

(** The merge was built on the base's previous tip and makes the pull request's change. *)
Definition makes_change (f : MergeFacts) (merge pr : TreeChange) : Prop :=
  mf_tip_before f <> "" /\ mf_tip_before_in_merge f = Some true
  /\ mf_merge_change f = Some merge /\ mf_pr_change f = Some pr
  /\ same_change merge pr (mf_base_change f).

Lemma makes_not_other f merge pr : makes_change f merge pr -> ~ other_change f.
Proof.
  intros (Htip & Hin & Hm & Hp & Honly & Hblob) [?|[?|(merge' & pr' & _ & Hm' & Hp' & [(p & Hpm & Hpp)|Hb])]];
    [congruence..| |]; rewrite Hm in Hm'; rewrite Hp in Hp'; simplify_eq.
  - apply Honly in Hpm as [? ?]. congruence.
  - destruct Hb as (base & p & blob & Hbase & Hpp & Hpm & Hpb).
    destruct (Hblob p blob Hpp Hpm) as (b & Hb & [? ?]). congruence.
Qed.

Lemma same_changes_spec f :
  match same_changes f with
  | inl (Some combined) =>
    exists merge pr, makes_change f merge pr
      /\ (forall p, p ∈ combined <-> combined_path merge pr (mf_base_change f) p)
      /\ StronglySorted path_lt combined
  | inl None => other_change f
  | inr _ => ~ other_change f /\ forall merge pr, ~ makes_change f merge pr
  end.
Proof.
  unfold same_changes. destruct (mf_tip_before f == "") eqn:Ht; simpl.
  { apply bool_decide_eq_true in Ht. by left. }
  apply bool_decide_eq_false in Ht. destruct (mf_tip_before_in_merge f) as [[]|] eqn:Hin; simpl.
  2:{ by right; left. }
  2:{ split; [|intros ?? (_ & ? & _); congruence].
      intros [?|[?|(? & ? & ? & _)]]; congruence. }
  destruct (mf_merge_change f) as [merge|] eqn:Hm.
  2:{ split; [|intros ?? (_ & _ & ? & _); congruence]. intros [?|[?|(? & ? & ? & ? & _)]]; congruence. }
  destruct (mf_pr_change f) as [pr|] eqn:Hp.
  2:{ split; [|intros ?? (_ & _ & _ & ? & _); congruence]. intros [?|[?|(? & ? & ? & ? & ? & _)]]; congruence. }
  destruct (existsb _ _) eqn:Hx.
  { apply existsb_exists in Hx as (p & Hpk & Hpp%bool_decide_eq_true). rewrite <-list_elem_of_In in Hpk.
    apply elem_of_btree_keys in Hpk as [v Hv]. right; right. exists merge, pr. split_and!; [done..|].
    left. exists p. split; [by exists v|done]. }
  assert (forall p, is_Some (merge !! p) -> is_Some (pr !! p)) as Honly.
  { intros p [v Hv]. destruct (pr !! p) eqn:E; [done|]. exfalso.
    assert (existsb (fun p => pr !! p == None) (btree_keys merge) = true); [|congruence].
    apply existsb_exists. exists p. rewrite <-list_elem_of_In, elem_of_btree_keys, bool_decide_eq_true.
    split; [by exists v|done]. }
  pose proof (differing_sorted merge pr) as Hsort. pose proof (elem_of_differing merge pr) as Hd.
  destruct (differing_paths merge pr) as [|d ds].
  { exists merge, pr. unfold makes_change. rewrite Hin, Hm, Hp. split_and!; [done..| | |done].
    - split; [done|]. intros p blob Hpp Hpm. exfalso. apply (not_elem_of_nil p). apply Hd. by exists blob.
    - intros p. split; [by intros ?%not_elem_of_nil|]. intros (blob & ? & ? & _). apply Hd. by exists blob. }
  destruct (mf_base_change f) as [base|] eqn:Hb.
  2:{ destruct (proj1 (Hd d)) as (blob & Hpd & Hmd); [left|]. split.
      - intros [?|[?|(m & q & _ & Hm' & Hp' & [(p & Hpm & Hpp)|(? & ? & ? & ? & _)])]]; [congruence..| |congruence].
        rewrite Hm in Hm'. rewrite Hp in Hp'. simplify_eq. apply Honly in Hpm as [? ?]. congruence.
      - intros m q (_ & _ & Hm' & Hp' & _ & Hbl). rewrite Hm in Hm'. rewrite Hp in Hp'. simplify_eq.
        destruct (Hbl d blob Hpd Hmd) as (b & ? & _). congruence. }
  destruct (forallb _ _) eqn:Hall; cbn [negb].
  - exists merge, pr. unfold makes_change. rewrite Hin, Hm, Hp. split_and!; [done..| | |].
    + split; [done|]. intros p blob Hpp Hpm. exists base. split; [done|].
      rewrite List.forallb_forall in Hall. specialize (Hall p).
      rewrite <-list_elem_of_In, Hd, negb_true_iff, bool_decide_eq_false in Hall.
      destruct (base !! p); [done|]. exfalso. apply Hall; [by exists blob|done].
    + intros p. rewrite list_elem_of_In, filter_In, <-list_elem_of_In, Hd, negb_true_iff, andb_false_iff.
      rewrite !bool_decide_eq_false. split.
      * intros [(blob & Hpp & Hpm) Hn]. exists blob. split_and!; [done..|].
        intros (Hnone & b & [= <-] & Hbp). destruct Hn; congruence.
      * intros (blob & Hpp & Hpm & Hn). split; [by exists blob|].
        destruct (decide (merge !! p = None)) as [Hnone|]; [right|by left].
        intros Heq. apply Hn. split; [done|]. exists base. split; [done|]. congruence.
    + eapply StronglySorted_sublist; [apply filter_sublist|done].
  - apply not_true_iff_false in Hall. right; right. exists merge, pr. split_and!; [done..|]. right.
    assert (exists p, (p ∈ d :: ds) /\ base !! p = None) as (p & (blob & ? & ?)%Hd & ?).
    { clear - Hall. induction (d :: ds) as [|p l IH]; [done|]. simpl in Hall.
      destruct (base !! p) eqn:E; simpl in Hall.
      - destruct IH as (q & ? & ?); [done|].
        exists q. split; [by right|done].
      - exists p. split; [left|done]. }
    by exists base, p, blob.
Qed.

(** [g] knows all [f] does, and perhaps more. *)
Definition knows {A} (o o' : option A) : Prop := o = None \/ o' = o.
Definition reads_more (f g : MergeFacts) : Prop :=
  mf_head_oid g = mf_head_oid f /\ mf_merge_oid g = mf_merge_oid f
  /\ mf_tip_before g = mf_tip_before f /\ mf_merge_parents g = mf_merge_parents f
  /\ knows (mf_head_in_merge f) (mf_head_in_merge g)
  /\ knows (mf_tip_before_in_merge f) (mf_tip_before_in_merge g)
  /\ knows (mf_merge_change f) (mf_merge_change g) /\ knows (mf_pr_change f) (mf_pr_change g)
  /\ knows (mf_base_change f) (mf_base_change g).

Lemma knows_Some {A} (o o' : option A) x : knows o o' -> o = Some x -> o' = Some x.
Proof. intros [-> | ->]; congruence. Qed.

Lemma other_change_mono f g : reads_more f g -> other_change f -> other_change g.
Proof.
  intros (_ & _ & Ht & _ & _ & Hin & Hm & Hp & Hb) [?|[?|(merge & pr & ? & ? & ? & Hd)]].
  - left. congruence.
  - right; left. by eapply knows_Some.
  - right; right. exists merge, pr. split_and!; [by eapply knows_Some..|].
    destruct Hd as [?|(base & p & blob & ? & Hrest)]; [by left|right].
    exists base, p, blob. split; [by eapply knows_Some|done].
Qed.

Lemma holds_head_true f :
  (mf_head_in_merge f == Some true) || ((mf_head_oid f != "") && (mf_head_oid f == mf_merge_oid f)) = true
  <-> holds_head f.
Proof.
  unfold holds_head. by rewrite orb_true_iff, andb_true_iff, negb_true_iff, !bool_decide_eq_true, bool_decide_eq_false.
Qed.

Lemma merge_verdict_Missing f :
  mc_verdict (merge_content f) = Missing <->
  ~ holds_head f /\ mf_head_in_merge f = Some false /\ other_change f.
Proof.
  unfold merge_content. destruct ((mf_head_in_merge f == Some true) || _) eqn:Eh.
  { apply holds_head_true in Eh. simpl. split; [done|]. by intros [? _]. }
  apply not_true_iff_false in Eh. rewrite holds_head_true in Eh.
  pose proof (same_changes_spec f) as Hs. destruct (same_changes f) as [[combined|]|].
  - simpl. split; [by case_match|]. intros (_ & _ & Ho). destruct Hs as (m & p & Hmk & _).
    exfalso. by eapply makes_not_other.
  - destruct (decide (mf_head_in_merge f = Some false)) as [E|E].
    + rewrite bool_decide_eq_true_2 by done. done.
    + rewrite bool_decide_eq_false_2 by done. simpl. split; [done|]. by intros (_ & ? & _).
  - simpl. split; [done|]. intros (_ & _ & ?). by destruct Hs.
Qed.

(** What a merge's label says, [Missing] and [Unknown] apart. *)
Definition labelled (f : MergeFacts) (c : MergeContent) : Prop :=
  (mc_verdict c = Contains <-> holds_head f)
  /\ ((mc_verdict c = Squash \/ mc_verdict c = Rebase) <->
        ~ holds_head f /\ exists merge pr, makes_change f merge pr)
  /\ (mc_verdict c = Squash -> mf_merge_parents f = [mf_tip_before f])
  /\ (mc_verdict c = Rebase -> mf_merge_parents f <> [mf_tip_before f])
  /\ (forall p, p ∈ mc_combined c <->
        ~ holds_head f /\ exists merge pr, makes_change f merge pr
          /\ combined_path merge pr (mf_base_change f) p)
  /\ StronglySorted path_lt (mc_combined c).

Lemma no_claim f v :
  ~ holds_head f -> (forall merge pr, ~ makes_change f merge pr) -> v = Missing \/ v = Unknown ->
  labelled f (content_of v).
Proof.
  intros Hh Hn Hv. unfold labelled. simpl. destruct Hv as [-> | ->].
  all: split_and!; try done; [split; [by intros [?|?]|]; intros (_ & m & p & ?); by destruct (Hn m p)| |constructor].
  all: intros p; split; [by intros ?%not_elem_of_nil|]; intros (_ & m & q & ? & _); by destruct (Hn m q).
Qed.

Lemma merge_content_cases f : labelled f (merge_content f).
Proof.
  unfold merge_content.
  destruct ((mf_head_in_merge f == Some true) || _) eqn:Eh.
  { apply holds_head_true in Eh as Hh. unfold labelled. simpl.  split_and!; [done| |done|done| |constructor].
    - split; [by intros [?|?]|by intros [? _]].
    - intros p. split; [by intros ?%not_elem_of_nil|by intros [? _]]. }
  apply not_true_iff_false in Eh. rewrite holds_head_true in Eh.
  pose proof (same_changes_spec f) as Hs. destruct (same_changes f) as [[combined|]|].
  - destruct Hs as (merge & pr & Hmk & Hc & Hsort). simpl.
    assert (forall m' p', makes_change f m' p' -> m' = merge /\ p' = pr) as Huniq.
    { intros m' p' (_ & _ & H1 & H2 & _). destruct Hmk as (_ & _ & H3 & H4 & _). split; congruence. }
    split_and!; [by case_match|split; [by eauto|by case_match; auto]| | | |done].
    + case_bool_decide; done.
    + case_bool_decide; done.
    + intros p. rewrite Hc. split; [by eauto 6|]. by intros (_ & m' & p' & [-> ->]%Huniq & ?).
  - assert (forall m p, ~ makes_change f m p) as Hnm by (intros m p Hmk; by eapply makes_not_other).
    case_bool_decide; apply no_claim; auto.
  - destruct Hs. apply no_claim; auto.
Qed.

(** A recorded merge is labelled by what git shows: it contains the pull request exactly
    when the merge commit is its head or has it as an ancestor; it is a squash or a rebase
    exactly when, failing that, it was built on the base's previous tip, touches nothing
    the pull request leaves alone and leaves each of its paths with its blob unless the
    base changed that path too (a squash when that tip is its only parent), and then lists
    in path order the paths neither side alone explains; and it is called missing only when
    the head is known not to be in it and its change is known to be another, which reading
    more facts never takes back. *)
Theorem merge_content_spec f :
  let c := merge_content f in
  (mc_verdict c = Contains <-> holds_head f)
  /\ ((mc_verdict c = Squash \/ mc_verdict c = Rebase) <->
        ~ holds_head f /\ exists merge pr, makes_change f merge pr)
  /\ (mc_verdict c = Squash -> mf_merge_parents f = [mf_tip_before f])
  /\ (mc_verdict c = Rebase -> mf_merge_parents f <> [mf_tip_before f])
  /\ (forall p, p ∈ mc_combined c <->
        ~ holds_head f /\ exists merge pr, makes_change f merge pr
          /\ combined_path merge pr (mf_base_change f) p)
  /\ StronglySorted path_lt (mc_combined c)
  /\ (mc_verdict c = Missing <-> ~ holds_head f /\ mf_head_in_merge f = Some false /\ other_change f)
  /\ (forall g, mc_verdict c = Missing -> reads_more f g -> mc_verdict (merge_content g) = Missing).
Proof.
  cbv zeta. destruct (merge_content_cases f) as (?&?&?&?&?&?). split_and!; [done..|apply merge_verdict_Missing|].
  intros g. rewrite !merge_verdict_Missing. intros (Hh & Hin & Ho) Hm.
  pose proof Hm as (Heq1 & Heq2 & _ & _ & Hk & _).
  pose proof (knows_Some _ _ _ Hk Hin). unfold holds_head in *. rewrite Heq1, Heq2.
  split_and!; [|done|by eapply other_change_mono]. intros [?|?]; [congruence|tauto].
Qed.

(** The head a merge is judged by is the one of the newest applied head update written no
    later than the merge, else the request's first head: what its author pushes after the
    merge does not change what was merged. *)
Theorem head_at_spec review initial_head merged_at :
  (exists before u after,
     pv_head_updates review = before ++ u :: after /\ (hm_created_at u <= merged_at)%N
     /\ (forall v, v ∈ after -> (merged_at < hm_created_at v)%N)
     /\ head_at review initial_head merged_at = hm_oid u)
  \/ ((forall v, v ∈ pv_head_updates review -> (merged_at < hm_created_at v)%N)
      /\ head_at review initial_head merged_at = initial_head).
Proof.
  unfold head_at. destruct (List.find _ _) as [u|] eqn:E.
  - left. apply find_rev_last in E as (l1 & l2 & Heq & Hu & Hl). exists l1, u, l2.
    split_and!; [done|by apply N.leb_le| |done]. intros v Hv. apply N.leb_gt. by apply Hl.
  - right. split; [|done]. intros v Hv. apply N.leb_gt. eapply find_none in E; [exact E|].
    rewrite <-in_rev, <-list_elem_of_In. done.
Qed.

(** *** A squash seen on concrete facts *)

Definition squash_facts : MergeFacts :=
  mkMergeFacts "h" "m" "t" ["t"] (Some false) (Some true)
    (Some {["a" := "1"; "b" := "3"]}) (Some {["a" := "1"; "b" := "2"]}) (Some {["b" := "9"]}).

Example squash_example : merge_content squash_facts = mkMergeContent Squash ["b"].
Proof. vm_compute. reflexivity. Qed.
