(* ===== verification/LinkedIssues.v ===== *)
(** The issue references of a text ([rules/review.rs]: [linked_issues]) and the pull request an
    issue was closed by ([rules/transition.rs]: [closed_by_pr]). The scanner is related to
    a declarative grammar of a reference. *)
From S2P Require Import Prelude.

(** ** Definitions *)

Abbreviation byte := Ascii.ascii.

Definition LINK_VERBS : list string :=
  ["close"; "closes"; "closed"; "fix"; "fixes"; "fixed"; "resolve"; "resolves"; "resolved"].

Definition is_word (b : byte) : bool := is_alnum b || (b == "_"%char).

Definition is_blank (b : byte) : bool := (b == " "%char) || (b == Ascii.ascii_of_N 9).

Definition is_verb (word : list byte) : bool := existsb (fun v => to_lower (of_bytes word) == v) LINK_VERBS.

Definition starts_word (l : list byte) : bool := is_some_and (head l) is_word.

(** [str::parse::<u32>] of a run of digits. *)
Definition digits_value (l : list byte) : N := foldl (fun n b => 10 * n + (byte_val b - 48))%N 0%N l.
Definition parse_u32 (l : list byte) : option N := u32_try_from (digits_value l).

(** After the verb: an optional colon, blanks, a hash sign and the digits. *)
Definition parse_reference (l : list byte) : option (list byte * list byte) :=
  let l1 := match l with b :: t => if b == ":"%char then t else l | [] => [] end in
  match span is_blank l1 with
  | (_ :: _, b :: l2) =>
    if b == "#"%char then
      let '(digits, rest) := span is_digit l2 in
      if (digits == []) || starts_word rest then None else Some (digits, rest)
    else None
  | _ => None
  end.

(** The scanning loop: [prev] is the byte before [rest]. *)
Fixpoint link_loop (fuel : nat) (prev : option byte) (rest : list byte) : list N :=
  match fuel, rest with
  | O, _ | _, [] => []
  | S fuel, b :: t =>
    if negb (is_alpha b) || is_some_and prev is_word then link_loop fuel (Some b) t
    else
      let '(word, r) := span is_alpha rest in
      if starts_word r || negb (is_verb word) then link_loop fuel (last word) r
      else
        match parse_reference r with
        | None => link_loop fuel (last word) r
        | Some (digits, r') =>
          match parse_u32 digits with
          | Some n => if (0 <? n)%N then [n] else []
          | None => []
          end ++ link_loop fuel (last digits) r'
        end
  end.

(** The numbers, deduplicated and ascending. *)
Definition linked_issues (text : string) : list N :=
  sort_by N.compare (elements (list_to_set (C := gset N) (link_loop (String.length text) None (bytes text)))).

Record ClosingPr := mkClosingPr {
  cp_number : N;
  cp_merged : bool;
  cp_merged_at : option N;
  cp_body : string;
  cp_imported : bool
}.

Definition closed_by_pr (issue : N) (closed_by : option N) (closed_at : N) (pr : option ClosingPr) : option N :=
  n ← closed_by;
  p ← opt_filter (fun p => (cp_number p =? n)%N && negb (n =? issue)%N) pr;
  let merged_before := cp_merged p && is_some_and (cp_merged_at p) (fun at_ => at_ <=? closed_at)%N in
  if merged_before && negb (cp_imported p) && bool_decide (issue ∈ linked_issues (cp_body p)) then Some n else None.

(** ** The grammar of a reference *)

(** [text] says, after a byte [prev], that issue [n] is closed: somewhere in it, not inside a
    word, a verb, an optional colon, blanks, and [#n] not followed by a word byte. *)
Definition closes_from (prev : option byte) (text : list byte) (n : N) : Prop :=
  exists pre verb colon ws digits post,
    text = pre ++ verb ++ colon ++ ws ++ "#"%char :: digits ++ post
    /\ is_some_and (match last pre with Some b => Some b | None => prev end) is_word = false
    /\ is_verb verb = true /\ (colon = [] \/ colon = [":"%char])
    /\ ws <> [] /\ Forall (fun b => is_blank b = true) ws
    /\ digits <> [] /\ Forall (fun b => is_digit b = true) digits
    /\ starts_word post = false /\ parse_u32 digits = Some n /\ (0 < n)%N.

Definition closes (text : string) (n : N) : Prop := closes_from None (bytes text) n.

(** ** Helper lemmas *)

Lemma alpha_word b : is_alpha b = true -> is_word b = true.
Proof. unfold is_word, is_alnum. by intros ->. Qed.
Lemma alpha_lower b : is_alpha (lower b) = is_alpha b.
Proof. by destruct b as [[] [] [] [] [] [] [] []]. Qed.
Lemma blank_not_alpha b : is_blank b = true -> is_alpha b = false.
Proof. by destruct b as [[] [] [] [] [] [] [] []]. Qed.
Lemma digit_not_alpha b : is_digit b = true -> is_alpha b = false.
Proof. by destruct b as [[] [] [] [] [] [] [] []]. Qed.

Lemma verb_alpha w : is_verb w = true -> w <> [] /\ Forall (fun b => is_alpha b = true) w.
Proof.
  unfold is_verb. rewrite existsb_exists. intros (v & Hv & Heq%bool_decide_eq_true).
  assert (bytes v <> [] /\ Forall (fun b => is_alpha b = true) (bytes v)) as [Hne Hall].
  { unfold LINK_VERBS in Hv. simpl in Hv. repeat destruct Hv as [<-|Hv]; try done;
      (split; [done|repeat constructor]). }
  rewrite <-Heq in Hne, Hall. unfold to_lower in Hne, Hall. rewrite !bytes_of_bytes in Hne, Hall.
  split; [by destruct w|]. apply Forall_map in Hall. eapply Forall_impl; [exact Hall|]. intros b. simpl.
  by rewrite alpha_lower.
Qed.

(** What follows a verb is no letter. *)
Lemma after_verb colon ws (rest : list byte) :
  colon = [] \/ colon = [":"%char] -> ws <> [] -> Forall (fun b => is_blank b = true) ws ->
  is_some_and (head (colon ++ ws ++ rest)) is_alpha = false /\ starts_word (colon ++ ws ++ rest) = false.
Proof.
  intros [-> | ->] Hne Hws; [|done]. destruct ws as [|b ws]; [done|]. apply Forall_cons in Hws as [Hb _].
  simpl. split; [by apply blank_not_alpha|]. unfold starts_word. simpl.
  destruct b as [[] [] [] [] [] [] [] []]; try discriminate Hb; done.
Qed.

Lemma parse_reference_spec r digits post :
  parse_reference r = Some (digits, post) <->
  exists colon ws, r = colon ++ ws ++ "#"%char :: digits ++ post /\ (colon = [] \/ colon = [":"%char])
    /\ ws <> [] /\ Forall (fun b => is_blank b = true) ws
    /\ digits <> [] /\ Forall (fun b => is_digit b = true) digits /\ starts_word post = false.
Proof.
  unfold parse_reference. split.
  - intros H. set (l1 := match r with b :: t => if b == ":"%char then t else r | [] => [] end) in *.
    assert (exists colon, r = colon ++ l1 /\ (colon = [] \/ colon = [":"%char])) as (colon & Hr & Hc).
    { unfold l1. destruct r as [|b t]; [exists []; auto|]. case_bool_decide as Hb; [subst; by exists [":"%char]; auto|by exists []; auto]. }
    destruct (span is_blank l1) as [ws l2] eqn:Hspan. apply span_spec in Hspan as (Hl1 & Hws & _).
    destruct ws as [|w ws]; [done|]. destruct l2 as [|b l2]; [done|]. case_bool_decide as Hb; [|done]. subst b.
    destruct (span is_digit l2) as [d p] eqn:Hd. apply span_spec in Hd as (Hl2 & Hdig & _).
    destruct ((d == []) || starts_word p) eqn:E; [done|]. injection H as <- <-.
    apply orb_false_iff in E as [E1 E2]. apply bool_decide_eq_false in E1.
    exists colon, (w :: ws). split_and!; [by rewrite Hr, Hl1, Hl2|done..].
  - intros (colon & ws & -> & Hc & Hne & Hws & Hdne & Hd & Hp).
    assert (match colon ++ ws ++ "#"%char :: digits ++ post with b :: t => if b == ":"%char then t else colon ++ ws ++ "#"%char :: digits ++ post | [] => [] end
      = ws ++ "#"%char :: digits ++ post) as ->.
    { destruct Hc as [-> | ->]; [|done]. destruct ws as [|w ws]; [done|]. simpl. apply Forall_cons in Hws as [Hw _].
      case_bool_decide; [by subst|done]. }
    rewrite span_app by done. destruct ws as [|w ws]; [done|]. simpl.
    rewrite span_app; [|done|].
    + rewrite bool_decide_eq_false_2 by done. simpl. by rewrite Hp.
    + destruct post as [|b post]; [done|]. simpl in *. destruct (is_digit b) eqn:E; [|done].
      unfold starts_word, is_word, is_alnum in Hp. simpl in Hp. by rewrite E, orb_true_r in Hp.
Qed.

(** Moving on one byte that starts no verb. *)
Lemma closes_skip prev b t n :
  is_alpha b = false \/ is_some_and prev is_word = true ->
  closes_from prev (b :: t) n <-> closes_from (Some b) t n.
Proof.
  intros Hb. split.
  - intros ([|b' pre] & verb & colon & ws & digits & post & Heq & Hpre & Hv & H).
    + exfalso. destruct (verb_alpha verb Hv) as [Hne Hal]. destruct verb as [|v verb]; [done|].
      simpl in Heq, Hpre. injection Heq as <- _. apply Forall_cons in Hal as [Hal _]. destruct Hb; congruence.
    + injection Heq as <- ->. exists pre, verb, colon, ws, digits, post. split_and!; [done| |done|apply H..].
      rewrite last_cons in Hpre. by destruct (last pre).
  - intros (pre & verb & colon & ws & digits & post & -> & Hpre & H).
    exists (b :: pre), verb, colon, ws, digits, post. split_and!; [done| |apply H..].
    rewrite last_cons. by destruct (last pre).
Qed.

Lemma closes_skip_all l prev r n :
  Forall (fun b => is_alpha b = false) l ->
  closes_from prev (l ++ r) n <-> closes_from (match last l with Some b => Some b | None => prev end) r n.
Proof.
  intros Hl. revert prev. induction Hl as [|b l Hb Hl IH]; intros prev; [done|].
  rewrite <-app_comm_cons, closes_skip, IH by by left. rewrite last_cons. by destruct (last l).
Qed.

Lemma last_of_Forall {A} (P : A -> Prop) l x : Forall P l -> last l = Some x -> P x.
Proof. intros Hl Hx. rewrite Forall_forall in Hl. apply Hl. by apply last_Some_elem_of. Qed.

(** At a word: it is the verb, or the reference is later. *)
Lemma closes_word prev word r n :
  word <> [] -> Forall (fun b => is_alpha b = true) word -> is_some_and (head r) is_alpha = false ->
  is_some_and prev is_word = false ->
  closes_from prev (word ++ r) n <->
  (starts_word r = false /\ is_verb word = true
   /\ exists digits post, parse_reference r = Some (digits, post) /\ parse_u32 digits = Some n /\ (0 < n)%N)
  \/ closes_from (last word) r n.
Proof.
  intros Hne Hword Hr Hprev. split.
  - intros (pre & verb & colon & ws & digits & post & Heq & Hpre & Hv & Hc & Hwne & Hws & Hdne & Hd & Hp & Hn & Hpos).
    destruct (verb_alpha verb Hv) as [Hvne Hval]. destruct pre as [|p pre].
    + left. assert (span is_alpha (word ++ r) = (word, r)) as Hs1 by by apply span_app.
      assert (span is_alpha (verb ++ colon ++ ws ++ "#"%char :: digits ++ post) = (verb, colon ++ ws ++ "#"%char :: digits ++ post)) as Hs2.
      { apply span_app; [done|]. by apply after_verb. }
      rewrite app_nil_l in Heq. rewrite Heq, Hs2 in Hs1. injection Hs1 as -> <-.
      split_and!; [by apply after_verb|done|]. exists digits, post. split_and!; [|done|done].
      apply parse_reference_spec. by exists colon, ws.
    + right. set (tl := verb ++ colon ++ ws ++ "#"%char :: digits ++ post) in *.
      apply app_eq_app in Heq as [k [[Hw Htl]|[Hw ->]]].
      * (* the reference would start inside the word *)
        exfalso. assert (Forall (fun b => is_alpha b = true) (p :: pre)) as Hal by (rewrite Hw in Hword; by apply Forall_app in Hword as [? _]).
        destruct (last (p :: pre)) as [q|] eqn:Hq; [|by apply last_None in Hq].
        pose proof (last_of_Forall _ _ _ Hal Hq) as Haq. simpl in Hpre, Haq. by rewrite alpha_word in Hpre.
      * exists k, verb, colon, ws, digits, post. split_and!; [done| |done..].
        rewrite Hw, last_app in Hpre. destruct (last k); [done|]. destruct (last word) eqn:Hlw; [done|]. by apply last_None in Hlw.
  - intros [(Hs & Hv & digits & post & Hp & Hn & Hpos)|(pre & verb & colon & ws & digits & post & -> & Hpre & H)].
    + apply parse_reference_spec in Hp as (colon & ws & -> & Hc & Hwne & Hws & Hdne & Hd & Hpost).
      by exists [], word, colon, ws, digits, post.
    + exists (word ++ pre), verb, colon, ws, digits, post. split_and!; [by rewrite <-app_assoc| |apply H..].
      rewrite last_app. destruct (last pre); [done|]. by destruct (last word).
Qed.

Lemma elem_of_number digits n (rest : list N) :
  n ∈ match parse_u32 digits with Some n => if (0 <? n)%N then [n] else [] | None => [] end ++ rest <->
  (parse_u32 digits = Some n /\ (0 < n)%N) \/ n ∈ rest.
Proof.
  rewrite elem_of_app. destruct (parse_u32 digits) as [m|]; [|rewrite elem_of_nil; intuition done].
  destruct (N.ltb_spec 0 m).
  - rewrite list_elem_of_singleton. split; [intros [->|?]; auto|]. intros [[[= ->] _]|?]; auto.
  - rewrite elem_of_nil. split; [intros [[]|?]; auto|]. intros [[[= ->] ?]|?]; [lia|auto].
Qed.

Lemma closes_nil prev n : ~ closes_from prev [] n.
Proof.
  intros (pre & verb & colon & ws & digits & post & Heq & _). symmetry in Heq.
  apply app_eq_nil in Heq as [_ Heq]. apply app_eq_nil in Heq as [_ Heq]. apply app_eq_nil in Heq as [_ Heq].
  by apply app_eq_nil in Heq as [_ Heq].
Qed.

Lemma link_loop_spec fuel prev rest n :
  length rest <= fuel -> n ∈ link_loop fuel prev rest <-> closes_from prev rest n.
Proof.
  revert prev rest. induction fuel as [|fuel IH]; intros prev [|b t] Hlen; simpl in Hlen.
  1,3: split; [by intros ?%not_elem_of_nil|by intros ?%closes_nil].
  1: lia.
  simpl. destruct (negb (is_alpha b) || is_some_and prev is_word) eqn:Hskip.
  { rewrite closes_skip; [apply IH; lia|]. apply orb_true_iff in Hskip as [?%negb_true_iff|?]; auto. }
  apply orb_false_iff in Hskip as [Hb%negb_false_iff Hprev].
  rewrite Hb. destruct (span is_alpha t) as [w r] eqn:Hs. apply span_spec in Hs as (-> & Hw & Hr).
  rewrite (app_comm_cons w r b), closes_word by (done || by constructor).
  rewrite length_app in Hlen.
  destruct (starts_word r) eqn:Hsw; simpl.
  { rewrite IH by lia. split; [by right|]. by intros [(? & _)|?]. }
  destruct (is_verb (b :: w)) eqn:Hv; simpl.
  2: { rewrite IH by lia. split; [by right|]. by intros [(_ & ? & _)|?]. }
  destruct (parse_reference r) as [[digits r']|] eqn:Hp.
  - rewrite elem_of_number. pose proof Hp as (colon & ws & Hreq & Hc & Hwne & Hws & Hdne & Hd & Hpost)%parse_reference_spec.
    assert (length r' <= length r) as Hlr by (rewrite Hreq, !length_app; simpl; rewrite length_app; lia).
    rewrite IH by lia.
    assert (closes_from (last (b :: w)) r n <-> closes_from (last digits) r' n) as ->.
    { rewrite Hreq.
      assert (colon ++ ws ++ "#"%char :: digits ++ r' = (colon ++ ws ++ "#"%char :: digits) ++ r') as ->
        by by rewrite <-!app_assoc.
      rewrite closes_skip_all.
      - rewrite !last_app, last_cons. destruct (last digits) eqn:Hl; [done|]. by apply last_None in Hl.
      - apply Forall_app. split; [destruct Hc as [-> | ->]; by repeat constructor|].
        apply Forall_app. split; [eapply Forall_impl; [exact Hws|]; apply blank_not_alpha|].
        constructor; [done|]. eapply Forall_impl; [exact Hd|]. apply digit_not_alpha. }
    split.
    + intros [[? ?]|?]; [left|by right]. split_and!; [done|done|]. by exists digits, r'.
    + intros [(_ & _ & d & p & [= <- <-] & ? & ?)|?]; [by left|by right].
  - rewrite IH by lia. split; [by right|]. by intros [(_ & _ & ? & ? & ? & _)|?].
Qed.

(** ** Theorems *)

(** The issues a text closes are exactly those a reference names: a verb of the list in
    any case, not inside a word, an optional colon, spaces or tabs, and [#n] with [n]
    positive, fitting 32 bits and not followed by a word byte. Each is listed once, in
    ascending order, and the scanner stops on every text. *)
Theorem linked_issues_spec text :
  (forall n, n ∈ linked_issues text <-> closes text n)
  /\ NoDup (linked_issues text)
  /\ StronglySorted (fun a b => (a <= b)%N) (linked_issues text)
  /\ (forall n, n ∈ linked_issues text -> (0 < n <= u32_max)%N).
Proof.
  assert (forall n, n ∈ linked_issues text <-> closes text n) as Hin.
  { intros n. unfold linked_issues, closes. rewrite elem_of_sort_by, elem_of_elements, elem_of_list_to_set.
    apply link_loop_spec. by rewrite length_bytes. }
  split_and!; [done| | |].
  - unfold linked_issues. rewrite sort_by_perm. apply NoDup_elements.
  - unfold linked_issues. pose proof (sort_by_sorted N.compare (elements (list_to_set (C := gset N)
      (link_loop (String.length text) None (bytes text))))) as Hs.
    induction Hs as [|x l _ IH Hx]; constructor; [done|]. eapply Forall_impl; [exact Hx|]. intros y.
    apply N.compare_le_iff.
  - intros n (pre & verb & colon & ws & digits & post & _ & _ & _ & _ & _ & _ & _ & _ & _ & Hn & Hpos)%Hin.
    split; [done|]. unfold parse_u32, u32_try_from in Hn. destruct (N.leb_spec (digits_value digits) u32_max); congruence.
Qed.

(** A close names a pull request only when that request really closed the issue: it is
    the one the close names, another thread than the issue, merged no later than the
    close, not imported, and its description closes the issue. *)
Theorem closed_by_pr_spec issue closed_by closed_at pr n :
  closed_by_pr issue closed_by closed_at pr = Some n <->
  closed_by = Some n /\ n <> issue
  /\ exists p merged_at, pr = Some p /\ cp_number p = n /\ cp_merged p = true /\ cp_merged_at p = Some merged_at
       /\ (merged_at <= closed_at)%N /\ cp_imported p = false /\ closes (cp_body p) issue.
Proof.
  assert (forall text k, bool_decide (k ∈ linked_issues text) = true <-> closes text k) as Hl.
  { intros text k. rewrite bool_decide_eq_true. unfold linked_issues, closes.
    rewrite elem_of_sort_by, elem_of_elements, elem_of_list_to_set. apply link_loop_spec. by rewrite length_bytes. }
  unfold closed_by_pr. destruct closed_by as [m|]; simpl; [|by split; [|intros (? & _)]].
  destruct pr as [p|]; simpl; [|by split; [|intros (_ & _ & ? & ? & ? & _)]].
  destruct ((cp_number p =? m)%N && negb (m =? issue)%N) eqn:E; simpl.
  - apply andb_true_iff in E as [E1%N.eqb_eq E2%negb_true_iff%N.eqb_neq].
    destruct (_ && _ && bool_decide _) eqn:Hb.
    + apply andb_true_iff in Hb as [[[Hm Ha]%andb_true_iff Hi%negb_true_iff]%andb_true_iff Hc%Hl].
      apply is_some_and_true in Ha as (t & Ht & Hle%N.leb_le). split; [intros [= <-]|intros ([= ->] & _); done].
      split_and!; [done|done|]. by exists p, t.
    + split; [done|]. intros ([= ->] & _ & q & t & [= <-] & _ & Hm & Ht & Hle & Hi & Hc%Hl).
      rewrite Hm, Ht, Hi, Hc in Hb. simpl in Hb. apply N.leb_le in Hle. by rewrite Hle in Hb.
  - split; [done|]. intros ([= ->] & Hne & q & t & [= <-] & Hq & _).
    apply N.eqb_eq in Hq. apply N.eqb_neq in Hne. by rewrite Hq, Hne in E.
Qed.
