(* ===== verification/Tlv.v ===== *)
(** The TLV plaintext of an encrypted document field ([private/tlv.rs]): the strict parser, the
    encoder, the recipients of a letter and the padding. The parser is related to the
    grammar of a document (a list of records), the encoder to the parser by round trips. *)
From S2P Require Import Prelude.
From S2P Require Import Wire.

(** ** Definitions *)

Definition TITLE : N := 1.
Definition BODY : N := 2.
Definition REF_NAME : N := 3.
Definition BASE_REF_NAME : N := 4.
Definition SOURCE_REF_NAME : N := 5.
Definition DEFAULT_BRANCH : N := 6.
Definition PROTECTED_PATTERN : N := 7.
Definition PREV_EPOCH : N := 8.
Definition PREV_EPOCH_KEY : N := 9.
Definition PATH : N := 10.
Definition BURNED : N := 11.
Definition SKIP_EPOCH_KEY : N := 12.
Definition IMPORTED_AUTHOR : N := 13.
Definition IMPORTED_URL : N := 14.
Definition EVENT_VALUE : N := 15.
Definition NEW_OID : N := 22.
Definition PREV_OID : N := 23.
Definition HEAD_OID : N := 24.
Definition RECIPIENT : N := 25.
Definition OID_SALT : N := 27.
Definition GROUP : N := 29.
Definition FIRST_EXTENSION : N := 64.
Definition PAD : N := FIRST_EXTENSION.
Definition SEAL_OFF : N := 65.
Definition PAD_BUCKET : nat := 64.
Definition MAX_PATTERNS : nat := 8.

Inductive DocKind :=
| DIssue | DPatch | DComment | DReview | DRefUpdate | DProtectedRefUpdate | DConfig | DEvent | DAuthorEvent | DRelease.

#[export] Instance DocKind_eq_dec : EqDecision DocKind.
Proof. solve_decision. Defined.

(** An epoch key and a salt are their 32 bytes. *)
Record Fields := mkFields {
  f_title : option string;
  f_body : option string;
  f_ref_name : option string;
  f_base_ref_name : option string;
  f_source_ref_name : option string;
  f_default_branch : option string;
  f_protected_patterns : list string;
  f_prev_epoch : option N;
  f_prev_epoch_key : option (list byte);
  f_path : option string;
  f_burned : bool;
  f_skip_epoch_key : option (list byte);
  f_imported_author : option string;
  f_imported_url : option string;
  f_event_value : option string;
  f_new_oid : option (list byte);
  f_prev_oid : option (list byte);
  f_head_oid : option (list byte);
  f_oid_salt : option (list byte);
  f_seal_off : option (list byte)
}.

Definition Fields_default : Fields :=
  mkFields None None None None None None [] None None None false None None None None None None None None None.

(** The assignments of the parser, one per field. *)
Definition set_title v '(mkFields _ b c d e g h i j k l m n o p q r s t u) := mkFields v b c d e g h i j k l m n o p q r s t u.
Definition set_body v '(mkFields a _ c d e g h i j k l m n o p q r s t u) := mkFields a v c d e g h i j k l m n o p q r s t u.
Definition set_ref_name v '(mkFields a b _ d e g h i j k l m n o p q r s t u) := mkFields a b v d e g h i j k l m n o p q r s t u.
Definition set_base_ref_name v '(mkFields a b c _ e g h i j k l m n o p q r s t u) := mkFields a b c v e g h i j k l m n o p q r s t u.
Definition set_source_ref_name v '(mkFields a b c d _ g h i j k l m n o p q r s t u) := mkFields a b c d v g h i j k l m n o p q r s t u.
Definition set_default_branch v '(mkFields a b c d e _ h i j k l m n o p q r s t u) := mkFields a b c d e v h i j k l m n o p q r s t u.
Definition push_pattern v '(mkFields a b c d e g h i j k l m n o p q r s t u) := mkFields a b c d e g (h ++ [v]) i j k l m n o p q r s t u.
Definition set_prev_epoch v '(mkFields a b c d e g h _ j k l m n o p q r s t u) := mkFields a b c d e g h v j k l m n o p q r s t u.
Definition set_prev_epoch_key v '(mkFields a b c d e g h i _ k l m n o p q r s t u) := mkFields a b c d e g h i v k l m n o p q r s t u.
Definition set_path v '(mkFields a b c d e g h i j _ l m n o p q r s t u) := mkFields a b c d e g h i j v l m n o p q r s t u.
Definition set_burned v '(mkFields a b c d e g h i j k _ m n o p q r s t u) := mkFields a b c d e g h i j k v m n o p q r s t u.
Definition set_skip_epoch_key v '(mkFields a b c d e g h i j k l _ n o p q r s t u) := mkFields a b c d e g h i j k l v n o p q r s t u.
Definition set_imported_author v '(mkFields a b c d e g h i j k l m _ o p q r s t u) := mkFields a b c d e g h i j k l m v o p q r s t u.
Definition set_imported_url v '(mkFields a b c d e g h i j k l m n _ p q r s t u) := mkFields a b c d e g h i j k l m n v p q r s t u.
Definition set_event_value v '(mkFields a b c d e g h i j k l m n o _ q r s t u) := mkFields a b c d e g h i j k l m n o v q r s t u.
Definition set_new_oid v '(mkFields a b c d e g h i j k l m n o p _ r s t u) := mkFields a b c d e g h i j k l m n o p v r s t u.
Definition set_prev_oid v '(mkFields a b c d e g h i j k l m n o p q _ s t u) := mkFields a b c d e g h i j k l m n o p q v s t u.
Definition set_head_oid v '(mkFields a b c d e g h i j k l m n o p q r _ t u) := mkFields a b c d e g h i j k l m n o p q r v t u.
Definition set_oid_salt v '(mkFields a b c d e g h i j k l m n o p q r s _ u) := mkFields a b c d e g h i j k l m n o p q r s v u.
Definition set_seal_off v '(mkFields a b c d e g h i j k l m n o p q r s t _) := mkFields a b c d e g h i j k l m n o p q r s t v.

(** *** The table of a kind *)

Inductive Cap := CapText (min chars bytes : N) | CapFixed (n : N) | CapOid.

(** [None] is the [unreachable!] of a tag no kind lists. *)
Definition cap (tag : N) : option Cap :=
  if (tag =? TITLE)%N then Some (CapText 1 256 1024)
  else if (tag =? BODY)%N then Some (CapText 0 5120 5120)
  else if one_of [REF_NAME; BASE_REF_NAME; SOURCE_REF_NAME; DEFAULT_BRANCH] tag then Some (CapText 1 255 255)
  else if (tag =? PROTECTED_PATTERN)%N then Some (CapText 1 100 400)
  else if (tag =? PREV_EPOCH)%N then Some (CapFixed 4)
  else if one_of [PREV_EPOCH_KEY; SKIP_EPOCH_KEY; OID_SALT] tag then Some (CapFixed 32)
  else if one_of [NEW_OID; PREV_OID; HEAD_OID] tag then Some CapOid
  else if (tag =? BURNED)%N then Some (CapFixed 1)
  else if (tag =? PATH)%N then Some (CapText 0 500 1000)
  else if one_of [IMPORTED_AUTHOR; EVENT_VALUE] tag then Some (CapText 1 120 480)
  else if (tag =? IMPORTED_URL)%N then Some (CapText 1 300 300)
  else None.

Definition allowed (kind : DocKind) (tag : N) (anchor_with_prev blinds : bool) : bool :=
  let imported := one_of [IMPORTED_AUTHOR; IMPORTED_URL] tag in
  let head := blinds && one_of [HEAD_OID; OID_SALT] tag in
  match kind with
  | DIssue => one_of [TITLE; BODY] tag || imported
  | DPatch => one_of [TITLE; BODY; BASE_REF_NAME; SOURCE_REF_NAME] tag || imported || head
  | DComment => one_of [BODY; PATH] tag || imported
  | DReview => (tag =? BODY)%N || imported
  | DRefUpdate | DProtectedRefUpdate => (tag =? REF_NAME)%N || (blinds && one_of [NEW_OID; PREV_OID; OID_SALT] tag)
  | DEvent => (tag =? EVENT_VALUE)%N || head
  | DAuthorEvent => (tag =? EVENT_VALUE)%N
  | DRelease => false
  | DConfig =>
    one_of [DEFAULT_BRANCH; PROTECTED_PATTERN] tag
    || (anchor_with_prev && one_of [PREV_EPOCH; PREV_EPOCH_KEY; BURNED; SKIP_EPOCH_KEY] tag)
  end.

Definition is_oid_width (len : N) : bool := (len =? 20)%N || (len =? 32)%N.

Inductive LetterGroup := Maintainers | Writers.
Definition group_code (g : LetterGroup) : N := match g with Maintainers => 1 | Writers => 2 end.
Definition group_from_code (b : N) : option LetterGroup :=
  if (b =? 1)%N then Some Maintainers else if (b =? 2)%N then Some Writers else None.

Definition letter_kind (kind : DocKind) : bool :=
  match kind with DIssue | DPatch | DComment | DReview | DEvent => true | _ => false end.

(** *** The parser *)

Record LetterParts := mkLetterParts { lp_recipients : list (list byte); lp_group : option LetterGroup }.

Record PState := mkPState {
  ps_fields : Fields;
  ps_last : option N;
  ps_patterns : nat;
  ps_letter : option LetterParts
}.

(** The value of a fixed-width field. *)
Definition set_fixed (tag : N) (value : list byte) (f : Fields) : option Fields :=
  if (tag =? PREV_EPOCH)%N then Some (set_prev_epoch (Some (from_be value)) f)
  else if (tag =? PREV_EPOCH_KEY)%N then Some (set_prev_epoch_key (Some value) f)
  else if (tag =? OID_SALT)%N then Some (set_oid_salt (Some value) f)
  else if (tag =? SKIP_EPOCH_KEY)%N then Some (set_skip_epoch_key (Some value) f)
  else if (tag =? BURNED)%N && (value == [byte_of 1]) then Some (set_burned true f)
  else None.

(** The two [unreachable!] branches are [None]. *)
Definition set_oid (tag : N) (value : list byte) (f : Fields) : option Fields :=
  if (tag =? NEW_OID)%N then Some (set_new_oid (Some value) f)
  else if (tag =? PREV_OID)%N then Some (set_prev_oid (Some value) f)
  else if (tag =? HEAD_OID)%N then Some (set_head_oid (Some value) f)
  else None.

Definition set_text (tag : N) (s : string) (f : Fields) : option Fields :=
  if (tag =? TITLE)%N then Some (set_title (Some s) f)
  else if (tag =? BODY)%N then Some (set_body (Some s) f)
  else if (tag =? REF_NAME)%N then Some (set_ref_name (Some s) f)
  else if (tag =? BASE_REF_NAME)%N then Some (set_base_ref_name (Some s) f)
  else if (tag =? SOURCE_REF_NAME)%N then Some (set_source_ref_name (Some s) f)
  else if (tag =? DEFAULT_BRANCH)%N then Some (set_default_branch (Some s) f)
  else if (tag =? PROTECTED_PATTERN)%N then Some (push_pattern s f)
  else if (tag =? PATH)%N then Some (set_path (Some s) f)
  else if (tag =? IMPORTED_AUTHOR)%N then Some (set_imported_author (Some s) f)
  else if (tag =? IMPORTED_URL)%N then Some (set_imported_url (Some s) f)
  else if (tag =? EVENT_VALUE)%N then Some (set_event_value (Some s) f)
  else None.

Definition set_field (tag : N) (value : list byte) (f : Fields) : option Fields :=
  match cap tag with
  | None => None
  | Some (CapFixed n) => if (len value =? n)%N then set_fixed tag value f else None
  | Some CapOid => if is_oid_width (len value) then set_oid tag value f else None
  | Some (CapText min chars bytes_) =>
    if negb (utf8_valid value) then None
    else if (bytes_ <? len value)%N || (chars <? char_count value)%N then None
    else if (len value <? min)%N then Some f
    else set_text tag (of_bytes value) f
  end.

(** [tag] may follow [last]: ascending, except the repeatable tags. *)
Definition in_order (last : option N) (tag : N) : bool :=
  is_none_or last (fun prev =>
    negb ((tag <? prev)%N || ((tag =? prev)%N && negb (tag =? PROTECTED_PATTERN)%N && negb (tag =? RECIPIENT)%N))).

(** A letter's own records. *)
Definition letter_record (kind : DocKind) (tag : N) (value : list byte) (parts : LetterParts) : option LetterParts :=
  if negb (letter_kind kind) then None
  else if (tag =? RECIPIENT)%N then
    if (len value =? 32)%N then Some (mkLetterParts (lp_recipients parts ++ [value]) (lp_group parts)) else None
  else
    match value with
    | [b] => g ← group_from_code (byte_val b); Some (mkLetterParts (lp_recipients parts) (Some g))
    | _ => None
    end.

Definition record_step (kind : DocKind) (anchor_with_prev blinds : bool) (st : PState) (r : N * list byte) : option PState :=
  let '(tag, value) := r in
  if negb (in_order (ps_last st) tag) then None
  else if (FIRST_EXTENSION <=? tag)%N then
    Some (mkPState (if (tag =? SEAL_OFF)%N && (kind == DConfig) then set_seal_off (Some value) (ps_fields st) else ps_fields st)
            (Some tag) (ps_patterns st) (ps_letter st))
  else if (tag =? RECIPIENT)%N || (tag =? GROUP)%N then
    parts ← ps_letter st;
    parts' ← letter_record kind tag value parts;
    Some (mkPState (ps_fields st) (Some tag) (ps_patterns st) (Some parts'))
  else if negb (allowed kind tag anchor_with_prev blinds) then None
  else
    let patterns := if (tag =? PROTECTED_PATTERN)%N then S (ps_patterns st) else ps_patterns st in
    if (tag =? PROTECTED_PATTERN)%N && (MAX_PATTERNS <? patterns)%nat then None
    else
      f ← set_field tag value (ps_fields st);
      Some (mkPState f (Some tag) patterns (ps_letter st)).

(** The framing: tag, big-endian length, value; [None] for a truncated record. *)
Definition split_record (rest : list byte) : option ((N * list byte) * list byte) :=
  match rest with
  | tag :: hi :: lo :: tail =>
    let n := N.to_nat (from_be [hi; lo]) in
    if (length tail <? n)%nat then None else Some ((byte_val tag, take n tail), drop n tail)
  | _ => None
  end.

Fixpoint parse_loop (fuel : nat) (kind : DocKind) (anchor_with_prev blinds : bool) (st : PState) (rest : list byte)
    : option PState :=
  match rest, fuel with
  | [], _ => Some st
  | _, O => None
  | _, S fuel =>
    '(r, rest') ← split_record rest;
    st' ← record_step kind anchor_with_prev blinds st r;
    parse_loop fuel kind anchor_with_prev blinds st' rest'
  end.

Definition required (kind : DocKind) (anchor_with_prev : bool) (f : Fields) : bool :=
  match kind with
  | DIssue | DPatch => is_some_and (f_title f) (fun _ => true)
  | DComment => is_some_and (f_body f) (fun b => b != "")
  | DRefUpdate | DProtectedRefUpdate => is_some_and (f_ref_name f) (fun _ => true)
  | DConfig =>
    negb anchor_with_prev
    || (is_some_and (f_prev_epoch f) (fun _ => true)
        && if f_burned f then is_none_or (f_prev_epoch_key f) (fun _ => false) && is_none_or (f_skip_epoch_key f) (fun _ => false)
           else is_some_and (f_prev_epoch_key f) (fun _ => true))
  | DReview => true
  | DEvent => is_some_and (f_event_value f) (fun _ => true) || is_some_and (f_head_oid f) (fun _ => true)
  | DAuthorEvent => is_some_and (f_event_value f) (fun _ => true)
  | DRelease => false
  end.

Definition blinded (f : Fields) : bool :=
  is_some_and (f_new_oid f) (fun _ => true) || is_some_and (f_prev_oid f) (fun _ => true)
  || is_some_and (f_head_oid f) (fun _ => true).

Definition complete (kind : DocKind) (anchor_with_prev : bool) (f : Fields) : bool :=
  required kind anchor_with_prev f && bool_decide (blinded f = is_some_and (f_oid_salt f) (fun _ => true)).

Definition parse_inner (pt : list byte) (kind : DocKind) (anchor_with_prev : bool) (letter : option LetterParts)
    (blinds : bool) : option (Fields * option LetterParts) :=
  st ← parse_loop (length pt) kind anchor_with_prev blinds (mkPState Fields_default None 0 letter) pt;
  if complete kind anchor_with_prev (ps_fields st) then Some (ps_fields st, ps_letter st) else None.

Definition parse (pt : list byte) (kind : DocKind) (anchor_with_prev : bool) : option Fields :=
  fst <$> parse_inner pt kind anchor_with_prev None false.

Definition parse_members (pt : list byte) (kind : DocKind) : option Fields :=
  fst <$> parse_inner pt kind false None true.

Record LetterTlv := mkLetterTlv { lt_fields : Fields; lt_recipients : list (list byte); lt_group : option LetterGroup }.

Definition parse_letter (pt : list byte) (kind : DocKind) : option LetterTlv :=
  '(f, l) ← parse_inner pt kind false (Some (mkLetterParts [] None)) false;
  parts ← l;
  Some (mkLetterTlv f (lp_recipients parts) (lp_group parts)).

(** *** The encoder *)

Definition push_record (tag : N) (v : list byte) : list byte :=
  byte_of tag :: be16 (N.min (len v) u16_max) ++ v.

Definition opt_record (tag : N) (v : option (list byte)) : list byte :=
  match v with Some v => push_record tag v | None => [] end.

Definition encode (f : Fields) : list byte :=
  opt_record TITLE (bytes <$> f_title f) ++ opt_record BODY (bytes <$> f_body f)
  ++ opt_record REF_NAME (bytes <$> f_ref_name f) ++ opt_record BASE_REF_NAME (bytes <$> f_base_ref_name f)
  ++ opt_record SOURCE_REF_NAME (bytes <$> f_source_ref_name f) ++ opt_record DEFAULT_BRANCH (bytes <$> f_default_branch f)
  ++ concat (map (fun p => push_record PROTECTED_PATTERN (bytes p)) (f_protected_patterns f))
  ++ opt_record PREV_EPOCH (be32 <$> f_prev_epoch f) ++ opt_record PREV_EPOCH_KEY (f_prev_epoch_key f)
  ++ opt_record PATH (bytes <$> f_path f)
  ++ (if f_burned f then push_record BURNED [byte_of 1] else [])
  ++ opt_record SKIP_EPOCH_KEY (f_skip_epoch_key f)
  ++ opt_record IMPORTED_AUTHOR (bytes <$> f_imported_author f) ++ opt_record IMPORTED_URL (bytes <$> f_imported_url f)
  ++ opt_record EVENT_VALUE (bytes <$> f_event_value f)
  ++ opt_record NEW_OID (f_new_oid f) ++ opt_record PREV_OID (f_prev_oid f) ++ opt_record HEAD_OID (f_head_oid f)
  ++ opt_record OID_SALT (f_oid_salt f) ++ opt_record SEAL_OFF (f_seal_off f).

Definition push_recipients (recipients : list (list byte)) (group : option LetterGroup) : list byte :=
  concat (map (push_record RECIPIENT) recipients)
  ++ match group with Some g => push_record GROUP [byte_of (group_code g)] | None => [] end.

Definition pad_record_in (n max bucket : nat) : list byte :=
  if (max <? n + 3)%nat then []
  else push_record PAD (repeat (byte_of 0) (((bucket - (n + 3) mod bucket) mod bucket) `min` (max - 3 - n))).

Definition pad_record (n max : nat) : list byte := pad_record_in n max PAD_BUCKET.

(** ** The grammar of a document *)

(** The bytes of a list of records, and the records the framing can carry. *)
Definition frame (r : N * list byte) : list byte := push_record r.1 r.2.
Definition document (rs : list (N * list byte)) : list byte := concat (map frame rs).
Definition fits (r : N * list byte) : Prop := (r.1 < 256)%N /\ (len r.2 <= u16_max)%N.

(** The records of a document's fields, tag by tag. *)
Definition opt_list {A} (o : option A) : list A := match o with Some x => [x] | None => [] end.

Definition field_table (f : Fields) : list (N * list (list byte)) :=
  [(TITLE, opt_list (bytes <$> f_title f)); (BODY, opt_list (bytes <$> f_body f));
   (REF_NAME, opt_list (bytes <$> f_ref_name f)); (BASE_REF_NAME, opt_list (bytes <$> f_base_ref_name f));
   (SOURCE_REF_NAME, opt_list (bytes <$> f_source_ref_name f)); (DEFAULT_BRANCH, opt_list (bytes <$> f_default_branch f));
   (PROTECTED_PATTERN, map bytes (f_protected_patterns f)); (PREV_EPOCH, opt_list (be32 <$> f_prev_epoch f));
   (PREV_EPOCH_KEY, opt_list (f_prev_epoch_key f)); (PATH, opt_list (bytes <$> f_path f));
   (BURNED, if f_burned f then [[byte_of 1]] else []); (SKIP_EPOCH_KEY, opt_list (f_skip_epoch_key f));
   (IMPORTED_AUTHOR, opt_list (bytes <$> f_imported_author f)); (IMPORTED_URL, opt_list (bytes <$> f_imported_url f));
   (EVENT_VALUE, opt_list (bytes <$> f_event_value f)); (NEW_OID, opt_list (f_new_oid f));
   (PREV_OID, opt_list (f_prev_oid f)); (HEAD_OID, opt_list (f_head_oid f)); (OID_SALT, opt_list (f_oid_salt f));
   (SEAL_OFF, opt_list (f_seal_off f))].

Definition of_entry (e : N * list (list byte)) : list (N * list byte) := map (pair e.1) e.2.
Definition records_of (f : Fields) : list (N * list byte) := concat (map of_entry (field_table f)).

(** The values a table, and a document's fields, hold for a tag. *)
Fixpoint assoc (t : N) (l : list (N * list (list byte))) : list (list byte) :=
  match l with [] => [] | (u, vs) :: l => if (t =? u)%N then vs else assoc t l end.
Definition field_vals (f : Fields) (t : N) : list (list byte) := assoc t (field_table f).

(** Which records a document of [kind] may have, whatever the others are. *)
Definition value_ok (tag : N) (v : list byte) : bool :=
  match cap tag with
  | None => false
  | Some (CapFixed n) => (len v =? n)%N && (negb (tag =? BURNED)%N || (v == [byte_of 1]))
  | Some CapOid => is_oid_width (len v)
  | Some (CapText _ chars bytes_) => utf8_valid v && (len v <=? bytes_)%N && (char_count v <=? chars)%N
  end.

Definition letter_value_ok (tag : N) (v : list byte) : bool :=
  if (tag =? RECIPIENT)%N then (len v =? 32)%N
  else match v with [b] => is_some_and (group_from_code (byte_val b)) (fun _ => true) | _ => false end.

Definition record_ok (kind : DocKind) (anchor_with_prev blinds letter : bool) (r : N * list byte) : bool :=
  let '(tag, v) := r in
  if (FIRST_EXTENSION <=? tag)%N then true
  else if (tag =? RECIPIENT)%N || (tag =? GROUP)%N then letter && letter_kind kind && letter_value_ok tag v
  else allowed kind tag anchor_with_prev blinds && value_ok tag v.

(** Tags ascend, and only the repeatable ones repeat. *)
Fixpoint ascending (last : option N) (rs : list (N * list byte)) : bool :=
  match rs with [] => true | (t, _) :: rs => in_order last t && ascending (Some t) rs end.

Definition count_tag (t : N) (rs : list (N * list byte)) : nat := length (List.filter (fun r => (r.1 =? t)%N) rs).

Definition accepted (kind : DocKind) (anchor_with_prev blinds letter : bool) (rs : list (N * list byte)) : bool :=
  ascending None rs && forallb (record_ok kind anchor_with_prev blinds letter) rs
  && (count_tag PROTECTED_PATTERN rs <=? MAX_PATTERNS)%nat.

(** The records that reach a field: not an extension, not a letter's own record, and not an
    empty one for a field that may not be empty. *)
Definition keeps (kind : DocKind) (r : N * list byte) : bool :=
  let '(tag, v) := r in
  if (FIRST_EXTENSION <=? tag)%N then (tag =? SEAL_OFF)%N && (kind == DConfig)
  else match cap tag with
       | Some (CapText min _ _) => (min <=? len v)%N
       | Some _ => true
       | None => false
       end.

Definition kept (kind : DocKind) (rs : list (N * list byte)) (t : N) : list (list byte) :=
  map snd (List.filter (fun r => (r.1 =? t)%N && keeps kind r) rs).

Definition values (rs : list (N * list byte)) (t : N) : list (list byte) :=
  map snd (List.filter (fun r => (r.1 =? t)%N) rs).

(** ** Bytes and the framing *)

Lemma length_frame r : length (frame r) = 3 + length r.2.
Proof. done. Qed.

Lemma split_frame r rest : fits r -> split_record (frame r ++ rest) = Some (r, rest).
Proof.
  intros [Ht Hl]. destruct r as [t v]; simpl in *. unfold frame, push_record, split_record. simpl.
  rewrite (N.min_l _ _ Hl). change [_; _] with (be16 (len v)). rewrite from_be16 by done.
  rewrite byte_val_of by done. unfold len. rewrite Nnat.Nat2N.id, length_app.
  destruct (Nat.ltb_spec (length v + length rest) (length v)); [lia|]. by rewrite take_app_length, drop_app_length.
Qed.

Lemma split_inv rest r rest' : split_record rest = Some (r, rest') -> rest = frame r ++ rest' /\ fits r.
Proof.
  destruct rest as [|t [|hi [|lo tail]]]; [done..|]. unfold split_record.
  set (n := N.to_nat (from_be [hi; lo])). destruct (Nat.ltb_spec (length tail) n) as [|Hn]; [done|].
  intros [= <- <-]. assert (len (take n tail) = from_be [hi; lo]) as Hlen.
  { unfold len. rewrite length_take_le by done. apply Nnat.N2Nat.id. }
  assert (from_be [hi; lo] <= u16_max)%N as Hmax.
  { unfold from_be, u16_max. simpl foldl. pose proof (byte_val_lt hi). pose proof (byte_val_lt lo). lia. }
  split; [|split; [apply byte_val_lt|by simpl; rewrite Hlen]].
  unfold frame, push_record. simpl fst. simpl snd. rewrite Hlen, N.min_l, be16_from, byte_of_val by done. simpl.
  by rewrite take_drop.
Qed.

Section steps.
Context (kind : DocKind) (awp blinds : bool).

(** The fold of the parser's step over a list of records. *)
Fixpoint steps (st : PState) (rs : list (N * list byte)) : option PState :=
  match rs with [] => Some st | r :: rs => st' ← record_step kind awp blinds st r; steps st' rs end.

Lemma steps_snoc st rs r : steps st (rs ++ [r]) = st' ← steps st rs; record_step kind awp blinds st' r.
Proof.
  revert st. induction rs as [|r' rs IH]; intros st; simpl; [by destruct (record_step _ _ _ st r)|].
  destruct (record_step _ _ _ st r'); simpl; [apply IH|done].
Qed.

(** The loop accepts exactly the framings of the lists of records its step accepts; the fuel
of the call, the length of the input, is enough. *)
Lemma parse_loop_iff fuel st pt st' :
  length pt <= fuel ->
  parse_loop fuel kind awp blinds st pt = Some st' <->
  exists rs, pt = document rs /\ Forall fits rs /\ steps st rs = Some st'.
Proof.
  revert st pt. induction fuel as [|fuel IH]; intros st [|b pt] Hlen; simpl in Hlen; [|lia| |].
  1,2: split; [intros [= <-]; by exists []|]; intros ([|r rs] & Heq & _ & Hst); [done|by destruct r].
  set (rest := b :: pt) in *. change (parse_loop (S fuel) kind awp blinds st rest)
    with ('(r, rest') ← split_record rest; st' ← record_step kind awp blinds st r; parse_loop fuel kind awp blinds st' rest').
  split.
  - destruct (split_record rest) as [[r rest']|] eqn:Hs; [|done]. apply split_inv in Hs as [Heq Hfit]. simpl.
    destruct (record_step kind awp blinds st r) as [st1|] eqn:Hr; [|done]. simpl. intros H.
    assert (length rest' <= fuel) as Hle.
    { apply (f_equal length) in Heq. rewrite length_app, length_frame in Heq. simpl in Heq. lia. }
    apply IH in H as (rs & -> & Hrs & Hst); [|done]. exists (r :: rs).
    split_and!; [done|by constructor|simpl; by rewrite Hr].
  - intros ([|r rs] & Heq & Hfit & Hst); [done|]. apply Forall_cons in Hfit as [Hr Hrs].
    change (document (r :: rs)) with (frame r ++ document rs) in Heq.
    assert (length (document rs) <= fuel) as Hle.
    { apply (f_equal length) in Heq. rewrite length_app, length_frame in Heq. simpl in Heq. lia. }
    rewrite Heq, split_frame by done. simpl in Hst |- *.
    destruct (record_step kind awp blinds st r) as [st1|]; [|done]. apply IH; [done|by exists rs].
Qed.
End steps.

(** ** The steps of the parser *)

Lemma cap_tags tag : cap tag <> None -> tag ∈ map fst (field_table Fields_default) /\ (tag < 64)%N.
Proof.
  unfold cap. intros H.
  repeat match type of H with context [if ?b then _ else _] =>
    let E := fresh in destruct b eqn:E; [clear H|] end.
  all: repeat match goal with E : one_of _ _ = true |- _ => apply one_of_true in E end.
  all: repeat match goal with E : _ ∈ _ |- _ => apply elem_of_cons in E as [E|E] | E : _ ∈ [] |- _ => by apply elem_of_nil in E end.
  all: try match goal with E : (_ =? _)%N = true |- _ => apply N.eqb_eq in E end.
  all: subst; try done; (split; [by apply list_elem_of_In; simpl; tauto|done]).
Qed.

Ltac by_tag H :=
  unfold field_table in H; cbn [map fst] in H;
  repeat (apply elem_of_cons in H as [->|H]); [..|by apply elem_of_nil in H].

(** Evaluate the tables at a literal tag. *)
Ltac eval_tests :=
  repeat match goal with
  | |- context [cap ?t] => let c := eval vm_compute in (cap t) in change (cap t) with c
  | |- context [(?a =? ?b)%N] =>
    lazymatch a with len _ => fail | _ => idtac end;
    let c := eval vm_compute in (a =? b)%N in
    lazymatch c with true => change (a =? b)%N with true | false => change (a =? b)%N with false end
  | |- context [(FIRST_EXTENSION <=? ?b)%N] =>
    let c := eval vm_compute in (FIRST_EXTENSION <=? b)%N in
    lazymatch c with true => change (FIRST_EXTENSION <=? b)%N with true | false => change (FIRST_EXTENSION <=? b)%N with false end
  end; cbn [andb orb negb].

Lemma set_field_ok tag v f : cap tag <> None -> set_field tag v f <> None <-> value_ok tag v = true.
Proof.
  intros [Ht _]%cap_tags. unfold set_field, value_ok, set_text, set_fixed, set_oid.
  by_tag Ht; eval_tests; try (by split);
    try (destruct (utf8_valid v); simpl; [|by split]; rewrite !N.ltb_antisym;
      destruct (len v <=? _)%N; simpl; [|by split]; destruct (char_count v <=? _)%N; simpl; [|by split];
      by case_match);
    try (destruct (len v =? _)%N; simpl; by split); try (by destruct (is_oid_width (len v)));
    by destruct (len v =? 1)%N; [case_bool_decide|].
Qed.

(** [f'] is [f] with the values of one tag replaced. *)
Definition updated (f f' : Fields) (tag : N) (vs : list (list byte)) : Prop :=
  forall t, field_vals f' t = if (t =? tag)%N then vs else field_vals f t.

Ltac solve_updated :=
  match goal with |- updated ?f _ ?tag _ =>
    let t := fresh "t" in destruct f; intros t; destruct (N.eqb_spec t tag) as [->|Hne];
    [reflexivity|apply N.eqb_neq in Hne; unfold field_vals, field_table; cbn [assoc]; rewrite !Hne; reflexivity]
  end.

(** Writing [v] to a field that was empty, or keeping it out, appends what [keeps] says. *)
Lemma updated_app f f' tag v k t :
  updated f f' tag (field_vals f tag ++ [v]) -> k = true ->
  field_vals f' t = field_vals f t ++ (if (t =? tag)%N && k then [v] else []).
Proof. intros Hu ->. rewrite Hu. destruct (N.eqb_spec t tag) as [->|]; simpl; [done|by rewrite app_nil_r]. Qed.

Lemma set_field_spec kind tag v f f' :
  cap tag <> None -> set_field tag v f = Some f' -> (tag <> PROTECTED_PATTERN -> field_vals f tag = []) ->
  forall t, field_vals f' t = field_vals f t ++ (if (t =? tag)%N && keeps kind (tag, v) then [v] else []).
Proof.
  intros [Ht _]%cap_tags. unfold set_field, set_text, set_fixed, set_oid, keeps.
  by_tag Ht; eval_tests; intros Hf Hv t;
    (destruct (negb (utf8_valid v)); [done|]; destruct (_ || _); [done|]; rewrite N.ltb_antisym in Hf;
      destruct (_ <=? len v)%N; simpl in Hf; injection Hf as <-; [|by rewrite andb_false_r, app_nil_r])
    || (destruct (len v =? _)%N eqn:Hl; [|done]; injection Hf as <-)
    || (destruct (is_oid_width (len v)); [|done]; injection Hf as <-) || idtac.
  all: try done.
  all: try match goal with |- context [of_bytes ?w] =>
      rewrite <-(bytes_of_bytes w) at 2; generalize (of_bytes w); intros s end.
  all: try (apply updated_app; [|done]; rewrite Hv by done; simpl; solve_updated).
  - apply updated_app; [|done]. destruct f; intros u. destruct (N.eqb_spec u PROTECTED_PATTERN) as [->|Hne].
    + unfold field_vals. simpl. by rewrite map_app.
    + apply N.eqb_neq in Hne. unfold field_vals, field_table. cbn [assoc]. rewrite !Hne. reflexivity.
  - apply N.eqb_eq, be32_from in Hl. rewrite <-Hl at 2. apply updated_app; [|done]. rewrite Hv by done. simpl. solve_updated.
  - destruct (len v =? 1)%N; [|done]. case_bool_decide; [|done]. injection Hf as <-. subst v. apply updated_app; [|done]. rewrite Hv by done. simpl. solve_updated.
Qed.

(** ** Ascending records *)

Lemma in_order_le prev tag : in_order (Some prev) tag = true -> (prev <= tag)%N.
Proof. unfold in_order. simpl. intros [H _]%negb_true_iff%orb_false_iff. by apply N.ltb_ge. Qed.

Lemma in_order_lt prev tag :
  in_order (Some prev) tag = true -> tag <> PROTECTED_PATTERN -> tag <> RECIPIENT -> (prev < tag)%N.
Proof.
  intros H H7 H25. pose proof (in_order_le _ _ H). unfold in_order in H. simpl in H.
  apply negb_true_iff, orb_false_iff in H as [_ H]. apply N.eqb_neq in H7, H25. rewrite H7, H25 in H. simpl in H.
  destruct (N.eqb_spec tag prev); [done|lia].
Qed.

Lemma ascending_snoc l rs r :
  ascending l (rs ++ [r]) = ascending l rs && in_order (match last (map fst rs) with Some t => Some t | None => l end) r.1.
Proof.
  revert l. induction rs as [|[t v] rs IH]; intros l; [by destruct r; simpl; rewrite andb_true_r|].
  cbn [ascending app map fst]. rewrite IH, last_cons, <-andb_assoc. by destruct (last (map fst rs)).
Qed.

Lemma ascending_weaken l rs : ascending l rs = true -> ascending None rs = true.
Proof. destruct rs as [|[t v] rs]; [done|]. simpl. by intros [_ ->]%andb_true_iff. Qed.

Abbreviation tag_le := (fun r s : N * list byte => (r.1 <= s.1)%N).

Lemma ascending_sorted l rs :
  ascending l rs = true -> StronglySorted tag_le rs /\ forall p, l = Some p -> Forall (fun r => (p <= r.1)%N) rs.
Proof.
  revert l. induction rs as [|[t v] rs IH]; intros l; simpl; [by repeat constructor|].
  intros [Ho Hr]%andb_true_iff. destruct (IH _ Hr) as [Hs Hp]. specialize (Hp t eq_refl).
  split; [by constructor|]. intros p ->. apply in_order_le in Ho. constructor; [done|].
  eapply Forall_impl; [exact Hp|]. simpl. lia.
Qed.

Lemma ascending_last_le rs t r : ascending None rs = true -> last (map fst rs) = Some t -> r ∈ rs -> (r.1 <= t)%N.
Proof.
  intros Hrs Ht Hr. destruct rs as [|r0 rs0] using rev_ind; [done|]. clear IHrs0.
  rewrite map_app, last_app in Ht. simpl in Ht. injection Ht as <-.
  apply elem_of_app in Hr as [Hr|Hr%list_elem_of_singleton]; [|by subst].
  apply ascending_sorted in Hrs as [Hs _]. apply StronglySorted_app in Hs as (Hlt & _ & _).
  by apply Hlt; [|left].
Qed.

Lemma filter_tag_snoc (p : N * list byte -> bool) rs r :
  List.filter p (rs ++ [r]) = List.filter p rs ++ if p r then [r] else [].
Proof. by rewrite List.filter_app. Qed.

Lemma values_snoc rs r t : values (rs ++ [r]) t = values rs t ++ if (r.1 =? t)%N then [r.2] else [].
Proof. unfold values. rewrite filter_tag_snoc, map_app. by destruct (r.1 =? t)%N. Qed.

Lemma kept_snoc kind rs r t :
  kept kind (rs ++ [r]) t = kept kind rs t ++ if (t =? r.1)%N && keeps kind r then [r.2] else [].
Proof.
  unfold kept. rewrite filter_tag_snoc, map_app, (N.eqb_sym t r.1). by destruct ((r.1 =? t)%N && keeps kind r).
Qed.

(** Nothing was read yet for a tag above every earlier one. *)
Lemma values_above rs tag :
  ascending None rs = true -> in_order (last (map fst rs)) tag = true -> tag <> PROTECTED_PATTERN -> tag <> RECIPIENT ->
  values rs tag = [].
Proof.
  intros Hrs Ho H7 H25. unfold values. rewrite filter_none; [done|]. intros r Hr. apply N.eqb_neq. intros Heq.
  destruct (last (map fst rs)) as [t|] eqn:Hl.
  - pose proof (ascending_last_le _ _ _ Hrs Hl Hr). apply in_order_lt in Ho; [lia|done..].
  - apply last_None_nil in Hl. apply map_eq_nil in Hl. subst rs. by apply elem_of_nil in Hr.
Qed.

Lemma kept_above kind rs tag :
  ascending None rs = true -> in_order (last (map fst rs)) tag = true -> tag <> PROTECTED_PATTERN -> tag <> RECIPIENT ->
  kept kind rs tag = [].
Proof.
  intros Hrs Ho H7 H25. pose proof (values_above _ _ Hrs Ho H7 H25) as Hv. unfold values in Hv. apply map_eq_nil in Hv.
  unfold kept. rewrite filter_none; [done|]. intros r Hr. destruct ((r.1 =? tag)%N) eqn:E; [|done].
  exfalso. assert (r ∈ List.filter (fun r => (r.1 =? tag)%N) rs) as Hin by by apply list_elem_of_In, filter_In; rewrite <-list_elem_of_In.
  rewrite Hv in Hin. by apply elem_of_nil in Hin.
Qed.

Lemma count_snoc t rs r : count_tag t (rs ++ [r]) = count_tag t rs + if (r.1 =? t)%N then 1 else 0.
Proof. unfold count_tag. rewrite filter_tag_snoc, length_app. by destruct (r.1 =? t)%N. Qed.

Lemma last_tag_snoc (rs : list (N * list byte)) r : last (map fst (rs ++ [r])) = Some r.1.
Proof. by rewrite map_app, last_app. Qed.

Lemma set_seal_off_updated v f : updated f (set_seal_off (Some v) f) SEAL_OFF [v].
Proof. solve_updated. Qed.

(** Every tag a kind allows has a cap and a field: no [unreachable!] is reached. *)
Lemma allowed_cap kind tag awp blinds : allowed kind tag awp blinds = true -> cap tag <> None.
Proof.
  destruct kind; unfold allowed; intros H;
    repeat match goal with
    | H : _ || _ = true |- _ => apply orb_true_iff in H as [H|H]
    | H : _ && _ = true |- _ => apply andb_true_iff in H as [_ H]
    | H : one_of _ _ = true |- _ => apply one_of_true in H
    | H : _ ∈ _ :: _ |- _ => apply elem_of_cons in H as [->|H]
    | H : _ ∈ [] |- _ => by apply elem_of_nil in H
    | H : (_ =? _)%N = true |- _ => apply N.eqb_eq in H as ->
    end; done.
Qed.

(** The epoch number of a parsed document fits its 4 bytes. *)
Definition epoch_ok (f : Fields) : bool := is_none_or (f_prev_epoch f) (fun e => e <=? u32_max)%N.

Lemma set_field_epoch tag v f f' : cap tag <> None -> set_field tag v f = Some f' -> epoch_ok f = true -> epoch_ok f' = true.
Proof.
  intros [Ht _]%cap_tags. unfold set_field, set_text, set_fixed, set_oid.
  by_tag Ht; eval_tests; intros Hf He; repeat case_match; simplify_eq; try done; destruct f; try done.
  all: unfold epoch_ok; simpl; apply N.leb_le.
  all: match goal with |- (from_be ?v <= _)%N => destruct v as [|a [|b [|c [|d [|]]]]] end.
  all: try (match goal with H : (len _ =? _)%N = true |- _ => apply N.eqb_eq in H; unfold len in H; simpl in H; lia end).
  all: apply from_be32_bound.
Qed.

(** ** What the steps have read *)

Section read.
Context (kind : DocKind) (awp blinds letter : bool).

Definition init : PState := mkPState Fields_default None 0 (if letter then Some (mkLetterParts [] None) else None).

Definition group_of (vs : list (list byte)) : option LetterGroup :=
  v ← head vs; b ← head v; group_from_code (byte_val b).

(** The state after [rs] holds the values of [rs]. *)
Definition has_read (rs : list (N * list byte)) (st : PState) : Prop :=
  ps_last st = last (map fst rs)
  /\ ps_patterns st = count_tag PROTECTED_PATTERN rs
  /\ (forall t, field_vals (ps_fields st) t = kept kind rs t)
  /\ epoch_ok (ps_fields st) = true
  /\ ps_letter st = if letter then Some (mkLetterParts (values rs RECIPIENT) (group_of (values rs GROUP))) else None.

Lemma has_read_init : has_read [] init.
Proof.
  split_and!; try done.
  intros t. unfold field_vals. simpl. by repeat case_match.
Qed.

Lemma step_extension rs st tag v :
  ascending None rs = true -> has_read rs st -> in_order (last (map fst rs)) tag = true -> (64 <= tag)%N ->
  exists st', record_step kind awp blinds st (tag, v) = Some st' /\ has_read (rs ++ [(tag, v)]) st'.
Proof.
  intros Hrs (Hl & Hp & Hf & He & Hlet) Ho Ht. unfold record_step. rewrite Hl, Ho. simpl.
  assert ((FIRST_EXTENSION <=? tag)%N = true) as Hx by by apply N.leb_le. rewrite Hx.
  eexists. split; [done|].
  assert (forall k, (k < 64)%N -> (tag =? k)%N = false) as Hk by (intros k ?; apply N.eqb_neq; lia).
  split_and!; cbn [ps_last ps_patterns ps_fields ps_letter].
  - by rewrite last_tag_snoc.
  - rewrite Hp, count_snoc. simpl. rewrite Hk by done. lia.
  - intros t. rewrite kept_snoc. unfold keeps. simpl fst. rewrite Hx.
    destruct (N.eqb_spec tag SEAL_OFF) as [->|Hne]; simpl; [|by rewrite andb_false_r, app_nil_r].
    case_bool_decide; simpl; [|by rewrite andb_false_r, app_nil_r].
    rewrite set_seal_off_updated, andb_true_r. destruct (N.eqb_spec t SEAL_OFF) as [->|]; [|by rewrite app_nil_r].
    by rewrite kept_above by done.
  - destruct (_ && _); [|done]. unfold epoch_ok in *. by destruct (ps_fields st).
  - by rewrite !values_snoc, !Hk, !app_nil_r.
Qed.

Lemma step_letter rs st tag v :
  ascending None rs = true -> has_read rs st -> in_order (last (map fst rs)) tag = true ->
  tag = RECIPIENT \/ tag = GROUP ->
  if letter && letter_kind kind && letter_value_ok tag v
  then exists st', record_step kind awp blinds st (tag, v) = Some st' /\ has_read (rs ++ [(tag, v)]) st'
  else record_step kind awp blinds st (tag, v) = None.
Proof.
  intros Hrs (Hl & Hp & Hf & He & Hlet) Ho Ht. unfold record_step. rewrite Hl, Ho, Hlet.
  assert (forall st' l, ps_fields st' = ps_fields st -> ps_last st' = Some tag ->
    ps_patterns st' = ps_patterns st -> ps_letter st' = Some l -> letter = true ->
    l = mkLetterParts (values (rs ++ [(tag, v)]) RECIPIENT) (group_of (values (rs ++ [(tag, v)]) GROUP)) ->
    has_read (rs ++ [(tag, v)]) st') as Hread.
  { intros st' l Hf' Hl' Hp' Hlt Hletter ->. split_and!.
    - by rewrite last_tag_snoc.
    - rewrite Hp', Hp, count_snoc. destruct Ht as [-> | ->]; simpl; lia.
    - intros t. rewrite Hf', Hf, kept_snoc. by destruct Ht as [-> | ->]; simpl; rewrite andb_false_r, app_nil_r.
    - by rewrite Hf'.
    - by rewrite Hlt, Hletter. }
  assert (tag = GROUP -> values rs GROUP = []) as Hg by (intros ->; by apply values_above).
  replace (negb true) with false by done. cbv iota.
  replace (FIRST_EXTENSION <=? tag)%N with false by by destruct Ht as [-> | ->].
  replace ((tag =? RECIPIENT)%N || (tag =? GROUP)%N) with true by by destruct Ht as [-> | ->]. cbv iota.
  destruct letter eqn:Hlet0; [|done]. cbn [andb mbind option_bind]. unfold letter_record, letter_value_ok.
  destruct (letter_kind kind); [|done]. cbn [negb andb].
  destruct Ht as [-> | ->]; cbn [N.eqb RECIPIENT GROUP Pos.eqb].
  - destruct (len v =? 32)%N; [|done]. eexists. split; [done|]. eapply Hread; try done.
    cbn [lp_recipients lp_group]. by rewrite !values_snoc, app_nil_r.
  - destruct v as [|b [|]]; [done| |done]. destruct (group_from_code (byte_val b)) as [g|] eqn:Hgc; [|done].
    eexists. split; [done|]. eapply Hread; try done. cbn [lp_recipients lp_group].
    rewrite !values_snoc, Hg, app_nil_r by done. unfold group_of. simpl. by rewrite Hgc.
Qed.

Lemma step_field rs st tag v :
  ascending None rs = true -> has_read rs st -> in_order (last (map fst rs)) tag = true ->
  (tag < 64)%N -> tag <> RECIPIENT -> tag <> GROUP ->
  if allowed kind tag awp blinds && value_ok tag v
  && (negb (tag =? PROTECTED_PATTERN)%N || (count_tag PROTECTED_PATTERN (rs ++ [(tag, v)]) <=? MAX_PATTERNS)%nat)
  then exists st', record_step kind awp blinds st (tag, v) = Some st' /\ has_read (rs ++ [(tag, v)]) st'
  else record_step kind awp blinds st (tag, v) = None.
Proof.
  intros Hrs (Hl & Hp & Hf & He & Hlet) Ho Ht Hr Hg. unfold record_step. rewrite Hl, Ho. cbn [negb].
  assert ((FIRST_EXTENSION <=? tag)%N = false) as Hx by by apply N.leb_gt.
  assert ((tag =? RECIPIENT)%N = false /\ (tag =? GROUP)%N = false) as [Hr' Hg'] by (split; by apply N.eqb_neq).
  rewrite Hx, Hr', Hg'. cbn [orb].
  destruct (allowed kind tag awp blinds) eqn:Ha; [|done]. cbn [negb andb]. apply allowed_cap in Ha.
  rewrite count_snoc, <-Hp. simpl fst.
  assert ((if (tag =? PROTECTED_PATTERN)%N then S (ps_patterns st) else ps_patterns st)
    = ps_patterns st + if (tag =? PROTECTED_PATTERN)%N then 1 else 0) as -> by (destruct (tag =? PROTECTED_PATTERN)%N; lia).
  set (n := ps_patterns st + _). rewrite (Nat.ltb_antisym _ _ : (MAX_PATTERNS <? n)%nat = negb (n <=? MAX_PATTERNS)%nat).
  destruct (set_field tag v (ps_fields st)) as [f'|] eqn:Hset.
  - assert (value_ok tag v = true) as -> by (apply (set_field_ok _ _ (ps_fields st)); [done|by rewrite Hset]).
    cbn [andb]. destruct (tag =? PROTECTED_PATTERN)%N eqn:H7; cbn [negb andb orb].
    all: try (destruct (n <=? MAX_PATTERNS)%nat; cbn [negb]; [|done]).
    all: eexists; split; [done|]; split_and!; cbn [ps_last ps_patterns ps_fields ps_letter];
      [by rewrite last_tag_snoc|by rewrite count_snoc, <-Hp; simpl; rewrite H7| |by eapply set_field_epoch|by rewrite !values_snoc; simpl fst; rewrite Hr', Hg', !app_nil_r].
    all: intros t; rewrite kept_snoc, (set_field_spec kind tag v _ _ Ha Hset), Hf; [done|].
    all: intros H7'; rewrite Hf; by apply kept_above.
  - assert (value_ok tag v = false) as Hv.
    { apply not_true_iff_false. intros Hv. by apply (set_field_ok tag v (ps_fields st)) in Hv. }
    rewrite Hv. simpl. by destruct (_ && _).
Qed.

(** One step: it accepts a record exactly when the grammar does. *)
Lemma step_iff rs st r :
  ascending None rs = true -> count_tag PROTECTED_PATTERN rs <= MAX_PATTERNS -> has_read rs st ->
  let ok := in_order (last (map fst rs)) r.1 && record_ok kind awp blinds letter r
        && (count_tag PROTECTED_PATTERN (rs ++ [r]) <=? MAX_PATTERNS)%nat in
  if ok then exists st', record_step kind awp blinds st r = Some st' /\ has_read (rs ++ [r]) st'
  else record_step kind awp blinds st r = None.
Proof.
  intros Hrs Hc Hread. destruct r as [tag v]. cbn [fst]. cbv zeta.
  destruct (in_order (last (map fst rs)) tag) eqn:Ho; cbn [andb].
  2: { unfold record_step. destruct Hread as (-> & _). by rewrite Ho. }
  unfold record_ok. destruct (FIRST_EXTENSION <=? tag)%N eqn:Hx.
  { apply N.leb_le in Hx. rewrite count_snoc. simpl fst. replace (tag =? PROTECTED_PATTERN)%N with false.
    2: { symmetry. apply N.eqb_neq. unfold FIRST_EXTENSION, PROTECTED_PATTERN in *. lia. }
    rewrite Nat.add_0_r. assert ((_ <=? _)%nat = true) as -> by by apply Nat.leb_le. simpl.
    by apply step_extension. }
  apply N.leb_gt in Hx. destruct ((tag =? RECIPIENT)%N || (tag =? GROUP)%N) eqn:Hl.
  - apply orb_true_iff in Hl as Hl'. assert (tag = RECIPIENT \/ tag = GROUP) as Htag by by rewrite <-!N.eqb_eq.
    rewrite count_snoc. simpl fst. replace (tag =? PROTECTED_PATTERN)%N with false by by destruct Htag as [-> | ->].
    rewrite Nat.add_0_r. assert ((_ <=? _)%nat = true) as -> by by apply Nat.leb_le. rewrite andb_true_r.
    by apply step_letter.
  - apply orb_false_iff in Hl as [Hr%N.eqb_neq Hg%N.eqb_neq].
    pose proof (step_field rs st tag v Hrs Hread Ho Hx Hr Hg) as H.
    destruct (N.eqb_spec tag PROTECTED_PATTERN) as [Heq|Hne]; cbn [negb orb] in H; [done|].
    rewrite andb_true_r in H. rewrite count_snoc. simpl fst. apply N.eqb_neq in Hne. rewrite Hne, Nat.add_0_r.
    assert ((_ <=? _)%nat = true) as -> by by apply Nat.leb_le. by rewrite andb_true_r.
Qed.

Lemma count_mono t rs r : count_tag t rs <= count_tag t (rs ++ [r]).
Proof. rewrite count_snoc. lia. Qed.

(** The steps accept exactly the lists of records of the grammar, and read them. *)
Lemma steps_iff rs :
  if accepted kind awp blinds letter rs
  then exists st, steps kind awp blinds init rs = Some st /\ has_read rs st
  else steps kind awp blinds init rs = None.
Proof.
  induction rs as [|r rs IH] using rev_ind; [by exists init; split; [|apply has_read_init]|].
  rewrite steps_snoc. unfold accepted in *. rewrite ascending_snoc, forallb_app.
  pose proof (count_mono PROTECTED_PATTERN rs r) as Hm.
  destruct (ascending None rs) eqn:Ha; simpl in IH |- *; [|by rewrite IH].
  destruct (forallb _ rs) eqn:Hf; simpl in IH |- *; [|by rewrite andb_false_r; simpl; rewrite IH].
  destruct (count_tag PROTECTED_PATTERN rs <=? MAX_PATTERNS)%nat eqn:Hc.
  - destruct IH as (st & -> & Hread). cbn [mbind option_bind]. apply Nat.leb_le in Hc.
    pose proof (step_iff rs st r Ha Hc Hread) as H. cbv zeta in H. rewrite andb_true_r.
    by destruct (last (map fst rs)).
  - apply Nat.leb_gt in Hc. rewrite IH. simpl.
    assert ((count_tag PROTECTED_PATTERN (rs ++ [r]) <=? MAX_PATTERNS)%nat = false) as -> by (apply Nat.leb_gt; lia).
    by rewrite andb_false_r.
Qed.

End read.

(** ** The fields a table determines *)


Lemma opt_list_inj {A} (o1 o2 : option A) : opt_list o1 = opt_list o2 -> o1 = o2.
Proof. destruct o1, o2; naive_solver. Qed.

Lemma opt_bytes_inj o1 o2 : opt_list (bytes <$> o1) = opt_list (bytes <$> o2) -> o1 = o2.
Proof. intros H%opt_list_inj. destruct o1, o2; simpl in H; try done. injection H as H. by apply bytes_inj in H as ->. Qed.

Lemma map_bytes_inj l1 l2 : map bytes l1 = map bytes l2 -> l1 = l2.
Proof. revert l2. induction l1 as [|s l1 IH]; intros [|t l2] H; try done. injection H as ->%bytes_inj H. f_equal. by apply IH. Qed.

Lemma fields_ext f g :
  epoch_ok f = true -> epoch_ok g = true -> (forall t, field_vals f t = field_vals g t) -> f = g.
Proof.
  destruct f, g; intros He1 He2 H.
  pose proof (H TITLE) as H1%opt_bytes_inj. pose proof (H BODY) as H2%opt_bytes_inj.
  pose proof (H REF_NAME) as H3%opt_bytes_inj. pose proof (H BASE_REF_NAME) as H4%opt_bytes_inj.
  pose proof (H SOURCE_REF_NAME) as H5%opt_bytes_inj. pose proof (H DEFAULT_BRANCH) as H6%opt_bytes_inj.
  pose proof (H PROTECTED_PATTERN) as H7. pose proof (H PREV_EPOCH) as H8%opt_list_inj.
  pose proof (H PREV_EPOCH_KEY) as H9%opt_list_inj. pose proof (H PATH) as H10%opt_bytes_inj.
  pose proof (H BURNED) as H11. pose proof (H SKIP_EPOCH_KEY) as H12%opt_list_inj.
  pose proof (H IMPORTED_AUTHOR) as H13%opt_bytes_inj. pose proof (H IMPORTED_URL) as H14%opt_bytes_inj.
  pose proof (H EVENT_VALUE) as H15%opt_bytes_inj. pose proof (H NEW_OID) as H16%opt_list_inj.
  pose proof (H PREV_OID) as H17%opt_list_inj. pose proof (H HEAD_OID) as H18%opt_list_inj.
  pose proof (H OID_SALT) as H19%opt_list_inj. pose proof (H SEAL_OFF) as H20%opt_list_inj.
  clear H. unfold epoch_ok in *. unfold field_vals in H7, H11. simpl in *. subst.
  assert (f_protected_patterns0 = f_protected_patterns1) as -> by by apply map_bytes_inj.
  f_equal.
  - destruct f_prev_epoch0, f_prev_epoch1; simpl in *; try done. f_equal.
    apply be32_inj; [by apply N.leb_le..|]. injection H8. unfold be32. congruence.
  - by destruct f_burned0, f_burned1.
Qed.

(** ** The records of the encoder *)

Lemma document_app rs1 rs2 : document (rs1 ++ rs2) = document rs1 ++ document rs2.
Proof. unfold document. by rewrite map_app, concat_app. Qed.

Lemma document_entry t vs : document (of_entry (t, vs)) = concat (map (push_record t) vs).
Proof. unfold document, of_entry. simpl. by rewrite map_map. Qed.

Lemma opt_record_document t o : opt_record t o = document (of_entry (t, opt_list o)).
Proof. rewrite document_entry. destruct o; simpl; [by rewrite app_nil_r|done]. Qed.

Lemma encode_document f : encode f = document (records_of f).
Proof.
  unfold encode, records_of, field_table. rewrite !opt_record_document. cbn [map concat]. rewrite !document_app.
  rewrite (document_entry PROTECTED_PATTERN), map_map, (document_entry BURNED).
  assert ((if f_burned f then push_record BURNED [byte_of 1] else [])
    = concat (map (push_record BURNED) (if f_burned f then [[byte_of 1]] else []))) as ->
    by (destruct (f_burned f); cbn [map concat]; by rewrite ?app_nil_r).
  by rewrite app_nil_r.
Qed.

(** A table with ascending tags, each with at most one value unless it may repeat. *)
Fixpoint table_ok (t0 : N) (l : list (N * list (list byte))) : Prop :=
  match l with [] => True | (t, vs) :: l => (t0 <= t)%N /\ (t = PROTECTED_PATTERN \/ length vs <= 1) /\ table_ok (t + 1) l end.

Lemma field_table_ok f : table_ok 0 (field_table f).
Proof.
  unfold field_table, table_ok. split_and!; try done; try (by left); right;
    try match goal with |- length (opt_list ?o) <= 1 => destruct o; simpl; lia end.
  destruct (f_burned f); simpl; lia.
Qed.

Lemma in_order_above last t : is_none_or last (fun p => p <? t)%N = true -> in_order last t = true.
Proof.
  destruct last as [p|]; [|done]. simpl. intros H%N.ltb_lt. unfold in_order. simpl. apply negb_true_iff, orb_false_iff.
  split; [apply N.ltb_ge; lia|]. assert ((t =? p)%N = false) as -> by (apply N.eqb_neq; lia). done.
Qed.

Lemma ascending_table l tbl last :
  is_none_or last (fun p => p <? l)%N = true -> table_ok l tbl -> ascending last (concat (map of_entry tbl)) = true.
Proof.
  revert l last. induction tbl as [|[t vs] tbl IH]; intros l last Hl; [done|]. intros (Hle & Hv & Htbl). simpl.
  assert (is_none_or last (fun p => p <? t)%N = true) as Hlt.
  { destruct last; [|done]. simpl in *. apply N.ltb_lt in Hl. apply N.ltb_lt. lia. }
  assert (forall vs, t = PROTECTED_PATTERN -> ascending (Some t) (of_entry (t, vs) ++ concat (map of_entry tbl)) = true) as H7.
  { intros ws ->. induction ws as [|w ws IHw]; [|done]. by apply (IH (PROTECTED_PATTERN + 1)%N). }
  destruct vs as [|v vs]; [apply (IH (t + 1)%N); [|done]|].
  { destruct last; [|done]. simpl in *. apply N.ltb_lt in Hlt. apply N.ltb_lt. lia. }
  simpl. rewrite in_order_above by done. simpl. destruct Hv as [->|Hv]; [by apply H7|].
  destruct vs; [|simpl in Hv; lia]. apply (IH (t + 1)%N); [|done]. simpl. apply N.ltb_lt. lia.
Qed.

Lemma values_app rs1 rs2 t : values (rs1 ++ rs2) t = values rs1 t ++ values rs2 t.
Proof. unfold values. by rewrite List.filter_app, map_app. Qed.

Lemma values_entry t vs u : values (of_entry (t, vs)) u = if (t =? u)%N then vs else [].
Proof.
  unfold values, of_entry. simpl. induction vs as [|v vs IH]; simpl; [by destruct (t =? u)%N|].
  destruct (t =? u)%N; simpl; [by rewrite IH|done].
Qed.

Lemma values_table t0 tbl t :
  table_ok t0 tbl -> values (concat (map of_entry tbl)) t = assoc t tbl /\ ((t < t0)%N -> assoc t tbl = []).
Proof.
  revert t0. induction tbl as [|[u vs] tbl IH]; intros t0; [done|]. intros (Hle & _ & Htbl). simpl.
  destruct (IH _ Htbl) as [Hv Hlow]. rewrite values_app, values_entry, Hv, (N.eqb_sym u t).
  destruct (N.eqb_spec t u) as [->|Hne].
  - rewrite Hlow, app_nil_r by lia. split; [done|]. intros ?. lia.
  - split; [done|]. intros ?. apply Hlow. lia.
Qed.

Lemma ascending_records f : ascending None (records_of f) = true.
Proof. by apply (ascending_table 0); [|apply field_table_ok]. Qed.

Lemma values_records f t : values (records_of f) t = field_vals f t.
Proof. by apply (values_table 0), field_table_ok. Qed.

Lemma elem_of_tlv_values rs t v : v ∈ values rs t <-> (t, v) ∈ rs.
Proof.
  unfold values. rewrite list_elem_of_In, in_map_iff. setoid_rewrite filter_In. split.
  - intros ([u w] & Heq & Hin & Ht%N.eqb_eq). simpl in *. subst. by apply list_elem_of_In.
  - intros Hin%list_elem_of_In. exists (t, v). by rewrite N.eqb_refl.
Qed.

Lemma kept_values kind rs t : forallb (keeps kind) rs = true -> kept kind rs t = values rs t.
Proof.
  intros Hk. unfold kept, values. f_equal. apply List.filter_ext_in. intros r Hr.
  rewrite forallb_forall in Hk. by rewrite (Hk r Hr), andb_true_r.
Qed.

Lemma kept_dropped kind rs t : (forall r, r ∈ rs -> keeps kind r = false) -> kept kind rs t = [].
Proof. intros Hr. unfold kept. by rewrite filter_none by by intros r ->%Hr; rewrite andb_false_r. Qed.

Lemma kept_app kind rs1 rs2 t : kept kind (rs1 ++ rs2) t = kept kind rs1 t ++ kept kind rs2 t.
Proof. unfold kept. by rewrite List.filter_app, map_app. Qed.

Lemma elem_of_kept kind rs t v : v ∈ kept kind rs t <-> (t, v) ∈ rs /\ keeps kind (t, v) = true.
Proof.
  unfold kept. rewrite list_elem_of_In, in_map_iff. setoid_rewrite filter_In. setoid_rewrite andb_true_iff. split.
  - intros ([u w] & Heq & Hin & Ht%N.eqb_eq & Hk). simpl in *. subst. split; [by apply list_elem_of_In|done].
  - intros [Hin%list_elem_of_In Hk]. exists (t, v). by rewrite N.eqb_refl.
Qed.

Lemma count_values t rs : count_tag t rs = length (values rs t).
Proof. unfold count_tag, values. by rewrite length_map. Qed.

(** ** Documents a writer may emit *)

Definition record_writable (kind : DocKind) (awp blinds : bool) (r : N * list byte) : bool :=
  record_ok kind awp blinds false r && keeps kind r && (len r.2 <=? u16_max)%N.

(** Every field is one of the kind's, within its cap and not empty where it may not be, and the
    document is complete. *)
Definition writable (kind : DocKind) (awp blinds : bool) (f : Fields) : bool :=
  forallb (record_writable kind awp blinds) (records_of f)
  && (length (f_protected_patterns f) <=? MAX_PATTERNS)%nat && epoch_ok f && complete kind awp f.

Lemma parse_inner_iff kind awp blinds letter pt f l :
  parse_inner pt kind awp (if letter : bool then Some (mkLetterParts [] None) else None) blinds = Some (f, l) <->
  exists rs, pt = document rs /\ Forall fits rs /\ accepted kind awp blinds letter rs = true
    /\ (forall t, field_vals f t = kept kind rs t) /\ epoch_ok f = true /\ complete kind awp f = true
    /\ l = if letter then Some (mkLetterParts (values rs RECIPIENT) (group_of (values rs GROUP))) else None.
Proof.
  unfold parse_inner. change (mkPState Fields_default None 0 _) with (init letter). split.
  - destruct (parse_loop _ _ _ _ _ pt) as [st|] eqn:Hp; [|done]. simpl.
    destruct (complete kind awp (ps_fields st)) eqn:Hc; [|done]. intros [= <- <-].
    apply parse_loop_iff in Hp as (rs & Hpt & Hfit & Hst); [|done]. exists rs.
    pose proof (steps_iff kind awp blinds letter rs) as H. destruct (accepted kind awp blinds letter rs); [|congruence].
    destruct H as (st' & Hst' & Hl & Hn & Hf & He & Hlet). rewrite Hst in Hst'. injection Hst' as <-.
    by rewrite Hlet.
  - intros (rs & Hpt & Hfit & Hacc & Hf & He & Hc & ->).
    pose proof (steps_iff kind awp blinds letter rs) as H. rewrite Hacc in H. destruct H as (st & Hst & _ & _ & Hf' & He' & Hlet).
    assert (parse_loop (length pt) kind awp blinds (init letter) pt = Some st) as -> by by apply parse_loop_iff; [|exists rs].
    assert (ps_fields st = f) as Heq by by apply fields_ext; [..|intros t; rewrite Hf, Hf'].
    cbn [mbind option_bind]. by rewrite Heq, Hc, Hlet.
Qed.

Lemma writable_records kind awp blinds f :
  writable kind awp blinds f = true ->
  Forall fits (records_of f) /\ (forall letter, forallb (record_ok kind awp blinds letter) (records_of f) = true)
  /\ forallb (keeps kind) (records_of f) = true /\ count_tag PROTECTED_PATTERN (records_of f) <= MAX_PATTERNS.
Proof.
  intros [[[Hr Hp]%andb_true_iff _]%andb_true_iff _]%andb_true_iff. rewrite forallb_forall in Hr.
  assert (forall r, In r (records_of f) -> record_ok kind awp blinds false r = true /\ keeps kind r = true /\ (len r.2 <= u16_max)%N) as H.
  { intros r Hin%Hr. unfold record_writable in Hin. apply andb_true_iff in Hin as [[? ?]%andb_true_iff ?%N.leb_le]. done. }
  split_and!.
  - apply List.Forall_forall. intros [t v] Hin. split; [|by apply H].
    apply list_elem_of_In, elem_of_tlv_values in Hin. rewrite values_records in Hin.
    destruct (decide (t < 256)%N) as [|Hge]; [done|]. exfalso. unfold field_vals, field_table in Hin. cbn [assoc] in Hin.
    repeat match type of Hin with context [(t =? ?k)%N] =>
      replace (t =? k)%N with false in Hin by (symmetry; apply N.eqb_neq; intros ->; by apply Hge) end.
    by apply elem_of_nil in Hin.
  - intros letter. apply forallb_forall. intros [t v] (Hok & _)%H. unfold record_ok in *.
    destruct (_ <=? t)%N; [done|]. by destruct ((t =? RECIPIENT)%N || (t =? GROUP)%N).
  - apply forallb_forall. intros r Hin. by apply H.
  - rewrite count_values, values_records. change (field_vals f PROTECTED_PATTERN) with (map bytes (f_protected_patterns f)).
    rewrite length_map. by apply Nat.leb_le.
Qed.

Lemma parse_encode kind awp blinds f :
  writable kind awp blinds f = true -> parse_inner (encode f) kind awp None blinds = Some (f, None).
Proof.
  intros Hw. destruct (writable_records _ _ _ _ Hw) as (Hfit & Hok & Hk & Hp).
  apply andb_true_iff in Hw as [[_ He]%andb_true_iff Hc]. apply (parse_inner_iff kind awp blinds false).
  exists (records_of f). split_and!; try done; [by rewrite encode_document| |].
  - unfold accepted. rewrite ascending_records, Hok. by apply Nat.leb_le.
  - intros t. by rewrite kept_values, values_records.
Qed.

(** What the parser returns can be written, as the plain document it is. *)
Lemma parse_writable kind awp blinds pt f :
  parse_inner pt kind awp None blinds = Some (f, None) ->
  writable kind awp blinds f = true
  /\ exists rs, pt = document rs /\ forall r, r ∈ records_of f <-> r ∈ rs /\ keeps kind r = true.
Proof.
  intros (rs & -> & Hfit & Hacc & Hf & He & Hc & _)%(parse_inner_iff kind awp blinds false).
  assert (forall r, r ∈ records_of f <-> r ∈ rs /\ keeps kind r = true) as Hin.
  { intros [t v]. by rewrite <-elem_of_kept, <-Hf, <-values_records, elem_of_tlv_values. }
  split; [|by exists rs]. unfold writable. rewrite He, Hc, !andb_true_r. apply andb_true_iff. split.
  - apply andb_true_iff in Hacc as [[_ Hok]%andb_true_iff _]. rewrite forallb_forall in Hok.
    apply forallb_forall. intros r [Hr Hk]%list_elem_of_In%Hin. unfold record_writable.
    rewrite Hk, Hok by by apply list_elem_of_In. simpl. apply N.leb_le. rewrite Forall_forall in Hfit. by apply Hfit.
  - apply andb_true_iff in Hacc as [_ Hn%Nat.leb_le]. apply Nat.leb_le.
    assert (length (f_protected_patterns f) = length (kept kind rs PROTECTED_PATTERN)) as ->
      by (rewrite <-Hf; unfold field_vals; simpl; by rewrite length_map).
    etrans; [|exact Hn]. unfold kept, count_tag. rewrite length_map. clear. induction rs as [|r rs IH]; [done|]. simpl.
    destruct (r.1 =? PROTECTED_PATTERN)%N; simpl; [|done]. destruct (keeps kind r); simpl; lia.
Qed.

(** Two ascending lists with the same values for every tag are one. *)
Lemma ascending_unique rs1 rs2 :
  StronglySorted tag_le rs1 -> StronglySorted tag_le rs2 -> (forall t, values rs1 t = values rs2 t) -> rs1 = rs2.
Proof.
  revert rs2. induction rs1 as [|[t v] rs1 IH]; intros rs2 H1 H2 Hv.
  - destruct rs2 as [|[t v] rs2]; [done|]. specialize (Hv t). unfold values in Hv. simpl in Hv. by rewrite N.eqb_refl in Hv.
  - destruct rs2 as [|[u w] rs2].
    { specialize (Hv t). unfold values in Hv. simpl in Hv. by rewrite N.eqb_refl in Hv. }
    inversion H1 as [|? ? Hs1 Hle1]; inversion H2 as [|? ? Hs2 Hle2]; subst. simpl in *. rewrite Forall_forall in Hle1, Hle2.
    assert (t = u) as ->.
    { assert ((u, w) ∈ (t, v) :: rs1) as Hu by by apply elem_of_tlv_values; rewrite Hv; apply elem_of_tlv_values; left.
      assert ((t, v) ∈ (u, w) :: rs2) as Ht by by apply elem_of_tlv_values; rewrite <-Hv; apply elem_of_tlv_values; left.
      apply elem_of_cons in Hu as [Hu|Hu%Hle1]; [congruence|]. apply elem_of_cons in Ht as [Ht|Ht%Hle2]; [congruence|].
      simpl in *. lia. }
    assert (forall x (r : N * list byte) rs, values (r :: rs) x = (if (r.1 =? x)%N then [r.2] else []) ++ values rs x) as Hcons.
    { intros x r rs. unfold values. simpl. by destruct (r.1 =? x)%N. }
    assert (v = w /\ forall x, values rs1 x = values rs2 x) as [-> Hrest].
    { split; [specialize (Hv u); rewrite !Hcons in Hv; simpl in Hv; rewrite N.eqb_refl in Hv; by injection Hv|].
      intros x. specialize (Hv x). rewrite !Hcons in Hv. simpl in Hv. destruct (u =? x)%N; [by injection Hv|done]. }
    f_equal. by apply IH.
Qed.

(** ** Letters and padding *)

Lemma fits_recipients recipients : Forall (fun r => len r = 32%N) recipients -> Forall fits (map (pair RECIPIENT) recipients).
Proof. intros H. apply Forall_map. eapply Forall_impl; [exact H|]. intros r Hr. split; [done|]. simpl. by rewrite Hr. Qed.

(** The padding is one record that no reader keeps, or nothing. *)
Lemma pad_record_document n max bucket :
  (N.of_nat bucket <= u16_max)%N -> exists rs, pad_record_in n max bucket = document rs /\ Forall fits rs
    /\ (rs = [] \/ exists v, rs = [(PAD, v)]).
Proof.
  intros Hb. unfold pad_record_in. destruct (max <? n + 3)%nat; [by exists []; split_and!; [..|left]|].
  set (k := (_ `min` _)). exists [(PAD, repeat (byte_of 0) k)]. split_and!; [by unfold document; simpl; rewrite app_nil_r| |by right; eexists].
  constructor; [|done]. split; [done|]. unfold len. simpl. rewrite List.repeat_length. subst k.
  destruct bucket as [|b]; [simpl; unfold u16_max; lia|].
  pose proof (Nat.mod_upper_bound (S b - (n + 3) mod S b) (S b)). lia.
Qed.

Lemma ascending_app l rs1 rs2 :
  ascending l (rs1 ++ rs2) =
  ascending l rs1 && ascending (match last (map fst rs1) with Some t => Some t | None => l end) rs2.
Proof.
  revert l. induction rs1 as [|[t v] rs1 IH]; intros l; [done|].
  cbn [ascending app map fst]. rewrite IH, last_cons, <-andb_assoc. by destruct (last (map fst rs1)).
Qed.

(** The tail of a letter after its fields. *)
Definition tail_records (recipients : list (list byte)) (group : option LetterGroup) : list (N * list byte) :=
  map (pair RECIPIENT) recipients
  ++ match group with Some g => [(GROUP, [byte_of (group_code g)])] | None => [] end.

Lemma push_recipients_document recipients group : push_recipients recipients group = document (tail_records recipients group).
Proof.
  unfold push_recipients, tail_records. rewrite document_app. f_equal.
  - unfold document. by rewrite map_map.
  - destruct group; [|done]. unfold document. cbn [map concat]. by rewrite app_nil_r.
Qed.

Lemma group_roundtrip g : group_from_code (byte_val (byte_of (group_code g))) = Some g.
Proof. by destruct g. Qed.

Lemma ascending_tail last recipients group pad :
  is_none_or last (fun p => p <=? RECIPIENT)%N = true -> pad = [] \/ (exists v, pad = [(PAD, v)]) ->
  ascending last (tail_records recipients group ++ pad) = true.
Proof.
  intros Hl Hpad. unfold tail_records. rewrite <-app_assoc. revert last Hl.
  induction recipients as [|r recipients IH]; intros last Hl; simpl.
  - assert (forall k, (RECIPIENT < k)%N -> in_order last k = true) as Hk.
    { intros k Hk. apply in_order_above. destruct last; [|done]. simpl in *. apply N.leb_le in Hl. apply N.ltb_lt. lia. }
    destruct group, Hpad as [->|[v ->]]; simpl; rewrite ?Hk by done; done.
  - assert (in_order last RECIPIENT = true) as ->; [|by apply IH].
    destruct last as [p|]; [|done]. simpl in Hl. apply N.leb_le in Hl. unfold in_order. simpl.
    by rewrite (proj2 (N.ltb_ge _ _) Hl), andb_false_r.
Qed.

(** A letter's fields have low tags. *)
Lemma allowed_low kind tag : allowed kind tag false false = true -> (tag < RECIPIENT)%N.
Proof.
  unfold RECIPIENT. destruct kind; unfold allowed; rewrite ?orb_false_r; intros H;
    repeat match goal with
    | H : _ || _ = true |- _ => apply orb_true_iff in H as [H|H]
    | H : one_of _ _ = true |- _ => apply one_of_true in H
    | H : _ ∈ _ :: _ |- _ => apply elem_of_cons in H as [->|H]
    | H : _ ∈ [] |- _ => by apply elem_of_nil in H
    | H : (_ =? _)%N = true |- _ => apply N.eqb_eq in H as ->
    end; done.
Qed.

Lemma letter_records_low kind f r :
  writable kind false false f = true -> letter_kind kind = true -> r ∈ records_of f -> (r.1 < RECIPIENT)%N.
Proof.
  intros Hw Hlk Hr. destruct (writable_records _ _ _ _ Hw) as (_ & Hok & Hk & _). specialize (Hok false).
  rewrite forallb_forall in Hok, Hk. apply list_elem_of_In in Hr. specialize (Hok _ Hr). specialize (Hk _ Hr).
  destruct r as [t v]. unfold record_ok, keeps in *. simpl. destruct (FIRST_EXTENSION <=? t)%N.
  - apply andb_true_iff in Hk as [_ ->%bool_decide_eq_true]. done.
  - destruct (_ || _); [done|]. apply andb_true_iff in Hok as [Ha _]. by eapply allowed_low.
Qed.

Lemma values_none rs t : (forall r, r ∈ rs -> (r.1 =? t)%N = false) -> values rs t = [].
Proof. intros H. unfold values. by rewrite filter_none. Qed.

Lemma values_low rs t : (forall r, r ∈ rs -> (r.1 < t)%N) -> values rs t = [].
Proof. intros H. apply values_none. intros r Hr%H. apply N.eqb_neq. lia. Qed.

Lemma values_tail recipients group :
  values (tail_records recipients group) RECIPIENT = recipients
  /\ group_of (values (tail_records recipients group) GROUP) = group.
Proof.
  unfold tail_records. rewrite !values_app. change (map (pair RECIPIENT) recipients) with (of_entry (RECIPIENT, recipients)).
  rewrite !values_entry. split; destruct group as [g|]; simpl; try done; [by rewrite app_nil_r..|].
  unfold values, group_of. cbn [List.filter fst N.eqb GROUP Pos.eqb map snd head mbind option_bind]. apply group_roundtrip.
Qed.

Lemma values_above_tail recipients group : values (tail_records recipients group) PROTECTED_PATTERN = [].
Proof.
  unfold tail_records. rewrite values_app. change (map (pair RECIPIENT) recipients) with (of_entry (RECIPIENT, recipients)).
  rewrite values_entry. by destruct group.
Qed.

Lemma values_pad pad t : pad = [] \/ (exists v, pad = [(PAD, v)]) -> (t < 64)%N -> values pad t = [].
Proof.
  intros Hpad Ht. apply values_none. intros r Hr. destruct Hpad as [->|[v ->]]; [by apply elem_of_nil in Hr|].
  apply list_elem_of_singleton in Hr as ->. apply N.eqb_neq. unfold PAD, FIRST_EXTENSION. simpl. lia.
Qed.

Lemma tail_ok kind awp blinds recipients group :
  letter_kind kind = true -> Forall (fun r => len r = 32%N) recipients ->
  forallb (record_ok kind awp blinds true) (tail_records recipients group) = true.
Proof.
  intros Hk Hr. unfold tail_records. rewrite forallb_app. apply andb_true_iff. split.
  - rewrite forallb_forall. intros r (v & <- & Hv%list_elem_of_In)%in_map_iff. rewrite Forall_forall in Hr.
    unfold record_ok, letter_value_ok. simpl. rewrite Hk, (Hr v Hv). done.
  - destruct group as [g|]; [|done]. unfold record_ok, letter_value_ok. simpl. rewrite Hk. by destruct g.
Qed.

Lemma parse_letter_encode kind f recipients group n max bucket :
  writable kind false false f = true -> letter_kind kind = true -> Forall (fun r => len r = 32%N) recipients ->
  (N.of_nat bucket <= u16_max)%N ->
  parse_letter (encode f ++ push_recipients recipients group ++ pad_record_in n max bucket) kind
  = Some (mkLetterTlv f recipients group).
Proof.
  intros Hw Hlk Hrec Hb. destruct (writable_records _ _ _ _ Hw) as (Hfit & Hok & Hk & Hp). specialize (Hok true).
  pose proof (fun r => letter_records_low _ _ r Hw Hlk) as Hlow.
  assert (Hw' := Hw). apply andb_true_iff in Hw' as [[_ He]%andb_true_iff Hc].
  destruct (pad_record_document n max bucket Hb) as (pad & -> & Hpfit & Hpad).
  rewrite encode_document, push_recipients_document, <-!document_app.
  set (rs := records_of f ++ tail_records recipients group ++ pad).
  destruct (values_tail recipients group) as [Hvr Hvg].
  assert (forall t, (t < 64)%N -> values pad t = []) as Hvpad by (intros t Ht; by apply values_pad).
  assert (values rs RECIPIENT = recipients /\ group_of (values rs GROUP) = group) as [HR HG].
  { unfold rs. rewrite !values_app, !Hvpad, !app_nil_r, Hvr, !(values_low (records_of f)); try done.
    intros r Hr%Hlow. unfold GROUP, RECIPIENT in *. lia. }
  assert (parse_inner (document rs) kind false (Some (mkLetterParts [] None)) false
    = Some (f, Some (mkLetterParts recipients group))) as Hparse.
  { apply (parse_inner_iff kind false false true). exists rs. split_and!; try done; [| | |by rewrite HR, HG].
    - unfold rs. apply Forall_app. split; [done|]. apply Forall_app. split; [|done]. unfold tail_records. apply Forall_app.
      split; [by apply fits_recipients|]. destruct group; [|done]. by constructor.
    - unfold accepted, rs. rewrite ascending_app, !forallb_app, ascending_records, Hok, tail_ok by done. simpl.
      apply andb_true_iff. split; [apply andb_true_iff; split|].
      + apply ascending_tail; [|done]. destruct (last (map fst (records_of f))) as [t|] eqn:Hl; [|done].
        apply last_Some_elem_of in Hl. apply list_elem_of_In, in_map_iff in Hl as (r & <- & Hr%list_elem_of_In%Hlow).
        simpl. apply N.leb_le. lia.
      + by destruct Hpad as [->|[v ->]].
      + apply Nat.leb_le. rewrite count_values, !values_app, Hvpad, app_nil_r, length_app, <-count_values by done.
        rewrite (values_above_tail recipients group) by done. simpl. lia.
    - intros t. unfold rs. rewrite !kept_app, kept_values, values_records by done.
      rewrite !(kept_dropped kind) , !app_nil_r; [done| |].
      + intros r Hr. destruct Hpad as [->|[v ->]]; [by apply elem_of_nil in Hr|]. by apply list_elem_of_singleton in Hr as ->.
      + intros r Hr. unfold tail_records in Hr. apply elem_of_app in Hr as [Hr|Hr].
        * apply list_elem_of_In, in_map_iff in Hr as (v & <- & _). done.
        * destruct group; [|by apply elem_of_nil in Hr]. by apply list_elem_of_singleton in Hr as ->. }
  unfold parse_letter. rewrite Hparse. done.
Qed.

(** ** Theorems *)

(** C36: what a writer encodes is what a reader parses: for fields the kind allows, within their
    caps and complete, the parser returns exactly them, in a private document (here [f]) and in
    a members-only one (here [g]). *)
Theorem tlv_roundtrip kind awp f kind' g
    (Hf : writable kind awp false f = true) (Hg : writable kind' false true g = true) :
  parse (encode f) kind awp = Some f /\ parse_members (encode g) kind' = Some g.
Proof. unfold parse, parse_members. by rewrite (parse_encode _ _ _ _ Hf), (parse_encode _ _ _ _ Hg). Qed.

(** A letter comes back whole: its fields, its recipients in order and its group, whatever
    padding follows. *)
Theorem letter_roundtrip kind f recipients group n max
    (Hf : writable kind false false f = true) (Hkind : letter_kind kind = true)
    (Hrec : Forall (fun r => len r = 32%N) recipients) :
  parse_letter (encode f ++ push_recipients recipients group ++ pad_record n max) kind
  = Some (mkLetterTlv f recipients group).
Proof. unfold pad_record. by apply parse_letter_encode. Qed.

(** The parser is strict: what it accepts a writer could have written (every field allowed
    for the kind and within its cap, the document complete), it reads the same fields from
    the canonical encoding, and two different byte strings give the same fields only through
    records the parser drops (extensions, and empty records of a field that may not be
    empty). *)
Theorem parse_strict pt kind awp f (Hp : parse pt kind awp = Some f) :
  writable kind awp false f = true
  /\ parse (encode f) kind awp = Some f
  /\ (pt = encode f \/ exists rs r, pt = document rs /\ r ∈ rs /\ keeps kind r = false).
Proof.
  unfold parse in *. destruct (parse_inner pt kind awp None false) as [[f' l]|] eqn:H; [|done]. injection Hp as ->.
  assert (l = None) as -> by by apply (parse_inner_iff kind awp false false) in H as (rs & _ & _ & _ & _ & _ & _ & ->).
  pose proof (parse_writable _ _ _ _ _ H) as [Hw _]. split_and!; [done|by rewrite (parse_encode _ _ _ _ Hw)|].
  apply (parse_inner_iff kind awp false false) in H as (rs & -> & _ & Hacc & Hf & _).
  destruct (forallb (keeps kind) rs) eqn:Hk.
  - left. rewrite encode_document. f_equal. apply andb_true_iff in Hacc as [[Ha _]%andb_true_iff _].
    apply ascending_unique; [by eapply ascending_sorted|by eapply ascending_sorted, ascending_records|].
    intros t. by rewrite values_records, Hf, kept_values.
  - right. exists rs. apply not_true_iff_false in Hk. rewrite forallb_forall in Hk.
    destruct (decide (Exists (fun r => keeps kind r = false) rs)) as [(r & Hr & Hd)%Exists_exists|Hne]; [by exists r|].
    exfalso. apply Hk. intros r Hr%list_elem_of_In. destruct (keeps kind r) eqn:E; [done|]. exfalso. apply Hne.
    apply Exists_exists. by exists r.
Qed.

(** The padding fills a document to the next multiple of 64 bytes, never past [max], and
    always adds a record when its header fits; when not even that fits it adds nothing. *)
Theorem pad_record_spec n max :
  if (max <? n + 3)%nat then pad_record n max = []
  else n + 3 <= n + length (pad_record n max) <= max
       /\ ((n + length (pad_record n max)) mod PAD_BUCKET = 0 \/ n + length (pad_record n max) = max).
Proof.
  unfold pad_record, pad_record_in. destruct (Nat.ltb_spec max (n + 3)) as [|Hle]; [done|].
  set (fill := (PAD_BUCKET - (n + 3) mod PAD_BUCKET) mod PAD_BUCKET).
  assert (length (push_record PAD (repeat (byte_of 0) (fill `min` (max - 3 - n)))) = 3 + fill `min` (max - 3 - n)) as ->.
  { unfold push_record. simpl. by rewrite List.repeat_length. }
  split; [lia|]. destruct (decide (fill <= max - 3 - n)) as [Hf|Hf]; [left|right; lia].
  rewrite Nat.min_l by done. unfold fill. unfold PAD_BUCKET.
  replace (n + (3 + (64 - (n + 3) mod 64) mod 64)) with ((n + 3) + (64 - (n + 3) mod 64) mod 64) by lia.
  rewrite Nat.Div0.add_mod_idemp_r. pose proof (Nat.mod_upper_bound (n + 3) 64).
  pose proof (Nat.div_mod (n + 3) 64) as Hd.
  replace (n + 3 + (64 - (n + 3) mod 64)) with ((1 + (n + 3) / 64) * 64) by lia. apply Nat.Div0.mod_mul.
Qed.

(** ** Witnesses *)

Definition issue_fields : Fields :=
  set_title (Some "Broken build") (set_body (Some "") (set_imported_url (Some "https://example.org/7") Fields_default)).

Lemma letter_roundtrip_witness :
  parse_letter (encode issue_fields ++ push_recipients [repeat (byte_of 7) 32; repeat (byte_of 9) 32] (Some Writers) ++ pad_record 120 400) DIssue
  = Some (mkLetterTlv issue_fields [repeat (byte_of 7) 32; repeat (byte_of 9) 32] (Some Writers)).
Proof. apply (letter_roundtrip DIssue issue_fields); [reflexivity|reflexivity|by repeat constructor]. Defined.

Lemma parse_strict_witness :
  writable DIssue false false issue_fields = true
  /\ parse (encode issue_fields) DIssue false = Some issue_fields
  /\ (document [(TITLE, bytes "Broken build"); (BODY, []); (IMPORTED_URL, bytes "https://example.org/7"); (PAD, [byte_of 0])]
      = encode issue_fields
      \/ exists rs r, document [(TITLE, bytes "Broken build"); (BODY, []); (IMPORTED_URL, bytes "https://example.org/7"); (PAD, [byte_of 0])]
           = document rs /\ r ∈ rs /\ keeps DIssue r = false).
Proof. apply (parse_strict _ DIssue false). reflexivity. Defined.

(** A burned anchor of a private repository, and a members-only head update. *)
Definition burned_anchor : Fields :=
  set_prev_epoch (Some 3%N) (set_burned true (push_pattern "refs/tags/**" (set_default_branch (Some "main") Fields_default))).
Definition sealed_head : Fields :=
  set_head_oid (Some (repeat (byte_of 5) 20)) (set_oid_salt (Some (repeat (byte_of 6) 32)) Fields_default).

Lemma tlv_roundtrip_witness :
  parse (encode burned_anchor) DConfig true = Some burned_anchor /\ parse_members (encode sealed_head) DEvent = Some sealed_head.
Proof. apply (tlv_roundtrip DConfig true burned_anchor DEvent sealed_head); reflexivity. Defined.
