(* ===== verification/Checks.v ===== *)
(** Required checks and check-run reports ([rules/parity.rs]): whether the runs on a head meet a
    policy, which sources a name is pinned to, and the write that records a CI report. *)
From S2P Require Import Prelude Members.

(** ** Definitions *)

(** *** The newest of each name *)

(** The [BTreeMap] of the newest element per key: an entry is replaced only by a later one. *)
Definition insert_newer {A} (key : A -> string) (c : A -> A -> comparison) (m : gmap string A) (x : A) : gmap string A :=
  if is_none_or (m !! key x) (fun held => match c x held with Gt => true | _ => false end) then <[key x := x]> m else m.

Record CheckRunRow := mkCheckRunRow {
  ru_id : string;
  ru_head_oid : string;
  ru_name : string;
  ru_status : string;
  ru_conclusion : option string;
  ru_reporter : string;
  ru_created_at : N;
  ru_updated_at : option N
}.

Record ChecksPolicy := mkChecksPolicy {
  ck_require_checks : bool;
  ck_required_checks : list string;
  ck_required_check_sources : list string
}.

Inductive CheckState := Passed | Failing | Pending | Missing.

#[export] Instance CheckState_eq_dec : EqDecision CheckState.
Proof. solve_decision. Defined.

Record RequiredCheck := mkRequiredCheck { rc_name : string; rc_state : CheckState; rc_run_id : option string }.

Record ChecksState := mkChecksState { cs_required : list RequiredCheck; cs_met : bool; cs_untrusted : N }.

Definition PASSING_CONCLUSIONS : list string := ["success"; "neutral"; "skipped"].

Definition check_state_of (run : CheckRunRow) : CheckState :=
  if ru_status run == "completed" then
    if is_some_and (ru_conclusion run) (fun c => bool_decide (c ∈ PASSING_CONCLUSIONS)) then Passed else Failing
  else Pending.

(** *** Pinned sources *)

Definition pin_pairs (policy : ChecksPolicy) : list (string * string) :=
  if (length (ck_required_check_sources policy) =? length (ck_required_checks policy))%nat
  then List.filter (fun p => (p.1 != "") && (p.2 != "")) (zip (ck_required_checks policy) (ck_required_check_sources policy))
  else [].

Definition pinned_sources (policy : ChecksPolicy) : gmap string (gset string) :=
  foldl (fun pins (p : string * string) => <[p.1 := {[p.2]} ∪ default ∅ (pins !! p.1)]> pins) ∅ (pin_pairs policy).

(** *** The state of a head's checks *)

Definition run_cmp : CheckRunRow -> CheckRunRow -> comparison :=
  cmp_then (cmp_on ru_created_at N.compare) (cmp_on ru_id String.compare).

Definition trusted (oracle : RoleOracle) (runners : gset string) (who : string) : bool :=
  current_approver oracle who || bool_decide (who ∈ runners).

Definition on_head (head_oid : string) (r : CheckRunRow) : bool :=
  eq_ignore_case (ru_head_oid r) head_oid && (ru_name r != "").

Definition pinned_out (pins : gmap string (gset string)) (run : CheckRunRow) : bool :=
  is_some_and (pins !! ru_name run) (fun sources => negb (bool_decide (ru_reporter run ∈ sources))).

(** One run of the loop: the newest map and the count of untrusted runs. *)
Definition check_step (oracle : RoleOracle) (runners : gset string) (pins : gmap string (gset string))
    (st : gmap string CheckRunRow * N) (run : CheckRunRow) : gmap string CheckRunRow * N :=
  if negb (trusted oracle runners (ru_reporter run)) then (st.1, sat_add_u32 st.2 1)
  else if pinned_out pins run then st
  else (insert_newer ru_name run_cmp st.1 run, st.2).

Definition listed_checks (policy : ChecksPolicy) : gset string :=
  list_to_set (List.filter (fun n => n != "") (ck_required_checks policy)).

Definition required_check (newest : gmap string CheckRunRow) (name : string) : RequiredCheck :=
  match newest !! name with
  | Some run => mkRequiredCheck name (check_state_of run) (Some (ru_id run))
  | None => mkRequiredCheck name Missing None
  end.

Definition checks_state (runs : list CheckRunRow) (head_oid : string) (oracle : RoleOracle) (runners : gset string)
    (policy : ChecksPolicy) : ChecksState :=
  let '(newest, untrusted) :=
    foldl (check_step oracle runners (pinned_sources policy)) (∅, 0%N) (List.filter (on_head head_oid) runs) in
  let listed := listed_checks policy in
  let require_all := bool_decide (listed = ∅) && ck_require_checks policy in
  let names := if require_all then btree_keys newest else btree_elems listed in
  let required := map (required_check newest) names in
  let all_pass := forallb (fun c => rc_state c == Passed) required in
  mkChecksState required (all_pass && negb (require_all && match required with [] => true | _ => false end)) untrusted.

(** *** Reports *)

Record StoredRun := mkStoredRun {
  sr_status : string;
  sr_started_at : option N;
  sr_completed_at : option N;
  sr_conclusion : option string;
  sr_external_id : option string
}.

Record RunReport := mkRunReport {
  rr_status : string;
  rr_conclusion : option string;
  rr_started_at : option N;
  rr_completed_at : option N;
  rr_external_id : option string
}.

Inductive RunWriteAction := Create | Replace.

#[export] Instance RunWriteAction_eq_dec : EqDecision RunWriteAction.
Proof. solve_decision. Defined.

Record RunWrite := mkRunWrite {
  rw_action : RunWriteAction;
  rw_started_at : option N;
  rw_completed_at : option N;
  rw_conclusion : option string;
  rw_external_id : option string
}.

Definition status_rank (status : string) : option N :=
  if status == "queued" then Some 0%N
  else if status == "in_progress" then Some 1%N
  else if status == "completed" then Some 2%N
  else None.

Definition is_none {A} (o : option A) : bool := match o with None => true | Some _ => false end.

Definition continues (stored : StoredRun) (report : RunReport) (rank : N) : bool :=
  match status_rank (sr_status stored) with
  | None => false
  | Some held =>
    let same_run := match sr_external_id stored, rr_external_id report with
                    | Some a, Some b => a == b
                    | _, _ => true
                    end in
    let conclusion_kept := is_none (sr_conclusion stored) || (sr_conclusion stored == rr_conclusion report) in
    same_run && (held <=? rank)%N && conclusion_kept
  end.

(** [held] wins over what is [given]. *)
Definition unset {A} (held given : option A) : option A := match held with Some _ => None | None => given end.

Definition check_run_write (stored : option StoredRun) (report : RunReport) (now_ms : N) : option RunWrite :=
  rank ← status_rank (rr_status report);
  if negb (Bool.eqb (rank =? 2)%N (negb (is_none (rr_conclusion report)))) then None
  else
    let stored := opt_filter (fun s => continues s report rank) stored in
    let held_start := s ← stored; sr_started_at s in
    let held_end := s ← stored; sr_completed_at s in
    let start := match held_start with
                 | Some t => Some t
                 | None => if (1 <=? rank)%N then Some (default now_ms (rr_started_at report)) else None
                 end in
    let end_ := match held_end with
                | Some t => Some t
                | None =>
                  if (rank =? 2)%N then
                    let e := default now_ms (rr_completed_at report) in
                    Some (match start with Some s => N.max e s | None => e end)
                  else None
                end in
    Some (mkRunWrite
            (match stored with Some _ => Replace | None => Create end)
            (unset held_start start) (unset held_end end_)
            (unset (s ← stored; sr_conclusion s) (rr_conclusion report))
            (unset (s ← stored; sr_external_id s) (rr_external_id report))).

(** ** Helper lemmas *)

Section newest.
Context {A : Type} (key : A -> string) (c : A -> A -> comparison) `{!CmpOrd c}.

(** The map holds, for each key, an element of the list that none of that key exceeds. *)
Lemma newest_spec l k :
  match foldl (insert_newer key c) ∅ l !! k with
  | Some x => x ∈ l /\ key x = k /\ forall y, y ∈ l -> key y = k -> c y x <> Gt
  | None => forall y, y ∈ l -> key y <> k
  end.
Proof.
  induction l as [|x l IH] using rev_ind; [simpl; rewrite lookup_empty; by intros y ?%elem_of_nil|].
  rewrite foldl_snoc. set (m := foldl _ _ l) in *. unfold insert_newer.
  assert (forall P : Prop, (key x = k -> P) -> (key x <> k -> P) -> P) as Hcase by (intros P; destruct (decide (key x = k)); auto).
  destruct (is_none_or (m !! key x) _) eqn:Hnew.
  - destruct (decide (key x = k)) as [<-|Hne].
    + rewrite lookup_insert_eq. split_and!; [apply elem_of_app; right; by left|done|].
      intros y [Hy| ->%list_elem_of_singleton]%elem_of_app Hk; [|by rewrite (cmp_refl c)].
      destruct (m !! key x) as [held|]; [|by destruct (IH y Hy)]. simpl in Hnew. destruct IH as (_ & _ & Hmax).
      intros Hgt%(cmp_gt_lt c). destruct (c x held) eqn:Hx; [done..|].
      apply (cmp_gt_lt c) in Hx. apply (Hmax y Hy Hk). apply (cmp_gt_lt c).
      apply (cmp_lt_le_trans c held x y); [done|]. by rewrite Hgt.
    + rewrite lookup_insert_ne by done. destruct (m !! k) as [z|].
      * destruct IH as (Hz & Hk & Hmax). split_and!; [apply elem_of_app; by left|done|].
        intros y [Hy| ->%list_elem_of_singleton]%elem_of_app Hy'; [by apply Hmax|done].
      * intros y [Hy| ->%list_elem_of_singleton]%elem_of_app; [by apply IH|done].
  - destruct (m !! key x) as [held|] eqn:Hheld; [|done]. simpl in Hnew.
    destruct (m !! k) as [z|] eqn:Hz.
    + destruct IH as (Hzl & Hk & Hmax). split_and!; [apply elem_of_app; by left|done|].
      intros y [Hy| ->%list_elem_of_singleton]%elem_of_app Hy'; [by apply Hmax|].
      rewrite Hy', Hz in Hheld. injection Hheld as ->. by destruct (c x held).
    + intros y [Hy| ->%list_elem_of_singleton]%elem_of_app; [by apply IH|]. congruence.
Qed.
End newest.

#[export] Instance run_cmp_ord : CmpOrd run_cmp.
Proof. unfold run_cmp. apply _. Qed.

Lemma filter_filter_andb {A} (p q : A -> bool) l : List.filter q (List.filter p l) = List.filter (fun x => p x && q x) l.
Proof. induction l as [|x l IH]; [done|]. simpl. destruct (p x); simpl; [by destruct (q x); rewrite IH|done]. Qed.

(** Which sources a name is pinned to. *)
Lemma pinned_sources_lookup policy n :
  match pinned_sources policy !! n with
  | Some sources => (exists s, (n, s) ∈ pin_pairs policy) /\ forall s, s ∈ sources <-> (n, s) ∈ pin_pairs policy
  | None => forall s, (n, s) ∉ pin_pairs policy
  end.
Proof.
  unfold pinned_sources. induction (pin_pairs policy) as [|[m t] l IH] using rev_ind.
  { simpl. rewrite lookup_empty. by intros s ?%elem_of_nil. }
  rewrite foldl_snoc. simpl. set (pins := foldl _ _ l) in *. destruct (decide (m = n)) as [-> |Hne].
  - rewrite lookup_insert_eq. split; [exists t; apply elem_of_app; right; by left|]. intros s.
    rewrite elem_of_union, elem_of_singleton, elem_of_app, list_elem_of_singleton.
    destruct (pins !! n) as [old|]; simpl.
    + destruct IH as [_ ->]. split; [intros [-> |?]; auto|intros [?|[= ->]]; auto].
    + split; [intros [-> |[]%elem_of_empty]; by right|]. intros [H|[= ->]]; [by destruct (IH s)|by left].
  - rewrite lookup_insert_ne by done. destruct (pins !! n) as [old|].
    + destruct IH as [[s Hs] Hold]. split; [exists s; apply elem_of_app; by left|]. intros s'. rewrite Hold, elem_of_app, list_elem_of_singleton.
      split; [by left|]. intros [?|[= ? ?]]; [done|congruence].
    + intros s [H|[= ? ?]%list_elem_of_singleton]%elem_of_app; [by apply (IH s)|congruence].
Qed.

Section state.
Context (oracle : RoleOracle) (runners : gset string) (policy : ChecksPolicy) (head_oid : string).

(** A run that may decide its name: on the head, from a trusted reporter, and from one of the
name's sources when it has any. *)
Definition counts (runs : list CheckRunRow) (r : CheckRunRow) : Prop :=
  r ∈ runs /\ on_head head_oid r = true /\ trusted oracle runners (ru_reporter r) = true
  /\ ((exists s, (ru_name r, s) ∈ pin_pairs policy) -> (ru_name r, ru_reporter r) ∈ pin_pairs policy).

(** The newest counting run of its name. *)
Definition decides (runs : list CheckRunRow) (r : CheckRunRow) : Prop :=
  counts runs r /\ forall r', counts runs r' -> ru_name r' = ru_name r -> run_cmp r' r <> Gt.

Lemma pinned_out_spec r :
  pinned_out (pinned_sources policy) r = false <->
  ((exists s, (ru_name r, s) ∈ pin_pairs policy) -> (ru_name r, ru_reporter r) ∈ pin_pairs policy).
Proof.
  unfold pinned_out. pose proof (pinned_sources_lookup policy (ru_name r)) as H.
  destruct (pinned_sources policy !! ru_name r) as [sources|]; simpl.
  - destruct H as [Hex Hin]. rewrite negb_false_iff, bool_decide_eq_true, Hin. split; auto.
  - split; [|done]. intros _ [s Hs]. by destruct (H s).
Qed.

Definition counting (r : CheckRunRow) : bool :=
  trusted oracle runners (ru_reporter r) && negb (pinned_out (pinned_sources policy) r).

Lemma check_fold runs :
  foldl (check_step oracle runners (pinned_sources policy)) (∅, 0%N) runs
  = (foldl (insert_newer ru_name run_cmp) ∅ (List.filter counting runs),
  N.min (N.of_nat (length (List.filter (fun r => negb (trusted oracle runners (ru_reporter r))) runs))) u32_max).
Proof.
  induction runs as [|r runs IH] using rev_ind; [done|].
  rewrite foldl_snoc, IH, !List.filter_app, length_app. unfold check_step. cbn [List.filter fst snd].
  assert (counting r = trusted oracle runners (ru_reporter r) && negb (pinned_out (pinned_sources policy) r)) as -> by done.
  destruct (trusted oracle runners (ru_reporter r)); cbn [negb andb length].
  - rewrite Nat.add_0_r. destruct (pinned_out _ r); cbn [negb]; [by rewrite app_nil_r|by rewrite foldl_snoc].
  - rewrite app_nil_r. f_equal. unfold sat_add_u32. lia.
Qed.

Lemma elem_of_counting runs r : r ∈ List.filter counting (List.filter (on_head head_oid) runs) <-> counts runs r.
Proof.
  rewrite list_elem_of_In, !filter_In, <-list_elem_of_In. unfold counting, counts.
  rewrite andb_true_iff, negb_true_iff, pinned_out_spec. tauto.
Qed.

Lemma newest_decides runs n :
  match foldl (insert_newer ru_name run_cmp) ∅ (List.filter counting (List.filter (on_head head_oid) runs)) !! n with
  | Some r => decides runs r /\ ru_name r = n
  | None => forall r, counts runs r -> ru_name r <> n
  end.
Proof.
  pose proof (newest_spec ru_name run_cmp (List.filter counting (List.filter (on_head head_oid) runs)) n) as H.
  destruct (_ !! n) as [r|].
  - destruct H as (Hr & Hn & Hmax). split; [|done]. split; [by apply elem_of_counting|].
    intros r' Hr'%elem_of_counting Hn'. apply Hmax; [done|]. congruence.
  - intros r Hr%elem_of_counting. by apply H.
Qed.

Definition listed (n : string) : Prop := n ∈ ck_required_checks policy /\ n <> "".
(** Nothing is listed, and every reported check must pass. *)
Definition every_check : Prop := (forall n, ~ listed n) /\ ck_require_checks policy = true.

Lemma elem_of_listed_checks n : n ∈ listed_checks policy <-> listed n.
Proof.
  unfold listed_checks, listed. rewrite elem_of_list_to_set, list_elem_of_In, filter_In, <-list_elem_of_In.
  by rewrite negb_true_iff, bool_decide_eq_false.
Qed.

Lemma require_all_spec : bool_decide (listed_checks policy = ∅) && ck_require_checks policy = true <-> every_check.
Proof.
  unfold every_check. rewrite andb_true_iff, bool_decide_eq_true. setoid_rewrite <-elem_of_listed_checks.
  split; intros [H ?]; (split; [|done]); [rewrite H; intros n; by apply not_elem_of_empty|].
  apply set_eq. intros n. rewrite elem_of_empty. split; [intros Hn; by destruct (H n)|done].
Qed.

Abbreviation newest_of runs :=
  (foldl (insert_newer ru_name run_cmp) ∅ (List.filter counting (List.filter (on_head head_oid) runs))).

(** The names the state lists. *)
Definition required_names (runs : list CheckRunRow) : list string :=
  if bool_decide (listed_checks policy = ∅) && ck_require_checks policy then btree_keys (newest_of runs)
  else btree_elems (listed_checks policy).

Lemma required_names_spec runs :
  (forall n, n ∈ required_names runs <-> listed n \/ (every_check /\ exists r, counts runs r /\ ru_name r = n))
  /\ StronglySorted (fun a b => String.compare a b <> Gt) (required_names runs) /\ NoDup (required_names runs).
Proof.
  unfold required_names. destruct (bool_decide _ && _) eqn:E.
  - apply require_all_spec in E. split_and!; [|apply btree_keys_sorted|apply NoDup_btree_items].
    intros n. rewrite elem_of_btree_keys. pose proof (newest_decides runs n) as H. split.
    + intros [r Hr]. rewrite Hr in H. right. split; [done|]. exists r. by destruct H as [[? _] ?].
    + intros [Hl|(_ & r & Hr & Hn)]; [by destruct (proj1 E n)|]. destruct (_ !! n) as [x|]; [by exists x|]. by destruct (H r Hr).
  - split_and!; [|apply btree_elems_sorted|apply NoDup_btree_elems]. intros n. rewrite elem_of_btree_elems, elem_of_listed_checks.
    split; [by left|]. intros [?|(He%require_all_spec & _)]; [done|congruence].
Qed.

Lemma map_required_name m names : map rc_name (map (required_check m) names) = names.
Proof.
  induction names as [|n names IH]; [done|]. simpl. rewrite IH. f_equal. unfold required_check. by destruct (m !! n).
Qed.

Lemma required_check_spec runs n :
  let c := required_check (newest_of runs) n in
  (exists r, decides runs r /\ ru_name r = rc_name c /\ rc_run_id c = Some (ru_id r) /\ rc_state c = check_state_of r)
  \/ ((forall r, counts runs r -> ru_name r <> rc_name c) /\ rc_run_id c = None /\ rc_state c = Missing).
Proof.
  cbv zeta. unfold required_check. pose proof (newest_decides runs n) as H.
  destruct (newest_of runs !! n) as [r|]; simpl; [left; exists r; by destruct H|by right].
Qed.

(** The checks a policy requires are the names it lists, or every reported name when it only
asks for checks; each stands where the newest run of its name stands, among the runs on the
head by a current approver or runner and, for a pinned name, by one of its sources; with
no such run it is missing. The head meets the policy exactly when all of them passed and,
when nothing is listed, at least one was reported. *)
Theorem checks_state_spec runs :
  let st := checks_state runs head_oid oracle runners policy in
  (forall n, n ∈ map rc_name (cs_required st) <-> listed n \/ (every_check /\ exists r, counts runs r /\ ru_name r = n))
  /\ StronglySorted (fun a b => String.compare a b <> Gt) (map rc_name (cs_required st))
  /\ NoDup (map rc_name (cs_required st))
  /\ (forall c, c ∈ cs_required st ->
   (exists r, decides runs r /\ ru_name r = rc_name c /\ rc_run_id c = Some (ru_id r) /\ rc_state c = check_state_of r)
   \/ ((forall r, counts runs r -> ru_name r <> rc_name c) /\ rc_run_id c = None /\ rc_state c = Missing))
  /\ (cs_met st = true <->
   (forall c, c ∈ cs_required st -> rc_state c = Passed) /\ (every_check -> exists r, counts runs r))
  /\ cs_untrusted st = N.min (N.of_nat (length (List.filter
   (fun r => on_head head_oid r && negb (trusted oracle runners (ru_reporter r))) runs))) u32_max.
Proof.
  cbv zeta. unfold checks_state. rewrite check_fold. fold (required_names runs).
  set (names := required_names runs). pose proof (required_names_spec runs) as (Hin & Hsort & Hnd). fold names in Hin, Hsort, Hnd.
  cbn [cs_required cs_met cs_untrusted]. rewrite map_required_name.
  split_and!; try done.
  - intros c (n & <- & _)%list_elem_of_In%in_map_iff. apply required_check_spec.
  - rewrite andb_true_iff, negb_true_iff, forallb_forall. split.
    + intros [Hall Hne]. split; [intros c Hc%list_elem_of_In; by eapply bool_decide_eq_true_1, Hall|].
      intros He. rewrite (proj2 require_all_spec He) in Hne. simpl in Hne.
      destruct names as [|n ns] eqn:Hnames; [done|].
      destruct (proj1 (Hin n) ltac:(left)) as [Hl|(_ & r & Hr & _)]; [by destruct (proj1 He n)|by exists r].
    + intros [Hall He]. split; [intros c Hc%list_elem_of_In; by apply bool_decide_eq_true_2, Hall|].
      destruct (bool_decide _ && _) eqn:E; [|done]. apply require_all_spec in E. simpl.
      destruct (He E) as [r Hr]. assert (ru_name r ∈ names) as Hr' by (apply Hin; right; split; [done|by exists r]).
      by destruct names; [apply elem_of_nil in Hr'|].
  - by rewrite filter_filter_andb.
Qed.

End state.

(** *** Reports *)

Definition field_or {A} (held given : option A) : option A := match held with Some _ => held | None => given end.

(** The run on chain after a write: a replace sets only what the write carries. *)
Definition apply_write (stored : option StoredRun) (report : RunReport) (w : RunWrite) : StoredRun :=
  match rw_action w, stored with
  | Replace, Some s =>
    mkStoredRun (rr_status report) (field_or (rw_started_at w) (sr_started_at s)) (field_or (rw_completed_at w) (sr_completed_at s))
      (field_or (rw_conclusion w) (sr_conclusion s)) (field_or (rw_external_id w) (sr_external_id s))
  | _, _ => mkStoredRun (rr_status report) (rw_started_at w) (rw_completed_at w) (rw_conclusion w) (rw_external_id w)
  end.

(** The contract's rules for a run: a conclusion and a completion time exactly when completed, a
    start time exactly when no longer queued, and no completion before its start. *)
Definition run_ok (s : StoredRun) : Prop :=
  exists rank, status_rank (sr_status s) = Some rank
  /\ (is_none (sr_conclusion s) = negb (rank =? 2)%N)
  /\ (is_none (sr_completed_at s) = negb (rank =? 2)%N)
  /\ (is_none (sr_started_at s) = negb (1 <=? rank)%N)
  /\ forall a b, sr_started_at s = Some a -> sr_completed_at s = Some b -> (a <= b)%N.

(** A report consensus would take: a known status, and a conclusion exactly when completed. *)
Definition report_ok (r : RunReport) : Prop :=
  exists rank, status_rank (rr_status r) = Some rank /\ is_none (rr_conclusion r) = negb (rank =? 2)%N.

(** [report] carries on the run [s]: the same run, not moving backwards, its conclusion kept. *)
Definition carries_on (s : StoredRun) (report : RunReport) : Prop :=
  (forall a b, sr_external_id s = Some a -> rr_external_id report = Some b -> a = b)
  /\ (exists held rank, status_rank (sr_status s) = Some held /\ status_rank (rr_status report) = Some rank /\ (held <= rank)%N)
  /\ (forall c, sr_conclusion s = Some c -> rr_conclusion report = Some c).

(** What [s] holds, [s'] holds. *)
Definition frozen (s s' : StoredRun) : Prop :=
  (forall t, sr_started_at s = Some t -> sr_started_at s' = Some t)
  /\ (forall t, sr_completed_at s = Some t -> sr_completed_at s' = Some t)
  /\ (forall c, sr_conclusion s = Some c -> sr_conclusion s' = Some c)
  /\ (forall i, sr_external_id s = Some i -> sr_external_id s' = Some i).

Lemma continues_spec s report rank :
  status_rank (rr_status report) = Some rank -> continues s report rank = true <-> carries_on s report.
Proof.
  intros Hr. unfold continues, carries_on. rewrite Hr. destruct (status_rank (sr_status s)) as [held|].
  - rewrite !andb_true_iff, orb_true_iff, N.leb_le, bool_decide_eq_true. split.
    + intros [[Hid Hle] Hc]. split_and!; [|by exists held, rank|].
      * intros a b Ha Hb. rewrite Ha, Hb in Hid. by apply bool_decide_eq_true in Hid.
      * intros c Hsc. destruct Hc as [Hc|Hc]; [by rewrite Hsc in Hc|by rewrite <-Hc].
    + intros (Hid & (h & k & [= <-] & [= <-] & Hle) & Hc). split; [split; [|done]|].
      * destruct (sr_external_id s) as [a|], (rr_external_id report) as [b|]; try done. apply bool_decide_eq_true. by apply Hid.
      * destruct (sr_conclusion s) as [c|]; [|by left]. right. symmetry. by apply Hc.
  - split; [done|]. intros (_ & (h & k & ? & _) & _). done.
Qed.

Lemma status_rank_cases status rank : status_rank status = Some rank -> rank = 0%N \/ rank = 1%N \/ rank = 2%N.
Proof. unfold status_rank. repeat case_bool_decide; intros [= <-]; auto. Qed.

Lemma report_ok_spec report :
  report_ok report <-> exists rank, status_rank (rr_status report) = Some rank
    /\ Bool.eqb (rank =? 2)%N (negb (is_none (rr_conclusion report))) = true.
Proof.
  unfold report_ok. split; intros (rank & Hr & Hc); exists rank; (split; [done|]);
    by destruct (rank =? 2)%N, (is_none (rr_conclusion report)).
Qed.

(** The write for a stored run that the report carries on, or for none. *)
Lemma write_effect stored report now :
  report_ok report -> (forall s, stored = Some s -> run_ok s /\ carries_on s report) ->
  exists w, check_run_write stored report now = Some w
    /\ rw_action w = match stored with Some _ => Replace | None => Create end
    /\ run_ok (apply_write stored report w)
    /\ sr_status (apply_write stored report w) = rr_status report
    /\ forall s, stored = Some s -> frozen s (apply_write stored report w).
Proof.
  intros Hok Hst. apply report_ok_spec in Hok as (rank & Hrank & Hc). unfold check_run_write. rewrite Hrank. cbn [mbind option_bind].
  rewrite Hc. cbn [negb].
  assert (opt_filter (fun s => continues s report rank) stored = stored) as ->.
  { destruct stored as [s|]; [|done]. simpl. destruct (Hst s eq_refl) as [_ Hcar%(continues_spec _ _ _ Hrank)]. by rewrite Hcar. }
  eexists. split; [done|]. destruct stored as [s|]; unfold apply_write; cbn [rw_action mbind option_bind].
  - destruct (Hst s eq_refl) as [(held & Hh & Hsc & Hse & Hss & Hle) (_ & (h & k & Hh' & Hk & Hhk) & Hcc)].
    rewrite Hh in Hh'. injection Hh' as <-. rewrite Hrank in Hk. injection Hk as <-. destruct s as [st sa so sc si]. simpl in *.
    assert (forall t, so = Some t -> rank = 2%N) as H2.
    { intros t ->. apply status_rank_cases in Hh as [-> |[-> | ->]]; try done.
      apply status_rank_cases in Hrank as [-> |[-> | ->]]; [lia..|done]. }
    split_and!; [done| |done|].
    + exists rank. split; [done|]. clear Hst Hh. apply status_rank_cases in Hrank as [-> |[-> | ->]];
        destruct sa as [a|], so as [b|], sc as [c|]; simpl in *; try (specialize (H2 _ eq_refl); done);
        try (by destruct held as [|[|[]|]]); (split_and!; try done);
        try (destruct (rr_conclusion report); done); try (intros ? ? [= <-] [= <-]; try lia; by apply Hle).
    + intros ? [= <-]. unfold frozen. simpl. by destruct sa, so, sc, si.
  - split_and!; [done| |done|done]. exists rank. simpl. split; [done|].
    apply status_rank_cases in Hrank as [-> |[-> | ->]]; simpl in *; split_and!; try done;
      try (destruct (rr_conclusion report); done); try (intros ? ? [= <-] [= <-]; lia).
Qed.

(** The write against a stored run: a replace when the report carries it on, else a create. *)
Lemma write_cases stored report now :
  (forall s, stored = Some s -> run_ok s) -> report_ok report ->
  exists w, check_run_write stored report now = Some w
    /\ run_ok (apply_write stored report w)
    /\ (rw_action w = Replace <-> exists s, stored = Some s /\ carries_on s report)
    /\ (forall s, stored = Some s -> rw_action w = Replace -> frozen s (apply_write stored report w)).
Proof.
  intros Hs Hok. assert (Hok' := Hok). destruct Hok' as (rank & Hrank & _). destruct stored as [s|].
  - destruct (continues s report rank) eqn:Hcont.
    + apply (continues_spec _ _ _ Hrank) in Hcont.
      destruct (write_effect (Some s) report now Hok) as (w & Hw & Ha & Hr & _ & Hf); [intros ? [= <-]; by split; [apply Hs|]|].
      exists w. split_and!; [done..| |by intros ? [= <-] _; apply Hf]. split; [by exists s|done].
    + destruct (write_effect None report now Hok) as (w & Hw & Ha & Hr & _); [done|]. exists w.
      assert (check_run_write (Some s) report now = Some w) as ->.
      { rewrite <-Hw. unfold check_run_write. rewrite Hrank. cbn [mbind option_bind opt_filter]. by rewrite Hcont. }
      split_and!; [done| | |by rewrite Ha].
      * unfold apply_write in *. by rewrite Ha in *.
      * rewrite Ha. split; [done|]. intros (? & [= <-] & Hcar%(continues_spec _ _ _ Hrank)). congruence.
  - destruct (write_effect None report now Hok) as (w & Hw & Ha & Hr & _); [done|].
    exists w. split_and!; [done..| |done]. rewrite Ha. by split; [|intros (? & ? & _)].
Qed.

(** The runs reports lead to, from nothing. *)
Inductive recorded : StoredRun -> Prop :=
| recorded_first report now w :
    check_run_write None report now = Some w -> recorded (apply_write None report w)
| recorded_next s report now w :
    recorded s -> check_run_write (Some s) report now = Some w -> recorded (apply_write (Some s) report w).

Lemma check_run_write_Some stored report now w : check_run_write stored report now = Some w -> report_ok report.
Proof.
  intros H. apply report_ok_spec. unfold check_run_write in H. destruct (status_rank _) as [rank|]; [|done].
  exists rank. split; [done|]. cbn [mbind option_bind] in H. by destruct (Bool.eqb _ _).
Qed.

(** The write of a report keeps the contract's rules for runs. It is refused only for a
    report the contract would refuse. It replaces the stored run exactly when the report
    carries that run on, and then every time, conclusion and run id already set stays; any
    other report is a new run. *)
Theorem check_run_write_spec stored report now (Hs : forall s, stored = Some s -> run_ok s) :
  (check_run_write stored report now = None <-> ~ report_ok report)
  /\ forall w, check_run_write stored report now = Some w ->
       run_ok (apply_write stored report w)
       /\ (rw_action w = Replace <-> exists s, stored = Some s /\ carries_on s report)
       /\ (forall s, stored = Some s -> rw_action w = Replace -> frozen s (apply_write stored report w)).
Proof.
  split.
  - split; [|intros Hn; destruct (check_run_write _ _ _) eqn:H; [by apply check_run_write_Some in H|done]].
    intros Hnone Hok. destruct (write_cases stored report now Hs Hok) as (w & Hw & _). congruence.
  - intros w Hw. pose proof (check_run_write_Some _ _ _ _ Hw) as Hok.
    destruct (write_cases stored report now Hs Hok) as (w' & Hw' & H). rewrite Hw in Hw'. by injection Hw' as <-.
Qed.

(** However reports arrive, a recorded run obeys the contract's rules: it has a conclusion
    and a completion time exactly when completed, a start time exactly when it left the
    queue, and never completes before it starts. *)
Theorem recorded_run_ok s (H : recorded s) : run_ok s.
Proof.
  induction H as [report now w Hw|s report now w _ IH Hw]; pose proof (check_run_write_Some _ _ _ _ Hw) as Hok.
  - destruct (write_cases None report now ltac:(done) Hok) as (w' & Hw' & Hr & _). rewrite Hw in Hw'. by injection Hw' as <-.
  - assert (forall s', Some s = Some s' -> run_ok s') as Hs by by intros ? [= <-].
    destruct (write_cases (Some s) report now Hs Hok) as (w' & Hw' & Hr & _). rewrite Hw in Hw'. by injection Hw' as <-.
Qed.

(** ** Witnesses *)

Definition queued_run : StoredRun := mkStoredRun "queued" None None None (Some "7").
Definition done_report : RunReport := mkRunReport "completed" (Some "success") None (Some 5%N) None.

Lemma check_run_write_spec_witness :
  (check_run_write (Some queued_run) done_report 9 = None <-> ~ report_ok done_report)
  /\ forall w, check_run_write (Some queued_run) done_report 9 = Some w ->
       run_ok (apply_write (Some queued_run) done_report w)
       /\ (rw_action w = Replace <-> exists s, Some queued_run = Some s /\ carries_on s done_report)
       /\ (forall s, Some queued_run = Some s -> rw_action w = Replace -> frozen s (apply_write (Some queued_run) done_report w)).
Proof.
  apply (check_run_write_spec (Some queued_run) done_report 9). intros ? [= <-].
  exists 0%N. by split_and!.
Defined.

Lemma recorded_run_ok_witness : run_ok (mkStoredRun "completed" (Some 9%N) (Some 9%N) (Some "success") (Some "7")).
Proof.
  apply recorded_run_ok.
  apply (recorded_next queued_run done_report 9 (mkRunWrite Replace (Some 9%N) (Some 9%N) (Some "success") None)); [|reflexivity].
  apply (recorded_first (mkRunReport "queued" None None None (Some "7")) 3 (mkRunWrite Create None None None (Some "7"))).
  reflexivity.
Defined.
