(* ===== verification/Threads.v ===== *)
(** Milestones, pins and trending ([rules/parity.rs]): an issue's or pull request's milestone and
    pin, a repository's pinned threads and milestones, and the window and the ranking of a
    trending read. *)
From S2P Require Import Prelude Events ReviewFold Checks.

(** ** Definitions *)

Record ThreadMeta := mkThreadMeta {
  tm_milestone : option string;
  tm_pinned : bool;
  tm_pinned_at : option N;
  tm_locked : bool
}.

Definition ThreadMeta_default : ThreadMeta := mkThreadMeta None false None false.

Definition thread_step (m : ThreadMeta) (e : Event) : ThreadMeta :=
  match e_kind e with
  | MilestoneSet =>
    match opt_filter (fun v => v != "") (e_value e) with
    | Some v => mkThreadMeta (Some v) (tm_pinned m) (tm_pinned_at m) (tm_locked m)
    | None => m
    end
  | MilestoneClear => mkThreadMeta None (tm_pinned m) (tm_pinned_at m) (tm_locked m)
  | Pin => mkThreadMeta (tm_milestone m) true (Some (e_created_at e)) (tm_locked m)
  | Unpin => mkThreadMeta (tm_milestone m) false None (tm_locked m)
  | Lock => mkThreadMeta (tm_milestone m) (tm_pinned m) (tm_pinned_at m) true
  | Unlock => mkThreadMeta (tm_milestone m) (tm_pinned m) (tm_pinned_at m) false
  | _ => m
  end.

Definition fold_thread_meta_v2 (events : list Event) : ThreadMeta :=
  foldl thread_step ThreadMeta_default (sort_by event_order events).

Record PinnedTarget := mkPinnedTarget { pt_target_id : string; pt_pinned_at : N }.

Definition is_pin_kind (e : Event) : bool := (e_kind e == Pin) || (e_kind e == Unpin).

Definition pin_step (state : gmap string (option N)) (e : Event) : gmap string (option N) :=
  <[e_target_id e := if e_kind e == Pin then Some (e_created_at e) else None]> state.

Definition pinned_cmp : PinnedTarget -> PinnedTarget -> comparison :=
  cmp_then (cmp_rev (cmp_on pt_pinned_at N.compare)) (cmp_on pt_target_id String.compare).

Definition pinned_targets (events : list Event) : list PinnedTarget :=
  let log := sort_by event_order (List.filter (fun e => is_pin_kind e && (e_target_id e != "")) events) in
  let state := foldl pin_step ∅ log in
  sort_by pinned_cmp (omap (fun p => mkPinnedTarget p.1 <$> p.2) (btree_items state)).

Record MilestoneDoc := mkMilestoneDoc {
  md_id : string;
  md_title : string;
  md_description : option string;
  md_due_on : option N;
  md_closed : bool;
  md_created_at : N
}.

Record MilestoneItem := mkMilestoneItem { mi_open : bool; mi_milestone : option string }.

Record Milestone := mkMilestone {
  ms_id : string;
  ms_title : string;
  ms_description : string;
  ms_due_on : option N;
  ms_closed : bool;
  ms_open : N;
  ms_closed_items : N
}.

Definition doc_cmp : MilestoneDoc -> MilestoneDoc -> comparison :=
  cmp_then (cmp_on md_created_at N.compare) (cmp_on md_id String.compare).

(** One item counted under its title: open, closed. *)
Definition count_item (counts : gmap string (N * N)) (item : MilestoneItem) : gmap string (N * N) :=
  match mi_milestone item with
  | None => counts
  | Some title =>
    let c := default (0, 0)%N (counts !! title) in
    <[title := if mi_open item then (sat_add_u32 c.1 1, c.2) else (c.1, sat_add_u32 c.2 1)]> counts
  end.

Definition milestone_row (counts : gmap string (N * N)) (p : string * MilestoneDoc) : Milestone :=
  let c := default (0, 0)%N (counts !! p.1) in
  mkMilestone (md_id p.2) p.1 (default "" (md_description p.2)) (md_due_on p.2) (md_closed p.2) c.1 c.2.

Definition fold_milestones_v2 (docs : list MilestoneDoc) (items : list MilestoneItem) : list Milestone :=
  let newest := foldl (insert_newer md_title doc_cmp) ∅ (List.filter (fun d => md_title d != "") docs) in
  let counts := foldl count_item ∅ items in
  map (milestone_row counts) (btree_items newest).

(** *** Trending *)

Record TimeGrid := mkTimeGrid { tg_range : N; tg_step : N; tg_phase : N }.

Definition STAR_BEAT_GRID : TimeGrid := mkTimeGrid 604800 86400 0.

Inductive TrendingSelector := Newest | Oldest | All.

#[export] Instance TrendingSelector_eq_dec : EqDecision TrendingSelector.
Proof. solve_decision. Defined.

Record Window := mkWindow { w_start : N; w_end : N }.

Definition trending_window (grid : TimeGrid) (now_ms : N) (selector : TrendingSelector) : option Window :=
  let range := sat_mul_u64 (tg_range grid) 1000 in
  let step := sat_mul_u64 (tg_step grid) 1000 in
  let phase := sat_mul_u64 (tg_phase grid) 1000 in
  if (step =? 0)%N || (now_ms <? phase)%N then None
  else
    match match selector with
          | Newest => Some 0%N
          | Oldest => Some (sat_mul_u64 (sat_sub (range / step) 1) step)
          | All => None
          end with
    | None => None
    | Some back =>
      let newest := (phase + (now_ms - phase) / step * step)%N in
      let start := N.max (sat_sub newest back) phase in
      Some (mkWindow start (sat_add_u64 start range))
    end.

Record StarBeat := mkStarBeat { sb_repo : string; sb_created_at : N }.
Record TrendingEntry := mkTrendingEntry { te_repo : string; te_count : N }.

Definition inside (window : option Window) (b : StarBeat) : bool :=
  is_none_or window (fun w => (w_start w <=? sb_created_at b)%N && (sb_created_at b <? w_end w)%N).

(** [+= 1]: a count of documents, far below 2^64. *)
Definition count_beat (counts : gmap string N) (b : StarBeat) : gmap string N :=
  let repo := to_lower (sb_repo b) in <[repo := (default 0 (counts !! repo) + 1)%N]> counts.

Definition entry_cmp : TrendingEntry -> TrendingEntry -> comparison :=
  cmp_then (cmp_rev (cmp_on te_count N.compare)) (cmp_rev (cmp_on te_repo String.compare)).

Definition trending_recount (beats : list StarBeat) (grid : TimeGrid) (now_ms : N) (selector : TrendingSelector)
    (limit : nat) : list TrendingEntry :=
  let window := trending_window grid now_ms selector in
  match window, selector with
  | None, (Newest | Oldest) => []
  | _, _ =>
    let counts := foldl count_beat ∅ (List.filter (fun b => inside window b && (sb_repo b != "")) beats) in
    take limit (sort_by entry_cmp (map (fun p => mkTrendingEntry p.1 p.2) (btree_items counts)))
  end.

(** ** Helper lemmas *)

#[export] Instance doc_cmp_ord : CmpOrd doc_cmp.
Proof. unfold doc_cmp. apply _. Qed.
#[export] Instance pinned_cmp_ord : CmpOrd pinned_cmp.
Proof. unfold pinned_cmp. apply _. Qed.
#[export] Instance entry_cmp_ord : CmpOrd entry_cmp.
Proof. unfold entry_cmp. apply _. Qed.

(** What an event says about a pin: when it was made, or that it is gone. *)
Definition pin_of (e : Event) : option (option N) :=
  match e_kind e with Pin => Some (Some (e_created_at e)) | Unpin => Some None | _ => None end.

Definition lock_of (e : Event) : option bool :=
  match e_kind e with Lock => Some true | Unlock => Some false | _ => None end.

Lemma foldl_last {S T A} (step : S -> A -> S) (proj : S -> T) (says : A -> option T) s0 d :
  proj s0 = d -> (forall s e, proj (step s e) = default (proj s) (says e)) ->
  forall log, proj (foldl step s0 log) = default d (last (omap says log)).
Proof.
  intros H0 Hstep log. induction log as [|e log IH] using rev_ind; [done|].
  rewrite foldl_snoc, Hstep, IH, omap_app. simpl. destruct (says e); simpl; [by rewrite last_snoc|by rewrite app_nil_r].
Qed.

Ltac by_event := intros [] e; unfold thread_step, milestone_of, pin_of, lock_of, non_empty; simpl;
  destruct (e_kind e); simpl; try done; by destruct (opt_filter _ _).

Lemma thread_milestone log : tm_milestone (foldl thread_step ThreadMeta_default log) = default None (last (omap milestone_of log)).
Proof. apply (foldl_last thread_step tm_milestone milestone_of); [done|]. by_event. Qed.
Lemma thread_pinned_at log : tm_pinned_at (foldl thread_step ThreadMeta_default log) = default None (last (omap pin_of log)).
Proof. apply (foldl_last thread_step tm_pinned_at pin_of); [done|]. by_event. Qed.
Lemma thread_locked log : tm_locked (foldl thread_step ThreadMeta_default log) = default false (last (omap lock_of log)).
Proof. apply (foldl_last thread_step tm_locked lock_of); [done|]. by_event. Qed.

Lemma thread_pinned log :
  let m := foldl thread_step ThreadMeta_default log in tm_pinned m = is_some_and (tm_pinned_at m) (fun _ => true).
Proof.
  cbv zeta. induction log as [|e log IH] using rev_ind; [done|]. rewrite !foldl_snoc. unfold thread_step at 1 3.
  destruct (e_kind e); try exact IH; try done. by destruct (opt_filter _ _).
Qed.

Lemma default_None_Some {A} (o : option (option A)) x : default None o = Some x <-> o = Some (Some x).
Proof. destruct o as [[y|]|]; simpl; split; congruence. Qed.

(** The entry of a target is what its own log says. *)
Lemma pin_state_lookup events k :
  k <> "" ->
  foldl pin_step ∅ (sort_by event_order (List.filter (fun e => is_pin_kind e && (e_target_id e != "")) events)) !! k
  = last (omap pin_of (sort_by event_order (List.filter (fun e => e_target_id e == k) events))).
Proof.
  intros Hk.
  assert (forall log, foldl pin_step ∅ log
    = foldl (fun (m : gmap string (option N)) e =>
        match Some (e_target_id e, if e_kind e == Pin then Some (e_created_at e) else None) with
        | Some (k', v) => <[k' := v]> m | None => m end) ∅ log) as -> by done.
  rewrite (foldl_insert_lookup (fun e => Some (e_target_id e, if e_kind e == Pin then Some (e_created_at e) else None))).
  rewrite <-!sort_by_filter, !omap_filter by apply _. f_equal. apply omap_ext. intros e. unfold is_pin_kind, pin_of. simpl.
  destruct (decide (e_target_id e = k)) as [Heq|Hne].
  - rewrite Heq, (bool_decide_eq_true_2 (k = k)), (bool_decide_eq_false_2 (k = "")) by done. by destruct (e_kind e).
  - rewrite (bool_decide_eq_false_2 (_ = k)) by done. by destruct (_ && _).
Qed.

Lemma pin_state_empty events :
  foldl pin_step ∅ (sort_by event_order (List.filter (fun e => is_pin_kind e && (e_target_id e != "")) events)) !! "" = None.
Proof.
  assert (forall (log : list Event) (m : gmap string (option N)),
    (forall e, e ∈ log -> e_target_id e <> "") -> m !! "" = None -> foldl pin_step m log !! "" = None) as H.
  { induction log as [|e log IH]; intros m Hlog Hm; [done|]. simpl. apply IH.
    - intros e' He'. apply Hlog. by right.
    - unfold pin_step. rewrite lookup_insert_ne; [done|]. apply Hlog. by left. }
  apply H; [|apply lookup_empty]. intros e. rewrite elem_of_sort_by, list_elem_of_In, filter_In.
  by intros [_ [_ ?%negb_true_iff%bool_decide_eq_false]%andb_true_iff].
Qed.

(** The items of a title, saturated: the counters of the loop. *)
Definition items_of (title : string) (open_ : bool) (items : list MilestoneItem) : N :=
  N.min (N.of_nat (length (List.filter (fun i => (mi_milestone i == Some title) && Bool.eqb (mi_open i) open_) items))) u32_max.

Lemma count_items_lookup items title :
  default (0, 0)%N (foldl count_item ∅ items !! title) = (items_of title true items, items_of title false items).
Proof.
  induction items as [|i items IH] using rev_ind; [done|]. rewrite foldl_snoc. unfold items_of in *.
  rewrite !List.filter_app, !length_app. set (counts := foldl count_item ∅ items) in *. unfold count_item. cbn [List.filter].
  destruct (mi_milestone i) as [u|]; [|simpl; by rewrite !Nat.add_0_r].
  destruct (decide (u = title)) as [->|Hne].
  - rewrite lookup_insert_eq, IH, bool_decide_eq_true_2 by done. simpl. unfold sat_add_u32.
    destruct (mi_open i); simpl; f_equal; lia.
  - rewrite lookup_insert_ne, IH, bool_decide_eq_false_2 by congruence. simpl. by rewrite !Nat.add_0_r.
Qed.

(** The stars of a repository inside the window. *)
Definition stars (window : option Window) (beats : list StarBeat) (repo : string) : N :=
  N.of_nat (length (List.filter (fun b => inside window b && (sb_repo b != "") && (to_lower (sb_repo b) == repo)) beats)).

Lemma count_beats_lookup beats repo :
  default 0%N (foldl count_beat ∅ beats !! repo)
  = N.of_nat (length (List.filter (fun b => to_lower (sb_repo b) == repo) beats))
  /\ (foldl count_beat ∅ beats !! repo <> Some 0%N).
Proof.
  induction beats as [|b beats [IH IH0]] using rev_ind; [done|].
  rewrite foldl_snoc, List.filter_app, length_app. unfold count_beat at 1 3. cbn [List.filter].
  destruct (decide (to_lower (sb_repo b) = repo)) as [->|Hne].
  - rewrite lookup_insert_eq, IH, bool_decide_eq_true_2 by done. simpl. split; [lia|]. intros [=]. lia.
  - rewrite lookup_insert_ne, bool_decide_eq_false_2 by done. simpl. split; [rewrite IH; lia|done].
Qed.

Lemma beats_count window beats repo n :
  foldl count_beat ∅ (List.filter (fun b => inside window b && (sb_repo b != "")) beats) !! repo = Some n <->
  n = stars window beats repo /\ (0 < n)%N.
Proof.
  set (l := List.filter _ beats). pose proof (count_beats_lookup l repo) as [Hc H0].
  assert (N.of_nat (length (List.filter (fun b => to_lower (sb_repo b) == repo) l)) = stars window beats repo) as Heq.
  { unfold stars, l. by rewrite filter_filter_andb. }
  rewrite Heq in Hc. destruct (foldl count_beat ∅ l !! repo) as [m|]; simpl in Hc.
  - subst m. split; [intros [= <-]|by intros [-> _]]. split; [done|]. destruct (decide (stars window beats repo = 0)%N); [congruence|lia].
  - split; [done|]. intros [-> ?]. lia.
Qed.

(** ** Theorems *)

(** A thread's milestone, pin and lock are each what the newest event about it says: the
    newest set (with a name) or clear, the newest pin or unpin, the newest lock or unlock. *)
Theorem fold_thread_meta_spec events :
  let m := fold_thread_meta_v2 events in
  let log := sort_by event_order events in
  (forall v, tm_milestone m = Some v <->
     exists e, newest (fun e => milestone_of e <> None) log e /\ milestone_of e = Some (Some v))
  /\ (forall t, tm_pinned_at m = Some t <->
     exists e, newest (fun e => pin_of e <> None) log e /\ e_kind e = Pin /\ e_created_at e = t)
  /\ tm_pinned m = is_some_and (tm_pinned_at m) (fun _ => true)
  /\ (tm_locked m = true <-> exists e, newest (fun e => lock_of e <> None) log e /\ e_kind e = Lock).
Proof.
  cbv zeta. unfold fold_thread_meta_v2. set (log := sort_by event_order events). split_and!.
  - intros v. by rewrite thread_milestone, default_None_Some, last_newest.
  - intros t. rewrite thread_pinned_at, default_None_Some, last_newest. unfold pin_of at 2.
    split; intros (e & Hn & He); exists e; (split; [done|]); [destruct (e_kind e); try done; by injection He|].
    destruct He as [-> ->]. done.
  - apply thread_pinned.
  - rewrite thread_locked. transitivity (last (omap lock_of log) = Some true).
    { by destruct (last (omap lock_of log)) as [[]|]. }
    rewrite last_newest. unfold lock_of at 2.
    split; intros (e & Hn & He); exists e; (split; [done|]); [by destruct (e_kind e)|by rewrite He].
Qed.

(** The pinned threads of a repository are exactly those whose own log ends pinned, at the
    time their own log says; each is listed once, the newest pin first and equal times by
    id. *)
Theorem pinned_targets_spec events :
  (forall k t, mkPinnedTarget k t ∈ pinned_targets events <->
     k <> "" /\ tm_pinned_at (fold_thread_meta_v2 (List.filter (fun e => e_target_id e == k) events)) = Some t)
  /\ NoDup (map pt_target_id (pinned_targets events))
  /\ StronglySorted (fun a b => pinned_cmp a b <> Gt) (pinned_targets events).
Proof.
  unfold pinned_targets. set (state := foldl pin_step ∅ _). split_and!.
  - intros k t. rewrite elem_of_sort_by, list_elem_of_omap. unfold fold_thread_meta_v2. rewrite thread_pinned_at, default_None_Some.
    transitivity (state !! k = Some (Some t)).
    + split.
      * intros ([k' o] & Hin%elem_of_btree_items & Heq). destruct o as [t'|]; [|done]. simpl in *. by injection Heq as <- <-.
      * intros Hk. exists (k, Some t). split; [by apply elem_of_btree_items|done].
    + destruct (decide (k = "")) as [->|Hk].
      * unfold state. rewrite pin_state_empty. split; [done|]. by intros [? _].
      * unfold state. rewrite pin_state_lookup by done. by split; [|intros [_ ?]].
  - rewrite sort_by_perm. pose proof (NoDup_btree_items state) as Hnd. revert Hnd.
    induction (btree_items state) as [|[k o] l IH]; [done|]. simpl. intros [Hk Hl]%NoDup_cons.
    destruct o as [t|]; simpl; [|by apply IH]. apply NoDup_cons. split; [|by apply IH]. intros Hin. apply Hk.
    apply list_elem_of_In, in_map_iff in Hin as (p & Hp & Hin%list_elem_of_In).
    apply list_elem_of_omap in Hin as ([k' o'] & Hin & Heq). destruct o' as [t'|]; [|done]. simpl in Heq.
    injection Heq as <-. simpl in Hp. subst. apply list_elem_of_In, in_map_iff. exists (k, Some t'). split; [done|by apply list_elem_of_In].
  - apply sort_by_sorted, _.
Qed.

(** A repository has one milestone per title, in title order: its newest definition, with
    the open and the closed items that name it. *)
Theorem fold_milestones_v2_spec docs items :
  let out := fold_milestones_v2 docs items in
  (forall m, m ∈ out -> exists d, d ∈ docs /\ md_title d <> ""
     /\ (forall d', d' ∈ docs -> md_title d' = md_title d -> doc_cmp d' d <> Gt)
     /\ m = mkMilestone (md_id d) (md_title d) (default "" (md_description d)) (md_due_on d) (md_closed d)
              (items_of (md_title d) true items) (items_of (md_title d) false items))
  /\ (forall d, d ∈ docs -> md_title d <> "" -> exists m, m ∈ out /\ ms_title m = md_title d)
  /\ NoDup (map ms_title out)
  /\ StronglySorted (fun a b => String.compare a b <> Gt) (map ms_title out).
Proof.
  cbv zeta. unfold fold_milestones_v2. set (newest := foldl (insert_newer md_title doc_cmp) ∅ _).
  assert (map ms_title (map (milestone_row (foldl count_item ∅ items)) (btree_items newest)) = btree_keys newest) as Htitles
    by by rewrite map_map.
  rewrite Htitles. split_and!; [| |apply NoDup_btree_items|apply btree_keys_sorted].
  - intros m ([k d] & <- & Hin%list_elem_of_In%elem_of_btree_items)%list_elem_of_In%in_map_iff. simpl.
    pose proof (newest_spec md_title doc_cmp (List.filter (fun d => md_title d != "") docs) k) as H. fold newest in H.
    rewrite Hin in H. destruct H as ([Hd Ht%negb_true_iff%bool_decide_eq_false]%list_elem_of_In%filter_In & <- & Hmax).
    exists d. split_and!; [by apply list_elem_of_In|done| |by unfold milestone_row; rewrite count_items_lookup].
    intros d' Hd' Htitle. apply Hmax; [|done]. apply list_elem_of_In, filter_In. rewrite Htitle.
    split; [by apply list_elem_of_In|]. by rewrite bool_decide_eq_false_2.
  - intros d Hd Ht. pose proof (newest_spec md_title doc_cmp (List.filter (fun d => md_title d != "") docs) (md_title d)) as H.
    fold newest in H. destruct (newest !! md_title d) as [d'|] eqn:E.
    + exists (milestone_row (foldl count_item ∅ items) (md_title d, d')). split; [|done].
      apply list_elem_of_In, in_map_iff. exists (md_title d, d'). split; [done|]. by apply list_elem_of_In, elem_of_btree_items.
    + exfalso. apply (H d); [|done]. apply list_elem_of_In, filter_In. split; [by apply list_elem_of_In|].
      by rewrite bool_decide_eq_false_2.
Qed.

(** For a grid whose windows are whole steps, a trending window is aligned to the grid and
    contains the present; the newest one started less than a step ago, and the oldest one is the
    earliest aligned window that still contains the present. *)
Theorem trending_window_spec grid now selector w
    (Hw : trending_window grid now selector = Some w)
    (Hstep : exists k, (0 < k)%N /\ tg_range grid = (k * tg_step grid)%N)
    (Hfit : (tg_range grid * 1000 + now <= u64_max)%N) (Hphase : (tg_phase grid * 1000 <= u64_max)%N) :
  let step := (tg_step grid * 1000)%N in let range := (tg_range grid * 1000)%N in let phase := (tg_phase grid * 1000)%N in
  (exists i, w_start w = phase + i * step)%N
  /\ w_end w = (w_start w + range)%N
  /\ (w_start w <= now < w_end w)%N
  /\ (selector = Newest -> (now < w_start w + step)%N)
  /\ (selector = Oldest -> forall i, (now < phase + i * step + range)%N -> (w_start w <= phase + i * step)%N).
Proof.
  destruct Hstep as (k & Hk & Hr). cbv zeta. revert Hw. unfold trending_window, sat_mul_u64, sat_add_u64, sat_sub.
  rewrite Hr in *. set (step := (tg_step grid * 1000)%N). set (phase := (tg_phase grid * 1000)%N) in *.
  assert (k * tg_step grid * 1000 = k * step)%N as Hrange by (unfold step; lia). rewrite Hrange in *.
  assert (step <= k * step)%N as Hle by nia. clearbody step phase. clear Hr Hrange.
  rewrite !(N.min_l phase), (N.min_l step), (N.min_l (k * step)) by lia.
  destruct (N.eqb_spec step 0) as [|Hs]; [done|]. destruct (N.ltb_spec now phase) as [|Hn]; [done|]. simpl.
  rewrite N.div_mul by done. set (q := ((now - phase) / step)%N).
  assert (q * step <= now - phase < (q + 1) * step)%N as [Hq1 Hq2].
  { unfold q. rewrite N.add_1_r, !(N.mul_comm _ step). split; [apply N.Div0.mul_div_le|by apply N.mul_succ_div_gt]. }
  destruct selector; simpl; [| |done]; intros [= <-]; cbn [w_start w_end].
  - rewrite N.sub_0_r, (N.max_l _ phase), N.min_l by lia.
    split_and!; [by exists q|done|lia|nia|lia|done].
  - assert ((k - 1) * step <= u64_max)%N as Hback by (rewrite N.mul_sub_distr_r, N.mul_1_l; lia). rewrite (N.min_l _ _ Hback).
    assert (phase + q * step - (k - 1) * step = phase + q * step - (k * step - step))%N as ->
      by by rewrite N.mul_sub_distr_r, N.mul_1_l.
    set (start := N.max _ phase).
    assert (exists i, start = phase + i * step /\ q < i + k /\ (0 < i -> i + k = q + 1) /\ i <= q)%N as (i & -> & Hi1 & Hi2 & Hi3).
    { unfold start. destruct (decide (k <= q + 1)%N) as [Hkq|Hkq].
      - exists (q + 1 - k)%N. split_and!; [nia|lia|lia|lia].
      - exists 0%N. split_and!; [nia|lia|lia|lia]. }
    rewrite N.min_l by nia. split_and!; [by exists i|done|nia|nia|done|].
    intros _ j Hj. assert (i <= j)%N; [|nia]. destruct (decide (i = 0)%N) as [->|Hi0]; [lia|].
    assert (i + k = q + 1)%N by lia. destruct (decide (i <= j)%N) as [|Hij]; [done|]. exfalso. nia.
Qed.

(** A trending read counts the stars inside its window (all of them for the all-time
    ranking), ranks repositories by stars and then by id, both descending, and leaves a
    starred repository out only when [limit] rows rank before it; without a window it is
    empty. *)
Theorem trending_recount_spec beats grid now selector limit :
  let window := trending_window grid now selector in
  let out := trending_recount beats grid now selector limit in
  if bool_decide (window = None) && negb (bool_decide (selector = All)) then out = []
  else
    (forall e, e ∈ out -> te_count e = stars window beats (te_repo e) /\ (0 < te_count e)%N)
    /\ length out <= limit
    /\ StronglySorted (fun a b => entry_cmp a b <> Gt) out
    /\ (forall repo, (0 < stars window beats repo)%N ->
         let e := mkTrendingEntry repo (stars window beats repo) in
         e ∈ out \/ (length out = limit /\ forall e', e' ∈ out -> entry_cmp e' e <> Gt)).
Proof.
  cbv zeta. unfold trending_recount. set (window := trending_window grid now selector).
  set (rows := sort_by entry_cmp (map (fun p => mkTrendingEntry p.1 p.2) (btree_items _))).
  assert (forall e, e ∈ rows <-> te_count e = stars window beats (te_repo e) /\ (0 < te_count e)%N) as Hrows.
  { intros [repo n]. unfold rows. rewrite elem_of_sort_by, list_elem_of_In, in_map_iff. simpl. rewrite <-beats_count. split.
    - intros ([k m] & [= <- <-] & Hin%list_elem_of_In%elem_of_btree_items). done.
    - intros Hin%elem_of_btree_items%list_elem_of_In. by exists (repo, n). }
  assert (StronglySorted (fun a b => entry_cmp a b <> Gt) rows) as Hsort by apply sort_by_sorted, _.
  assert ((if bool_decide (window = None) && negb (bool_decide (selector = All)) then True else
    match window with Some _ => take limit rows | None => match selector with All => take limit rows | _ => [] end end = take limit rows)) as Hout
    by (destruct window, selector; done).
  destruct (bool_decide (window = None) && negb (bool_decide (selector = All))) eqn:E.
  { apply andb_true_iff in E as [Hw%bool_decide_eq_true Hs%negb_true_iff%bool_decide_eq_false]. rewrite Hw. by destruct selector. }
  assert (match window, selector with None, (Newest | Oldest) => [] | _, _ => take limit rows end = take limit rows) as -> by exact Hout.
  rewrite <-(take_drop limit rows) in Hsort. apply StronglySorted_app in Hsort as (Hlt & Hs & _).
  split_and!; [|apply firstn_le_length|done|].
  - intros e He. apply Hrows. rewrite <-(take_drop limit rows). apply elem_of_app. by left.
  - intros repo Hrepo. assert (mkTrendingEntry repo (stars window beats repo) ∈ rows) as Hin by by apply Hrows.
    rewrite <-(take_drop limit rows) in Hin. apply elem_of_app in Hin as [Hin|Hin]; [by left|right]. split.
    + rewrite length_take. assert (0 < length (drop limit rows)) as Hd by (destruct (drop limit rows); [by apply elem_of_nil in Hin|simpl; lia]).
      rewrite length_drop in Hd. lia.
    + intros e' He'. by apply Hlt.
Qed.

(** ** Witness *)

Lemma trending_window_spec_witness :
  let w := mkWindow 86400000 691200000 in
  let step := (tg_step STAR_BEAT_GRID * 1000)%N in let range := (tg_range STAR_BEAT_GRID * 1000)%N in
  let phase := (tg_phase STAR_BEAT_GRID * 1000)%N in
  (exists i, w_start w = phase + i * step)%N
  /\ w_end w = (w_start w + range)%N
  /\ (w_start w <= 604800005 < w_end w)%N
  /\ (Oldest = Newest -> (604800005 < w_start w + step)%N)
  /\ (Oldest = Oldest -> forall i, (604800005 < phase + i * step + range)%N -> (w_start w <= phase + i * step)%N).
Proof.
  apply (trending_window_spec STAR_BEAT_GRID 604800005 Oldest (mkWindow 86400000 691200000)); [reflexivity| |done|done].
  by exists 7%N.
Defined.
