(* ===== verification/MergeAudit.v ===== *)
(** Rules at merge time ([rules/merge_audit.rs]): the branch rules in force when a pull
    request was merged, and whether the merge met them, judged from what stood then. *)
From S2P Require Import Prelude Names Members Events Content Approvals Checks.

Definition RULES_CHANGE_WINDOW_MS : N := 3600000.

Record PolicyDoc := mkPolicyDoc { pd_id : string; pd_created_at : N; pd_policy : Policy }.
Record ProtectionDoc := mkProtectionDoc { pt_id : string; pt_created_at : N; pt_protected : bool }.
Record DismissalAt := mkDismissalAt { da_review_id : string; da_created_at : N }.

Record BypassEvent := mkBypassEvent {
  be_id : string;
  be_actor : string;
  be_created_at : N;
  be_oid : string;
  be_value : string
}.

Record UncountedBypass := mkUncountedBypass { ub_event : BypassEvent; ub_role : option Role }.

Record MergeAuditInput := mkMergeAuditInput {
  mi_merged_at : N;
  mi_merger : string;
  mi_merge_oid : string;
  mi_merge_head : string;
  mi_pr_author : string;
  mi_policies : list PolicyDoc;
  mi_protection : list ProtectionDoc;
  mi_memberships : list Membership;
  mi_reviews : list Review;
  mi_dismissals : list DismissalAt;
  mi_runs : option (list CheckRunRow);
  mi_runners : gset string;
  mi_bypasses : list BypassEvent
}.

Inductive AuditVerdict :=
| NoRules
| Met
| Bypassed
| Unmet
| Unjudged.

#[export] Instance Policy_eq_dec : EqDecision Policy.
Proof. solve_decision. Defined.
#[export] Instance AuditVerdict_eq_dec : EqDecision AuditVerdict.
Proof. solve_decision. Defined.

Record MergeAudit := mkMergeAudit {
  ma_verdict : AuditVerdict;
  ma_policy : option Policy;
  ma_protected : bool;
  ma_merger_role : option Role;
  ma_protection_unmet : bool;
  ma_approvals : option PolicyStatus;
  ma_checks : option ChecksState;
  ma_checks_unread : bool;
  ma_code_owners_unaudited : bool;
  ma_bypass : option BypassEvent;
  ma_uncounted_bypass : option UncountedBypass;
  ma_rules_changed : bool
}.

(** The order of documents by time and id. *)
Definition doc_cmp : N * string -> N * string -> comparison :=
  cmp_then (cmp_on fst N.compare) (cmp_on snd String.compare).

Definition written_by {T} (key : T -> N * string) (at_ : N) (items : list T) : list T :=
  List.filter (fun x => ((key x).1 <=? at_)%N) items.

Definition newest_at {T} (items : list T) (at_ : N) (key : T -> N * string) : option T :=
  max_by (cmp_on key doc_cmp) (written_by key at_ items).

(** [slice::windows(2)]. *)
Fixpoint windows2 {T} (l : list T) : list (T * T) :=
  match l with
  | a :: (b :: _) as rest => (a, b) :: windows2 rest
  | _ => []
  end.

Definition changed_before {T} (items : list T) (at_ : N) (key : T -> N * string) (same : T -> T -> bool) : bool :=
  let sorted := sort_by (cmp_on key doc_cmp) (written_by key at_ items) in
  let from := sat_sub at_ RULES_CHANGE_WINDOW_MS in
  existsb (fun w => (from <? (key w.2).1)%N && negb (same w.1 w.2)) (windows2 sorted).

Definition policy_key (p : PolicyDoc) : N * string := (pd_created_at p, pd_id p).
Definition protection_key (p : ProtectionDoc) : N * string := (pt_created_at p, pt_id p).

Definition approvals_at (input : MergeAuditInput) (then_ : RoleOracle) (policy : Policy) : PolicyStatus :=
  let at_ := mi_merged_at input in
  let dismissed := list_to_set (map da_review_id
    (List.filter (fun d => (da_created_at d <=? at_)%N) (mi_dismissals input))) in
  let reviews := List.filter (fun r => (rv_created_at r <=? at_)%N) (mi_reviews input) in
  meets_policy (count_approvals reviews then_ (mi_merge_head input) dismissed (mi_pr_author input)) then_ policy.

Definition run_at (at_ : N) (r : CheckRunRow) : CheckRunRow :=
  if (ru_status r == "completed") && is_none_or (ru_updated_at r) (fun u => (at_ <? u)%N)
  then mkCheckRunRow (ru_id r) (ru_head_oid r) (ru_name r) "in_progress" None (ru_reporter r) (ru_created_at r)
         (ru_updated_at r)
  else r.

Definition runs_at (runs : list CheckRunRow) (at_ : N) : list CheckRunRow :=
  map (run_at at_) (List.filter (fun r => (ru_created_at r <=? at_)%N) runs).

Definition bypass_cmp : BypassEvent -> BypassEvent -> comparison :=
  cmp_then (cmp_on be_created_at N.compare) (cmp_on be_id String.compare).

Definition recorded_bypass (input : MergeAuditInput) (oracle : RoleOracle)
    : option BypassEvent * option UncountedBypass :=
  let events := sort_by bypass_cmp
    (List.filter (fun b => eq_ignore_case (be_oid b) (mi_merge_oid input)) (mi_bypasses input)) in
  let role b := role_at oracle (be_actor b) (be_created_at b) in
  match List.find (fun b => role b == Some Maintainer) events with
  | Some b => (Some b, None)
  | None => (None, (fun b => mkUncountedBypass b (role b)) <$> head events)
  end.

Definition checks_policy (p : Policy) : ChecksPolicy :=
  mkChecksPolicy (po_require_checks p) (po_required_checks p) (po_required_check_sources p).

Definition requires_checks (p : Policy) : bool :=
  po_require_checks p || existsb (fun n => n != "") (po_required_checks p).

Definition audit_merge (input : MergeAuditInput) : MergeAudit :=
  let at_ := mi_merged_at input in
  let oracle := mi_memberships input in
  let then_ := List.filter (fun m => (ms_created_at m <=? at_)%N) (mi_memberships input) in
  let policy := pd_policy <$> newest_at (mi_policies input) at_ policy_key in
  let protected := is_some_and (newest_at (mi_protection input) at_ protection_key) pt_protected in
  let merger_role := role_at oracle (mi_merger input) at_ in
  let protection_unmet := protected && (merger_role != Some Maintainer) in
  let approvals := approvals_at input then_ <$> policy in
  let checks_required := is_some_and policy requires_checks in
  let checks :=
    match policy, mi_runs input with
    | Some policy, Some runs =>
      if checks_required
      then Some (checks_state (runs_at runs at_) (mi_merge_head input) then_ (mi_runners input) (checks_policy policy))
      else None
    | _, _ => None
    end in
  let checks_unread := checks_required && match mi_runs input with None => true | _ => false end in
  let code_owners_unaudited := is_some_and policy po_require_code_owners in
  let '(bypass, uncounted_bypass) := recorded_bypass input oracle in
  let policy_changed :=
    changed_before (mi_policies input) at_ policy_key (fun a b => pd_policy a == pd_policy b) in
  let protection_changed :=
    changed_before (mi_protection input) at_ protection_key (fun a b => Bool.eqb (pt_protected a) (pt_protected b)) in
  let unmet := protection_unmet || is_some_and approvals (fun a => negb (st_met a))
    || is_some_and checks (fun c => negb (cs_met c)) in
  let verdict :=
    match bypass with
    | Some _ => Bypassed
    | None =>
      if unmet then Unmet
      else if checks_unread || code_owners_unaudited then Unjudged
      else match policy, protected with None, false => NoRules | _, _ => Met end
    end in
  mkMergeAudit verdict policy protected merger_role protection_unmet approvals checks checks_unread
    code_owners_unaudited bypass uncounted_bypass (policy_changed || protection_changed).

(** ** What the audit depends on *)

(** The documents as they stood at the merge. *)
Definition as_merged (input : MergeAuditInput) : MergeAuditInput :=
  let at_ := mi_merged_at input in
  mkMergeAuditInput at_ (mi_merger input) (mi_merge_oid input) (mi_merge_head input) (mi_pr_author input)
    (written_by policy_key at_ (mi_policies input))
    (written_by protection_key at_ (mi_protection input))
    (mi_memberships input)
    (List.filter (fun r => (rv_created_at r <=? at_)%N) (mi_reviews input))
    (List.filter (fun d => (da_created_at d <=? at_)%N) (mi_dismissals input))
    ((fun runs => runs_at runs at_) <$> mi_runs input)
    (mi_runners input) (mi_bypasses input).

Lemma filter_idemp {A} (p : A -> bool) l : List.filter p (List.filter p l) = List.filter p l.
Proof. induction l as [|x l IH]; [done|]. simpl. destruct (p x) eqn:E; simpl; rewrite ?E; by rewrite ?IH. Qed.

Lemma written_by_idemp {T} (key : T -> N * string) at_ items :
  written_by key at_ (written_by key at_ items) = written_by key at_ items.
Proof. apply filter_idemp. Qed.

Lemma run_at_created at_ r : ru_created_at (run_at at_ r) = ru_created_at r.
Proof. unfold run_at. by destruct (_ && _). Qed.

Lemma run_at_idemp at_ r : run_at at_ (run_at at_ r) = run_at at_ r.
Proof.
  unfold run_at. destruct ((ru_status r == "completed") && _) eqn:E; [done|by rewrite E].
Qed.

Lemma runs_at_idemp runs at_ : runs_at (runs_at runs at_) at_ = runs_at runs at_.
Proof.
  unfold runs_at. induction runs as [|r runs IH]; [done|]. simpl. destruct (ru_created_at r <=? at_)%N eqn:E; simpl; [|apply IH].
  rewrite run_at_created, E. simpl. rewrite run_at_idemp. f_equal. apply IH.
Qed.

Lemma newest_at_written {T} (items : list T) at_ key :
  newest_at (written_by key at_ items) at_ key = newest_at items at_ key.
Proof. unfold newest_at. by rewrite written_by_idemp. Qed.

Lemma changed_before_written {T} (items : list T) at_ key same :
  changed_before (written_by key at_ items) at_ key same = changed_before items at_ key same.
Proof. unfold changed_before. by rewrite written_by_idemp. Qed.

Lemma approvals_at_merged input then_ p : approvals_at (as_merged input) then_ p = approvals_at input then_ p.
Proof. unfold approvals_at, as_merged. cbn -[count_approvals meets_policy]. by rewrite !filter_idemp. Qed.

(** The audit reads nothing written after the merge, a recorded bypass and its writer's
    membership apart. *)
Lemma audit_as_merged input : audit_merge (as_merged input) = audit_merge input.
Proof.
  unfold audit_merge.
  assert (forall o, recorded_bypass (as_merged input) o = recorded_bypass input o) as -> by done.
  cbn [as_merged mi_merged_at mi_policies mi_protection mi_memberships mi_merger mi_runs mi_runners mi_merge_head].
  rewrite !newest_at_written, !changed_before_written.
  destruct (newest_at (mi_policies input) _ policy_key) as [p|]; cbn [fmap option_fmap option_map].
  - rewrite approvals_at_merged.
    destruct (mi_runs input) as [runs|]; cbn [fmap option_fmap option_map]; [by rewrite runs_at_idemp|done].
  - by destruct (mi_runs input).
Qed.

(** ** What it says *)

Lemma elem_of_written {T} (key : T -> N * string) at_ items x :
  x ∈ written_by key at_ items <-> (x ∈ items) /\ ((key x).1 <= at_)%N.
Proof. unfold written_by. by rewrite !list_elem_of_In, filter_In, N.leb_le. Qed.

#[export] Instance doc_cmp_ord : CmpOrd doc_cmp.
Proof. unfold doc_cmp. apply _. Qed.

(** [x] is the newest of [items] written no later than [at_]. *)
Definition in_force {T} (key : T -> N * string) (items : list T) (at_ : N) (x : T) : Prop :=
  (x ∈ items) /\ ((key x).1 <= at_)%N
  /\ forall y, y ∈ items -> ((key y).1 <= at_)%N -> doc_cmp (key y) (key x) <> Gt.

(** The newest of them, or none when all came later. *)
Definition newest_of {T} (key : T -> N * string) (items : list T) (at_ : N) (o : option T) : Prop :=
  match o with
  | Some x => in_force key items at_ x
  | None => forall x, x ∈ items -> (at_ < (key x).1)%N
  end.

Lemma newest_at_spec {T} (items : list T) at_ key : newest_of key items at_ (newest_at items at_ key).
Proof.
  unfold newest_of, newest_at. destruct (max_by _ _) as [x|] eqn:E.
  - apply max_by_Some in E as [Hx Hmax]; [|apply _]. rewrite elem_of_written in Hx. destruct Hx.
    split_and!; [done..|]. intros y ??. apply (Hmax y). by rewrite elem_of_written.
  - apply max_by_None in E. intros x Hx. apply N.nle_gt. intros Hle. apply (not_elem_of_nil x).
    by rewrite <-E, elem_of_written.
Qed.

Lemma elem_of_windows2 {T} (l : list T) a b :
  (a, b) ∈ windows2 l <-> exists l1 l2, l = l1 ++ a :: b :: l2.
Proof.
  induction l as [|x l IH]; [split; [by intros ?%not_elem_of_nil|by intros ([] & ? & ?)]|].
  destruct l as [|y l].
  { split; [by intros ?%not_elem_of_nil|]. intros ([|? []] & ? & ?); done. }
  change (windows2 (x :: y :: l)) with ((x, y) :: windows2 (y :: l)). rewrite elem_of_cons, IH. split.
  - intros [[= -> ->]|(l1 & l2 & ->)]; [by exists [], l|by exists (x :: l1), l2].
  - intros ([|z l1] & l2 & Heq); simplify_eq/=; [by left|right; by exists l1, l2].
Qed.

(** A rule was changed shortly before: two documents in a row, the later one in the window. *)
Lemma changed_before_spec {T} (items : list T) at_ key (same : T -> T -> bool) :
  changed_before items at_ key same = true <->
  exists l1 a b l2, sort_by (cmp_on key doc_cmp) (written_by key at_ items) = l1 ++ a :: b :: l2
    /\ (at_ - RULES_CHANGE_WINDOW_MS < (key b).1)%N /\ same a b = false.
Proof.
  unfold changed_before, sat_sub. rewrite existsb_exists. split.
  - intros ([a b] & Hin & [Hlt%N.ltb_lt Hs%negb_true_iff]%andb_true_iff). simpl in *.
    rewrite <-list_elem_of_In, elem_of_windows2 in Hin. destruct Hin as (l1 & l2 & ?). by exists l1, a, b, l2.
  - intros (l1 & a & b & l2 & Heq & Hlt%N.ltb_lt & Hs). exists (a, b).
    rewrite <-list_elem_of_In, elem_of_windows2. split; [by exists l1, l2|]. simpl. by rewrite Hlt, Hs.
Qed.

(** A maintainer, by the current documents, recorded a bypass of this merge. *)
Definition bypassed (input : MergeAuditInput) : Prop :=
  exists b, (b ∈ mi_bypasses input) /\ to_lower (be_oid b) = to_lower (mi_merge_oid input)
    /\ role_at (mi_memberships input) (be_actor b) (be_created_at b) = Some Maintainer.

Definition team_then (input : MergeAuditInput) : RoleOracle :=
  List.filter (fun m => (ms_created_at m <=? mi_merged_at input)%N) (mi_memberships input).

(** The base was protected then and its merger was no maintainer. *)
Definition protection_broken (input : MergeAuditInput) : Prop :=
  (exists d, newest_at (mi_protection input) (mi_merged_at input) protection_key = Some d /\ pt_protected d = true)
  /\ role_at (mi_memberships input) (mi_merger input) (mi_merged_at input) <> Some Maintainer.

(** The policy [p] in force then, its approvals and its checks. *)
Definition policy_then (input : MergeAuditInput) (p : Policy) : Prop :=
  exists d, newest_at (mi_policies input) (mi_merged_at input) policy_key = Some d /\ pd_policy d = p.

Definition approvals_short (input : MergeAuditInput) (p : Policy) : Prop :=
  st_met (approvals_at input (team_then input) p) = false.

Definition checks_short (input : MergeAuditInput) (p : Policy) : Prop :=
  requires_checks p = true
  /\ exists runs, mi_runs input = Some runs
       /\ cs_met (checks_state (runs_at runs (mi_merged_at input)) (mi_merge_head input) (team_then input)
                    (mi_runners input) (checks_policy p)) = false.

Definition unjudged_rule (input : MergeAuditInput) (p : Policy) : Prop :=
  (requires_checks p = true /\ mi_runs input = None) \/ po_require_code_owners p = true.

Definition some_rule_unmet (input : MergeAuditInput) : Prop :=
  protection_broken input
  \/ exists p, policy_then input p /\ (approvals_short input p \/ checks_short input p).

Definition no_rule (input : MergeAuditInput) : Prop :=
  (forall p, ~ policy_then input p)
  /\ ~ exists d, newest_at (mi_protection input) (mi_merged_at input) protection_key = Some d /\ pt_protected d = true.

#[export] Instance bypass_cmp_ord : CmpOrd bypass_cmp.
Proof. unfold bypass_cmp. apply _. Qed.

Lemma recorded_bypass_spec input :
  (is_Some (recorded_bypass input (mi_memberships input)).1 <-> bypassed input)
  /\ (forall b, (recorded_bypass input (mi_memberships input)).1 = Some b -> b ∈ mi_bypasses input).
Proof.
  unfold recorded_bypass, bypassed. set (events := sort_by _ _).
  assert (forall b, b ∈ events <-> (b ∈ mi_bypasses input) /\ to_lower (be_oid b) = to_lower (mi_merge_oid input)) as Hin.
  { intros b. unfold events, eq_ignore_case. rewrite elem_of_sort_by, list_elem_of_In, filter_In, <-list_elem_of_In.
    by rewrite bool_decide_eq_true. }
  destruct (List.find _ events) as [b|] eqn:E; cbn [fst].
  - apply find_some in E as [Hb Hr%bool_decide_eq_true]. rewrite <-list_elem_of_In, Hin in Hb. destruct Hb as [Hb Ho].
    split; [|by intros ? [= <-]]. split; [intros _; by exists b|done].
  - split; [|done]. split; [by intros [? ?]|]. intros (b & Hb & Ho & Hr).
    assert (b ∈ events) as Hbe by by apply Hin. rewrite list_elem_of_In in Hbe.
    apply (find_none _ _ E) in Hbe. apply bool_decide_eq_false in Hbe. done.
Qed.

(** The verdict, from the facts it rests on. *)
Definition verdict_of (bypass unmet unread none : bool) : AuditVerdict :=
  if bypass then Bypassed else if unmet then Unmet else if unread then Unjudged else if none then NoRules else Met.

Section verdict.
Context (input : MergeAuditInput).

Abbreviation prot := (newest_at (mi_protection input) (mi_merged_at input) protection_key).
Abbreviation pol := (newest_at (mi_policies input) (mi_merged_at input) policy_key).
Abbreviation role := (role_at (mi_memberships input) (mi_merger input) (mi_merged_at input)).

Definition policy_unmet (p : Policy) : bool :=
  negb (st_met (approvals_at input (team_then input) p))
  || (requires_checks p && match mi_runs input with
    | Some runs => negb (cs_met (checks_state (runs_at runs (mi_merged_at input)) (mi_merge_head input)
                                   (team_then input) (mi_runners input) (checks_policy p)))
    | None => false
    end).

Definition unmet_flag : bool :=
  (is_some_and prot pt_protected && (role != Some Maintainer)) || is_some_and pol (fun d => policy_unmet (pd_policy d)).

Definition unread_flag : bool :=
  is_some_and pol (fun d => (requires_checks (pd_policy d) && match mi_runs input with None => true | _ => false end)
                          || po_require_code_owners (pd_policy d)).

Definition none_flag : bool := match pol with Some _ => false | None => negb (is_some_and prot pt_protected) end.

Lemma audit_verdict :
  ma_verdict (audit_merge input)
  = verdict_of (is_some_and (recorded_bypass input (mi_memberships input)).1 (fun _ => true))
    unmet_flag unread_flag none_flag.
Proof.
  unfold audit_merge, unmet_flag, unread_flag, none_flag, policy_unmet.
  destruct (recorded_bypass input (mi_memberships input)) as [[b|] uncounted]; [done|].
  fold (team_then input). cbn [fst is_some_and]. unfold verdict_of.
  destruct pol as [d|]; cbn [fmap option_fmap option_map is_some_and ma_verdict].
  - destruct (mi_runs input) as [runs|], (requires_checks (pd_policy d)); cbn [andb is_some_and];
      rewrite ?orb_false_r, <-?orb_assoc; try done.
    all: by destruct (is_some_and prot pt_protected).
  - by destruct (mi_runs input), (is_some_and prot pt_protected); cbn; rewrite ?orb_false_r.
Qed.

Lemma protected_flag :
  is_some_and prot pt_protected = true <-> exists d, prot = Some d /\ pt_protected d = true.
Proof. apply is_some_and_true. Qed.

Lemma unmet_flag_spec : unmet_flag = true <-> some_rule_unmet input.
Proof.
  unfold unmet_flag, some_rule_unmet, protection_broken, policy_then, approvals_short, checks_short, policy_unmet.
  rewrite orb_true_iff, andb_true_iff, protected_flag, negb_true_iff, bool_decide_eq_false, is_some_and_true.
  apply or_iff_compat_l. split.
  - intros (d & Hd & [Ha%negb_true_iff|Hc]%orb_true_iff); exists (pd_policy d); (split; [by exists d|]); [by left|right].
    apply andb_true_iff in Hc as [? Hc]. split; [done|]. destruct (mi_runs input) as [runs|]; [|done].
    exists runs. by rewrite negb_true_iff in Hc.
  - intros (p & (d & Hd & <-) & [Ha|(Hr & runs & Hruns & Hc)]); exists d; (split; [done|]); apply orb_true_iff; [left|right].
    + by rewrite Ha.
    + by rewrite Hr, Hruns, Hc.
Qed.

Lemma unread_flag_spec : unread_flag = true <-> exists p, policy_then input p /\ unjudged_rule input p.
Proof.
  unfold unread_flag, policy_then, unjudged_rule. rewrite is_some_and_true. split.
  - intros (d & Hd & Hu). exists (pd_policy d). split; [by exists d|].
    apply orb_true_iff in Hu as [[? Hn]%andb_true_iff|?]; [left|by right]. by destruct (mi_runs input).
  - intros (p & (d & Hd & <-) & [[Hr Hn]|Hc]); exists d; (split; [done|]); apply orb_true_iff; [left|by right].
    by rewrite Hr, Hn.
Qed.

Lemma none_flag_spec : none_flag = true <-> no_rule input.
Proof.
  unfold none_flag, no_rule, policy_then. rewrite <-protected_flag. destruct pol as [d|].
  - split; [done|]. intros [Hp _]. destruct (Hp (pd_policy d)). by exists d.
  - rewrite negb_true_iff, <-not_true_iff_false. split; [intros ?; split; [by intros p (d & ? & _)|done]|by intros [_ ?]].
Qed.

End verdict.

(** A run counts as passed at the merge only when it had completed with a passing
    conclusion by then. *)
Theorem late_run_never_passes runs at_ r :
  r ∈ runs_at runs at_ -> check_state_of r = Passed ->
  (r ∈ runs) /\ (ru_created_at r <= at_)%N /\ ru_status r = "completed"
  /\ exists u, ru_updated_at r = Some u /\ (u <= at_)%N.
Proof.
  unfold runs_at. rewrite list_elem_of_In, in_map_iff. intros (r0 & <- & Hr0).
  rewrite filter_In, <-list_elem_of_In, N.leb_le in Hr0. destruct Hr0 as [Hr0 Hc]. unfold run_at.
  destruct ((ru_status r0 == "completed") && _) eqn:E; [done|]. intros Hp.
  assert (ru_status r0 = "completed") as Hs.
  { unfold check_state_of in Hp. case_bool_decide; done. }
  split_and!; [done..|]. rewrite bool_decide_eq_true_2 in E by done. simpl in E.
  destruct (ru_updated_at r0) as [u|]; [|done]. exists u. split; [done|]. by apply N.ltb_ge in E.
Qed.
