(* ===== verification/Moderation.v ===== *)
(** Moderation ([rules/moderation.rs]): what a maintainer's hides collapse in a thread, and which hides
    a client refuses because they would change nothing. *)
From S2P Require Import Prelude Events.

(** ** Definitions *)

Definition HIDE_REASONS : list string := ["spam"; "abuse"; "off-topic"; "outdated"; "resolved"; "duplicate"].
Definition is_hide_reason (value : string) : bool := bool_decide (value ∈ HIDE_REASONS).

Record ThreadItem := mkThreadItem { ti_id : string; ti_author : string; ti_review_id : option string }.

#[export] Instance ThreadItem_eq_dec : EqDecision ThreadItem.
Proof. solve_decision. Defined.

Record HideScope := mkHideScope {
  hs_thread_id : string;
  hs_thread_author : string;
  hs_owner : string;
  hs_maintainers : gset string;
  hs_proved : bool
}.

Inductive HiddenVia := ViaItem | ViaReview | ViaBan.

#[export] Instance HiddenVia_eq_dec : EqDecision HiddenVia.
Proof. solve_decision. Defined.

Record Hidden := mkHidden {
  hd_by : string;
  hd_reason : option string;
  hd_at : N;
  hd_event_id : string;
  hd_via : HiddenVia;
  hd_ban_reason : option N
}.

Record HiddenItems := mkHiddenItems {
  hi_thread : option Hidden;
  hi_items : gmap string Hidden;
  hi_counted : gset string
}.

Definition hi_item (h : HiddenItems) (id : string) : option Hidden := hi_items h !! id.

(** The [BTreeMap] of the items' writers: a later item replaces an earlier one of the same id. *)
Definition item_authors (items : list ThreadItem) : gmap string string :=
  foldl (fun m i => <[ti_id i := ti_author i]> m) ∅ items.

Definition is_hide_kind (e : Event) : bool := (e_kind e == Hide) || (e_kind e == Unhide).

(** Rule 1: whose hides and unhides of this thread count. *)
Definition hide_counts (scope : HideScope) (e : Event) : bool :=
  is_hide_kind e && (e_target_id e == hs_thread_id scope)
  && (hs_proved scope || (e_actor e == hs_owner scope) || bool_decide (e_actor e ∈ hs_maintainers scope)).

(** Rule 2: a [refId] names an item of this thread. *)
Definition names_item (authors : gmap string string) (e : Event) : bool :=
  is_none_or (e_ref_id e) (fun r => is_some_and (authors !! r) (fun _ => true)).

Definition counted_hides (events : list Event) (scope : HideScope) (authors : gmap string string) : list Event :=
  List.filter (names_item authors) (sort_by event_order (List.filter (hide_counts scope) events)).

(** Rule 3, on the events of one key. *)
Definition decisive (owner author : string) (l : list Event) : option Event :=
  match List.find (fun e => e_actor e == owner) (rev l) with
  | Some e => Some e
  | None => if author == owner then None else last l
  end.

Definition hidden_by (e : Event) : Hidden :=
  mkHidden (e_actor e) (opt_filter is_hide_reason (e_value e)) (e_created_at e) (e_id e) ViaItem None.

(** The hide that stands on one key ([None]: the thread). *)
Definition standing_hide (scope : HideScope) (author : string) (key : option string) (counted : list Event) : option Hidden :=
  hidden_by <$> opt_filter (fun e => e_kind e == Hide)
    (decisive (hs_owner scope) author (List.filter (fun e => e_ref_id e == key) counted)).

(** The items of [by_key]: one hide per key that has one. *)
Definition own_hides (scope : HideScope) (authors : gmap string string) (counted : list Event) : gmap string Hidden :=
  list_to_map (omap (fun k => pair k <$> standing_hide scope (default "" (authors !! k)) (Some k) counted)
    (btree_elems (list_to_set (omap e_ref_id counted)))).

(** Rule 4: an inline comment of a hidden review. *)
Definition cover_comment (items : gmap string Hidden) (c : ThreadItem) : gmap string Hidden :=
  match ti_review_id c with
  | None => items
  | Some review =>
    match items !! ti_id c with
    | Some _ => items
    | None =>
      match opt_filter (fun h => hd_via h == ViaItem) (items !! review) with
      | Some h => <[ti_id c := mkHidden (hd_by h) (hd_reason h) (hd_at h) (hd_event_id h) ViaReview (hd_ban_reason h)]> items
      | None => items
      end
    end
  end.

Definition hidden_items (events : list Event) (scope : HideScope) (comments reviews : list ThreadItem) : HiddenItems :=
  let authors := item_authors (comments ++ reviews) in
  let counted := counted_hides events scope authors in
  mkHiddenItems (standing_hide scope (hs_thread_author scope) None counted)
    (foldl cover_comment (own_hides scope authors counted) comments)
    (list_to_set (map e_id counted)).

Inductive HideBlock := OwnersContent | OwnerDecided | WithItsReview | AlreadyHidden | NotHidden.

Definition hide_blocked (events : list Event) (scope : HideScope) (comments reviews : list ThreadItem)
    (signer : string) (item : option string) (hide : bool) : option HideBlock :=
  let author := match item with
                | None => Some (hs_thread_author scope)
                | Some i => ti_author <$> List.find (fun c => ti_id c == i) (comments ++ reviews)
                end in
  let owner_decided := existsb (fun e => is_hide_kind e && (e_target_id e == hs_thread_id scope)
                                         && (e_actor e == hs_owner scope) && (e_ref_id e == item)) events in
  if (signer != hs_owner scope) && (author == Some (hs_owner scope)) then Some OwnersContent
  else if (signer != hs_owner scope) && owner_decided then Some OwnerDecided
  else
    let now := hidden_items events scope comments reviews in
    let state := match item with None => hi_thread now | Some i => hi_item now i end in
    match hide, hd_via <$> state with
    | true, Some ViaItem => Some AlreadyHidden
    | false, None => Some NotHidden
    | false, Some ViaReview => Some WithItsReview
    | _, _ => None
    end.

(** ** Helper lemmas *)

Lemma item_authors_unique items c :
  NoDup (map ti_id items) -> c ∈ items -> item_authors items !! ti_id c = Some (ti_author c).
Proof.
  unfold item_authors. induction items as [|i items IH] using rev_ind; [intros _ H; by apply elem_of_nil in H|].
  rewrite map_app, foldl_snoc. intros (Hnd & Hdis & _)%NoDup_app [Hc|Hc%list_elem_of_singleton]%elem_of_app.
  - rewrite lookup_insert_ne; [by apply IH|]. intros Heq. apply (Hdis (ti_id c)).
    + apply list_elem_of_In, in_map_iff. exists c. split; [done|by apply list_elem_of_In].
    + simpl. rewrite Heq. by left.
  - subst. by rewrite lookup_insert_eq.
Qed.

Lemma item_authors_known items k : (exists a, item_authors items !! k = Some a) <-> exists c, c ∈ items /\ ti_id c = k.
Proof.
  unfold item_authors. induction items as [|i items IH] using rev_ind.
  { simpl. rewrite lookup_empty. split; [by intros [? ?]|]. by intros (c & Hc%elem_of_nil & _). }
  rewrite foldl_snoc. destruct (decide (ti_id i = k)) as [Heq|Hne].
  - rewrite Heq, lookup_insert_eq. split; [intros _; exists i; split; [apply elem_of_app; right; by left|done]|by eauto].
  - rewrite lookup_insert_ne by done. rewrite IH. split; intros (c & Hc & Hk); exists c; (split; [|done]).
    + apply elem_of_app. by left.
    + apply elem_of_app in Hc as [Hc|Hc%list_elem_of_singleton]; [done|]. by subst.
Qed.

Lemma elem_of_counted_hides events scope authors e :
  e ∈ counted_hides events scope authors <-> e ∈ events /\ hide_counts scope e = true /\ names_item authors e = true.
Proof.
  unfold counted_hides. rewrite list_elem_of_In, filter_In, <-list_elem_of_In, elem_of_sort_by, list_elem_of_In, filter_In.
  rewrite <-list_elem_of_In. tauto.
Qed.

Lemma counted_sorted events scope authors :
  StronglySorted (fun a b => event_order a b <> Gt) (counted_hides events scope authors).
Proof. unfold counted_hides. rewrite sort_by_filter by apply _. apply sort_by_sorted, _. Qed.

(** The events of a key, and the own hide of an item. *)
Abbreviation of_key key l := (List.filter (fun e => e_ref_id e == key) l).

Lemma standing_none scope author key l : of_key key l = [] -> standing_hide scope author key l = None.
Proof. unfold standing_hide. intros ->. unfold decisive. simpl. by destruct (author == hs_owner scope). Qed.

Lemma own_hides_lookup scope authors counted k :
  own_hides scope authors counted !! k = standing_hide scope (default "" (authors !! k)) (Some k) counted.
Proof.
  unfold own_hides. set (keys := btree_elems _). set (g := fun k => standing_hide scope (default "" (authors !! k)) (Some k) counted).
  change (standing_hide scope (default "" (authors !! k)) (Some k) counted) with (g k).
  assert (forall ks : list string, (list_to_map (omap (fun k => pair k <$> g k) ks) : gmap string Hidden) !! k
    = if bool_decide (k ∈ ks) then g k else None) as H.
  { induction ks as [|k' ks IH]; [done|]. csimpl. destruct (decide (k' = k)) as [->|Hne].
    - rewrite bool_decide_eq_true_2 by by left. destruct (g k) as [h|] eqn:Hg; simpl; [by rewrite lookup_insert_eq|].
      rewrite IH. by destruct (bool_decide _).
    - assert (bool_decide (k ∈ k' :: ks) = bool_decide (k ∈ ks)) as ->.
      { apply bool_decide_ext. rewrite elem_of_cons. split; [|by right]. intros [->|?]; done. }
      destruct (g k') as [h|]; simpl; [by rewrite lookup_insert_ne|done]. }
  rewrite H. case_bool_decide as Hk; [done|]. symmetry. apply standing_none.
  apply filter_none. intros e He. apply bool_decide_eq_false_2. intros Href. apply Hk. unfold keys.
  rewrite elem_of_btree_elems, elem_of_list_to_set, list_elem_of_omap. by exists e.
Qed.

Definition via_review (h : Hidden) : Hidden :=
  mkHidden (hd_by h) (hd_reason h) (hd_at h) (hd_event_id h) ViaReview (hd_ban_reason h).

Lemma cover_lookup items comments k :
  (forall k h, items !! k = Some h -> hd_via h = ViaItem) ->
  foldl cover_comment items comments !! k =
  match items !! k with
  | Some h => Some h
  | None => via_review <$> head (omap (fun c => if ti_id c == k then r ← ti_review_id c; items !! r else None) comments)
  end.
Proof.
  intros Hvia. revert k. induction comments as [|c comments IH] using rev_ind; intros k; [simpl; by destruct (items !! k)|].
  rewrite foldl_snoc, omap_app, head_app. set (out := foldl cover_comment items comments) in *.
  assert (forall r, opt_filter (fun h => hd_via h == ViaItem) (out !! r) = items !! r) as Hown.
  { intros r. rewrite IH. destruct (items !! r) as [h|] eqn:Hr; simpl; [by rewrite (bool_decide_eq_true_2 _ (Hvia r h Hr))|].
    by destruct (head _). }
  unfold cover_comment. simpl. destruct (ti_review_id c) as [r|]; simpl.
  - rewrite Hown. destruct (decide (ti_id c = k)) as [Hk|Hne].
    + rewrite (bool_decide_eq_true_2 _ Hk), Hk, IH. destruct (items !! k) as [h|] eqn:Hik; [by rewrite IH, Hik|].
      destruct (head (omap _ comments)) eqn:Hh; simpl; [by rewrite IH, Hik, Hh|].
      destruct (items !! r) as [h|]; simpl; [by rewrite lookup_insert_eq|by rewrite IH, Hik, Hh].
    + rewrite (bool_decide_eq_false_2 _ Hne). simpl.
      assert (forall m : gmap string Hidden, m = out \/ (exists h, m = <[ti_id c := h]> out) -> m !! k = out !! k) as Hm.
      { intros m [->|[h ->]]; [done|]. by rewrite lookup_insert_ne. }
      rewrite Hm; [rewrite IH; destruct (items !! k); [done|]; by destruct (head (omap _ comments))|].
      destruct (out !! ti_id c); [by left|]. destruct (items !! r); [right; by eexists|by left].
  - rewrite IH. destruct (items !! k); [done|]. by destruct (head (omap _ comments)), (ti_id c == k).
Qed.

(** ** The event that decides a key *)

Lemma find_owner_none owner (l : list Event) :
  List.find (fun e => e_actor e == owner) (rev l) = None <-> forall e, e ∈ l -> e_actor e <> owner.
Proof.
  split.
  - intros H e He. assert (In e (rev l)) as Hin by by apply in_rev; rewrite rev_involutive; apply list_elem_of_In.
    pose proof (List.find_none _ _ H e Hin) as Ha. by apply bool_decide_eq_false in Ha.
  - intros H. destruct (List.find _ _) as [e|] eqn:Hf; [|done]. apply find_some in Hf as [Hin Ha%bool_decide_eq_true].
    exfalso. apply (H e); [|done]. apply list_elem_of_In. by apply in_rev.
Qed.

Lemma decisive_snoc owner author l e :
  decisive owner author (l ++ [e]) =
  if e_actor e == owner then Some e
  else match List.find (fun e => e_actor e == owner) (rev l) with
       | Some e' => Some e'
       | None => if author == owner then None else Some e
       end.
Proof.
  unfold decisive. rewrite rev_unit. simpl. destruct (e_actor e == owner); [done|]. by rewrite last_snoc.
Qed.

Section deciding.
Context (events : list Event) (scope : HideScope) (authors : gmap string string).
Abbreviation counted := (counted_hides events scope authors).

(** The hides and unhides of a key that count. *)
Definition about (key : option string) (e : Event) : Prop :=
  e ∈ events /\ hide_counts scope e = true /\ names_item authors e = true /\ e_ref_id e = key.

(** The owner's latest one, or the latest one when the owner said nothing and did not write the
item. *)
Definition decides (author : string) (key : option string) (e : Event) : Prop :=
  about key e /\
  ((e_actor e = hs_owner scope /\ forall e', about key e' -> e_actor e' = hs_owner scope -> event_order e' e <> Gt)
  \/ (author <> hs_owner scope /\ (forall e', about key e' -> e_actor e' <> hs_owner scope /\ event_order e' e <> Gt))).

Lemma elem_of_key key e : e ∈ of_key key counted <-> about key e.
Proof.
  unfold about. rewrite list_elem_of_In, filter_In, <-list_elem_of_In, elem_of_counted_hides, bool_decide_eq_true. tauto.
Qed.

Lemma key_sorted key : StronglySorted (fun a b => event_order a b <> Gt) (of_key key counted).
Proof. unfold counted_hides. rewrite !sort_by_filter by apply _. apply sort_by_sorted, _. Qed.

Lemma sorted_last_le l1 (e : Event) l2 e' :
  StronglySorted (fun a b => event_order a b <> Gt) (l1 ++ e :: l2) -> e' ∈ l1 ++ e :: l2 -> ~ e' ∈ l2 -> event_order e' e <> Gt.
Proof.
  intros Hs [Hin|[->|Hin]%elem_of_cons]%elem_of_app Hn; [|by rewrite (cmp_refl event_order)|done].
  apply StronglySorted_app in Hs as (Hlt & _ & _). by apply Hlt; [|left].
Qed.

Lemma decisive_decides author key e :
  decisive (hs_owner scope) author (of_key key counted) = Some e -> decides author key e.
Proof.
  pose proof (key_sorted key) as Hs. unfold decisive. destruct (List.find _ _) as [o|] eqn:Hf.
  - intros [= <-]. apply find_rev_last in Hf as (l1 & l2 & Heq & Ha%bool_decide_eq_true & Hl2).
    assert (about key o) as Ho by (apply elem_of_key; rewrite Heq; apply elem_of_app; right; left).
    split; [done|]. left. split; [done|]. intros e' He'%elem_of_key Ha'. rewrite Heq in He', Hs.
    apply (sorted_last_le _ _ _ _ Hs He'). intros H2%Hl2. by apply bool_decide_eq_false in H2.
  - case_bool_decide as Hauth; [done|]. intros Hl. apply last_Some in Hl as [l1 Heq].
    assert (about key e) as He by (apply elem_of_key; rewrite Heq; apply elem_of_app; right; left).
    split; [done|]. right. split; [done|]. intros e' He'%elem_of_key. split; [by eapply find_owner_none|].
    rewrite Heq in He', Hs. apply (sorted_last_le _ _ _ _ Hs He'). by intros ?%elem_of_nil.
Qed.

Lemma decisive_iff author key e :
  distinct_events events ->
  decisive (hs_owner scope) author (of_key key counted) = Some e <-> decides author key e.
Proof.
  intros Hd. split; [apply decisive_decides|]. intros [He Hcase].
  assert (exists e1, decisive (hs_owner scope) author (of_key key counted) = Some e1) as [e1 He1].
  { unfold decisive. destruct (List.find _ _) as [o|] eqn:Hf; [by exists o|].
    assert (forall e', about key e' -> e_actor e' <> hs_owner scope) as Hno
      by (intros e' He'%elem_of_key; by eapply find_owner_none).
    destruct Hcase as [[Ha _]|[Hauth _]]; [by destruct (Hno e He)|]. rewrite bool_decide_eq_false_2 by done.
    destruct (last (of_key key counted)) as [x|] eqn:Hl; [by exists x|]. apply last_None_nil in Hl.
    apply elem_of_key in He. rewrite Hl in He. by apply elem_of_nil in He. }
  rewrite He1. f_equal. apply decisive_decides in He1 as [Hab1 Hcase1].
  apply Hd; [by apply Hab1|by apply He|].
  assert (event_order e1 e <> Gt /\ event_order e e1 <> Gt) as [H1 H2].
  { destruct Hcase as [[Ha Hmax]|[Hauth Hmax]], Hcase1 as [[Ha1 Hmax1]|[Hauth1 Hmax1]].
    - by split; [apply Hmax|apply Hmax1].
    - exfalso. by destruct (Hmax1 e He).
    - exfalso. by destruct (Hmax e1 Hab1).
    - by split; [apply Hmax|apply Hmax1]. }
  destruct (event_order e1 e) eqn:E; [done| |done]. exfalso. apply H2. by apply (cmp_gt_lt event_order).
Qed.

Lemma standing_hide_iff author key h :
  distinct_events events ->
  standing_hide scope author key counted = Some h <->
  exists e, decides author key e /\ e_kind e = Hide /\ h = hidden_by e.
Proof.
  intros Hd. unfold standing_hide. setoid_rewrite <-(decisive_iff author key _ Hd).
  destruct (decisive _ _ _) as [e|]; simpl.
  - case_bool_decide as Hk; simpl.
    + split; [intros [= <-]; by exists e|]. by intros (? & [= <-] & _ & ->).
    + split; [done|]. by intros (? & [= <-] & ? & _).
  - split; [done|]. by intros (? & ? & _).
Qed.
End deciding.

Lemma standing_via scope author key l h : standing_hide scope author key l = Some h -> hd_via h = ViaItem.
Proof. unfold standing_hide. destruct (opt_filter _ _); [|done]. by intros [= <-]. Qed.

Lemma own_via scope authors counted k h : own_hides scope authors counted !! k = Some h -> hd_via h = ViaItem.
Proof. rewrite own_hides_lookup. apply standing_via. Qed.

(** With one item per id, a comment is covered by its own review only. *)
Lemma head_cover {B} (f : ThreadItem -> option B) cs c :
  NoDup (map ti_id cs) -> c ∈ cs -> head (omap (fun c' => if ti_id c' == ti_id c then f c' else None) cs) = f c.
Proof.
  intros Hnd Hc. induction cs as [|c' cs IH]; [by apply elem_of_nil in Hc|]. simpl in Hnd. apply NoDup_cons in Hnd as [Hn Hnd].
  assert (forall c0, c0 ∈ cs -> ti_id c0 ∈ map ti_id cs) as Hmap.
  { intros c0 H0. apply list_elem_of_In, in_map_iff. exists c0. split; [done|by apply list_elem_of_In]. }
  csimpl. apply elem_of_cons in Hc as [->|Hc].
  - rewrite bool_decide_eq_true_2 by done. destruct (f c') as [b|]; [done|].
    assert (omap (fun c0 => if ti_id c0 == ti_id c' then f c0 else None) cs = []) as ->; [|done].
    clear IH. induction cs as [|c0 cs IH]; [done|]. csimpl. rewrite bool_decide_eq_false_2.
    + apply IH; [|by apply NoDup_cons in Hnd as [_ ?]|].
      * intros ?. apply Hn. simpl. by right.
      * intros x Hx. apply list_elem_of_In, in_map_iff. exists x. split; [done|by apply list_elem_of_In].
    + intros Heq. apply Hn. simpl. rewrite Heq. by left.
  - rewrite bool_decide_eq_false_2 by (intros Heq; apply Hn; rewrite Heq; by apply Hmap). by apply IH.
Qed.

Lemma head_cover_none {B} (f : ThreadItem -> option B) cs k :
  (forall c, c ∈ cs -> ti_id c <> k) -> head (omap (fun c' => if ti_id c' == k then f c' else None) cs) = None.
Proof.
  intros H. induction cs as [|c cs IH]; [done|]. csimpl. rewrite bool_decide_eq_false_2 by (apply H; by left).
  apply IH. intros c' Hc'. apply H. by right.
Qed.

Section items.
Context (events : list Event) (scope : HideScope) (comments reviews : list ThreadItem).
Context (Hids : NoDup (map ti_id (comments ++ reviews))).
Abbreviation authors := (item_authors (comments ++ reviews)).
Abbreviation counted := (counted_hides events scope authors).

Lemma own_item c :
  c ∈ comments ++ reviews ->
  own_hides scope authors counted !! ti_id c = standing_hide scope (ti_author c) (Some (ti_id c)) counted.
Proof. intros Hc. by rewrite own_hides_lookup, (item_authors_unique _ _ Hids Hc). Qed.

Lemma own_unknown k : (forall c, c ∈ comments ++ reviews -> ti_id c <> k) -> own_hides scope authors counted !! k = None.
Proof.
  intros Hk. rewrite own_hides_lookup. apply standing_none, filter_none. intros e (_ & _ & Hn)%elem_of_counted_hides.
  apply bool_decide_eq_false_2. intros Href. unfold names_item in Hn. rewrite Href in Hn. simpl in Hn.
  destruct (authors !! k) as [a|] eqn:Ha; [|done]. destruct (proj1 (item_authors_known _ _) (ex_intro _ a Ha)) as (c & Hc & Heq).
  by apply (Hk c).
Qed.

Lemma item_state c :
  c ∈ comments ++ reviews ->
  hi_item (hidden_items events scope comments reviews) (ti_id c) =
  match standing_hide scope (ti_author c) (Some (ti_id c)) counted with
  | Some h => Some h
  | None => if bool_decide (c ∈ comments)
        then via_review <$> (r ← ti_review_id c; own_hides scope authors counted !! r) else None
  end.
Proof.
  intros Hc. unfold hi_item, hidden_items. cbn [hi_items]. rewrite cover_lookup by apply own_via. rewrite own_item by done.
  destruct (standing_hide _ _ _ _); [done|].
  assert (NoDup (map ti_id comments)) as Hnd by (rewrite map_app in Hids; by apply NoDup_app in Hids as [? _]).
  case_bool_decide as Hin.
  - by rewrite (head_cover (fun c => r ← ti_review_id c; own_hides scope authors counted !! r)).
  - rewrite (head_cover_none (fun c => r ← ti_review_id c; own_hides scope authors counted !! r)); [done|].
    intros c' Hc' Heq. apply elem_of_app in Hc as [Hc|Hc]; [done|].
    rewrite map_app in Hids. apply NoDup_app in Hids as (_ & Hdis & _). apply (Hdis (ti_id c')).
    + apply list_elem_of_In, in_map_iff. exists c'. split; [done|by apply list_elem_of_In].
    + apply list_elem_of_In, in_map_iff. exists c. split; [done|by apply list_elem_of_In].
Qed.

Lemma item_unknown k :
  (forall c, c ∈ comments ++ reviews -> ti_id c <> k) -> hi_item (hidden_items events scope comments reviews) k = None.
Proof.
  intros Hk. unfold hi_item, hidden_items. cbn [hi_items]. rewrite cover_lookup by apply own_via. rewrite own_unknown by done.
  rewrite (head_cover_none (fun c => r ← ti_review_id c; own_hides scope authors counted !! r)); [done|].
  intros c Hc. apply Hk, elem_of_app. by left.
Qed.

Lemma review_own c h :
  (r ← ti_review_id c; own_hides scope authors counted !! r) = Some h <->
  exists rv, rv ∈ comments ++ reviews /\ ti_review_id c = Some (ti_id rv)
  /\ standing_hide scope (ti_author rv) (Some (ti_id rv)) counted = Some h.
Proof.
  destruct (ti_review_id c) as [r|]; simpl; [|by split; [|intros (? & _ & ? & _)]]. split.
  - intros Hr. destruct (decide (Exists (fun rv => ti_id rv = r) (comments ++ reviews))) as [(rv & Hrv & <-)%Exists_exists|Hno].
    + exists rv. split_and!; [done..|]. by rewrite <-own_item.
    + rewrite own_unknown in Hr; [done|]. intros x Hx Heq. apply Hno, Exists_exists. by exists x.
  - intros (rv & Hrv & [= ->] & Hs). by rewrite own_item.
Qed.
End items.

(** ** Theorems *)

(** A thread or an item of it is hidden by its own hide exactly when the event that decides
    it is a hide: the owner's latest when the owner said anything, else the latest of those
    that count, unless the owner wrote it. A comment without its own hide is hidden with the
    review it belongs to. Nothing else is hidden, and the counted events are those that
    count. *)
Theorem hidden_items_spec events scope comments reviews
    (Hd : distinct_events events) (Hids : NoDup (map ti_id (comments ++ reviews))) :
  let h := hidden_items events scope comments reviews in
  let items := comments ++ reviews in
  let hides author key e := decides events scope (item_authors items) author key e /\ e_kind e = Hide in
  (forall x, hi_thread h = Some x <-> exists e, hides (hs_thread_author scope) None e /\ x = hidden_by e)
  /\ (forall c x, c ∈ items -> hi_item h (ti_id c) = Some x <->
       (exists e, hides (ti_author c) (Some (ti_id c)) e /\ x = hidden_by e)
       \/ ((forall e, ~ hides (ti_author c) (Some (ti_id c)) e) /\ c ∈ comments
           /\ exists rv e, rv ∈ items /\ ti_review_id c = Some (ti_id rv)
                /\ hides (ti_author rv) (Some (ti_id rv)) e /\ x = via_review (hidden_by e)))
  /\ (forall k, (forall c, c ∈ items -> ti_id c <> k) -> hi_item h k = None)
  /\ (forall i, i ∈ hi_counted h <->
       exists e, e ∈ events /\ hide_counts scope e = true /\ names_item (item_authors items) e = true /\ e_id e = i).
Proof.
  cbv zeta.
  assert (forall author key x, standing_hide scope author key (counted_hides events scope (item_authors (comments ++ reviews))) = Some x
    <-> exists e, (decides events scope (item_authors (comments ++ reviews)) author key e /\ e_kind e = Hide) /\ x = hidden_by e) as Hst.
  { intros author key x. rewrite standing_hide_iff by done. split; intros (e & H); exists e; tauto. }
  split_and!.
  - intros x. apply Hst.
  - intros c x Hc. rewrite item_state by done. destruct (standing_hide _ (ti_author c) _ _) as [x'|] eqn:Hs.
    + split; [intros [= ->]; left; by apply Hst|]. apply Hst in Hs as (e1 & He1 & ->).
      intros [H|(Hno & _)]; [|by destruct (Hno e1)]. apply Hst in H. rewrite <-H. symmetry. apply Hst. by exists e1.
    + split.
      * case_bool_decide as Hin; [|done]. destruct (_ ≫= _) as [h|] eqn:Hr; [|done]. simpl. intros [= <-].
        apply (review_own _ _ _ _ Hids) in Hr as (rv & Hrv & Hid & Hsr). right. split_and!; [|done|].
        -- intros e He. assert (standing_hide scope (ti_author c) (Some (ti_id c))
             (counted_hides events scope (item_authors (comments ++ reviews))) = Some (hidden_by e)) by (apply Hst; by exists e). congruence.
        -- apply Hst in Hsr as (e & He & ->). by exists rv, e.
      * intros [H|(_ & Hin & rv & e & Hrv & Hid & He & ->)]; [apply Hst in H; congruence|].
        rewrite bool_decide_eq_true_2 by done.
        assert ((r ← ti_review_id c; own_hides scope (item_authors (comments ++ reviews))
          (counted_hides events scope (item_authors (comments ++ reviews))) !! r) = Some (hidden_by e)) as ->; [|done].
        apply (review_own _ _ _ _ Hids). exists rv. split_and!; [done..|]. apply Hst. by exists e.
  - intros k Hk. by apply item_unknown.
  - intros i. unfold hidden_items. cbn [hi_counted]. rewrite elem_of_list_to_set, list_elem_of_In, in_map_iff.
    split; [intros (e & <- & He%list_elem_of_In%elem_of_counted_hides); exists e; tauto|].
    intros (e & H1 & H2 & H3 & <-). exists e. split; [done|]. by apply list_elem_of_In, elem_of_counted_hides.
Qed.

(** ** One more hide or unhide *)

Lemma counted_snoc events scope authors e :
  (forall e', e' ∈ events -> event_order e' e <> Gt) -> hide_counts scope e = true -> names_item authors e = true ->
  counted_hides (events ++ [e]) scope authors = counted_hides events scope authors ++ [e].
Proof.
  intros Hnew Hc Hn. unfold counted_hides. rewrite List.filter_app. simpl. rewrite Hc.
  rewrite (sort_by_app event_order (List.filter (hide_counts scope) events) [e]).
  - rewrite List.filter_app. simpl. by rewrite Hn.
  - intros x y [Hx _]%list_elem_of_In%filter_In ->%list_elem_of_singleton. apply Hnew. by apply list_elem_of_In.
Qed.

(** [e] decides its key when the owner wrote it, or when neither the item nor any other of the
    key's events is the owner's. *)
Definition lands (scope : HideScope) (author : string) (counted : list Event) (e : Event) : Prop :=
  e_actor e = hs_owner scope
  \/ (author <> hs_owner scope /\ forall e', e' ∈ of_key (e_ref_id e) counted -> e_actor e' <> hs_owner scope).

Lemma standing_snoc scope author counted e :
  let after := standing_hide scope author (e_ref_id e) (counted ++ [e]) in
  (lands scope author counted e -> after = if e_kind e == Hide then Some (hidden_by e) else None)
  /\ (~ lands scope author counted e -> after = standing_hide scope author (e_ref_id e) counted).
Proof.
  cbv zeta. unfold standing_hide. rewrite List.filter_app. simpl. rewrite bool_decide_eq_true_2 by done.
  rewrite decisive_snoc. unfold lands. split.
  - intros [Ha|[Hauth Hno]].
    + rewrite bool_decide_eq_true_2 by done. simpl. by destruct (e_kind e == Hide).
    + case_bool_decide; [simpl; by destruct (e_kind e == Hide)|].
      apply find_owner_none in Hno. rewrite Hno, bool_decide_eq_false_2 by done. simpl. by destruct (e_kind e == Hide).
  - intros Hn. rewrite bool_decide_eq_false_2 by (intros ?; apply Hn; by left).
    unfold decisive. destruct (List.find _ _) as [o|] eqn:Hf; [done|].
    rewrite bool_decide_eq_true_2; [done|]. apply dec_stable. intros Hauth. apply Hn. right. split; [done|].
    by apply find_owner_none.
Qed.

Lemma standing_other scope author key counted e :
  e_ref_id e <> key -> standing_hide scope author key (counted ++ [e]) = standing_hide scope author key counted.
Proof.
  intros Hne. unfold standing_hide. rewrite List.filter_app. simpl. by rewrite bool_decide_eq_false_2, app_nil_r.
Qed.

Section blocked.
Context (events : list Event) (scope : HideScope) (comments reviews : list ThreadItem) (e : Event).
Context (Hids : NoDup (map ti_id (comments ++ reviews))).
Context (Hknown : match e_ref_id e with None => True | Some r => exists c, c ∈ comments ++ reviews /\ ti_id c = r end).
Context (Hcounts : hide_counts scope e = true).
Context (Hnew : forall e', e' ∈ events -> event_order e' e <> Gt).
Abbreviation authors := (item_authors (comments ++ reviews)).
Abbreviation counted := (counted_hides events scope authors).

(** The writer of what [e] names. *)
Definition named_author : string :=
  match e_ref_id e with None => hs_thread_author scope | Some i => default "" (authors !! i) end.

(** What a reader shows for a key. *)
Definition shown_hide (evs : list Event) (item : option string) : option Hidden :=
  let h := hidden_items evs scope comments reviews in
  match item with None => hi_thread h | Some i => hi_item h i end.

Lemma names_known : names_item authors e = true.
Proof.
  unfold names_item. destruct (e_ref_id e) as [r|]; [|done]. simpl.
  destruct (proj2 (item_authors_known _ _) Hknown) as [a ->]. done.
Qed.

Lemma found_author :
  (match e_ref_id e with
  | None => Some (hs_thread_author scope)
  | Some i => ti_author <$> List.find (fun c => ti_id c == i) (comments ++ reviews)
  end) = Some named_author.
Proof.
  unfold named_author. destruct (e_ref_id e) as [i|]; [|done]. destruct Hknown as (c & Hc & <-).
  rewrite (item_authors_unique _ _ Hids Hc). destruct (List.find _ _) as [c'|] eqn:Hf.
  - apply find_some in Hf as [Hin Heq%bool_decide_eq_true]. simpl. f_equal.
    apply list_elem_of_In in Hin. pose proof (item_authors_unique _ _ Hids Hin) as H1.
    pose proof (item_authors_unique _ _ Hids Hc) as H2. rewrite Heq in H1. simpl. congruence.
  - apply list_elem_of_In in Hc. apply (List.find_none _ _ Hf) in Hc. by apply bool_decide_eq_false in Hc.
Qed.

Lemma owner_decided_spec :
  existsb (fun e' => is_hide_kind e' && (e_target_id e' == hs_thread_id scope) && (e_actor e' == hs_owner scope)
                 && (e_ref_id e' == e_ref_id e)) events = true
  <-> exists e', e' ∈ of_key (e_ref_id e) counted /\ e_actor e' = hs_owner scope.
Proof.
  rewrite existsb_exists. setoid_rewrite elem_of_key. split.
  - intros (e' & Hin & Ht). split_bools. exists e'. split; [|done]. unfold about. split_and!; [by apply list_elem_of_In| | |done].
    + unfold hide_counts. by rewrite H, !bool_decide_eq_true_2 by done; rewrite orb_true_r.
    + pose proof names_known as Hn. unfold names_item in *. congruence.
  - intros (e' & (Hin & Hc & _ & Href) & Ha). exists e'. split; [by apply list_elem_of_In|].
    unfold hide_counts in Hc. split_bools. by rewrite H, !bool_decide_eq_true_2.
Qed.

Lemma blocked_lands :
  let signer := e_actor e in
  let decided := existsb (fun e' => is_hide_kind e' && (e_target_id e' == hs_thread_id scope) && (e_actor e' == hs_owner scope)
                 && (e_ref_id e' == e_ref_id e)) events in
  lands scope named_author counted e <->
  (signer != hs_owner scope) && (Some named_author == Some (hs_owner scope)) = false
  /\ (signer != hs_owner scope) && decided = false.
Proof.
  cbv zeta. unfold lands. destruct (decide (e_actor e = hs_owner scope)) as [->|Hne].
  { rewrite bool_decide_eq_true_2 by done. simpl. tauto. }
  rewrite (bool_decide_eq_false_2 _ Hne). simpl. rewrite bool_decide_eq_false, <-not_true_iff_false, owner_decided_spec. split.
  - intros [?|[Ha Hno]]; [done|]. split; [congruence|]. intros (e' & He' & Heq). by apply (Hno e').
  - intros [Ha Hno]. right. split; [congruence|]. intros e' He' Heq. apply Hno. by exists e'.
Qed.

(** The own hide of a key after [e]. *)
Lemma standing_after author key :
  standing_hide scope author key (counted_hides (events ++ [e]) scope authors) =
  standing_hide scope author key (if bool_decide (e_ref_id e = key) then counted ++ [e] else counted).
Proof.
  rewrite counted_snoc by (done || apply names_known). case_bool_decide; [done|]. by apply standing_other.
Qed.

Lemma own_after k :
  (e_ref_id e <> Some k \/ ~ lands scope named_author counted e) ->
  own_hides scope authors (counted_hides (events ++ [e]) scope authors) !! k = own_hides scope authors counted !! k.
Proof.
  intros H. rewrite !own_hides_lookup, standing_after. case_bool_decide as Hk; [|done].
  destruct H as [H|H]; [done|]. assert (named_author = default "" (authors !! k)) as Ha by (unfold named_author; by rewrite Hk).
  rewrite <-Ha, <-Hk. by apply standing_snoc.
Qed.

Lemma own_after_landed k :
  e_ref_id e = Some k -> lands scope named_author counted e ->
  own_hides scope authors (counted_hides (events ++ [e]) scope authors) !! k
  = if e_kind e == Hide then Some (hidden_by e) else None.
Proof.
  intros Hk Hl. rewrite own_hides_lookup, standing_after, bool_decide_eq_true_2, <-Hk by done.
  assert (named_author = default "" (authors !! k)) as <- by (unfold named_author; by rewrite Hk).
  by apply standing_snoc.
Qed.

Lemma thread_after :
  e_ref_id e = None -> lands scope named_author counted e ->
  shown_hide (events ++ [e]) None = if e_kind e == Hide then Some (hidden_by e) else None.
Proof.
  intros Hk Hl. change (shown_hide (events ++ [e]) None)
    with (standing_hide scope (hs_thread_author scope) None (counted_hides (events ++ [e]) scope authors)).
  rewrite standing_after, bool_decide_eq_true_2, <-Hk by done.
  assert (named_author = hs_thread_author scope) as <- by (unfold named_author; by rewrite Hk). by apply standing_snoc.
Qed.

(** Nothing moves when [e] does not decide its key. *)
Lemma unlanded_same : ~ lands scope named_author counted e -> shown_hide (events ++ [e]) (e_ref_id e) = shown_hide events (e_ref_id e).
Proof.
  intros Hn. unfold shown_hide.
  assert ((exists k, e_ref_id e = Some k) \/ e_ref_id e = None) as [[k Hk]|Hk] by (clear; destruct (e_ref_id e); eauto); rewrite Hk.
  - unfold hi_item, hidden_items. cbn [hi_items]. rewrite !cover_lookup by apply own_via.
    rewrite own_after by by right. destruct (_ !! k); [done|]. f_equal. f_equal. apply omap_ext. intros c.
    destruct (ti_id c == k); [|done]. destruct (ti_review_id c) as [r|]; [|done]. simpl. apply own_after. by right.
  - unfold hidden_items. cbn [hi_thread]. rewrite standing_after, bool_decide_eq_true_2 by done.
    assert (named_author = hs_thread_author scope) as Ha by (unfold named_author; by rewrite Hk).
    pose proof (proj2 (standing_snoc scope named_author counted e) Hn) as H. by rewrite Hk, Ha in H.
Qed.

Definition covered (evs : list Event) (c : ThreadItem) : option Hidden :=
  if bool_decide (c ∈ comments)
  then r ← ti_review_id c; own_hides scope authors (counted_hides evs scope authors) !! r else None.

Lemma shown_item evs c :
  c ∈ comments ++ reviews ->
  shown_hide evs (Some (ti_id c)) =
  match own_hides scope authors (counted_hides evs scope authors) !! ti_id c with
  | Some h => Some h
  | None => via_review <$> covered evs c
  end.
Proof.
  intros Hc. unfold shown_hide, covered. rewrite (item_state _ _ _ _ Hids c Hc), (own_item _ _ _ _ Hids c Hc).
  destruct (standing_hide _ _ _ _); [done|]. by case_bool_decide.
Qed.

(** After a landed unhide, the review's cover is what it was, unless the item covered itself. *)
Lemma covered_after c :
  e_ref_id e = Some (ti_id c) -> lands scope named_author counted e -> e_kind e <> Hide ->
  own_hides scope authors counted !! ti_id c = None -> covered (events ++ [e]) c = covered events c.
Proof.
  intros Hk Hl Hu Hown. unfold covered. case_bool_decide; [|done]. destruct (ti_review_id c) as [r|]; [|done]. simpl.
  destruct (decide (r = ti_id c)) as [->|Hne].
  - rewrite (own_after_landed _ Hk Hl), bool_decide_eq_false_2 by done. by rewrite Hown.
  - apply own_after. left. rewrite Hk. congruence.
Qed.
(** A landed event, by what was shown before. *)
Lemma blocked_effect :
  lands scope named_author counted e ->
  (forall h, shown_hide events (e_ref_id e) = Some h -> hd_via h <> ViaBan)
  /\ ((e_kind e == Hide) = true -> shown_hide (events ++ [e]) (e_ref_id e) = Some (hidden_by e))
  /\ ((e_kind e == Hide) = false ->
   match hd_via <$> shown_hide events (e_ref_id e) with
   | None => shown_hide (events ++ [e]) (e_ref_id e) = None
   | Some ViaItem => forall h, shown_hide (events ++ [e]) (e_ref_id e) = Some h -> hd_via h = ViaReview
   | _ => is_some_and (shown_hide (events ++ [e]) (e_ref_id e)) (fun _ => true) = true
   end).
Proof.
  intros Hl. assert ((exists c, c ∈ comments ++ reviews /\ e_ref_id e = Some (ti_id c)) \/ e_ref_id e = None) as [(c & Hc & Hk)|Hk].
  { clear -Hknown. destruct (e_ref_id e); [|by right]. destruct Hknown as (c & Hc & <-). left. by exists c. }
  - rewrite Hk, !shown_item, (own_after_landed _ Hk Hl) by done. split_and!.
    + intros h. destruct (own_hides _ _ _ !! _) as [h'|] eqn:Ho; [intros [= <-]; by rewrite (own_via _ _ _ _ _ Ho)|].
      destruct (covered events c); [|done]. by intros [= <-].
    + by intros ->.
    + intros Ek. rewrite Ek. apply bool_decide_eq_false in Ek. destruct (own_hides _ _ _ !! _) as [h'|] eqn:Ho; simpl.
      * rewrite (own_via _ _ _ _ _ Ho). intros h. destruct (covered _ c); [|done]. by intros [= <-].
      * rewrite covered_after by done. by destruct (covered events c).
  - rewrite Hk, thread_after by done. change (shown_hide events None)
      with (standing_hide scope (hs_thread_author scope) None counted). split_and!.
    + intros h Hh. by rewrite (standing_via _ _ _ _ _ Hh).
    + by intros ->.
    + intros ->. destruct (standing_hide _ _ _ _) as [h|] eqn:Hh; [|done]. simpl. by rewrite (standing_via _ _ _ _ _ Hh).
Qed.
End blocked.

(** A client refuses a hide or an unhide exactly when it would not take effect. A refused one
    leaves what it names shown or hidden as it was; any other hide makes it hidden by that very
    event, and any other unhide takes away the hide it has of its own. *)
Theorem hide_blocked_spec events scope comments reviews e
    (Hids : NoDup (map ti_id (comments ++ reviews)))
    (Hknown : match e_ref_id e with None => True | Some r => exists c, c ∈ comments ++ reviews /\ ti_id c = r end)
    (Hcounts : hide_counts scope e = true)
    (Hnew : forall e', e' ∈ events -> event_order e' e <> Gt) :
  let before := shown_hide scope comments reviews events (e_ref_id e) in
  let after := shown_hide scope comments reviews (events ++ [e]) (e_ref_id e) in
  match hide_blocked events scope comments reviews (e_actor e) (e_ref_id e) (e_kind e == Hide) with
  | Some _ => is_some_and after (fun _ => true) = is_some_and before (fun _ => true)
  | None => if e_kind e == Hide then after = Some (hidden_by e)
            else (exists h, before = Some h /\ hd_via h = ViaItem) /\ forall h, after = Some h -> hd_via h = ViaReview
  end.
Proof.
  cbv zeta. unfold hide_blocked. rewrite (found_author _ _ _ _ Hids Hknown).
  set (decided := existsb _ events).
  pose proof (blocked_lands events scope comments reviews e Hknown Hcounts) as Hl. cbv zeta in Hl. fold decided in Hl.
  destruct ((e_actor e != hs_owner scope) && _) eqn:E1.
  { by rewrite unlanded_same by (done || intros [? _]%Hl; congruence). }
  destruct ((e_actor e != hs_owner scope) && decided) eqn:E2.
  { by rewrite unlanded_same by (done || intros [_ ?]%Hl; congruence). }
  assert (lands scope (named_author scope comments reviews e) (counted_hides events scope (item_authors (comments ++ reviews))) e)
    as Hland by by apply Hl. clear Hl E1 E2 decided.
  change (match e_ref_id e with None => hi_thread (hidden_items events scope comments reviews)
    | Some i => hi_item (hidden_items events scope comments reviews) i end)
    with (shown_hide scope comments reviews events (e_ref_id e)).
  destruct (blocked_effect events scope comments reviews e Hids Hknown Hcounts Hnew Hland) as (Hvia & Hhide & Hshow).
  destruct (e_kind e == Hide) eqn:Ek.
  - rewrite (Hhide eq_refl). by destruct (shown_hide _ _ _ events _) as [[? ? ? ? [] ?]|].
  - specialize (Hshow eq_refl). destruct (shown_hide _ _ _ events _) as [[b r a i v br]|]; simpl in *; [|by rewrite Hshow].
    destruct v; simpl in *; [|by rewrite Hshow|by destruct (Hvia _ eq_refl)].
    split; [by eexists|done].
Qed.

(** ** Witnesses *)

Definition mod_event (id : string) (kind : EventKind) (actor : string) (ref : option string) (t : N) : Event :=
  mkEvent id "thread" kind actor None None ref t.
Definition mod_scope : HideScope := mkHideScope "thread" "zoe" "owner" {["ann"]} false.
Definition mod_comments : list ThreadItem := [mkThreadItem "c1" "bob" (Some "r1"); mkThreadItem "c2" "owner" None].
Definition mod_reviews : list ThreadItem := [mkThreadItem "r1" "bob" None].
Definition mod_events : list Event := [mod_event "e1" Hide "ann" (Some "r1") 5; mod_event "e2" Hide "bob" None 6].

Lemma hidden_items_spec_witness :
  hi_item (hidden_items mod_events mod_scope mod_comments mod_reviews) "c2" = None
  /\ (exists x, hi_item (hidden_items mod_events mod_scope mod_comments mod_reviews) "c1" = Some x /\ hd_via x = ViaReview).
Proof.
  assert (distinct_events mod_events) as Hd.
  { intros a b Ha Hb. unfold mod_events in *. repeat (apply elem_of_cons in Ha as [->|Ha]); try (by apply elem_of_nil in Ha);
      repeat (apply elem_of_cons in Hb as [->|Hb]); try (by apply elem_of_nil in Hb); done. }
  assert (NoDup (map ti_id (mod_comments ++ mod_reviews))) as Hids by (apply (bool_decide_unpack _); reflexivity).
  destruct (hidden_items_spec mod_events mod_scope mod_comments mod_reviews Hd Hids) as (_ & Hitem & _).
  split; [reflexivity|]. eexists. split; [reflexivity|]. reflexivity.
Defined.

Lemma hide_blocked_spec_witness :
  hide_blocked mod_events mod_scope mod_comments mod_reviews "ann" (Some "c1") true = None
  /\ shown_hide mod_scope mod_comments mod_reviews (mod_events ++ [mod_event "e3" Hide "ann" (Some "c1") 7]) (Some "c1")
     = Some (hidden_by (mod_event "e3" Hide "ann" (Some "c1") 7)).
Proof.
  split; [reflexivity|].
  apply (hide_blocked_spec mod_events mod_scope mod_comments mod_reviews (mod_event "e3" Hide "ann" (Some "c1") 7)).
  - apply (bool_decide_unpack _). reflexivity.
  - exists (mkThreadItem "c1" "bob" (Some "r1")). split; [by left|done].
  - reflexivity.
  - intros e' He'. unfold mod_events in He'. repeat (apply elem_of_cons in He' as [->|He']; [done|]). by apply elem_of_nil in He'.
Defined.
