(* ===== verification/Bans.v ===== *)
(** Bans ([rules/bans.rs]): the standing ban of each banned identity and what it collapses in a
    thread, on top of the maintainers' hides. *)
From S2P Require Import Prelude Moderation.

(** ** Definitions *)

Definition BAN_REASONS : list (N * string) := [(1%N, "spam"); (2%N, "abuse"); (3%N, "off-topic")].
Definition BAN_REASON_OTHER : string := "other".

Definition ban_reason_label (code : option N) : option string :=
  match code with
  | None | Some 0%N => None
  | Some c => Some (match List.find (fun p => (p.1 =? c)%N) BAN_REASONS with Some p => p.2 | None => BAN_REASON_OTHER end)
  end.

Definition ban_reason_code (name : string) : option N :=
  fst <$> List.find (fun p => eq_ignore_case p.2 name) BAN_REASONS.

Record Ban := mkBan { bn_id : string; bn_identity : string; bn_by : string; bn_reason : option N; bn_created_at : N }.
Record BanScope := mkBanScope { bs_owner : string; bs_maintainers : gset string }.

Definition moderates (scope : BanScope) (identity : string) : bool :=
  (identity == bs_owner scope) || bool_decide (identity ∈ bs_maintainers scope).

Definition ban_cmp : Ban -> Ban -> comparison := cmp_then (cmp_on bn_created_at N.compare) (cmp_on bn_id String.compare).

Definition ban_counts (scope : BanScope) (b : Ban) : bool := moderates scope (bn_by b) && negb (moderates scope (bn_identity b)).

Definition ban_step (owner : string) (out : gmap string Ban) (b : Ban) : gmap string Ban :=
  match out !! bn_identity b with
  | Some have => if (bn_by have != owner) && (bn_by b == owner) then <[bn_identity b := b]> out else out
  | None => <[bn_identity b := b]> out
  end.

Definition standing_bans (bans : list Ban) (scope : BanScope) : gmap string Ban :=
  foldl (ban_step (bs_owner scope)) ∅ (sort_by ban_cmp (List.filter (ban_counts scope) bans)).

Definition ban_hidden (b : Ban) : Hidden :=
  mkHidden (bn_by b) None (bn_created_at b) (bn_id b) ViaBan (Some (default 0%N (bn_reason b))).

Definition ban_item (bans : gmap string Ban) (items : gmap string Hidden) (item : ThreadItem) : gmap string Hidden :=
  match items !! ti_id item, bans !! ti_author item with
  | None, Some b => <[ti_id item := ban_hidden b]> items
  | _, _ => items
  end.

Definition apply_bans (hidden : HiddenItems) (bans : gmap string Ban) (thread_author : string)
    (comments reviews : list ThreadItem) : HiddenItems :=
  if bool_decide (bans = ∅) then hidden
  else
    mkHiddenItems
      (match hi_thread hidden with Some h => Some h | None => ban_hidden <$> bans !! thread_author end)
      (foldl (ban_item bans) (hi_items hidden) (comments ++ reviews))
      (hi_counted hidden).

(** ** Helper lemmas *)

#[export] Instance ban_cmp_ord : CmpOrd ban_cmp.
Proof. unfold ban_cmp. apply _. Qed.

Lemma find_snoc {A} (p : A -> bool) l x :
  List.find p (l ++ [x]) = match List.find p l with Some y => Some y | None => if p x then Some x else None end.
Proof. by rewrite find_app. Qed.

Lemma bans_lookup owner l k :
  foldl (ban_step owner) ∅ l !! k =
  match List.find (fun b => (bn_identity b == k) && (bn_by b == owner)) l with
  | Some b => Some b
  | None => List.find (fun b => bn_identity b == k) l
  end.
Proof.
  induction l as [|b l IH] using rev_ind; [done|]. rewrite foldl_snoc, !find_snoc. set (out := foldl _ _ l) in *.
  assert (forall h, out !! k = Some h -> (bn_by h == owner) =
    is_some_and (List.find (fun b => (bn_identity b == k) && (bn_by b == owner)) l) (fun _ => true)) as Hby.
  { intros h Hh. rewrite IH in Hh. destruct (List.find _ l) as [o|] eqn:Ho; simpl.
    - injection Hh as <-. apply find_some in Ho as [_ [_ Ho]%andb_true_iff]. done.
    - apply find_some in Hh as [Hin Hk]. pose proof (List.find_none _ _ Ho h Hin) as Hn. cbv beta in Hn. by rewrite Hk in Hn. }
  unfold ban_step. destruct (decide (bn_identity b = k)) as [->|Hne].
  - rewrite (bool_decide_eq_true_2 (k = k)) by done. cbn [andb]. destruct (out !! k) as [h|] eqn:Hout.
    + rewrite (Hby h eq_refl). destruct (List.find (fun b => _ && _) l) as [o|]; simpl; [congruence|].
      rewrite <-IH. destruct (bn_by b == owner); [by rewrite lookup_insert_eq|done].
    + rewrite lookup_insert_eq. destruct (List.find (fun b => _ && _) l); [done|]. rewrite <-IH. by destruct (bn_by b == owner).
  - rewrite (bool_decide_eq_false_2 _ Hne). cbn [andb].
    assert (match out !! bn_identity b with
            | Some have => if (bn_by have != owner) && (bn_by b == owner) then <[bn_identity b:=b]> out else out
            | None => <[bn_identity b:=b]> out end !! k = out !! k) as ->.
    { destruct (out !! bn_identity b); [destruct (_ && _)|]; by rewrite ?lookup_insert_ne. }
    rewrite IH. destruct (List.find (fun b => _ && _) l); [done|]. by destruct (List.find _ l).
Qed.

Lemma find_first (p : Ban -> bool) l b :
  StronglySorted (fun a b => ban_cmp a b <> Gt) l -> List.find p l = Some b ->
  b ∈ l /\ p b = true /\ forall b', b' ∈ l -> p b' = true -> ban_cmp b b' <> Gt.
Proof.
  induction 1 as [|x l Hs IH Hx]; [done|]. simpl. destruct (p x) eqn:Hp.
  - intros [= <-]. split_and!; [by left|done|]. intros b' [->|Hb']%elem_of_cons _; [by rewrite (cmp_refl ban_cmp)|].
    rewrite Forall_forall in Hx. by apply Hx.
  - intros Hf. destruct (IH Hf) as (Hb & Hpb & Hmin). split_and!; [by right|done|].
    intros b' [->|Hb']%elem_of_cons Hpb'; [congruence|by apply Hmin].
Qed.

(** ** Theorems *)

(** An identity is banned exactly when the owner or a current maintainer bans it and it is
    neither itself; the ban that stands is the owner's earliest, or the earliest when the owner
    has none. *)
Theorem standing_bans_spec bans scope k :
  let counts b := b ∈ bans /\ ban_counts scope b = true /\ bn_identity b = k in
  match standing_bans bans scope !! k with
  | None => forall b, ~ counts b
  | Some b =>
    counts b /\ ((bn_by b = bs_owner scope /\ forall b', counts b' -> bn_by b' = bs_owner scope -> ban_cmp b b' <> Gt)
                 \/ (forall b', counts b' -> bn_by b' <> bs_owner scope /\ ban_cmp b b' <> Gt))
  end.
Proof.
  cbv zeta. unfold standing_bans. rewrite bans_lookup. set (l := sort_by ban_cmp _).
  assert (StronglySorted (fun a b => ban_cmp a b <> Gt) l) as Hs by apply sort_by_sorted, _.
  assert (forall b, b ∈ l <-> b ∈ bans /\ ban_counts scope b = true) as Hl.
  { intros b. unfold l. by rewrite elem_of_sort_by, list_elem_of_In, filter_In, <-list_elem_of_In. }
  destruct (List.find (fun b => (bn_identity b == k) && _) l) as [b|] eqn:Ho.
  - apply (find_first _ _ _ Hs) in Ho as ([Hb Hc]%Hl & Hp & Hmin). split_bools. split; [done|]. left. split; [done|].
    intros b' (Hb' & Hc' & Hk') Hby. apply Hmin; [by apply Hl|]. by rewrite !bool_decide_eq_true_2.
  - assert (forall b, b ∈ l -> bn_identity b = k -> bn_by b <> bs_owner scope) as Hno.
    { intros b Hb%list_elem_of_In Hk Hby. apply (List.find_none _ _ Ho) in Hb. by rewrite !bool_decide_eq_true_2 in Hb. }
    destruct (List.find (fun b => bn_identity b == k) l) as [b|] eqn:Hf.
    + apply (find_first _ _ _ Hs) in Hf as ([Hb Hc]%Hl & Hp%bool_decide_eq_true & Hmin). split; [done|]. right.
      intros b' (Hb' & Hc' & Hk'). split; [apply Hno; [by apply Hl|done]|].
      apply Hmin; [by apply Hl|]. by rewrite bool_decide_eq_true_2.
    + intros b (Hb & Hc & Hk). assert (In b l) as Hin by by apply list_elem_of_In, Hl.
      apply (List.find_none _ _ Hf) in Hin. by rewrite bool_decide_eq_true_2 in Hin.
Qed.

(** Bans only add: a hide a maintainer made stays as it is, every other item whose writer is
    banned is collapsed by that ban, and so is the thread of a banned author; nothing else
    changes, and moderators' work is never collapsed by a ban. *)
Theorem apply_bans_spec hidden bans scope thread_author comments reviews
    (Hids : NoDup (map ti_id (comments ++ reviews))) :
  let banned := standing_bans bans scope in
  let out := apply_bans hidden banned thread_author comments reviews in
  hi_thread out = match hi_thread hidden with Some h => Some h | None => ban_hidden <$> banned !! thread_author end
  /\ (forall c, c ∈ comments ++ reviews ->
       hi_item out (ti_id c) = match hi_item hidden (ti_id c) with Some h => Some h | None => ban_hidden <$> banned !! ti_author c end)
  /\ (forall k, (forall c, c ∈ comments ++ reviews -> ti_id c <> k) -> hi_item out k = hi_item hidden k)
  /\ hi_counted out = hi_counted hidden
  /\ (forall i, moderates scope i = true -> banned !! i = None).
Proof.
  cbv zeta. set (banned := standing_bans bans scope).
  assert (forall items k, NoDup (map ti_id items) ->
    (forall c, c ∈ items -> ti_id c = k ->
       foldl (ban_item banned) (hi_items hidden) items !! k
       = match hi_items hidden !! k with Some h => Some h | None => ban_hidden <$> banned !! ti_author c end)
    /\ ((forall c, c ∈ items -> ti_id c <> k) -> foldl (ban_item banned) (hi_items hidden) items !! k = hi_items hidden !! k)) as Hfold.
  { intros items k. induction items as [|i items IH] using rev_ind; [intros _; split; [by intros c ?%elem_of_nil|done]|].
    rewrite map_app, foldl_snoc. intros (Hnd & Hdis & _)%NoDup_app. destruct (IH Hnd) as [H1 H2].
    assert (forall c, c ∈ items -> ti_id c <> ti_id i) as Hfresh.
    { intros c Hc Heq. apply (Hdis (ti_id c)); [|simpl; rewrite Heq; by left]. apply list_elem_of_In, in_map_iff.
      exists c. split; [done|by apply list_elem_of_In]. }
    set (m := foldl _ _ items) in *. unfold ban_item. split.
    - intros c [Hc| ->%list_elem_of_singleton]%elem_of_app Hk.
      + specialize (Hfresh c Hc). rewrite <-(H1 c Hc Hk). destruct (m !! ti_id i); [done|]. destruct (banned !! _); [|done].
        rewrite lookup_insert_ne; [done|]. by rewrite <-Hk.
      + rewrite Hk, H2 by (intros c Hc; rewrite <-Hk; by apply Hfresh).
        destruct (hi_items hidden !! k) as [h|] eqn:Hh; [rewrite H2; [done|intros c Hc; rewrite <-Hk; by apply Hfresh]|].
        destruct (banned !! ti_author i); [by rewrite lookup_insert_eq|]. rewrite H2; [done|intros c Hc; rewrite <-Hk; by apply Hfresh].
    - intros Hk. assert (ti_id i <> k) as Hi by (apply Hk, elem_of_app; right; by left).
      rewrite <-H2 by (intros c Hc; apply Hk, elem_of_app; by left). destruct (m !! ti_id i); [done|].
      destruct (banned !! _); [by rewrite lookup_insert_ne|done]. }
  assert (forall i, moderates scope i = true -> banned !! i = None) as Hmod.
  { intros i Hi. unfold banned, standing_bans. rewrite bans_lookup.
    assert (forall p : Ban -> bool, (forall b, p b = true -> bn_identity b = i) ->
      List.find p (sort_by ban_cmp (List.filter (ban_counts scope) bans)) = None) as Hnone.
    { intros p Hp. destruct (List.find p _) as [b|] eqn:Hf; [|done]. apply find_some in Hf as [Hin Hpb].
      apply list_elem_of_In in Hin. rewrite elem_of_sort_by in Hin.
      apply list_elem_of_In, filter_In in Hin as [_ [_ Hn]%andb_true_iff]. by rewrite (Hp b Hpb), Hi in Hn. }
    rewrite !Hnone; [done| |]; intros b Hb; split_bools; done. }
  unfold apply_bans. case_bool_decide as He.
  - rewrite He. split_and!; [| |done|done|by rewrite <-He].
    + rewrite lookup_empty. by destruct (hi_thread hidden).
    + intros c _. rewrite lookup_empty. by destruct (hi_item hidden _).
  - cbn [hi_thread hi_counted]. split_and!; [done| | |done|done].
    + intros c Hc. unfold hi_item. cbn [hi_items]. by apply (Hfold _ _ Hids).
    + intros k Hk. unfold hi_item. cbn [hi_items]. by apply (Hfold _ _ Hids).
Qed.

(** ** Witness *)

Definition ban_scope : BanScope := mkBanScope "owner" {["ann"]}.
Definition bans : list Ban := [mkBan "b1" "bob" "ann" (Some 1%N) 3; mkBan "b2" "bob" "owner" None 9; mkBan "b3" "ann" "owner" None 1].

Lemma apply_bans_spec_witness :
  let out := apply_bans (mkHiddenItems None ∅ ∅) (standing_bans bans ban_scope) "zoe" [mkThreadItem "c1" "bob" None] [] in
  hi_item out "c1" = Some (ban_hidden (mkBan "b2" "bob" "owner" None 9)) /\ standing_bans bans ban_scope !! "ann" = None.
Proof.
  destruct (apply_bans_spec (mkHiddenItems None ∅ ∅) bans ban_scope "zoe" [mkThreadItem "c1" "bob" None] []) as (_ & H & _ & _ & Hm).
  - apply (bool_decide_unpack _). reflexivity.
  - split; [by apply (H (mkThreadItem "c1" "bob" None)); left|by apply Hm].
Defined.
