(* ===== verification/PushGrants.v ===== *)
(** Bot push grants ([rules/push_grant.rs]): which grant a bot may push a ref under, what a
    pattern or an end date can grant, and how a reader marks a bot's push. *)
From S2P Require Import Wire.
From S2P Require Import Prelude.
From S2P Require Import Text.
From S2P Require Import Document.
From S2P Require Import Names.

(** ** Definitions *)

Definition EXACT_GRANT : string := "pg".
Definition PREFIX_GRANT : string := "pp".
Definition CLAIMED_ROLE : string := "r".
Definition BOT_PUSH_ROLE : N := 4.
Definition DAY_MS : N := 86400000.
Definition MAX_TTL_MS : N := 90 * DAY_MS.
Definition DEFAULT_TTL_MS : N := 30 * DAY_MS.
Definition RENEW_WINDOW_MS : N := 14 * DAY_MS.
Definition TTL_MARGIN_MS : N := 10 * 60000.
Definition BRANCHES : string := "refs/heads/".
Definition PREFIX_MAX : nat := 255.

Record PushGrant := mkPushGrant {
  gr_id : string;
  gr_granter : string;
  gr_bot : string;
  gr_prefix : option string;
  gr_scope : option string;
  gr_until : N;
  gr_created_at : N;
}.

Inductive PushTarget := Public (name : string) | Exact (hash : string).

Section from_doc.
(** [platform::encode_identifier] and [hex::encode]. *)
Context (encode_identifier hex_encode : list byte -> string).

Definition from_doc (d : FetchedDocument) : option PushGrant :=
  created_at ← fd_created_at d;
  until ← field_u64 d "until";
  let prefix := field_str d "prefix" in
  let scope := hex_encode <$> field_bytes32 d "scope" in
  if (is_some_and prefix (fun _ => true) == is_some_and scope (fun _ => true)) || (until <=? created_at)%N then None else
  bot ← field_bytes32 d "botId";
  Some (mkPushGrant (fd_id d) (fd_owner_id d) (encode_identifier bot) prefix scope until created_at).

Definition named_grant (d : FetchedDocument) : option string :=
  encode_identifier <$> match field_bytes32 d PREFIX_GRANT with Some b => Some b | None => field_bytes32 d EXACT_GRANT end.
End from_doc.

Definition is_bot_push (d : FetchedDocument) : bool := field_u64 d CLAIMED_ROLE == Some BOT_PUSH_ROLE.

Definition covers (g : PushGrant) (target : PushTarget) : bool :=
  match target, gr_prefix g, gr_scope g with
  | Public name, Some p, None => starts_with p name
  | Exact hash, None, Some s => eq_ignore_case s hash
  | _, _, _ => false
  end.

Definition is_exact (g : PushGrant) : bool := is_some_and (gr_scope g) (fun _ => true).
Definition renew_due (g : PushGrant) (now : N) : bool := (now <? gr_until g)%N && (gr_until g - now <=? RENEW_WINDOW_MS)%N.

Inductive Unusable := Expired | GranterGone | NotABot | OlderThanBotRow.

Record GrantContext := mkGrantContext { gc_now : N; gc_bot_row_at : option N; gc_maintainers : gset string }.

(** [None] when the grant can be pushed under. *)
Definition usable (g : PushGrant) (ctx : GrantContext) : option Unusable :=
  match gc_bot_row_at ctx with
  | None => Some NotABot
  | Some row =>
    if (gr_created_at g <? row)%N then Some OlderThanBotRow
    else if negb (bool_decide (gr_granter g ∈ gc_maintainers ctx)) then Some GranterGone
    else if (gr_until g <=? gc_now ctx)%N then Some Expired
    else None
  end.

Inductive NoGrant := NotCovered | UnusableGrant (why : Unusable).

Definition by_end : PushGrant -> PushGrant -> comparison :=
  cmp_then (cmp_on gr_until N.compare) (cmp_then (cmp_on gr_created_at N.compare) (cmp_on gr_id String.compare)).
Definition by_age : PushGrant -> PushGrant -> comparison := cmp_then (cmp_on gr_created_at N.compare) (cmp_on gr_id String.compare).

(** The [expect] that a covering grant is unusable when none is usable is the outer [None]. *)
Definition pick (grants : list PushGrant) (target : PushTarget) (ctx : GrantContext) : option (PushGrant + NoGrant) :=
  let covering := List.filter (fun g => covers g target) grants in
  match max_by by_end (List.filter (fun g => usable g ctx == None) covering) with
  | Some g => Some (inl g)
  | None =>
    match max_by by_age covering with
    | None => Some (inr NotCovered)
    | Some newest => why ← usable newest ctx; Some (inr (UnusableGrant why))
    end
  end.

Inductive PatternRefusal := EmptyPattern | NotABranch | NotAPrefix | Malformed.

Definition prefix_of (pattern : string) : string + PatternRefusal :=
  let p := trim pattern in
  if (p == "") || (p == "*") then inr EmptyPattern else
  if starts_with "refs/" p && negb (starts_with BRANCHES p) then inr NotABranch else
  let full := if starts_with "refs/" p then p else BRANCHES +:+ p in
  let full := default full (strip_suffix "*" full) in
  if str_contains "*" full || str_contains "?" full || str_contains "[" full then inr NotAPrefix else
  if (String.length full <=? String.length BRANCHES) || (PREFIX_MAX <? String.length full)
     || str_contains ".." full || str_contains "//" full
     || has_control (bytes full) || existsb (fun c => existsb (fun b => b == c) (bytes full)) (bytes " \~^:")
  then inr Malformed
  else inl full.

Definition default_prefix (bot_name : string) : string := BRANCHES +:+ "bot/" +:+ trim_start_char "@" bot_name +:+ "/".
Definition short_prefix (prefix : string) : string := default prefix (strip_prefix BRANCHES prefix).

Inductive UntilRefusal := Past | TooFar.

(** [+] on a [u64], whose overflow panics in a checked build. *)
Definition add_u64 (a b : N) : Result N := if (a + b <=? u64_max)%N then Ok (a + b)%N else Panic.

Definition until_for (now : N) (requested : option N) : Result (N + UntilRefusal) :=
  latest ← add_u64 now MAX_TTL_MS;
  let latest := (latest - TTL_MARGIN_MS)%N in
  match requested with
  | None => u ← add_u64 now DEFAULT_TTL_MS; Ok (inl u)
  | Some u =>
    if (u <=? now)%N then Ok (inr Past)
    else far ← add_u64 now MAX_TTL_MS; if (far <? u)%N then Ok (inr TooFar) else Ok (inl (N.min u latest))
  end.

Inductive PushMark := Granted | Outside.

Definition mark (at_ : N) (grant : option PushGrant) (bot_row_at : option N) (notice_allows_push : option bool) : PushMark :=
  let older := match grant, bot_row_at with Some g, Some row => (gr_created_at g <? row)%N | _, _ => false end in
  let before_row := is_some_and bot_row_at (fun row => at_ <? row)%N in
  if (older && negb before_row) || (notice_allows_push == Some false) then Outside else Granted.

(** ** Properties *)

#[export] Instance by_end_ord : CmpOrd by_end.
Proof. apply _. Qed.
#[export] Instance by_age_ord : CmpOrd by_age.
Proof. apply _. Qed.

(** A grant that counts: its bot's row is no younger, its granter is still a maintainer, and
    it has not ended. *)
Definition live (g : PushGrant) (ctx : GrantContext) : Prop :=
  exists row, gc_bot_row_at ctx = Some row /\ (row <= gr_created_at g)%N /\ gr_granter g ∈ gc_maintainers ctx /\ (gc_now ctx < gr_until g)%N.

Lemma usable_live g ctx : usable g ctx = None <-> live g ctx.
Proof.
  unfold usable, live. destruct (gc_bot_row_at ctx) as [row|]; [|split; [done|intros (? & ? & _); done]].
  destruct (N.ltb_spec (gr_created_at g) row).
  { split; [done|]. intros (? & [= ->] & ? & _). lia. }
  case_bool_decide as Hm; simpl; [|split; [done|intros (? & ? & ? & ? & _); done]].
  destruct (N.leb_spec (gr_until g) (gc_now ctx)); (split; [try done|]); [intros (? & ? & ? & ? & ?); lia|intros _; by exists row|done].
Qed.

Lemma elem_of_covering grants target g : g ∈ List.filter (fun g => covers g target) grants <-> g ∈ grants /\ covers g target = true.
Proof. by rewrite !list_elem_of_In, filter_In. Qed.

Lemma elem_of_live grants target ctx g :
  g ∈ List.filter (fun g => usable g ctx == None) (List.filter (fun g => covers g target) grants) <-> g ∈ grants /\ covers g target = true /\ live g ctx.
Proof. rewrite list_elem_of_In, filter_In, <-list_elem_of_In, elem_of_covering, bool_decide_eq_true, usable_live. tauto. Qed.

Lemma strip_suffix_app p s r : strip_suffix p s = Some r -> s = r +:+ p.
Proof.
  unfold strip_suffix. destruct (strip_prefix (str_rev p) (str_rev s)) as [x|] eqn:E; [|done]. intros [= <-].
  apply strip_prefix_app in E. apply (f_equal str_rev) in E. unfold str_rev in *. rewrite bytes_app, !bytes_of_bytes in E.
  rewrite rev_app_distr, !rev_involutive, of_bytes_bytes in E. rewrite E. rewrite <-(of_bytes_bytes p) at 2.
  clear. induction (rev (bytes x)) as [|a l IH]; simpl; [by rewrite !of_bytes_bytes|]. by rewrite IH.
Qed.

Lemma starts_with_take p r q : starts_with p (r +:+ q) = true -> String.length p <= String.length r -> starts_with p r = true.
Proof.
  unfold starts_with. revert r. induction p as [|a p IH]; intros r; [done|]. destruct r as [|b r]; simpl; [lia|].
  case_bool_decide as E; [|done]. intros H Hl. apply IH; [exact H|lia].
Qed.

Lemma contains_refl p s : starts_with p s = true -> str_contains p s = true.
Proof. destruct s; simpl; by intros ->. Qed.

Lemma contains_byte c s : str_contains (String c "") s = true -> c ∈ bytes s.
Proof.
  induction s as [|a s IH]; intros H; simpl in *; [done|]. apply orb_true_iff in H as [H|H]; [|by right; apply IH].
  unfold starts_with in H. simpl in H. case_bool_decide as E; [subst; left|done].
Qed.

(** A character that a text does not contain is none of its bytes. *)
Lemma not_contains_byte c s : str_contains (String c "") s = false -> c ∉ bytes s.
Proof.
  induction s as [|a s IH]; intros H Hin; simpl in *; [by apply elem_of_nil in Hin|].
  apply orb_false_iff in H as [Ha H]. unfold starts_with in Ha. simpl in Ha.
  apply elem_of_cons in Hin as [->|Hin]; [by rewrite bool_decide_eq_true_2 in Ha|by apply IH].
Qed.

(** What a prefix that can be granted is: a proper part of the branch name space, short enough
    to store, with no pattern and nothing git refuses in a ref name. *)
Definition grantable (f : string) : Prop :=
  starts_with BRANCHES f = true /\ String.length BRANCHES < String.length f <= PREFIX_MAX
  /\ str_contains ".." f = false /\ str_contains "//" f = false /\ has_control (bytes f) = false
  /\ Forall (fun c => c ∉ bytes "*?[ \~^:") (bytes f).

(** The prefix as it is spelled out, before a last [*] is taken off. *)
Definition spelled (p : string) : string := if starts_with "refs/" p then p else BRANCHES +:+ p.

Lemma branches_spelled p : starts_with "refs/" p && negb (starts_with BRANCHES p) = false -> starts_with BRANCHES (spelled p) = true.
Proof.
  unfold spelled. destruct (starts_with "refs/" p) eqn:E; simpl; [by intros ?%negb_false_iff|]. intros _. apply starts_with_app. by exists p.
Qed.

Lemma prefix_of_inl pattern f : prefix_of pattern = inl f <->
  grantable f /\ let p := trim pattern in p <> "" /\ p <> "*" /\ f = default (spelled p) (strip_suffix "*" (spelled p))
    /\ (starts_with "refs/" p = true -> starts_with BRANCHES p = true).
Proof.
  unfold prefix_of. set (p := trim pattern). cbv zeta. fold (spelled p). set (full := default (spelled p) (strip_suffix "*" (spelled p))).
  destruct (bool_decide (p = "") || bool_decide (p = "*")) eqn:E1.
  { split; [done|]. intros (_ & H1 & H2 & _). apply orb_true_iff in E1 as [E|E]; by apply bool_decide_eq_true in E. }
  apply orb_false_iff in E1 as [E1%bool_decide_eq_false E1'%bool_decide_eq_false].
  destruct (starts_with "refs/" p && negb (starts_with BRANCHES p)) eqn:E2.
  { split; [done|]. intros (_ & _ & _ & _ & H). apply andb_true_iff in E2 as [E E']. by rewrite (H E) in E'. }
  assert (starts_with "refs/" p = true -> starts_with BRANCHES p = true) as Hrefs.
  { intros E. rewrite E in E2. by apply negb_false_iff. }
  apply branches_spelled in E2. destruct (str_contains "*" full || str_contains "?" full || str_contains "[" full) eqn:E3.
  { split; [done|]. intros ((_ & _ & _ & _ & _ & Hb) & _ & _ & -> & _). fold full in Hb. exfalso.
    rewrite Forall_forall in Hb. rewrite !orb_true_iff in E3.
    destruct E3 as [[E|E]|E]; apply contains_byte in E; apply (Hb _ E); cbn; rewrite !elem_of_cons; tauto. }
  match goal with |- context [if ?b then inr Malformed else _] => destruct b eqn:E4 end.
  - split; [done|]. intros (Hg & _ & _ & -> & _). fold full in Hg. exfalso. destruct Hg as (_ & Hl & Hd & Hs & Hc & Hb).
    rewrite Hd, Hs, Hc in E4. rewrite (proj2 (Nat.leb_gt _ _)), (proj2 (Nat.ltb_ge _ _)) in E4 by lia. cbn [orb] in E4.
    apply existsb_exists in E4 as (c & Hc' & (b & Hb' & Heq)%existsb_exists). apply bool_decide_eq_true in Heq as ->.
    rewrite Forall_forall in Hb. apply list_elem_of_In in Hb', Hc'. apply (Hb c Hb'). revert Hc'. clear. cbn. rewrite !elem_of_cons. tauto.
  - rewrite !orb_false_iff in E4. destruct E4 as (((((Hmin & Hmax) & Hd) & Hs) & Hc) & Hb). apply Nat.leb_gt in Hmin. apply Nat.ltb_ge in Hmax.
    rewrite !orb_false_iff in E3. destruct E3 as ((H1 & H2) & H3).
    assert (grantable full) as Hg; [split_and!; try done|split; [intros Hf; injection Hf as <-; by split_and!|by intros (_ & _ & _ & -> & _)]].
    + unfold full in Hmin |- *. destruct (strip_suffix "*" (spelled p)) as [r|] eqn:Er; [|done]. cbn [default] in Hmin |- *.
      apply strip_suffix_app in Er. rewrite Er in E2. apply (starts_with_take _ _ _ E2). by apply Nat.lt_le_incl.
    + apply Forall_forall. intros c Hin Hbad. assert (forall d, str_contains (String d "") full = false -> c <> d) as Hne.
      { intros d Hnd ->. by apply (not_contains_byte d full) in Hnd. }
      cbn in Hbad. rewrite !elem_of_cons in Hbad. destruct Hbad as [->|[->|[->|Hbad]]]; [by apply (Hne _ H1)|by apply (Hne _ H2)|by apply (Hne _ H3)|].
      assert (existsb (fun c => existsb (fun b => bool_decide (b = c)) (bytes full)) (bytes " \~^:") = true); [|congruence].
      apply existsb_exists. exists c. split; [apply list_elem_of_In; cbn; rewrite !elem_of_cons; exact Hbad|].
      apply existsb_exists. exists c. split; [by apply list_elem_of_In|by apply bool_decide_eq_true].
Qed.

(** ** Theorems *)

(** The grant a bot pushes a ref under is one that covers the ref and counts now (its bot's
    row is no younger, its granter is a maintainer, it has not ended), and of those one that
    ends last. A push is refused as not covered exactly when no grant covers the ref, and
    otherwise only when none that covers it counts, with the newest one's reason; the search
    itself never fails. *)
Theorem pick_spec grants target ctx :
  let candidate g := g ∈ grants /\ covers g target = true in
  match pick grants target ctx with
  | Some (inl g) => candidate g /\ live g ctx /\ forall g', candidate g' -> live g' ctx -> by_end g' g <> Gt
  | Some (inr NotCovered) => forall g, ~ candidate g
  | Some (inr (UnusableGrant why)) => (forall g, candidate g -> ~ live g ctx)
      /\ exists g, candidate g /\ usable g ctx = Some why /\ forall g', candidate g' -> by_age g' g <> Gt
  | None => False
  end.
Proof.
  cbv zeta. unfold pick. set (covering := List.filter (fun g => covers g target) grants).
  destruct (max_by by_end _) as [g|] eqn:Eb.
  - apply (max_by_Some by_end) in Eb as [Hg Hmax]. apply elem_of_live in Hg as (H1 & H2 & H3). split_and!; [done..|].
    intros g' [H1' H2'] H3'. by apply Hmax, elem_of_live.
  - apply max_by_None in Eb. assert (forall g, g ∈ grants /\ covers g target = true -> ~ live g ctx) as Hnone.
    { intros g [H1 H2] H3. assert (g ∈ @nil PushGrant) as Hin%elem_of_nil; [|done]. rewrite <-Eb. by apply elem_of_live. }
    destruct (max_by by_age covering) as [g|] eqn:Ea.
    + apply (max_by_Some by_age) in Ea as [Hg%elem_of_covering Hmax]. destruct (usable g ctx) as [why|] eqn:Eu.
      * cbn [mbind option_bind]. split; [done|]. exists g. split_and!; [apply Hg..|done|]. intros g' Hg'. by apply Hmax, elem_of_covering.
      * apply usable_live in Eu. by apply (Hnone g Hg).
    + apply max_by_None in Ea. intros g Hg%elem_of_covering. fold covering in Hg. rewrite Ea in Hg. by apply elem_of_nil in Hg.
Qed.

(** A push made under a picked grant stays good: while the notice in force allows it, a
    reader marks it granted then, and still does after the bot is removed and added again. *)
Theorem picked_push_granted grants target ctx g notice row
  (Hpick : pick grants target ctx = Some (inl g)) (Hnotice : notice <> Some false) (Hrow : (gc_now ctx < row)%N) :
  mark (gc_now ctx) (Some g) (gc_bot_row_at ctx) notice = Granted
  /\ mark (gc_now ctx) (Some g) (Some row) notice = Granted.
Proof.
  pose proof (pick_spec grants target ctx) as H. cbv zeta in H. rewrite Hpick in H.
  destruct H as (_ & (r & Hr & Hle & _) & _). unfold mark. rewrite Hr. cbn [is_some_and].
  rewrite (bool_decide_eq_false_2 (notice = Some false)) by done. split.
  - by rewrite (proj2 (N.ltb_ge _ _)).
  - rewrite (proj2 (N.ltb_lt _ _) Hrow). cbn [negb]. by rewrite andb_false_r.
Qed.

(** A pattern grants a prefix exactly when it spells one strictly inside the branch name
    space that can be stored and holds no glob, no [..], no empty component and nothing git
    refuses in a ref name, one last [*] aside; so a prefix grant never covers a tag. *)
Theorem prefix_of_spec pattern :
  (forall f, prefix_of pattern = inl f <->
     grantable f /\ let p := trim pattern in p <> "" /\ p <> "*" /\ f = default (spelled p) (strip_suffix "*" (spelled p))
       /\ (starts_with "refs/" p = true -> starts_with BRANCHES p = true))
  /\ (forall f g name, prefix_of pattern = inl f -> gr_prefix g = Some f -> covers g (Public name) = true -> starts_with BRANCHES name = true).
Proof.
  split; [apply prefix_of_inl|]. intros f g name Hf Hg. unfold covers. rewrite Hg. destruct (gr_scope g); [done|].
  apply prefix_of_inl in Hf as [(Hb & _) _]. by apply starts_with_trans.
Qed.

(** A grant's end is after now, and early enough that the contract's limit of 90 days holds
    at any block whose time is at most ten minutes behind the signer's clock; a request is
    refused only for being past or more than 90 days ahead; with no request it is 30 days
    ahead. *)
Theorem until_for_spec now requested (Hnow : (now + MAX_TTL_MS <= u64_max)%N) :
  match until_for now requested with
  | Ok (inl u) => (now < u)%N /\ (forall block, (now <= block + TTL_MARGIN_MS)%N -> (u <= block + MAX_TTL_MS)%N)
      /\ match requested with None => u = (now + DEFAULT_TTL_MS)%N | Some r => (u <= r)%N end
  | Ok (inr Past) => exists r, requested = Some r /\ (r <= now)%N
  | Ok (inr TooFar) => exists r, requested = Some r /\ (now + MAX_TTL_MS < r)%N
  | _ => False
  end.
Proof.
  unfold until_for, add_u64. unfold MAX_TTL_MS, DEFAULT_TTL_MS, TTL_MARGIN_MS, DAY_MS in *. rewrite (proj2 (N.leb_le _ _)) by done.
  cbn [mbind Result_bind]. destruct requested as [r|].
  - destruct (N.leb_spec r now); [by exists r|]. cbn [mbind Result_bind].
    destruct (N.ltb_spec (now + 90 * 86400000) r); [by exists r|]. split_and!; [lia|intros block Hb; lia|lia].
  - rewrite (proj2 (N.leb_le _ _)) by lia. cbn [mbind Result_bind]. split_and!; [lia|intros block Hb; lia|done].
Qed.

(** ** Witnesses *)

Definition example_grant : PushGrant := mkPushGrant "g1" "alice" "ci-bot" (Some "refs/heads/bot/ci-bot/") None 5000 100.
Definition example_ctx : GrantContext := mkGrantContext 1000 (Some 50%N) {["alice"]}.

Example example_prefixes : map prefix_of [" bot/ci-bot/* "; "refs/tags/v1"; "*"; "a*b"; "a/../b"; "gh-pages"]
  = [inl "refs/heads/bot/ci-bot/"; inr NotABranch; inr EmptyPattern; inr NotAPrefix; inr Malformed; inl "refs/heads/gh-pages"].
Proof. vm_compute. reflexivity. Qed.

Lemma picked_push_granted_witness : mark 1000 (Some example_grant) (Some 2000%N) None = Granted.
Proof.
  refine (proj2 (picked_push_granted [example_grant] (Public "refs/heads/bot/ci-bot/fix") example_ctx example_grant None 2000 _ _ _));
    [vm_compute; reflexivity|discriminate|reflexivity].
Defined.

Lemma until_for_spec_witness : until_for 1000 None = Ok (inl 2592001000%N) /\ (1000 < 2592001000)%N.
Proof. split; [vm_compute; reflexivity|]. refine (proj1 (until_for_spec 1000 None _)). vm_compute. discriminate. Defined.
