(* ===== verification/Globs.v ===== *)
(** Code-owner patterns ([rules/codeowners.rs]): compiling a pattern, the wildcard walk over one
    path segment and the memoized walk over a path's segments. *)
From S2P Require Import Wire.
From S2P Require Import Prelude.
From S2P Require Import Text.

(** ** Definitions *)

(** A character, as its UTF-8. *)
Definition Char : Type := list byte.

Inductive Tok := Lit (c : Char) | Star | Quest.
Inductive Seg := Any | One | Glob (toks : list Tok).

#[export] Instance Tok_eq_dec : EqDecision Tok.
Proof. solve_decision. Defined.
#[export] Instance Seg_eq_dec : EqDecision Seg.
Proof. solve_decision. Defined.

Fixpoint glob (cs : list Char) : list Tok :=
  match cs with
  | [] => []
  | c :: cs =>
    if c == bytes "\" then match cs with [] => [Lit (bytes "\")] | x :: cs => Lit x :: glob cs end
    else (if c == bytes "*" then Star else if c == bytes "?" then Quest else Lit c) :: glob cs
  end.

Definition seg_of (s : string) : Seg :=
  if s == "**" then Any else if s == "*" then One else Glob (glob (chars (bytes s))).

(** The text without its last byte. *)
Definition pop_byte (s : string) : string := of_bytes (take (String.length s - 1) (bytes s)).

Definition compile (pattern : string) : option (list Seg) :=
  let anchored := starts_with "/" pattern in
  let p := if anchored then default pattern (strip_prefix "/" pattern) else pattern in
  let trailing := ends_with "/" p && negb (ends_with "\/" p) in
  let p := if trailing then pop_byte p else p in
  if p == "" then None else
  let segs := map seg_of (split_on (fun a => a == "/"%char) p) in
  let segs := if negb anchored && (length segs =? 1) && (head segs != Some Any) then Any :: segs else segs in
  Some (if trailing then segs ++ [Any] else segs).

(** The walk over a segment: the next token and character, and where to resume after the last
    [*]. [glob_matches] gives it fuel for every step it can take. *)
Fixpoint glob_walk (fuel : nat) (toks : list Tok) (name : list Char) (t n : nat) (star : option (nat * nat)) : bool :=
  match fuel with
  | O => false
  | S fuel =>
    match name !! n with
    | None => forallb (fun k => k == Star) (drop t toks)
    | Some c =>
      let backtrack :=
        match star with
        | Some (st, sn) => glob_walk fuel toks name (st + 1) (sn + 1) (Some (st, sn + 1))
        | None => false
        end in
      match toks !! t with
      | Some Star => glob_walk fuel toks name (t + 1) n (Some (t, n))
      | Some Quest => glob_walk fuel toks name (t + 1) (n + 1) star
      | Some (Lit x) => if x == c then glob_walk fuel toks name (t + 1) (n + 1) star else backtrack
      | None => backtrack
      end
    end
  end.

Definition glob_matches (toks : list Tok) (name : list Char) : bool :=
  glob_walk ((length name + 2) * (length toks + 1)) toks name 0 0 None.

(** [Iterator::any] with the memo threaded through. *)
Fixpoint any_memo {M} (f : nat -> M -> bool * M) (ks : list nat) (memo : M) : bool * M :=
  match ks with
  | [] => (false, memo)
  | k :: ks => let '(b, memo) := f k memo in if b then (true, memo) else any_memo f ks memo
  end.

(** [matches_from], where [rest] is [segs[i..]]. *)
Fixpoint matches_from (rest : list Seg) (path : list (list Char)) (i j : nat) (memo : gmap (nat * nat) bool) : bool * gmap (nat * nat) bool :=
  match memo !! (i, j) with
  | Some known => (known, memo)
  | None =>
    let '(got, memo) :=
      match rest with
      | [] => (j =? length path, memo)
      | [Any] => (j <? length path, memo)
      | Any :: rest => any_memo (fun k memo => matches_from rest path (i + 1) k memo) (seq j (length path + 1 - j)) memo
      | seg :: rest =>
        let last := match rest with [] => true | _ => false end in
        match path !! j with
        | None => (false, memo)
        | Some name =>
          match seg with
          | One => if last then (j + 1 =? length path, memo) else matches_from rest path (i + 1) (j + 1) memo
          | Glob toks =>
            if glob_matches toks name then if last then (true, memo) else matches_from rest path (i + 1) (j + 1) memo
            else (false, memo)
          | Any => (false, memo)
          end
        end
      end in
    (got, <[(i, j) := got]> memo)
  end.

Definition path_parts (path : string) : list (list Char) :=
  map (fun s => chars (bytes s)) (split_on (fun a => a == "/"%char) path).

Definition matches_parts (segs : list Seg) (parts : list (list Char)) : bool :=
  (segs != []) && (matches_from segs parts 0 0 ∅).1.

(** ** What patterns mean *)

(** A segment glob matches a name. *)
Inductive glob_match : list Tok -> list Char -> Prop :=
  | gm_nil : glob_match [] []
  | gm_lit c ts n : glob_match ts n -> glob_match (Lit c :: ts) (c :: n)
  | gm_quest c ts n : glob_match ts n -> glob_match (Quest :: ts) (c :: n)
  | gm_star ts n k : glob_match ts (drop k n) -> glob_match (Star :: ts) n.

(** Segments match a path: a last [**] or glob also everything under it, a last [*] only one
    file. *)
Inductive path_match : list Seg -> list (list Char) -> Prop :=
  | pm_end : path_match [] []
  | pm_under p ps : path_match [Any] (p :: ps)
  | pm_any segs before ps : segs <> [] -> path_match segs ps -> path_match (Any :: segs) (before ++ ps)
  | pm_one_last p : path_match [One] [p]
  | pm_one segs p ps : segs <> [] -> path_match segs ps -> path_match (One :: segs) (p :: ps)
  | pm_glob_last toks p ps : glob_match toks p -> path_match [Glob toks] (p :: ps)
  | pm_glob toks segs p ps : segs <> [] -> glob_match toks p -> path_match segs ps -> path_match (Glob toks :: segs) (p :: ps).

Definition owns (pattern path : string) : bool := matches_parts (default [] (compile pattern)) (path_parts path).

Example owns_documented :
  map (fun q => owns q.1 q.2)
    [("docs", "docs/a/b.md"); ("docs/*", "docs/a.md"); ("docs/*", "docs/a/b.md"); ("/build/logs/", "build/logs/x");
     ("*.js", "a/b/c.js"); ("apps/", "apps"); ("**/logs", "deep/logs/x"); ("app/[slug]/", "app/[slug]/p.tsx"); ("a/**/b", "a/b"); ("/", "a")]
  = [true; true; false; true; true; false; true; true; true; false].
Proof. vm_compute. reflexivity. Qed.

(** ** The wildcard walk *)

(** A token takes one character. *)
Definition takes_one (k : Tok) (c : Char) : Prop := match k with Lit x => x = c | Quest => True | Star => False end.

Lemma glob_match_cons k ts n : k <> Star -> glob_match (k :: ts) n <-> exists c n', n = c :: n' /\ takes_one k c /\ glob_match ts n'.
Proof.
  intros Hk. split.
  - intros H. inversion H; subst; try done; by eexists _, _.
  - intros (c & n' & -> & Hc & Hn). destruct k; simpl in Hc; [subst; by constructor|done|by constructor].
Qed.

Lemma glob_match_star ts n : glob_match (Star :: ts) n <-> exists k, glob_match ts (drop k n).
Proof.
  split; [intros H; inversion H; by eexists|]. intros [k Hk]. by econstructor.
Qed.

Lemma glob_match_empty ts : glob_match ts [] <-> Forall (eq Star) ts.
Proof.
  induction ts as [|k ts IH]; [split; constructor|]. rewrite Forall_cons. destruct k as [x| |].
  - rewrite glob_match_cons by done. split; [by intros (? & ? & ? & _)|by intros [? _]].
  - rewrite glob_match_star, <-IH. split; [intros (k & Hk); by rewrite drop_nil in Hk|intros [_ H]; by exists 0].
  - rewrite glob_match_cons by done. split; [by intros (? & ? & ? & _)|by intros [? _]].
Qed.

(** A run of tokens without [*] takes one character each. *)
Lemma glob_match_run seg ts n : Forall (fun k => k <> Star) seg ->
  glob_match (seg ++ ts) n <-> Forall2 takes_one seg (take (length seg) n) /\ glob_match ts (drop (length seg) n).
Proof.
  intros Hs. revert n. induction Hs as [|k seg Hk _ IH]; intros n; simpl; [rewrite take_0, drop_0; split; [by split|by intros [_ ?]]|].
  rewrite glob_match_cons by done. split.
  - intros (c & n' & -> & Hc & Hn). apply IH in Hn as [H1 H2]. simpl. split; [by constructor|done].
  - intros [H1 H2]. destruct n as [|c n]; [by inversion H1|]. inversion H1; subst. exists c, n. split_and!; [done..|]. by apply IH.
Qed.

(** Where the walk stands: what is left decides the whole match, and after a [*] the tokens
    since it have taken the characters since it resumed. *)
Definition walk_inv (toks : list Tok) (name : list Char) (t n : nat) (star : option (nat * nat)) : Prop :=
  t <= length toks /\ n <= length name /\
  match star with
  | None => glob_match toks name <-> glob_match (drop t toks) (drop n name)
  | Some (st, sn) =>
    (glob_match toks name <-> glob_match (drop st toks) (drop sn name))
    /\ exists seg, drop st toks = Star :: seg ++ drop t toks /\ Forall (fun k => k <> Star) seg
         /\ n = sn + length seg /\ t = st + 1 + length seg /\ Forall2 takes_one seg (take (length seg) (drop sn name))
  end.

(** With the characters taken since, a match resuming later is a match from here once the
    next token is a [*] or nothing is left. *)
Lemma resume toks name t n st sn seg : n <= length name -> drop st toks = Star :: seg ++ drop t toks -> Forall (fun k => k <> Star) seg ->
  n = sn + length seg -> Forall2 takes_one seg (take (length seg) (drop sn name)) ->
  (glob_match (drop t toks) (drop n name) -> glob_match (drop st toks) (drop sn name))
  /\ (glob_match (drop st toks) (drop sn name) -> exists k, glob_match (drop t toks) (drop (n + k) name) /\ n + k <= length name).
Proof.
  intros Hn -> Hs -> Hf. rewrite glob_match_star. split.
  - intros Hm. exists 0. rewrite drop_0. apply glob_match_run; [done|]. split; [done|]. by rewrite drop_drop.
  - intros (k & Hk). apply glob_match_run in Hk as [H1 H2]; [|done]. rewrite !drop_drop in H2.
    destruct (decide (sn + length seg + k <= length name)) as [Hle|Hgt].
    + exists k. replace (sn + length seg + k) with (sn + (k + length seg)) by lia. split; [done|lia].
    + exists (length name - (sn + length seg)). rewrite (drop_ge name (sn + (k + length seg))) in H2 by lia.
      rewrite (drop_ge name (_ + (_ - _))) by lia. split; [done|lia].
Qed.

Lemma walk_star toks name t n star : walk_inv toks name t n star -> toks !! t = Some Star -> walk_inv toks name (t + 1) n (Some (t, n)).
Proof.
  intros (Ht & Hn & Hinv) Hstar. pose proof (lookup_lt_Some _ _ _ Hstar). pose proof (drop_S _ _ _ Hstar) as Hd.
  split; [lia|]. split; [done|]. split.
  - destruct star as [[st sn]|]; [|done]. destruct Hinv as [-> (seg & Hseg & Hs & Hns & _ & Hf)].
    destruct (resume toks name t n st sn seg Hn Hseg Hs Hns Hf) as [H1 H2]. split; [|exact H1].
    intros Hm. apply H2 in Hm as (k & Hk & _). rewrite Hd in Hk |- *. apply glob_match_star in Hk as (k' & Hk'). apply glob_match_star.
    exists (k + k'). by rewrite !drop_drop in *; rewrite Nat.add_assoc.
  - exists []. rewrite Nat.add_1_r. split_and!; [exact Hd|constructor|simpl; lia|simpl; lia|constructor].
Qed.

Lemma walk_take toks name t n star k c : walk_inv toks name t n star -> toks !! t = Some k -> name !! n = Some c -> k <> Star ->
  takes_one k c -> walk_inv toks name (t + 1) (n + 1) star.
Proof.
  intros (Ht & Hn & Hinv) Hk Hc Hks Ht1. pose proof (lookup_lt_Some _ _ _ Hk). pose proof (lookup_lt_Some _ _ _ Hc).
  pose proof (drop_S _ _ _ Hk) as Hdk. pose proof (drop_S _ _ _ Hc) as Hdc. rewrite !Nat.add_1_r. split; [lia|]. split; [lia|].
  destruct star as [[st sn]|].
  - destruct Hinv as [Hm (seg & Hseg & Hs & Hns & Hts & Hf)]. split; [done|]. exists (seg ++ [k]).
    rewrite Hdk in Hseg. rewrite <-app_assoc. split_and!; [exact Hseg|apply Forall_app; split; [done|by repeat constructor]| | |];
      rewrite ?length_app; simpl; try lia.
    rewrite <-(take_take_drop _ (length seg) 1), drop_drop. apply Forall2_app; [done|]. rewrite <-Hns, Hdc. simpl. by repeat constructor.
  - rewrite Hinv, Hdk, Hdc, glob_match_cons by done. split; [by intros (? & ? & [= <- <-] & _ & ?)|]. intros Hm. by exists c, (drop (S n) name).
Qed.

Lemma walk_backtrack toks name t n st sn : walk_inv toks name t n (Some (st, sn)) -> n < length name ->
  ~ glob_match (drop t toks) (drop n name) -> walk_inv toks name (st + 1) (sn + 1) (Some (st, sn + 1)).
Proof.
  intros (Ht & Hn & Hm & seg & Hseg & Hs & Hns & Hts & Hf) Hlt Hno. split; [lia|]. split; [lia|]. split.
  - rewrite Hm, Hseg, !glob_match_star. split; intros (k & Hk).
    + destruct k as [|k].
      * exfalso. apply Hno. rewrite drop_0 in Hk. apply glob_match_run in Hk as [_ Hk]; [|done]. by rewrite drop_drop, <-Hns in Hk.
      * exists k. rewrite drop_drop in Hk |- *. by replace (sn + 1 + k) with (sn + S k) by lia.
    + exists (S k). rewrite drop_drop in Hk |- *. by replace (sn + S k) with (sn + 1 + k) by lia.
  - exists []. simpl. split_and!; [|constructor|lia|lia|constructor]. rewrite Hseg. f_equal.
    rewrite <-drop_drop, Hseg. done.
Qed.

(** How many more steps the walk can take. *)
Definition walk_left (toks : list Tok) (name : list Char) (t : nat) (star : option (nat * nat)) : nat :=
  (length name + 1 - match star with None => 0 | Some (_, sn) => sn + 1 end) * (length toks + 1) + (length toks - t).

Lemma glob_walk_spec fuel toks name t n star : walk_inv toks name t n star -> walk_left toks name t star < fuel ->
  glob_walk fuel toks name t n star = true <-> glob_match toks name.
Proof.
  revert t n star. induction fuel as [|fuel IH]; intros t n star Hinv Hfuel; [lia|]. cbn [glob_walk].
  pose proof Hinv as (Ht & Hn & Hst). destruct (name !! n) as [c|] eqn:Hc.
  - pose proof (lookup_lt_Some _ _ _ Hc) as Hlt. assert (~ glob_match (drop t toks) (drop n name) ->
      match star with Some (st, sn) => glob_walk fuel toks name (st + 1) (sn + 1) (Some (st, sn + 1)) | None => false end = true <-> glob_match toks name) as Hback.
    { intros Hno. destruct star as [[st sn]|]; [|rewrite Hst; naive_solver].
      apply IH; [by apply (walk_backtrack toks name t n)|]. destruct Hst as (_ & seg & _ & _ & Hns & Hts & _).
      unfold walk_left in *. replace (length name + 1 - (sn + 1)) with (S (length name + 1 - (sn + 1 + 1))) in Hfuel by lia. nia. }
    destruct (toks !! t) as [k|] eqn:Hk.
    + pose proof (lookup_lt_Some _ _ _ Hk) as Hkt. pose proof (drop_S _ _ _ Hk) as Hdk. pose proof (drop_S _ _ _ Hc) as Hdc.
      destruct k as [x| |].
      * case_bool_decide as Hx.
        -- subst x. apply IH; [by apply (walk_take _ _ _ _ _ (Lit c) c)|]. unfold walk_left in *. lia.
        -- apply Hback. rewrite Hdk, Hdc, glob_match_cons by done. intros (? & ? & [= <- _] & Heq & _). done.
      * apply IH; [by apply (walk_star _ _ _ _ star)|]. unfold walk_left in *.
        assert (match star with None => 0 | Some (_, sn) => sn + 1 end <= n + 1) as Hle.
        { destruct star as [[st sn]|]; [|lia]. destruct Hst as (_ & seg & _ & _ & Hns & _). lia. }
        assert (length name + 1 - (n + 1) <= length name + 1 - match star with None => 0 | Some (_, sn) => sn + 1 end) by lia. nia.
      * apply IH; [by apply (walk_take _ _ _ _ _ Quest c)|]. unfold walk_left in *. lia.
    + apply lookup_ge_None in Hk. apply Hback. rewrite drop_ge, (drop_S _ _ _ Hc) by done. intros H. inversion H.
  - apply lookup_ge_None in Hc. assert (n = length name) as Hnl by lia.
    assert (forallb (fun k => k == Star) (drop t toks) = true <-> glob_match (drop t toks) []) as ->.
    { rewrite glob_match_empty, forallb_forall, Forall_forall. setoid_rewrite bool_decide_eq_true. setoid_rewrite list_elem_of_In. naive_solver. }
    destruct star as [[st sn]|]; [|by rewrite Hst, (drop_ge name) by done].
    destruct Hst as [-> (seg & Hseg & Hs & Hns & _ & Hf)]. destruct (resume toks name t n st sn seg Hn Hseg Hs Hns Hf) as [H1 H2].
    rewrite (drop_ge name n) in H1 by done. split; [exact H1|]. intros (k & Hk & _)%H2. by rewrite (drop_ge name) in Hk by lia.
Qed.

Lemma glob_matches_iff toks name : glob_matches toks name = true <-> glob_match toks name.
Proof.
  apply glob_walk_spec.
  - split; [lia|]. split; [lia|]. by rewrite !drop_0.
  - unfold walk_left. nia.
Qed.

(** ** The walk over segments *)

Lemma path_match_nil ps : path_match [] ps <-> ps = [].
Proof. split; [intros H; by inversion H|intros ->; constructor]. Qed.

Lemma path_match_under ps : path_match [Any] ps <-> ps <> [].
Proof.
  split; [intros H; by inversion H|]. destruct ps; [done|]. intros _. constructor.
Qed.

Lemma path_match_any segs ps : segs <> [] -> path_match (Any :: segs) ps <-> exists k, k <= length ps /\ path_match segs (drop k ps).
Proof.
  intros Hs. split.
  - intros H. inversion H as [|? ?|? before ps' _ Hm| | | |]; subst; [done|]. exists (length before).
    rewrite drop_app_length, length_app. split; [lia|done].
  - intros (k & _ & Hk). rewrite <-(take_drop k ps). by constructor.
Qed.

Lemma path_match_one segs p ps : path_match (One :: segs) (p :: ps) <-> if segs == [] then ps = [] else path_match segs ps.
Proof.
  case_bool_decide as Hs; [subst segs|].
  - split; [intros H; by inversion H|intros ->; constructor].
  - split; [intros H; by inversion H|by constructor].
Qed.

Lemma path_match_glob toks segs p ps :
  path_match (Glob toks :: segs) (p :: ps) <-> glob_match toks p /\ (segs = [] \/ path_match segs ps).
Proof.
  split.
  - intros H. inversion H; subst; (split; [done|]); [by left|by right].
  - intros [Hg [->|Hm]]; [by constructor|]. destruct segs; [by constructor|by constructor].
Qed.

Lemma path_match_short seg segs : path_match (seg :: segs) [] -> seg = Any /\ segs <> [].
Proof. intros H. inversion H as [| |? before ps' ? ? Hb E| | | |]; subst; done. Qed.

Definition memo_ok (segs : list Seg) (path : list (list Char)) (memo : gmap (nat * nat) bool) : Prop :=
  forall i j b, memo !! (i, j) = Some b -> b = true <-> path_match (drop i segs) (drop j path).

Lemma memo_insert segs path memo i j b : memo_ok segs path memo -> (b = true <-> path_match (drop i segs) (drop j path)) ->
  memo_ok segs path (<[(i, j) := b]> memo).
Proof.
  intros Hm Hb i' j' b'. destruct (decide ((i', j') = (i, j))) as [[= -> ->]|Hne].
  - rewrite lookup_insert_eq. by intros [= <-].
  - rewrite lookup_insert_ne by done. apply Hm.
Qed.

Lemma any_memo_spec {M} (f : nat -> M -> bool * M) (ok : M -> Prop) (P : nat -> Prop) ks memo : ok memo ->
  (forall k memo, k ∈ ks -> ok memo -> ok (f k memo).2 /\ ((f k memo).1 = true <-> P k)) ->
  ok (any_memo f ks memo).2 /\ ((any_memo f ks memo).1 = true <-> exists k, k ∈ ks /\ P k).
Proof.
  revert memo. induction ks as [|k ks IH]; intros memo Hok Hf; cbn [any_memo].
  { split; [done|]. split; [done|]. by intros (k & ?%elem_of_nil & _). }
  destruct (Hf k memo ltac:(left) Hok) as [Hok' Hk]. destruct (f k memo) as [b memo']. cbn [fst snd] in *. destruct b.
  - split; [done|]. split; [|done]. intros _. exists k. split; [left|by apply Hk].
  - destruct (IH memo' Hok') as [H1 H2]; [intros k' memo'' Hk'; apply Hf; by right|]. split; [done|]. rewrite H2.
    setoid_rewrite elem_of_cons. split; [naive_solver|]. intros (k' & [->|Hin] & HP); [by apply Hk in HP|by exists k'].
Qed.

(** One step without the memo: what [matches_from] computes and records. *)
Lemma matches_from_spec segs path rest i j memo : rest = drop i segs -> j <= length path -> memo_ok segs path memo ->
  memo_ok segs path (matches_from rest path i j memo).2 /\ ((matches_from rest path i j memo).1 = true <-> path_match rest (drop j path)).
Proof.
  revert i j memo. induction rest as [|seg rest IH]; intros i j memo Hi Hj Hm; cbn [matches_from];
    destruct (memo !! (i, j)) as [known|] eqn:Hknown; try (split; [done|]; cbn [fst]; rewrite Hi; by apply Hm).
  { cbn [fst snd]. assert (j =? length path = true <-> path_match [] (drop j path)) as Hb.
    { rewrite Nat.eqb_eq, path_match_nil. split; [intros ->; apply drop_ge; lia|]. intros Hd%(f_equal length). rewrite length_drop in Hd. simpl in Hd. lia. }
    split; [|done]. apply memo_insert; [done|]. by rewrite <-Hi. }
  assert (rest = drop (i + 1) segs) as Hrest by (rewrite <-drop_drop, <-Hi; done).
  assert (forall got memo', memo_ok segs path memo' -> (got = true <-> path_match (seg :: rest) (drop j path)) ->
    memo_ok segs path (<[(i, j) := got]> memo') /\ (got = true <-> path_match (seg :: rest) (drop j path))) as Hput.
  { intros got memo' Hm' Hg. split; [|done]. apply memo_insert; [done|]. by rewrite <-Hi. }
  assert (path !! j = None <-> drop j path = []) as Hend.
  { rewrite lookup_ge_None. split; [by apply drop_ge|]. intros Hd%(f_equal length). rewrite length_drop in Hd. simpl in Hd. lia. }
  assert (forall p, path !! j = Some p -> drop j path = p :: drop (j + 1) path /\ j + 1 <= length path) as Hnext.
  { intros p Hp. rewrite Nat.add_1_r. split; [by apply drop_S|]. apply lookup_lt_Some in Hp. lia. }
  destruct seg as [| |toks].
  - destruct rest as [|seg rest].
    + cbn [fst snd]. apply Hput; [done|]. rewrite Nat.ltb_lt, path_match_under. destruct (path !! j) as [p|] eqn:Hp.
      * destruct (Hnext p eq_refl) as [-> ?]. split; [done|lia].
      * rewrite (proj1 Hend eq_refl). apply lookup_ge_None in Hp. split; [lia|done].
    + destruct (any_memo_spec (fun k memo => matches_from (seg :: rest) path (i + 1) k memo) (memo_ok segs path)
        (fun k => path_match (seg :: rest) (drop k path)) (seq j (length path + 1 - j)) memo Hm) as [H1 H2].
      { intros k memo' Hk%elem_of_seq Hm'. apply IH; [done|lia|done]. }
      destruct (any_memo _ _ _) as [got memo']. cbn [fst snd] in *. apply Hput; [done|]. rewrite H2, path_match_any by done.
      split; intros (k & Hk & Hp).
      * apply elem_of_seq in Hk. exists (k - j). rewrite length_drop, drop_drop. replace (j + (k - j)) with k by lia. split; [lia|done].
      * exists (j + k). rewrite length_drop in Hk. rewrite drop_drop in Hp. split; [apply elem_of_seq; lia|done].
  - destruct (path !! j) as [p|] eqn:Hp.
    + destruct (Hnext p eq_refl) as [Hd Hj']. destruct rest as [|seg rest].
      * cbn [fst snd]. apply Hput; [done|]. rewrite Hd, path_match_one, bool_decide_eq_true_2, Nat.eqb_eq by done.
        split; [intros ->; apply drop_ge; lia|]. intros Hx%(f_equal length). rewrite length_drop in Hx. simpl in Hx. lia.
      * destruct (IH (i + 1) (j + 1) memo Hrest Hj' Hm) as [H1 H2]. destruct (matches_from _ _ _ _ _) as [got memo']. cbn [fst snd] in *.
        apply Hput; [done|]. by rewrite Hd, path_match_one, bool_decide_eq_false_2.
    + rewrite (proj1 Hend eq_refl) in *. cbn [fst snd]. apply Hput; [done|]. split; [done|]. by intros [? _]%path_match_short.
  - destruct (path !! j) as [p|] eqn:Hp.
    + destruct (Hnext p eq_refl) as [Hd Hj']. rewrite Hd in *. pose proof (glob_matches_iff toks p) as Hg. destruct (glob_matches toks p).
      * destruct rest as [|seg rest].
        -- cbn [fst snd]. apply Hput; [done|]. rewrite path_match_glob. split; [|done]. intros _. split; [by apply Hg|by left].
        -- destruct (IH (i + 1) (j + 1) memo Hrest Hj' Hm) as [H1 H2]. destruct (matches_from _ _ _ _ _) as [got memo']. cbn [fst snd] in *.
           apply Hput; [done|]. rewrite path_match_glob, H2. split; [intros H; split; [by apply Hg|by right]|by intros [_ [?|?]]].
      * cbn [fst snd]. apply Hput; [done|]. split; [done|]. intros [Hx _]%path_match_glob. by apply Hg in Hx.
    + rewrite (proj1 Hend eq_refl) in *. cbn [fst snd]. apply Hput; [done|]. split; [done|]. by intros [? _]%path_match_short.
Qed.

Lemma matches_parts_iff segs path : matches_parts segs path = true <-> segs <> [] /\ path_match segs path.
Proof.
  unfold matches_parts. rewrite andb_true_iff, negb_true_iff, bool_decide_eq_false.
  destruct (matches_from_spec segs path segs 0 0 ∅ eq_refl (Nat.le_0_l _)) as [_ H]; [by intros i j b ?%lookup_empty_Some|].
  by rewrite H, drop_0.
Qed.

(** ** Theorems *)

(** The wildcard walk always ends, and matches a name exactly when the tokens do: each
    literal its character, each [?] one and each [*] any run of them. *)
Theorem glob_matches_spec toks name : glob_matches toks name = true <-> glob_match toks name.
Proof. apply glob_matches_iff. Qed.

(** The memoized walk over a path decides exactly what the pattern's segments mean: a last
    name or [**] also owns everything under it, a last [*] only what is directly there, and an
    inner [**] any directories or none; a pattern with no segments owns nothing. *)
Theorem matches_parts_spec segs path :
  matches_parts segs path = true <-> segs <> [] /\ path_match segs path.
Proof. apply matches_parts_iff. Qed.
