(* ===== verification/CodeOwners.v ===== *)
(** Code owners ([rules/codeowners.rs]): the file of a repository, the owners of a path, whom a
    new pull request asks for review, and the merge rule that an owner approves each path. *)
From S2P Require Import Wire.
From S2P Require Import Prelude.
From S2P Require Import Text.
From S2P Require Import Members.
From S2P Require Import Approvals.
From S2P Require Import Globs.

(** ** Definitions *)

Definition MAX_OWNER_REQUESTS : nat := 15.

Record OwnerRule := mkOwnerRule {
  or_line : N;
  or_pattern : string;
  or_owners : list string;
  or_section : nat;
  or_segs : list Seg;
}.

Record OwnersError := mkOwnersError { oe_line : N; oe_error : string }.
Record CodeOwners := mkCodeOwners { co_rules : list OwnerRule; co_sections : list string; co_errors : list OwnersError }.

Definition is_ws (a : Ascii.ascii) : bool := (a == " "%char) || (a == byte_of 9).

(** [str::trim_matches]. *)
Fixpoint drop_ws (l : list byte) : list byte := match l with a :: l' => if is_ws a then drop_ws l' else l | [] => [] end.
Definition trim_ws (s : string) : string := of_bytes (rev (drop_ws (rev (drop_ws (bytes s))))).

(** [str::find] of a character, as what is before and after it. *)
Fixpoint split_at_char (c : Ascii.ascii) (s : string) : option (string * string) :=
  match s with
  | EmptyString => None
  | String a s => if a == c then Some (EmptyString, s) else '(before, after) ← split_at_char c s; Some (String a before, after)
  end.

Fixpoint take_while {A} (f : A -> bool) (l : list A) : list A := match l with x :: l => if f x then x :: take_while f l else [] | [] => [] end.

Definition tokens (rest : string) : list string :=
  take_while (fun t => negb (starts_with "#" t)) (List.filter (fun t => t != "") (split_on is_ws rest)).

Definition starts_with_ws (s : string) : bool := match s with String a _ => is_ws a | EmptyString => false end.

(** The pattern at the start of a line and the rest, given whether a [\] was just read. *)
Fixpoint split_pattern (escaped : bool) (line : string) : string * string :=
  match line with
  | EmptyString => (EmptyString, EmptyString)
  | String a rest =>
    if negb escaped && is_ws a then (EmptyString, line)
    else let '(p, r) := split_pattern (negb escaped && (a == "\"%char)) rest in (String a p, r)
  end.

Section parse.
(** [str::to_lowercase], over Unicode's tables. *)
Context (to_lowercase : string -> string).

Definition section_header (line : string) : option (string * list string) :=
  inner ← strip_prefix "[" (default line (strip_prefix "^" line));
  '(name, rest) ← split_at_char "]"%char inner;
  let name := trim_ws name in
  if name == "" then None else
  rest ← match strip_prefix "[" rest with
       | None => Some rest
       | Some count =>
         '(n, rest) ← split_at_char "]"%char count;
         if (n == "") || negb (forallb is_digit (bytes n)) then None else Some rest
       end;
  if (rest != "") && negb (starts_with_ws rest) then None else Some (to_lowercase name, tokens rest).

(** The file so far, the section and the default owners. *)
Definition ParseState : Type := CodeOwners * nat * list string.

Definition pattern_error (pattern : string) : option string :=
  if starts_with "!" pattern then Some "negation" else if str_contains "***" pattern then Some "pattern" else None.

Definition parse_line (st : ParseState) (n : nat) (raw : string) : ParseState :=
  let '(out, section, defaults) := st in
  let line_no := N.min (N.of_nat n + 1) u32_max in
  let line := trim_ws (default raw (strip_suffix (utf8 [13%N]) raw)) in
  if (line == "") || starts_with "#" line then st else
  match section_header line with
  | Some (name, owners) =>
  match list_find (eq name) (co_sections out) with
  | Some (i, _) => (out, i, owners)
  | None => (mkCodeOwners (co_rules out) (co_sections out ++ [name]) (co_errors out), length (co_sections out), owners)
  end
  | None =>
  let '(pattern, rest) := split_pattern false line in
  match pattern_error pattern with
  | Some e => (mkCodeOwners (co_rules out) (co_sections out) (co_errors out ++ [mkOwnersError line_no e]), section, defaults)
  | None =>
    let owners := tokens rest in
    let owners := if owners == [] then defaults else owners in
    let rule := mkOwnerRule line_no pattern owners section (default [] (compile pattern)) in
    (mkCodeOwners (co_rules out ++ [rule]) (co_sections out) (co_errors out), section, defaults)
  end
  end.

Fixpoint parse_lines (st : ParseState) (n : nat) (lines : list string) : ParseState :=
  match lines with [] => st | raw :: lines => parse_lines (parse_line st n raw) (S n) lines end.

Definition BOM : string := utf8 [239; 187; 191]%N.

Definition parse_code_owners (text : string) : CodeOwners :=
  let text := default text (strip_prefix BOM text) in
  (parse_lines (mkCodeOwners [] [""] [], 0, []) 0 (split_on (fun a => a == byte_of 10) text)).1.1.
End parse.

(** *** The owners of a path *)

(** The rules found so far and how many sections are open; [None] is an index out of range. *)
Fixpoint decide_rules (parts : list (list Char)) (rules : list OwnerRule) (found : list (option OwnerRule)) (open : nat)
    : option (list (option OwnerRule)) :=
  match rules with
  | [] => Some found
  | rule :: rules =>
    if open =? 0 then Some found else
    slot ← found !! or_section rule;
    match slot with
    | None => if matches_parts (or_segs rule) parts then decide_rules parts rules (<[or_section rule := Some rule]> found) (open - 1)
              else decide_rules parts rules found open
    | Some _ => decide_rules parts rules found open
    end
  end.

Definition deciding_rules (o : CodeOwners) (path : string) : option (list OwnerRule) :=
  let n := length (co_sections o) in
  found ← decide_rules (path_parts path) (rev (co_rules o)) (replicate n None) n;
  Some (omap (M := list) (fun r : option OwnerRule => r) found).

(** [if !out.contains(t) { out.push(t) }] for each. *)
Definition push_new (out : list string) (ts : list string) : list string :=
  foldl (fun out t => if bool_decide (t ∈ out) then out else out ++ [t]) out ts.

Definition owners_of (o : CodeOwners) (path : string) : option (list string) :=
  rules ← deciding_rules o path; Some (foldl (fun out r => push_new out (or_owners r)) [] rules).

(** [BTreeSet<&String>] of the paths: each once, in order. *)
Definition path_set (paths : list string) : list string := btree_elems (list_to_set paths).

Definition owners_of_paths (o : CodeOwners) (paths : list string) : option (list string) :=
  tokens ← mapM (owners_of o) (path_set paths); Some (foldl push_new [] tokens).

(** *** Owner tokens *)

Inductive OwnerKind := KName | KIdentity | KTeam | KEmail | KRole | KInvalid.

Definition dpns_label (owner : string) : option string :=
  let n := String.length owner in
  let at_ := n - 5 in
  let label :=
    if (5 <=? n) && is_some_and (bytes owner !! at_) (fun b => negb (continuation b))
       && eq_ignore_case (of_bytes (drop at_ (bytes owner))) ".dash"
    then of_bytes (take at_ (bytes owner)) else owner in
  if (label != "") && forallb (fun b => is_alnum b || (b == "-"%char)) (bytes label) then Some label else None.

Section review.
(** [platform::decode_identifier(s).is_ok()]: base58 of 32 bytes. *)
Context (decodes_identifier : string -> bool).

Definition looks_like_identity_id (s : string) : bool :=
  (40 <=? String.length s) && (String.length s <=? 44)
  && forallb (fun c => is_alnum c && negb (existsb (fun x => x == c) (bytes "0OIl"))) (bytes s)
  && decodes_identifier s.

Definition owner_kind (token : string) : OwnerKind :=
  if starts_with "@@" token then KRole else
  match strip_prefix "@" token with
  | Some rest =>
  if str_contains "/" rest then KTeam
  else if looks_like_identity_id rest then KIdentity
  else if is_some_and (dpns_label rest) (fun _ => true) then KName else KInvalid
  | None =>
  if looks_like_identity_id token then KIdentity else
  match split_at_char "@"%char token with
  | Some (local, domain) => if (local != "") && str_contains "." domain && negb (str_contains "@" domain) then KEmail else KInvalid
  | None => KInvalid
  end
  end.

Definition token_identity (token : string) : option string :=
  match owner_kind token with KIdentity => Some (default token (strip_prefix "@" token)) | _ => None end.

Inductive SkipReason := SkTeam | SkEmail | SkRole | SkInvalid | SkUnresolved | SkAuthor | SkNotApprover | SkDuplicate | SkCap.
Record SkippedOwner := mkSkippedOwner { sk_token : string; sk_reason : SkipReason; sk_identity : option string }.
Record OwnerRequests := mkOwnerRequests { rq_request : list string; rq_skipped : list SkippedOwner }.

(** The names DPNS resolved. *)
Context (resolved : gmap string (option string)) (oracle : RoleOracle) (author : string).

(** The identity a token stands for. *)
Definition identity_of (token : string) : option string :=
  match owner_kind token with
  | KIdentity => token_identity token
  | KName => mjoin (resolved !! token)
  | _ => None
  end.

(** [seen] holds exactly the identities requested. *)
Definition request_step (out : OwnerRequests * gset string) (token : string) : OwnerRequests * gset string :=
  let '(out, seen) := out in
  let skip reason identity := (mkOwnerRequests (rq_request out) (rq_skipped out ++ [mkSkippedOwner token reason identity]), seen) in
  match owner_kind token with
  | KTeam => skip SkTeam None
  | KEmail => skip SkEmail None
  | KRole => skip SkRole None
  | KInvalid => skip SkInvalid None
  | KIdentity | KName =>
  match identity_of token with
  | None => skip SkUnresolved None
  | Some id =>
    if id == author then skip SkAuthor (Some id)
    else if bool_decide (id ∈ seen) then skip SkDuplicate (Some id)
    else if negb (current_approver oracle id) then skip SkNotApprover (Some id)
    else if MAX_OWNER_REQUESTS <=? length (rq_request out) then skip SkCap (Some id)
    else (mkOwnerRequests (rq_request out ++ [id]) (rq_skipped out), {[id]} ∪ seen)
  end
  end.

Definition code_owner_requests (tokens : list string) : OwnerRequests := (foldl request_step (mkOwnerRequests [] [], ∅) tokens).1.

(** *** The merge rule *)

Inductive OwnersFile := Absent | Unreadable | Parsed (o : CodeOwners).
Record PendingFile := mkPendingFile { pf_path : string; pf_owners : list string; pf_approvable : bool }.
Record CodeOwnerStatus := mkCodeOwnerStatus { cs_met : bool; cs_unreadable : bool; cs_pending : list PendingFile }.

(** What one path waits for. *)
Definition pending_file (o : CodeOwners) (approvals : Approvals) (policy : Policy) (path : string) : option (list PendingFile) :=
  tokens ← owners_of o path;
  Some (if tokens == [] then [] else
  let ids := omap identity_of tokens in
  if existsb (fun id => bool_decide (id ∈ ap_approvers approvals) && counts_for oracle policy id) ids then []
  else [mkPendingFile path tokens (existsb (fun id => (id != author) && counts_for oracle policy id) ids)]).

Definition code_owner_review (file : OwnersFile) (paths : list string) (approvals : Approvals) (policy : Policy) : option CodeOwnerStatus :=
  if negb (po_require_code_owners policy) then Some (mkCodeOwnerStatus true false []) else
  match file with
  | Absent => Some (mkCodeOwnerStatus true false [])
  | Unreadable => Some (mkCodeOwnerStatus false true [])
  | Parsed o =>
  pending ← mapM (pending_file o approvals policy) (path_set paths);
  let pending := concat pending in
  Some (mkCodeOwnerStatus (pending == []) false pending)
  end.
End review.

(** ** The deciding rules *)

(** The rule of a section that decides a path, in a list of rules, newest first. *)
Definition decides_in (parts : list (list Char)) (s : nat) (rules : list OwnerRule) : option OwnerRule :=
  List.find (fun r => (or_section r =? s) && matches_parts (or_segs r) parts) rules.

Definition open_slots (found : list (option OwnerRule)) : nat := length (List.filter (fun x => x == None) found).

Lemma open_slots_insert found i r : found !! i = Some None -> S (open_slots (<[i := Some r]> found)) = open_slots found.
Proof.
  unfold open_slots. revert i. induction found as [|x found IH]; intros i Hi; [done|]. destruct i as [|i]; simpl in Hi.
  - injection Hi as ->. done.
  - simpl. case_bool_decide; simpl; by rewrite IH.
Qed.

Lemma open_slots_0 found i : open_slots found = 0 -> found !! i <> Some None.
Proof.
  unfold open_slots. revert i. induction found as [|x found IH]; intros i; [done|]. simpl. case_bool_decide as Hx; simpl; [done|].
  intros H0. destruct i as [|i]; simpl; [congruence|by apply IH].
Qed.

Lemma decide_rules_spec parts rules found open : Forall (fun r => or_section r < length found) rules -> open = open_slots found ->
  exists out, decide_rules parts rules found open = Some out /\ length out = length found
    /\ forall s x, found !! s = Some x -> out !! s = Some (match x with Some r => Some r | None => decides_in parts s rules end).
Proof.
  intros Hr. revert found open Hr. induction rules as [|rule rules IH]; intros found open Hr Hopen; cbn [decide_rules].
  { exists found. split_and!; [done..|]. intros s x ->. by destruct x. }
  apply Forall_cons in Hr as [Hs Hrs]. subst open. destruct (Nat.eqb_spec (open_slots found) 0) as [Hz|Hne].
  { exists found. split_and!; [done..|]. intros s x Hx. destruct x; [done|]. by apply open_slots_0 in Hx. }
  destruct (lookup_lt_is_Some_2 found (or_section rule) Hs) as [slot Hslot]. rewrite Hslot. cbn [mbind option_bind].
  destruct slot as [r|].
  - destruct (IH found (open_slots found) Hrs eq_refl) as (out & -> & Hl & Hout). exists out. split_and!; [done..|].
    intros s x Hx. rewrite (Hout s x Hx). destruct x; [done|]. f_equal. unfold decides_in. simpl.
    destruct (Nat.eqb_spec (or_section rule) s) as [Heq|]; [subst s; congruence|done].
  - destruct (matches_parts (or_segs rule) parts) eqn:Hm.
    + destruct (IH (<[or_section rule := Some rule]> found) (open_slots found - 1)) as (out & -> & Hl & Hout).
      { by rewrite length_insert. } { rewrite <-(open_slots_insert found (or_section rule) rule Hslot). lia. }
      exists out. rewrite length_insert in Hl. split_and!; [done..|]. intros s x Hx. destruct (decide (s = or_section rule)) as [->|Hs'].
      * rewrite (Hout _ (Some rule)) by (by rewrite list_lookup_insert_eq). unfold decides_in. simpl.
        rewrite Nat.eqb_refl, Hm. simpl. by simplify_eq.
      * rewrite (Hout s x) by (by rewrite list_lookup_insert_ne). destruct x; [done|]. f_equal. unfold decides_in. simpl.
        by rewrite (proj2 (Nat.eqb_neq _ _)).
    + destruct (IH found (open_slots found) Hrs eq_refl) as (out & -> & Hl & Hout). exists out. split_and!; [done..|].
      intros s x Hx. rewrite (Hout s x Hx). destruct x; [done|]. f_equal. unfold decides_in. simpl. by rewrite Hm, andb_false_r.
Qed.

(** What a parsed file is: every rule's section exists, and no section is named twice. *)
Definition owners_ok (o : CodeOwners) : Prop :=
  Forall (fun r => or_section r < length (co_sections o)) (co_rules o) /\ NoDup (co_sections o) /\ co_sections o !! 0 = Some "".

Lemma deciding_rules_spec o path : owners_ok o ->
  deciding_rules o path = Some (omap (fun s => decides_in (path_parts path) s (rev (co_rules o))) (seq 0 (length (co_sections o)))).
Proof.
  intros (Hr & _). unfold deciding_rules. set (n := length (co_sections o)).
  destruct (decide_rules_spec (path_parts path) (rev (co_rules o)) (replicate n None) n) as (found & -> & Hl & Hout).
  { rewrite length_replicate. apply Forall_rev. exact Hr. }
  { unfold open_slots. generalize n. clear. induction n; simpl; [done|]. by f_equal. }
  cbn [mbind option_bind]. f_equal.
  enough (found = map (fun s => decides_in (path_parts path) s (rev (co_rules o))) (seq 0 n)) as ->.
  { generalize (seq 0 n). clear. induction l as [|s l IH]; simpl; [done|]. unfold omap in IH. destruct (decides_in _ _ _); by rewrite IH. }
  rewrite length_replicate in Hl. apply list_eq. intros s. rewrite list_lookup_fmap. destruct (decide (s < n)) as [Hs|Hs].
  - rewrite lookup_seq_lt by done. rewrite (Hout s None); [done|]. by apply lookup_replicate.
  - rewrite lookup_seq_ge, lookup_ge_None_2 by lia. done.
Qed.

Lemma push_new_spec out ts t : t ∈ push_new out ts <-> t ∈ out \/ t ∈ ts.
Proof.
  unfold push_new. revert out. induction ts as [|u ts IH]; intros out; cbn [foldl]; [rewrite elem_of_nil; tauto|].
  rewrite IH, elem_of_cons. case_bool_decide as Hu.
  - split; [tauto|]. intros [?|[->|?]]; tauto.
  - rewrite elem_of_app, list_elem_of_singleton. tauto.
Qed.

Lemma push_new_NoDup out ts : NoDup out -> NoDup (push_new out ts).
Proof.
  unfold push_new. revert out. induction ts as [|u ts IH]; intros out Hn; cbn [foldl]; [done|]. apply IH. case_bool_decide as Hu; [done|].
  apply NoDup_app. split_and!; [done|by intros x Hx ->%list_elem_of_singleton|apply NoDup_singleton].
Qed.

(** A rule decides a path: it is its section's last that matches. *)
Definition rule_matches (r : OwnerRule) (path : string) : Prop := or_segs r <> [] /\ path_match (or_segs r) (path_parts path).
Definition decides (o : CodeOwners) (path : string) (r : OwnerRule) : Prop :=
  exists before after, co_rules o = before ++ r :: after /\ rule_matches r path
    /\ forall r', r' ∈ after -> or_section r' = or_section r -> ~ rule_matches r' path.

Lemma find_rev_split {A} (f : A -> bool) l x : List.find f (rev l) = Some x <->
  exists before after, l = before ++ x :: after /\ f x = true /\ forall y, y ∈ after -> f y = false.
Proof.
  induction l as [|y l IH] using rev_ind.
  - split; [done|]. intros (before & after & H & _). by destruct before.
  - rewrite rev_app_distr. simpl. destruct (f y) eqn:Hy.
    + split.
      * intros [= ->]. exists l, []. split_and!; [done..|]. by intros z ?%elem_of_nil.
      * intros (before & after & Heq & Hx & Hafter). destruct after as [|z after _] using rev_ind.
        -- apply app_inj_tail in Heq as [_ ->]. done.
        -- rewrite app_comm_cons, app_assoc in Heq. apply app_inj_tail in Heq as [_ ->].
           rewrite (Hafter z) in Hy; [done|]. apply elem_of_app. right. by apply list_elem_of_singleton.
    + rewrite IH. split.
      * intros (before & after & -> & Hx & Hafter). exists before, (after ++ [y]). rewrite <-app_assoc. split_and!; [done..|].
        intros z [Hz| ->%list_elem_of_singleton]%elem_of_app; [by apply Hafter|done].
      * intros (before & after & Heq & Hx & Hafter). destruct after as [|z after _] using rev_ind.
        -- apply app_inj_tail in Heq as [_ ->]. congruence.
        -- rewrite app_comm_cons, app_assoc in Heq. apply app_inj_tail in Heq as [-> ->]. exists before, after. split_and!; [done..|].
           intros w Hw. apply Hafter. apply elem_of_app. by left.
Qed.

Lemma decides_in_spec o path s r : decides_in (path_parts path) s (rev (co_rules o)) = Some r <-> or_section r = s /\ decides o path r.
Proof.
  unfold decides_in. rewrite find_rev_split. unfold decides.
  assert (forall r, (or_section r =? s) && matches_parts (or_segs r) (path_parts path) = true <-> or_section r = s /\ rule_matches r path) as Hm.
  { intros r'. rewrite andb_true_iff, Nat.eqb_eq. unfold rule_matches. by rewrite matches_parts_iff. }
  split.
  - intros (before & after & Heq & Hr & Hafter). apply Hm in Hr as [<- Hr]. split; [done|]. exists before, after. split_and!; [done..|].
    intros r' Hin Hs Hm'. specialize (Hafter r' Hin). assert (or_section r' = or_section r /\ rule_matches r' path) as Hx by done.
    apply Hm in Hx. congruence.
  - intros (Hsec & before & after & Heq & Hr & Hafter). subst s. exists before, after. split_and!; [done|by apply Hm|].
    intros r' Hin. destruct (_ && _) eqn:E; [|done]. apply Hm in E as [Hs Hx]. by apply (Hafter r' Hin) in Hx.
Qed.

(** ** Parsed files *)

Lemma parse_line_ok lower st n raw : owners_ok st.1.1 -> st.1.2 < length (co_sections st.1.1) ->
  owners_ok (parse_line lower st n raw).1.1 /\ (parse_line lower st n raw).1.2 < length (co_sections (parse_line lower st n raw).1.1).
Proof.
  destruct st as [[out section] defaults]. cbn [fst snd]. intros Hok Hs. unfold parse_line. destruct (_ || _); [done|].
  destruct (section_header lower _) as [[name owners]|].
  - destruct (list_find (eq name) (co_sections out)) as [[i x]|] eqn:Hf; cbn [fst snd co_sections].
    + split; [done|]. apply list_find_Some in Hf as (Hx & _). by eapply lookup_lt_Some.
    + destruct Hok as (Hr & Hn & H0). rewrite length_app. simpl. split; [|lia]. split_and!; cbn [co_rules co_sections].
      * eapply Forall_impl; [exact Hr|]. simpl. intros r. rewrite length_app. simpl. lia.
      * apply NoDup_app. split_and!; [done| |apply NoDup_singleton]. intros x Hx ->%list_elem_of_singleton.
        apply list_find_None in Hf. rewrite Forall_forall in Hf. by apply (Hf name).
      * by apply lookup_app_l_Some.
  - destruct (split_pattern false _) as [pattern rest]. destruct (pattern_error pattern); cbn [fst snd co_sections]; [by split|].
    split; [|done]. destruct Hok as (Hr & Hn & H0). split_and!; cbn [co_rules co_sections]; [|done..].
    apply Forall_app. split; [done|]. by repeat constructor.
Qed.

Lemma parse_code_owners_ok lower text : owners_ok (parse_code_owners lower text).
Proof.
  unfold parse_code_owners. generalize (split_on (fun a => a == byte_of 10) (default text (strip_prefix BOM text))). intros lines.
  assert (forall st n, owners_ok st.1.1 -> st.1.2 < length (co_sections st.1.1) -> owners_ok (parse_lines lower st n lines).1.1) as H.
  { induction lines as [|raw lines IH]; intros st n Hok Hs; cbn [parse_lines]; [done|]. by apply IH; apply parse_line_ok. }
  apply H; simpl; [|lia]. split_and!; simpl; [constructor|apply NoDup_singleton|done].
Qed.

(** The owners of a path in a well-formed file. *)
Definition owner_tokens (o : CodeOwners) (path : string) (ts : list string) : Prop :=
  NoDup ts /\ forall t, t ∈ ts <-> exists r, decides o path r /\ t ∈ or_owners r.

Lemma owners_of_spec o path : owners_ok o -> exists ts, owners_of o path = Some ts /\ owner_tokens o path ts.
Proof.
  intros Hok. unfold owners_of. rewrite (deciding_rules_spec o path Hok). cbn [mbind option_bind]. eexists. split; [done|].
  set (rules := omap _ _). assert (forall r, r ∈ rules <-> decides o path r) as Hrules.
  { intros r. unfold rules. rewrite list_elem_of_omap. setoid_rewrite decides_in_spec. split; [by intros (s & _ & _ & Hd)|].
    intros Hd. exists (or_section r). split; [|done]. apply elem_of_seq. split; [lia|]. destruct Hok as (Hr & _).
    rewrite Forall_forall in Hr. apply Hr. destruct Hd as (before & after & -> & _). apply elem_of_app. right. left. }
  assert (forall out, (NoDup out -> NoDup (foldl (fun out r => push_new out (or_owners r)) out rules))
    /\ forall t, t ∈ foldl (fun out r => push_new out (or_owners r)) out rules <-> t ∈ out \/ exists r, r ∈ rules /\ t ∈ or_owners r) as H.
  { clear. induction rules as [|r rules IH]; intros out; cbn [foldl].
    - split; [done|]. intros t. split; [by left|]. intros [|(r & ?%elem_of_nil & _)]; done.
    - destruct (IH (push_new out (or_owners r))) as [H1 H2]. split; [intros Hn; by apply H1, push_new_NoDup|].
      intros t. rewrite H2, push_new_spec. setoid_rewrite elem_of_cons. naive_solver. }
  destruct (H []) as [H1 H2]. split; [apply H1; constructor|]. intros t. rewrite H2, elem_of_nil. setoid_rewrite Hrules. naive_solver.
Qed.

Lemma elem_of_path_set paths p : p ∈ path_set paths <-> p ∈ paths.
Proof. unfold path_set. by rewrite elem_of_btree_elems, elem_of_list_to_set. Qed.

Section rule.
Context (decodes : string -> bool) (resolved : gmap string (option string)) (oracle : RoleOracle) (author : string).

(** Who can approve a path: an identity an owner token stands for that counts for the policy. *)
Definition owner_counts (policy : Policy) (ts : list string) (id : string) : Prop :=
  (exists t, t ∈ ts /\ identity_of decodes resolved t = Some id) /\ counts_for oracle policy id = true.

Lemma existsb_owner policy ts (f : string -> bool) :
  existsb (fun id => f id && counts_for oracle policy id) (omap (identity_of decodes resolved) ts) = true
  <-> exists id, owner_counts policy ts id /\ f id = true.
Proof.
  rewrite existsb_exists. unfold owner_counts. setoid_rewrite <-list_elem_of_In. setoid_rewrite list_elem_of_omap. setoid_rewrite andb_true_iff.
  split; intros (id & H); exists id; naive_solver.
Qed.

Lemma pending_file_spec o approvals policy path : owners_ok o ->
  exists ts, owner_tokens o path ts /\
  ((pending_file decodes resolved oracle author o approvals policy path = Some []
    /\ (ts = [] \/ exists id, owner_counts policy ts id /\ id ∈ ap_approvers approvals))
   \/ exists ok, pending_file decodes resolved oracle author o approvals policy path = Some [mkPendingFile path ts ok]
    /\ ts <> [] /\ (forall id, owner_counts policy ts id -> id ∉ ap_approvers approvals)
    /\ (ok = true <-> exists id, owner_counts policy ts id /\ id <> author)).
Proof.
  intros Hok. destruct (owners_of_spec o path Hok) as (ts & Hts & Hspec). exists ts. split; [done|]. unfold pending_file. rewrite Hts.
  cbn [mbind option_bind]. case_bool_decide as Hn; [left; split; [done|by left]|].
  pose proof (existsb_owner policy ts (fun id => bool_decide (id ∈ ap_approvers approvals))) as Ha. setoid_rewrite bool_decide_eq_true in Ha.
  pose proof (existsb_owner policy ts (fun id => id != author)) as Hb. setoid_rewrite negb_true_iff in Hb. setoid_rewrite bool_decide_eq_false in Hb.
  destruct (existsb _ _) eqn:E.
  - left. split; [done|]. right. by apply Ha.
  - right. eexists. split_and!; [done|done| |exact Hb]. intros id Hc Hin. enough (false = true) by done. apply Ha. by exists id.
Qed.

Lemma owner_counts_same policy o path ts ts' id : owner_tokens o path ts -> owner_tokens o path ts' ->
  owner_counts policy ts id -> owner_counts policy ts' id.
Proof. intros [_ H1] [_ H2] [(t & Ht & Hi) Hc]. split; [|done]. exists t. split; [|done]. by apply H2, H1. Qed.

Lemma pending_files o approvals policy paths : owners_ok o ->
  exists pending, mapM (pending_file decodes resolved oracle author o approvals policy) paths = Some pending
  /\ (forall f, f ∈ concat pending -> (owner_tokens o (pf_path f) (pf_owners f) /\ pf_owners f <> []
        /\ forall id, owner_counts policy (pf_owners f) id -> id ∉ ap_approvers approvals)
      /\ (pf_approvable f = true <-> exists id, owner_counts policy (pf_owners f) id /\ id <> author))
  /\ forall path, (exists f, f ∈ concat pending /\ pf_path f = path) <-> path ∈ paths /\ exists ts, owner_tokens o path ts /\ ts <> []
       /\ forall id, owner_counts policy ts id -> id ∉ ap_approvers approvals.
Proof.
  intros Hok. induction paths as [|p paths (pending & Hm & Hin & Hp)].
  { exists []. split; [done|]. split; [by intros f ?%elem_of_nil|]. intros path. split; [by intros (f & ?%elem_of_nil & _)|by intros [?%elem_of_nil _]]. }
  destruct (pending_file_spec o approvals policy p Hok) as (ts & Hts & [[Hf Ho]|(ok & Hf & Hne & Hno & Hok')]).
  - exists ([] :: pending). cbn [mapM]. rewrite Hf. cbn [mbind option_bind]. rewrite Hm. split; [done|]. split; [exact Hin|].
    intros path. cbn [concat app]. rewrite Hp, elem_of_cons. split; [tauto|]. intros [[->|Hpath] Hw]; [|done].
    destruct Hw as (ts' & Hts' & Hne' & Hno'). exfalso. destruct Ho as [->|(id & Hc & Ha)].
    + destruct ts' as [|t ts']; [done|]. assert (t ∈ @nil string) as ?%elem_of_nil; [|done]. apply Hts, Hts'. left.
    + apply (Hno' id); [|done]. by apply (owner_counts_same policy o p ts).
  - exists ([mkPendingFile p ts ok] :: pending). cbn [mapM]. rewrite Hf. cbn [mbind option_bind]. rewrite Hm. split; [done|].
    cbn [concat app]. split.
    + intros f [->|Hf']%elem_of_cons; [|by apply Hin]. split_and!; done.
    + intros path. setoid_rewrite elem_of_cons. split.
      * intros (f & [->|Hf'] & Heq); [simpl in Heq; subst path; split; [by left|by exists ts]|]. destruct (proj1 (Hp path)) as [? ?]; [by exists f|].
        split; [by right|done].
      * intros [[->|Hpath] Hw]; [exists (mkPendingFile p ts ok); split; [by left|done]|]. destruct (proj2 (Hp path)) as (f & Hf' & Heq); [done|].
        exists f. split; [by right|done].
Qed.
End rule.

(** ** Requests *)

Section requests.
Context (decodes : string -> bool) (resolved : gmap string (option string)) (oracle : RoleOracle) (author : string).

(** An identity that may be asked: not the author, and an approver now. *)
Definition askable (id : string) : Prop := id <> author /\ current_approver oracle id = true.

(** After some tokens: who is asked, and that each token is asked for or skipped. *)
Definition requests_inv (ts : list string) (st : OwnerRequests * gset string) : Prop :=
  NoDup (rq_request st.1) /\ length (rq_request st.1) <= MAX_OWNER_REQUESTS
  /\ (forall id, id ∈ st.2 <-> id ∈ rq_request st.1)
  /\ (forall id, id ∈ rq_request st.1 -> askable id /\ exists t, t ∈ ts /\ identity_of decodes resolved t = Some id)
  /\ (forall t id, t ∈ ts -> identity_of decodes resolved t = Some id -> askable id ->
     id ∈ rq_request st.1 \/ length (rq_request st.1) = MAX_OWNER_REQUESTS)
  /\ length (rq_request st.1) + length (rq_skipped st.1) = length ts.

(** A token that is skipped changes only the list of skipped ones. *)
Lemma requests_skip ts out seen t s : requests_inv ts (out, seen) ->
  (forall id, identity_of decodes resolved t = Some id -> askable id -> id ∈ rq_request out \/ length (rq_request out) = MAX_OWNER_REQUESTS) ->
  requests_inv (ts ++ [t]) (mkOwnerRequests (rq_request out) (rq_skipped out ++ [s]), seen).
Proof.
  intros (Hn & Hl & Hs & Hr & Hc & Ht) Hnew. unfold requests_inv. cbn [fst snd rq_request rq_skipped] in *. split_and!; [done..| | |].
  - intros id Hid. destruct (Hr id Hid) as [Ha (u & Hu & Hi)]. split; [done|]. exists u. split; [apply elem_of_app; by left|done].
  - intros u id [Hu|Hu%list_elem_of_singleton]%elem_of_app Hi Ha; [by apply (Hc u)|]. subst u. by apply Hnew.
  - rewrite !length_app. simpl. lia.
Qed.

Lemma identity_kind t id : identity_of decodes resolved t = Some id -> owner_kind decodes t = KIdentity \/ owner_kind decodes t = KName.
Proof. unfold identity_of. destruct (owner_kind decodes t); try done; [by right|by left]. Qed.

Lemma request_step_inv ts st t : requests_inv ts st -> requests_inv (ts ++ [t]) (request_step decodes resolved oracle author st t).
Proof.
  destruct st as [out seen]. intros Hinv. pose proof Hinv as (Hn & Hl & Hs & Hr & Hc & Ht). cbn [fst snd] in *. unfold request_step.
  pose proof (identity_kind t) as Hkind. assert (requests_inv (ts ++ [t]) match identity_of decodes resolved t with
    | None => (mkOwnerRequests (rq_request out) (rq_skipped out ++ [mkSkippedOwner t SkUnresolved None]), seen)
    | Some id =>
    if id == author then (mkOwnerRequests (rq_request out) (rq_skipped out ++ [mkSkippedOwner t SkAuthor (Some id)]), seen)
    else if bool_decide (id ∈ seen) then (mkOwnerRequests (rq_request out) (rq_skipped out ++ [mkSkippedOwner t SkDuplicate (Some id)]), seen)
    else if negb (current_approver oracle id) then (mkOwnerRequests (rq_request out) (rq_skipped out ++ [mkSkippedOwner t SkNotApprover (Some id)]), seen)
    else if MAX_OWNER_REQUESTS <=? length (rq_request out) then (mkOwnerRequests (rq_request out) (rq_skipped out ++ [mkSkippedOwner t SkCap (Some id)]), seen)
    else (mkOwnerRequests (rq_request out ++ [id]) (rq_skipped out), {[id]} ∪ seen) end) as Hask.
  { destruct (identity_of decodes resolved t) as [id|] eqn:Hid; [|apply requests_skip; [done|congruence]].
    case_bool_decide as Ha; [apply requests_skip; [done|]; intros x Hx [? _]; congruence|].
    case_bool_decide as Hseen; [apply requests_skip; [done|]; intros x Hx _; left; apply Hs; congruence|].
    destruct (current_approver oracle id) eqn:Happ; cbn [negb]; [|apply requests_skip; [done|]; intros x Hx [_ ?]; congruence].
    destruct (Nat.leb_spec MAX_OWNER_REQUESTS (length (rq_request out))) as [Hcap|Hroom]; [apply requests_skip; [done|]; intros; right; lia|].
    rewrite Hs in Hseen. unfold requests_inv. cbn [fst snd rq_request rq_skipped]. rewrite !length_app. cbn [length]. split_and!.
    - apply NoDup_app. split_and!; [done|by intros x Hx ->%list_elem_of_singleton|apply NoDup_singleton].
    - lia.
    - intros x. rewrite elem_of_union, elem_of_singleton, elem_of_app, list_elem_of_singleton, Hs. tauto.
    - intros x [Hx|Hx%list_elem_of_singleton]%elem_of_app.
      + destruct (Hr x Hx) as [? (u & ? & ?)]. split; [done|]. exists u. split; [apply elem_of_app; by left|done].
      + subst x. split; [by split|]. exists t. split; [apply elem_of_app; right; by apply list_elem_of_singleton|done].
    - intros u x [Hu|Hu%list_elem_of_singleton]%elem_of_app Hi Hx; left; apply elem_of_app.
      + left. destruct (Hc u x Hu Hi Hx); [done|lia].
      + subst u. right. apply list_elem_of_singleton. congruence.
    - lia. }
  destruct (owner_kind decodes t) eqn:Hk; try exact Hask; apply requests_skip; try done; intros id Hid _; destruct (Hkind id Hid); congruence.
Qed.

Lemma code_owner_requests_inv ts : requests_inv ts (foldl (request_step decodes resolved oracle author) (mkOwnerRequests [] [], ∅) ts).
Proof.
  induction ts as [|t ts IH] using rev_ind.
  - unfold requests_inv. simpl. split_and!; [constructor|lia|set_solver|by intros id ?%elem_of_nil|by intros t id ?%elem_of_nil|done].
  - rewrite foldl_app. simpl. by apply request_step_inv.
Qed.
End requests.

(** ** Theorems *)

(** Whatever a code owners file holds, it parses, and each path has the owners of its
    deciding rules, each token once: in each section the last rule whose pattern matches the
    path. Reading them never fails. *)
Theorem code_owners_of_spec lower text path :
  exists ts, owners_of (parse_code_owners lower text) path = Some ts /\ owner_tokens (parse_code_owners lower text) path ts.
Proof. apply owners_of_spec, parse_code_owners_ok. Qed.

Lemma approver_not_author reviews oracle head dismissed author id : distinct_reviews reviews ->
  id ∈ ap_approvers (count_approvals reviews oracle head dismissed author) -> id <> author.
Proof.
  intros Hd. rewrite count_approvers_spec, standing by done. intros (r & _ & Hk & Ha & _) ->.
  apply review_counts_spec in Hk as (_ & Hne & _). apply Hne. by apply approves_iff in Ha as [? _].
Qed.

(** C21: a path waits for its owners until one of them approves. With the branch policy's
    [requireCodeOwners] on, a request meets the rule exactly when every changed path is owned
    by nobody or has an owner, not the request's author, whose approval stands on the head and
    whose role counts now; the paths that wait are listed, and one is marked not approvable
    exactly when no owner but the author could approve it. A file that cannot be read blocks,
    and no file, or the rule off, requires nothing. *)
Theorem code_owner_review_spec decodes resolved oracle author lower text paths reviews head dismissed policy
  (Hd : distinct_reviews reviews) :
  let o := parse_code_owners lower text in
  let approvals := count_approvals reviews oracle head dismissed author in
  let review file := code_owner_review decodes resolved oracle author file paths approvals policy in
  let counts := owner_counts decodes resolved oracle policy in
  let waits path ts := owner_tokens o path ts /\ ts <> [] /\ forall id, counts ts id -> id ∉ ap_approvers approvals in
  if po_require_code_owners policy then
    (exists st, review (Parsed o) = Some st /\ cs_unreadable st = false
      /\ (cs_met st = true <-> forall path, path ∈ paths -> exists ts, owner_tokens o path ts
            /\ (ts = [] \/ exists id, counts ts id /\ id ∈ ap_approvers approvals /\ id <> author))
      /\ (forall path, (exists f, f ∈ cs_pending st /\ pf_path f = path) <-> path ∈ paths /\ exists ts, waits path ts)
      /\ (forall f, f ∈ cs_pending st -> waits (pf_path f) (pf_owners f)
            /\ (pf_approvable f = true <-> exists id, counts (pf_owners f) id /\ id <> author)))
    /\ review Unreadable = Some (mkCodeOwnerStatus false true []) /\ review Absent = Some (mkCodeOwnerStatus true false [])
  else forall file, review file = Some (mkCodeOwnerStatus true false []).
Proof.
  cbv zeta. set (o := parse_code_owners lower text). set (approvals := count_approvals reviews oracle head dismissed author).
  unfold code_owner_review. destruct (po_require_code_owners policy) eqn:Hreq; cbn [negb]; [|done]. split; [|done].
  destruct (pending_files decodes resolved oracle author o approvals policy (path_set paths) (parse_code_owners_ok lower text))
    as (pending & -> & Hin & Hpaths). cbn [mbind option_bind]. eexists. split; [done|]. cbn [cs_met cs_unreadable cs_pending]. split; [done|].
  assert (forall path, (exists f, f ∈ concat pending /\ pf_path f = path) <-> path ∈ paths /\ exists ts,
    owner_tokens o path ts /\ ts <> [] /\ forall id, owner_counts decodes resolved oracle policy ts id -> id ∉ ap_approvers approvals) as Hwait.
  { intros path. rewrite Hpaths, elem_of_path_set. done. }
  split_and!; [|exact Hwait|exact Hin]. rewrite bool_decide_eq_true. split.
  - intros Hnil path Hp. destruct (pending_file_spec decodes resolved oracle author o approvals policy path (parse_code_owners_ok lower text))
      as (ts & Hts & [[_ Ho]|(ok & _ & Hne & Hno & _)]).
    + exists ts. split; [done|]. destruct Ho as [|(id & Hc & Ha)]; [by left|right]. exists id. split_and!; [done..|].
      by apply approver_not_author in Ha.
    + exfalso. destruct (proj2 (Hwait path)) as (f & Hf & _); [split; [done|by exists ts]|]. rewrite Hnil in Hf. by apply elem_of_nil in Hf.
  - intros Hall. destruct (concat pending) as [|f rest] eqn:E; [done|]. exfalso.
    destruct (proj1 (Hwait (pf_path f))) as (Hp & ts & Hts & Hne & Hno); [exists f; split; [left|done]|].
    destruct (Hall _ Hp) as (ts' & Hts' & Hcase). destruct Hcase as [->|(id & Hc & Ha & _)].
    + destruct ts as [|t ts]; [done|]. destruct Hts as [_ Ht], Hts' as [_ Ht']. assert (t ∈ @nil string) as ?%elem_of_nil; [|done].
      apply Ht', Ht. left.
    + apply (Hno id); [|done]. by apply (owner_counts_same decodes resolved oracle policy o (pf_path f) ts').
Qed.

(** Whom a new request asks: at most fifteen identities, each once, each named by an owner
    token, none of them the author and each an approver now. Every token is asked for or
    reported skipped, and one that names such an identity goes unasked only at the cap. *)
Theorem code_owner_requests_spec decodes resolved oracle author ts :
  let out := code_owner_requests decodes resolved oracle author ts in
  NoDup (rq_request out) /\ length (rq_request out) <= MAX_OWNER_REQUESTS
  /\ (forall id, id ∈ rq_request out -> askable oracle author id /\ exists t, t ∈ ts /\ identity_of decodes resolved t = Some id)
  /\ (forall t id, t ∈ ts -> identity_of decodes resolved t = Some id -> askable oracle author id ->
       id ∈ rq_request out \/ length (rq_request out) = MAX_OWNER_REQUESTS)
  /\ length (rq_request out) + length (rq_skipped out) = length ts.
Proof.
  cbv zeta. unfold code_owner_requests.
  destruct (code_owner_requests_inv decodes resolved oracle author ts) as (H1 & H2 & _ & H3 & H4 & H5). by split_and!.
Qed.

(** ** Witnesses *)

Definition lf : string := utf8 [10%N].
Definition example_file : string :=
  "# owners" +:+ lf +:+ "* @ann" +:+ lf +:+ "docs/ @bob @org/team" +:+ lf +:+ "docs/private/" +:+ lf +:+ "!docs/x @bob" +:+ lf
  +:+ "[Build][2] @carol" +:+ lf +:+ "*.mk".
Definition example_owners : CodeOwners := parse_code_owners id example_file.

Example example_owned : map (owners_of example_owners) ["src/a.rs"; "docs/a.md"; "docs/private/k"; "docs/x.mk"]
  = [Some ["@ann"]; Some ["@bob"; "@org/team"]; Some []; Some ["@bob"; "@org/team"; "@carol"]].
Proof. vm_compute. reflexivity. Qed.

Example example_errors : co_errors example_owners = [mkOwnersError 5 "negation"] /\ co_sections example_owners = [""; "Build"].
Proof. split; vm_compute; reflexivity. Qed.

Example example_kinds : map (owner_kind (fun _ => true)) ["@ann"; "@ann.DASH"; "@org/team"; "a@b.c"; "@@owners"; "ann"; "@9cBMULwtQUMtxhBkgaTKb4tJtoczd8TEQ8gmiroDWf4F"]
  = [KName; KName; KTeam; KEmail; KRole; KInvalid; KIdentity].
Proof. vm_compute. reflexivity. Qed.

Definition example_names : gmap string (option string) := {["@ann" := Some "ann"; "@bob" := Some "bob"]}.
Definition example_policy : Policy := mkPolicy 1 0 false 0 [] [] true.
Definition example_reviews : list Review := [approval "r1" "bob" 10].

Lemma code_owner_review_spec_witness :
  cs_met <$> code_owner_review (fun _ => true) example_names team "ann" (Parsed example_owners) ["docs/a.md"]
    (count_approvals example_reviews team "c0" ∅ "ann") example_policy = Some true
  /\ code_owner_review (fun _ => true) example_names team "ann" Unreadable ["docs/a.md"]
    (count_approvals example_reviews team "c0" ∅ "ann") example_policy = Some (mkCodeOwnerStatus false true []).
Proof.
  split; [vm_compute; reflexivity|].
  refine (proj1 (proj2 (code_owner_review_spec (fun _ => true) example_names team "ann" id example_file ["docs/a.md"] example_reviews "c0" ∅ example_policy _))).
  by intros a b ->%list_elem_of_singleton ->%list_elem_of_singleton.
Defined.
