(* ===== verification/UserErrors.v ===== *)
(** The errors a person reads ([user_error.rs]): how one is put together, each part on one
    line, and the exit code its own code gives. *)
From S2P Require Import Wire.
From S2P Require Import Prelude Text.

Definition USAGE : string := "E201".
Definition UNSUPPORTED : string := "E205".
Definition PRIVATE_UNSUPPORTED : string := "E207".

Definition DOCS_URL : string := "https://github.com/PastaPastaPasta/dash-forge/blob/master/docs/errors.md".

Definition one_line (s : string) : string := str_join " " (split_whitespace s).

Definition docs_url (code : string) : string := DOCS_URL +:+ "#" +:+ to_lower code.

Definition new_error (code message : string) : UserError :=
  mkUserError code (one_line message) None [] None (Some (docs_url code)).

Definition with_cause (cause : string) (e : UserError) : UserError :=
  let c := one_line cause in
  mkUserError (ue_code e) (ue_message e) (if c == "" then None else Some c) (ue_fix e) (ue_note e) (ue_docs_url e).

Definition with_fix (fix_ : string) (e : UserError) : UserError :=
  mkUserError (ue_code e) (ue_message e) (ue_cause e) (ue_fix e ++ [one_line fix_]) (ue_note e) (ue_docs_url e).

Definition with_note (note : string) (e : UserError) : UserError :=
  mkUserError (ue_code e) (ue_message e) (ue_cause e) (ue_fix e) (Some (one_line note)) (ue_docs_url e).

Definition without_docs (e : UserError) : UserError :=
  mkUserError (ue_code e) (ue_message e) (ue_cause e) (ue_fix e) (ue_note e) None.

Definition exit_code_of (code : string) : Z :=
  match strip_prefix "E" code with
  | Some (String c _) =>
    if is_digit c then
      let d := Z.of_N (byte_val c - 48) in
      if (1 <=? d)%Z && (d <=? 8)%Z then d else 1%Z
    else 1%Z
  | _ => 1%Z
  end.

(** The line [Display] writes. *)
Definition error_line (e : UserError) : string :=
  ue_message e +:+ match ue_cause e with Some c => ": " +:+ c | None => "" end.

(** ** [Display] of the crate's errors ([error.rs]) *)

Definition bool_text (b : bool) : string := if b then "true" else "false".

Definition error_text (e : Error) : string :=
  match e with
  | InsufficientCredits needed available => "insufficient credits: need " +:+ pretty needed +:+ " credits, have " +:+ pretty available
  | Timeout retryable => "operation timed out (retryable: " +:+ bool_text retryable +:+ ")"
  | IncompleteRead document_type fetched reason =>
    "incomplete read of " +:+ document_type +:+ " after " +:+ pretty fetched +:+ " documents: " +:+ reason
  | NotFound => "not found"
  | IdentityNotFound identity_id network _ => "identity " +:+ identity_id +:+ " does not exist on " +:+ network
  | DuplicateUniqueIndex what => "duplicate unique index: " +:+ what
  | Integrity => "integrity check failed: reassembled bytes did not match the manifest hash"
  | StaleProtocolVersion what => "document id derived at a stale protocol version: " +:+ what
  | Nonce => "nonce error: identity-contract nonce desynchronized"
  | Serde error => "serialization error: " +:+ error
  | Io msg => "io error: " +:+ msg
  | Config msg => "configuration error: " +:+ msg
  | InvalidInput msg => msg
  | V2NotDeployed network => "forge-v2 isn't deployed on " +:+ network +:+ " yet (see docs/mainnet-runbook.md)"
  | ContractsMissing network detail => "forge contracts not found on " +:+ network +:+ ": " +:+ detail
  | NotAMember document_type detail =>
    "consensus refused " +:+ document_type +:+ ": no membership document for your identity (" +:+ detail +:+ ")"
  | ReferenceNotFound document_type path detail =>
    "consensus refused " +:+ document_type +:+ ": the reference at " +:+ path +:+ " does not exist (" +:+ detail +:+ ")"
  | FrozenField document_type property detail =>
    "consensus refused " +:+ document_type +:+ ": " +:+ property +:+ " can't change (" +:+ detail +:+ ")"
  | RuleRefused _ _ detail => detail
  | NotPermitted action reason _ => action +:+ ": " +:+ reason
  | Platform msg => "platform error: " +:+ msg
  | CompositeRefused _ reason => "composite query refused: " +:+ reason
  | User error => error_line error
  end.

(** The error with the errors that caused it: a [Serde] error keeps its own. *)
Definition error_chain (e : Error) : string :=
  match e with Serde error => error_text e +:+ ": " +:+ error | _ => error_text e end.
