(* ===== verification/Guard.v ===== *)
(** The publication guard ([members_git/guard.rs]): over an object graph, whether a batch of ref
    updates would show an object to someone it is sealed from. *)
From S2P Require Import Wire.
From S2P Require Import Prelude Ledger Audiences.

Abbreviation Oid := string.

(** ** The object graph *)

Inductive ObjectType := Commit | Tree | Blob | Tag.

#[export] Instance ObjectType_eq_dec : EqDecision ObjectType.
Proof. solve_decision. Defined.

Record Peeled := mkPeeled {
  pe_tags : list Oid;
  pe_target : Oid;
  pe_kind : ObjectType
}.

Record Gitlink := mkGitlink {
  gl_commit : Oid;
  gl_path : string;
  gl_target : Oid
}.

(** The graph the guard asks: [commits include exclude] are the commits reached from the one list
    and not from the other, [objects] the objects of every type. *)
Class ObjectGraph (G : Type) := {
  commits : G -> list Oid -> list Oid -> Result (gset Oid);
  objects : G -> list Oid -> list Oid -> Result (gset Oid);
  peel : G -> Oid -> Result Peeled;
  note_targets : G -> Oid -> Result (list Oid);
  gitlinks : G -> list Oid -> list Oid -> Result (list Gitlink);
  patch_ids : G -> list Oid -> Result (gmap Oid string)
}.

(** What the answers mean: [history] has the commits an object reaches in this graph, none where
    the graph does not have it, and [contents] the objects of every type. A walk over objects may
    name some that an excluded tip reaches as well, as [git rev-list --objects] may; it names every
    one that is left. A tag reaches what its target does. *)
Class GraphLaws (G : Type) `{!ObjectGraph G} := {
  history : G -> Oid -> gset Oid;
  contents : G -> Oid -> gset Oid;
  commits_spec g inc exc s : commits g inc exc = Ok s ->
    forall c, c ∈ s <-> (exists i, (i ∈ inc) /\ c ∈ history g i) /\ ~ exists e, (e ∈ exc) /\ c ∈ history g e;
  objects_spec g inc exc s : objects g inc exc = Ok s ->
    forall o, (o ∈ s -> exists i, (i ∈ inc) /\ o ∈ contents g i)
      /\ ((exists i, (i ∈ inc) /\ o ∈ contents g i) -> (~ exists e, (e ∈ exc) /\ o ∈ contents g e) -> o ∈ s);
  peel_history g oid p : peel g oid = Ok p -> history g (pe_target p) = history g oid
}.

(** ** The guard's input and outcome *)

Record BatchRef := mkBatchRef {
  br_dst : string;
  br_new : option Oid;
  br_audience : Audience
}.

Record Remade := mkRemade {
  rm_dst : string;
  rm_commit : Oid;
  rm_like : Oid
}.

Record GitlinkNote := mkGitlinkNote {
  gn_dst : string;
  gn_commit : Oid;
  gn_path : string;
  gn_target : Oid
}.

Record GuardInput := mkGuardInput {
  gi_members_key : bool;
  gi_ledger : LedgerState;
  gi_decryptable : option (list Oid);
  gi_public_tips : list Oid;
  gi_batch : list BatchRef;
  gi_publish_private : option Oid;
  gi_patch_ids : bool;
  gi_audiences : NarrowAudiences;
  gi_decryptable_narrower : list (Oid * string)
}.

Inductive Verdict := Pass | Refuse | Unavailable.

#[export] Instance Verdict_eq_dec : EqDecision Verdict.
Proof. solve_decision. Defined.

Inductive FindingKind := FoundCommits | FoundTag | FoundObject | FoundNote | FoundReplace.

Record Finding := mkFinding {
  fi_dst : string;
  fi_kind : FindingKind;
  fi_oids : list Oid
}.

Inductive Note := NoKeyEmptyLedger.

Record Outcome := mkOutcome {
  oc_verdict : Verdict;
  oc_findings : list Finding;
  oc_notes : list Note;
  oc_published : list Finding;
  oc_gitlinks : list GitlinkNote;
  oc_remade : list Remade
}.

(** ** What is sealed *)

(** The ledger of a state that has one. *)
Definition ledger_of (st : LedgerState) : option Ledger := match st with Present l => Some l | _ => None end.

(** The sealed objects known before the push, each with its narrowest audience. *)
Definition sealed_before (input : GuardInput) : gmap Oid EntryAudience :=
  let s := match ledger_of (gi_ledger input) with Some l => l_commits l | None => ∅ end in
  let s := foldl (fun s oid => match s !! oid with Some _ => s | None => <[oid := EntryMembers]> s end)
    s (default [] (gi_decryptable input)) in
  foldl (fun s '(oid, t) => narrow_in oid (EntryNarrower t) s) s (gi_decryptable_narrower input).

(** The sealed tips of the batch: one pushed for two audiences is for the narrower. *)
Definition batch_tips (batch : list BatchRef) : gmap Oid EntryAudience :=
  foldl (fun tips u =>
    match br_new u, audience_entry (br_audience u) with
    | Some t, Some a => narrow_in t a tips
    | _, _ => tips
    end) ∅ batch.

Definition sealed_now (input : GuardInput) : gmap Oid EntryAudience :=
  foldl (fun s '(t, a) => match s !! t with Some _ => s | None => <[t := a]> s end)
    (sealed_before input) (btree_items (batch_tips (gi_batch input))).

Definition audience_token (a : EntryAudience) : string := default "members" (token a).

(** The objects of each audience, by its token. *)
Definition by_audience (s : gmap Oid EntryAudience) : gmap string (list Oid) :=
  foldl (fun m '(oid, a) => <[audience_token a := default [] (m !! audience_token a) ++ [oid]]> m) ∅ (btree_items s).

Definition ids_where (keep : string -> bool) (m : gmap string (list Oid)) : list Oid :=
  concat (map snd (List.filter (fun '(a, _) => keep a) (btree_items m))).

(** ** One update *)

Section Guard.
Context {G : Type} `{!ObjectGraph G} (g : G) (input : GuardInput).
Context (all : list Oid) (by_now before : gmap string (list Oid)).

(** A public update of a commit: what it adds, and what of it no sealed object reaches. *)
Record PublicCommit := mkPublicCommit {
    pc_dst : string;
    pc_target : Oid;
    pc_adds : gset Oid;
    pc_public_only : gset Oid
  }.

Definition finding (u : BatchRef) (kind : FindingKind) (oids : list Oid) : list Finding :=
  match oids with [] => [] | _ => [mkFinding (br_dst u) kind oids] end.

(** Whether an object is one the sealed ids reach and the public tips do not. *)
Definition is_sealed_object (oid : Oid) : Result bool :=
  if all == [] then Ok false
  else objs ← objects g all (gi_public_tips input); Ok (bool_decide (oid ∈ objs)).

Fixpoint filter_sealed (oids : list Oid) : Result (list Oid) :=
  match oids with
  | [] => Ok []
  | x :: oids => b ← is_sealed_object x; rest ← filter_sealed oids; Ok (if (b : bool) then x :: rest else rest)
  end.

Definition sealed_findings (u : BatchRef) (t : Oid) : Result (list Finding) :=
  let dst := audience_str (br_audience u) in
  let p := gi_public_tips input in
  let wider := ids_where (fun a => negb (within dst a (gi_audiences input))) by_now in
  if wider == [] then Ok []
  else
    adds ← commits g [t] p;
    only_wider ← commits g wider p;
    let covered := ids_where (fun a => within dst a (gi_audiences input)) before in
    only_wider ← (if covered == [] then Ok only_wider else held ← commits g covered p; Ok (only_wider ∖ held));
    Ok (finding u FoundCommits (btree_elems (adds ∩ only_wider))).

(** The commits of a public update, with what the notes need of them. *)
Definition commit_findings (u : BatchRef) (peeled : Peeled) : Result (list Finding * list PublicCommit) :=
  let p := gi_public_tips input in
  if pe_kind peeled == Commit then
    if all == [] then Ok ([], [])
    else
      adds ← commits g [pe_target peeled] p;
      public_only ← commits g [pe_target peeled] (p ++ all);
      Ok (finding u FoundCommits (btree_elems (adds ∖ public_only)),
        [mkPublicCommit (br_dst u) (pe_target peeled) adds public_only])
  else
    b ← is_sealed_object (pe_target peeled);
    Ok (if (b : bool) then finding u FoundObject [pe_target peeled] else [], []).

Definition note_findings (u : BatchRef) (peeled : Peeled) : Result (list Finding) :=
  if starts_with "refs/notes/" (br_dst u) && (pe_kind peeled == Commit) then
    named ← note_targets g (pe_target peeled);
    named ← filter_sealed named;
    Ok (finding u FoundNote (btree_elems (list_to_set named)))
  else Ok [].

Definition replace_findings (u : BatchRef) : Result (list Finding) :=
  match strip_prefix "refs/replace/" (br_dst u) with
  | Some x => b ← is_sealed_object x; Ok (if (b : bool) then finding u FoundReplace [x] else [])
  | None => Ok []
  end.

Definition public_findings (u : BatchRef) (t : Oid) : Result (list Finding * list PublicCommit) :=
  peeled ← peel g t;
  tags ← filter_sealed (pe_tags peeled);
  '(body, public) ← commit_findings u peeled;
  notes ← note_findings u peeled;
  replaced ← replace_findings u;
  Ok (concat (map (fun tag => finding u FoundTag [tag]) tags) ++ body ++ notes ++ replaced, public).

Definition update_findings (u : BatchRef) : Result (list Finding * list PublicCommit) :=
  match br_new u with
  | None => Ok ([], [])
  | Some t => if is_sealed (br_audience u) then found ← sealed_findings u t; Ok (found, []) else public_findings u t
  end.

(** The findings of the batch, those that [-o publish-private] lets through, and the public
    updates of commits. *)
Fixpoint batch_findings (batch : list BatchRef) : Result (list Finding * list Finding * list PublicCommit) :=
  match batch with
  | [] => Ok ([], [], [])
  | u :: batch =>
    '(found, public) ← update_findings u;
    '(findings, published, publics) ← batch_findings batch;
    Ok (if is_some_and (br_new u) (fun t => gi_publish_private input == Some t)
        then (findings, found ++ published, public ++ publics) else (found ++ findings, published, public ++ publics))
  end.
End Guard.

(** ** The notes over the whole batch *)

Definition gitlink_cmp : Gitlink -> Gitlink -> comparison :=
  cmp_then (cmp_then (cmp_on gl_commit String.compare) (cmp_on gl_path String.compare)) (cmp_on gl_target String.compare).

Definition gitlink_notes (links : list Gitlink) (pc : PublicCommit) : list GitlinkNote :=
  map (fun l => mkGitlinkNote (pc_dst pc) (gl_commit l) (gl_path l) (gl_target l))
    (List.filter (fun l => bool_decide (gl_commit l ∈ pc_adds pc)) links).

(** The lowest of the commits of each patch id. *)
Definition by_patch (ids : gmap Oid string) : gmap string Oid :=
  foldl (fun m '(c, pid) => match m !! pid with Some _ => m | None => <[pid := c]> m end) ∅ (btree_items ids).

Definition remade_of (ours : gmap string Oid) (theirs : gmap Oid string) (pc : PublicCommit) : list Remade :=
  omap (fun c => pid ← theirs !! c; like ← ours !! pid; Some (mkRemade (pc_dst pc) c like)) (btree_elems (pc_public_only pc)).

Definition notes_over {G} `{!ObjectGraph G} (g : G) (all p : list Oid) (publics : list PublicCommit) (with_patches : bool)
    : Result (list GitlinkNote * list Remade) :=
  if (match publics with [] => true | _ => false end) || (all == []) then Ok ([], [])
  else
    members_only ← commits g all p;
    if bool_decide (members_only = ∅) then Ok ([], [])
    else
      links ← gitlinks g (map pc_target publics) p;
      let links := sort_by gitlink_cmp (List.filter (fun l => bool_decide (gl_target l ∈ members_only)) links) in
      let notes := concat (map (gitlink_notes links) publics) in
      let fresh := ⋃ (map pc_public_only publics) in
      if with_patches && negb (bool_decide (fresh = ∅)) then
        ours ← patch_ids g (btree_elems members_only);
        theirs ← patch_ids g (btree_elems fresh);
        Ok (notes, concat (map (remade_of (by_patch ours) theirs) publics))
      else Ok (notes, []).

(** ** The guard *)

(** What the guard cannot check: a ledger it cannot read, or members-only content with neither a
    key nor a ledger at hand. *)
Definition unavailable (input : GuardInput) : bool :=
  match gi_ledger input with
  | Unknown => true
  | Absent => gi_members_key input && match gi_decryptable input with None => true | Some _ => false end
  | Present _ => false
  end.

Definition guard_notes (input : GuardInput) : list Note :=
  match gi_decryptable input, gi_ledger input with
  | None, Present l => if ledger_is_empty l then [NoKeyEmptyLedger] else []
  | _, _ => []
  end.

Definition sealed_ids (input : GuardInput) : list Oid := btree_keys (sealed_now input).

Definition guard {G} `{!ObjectGraph G} (g : G) (input : GuardInput) : Result Outcome :=
  if unavailable input then Ok (mkOutcome Unavailable [] [] [] [] [])
  else
    let all := sealed_ids input in
    if all == [] then Ok (mkOutcome Pass [] (guard_notes input) [] [] [])
    else
      '(findings, published, publics) ← batch_findings g input all (by_audience (sealed_now input))
        (by_audience (sealed_before input)) (gi_batch input);
      '(links, remade) ← notes_over g all (gi_public_tips input) publics (gi_patch_ids input);
      Ok (mkOutcome (match findings with [] => Pass | _ => Refuse end) findings (guard_notes input) published links remade).

(** ** What is sealed *)

Lemma foldl_or_insert {A} (f : A -> Oid * EntryAudience) l (s : gmap Oid EntryAudience) oid :
  is_Some (foldl (fun s x => match s !! (f x).1 with Some _ => s | None => <[(f x).1 := (f x).2]> s end) s l !! oid)
  <-> is_Some (s !! oid) \/ oid ∈ map (fun x => (f x).1) l.
Proof.
  revert s. induction l as [|x l IH]; intros s; cbn [foldl map]; [by rewrite elem_of_nil; tauto|].
  rewrite IH, elem_of_cons. destruct (s !! (f x).1) as [b|] eqn:E.
  - split; [tauto|]. intros [?|[->|?]]; [by left|left; by rewrite E|by right].
  - destruct (decide (oid = (f x).1)) as [->|Hne].
    + rewrite lookup_insert, decide_True by done. split; [intros _; right; by left|left; by eexists].
    + rewrite lookup_insert_ne by done. tauto.
Qed.

Lemma foldl_narrow_in {A} (f : A -> Oid * EntryAudience) l (s : gmap Oid EntryAudience) oid :
  is_Some (foldl (fun s x => narrow_in (f x).1 (f x).2 s) s l !! oid) <-> is_Some (s !! oid) \/ oid ∈ map (fun x => (f x).1) l.
Proof.
  revert s. induction l as [|x l IH]; intros s; cbn [foldl map]; [by rewrite elem_of_nil; tauto|].
  rewrite IH, elem_of_cons. unfold narrow_in. destruct (decide (oid = (f x).1)) as [->|Hne].
  - rewrite lookup_insert, decide_True by done. split; [intros _; right; by left|left; by eexists].
  - rewrite lookup_insert_ne by done. tauto.
Qed.

Lemma foldl_ext {A B} (f g : B -> A -> B) l b : (forall b x, f b x = g b x) -> foldl f b l = foldl g b l.
Proof. intros H. revert b. induction l as [|x l IH]; intros b; simpl; [done|]. by rewrite H, IH. Qed.

Definition sealed_tip (u : BatchRef) : option (Oid * EntryAudience) :=
  match br_new u, audience_entry (br_audience u) with Some t, Some a => Some (t, a) | _, _ => None end.

Lemma sealed_tip_spec u oid : (exists a, sealed_tip u = Some (oid, a)) <-> br_new u = Some oid /\ is_sealed (br_audience u) = true.
Proof.
  unfold sealed_tip, is_sealed. destruct (br_new u) as [t|], (br_audience u); simpl; (split; [intros (a & H)|intros (H & H')]);
    try done; injection H as <-; eauto.
Qed.

Lemma batch_tips_ids batch oid :
  is_Some (batch_tips batch !! oid) <-> exists u, (u ∈ batch) /\ br_new u = Some oid /\ is_sealed (br_audience u) = true.
Proof.
  assert (forall m, foldl (fun tips u =>
      match br_new u, audience_entry (br_audience u) with Some t, Some a => narrow_in t a tips | _, _ => tips end) m batch
    = foldl (fun s x => narrow_in (id x).1 (id x).2 s) m (omap sealed_tip batch)) as H.
  { induction batch as [|u batch IH]; intros m; cbn [foldl]; [done|]. rewrite IH. cbn [omap list_omap]. unfold sealed_tip at 2.
    by destruct (br_new u), (audience_entry (br_audience u)). }
  unfold batch_tips. rewrite H, (foldl_narrow_in id), lookup_empty. setoid_rewrite <-sealed_tip_spec.
  rewrite list_elem_of_In, in_map_iff. setoid_rewrite <-list_elem_of_In. setoid_rewrite list_elem_of_omap. split.
  - intros [[? [=]]|([t a] & <- & u & ? & ?)]. by exists u; split; [|exists a].
  - intros (u & ? & a & ?). right. exists (oid, a). split; [done|]. by exists u.
Qed.

Lemma sealed_now_ids input oid :
  is_Some (sealed_now input !! oid) <->
    (exists l, gi_ledger input = Present l /\ is_Some (l_commits l !! oid))
    \/ (exists d, gi_decryptable input = Some d /\ oid ∈ d)
    \/ (exists t, (oid, t) ∈ gi_decryptable_narrower input)
    \/ (exists u, (u ∈ gi_batch input) /\ br_new u = Some oid /\ is_sealed (br_audience u) = true).
Proof.
  unfold sealed_now. rewrite (foldl_ext _ (fun s x => match s !! (id x).1 with Some _ => s | None => <[(id x).1 := (id x).2]> s end)) by (by intros s []).
  rewrite (foldl_or_insert id), <-batch_tips_ids. unfold sealed_before.
  rewrite (foldl_ext _ (fun s (x : Oid * string) => narrow_in (x.1, EntryNarrower x.2).1 (x.1, EntryNarrower x.2).2 s)) by (by intros s []).
  rewrite (foldl_narrow_in (fun x => (x.1, EntryNarrower x.2))), (foldl_or_insert (fun oid => (oid, EntryMembers))).
  assert (oid ∈ map (fun x : Oid * EntryAudience => (id x).1) (btree_items (batch_tips (gi_batch input)))
    <-> is_Some (batch_tips (gi_batch input) !! oid)) as -> by (apply elem_of_btree_keys).
  cbn [fst id]. rewrite map_id. assert (oid ∈ map fst (gi_decryptable_narrower input) <-> exists t, (oid, t) ∈ gi_decryptable_narrower input) as ->.
  { rewrite list_elem_of_In, in_map_iff. setoid_rewrite list_elem_of_In. split; [intros ([x t] & <- & ?); by exists t|intros [t ?]; by exists (oid, t)]. }
  assert (is_Some (match ledger_of (gi_ledger input) with Some l => l_commits l | None => ∅ end !! oid)
    <-> exists l, gi_ledger input = Present l /\ is_Some (l_commits l !! oid)) as ->.
  { destruct (gi_ledger input) as [| |l]; simpl; rewrite ?lookup_empty; split; try (by intros [? [=]]); try (by intros (? & [=] & _)).
    - intros H. by exists l.
    - by intros (? & [= <-] & H). }
  assert (oid ∈ default [] (gi_decryptable input) <-> exists d, gi_decryptable input = Some d /\ oid ∈ d) as ->.
  { destruct (gi_decryptable input) as [d|]; simpl; rewrite ?elem_of_nil; split; try done; [intros H; by exists d|by intros (? & [= <-] & H)|by intros (? & [=] & _)]. }
  tauto.
Qed.

(** ** What the guard is asked to see *)

Section Specification.
Context {G : Type} `{!ObjectGraph G, !GraphLaws G} (g : G) (input : GuardInput).

(** The commits that the public tips reach, and those that the sealed ids of some audiences do. *)
Definition in_public (c : Oid) : Prop := exists e, (e ∈ gi_public_tips input) /\ c ∈ history g e.
Definition sealed_for (s : gmap Oid EntryAudience) (keep : string -> bool) (c : Oid) : Prop :=
  exists i a, s !! i = Some a /\ keep (audience_token a) = true /\ c ∈ history g i.

(** An object of the sealed ids; [strictly] one that no public tip has. *)
Definition hidden (strictly : bool) (o : Oid) : Prop :=
  (exists i a, sealed_now input !! i = Some a /\ o ∈ contents g i)
  /\ (strictly = true -> ~ exists e, (e ∈ gi_public_tips input) /\ o ∈ contents g e).

(** The objects a public update names besides the commits it adds. *)
Inductive Named (u : BatchRef) (peeled : Peeled) : Oid -> Prop :=
  | named_tag tag : tag ∈ pe_tags peeled -> Named u peeled tag
  | named_target : pe_kind peeled <> Commit -> Named u peeled (pe_target peeled)
  | named_note l x : starts_with "refs/notes/" (br_dst u) = true -> pe_kind peeled = Commit ->
      note_targets g (pe_target peeled) = Ok l -> x ∈ l -> Named u peeled x
  | named_replaced x : strip_prefix "refs/replace/" (br_dst u) = Some x -> Named u peeled x.

(** What moving [u] to [t] would show someone it is sealed from: to everyone, a commit or an
    object sealed in the repository; to the readers of a sealed ref, a commit that only audiences
    they are not within hold, unless one they are within held it before. *)
Inductive Shows (strictly : bool) (u : BatchRef) (t : Oid) : Oid -> Prop :=
  | shows_commit peeled c :
      br_audience u = Public -> peel g t = Ok peeled -> pe_kind peeled = Commit ->
      c ∈ history g (pe_target peeled) -> ~ in_public c -> sealed_for (sealed_now input) (fun _ => true) c ->
      Shows strictly u t c
  | shows_object peeled o :
      br_audience u = Public -> peel g t = Ok peeled -> Named u peeled o -> hidden strictly o -> Shows strictly u t o
  | shows_wider c :
      is_sealed (br_audience u) = true -> c ∈ history g t -> ~ in_public c ->
      sealed_for (sealed_now input) (fun a => negb (within (audience_str (br_audience u)) a (gi_audiences input))) c ->
      ~ sealed_for (sealed_before input) (fun a => within (audience_str (br_audience u)) a (gi_audiences input)) c ->
      Shows strictly u t c.

(** ** Helper lemmas *)

Lemma elem_of_by_audience s t oid :
  oid ∈ default [] (by_audience s !! t) <-> exists a, s !! oid = Some a /\ audience_token a = t.
Proof.
  unfold by_audience. setoid_rewrite <-elem_of_btree_items. generalize (btree_items s). intros l.
  enough (forall m : gmap string (list Oid), oid ∈ default [] (foldl (fun m '(oid, a) => <[audience_token a := default [] (m !! audience_token a) ++ [oid]]> m) m l !! t)
    <-> oid ∈ default [] (m !! t) \/ exists a, (oid, a) ∈ l /\ audience_token a = t) as H.
  { rewrite H, lookup_empty. simpl. split; [intros [?%not_elem_of_nil|]; done|by right]. }
  induction l as [|[x a] l IH]; intros m; cbn [foldl].
  { split; [by left|]. by intros [?|(a & ?%not_elem_of_nil & _)]. }
  rewrite IH. destruct (decide (audience_token a = t)) as [<-|Ht].
  - rewrite lookup_insert, decide_True by done. simpl. rewrite elem_of_app, list_elem_of_singleton. setoid_rewrite elem_of_cons.
    split; [intros [[?| ->]|(b & ? & ?)]; naive_solver|]. intros [?|(b & [[= -> ->]|?] & Hb)]; [by left; left|by left; right|right; by exists b].
  - rewrite lookup_insert_ne by done. setoid_rewrite elem_of_cons. split; [naive_solver|].
    intros [?|(b & [[= -> ->]|?] & Hb)]; [by left|done|right; by exists b].
Qed.

Lemma elem_of_ids_where keep s oid :
  oid ∈ ids_where keep (by_audience s) <-> exists a, s !! oid = Some a /\ keep (audience_token a) = true.
Proof.
  unfold ids_where. rewrite list_elem_of_In, in_concat. split.
  - intros (ids & ([t ids'] & <- & Hin)%in_map_iff & Hoid). apply filter_In in Hin as [Hin Hkeep].
    apply list_elem_of_In, elem_of_btree_items in Hin.
    assert (oid ∈ default [] (by_audience s !! t)) as (a & Ha & <-)%elem_of_by_audience by (rewrite Hin; by apply list_elem_of_In).
    by exists a.
  - intros (a & Ha & Hkeep). assert (oid ∈ default [] (by_audience s !! audience_token a)) as Hin by (apply elem_of_by_audience; by exists a).
    destruct (by_audience s !! audience_token a) as [ids|] eqn:E; [|by apply not_elem_of_nil in Hin].
    exists ids. split; [|by apply list_elem_of_In]. apply in_map_iff. exists (audience_token a, ids). split; [done|].
    apply filter_In. split; [|done]. by apply list_elem_of_In, elem_of_btree_items.
Qed.

Lemma elem_of_sealed_ids oid : oid ∈ sealed_ids input <-> exists a, sealed_now input !! oid = Some a.
Proof. apply elem_of_btree_keys. Qed.

Lemma walk_where keep s c :
  (exists i, (i ∈ ids_where keep (by_audience s)) /\ c ∈ history g i) <-> sealed_for s keep c.
Proof. unfold sealed_for. setoid_rewrite elem_of_ids_where. naive_solver. Qed.

#[export] Instance sealed_for_dec s keep c : Decision (sealed_for s keep c).
Proof.
  refine (cast_if (decide (Exists (fun i => c ∈ history g i) (ids_where keep (by_audience s)))));
    abstract (by rewrite <-walk_where, <-Exists_exists).
Defined.

Lemma walk_sealed c :
  (exists i, (i ∈ sealed_ids input) /\ c ∈ history g i) <-> sealed_for (sealed_now input) (fun _ => true) c.
Proof. unfold sealed_for. setoid_rewrite elem_of_sealed_ids. naive_solver. Qed.

(** What the graph answers about an object, as the specification has it. *)
Lemma is_sealed_object_spec o b :
  is_sealed_object g input (sealed_ids input) o = Ok b -> (b = true -> hidden false o) /\ (hidden true o -> b = true).
Proof.
  unfold is_sealed_object. case_bool_decide as Hnil.
  { intros [= <-]. split; [done|]. intros [(i & a & Hi & _) _].
    assert (i ∈ sealed_ids input) as Hin by (apply elem_of_sealed_ids; by exists a). rewrite Hnil in Hin. by apply not_elem_of_nil in Hin. }
  intros (objs & Hobjs & [= <-])%bind_Ok. pose proof (objects_spec g _ _ _ Hobjs o) as [H1 H2].
  setoid_rewrite elem_of_sealed_ids in H1. setoid_rewrite elem_of_sealed_ids in H2. rewrite bool_decide_eq_true. split.
  - intros (i & [a Ha] & Ho)%H1. split; [by exists i, a|done].
  - intros [(i & a & Ha & Ho) Hno]. apply H2; [by exists i; split; [exists a|]|by apply Hno].
Qed.

Lemma filter_sealed_spec oids l :
  filter_sealed g input (sealed_ids input) oids = Ok l ->
  (forall o, o ∈ l -> (o ∈ oids) /\ hidden false o) /\ (forall o, o ∈ oids -> hidden true o -> o ∈ l).
Proof.
  revert l. induction oids as [|x oids IH]; intros l; simpl.
  { intros [= <-]. split; intros o Ho; by apply not_elem_of_nil in Ho. }
  intros (b & Hb & (rest & Hrest & [= <-])%bind_Ok)%bind_Ok. apply is_sealed_object_spec in Hb as [Hb1 Hb2].
  destruct (IH _ Hrest) as [H1 H2]. split.
  - intros o Ho. destruct b; [apply elem_of_cons in Ho as [->|Ho]; [split; [set_solver|auto]|]|];
      apply H1 in Ho as [? ?]; split; [set_solver|done|set_solver|done].
  - intros o [->|Ho]%elem_of_cons Hh; [rewrite (Hb2 Hh); set_solver|]. destruct b; [right|]; by apply H2.
Qed.

(** ** What the findings of an update say *)

Lemma finding_some u kind l : finding u kind l <> [] <-> exists o, o ∈ l.
Proof.
  destruct l as [|x l]; simpl; split; try done.
  - by intros [o ?%not_elem_of_nil].
  - intros _. exists x. by left.
Qed.

(** A list of findings says truly whether something shows. *)
Definition tells (u : BatchRef) (t : Oid) (found : list Finding) : Prop :=
  (forall o, Shows true u t o -> found <> []) /\ (found <> [] -> exists o, Shows false u t o).

Lemma sealed_findings_spec u t found :
  is_sealed (br_audience u) = true ->
  sealed_findings g input (by_audience (sealed_now input)) (by_audience (sealed_before input)) u t = Ok found -> tells u t found.
Proof.
  intros Hs H. unfold sealed_findings in H. cbv zeta in H.
  set (dst := audience_str (br_audience u)) in *.
  assert (forall strictly o, Shows strictly u t o <-> o ∈ history g t /\ ~ in_public o
    /\ sealed_for (sealed_now input) (fun a => negb (within dst a (gi_audiences input))) o
    /\ ~ sealed_for (sealed_before input) (fun a => within dst a (gi_audiences input)) o) as Hshows.
  { intros strictly o. split; [|by intros (? & ? & ? & ?); apply shows_wider].
    intros Hsh. destruct Hsh as [peeled c Hp|peeled x Hp|]; [by rewrite Hp in Hs..|done]. }
  unfold tells. setoid_rewrite Hshows. clear Hshows. revert H. case_bool_decide as Hw.
  { intros [= <-]. split; [|done]. intros o (_ & _ & (i & a & Hi & Hkeep & _) & _) _.
    assert (i ∈ ids_where (fun a => negb (within dst a (gi_audiences input))) (by_audience (sealed_now input))) as Hin
      by (apply elem_of_ids_where; by exists a). rewrite Hw in Hin. by apply not_elem_of_nil in Hin. }
  intros (adds & Hadds & (only & Honly & (kept & Hkept & [= <-])%bind_Ok)%bind_Ok)%bind_Ok. clear Hw.
  pose proof (commits_spec g _ _ _ Hadds) as Ha. pose proof (commits_spec g _ _ _ Honly) as Ho.
  assert (forall o, o ∈ kept <-> o ∈ only /\ ~ (sealed_for (sealed_before input) (fun a => within dst a (gi_audiences input)) o /\ ~ in_public o)) as Hk.
  { intros o. revert Hkept. setoid_rewrite <-walk_where. case_bool_decide as Hc.
    - intros [= <-]. split; [|by intros []]. intros Hin. split; [done|]. intros [(i & Hi & _) _]. rewrite Hc in Hi. by apply not_elem_of_nil in Hi.
    - intros (held & Hheld & [= <-])%bind_Ok. rewrite elem_of_difference, (commits_spec g _ _ _ Hheld o). done. }
  setoid_rewrite finding_some. setoid_rewrite elem_of_btree_elems. setoid_rewrite elem_of_intersection. setoid_rewrite Hk.
  setoid_rewrite Ha. setoid_rewrite Ho. setoid_rewrite walk_where.
  assert (forall o, (exists i, i ∈ [t] /\ o ∈ history g i) <-> o ∈ history g t) as H1.
  { intros o. split; [by intros (i & ->%list_elem_of_singleton & ?)|]. intros ?. exists t. split; [by apply list_elem_of_singleton|done]. }
  setoid_rewrite H1. split.
  - intros o (? & ? & ? & ?). exists o. tauto.
  - intros (o & (? & Hp) & (? & _) & Hn). exists o. tauto.
Qed.

Lemma commit_findings_spec u t peeled found publics :
  br_audience u = Public -> peel g t = Ok peeled ->
  commit_findings g input (sealed_ids input) u peeled = Ok (found, publics) ->
  (pe_kind peeled = Commit -> found <> [] <-> exists c, (c ∈ history g (pe_target peeled)) /\ ~ in_public c
     /\ sealed_for (sealed_now input) (fun _ => true) c)
  /\ (pe_kind peeled <> Commit -> (hidden true (pe_target peeled) -> found <> []) /\ (found <> [] -> hidden false (pe_target peeled))).
Proof.
  intros Hu Hp H. unfold commit_findings in H. revert H. case_bool_decide as Hkind.
  - intros H. split; [intros _|done]. revert H. case_bool_decide as Hnil.
    { intros [= <- <-]. split; [done|]. intros (c & _ & _ & (i & a & Hi & _)).
      assert (i ∈ sealed_ids input) as Hin by (apply elem_of_sealed_ids; by exists a). rewrite Hnil in Hin. by apply not_elem_of_nil in Hin. }
    intros (adds & Hadds & (only & Honly & [= <- _])%bind_Ok)%bind_Ok. rewrite finding_some.
    setoid_rewrite elem_of_btree_elems. setoid_rewrite elem_of_difference.
    setoid_rewrite (commits_spec g _ _ _ Hadds). setoid_rewrite (commits_spec g _ _ _ Honly).
    setoid_rewrite <-walk_sealed. unfold in_public. setoid_rewrite list_elem_of_singleton. setoid_rewrite elem_of_app. split.
    + intros (c & ((i & -> & Hc) & Hno) & Hn). exists c. split; [done|]. split; [done|].
      destruct (decide (Exists (fun i => c ∈ history g i) (sealed_ids input))) as [Hex|Hn2]; rewrite Exists_exists in *; [done|]. exfalso. apply Hn.
      split; [by eexists|]. intros (e & [?|?] & ?); [apply Hno|apply Hn2]; by exists e.
    + intros (c & Hc & Hno & (i & Hi & Hci)). exists c. split; [split; [by eexists|done]|].
      intros [_ Hn]. apply Hn. exists i. split; [by right|done].
  - intros (b & Hb & [= <- _])%bind_Ok. split; [done|]. intros _. apply is_sealed_object_spec in Hb as [H1 H2].
    destruct b; split; try done; [auto|]. intros Hh. by specialize (H2 Hh).
Qed.

Lemma app_some {A} (l k : list A) : l ++ k <> [] <-> l <> [] \/ k <> [].
Proof. destruct l; simpl; [naive_solver|]. split; [by left|done]. Qed.

Lemma note_findings_spec u peeled found :
  note_findings g input (sealed_ids input) u peeled = Ok found ->
  (forall l x, starts_with "refs/notes/" (br_dst u) = true -> pe_kind peeled = Commit ->
     note_targets g (pe_target peeled) = Ok l -> x ∈ l -> hidden true x -> found <> [])
  /\ (found <> [] -> exists x, Named u peeled x /\ hidden false x).
Proof.
  unfold note_findings. destruct (starts_with _ _) eqn:Ens; simpl; [|by intros [= <-]; split].
  case_bool_decide as Hk; [|by intros [= <-]; split].
  intros (named & Hnamed & (kept & Hkept & [= <-])%bind_Ok)%bind_Ok. apply filter_sealed_spec in Hkept as [H1 H2].
  rewrite finding_some. setoid_rewrite finding_some. setoid_rewrite elem_of_btree_elems. setoid_rewrite elem_of_list_to_set. split.
  - intros l x _ _ [= <-]%(eq_trans (eq_sym Hnamed)) Hx Hh. exists x. auto.
  - intros [x [Hx Hh]%H1]. exists x. split; [by eapply named_note|done].
Qed.

Lemma replace_findings_spec u found :
  replace_findings g input (sealed_ids input) u = Ok found ->
  (forall x, strip_prefix "refs/replace/" (br_dst u) = Some x -> hidden true x -> found <> [])
  /\ (found <> [] -> exists x, strip_prefix "refs/replace/" (br_dst u) = Some x /\ hidden false x).
Proof.
  unfold replace_findings. destruct (strip_prefix _ _) as [x|]; [|by intros [= <-]; split].
  intros (b & [H1 H2]%is_sealed_object_spec & [= <-])%bind_Ok. split.
  - intros y [= <-] Hh. by rewrite (H2 Hh).
  - destruct b; [|done]. intros _. exists x. auto.
Qed.

Lemma public_findings_spec u t found publics :
  br_audience u = Public -> public_findings g input (sealed_ids input) u t = Ok (found, publics) -> tells u t found.
Proof.
  intros Hu (peeled & Hp & (tags & Htags & ([body publics'] & Hbody & (notes & Hnotes & (replaced & Hrep & [= <- _])%bind_Ok)%bind_Ok)%bind_Ok)%bind_Ok)%bind_Ok.
  destruct (commit_findings_spec u t peeled body publics' Hu Hp Hbody) as [Hcommit Hobject].
  apply filter_sealed_spec in Htags as [Htag1 Htag2]. apply note_findings_spec in Hnotes as [Hnote1 Hnote2].
  apply replace_findings_spec in Hrep as [Hrep1 Hrep2].
  assert (concat (map (fun tag => finding u FoundTag [tag]) tags) <> [] <-> exists tag, tag ∈ tags) as Htags.
  { destruct tags as [|x tags]; simpl; split; try done; [by intros [x ?%not_elem_of_nil]|]. intros _. exists x. by left. }
  split.
  - intros o Hs. rewrite !app_some, Htags. destruct Hs as [p c _ Hp' Hk Hc Hno Hsealed|p x _ Hp' Hn Hh|c Hsl]; [| |by rewrite Hu in Hsl].
    + assert (p = peeled) as -> by congruence. right. left. apply Hcommit; [done|]. by exists c.
    + assert (p = peeled) as -> by congruence. destruct Hn as [tag Htag|Hk|l x Hns Hk Hl Hx|x Hx].
      * left. exists tag. auto.
      * right. left. by apply Hobject.
      * right. right. left. by eapply Hnote1.
      * right. right. right. by eapply Hrep1.
  - rewrite !app_some, Htags. intros [[tag [Hin Hh]%Htag1]|[Hb|[[x [Hn Hh]]%Hnote2|[x [Hx Hh]]%Hrep2]]].
    + exists tag. eapply shows_object; [done|done|by apply named_tag|done].
    + destruct (decide (pe_kind peeled = Commit)) as [Hk|Hk].
      * apply (Hcommit Hk) in Hb as (c & ? & ? & ?). exists c. by eapply shows_commit.
      * apply (Hobject Hk) in Hb. exists (pe_target peeled). eapply shows_object; [done|done|by apply named_target|done].
    + exists x. by eapply shows_object.
    + exists x. eapply shows_object; [done|done|by apply named_replaced|done].
Qed.

Lemma update_findings_spec u found publics :
  update_findings g input (sealed_ids input) (by_audience (sealed_now input)) (by_audience (sealed_before input)) u = Ok (found, publics) ->
  match br_new u with Some t => tells u t found | None => found = [] end.
Proof.
  unfold update_findings. destruct (br_new u) as [t|]; [|by intros [= <- _]].
  destruct (is_sealed (br_audience u)) eqn:Es.
  - intros (f & Hf & [= <- _])%bind_Ok. by apply sealed_findings_spec.
  - apply public_findings_spec. unfold is_sealed in Es. by apply negb_false_iff, bool_decide_eq_true in Es.
Qed.

(** The updates that [-o publish-private] does not let through. *)
Definition judged (u : BatchRef) (t : Oid) : Prop := br_new u = Some t /\ gi_publish_private input <> Some t.

(** The findings of an update name its ref. *)
Lemma finding_dst u kind l f : f ∈ finding u kind l -> fi_dst f = br_dst u.
Proof. destruct l; simpl; [by intros ?%not_elem_of_nil|]. by intros ->%list_elem_of_singleton. Qed.

Lemma update_findings_dst u found publics f :
  update_findings g input (sealed_ids input) (by_audience (sealed_now input)) (by_audience (sealed_before input)) u = Ok (found, publics) ->
  f ∈ found -> fi_dst f = br_dst u.
Proof.
  unfold update_findings. destruct (br_new u) as [t|]; [|by intros [= <- _] ?%not_elem_of_nil].
  destruct (is_sealed (br_audience u)).
  - intros (l & Hl & [= <- _])%bind_Ok Hf. revert Hl. unfold sealed_findings. case_bool_decide; [by intros [= <-]; apply not_elem_of_nil in Hf|].
    intros (? & _ & (? & _ & (? & _ & [= <-])%bind_Ok)%bind_Ok)%bind_Ok. by apply finding_dst in Hf.
  - intros (peeled & _ & (tags & _ & ([body pubs] & Hb & (notes & Hn & (replaced & Hr & [= <- _])%bind_Ok)%bind_Ok)%bind_Ok)%bind_Ok)%bind_Ok.
    rewrite !elem_of_app. intros [Hf|[Hf|[Hf|Hf]]].
    + apply list_elem_of_In, in_concat in Hf as (l & (tag & <- & _)%in_map_iff & Hf%list_elem_of_In). by apply (finding_dst u FoundTag [tag]).
    + revert Hb. unfold commit_findings. repeat case_bool_decide; [by intros [= <- _]; apply not_elem_of_nil in Hf| |].
      * intros (? & _ & (? & _ & [= <- _])%bind_Ok)%bind_Ok. by apply finding_dst in Hf.
      * intros ([] & _ & [= <- _])%bind_Ok; [by apply list_elem_of_singleton in Hf as ->|by apply not_elem_of_nil in Hf].
    + revert Hn. unfold note_findings. destruct (_ && _); [|by intros [= <-]; apply not_elem_of_nil in Hf].
      intros (? & _ & (? & _ & [= <-])%bind_Ok)%bind_Ok. by apply finding_dst in Hf.
    + revert Hr. unfold replace_findings. destruct (strip_prefix _ _); [|by intros [= <-]; apply not_elem_of_nil in Hf].
      intros ([] & _ & [= <-])%bind_Ok; [by apply list_elem_of_singleton in Hf as ->|by apply not_elem_of_nil in Hf].
Qed.

Lemma batch_findings_spec batch findings published publics :
  batch_findings g input (sealed_ids input) (by_audience (sealed_now input)) (by_audience (sealed_before input)) batch
    = Ok (findings, published, publics) ->
  (forall u t o, u ∈ batch -> judged u t -> Shows true u t o -> exists f, (f ∈ findings) /\ fi_dst f = br_dst u)
  /\ (forall f, f ∈ findings -> exists u t o, (u ∈ batch) /\ fi_dst f = br_dst u /\ judged u t /\ Shows false u t o).
Proof.
  revert findings published publics. induction batch as [|u batch IH]; intros findings published publics; simpl.
  { intros [= <- _ _]. split; [by intros u t o ?%not_elem_of_nil|by intros f ?%not_elem_of_nil]. }
  intros ([found pub] & Hu & ([[fs ps] pubs] & Hrest & H)%bind_Ok)%bind_Ok.
  destruct (IH _ _ _ Hrest) as [H1 H2]. clear IH Hrest. pose proof (update_findings_dst u found pub) as Hdst.
  assert (forall f, f ∈ findings <-> (exists t, judged u t /\ f ∈ found) \/ f ∈ fs) as Hf.
  { apply update_findings_spec in Hu. intros f. unfold judged. destruct (br_new u) as [t|]; simpl in H.
    - case_bool_decide as Hp; injection H as <- _ _; rewrite ?elem_of_app; split; try naive_solver.
    - injection H as <- _ _. subst found. rewrite elem_of_app, elem_of_nil. naive_solver. }
  pose proof Hu as Htells%update_findings_spec. setoid_rewrite Hf. split.
  - intros v t o [->|Hv]%elem_of_cons Hj Hs.
    + destruct Hj as [Hnew Hpub]. rewrite Hnew in Htells. apply Htells in Hs. destruct found as [|f found]; [done|].
      exists f. assert (f ∈ f :: found) as Hin by (apply elem_of_cons; by left). split; [left; by exists t|by apply (Hdst f Hu)].
    + destruct (H1 v t o Hv Hj Hs) as (f & ? & ?). exists f. split; [by right|done].
  - intros f [(t & Hj & Hin)|Hin].
    + pose proof Hj as [Hnew Hpub]. rewrite Hnew in Htells. destruct Htells as [_ Htells].
      destruct Htells as [o Ho]; [by intros ->; apply not_elem_of_nil in Hin|].
      exists u, t, o. split_and!; [apply elem_of_cons; by left|by apply (Hdst f Hu)|done|done].
    + destruct (H2 f Hin) as (v & t & o & Hv & ? & Hj & Hs). exists v, t, o. split_and!; [apply elem_of_cons; by right|done..].
Qed.

(** A sealed commit is shown only where something is sealed. *)
Lemma nothing_sealed u t o : sealed_ids input = [] -> ~ Shows true u t o.
Proof.
  intros Hnil Hs.
  assert (forall i a, sealed_now input !! i <> Some a) as Hno.
  { intros i a Hi. assert (i ∈ sealed_ids input) as Hin by (apply elem_of_sealed_ids; by exists a). rewrite Hnil in Hin. by apply not_elem_of_nil in Hin. }
  destruct Hs as [p c _ _ _ _ _ (i & a & Hi & _)|p x _ _ _ [(i & a & Hi & _) _]|c _ _ _ (i & a & Hi & _) _]; by apply Hno in Hi.
Qed.

(** What a guard that answers has found, update by update. *)
Lemma guard_facts out : guard g input = Ok out ->
  (unavailable input = true /\ out = mkOutcome Unavailable [] [] [] [] [])
  \/ (unavailable input = false /\ oc_verdict out = match oc_findings out with [] => Pass | _ => Refuse end
    /\ (forall u t o, u ∈ gi_batch input -> judged u t -> Shows true u t o -> exists f, (f ∈ oc_findings out) /\ fi_dst f = br_dst u)
    /\ (forall f, f ∈ oc_findings out ->
         exists u t o, (u ∈ gi_batch input) /\ fi_dst f = br_dst u /\ judged u t /\ Shows false u t o)).
Proof.
  unfold guard. destruct (unavailable input) eqn:Hu; [intros [= <-]; by left|]. case_bool_decide as Hnil.
  { intros [= <-]. right. simpl. split_and!; [done|done| |by intros f ?%not_elem_of_nil]. intros u t o _ _ Hs. by apply nothing_sealed in Hs. }
  intros ([[findings published] publics] & Hb & ([links remade] & _ & [= <-])%bind_Ok)%bind_Ok. right. simpl.
  destruct (batch_findings_spec _ _ _ _ Hb) as [H1 H2]. done.
Qed.

(** C6: the guard decides what a push may show, of the sealed commits and of the objects an update
    names. When it passes a batch, no update it judged (one [publish_private] let through is not)
    adds, to a public ref, a commit that a sealed id reaches and no public tip does; nor names, by
    tags, a target that is no commit, notes' targets or a replaced object, an object that a sealed
    id contains and no public tip does; nor adds, to a sealed ref, a commit that only audiences it
    is not within hold. When it refuses, some judged update does one of the three; the object named
    may then be one that a public tip contains too. It is unavailable exactly when the ledger cannot
    be read, or members-only content exists and neither a key nor a ledger says what of it the clone
    holds. Sealed is what the ledger records, what the pusher decrypts, and the sealed tips of the
    batch. The trees and blobs of a public commit are not looked at: a squash of sealed work passes,
    by design ([example_squash_passes]). *)
Theorem guard_decides out : guard g input = Ok out ->
  (forall oid, is_Some (sealed_now input !! oid) <->
    (exists l, gi_ledger input = Present l /\ is_Some (l_commits l !! oid))
    \/ (exists d, gi_decryptable input = Some d /\ oid ∈ d)
    \/ (exists t, (oid, t) ∈ gi_decryptable_narrower input)
    \/ (exists u, (u ∈ gi_batch input) /\ br_new u = Some oid /\ is_sealed (br_audience u) = true))
  /\ match oc_verdict out with
  | Pass => unavailable input = false /\ oc_findings out = []
      /\ forall u t o, u ∈ gi_batch input -> judged u t -> ~ Shows true u t o
  | Refuse => unavailable input = false /\ oc_findings out <> []
      /\ exists u t o, (u ∈ gi_batch input) /\ judged u t /\ Shows false u t o
  | Unavailable => unavailable input = true
  end.
Proof.
  intros Hg. split; [apply sealed_now_ids|]. revert Hg. intros [[Hu ->]|(Hu & Hv & H1 & H2)]%guard_facts; [done|]. rewrite Hv. destruct (oc_findings out) as [|f fs] eqn:Ef; split_and!; try done.
  - intros u t o Hin Hj Hs. destruct (H1 u t o Hin Hj Hs) as (f & Hf & _). by apply not_elem_of_nil in Hf.
  - destruct (H2 f) as (u & t & o & ? & _ & ? & ?); [apply elem_of_cons; by left|]. by exists u, t, o.
Qed.
End Specification.

(** ** A graph, and two pushes over it *)

(** Commits with what they reach. *)
Definition Reach := gmap Oid (gset Oid).
Definition reached (g : Reach) (l : list Oid) : gset Oid := ⋃ (map (fun i => default ∅ (g !! i)) l).

#[export] Instance reach_graph : ObjectGraph Reach := {|
  commits g inc exc := Ok (reached g inc ∖ reached g exc);
  objects g inc exc := Ok (reached g inc ∖ reached g exc);
  peel g oid := Ok (mkPeeled [] oid Commit);
  note_targets g oid := Ok [];
  gitlinks g inc exc := Ok [];
  patch_ids g l := Ok ∅
|}.

Lemma elem_of_reached g l c : c ∈ reached g l <-> exists i, (i ∈ l) /\ c ∈ default ∅ (g !! i).
Proof.
  unfold reached. rewrite elem_of_union_list. split.
  - intros (X & (i & <- & Hi%list_elem_of_In)%list_elem_of_In%in_map_iff & Hc). by exists i.
  - intros (i & Hi & Hc). exists (default ∅ (g !! i)). split; [|done]. apply list_elem_of_In, in_map_iff. exists i. by rewrite <-list_elem_of_In.
Qed.

#[export, refine] Instance reach_laws : GraphLaws Reach := {| history g i := default ∅ (g !! i); contents g i := default ∅ (g !! i) |}.
Proof.
  - intros g inc exc s [= <-] c. by rewrite elem_of_difference, !elem_of_reached.
  - intros g inc exc s [= <-] o. rewrite elem_of_difference, !elem_of_reached. tauto.
  - by intros g oid p [= <-].
Defined.

Definition example_graph : Reach := {["base" := {["base"]}; "m" := {["m"; "base"]}; "x" := {["x"; "base"]}; "y" := {["y"; "m"; "base"]}]}.

Definition example_input (t : Oid) : GuardInput :=
  mkGuardInput true (Present (mkLedger {["m" := EntryMembers]} ∅)) None ["base"] [mkBatchRef "refs/heads/main" (Some t) Public]
    None false ∅ [].

Example example_refused :
  guard example_graph (example_input "y") = Ok (mkOutcome Refuse [mkFinding "refs/heads/main" FoundCommits ["m"]] [] [] [] []).
Proof. vm_compute. reflexivity. Qed.

(** Commits with what they reach, and with the objects they contain. *)
Record Repository := mkRepository { rp_history : Reach; rp_contents : Reach }.

#[export] Instance repository_graph : ObjectGraph Repository := {|
  commits g inc exc := Ok (reached (rp_history g) inc ∖ reached (rp_history g) exc);
  objects g inc exc := Ok (reached (rp_contents g) inc ∖ reached (rp_contents g) exc);
  peel g oid := Ok (mkPeeled [] oid Commit);
  note_targets g oid := Ok [];
  gitlinks g inc exc := Ok [];
  patch_ids g l := Ok ∅
|}.

(** "q" is a squash of the sealed "m": the same tree on a public parent. *)
Definition squash_graph : Repository := mkRepository
  {["base" := {["base"]}; "m" := {["m"; "base"]}; "q" := {["q"; "base"]}]}
  {["base" := {["base"]}; "m" := {["m"; "tree"; "blob"; "base"]}; "q" := {["q"; "tree"; "blob"; "base"]}]}.

Example example_squash_passes : guard squash_graph (example_input "q") = Ok (mkOutcome Pass [] [] [] [] []).
Proof. vm_compute. reflexivity. Qed.

Lemma guard_decides_witness : ~ Shows example_graph (example_input "x") true (mkBatchRef "refs/heads/main" (Some "x") Public) "x" "x".
Proof.
  assert (guard example_graph (example_input "x") = Ok (mkOutcome Pass [] [] [] [] [])) as H by (vm_compute; reflexivity).
  destruct (guard_decides example_graph (example_input "x") _ H) as (_ & _ & _ & Hsafe). apply Hsafe.
  - apply elem_of_cons. by left.
  - by split.
Defined.
