(* ===== verification/PackPlan.v ===== *)
(** The packs of a push, by audience ([members_git/plan.rs]): the public pack's wants and bases,
    and one pack for each sealed branch. *)
From S2P Require Import Wire.
From S2P Require Import Prelude Audiences Guard.

Record PackJob := mkPackJob {
  pj_want : list Oid;
  pj_have : list Oid
}.

Record MembersPackJob := mkMembersPackJob {
  mj_ref_name : string;
  mj_want : list Oid;
  mj_have : list Oid
}.

Record PackPlan := mkPackPlan {
  pp_public : option PackJob;
  pp_members : list MembersPackJob
}.

(** The new tips of the batch's public, or sealed, refs. *)
Definition new_of (sealed : bool) (batch : list BatchRef) : list (BatchRef * Oid) :=
  omap (fun u => n ← br_new u; Some (u, n)) (List.filter (fun u => Bool.eqb (is_sealed (br_audience u)) sealed) batch).

Definition public_want (public_tips : list Oid) (batch : list BatchRef) : gset Oid :=
  list_to_set (map snd (new_of false batch)) ∖ list_to_set public_tips.

(** The bases of a sealed branch's pack. *)
Definition members_have (public_tips : list Oid) (members_tips : gmap string Oid) (batch : list BatchRef) (u : BatchRef) : gset Oid :=
  list_to_set public_tips ∪ public_want public_tips batch
  ∪ match members_tips !! br_dst u with Some prev => {[prev]} | None => ∅ end.

Definition members_job (public_tips : list Oid) (members_tips : gmap string Oid) (batch : list BatchRef) (x : BatchRef * Oid)
    : option MembersPackJob :=
  let have := members_have public_tips members_tips batch x.1 in
  if bool_decide (x.2 ∈ have) then None else Some (mkMembersPackJob (br_dst x.1) [x.2] (btree_elems have)).

Definition plan_packs (public_tips : list Oid) (members_tips : gmap string Oid) (batch : list BatchRef) : PackPlan :=
  let want := public_want public_tips batch in
  mkPackPlan
    (if bool_decide (want = ∅) then None else Some (mkPackJob (btree_elems want) (btree_elems (list_to_set public_tips))))
    (omap (members_job public_tips members_tips batch) (sort_by (cmp_on (fun x => br_dst x.1) String.compare) (new_of true batch))).

Example plan_three :
  plan_packs ["base"] {["refs/heads/sec" := "old"]}
    [mkBatchRef "refs/heads/sec" (Some "m") Members; mkBatchRef "refs/heads/main" (Some "x") Public;
     mkBatchRef "refs/heads/few" (Some "x") (Narrower "branch:1"); mkBatchRef "refs/heads/gone" None Public]
  = mkPackPlan (Some (mkPackJob ["x"] ["base"])) [mkMembersPackJob "refs/heads/sec" ["m"] ["base"; "old"; "x"]].
Proof. vm_compute. reflexivity. Qed.

(** ** What a pack may hold *)

Lemma elem_of_new_of sealed batch u t :
  (u, t) ∈ new_of sealed batch <-> (u ∈ batch) /\ br_new u = Some t /\ is_sealed (br_audience u) = sealed.
Proof.
  unfold new_of. rewrite list_elem_of_omap. setoid_rewrite list_elem_of_In. setoid_rewrite filter_In. setoid_rewrite Bool.eqb_true_iff. split.
  - intros (v & [Hv Hs] & E). destruct (br_new v) as [n|] eqn:En; simpl in E; [|done]. by injection E as -> ->.
  - intros (Hu & Hn & Hs). exists u. by rewrite Hn.
Qed.

Lemma elem_of_public_want tips batch t :
  t ∈ public_want tips batch <-> (exists u, (u ∈ batch) /\ br_new u = Some t /\ br_audience u = Public) /\ t ∉ tips.
Proof.
  unfold public_want. rewrite elem_of_difference, !elem_of_list_to_set, list_elem_of_In, in_map_iff. setoid_rewrite <-list_elem_of_In.
  assert ((exists x, x.2 = t /\ x ∈ new_of false batch) <-> exists u, (u ∈ batch) /\ br_new u = Some t /\ br_audience u = Public) as H; [|by rewrite H].
  assert (forall a, is_sealed a = false <-> a = Public) as Hp by (intros []; by split).
  split; [intros ([u n] & <- & (? & ? & ?%Hp)%elem_of_new_of); by exists u|].
  intros (u & ? & ? & ?). exists (u, t). split; [done|]. apply elem_of_new_of. by rewrite Hp.
Qed.

(** Each pack holds what its readers may have. The public pack is for exactly the batch's new
    public tips, on the public tips alone; a sealed branch's is for its own tip, on the public
    tips, old and new, and its own previous tip, never another sealed branch's; a ref whose
    objects its readers hold already needs none. *)
Theorem plan_packs_spec tips members_tips batch :
  let plan := plan_packs tips members_tips batch in
  (forall t, (exists job, pp_public plan = Some job /\ t ∈ pj_want job)
     <-> (exists u, (u ∈ batch) /\ br_new u = Some t /\ br_audience u = Public) /\ t ∉ tips)
  /\ (forall job, pp_public plan = Some job -> forall b, b ∈ pj_have job <-> b ∈ tips)
  /\ (forall name t have, mkMembersPackJob name [t] have ∈ pp_members plan <->
       exists u, (u ∈ batch) /\ br_dst u = name /\ br_new u = Some t /\ is_sealed (br_audience u) = true
       /\ have = btree_elems (members_have tips members_tips batch u) /\ t ∉ have)
  /\ (forall u b, b ∈ btree_elems (members_have tips members_tips batch u) <->
       b ∈ tips \/ (exists v, (v ∈ batch) /\ br_new v = Some b /\ br_audience v = Public) \/ members_tips !! br_dst u = Some b)
  /\ StronglySorted (fun x y => String.compare (mj_ref_name x) (mj_ref_name y) <> Gt) (pp_members plan).
Proof.
  cbv zeta. unfold plan_packs. simpl. split_and!.
  - intros t. rewrite <-elem_of_public_want. case_bool_decide as E.
    + rewrite E, elem_of_empty. split; [by intros (? & [=] & _)|done].
    + split; [intros (? & [= <-] & H%elem_of_btree_elems); done|]. intros H. eexists. split; [done|]. by apply elem_of_btree_elems.
  - intros job. case_bool_decide; [done|]. intros [= <-] b. simpl. by rewrite elem_of_btree_elems, elem_of_list_to_set.
  - intros name t have. rewrite list_elem_of_omap. setoid_rewrite elem_of_sort_by. unfold members_job. split.
    + intros ([u n] & (? & ? & ?)%elem_of_new_of & E). simpl in E. case_bool_decide as Hn; [done|]. injection E as <- <- <-.
      exists u. split_and!; try done. by rewrite elem_of_btree_elems.
    + intros (u & Hu & <- & Hn & Hs & -> & Hnot). exists (u, t). split; [by apply elem_of_new_of|]. simpl.
      rewrite elem_of_btree_elems in Hnot. by rewrite bool_decide_eq_false_2.
  - intros u b. rewrite elem_of_btree_elems. unfold members_have. rewrite !elem_of_union, elem_of_list_to_set, elem_of_public_want.
    assert (b ∈ match members_tips !! br_dst u with Some prev => {[prev]} | None => ∅ end <-> members_tips !! br_dst u = Some b) as ->.
    { destruct (members_tips !! br_dst u) as [prev|]; [rewrite elem_of_singleton; naive_solver|by rewrite elem_of_empty]. }
    destruct (decide (b ∈ tips)); tauto.
  - generalize (sort_by_sorted (cmp_on (fun x : BatchRef * Oid => br_dst x.1) String.compare) (new_of true batch)).
    induction 1 as [|x l Hl IH Hx]; simpl; [constructor|]. unfold members_job at 1. case_bool_decide; [done|].
    constructor; [done|]. apply Forall_forall. intros job Hj%list_elem_of_omap. destruct Hj as (y & Hy & E). unfold members_job in E.
    case_bool_decide; [done|]. injection E as <-. simpl. rewrite Forall_forall in Hx. by apply Hx.
Qed.

(** C24: a push that the guard passes, with nothing let through by [publish_private] and every
    public target a commit or a tag of one, packs no commit sealed for others. None of the commits
    of its public pack is one that a sealed id reaches; and a commit of a sealed branch's pack that
    is sealed for people the branch is not within was held, before this push, by an audience that
    the branch is within. It is about the commits of the packs: their trees and blobs are those of
    the commits, and a public squash of sealed work has its blobs. *)
Theorem packs_keep_sealed {G} `{!ObjectGraph G, !GraphLaws G} (g : G) input out members_tips :
  guard g input = Ok out -> oc_verdict out = Pass -> gi_publish_private input = None ->
  (forall u t, u ∈ gi_batch input -> br_audience u = Public -> br_new u = Some t ->
     exists p, peel g t = Ok p /\ pe_kind p = Commit) ->
  let plan := plan_packs (gi_public_tips input) members_tips (gi_batch input) in
  (forall job packed c, pp_public plan = Some job -> commits g (pj_want job) (pj_have job) = Ok packed -> c ∈ packed ->
     ~ sealed_for g (sealed_now input) (fun _ => true) c)
  /\ (forall u t packed c, u ∈ gi_batch input -> br_new u = Some t -> is_sealed (br_audience u) = true ->
     commits g [t] (btree_elems (members_have (gi_public_tips input) members_tips (gi_batch input) u)) = Ok packed -> c ∈ packed ->
     sealed_for g (sealed_now input) (fun a => negb (within (audience_str (br_audience u)) a (gi_audiences input))) c ->
     sealed_for g (sealed_before input) (fun a => within (audience_str (br_audience u)) a (gi_audiences input)) c).
Proof.
  cbv zeta. intros Hg Hpass Hnone Hpeel.
  assert (forall u t o, u ∈ gi_batch input -> br_new u = Some t -> ~ Shows g input true u t o) as Hsafe.
  { apply (guard_facts g) in Hg as [[_ ->]|(_ & Hv & H1 & _)]; [done|]. intros u t o Hu Hn Hs.
    destruct (H1 u t o Hu ltac:(split; [done|by rewrite Hnone]) Hs) as (f & Hf & _). rewrite Hpass in Hv.
    destruct (oc_findings out); [by apply not_elem_of_nil in Hf|done]. }
  split.
  - intros job packed c Hjob Hc Hin Hsealed. apply (commits_spec g _ _ _ Hc) in Hin as [(t & Ht & Hct) Hno].
    simpl in Hjob. revert Hjob. case_bool_decide; [done|]. intros [= <-]. simpl in *.
    apply elem_of_btree_elems, elem_of_public_want in Ht as [(u & Hu & Hn & Ha) _].
    destruct (Hpeel u t Hu Ha Hn) as (p & Hp & Hk). apply (Hsafe u t c Hu Hn). apply (shows_commit g input true u t p c); try done.
    + by rewrite (peel_history g t p Hp).
    + intros (e & He & Hce). apply Hno. exists e. by rewrite elem_of_btree_elems, elem_of_list_to_set.
  - intros u t packed c Hu Hn Hs Hc Hin Hwider. apply (commits_spec g _ _ _ Hc) in Hin as [(i & ->%list_elem_of_singleton & Hct) Hno].
    match goal with |- ?P => destruct (decide P) as [|Hnot]; [done|exfalso] end. apply (Hsafe u t c Hu Hn). apply shows_wider; try done. intros (e & He & Hce). apply Hno. exists e. split; [|done].
    apply elem_of_btree_elems. unfold members_have. rewrite !elem_of_union, elem_of_list_to_set. tauto.
Qed.

Lemma packs_keep_sealed_witness :
  ~ sealed_for example_graph (sealed_now (example_input "x")) (fun _ => true) "x".
Proof.
  assert (guard example_graph (example_input "x") = Ok (mkOutcome Pass [] [] [] [] [])) as H by (vm_compute; reflexivity).
  destruct (packs_keep_sealed example_graph (example_input "x") _ ∅ H eq_refl eq_refl) as [Hpublic _].
  - intros u t _ _ _. by exists (mkPeeled [] t Commit).
  - apply (Hpublic (mkPackJob ["x"] ["base"]) (reached example_graph ["x"] ∖ reached example_graph ["base"])).
    + vm_compute. reflexivity.
    + reflexivity.
    + apply (bool_decide_unpack _). vm_compute. exact I.
Defined.
