(* ===== verification/HelperOptions.v ===== *)
(** The options git gives the remote helper ([git-remote-dash/src/options.rs]): what one
    [option] line changes, the reply git reads, and the [--force-with-lease] expectations. *)
From S2P Require Import Wire.
From S2P Require Import Prelude Text.

(** ** The standard library *)

(** The text before the first [sep] and the text after it. *)
Fixpoint split_once (sep : Ascii.ascii) (s : string) : option (string * string) :=
  match s with
  | EmptyString => None
  | String c s => if c == sep then Some ("", s) else '(a, b) ← split_once sep s; Some (String c a, b)
  end.

Definition REPLACEMENT : list byte := map byte_of [239; 191; 189]%N.

(** The second byte of a three-byte and of a four-byte character. *)
Definition second_of_3 (b c : byte) : bool :=
  (b == byte_of 224) && byte_in 160 191 c || byte_in 225 236 b && continuation c
  || (b == byte_of 237) && byte_in 128 159 c || byte_in 238 239 b && continuation c.
Definition second_of_4 (b c : byte) : bool :=
  (b == byte_of 240) && byte_in 144 191 c || byte_in 241 243 b && continuation c
  || (b == byte_of 244) && byte_in 128 143 c.

(** [String::from_utf8_lossy]: each maximal invalid run becomes one replacement character. *)
Fixpoint from_utf8_lossy (l : list byte) : list byte :=
  match l with
  | [] => []
  | b :: l1 =>
    if byte_in 0 127 b then b :: from_utf8_lossy l1
    else match l1 with
    | [] => REPLACEMENT
    | c :: l2 =>
      if byte_in 194 223 b then
        if continuation c then b :: c :: from_utf8_lossy l2 else REPLACEMENT ++ from_utf8_lossy l1
      else if second_of_3 b c then
        match l2 with
        | [] => REPLACEMENT
        | d :: l3 => if continuation d then b :: c :: d :: from_utf8_lossy l3 else REPLACEMENT ++ from_utf8_lossy l2
        end
      else if second_of_4 b c then
        match l2 with
        | [] => REPLACEMENT
        | d :: l3 =>
          if continuation d then
            match l3 with
            | [] => REPLACEMENT
            | e :: l4 =>
              if continuation e then b :: c :: d :: e :: from_utf8_lossy l4 else REPLACEMENT ++ from_utf8_lossy l3
            end
          else REPLACEMENT ++ from_utf8_lossy l2
        end
      else REPLACEMENT ++ from_utf8_lossy l1
    end
  end.

(** [from_str] of a signed integer of the given range: a sign, then digits. *)
Definition parse_int (lo hi : Z) (s : string) : option Z :=
  let '(neg, digits) :=
    match s with
    | String "-" r => (true, r)
    | String "+" r => (false, r)
    | _ => (false, s)
    end in
  if (digits == "") || negb (forallb is_digit (bytes digits)) then None
  else
    let n := foldl (fun acc b => 10 * acc + Z.of_N (byte_val b - 48))%Z 0%Z (bytes digits) in
    let v := if neg then (- n)%Z else n in
    if (lo <=? v)%Z && (v <=? hi)%Z then Some v else None.

Definition parse_i32 : string -> option Z := parse_int (-2147483648) 2147483647.
Definition parse_i64 : string -> option Z := parse_int (-9223372036854775808) 9223372036854775807.

(** ** The options *)

Record OptionState := mkOptionState {
  verbosity : Z;
  progress : bool;
  cloning : bool;
  dry_run : bool;
  filter_spec : option string;
  from_promisor : bool;
  fatal : option string;
  push_options : list string;
  leases : list (string * string)
}.

Definition default_options : OptionState := mkOptionState 0 false false false None false None [] [].

Definition set_verbosity v s := mkOptionState v (progress s) (cloning s) (dry_run s) (filter_spec s) (from_promisor s) (fatal s) (push_options s) (leases s).
Definition set_progress v s := mkOptionState (verbosity s) v (cloning s) (dry_run s) (filter_spec s) (from_promisor s) (fatal s) (push_options s) (leases s).
Definition set_cloning v s := mkOptionState (verbosity s) (progress s) v (dry_run s) (filter_spec s) (from_promisor s) (fatal s) (push_options s) (leases s).
Definition set_dry_run v s := mkOptionState (verbosity s) (progress s) (cloning s) v (filter_spec s) (from_promisor s) (fatal s) (push_options s) (leases s).
Definition set_filter v s := mkOptionState (verbosity s) (progress s) (cloning s) (dry_run s) v (from_promisor s) (fatal s) (push_options s) (leases s).
Definition set_from_promisor v s := mkOptionState (verbosity s) (progress s) (cloning s) (dry_run s) (filter_spec s) v (fatal s) (push_options s) (leases s).
Definition set_fatal v s := mkOptionState (verbosity s) (progress s) (cloning s) (dry_run s) (filter_spec s) (from_promisor s) v (push_options s) (leases s).
Definition push_push_option v s := mkOptionState (verbosity s) (progress s) (cloning s) (dry_run s) (filter_spec s) (from_promisor s) (fatal s) (push_options s ++ [v]) (leases s).
Definition push_lease v s := mkOptionState (verbosity s) (progress s) (cloning s) (dry_run s) (filter_spec s) (from_promisor s) (fatal s) (push_options s) (leases s ++ [v]).

Definition lease (s : OptionState) (dst : string) : option string :=
  '(_, oid) ← List.find (fun '(r, _) => r == dst) (rev (leases s));
  Some (if forallb (fun b => b == "0"%char) (bytes oid) then "" else oid).

Definition has_push_option (s : OptionState) (name : string) : bool := existsb (fun o => o == name) (push_options s).

Definition push_option_values (s : OptionState) (key : string) : list string :=
  omap (fun o => '(k, v) ← split_once "="%char o; if k == key then Some v else None) (push_options s).

Inductive OptionReply := OptionOk | OptionUnsupported | OptionError (msg : string).

Definition reply_wire (r : OptionReply) : string :=
  match r with OptionOk => "ok" | OptionUnsupported => "unsupported" | OptionError msg => "error " +:+ msg end.

Definition truthy (value : string) : bool := (value == "true") || (value == "1").

Definition ATOMIC_UNSUPPORTED : string :=
  "dash:// cannot push atomically: each branch and tag is a separate Platform write, so some can land while another fails. Push without --atomic: git reports each ref, and a failed one can be pushed again".

Definition is_octal (b : byte) : bool := in_range "0" "7" b.

(** The value of three octal digits, in a byte. *)
Definition octal_byte (a b c : byte) : byte :=
  byte_of (((byte_val a - 48) * 64 + (byte_val b - 48) * 8 + (byte_val c - 48)) mod 256).

(** The byte that a backslash and [b] stand for. *)
Definition escaped (b : byte) : byte :=
  if b == "n"%char then byte_of 10 else if b == "t"%char then byte_of 9 else if b == "a"%char then byte_of 7
  else if b == "b"%char then byte_of 8 else if b == "f"%char then byte_of 12 else if b == "r"%char then byte_of 13
  else if b == "v"%char then byte_of 11 else b.

(** The loop over the bytes between the quotes. *)
Fixpoint unescape (l : list byte) : list byte :=
  match l with
  | [] => []
  | b :: l1 =>
    if b == byte_of 92 then
      match l1 with
      | [] => [b]
      | e :: l2 =>
        match l2 with
        | c :: d :: l4 =>
          if is_octal e && is_octal c && is_octal d then octal_byte e c d :: unescape l4 else escaped e :: unescape l2
        | _ => escaped e :: unescape l2
        end
      end
    else b :: unescape l1
  end.

Definition QUOTE : string := of_bytes [byte_of 34].

Definition unquote (value : string) : string :=
  match strip_prefix QUOTE value ≫= strip_suffix QUOTE with
  | None => value
  | Some inner => of_bytes (from_utf8_lossy (unescape (bytes inner)))
  end.

Definition SHALLOW_UNSUPPORTED : string :=
  "shallow clone (--depth/--shallow-*) is not supported by dash://; use --filter=blob:none for a lightweight clone".

Definition is_oid_length (n : nat) : bool := (n =? 40) || (n =? 64).

Section Options.
(** [{:?}] of a text, which escapes by Unicode's tables. *)
Context (debug : string -> string).

Definition handle_option (state : OptionState) (rest : string) : OptionState * OptionReply :=
  let '(name, value) := default (rest, "") (split_once " "%char rest) in
  let shallow := (set_fatal (Some SHALLOW_UNSUPPORTED) state, OptionError SHALLOW_UNSUPPORTED) in
  if name == "verbosity" then (set_verbosity (default (verbosity state) (parse_i32 (trim value))) state, OptionOk)
  else if name == "progress" then (set_progress (truthy value) state, OptionOk)
  else if name == "cloning" then (set_cloning (truthy value) state, OptionOk)
  else if name == "dry-run" then (set_dry_run (truthy value) state, OptionOk)
  else if name == "atomic" then (state, if truthy value then OptionError ATOMIC_UNSUPPORTED else OptionOk)
  else if name == "cas" then
    let value := unquote value in
    let refused := (state, OptionError ("--force-with-lease expects <ref>:<full commit id>, got " +:+ debug value)) in
    match split_once ":"%char value with
    | Some (r, oid) =>
      if starts_with "refs/" r
         && ((oid == "") || is_oid_length (String.length oid) && forallb is_hex_digit (bytes oid))
      then (push_lease (r, to_lower oid) state, OptionOk)
      else refused
    | None => refused
    end
  else if existsb (fun n => n == name)
    ["followtags"; "check-connectivity"; "no-recurse-submodules"; "object-format"; "report-status"; "deepen-relative"]
  then (state, OptionOk)
  else if name == "depth" then
    if negb (default 0%Z (parse_i64 (trim value)) =? 0)%Z then shallow else (state, OptionOk)
  else if (name == "deepen-since") || (name == "deepen-not") then
    if trim value == "" then (state, OptionOk) else shallow
  else if name == "filter" then
    let spec := trim value in
    (set_filter (if spec == "" then None else Some spec) state, OptionOk)
  else if name == "from-promisor" then (set_from_promisor (truthy value) state, OptionOk)
  else if name == "push-option" then (push_push_option value state, OptionOk)
  else (state, OptionUnsupported).
End Options.

Example cas_quoted :
  let q := of_bytes [byte_of 34] in
  unquote (q +:+ "refs/heads/na\303\257ve:" +:+ q) = utf8 [114; 101; 102; 115; 47; 104; 101; 97; 100; 115; 47; 110; 97; 195; 175; 118; 101; 58]%N.
Proof. vm_compute. reflexivity. Qed.
Example depth_one : handle_option id default_options "depth 1" = (set_fatal (Some SHALLOW_UNSUPPORTED) default_options, OptionError SHALLOW_UNSUPPORTED).
Proof. vm_compute. reflexivity. Qed.
Example depth_reset : handle_option id default_options "depth 0" = (default_options, OptionOk).
Proof. vm_compute. reflexivity. Qed.
(** A depth that no [i64] holds is read as a reset. *)
Example depth_huge : handle_option id default_options "depth 9223372036854775808" = (default_options, OptionOk).
Proof. vm_compute. reflexivity. Qed.

(** ** Lemmas *)

Lemma split_once_app (sep : byte) a b :
  existsb (fun c => c == sep) (bytes a) = false -> split_once sep (a +:+ String sep b) = Some (a, b).
Proof.
  induction a as [|c a IH]; intros Ha; [simpl; by rewrite bool_decide_eq_true_2|].
  change (bytes (String c a)) with (c :: bytes a) in Ha. simpl in Ha. apply orb_false_iff in Ha as [Hc Ha].
  rewrite str_cons_app. simpl. by rewrite Hc, IH.
Qed.

Lemma from_utf8_lossy_valid l : utf8_valid l = true -> from_utf8_lossy l = l.
Proof.
  remember (length l) as n eqn:Hn. revert l Hn. induction n as [n IHn] using lt_wf_ind. intros l ->.
  assert (forall k, length k < length l -> utf8_valid k = true -> from_utf8_lossy k = k) as IH by (intros; by eapply IHn).
  clear IHn. destruct l as [|b [|c l2]]; [done| |].
  - simpl. destruct (byte_in 0 127 b); done.
  - cbn [utf8_valid from_utf8_lossy]. destruct (byte_in 0 127 b) eqn:Eb; [intros H; f_equal; apply (IH (c :: l2)); [simpl; lia|exact H]|].
    destruct (byte_in 194 223 b) eqn:E2.
    { intros [Hc H]%andb_true_iff. rewrite Hc. by rewrite (IH l2) by (simpl; lia || exact H). }
    destruct l2 as [|d l3]; [done|]. destruct (byte_in 224 239 b) eqn:E3.
    + intros [[Hc Hd]%andb_true_iff H]%andb_true_iff. assert (second_of_3 b c = true) as ->.
      { unfold second_of_3. destruct (b == byte_of 224) eqn:E0; [by rewrite Hc|].
        destruct (b == byte_of 237) eqn:E1; [rewrite Hc; by rewrite !orb_true_r|]. rewrite Hc, !andb_true_r. simpl.
        rewrite bool_decide_eq_false in E0, E1. unfold byte_in in *. apply andb_true_iff in E3 as [?%N.leb_le ?%N.leb_le].
        assert (byte_val b <> 224)%N by (intros E; apply E0; rewrite <-E; by rewrite byte_of_val).
        assert (byte_val b <> 237)%N by (intros E; apply E1; rewrite <-E; by rewrite byte_of_val).
        destruct (N.leb_spec 225 (byte_val b)); [|lia]. destruct (N.leb_spec (byte_val b) 236); [done|].
        destruct (N.leb_spec 238 (byte_val b)); [|lia]. simpl. by apply N.leb_le. }
      rewrite Hd. by rewrite (IH l3) by (simpl; lia || exact H).
    + destruct l3 as [|e l4]; [done|]. intros [[[[Hb Hc]%andb_true_iff Hd]%andb_true_iff He]%andb_true_iff H]%andb_true_iff.
      assert (second_of_3 b c = false) as ->.
      { unfold second_of_3, byte_in in *. apply andb_true_iff in Hb as [Hb1%N.leb_le Hb2%N.leb_le].
        rewrite !bool_decide_eq_false_2 by (intros ->; vm_compute in Hb1; congruence).
        rewrite !(proj2 (N.leb_gt (byte_val b) _)), ?andb_false_r by lia. done. }
      assert (second_of_4 b c = true) as ->.
      { unfold second_of_4. destruct (b == byte_of 240) eqn:E0; [by rewrite Hc|].
        destruct (b == byte_of 244) eqn:E1; [rewrite Hc; by rewrite !orb_true_r|]. rewrite Hc, !andb_true_r. simpl.
        rewrite bool_decide_eq_false in E0, E1. unfold byte_in in *. apply andb_true_iff in Hb as [?%N.leb_le ?%N.leb_le].
        assert (byte_val b <> 240)%N by (intros E; apply E0; rewrite <-E; by rewrite byte_of_val).
        assert (byte_val b <> 244)%N by (intros E; apply E1; rewrite <-E; by rewrite byte_of_val).
        rewrite orb_false_r. apply andb_true_iff. split; apply N.leb_le; lia. }
      rewrite Hd, He. by rewrite (IH l4) by (simpl; lia || exact H).
Qed.

(** ** Quoting *)

(** The ways a byte may be written between the quotes: as itself, as three octal digits, or
    as the letter of an escape. *)
Inductive Written : byte -> list byte -> Prop :=
| WrittenPlain b : b <> byte_of 92 -> Written b [b]
| WrittenOctal x y z : (is_octal x && is_octal y && is_octal z = true) -> Written (octal_byte x y z) [byte_of 92; x; y; z]
| WrittenLetter e : is_octal e = false -> Written (escaped e) [byte_of 92; e].

Lemma unescape_written l reps : Forall2 Written l reps -> unescape (concat reps) = l.
Proof.
  induction 1 as [|b rep l reps Hw _ IH]; [done|]. destruct Hw as [b Hb|x y z Ho|e He]; cbn [concat app].
  - simpl. rewrite bool_decide_eq_false_2 by done. by rewrite IH.
  - simpl. rewrite Ho. by rewrite IH.
  - simpl. rewrite He. destruct (concat reps) as [|c [|d k]]; simpl in *; by rewrite IH.
Qed.

Lemma strip_suffix_end p s : strip_suffix p (s +:+ p) = Some s.
Proof.
  unfold strip_suffix. unfold str_rev at 1 2. rewrite bytes_app, rev_app_distr.
  assert (strip_prefix (of_bytes (rev (bytes p))) (of_bytes (rev (bytes p) ++ rev (bytes s))) = Some (of_bytes (rev (bytes s)))) as ->.
  { apply strip_prefix_app, bytes_inj. by rewrite bytes_app, !bytes_of_bytes. }
  simpl. unfold str_rev. by rewrite bytes_of_bytes, rev_involutive, of_bytes_bytes.
Qed.

Lemma unquote_quoted s reps :
  utf8_valid (bytes s) = true -> Forall2 Written (bytes s) reps ->
  unquote (QUOTE +:+ of_bytes (concat reps) +:+ QUOTE) = s.
Proof.
  intros Hs Hw. unfold unquote. assert (strip_prefix QUOTE (QUOTE +:+ (of_bytes (concat reps) +:+ QUOTE)) = Some (of_bytes (concat reps) +:+ QUOTE)) as ->.
  { by apply strip_prefix_app. }
  simpl. rewrite strip_suffix_end, bytes_of_bytes. rewrite (unescape_written _ _ Hw).
  by rewrite from_utf8_lossy_valid, of_bytes_bytes.
Qed.

Lemma unquote_plain s : strip_prefix QUOTE s = None -> unquote s = s.
Proof. unfold unquote. by intros ->. Qed.

Lemma null_lower oid :
  forallb (fun b => b == "0"%char) (bytes (to_lower oid)) = forallb (fun b => b == "0"%char) (bytes oid).
Proof.
  unfold to_lower. rewrite bytes_of_bytes. induction (bytes oid) as [|c l IH]; [done|]. simpl. rewrite IH. f_equal.
  clear. by destruct c as [[] [] [] [] [] [] [] []].
Qed.

(** ** What the options of a session come to *)

Section Session.
Context (debug : string -> string).

(** The line asks for a shallow clone: a depth that is a number but zero, or another bound. *)
Definition asks_shallow (rest : string) : bool :=
  match split_once " "%char rest with
  | None => false
  | Some (name, value) =>
    if name == "depth" then is_some_and (parse_i64 (trim value)) (fun n => negb (n =? 0)%Z)
    else ((name == "deepen-since") || (name == "deepen-not")) && negb (trim value == "")
  end.

Definition run_options (lines : list string) : OptionState :=
  foldl (fun s rest => (handle_option debug s rest).1) default_options lines.

(** The expectation a [cas] line records. *)
Definition cas_lease (rest : string) : option (string * string) :=
  let '(name, value) := default (rest, "") (split_once " "%char rest) in
  if name == "cas" then
    '(r, oid) ← split_once ":"%char (unquote value);
    if starts_with "refs/" r && ((oid == "") || is_oid_length (String.length oid) && forallb is_hex_digit (bytes oid))
    then Some (r, to_lower oid) else None
  else None.

Lemma handle_option_fatal s rest :
  fatal (handle_option debug s rest).1 = if asks_shallow rest then Some SHALLOW_UNSUPPORTED else fatal s.
Proof.
  unfold handle_option, asks_shallow. destruct (split_once " "%char rest) as [[name value]|] eqn:E.
  - cbn [default from_option id].
    destruct (decide (name = "depth")) as [->|Hd]; [|rewrite (bool_decide_eq_false_2 (name = "depth")) by done;
      destruct (decide (name = "deepen-since")) as [->|Hs]; [|rewrite (bool_decide_eq_false_2 (name = "deepen-since")) by done;
      destruct (decide (name = "deepen-not")) as [->|Hn]]].
    + cbn -[parse_i64 trim]. destruct (parse_i64 (trim value)) as [n|]; [|done]. simpl. by destruct (negb _).
    + cbn -[trim]. by destruct (trim value == "").
    + cbn -[trim]. by destruct (trim value == "").
    + rewrite (bool_decide_eq_false_2 (name = "deepen-not")) by done. simpl (_ && _).
      repeat (case_match; try done).
  - cbn [default from_option id]. repeat (case_match; try done).
Qed.

Definition push_option (rest : string) : option string :=
  let '(name, value) := default (rest, "") (split_once " "%char rest) in
  if name == "push-option" then Some value else None.

Lemma handle_option_lists s rest :
  leases (handle_option debug s rest).1 = leases s ++ option_list (cas_lease rest)
  /\ push_options (handle_option debug s rest).1 = push_options s ++ option_list (push_option rest).
Proof.
  unfold handle_option, cas_lease, push_option. destruct (default _ _) as [name value].
  destruct (decide (name = "cas")) as [->|Hc].
  { simpl. destruct (split_once ":"%char (unquote value)) as [[r oid]|]; simpl; [|by rewrite !app_nil_r].
    destruct (_ && _); simpl; by rewrite ?app_nil_r. }
  destruct (decide (name = "push-option")) as [->|Hp]; [simpl; by rewrite ?app_nil_r|].
  rewrite !(bool_decide_eq_false_2 (name = "cas")), !(bool_decide_eq_false_2 (name = "push-option")) by done.
  simpl option_list. rewrite !app_nil_r. repeat (case_match; try done).
Qed.

Lemma handle_option_cas s rest l :
  cas_lease rest = Some l -> handle_option debug s rest = (push_lease l s, OptionOk).
Proof.
  unfold handle_option, cas_lease. destruct (default _ _) as [name value].
  destruct (decide (name = "cas")) as [->|Hc]; [|by rewrite bool_decide_eq_false_2].
  simpl. destruct (split_once ":"%char (unquote value)) as [[r oid]|]; simpl; [|done].
  destruct (_ && _); [|done]. by intros [= <-].
Qed.

Lemma lease_push r oid s dst :
  lease (push_lease (r, oid) s) dst
  = if r == dst then Some (if forallb (fun b => b == "0"%char) (bytes oid) then "" else oid) else lease s dst.
Proof. unfold lease. simpl. rewrite rev_app_distr. simpl. by destruct (r == dst). Qed.

(** What a session's options come to: a shallow clone is refused for good exactly when
    some line asked for one, whatever lines follow it; the leases and the push options are
    those of the accepted lines, in order; and the lease of a ref is the last one given for
    it, where no commit, or the null one, says that the ref must not exist. *)
Theorem run_options_spec lines :
  let s := run_options lines in
  fatal s = (if existsb asks_shallow lines then Some SHALLOW_UNSUPPORTED else None)
  /\ leases s = omap cas_lease lines
  /\ push_options s = omap push_option lines
  /\ forall dst, lease s dst
      = foldl (fun last '(r, oid) => if r == dst then Some (if forallb (fun b => b == "0"%char) (bytes oid) then "" else oid) else last)
          None (omap cas_lease lines).
Proof.
  cbv zeta. unfold run_options. induction lines as [|rest lines IH] using rev_ind; [done|].
  rewrite foldl_snoc. set (s := foldl _ _ lines) in *. destruct IH as (Hf & Hl & Hp & Hd).
  destruct (handle_option_lists s rest) as [Hl' Hp']. rewrite !omap_app, handle_option_fatal, existsb_app, Hl', Hp', Hl, Hp.
  split_and!.
  - simpl. rewrite orb_false_r, orb_comm, Hf. by destruct (asks_shallow rest).
  - simpl. by destruct (cas_lease rest).
  - simpl. by destruct (push_option rest).
  - intros dst. rewrite foldl_app, <-Hd. unfold lease at 1. rewrite Hl'. simpl.
    destruct (cas_lease rest) as [[r oid]|]; simpl; [|by rewrite app_nil_r].
    pose proof (lease_push r oid s dst) as Hlp. unfold lease at 1 in Hlp. simpl in Hlp. exact Hlp.
Qed.

(** A lease git writes is the lease the push reads: for any ref and full commit id, or
    none, whether git wrote the pair plain or between quotes, with any mixture of octal
    escapes, the line is accepted, the ref's lease becomes that id in lower case, or "must
    not exist" for a null one, and the leases of the other refs stay. *)
Theorem cas_roundtrip s r oid value :
  starts_with "refs/" r = true -> existsb (fun c => c == ":"%char) (bytes r) = false ->
  (oid = "" \/ (String.length oid = 40 \/ String.length oid = 64) /\ forallb is_hex_digit (bytes oid) = true) ->
  (let pair := r +:+ String ":" oid in
   value = pair
   \/ utf8_valid (bytes pair) = true
      /\ exists reps, Forall2 Written (bytes pair) reps /\ value = QUOTE +:+ of_bytes (concat reps) +:+ QUOTE) ->
  exists s',
    handle_option debug s ("cas " +:+ value) = (s', OptionOk)
    /\ lease s' r = Some (if forallb (fun b => b == "0"%char) (bytes oid) then "" else to_lower oid)
    /\ forall dst, dst <> r -> lease s' dst = lease s dst.
Proof.
  intros Hr Hcolon Hoid Hv.
  assert (unquote value = r +:+ String ":" oid) as Hu.
  { destruct Hv as [->|(Hutf & reps & Hw & ->)]; [|by apply unquote_quoted]. apply unquote_plain.
    apply starts_with_app in Hr as [k ->]. done. }
  assert (cas_lease ("cas " +:+ value) = Some (r, to_lower oid)) as Hc.
  { unfold cas_lease. change ("cas " +:+ value) with ("cas" +:+ String " " value). rewrite split_once_app by done.
    cbn [default from_option id]. rewrite bool_decide_eq_true_2, Hu, split_once_app by done. simpl. rewrite Hr.
    destruct Hoid as [->|[Hlen ->]]; [done|]. unfold is_oid_length.
    by destruct Hlen as [-> | ->]; simpl; rewrite ?orb_true_r. }
  exists (push_lease (r, to_lower oid) s). split_and!; [by apply handle_option_cas| |].
  - rewrite lease_push, bool_decide_eq_true_2 by done. f_equal.
    by rewrite null_lower.
  - intros dst Hd. rewrite lease_push, bool_decide_eq_false_2 by done. done.
Qed.
End Session.

Lemma cas_roundtrip_witness :
  let r := "refs/heads/main" in
  let oid := "AAAAAAAAAAAAAAAAAAAAAAAAAAAAAAAAAAAAAAAA" in
  exists s', handle_option id default_options ("cas " +:+ r +:+ String ":" oid) = (s', OptionOk)
    /\ lease s' r = Some (to_lower oid) /\ forall dst, dst <> r -> lease s' dst = lease default_options dst.
Proof.
  exact (cas_roundtrip id default_options "refs/heads/main" "AAAAAAAAAAAAAAAAAAAAAAAAAAAAAAAAAAAAAAAA" _
    eq_refl eq_refl (or_intror (conj (or_introl eq_refl) eq_refl)) (or_introl eq_refl)).
Defined.
