(* ===== verification/GitGraph.v ===== *)
(** The guard's object graph over a git repository ([git-remote-dash/src/members.rs]): what it
    asks [git] and how it reads the answers, and that it keeps the graph's promises to the guard
    when [git] keeps its own. *)
From S2P Require Import Wire.
From S2P Require Import Prelude Text Ledger Guard HelperOptions.

(** ** Reading what git writes *)

Definition lossy_lines (out : string) : list string := str_lines (of_bytes (from_utf8_lossy (bytes out))).

(** Items, one per line. *)
Definition item_lines (l : list string) : string := foldr (fun x s => x +:+ newline +:+ s) "" l.

Definition graph_error (e : string) : Error :=
  Config ("reading this clone's history for the members-only check: " +:+ e).

Definition of_git {A} (r : A + string) : Result A := match r with inl a => Ok a | inr e => Err (graph_error e) end.

Section GitGraph.
(** [git] with its arguments and standard input: its output, or why it failed. *)
Context (git : list string -> option string -> string + string).

Definition run_git (args : list string) (stdin : option string) : Result string := of_git (git args stdin).

(** The objects of [oids] this repository holds. *)
Definition present (oids : list Oid) : Result (gset Oid) :=
  let wanted := hex_oids oids in
  if wanted == [] then Ok ∅
  else
    out ← run_git ["cat-file"; "--batch-check=%(objectname) %(objecttype)"] (Some (item_lines wanted));
    Ok (list_to_set (omap (fun l => '(oid, kind) ← split_once " "%char l; if kind != "missing" then Some oid else None) (lossy_lines out))).

(** The input of [rev-list], over the objects the repository holds. *)
Definition range (include exclude : list Oid) : Result (option string) :=
  include ← present include;
  if bool_decide (include = ∅) then Ok None
  else
    exclude ← present exclude;
    Ok (Some (item_lines (btree_elems include) +:+ item_lines (map (String "^"%char) (btree_elems exclude)))).

Definition first_word (l : string) : string := default "" (head (split_on (fun a => a == " "%char) l)).

Definition walk_git (with_objects : bool) (include exclude : list Oid) : Result (gset Oid) :=
  input ← range include exclude;
  match input with
  | None => Ok ∅
  | Some input =>
    out ← run_git ("rev-list" :: (if with_objects then ["--objects"] else []) ++ ["--stdin"]) (Some input);
    Ok (list_to_set (List.filter (fun o => o != "") (map first_word (lossy_lines out))))
  end.

Definition object_type (kind : string) : option ObjectType :=
  if kind == "commit" then Some Commit else if kind == "tree" then Some Tree
  else if kind == "blob" then Some Blob else if kind == "tag" then Some Tag else None.

(** The tag chain, within a bound that a store of hashes never reaches. *)
Fixpoint peel_from (fuel : nat) (oid at_ : Oid) (tags : list Oid) : Result Peeled :=
  let endless := Err (graph_error ("the tag chain of " +:+ oid +:+ " does not end")) in
  match fuel with
  | O => endless
  | S fuel =>
    if negb (is_hex_oid at_) then endless
    else
      kind ← run_git ["cat-file"; "-t"; at_] None;
      let kind := trim (of_bytes (from_utf8_lossy (bytes kind))) in
      match object_type kind with
      | None => Err (graph_error ("object " +:+ at_ +:+ " has type " +:+ kind))
      | Some Tag =>
        body ← run_git ["cat-file"; "tag"; at_] None;
        match omap (strip_prefix "object ") (lossy_lines body) with
        | [] => Err (graph_error ("tag " +:+ at_ +:+ " names no object"))
        | target :: _ => peel_from fuel oid target (tags ++ [at_])
        end
      | Some kind => Ok (mkPeeled tags at_ kind)
      end
  end.

Definition peel_git (oid : Oid) : Result Peeled := peel_from 64 oid oid [].

Definition note_targets_git (oid : Oid) : Result (list Oid) :=
  out ← run_git ["ls-tree"; "-r"; "--name-only"; oid] None;
  Ok (List.filter is_hex_oid (map (fun p => str_join "" (split_on (fun a => a == "/"%char) p)) (lossy_lines out))).

(** The entries of [git log --raw]: a commit's line, then its changed paths; a gitlink is a new
    entry of mode 160000. *)
Definition raw_gitlink (commit l : string) : option Gitlink :=
  l ← strip_prefix ":" l;
  '(meta, path) ← split_once "009"%char l;
  match split_on (fun a => a == " "%char) meta with
  | [_; mode; _; new; status] =>
    if (mode == "160000") && (status != "D") && is_hex_oid new then Some (mkGitlink commit path new) else None
  | _ => None
  end.

Fixpoint raw_gitlinks (commit : string) (lines : list string) : list Gitlink :=
  match lines with
  | [] => []
  | l :: lines =>
    match strip_prefix (of_bytes [byte_of 1]) l with
    | Some c => raw_gitlinks c lines
    | None => match raw_gitlink commit l with Some gl => gl :: raw_gitlinks commit lines | None => raw_gitlinks commit lines end
    end
  end.

(** In order, each once, as a [BTreeSet] keeps them. *)
Fixpoint dedup (l : list Gitlink) : list Gitlink :=
  match l with
  | a :: (b :: _) as l' => match gitlink_cmp a b with Eq => dedup l' | _ => a :: dedup l' end
  | _ => l
  end.

Definition gitlinks_git (include exclude : list Oid) : Result (list Gitlink) :=
  input ← range include exclude;
  match input with
  | None => Ok []
  | Some input =>
    out ← run_git ["log"; "--stdin"; "--raw"; "-m"; "--root"; "--no-abbrev"; "--no-renames"; "--ignore-submodules=none"; "--format=%x01%H"] (Some input);
    Ok (dedup (sort_by gitlink_cmp (raw_gitlinks "" (lossy_lines out))))
  end.

Definition patch_ids_git (oids : list Oid) : Result (gmap Oid string) :=
  let wanted := hex_oids oids in
  if wanted == [] then Ok ∅
  else
    patches ← run_git ["log"; "--no-walk=unsorted"; "--stdin"; "--no-merges"; "-p"; "--root"; "--no-renames"; "--no-color"; "--no-ext-diff";
      "--format=commit %H"] (Some (item_lines wanted));
    ids ← run_git ["patch-id"; "--stable"] (Some patches);
    Ok (foldl (fun m '(pid, c) => <[c := pid]> m) ∅ (omap (split_once " "%char) (lossy_lines ids))).
End GitGraph.

(** ** A repository whose [git] does what it documents *)

Definition type_name (k : ObjectType) : string :=
  match k with Commit => "commit" | Tree => "tree" | Blob => "blob" | Tag => "tag" end.

Definition batch_check : list string := ["cat-file"; "--batch-check=%(objectname) %(objecttype)"].
Definition rev_list (with_objects : bool) : list string :=
  "rev-list" :: (if with_objects then ["--objects"] else []) ++ ["--stdin"].
Definition range_text (inc exc : list Oid) : string := item_lines inc +:+ item_lines (map (String "^"%char) exc).

(** The ids a walk names, a line each. *)
Definition names (out : string) (o : Oid) : Prop := o <> "" /\ exists l, (l ∈ lossy_lines out) /\ first_word l = o.

(** A repository: [git] in it, the type of each object it holds, the commits an object reaches and
    the objects of every type. Answers are as [cat-file] and [rev-list] document them; a walk over
    objects may name some that an excluded tip reaches. *)
Record Repo := mkRepo {
  rp_git : list string -> option string -> string + string;
  rp_kind : Oid -> option ObjectType;
  rp_reach : Oid -> gset Oid;
  rp_objects : Oid -> gset Oid;
  rp_held_hex o k : rp_kind o = Some k -> is_hex_oid o = true;
  rp_absent o : rp_kind o = None -> rp_reach o = ∅ /\ rp_objects o = ∅;
  rp_batch_check l out : rp_git batch_check (Some (item_lines l)) = inl out -> Forall (fun o => is_hex_oid o = true) l ->
    lossy_lines out = map (fun o => o +:+ " " +:+ match rp_kind o with Some k => type_name k | None => "missing" end) l;
  rp_commits inc exc out : rp_git (rev_list false) (Some (range_text inc exc)) = inl out -> inc <> [] ->
    Forall (fun o => is_some_and (rp_kind o) (fun _ => true) = true) (inc ++ exc) ->
    forall o, names out o <-> (exists i, (i ∈ inc) /\ o ∈ rp_reach i) /\ ~ exists e, (e ∈ exc) /\ o ∈ rp_reach e;
  rp_walk inc exc out : rp_git (rev_list true) (Some (range_text inc exc)) = inl out -> inc <> [] ->
    Forall (fun o => is_some_and (rp_kind o) (fun _ => true) = true) (inc ++ exc) ->
    forall o, (names out o -> exists i, (i ∈ inc) /\ o ∈ rp_objects i)
      /\ ((exists i, (i ∈ inc) /\ o ∈ rp_objects i) -> (~ exists e, (e ∈ exc) /\ o ∈ rp_objects e) -> names out o);
  rp_type o out : rp_git ["cat-file"; "-t"; o] None = inl out ->
    object_type (trim (of_bytes (from_utf8_lossy (bytes out)))) = rp_kind o;
  rp_tag o out target rest : rp_kind o = Some Tag -> rp_git ["cat-file"; "tag"; o] None = inl out ->
    omap (strip_prefix "object ") (lossy_lines out) = target :: rest -> rp_reach target = rp_reach o
}.

#[export] Instance repo_graph : ObjectGraph Repo := {|
  commits r := walk_git (rp_git r) false;
  objects r := walk_git (rp_git r) true;
  peel r := peel_git (rp_git r);
  note_targets r := note_targets_git (rp_git r);
  gitlinks r := gitlinks_git (rp_git r);
  patch_ids r := patch_ids_git (rp_git r)
|}.

(** ** It keeps the graph's promises *)

Section Repo.
Context (r : Repo).

Definition held (o : Oid) : Prop := is_some_and (rp_kind r o) (fun _ => true) = true.

Lemma of_git_Ok {A} (x : A + string) a : of_git x = Ok a <-> x = inl a.
Proof. destruct x; simpl; split; by intros [= <-]. Qed.

Lemma hex_no_space o : is_hex_oid o = true -> existsb (fun b => b == " "%char) (bytes o) = false.
Proof.
  intros [H _]%(valid_id_bytes EntryCommit). rewrite <-not_true_iff_false, existsb_exists. intros (b & Hb & ->%bool_decide_eq_true).
  eapply forallb_forall in H; [|exact Hb]. by vm_compute in H.
Qed.

Lemma split_described o y : is_hex_oid o = true -> split_once " "%char (o +:+ " " +:+ y) = Some (o, y).
Proof. intros H. by apply (split_once_app " "%char o y), hex_no_space. Qed.

Lemma elem_of_hex_oids o l : o ∈ hex_oids l <-> (o ∈ l) /\ is_hex_oid o = true.
Proof. unfold hex_oids. by rewrite list_elem_of_In, filter_In, <-list_elem_of_In. Qed.

Lemma present_spec oids s : present (rp_git r) oids = Ok s -> forall o, o ∈ s <-> (o ∈ oids) /\ held o.
Proof.
  unfold present, held. case_bool_decide as Hnil.
  - intros [= <-] o. rewrite elem_of_empty. split; [done|]. intros [Hin Hk]. destruct (rp_kind r o) as [k|] eqn:E; [|done].
    assert (o ∈ hex_oids oids) as H by (apply elem_of_hex_oids; split; [done|by eapply rp_held_hex]). rewrite Hnil in H. by apply not_elem_of_nil in H.
  - intros (out & Hout%of_git_Ok & [= <-])%bind_Ok o. apply rp_batch_check in Hout.
    2:{ apply Forall_forall. intros x Hx%elem_of_hex_oids. apply Hx. }
    rewrite Hout, elem_of_list_to_set, list_elem_of_omap. split.
    + intros (l & (x & <- & Hx%list_elem_of_In%elem_of_hex_oids)%list_elem_of_In%in_map_iff & E). destruct Hx as [Hx Hhex].
      rewrite split_described in E by done. simpl in E.
      destruct (rp_kind r x) as [k|] eqn:Ek; [|done]. destruct k; injection E as <-; by rewrite Ek.
    + intros [Hin Hk]. destruct (rp_kind r o) as [k|] eqn:E; [|done]. pose proof (rp_held_hex r o k E) as Hhex.
      exists (o +:+ " " +:+ type_name k). split.
      * apply list_elem_of_In, in_map_iff. exists o. rewrite E. split; [done|]. by apply list_elem_of_In, elem_of_hex_oids.
      * rewrite split_described by done. by destruct k.
Qed.

(** Absent objects reach nothing, so leaving them out of a walk changes nothing. *)
Lemma range_spec inc exc input : range (rp_git r) inc exc = Ok input ->
  match input with
  | None => forall i, i ∈ inc -> rp_reach r i = ∅ /\ rp_objects r i = ∅
  | Some text => exists inc' exc', text = range_text inc' exc' /\ inc' <> []
      /\ Forall (fun o => is_some_and (rp_kind r o) (fun _ => true) = true) (inc' ++ exc')
      /\ (forall i, i ∈ inc' <-> (i ∈ inc) /\ held i) /\ (forall e, e ∈ exc' <-> (e ∈ exc) /\ held e)
  end.
Proof.
  intros (hi & His & H)%bind_Ok. pose proof (present_spec _ _ His) as Hp. revert H. case_bool_decide as Hnil.
  - intros [= <-] i Hi. apply rp_absent. destruct (rp_kind r i) as [k|] eqn:E; [|done].
    assert (i ∈ hi) as Hin by (apply Hp; unfold held; by rewrite E). rewrite Hnil in Hin. by apply elem_of_empty in Hin.
  - intros (he & Hes & [= <-])%bind_Ok. pose proof (present_spec _ _ Hes) as Hq.
    exists (btree_elems hi), (btree_elems he). split; [done|]. split_and!.
    + intros E. apply Hnil. apply set_eq. intros x. rewrite <-elem_of_btree_elems, E. set_solver.
    + apply Forall_app. split; apply Forall_forall; intros x Hx%elem_of_btree_elems; [by apply Hp in Hx as [_ ?]|by apply Hq in Hx as [_ ?]].
    + intros i. by rewrite elem_of_btree_elems.
    + intros e. by rewrite elem_of_btree_elems.
Qed.

Lemma reach_held (f : Oid -> gset Oid) (l l' : list Oid) (c : Oid) : (forall i, rp_kind r i = None -> f i = ∅) -> (forall i, i ∈ l' <-> (i ∈ l) /\ held i) ->
  (exists i, (i ∈ l') /\ c ∈ f i) <-> exists i, (i ∈ l) /\ c ∈ f i.
Proof.
  intros Hf Hl. setoid_rewrite Hl. split; [naive_solver|]. intros (i & Hi & Hc). exists i. split; [|done]. split; [done|].
  unfold held. destruct (rp_kind r i) as [k|] eqn:E; [done|]. by rewrite (Hf i E) in Hc.
Qed.

Lemma elem_of_names out o : o ∈ (list_to_set (List.filter (fun o => o != "") (map first_word (lossy_lines out))) : gset Oid) <-> names out o.
Proof.
  unfold names. rewrite elem_of_list_to_set, list_elem_of_In, filter_In, in_map_iff, negb_true_iff, bool_decide_eq_false.
  setoid_rewrite list_elem_of_In. naive_solver.
Qed.

Lemma walk_facts inc exc :
  (forall s, walk_git (rp_git r) false inc exc = Ok s -> forall c,
     c ∈ s <-> (exists i, (i ∈ inc) /\ c ∈ rp_reach r i) /\ ~ exists e, (e ∈ exc) /\ c ∈ rp_reach r e)
  /\ (forall s, walk_git (rp_git r) true inc exc = Ok s -> forall o,
     (o ∈ s -> exists i, (i ∈ inc) /\ o ∈ rp_objects r i)
     /\ ((exists i, (i ∈ inc) /\ o ∈ rp_objects r i) -> (~ exists e, (e ∈ exc) /\ o ∈ rp_objects r e) -> o ∈ s)).
Proof.
  assert (forall i, rp_kind r i = None -> rp_reach r i = ∅) as Hr by (intros; by apply rp_absent).
  assert (forall i, rp_kind r i = None -> rp_objects r i = ∅) as Ho by (intros; by apply rp_absent).
  split; intros s (input & Hin%range_spec & H)%bind_Ok o; (destruct input as [text|];
    [destruct Hin as (inc' & exc' & -> & Hne & Hheld & Hi & He); apply bind_Ok in H as (out & Hout%of_git_Ok & [= <-])
    |injection H as <-; rewrite elem_of_empty]).
  - rewrite elem_of_names, (rp_commits r inc' exc' out Hout Hne Hheld).
    by rewrite (reach_held (rp_reach r) inc inc' o Hr Hi), (reach_held (rp_reach r) exc exc' o Hr He).
  - split; [done|]. intros [(i & Hi & Hc) _]. apply Hin in Hi as [E _]. rewrite E in Hc. by apply elem_of_empty in Hc.
  - rewrite elem_of_names. pose proof (rp_walk r inc' exc' out Hout Hne Hheld o) as H.
    by rewrite (reach_held (rp_objects r) inc inc' o Ho Hi), (reach_held (rp_objects r) exc exc' o Ho He) in H.
  - split; [done|]. intros (i & Hi & Hc) _. apply Hin in Hi as [_ E]. rewrite E in Hc. by apply elem_of_empty in Hc.
Qed.

Lemma peel_reach oid at_ fuel tags p : peel_from (rp_git r) fuel oid at_ tags = Ok p -> rp_reach r (pe_target p) = rp_reach r at_.
Proof.
  revert at_ tags. induction fuel as [|fuel IH]; intros at_ tags; simpl; [done|]. destruct (negb (is_hex_oid at_)); [done|].
  intros (kind & Hkind%of_git_Ok & H)%bind_Ok. apply rp_type in Hkind. rewrite Hkind in H.
  destruct (rp_kind r at_) as [[]|] eqn:Ek; try by injection H as <-.
  - apply bind_Ok in H as (body & Hbody%of_git_Ok & H). destruct (omap _ _) as [|target rest] eqn:E; [done|].
    rewrite (IH _ _ H). by eapply rp_tag.
  - done.
Qed.

(** C25: the walks the guard makes are those it asks for: over any repository whose [git] answers as
    documented, and whichever of the ids it holds, the commits of a walk are exactly those some
    included id reaches and no excluded one does; a walk over objects names every such object,
    and only objects an included id has. *)
Theorem walk_git_spec inc exc :
  (forall s, walk_git (rp_git r) false inc exc = Ok s -> forall c,
     c ∈ s <-> (exists i, (i ∈ inc) /\ c ∈ rp_reach r i) /\ ~ exists e, (e ∈ exc) /\ c ∈ rp_reach r e)
  /\ (forall s, walk_git (rp_git r) true inc exc = Ok s -> forall o,
     (o ∈ s -> exists i, (i ∈ inc) /\ o ∈ rp_objects r i)
     /\ ((exists i, (i ∈ inc) /\ o ∈ rp_objects r i) -> (~ exists e, (e ∈ exc) /\ o ∈ rp_objects r e) -> o ∈ s)).
Proof. apply walk_facts. Qed.
End Repo.

#[export, refine] Instance repo_laws : GraphLaws Repo := {| history := rp_reach; contents := rp_objects |}.
Proof.
  - intros r inc exc. apply walk_facts.
  - intros r inc exc. apply walk_facts.
  - intros r oid p. apply peel_reach.
Defined.

(** ** A repository of one commit *)

Lemma item_lines_app a b : item_lines (a ++ b) = item_lines a +:+ item_lines b.
Proof.
  induction a as [|x a IH]; [done|]. change (item_lines ((x :: a) ++ b)) with (x +:+ newline +:+ item_lines (a ++ b)).
  change (item_lines (x :: a)) with (x +:+ newline +:+ item_lines a). by rewrite IH, !str_app_assoc.
Qed.

Lemma item_lines_plain l : Forall (fun x => forallb plain (bytes x) = true) l ->
  str_lines (item_lines l) = l /\ forallb (byte_in 0 127) (bytes (item_lines l)) = true.
Proof.
  induction 1 as [|x l Hx Hl [IH1 IH2]]; [done|]. change (item_lines (x :: l)) with (x +:+ newline +:+ item_lines l).
  rewrite str_lines_cat, plain_line, IH1 by done. split; [done|]. rewrite !bytes_app, !forallb_app, IH2, andb_true_r.
  rewrite (forallb_impl plain (byte_in 0 127)); [done| |done]. intros b [[? _]%andb_true_iff _]%andb_true_iff. done.
Qed.

Lemma lossy_items l : Forall (fun x => forallb plain (bytes x) = true) l -> lossy_lines (item_lines l) = l.
Proof.
  intros H. destruct (item_lines_plain l H) as [Hl Hb]. unfold lossy_lines.
  by rewrite from_utf8_lossy_valid, of_bytes_bytes by (by apply utf8_valid_plain).
Qed.

Lemma hex_plain o : is_hex_oid o = true -> forallb plain (bytes o) = true.
Proof. intros [H _]%(valid_id_bytes EntryCommit). eapply forallb_impl; [|exact H]. apply id_byte_plain. Qed.

Definition one_kind (o : Oid) : option ObjectType := if o == example_oid then Some Commit else None.
Definition one_reach (o : Oid) : gset Oid := if o == example_oid then {[example_oid]} else ∅.

Definition one_git (args : list string) (stdin : option string) : string + string :=
  match stdin with
  | Some input =>
    if args == batch_check then
      inl (item_lines (map (fun o => o +:+ " " +:+ match one_kind o with Some k => type_name k | None => "missing" end) (str_lines input)))
    else if (args == rev_list false) || (args == rev_list true) then
      inl (if existsb (starts_with "^") (str_lines input) then "" else example_oid +:+ newline)
    else inr "unknown command"
  | None => if args == ["cat-file"; "-t"; example_oid] then inl ("commit" +:+ newline) else inr "not an object"
  end.

Lemma one_held o : is_some_and (one_kind o) (fun _ => true) = true -> o = example_oid.
Proof. unfold one_kind. by case_bool_decide. Qed.

Lemma one_range inc exc : inc <> [] -> Forall (fun o => is_some_and (one_kind o) (fun _ => true) = true) (inc ++ exc) ->
  existsb (starts_with "^") (str_lines (range_text inc exc)) = negb (exc == [])
  /\ (forall o, (exists i, (i ∈ inc) /\ o ∈ one_reach i) <-> o = example_oid)
  /\ (forall o, (exists e, (e ∈ exc) /\ o ∈ one_reach e) <-> exc <> [] /\ o = example_oid).
Proof.
  intros Hne [Hinc Hexc]%Forall_app.
  assert (forall l, Forall (fun o => is_some_and (one_kind o) (fun _ => true) = true) l ->
    forall o, (exists i, (i ∈ l) /\ o ∈ one_reach i) <-> l <> [] /\ o = example_oid) as Hreach.
  { intros l Hl o. rewrite Forall_forall in Hl. split.
    - intros (i & Hi & Ho). pose proof (one_held i (Hl i Hi)) as ->. split; [by intros ->; apply not_elem_of_nil in Hi|].
      unfold one_reach in Ho. rewrite bool_decide_eq_true_2 in Ho by done. by apply elem_of_singleton in Ho.
    - intros [Hl' ->]. destruct l as [|i l]; [done|]. assert (i ∈ i :: l) as Hi by (apply elem_of_cons; by left).
      exists i. split; [done|]. rewrite (one_held i (Hl i Hi)). unfold one_reach. rewrite bool_decide_eq_true_2 by done. by apply elem_of_singleton. }
  split_and!; [|intros o; rewrite Hreach by done; tauto|by apply Hreach].
  unfold range_text. rewrite <-item_lines_app.
  assert (forall o, is_some_and (one_kind o) (fun _ => true) = true -> forallb plain (bytes o) = true) as Hp.
  { intros o ->%one_held. vm_compute. reflexivity. }
  destruct (item_lines_plain (inc ++ map (String "^"%char) exc)) as [-> _].
  { apply Forall_app. split; [by eapply Forall_impl|]. apply Forall_map. eapply Forall_impl; [exact Hexc|]. intros o Ho. simpl. by apply Hp in Ho. }
  rewrite existsb_app. replace (existsb (starts_with "^") inc) with false.
  2:{ symmetry. rewrite <-not_true_iff_false, existsb_exists. intros (i & Hi%list_elem_of_In & Hs).
      rewrite Forall_forall in Hinc. rewrite (one_held i (Hinc i Hi)) in Hs. by vm_compute in Hs. }
  by destruct exc.
Qed.

Definition one_repo : Repo.
Proof.
  refine (mkRepo one_git one_kind one_reach one_reach _ _ _ _ _ _ _).
  - intros o k. unfold one_kind. case_bool_decide as E; [|done]. intros _. rewrite E. vm_compute. reflexivity.
  - intros o. unfold one_kind, one_reach. by case_bool_decide.
  - intros l out H Hhex. unfold one_git in H. rewrite bool_decide_eq_true_2 in H by done. injection H as <-.
    destruct (item_lines_plain l) as [-> _]. { eapply Forall_impl; [exact Hhex|]. apply hex_plain. }
    apply lossy_items. apply Forall_map. eapply Forall_impl; [exact Hhex|]. intros o Ho%hex_plain.
    rewrite !bytes_app, !forallb_app, Ho. by destruct (one_kind o) as [[]|].
  - intros inc exc out H Hne Hheld o. destruct (one_range inc exc Hne Hheld) as (Hex & Hi & He). rewrite Hi, He.
    unfold one_git in H. rewrite Hex in H. destruct exc as [|e exc]; injection H as <-.
    + unfold names. change (lossy_lines _) with [example_oid]. setoid_rewrite list_elem_of_singleton. split.
      * intros (_ & l & -> & <-). split; [done|]. by intros [[] _].
      * intros [-> _]. split; [done|]. by exists example_oid.
    + unfold names. change (lossy_lines _) with (@nil string). split; [by intros (_ & l & ?%not_elem_of_nil & _)|].
      intros [-> Hn]. by destruct Hn.
  - intros inc exc out H Hne Hheld o. destruct (one_range inc exc Hne Hheld) as (Hex & Hi & He). rewrite Hi, He.
    unfold one_git in H. rewrite Hex in H. destruct exc as [|e exc]; injection H as <-.
    + unfold names. change (lossy_lines _) with [example_oid]. setoid_rewrite list_elem_of_singleton. split.
      * by intros (_ & l & -> & <-).
      * intros -> _. split; [done|]. by exists example_oid.
    + unfold names. change (lossy_lines _) with (@nil string). split; [by intros (_ & l & ?%not_elem_of_nil & _)|].
      intros -> Hn. by destruct Hn.
  - intros o out. unfold one_git, one_kind. case_bool_decide as E; [|done]. injection E as ->. intros [= <-].
    rewrite bool_decide_eq_true_2 by done. vm_compute. reflexivity.
  - intros o out target rest. unfold one_kind. by case_bool_decide.
Defined.

Lemma walk_git_spec_witness :
  commits one_repo [example_oid; "absent"] [] = Ok {[example_oid]}
  /\ forall c, c ∈ ({[example_oid]} : gset Oid) <-> (exists i, (i ∈ [example_oid; "absent"]) /\ c ∈ rp_reach one_repo i) /\ ~ exists e, (e ∈ []) /\ c ∈ rp_reach one_repo e.
Proof.
  assert (commits one_repo [example_oid; "absent"] [] = Ok {[example_oid]}) as H by (vm_compute; reflexivity).
  split; [exact H|]. exact (proj1 (walk_git_spec one_repo [example_oid; "absent"] []) _ H).
Defined.
