(* ===== verification/PushPlan.v ===== *)
(** A push, planned before anything is written ([git-remote-dash/src/helper.rs]): which refspecs
    are accepted, the tips they move off, the race they settle, and the new refs git could not
    hold; and what [list] tells git. *)
From S2P Require Import Wire.
From S2P Require Import Prelude Audiences Names RefCollision Refs Resolve HelperOptions.

Record PushSpec := mkPushSpec {
  ps_force : bool;
  ps_src : string;
  ps_dst : string
}.

Inductive PushOutcome := PushOk (dst : string) | PushError (dst why : string).

Definition outcome_wire (o : PushOutcome) : string :=
  match o with PushOk dst => "ok " +:+ dst | PushError dst why => "error " +:+ dst +:+ " " +:+ why end.

Record Planned := mkPlanned {
  pl_spec : PushSpec;
  pl_new_oid : option Oid;
  pl_prev_oid : option Oid;
  pl_settles : list Oid;
  pl_reject : option string;
  pl_audience : Audience
}.

Definition set_reject (why : string) (p : Planned) : Planned :=
  mkPlanned (pl_spec p) (pl_new_oid p) (pl_prev_oid p) (pl_settles p) (Some why) (pl_audience p).

Definition pl_dst (p : Planned) : string := ps_dst (pl_spec p).
Definition is_accepted (p : Planned) : bool := pl_reject p == None.
Definition writes (p : Planned) : nat := 1 + length (pl_settles p).
Definition members (p : Planned) : bool := pl_audience p == Members.
Definition sealed (p : Planned) : bool := is_sealed (pl_audience p).
Definition narrower (p : Planned) : bool := match pl_audience p with Narrower _ => true | _ => false end.

(** ** The remote's refs *)

Abbreviation RefList := (list (string * RefState)).

Definition tip_oid (state : RefState) : option Oid :=
  match state with
  | Resolved oid _ _ => Some oid
  | Diverged heads => rh_oid <$> head heads
  | Unborn => None
  end.

Definition is_some {A} (o : option A) : bool := is_some_and o (fun _ => true).

Definition live_names (refs : RefList) : list string :=
  map fst (List.filter (fun '(_, s) => is_some (tip_oid s)) refs).
Definition live_tips (refs : RefList) : list Oid := omap (fun '(_, s) => tip_oid s) refs.

Definition find_ref (refs : RefList) (name : string) : option RefState :=
  snd <$> List.find (fun '(n, _) => n == name) refs.

Definition remote_tip (refs : RefList) (name : string) : option Oid := s ← find_ref refs name; tip_oid s.

Definition remote_heads (refs : RefList) (name : string) : list Oid :=
  match find_ref refs name with
  | Some (Resolved oid _ _) => [oid]
  | Some (Diverged heads) => map rh_oid heads
  | Some Unborn | None => []
  end.

(** The lines of the refs git can hold, with their names. *)
Definition ref_lines (refs : RefList) : list (string * string) :=
  omap (fun '(name, state) =>
    if is_git_ref_name name then oid ← tip_oid state; Some (oid +:+ " " +:+ name, name) else None) refs.

Definition list_lines (refs : RefList) (default_branch : string) (for_push : bool) : list string :=
  let lines := map fst (ref_lines refs) in
  let names := map snd (ref_lines refs) in
  if for_push then lines
  else
    let default_ref := "refs/heads/" +:+ default_branch in
    if bool_decide (default_ref ∈ names) then lines ++ ["@" +:+ default_ref +:+ " HEAD"]
    else match List.find (fun n => starts_with "refs/heads/" n) names with
    | Some first_head => lines ++ ["@" +:+ first_head +:+ " HEAD"]
    | None => lines
    end.

Definition is_head (dst : string) : bool := dst == "HEAD".

Definition head_outcome (spec : PushSpec) : PushOutcome :=
  if ps_src spec == "" then PushOk (ps_dst spec)
  else PushError (ps_dst spec) "HEAD follows the default branch and is not pushed".

(** ** The plan *)

Definition short_ref (r : string) : string :=
  match strip_prefix "refs/heads/" r with
  | Some s => s
  | None => default r (strip_prefix "refs/tags/" r)
  end.

Definition diverged_reject (dst head : string) : string :=
  "non-fast-forward: " +:+ short_ref dst +:+ " has diverged and this push does not contain its other head " +:+ head
  +:+ "; fetch it (git fetch <remote> " +:+ head +:+ "), merge it and push again".

Definition lease_reject (want : string) (prev : option Oid) : option string :=
  let holds := match prev with None => want == "" | Some p => eq_ignore_case want p end in
  if holds then None else Some "stale info".

(** The new refs that git could not hold are refused, in order, next to the [live] ones. *)
Fixpoint reject_from (live : list string) (planned : list Planned) : list Planned :=
  match planned with
  | [] => []
  | p :: planned =>
    if is_accepted p && is_some (pl_new_oid p) && negb (is_some (pl_prev_oid p)) then
      match ref_collision live (pl_dst p) with
      | Some existing => set_reject (collision_reason (pl_dst p) existing) p :: reject_from live planned
      | None => p :: reject_from (live ++ [pl_dst p]) planned
      end
    else p :: reject_from live planned
  end.

Definition is_deletion (p : Planned) : bool := is_accepted p && negb (is_some (pl_new_oid p)) && (ps_src (pl_spec p) == "").

Definition reject_collisions (planned : list Planned) (remote_refs : RefList) : list Planned :=
  let deleted := map pl_dst (List.filter is_deletion planned) in
  let live := map fst (List.filter (fun '(name, state) => is_some (tip_oid state) && negb (bool_decide (name ∈ deleted))) remote_refs) in
  reject_from live planned.

Section Plan.
(** The clone, read through git, and [{:?}] of a text. *)
Context (rev_parse : string -> option Oid) (is_anc : Oid -> Oid -> bool) (debug : string -> string).

Definition contains (a b : Oid) : bool := (a == b) || is_anc a b.

Definition fast_forward (dst : string) (heads : list Oid) (new_oid : Oid) : list Oid + string :=
  match settling_prev_oids contains heads new_oid with
  | inl prevs => inl (List.filter (fun h => negb (Some h == head heads)) prevs)
  | inr head => if length heads <? 2 then inr "non-fast-forward" else inr (diverged_reject dst head)
  end.

Definition is_diverged (refs : RefList) (name : string) : bool :=
  existsb (fun '(n, s) => (n == name) && match s with Diverged _ => true | _ => false end) refs.

(** The body of the loop over the refspecs. *)
Definition plan_one (remote_refs : RefList) (options : OptionState) (spec : PushSpec) : Planned :=
  let prev := remote_tip remote_refs (ps_dst spec) in
  let lease := lease options (ps_dst spec) in
  let spec := mkPushSpec (if is_some lease then is_diverged remote_refs (ps_dst spec) else ps_force spec)
    (ps_src spec) (ps_dst spec) in
  match lease ≫= fun want => lease_reject want prev with
  | Some reject => mkPlanned spec None prev [] (Some reject) Public
  | None =>
    if ps_src spec == "" then mkPlanned spec None prev [] None Public
    else match rev_parse (ps_src spec) with
    | None => mkPlanned spec None prev [] (Some ("cannot resolve local source " +:+ debug (ps_src spec))) Public
    | Some new_oid =>
      let '(settles, reject) :=
        if ps_force spec || is_some lease then ([], None)
        else match fast_forward (ps_dst spec) (remote_heads remote_refs (ps_dst spec)) new_oid with
        | inl settles => (settles, None)
        | inr reject => ([], Some reject)
        end in
      mkPlanned spec (Some new_oid) prev settles reject Public
    end
  end.

Definition plan_pushes (specs : list PushSpec) (remote_refs : RefList) (options : OptionState) : list Planned :=
  reject_collisions (map (plan_one remote_refs options) specs) remote_refs.
End Plan.

Example list_main :
  list_lines [("refs/heads/dev", Resolved "aa" "me" 1); ("refs/heads/a b", Resolved "bb" "me" 1); ("refs/heads/main", Resolved "cc" "me" 1)]
    "main" false = ["aa refs/heads/dev"; "cc refs/heads/main"; "@refs/heads/main HEAD"].
Proof. vm_compute. reflexivity. Qed.
Example plan_two_new :
  map pl_reject (plan_pushes (fun _ => Some "aa") (fun _ _ => true) id
    [mkPushSpec false "x" "refs/heads/a"; mkPushSpec false "x" "refs/heads/a/b"] [] default_options)
  = [None; Some "refs/heads/a exists, so refs/heads/a/b cannot be created under it"].
Proof. vm_compute. reflexivity. Qed.

(** ** Collisions *)

Definition creates (p : Planned) : bool := is_accepted p && is_some (pl_new_oid p) && negb (is_some (pl_prev_oid p)).
Definition created (l : list Planned) : list string := map pl_dst (List.filter creates l).

(** Git can hold all the names at once. *)
Definition compatible (names : list string) : Prop :=
  forall a b, a ∈ names -> b ∈ names -> a <> b -> ~ collides a b.

Lemma is_some_true {A} (o : option A) : is_some o = true <-> exists x, o = Some x.
Proof. unfold is_some. destruct o; simpl; naive_solver. Qed.

Lemma is_some_false {A} (o : option A) : is_some o = false <-> o = None.
Proof. unfold is_some. by destruct o. Qed.

Lemma collides_sym a b : collides a b -> collides b a.
Proof. unfold collides. tauto. Qed.

Lemma elem_of_created l n : n ∈ created l <-> exists p, (p ∈ l) /\ creates p = true /\ pl_dst p = n.
Proof.
  unfold created. rewrite list_elem_of_In, in_map_iff. setoid_rewrite filter_In. setoid_rewrite <-list_elem_of_In. naive_solver.
Qed.

Lemma created_cons p l : created (p :: l) = (if creates p then [pl_dst p] else []) ++ created l.
Proof. unfold created. simpl. by destruct (creates p). Qed.

Lemma creates_rejected why p : creates (set_reject why p) = false.
Proof. done. Qed.

Lemma ref_collision_Some existing name e :
  ref_collision existing name = Some e -> (e ∈ existing) /\ e <> name /\ collides e name.
Proof. intros H. pose proof (ref_collision_facts existing name) as Hs. rewrite H in Hs. apply Hs. Qed.

Lemma ref_collision_None existing name :
  ref_collision existing name = None -> forall e, e ∈ existing -> e <> name -> ~ collides e name.
Proof. intros H. pose proof (ref_collision_facts existing name) as Hs. by rewrite H in Hs. Qed.

Lemma reject_from_lookup live planned i p :
  planned !! i = Some p ->
  exists p', reject_from live planned !! i = Some p'
  /\ let before := live ++ created (take i (reject_from live planned)) in
     (p' = p /\ (creates p = true -> forall e, e ∈ before -> e <> pl_dst p -> ~ collides e (pl_dst p)))
     \/ (creates p = true /\ exists e, (e ∈ before) /\ e <> pl_dst p /\ collides e (pl_dst p)
         /\ p' = set_reject (collision_reason (pl_dst p) e) p).
Proof.
  revert live i. induction planned as [|q planned IH]; intros live i Hi; [done|]. simpl. fold (creates q).
  destruct i as [|i]; simpl in Hi.
  - simplify_eq. destruct (creates p) eqn:Ec.
    + destruct (ref_collision live (pl_dst p)) as [e|] eqn:Er; (eexists; split; [done|]); cbv zeta; rewrite app_nil_r.
      * right. split; [done|]. exists e. apply ref_collision_Some in Er. tauto.
      * left. split; [done|]. intros _. by apply ref_collision_None.
    + eexists. split; [done|]. by left.
  - destruct (creates q) eqn:Ec.
    + destruct (ref_collision live (pl_dst q)) as [e|] eqn:Er.
      * destruct (IH live i Hi) as (p' & Hp' & H). exists p'. split; [done|].
        cbn [take]. by rewrite created_cons, creates_rejected.
      * destruct (IH (live ++ [pl_dst q]) i Hi) as (p' & Hp' & H). exists p'. split; [done|].
        cbn [take]. rewrite created_cons, Ec. cbv zeta in *. by rewrite (app_assoc live).
    + destruct (IH live i Hi) as (p' & Hp' & H). exists p'. split; [done|]. cbn [take]. by rewrite created_cons, Ec.
Qed.

Lemma length_reject_from live planned : length (reject_from live planned) = length planned.
Proof.
  revert live. induction planned as [|p planned IH]; intros live; simpl; [done|].
  destruct (_ && _); [destruct (ref_collision _ _)|]; simpl; by rewrite IH.
Qed.

Lemma reject_from_compatible live planned :
  compatible live -> compatible (live ++ created (reject_from live planned)).
Proof.
  revert live. induction planned as [|p planned IH]; intros live Hc; simpl; [by rewrite app_nil_r|]. fold (creates p).
  destruct (creates p) eqn:Ec; [destruct (ref_collision live (pl_dst p)) as [e|] eqn:Er|].
  - rewrite created_cons, creates_rejected. by apply IH.
  - rewrite created_cons, Ec, (app_assoc live). apply IH. intros a b Ha Hb Hne.
    pose proof (ref_collision_None _ _ Er) as Hn. rewrite elem_of_app, list_elem_of_singleton in Ha, Hb.
    destruct Ha as [Ha| ->], Hb as [Hb| ->]; [by apply Hc|by apply Hn| |done].
    intros H%collides_sym. by apply (Hn b).
  - rewrite created_cons, Ec. by apply IH.
Qed.

(** ** The plan of one refspec *)

Section Plan_facts.
Context (rev_parse : string -> option Oid) (is_anc : Oid -> Oid -> bool) (debug : string -> string).
Abbreviation plan_one := (plan_one rev_parse is_anc debug).
Abbreviation plan_pushes := (plan_pushes rev_parse is_anc debug).

(** The refspec may move its ref: its lease holds, if it has one, and it deletes the ref, is
    forced, leased, or moves off every live head. *)
Definition admissible (remote_refs : RefList) (options : OptionState) (spec : PushSpec) : Prop :=
  (forall want, lease options (ps_dst spec) = Some want ->
     match remote_tip remote_refs (ps_dst spec) with None => want = "" | Some tip => to_lower want = to_lower tip end)
  /\ (ps_src spec = ""
      \/ exists oid, rev_parse (ps_src spec) = Some oid
         /\ (lease options (ps_dst spec) <> None \/ ps_force spec = true
             \/ forall h, h ∈ remote_heads remote_refs (ps_dst spec) -> h = oid \/ is_anc h oid = true)).

(** The other live heads that a merge of the race settles. *)
Definition settled_heads (remote_refs : RefList) (options : OptionState) (spec : PushSpec) (oid : Oid) : list Oid :=
  if ps_force spec || is_some (lease options (ps_dst spec)) then []
  else
    let heads := remote_heads remote_refs (ps_dst spec) in
    List.filter (fun h => negb (Some h == head heads)) (List.filter (fun h => h != oid) heads).

Lemma contains_true a b : contains is_anc a b = true <-> a = b \/ is_anc a b = true.
Proof. unfold contains. by rewrite orb_true_iff, bool_decide_eq_true. Qed.

Lemma fast_forward_spec dst heads oid :
  match fast_forward is_anc dst heads oid with
  | inl settles => (forall h, h ∈ heads -> h = oid \/ is_anc h oid = true)
      /\ settles = List.filter (fun h => negb (Some h == head heads)) (List.filter (fun h => h != oid) heads)
  | inr why => exists h, (h ∈ heads) /\ h <> oid /\ is_anc h oid = false
      /\ why = if length heads <? 2 then "non-fast-forward" else diverged_reject dst h
  end.
Proof.
  unfold fast_forward. pose proof (settling_spec (contains is_anc) heads oid) as Hs.
  destruct (settling_prev_oids _ heads oid) as [prevs|h].
  - destruct Hs as [-> Hs]. split; [|done]. intros h Hh. destruct (decide (h = oid)) as [|Hne]; [by left|].
    apply contains_true, Hs. rewrite list_elem_of_In, filter_In, <-list_elem_of_In. by rewrite bool_decide_eq_false_2.
  - destruct Hs as (l1 & l2 & -> & Hne & Hg & _). destruct (length _ <? 2); (exists h; split_and!; [set_solver|done| |done]).
    all: unfold contains in Hg; by apply orb_false_iff in Hg as [_ ?].
Qed.

Lemma lease_reject_None want prev :
  lease_reject want prev = None <-> match prev with None => want = "" | Some tip => to_lower want = to_lower tip end.
Proof. unfold lease_reject, eq_ignore_case. destruct prev; case_bool_decide; naive_solver. Qed.

Lemma plan_one_spec refs options spec :
  let p := plan_one refs options spec in
  pl_dst p = ps_dst spec /\ pl_prev_oid p = remote_tip refs (ps_dst spec) /\ pl_audience p = Public
  /\ ps_src (pl_spec p) = ps_src spec
  /\ (is_accepted p = true <-> admissible refs options spec)
  /\ (is_accepted p = true -> pl_new_oid p = (if ps_src spec == "" then None else rev_parse (ps_src spec))
      /\ forall oid, pl_new_oid p = Some oid -> pl_settles p = settled_heads refs options spec oid).
Proof.
  cbv zeta. unfold plan_one, admissible, settled_heads. destruct (lease options (ps_dst spec)) as [want|] eqn:El; simpl.
  - pose proof (lease_reject_None want (remote_tip refs (ps_dst spec))) as Hl.
    destruct (lease_reject want _) as [why|]; simpl.
    + split_and!; [done..| |done]. split; [done|]. intros [H _]. by pose proof (proj2 Hl (H want eq_refl)).
    + case_bool_decide as Hsrc; [|destruct (rev_parse (ps_src spec)) as [oid|] eqn:Er]; simpl.
      * split_and!; [done..| |done]. split; [|done]. intros _. split; [|by left]. intros ? [= <-]. by apply Hl.
      * rewrite !orb_true_r. split_and!; [done..| |by split; [|by intros ? [= <-]]].
        split; [|done]. intros _. split; [intros ? [= <-]; by apply Hl|]. right. exists oid. by split; [|left].
      * split_and!; [done..| |done]. split; [done|]. intros [_ [?|(? & ? & _)]]; done.
  - case_bool_decide as Hsrc; [|destruct (rev_parse (ps_src spec)) as [oid|] eqn:Er]; simpl.
    + split_and!; [done..| |done]. split; [|done]. intros _. split; [done|by left].
    + rewrite orb_false_r. destruct (ps_force spec) eqn:Ef; simpl.
      * split_and!; [done..| |by split; [|by intros ? [= <-]]]. split; [|done]. intros _. split; [done|]. right. exists oid. auto.
      * pose proof (fast_forward_spec (ps_dst spec) (remote_heads refs (ps_dst spec)) oid) as Hf.
        destruct (fast_forward _ _ _ oid) as [settles|why]; simpl.
        -- destruct Hf as [Hf ->]. split_and!; [done..| |by split; [|by intros ? [= <-]]].
           split; [|done]. intros _. split; [done|]. right. exists oid. auto.
        -- destruct Hf as (h & Hh & Hne & Ha & _). split_and!; [done..| |done]. split; [done|].
           intros [_ [?|(? & [= <-] & [?|[?|Hall]])]]; [done..|]. destruct (Hall h Hh); congruence.
    + split_and!; [done..| |done]. split; [done|]. intros [_ [?|(? & ? & _)]]; done.
Qed.

(** ** The plan of a push *)

(** The live refs that the push does not delete. *)
Definition kept_refs (planned : list Planned) (remote_refs : RefList) : list string :=
  List.filter (fun n => negb (bool_decide (n ∈ map pl_dst (List.filter is_deletion planned)))) (live_names remote_refs).

(** The refs there will be once the push lands. *)
Definition refs_after (planned : list Planned) (remote_refs : RefList) : list string :=
  kept_refs planned remote_refs ++ map pl_dst (List.filter (fun p => is_accepted p && is_some (pl_new_oid p)) planned).

Lemma elem_of_live_names refs n : n ∈ live_names refs <-> exists s, ((n, s) ∈ refs) /\ is_some (tip_oid s) = true.
Proof.
  unfold live_names. rewrite list_elem_of_In, in_map_iff. setoid_rewrite filter_In. setoid_rewrite <-list_elem_of_In.
  split; [intros ([m s] & <- & ? & ?); by exists s|]. intros (s & ? & ?). by exists (n, s).
Qed.

Lemma reject_collisions_live planned refs :
  reject_collisions planned refs = reject_from (kept_refs planned refs) planned.
Proof.
  unfold reject_collisions, kept_refs, live_names. f_equal. induction refs as [|[n s] refs IH]; [done|].
  simpl. destruct (is_some (tip_oid s)); simpl; [|done]. destruct (negb _); simpl; by rewrite IH.
Qed.

Lemma reject_from_deletions live planned :
  List.filter is_deletion (reject_from live planned) = List.filter is_deletion planned.
Proof.
  revert live. induction planned as [|p planned IH]; intros live; [done|]. simpl. fold (creates p).
  assert (creates p = true -> is_deletion p = false) as Hd.
  { unfold creates, is_deletion. intros [[-> ->]%andb_true_iff _]%andb_true_iff. done. }
  destruct (creates p); [destruct (ref_collision _ _)|]; cbn [List.filter]; rewrite IH; [|done..].
  by rewrite (Hd eq_refl).
Qed.

Lemma plan_kept specs refs options :
  kept_refs (plan_pushes specs refs options) refs = kept_refs (map (plan_one refs options) specs) refs.
Proof.
  unfold PushPlan.plan_pushes. rewrite reject_collisions_live. unfold kept_refs at 1. by rewrite reject_from_deletions.
Qed.

Lemma plan_lookup specs refs options i p :
  plan_pushes specs refs options !! i = Some p ->
  exists spec, specs !! i = Some spec
  /\ (is_accepted p = true -> p = plan_one refs options spec)
  /\ (p = plan_one refs options spec \/ exists why, p = set_reject why (plan_one refs options spec)).
Proof.
  intros Hi. unfold PushPlan.plan_pushes in Hi. rewrite reject_collisions_live in Hi.
  destruct (specs !! i) as [spec|] eqn:Hs.
  - exists spec. split; [done|].
    destruct (reject_from_lookup (kept_refs (map (plan_one refs options) specs) refs) (map (plan_one refs options) specs) i (plan_one refs options spec))
      as (p' & Hp' & Hc); [by rewrite list_lookup_fmap, Hs|]. rewrite Hi in Hp'. injection Hp' as <-.
    destruct Hc as [[-> _]|(_ & e & _ & _ & _ & ->)]; [by split; [|left]|]. split; [done|right]. by eexists.
  - apply lookup_ge_None in Hs. apply lookup_lt_Some in Hi. rewrite length_reject_from, length_map in Hi. lia.
Qed.

Lemma remote_tip_live refs n tip : remote_tip refs n = Some tip -> n ∈ live_names refs.
Proof.
  unfold remote_tip, find_ref. destruct (List.find _ refs) as [[m s]|] eqn:Ef; [|done]. simpl. intros Ht.
  apply find_some in Ef as [Hin E%bool_decide_eq_true]. subst m. apply elem_of_live_names. exists s.
  rewrite list_elem_of_In. by rewrite Ht.
Qed.

(** C7: a push decides each refspec before it writes anything: each is planned in order, off
    the tip its ref has now; it is accepted only when it may move the ref (it deletes it, is
    forced, its lease holds, or its commit contains every live head), and an accepted update
    settles every other live head; and one that may move its ref is refused only when it
    would create a ref git could not hold next to a live ref this push does not delete, or
    to one it created before. *)
Theorem plan_pushes_spec specs refs options i spec :
  specs !! i = Some spec ->
  exists p, plan_pushes specs refs options !! i = Some p
  /\ pl_dst p = ps_dst spec /\ pl_prev_oid p = remote_tip refs (ps_dst spec)
  /\ (is_accepted p = true ->
        admissible refs options spec
        /\ pl_new_oid p = (if ps_src spec == "" then None else rev_parse (ps_src spec))
        /\ forall oid, pl_new_oid p = Some oid -> pl_settles p = settled_heads refs options spec oid)
  /\ (admissible refs options spec -> is_accepted p = false ->
        ps_src spec <> "" /\ pl_prev_oid p = None
        /\ exists e, e <> ps_dst spec /\ collides e (ps_dst spec)
           /\ pl_reject p = Some (collision_reason (ps_dst spec) e)
           /\ ((e ∈ kept_refs (plan_pushes specs refs options) refs)
               \/ exists j q, j < i /\ plan_pushes specs refs options !! j = Some q /\ creates q = true /\ pl_dst q = e)).
Proof.
  intros Hi. rewrite plan_kept. unfold PushPlan.plan_pushes. rewrite reject_collisions_live.
  destruct (plan_one_spec refs options spec) as (Hdst & Hprev & _ & Hsrc & Hadm & Hnew).
  destruct (reject_from_lookup (kept_refs (map (plan_one refs options) specs) refs) (map (plan_one refs options) specs) i (plan_one refs options spec))
    as (p & Hp & Hcases); [by rewrite list_lookup_fmap, Hi|].
  exists p. split; [done|]. cbv zeta in Hcases. destruct Hcases as [[-> _]|(Hc & e & He & Hne & Hcol & ->)].
  - split_and!; [done..|tauto|]. intros Ha%Hadm Hn. congruence.
  - split_and!; [done..|]. intros _ _. unfold creates in Hc. apply andb_true_iff in Hc as [[Hacc Hn]%andb_true_iff Hp0%negb_true_iff].
    apply is_some_false in Hp0. apply is_some_true in Hn as [oid Hoid]. split.
    { intros E. destruct (Hnew Hacc) as [Hno _]. rewrite Hoid, bool_decide_eq_true_2 in Hno by done. done. }
    split; [done|]. exists e. rewrite <-Hdst. split_and!; [done..|].
    apply elem_of_app in He as [He|(q & Hq & Hcq & Hqe)%elem_of_created]; [by left|right].
    apply elem_of_take in Hq as (j & Hj & Hlt). by exists j, q.
Qed.

(** No accepted push makes refs that git cannot hold at once: if the live refs were
    compatible, and the push names each ref once, then the refs there will be are. *)
Theorem plan_compatible specs refs options :
  NoDup (map ps_dst specs) -> compatible (live_names refs) ->
  compatible (refs_after (plan_pushes specs refs options) refs).
Proof.
  intros Hnd Hc. unfold refs_after. rewrite plan_kept.
  set (kept := kept_refs _ refs). set (planned := plan_pushes specs refs options).
  assert (compatible (kept ++ created planned)) as Hall.
  { unfold planned, PushPlan.plan_pushes. rewrite reject_collisions_live. apply reject_from_compatible.
    intros a b Ha Hb. apply Hc; [revert Ha|revert Hb]; unfold kept, kept_refs;
      rewrite list_elem_of_In, filter_In, <-list_elem_of_In; tauto. }
  assert (forall n, n ∈ kept ++ map pl_dst (List.filter (fun p => is_accepted p && is_some (pl_new_oid p)) planned) ->
    n ∈ kept ++ created planned) as Hin.
  { intros n [Hn|Hn]%elem_of_app; [by apply elem_of_app; left|].
    apply list_elem_of_In, in_map_iff in Hn as (p & <- & [Hp Hok%andb_true_iff]%filter_In). apply elem_of_app.
    destruct (creates p) eqn:Ecr; [right; apply elem_of_created; exists p; by rewrite list_elem_of_In|left].
    destruct Hok as [Hok1 Hok2]. unfold creates in Ecr. rewrite Hok1, Hok2 in Ecr. simpl in Ecr. apply negb_false_iff, is_some_true in Ecr as [tip Htip].
    apply list_elem_of_In, list_elem_of_lookup in Hp as [i Hi].
    destruct (plan_lookup specs refs options i p Hi) as (spec & Hspec & Hsame & _). specialize (Hsame Hok1).
    destruct (plan_one_spec refs options spec) as (Hdst & Hprev & _). rewrite <-Hsame in Hdst, Hprev.
    unfold kept, kept_refs. rewrite list_elem_of_In, filter_In, <-list_elem_of_In. split.
    - rewrite Hdst. rewrite Hprev in Htip. by eapply remote_tip_live.
    - apply negb_true_iff, bool_decide_eq_false. rewrite list_elem_of_In, in_map_iff.
      intros (q & Hq & [Hin Hdel]%filter_In). apply list_elem_of_In, list_elem_of_lookup in Hin as [j Hj].
      rewrite list_lookup_fmap in Hj. destruct (specs !! j) as [spec'|] eqn:Hspec'; [|done]. injection Hj as <-.
      destruct (plan_one_spec refs options spec') as (Hdst' & _).
      assert (i = j) as ->.
      { eapply (NoDup_lookup (map ps_dst specs) i j (pl_dst p)); [done|rewrite list_lookup_fmap, Hspec|rewrite list_lookup_fmap, Hspec'];
          simpl; congruence. }
      assert (spec' = spec) as -> by congruence. rewrite <-Hsame in Hdel. unfold is_deletion in Hdel.
      rewrite Hok2, andb_false_r in Hdel. done. }
  intros a b Ha Hb. by apply Hall; apply Hin.
Qed.

(** *** Settling a race *)

Lemma remote_tip_head refs n : remote_tip refs n = head (remote_heads refs n).
Proof. unfold remote_tip, remote_heads. destruct (find_ref refs n) as [[| |[|h hs]]|]; done. Qed.

Context (glob_match : string -> string -> bool) (sha256_hex : string -> string).

(** C29: a merge that a push accepts settles the race for every reader: with the diverged ref's
    live heads the ones the plan saw, once updates to the pushed commit have landed that count and
    name, between them, the tip and each head the plan says it settles, every reader, holding
    no commits, resolves the ref to that commit alone. *)
Theorem accepted_merge_resolves specs refs options i p spec oid us docs configs h heads :
  plan_pushes specs refs options !! i = Some p -> specs !! i = Some spec ->
  is_accepted p = true -> pl_new_oid p = Some oid -> is_null_oid oid = false ->
  ps_force spec = false -> lease options (ps_dst spec) = None ->
  live_heads glob_match sha256_hex us configs h identity = Some heads ->
  find_ref refs (ps_dst spec) = Some (Diverged heads) ->
  docs <> [] -> (forall u d, u ∈ us -> d ∈ docs -> (ru_created_at u < ru_created_at d)%N) ->
  (forall d, d ∈ docs -> counts glob_match sha256_hex configs h d = true /\ ru_new_oid d = oid) ->
  (forall tip, tip ∈ option_list (pl_prev_oid p) ++ pl_settles p -> exists d, (d ∈ docs) /\ ru_prev_oid d = tip) ->
  exists author t, resolve_ref glob_match sha256_hex (us ++ docs) configs h identity = Some (Resolved oid author t).
Proof.
  intros Hi Hspec Hacc Hoid Hnull Hforce Hlease Hheads Hfind Hne Hlt Hdocs Hcover.
  assert (remote_heads refs (ps_dst spec) = map rh_oid heads) as Hremote by (unfold remote_heads; by rewrite Hfind).
  destruct (plan_lookup specs refs options i p Hi) as (spec' & Hs & Hp & _). assert (spec' = spec) as -> by congruence.
  specialize (Hp Hacc). destruct (plan_one_spec refs options spec) as (_ & Hprev & _ & _ & Hadm & Hnew).
  rewrite <-Hp in Hprev, Hadm, Hnew. destruct (Hnew Hacc) as [_ Hset]. specialize (Hset oid Hoid).
  apply Hadm in Hacc as [_ [Hsrc|(oid' & Hrev & Hall)]].
  { destruct (Hnew ltac:(apply Hadm; split; [by rewrite Hlease|by left])) as [Hno _]. by rewrite Hsrc, bool_decide_eq_true_2, Hoid in Hno. }
  destruct (Hnew ltac:(apply Hadm; split; [by rewrite Hlease|right; by exists oid'])) as [Hno _].
  assert (oid' = oid) as ->.
  { destruct (decide (ps_src spec = "")) as [E|E]; [by rewrite E, bool_decide_eq_true_2, Hoid in Hno|].
    rewrite bool_decide_eq_false_2, Hrev in Hno by done. congruence. }
  destruct Hall as [?|[?|Hall]]; [done|congruence|].
  pose proof (settling_spec (contains is_anc) (map rh_oid heads) oid) as Hst.
  destruct (settling_prev_oids (contains is_anc) (map rh_oid heads) oid) as [prevs|x] eqn:Ep.
  2:{ destruct Hst as (l1 & l2 & Hl & Hxne & Hg & _). destruct (Hall x) as [?|Hanc]; [rewrite Hremote, Hl; set_solver|done|].
      unfold contains in Hg. rewrite Hanc, orb_true_r in Hg. done. }
  eapply (settling_resolves glob_match sha256_hex us docs configs h heads (contains is_anc) oid prevs); try done.
  destruct Hst as [-> _]. intros tip Htip. apply Hcover. rewrite Hset. unfold settled_heads. rewrite Hforce, Hlease. simpl.
  rewrite elem_of_app, Hprev, remote_tip_head, Hremote.
  destruct (decide (Some tip = head (map rh_oid heads))) as [<-|Hnh]; [left; simpl; set_solver|right].
  rewrite list_elem_of_In, filter_In, <-list_elem_of_In. by rewrite bool_decide_eq_false_2.
Qed.
End Plan_facts.

(** ** A push of two new refs, and one of a merge *)

Definition two_specs : list PushSpec := [mkPushSpec false "x" "refs/heads/a"; mkPushSpec false "x" "refs/heads/a/b"].
Definition main_refs : RefList := [("refs/heads/main", Diverged [mkRefHead "3" "d" "alice" 20; mkRefHead "2" "c" "alice" 20])].
Abbreviation plan_x := (plan_pushes (fun _ => Some "m") (fun _ _ => true) id).

Lemma plan_pushes_spec_witness :
  exists p, plan_x two_specs main_refs default_options !! 1 = Some p
  /\ is_accepted p = false /\ exists e, e <> "refs/heads/a/b" /\ collides e "refs/heads/a/b".
Proof.
  destruct (plan_pushes_spec (fun _ => Some "m") (fun _ _ => true) id two_specs main_refs default_options 1
    (mkPushSpec false "x" "refs/heads/a/b") eq_refl) as (p & Hp & _ & _ & _ & Hrej).
  exists p. split; [done|]. assert (is_accepted p = false) as Ha by (vm_compute in Hp; by injection Hp as <-). split; [done|].
  destruct Hrej as (_ & _ & e & Hne & Hcol & _); [|done|by exists e].
  split; [by intros want|]. right. exists "m". split; [done|]. right. right. by intros h ?%not_elem_of_nil.
Defined.

Lemma plan_compatible_witness : compatible (refs_after (plan_x two_specs main_refs default_options) main_refs).
Proof.
  refine (plan_compatible (fun _ => Some "m") (fun _ _ => true) id two_specs main_refs default_options _ _).
  - change (NoDup ["refs/heads/a"; "refs/heads/a/b"]). repeat constructor; set_solver.
  - change (compatible ["refs/heads/main"]). by intros a b ->%list_elem_of_singleton ->%list_elem_of_singleton.
Defined.

Lemma accepted_merge_resolves_witness :
  exists author t, resolve_ref literal_match no_hash (race ++ merge_of_race) [main_config] "k" identity = Some (Resolved "m" author t).
Proof.
  apply (accepted_merge_resolves (fun _ => Some "m") (fun _ _ => true) id literal_match no_hash
    [mkPushSpec false "x" "refs/heads/main"] main_refs default_options 0
    (mkPlanned (mkPushSpec false "x" "refs/heads/main") (Some "m") (Some "d") ["c"] None Public) (mkPushSpec false "x" "refs/heads/main") "m"
    race merge_of_race [main_config] "k" [mkRefHead "3" "d" "alice" 20; mkRefHead "2" "c" "alice" 20]);
    [vm_compute; reflexivity..|done| | |]; unfold race, merge_of_race; simpl; repeat setoid_rewrite elem_of_cons; setoid_rewrite elem_of_nil.
  - intros u w [->|[->|[->|[]]]] [->|[->|[]]]; vm_compute; reflexivity.
  - intros w [->|[->|[]]]; split; reflexivity.
  - intros p [->|[->|[]]]; eexists; split; [right; left; reflexivity|done|left; reflexivity|done].
Defined.
