(* ===== verification/PushWrites.v ===== *)
(** The ref updates of a planned push ([git-remote-dash/src/helper.rs] and
    [RepoService::write_ref_updates] of [forge-core/src/repo.rs]): the writes of each ref, the
    batches they go in, what a failed write does to the plan, and the outcomes git is told. *)
From S2P Require Import Wire.
From S2P Require Import Prelude Audiences UserErrors Names RefCollision Refs HelperOptions PushPlan.

Record RefWrite := mkRefWrite {
  rw_ref_name : string;
  rw_new_oid : list byte;
  rw_prev_oid : option (list byte);
  rw_force : bool
}.

(** What one write came to: the document's id, or why it failed. *)
Abbreviation WriteResult := (string + Error)%type.

Definition is_ok {A B} (r : A + B) : bool := match r with inl _ => true | inr _ => false end.

(** The keys that a batch seals its updates under. *)
Inductive Lane := PublicLane | MembersLane | BranchLane.

(** Platform, as the repository's service writes to it: [prepare] is what a batch reads before
    its writes, [create] one update, and [log] the updates that landed, with their lanes. *)
Class Chain (W : Type) := {
  prepare : Lane -> W -> option Error;
  create : Lane -> W -> RefWrite -> W * WriteResult;
  log : W -> list (Lane * RefWrite)
}.

(** An update whose id comes back has landed; one that fails may have, and nothing else does. *)
Class ChainLaws (W : Type) `{!Chain W} := {
  create_ok lane w u w' id : create lane w u = (w', inl id) -> log w' = log w ++ [(lane, u)];
  create_err lane w u w' e : create lane w u = (w', inr e) -> log w' = log w \/ log w' = log w ++ [(lane, u)]
}.

#[export] Instance Planned_inhabited : Inhabited Planned :=
  populate (mkPlanned (mkPushSpec false "" "") None None [] None Public).

(** What went wrong with the whole push: a service error, in the context it came in, or a text. *)
Inductive Failure := ServiceError (context : option string) (e : Error) | Message (text : string).

Record RefWrites := mkRefWrites {
  ws_writes : list RefWrite;
  ws_of : list nat
}.

Record PerRef := mkPerRef {
  pr_results : list WriteResult;
  pr_landed : bool
}.

(** Whether [writes[k]] is its ref's own update. *)
Definition is_own (w : RefWrites) (k : nat) : bool :=
  (k =? 0) || negb (nth (k - 1) (ws_of w) 0 =? nth k (ws_of w) 0).

Section Writes.
Context {W : Type} `{!Chain W}.
(** [hex::decode] with its error's text, [hex::encode] and [{:?}] of a text. *)
Context (hex_decode : string -> list byte + string) (hex_encode : list byte -> string).
Context (debug : string -> string).

(** *** The service *)

Definition oid_widths_ok (new_oid : list byte) (prev_oid : option (list byte)) : bool :=
  let ok (o : list byte) := (length o =? 20) || (length o =? 32) in
  ok new_oid && is_none_or prev_oid ok.

Definition check_ref_write (u : RefWrite) : option Error :=
  let delete := forallb (fun b => b == byte_of 0) (rw_new_oid u) in
  let legal := if delete then is_legal_ref_name (rw_ref_name u) else is_git_ref_name (rw_ref_name u) in
  if negb legal then
    Some (Config ("illegal ref name " +:+ debug (rw_ref_name u) +:+ ": it must pass `git check-ref-format` (refs/…, at most 255 bytes; no spaces, control characters, `~^:?*[\`, `..`, `@{`, or a component that starts with `.` or ends with `.lock`)"))
  else if negb (oid_widths_ok (rw_new_oid u) (rw_prev_oid u)) then
    Some (Config ("ref update of " +:+ debug (rw_ref_name u) +:+ " refused: an object id is 20 (SHA-1) or 32 (SHA-256) bytes"))
  else None.

(** The first check that fails. *)
Definition check_all (check : RefWrite -> option Error) (updates : list RefWrite) : option Error :=
  foldr (fun u rest => match check u with Some e => Some e | None => rest end) None updates.

(** One by one, until one fails. *)
Fixpoint write_until_failure (w : W) (updates : list RefWrite) : W * list WriteResult :=
  match updates with
  | [] => (w, [])
  | u :: updates =>
    let '(w, r) := create PublicLane w u in
    if is_ok r then let '(w, rs) := write_until_failure w updates in (w, r :: rs) else (w, [r])
  end.

(** The parallel writes, every one attempted; in the order their results are taken. *)
Fixpoint write_every (lane : Lane) (w : W) (updates : list RefWrite) : W * list WriteResult :=
  match updates with
  | [] => (w, [])
  | u :: updates =>
    let '(w, r) := create lane w u in
    let '(w, rs) := write_every lane w updates in (w, r :: rs)
  end.

Definition write_prepared (lane : Lane) (w : W) (updates : list RefWrite) : W * (list WriteResult + Error) :=
  match prepare lane w with
  | Some e => (w, inr e)
  | None => let '(w, rs) := write_every lane w updates in (w, inl rs)
  end.

(** [RepoService::write_ref_updates]. *)
Definition service_write_ref_updates (private : bool) (w : W) (updates : list RefWrite)
    : W * (list WriteResult + Error) :=
  match check_all check_ref_write updates with
  | Some e => (w, inr e)
  | None =>
    if private || (length updates <? 2) then let '(w, rs) := write_until_failure w updates in (w, inl rs)
    else write_prepared PublicLane w updates
  end.

Definition require_public (private : bool) (display what : string) : option Error :=
  if private then
    Some (User (with_fix "see docs/security/private-repos.md §7 for what a private repository supports"
      (with_cause ("private repositories don't support " +:+ what +:+ " yet")
        (new_error PRIVATE_UNSUPPORTED
          (display +:+ " is a private repository; " +:+ what +:+ " is not supported for private repositories")))))
  else None.

(** The repository: whether it is private, and its name. *)
Context (private : bool) (repo_display : string).

(** [RepoService::write_members_ref_updates]. *)
Definition write_members_ref_updates (w : W) (updates : list RefWrite) : W * (list WriteResult + Error) :=
  match require_public private repo_display "writing a members-only branch" with
  | Some e => (w, inr e)
  | None =>
    match check_all check_ref_write updates with
    | Some e => (w, inr e)
    | None => write_prepared MembersLane w updates
    end
  end.

Definition short_branch (b : string) : string := default b (strip_prefix "refs/heads/" b).

(** [RepoService::write_branch_ref_updates]; [has_key] says which branches the ring holds. *)
Definition write_branch_ref_updates (has_key : string -> bool) (w : W) (updates : list RefWrite)
    : W * (list WriteResult + Error) :=
  let check u :=
    match check_ref_write u with
    | Some e => Some e
    | None =>
      if has_key (rw_ref_name u) then None
      else Some (Config ("no key for " +:+ short_branch (rw_ref_name u) +:+ ": it is not a branch you have access to"))
    end in
  match require_public private repo_display "writing a members-only branch" with
  | Some e => (w, inr e)
  | None =>
    match check_all check updates with
    | Some e => (w, inr e)
    | None => write_prepared BranchLane w updates
    end
  end.

(** *** The writes of a batch *)

Definition oid_to_bytes (oid : Oid) : list byte + string :=
  match hex_decode oid with
  | inr e => inr ("oid " +:+ debug oid +:+ " is not hex: " +:+ e)
  | inl raw => if length raw =? 20 then inl raw else inr ("oid " +:+ debug oid +:+ " is not 20 bytes (sha1)")
  end.

Definition opt_bytes (prev : option Oid) : option (list byte) + string :=
  match prev with
  | None => inl None
  | Some oid => match oid_to_bytes oid with inl b => inl (Some b) | inr e => inr e end
  end.

(** One update per tip that the ref moves off: its own, then those it settles. *)
Fixpoint prev_writes (dst : string) (new_oid : list byte) (force : bool) (prevs : list (option Oid))
    : list RefWrite + string :=
  match prevs with
  | [] => inl []
  | prev :: prevs =>
    match opt_bytes prev with
    | inr e => inr e
    | inl prev =>
      match prev_writes dst new_oid force prevs with
      | inl ws => inl (mkRefWrite dst new_oid prev force :: ws)
      | inr e => inr e
      end
    end
  end.

Definition planned_writes (p : Planned) : list RefWrite + string :=
  match (match pl_new_oid p with Some oid => oid_to_bytes oid | None => inl (repeat (byte_of 0) 20) end) with
  | inr e => inr e
  | inl new_oid => prev_writes (pl_dst p) new_oid (ps_force (pl_spec p)) (pl_prev_oid p :: map Some (pl_settles p))
  end.

Fixpoint ref_writes_from (at_ : nat) (planned : list Planned) (accepted : list nat) : RefWrites + string :=
  match accepted with
  | [] => inl (mkRefWrites [] [])
  | i :: accepted =>
    match planned_writes (planned !!! i) with
    | inr e => inr e
    | inl ws =>
      match ref_writes_from (S at_) planned accepted with
      | inr e => inr e
      | inl rest => inl (mkRefWrites (ws ++ ws_writes rest) (repeat at_ (length ws) ++ ws_of rest))
      end
    end
  end.

Definition ref_writes : list Planned -> list nat -> RefWrites + string := ref_writes_from 0.

(** *** One result per ref *)

Definition partly_written (prev : option (list byte)) (e : Error) : Error :=
  let head := default "" (hex_encode <$> prev) in
  Platform ("the push landed, but the update settling the concurrent head " +:+ of_bytes (take 12 (bytes head))
    +:+ " failed (" +:+ error_text e +:+ "); the branch still reads as diverged. Any new commit on top of this one, pushed as usual, settles it").

(** The body of the loop over the writes' results. *)
Definition per_ref_step (w : RefWrites) (k : nat) (r : WriteResult) (out : list WriteResult) : list WriteResult :=
  match last out with
  | Some last =>
    if is_own w k then out ++ [r]
    else match last, r with
    | inl _, inr e => removelast out ++ [inr (partly_written (ws_writes w !! k ≫= rw_prev_oid) e)]
    | _, _ => out
    end
  | None => out ++ [r]
  end.

Fixpoint per_ref_from (w : RefWrites) (k : nat) (results : list WriteResult) (out : PerRef) : PerRef :=
  match results with
  | [] => out
  | r :: results =>
    per_ref_from w (S k) results (mkPerRef (per_ref_step w k r (pr_results out)) (pr_landed out || is_ok r))
  end.

Definition per_ref (w : RefWrites) (results : list WriteResult) : PerRef := per_ref_from w 0 results (mkPerRef [] false).

(** *** Settling a batch *)

Definition failed_text (e : Error) : string := "ref update failed: " +:+ error_text e.

(** The loop over the refs of the batch. *)
Fixpoint settle_each (planned : list Planned) (accepted : list nat) (results : list WriteResult) : list Planned :=
  match accepted with
  | [] => planned
  | i :: accepted =>
    match results with
    | inl _ :: results => settle_each planned accepted results
    | inr e :: results => settle_each (alter (set_reject (failed_text e)) i planned) accepted results
    | [] => settle_each (alter (set_reject "not written: an earlier ref update of this push failed") i planned) accepted []
    end
  end.

(** The first ref that failed, with its error. *)
Fixpoint first_failure (accepted : list nat) (results : list WriteResult) : option (nat * Error) :=
  match accepted, results with
  | i :: _, inr e :: _ => Some (i, e)
  | _ :: accepted, inl _ :: results => first_failure accepted results
  | _, _ => None
  end.

Definition settle_ref_writes (planned : list Planned) (accepted : list nat) (results : list WriteResult)
    (landed_before : bool) : list Planned * (unit + Failure) :=
  if negb landed_before && negb (existsb is_ok results) then
    match first_failure accepted results with
    | Some (i, e) => (planned, inr (ServiceError (Some ("writing ref update for " +:+ pl_dst (planned !!! i))) e))
    | None => (planned, inl tt)
    end
  else (settle_each planned accepted results, inl tt).

Definition reject_each (why : string) (planned : list Planned) (refs : list nat) : list Planned :=
  foldl (fun planned i => alter (set_reject why) i planned) planned refs.

Definition write_batch (planned : list Planned) (w : W) (accepted : list nat) (landed_before : bool)
    : list Planned * W * (unit + Failure) :=
  if accepted == [] then (planned, w, inl tt)
  else match ref_writes planned accepted with
  | inr e => (planned, w, inr (Message e))
  | inl ws =>
    let '(w, results) := service_write_ref_updates private w (ws_writes ws) in
    match results with
    | inr e =>
      if landed_before then (reject_each (failed_text e) planned accepted, w, inl tt)
      else (planned, w, inr (ServiceError None e))
    | inl results =>
      let per := per_ref ws results in
      let '(planned, r) := settle_ref_writes planned accepted (pr_results per) (landed_before || pr_landed per) in
      (planned, w, r)
    end
  end.

(** *** The sealed refs *)

(** The keys: whether the members key is held, and, with a ring, the branches it has keys for. *)
Context (lane : bool) (ring : option (string -> bool)).

Definition fail_all (why : string) (refs : list nat) : PerRef :=
  mkPerRef (map (fun _ => inr (Config why)) refs) false.

Definition lane_writes (write : W -> list RefWrite -> W * (list WriteResult + Error))
    (planned : list Planned) (w : W) (refs : list nat) : W * PerRef :=
  match ref_writes planned refs with
  | inr e => (w, fail_all e refs)
  | inl ws =>
    let '(w, results) := write w (ws_writes ws) in
    match results with
    | inl results => (w, per_ref ws results)
    | inr e => (w, fail_all (error_text e) refs)
    end
  end.

Definition lane_batch (planned : list Planned) (w : W) (members : list nat) : W * PerRef :=
  if lane then lane_writes write_members_ref_updates planned w members
  else (w, fail_all "the members key isn't available" members).

Definition branch_batch (planned : list Planned) (w : W) (narrower : list nat) : W * PerRef :=
  match ring with
  | Some has_key => lane_writes (write_branch_ref_updates has_key) planned w narrower
  | None => (w, fail_all "the branch key isn't available" narrower)
  end.

Definition insert_results (refs : list nat) (results : list WriteResult) (m : gmap nat WriteResult) : gmap nat WriteResult :=
  foldl (fun m '(i, r) => <[i := r]> m) m (zip refs results).

(** Takes the result of each ref out of the map; [None] is the panic of a missing one. *)
Fixpoint take_results (by_index : gmap nat WriteResult) (refs : list nat) : option (list WriteResult) :=
  match refs with
  | [] => Some []
  | i :: refs =>
    r ← by_index !! i; rs ← take_results (delete i by_index) refs; Some (r :: rs)
  end.

Definition members_batch (planned : list Planned) (w : W) (sealed : list nat) : W * option PerRef :=
  let narrow := List.filter (fun i => narrower (planned !!! i)) sealed in
  let members := List.filter (fun i => negb (narrower (planned !!! i))) sealed in
  let '(w, by_index, landed) :=
    if members == [] then (w, ∅, false)
    else let '(w, out) := lane_batch planned w members in
         (w, insert_results members (pr_results out) ∅, pr_landed out) in
  let '(w, by_index, landed) :=
    if narrow == [] then (w, by_index, landed)
    else let '(w, out) := branch_batch planned w narrow in
         (w, insert_results narrow (pr_results out) by_index, landed || pr_landed out) in
  (w, rs ← take_results by_index sealed; Some (mkPerRef rs landed)).

(** *** The batches of a push *)

(** One batch; [None] is a panic. *)
Definition batch (planned : list Planned) (w : W) (accepted : list nat) (landed_before : bool)
    : option (list Planned * W * (unit + Failure)) :=
  let members := List.filter (fun i => sealed (planned !!! i)) accepted in
  let public := List.filter (fun i => negb (sealed (planned !!! i))) accepted in
  if members == [] then Some (write_batch planned w public landed_before)
  else
    let '(w, results) := members_batch planned w members in
    results ← results;
    let landed := landed_before || pr_landed results in
    if public == [] then
      let '(planned, r) := settle_ref_writes planned members (pr_results results) landed in Some (planned, w, r)
    else
      let '(planned, r) := settle_ref_writes planned members (pr_results results) true in
      match r with
      | inr e => Some (planned, w, inr e)
      | inl _ => Some (write_batch planned w public landed)
      end.

Definition gated_creations (planned : list Planned) (accepted : list nat) : list (nat * list nat) :=
  let deletions := List.filter (fun d => negb (is_some (pl_new_oid (planned !!! d)))) accepted in
  omap (fun i =>
    let p := planned !!! i in
    if is_some (pl_new_oid p) && negb (is_some (pl_prev_oid p)) then
      let needs := List.filter (fun d => is_some (ref_collision [pl_dst (planned !!! d)] (pl_dst p))) deletions in
      if needs == [] then None else Some (i, needs)
    else None) accepted.

Definition failure_text (f : Failure) : string :=
  match f with
  | Message text => text
  | ServiceError None e => error_chain e
  | ServiceError (Some context) e => context +:+ ": " +:+ error_chain e
  end.

(** The new refs that waited on a deletion that failed. *)
Definition reject_gated (planned : list Planned) (gated : list (nat * list nat)) : list Planned :=
  foldl (fun planned '(i, needs) =>
    match List.find (fun d => negb (is_accepted (planned !!! d))) needs with
    | Some d =>
      alter (set_reject ("not written: deleting " +:+ pl_dst (planned !!! d) +:+ " failed, and git cannot hold both names")) i planned
    | None => planned
    end) planned gated.

Definition write_ref_updates (planned : list Planned) (w : W) : option (list Planned * W * (unit + Failure)) :=
  let accepted := List.filter (fun i => is_accepted (planned !!! i)) (seq 0 (length planned)) in
  let gated := gated_creations planned accepted in
  if gated == [] then batch planned w accepted false
  else
    let deletions := List.filter (fun i => negb (is_some (pl_new_oid (planned !!! i)))) accepted in
    let rest := List.filter (fun i => is_some (pl_new_oid (planned !!! i))) accepted in
    '(planned, w, r) ← batch planned w deletions false;
    let '(planned, failed) :=
      match r with
      | inl _ => (planned, None)
      | inr e => (reject_each ("ref update failed: " +:+ failure_text e) planned deletions, Some e)
      end in
    let planned := reject_gated planned gated in
    let rest := List.filter (fun i => is_accepted (planned !!! i)) rest in
    match rest, failed with
    | [], None => Some (planned, w, inl tt)
    | [], Some e => Some (planned, w, inr e)
    | _, failed => batch planned w rest (negb (is_some failed))
    end.
End Writes.

(** ** What git is told *)

(** The ref reads as the push left it: at the pushed tip, or gone. *)
Definition shows (refs : RefList) (dst : string) (new_oid : option Oid) : bool :=
  match new_oid, find_ref refs dst with
  | Some expected, Some (Resolved oid _ _) => oid == expected
  | Some _, _ => false
  | None, None => true
  | None, Some Unborn => true
  | None, Some _ => false
  end.

Definition finalize_one (final_refs : RefList) (dry_run : bool) (p : Planned) : PushOutcome :=
  match pl_reject p with
  | Some why => PushError (pl_dst p) why
  | None =>
    if dry_run then PushOk (pl_dst p)
    else match pl_new_oid p, find_ref final_refs (pl_dst p) with
    | None, None => PushOk (pl_dst p)
    | None, Some Unborn => PushOk (pl_dst p)
    | None, Some _ => PushError (pl_dst p) "delete did not take effect"
    | Some expected, Some (Resolved oid _ _) =>
      if oid == expected then PushOk (pl_dst p) else PushError (pl_dst p) "ref did not converge to pushed tip"
    | Some _, Some (Diverged _) => PushError (pl_dst p) "non-fast-forward (lost concurrent race)"
    | Some _, _ => PushError (pl_dst p) "ref did not converge to pushed tip"
    end
  end.

Definition finalize_outcomes (planned : list Planned) (final_refs : RefList) (dry_run : bool) : list PushOutcome :=
  map (finalize_one final_refs dry_run) planned.

Definition MAX_ATTEMPTS : nat := 6.

Definition converged (expected : list (string * option Oid)) (refs : RefList) : bool :=
  forallb (fun '(dst, want) => shows refs dst want) expected.

(** The attempts left, the reads done, and the last of them. *)
Fixpoint read_again (read : nat -> RefList + Failure) (expected : list (string * option Oid))
    (attempts reads : nat) (last : RefList) : RefList + Failure :=
  match attempts with
  | O => inl last
  | S attempts =>
    if converged expected last || (expected == []) then inl last
    else if attempts =? 0 then inl last
    else match read reads with
    | inl last => read_again read expected attempts (S reads) last
    | inr e => inr e
    end
  end.

(** [read n] is the [n]-th read of the refs. *)
Definition read_refs_until_converged (read : nat -> RefList + Failure) (planned : list Planned) : RefList + Failure :=
  let expected := map (fun p => (pl_dst p, pl_new_oid p)) (List.filter is_accepted planned) in
  match read 0 with
  | inl last => read_again read expected MAX_ATTEMPTS 1 last
  | inr e => inr e
  end.

(** The branches that moved, with their new tips. *)
Definition moved_branches (planned : list Planned) (final_refs : RefList) : list (string * Oid) :=
  omap (fun p =>
    oid ← pl_new_oid p;
    if existsb (fun '(n, st) => (n == pl_dst p) && match st with Resolved got _ _ => got == oid | _ => false end) final_refs
    then Some (pl_dst p, oid) else None) (List.filter is_accepted planned).

(** ** What a batch leaves behind *)

Section Facts.
Context {W : Type} `{!Chain W, !ChainLaws W}.
Context (hex_decode : string -> list byte + string) (hex_encode : list byte -> string).
Context (debug : string -> string).

(** The updates [l] landed in the lane, of those of [us], [rs] being their results in order. *)
Record Wrote (lane : Lane) (w w' : W) (us : list RefWrite) (rs : list WriteResult) (l : list RefWrite) : Prop := {
    wrote_log : log w' = log w ++ map (pair lane) l;
    wrote_only u : u ∈ l -> u ∈ us;
    wrote_ok k u id : us !! k = Some u -> rs !! k = Some (inl id) -> u ∈ l;
    wrote_length : length rs <= length us
  }.

(** The last attempt of a batch that stopped early failed. *)
Definition stopped {A} (us : list A) (rs : list WriteResult) : Prop :=
  length rs < length us -> exists e, last rs = Some (inr e).

Lemma wrote_none lane w us : Wrote lane w w us [] [].
Proof. split; [by rewrite app_nil_r|by intros ? ?%not_elem_of_nil|by intros [|]|simpl; lia]. Qed.

Lemma create_wrote lane w u w' r :
  create lane w u = (w', r) -> exists l, log w' = log w ++ map (pair lane) l /\ (forall v, v ∈ l -> v = u) /\ (is_ok r = true -> u ∈ l).
Proof.
  destruct r as [id|e]; intros H.
  - exists [u]. rewrite (create_ok _ _ _ _ _ H). split_and!; [done|by intros v ?%list_elem_of_singleton|set_solver].
  - destruct (create_err _ _ _ _ _ H) as [-> | ->]; [exists []|exists [u]]; split_and!; try done.
    + by rewrite app_nil_r.
    + by intros v ?%not_elem_of_nil.
    + by intros v ?%list_elem_of_singleton.
Qed.

Lemma wrote_cons lane w w1 w2 u r us rs l1 l2 :
  log w1 = log w ++ map (pair lane) l1 -> (forall v, v ∈ l1 -> v = u) -> (is_ok r = true -> u ∈ l1) ->
  Wrote lane w1 w2 us rs l2 -> Wrote lane w w2 (u :: us) (r :: rs) (l1 ++ l2).
Proof.
  intros H1 Ho Hr [Hl Hi Hk Hn]. split.
  - by rewrite Hl, H1, map_app, app_assoc.
  - intros v [->%Ho|?%Hi]%elem_of_app; [left|by right].
  - intros [|k] v id; simpl.
    + intros [= <-] [= ->]. apply elem_of_app. left. by apply Hr.
    + intros Hu Hrk. apply elem_of_app. right. by eapply Hk.
  - simpl. lia.
Qed.

Lemma write_every_wrote lane w us :
  exists l, Wrote lane w (write_every lane w us).1 us (write_every lane w us).2 l
  /\ length (write_every lane w us).2 = length us.
Proof.
  revert w. induction us as [|u us IH]; intros w; simpl; [by exists []; split; [apply wrote_none|]|].
  destruct (create lane w u) as [w1 r] eqn:Ec. apply create_wrote in Ec as (l1 & H1 & Ho & Hr).
  destruct (IH w1) as (l2 & Hw & Hlen). destruct (write_every lane w1 us) as [w2 rs]. simpl in *.
  exists (l1 ++ l2). split; [by eapply wrote_cons|]. lia.
Qed.

Lemma write_until_failure_wrote w us :
  exists l, Wrote PublicLane w (write_until_failure w us).1 us (write_until_failure w us).2 l
  /\ stopped us (write_until_failure w us).2 /\ (us <> [] -> (write_until_failure w us).2 <> []).
Proof.
  revert w. induction us as [|u us IH]; intros w; simpl.
  { exists []. split_and!; [apply wrote_none|intros H; simpl in H; lia|done]. }
  destruct (create PublicLane w u) as [w1 r] eqn:Ec. apply create_wrote in Ec as (l1 & H1 & Ho & Hr).
  destruct (is_ok r) eqn:Er.
  - destruct (IH w1) as (l2 & Hw & Hs & _). destruct (write_until_failure w1 us) as [w2 rs]. simpl in *.
    exists (l1 ++ l2). split_and!; [eapply wrote_cons; [exact H1|exact Ho|intros _; by apply Hr|exact Hw]| |done]. unfold stopped in *. cbn [length]. intros H.
    destruct Hs as [e He]; [lia|]. exists e. rewrite last_cons, He. done.
  - simpl. exists l1. split_and!; [| |done].
    + rewrite <-(app_nil_r l1). eapply wrote_cons; [exact H1|exact Ho|by rewrite Er|]. destruct (wrote_none PublicLane w1 us). by split.
    + intros _. destruct r as [|e]; [done|]. by exists e.
Qed.

(** A batch of the service. *)
Lemma service_wrote private w us :
  match service_write_ref_updates debug private w us with
  | (w', inl rs) => exists l, Wrote PublicLane w w' us rs l /\ stopped us rs /\ (us <> [] -> rs <> [])
  | (w', inr _) => w' = w
  end.
Proof.
  unfold service_write_ref_updates, write_prepared. destruct (check_all _ us); [done|]. destruct (_ || _).
  - pose proof (write_until_failure_wrote w us) as H. by destruct (write_until_failure w us).
  - destruct (prepare PublicLane w); [done|]. destruct (write_every_wrote PublicLane w us) as (l & Hw & Hlen).
    destruct (write_every PublicLane w us) as [w' rs]. exists l. split_and!; [done|intros H; simpl in *; lia|].
    intros Hne ->. by destruct us.
Qed.

Lemma lane_wrote lane w us :
  match write_prepared lane w us with
  | (w', inl rs) => exists l, Wrote lane w w' us rs l /\ length rs = length us
  | (w', inr _) => w' = w
  end.
Proof.
  unfold write_prepared. destruct (prepare lane w); [done|]. pose proof (write_every_wrote lane w us) as H.
  by destruct (write_every lane w us).
Qed.

(** *** One result per ref *)

Abbreviation planned_writes := (planned_writes hex_decode debug).
Abbreviation ref_writes := (ref_writes hex_decode debug).
Abbreviation ref_writes_from := (ref_writes_from hex_decode debug).
Abbreviation per_ref := (per_ref hex_encode).
Abbreviation per_ref_from := (per_ref_from hex_encode).
Abbreviation partly_written := (partly_written hex_encode).

(** The result of a ref: its own update's, or the first failure of those that settle heads. *)
Fixpoint merge (last : WriteResult) (us : list RefWrite) (rs : list WriteResult) : WriteResult :=
  match us, rs with
  | u :: us, r :: rs =>
    merge match last, r with inl _, inr e => inr (partly_written (rw_prev_oid u) e) | _, _ => last end us rs
  | _, _ => last
  end.

(** Each group of writes takes its results, until none are left. *)
Fixpoint group_results (groups : list (list RefWrite)) (rs : list WriteResult) : list WriteResult :=
  match groups, rs with
  | (_ :: us) :: groups, r :: rs => merge r us rs :: group_results groups (drop (length us) rs)
  | _, _ => []
  end.

(** The position of each write's ref. *)
Fixpoint tags (at_ : nat) (groups : list (list RefWrite)) : list nat :=
  match groups with
  | [] => []
  | g :: groups => repeat at_ (length g) ++ tags (S at_) groups
  end.

Lemma prev_writes_facts dst oid force prevs ws :
  prev_writes hex_decode debug dst oid force prevs = inl ws ->
  length ws = length prevs /\ forall u, u ∈ ws -> rw_ref_name u = dst /\ rw_new_oid u = oid.
Proof.
  revert ws. induction prevs as [|p prevs IH]; intros ws; simpl; [intros [= <-]; split; [done|by intros ? ?%not_elem_of_nil]|].
  destruct (opt_bytes _ _ p); [|done]. destruct (prev_writes _ _ _ _ _ prevs) as [l|]; [|done]. intros [= <-].
  destruct (IH l eq_refl) as [Hl Hu]. split; [simpl; lia|]. intros u [->|?]%elem_of_cons; auto.
Qed.

Lemma planned_writes_facts p ws :
  planned_writes p = inl ws ->
  length ws = writes p /\ (forall u, u ∈ ws -> rw_ref_name u = pl_dst p)
  /\ (pl_new_oid p = None -> forall u, u ∈ ws -> rw_new_oid u = repeat (byte_of 0) 20).
Proof.
  unfold PushWrites.planned_writes. destruct (match pl_new_oid p with Some _ => _ | None => _ end) as [oid|e] eqn:E; [|done].
  intros [Hl Hu]%prev_writes_facts. simpl in Hl. rewrite length_map in Hl. split_and!; [done|intros u Hin; by apply Hu|].
  intros Hn u Hin. rewrite Hn in E. injection E as <-. by apply Hu.
Qed.

Lemma ref_writes_groups at_ planned accepted ws :
  ref_writes_from at_ planned accepted = inl ws ->
  exists groups, Forall2 (fun i g => planned_writes (planned !!! i) = inl g /\ g <> []) accepted groups
  /\ ws_writes ws = concat groups /\ ws_of ws = tags at_ groups.
Proof.
  revert at_ ws. induction accepted as [|i accepted IH]; intros at_ ws; simpl.
  { intros [= <-]. exists []. by split_and!; [constructor|..]. }
  destruct (planned_writes (planned !!! i)) as [g|] eqn:Eg; [|done].
  destruct (ref_writes_from (S at_) planned accepted) as [rest|] eqn:Er; [|done]. intros [= <-].
  destruct (IH _ _ Er) as (groups & Hf & Hw & Ho). exists (g :: groups). simpl. rewrite Hw, Ho. split_and!; [|done..].
  constructor; [|done]. split; [done|]. intros ->. apply planned_writes_facts in Eg as [Hl _]. done.
Qed.

Lemma per_ref_tail w k us rs out last landed :
  (0 < k) -> (forall j, j <= length us -> nth (k + j - 1) (ws_of w) 0 = nth (k - 1) (ws_of w) 0) ->
  (forall j u, us !! j = Some u -> ws_writes w !! (k + j) = Some u) ->
  per_ref_from w k rs (mkPerRef (out ++ [last]) landed)
  = per_ref_from w (k + length us) (drop (length us) rs)
      (mkPerRef (out ++ [merge last us rs]) (landed || existsb is_ok (take (length us) rs))).
Proof.
  revert k rs last landed. induction us as [|u us IH]; intros k rs last landed Hk Hof Hw.
  { simpl. by rewrite Nat.add_0_r, orb_false_r. }
  destruct rs as [|r rs]; [simpl; by rewrite orb_false_r|]. cbn [PushWrites.per_ref_from drop length take existsb merge].
  assert (is_own w k = false) as Ho.
  { unfold is_own. rewrite (proj2 (Nat.eqb_neq k 0)) by lia. simpl. apply negb_false_iff, Nat.eqb_eq.
    rewrite <-(Hof 1) by (simpl; lia). f_equal. lia. }
  assert (ws_writes w !! k = Some u) as Hu by (rewrite <-(Nat.add_0_r k); by apply Hw).
  unfold per_ref_step. cbn [pr_results pr_landed]. rewrite last_snoc, Ho, orb_assoc.
  replace (k + S (length us)) with (S k + length us) by lia.
  assert (forall l', per_ref_from w (S k) rs (mkPerRef (out ++ [l']) (landed || is_ok r))
    = per_ref_from w (S k + length us) (drop (length us) rs)
        (mkPerRef (out ++ [merge l' us rs]) (landed || is_ok r || existsb is_ok (take (length us) rs)))) as Hgo.
  { intros l'. apply IH; [lia| |].
    - intros j Hj. replace (S k + j - 1) with (k + S j - 1) by lia. rewrite Hof by (simpl; lia).
      rewrite <-(Hof 1) by (simpl; lia). f_equal. lia.
    - intros j v Hv. replace (S k + j) with (k + S j) by lia. by apply Hw. }
  rewrite Hu. cbn [option_bind mbind]. destruct last as [id|e], r as [id'|e'].
  all: try apply Hgo. rewrite removelast_last. apply Hgo.
Qed.

Lemma nth_group (pre : list nat) a n rest j : j < n -> nth (length pre + j) (pre ++ repeat a n ++ rest) 0 = a.
Proof.
  intros Hj. rewrite app_nth2_plus, app_nth1 by (by rewrite repeat_length). by apply nth_repeat_lt.
Qed.

Lemma per_ref_groups w pre_of pre_w at_ groups rs out landed :
  ws_of w = pre_of ++ tags at_ groups -> Forall (fun a => a < at_) pre_of ->
  ws_writes w = pre_w ++ concat groups -> length pre_w = length pre_of ->
  Forall (fun g => g <> []) groups -> length rs <= length (concat groups) ->
  per_ref_from w (length pre_of) rs (mkPerRef out landed)
  = mkPerRef (out ++ group_results groups rs) (landed || existsb is_ok rs).
Proof.
  revert pre_of pre_w at_ rs out landed. induction groups as [|g groups IH]; intros pre_of pre_w at_ rs out landed Hof Hlt Hw Hpre Hne Hlen.
  { destruct rs; [|simpl in Hlen; lia]. simpl. by rewrite app_nil_r, orb_false_r. }
  inversion Hne as [|? ? Hg Hne']; subst. destruct g as [|u us]; [done|].
  destruct rs as [|r rs]; [simpl; by rewrite app_nil_r, orb_false_r|]. cbn [PushWrites.per_ref_from group_results existsb].
  set (k := length pre_of) in *. simpl in Hof, Hw. rewrite concat_cons in Hlen. simpl in Hlen. rewrite length_app in Hlen.
  assert (is_own w k = true) as Hown.
  { unfold is_own. destruct (Nat.eqb_spec k 0) as [|Hk]; [done|]. simpl. apply negb_true_iff, Nat.eqb_neq.
    rewrite Hof. rewrite (app_nth1 pre_of) by (unfold k in *; lia).
    pose proof (nth_group pre_of at_ (S (length us)) (tags (S at_) groups) 0 ltac:(lia)) as Hn.
    rewrite Nat.add_0_r in Hn. simpl in Hn. fold k in Hn. rewrite Hn.
    assert (nth (k - 1) pre_of 0 ∈ pre_of) as Hin by (rewrite list_elem_of_In; apply nth_In; unfold k in *; lia).
    rewrite Forall_forall in Hlt. specialize (Hlt _ Hin). lia. }
  assert (per_ref_step hex_encode w k r out = out ++ [r]) as Hstep.
  { unfold per_ref_step. destruct (list.last out); [by rewrite Hown|done]. }
  cbn [pr_results pr_landed]. rewrite Hstep.
  rewrite (per_ref_tail w (S k) us rs out r).
  - specialize (IH (pre_of ++ repeat at_ (S (length us))) (pre_w ++ u :: us) (S at_) (drop (length us) rs)
      (out ++ [merge r us rs]) (landed || is_ok r || existsb is_ok (take (length us) rs))).
    assert (length (pre_of ++ repeat at_ (S (length us))) = S k + length us) as Hl.
    { rewrite length_app, repeat_length. unfold k. lia. }
    rewrite Hl in IH. rewrite IH.
    + rewrite <-!app_assoc. f_equal. rewrite <-!orb_assoc. do 2 f_equal. by rewrite <-existsb_app, take_drop.
    + rewrite Hof. by rewrite <-app_assoc.
    + apply Forall_app. split; [eapply Forall_impl; [exact Hlt|simpl; lia]|]. apply Forall_forall. intros a Ha%list_elem_of_In%repeat_spec. lia.
    + by rewrite Hw, <-app_assoc.
    + rewrite length_app. simpl. unfold k in *. lia.
    + done.
    + rewrite length_drop. lia.
  - lia.
  - intros j Hj. rewrite Hof. replace (S k + j - 1) with (k + j) by lia. replace (S k - 1) with (k + 0) by lia.
    change (at_ :: repeat at_ (length us) ++ tags (S at_) groups) with (repeat at_ (S (length us)) ++ tags (S at_) groups).
    unfold k. by rewrite !nth_group by lia.
  - intros j v Hv. rewrite Hw. rewrite lookup_app_r by lia. replace (S k + j - length pre_w) with (S j) by (unfold k in *; lia).
    simpl. apply lookup_app_l_Some. done.
Qed.

(** A push's results are told apart by ref: with the writes of a batch in order, and the
    results of as many as were attempted, each ref gets one result, its own update's unless
    one that settles another head failed, and a ref none of whose writes was attempted gets
    none; the batch has landed something exactly when some write succeeded. *)
Theorem per_ref_spec planned accepted ws rs :
  ref_writes planned accepted = inl ws -> length rs <= length (ws_writes ws) ->
  exists groups,
    Forall2 (fun i g => planned_writes (planned !!! i) = inl g /\ g <> []) accepted groups
    /\ ws_writes ws = concat groups
    /\ per_ref ws rs = mkPerRef (group_results groups rs) (existsb is_ok rs).
Proof.
  intros (groups & Hf & Hw & Ho)%ref_writes_groups Hlen. exists groups. split_and!; [done..|].
  unfold PushWrites.per_ref. apply (per_ref_groups ws [] [] 0 groups); simpl; try done.
  - clear -Hf. induction Hf as [|i g l k []]; constructor; naive_solver.
  - by rewrite <-Hw.
Qed.

Lemma merge_ok first us rs id :
  merge first us rs = inl id -> first = inl id /\ forall k r, k < length us -> rs !! k = Some r -> is_ok r = true.
Proof.
  revert first rs. induction us as [|u us IH]; intros first rs; simpl; [intros ->; split; [done|lia]|].
  destruct rs as [|r rs]; [intros ->; by split|]. intros [Hf Hk]%IH.
  destruct first as [i|e]; [|done]. destruct r as [i'|e']; [|done]. split; [done|].
  intros [|k] r Hlt; simpl; [by intros [= <-]|]. apply Hk. lia.
Qed.

Lemma group_landed groups rs (l : list RefWrite) :
  (forall k u id, concat groups !! k = Some u -> rs !! k = Some (inl id) -> u ∈ l) ->
  (rs <> [] -> stopped (concat groups) rs) ->
  forall j g id, groups !! j = Some g -> group_results groups rs !! j = Some (inl id) -> forall u, u ∈ g -> u ∈ l.
Proof.
  revert rs. induction groups as [|[|v us] groups IH]; intros rs Hok Hst j g id Hg Hr; [done| |].
  { destruct j; done. }
  destruct rs as [|r rs]; [destruct j; done|]. cbn [group_results] in Hr. destruct j as [|j]; simpl in Hg, Hr.
  - injection Hg as <-. injection Hr as Hm. apply merge_ok in Hm as [-> Hk]. intros u [k Hu]%list_elem_of_lookup.
    assert (length us <= length rs) as Hlen.
    { apply Nat.nlt_ge. intros Hlt. destruct (Hst ltac:(done)) as [e He]; [simpl; rewrite length_app; lia|].
      rewrite last_cons in He. destruct (list.last rs) as [y|] eqn:El; [|done]. rewrite last_lookup in El.
      injection He as ->. assert (pred (length rs) < length us) as Hp by (destruct rs; simpl in *; [done|lia]).
      by pose proof (Hk _ _ Hp El). }
    destruct k as [|k]; simpl in Hu.
    + injection Hu as <-. by apply (Hok 0 v id).
    + assert (k < length us) as Hlt by by eapply lookup_lt_Some.
      destruct (lookup_lt_is_Some_2 rs k) as [r Hr]; [lia|]. pose proof (Hk k r Hlt Hr) as Hrok. destruct r as [id'|]; [|done].
      apply (Hok (S k) u id'); [|done]. simpl. by apply lookup_app_l_Some.
  - apply (IH (drop (length us) rs)) with (j := j) (id := id); [..|done|done].
    + intros k u id' Hu Hd. rewrite lookup_drop in Hd. apply (Hok (S (length us + k)) u id'); [|done]. simpl.
      rewrite lookup_app_r by lia. by replace (length us + k - length us) with k by lia.
    + intros Hne Hlt. destruct (Hst ltac:(done)) as [e He].
      { simpl. rewrite length_app. rewrite length_drop in Hlt. destruct (drop (length us) rs) eqn:Ed; [done|].
        assert (length us < length rs); [|lia]. apply Nat.nle_gt. intros Hle. by rewrite drop_ge in Ed. }
      exists e. rewrite <-He. rewrite <-(take_drop (length us) rs) at 2. rewrite last_cons, last_app.
      destruct (list.last (drop (length us) rs)) eqn:Ed; [done|]. by apply last_None in Ed.
Qed.

Lemma group_results_length groups rs : length (group_results groups rs) <= length groups.
Proof.
  revert rs. induction groups as [|[|u us] groups IH]; intros rs; simpl; [lia..|]. destruct rs; simpl; [lia|]. specialize (IH (drop (length us) rs)). lia.
Qed.

Lemma group_results_full groups rs :
  Forall (fun g => g <> []) groups -> length rs = length (concat groups) -> length (group_results groups rs) = length groups.
Proof.
  intros Hne. revert rs. induction Hne as [|g groups Hg _ IH]; intros rs Hlen; [done|]. destruct g as [|u us]; [done|].
  simpl in Hlen. destruct rs as [|r rs]; [done|]. simpl in *. rewrite IH; [done|]. rewrite length_drop. rewrite length_app in Hlen. lia.
Qed.

Lemma group_results_nil groups rs : group_results groups rs = [] -> Forall (fun g => g <> []) groups -> groups = [] \/ rs = [].
Proof. destruct groups as [|[|u us] groups]; [by left| |]; intros H Hf; [by inversion Hf|]. destruct rs; [by right|done]. Qed.

(** ** One lane's batch *)

(** The lane of a ref's audience. *)
Definition lane_of (p : Planned) : Lane :=
  match pl_audience p with Public => PublicLane | Members => MembersLane | Narrower _ => BranchLane end.

(** All the writes of a ref are among [l], in its lane. *)
Definition all_written (l : list (Lane * RefWrite)) (p : Planned) : Prop :=
  exists ws, planned_writes p = inl ws /\ forall u, u ∈ ws -> (lane_of p, u) ∈ l.

(** [l] holds only writes of the refs, each in the lane of its ref. *)
Definition only_of (planned : list Planned) (refs : list nat) (l : list (Lane * RefWrite)) : Prop :=
  forall lane u, (lane, u) ∈ l ->
    exists i ws, (i ∈ refs) /\ planned_writes (planned !!! i) = inl ws /\ (u ∈ ws) /\ lane = lane_of (planned !!! i).

(** Between [w] and [w'] only writes of the refs landed, and the refs whose result is an id
    have all theirs. *)
Definition Batch (w w' : W) (planned : list Planned) (refs : list nat) (rs : list WriteResult) : Prop :=
  exists l, log w' = log w ++ l /\ only_of planned refs l
  /\ forall j i id, refs !! j = Some i -> rs !! j = Some (inl id) -> all_written l (planned !!! i).

Lemma only_nil planned refs : only_of planned refs [].
Proof. by intros ? ? ?%not_elem_of_nil. Qed.

Lemma batch_none w planned refs rs : (forall r, r ∈ rs -> is_ok r = false) -> Batch w w planned refs rs.
Proof.
  intros H. exists []. split_and!; [by rewrite app_nil_r|apply only_nil|].
  intros j i id _ Hr%list_elem_of_lookup_2. by apply H in Hr.
Qed.

(** The results of the service, told apart by ref. *)
Lemma per_ref_batch lane w w' planned refs ws rs l :
  (forall i, i ∈ refs -> lane_of (planned !!! i) = lane) ->
  ref_writes planned refs = inl ws -> Wrote lane w w' (ws_writes ws) rs l -> stopped (ws_writes ws) rs ->
  Batch w w' planned refs (pr_results (per_ref ws rs))
  /\ length (pr_results (per_ref ws rs)) <= length refs
  /\ (length rs = length (ws_writes ws) -> length (pr_results (per_ref ws rs)) = length refs)
  /\ (refs <> [] -> rs <> [] -> pr_results (per_ref ws rs) <> []).
Proof.
  intros Hlane Hrw [Hlog Honly Hok Hlen] Hst. pose proof Hrw as (groups & Hf & Hw & Ho)%ref_writes_groups.
  assert (Forall (fun g => g <> []) groups) as Hne by (clear -Hf; induction Hf as [|i g m k []]; constructor; naive_solver).
  assert (per_ref ws rs = mkPerRef (group_results groups rs) (existsb is_ok rs)) as ->.
  { unfold PushWrites.per_ref. apply (per_ref_groups ws [] [] 0 groups); simpl; try done. by rewrite <-Hw. }
  simpl. pose proof (Forall2_length _ _ _ Hf) as Hfl. rewrite Hw in *. split_and!.
  - exists (map (pair lane) l). split_and!; [done| |].
    + intros lane' u Hu. apply list_elem_of_In, in_map_iff in Hu as (? & [= <- ->] & Hu%list_elem_of_In%Honly). apply list_elem_of_In, in_concat in Hu as (g & Hg & Hu). apply list_elem_of_In, list_elem_of_lookup in Hg as [j Hj].
      eapply Forall2_lookup_r in Hf as (i & Hi & Hgw & _); [|exact Hj]. exists i, g.
      apply list_elem_of_lookup_2 in Hi. split_and!; [done..|by apply list_elem_of_In|by rewrite Hlane].
    + intros j i id Hi Hr. eapply Forall2_lookup_l in Hf as (g & Hg & Hgw & _); [|exact Hi].
      exists g. split; [done|]. intros u Hu. rewrite Hlane by by eapply list_elem_of_lookup_2.
      apply list_elem_of_In, in_map, list_elem_of_In. revert u Hu. eapply group_landed; [exact Hok|by intros _|exact Hg|exact Hr].
  - rewrite Hfl. apply group_results_length.
  - intros Hl. rewrite Hfl. by apply group_results_full.
  - intros Hrefs Hrs Hnil. destruct (group_results_nil _ _ Hnil Hne) as [->|]; [by destruct refs|done].
Qed.

Lemma fail_all_batch why w planned refs :
  Batch w w planned refs (pr_results (fail_all why refs)) /\ length (pr_results (fail_all why refs)) = length refs.
Proof.
  simpl. rewrite length_map. split; [|done]. apply batch_none. intros r Hr. apply list_elem_of_In, in_map_iff in Hr as (i & <- & _). done.
Qed.

Lemma lane_writes_batch at_ write planned w refs :
  (forall i, i ∈ refs -> lane_of (planned !!! i) = at_) ->
  (forall us, match write w us with
     | (w', inl rs) => exists l, Wrote at_ w w' us rs l /\ length rs = length us
     | (w', inr _) => w' = w
     end) ->
  let '(w', out) := lane_writes hex_decode hex_encode debug write planned w refs in
  Batch w w' planned refs (pr_results out) /\ length (pr_results out) = length refs.
Proof.
  intros Hlane Hw. unfold lane_writes. destruct (ref_writes planned refs) as [ws|e] eqn:Er; [|apply fail_all_batch].
  specialize (Hw (ws_writes ws)). destruct (write w (ws_writes ws)) as [w' [rs|e]]; [|subst; apply fail_all_batch].
  destruct Hw as (l & Hw & Hlen). destruct (per_ref_batch at_ w w' planned refs ws rs l) as (Hb & _ & Hfull & _); [done..| |].
  - intros H. lia.
  - by split; [|apply Hfull].
Qed.

Context (private : bool) (repo_display : string) (lane : bool) (ring : option (string -> bool)).
Abbreviation members_batch := (members_batch hex_decode hex_encode debug private repo_display lane ring).
Abbreviation lane_batch := (lane_batch hex_decode hex_encode debug private repo_display lane).
Abbreviation branch_batch := (branch_batch hex_decode hex_encode debug private repo_display ring).

Lemma lane_batch_spec planned w refs :
  (forall i, i ∈ refs -> lane_of (planned !!! i) = MembersLane) ->
  let '(w', out) := lane_batch planned w refs in
  Batch w w' planned refs (pr_results out) /\ length (pr_results out) = length refs.
Proof.
  intros Hlane. unfold PushWrites.lane_batch. destruct lane; [|apply fail_all_batch].
  apply (lane_writes_batch MembersLane); [done|]. intros us.
  unfold write_members_ref_updates. destruct (require_public _ _ _); [done|]. destruct (check_all _ us); [done|]. apply lane_wrote.
Qed.

Lemma branch_batch_spec planned w refs :
  (forall i, i ∈ refs -> lane_of (planned !!! i) = BranchLane) ->
  let '(w', out) := branch_batch planned w refs in
  Batch w w' planned refs (pr_results out) /\ length (pr_results out) = length refs.
Proof.
  intros Hlane. unfold PushWrites.branch_batch. destruct ring as [has_key|]; [|apply fail_all_batch].
  apply (lane_writes_batch BranchLane); [done|]. intros us.
  unfold write_branch_ref_updates. destruct (require_public _ _ _); [done|]. destruct (check_all _ us); [done|]. apply lane_wrote.
Qed.

Lemma insert_results_lookup refs (rs : list WriteResult) m :
  NoDup refs -> length rs = length refs ->
  (forall j i, refs !! j = Some i -> insert_results refs rs m !! i = rs !! j)
  /\ (forall i, i ∉ refs -> insert_results refs rs m !! i = m !! i).
Proof.
  unfold insert_results. revert rs m. induction refs as [|i refs IH]; intros rs m Hnd Hlen; [by split; [intros [|]|]|].
  destruct rs as [|r rs]; [done|]. apply NoDup_cons in Hnd as [Hi Hnd]. simpl.
  destruct (IH rs (<[i:=r]> m)) as [Hin Hout]; [done|simpl in *; lia|]. split.
  - intros [|j] k; simpl; [|apply Hin]. intros [= ->]. by rewrite Hout, lookup_insert_eq.
  - intros k [Hne Hk]%not_elem_of_cons. by rewrite Hout, lookup_insert_ne.
Qed.

Lemma take_results_lookup (m : gmap nat WriteResult) refs :
  NoDup refs -> (forall i, i ∈ refs -> is_Some (m !! i)) ->
  exists rs, take_results m refs = Some rs /\ Forall2 (fun i r => m !! i = Some r) refs rs.
Proof.
  revert m. induction refs as [|i refs IH]; intros m Hnd Hm; [exists []; by split; [|constructor]|].
  apply NoDup_cons in Hnd as [Hi Hnd]. destruct (Hm i ltac:(left)) as [r Hr]. destruct (IH (delete i m)) as (rs & Hrs & Hf); [done| |].
  { intros k Hk. rewrite lookup_delete_ne by congruence. apply Hm. by right. }
  exists (r :: rs). simpl. rewrite Hr. simpl. rewrite Hrs. split; [done|]. constructor; [done|].
  clear -Hf Hi. induction Hf as [|k r' refs rs Hk Hf IH]; constructor; [|apply IH; set_solver].
  rewrite lookup_delete_ne in Hk; [done|set_solver].
Qed.

Lemma batch_weaken w w' planned refs refs' rs :
  (forall i, i ∈ refs -> i ∈ refs') -> Batch w w' planned refs rs ->
  exists l, log w' = log w ++ l /\ only_of planned refs' l
    /\ forall j i id, refs !! j = Some i -> rs !! j = Some (inl id) -> all_written l (planned !!! i).
Proof.
  intros Hsub (l & Hl & Ho & Hk). exists l. split_and!; [done| |done]. intros at_ u Hu. destruct (Ho at_ u Hu) as (i & ws & ? & ? & ?).
  exists i, ws. auto.
Qed.

Lemma all_written_app l1 l2 p : all_written l1 p \/ all_written l2 p -> all_written (l1 ++ l2) p.
Proof. intros [(ws & ? & Hu)|(ws & ? & Hu)]; exists ws; (split; [done|]); intros u ?%Hu; apply elem_of_app; auto. Qed.

Lemma only_of_app planned refs l1 l2 : only_of planned refs l1 -> only_of planned refs l2 -> only_of planned refs (l1 ++ l2).
Proof. intros H1 H2 at_ u [?|?]%elem_of_app; auto. Qed.

Lemma narrow_lane p : narrower p = true -> lane_of p = BranchLane.
Proof. unfold narrower, lane_of. by destruct (pl_audience p). Qed.

Lemma plain_lane p : sealed p = true -> narrower p = false -> lane_of p = MembersLane.
Proof. unfold sealed, narrower, lane_of. by destruct (pl_audience p). Qed.

Lemma public_lane p : sealed p = false -> lane_of p = PublicLane.
Proof. unfold sealed, lane_of. by destruct (pl_audience p). Qed.

(** The sealed refs: every one gets its result, whichever lane wrote it, so none is missing. *)
Lemma members_batch_spec planned w refs :
  NoDup refs -> (forall i, i ∈ refs -> sealed (planned !!! i) = true) ->
  exists w' out, members_batch planned w refs = (w', Some out)
  /\ Batch w w' planned refs (pr_results out) /\ length (pr_results out) = length refs.
Proof.
  intros Hnd Hsealed. unfold PushWrites.members_batch.
  set (narrow := List.filter (fun i => narrower (planned !!! i)) refs).
  set (plain := List.filter (fun i => negb (narrower (planned !!! i))) refs).
  assert (forall i, i ∈ narrow <-> (i ∈ refs) /\ narrower (planned !!! i) = true) as Hn by (intros i; unfold narrow; by rewrite list_elem_of_In, filter_In, <-list_elem_of_In).
  assert (forall i, i ∈ plain <-> (i ∈ refs) /\ narrower (planned !!! i) = false) as Hp.
  { intros i. unfold plain. by rewrite list_elem_of_In, filter_In, <-list_elem_of_In, negb_true_iff. }
  assert (NoDup narrow) as Hnn by (eapply sublist_NoDup; [exact Hnd|apply filter_sublist]).
  assert (NoDup plain) as Hnp by (eapply sublist_NoDup; [exact Hnd|apply filter_sublist]).
  assert (exists w1 m1 b1 l1, (if plain == [] then (w, ∅, false)
      else let '(w, out) := lane_batch planned w plain in (w, insert_results plain (pr_results out) ∅, pr_landed out)) = (w1, m1, b1)
    /\ log w1 = log w ++ l1 /\ only_of planned refs l1
    /\ forall i, i ∈ plain -> exists r, m1 !! i = Some r /\ (is_ok r = true -> all_written l1 (planned !!! i)))
    as (w1 & m1 & b1 & l1 & -> & Hl1 & Ho1 & Hk1).
  { case_bool_decide as E.
    - exists w, ∅, false, []. rewrite E, app_nil_r. split_and!; [done..|apply only_nil|by intros ? ?%not_elem_of_nil].
    - pose proof (lane_batch_spec planned w plain ltac:(intros i [Hi Hn']%Hp; by apply plain_lane; [apply Hsealed|])) as Hs. destruct (lane_batch planned w plain) as [w1 out].
      destruct Hs as [Hb Hlen]. apply (batch_weaken _ _ _ _ refs) in Hb as (l1 & ? & ? & Hk); [|intros i; rewrite Hp; tauto].
      eexists w1, _, _, l1. split_and!; [done..|]. intros i [j Hj]%list_elem_of_lookup.
      destruct (insert_results_lookup plain (pr_results out) ∅ Hnp Hlen) as [Hin _]. rewrite (Hin _ _ Hj).
      destruct (lookup_lt_is_Some_2 (pr_results out) j) as [r Hr]; [rewrite Hlen; by eapply lookup_lt_Some|].
      exists r. split; [done|]. intros Hok. destruct r as [id|]; [|done]. by eapply Hk. }
  assert (exists w2 m2 b2 l2, (if narrow == [] then (w1, m1, b1)
      else let '(w, out) := branch_batch planned w1 narrow in (w, insert_results narrow (pr_results out) m1, b1 || pr_landed out)) = (w2, m2, b2)
    /\ log w2 = log w1 ++ l2 /\ only_of planned refs l2
    /\ forall i, i ∈ refs -> exists r, m2 !! i = Some r /\ (is_ok r = true -> all_written (l1 ++ l2) (planned !!! i)))
    as (w2 & m2 & b2 & l2 & -> & Hl2 & Ho2 & Hk2).
  { assert (forall i, i ∈ refs -> i ∉ narrow -> exists r, m1 !! i = Some r /\ (is_ok r = true -> all_written l1 (planned !!! i))) as Hrest.
    { intros i Hi Hni. apply Hk1, Hp. split; [done|]. destruct (narrower _) eqn:E; [|done]. by destruct Hni; apply Hn. }
    case_bool_decide as E.
    - exists w1, m1, b1, []. rewrite !app_nil_r. split_and!; [done..|apply only_nil|].
      intros i Hi. apply Hrest; [done|]. rewrite E. by intros ?%not_elem_of_nil.
    - pose proof (branch_batch_spec planned w1 narrow ltac:(intros i [_ Hi]%Hn; by apply narrow_lane)) as Hs. destruct (branch_batch planned w1 narrow) as [w2 out].
      destruct Hs as [Hb Hlen]. apply (batch_weaken _ _ _ _ refs) in Hb as (l2 & ? & ? & Hk); [|intros i; rewrite Hn; tauto].
      destruct (insert_results_lookup narrow (pr_results out) m1 Hnn Hlen) as [Hin Hout].
      eexists w2, _, _, l2. split_and!; [done..|]. intros i Hi. destruct (decide (i ∈ narrow)) as [[j Hj]%list_elem_of_lookup|Hni].
      + rewrite (Hin _ _ Hj). destruct (lookup_lt_is_Some_2 (pr_results out) j) as [r Hr]; [rewrite Hlen; by eapply lookup_lt_Some|].
        exists r. split; [done|]. intros Hok. destruct r as [id|]; [|done]. apply all_written_app. right. by eapply Hk.
      + rewrite Hout by done. destruct (Hrest i Hi Hni) as (r & Hr & Hok). exists r. split; [done|]. intros ?. apply all_written_app. auto. }
  destruct (take_results_lookup m2 refs Hnd) as (rs & Hrs & Hf). { intros i Hi. destruct (Hk2 i Hi) as (r & -> & _). by eexists. }
  exists w2, (mkPerRef rs b2). rewrite Hrs. split_and!; [done| |by rewrite (Forall2_length _ _ _ Hf)].
  exists (l1 ++ l2). rewrite Hl2, Hl1, app_assoc. split_and!; [done|by apply only_of_app|].
  intros j i id Hi Hr. eapply Forall2_lookup_lr in Hf; [|exact Hi|exact Hr].
  destruct (Hk2 i) as (r & Hr' & Hok); [by eapply list_elem_of_lookup_2|]. apply Hok. by simplify_eq.
Qed.

(** ** The plan after a batch *)

(** The plan is the same but for refusals of some of the refs. *)
Definition rejects_only (refs : list nat) (planned planned' : list Planned) : Prop :=
  length planned' = length planned
  /\ forall i, planned' !!! i = planned !!! i \/ (i ∈ refs) /\ exists why, planned' !!! i = set_reject why (planned !!! i).

Lemma rejects_only_refl refs planned : rejects_only refs planned planned.
Proof. split; [done|]. by left. Qed.

Lemma rejects_only_trans refs p1 p2 p3 : rejects_only refs p1 p2 -> rejects_only refs p2 p3 -> rejects_only refs p1 p3.
Proof.
  intros [Hl1 H1] [Hl2 H2]. split; [congruence|]. intros i. destruct (H2 i) as [->|(Hi & why & ->)]; [apply H1|].
  right. split; [done|]. exists why. by destruct (H1 i) as [->|(_ & why' & ->)].
Qed.

Lemma rejects_only_weaken refs refs' p1 p2 : (forall i, i ∈ refs -> i ∈ refs') -> rejects_only refs p1 p2 -> rejects_only refs' p1 p2.
Proof. intros Hs [Hl H]. split; [done|]. intros i. destruct (H i) as [?|[? ?]]; [by left|right; auto]. Qed.

Lemma lookup_total_alter_reject why i (planned : list Planned) :
  i < length planned -> alter (set_reject why) i planned !!! i = set_reject why (planned !!! i).
Proof.
  intros Hi. destruct (lookup_lt_is_Some_2 planned i Hi) as [p Hp]. rewrite !list_lookup_total_alt, list_lookup_alter_eq, Hp. done.
Qed.

Lemma lookup_total_alter_other why i j (planned : list Planned) : i <> j -> alter (set_reject why) i planned !!! j = planned !!! j.
Proof. intros Hne. by rewrite !list_lookup_total_alt, list_lookup_alter_ne. Qed.

Lemma rejects_alter why i planned : rejects_only [i] planned (alter (set_reject why) i planned).
Proof.
  split; [by rewrite length_alter|]. intros j. destruct (decide (i = j)) as [<-|Hne].
  - destruct (decide (i < length planned)) as [Hi|Hi].
    + right. split; [left|]. exists why. by apply lookup_total_alter_reject.
    + left. rewrite !list_lookup_total_alt. rewrite !lookup_ge_None_2; [done|lia|rewrite length_alter; lia].
  - left. by apply lookup_total_alter_other.
Qed.

Lemma settle_each_spec planned refs rs :
  NoDup refs -> (forall i, i ∈ refs -> i < length planned /\ is_accepted (planned !!! i) = true) ->
  rejects_only refs planned (settle_each planned refs rs)
  /\ forall j i, refs !! j = Some i ->
       (is_accepted (settle_each planned refs rs !!! i) = true <-> exists id, rs !! j = Some (inl id)).
Proof.
  revert planned rs. induction refs as [|i refs IH]; intros planned rs Hnd Hok; [by split; [apply rejects_only_refl|]|].
  apply NoDup_cons in Hnd as [Hi Hnd]. destruct (Hok i ltac:(left)) as [Hlt Hacc].
  assert (exists planned1, settle_each planned (i :: refs) rs = settle_each planned1 refs (tail rs)
    /\ rejects_only [i] planned planned1 /\ (is_accepted (planned1 !!! i) = true <-> exists id, rs !! 0 = Some (inl id)))
    as (planned1 & -> & Hr1 & Hacc1).
  { destruct rs as [|[id|e] rs]; simpl; eexists; (split; [done|]).
    1,3: split; [apply rejects_alter|]; rewrite lookup_total_alter_reject by done; split; [done|by intros [? ?]].
    split; [apply rejects_only_refl|]. split; [by exists id|done]. }
  destruct Hr1 as [Hl1 Hsame]. assert (forall k, k ∈ refs -> planned1 !!! k = planned !!! k) as Hrest.
  { intros k Hk. destruct (Hsame k) as [?|[->%list_elem_of_singleton _]]; done. }
  destruct (IH planned1 (tail rs) Hnd) as [Hr2 Hacc2].
  { intros k Hk. rewrite Hl1, Hrest by done. apply Hok. by right. }
  split.
  - eapply rejects_only_trans; [eapply rejects_only_weaken; [|by split; [exact Hl1|exact Hsame]]|
      eapply rejects_only_weaken; [|exact Hr2]]; [intros k ->%list_elem_of_singleton; left|intros k ?; by right].
  - intros [|j] k; simpl.
    + intros [= <-]. destruct Hr2 as [_ Hr2]. destruct (Hr2 i) as [->|[? _]]; done.
    + intros Hk. rewrite (Hacc2 j k Hk). destruct rs; [by destruct j|done].
Qed.

Lemma reject_each_spec why planned refs :
  rejects_only refs planned (reject_each why planned refs)
  /\ forall i, i ∈ refs -> i < length planned -> is_accepted (reject_each why planned refs !!! i) = false.
Proof.
  unfold reject_each. revert planned. induction refs as [|i refs IH]; intros planned.
  { split; [apply rejects_only_refl|by intros ? ?%not_elem_of_nil]. }
  simpl. destruct (IH (alter (set_reject why) i planned)) as [Hr Hf]. split.
  - eapply rejects_only_trans; [eapply rejects_only_weaken; [|apply rejects_alter]|eapply rejects_only_weaken; [|exact Hr]];
      [intros k ->%list_elem_of_singleton; left|intros k ?; by right].
  - intros k [->|Hk]%elem_of_cons Hlt; [|apply Hf; [done|by rewrite length_alter]].
    destruct Hr as [_ Hr]. destruct (Hr i) as [->|(_ & w' & ->)]; [|done]. by rewrite lookup_total_alter_reject.
Qed.

Lemma first_failure_Some refs (rs : list WriteResult) :
  length rs <= length refs -> existsb is_ok rs = false -> first_failure refs rs = None -> rs = [].
Proof. destruct refs as [|i refs], rs as [|[id|e] rs]; simpl; done || lia. Qed.

Lemma settle_ref_writes_spec planned refs rs landed :
  NoDup refs -> (forall i, i ∈ refs -> i < length planned /\ is_accepted (planned !!! i) = true) ->
  length rs <= length refs -> (refs <> [] -> rs <> []) ->
  let '(planned', r) := settle_ref_writes planned refs rs landed in
  rejects_only refs planned planned'
  /\ (r = inl tt -> forall j i, refs !! j = Some i -> is_accepted (planned' !!! i) = true -> exists id, rs !! j = Some (inl id)).
Proof.
  intros Hnd Hok Hlen Hne. unfold settle_ref_writes. destruct (negb landed && negb (existsb is_ok rs)) eqn:E.
  - apply andb_true_iff in E as [_ E%negb_true_iff]. destruct (first_failure refs rs) as [[i e]|] eqn:Ef.
    + by split; [apply rejects_only_refl|].
    + apply first_failure_Some in Ef; [|done..]. split; [apply rejects_only_refl|]. intros _ j i Hi _.
      destruct refs; [done|]. by destruct Hne.
  - destruct (settle_each_spec planned refs rs Hnd Hok) as [Hr Ha]. split; [done|]. intros _ j i Hi Hacc. by eapply Ha.
Qed.

(** ** One batch *)

(** What a batch of the refs does: it refuses some of them, lands only their writes, and,
    unless the push fails as a whole, has landed all the writes of those it still accepts. *)
Definition Done (planned planned' : list Planned) (w w' : W) (refs : list nat) (r : unit + Failure) : Prop :=
  rejects_only refs planned planned'
  /\ exists l, log w' = log w ++ l /\ only_of planned refs l
     /\ (r = inl tt -> forall i, i ∈ refs -> is_accepted (planned' !!! i) = true -> all_written l (planned !!! i)).

Definition in_plan (planned : list Planned) (refs : list nat) : Prop :=
  NoDup refs /\ forall i, i ∈ refs -> i < length planned /\ is_accepted (planned !!! i) = true.

Abbreviation write_batch := (write_batch hex_decode hex_encode debug private).
Abbreviation batch := (batch hex_decode hex_encode debug private repo_display lane ring).

Lemma done_refl planned w refs r : (r = inl tt -> refs = []) -> Done planned planned w w refs r.
Proof.
  intros H. split; [apply rejects_only_refl|]. exists []. split_and!; [by rewrite app_nil_r|apply only_nil|].
  intros Hr i Hi. rewrite (H Hr) in Hi. by apply not_elem_of_nil in Hi.
Qed.

(** A batch whose refs have their results settled. *)
Lemma settle_done planned w w' refs rs landed :
  in_plan planned refs -> Batch w w' planned refs rs -> length rs <= length refs -> (refs <> [] -> rs <> []) ->
  let '(planned', r) := settle_ref_writes planned refs rs landed in Done planned planned' w w' refs r.
Proof.
  intros [Hnd Hok] (l & Hl & Ho & Hk) Hlen Hne.
  pose proof (settle_ref_writes_spec planned refs rs landed Hnd Hok Hlen Hne) as Hs.
  destruct (settle_ref_writes planned refs rs landed) as [planned' r]. destruct Hs as [Hr Ha].
  split; [done|]. exists l. split_and!; [done..|]. intros Hrt i [j Hj]%list_elem_of_lookup Hacc.
  destruct (Ha Hrt j i Hj Hacc) as [id Hid]. by eapply Hk.
Qed.

Lemma write_batch_done planned w refs landed :
  in_plan planned refs -> (forall i, i ∈ refs -> sealed (planned !!! i) = false) -> let '(planned', w', r) := write_batch planned w refs landed in Done planned planned' w w' refs r.
Proof.
  intros Hin Hpub. unfold PushWrites.write_batch. case_bool_decide as E; [by apply done_refl|].
  destruct (ref_writes planned refs) as [ws|e] eqn:Er; [|by apply done_refl].
  pose proof (service_wrote private w (ws_writes ws)) as Hw. destruct (service_write_ref_updates _ _ w _) as [w' [rs|e]].
  - destruct Hw as (l & Hw & Hst & Hne). destruct (per_ref_batch PublicLane w w' planned refs ws rs l) as (Hb & Hlen & _ & Hnn); [intros i ?; by apply public_lane, Hpub|done..|].
    pose proof (settle_done planned w w' refs _ (landed || pr_landed (per_ref ws rs)) Hin Hb Hlen) as Hs.
    destruct (settle_ref_writes planned refs _ _) as [planned' r]. apply Hs. intros Hrefs. apply Hnn; [done|]. apply Hne.
    intros Hws. apply ref_writes_groups in Er as (groups & Hf & Hcat & _). destruct Hf as [|i g refs' groups' [_ Hg]]; [done|].
    rewrite Hws in Hcat. simpl in Hcat. symmetry in Hcat. by apply app_nil in Hcat as [? _].
  - subst w'. destruct landed; [|by apply done_refl]. destruct (reject_each_spec (failed_text e) planned refs) as [Hr Hf].
    split; [done|]. exists []. split_and!; [by rewrite app_nil_r|apply only_nil|].
    intros _ i Hi Ha. rewrite Hf in Ha; [done..|]. by apply Hin.
Qed.

Lemma rejects_lane refs planned planned' i :
  rejects_only refs planned planned' -> lane_of (planned' !!! i) = lane_of (planned !!! i).
Proof. intros [_ H]. by destruct (H i) as [->|(_ & why & ->)]. Qed.

Lemma rejects_writes refs planned planned' i :
  rejects_only refs planned planned' -> planned_writes (planned' !!! i) = planned_writes (planned !!! i).
Proof. intros [_ H]. by destruct (H i) as [->|(_ & why & ->)]. Qed.

Lemma rejects_all_written refs planned planned' l i :
  rejects_only refs planned planned' -> all_written l (planned' !!! i) -> all_written l (planned !!! i).
Proof.
  intros Hr (ws & Hw & Hu). exists ws. by rewrite <-(rejects_writes refs planned planned'), <-(rejects_lane refs planned planned').
Qed.

Lemma rejects_only_of refs planned planned' refs' l :
  rejects_only refs planned planned' -> only_of planned' refs' l -> only_of planned refs' l.
Proof.
  intros Hr Ho at_ u Hu. destruct (Ho at_ u Hu) as (i & ws & ? & ? & ? & ?). exists i, ws.
  by rewrite <-(rejects_writes refs planned planned'), <-(rejects_lane refs planned planned').
Qed.

(** Two batches of refs apart, one after the other. *)
Lemma done_trans planned p1 p2 w w1 w2 refs1 refs2 refs r1 r2 :
  (forall i, i ∈ refs <-> (i ∈ refs1) \/ (i ∈ refs2)) -> (forall i, i ∈ refs1 -> i ∉ refs2) ->
  r1 = inl tt -> Done planned p1 w w1 refs1 r1 -> Done p1 p2 w1 w2 refs2 r2 -> Done planned p2 w w2 refs r2.
Proof.
  intros Hrefs Hdis -> (Hr1 & l1 & Hl1 & Ho1 & Hk1) (Hr2 & l2 & Hl2 & Ho2 & Hk2). split.
  { eapply rejects_only_trans; (eapply rejects_only_weaken; [|eassumption]); intros i Hi; apply Hrefs; auto. }
  apply (rejects_only_of _ _ _ _ _ Hr1) in Ho2. exists (l1 ++ l2). rewrite Hl2, Hl1, app_assoc. split_and!; [done| |].
  - apply only_of_app; intros at_ u Hu; [destruct (Ho1 at_ u Hu) as (i & ws & ? & ?)|destruct (Ho2 at_ u Hu) as (i & ws & ? & ?)];
      exists i, ws; (split; [apply Hrefs; auto|done]).
  - intros Hr i Hi Ha. apply all_written_app. destruct (decide (i ∈ refs2)) as [H2|H2].
    + right. apply (rejects_all_written _ _ _ _ _ Hr1). by apply Hk2.
    + left. apply Hrefs in Hi as [H1|?]; [|done]. apply Hk1; [done..|]. destruct Hr2 as [_ Hr2].
      destruct (Hr2 i) as [<-|[? _]]; done.
Qed.

Lemma done_same planned planned' w w' refs refs' r :
  (forall i, i ∈ refs' <-> i ∈ refs) -> Done planned planned' w w' refs r -> Done planned planned' w w' refs' r.
Proof.
  intros Hs (Hr & l & Hl & Ho & Hk). split; [eapply rejects_only_weaken; [|exact Hr]; intros i; apply Hs|].
  exists l. split_and!; [done| |intros Hrt i Hi; apply Hk; [done|by apply Hs]].
  intros at_ u Hu. destruct (Ho at_ u Hu) as (i & ws & Hi & ?). exists i, ws. by rewrite Hs.
Qed.

Lemma in_plan_filter planned refs f : in_plan planned refs -> in_plan planned (List.filter f refs).
Proof.
  intros [Hnd Hok]. split; [eapply sublist_NoDup; [exact Hnd|apply filter_sublist]|]. intros i Hi. apply Hok.
  apply list_elem_of_In, filter_In in Hi as [Hi _]. by apply list_elem_of_In.
Qed.

Lemma batch_done planned w refs landed :
  in_plan planned refs ->
  exists planned' w' r, batch planned w refs landed = Some (planned', w', r) /\ Done planned planned' w w' refs r.
Proof.
  intros Hin. unfold PushWrites.batch.
  set (members := List.filter (fun i => sealed (planned !!! i)) refs).
  set (public := List.filter (fun i => negb (sealed (planned !!! i))) refs).
  pose proof (in_plan_filter planned refs (fun i => sealed (planned !!! i)) Hin) as Hm. fold members in Hm.
  pose proof (in_plan_filter planned refs (fun i => negb (sealed (planned !!! i))) Hin) as Hp. fold public in Hp.
  assert (forall i, i ∈ members <-> (i ∈ refs) /\ sealed (planned !!! i) = true) as Hmi.
  { intros i. unfold members. by rewrite list_elem_of_In, filter_In, <-list_elem_of_In. }
  assert (forall i, i ∈ public <-> (i ∈ refs) /\ sealed (planned !!! i) = false) as Hpi.
  { intros i. unfold public. by rewrite list_elem_of_In, filter_In, <-list_elem_of_In, negb_true_iff. }
  assert (forall i, i ∈ refs <-> (i ∈ members) \/ (i ∈ public)) as Hrefs.
  { intros i. rewrite Hmi, Hpi. destruct (sealed _); tauto. }
  case_bool_decide as E.
  - pose proof (write_batch_done planned w public landed Hp ltac:(intros i [_ ?]%Hpi; done)) as Hd. destruct (write_batch planned w public landed) as [[p' w'] r].
    eexists _, _, _. split; [done|]. eapply (done_trans _ planned p' _ w w' [] public); [..|exact Hd].
    + intros i. rewrite Hrefs, E. done.
    + by intros i ?%not_elem_of_nil.
    + done.
    + by apply done_refl.
  - destruct (members_batch_spec planned w members) as (w1 & out & -> & Hb & Hlen); [apply Hm|by intros i [_ ?]%Hmi|]. cbn [mbind option_bind].
    assert (members <> [] -> pr_results out <> []) as Hne by (intros ? Hn; rewrite Hn in Hlen; by destruct members).
    case_bool_decide as Ep.
    + pose proof (settle_done planned w w1 members _ (landed || pr_landed out) Hm Hb ltac:(lia) Hne) as Hd.
      destruct (settle_ref_writes planned members _ _) as [p' r]. eexists _, _, _. split; [done|].
      assert (forall i, i ∈ refs <-> i ∈ members) as Hsame by (intros i; rewrite Hrefs, Ep, elem_of_nil; tauto).
      by eapply done_same.
    + pose proof (settle_done planned w w1 members _ true Hm Hb ltac:(lia) Hne) as Hd.
      assert (exists p1, settle_ref_writes planned members (pr_results out) true = (p1, inl tt)) as [p1 Hs] by by eexists.
      rewrite Hs in *. pose proof (write_batch_done p1 w1 public (landed || pr_landed out)) as Hd2.
      destruct (write_batch p1 w1 public _) as [[p' w'] r]. eexists _, _, _. split; [done|].
      assert (forall i, i ∈ members -> i ∉ public) as Hdis by (intros i; rewrite Hmi, Hpi; intros [_ ->] [_ ?]; done).
      eapply (done_trans _ p1 p' _ w1 w' members public); [done|done|done|exact Hd|].
      destruct Hd as [[Hl Hr] _]. assert (forall i, i ∈ public -> p1 !!! i = planned !!! i) as Hsame.
      { intros i Hi. destruct (Hr i) as [?|[Hi' _]]; [done|]. by destruct (Hdis i). }
      apply Hd2.
      * split; [apply Hp|]. intros i Hi. rewrite Hl, Hsame by done. by apply Hp.
      * intros i Hi. rewrite Hsame by done. by apply Hpi.
Qed.

(** ** The batches of a push *)

Abbreviation write_ref_updates := (write_ref_updates hex_decode hex_encode debug private repo_display lane ring).

Definition accepted_refs (planned : list Planned) : list nat :=
  List.filter (fun i => is_accepted (planned !!! i)) (seq 0 (length planned)).
Definition deleted_refs (planned : list Planned) : list nat :=
  List.filter (fun i => negb (is_some (pl_new_oid (planned !!! i)))) (accepted_refs planned).
Definition updated_refs (planned : list Planned) : list nat :=
  List.filter (fun i => is_some (pl_new_oid (planned !!! i))) (accepted_refs planned).

Lemma elem_of_accepted planned i : i ∈ accepted_refs planned <-> i < length planned /\ is_accepted (planned !!! i) = true.
Proof. unfold accepted_refs. rewrite list_elem_of_In, filter_In, in_seq. lia || naive_solver lia. Qed.

Lemma elem_of_deleted planned i : i ∈ deleted_refs planned <-> (i ∈ accepted_refs planned) /\ pl_new_oid (planned !!! i) = None.
Proof. unfold deleted_refs. by rewrite list_elem_of_In, filter_In, <-list_elem_of_In, negb_true_iff, is_some_false. Qed.

Lemma elem_of_updated planned i : i ∈ updated_refs planned <-> (i ∈ accepted_refs planned) /\ is_some (pl_new_oid (planned !!! i)) = true.
Proof. unfold updated_refs. by rewrite list_elem_of_In, filter_In, <-list_elem_of_In. Qed.

Lemma accepted_in_plan planned : in_plan planned (accepted_refs planned).
Proof.
  split; [eapply sublist_NoDup; [apply NoDup_seq|apply filter_sublist]|]. intros i. by rewrite elem_of_accepted.
Qed.

Lemma elem_of_gated planned i needs :
  (i, needs) ∈ gated_creations planned (accepted_refs planned) <->
  (i ∈ updated_refs planned) /\ pl_prev_oid (planned !!! i) = None /\ needs <> []
  /\ needs = List.filter (fun d => is_some (ref_collision [pl_dst (planned !!! d)] (pl_dst (planned !!! i)))) (deleted_refs planned).
Proof.
  unfold gated_creations. rewrite list_elem_of_omap. fold (deleted_refs planned). setoid_rewrite elem_of_updated. split.
  - intros (k & Hk & H). destruct (is_some (pl_new_oid _) && _) eqn:E; [|done]. apply andb_true_iff in E as [E1 E2%negb_true_iff%is_some_false].
    case_bool_decide; [done|]. by simplify_eq.
  - intros ([Hi Hn] & Hp & Hne & ->). exists i. split; [done|]. rewrite Hn, Hp. simpl. by rewrite bool_decide_eq_false_2.
Qed.

Lemma reject_gated_spec planned gated :
  (forall i needs, (i, needs) ∈ gated -> i < length planned) ->
  (forall i needs d j n, (i, needs) ∈ gated -> d ∈ needs -> (j, n) ∈ gated -> d <> j) ->
  rejects_only (map fst gated) planned (reject_gated planned gated)
  /\ forall i needs d, (i, needs) ∈ gated -> d ∈ needs -> is_accepted (planned !!! d) = false ->
       is_accepted (reject_gated planned gated !!! i) = false.
Proof.
  unfold reject_gated. revert planned. induction gated as [|[i needs] gated IH]; intros planned Hlt Hdis.
  { split; [apply rejects_only_refl|by intros ? ? ? ?%not_elem_of_nil]. }
  cbn [foldl map fst].
  set (p1 := match List.find (fun d => negb (is_accepted (planned !!! d))) needs with Some d => _ | None => planned end).
  assert (rejects_only [i] planned p1) as Hr1 by (unfold p1; destruct (List.find _ needs); [apply rejects_alter|apply rejects_only_refl]).
  assert (forall d n j, (j, n) ∈ (i, needs) :: gated -> d ∈ n -> p1 !!! d = planned !!! d) as Hsame.
  { intros d n j Hjn Hd. destruct Hr1 as [_ Hr1]. destruct (Hr1 d) as [?|[->%list_elem_of_singleton _]]; [done|].
    by destruct (Hdis j n i i needs Hjn Hd ltac:(left)). }
  destruct (IH p1) as [Hr Hf].
  { intros k n Hk. destruct Hr1 as [-> _]. apply (Hlt k n). by right. }
  { intros k n d j m Hk Hd Hj. apply (Hdis k n d j m); [by right|done|by right]. }
  split.
  - eapply rejects_only_trans; [eapply rejects_only_weaken; [|exact Hr1]|eapply rejects_only_weaken; [|exact Hr]];
      [intros k ->%list_elem_of_singleton; left|intros k ?; by right].
  - intros k n d [[= -> ->]|Hk]%elem_of_cons Hd Ha; [|eapply Hf; [done..|]; by rewrite (Hsame d n k) by (done || by right)].
    assert (is_accepted (p1 !!! i) = false) as Hp1.
    { unfold p1. destruct (List.find _ needs) as [x|] eqn:Ef.
      - rewrite lookup_total_alter_reject; [done|]. apply (Hlt i needs). left.
      - apply list_elem_of_In in Hd. apply (find_none _ _ Ef) in Hd. by rewrite Ha in Hd. }
    destruct Hr as [_ Hr]. destruct (Hr i) as [->|(_ & w' & ->)]; done.
Qed.

(** The two batches of a push that deletes a ref one of its new refs collides with. *)
Record Staged (planned planned' : list Planned) (w w' : W) (l1 l2 : list (Lane * RefWrite)) : Prop := {
    staged_log : log w' = log w ++ l1 ++ l2;
    staged_deletions : only_of planned (deleted_refs planned) l1;
    staged_rest : only_of planned (updated_refs planned) l2;
    staged_gated i needs d at_ u ws :
      (i, needs) ∈ gated_creations planned (accepted_refs planned) -> d ∈ needs ->
      (at_, u) ∈ l2 -> planned_writes (planned !!! i) = inl ws -> u ∈ ws ->
      (forall j ws', j ∈ updated_refs planned -> planned_writes (planned !!! j) = inl ws' -> u ∈ ws' -> j = i) ->
      all_written l1 (planned !!! d)
  }.

(** The deletions, and then the rest of a push, whose gated refs were judged in between. *)
Lemma staged_done planned p2 p3 p' w w1 w' l1 r :
  let gated := gated_creations planned (accepted_refs planned) in
  let rest := List.filter (fun i => is_accepted (p3 !!! i)) (updated_refs planned) in
  rejects_only (deleted_refs planned) planned p2 -> log w1 = log w ++ l1 -> only_of planned (deleted_refs planned) l1 ->
  (inl (B := Failure) tt = inl tt -> forall i, i ∈ deleted_refs planned -> is_accepted (p2 !!! i) = true -> all_written l1 (planned !!! i)) ->
  rejects_only (map fst gated) p2 p3 ->
  (forall i needs d, (i, needs) ∈ gated -> d ∈ needs -> is_accepted (p2 !!! d) = false -> is_accepted (p3 !!! i) = false) ->
  rejects_only (accepted_refs planned) planned p3 ->
  Done p3 p' w1 w' rest r ->
  Done planned p' w w' (accepted_refs planned) r /\ (gated <> [] -> exists l1 l2, Staged planned p' w w' l1 l2).
Proof.
  intros gated rest Hr2 Hl1 Ho1 Hk1 Hr3 Hgated Hr (Hr4 & l2 & Hl2 & Ho2 & Hk2).
  assert (forall i, i ∈ rest <-> (i ∈ updated_refs planned) /\ is_accepted (p3 !!! i) = true) as Hrest.
  { intros i. unfold rest. by rewrite list_elem_of_In, filter_In, <-list_elem_of_In. }
  pose proof (rejects_only_of _ _ _ _ _ Hr Ho2) as Ho2'.
  split.
  - split.
    { eapply rejects_only_trans; [exact Hr|]. eapply rejects_only_weaken; [|exact Hr4]. by intros i [[? _]%elem_of_updated _]%Hrest. }
    exists (l1 ++ l2). rewrite Hl2, Hl1, app_assoc. split_and!; [done| |].
    + apply only_of_app; intros at_ u Hu; [destruct (Ho1 at_ u Hu) as (i & ws & Hi & ?)|destruct (Ho2' at_ u Hu) as (i & ws & Hi & ?)];
        exists i, ws.
      * by apply elem_of_deleted in Hi as [? _].
      * by apply Hrest, proj1, elem_of_updated in Hi as [? _].
    + intros Hrt i Hi Ha. apply all_written_app. assert (is_accepted (p3 !!! i) = true) as Ha3.
      { destruct Hr4 as [_ Hr4]. by destruct (Hr4 i) as [<-|(_ & why & Hrej)]; [|rewrite Hrej in Ha]. }
      destruct (is_some (pl_new_oid (planned !!! i))) eqn:En.
      * right. apply (rejects_all_written _ _ _ _ _ Hr), Hk2; [done|by apply Hrest; rewrite elem_of_updated|done].
      * left. apply (Hk1 eq_refl); [by apply elem_of_deleted; rewrite <-is_some_false|].
        destruct Hr3 as [_ Hr3]. destruct (Hr3 i) as [<-|(_ & why & Hrej)]; [done|by rewrite Hrej in Ha3].
  - intros _. exists l1, l2. split; [by rewrite Hl2, Hl1, app_assoc|done| |].
    + intros at_ u Hu. destruct (Ho2' at_ u Hu) as (i & ws & [Hi _]%Hrest & ?). by exists i, ws.
    + intros i needs d at_ u ws Hg Hd Hu Hw Hin Huniq. destruct (Ho2' at_ u Hu) as (j & ws' & [Hj Ha]%Hrest & Hw' & Hu' & _).
      pose proof (Huniq j ws' Hj Hw' Hu') as ->. apply (Hk1 eq_refl).
      * apply elem_of_gated in Hg as (_ & _ & _ & ->). by apply list_elem_of_In, filter_In, proj1, list_elem_of_In in Hd.
      * destruct (is_accepted (p2 !!! d)) eqn:Ed; [done|]. by rewrite (Hgated i needs d Hg Hd Ed) in Ha.
Qed.

Lemma write_ref_updates_done planned w :
  exists planned' w' r, write_ref_updates planned w = Some (planned', w', r)
  /\ Done planned planned' w w' (accepted_refs planned) r
  /\ (gated_creations planned (accepted_refs planned) <> [] -> exists l1 l2, Staged planned planned' w w' l1 l2).
Proof.
  unfold PushWrites.write_ref_updates. fold (accepted_refs planned). set (gated := gated_creations _ _).
  pose proof (accepted_in_plan planned) as Hin.
  case_bool_decide as E.
  { destruct (batch_done planned w (accepted_refs planned) false Hin) as (p' & w' & r & -> & Hd). by eexists _, _, _. }
  fold (deleted_refs planned). fold (updated_refs planned).
  destruct (batch_done planned w (deleted_refs planned) false) as (p1 & w1 & r1 & -> & Hd1); [by apply in_plan_filter|].
  cbn [mbind option_bind].
  set (stage := match r1 with inl _ => (p1, None) | inr e => (reject_each _ p1 _, Some e) end).
  assert (exists p2 failed, stage = (p2, failed) /\ Done planned p2 w w1 (deleted_refs planned) (inl tt)) as (p2 & failed & -> & Hd2).
  { unfold stage. destruct r1 as [[]|e]; [by eexists _, _|]. eexists _, _. split; [done|].
    destruct Hd1 as (Hr & l & Hl & Ho & _).
    destruct (reject_each_spec ("ref update failed: " +:+ failure_text e) p1 (deleted_refs planned)) as [Hr' Hf].
    split; [by eapply rejects_only_trans|]. exists l. split_and!; [done..|]. intros _ i Hi Ha. rewrite Hf in Ha; [done..|].
    destruct Hr as [-> _]. by apply elem_of_deleted, proj1, elem_of_accepted in Hi as [? _]. }
  clear Hd1 r1 p1. destruct Hd2 as (Hr2 & l1 & Hl1 & Ho1 & Hk1).
  destruct (reject_gated_spec p2 gated) as [Hr3 Hgated].
  { intros i needs [Hi _]%elem_of_gated. destruct Hr2 as [-> _]. by apply elem_of_updated, proj1, elem_of_accepted in Hi as [? _]. }
  { intros i needs d j n (_ & _ & _ & ->)%elem_of_gated Hd (Hj & _)%elem_of_gated ->. apply elem_of_updated in Hj as [_ Hj].
    apply list_elem_of_In, filter_In in Hd as [Hd%list_elem_of_In _]. apply elem_of_deleted in Hd as [_ Hd]. by rewrite Hd in Hj. }
  set (p3 := reject_gated p2 gated) in *. set (rest := List.filter (fun i => is_accepted (p3 !!! i)) (updated_refs planned)).
  assert (forall i, i ∈ rest <-> (i ∈ updated_refs planned) /\ is_accepted (p3 !!! i) = true) as Hrest.
  { intros i. unfold rest. by rewrite list_elem_of_In, filter_In, <-list_elem_of_In. }
  assert (in_plan p3 rest) as Hin3.
  { split; [eapply sublist_NoDup; [|apply filter_sublist]; eapply sublist_NoDup; [|apply filter_sublist]; apply Hin|].
    intros i [Hi Ha]%Hrest. split; [|done]. destruct Hr3 as [-> _], Hr2 as [-> _]. by apply elem_of_updated, proj1, elem_of_accepted in Hi as [? _]. }
  assert (rejects_only (accepted_refs planned) planned p3) as Hr.
  { eapply rejects_only_trans; [eapply rejects_only_weaken; [|exact Hr2]|eapply rejects_only_weaken; [|exact Hr3]]; [by intros i [? _]%elem_of_deleted|].
    intros i Hi. apply list_elem_of_In, in_map_iff in Hi as ([j n] & <- & Hjn). apply list_elem_of_In, elem_of_gated, proj1 in Hjn.
    by apply elem_of_updated in Hjn as [? _]. }
  assert (exists p' w' r, match rest, failed with
      | [], None => Some (p3, w1, inl tt) | [], Some e => Some (p3, w1, inr e)
      | _ :: _, _ => batch p3 w1 rest (negb (is_some failed)) end = Some (p', w', r)
      /\ Done p3 p' w1 w' rest r) as (p' & w' & r & -> & Hd4).
  { destruct rest as [|i rest'] eqn:Erest; [|rewrite <-Erest in *; by apply batch_done].
    destruct failed; eexists _, _, _; (split; [done|]); by apply done_refl. }
  eexists _, _, _. split; [done|]. by eapply staged_done.
Qed.

(** ** The refs a push leaves *)

Definition deletes (u : RefWrite) : bool := forallb (fun b => b == byte_of 0) (rw_new_oid u).

(** The live refs once the updates [l] landed. *)
Definition refs_now (refs : RefList) (l : list RefWrite) : list string :=
  List.filter (fun n => negb (existsb (fun u => (rw_ref_name u == n) && deletes u) l)) (live_names refs)
  ++ map rw_ref_name (List.filter (fun u => negb (deletes u)) l).

Lemma same_dst planned i j :
  NoDup (map pl_dst planned) -> i < length planned -> j < length planned -> pl_dst (planned !!! i) = pl_dst (planned !!! j) -> i = j.
Proof.
  intros Hnd Hi Hj E. destruct (lookup_lt_is_Some_2 planned i Hi) as [p Hp], (lookup_lt_is_Some_2 planned j Hj) as [q Hq].
  rewrite !list_lookup_total_alt, Hp, Hq in E. simpl in E.
  apply (NoDup_lookup (map pl_dst planned) i j (pl_dst p)); [done|rewrite list_lookup_fmap, Hp|rewrite list_lookup_fmap, Hq]; simpl; congruence.
Qed.

Lemma elem_of_plan (planned : list Planned) p : p ∈ planned -> exists i, i < length planned /\ planned !!! i = p.
Proof.
  intros [i Hi]%list_elem_of_lookup. exists i. split; [by eapply lookup_lt_Some|]. by rewrite list_lookup_total_alt, Hi.
Qed.

(** A live ref that no accepted deletion took away, and a new ref of the push. *)
Definition stays (planned : list Planned) (refs : RefList) (l : list (Lane * RefWrite)) (n : string) : Prop :=
  (n ∈ live_names refs) /\ forall d, d ∈ deleted_refs planned -> pl_dst (planned !!! d) = n -> ~ all_written l (planned !!! d).
Definition comes (planned : list Planned) (l : list (Lane * RefWrite)) (n : string) : Prop :=
  exists i ws u, (i ∈ updated_refs planned) /\ pl_prev_oid (planned !!! i) = None /\ pl_dst (planned !!! i) = n
    /\ planned_writes (planned !!! i) = inl ws /\ (u ∈ ws) /\ (u ∈ map snd l) /\ deletes u = false.

Lemma all_written_deletes planned l d :
  d ∈ deleted_refs planned -> all_written l (planned !!! d) ->
  exists u, (u ∈ map snd l) /\ rw_ref_name u = pl_dst (planned !!! d) /\ deletes u = true.
Proof.
  intros [_ Hn]%elem_of_deleted (ws & Hw & Hu). apply planned_writes_facts in Hw as (Hlen & Hname & Hz).
  destruct ws as [|u ws]; [done|]. exists u. split_and!; [|apply Hname; left|].
  { apply list_elem_of_In, in_map_iff. eexists. split; [|apply list_elem_of_In, Hu; left]. done. }
  unfold deletes. by rewrite (Hz Hn u) by left.
Qed.

Lemma refs_now_cases planned refs l n :
  NoDup (map pl_dst planned) ->
  (forall i, i ∈ accepted_refs planned -> pl_prev_oid (planned !!! i) = remote_tip refs (pl_dst (planned !!! i))) ->
  only_of planned (accepted_refs planned) l -> n ∈ refs_now refs (map snd l) -> stays planned refs l n \/ comes planned l n.
Proof.
  intros Hnd Hprev Ho [Hn|Hn]%elem_of_app; apply list_elem_of_In in Hn.
  - apply filter_In in Hn as [Hn Hnd'%negb_true_iff]. left. split; [by apply list_elem_of_In|]. intros d Hd <- Haw.
    apply all_written_deletes in Haw as (u & Hu & Hname & Hdel); [|done]. apply not_true_iff_false in Hnd'. apply Hnd'.
    apply existsb_exists. exists u. rewrite Hdel, bool_decide_eq_true_2 by done. by apply list_elem_of_In in Hu.
  - apply in_map_iff in Hn as (u & <- & [Hu%list_elem_of_In Hdel%negb_true_iff]%filter_In).
    pose proof Hu as ((at_ & u') & E & Hat)%list_elem_of_In%in_map_iff. simpl in E. subst u'. apply list_elem_of_In in Hat.
    destruct (Ho at_ u Hat) as (i & ws & Hi & Hw & Hin & _). pose proof (planned_writes_facts _ _ Hw) as (_ & Hname & Hz).
    rewrite Hname by done. assert (is_some (pl_new_oid (planned !!! i)) = true) as Hnew.
    { destruct (pl_new_oid _) eqn:E; [done|]. unfold deletes in Hdel. by rewrite (Hz eq_refl u Hin) in Hdel. }
    destruct (pl_prev_oid (planned !!! i)) as [tip|] eqn:Ep.
    + left. split; [apply (remote_tip_live _ _ tip); by rewrite <-Hprev|]. intros d Hd Heq _.
      apply elem_of_deleted in Hd as [Hd Hdn]. apply elem_of_accepted in Hd as [Hdlt _]. apply elem_of_accepted in Hi as [Hilt _].
      pose proof (same_dst planned d i Hnd Hdlt Hilt Heq) as ->. by rewrite Hdn in Hnew.
    + right. exists i, ws, u. split_and!; try done. by apply elem_of_updated.
Qed.

Lemma comes_created planned l n : comes planned l n -> n ∈ created planned.
Proof.
  intros (i & ws & u & Hi & Hp & <- & _). apply elem_of_updated in Hi as [[Hlt Ha]%elem_of_accepted Hn].
  apply elem_of_created. exists (planned !!! i). unfold creates. rewrite Ha, Hn, Hp. split_and!; [|done..].
  by apply list_elem_of_lookup_total_2.
Qed.

(** A live ref that is not kept is one the push deletes. *)
Lemma not_kept planned refs n :
  n ∈ live_names refs -> (n ∈ kept_refs planned refs) \/ exists d, (d ∈ deleted_refs planned) /\ pl_dst (planned !!! d) = n.
Proof.
  intros Hn. destruct (decide (n ∈ map pl_dst (List.filter is_deletion planned))) as [Hd|Hd].
  - right. apply list_elem_of_In, in_map_iff in Hd as (p & <- & [Hp%list_elem_of_In Hdel]%filter_In).
    apply elem_of_plan in Hp as (i & Hi & <-). exists i. split; [|done]. unfold is_deletion in Hdel.
    apply andb_true_iff in Hdel as [[Ha Hno%negb_true_iff%is_some_false]%andb_true_iff _]. by rewrite elem_of_deleted, elem_of_accepted.
  - left. unfold kept_refs. rewrite list_elem_of_In, filter_In, <-list_elem_of_In. by rewrite bool_decide_eq_false_2.
Qed.

(** A new ref that collides with a deleted one was written after it. *)
Lemma gated_written planned planned' w w' l d n :
  NoDup (map pl_dst planned) -> only_of planned (accepted_refs planned) l -> log w' = log w ++ l ->
  (gated_creations planned (accepted_refs planned) <> [] -> exists l1 l2, Staged planned planned' w w' l1 l2) ->
  d ∈ deleted_refs planned -> comes planned l n -> pl_dst (planned !!! d) <> n -> collides (pl_dst (planned !!! d)) n ->
  all_written l (planned !!! d).
Proof.
  intros Hnd Ho Hl Hst Hd (i & ws & u & Hi & Hp & <- & Hw & Hin & Hu & Hdel) Hne Hcol.
  set (needs := List.filter (fun d => is_some (ref_collision [pl_dst (planned !!! d)] (pl_dst (planned !!! i)))) (deleted_refs planned)).
  assert (d ∈ needs) as Hdn.
  { unfold needs. rewrite list_elem_of_In, filter_In, <-list_elem_of_In. split; [done|].
    destruct (ref_collision _ _) eqn:E; [done|]. by destruct (ref_collision_None _ _ E (pl_dst (planned !!! d)) ltac:(left) Hne). }
  assert ((i, needs) ∈ gated_creations planned (accepted_refs planned)) as Hg.
  { apply elem_of_gated. split_and!; try done. intros E. rewrite E in Hdn. by apply not_elem_of_nil in Hdn. }
  destruct Hst as (l1 & l2 & [Hlog Hd1 Hd2 Hgate]); [by intros E; rewrite E in Hg; apply not_elem_of_nil in Hg|].
  rewrite Hl in Hlog. apply app_inv_head in Hlog as ->. apply all_written_app. left.
  assert (forall j ws', j ∈ accepted_refs planned -> planned_writes (planned !!! j) = inl ws' -> u ∈ ws' -> j = i) as Huniq.
  { intros j ws' Hj Hwj Huj. apply planned_writes_facts in Hw as (_ & Hname & _), Hwj as (_ & Hname' & _).
    apply elem_of_updated, proj1 in Hi. apply elem_of_accepted in Hi as [Hi _], Hj as [Hj _].
    apply (same_dst planned); [done..|]. by rewrite <-(Hname u Hin), <-(Hname' u Huj). }
  apply list_elem_of_In, in_map_iff in Hu as ((at_ & u') & E & Hu). simpl in E. subst u'. apply list_elem_of_In, elem_of_app in Hu as [Hu|Hu].
  - destruct (Hd1 at_ u Hu) as (j & ws' & Hj & Hwj & Huj & _). apply elem_of_deleted in Hj as [Hj Hnj].
    pose proof (Huniq j ws' Hj Hwj Huj) as ->. apply elem_of_updated in Hi as [_ Hi]. by rewrite Hnj in Hi.
  - apply (Hgate i needs d at_ u ws); [done..|]. intros j ws' Hj. apply Huniq. by apply elem_of_updated in Hj as [? _].
Qed.

(** C27: the writes of a push end and tell the truth: whatever the lanes answer, nothing
    panics; only updates of accepted refs are written, each the one its plan says, and each in
    the lane of its audience, so a sealed ref never goes out as a public one; the plan
    changes only by refusing some of them; and unless the push fails as a whole, every ref it
    still accepts has landed all its updates, the ones that settle a race included. *)
Theorem push_writes_land planned w :
  exists planned' w' r l, write_ref_updates planned w = Some (planned', w', r)
  /\ rejects_only (accepted_refs planned) planned planned'
  /\ log w' = log w ++ l /\ only_of planned (accepted_refs planned) l
  /\ (r = inl tt -> forall i, i ∈ accepted_refs planned -> is_accepted (planned' !!! i) = true -> all_written l (planned !!! i)).
Proof.
  destruct (write_ref_updates_done planned w) as (planned' & w' & r & Hw & (Hr & l & Hl & Ho & Hk) & _).
  by exists planned', w', r, l.
Qed.

(** C4: however the writes of a push fail, the repository never holds two refs that git
    cannot: from compatible live refs and a plan whose new refs fit, whatever updates landed
    when the push stops leave refs that git can hold at once; a new ref that needs one
    deleted first is written only after that deletion landed. *)
Theorem refs_stay_compatible planned refs w :
  NoDup (map pl_dst planned) ->
  (forall i, i ∈ accepted_refs planned -> pl_prev_oid (planned !!! i) = remote_tip refs (pl_dst (planned !!! i))) ->
  compatible (live_names refs) -> compatible (kept_refs planned refs ++ created planned) ->
  exists planned' w' r l, write_ref_updates planned w = Some (planned', w', r)
    /\ log w' = log w ++ l /\ compatible (refs_now refs (map snd l)).
Proof.
  intros Hnd Hprev Hlive Hplan. destruct (write_ref_updates_done planned w) as (planned' & w' & r & Hw & (_ & l & Hl & Ho & _) & Hst).
  exists planned', w', r, l. split_and!; [done..|].
  assert (forall a b, stays planned refs l a -> comes planned l b -> a <> b -> ~ collides a b) as Hsc.
  { intros a b [Ha Hstay] Hb Hne Hcol. destruct (not_kept planned refs a Ha) as [Hk|(d & Hd & Hda)].
    - apply (Hplan a b); [apply elem_of_app; by left|apply elem_of_app; right; by eapply comes_created|done|done].
    - apply (Hstay d Hd Hda). rewrite <-Hda in Hne, Hcol. by apply (gated_written planned planned' w w' l d b). }
  intros a b Ha Hb Hne.
  destruct (refs_now_cases planned refs l a Hnd Hprev Ho Ha) as [Ha'|Ha'], (refs_now_cases planned refs l b Hnd Hprev Ho Hb) as [Hb'|Hb'].
  - by apply Hlive; [apply Ha'|apply Hb'|].
  - by apply Hsc.
  - intros Hcol%collides_sym. by apply (Hsc b a).
  - apply Hplan; [..|done]; apply elem_of_app; right; by eapply comes_created.
Qed.
End Facts.

(** ** A repository in memory *)

(** The updates that landed, and the refs that Platform takes updates of. *)
Record Memory := mkMemory { mem_log : list (Lane * RefWrite); mem_takes : string -> bool }.

#[export] Instance memory_chain : Chain Memory := {|
  prepare _ _ := None;
  create lane w u :=
    if mem_takes w (rw_ref_name u) then (mkMemory (mem_log w ++ [(lane, u)]) (mem_takes w), inl "id")
    else (w, inr (Platform "refused"));
  log := mem_log
|}.

#[export] Instance memory_laws : ChainLaws Memory.
Proof.
  split; intros lane w u w' r; simpl; destruct (mem_takes w _); intros H; simplify_eq; [done|by left].
Qed.

(** [hex::decode] of ids that are all one digit. *)
Definition test_decode (oid : string) : list byte + string :=
  inl (repeat (match bytes oid with c :: _ => c | [] => byte_of 0 end) 20).

Definition test_plan : list Planned :=
  [mkPlanned (mkPushSpec false "" "refs/heads/a") None (Some "11") [] None Public;
   mkPlanned (mkPushSpec false "x" "refs/heads/a/b") (Some "22") None [] None Public;
   mkPlanned (mkPushSpec false "y" "refs/heads/c") (Some "22") (Some "33") ["44"] None Public].

Definition test_refs : RefList := [("refs/heads/a", Resolved "11" "me" 1); ("refs/heads/c", Diverged [mkRefHead "1" "33" "me" 1; mkRefHead "2" "44" "you" 1])].

Definition test_write (takes : string -> bool) :=
  write_ref_updates test_decode of_bytes id false "me/repo" true None test_plan (mkMemory [] takes).

Example write_all : (fun '(p, w, r) => (map pl_reject p, map (fun x => rw_ref_name x.2) (mem_log w), r)) <$> test_write (fun _ => true)
  = Some ([None; None; None], ["refs/heads/a"; "refs/heads/a/b"; "refs/heads/c"; "refs/heads/c"], inl tt).
Proof. vm_compute. reflexivity. Qed.
Example write_undeleted : (fun '(p, w, r) => (map is_accepted p, map (fun x => rw_ref_name x.2) (mem_log w), r)) <$> test_write (fun n => n != "refs/heads/a")
  = Some ([false; false; true], ["refs/heads/c"; "refs/heads/c"], inl tt).
Proof. vm_compute. reflexivity. Qed.

Lemma push_writes_land_witness :
  exists planned' w' r l, test_write (fun _ => true) = Some (planned', w', r)
  /\ rejects_only (accepted_refs test_plan) test_plan planned'
  /\ log w' = log (mkMemory [] (fun _ => true)) ++ l /\ only_of test_decode id test_plan (accepted_refs test_plan) l
  /\ (r = inl tt -> forall i, i ∈ accepted_refs test_plan -> is_accepted (planned' !!! i) = true ->
        all_written test_decode id l (test_plan !!! i)).
Proof. exact (push_writes_land test_decode of_bytes id false "me/repo" true None test_plan (mkMemory [] (fun _ => true))). Defined.

Lemma per_ref_spec_witness :
  let ws := mkRefWrites [mkRefWrite "refs/heads/a" (repeat (byte_of 0) 20) (Some (repeat "1"%char 20)) false] [0] in
  exists groups,
    Forall2 (fun i g => planned_writes test_decode id (test_plan !!! i) = inl g /\ g <> []) [0] groups
    /\ ws_writes ws = concat groups
    /\ per_ref of_bytes ws [inl "id"] = mkPerRef (group_results of_bytes groups [inl "id"]) (existsb is_ok [inl "id" : WriteResult]).
Proof.
  refine (per_ref_spec test_decode of_bytes id test_plan [0] _ [inl "id"] _ _); [vm_compute; reflexivity|simpl; lia].
Defined.

Lemma compatible_two a b : ~ collides a b -> compatible [a; b].
Proof. intros H x y. rewrite !elem_of_cons, !elem_of_nil. intros [->|[->|[]]] [->|[->|[]]] Hne Hc; [done|by apply H|by apply H, collides_sym|done]. Qed.

Lemma not_collides a b : (is_path_prefix a b || is_path_prefix b a || eq_ignore_case a b) = false -> ~ collides a b.
Proof. intros H Hc%collides_iff. by rewrite H in Hc. Qed.

Lemma refs_stay_compatible_witness :
  exists planned' w' r l, test_write (fun n => n != "refs/heads/a") = Some (planned', w', r)
    /\ log w' = log (mkMemory [] (fun n => n != "refs/heads/a")) ++ l /\ compatible (refs_now test_refs (map snd l)).
Proof.
  refine (refs_stay_compatible test_decode of_bytes id false "me/repo" true None test_plan test_refs (mkMemory [] (fun n => n != "refs/heads/a")) _ _ _ _).
  - change (NoDup ["refs/heads/a"; "refs/heads/a/b"; "refs/heads/c"]). repeat constructor; set_solver.
  - change (accepted_refs test_plan) with [0; 1; 2]. intros i Hi. repeat (apply elem_of_cons in Hi as [->|Hi]; [reflexivity|]). by apply not_elem_of_nil in Hi.
  - change (compatible ["refs/heads/a"; "refs/heads/c"]). apply compatible_two, not_collides. vm_compute. reflexivity.
  - change (compatible ["refs/heads/c"; "refs/heads/a/b"]). apply compatible_two, not_collides. vm_compute. reflexivity.
Defined.

(** ** The report *)

Lemma finalize_one_ok refs p :
  finalize_one refs false p = PushOk (pl_dst p) <-> is_accepted p = true /\ shows refs (pl_dst p) (pl_new_oid p) = true.
Proof.
  unfold finalize_one, is_accepted, shows. destruct (pl_reject p); simpl; [naive_solver|].
  destruct (pl_new_oid p) as [oid|], (find_ref refs (pl_dst p)) as [[|got ? ?|]|]; simpl; try naive_solver.
  destruct (got == oid); naive_solver.
Qed.

Lemma converged_true planned refs :
  converged (map (fun p => (pl_dst p, pl_new_oid p)) (List.filter is_accepted planned)) refs = true <->
  forall p, p ∈ planned -> is_accepted p = true -> shows refs (pl_dst p) (pl_new_oid p) = true.
Proof.
  unfold converged. rewrite forallb_forall. split.
  - intros H p Hp Ha. apply (H (pl_dst p, pl_new_oid p)). apply in_map_iff. exists p. split; [done|]. by rewrite filter_In, <-list_elem_of_In.
  - intros H [dst want] Hin. apply in_map_iff in Hin as (p & [= <- <-] & [Hp Ha]%filter_In). by apply H; [apply list_elem_of_In|].
Qed.

Lemma read_again_spec read expected attempts n last :
  0 < attempts ->
  match read_again read expected attempts (S n) last with
  | inl refs => exists k, k < attempts /\ (k = 0 /\ refs = last \/ 0 < k /\ read (n + k) = inl refs)
      /\ (forall j, j < k -> (j = 0 /\ converged expected last = false) \/ exists r, read (n + j) = inl r /\ converged expected r = false)
      /\ (converged expected refs = true \/ k = attempts - 1)
  | inr e => exists k, 0 < k < attempts /\ read (n + k) = inr e
      /\ (forall j, j < k -> (j = 0 /\ converged expected last = false) \/ exists r, read (n + j) = inl r /\ converged expected r = false)
  end.
Proof.
  revert n last. induction attempts as [|attempts IH]; intros n last Hlt; [lia|]. simpl.
  destruct (converged expected last) eqn:Ec; simpl.
  { exists 0. split_and!; [lia|by left|lia|by left]. }
  case_bool_decide as E; [by subst|]. destruct (Nat.eqb_spec attempts 0) as [->|Hne].
  { exists 0. split_and!; [lia|by left|lia|right; lia]. }
  destruct (read (S n)) as [r|e] eqn:Er; [|exists 1; split_and!; [lia|lia|by rewrite Nat.add_1_r|intros j Hj; left; split; [lia|done]]].
  specialize (IH (S n) r ltac:(lia)). destruct (read_again read expected attempts (S (S n)) r) as [refs|e].
  - destruct IH as (k & Hk & Hrefs & Hbefore & Hend). exists (S k). split_and!; [lia| | |].
    + right. split; [lia|]. destruct Hrefs as [[-> ->]|[_ Hrefs]]; [by rewrite Nat.add_1_r|]. by rewrite Nat.add_succ_r.
    + intros [|j] Hj; [by left|]. right. destruct (Hbefore j ltac:(lia)) as [[-> Hc]|(r' & Hr' & Hc)].
      * exists r. by rewrite Nat.add_1_r.
      * exists r'. by rewrite Nat.add_succ_r.
    + destruct Hend as [?| ->]; [by left|right; lia].
  - destruct IH as (k & Hk & He & Hbefore). exists (S k). split_and!; [lia|lia|by rewrite Nat.add_succ_r|].
    intros [|j] Hj; [by left|]. right. destruct (Hbefore j ltac:(lia)) as [[-> Hc]|(r' & Hr' & Hc)].
    + exists r. by rewrite Nat.add_1_r.
    + exists r'. by rewrite Nat.add_succ_r.
Qed.

(** Git is told the truth about each ref, and as soon as it shows: when one of the first
    six reads of the refs has every accepted ref where the push left it, and no read before
    it fails, the push ends and reports every accepted ref as done; and whatever is read, a
    ref is reported done exactly when it was accepted and the read it ends with shows it so. *)
Theorem read_back_spec read planned :
  (forall refs p, p ∈ planned ->
     (finalize_one refs false p = PushOk (pl_dst p) <-> is_accepted p = true /\ shows refs (pl_dst p) (pl_new_oid p) = true))
  /\ forall n refs, n < MAX_ATTEMPTS -> read n = inl refs ->
     (forall p, p ∈ planned -> is_accepted p = true -> shows refs (pl_dst p) (pl_new_oid p) = true) ->
     (forall k, k < n -> exists r, read k = inl r) ->
     exists final, read_refs_until_converged read planned = inl final
     /\ forall p, p ∈ planned -> is_accepted p = true -> PushOk (pl_dst p) ∈ finalize_outcomes planned final false.
Proof.
  split; [intros refs p _; apply finalize_one_ok|]. intros n refs Hn Hread Hshow Hbefore. apply converged_true in Hshow.
  unfold read_refs_until_converged. set (expected := map _ (List.filter is_accepted planned)) in *.
  destruct (read 0) as [first|e] eqn:E0.
  2:{ destruct n; [congruence|]. destruct (Hbefore 0 ltac:(lia)) as [r Hr]. congruence. }
  pose proof (read_again_spec read expected MAX_ATTEMPTS 0 first ltac:(unfold MAX_ATTEMPTS; lia)) as Hs.
  assert (forall final, converged expected final = true ->
    forall p, p ∈ planned -> is_accepted p = true -> PushOk (pl_dst p) ∈ finalize_outcomes planned final false) as Hok.
  { intros final Hc p Hp Ha. unfold expected in Hc. rewrite converged_true in Hc. unfold finalize_outcomes. apply list_elem_of_In, in_map_iff.
    exists p. split; [|by apply list_elem_of_In]. apply finalize_one_ok. auto. }
  destruct (read_again read expected MAX_ATTEMPTS 1 first) as [final|e].
  - exists final. split; [done|]. destruct Hs as (k & Hk & Hfinal & Hnot & Hend). apply Hok. destruct Hend as [|Hend]; [done|].
    destruct (Nat.lt_trichotomy n k) as [Hlt|[->|Hgt]]; [|destruct Hfinal as [[-> ->]|[_ Hf]]; simpl in *; congruence|unfold MAX_ATTEMPTS in *; lia].
    destruct (Hnot n Hlt) as [[-> Hc]|(r & Hr & Hc)]; simpl in *; congruence.
  - destruct Hs as (k & Hk & He & Hnot). simpl in He, Hnot. exfalso.
    destruct (Nat.lt_trichotomy n k) as [Hlt|[->|Hgt]]; [|congruence|destruct (Hbefore k Hgt); congruence].
    destruct (Hnot n Hlt) as [[-> Hc]|(r & Hr & Hc)]; congruence.
Qed.

Lemma read_back_spec_witness :
  let read n := inl (if n =? 2 then [("refs/heads/a/b", Resolved "22" "me" 1); ("refs/heads/c", Resolved "22" "me" 1)] else test_refs) in
  exists final, read_refs_until_converged read test_plan = inl final
  /\ forall p, p ∈ test_plan -> is_accepted p = true -> PushOk (pl_dst p) ∈ finalize_outcomes test_plan final false.
Proof.
  refine (proj2 (read_back_spec _ test_plan) 2 _ _ eq_refl _ _); [unfold MAX_ATTEMPTS; lia| |by eexists].
  intros p Hp. repeat (apply elem_of_cons in Hp as [->|Hp]; [reflexivity|]). by apply not_elem_of_nil in Hp.
Defined.
