(* ===== verification/PushAudience.v ===== *)
(** Who the refs of a push are for ([git-remote-dash/src/members.rs] and [helper.rs]): a new
    branch's audience, the refusals before anything is signed, and the refs a clone without the
    hook does not push. *)
From S2P Require Import Wire.
From S2P Require Import Prelude Text Audiences Names RefCollision Refs HelperOptions PushPlan PushWrites.

(** ** A branch's audience *)

Record RepoFacts := mkRepoFacts {
  members_key : bool;
  has_members_branch : bool;
  owner_only : bool;
  rf_empty : bool;
  default_ref : string
}.

Inductive Refusal := AlreadyPublic | DefaultBranch | MembersOff | Ask | MembersBranchPublic.

#[export] Instance Refusal_eq_dec : EqDecision Refusal.
Proof. solve_decision. Defined.

Record Signals := mkSignals {
  existing : option Audience;
  intent : option Audience;
  push_option_audience : option Audience;
  clone_default : option Audience;
  asked_before : bool
}.

(** Whether the new commits build on members-only ones, or why git could not tell; it is asked
    only where the answer is used. *)
Abbreviation Inherits := (bool + string)%type.

Definition if_members (facts : RepoFacts) (inherits : Inherits) : Inherits :=
  if members_key facts then inherits else inl false.

(** A new branch's audience: what was asked, else what its commits were, else the clone's default. *)
Definition chosen_audience (facts : RepoFacts) (s : Signals) (asked : option Audience) (inherits : Inherits)
    : option Audience + string :=
  match asked with
  | Some a => inl (Some a)
  | None =>
    match if_members facts inherits with
    | inr e => inr e
    | inl true => inl (Some Members)
    | inl false => inl (if members_key facts then clone_default s else None)
    end
  end.

Definition decide_new (dst : string) (s : Signals) (facts : RepoFacts) (inherits : Inherits) : (Audience + Refusal) + string :=
  if starts_with "refs/tags/" dst then
    match if_members facts inherits with
    | inr e => inr e
    | inl b => inl (inl (if b then Members else Public))
    end
  else
    let asked := match intent s with Some a => Some a | None => push_option_audience s end in
    if dst == default_ref facts then inl (if asked == Some Members then inr DefaultBranch else inl Public)
    else match chosen_audience facts s asked inherits with
    | inr e => inr e
    | inl chosen =>
      inl match chosen with
      | Some a => if (a == Members) && negb (members_key facts) then inr MembersOff else inl a
      | None =>
        if starts_with "refs/heads/" dst && members_key facts && has_members_branch facts && negb (owner_only facts)
           && negb (rf_empty facts) && negb (asked_before s)
        then inr Ask else inl Public
      end
    end.

Definition decide_audience (dst : string) (s : Signals) (facts : RepoFacts) (inherits : Inherits) : (Audience + Refusal) + string :=
  match existing s with
  | Some Public =>
    inl (if (push_option_audience s == Some Members) || (intent s == Some Members) then inr AlreadyPublic else inl Public)
  | Some a => inl (if push_option_audience s == Some Public then inr MembersBranchPublic else inl a)
  | None => decide_new dst s facts inherits
  end.

Definition parse_audience (v : string) : option Audience :=
  let v := trim v in
  if v == "members" then Some Members else if v == "public" then Some Public else None.

(** The reason git shows for a ref ([refusal_error]). *)
Definition refusal_wire (r : Refusal) : string :=
  match r with
  | AlreadyPublic | DefaultBranch => "already public"
  | MembersOff => "members-only content is off"
  | Ask => "choose who can see this new branch"
  | MembersBranchPublic => "members-only branch"
  end.

Definition narrow_wire (r : Refusal) : string :=
  match r with
  | AlreadyPublic => "already exists for more people"
  | DefaultBranch => "can't be for fewer people"
  | other => refusal_wire other
  end.

Definition set_audience (a : Audience) (p : Planned) : Planned :=
  mkPlanned (pl_spec p) (pl_new_oid p) (pl_prev_oid p) (pl_settles p) (pl_reject p) a.

Definition reject_accepted (reason : string) (planned : list Planned) : list Planned :=
  map (fun p => if is_accepted p then set_reject reason p else p) planned.

(** [-o members] or [-o public]; [inr] is the plan of a push refused for naming both. *)
Definition audience_option (planned : list Planned) (options : OptionState) : option Audience + list Planned :=
  match has_push_option options "members", has_push_option options "public" with
  | true, true => inr (reject_accepted "-o members and -o public together" planned)
  | true, false => inl (Some Members)
  | false, true => inl (Some Public)
  | false, false => inl None
  end.

Section Decide.
(** The clone's configuration, and its refs and commits: a key's value, the audience a value
    spells ([narrow::parse_spec]), whether a revision exists, and whether new commits build on
    members-only ones. *)
Context {EnvAudience Key : Type} (config_get : string -> option string) (parse_spec : string -> option EnvAudience).
Context (rev_exists : string -> bool) (inherits : Oid -> Inherits).

(** What the push read of the repository ([PushView]); the ring says of a name whether this
    pusher may change its audience, and its ledger token. *)
Record PushView := mkPushView {
    pv_remote_refs : RefList;
    pv_public : RefList;
    pv_members_key : bool;
    pv_has_members_branch : bool;
    pv_members_only : list string;
    pv_decryptable : option (list Oid);
    pv_withheld : list Oid;
    pv_audiences : NarrowAudiences;
    pv_decryptable_narrower : list (Oid * string);
    pv_has_keyring : bool;
    pv_ring : string -> option (bool * string);
    pv_narrower_names : string -> option string;
    pv_owner : string;
    pv_roles : option (list string);
    pv_default_branch : string;
    pv_remote : option string
  }.

(** A key made for a new branch, with its ledger token; [None] when there is no randomness. *)
Context (generate : option (Key * string)).

(** The pusher holds the key, so it reads the members-only commits. *)
Definition pv_holds_key (view : PushView) : bool := is_some (pv_decryptable view).

Definition branch_config (src dst : string) : option string :=
  b ← match strip_prefix "refs/heads/" src with Some b => Some b | None => strip_prefix "refs/heads/" dst end;
  config_get ("branch." +:+ b +:+ ".dashAudience").

Definition branch_intent (src dst : string) : option Audience := v ← branch_config src dst; parse_audience v.
Definition narrow_intent (src dst : string) : option EnvAudience := v ← branch_config src dst; parse_spec v.

Record NewBranch := mkNewBranch { nb_key : option Key; nb_audience : EnvAudience }.

Inductive Narrow := NotNarrow | Decided | New (nb : NewBranch).

Definition decide_narrower (p : Planned) (dst : string) (view : PushView) (opt : option Audience) (facts : RepoFacts)
    : Planned * Narrow :=
  match pv_narrower_names view dst with
  | Some token =>
    if is_some (pl_new_oid p) && (opt == Some Public) then (set_reject (refusal_wire MembersBranchPublic) p, Decided)
    else (set_audience (Narrower token) p, Decided)
  | None =>
    match pl_new_oid p ≫= fun _ => narrow_intent (ps_src (pl_spec p)) dst with
    | None => (p, NotNarrow)
    | Some audience =>
      let refusal :=
        if bool_decide (dst ∈ pv_members_only view) || bool_decide (dst ∈ live_names (pv_public view)) then Some AlreadyPublic
        else if (dst == default_ref facts) || negb (starts_with "refs/heads/" dst) then Some DefaultBranch
        else if negb (members_key facts) then Some MembersOff else None in
      match refusal with
      | Some r => (set_reject (narrow_wire r) p, Decided)
      | None =>
        if negb (pv_has_keyring view) then (set_reject (narrow_wire MembersOff) p, Decided)
        else match pv_ring view dst with
        | Some (may_change, token) =>
          if may_change then (set_audience (Narrower token) p, New (mkNewBranch None audience))
          else (set_reject "another key exists for this name" p, Decided)
        | None =>
          match generate with
          | None => (set_reject "no randomness for a new branch key" p, Decided)
          | Some (key, token) => (set_audience (Narrower token) p, New (mkNewBranch (Some key) audience))
          end
        end
      end
    end
  end.

Definition repo_facts (view : PushView) : RepoFacts :=
  mkRepoFacts (pv_members_key view) (pv_has_members_branch view)
    (is_some_and (pv_roles view) (forallb (fun id => id == pv_owner view)))
    (live_names (pv_public view) == []) ("refs/heads/" +:+ pv_default_branch view).

(** A name this clone knows from an earlier fetch, that is not live in public. *)
Definition tracked_members_only (view : PushView) (dst : string) : bool :=
  match pv_remote view, strip_prefix "refs/heads/" dst with
  | Some remote, Some b => negb (bool_decide (dst ∈ live_names (pv_public view))) && rev_exists ("refs/remotes/" +:+ remote +:+ "/" +:+ b)
  | _, _ => false
  end.

Context (asked_before_now : bool).

(** The body of the loop over the accepted refs: the ref, and the new branch it starts. *)
Definition decide_one (view : PushView) (opt : option Audience) (p : Planned) : (Planned * option NewBranch) + string :=
  let facts := repo_facts view in
  let dst := pl_dst p in
  if pv_has_members_branch view && negb (pv_holds_key view) && tracked_members_only view dst
  then inl (set_reject "members-only branch: unlock your key first" p, None)
  else match decide_narrower p dst view opt facts with
  | (p, Decided) => inl (p, None)
  | (p, New nb) => inl (p, Some nb)
  | (p, NotNarrow) =>
    let existing :=
      if bool_decide (dst ∈ pv_members_only view) then Some Members
      else if bool_decide (dst ∈ live_names (pv_public view)) then Some Public else None in
    match pl_new_oid p with
    | None => inl (set_audience (default Public existing) p, None)
    | Some new =>
      let signals := mkSignals existing (branch_intent (ps_src (pl_spec p)) dst) opt
        (v ← config_get "dash.newBranches"; parse_audience v) asked_before_now in
      match decide_audience dst signals facts (inherits new) with
      | inr e => inr e
      | inl (inl a) => inl (set_audience a p, None)
      | inl (inr r) => inl (set_reject (refusal_wire r) p, None)
      end
    end
  end.

Fixpoint decide_each (view : PushView) (opt : option Audience) (planned : list Planned)
    : (list Planned * list (string * NewBranch)) + string :=
  match planned with
  | [] => inl ([], [])
  | p :: planned =>
    match (if is_accepted p then decide_one view opt p else inl (p, None)) with
    | inr e => inr e
    | inl (p, nb) =>
      match decide_each view opt planned with
      | inr e => inr e
      | inl (rest, new) => inl (p :: rest, match nb with Some nb => (pl_dst p, nb) :: new | None => new end)
      end
    end
  end.

Definition decide_audiences (planned : list Planned) (view : PushView) (options : OptionState)
    : (list Planned * list (string * NewBranch)) + string :=
  match audience_option planned options with
  | inr refused => inl (refused, [])
  | inl opt => decide_each view opt planned
  end.
End Decide.

(** The sealed refs of a push whose clone cannot hold the hook ([push_refs]). *)
Definition refuse_sealed (why : string) (planned : list Planned) : list Planned :=
  map (fun p => if is_accepted p && sealed p then set_reject why p else p) planned.

(** ** What is decided *)

(** A new ref that no one asked to be public, whose commits build on members-only ones. *)
Definition asked_for (s : Signals) : option Audience :=
  match intent s with Some a => Some a | None => push_option_audience s end.

(** C28: a branch's audience cannot slip: an existing ref keeps the audience it has; a new one
    is members-only only where the repository has a members key, the default branch is never
    members-only, and a new branch or tag whose commits build on members-only ones becomes
    public only as the default branch or because the pusher asked for it; each refusal has
    its cause, and the pusher is asked only for a new branch that nothing decides, where
    there are members-only branches and someone to hide them from. *)
Theorem decide_audience_spec dst s facts inherits :
  let tag := starts_with "refs/tags/" dst = true in
  match decide_audience dst s facts inherits with
  | inr e => existing s = None /\ members_key facts = true /\ inherits = inr e
  | inl (inl a) =>
    (forall e, existing s = Some e -> a = e)
    /\ (existing s = None ->
          (a = Members -> members_key facts = true)
          /\ (dst = default_ref facts -> ~ tag -> a = Public)
          /\ (a = Public -> members_key facts = true -> inherits = inl true ->
                ~ tag /\ (dst = default_ref facts \/ asked_for s = Some Public)))
  | inl (inr AlreadyPublic) =>
    existing s = Some Public /\ (push_option_audience s = Some Members \/ intent s = Some Members)
  | inl (inr MembersBranchPublic) =>
    (exists a, existing s = Some a /\ a <> Public) /\ push_option_audience s = Some Public
  | inl (inr DefaultBranch) => existing s = None /\ dst = default_ref facts /\ asked_for s = Some Members
  | inl (inr MembersOff) => existing s = None /\ members_key facts = false /\ asked_for s = Some Members
  | inl (inr Ask) =>
    existing s = None /\ asked_for s = None /\ clone_default s = None /\ inherits = inl false
    /\ starts_with "refs/heads/" dst = true /\ dst <> default_ref facts
    /\ members_key facts = true /\ has_members_branch facts = true
    /\ owner_only facts = false /\ rf_empty facts = false /\ asked_before s = false
  end.
Proof.
  cbv zeta. unfold decide_audience. destruct (existing s) as [[| |t]|] eqn:Ee.
  - destruct ((push_option_audience s == Some Members) || _) eqn:E; simpl; [|by split; [intros e [= <-]|]].
    apply orb_true_iff in E as [E%bool_decide_eq_true|E%bool_decide_eq_true]; auto.
  - case_bool_decide; simpl; [|by split; [intros e [= <-]|]]. split; [by exists Members|done].
  - case_bool_decide; simpl; [|by split; [intros e [= <-]|]]. split; [by eexists|done].
  - unfold decide_new, if_members, asked_for. destruct (starts_with "refs/tags/" dst) eqn:Et.
    + destruct (members_key facts) eqn:Em; [destruct inherits as [[]|e]|]; simpl; try done;
        (split; [done|]; intros _; split_and!; congruence || naive_solver).
    + set (asked := match intent s with Some _ => _ | None => _ end).
      case_bool_decide as Ed; [case_bool_decide; simpl; [done|split; [done|]; intros _; split_and!; naive_solver]|].
      unfold chosen_audience, if_members. destruct asked as [a|] eqn:Ea.
      * destruct ((a == Members) && _) eqn:E; simpl.
        -- apply andb_true_iff in E as [->%bool_decide_eq_true ?%negb_true_iff]. done.
        -- split; [done|]. intros _. split_and!; [|done|intros -> _ _; split; [done|by right]].
           intros ->. rewrite bool_decide_eq_true_2 in E by done. by apply negb_false_iff in E.
      * destruct (members_key facts) eqn:Em; [destruct inherits as [[]|e]|]; simpl.
        -- split; [done|]. intros _. by split_and!.
        -- destruct (clone_default s) as [a|] eqn:Ec; simpl.
           ++ rewrite andb_false_r. split; [done|]. intros _. by split_and!.
           ++ rewrite andb_true_r. destruct (_ && _) eqn:E; [|split; [done|]; intros _; by split_and!].
              split_bools. by split_and!.
        -- done.
        -- rewrite andb_false_r. simpl. split; [done|]. intros _. by split_and!.
Qed.

Example decide_ask :
  decide_audience "refs/heads/topic" (mkSignals None None None None false) (mkRepoFacts true true false false "refs/heads/main") (inl false)
  = inl (inr Ask).
Proof. vm_compute. reflexivity. Qed.

(** ** A refused deletion *)

Definition feature_refs : RefList := [("refs/heads/feature", Resolved "11" "me" 1); ("refs/heads/main", Resolved "22" "me" 1)].

(** A member's view of a repository whose branch [feature] is members-only. *)
Definition feature_view : PushView :=
  mkPushView feature_refs [("refs/heads/main", Resolved "22" "me" 1)] true true ["refs/heads/feature"] (Some ["11"]) [] ∅ [] true
    (fun _ => None) (fun _ => None) "me" (Some ["me"; "you"]) "main" (Some "origin").

(** [git push -o public :feature x:feature/x], as planned and decided. *)
Definition feature_plan : list Planned :=
  let options := push_push_option "public" default_options in
  let planned := plan_pushes (fun _ => Some "22") (fun _ _ => true) id
    [mkPushSpec false "" "refs/heads/feature"; mkPushSpec false "x" "refs/heads/feature/x"] feature_refs options in
  match decide_audiences (EnvAudience := unit) (Key := unit) (fun _ => None) (fun _ => None) (fun _ => false) (fun _ => inl false)
    None false planned feature_view options with
  | inl (planned, _) => planned
  | inr _ => []
  end.

Definition feature_write (planned : list Planned) :=
  write_ref_updates test_decode of_bytes id false "me/repo" true None planned (mkMemory [] (fun _ => true)).

(** A new ref outlives the refusal of the deletion that made room for it: where the clone
    cannot hold the hook, the deletion of a members-only branch is refused after the plan let
    a public branch take its place, that branch is written all the same, and the repository
    then holds two refs git cannot. *)
Theorem refused_deletion_collides :
  compatible (live_names feature_refs)
  /\ exists planned w l, feature_write (refuse_sealed "members-only branch: the pre-push hook isn't in place" feature_plan)
       = Some (planned, w, inl tt)
     /\ log w = l /\ refs_now feature_refs (map snd l) = ["refs/heads/feature"; "refs/heads/main"; "refs/heads/feature/x"]
     /\ ~ compatible (refs_now feature_refs (map snd l)).
Proof.
  split.
  { change (compatible ["refs/heads/feature"; "refs/heads/main"]). apply compatible_two, not_collides. vm_compute. reflexivity. }
  eexists _, _, _. split; [vm_compute; reflexivity|]. split; [reflexivity|]. split; [vm_compute; reflexivity|].
  intros H. apply (H "refs/heads/feature" "refs/heads/feature/x").
  - vm_compute. left.
  - vm_compute. right. right. left.
  - done.
  - apply collides_iff. vm_compute. reflexivity.
Qed.
