(* ===== verification/GuardPush.v ===== *)
(** The guard in a push ([git-remote-dash/src/helper.rs], [git-remote-dash/src/members.rs]): what
    it is given of the push and the clone, what its verdict does to the plan, and the pre-push
    hook that runs it for other remotes. *)
From S2P Require Import Wire.
From S2P Require Import Prelude Text Names UserErrors Refs Ledger Audiences Guard PackPlan HelperOptions PushPlan PushWrites PushAudience.

(** ** What a push knows to be sealed *)

Section GuardPush.
Context {G : Type} `{!ObjectGraph G} (g : G).
(** The clone: its ledger, [dash.patchIdCheck], the refs it grafted over, what its revisions
    name, and the lines of [git config --get-all push.pushOption]. *)
Context (ledger : LedgerState) (patch_id_check : bool) (written_grafts : list Oid) (rev_parse : string -> option Oid)
  (permanent_options : list string).

Definition public_tips (view : PushView) : list Oid := live_tips (pv_public view).

Definition known_members_only (view : PushView) : list Oid :=
  btree_elems (list_to_set (default [] (pv_decryptable view) ++ pv_withheld view
    ++ match ledger with Present l => btree_keys (l_commits l) | _ => [] end)).

(** Whether new commits build on members-only ones. *)
Definition inherits_members (view : PushView) (new : Oid) : Inherits :=
  let s_all := known_members_only view in
  if s_all == [] then inl false
  else match (adds ← commits g [new] (public_tips view);
              public_only ← commits g [new] (public_tips view ++ s_all);
              Ok (negb (bool_decide (adds = public_only)))) with
  | Ok b => inl b
  | Err e => inr (error_text e)
  | Panic => inr ""
  end.

Definition accepted_batch (audience : Planned -> Audience) (planned : list Planned) : list BatchRef :=
  map (fun p => mkBatchRef (pl_dst p) (pl_new_oid p) (audience p)) (List.filter is_accepted planned).

Definition OPTION_PUBLISH_PRIVATE : string := "publish-private".

(** Each override names a tip of this push; a permanent one is ignored. *)
Definition publish_private (values : list string) : list Oid :=
  if values == [] then []
  else if existsb (fun l => starts_with OPTION_PUBLISH_PRIVATE (trim l)) permanent_options then []
  else map (fun v => default (to_lower v) (rev_parse v)) values.

Definition publish_override (options : OptionState) : list Oid :=
  publish_private (push_option_values options OPTION_PUBLISH_PRIVATE).

(** ** Running the guard *)

(** A ref whose tip is to be published. *)
Definition lets_through (batch : list BatchRef) (tips : list Oid) (dst : string) : bool :=
  existsb (fun r => (br_dst r == dst) && is_some_and (br_new r) (fun t => bool_decide (t ∈ tips))) batch.

Definition allow_publications (out : Outcome) (batch : list BatchRef) (tips : list Oid) : Outcome :=
  if oc_verdict out == Unavailable then out
  else
    let findings := List.filter (fun f => negb (lets_through batch tips (fi_dst f))) (oc_findings out) in
    mkOutcome (match findings with [] => Pass | _ => Refuse end) findings (oc_notes out)
      (oc_published out ++ List.filter (fun f => lets_through batch tips (fi_dst f)) (oc_findings out)) (oc_gitlinks out) (oc_remade out).

Definition run_guard (input : GuardInput) (publish : list Oid) : Result Outcome :=
  out ← guard g input; Ok (allow_publications out (gi_batch input) publish).

Definition clone_input (members_key : bool) (decryptable : option (list Oid)) (tips : list Oid) (batch : list BatchRef)
    (audiences : NarrowAudiences) (narrower : list (Oid * string)) : GuardInput :=
  mkGuardInput members_key ledger decryptable tips batch None patch_id_check audiences narrower.

(** A push never sends the grafts this helper wrote over parents it cannot read. *)
Definition refuse_written_grafts (planned : list Planned) : list Planned :=
  map (fun p =>
    if is_accepted p && is_some_and (strip_prefix "refs/replace/" (pl_dst p)) (fun x => bool_decide (x ∈ written_grafts))
       && is_some (pl_new_oid p)
    then set_reject "a local graft" p else p) planned.

(** The commits the guard takes as sealed: the ids known without keys do not make up for a
    history nobody here can read. *)
Definition push_decryptable (view : PushView) : option (list Oid) :=
  let members_only_exists := pv_members_key view && pv_has_members_branch view in
  if negb (pv_withheld view == [])
     && (is_some (pv_decryptable view) || negb members_only_exists || match ledger with Present _ => true | _ => false end)
  then Some (known_members_only view) else pv_decryptable view.

(** The narrower audiences the pusher knows, with those of the branches this push starts. *)
Definition push_audiences {Key} (planned : list Planned) (view : PushView)
    (new_branches : list (string * NewBranch (EnvAudience := EnvAudience) (Key := Key))) : NarrowAudiences :=
  foldl (fun audiences '(dst, nb) =>
    match pl_audience <$> List.find (fun p => pl_dst p == dst) planned with
    | Some (Narrower token) => <[token := narrow_audience (nb_audience nb)]> audiences
    | _ => audiences
    end) (pv_audiences view) new_branches.

Definition push_input {Key} (planned : list Planned) (view : PushView)
    (new_branches : list (string * NewBranch (EnvAudience := EnvAudience) (Key := Key))) : GuardInput :=
  clone_input (pv_members_key view && pv_has_members_branch view) (push_decryptable view) (public_tips view)
    (accepted_batch pl_audience planned) (push_audiences planned view new_branches) (pv_decryptable_narrower view).

(** Why a ref of a refused batch is not pushed. *)
Definition refused_why (findings : list Finding) (p : Planned) : string :=
  if existsb (fun f => fi_dst f == pl_dst p) findings then
    if sealed p then "would show commits to people who can't read them now" else "would publish members-only commits"
  else "not pushed: another ref of this push would publish members-only commits".

Definition reject_with (why : Planned -> string) (planned : list Planned) : list Planned :=
  map (fun p => if is_accepted p then set_reject (why p) p else p) planned.

Definition guard_push {Key} (planned : list Planned) (view : PushView)
    (new_branches : list (string * NewBranch (EnvAudience := EnvAudience) (Key := Key))) (options : OptionState) : Result (list Planned) :=
  let planned := refuse_written_grafts planned in
  match accepted_batch pl_audience planned with
  | [] => Ok planned
  | _ =>
    out ← run_guard (push_input planned view new_branches) (publish_override options);
    Ok match oc_verdict out with
    | Unavailable => reject_accepted "can't check for members-only commits" planned
    | Refuse => reject_with (refused_why (oc_findings out)) planned
    | Pass => planned
    end
  end.

(** The packs of the sealed refs, each on the previous tip the clone holds ([members_pack_jobs]). *)
Definition members_pack_jobs (object_exists : Oid -> bool) (planned : list Planned) (tips : list Oid) : list MembersPackJob :=
  let prev := foldl (fun m p =>
    match pl_prev_oid p with
    | Some o => if object_exists o then <[pl_dst p := o]> m else m
    | None => m
    end) ∅ (List.filter (fun p => is_accepted p && sealed p) planned) in
  pp_members (plan_packs tips prev (accepted_batch pl_audience planned)).

Definition holds_members_only (state : LedgerState) : bool :=
  match state with Absent => false | Unknown => true | Present l => negb (ledger_is_empty l) end.

(** A private repository's members are another audience: every ref is judged as a public one. *)
Definition private_input (known_public_tips : list Oid) (planned : list Planned) (remote_refs : RefList) : GuardInput :=
  clone_input false None (live_tips remote_refs ++ known_public_tips) (accepted_batch (fun _ => Public) planned) ∅ [].

Definition guard_private_push (known_public_tips : list Oid) (planned : list Planned) (remote_refs : RefList) (options : OptionState)
    : Result (list Planned) :=
  if negb (holds_members_only ledger) then Ok planned
  else
    let planned := refuse_written_grafts planned in
    match accepted_batch (fun _ => Public) planned with
    | [] => Ok planned
    | _ =>
      out ← run_guard (private_input known_public_tips planned remote_refs) (publish_override options);
      Ok match oc_verdict out with
      | Unavailable => reject_accepted "can't check for members-only commits" planned
      | Refuse => reject_accepted "would publish members-only commits" planned
      | Pass => planned
      end
    end.

(** ** The pre-push hook *)

Record HookLine := mkHookLine {
    hl_local_oid : Oid;
    hl_remote_ref : string;
    hl_remote_oid : Oid
  }.

Definition parse_hook_input (input : string) : list HookLine :=
  omap (fun l =>
    match split_whitespace l with
    | _ :: local_oid :: remote_ref :: remote_oid :: _ => Some (mkHookLine local_oid remote_ref remote_oid)
    | _ => None
    end) (str_lines input).

Definition all_zeros (o : Oid) : bool := forallb (fun b => b == "0"%char) (bytes o).

(** Every update is judged as a public one, against what is public and what the remote has. *)
Definition hook_input (known_public_tips : list Oid) (updates : list HookLine) : GuardInput :=
  mkGuardInput true ledger None
    (known_public_tips ++ map hl_remote_oid (List.filter (fun u => negb (all_zeros (hl_remote_oid u))) updates))
    (map (fun u => mkBatchRef (hl_remote_ref u) (if all_zeros (hl_local_oid u) then None else Some (hl_local_oid u)) Public) updates)
    None false ∅ [].

(** The updates that send a graft this helper wrote. *)
Definition graft_refs (updates : list HookLine) : list string :=
  List.filter (fun x => bool_decide (x ∈ written_grafts))
    (omap (fun u => if all_zeros (hl_local_oid u) then None else strip_prefix "refs/replace/" (hl_remote_ref u)) updates).

(** The exit code; [served] says that the helper git runs for [dash://] is this one. *)
Definition pre_push (served : bool) (known_public_tips : list Oid) (args : list string) (input : string) : Result N :=
  let url := default (default "" (head args)) (args !! 1) in
  let updates := parse_hook_input input in
  if negb (holds_members_only ledger) then Ok 0%N
  else if starts_with "dash://" url && served then Ok 0%N
  else match ledger with
  | Unknown => Ok 1%N
  | _ =>
    out ← guard g (hook_input known_public_tips updates);
    Ok (if (oc_verdict out == Pass) && (graft_refs updates == []) then 0%N else 1%N)
  end.
End GuardPush.

(** ** What a push that was let through shows *)

Section GuardPush_facts.
Context {G : Type} `{!ObjectGraph G, !GraphLaws G} (g : G).
Context (ledger : LedgerState) (patch_id_check : bool) (written_grafts : list Oid) (rev_parse : string -> option Oid)
  (permanent_options : list string).

Lemma run_guard_spec input publish out :
  gi_publish_private input = None -> run_guard g input publish = Ok out ->
  match oc_verdict out with
  | Unavailable => unavailable input = true
  | Pass => forall u t o, u ∈ gi_batch input -> br_new u = Some t ->
      lets_through (gi_batch input) publish (br_dst u) = false -> ~ Shows g input true u t o
  | Refuse => exists u t o, (u ∈ gi_batch input) /\ br_new u = Some t
      /\ lets_through (gi_batch input) publish (br_dst u) = false /\ Shows g input false u t o
  end.
Proof.
  intros Hnone (out' & Hg & [= <-])%bind_Ok. apply (guard_facts g) in Hg as [[Hu ->]|(Hu & Hv & H1 & H2)]; [done|].
  unfold allow_publications. rewrite bool_decide_eq_false_2 by (rewrite Hv; by destruct (oc_findings out')). simpl.
  assert (forall u t, judged input u t <-> br_new u = Some t) as Hj by (intros u t; unfold judged; rewrite Hnone; naive_solver).
  setoid_rewrite Hj in H1. setoid_rewrite Hj in H2. clear Hj.
  assert (forall f, f ∈ List.filter (fun f => negb (lets_through (gi_batch input) publish (fi_dst f))) (oc_findings out')
    <-> f ∈ oc_findings out' /\ lets_through (gi_batch input) publish (fi_dst f) = false) as Hf.
  { intros f. by rewrite list_elem_of_In, filter_In, <-list_elem_of_In, negb_true_iff. }
  destruct (List.filter _ _) as [|f fs].
  - intros u t o Hin Hnew Hno Hs. destruct (H1 u t o Hin Hnew Hs) as (f & Hfin & Hdst).
    assert (f ∈ []) as ?%not_elem_of_nil; [|done]. apply Hf. by rewrite Hdst.
  - destruct (proj1 (Hf f)) as [Hin Hno]; [apply elem_of_cons; by left|].
    destruct (H2 f Hin) as (u & t & o & Hu' & Hdst & Hnew & Hs). exists u, t, o. by rewrite <-Hdst.
Qed.

(** A plan changes only by refusing some of its refs. *)
Definition only_refuses : list Planned -> list Planned -> Prop :=
  Forall2 (fun p q => q = p \/ (is_accepted p = true /\ exists why, q = set_reject why p)).

Lemma map_refuses (c : Planned -> bool) (why : Planned -> string) planned : (forall p, c p = true -> is_accepted p = true) ->
  only_refuses planned (map (fun p => if c p then set_reject (why p) p else p) planned).
Proof.
  intros Hc. induction planned as [|p planned IH]; simpl; constructor; [|done].
  destruct (c p) eqn:E; [right; split; [auto|by exists (why p)]|by left].
Qed.

Lemma only_refuses_trans a b c : only_refuses a b -> only_refuses b c -> only_refuses a c.
Proof.
  intros H. revert c. induction H as [|p q a b Hpq Hab IH]; intros c Hbc; inversion Hbc as [|? r ? c' Hqr Hbc']; subst; constructor; [|by apply IH].
  destruct Hpq as [->|(Hp & why & ->)]; [done|]. destruct Hqr as [->|(_ & why' & ->)]; right; (split; [done|]); by eexists.
Qed.

Lemma refused_all planned c : (forall p, c p = is_accepted p) -> forall why p,
  p ∈ map (fun p => if c p then set_reject (why p) p else p) planned -> is_accepted p = false.
Proof.
  intros Hc why p (q & <- & _)%list_elem_of_In%in_map_iff. rewrite Hc. by destruct (is_accepted q) eqn:E.
Qed.

Lemma elem_of_accepted_batch audience planned u :
  u ∈ accepted_batch audience planned <-> exists p, (p ∈ planned) /\ is_accepted p = true /\ u = mkBatchRef (pl_dst p) (pl_new_oid p) (audience p).
Proof.
  unfold accepted_batch. rewrite list_elem_of_In, in_map_iff. setoid_rewrite filter_In. setoid_rewrite <-list_elem_of_In. naive_solver.
Qed.

(** A ref that an override of this push publishes: its tip is one the pusher named. *)
Definition published (planned : list Planned) (options : OptionState) (dst : string) : Prop :=
  exists p t, (p ∈ planned) /\ pl_dst p = dst /\ pl_new_oid p = Some t /\ t ∈ publish_override rev_parse permanent_options options.

Lemma not_published planned options dst : ~ published planned options dst ->
  lets_through (accepted_batch pl_audience (refuse_written_grafts written_grafts planned))
    (publish_override rev_parse permanent_options options) dst = false.
Proof.
  intros Hno. unfold lets_through. rewrite <-not_true_iff_false, existsb_exists.
  intros (r & (p & Hp & _ & ->)%list_elem_of_In%elem_of_accepted_batch & [Hdst%bool_decide_eq_true Ht]%andb_true_iff). apply Hno.
  unfold refuse_written_grafts in Hp. apply list_elem_of_In, in_map_iff in Hp as (q & <- & Hq%list_elem_of_In). simpl in *.
  exists q. revert Hdst Ht. destruct (_ && _); cbn; destruct (pl_new_oid q) as [t|]; try done; intros <- Ht%bool_decide_eq_true; by exists t.
Qed.

Lemma guard_push_spec {Key} planned view (new_branches : list (string * NewBranch (Key := Key))) options planned' :
  guard_push g ledger patch_id_check written_grafts rev_parse permanent_options planned view new_branches options = Ok planned' ->
  only_refuses planned planned'
  /\ forall p t o, p ∈ planned' -> is_accepted p = true -> pl_new_oid p = Some t -> ~ published planned options (pl_dst p) ->
     ~ Shows g (push_input ledger patch_id_check (refuse_written_grafts written_grafts planned) view new_branches) true
         (mkBatchRef (pl_dst p) (Some t) (pl_audience p)) t o.
Proof.
  unfold guard_push. set (refused := refuse_written_grafts written_grafts planned).
  assert (only_refuses planned refused) as Href.
  { apply (map_refuses _ (fun _ => "a local graft")). intros p Hp. by apply andb_true_iff in Hp as [[? _]%andb_true_iff _]. }
  destruct (accepted_batch pl_audience refused) as [|u us] eqn:Eb.
  - intros [= <-]. split; [done|]. intros p t o Hin Hacc _ _ _.
    assert (mkBatchRef (pl_dst p) (pl_new_oid p) (pl_audience p) ∈ accepted_batch pl_audience refused) as H
      by (apply elem_of_accepted_batch; by exists p). rewrite Eb in H. by apply not_elem_of_nil in H.
  - intros (out & Hout & [= <-])%bind_Ok. apply run_guard_spec in Hout; [|done]. destruct (oc_verdict out).
    + split; [done|]. intros p t o Hin Hacc Hnew Hpub. apply Hout; [|done|by apply not_published].
      apply elem_of_accepted_batch. exists p. by rewrite Hnew.
    + split; [eapply only_refuses_trans; [exact Href|by apply map_refuses]|].
      intros p t o Hin Hacc. apply refused_all in Hin; [congruence|done].
    + split; [eapply only_refuses_trans; [exact Href|by apply map_refuses]|].
      intros p t o Hin Hacc. apply (refused_all refused is_accepted) in Hin; [congruence|done].
Qed.

(** C3: no sealed commit goes out. Let the guard pass a plan, and let what follows refuse more of it:
    then whatever lands when the plan is written is an update of a ref the guard judged, in the lane
    of its audience, and unless the pusher asked to publish that very tip, it brings no commit to
    anyone it is sealed from. A public ref gets no commit that a sealed id reaches and no public tip
    does, and names (by its tags, a target that is no commit, its notes' targets or the object it
    replaces) no object that a sealed id contains and no public tip does; a sealed ref gets no commit
    that only audiences it is not within hold. What trees and blobs a re-made public commit has is
    the pusher's to decide: [Guard.example_squash_passes]. *)
Theorem sealed_commits_stay_in {Key W} `{!Chain W, !ChainLaws W} hex_decode hex_encode debug private repo_display lane ring
    planned view (new_branches : list (string * NewBranch (Key := Key))) options guarded final (w : W) :
  guard_push g ledger patch_id_check written_grafts rev_parse permanent_options planned view new_branches options = Ok guarded ->
  only_refuses guarded final ->
  exists after w' r l,
    write_ref_updates hex_decode hex_encode debug private repo_display lane ring final w = Some (after, w', r)
    /\ log w' = log w ++ l
    /\ forall at_ u, (at_, u) ∈ l -> exists p ws, (p ∈ final) /\ is_accepted p = true /\ at_ = lane_of p
       /\ planned_writes hex_decode debug p = inl ws /\ (u ∈ ws)
       /\ forall t o, pl_new_oid p = Some t -> ~ published planned options (pl_dst p) ->
          ~ Shows g (push_input ledger patch_id_check (refuse_written_grafts written_grafts planned) view new_branches) true
              (mkBatchRef (pl_dst p) (Some t) (pl_audience p)) t o.
Proof.
  intros [_ Hguard]%guard_push_spec Hfinal.
  destruct (write_ref_updates_done hex_decode hex_encode debug private repo_display lane ring final w)
    as (after & w' & r & Hw & (_ & l & Hl & Honly & _) & _).
  exists after, w', r, l. split_and!; [done|done|]. intros at_ u (i & ws & Hi & Hws & Hu & Hlane)%Honly.
  apply (elem_of_accepted hex_decode debug repo_display) in Hi as [Hlt Hacc]. exists (final !!! i), ws.
  assert (final !!! i ∈ final) as Hin by (apply list_elem_of_lookup_2 with i, list_lookup_lookup_total_lt; lia).
  split_and!; [done..|]. intros t o. apply Hguard; [|done].
  apply list_lookup_lookup_total_lt in Hlt. destruct (Forall2_lookup_r _ _ _ _ _ Hfinal Hlt) as (q & Hq & [->|(_ & why & E)]).
  - by apply list_elem_of_lookup_2 in Hq.
  - by rewrite E in Hacc.
Qed.

(** C26: the hook stops what the helper cannot see: a push to another remote that the hook lets
    through shows nothing the clone's ledger records as sealed, from what is public and what the
    remote has, and sends none of the grafts this helper wrote; and a ledger that cannot be read
    lets nothing through. *)
Theorem pre_push_safe served tips args input :
  pre_push g ledger written_grafts served tips args input = Ok 0%N -> holds_members_only ledger = true ->
  starts_with "dash://" (default (default "" (head args)) (args !! 1)) && served = false ->
  let updates := parse_hook_input input in
  ledger <> Unknown /\ graft_refs written_grafts updates = []
  /\ forall h o, h ∈ updates -> all_zeros (hl_local_oid h) = false ->
     ~ Shows g (hook_input ledger tips updates) true (mkBatchRef (hl_remote_ref h) (Some (hl_local_oid h)) Public) (hl_local_oid h) o.
Proof.
  cbv zeta. unfold pre_push. intros H Hholds Hserved. rewrite Hholds, Hserved in H. simpl in H.
  assert (ledger <> Unknown) as Hknown by (by intros E; rewrite E in H).
  assert (exists out, guard g (hook_input ledger tips (parse_hook_input input)) = Ok out /\ oc_verdict out = Pass
    /\ graft_refs written_grafts (parse_hook_input input) = []) as (out & Hout & Hpass & Hgrafts).
  { destruct ledger; [done|done|]. apply bind_Ok in H as (out & Hout & H). exists out. split; [done|].
    revert H. repeat case_bool_decide; simpl; done. }
  split_and!; [done|done|]. intros h o Hin Hz. apply (guard_facts g) in Hout as [[_ ->]|(_ & Hv & H1 & _)]; [done|].
  intros Hs. destruct (H1 (mkBatchRef (hl_remote_ref h) (Some (hl_local_oid h)) Public) (hl_local_oid h) o) as (f & Hf & _); [|done|done|].
  - simpl. apply list_elem_of_In, in_map_iff. exists h. rewrite Hz, <-list_elem_of_In. done.
  - rewrite Hpass in Hv. destruct (oc_findings out); [by apply not_elem_of_nil in Hf|done].
Qed.
End GuardPush_facts.

(** ** A push from a clone that holds a members-only commit *)

Definition secret_ledger : LedgerState := Present (mkLedger {["m" := EntryMembers]} ∅).

Definition secret_view : PushView :=
  mkPushView [("refs/heads/main", Resolved "base" "me" 1)] [("refs/heads/main", Resolved "base" "me" 1)] true true []
    None [] ∅ [] false (fun _ => None) (fun _ => None) "me" (Some ["me"; "you"]) "main" (Some "origin").

Definition secret_plan (t : Oid) : list Planned :=
  [mkPlanned (mkPushSpec false "x" "refs/heads/main") (Some t) (Some "base") [] None Public;
   mkPlanned (mkPushSpec false "x" "refs/heads/sec") (Some "m") None [] None Members].

Abbreviation secret_push t options :=
  (guard_push (Key := unit) example_graph secret_ledger false [] (fun _ => None) [] (secret_plan t) secret_view [] options).

Example push_refused : (p ← secret_push "y" default_options; Ok (map pl_reject p))
  = Ok [Some "would publish members-only commits"; Some "not pushed: another ref of this push would publish members-only commits"].
Proof. vm_compute. reflexivity. Qed.

Example push_overridden : (p ← secret_push "y" (push_push_option "publish-private=y" default_options); Ok (map pl_reject p)) = Ok [None; None].
Proof. vm_compute. reflexivity. Qed.

Lemma sealed_commits_stay_in_witness :
  exists after w' r l,
    write_ref_updates test_decode of_bytes id false "me/repo" true None (secret_plan "x") (mkMemory [] (fun _ => true)) = Some (after, w', r)
    /\ log w' = log (mkMemory [] (fun _ => true)) ++ l
    /\ forall at_ u, (at_, u) ∈ l -> exists p ws, (p ∈ secret_plan "x") /\ is_accepted p = true /\ at_ = lane_of p
       /\ planned_writes test_decode id p = inl ws /\ (u ∈ ws)
       /\ forall t o, pl_new_oid p = Some t -> ~ published (fun _ => None) [] (secret_plan "x") default_options (pl_dst p) ->
          ~ Shows example_graph (push_input secret_ledger false (Key := unit) (refuse_written_grafts [] (secret_plan "x")) secret_view []) true
              (mkBatchRef (pl_dst p) (Some t) (pl_audience p)) t o.
Proof.
  assert (secret_push "x" default_options = Ok (secret_plan "x")) as H by (vm_compute; reflexivity).
  apply (sealed_commits_stay_in example_graph secret_ledger false [] (fun _ => None) [] test_decode of_bytes id false "me/repo" true None
    (secret_plan "x") secret_view [] default_options (secret_plan "x") (secret_plan "x") (mkMemory [] (fun _ => true)) H).
  repeat constructor.
Defined.

Definition hook_line (t : string) : string :=
  "refs/heads/main " +:+ t +:+ " refs/heads/main 0000" +:+ newline.

Example hook_stops : pre_push example_graph secret_ledger [] true ["base"] ["github"; "https://example.com/r"] (hook_line "y") = Ok 1%N.
Proof. vm_compute. reflexivity. Qed.

Lemma pre_push_safe_witness :
  pre_push example_graph secret_ledger [] true ["base"] ["github"; "https://example.com/r"] (hook_line "x") = Ok 0%N
  /\ secret_ledger <> Unknown.
Proof.
  assert (pre_push example_graph secret_ledger [] true ["base"] ["github"; "https://example.com/r"] (hook_line "x") = Ok 0%N) as H
    by (vm_compute; reflexivity).
  split; [exact H|]. apply (pre_push_safe example_graph secret_ledger [] true ["base"] ["github"; "https://example.com/r"] (hook_line "x") H).
  - vm_compute. reflexivity.
  - vm_compute. reflexivity.
Defined.
