(* ===== verification/RemoteHelper.v ===== *)
(** The remote helper's session with git ([git-remote-dash/src/main.rs], [url.rs]): the URL it
    serves, the lines git writes, and the loop that answers them. *)
From S2P Require Import Wire.
From S2P Require Import Prelude Text UserErrors Names HelperOptions PushPlan.

(** ** The URL *)

Definition SCHEME : string := "dash".

Inductive DashUrl := Named (owner repo : string) | Id (id : string).

Definition url_shown (u : DashUrl) : string := match u with Named owner repo => owner +:+ "/" +:+ repo | Id id => id end.

Definition looks_like_id (s : string) : bool :=
  (40 <=? String.length s) && (String.length s <=? 44)
  && forallb (fun c => is_alnum c && negb (existsb (fun x => c == x) ["0"; "O"; "I"; "l"]%char)) (bytes s).

Definition strip_git (s : string) : string := default s (strip_suffix ".git" s).

Section Url.
(** [{:?}] of a text. *)
Context (debug : string -> string).

Definition parse_url (url : string) : DashUrl + string :=
  match strip_prefix (SCHEME +:+ "://") url with
  | None => inr ("not a " +:+ SCHEME +:+ ":// URL: " +:+ debug url)
  | Some rest =>
    match split_once "/"%char rest with
    | None =>
      let id := strip_git rest in
      if looks_like_id id then inl (Id id)
      else inr (SCHEME +:+ ":// URL is missing a repo name: " +:+ debug url
        +:+ " (expected dash://<owner>/<repo>, or dash://<id> with a base58 repo id)")
    | Some (owner, repo_seg) =>
      if owner == "" then inr (SCHEME +:+ ":// URL is missing an owner: " +:+ debug url)
      else if repo_seg == "" then inr (SCHEME +:+ ":// URL is missing a repo name: " +:+ debug url)
      else if existsb (fun c => c == "/"%char) (bytes repo_seg) then
        inr (SCHEME +:+ ":// URL has an unexpected sub-path: " +:+ debug url +:+ " (expected dash://<owner>/<repo>)")
      else
        let repo := strip_git repo_seg in
        if repo == "" then inr (SCHEME +:+ ":// URL repo name is empty after stripping .git: " +:+ debug url)
        else inl (Named owner repo)
    end
  end.
End Url.

(** ** The lines git writes *)

(** The object id of a [fetch <oid> <name>] line. *)
Definition parse_fetch_line (line : string) : option Oid :=
  match split_whitespace line with
  | c :: oid :: _ => if c == "fetch" then Some oid else None
  | _ => None
  end.

Definition parse_push_line (line : string) : option PushSpec :=
  rest ← strip_prefix "push " line;
  '(src_raw, dst) ← split_once ":"%char rest;
  Some (mkPushSpec (starts_with "+" src_raw) (default src_raw (strip_prefix "+" src_raw)) (trim dst)).

(** ** The session *)

Record HelperGoal := mkGoal {
  goal_lead : string;
  goal_rejected : option string;
  goal_repo : option string;
  goal_idempotent : bool
}.

Definition set_goal (pushing : bool) (opts : OptionState) (g : HelperGoal) : HelperGoal :=
  let '(lead, rejected) :=
    if pushing then ("push failed", Some "push rejected")
    else if cloning opts then ("clone failed", None) else ("fetch failed", None) in
  mkGoal lead rejected (goal_repo g) true.

Definition nl : string := of_bytes [byte_of 10].
Definition CAPABILITIES : string := "fetch" +:+ nl +:+ "push" +:+ nl +:+ "option" +:+ nl +:+ nl.

(** What a session does: what it writes to git, the ledger it makes sure of, the operations it
    starts, and the refusal it reports. *)
Inductive Event :=
| Wrote (text : string)
| LedgerEnsured
| Listed (for_push : bool)
| Fetched (wants : list Oid)
| Pushed (specs : list PushSpec)
| Rejected (dst reason : string).

Definition wrote_line (l : string) : Event := Wrote (l +:+ nl).

Section Session.
(** The repository the helper serves, with its errors: [phrased] says that one is written for a
    person, [context] puts a step before one, and [of_user] is one of the helper's own. *)
Context {H E : Type} (phrased : E -> bool) (with_context : string -> E -> E) (of_user : UserError -> E).
Context (list_refs : H -> bool -> H * (list string + E)).
Context (fetch : H -> list Oid -> OptionState -> H * (unit + E)).
Context (push_refs : H -> list PushSpec -> OptionState -> H * (list PushOutcome + E)).
Context (in_clone : bool) (debug : string -> string).

(** [Helper::push]: what names [HEAD] is answered without a write. *)
Definition push (h : H) (specs : list PushSpec) (opts : OptionState) : H * (list PushOutcome + E) :=
  let outcomes := map head_outcome (List.filter (fun s => is_head (ps_dst s)) specs) in
  let refs := List.filter (fun s => negb (is_head (ps_dst s))) specs in
  if refs == [] then (h, inl outcomes)
  else match push_refs h refs opts with
  | (h, inl out) => (h, inl (outcomes ++ out))
  | (h, inr e) => (h, inr e)
  end.

Definition step {A} (r : A + E) (what : string) : A + E :=
  match r with
  | inl a => inl a
  | inr e => inr (if phrased e then e else with_context what e)
  end.

Definition fail_if_shallow (opts : OptionState) : option E :=
  msg ← fatal opts;
  Some (of_user (with_fix "use a partial clone instead: `git clone --filter=blob:none dash://…`"
    (with_cause msg (new_error UNSUPPORTED "shallow clone is not supported by dash://")))).

(** The rest of a batch, up to its blank line or the end, with the lines after it. *)
Fixpoint read_batch {A} (parse : string -> option A) (lines : list (string + E)) : (list A * list (string + E)) + E :=
  match lines with
  | [] => inl ([], [])
  | inr e :: _ => inr e
  | inl l :: lines =>
    if l == "" then inl ([], lines)
    else match read_batch parse lines with
    | inr e => inr e
    | inl (items, rest) => inl (option_list (parse l) ++ items, rest)
    end
  end.

(** A session between two commands. *)
Record Session := mkSession {
    s_helper : H;
    s_opts : OptionState;
    s_goal : HelperGoal;
    s_events : list Event
  }.

Definition emit (es : list Event) (s : Session) : Session :=
  mkSession (s_helper s) (s_opts s) (s_goal s) (s_events s ++ es).
Definition aim (pushing : bool) (s : Session) : Session :=
  mkSession (s_helper s) (s_opts s) (set_goal pushing (s_opts s) (s_goal s)) (s_events s).
Definition with_helper (h : H) (s : Session) : Session := mkSession h (s_opts s) (s_goal s) (s_events s).

Definition do_option (rest : string) (s : Session) : Session :=
  let '(opts, reply) := handle_option debug (s_opts s) rest in
  mkSession (s_helper s) opts (s_goal s) (s_events s ++ [wrote_line (reply_wire reply)]).

Definition do_list (goal_push for_push : bool) (s : Session) : Session * option E :=
  let s := aim goal_push s in
  match fail_if_shallow (s_opts s) with
  | Some e => (s, Some e)
  | None =>
    let s := if negb for_push && in_clone then emit [LedgerEnsured] s else s in
    let '(h, out) := list_refs (s_helper s) for_push in
    let s := emit [Listed for_push] (with_helper h s) in
    match step out "list refs" with
    | inr e => (s, Some e)
    | inl lines => (emit (map wrote_line lines ++ [wrote_line ""]) s, None)
    end
  end.

Definition do_fetch (wants : list Oid) (s : Session) : Session * option E :=
  let '(h, out) := fetch (s_helper s) wants (s_opts s) in
  let s := emit [Fetched wants] (with_helper h s) in
  match step out "fetch objects" with
  | inr e => (s, Some e)
  | inl _ => (emit [wrote_line ""] s, None)
  end.

Definition first_rejected (outcomes : list PushOutcome) : list Event :=
  match List.find (fun o => match o with PushError _ _ => true | PushOk _ => false end) outcomes with
  | Some (PushError dst why) => [Rejected dst why]
  | _ => []
  end.

Definition do_push (specs : list PushSpec) (s : Session) : Session * option E :=
  let '(h, out) := push (s_helper s) specs (s_opts s) in
  let s := emit [Pushed specs] (with_helper h s) in
  match step out "push refs" with
  | inr e => (s, Some e)
  | inl outcomes =>
    (emit (map (fun o => wrote_line (outcome_wire o)) outcomes ++ first_rejected outcomes ++ [wrote_line ""]) s, None)
  end.

Definition command_of (line : string) : string := default "" (head (split_whitespace line)).

(** The session ends with an error, or without one; [None] is a lack of fuel. *)
Fixpoint protocol_loop (fuel : nat) (lines : list (string + E)) (s : Session) : option (Session * option E) :=
  match fuel with
  | O => None
  | S fuel =>
    match lines with
    | [] => Some (s, None)
    | inr e :: _ => Some (s, Some e)
    | inl line :: lines =>
      let command := command_of line in
      if command == "" then Some (s, None)
      else if command == "capabilities" then protocol_loop fuel lines (emit [Wrote CAPABILITIES] s)
      else if command == "option" then
        protocol_loop fuel lines (do_option (default "" (strip_prefix "option " line)) s)
      else if command == "list" then
        match do_list (str_contains "for-push" line) (bool_decide (split_whitespace line !! 1 = Some "for-push")) s with
        | (s, Some e) => Some (s, Some e)
        | (s, None) => protocol_loop fuel lines s
        end
      else if command == "fetch" then
        let s := aim false s in
        match fail_if_shallow (s_opts s) with
        | Some e => Some (s, Some e)
        | None =>
          match read_batch parse_fetch_line lines with
          | inr e => Some (s, Some e)
          | inl (wants, lines) =>
            match do_fetch (option_list (parse_fetch_line line) ++ wants) s with
            | (s, Some e) => Some (s, Some e)
            | (s, None) => protocol_loop fuel lines s
            end
          end
        end
      else if command == "push" then
        let s := aim true s in
        match read_batch parse_push_line lines with
        | inr e => Some (s, Some e)
        | inl (specs, lines) =>
          match do_push (option_list (parse_push_line line) ++ specs) s with
          | (s, Some e) => Some (s, Some e)
          | (s, None) => protocol_loop fuel lines s
          end
        end
      else protocol_loop fuel lines s
    end
  end.

Definition run (lines : list (string + E)) (s : Session) : option (Session * option E) :=
  protocol_loop (S (length lines)) lines s.
End Session.

Definition test_goal : HelperGoal := mkGoal "git-remote-dash failed" None None false.
Definition test_run (lines : list string) : option (list Event * option string) :=
  (fun '(s, e) => (s_events s, e))
  <$> run (fun _ => false) (fun c e => c +:+ ": " +:+ e) ue_message (fun h _ => (h, inl ["aa refs/heads/main"]))
        (fun h _ _ => (h, inl tt)) (fun h specs _ => (h, inl (map (fun s => PushOk (ps_dst s)) specs))) true id
        (map inl lines) (mkSession tt default_options test_goal []).

Example session_push :
  test_run ["capabilities"; "list for-push"; "push +x:refs/heads/a"; "push :HEAD"; ""; ""; "list"]
  = Some ([Wrote CAPABILITIES; Listed true; wrote_line "aa refs/heads/main"; wrote_line "";
      Pushed [mkPushSpec true "x" "refs/heads/a"; mkPushSpec false "" "HEAD"];
      wrote_line "ok HEAD"; wrote_line "ok refs/heads/a"; wrote_line ""], None).
Proof. vm_compute. reflexivity. Qed.
Example session_shallow :
  test_run ["option depth 1"; "list"] = Some ([wrote_line ("error " +:+ SHALLOW_UNSUPPORTED)], Some "shallow clone is not supported by dash://").
Proof. vm_compute. reflexivity. Qed.
Example url_named : parse_url id "dash://alice/site.git" = inl (Named "alice" "site").
Proof. vm_compute. reflexivity. Qed.

(** ** Words *)

(** Text of visible ASCII only. *)
Definition visible (s : string) : bool := forallb (byte_in 33 126) (bytes s).

Lemma visible_cons c s : visible (String c s) = true <-> byte_in 33 126 c = true /\ visible s = true.
Proof. unfold visible. change (bytes (String c s)) with (c :: bytes s). simpl. by rewrite andb_true_iff. Qed.

Lemma visible_not_space c s : byte_in 33 126 c = true -> strip_any WHITE_SPACE (String c s) = None.
Proof. destruct c as [[] [] [] [] [] [] [] []]; intros Hc; try discriminate Hc; vm_compute; reflexivity. Qed.

Lemma words_visible g n word s :
  visible g = true -> words (String.length g + n) word (g +:+ s) = words n (word +:+ g) s.
Proof.
  revert word. induction g as [|c g IH]; intros word; [by rewrite str_app_nil, str_nil_app|].
  intros [Hc Hg]%visible_cons. rewrite str_cons_app. change (String.length (String c g) + n) with (S (String.length g + n)).
  cbn [words]. rewrite visible_not_space by done. rewrite IH by done.
  by rewrite str_app_assoc, str_cons_app, str_nil_app.
Qed.

Lemma words_space n word s : words (S n) word (String " " s) = (if word == "" then [] else [word]) ++ words n "" s.
Proof. done. Qed.

Lemma words_end n word : words n word "" = if word == "" then [] else [word].
Proof. by destruct n. Qed.

Lemma visible_nonempty_word g : g <> "" -> (g == "") = false.
Proof. intros H. by apply bool_decide_eq_false. Qed.

Lemma length_app_str s t : String.length (s +:+ t) = String.length s + String.length t.
Proof. by rewrite <-!length_bytes, bytes_app, length_app. Qed.

(** Words set apart by single spaces. *)
Fixpoint spaced (ws : list string) : string :=
  match ws with [] => "" | [w] => w | w :: ws => w +:+ String " " (spaced ws) end.

Lemma strip_visible_end c s : byte_in 33 126 c = true -> strip_any (map str_rev WHITE_SPACE) (String c s) = None.
Proof. destruct c as [[] [] [] [] [] [] [] []]; intros Hc; try discriminate Hc; vm_compute; reflexivity. Qed.

Lemma trim_start_visible n ps s :
  (forall c s, byte_in 33 126 c = true -> strip_any ps (String c s) = None) -> strip_any ps "" = None ->
  visible s = true -> trim_start_fuel n ps s = s.
Proof.
  intros Hps He Hs. destruct n as [|n]; [done|]. cbn [trim_start_fuel]. destruct s as [|c s]; [by rewrite He|].
  apply visible_cons in Hs as [Hc _]. by rewrite Hps.
Qed.

Lemma visible_rev s : visible s = true -> visible (str_rev s) = true.
Proof.
  unfold visible, str_rev. rewrite bytes_of_bytes, !forallb_forall. intros H c Hc%in_rev. auto.
Qed.

Lemma trim_visible s : visible s = true -> trim s = s.
Proof.
  intros Hs. unfold trim, trim_start, trim_end. rewrite (trim_start_visible _ WHITE_SPACE s visible_not_space eq_refl Hs).
  rewrite (trim_start_visible _ _ (str_rev s) strip_visible_end eq_refl); [|by apply visible_rev].
  unfold str_rev. by rewrite bytes_of_bytes, rev_involutive, of_bytes_bytes.
Qed.

Lemma command_first g t : g <> "" -> visible g = true -> command_of (g +:+ String " " t) = g.
Proof.
  intros Hg Hv. unfold command_of, split_whitespace. rewrite length_app_str. cbn [String.length].
  replace (S (String.length g + S (String.length t))) with (String.length g + S (S (String.length t))) by lia.
  rewrite words_visible, words_space, str_nil_app, visible_nonempty_word by done. done.
Qed.

(** ** Commands *)

(** A command as git gives it: its lines, and what a session does with it. *)
Inductive Command :=
| CmdCapabilities
| CmdOption (rest : string)
| CmdList (for_push : bool)
| CmdFetch (wants : list (Oid * string))
| CmdPush (specs : list PushSpec).

Definition fetch_line (w : Oid * string) : string := spaced ["fetch"; w.1; w.2].
Definition push_line (s : PushSpec) : string :=
  "push" +:+ String " " ((if ps_force s then "+" else "") +:+ ps_src s +:+ String ":" (ps_dst s)).

Definition wire_lines (c : Command) : list string :=
  match c with
  | CmdCapabilities => ["capabilities"]
  | CmdOption rest => ["option" +:+ String " " rest]
  | CmdList for_push => [if for_push then "list for-push" else "list"]
  | CmdFetch wants => map fetch_line wants ++ [""]
  | CmdPush specs => map push_line specs ++ [""]
  end.

Definition word (w : string) : Prop := w <> "" /\ visible w = true.

(** What git writes of a batch: an object id is a word, and a name whatever it is; a source holds no
    colon, and, unforced, starts with no plus sign; a destination is any text. *)
Definition well_formed (c : Command) : Prop :=
  match c with
  | CmdFetch wants => wants <> [] /\ forall w, w ∈ wants -> word w.1
  | CmdPush specs => specs <> [] /\ forall s, s ∈ specs ->
      existsb (fun c => c == ":"%char) (bytes (ps_src s)) = false /\ (ps_force s = false -> starts_with "+" (ps_src s) = false)
  | _ => True
  end.

(** The refspec the helper takes a line for: the white space around its destination is dropped. *)
Definition trimmed (s : PushSpec) : PushSpec := mkPushSpec (ps_force s) (ps_src s) (trim (ps_dst s)).

Lemma parse_fetch_spaced w : word w.1 -> parse_fetch_line (fetch_line w) = Some w.1.
Proof.
  destruct w as [o name]. intros [Hne Hv]. unfold parse_fetch_line, fetch_line, split_whitespace. cbn [spaced fst snd] in *.
  rewrite !length_app_str. cbn [String.length]. rewrite length_app_str. cbn [String.length].
  replace (S (5 + S (String.length o + S (String.length name))))
    with (String.length "fetch" + S (String.length o + S (S (String.length name)))) by (simpl; lia).
  rewrite (words_visible "fetch"), words_space, (words_visible o), words_space, !str_nil_app by done.
  by rewrite !visible_nonempty_word.
Qed.

Lemma parse_push_printed s :
  existsb (fun c => c == ":"%char) (bytes (ps_src s)) = false ->
  (ps_force s = false -> starts_with "+" (ps_src s) = false) -> parse_push_line (push_line s) = Some (trimmed s).
Proof.
  intros Hc Hf. unfold parse_push_line, push_line.
  set (raw := (if ps_force s then "+" else "") +:+ ps_src s).
  assert (strip_prefix "push " ("push" +:+ String " " (raw +:+ String ":" (ps_dst s))) = Some (raw +:+ String ":" (ps_dst s))) as Hs.
  { by apply strip_prefix_app. }
  unfold raw in Hs. rewrite str_app_assoc in Hs. rewrite Hs. cbn [mbind option_bind]. rewrite <-str_app_assoc. fold raw.
  rewrite split_once_app.
  2:{ unfold raw. rewrite bytes_app, existsb_app, Hc. by destruct (ps_force s). }
  cbn [mbind option_bind]. destruct s as [[] src dst]; cbn [ps_force ps_src ps_dst] in *; [done|].
  unfold raw. rewrite str_nil_app. specialize (Hf eq_refl). rewrite Hf. unfold starts_with in Hf.
  by destruct (strip_prefix "+" src).
Qed.

Lemma trimmed_visible s : visible (ps_dst s) = true -> trimmed s = s.
Proof. intros Hv. unfold trimmed. rewrite trim_visible by done. by destruct s. Qed.

(** Git lets a ref name end in white space that is not ASCII: such a branch is pushed to another. *)
Example trimmed_elsewhere :
  parse_push_line (push_line (mkPushSpec false "x" ("refs/heads/a" +:+ utf8 [194; 160]%N))) = Some (mkPushSpec false "x" "refs/heads/a").
Proof. vm_compute. reflexivity. Qed.

Section Sessions.
Context {H E : Type} (phrased : E -> bool) (with_context : string -> E -> E) (of_user : UserError -> E).
Context (list_refs : H -> bool -> H * (list string + E)).
Context (fetch : H -> list Oid -> OptionState -> H * (unit + E)).
Context (push_refs : H -> list PushSpec -> OptionState -> H * (list PushOutcome + E)).
Context (in_clone : bool) (debug : string -> string).
Abbreviation protocol_loop := (protocol_loop phrased with_context of_user list_refs fetch push_refs in_clone debug).
Abbreviation do_list := (do_list phrased with_context of_user list_refs in_clone).
Abbreviation do_fetch := (do_fetch phrased with_context fetch).
Abbreviation do_push := (do_push phrased with_context push_refs).
Abbreviation Session := (Session (H := H)).

(** What a session does with one command. *)
Definition serve (c : Command) (s : Session) : Session * option E :=
  match c with
  | CmdCapabilities => (emit [Wrote CAPABILITIES] s, None)
  | CmdOption rest => (do_option debug rest s, None)
  | CmdList for_push => do_list for_push for_push s
  | CmdFetch wants =>
    let s := aim false s in
    match fail_if_shallow of_user (s_opts s) with
    | Some e => (s, Some e)
    | None => do_fetch (map fst wants) s
    end
  | CmdPush specs => do_push (map trimmed specs) (aim true s)
  end.

(** The commands in order, up to the first that fails. *)
Fixpoint serve_all (cs : list Command) (s : Session) : Session * option E :=
  match cs with
  | [] => (s, None)
  | c :: cs => match serve c s with (s, Some e) => (s, Some e) | (s, None) => serve_all cs s end
  end.

Lemma read_batch_printed {A B} (parse : string -> option B) (print : A -> string) (f : A -> B) items (rest : list (string + E)) :
  (forall x, x ∈ items -> print x <> "" /\ parse (print x) = Some (f x)) ->
  read_batch parse (map inl (map print items) ++ inl "" :: rest) = inl (map f items, rest).
Proof.
  induction items as [|x items IH]; intros Hx; [done|]. destruct (Hx x ltac:(left)) as [Hne Hp]. simpl.
  rewrite bool_decide_eq_false_2 by done. rewrite IH by (intros y Hy; apply Hx; by right). by rewrite Hp.
Qed.

Lemma loop_command n c rest s :
  well_formed c ->
  protocol_loop (S n) (map inl (wire_lines c) ++ rest) s
  = match serve c s with (s, Some e) => Some (s, Some e) | (s, None) => protocol_loop n rest s end.
Proof.
  intros Hwf. destruct c as [|r|for_push|wants|specs]; cbn [wire_lines serve].
  - done.
  - cbn [map app RemoteHelper.protocol_loop]. rewrite command_first by done.
    change ("option" +:+ String " " r) with ("option " +:+ r).
    assert (strip_prefix "option " ("option " +:+ r) = Some r) as -> by by apply strip_prefix_app. done.
  - destruct for_push; cbn [map app RemoteHelper.protocol_loop].
    + change (command_of "list for-push") with "list". simpl (_ == _). cbn iota.
      change (str_contains "for-push" "list for-push") with true.
      change (bool_decide (split_whitespace "list for-push" !! 1 = Some "for-push")) with true. done.
    + change (command_of "list") with "list". simpl (_ == _). cbn iota.
      change (str_contains "for-push" "list") with false.
      change (bool_decide (split_whitespace "list" !! 1 = Some "for-push")) with false. done.
  - destruct Hwf as [Hne Hw]. destruct wants as [|w wants]; [done|].
    rewrite map_app. cbn [map app]. rewrite <-app_assoc. cbn [app RemoteHelper.protocol_loop].
    pose proof (Hw w ltac:(left)) as Ho.
    assert (command_of (fetch_line w) = "fetch") as -> by by apply command_first.
    simpl (_ == _). cbn iota. destruct (fail_if_shallow of_user _) as [e|]; [done|].
    rewrite (read_batch_printed parse_fetch_line fetch_line fst).
    + rewrite parse_fetch_spaced by done. done.
    + intros w' Hin. split; [done|]. apply parse_fetch_spaced, (Hw w'). by right.
  - destruct Hwf as [Hne Hw]. destruct specs as [|spec specs]; [done|].
    rewrite map_app. cbn [map app]. rewrite <-app_assoc. cbn [app RemoteHelper.protocol_loop].
    assert (command_of (push_line spec) = "push") as -> by by apply command_first.
    simpl (_ == _). cbn iota. rewrite (read_batch_printed parse_push_line push_line trimmed).
    + destruct (Hw spec ltac:(left)) as [? ?]. by rewrite parse_push_printed.
    + intros x Hx. split; [done|]. destruct (Hw x ltac:(by right)) as [? ?]. by apply parse_push_printed.
Qed.

Lemma loop_commands fuel cs rest s :
  (forall c, c ∈ cs -> well_formed c) -> length cs < fuel ->
  protocol_loop fuel (map inl (concat (map wire_lines cs)) ++ inl "" :: rest) s = Some (serve_all cs s).
Proof.
  revert fuel s. induction cs as [|c cs IH]; intros fuel s Hwf Hlt; (destruct fuel as [|fuel]; [simpl in *; lia|]); [done|].
  cbn [map concat]. rewrite map_app, <-app_assoc, loop_command by (apply Hwf; left). cbn [serve_all].
  destruct (serve c s) as [s' [e|]]; [done|]. apply IH; [intros c' ?; apply Hwf; by right|simpl in Hlt; lia].
Qed.

Lemma length_wire c : 1 <= length (wire_lines c).
Proof. destruct c; simpl; rewrite ?length_app; simpl; lia. Qed.

Lemma length_wires cs : length cs <= length (concat (map wire_lines cs)).
Proof. induction cs as [|c cs IH]; simpl; [done|]. rewrite length_app. pose proof (length_wire c). lia. Qed.

(** C5: the line protocol carries the commands: whatever commands git gives, written as it
    writes them, up to the blank line that ends the session, the helper does exactly what the
    commands say, one after the other, up to the first that fails, with every want of a batch as
    it was given, and every refspec but for the white space around its destination, which is
    dropped (a ref name may end in white space that is not ASCII: such a ref is pushed under the
    name without it); and what git writes after the end is never read. An object id is taken to be
    visible characters, and a source to hold no colon and, unless forced, to start with no plus. *)
Theorem session_refines cs rest s :
  (forall c, c ∈ cs -> well_formed c) ->
  run phrased with_context of_user list_refs fetch push_refs in_clone debug
    (map inl (concat (map wire_lines cs)) ++ inl "" :: rest) s = Some (serve_all cs s).
Proof.
  intros Hwf. unfold run. apply loop_commands; [done|]. rewrite length_app, length_map. pose proof (length_wires cs). simpl. lia.
Qed.

Lemma read_batch_length {A} (parse : string -> option A) (lines : list (string + E)) items rest :
  read_batch parse lines = inl (items, rest) -> length rest <= length lines.
Proof.
  revert items. induction lines as [|[l|e] lines IH]; intros items; simpl; [intros [= <- <-]; done| |done].
  case_bool_decide; [intros [= <- <-]; lia|]. destruct (read_batch parse lines) as [[items' rest']|]; [|done].
  intros [= <- <-]. specialize (IH _ eq_refl). lia.
Qed.

(** ** No shallow clone *)

Definition reads_refs (e : Event) : bool := match e with Listed _ | Fetched _ => true | _ => false end.

(** The session went on from [s] to [s']; once a shallow clone was refused it lists and
    fetches nothing. *)
Definition goes_on (s s' : Session) : Prop :=
  exists es, s_events s' = s_events s ++ es
  /\ (fatal (s_opts s) <> None -> existsb reads_refs es = false /\ fatal (s_opts s') <> None).

Lemma goes_on_refl s : goes_on s s.
Proof. exists []. by rewrite app_nil_r. Qed.

Lemma goes_on_trans s1 s2 s3 : goes_on s1 s2 -> goes_on s2 s3 -> goes_on s1 s3.
Proof.
  intros (e1 & H1 & F1) (e2 & H2 & F2). exists (e1 ++ e2). rewrite H2, H1, app_assoc. split; [done|]. intros Hf.
  destruct (F1 Hf) as [Q1 Hf2], (F2 Hf2) as [Q2 ?]. by rewrite existsb_app, Q1, Q2.
Qed.

Lemma goes_on_aim b s : goes_on s (aim b s).
Proof. exists []. by rewrite app_nil_r. Qed.

Lemma goes_on_emit es s : existsb reads_refs es = false -> goes_on s (emit es s).
Proof. intros He. by exists es. Qed.

Lemma existsb_wrote {A} (f : A -> string) l : existsb reads_refs (map (fun x => wrote_line (f x)) l) = false.
Proof. by induction l. Qed.

Lemma goes_on_option rest s : goes_on s (do_option debug rest s).
Proof.
  unfold do_option. pose proof (handle_option_fatal debug (s_opts s) rest) as Hf.
  destruct (handle_option debug (s_opts s) rest) as [opts reply]. exists [wrote_line (reply_wire reply)]. split; [done|].
  intros Hs. split; [done|]. simpl in *. rewrite Hf. by destruct (asks_shallow rest).
Qed.

Lemma shallow_fails opts : fatal opts <> None -> exists e, fail_if_shallow of_user opts = Some e.
Proof. unfold fail_if_shallow. destruct (fatal opts); [by eexists|done]. Qed.

Lemma goes_on_list b for_push s : goes_on s (do_list b for_push s).1.
Proof.
  unfold RemoteHelper.do_list. destruct (fatal (s_opts s)) as [m|] eqn:Ef.
  - destruct (shallow_fails (s_opts (aim b s))) as [e ->]; [simpl; by rewrite Ef|]. apply goes_on_aim.
  - assert (exists es, s_events (do_list b for_push s).1 = s_events s ++ es) as [es He].
    { unfold RemoteHelper.do_list. destruct (fail_if_shallow _ _); [exists []; by rewrite app_nil_r|].
      destruct (negb for_push && in_clone); destruct (list_refs _ for_push) as [h out];
        destruct (step phrased with_context out "list refs"); simpl; rewrite <-?app_assoc; by eexists. }
    exists es. split; [exact He|by rewrite Ef].
Qed.

Lemma goes_on_fetch wants s : fatal (s_opts s) = None -> goes_on s (do_fetch wants s).1.
Proof.
  intros Ef. unfold RemoteHelper.do_fetch. destruct (fetch _ wants _) as [h out].
  destruct (step phrased with_context out "fetch objects"); eexists; (split; [simpl; rewrite <-?app_assoc; reflexivity|by rewrite Ef]).
Qed.

Lemma goes_on_push specs s : goes_on s (do_push specs s).1.
Proof.
  unfold RemoteHelper.do_push. destruct (push push_refs _ specs _) as [h out].
  destruct (step phrased with_context out "push refs") as [outcomes|e]; eexists; (split; [simpl; rewrite <-?app_assoc; reflexivity|]); [|done].
  intros Hf. split; [|done]. rewrite !existsb_app, existsb_wrote. simpl. unfold first_rejected.
  by destruct (List.find _ outcomes) as [[]|].
Qed.

(** One turn of the loop: it ends, or goes on with fewer lines. *)
Lemma loop_turn fuel line (lines : list (string + E)) s :
  exists s', goes_on s s'
  /\ ((exists r, protocol_loop (S fuel) (inl line :: lines) s = Some (s', r))
      \/ exists lines', length lines' <= length lines /\ protocol_loop (S fuel) (inl line :: lines) s = protocol_loop fuel lines' s').
Proof.
  cbn [RemoteHelper.protocol_loop]. destruct (command_of line == ""); [exists s; split; [apply goes_on_refl|left; by eexists]|].
  destruct (command_of line == "capabilities"); [eexists; split; [by apply (goes_on_emit [Wrote CAPABILITIES])|right; by exists lines]|].
  destruct (command_of line == "option"); [eexists; split; [apply goes_on_option|right; by exists lines]|].
  destruct (command_of line == "list").
  { match goal with |- context [do_list ?b ?f s] => pose proof (goes_on_list b f s) as Hl; destruct (do_list b f s) as [s' [e|]] end;
      (exists s'; split; [done|]); [left; by eexists|right; by exists lines]. }
  destruct (command_of line == "fetch").
  { destruct (fail_if_shallow of_user (s_opts (aim false s))) as [e|] eqn:Es; [eexists; split; [apply goes_on_aim|left; by eexists]|].
    destruct (read_batch parse_fetch_line lines) as [[wants lines']|e] eqn:Eb; [|eexists; split; [apply goes_on_aim|left; by eexists]].
    assert (fatal (s_opts (aim false s)) = None) as Hf.
    { destruct (fatal (s_opts (aim false s))) eqn:E0; [|done]. destruct (shallow_fails (s_opts (aim false s))) as [e He]; [by rewrite E0|congruence]. }
    pose proof (goes_on_fetch (option_list (parse_fetch_line line) ++ wants) (aim false s) Hf) as Hg.
    destruct (do_fetch _ (aim false s)) as [s' r]. exists s'. split; [eapply goes_on_trans; [apply goes_on_aim|exact Hg]|].
    destruct r as [e|]; [left; by eexists|right]. exists lines'. split; [by eapply read_batch_length|done]. }
  destruct (command_of line == "push"); [|exists s; split; [apply goes_on_refl|right; by exists lines]].
  destruct (read_batch parse_push_line lines) as [[specs lines']|e] eqn:Eb; [|eexists; split; [apply goes_on_aim|left; by eexists]].
  pose proof (goes_on_push (option_list (parse_push_line line) ++ specs) (aim true s)) as Hg.
  destruct (do_push _ (aim true s)) as [s' r]. exists s'. split; [eapply goes_on_trans; [apply goes_on_aim|exact Hg]|].
  destruct r as [e|]; [left; by eexists|right]. exists lines'. split; [by eapply read_batch_length|done].
Qed.

Lemma loop_ends fuel lines s : length lines < fuel -> exists s' r, protocol_loop fuel lines s = Some (s', r) /\ goes_on s s'.
Proof.
  revert lines s. induction fuel as [|fuel IH]; intros lines s Hlt; [lia|].
  destruct lines as [|[line|e] lines]; [by eexists _, _; split; [|apply goes_on_refl]| |by eexists _, _; split; [|apply goes_on_refl]].
  simpl in Hlt. destruct (loop_turn fuel line lines s) as (s1 & Hg & [[r ->]|(lines' & Hlen & ->)]); [by exists s1, r|].
  destruct (IH lines' s1) as (s2 & r & -> & Hg2); [lia|]. exists s2, r. split; [done|by eapply goes_on_trans].
Qed.

(** A session ends, and never serves a shallow clone: whatever git writes, the helper
    answers and stops after at most one turn per line; it only adds to what it said; and once
    an option asked for a shallow clone, no line after it makes the helper list or fetch
    anything, which git would take for a full clone. *)
Theorem session_ends lines s :
  (exists s' r es, run phrased with_context of_user list_refs fetch push_refs in_clone debug lines s = Some (s', r)
     /\ s_events s' = s_events s ++ es
     /\ (fatal (s_opts s) <> None -> existsb reads_refs es = false /\ fatal (s_opts s') <> None))
  /\ forall rest, asks_shallow rest = true -> fatal (s_opts (do_option debug rest s)) <> None.
Proof.
  split.
  - destruct (loop_ends (S (length lines)) lines s) as (s' & r & Hr & es & He & Hf); [lia|]. by exists s', r, es.
  - intros rest Ha. unfold do_option. pose proof (handle_option_fatal debug (s_opts s) rest) as Hf.
    destruct (handle_option debug (s_opts s) rest). simpl in *. by rewrite Hf, Ha.
Qed.
End Sessions.

Lemma session_refines_witness :
  test_run (concat (map wire_lines [CmdCapabilities; CmdFetch [("aa", "refs/heads/main")]; CmdPush [mkPushSpec true "x" "refs/heads/a"]]) ++ [""])
  = Some ([Wrote CAPABILITIES; Fetched ["aa"]; wrote_line ""; Pushed [mkPushSpec true "x" "refs/heads/a"]; wrote_line "ok refs/heads/a"; wrote_line ""], None).
Proof.
  unfold test_run. rewrite map_app. change (map inl [""]) with (inl "" :: @nil (string + string)).
  rewrite (session_refines (E := string)).
  - vm_compute. reflexivity.
  - intros c Hc. repeat (apply elem_of_cons in Hc as [->|Hc]); [done| | |by apply not_elem_of_nil in Hc]; (split; [done|]).
    + intros w ->%list_elem_of_singleton. by split.
    + intros p ->%list_elem_of_singleton. by split.
Defined.

Lemma session_ends_witness :
  let s := mkSession tt (set_fatal (Some SHALLOW_UNSUPPORTED) default_options) test_goal [] in
  fatal (s_opts s) <> None
  /\ exists s' r es, run (fun _ => false) (fun c e => c +:+ e) ue_message (fun h _ => (h, inl [])) (fun h _ _ => (h, inl tt))
        (fun h _ _ => (h, inl [])) true id [inl "list"; inl "fetch aa aa"] s = Some (s', r)
     /\ s_events s' = s_events s ++ es /\ existsb reads_refs es = false.
Proof.
  split; [done|].
  destruct (session_ends (fun _ => false) (fun c e => c +:+ e) ue_message (fun h _ => (h, inl [])) (fun h _ _ => (h, inl tt))
    (fun h _ _ => (h, inl [])) true id [inl "list"; inl "fetch aa aa"]
    (mkSession tt (set_fatal (Some SHALLOW_UNSUPPORTED) default_options) test_goal [])) as [(s' & r & es & Hr & He & Hf) _].
  exists s', r, es. split_and!; [done..|]. by apply Hf.
Defined.
