(* ===== verification/RetryQueue.v ===== *)
(** The durable delivery retry queue of the webhook relay ([forge-relay/src/queue.rs]): the entries
    and the indexes its bounds use, the operations of the queue, the writer thread that carries
    every change to its file, and the load at start. *)
From S2P Require Import Wire Prelude Text.

(** ** Definitions *)

(** *** Durations and bounds *)

(** A [Duration], in nanoseconds. *)
Definition Duration : Type := N.
Definition from_millis (n : N) : Duration := (n * 1000000)%N.
Definition from_secs (n : N) : Duration := (n * 1000000000)%N.
Definition from_mins (n : N) : Duration := from_secs (n * 60)%N.
Definition from_hours (n : N) : Duration := from_mins (n * 60)%N.

(** Milliseconds of a duration (saturating). *)
Definition ms (d : Duration) : N := (N.min (d / 1000000) u64_max)%N.

Definition DEFAULT_SCHEDULE : list Duration :=
  [from_mins 1; from_mins 5; from_mins 30; from_hours 2; from_hours 12; from_hours 24].
Definition EXPIRY : Duration := from_hours 48.
Definition MAX_PENDING_PER_HOOK : N := 500.
Definition MAX_PENDING_PER_REPO : N := 1000.
Definition MAX_PENDING : N := 5000.
Definition MAX_PENDING_BYTES : N := (256 * 1024 * 1024)%N.
Definition MAX_DROPPED : N := 1000.
Definition DROPPED_RETENTION : Duration := from_hours (7 * 24)%N.
Definition MAX_ERROR_LEN : nat := 300.

Record Limits := mkLimits { per_hook : N; per_repo : N; total : N; max_bytes : N }.
Definition Limits_default : Limits := mkLimits MAX_PENDING_PER_HOOK MAX_PENDING_PER_REPO MAX_PENDING MAX_PENDING_BYTES.

(** *** Entries *)

Inductive Status := Pending | Dropped.

#[export] Instance Status_eq_dec : EqDecision Status.
Proof. solve_decision. Defined.

(** The payload is a [RawValue]: the JSON text of the body. *)
Record Entry := mkEntry {
  en_id : string;
  en_repo_id : string;
  en_hook_id : string;
  en_event : string;
  en_source_doc_id : string;
  en_created_ms : N;
  en_tries : N;
  en_next_ms : N;
  en_last_error : string;
  en_status : Status;
  en_drop_reason : option string;
  en_dropped_ms : option N;
  en_payload : option string;
  en_bytes : N
}.

#[export] Instance Entry_eq_dec : EqDecision Entry.
Proof. solve_decision. Defined.

(** A copy without the body. *)
Definition head (e : Entry) : Entry :=
  mkEntry (en_id e) (en_repo_id e) (en_hook_id e) (en_event e) (en_source_doc_id e) (en_created_ms e) (en_tries e)
    (en_next_ms e) (en_last_error e) (en_status e) (en_drop_reason e) (en_dropped_ms e) None (en_bytes e).

Definition payload_len (payload : option string) : N := from_option (fun p => N.of_nat (String.length p)) 0%N payload.
Definition is_pending_entry (e : Entry) : bool := en_status e == Pending.

(** What failed. The payload is the text [serde_json::to_string] gives of the body, [None] when it
    fails. *)
Record Failure := mkFailure {
  fa_id : string;
  fa_repo_id : string;
  fa_hook_id : string;
  fa_event : string;
  fa_source_doc_id : string;
  fa_payload : option string;
  fa_error : string;
  fa_claimed : bool
}.

(** *** The indexes *)

(** [(created ms, id)], in age order. *)
Definition Aged : Type := gset (N * string).
Definition key_cmp : N * string -> N * string -> comparison := cmp_then (cmp_on fst N.compare) (cmp_on snd String.compare).
(** [BTreeSet::first] and [iter]. *)
Definition aged_first (a : Aged) : option (N * string) := min_by key_cmp (elements a).
Definition aged_len (a : Aged) : N := N.of_nat (size a).

Record Tally := mkTally { ta_aged : Aged; ta_bytes : N }.
Definition Tally_default : Tally := mkTally ∅ 0%N.

Record State := mkState {
  st_entries : gmap string Entry;
  st_claimed : gset string;
  st_aged : Aged;
  st_repos : gmap string Tally;
  st_hooks : gmap (string * string) Aged;
  st_bytes : N;
  st_dropped : Aged
}.
Definition State_default : State := mkState ∅ ∅ ∅ ∅ ∅ 0%N ∅.

Definition set_entries (m : gmap string Entry) (st : State) : State :=
  mkState m (st_claimed st) (st_aged st) (st_repos st) (st_hooks st) (st_bytes st) (st_dropped st).
Definition set_claimed (c : gset string) (st : State) : State :=
  mkState (st_entries st) c (st_aged st) (st_repos st) (st_hooks st) (st_bytes st) (st_dropped st).
Definition set_dropped (d : Aged) (st : State) : State :=
  mkState (st_entries st) (st_claimed st) (st_aged st) (st_repos st) (st_hooks st) (st_bytes st) d.

Definition age_key (e : Entry) : N * string := (en_created_ms e, en_id e).
Definition drop_key (e : Entry) : N * string := (default 0%N (en_dropped_ms e), en_id e).
Definition hook_key (e : Entry) : string * string := (en_repo_id e, en_hook_id e).

Definition index (st : State) (e : Entry) : State :=
  match en_status e with
  | Pending =>
      let key := age_key e in
      let repo := default Tally_default (st_repos st !! en_repo_id e) in
      mkState (st_entries st) (st_claimed st) ({[key]} ∪ st_aged st)
        (<[en_repo_id e := mkTally ({[key]} ∪ ta_aged repo) (ta_bytes repo + en_bytes e)%N]> (st_repos st))
        (<[hook_key e := {[key]} ∪ default ∅ (st_hooks st !! hook_key e)]> (st_hooks st))
        (st_bytes st + en_bytes e)%N (st_dropped st)
  | Dropped => set_dropped ({[drop_key e]} ∪ st_dropped st) st
  end.

Definition unindex (st : State) (e : Entry) : State :=
  match en_status e with
  | Pending =>
      let key := age_key e in
      mkState (st_entries st) (st_claimed st) (st_aged st ∖ {[key]})
        (match st_repos st !! en_repo_id e with
         | Some repo =>
             let aged := ta_aged repo ∖ {[key]} in
             if aged == ∅ then delete (en_repo_id e) (st_repos st)
             else <[en_repo_id e := mkTally aged (sat_sub (ta_bytes repo) (en_bytes e))]> (st_repos st)
         | None => st_repos st
         end)
        (match st_hooks st !! hook_key e with
         | Some held =>
             let aged := held ∖ {[key]} in
             if aged == ∅ then delete (hook_key e) (st_hooks st) else <[hook_key e := aged]> (st_hooks st)
         | None => st_hooks st
         end)
        (sat_sub (st_bytes st) (en_bytes e)) (st_dropped st)
  | Dropped => set_dropped (st_dropped st ∖ {[drop_key e]}) st
  end.

Definition is_pending (st : State) (id : string) : bool := is_some_and (st_entries st !! id) is_pending_entry.

(** Every pending-index key of [id], removed. *)
Definition without_id (id : string) (a : Aged) : Aged := filter (fun k => k.2 <> id) a.
Definition purge_pending_keys (st : State) (id : string) : State :=
  mkState (st_entries st) (st_claimed st) (without_id id (st_aged st))
    (omap (fun t => let aged := without_id id (ta_aged t) in
                    if aged == ∅ then None else Some (mkTally aged (ta_bytes t))) (st_repos st))
    (omap (fun a => let aged := without_id id a in if aged == ∅ then None else Some aged) (st_hooks st))
    (st_bytes st) (st_dropped st).

(** *** The disk: one file per entry, the writer's pending operations, and the batch it is applying *)

Record Disk := mkDisk {
  dk_ops : gmap string (option string);
  dk_busy : gmap string (option string);
  dk_files : gmap string string
}.

(** [Disk::send]: the latest content of each changed entry ([None]: delete its file). *)
Definition send (d : Disk) (id : string) (op : option string) : Disk := mkDisk (<[id := op]> (dk_ops d)) (dk_busy d) (dk_files d).

(** The writer takes everything pending as its next batch, once it is done with the one before. *)
Definition writer_take (d : Disk) : Disk :=
  if (dk_ops d == ∅) || (dk_busy d != ∅) then d else mkDisk ∅ (dk_ops d) (dk_files d).

(** One operation on the directory: [write_entry] replaces the file whole, [remove_file] deletes
    it; [io] says which ids the file system lets it update. *)
Definition apply_ops (ops : gmap string (option string)) (files : gmap string string) : gmap string string :=
  merge (fun op file => match op with Some o => o | None => file end) ops files.
Definition writer_apply (io : string -> bool) (d : Disk) : Disk :=
  mkDisk (dk_ops d) ∅ (apply_ops (filter (fun '(id, _) => io id = true) (dk_busy d)) (dk_files d)).

(** What [Disk::flush] waits for. *)
Definition flushed (d : Disk) : bool := (dk_ops d == ∅) && (dk_busy d == ∅).

(** *** The queue *)

Record RetryQueue := mkQueue { q_disk : option Disk; q_schedule : list Duration; q_limits : Limits; q_state : State }.

Definition with_state (q : RetryQueue) (st : State) : RetryQueue := mkQueue (q_disk q) (q_schedule q) (q_limits q) st.

Definition in_memory (schedule : list Duration) : RetryQueue :=
  mkQueue None (match schedule with [] => DEFAULT_SCHEDULE | _ => schedule end) Limits_default State_default.

(** The delay before the retry after [tries] failed deliveries; [in_memory] leaves no schedule empty. *)
Definition delay_after (q : RetryQueue) (tries : N) : Duration :=
  default 0%N (q_schedule q !! Nat.min (N.to_nat (N.max tries 1) - 1) (length (q_schedule q) - 1)).

(** A step repeated until it has nothing to do. *)
Fixpoint repeat_step {A} (fuel : nat) (step : A -> option A) (x : A) : A :=
  match fuel with
  | O => x
  | S fuel => match step x with Some y => repeat_step fuel step y | None => x end
  end.

(** The files' format (serde_json, of the struct's own derived shape) and the order in which a
    directory or a [HashMap] is read, which is unspecified. *)
Class Codec := { to_vec : Entry -> option string; from_slice : string -> option Entry }.
Class HashOrder := {
  iter_order : forall {K A} `{Countable K}, gmap K A -> list (K * A);
  iter_perm : forall {K A} `{Countable K} (m : gmap K A), iter_order m ≡ₚ map_to_list m
}.

(** A written entry reads back as it was. *)
Class CodecLaws (codec : Codec) : Prop := {
  to_vec_total : forall e, is_Some (to_vec e);
  from_to : forall e b, to_vec e = Some b -> from_slice b = Some e
}.

Section queue.
Context `{codec : Codec} `{order : HashOrder}.

Definition send_op (q : RetryQueue) (id : string) (op : option string) : RetryQueue :=
  mkQueue (option_map (fun d => send d id op) (q_disk q)) (q_schedule q) (q_limits q) (q_state q).
(** Hand the entry's current content to the writer. *)
Definition persist (q : RetryQueue) (e : Entry) : RetryQueue :=
  match to_vec e with Some content => send_op q (en_id e) (Some content) | None => q end.
Definition unlink (q : RetryQueue) (id : string) : RetryQueue := send_op q id None.

(** Forget the oldest dropped record. *)
Definition pop_dropped (q : RetryQueue) (k : N * string) : RetryQueue :=
  let st := q_state q in
  unlink (with_state q (set_entries (delete k.2 (st_entries st)) (set_dropped (st_dropped st ∖ {[k]}) st))) k.2.

Definition trim_step (q : RetryQueue) : option RetryQueue :=
  if (MAX_DROPPED <? aged_len (st_dropped (q_state q)))%N
  then k ← aged_first (st_dropped (q_state q)); Some (pop_dropped q k)
  else None.
Definition trim_dropped (q : RetryQueue) : RetryQueue := repeat_step (size (st_dropped (q_state q))) trim_step q.

Definition dropped_as (e : Entry) (reason : string) (now : N) : Entry :=
  mkEntry (en_id e) (en_repo_id e) (en_hook_id e) (en_event e) (en_source_doc_id e) (en_created_ms e) (en_tries e)
    (en_next_ms e) (en_last_error e) Dropped (Some reason) (Some now) None 0%N.

Definition mark_dropped (q : RetryQueue) (id reason : string) (now : N) : RetryQueue :=
  let st := q_state q in
  match st_entries st !! id with
  | None => with_state q (purge_pending_keys st id)
  | Some e =>
      let st := set_entries (delete id (st_entries st)) st in
      let '(q, e) :=
        match en_status e with
        | Pending =>
            let e' := dropped_as e reason now in
            (persist (with_state q (index (unindex st e) e')) e', e')
        | Dropped => (with_state q (purge_pending_keys st id), e)
        end in
      let st := q_state q in
      trim_dropped (with_state q (set_entries (<[en_id e := e]> (st_entries st)) st))
  end.

(** *** The bounds *)

(** The id of the oldest entry of a set larger than its bound. *)
Definition oldest_past (bound : N) (a : Aged) : option string :=
  if (bound <? aged_len a)%N then option_map snd (aged_first a) else None.

Definition enforce_hook_step (repo hook : string) (now : N) (q : RetryQueue) : option RetryQueue :=
  id ← st_hooks (q_state q) !! (repo, hook) ≫= oldest_past (per_hook (q_limits q));
  Some (mark_dropped q id "queue full for this hook (oldest dropped)" now).
Definition enforce_repo_step (repo : string) (now : N) (q : RetryQueue) : option RetryQueue :=
  id ← st_repos (q_state q) !! repo ≫= (fun t => oldest_past (per_repo (q_limits q)) (ta_aged t));
  Some (mark_dropped q id "queue full for this repo (oldest dropped)" now).

(** The oldest entry of the repo that holds the most. *)
Definition global_victim (by_count : bool) (st : State) : option string :=
  t ← max_by (cmp_on (fun t => if by_count then aged_len (ta_aged t) else ta_bytes t) N.compare)
        (map snd (iter_order (st_repos st)));
  option_map snd (aged_first (ta_aged t)).
Definition enforce_global_step (now : N) (q : RetryQueue) : option RetryQueue :=
  let st := q_state q in
  let by_count := (total (q_limits q) <? aged_len (st_aged st))%N in
  if negb by_count && (st_bytes st <=? max_bytes (q_limits q))%N then None
  else id ← global_victim by_count st;
       Some (mark_dropped q id "queue full (oldest of the repo with the most queued dropped)" now).

(** Each step drops a pending entry, so there are at most as many steps as pending entries. *)
Definition enforce_loop (step : RetryQueue -> option RetryQueue) (q : RetryQueue) : RetryQueue :=
  repeat_step (size (st_aged (q_state q))) step q.
Definition enforce_hook_bound (q : RetryQueue) (repo hook : string) (now : N) : RetryQueue :=
  enforce_loop (enforce_hook_step repo hook now) q.
Definition enforce_repo_bound (q : RetryQueue) (repo : string) (now : N) : RetryQueue :=
  enforce_loop (enforce_repo_step repo now) q.
Definition enforce_global_bounds (q : RetryQueue) (now : N) : RetryQueue := enforce_loop (enforce_global_step now) q.
Definition enforce_bounds (q : RetryQueue) (repo hook : string) (now : N) : RetryQueue :=
  enforce_global_bounds (enforce_repo_bound (enforce_hook_bound q repo hook now) repo now) now.
Definition enforce_all (q : RetryQueue) (now : N) : RetryQueue :=
  let hooks := map fst (iter_order (st_hooks (q_state q))) in
  let q := foldl (fun q '(repo, hook) => enforce_hook_bound q repo hook now) q hooks in
  let repos := map fst (iter_order (st_repos (q_state q))) in
  let q := foldl (fun q repo => enforce_repo_bound q repo now) q repos in
  trim_dropped (enforce_global_bounds q now).

(** *** The operations *)

Definition new_entry (f : Failure) (now : N) : Entry :=
  mkEntry (fa_id f) (fa_repo_id f) (fa_hook_id f) (fa_event f) (fa_source_doc_id f) now 0%N now "" Pending None None
    (fa_payload f) (payload_len (fa_payload f)).

(** A queued entry's next try. *)
Definition tried (q : RetryQueue) (f : Failure) (now : N) (count : bool) (defer_until : option N) (e : Entry) : Entry :=
  let tries := if count then sat_add_u32 (en_tries e) 1 else en_tries e in
  let next := match defer_until with Some t => N.max t now | None => sat_add_u64 now (ms (delay_after q tries)) end in
  mkEntry (en_id e) (en_repo_id e) (en_hook_id e) (en_event e) (en_source_doc_id e) (en_created_ms e) tries next
    (of_bytes (concat (take MAX_ERROR_LEN (chars (bytes (fa_error f)))))) (en_status e) (en_drop_reason e)
    (en_dropped_ms e) (en_payload e) (en_bytes e).

Definition set_entry (q : RetryQueue) (e : Entry) : RetryQueue :=
  with_state q (set_entries (<[en_id e := e]> (st_entries (q_state q))) (q_state q)).

Definition fail_locked (q : RetryQueue) (f : Failure) (now : N) (count : bool) (defer_until : option N) : RetryQueue * bool :=
  let q :=
    match st_entries (q_state q) !! fa_id f with
    | Some _ => q
    | None => let e := new_entry f now in set_entry (with_state q (index (q_state q) e)) e
    end in
  match opt_filter is_pending_entry (st_entries (q_state q) !! fa_id f) with
  | None => (q, false)
  | Some e =>
      let e := tried q f now count defer_until e in
      let q := enforce_bounds (persist (set_entry q e) e) (en_repo_id e) (en_hook_id e) now in
      (q, is_pending (q_state q) (fa_id f))
  end.

Definition unclaim (q : RetryQueue) (id : string) : RetryQueue :=
  with_state q (set_claimed (st_claimed (q_state q) ∖ {[id]}) (q_state q)).

Definition fail (q : RetryQueue) (f : Failure) (now : N) (count : bool) (defer_until : option N) : RetryQueue * bool :=
  let '(q, queued) := fail_locked q f now count defer_until in
  ((if fa_claimed f then unclaim q (fa_id f) else q), queued).

Definition deferred (e : Entry) (until : N) : Entry :=
  mkEntry (en_id e) (en_repo_id e) (en_hook_id e) (en_event e) (en_source_doc_id e) (en_created_ms e) (en_tries e)
    until (en_last_error e) (en_status e) (en_drop_reason e) (en_dropped_ms e) (en_payload e) (en_bytes e).
Definition defer (q : RetryQueue) (id : string) (until : N) : RetryQueue :=
  match opt_filter (fun e => is_pending_entry e && (en_next_ms e != until)) (st_entries (q_state q) !! id) with
  | None => q
  | Some e => let e := deferred e until in persist (set_entry q e) e
  end.

Definition succeeded (q : RetryQueue) (id : string) : RetryQueue :=
  let st := q_state q in
  let q :=
    match st_entries st !! id with
    | Some e => unlink (with_state q (unindex (set_entries (delete id (st_entries st)) st) e)) id
    | None => q
    end in
  unclaim q id.

Definition drop_entry (q : RetryQueue) (id reason : string) (now : N) : RetryQueue :=
  unclaim (if is_pending (q_state q) id then mark_dropped q id reason now else q) id.

Definition aged_items (a : Aged) : list (N * string) := sort_by key_cmp (elements a).
Definition drop_where (q : RetryQueue) (matches : string -> string -> bool) (reason : string) (now : N) : RetryQueue :=
  let ids := concat (map (fun '(_, aged) => map snd (aged_items aged))
    (List.filter (fun '((repo, hook), _) => matches repo hook) (iter_order (st_hooks (q_state q))))) in
  foldl (fun q id => mark_dropped q id reason now) q ids.

Definition pending_repos (q : RetryQueue) : gset string := dom (st_repos (q_state q)).

Definition expire_step (now : N) (q : RetryQueue) : option RetryQueue :=
  '(created, id) ← aged_first (st_aged (q_state q));
  if (sat_sub now created <? ms EXPIRY)%N then None else Some (mark_dropped q id "expired: undelivered for 48 h" now).
Definition prune_step (now : N) (q : RetryQueue) : option RetryQueue :=
  '(dropped, id) ← aged_first (st_dropped (q_state q));
  if (sat_sub now dropped <? ms DROPPED_RETENTION)%N then None else Some (pop_dropped q (dropped, id)).
Definition due (q : RetryQueue) (now : N) : RetryQueue * list Entry :=
  let q := enforce_loop (expire_step now) q in
  let q := repeat_step (size (st_dropped (q_state q))) (prune_step now) q in
  let st := q_state q in
  (q, map head (List.filter (fun e => negb (bool_decide (en_id e ∈ st_claimed st)))
         (List.filter (fun e => is_pending_entry e && (en_next_ms e <=? now)%N) (map snd (btree_items (st_entries st)))))).

Definition claim (q : RetryQueue) (id : string) : RetryQueue * option string :=
  let st := q_state q in
  match opt_filter is_pending_entry (st_entries st !! id) ≫= en_payload with
  | None => (q, None)
  | Some payload =>
      (with_state q (set_claimed ({[id]} ∪ st_claimed st) st),
       if bool_decide (id ∈ st_claimed st) then None else Some payload)
  end.

Definition release (q : RetryQueue) (id : string) : RetryQueue := unclaim q id.

(** *** The load at start *)

(** The shape delivery ids have. *)
Definition shaped (id : string) : bool :=
  (String.length id =? 36)%nat && forallb (fun c => is_hex_digit c || (c == "-"%char)) (bytes id).

(** The entries of the directory's regular [<stem>.json] files. *)
Definition read_dir (files : gmap string string) : list Entry :=
  omap (fun '(stem, content) => e ← from_slice content; if shaped (en_id e) && (en_id e == stem) then Some e else None)
    (iter_order files).

Definition with_bytes (e : Entry) : Entry :=
  mkEntry (en_id e) (en_repo_id e) (en_hook_id e) (en_event e) (en_source_doc_id e) (en_created_ms e) (en_tries e)
    (en_next_ms e) (en_last_error e) (en_status e) (en_drop_reason e) (en_dropped_ms e) (en_payload e)
    (payload_len (en_payload e)).

Definition load (st : State) (e : Entry) : State :=
  let e := with_bytes e in
  let st := index st e in
  set_entries (<[en_id e := e]> (st_entries st)) st.
Definition bodiless (e : Entry) : bool := is_pending_entry e && bool_decide (en_payload e = None).

(** [RetryQueue::open] of a directory it holds the lock of, at [now]. *)
Definition open (files : gmap string string) (schedule : list Duration) (now : N) : RetryQueue :=
  let read := read_dir files in
  let q := in_memory schedule in
  let q := mkQueue (Some (mkDisk ∅ ∅ files)) (q_schedule q) (q_limits q) (foldl load State_default read) in
  let q := foldl (fun q id => mark_dropped q id "no body stored (unreadable entry)" now) q
             (map en_id (List.filter bodiless read)) in
  enforce_all q now.

(** *** Runs: the operations and the writer's steps, in any order *)

Inductive Op :=
  | Fail_ (f : Failure) (now : N) (count : bool) (defer_until : option N)
  | Defer (id : string) (until : N)
  | Succeeded (id : string)
  | DropEntry (id reason : string) (now : N)
  | DropWhere (matches : string -> string -> bool) (reason : string) (now : N)
  | Due (now : N)
  | Claim (id : string)
  | Release (id : string)
  | WriterTake
  | WriterApply (io : string -> bool).

Definition on_disk (f : Disk -> Disk) (q : RetryQueue) : RetryQueue :=
  mkQueue (option_map f (q_disk q)) (q_schedule q) (q_limits q) (q_state q).

Definition run_op (q : RetryQueue) (op : Op) : RetryQueue :=
  match op with
  | Fail_ f now count until => (fail q f now count until).1
  | Defer id until => defer q id until
  | Succeeded id => succeeded q id
  | DropEntry id reason now => drop_entry q id reason now
  | DropWhere matches reason now => drop_where q matches reason now
  | Due now => (due q now).1
  | Claim id => (claim q id).1
  | Release id => release q id
  | WriterTake => on_disk writer_take q
  | WriterApply io => on_disk (writer_apply io) q
  end.
Definition run (q : RetryQueue) (ops : list Op) : RetryQueue := foldl run_op q ops.
End queue.

(** ** What the indexes must hold: the entries, seen through each group *)

Definition held (p : Entry -> bool) (m : gmap string Entry) : gmap string Entry := filter (fun '(_, e) => p e = true) m.
Definition keys (key : Entry -> N * string) (h : gmap string Entry) : Aged :=
  list_to_set (map (fun x => key x.2) (map_to_list h)).
Definition sum_bytes (l : list (string * Entry)) : N := foldr (fun x n => en_bytes x.2 + n)%N 0%N l.
Definition weight (h : gmap string Entry) : N := sum_bytes (map_to_list h).

Definition of_repo (repo : string) (e : Entry) : bool := is_pending_entry e && (en_repo_id e == repo).
Definition of_hook (hook : string * string) (e : Entry) : bool := is_pending_entry e && (hook_key e == hook).
Definition is_dropped_entry (e : Entry) : bool := en_status e == Dropped.

Definition aged_of (h : gmap string Entry) : Aged := keys age_key h.
(** A group that holds nothing has no index entry. *)
Definition unless_empty {A} (h : gmap string Entry) (x : A) : option A := if h == ∅ then None else Some x.

Record indexed (st : State) : Prop := mkIndexed {
  ix_keyed : forall i e, st_entries st !! i = Some e -> en_id e = i;
  ix_aged : st_aged st = aged_of (held is_pending_entry (st_entries st));
  ix_repos : forall r, let h := held (of_repo r) (st_entries st) in
    st_repos st !! r = unless_empty h (mkTally (aged_of h) (weight h));
  ix_hooks : forall k, let h := held (of_hook k) (st_entries st) in st_hooks st !! k = unless_empty h (aged_of h);
  ix_bytes : st_bytes st = weight (held is_pending_entry (st_entries st));
  ix_dropped : st_dropped st = keys drop_key (held is_dropped_entry (st_entries st))
}.

(** The bounds the queue keeps. *)
Record bounded (l : Limits) (st : State) : Prop := mkBounded {
  bd_hooks : forall k a, st_hooks st !! k = Some a -> (aged_len a <= per_hook l)%N;
  bd_repos : forall r t, st_repos st !! r = Some t -> (aged_len (ta_aged t) <= per_repo l)%N;
  bd_total : (aged_len (st_aged st) <= total l)%N;
  bd_bytes : (st_bytes st <= max_bytes l)%N;
  bd_dropped : (aged_len (st_dropped st) <= MAX_DROPPED)%N
}.

(** ** The groups *)

Section groups.
Context (key : Entry -> N * string) (key_id : forall e, (key e).2 = en_id e).

Lemma elem_of_keys h k : k ∈ keys key h <-> exists i e, h !! i = Some e /\ key e = k.
Proof.
  unfold keys. rewrite elem_of_list_to_set, list_elem_of_In, in_map_iff. split.
  - intros ([i e] & <- & H%list_elem_of_In%elem_of_map_to_list). by exists i, e.
  - intros (i & e & H & <-). exists (i, e). by split; [|apply list_elem_of_In, elem_of_map_to_list].
Qed.

Lemma keys_empty h : keys key h = ∅ <-> h = ∅.
Proof using.
  split; [|intros ->; unfold keys; by rewrite map_to_list_empty].
  intros E. apply map_empty. intros i. destruct (h !! i) as [e|] eqn:Hi; [|done].
  assert (key e ∈ keys key h) as Hin by (apply elem_of_keys; eauto). rewrite E in Hin. by apply not_elem_of_empty in Hin.
Qed.

Lemma keys_insert h i e : h !! i = None -> keys key (<[i := e]> h) = {[key e]} ∪ keys key h.
Proof.
  intros Hi. apply set_eq. intros k. rewrite elem_of_union, elem_of_singleton, !elem_of_keys. split.
  - intros (j & e' & Hj & <-). destruct (decide (j = i)) as [->|Hne].
    + rewrite lookup_insert_eq in Hj. simplify_eq. by left.
    + rewrite lookup_insert_ne in Hj by done. eauto.
  - intros [->|(j & e' & Hj & <-)]; [exists i, e; by rewrite lookup_insert_eq|].
    exists j, e'. by rewrite lookup_insert_ne by (intros ->; congruence).
Qed.

Lemma keys_update h i e e' : h !! i = Some e -> key e' = key e -> keys key (<[i := e']> h) = keys key h.
Proof.
  intros Hi Hk. apply set_eq. intros k. rewrite !elem_of_keys. split; intros (j & x & Hj & <-);
    (destruct (decide (j = i)) as [->|Hne]; [rewrite ?lookup_insert_eq in Hj; simplify_eq|]).
  - exists i, e. by rewrite Hk.
  - rewrite lookup_insert_ne in Hj by done. eauto.
  - exists i, e'. by rewrite lookup_insert_eq.
  - exists j, x. by rewrite lookup_insert_ne by done.
Qed.

Lemma keys_delete h i e :
  (forall j x, h !! j = Some x -> en_id x = j) -> h !! i = Some e -> keys key (delete i h) = keys key h ∖ {[key e]}.
Proof.
  intros Hid Hi. apply set_eq. intros k. rewrite elem_of_difference, elem_of_singleton, !elem_of_keys. split.
  - intros (j & x & [Hne Hj]%lookup_delete_Some & <-). split; [eauto|]. intros E%(f_equal snd).
    rewrite !key_id in E. apply Hne. by rewrite <-(Hid _ _ Hi), <-(Hid _ _ Hj).
  - intros [(j & x & Hj & <-) Hne]. exists j, x. split; [|done]. apply lookup_delete_Some. split; [|done].
    intros ->. congruence.
Qed.

Lemma keys_mono h h' : h ⊆ h' -> keys key h ⊆ keys key h'.
Proof. intros Hs k. rewrite !elem_of_keys. intros (i & e & Hi & <-). exists i, e. by split; [eapply lookup_weaken|]. Qed.

Lemma keys_size h : (forall j x, h !! j = Some x -> en_id x = j) -> size (keys key h) = size h.
Proof.
  induction h as [|i e h Hi IH] using map_ind; intros Hid; [by rewrite (proj2 (keys_empty ∅))|].
  assert (forall j x, h !! j = Some x -> en_id x = j) as Hid'.
  { intros j x Hj. apply Hid. rewrite lookup_insert_ne; [done|]. intros ->. congruence. }
  rewrite keys_insert, map_size_insert_None, size_union by
    (try done; apply disjoint_singleton_l; intros (j & x & Hj & E)%elem_of_keys; apply (f_equal snd) in E;
     rewrite !key_id, (Hid' _ _ Hj), (Hid i e) in E by apply lookup_insert_eq; congruence).
  by rewrite size_singleton, IH.
Qed.
End groups.

#[export] Instance sum_bytes_perm : Proper ((≡ₚ) ==> (=)) sum_bytes.
Proof. unfold sum_bytes. intros l1 l2 H. induction H; simpl; lia. Qed.

Lemma sum_bytes_sub l1 l2 : l1 ⊆+ l2 -> (sum_bytes l1 <= sum_bytes l2)%N.
Proof. unfold sum_bytes. induction 1; simpl; lia. Qed.

Lemma weight_insert h i e : h !! i = None -> weight (<[i := e]> h) = (en_bytes e + weight h)%N.
Proof. intros Hi. unfold weight. by rewrite map_to_list_insert. Qed.

Lemma weight_delete h i e : h !! i = Some e -> weight h = (en_bytes e + weight (delete i h))%N.
Proof. intros Hi. rewrite <-(weight_insert _ i) by apply lookup_delete_eq. by rewrite insert_delete_id. Qed.

Lemma weight_update h i e e' : h !! i = Some e -> en_bytes e' = en_bytes e -> weight (<[i := e']> h) = weight h.
Proof.
  intros Hi Hb. rewrite (weight_delete _ _ _ Hi), <-insert_delete_eq, weight_insert by apply lookup_delete_eq.
  by rewrite Hb.
Qed.

Lemma weight_mono h h' : h ⊆ h' -> (weight h <= weight h')%N.
Proof. intros Hs. apply sum_bytes_sub, map_to_list_submseteq, Hs. Qed.

Lemma held_Some p m i e : held p m !! i = Some e <-> m !! i = Some e /\ p e = true.
Proof. apply map_lookup_filter_Some. Qed.

Lemma held_insert p m i e : m !! i = None -> held p (<[i := e]> m) = if p e then <[i := e]> (held p m) else held p m.
Proof.
  intros Hi. unfold held. destruct (p e) eqn:Ep.
  - by rewrite map_filter_insert_True.
  - rewrite map_filter_insert_False by (by rewrite Ep). by rewrite delete_id.
Qed.

Lemma held_delete p m i : held p (delete i m) = delete i (held p m).
Proof. apply map_filter_delete. Qed.

Lemma held_update p m i e e' : m !! i = Some e -> p e' = p e ->
  held p (<[i := e']> m) = if p e then <[i := e']> (held p m) else held p m.
Proof.
  intros Hi Hp. unfold held. destruct (p e) eqn:Ep.
  - by rewrite map_filter_insert_True.
  - rewrite map_filter_insert_False by (by rewrite Hp). apply map_eq. intros j. rewrite !map_lookup_filter.
    destruct (decide (j = i)) as [->|Hne]; [|by rewrite lookup_delete_ne].
    rewrite lookup_delete_eq, Hi. simpl. by rewrite option_guard_False by (by rewrite Ep).
Qed.

Lemma held_keyed p m : (forall i e, m !! i = Some e -> en_id e = i) -> forall i e, held p m !! i = Some e -> en_id e = i.
Proof. intros H i e [Hi _]%held_Some. by apply H. Qed.

Lemma held_None p m i : m !! i = None -> held p m !! i = None.
Proof. intros Hi. apply map_lookup_filter_None. by left. Qed.

Lemma weight_empty : weight ∅ = 0%N.
Proof. unfold weight. by rewrite map_to_list_empty. Qed.

Lemma unless_None {A} h (x : A) : unless_empty h x = None <-> h = ∅.
Proof. unfold unless_empty. case_bool_decide; by split. Qed.

Lemma unless_Some {A} h (x y : A) : unless_empty h x = Some y <-> h <> ∅ /\ y = x.
Proof. unfold unless_empty. case_bool_decide; naive_solver. Qed.

Lemma aged_of_empty : aged_of ∅ = ∅.
Proof. by apply keys_empty. Qed.

Lemma aged_of_eqb h : (aged_of h == ∅) = (h == ∅).
Proof. apply bool_decide_ext. unfold aged_of. apply (keys_empty age_key). Qed.

Lemma unless_tally h :
  default Tally_default (unless_empty h (mkTally (aged_of h) (weight h))) = mkTally (aged_of h) (weight h).
Proof. unfold unless_empty. case_bool_decide as E; [|done]. by rewrite E, weight_empty, aged_of_empty. Qed.

Lemma unless_aged h : default ∅ (unless_empty h (aged_of h)) = aged_of h.
Proof. unfold unless_empty. case_bool_decide as E; [|done]. by rewrite E, aged_of_empty. Qed.

(** ** The indexes follow the entries *)

Lemma indexed_default : indexed State_default.
Proof.
  constructor; simpl; try done; intros; rewrite lookup_empty; symmetry; apply unless_None; apply map_filter_empty.
Qed.

Lemma pending_or_dropped e : is_dropped_entry e = negb (is_pending_entry e).
Proof. unfold is_dropped_entry, is_pending_entry. by destruct (en_status e). Qed.

Lemma insert_nonempty {A} (m : gmap string A) i x : <[i := x]> m <> ∅.
Proof. apply insert_non_empty. Qed.

Lemma lookup_nonempty (h : gmap string Entry) i e : h !! i = Some e -> h <> ∅.
Proof. intros Hi ->. by rewrite lookup_empty in Hi. Qed.

(** An entry indexed and added. *)
Lemma index_indexed st e : indexed st -> st_entries st !! en_id e = None ->
  indexed (set_entries (<[en_id e := e]> (st_entries st)) (index st e)).
Proof.
  intros [Hid Ha Hr Hh Hb Hd] Hi. unfold index.
  assert (forall p, held p (st_entries st) !! en_id e = None) as Hn by (intros p; by apply held_None).
  assert (forall i x, <[en_id e := e]> (st_entries st) !! i = Some x -> en_id x = i) as Hid'.
  { intros i x [[<- <-]|[_ Hx]]%lookup_insert_Some; [done|by apply Hid]. }
  assert (is_pending_entry e = (en_status e == Pending)) as Hp by done.
  destruct (en_status e) eqn:Es; simpl; case_bool_decide as Ep; try done; clear Ep.
  - constructor; simpl; [done|..].
    + by rewrite held_insert, Hp, Ha, <-(keys_insert age_key _ (en_id e)).
    + intros r. rewrite held_insert by done. assert (of_repo r e = (en_repo_id e == r)) as -> by (unfold of_repo; by rewrite Hp).
      case_bool_decide as Er.
      * subst r. rewrite lookup_insert_eq, Hr, unless_tally. simpl. unfold unless_empty.
        rewrite bool_decide_eq_false_2 by apply insert_nonempty. unfold aged_of.
        rewrite keys_insert, weight_insert by done. f_equal. f_equal. lia.
      * rewrite lookup_insert_ne by done. apply Hr.
    + intros k. rewrite held_insert by done. assert (of_hook k e = (hook_key e == k)) as -> by (unfold of_hook; by rewrite Hp).
      case_bool_decide as Er.
      * subst k. rewrite lookup_insert_eq, Hh, unless_aged. simpl. unfold unless_empty.
        rewrite bool_decide_eq_false_2 by apply insert_nonempty. unfold aged_of. by rewrite keys_insert.
      * rewrite lookup_insert_ne by done. apply Hh.
    + rewrite held_insert, Hp, weight_insert, Hb by done. lia.
    + rewrite held_insert, pending_or_dropped, Hp by done. exact Hd.
  - assert (forall p, held (fun x => is_pending_entry x && p x) (<[en_id e := e]> (st_entries st))
                      = held (fun x => is_pending_entry x && p x) (st_entries st)) as Hsame.
    { intros p. rewrite held_insert by done. by rewrite Hp. }
    constructor; simpl; [done|..].
    + rewrite held_insert, Hp by done. exact Ha.
    + intros r. unfold of_repo. rewrite Hsame. apply Hr.
    + intros k. unfold of_hook. rewrite Hsame. apply Hh.
    + rewrite held_insert, Hp by done. exact Hb.
    + by rewrite held_insert, pending_or_dropped, Hp, Hd, <-(keys_insert drop_key _ (en_id e)).
Qed.

Lemma sat_sub_cancel a b : sat_sub (a + b) a = b.
Proof. unfold sat_sub. lia. Qed.

Lemma aged_of_delete h i e : (forall j x, h !! j = Some x -> en_id x = j) -> h !! i = Some e ->
  aged_of h ∖ {[age_key e]} = aged_of (delete i h).
Proof. intros Hid Hi. symmetry. by apply keys_delete. Qed.

(** An entry taken out and unindexed. *)
Lemma unindex_indexed st i e : indexed st -> st_entries st !! i = Some e ->
  indexed (set_entries (delete i (st_entries st)) (unindex st e)).
Proof.
  intros [Hid Ha Hr Hh Hb Hd] Hi. unfold unindex.
  assert (forall j x, delete i (st_entries st) !! j = Some x -> en_id x = j) as Hid'.
  { intros j x [_ Hx]%lookup_delete_Some. by apply Hid. }
  assert (forall p, p e = true -> held p (st_entries st) !! i = Some e) as Hs by (intros p ?; by apply held_Some).
  assert (forall p, p e = false -> delete i (held p (st_entries st)) = held p (st_entries st)) as Hno.
  { intros p Hp. apply delete_id. apply map_lookup_filter_None. right. intros x Hx. simplify_eq. by rewrite Hp. }
  pose proof (fun p => held_keyed p _ Hid) as Hk.
  assert (is_pending_entry e = (en_status e == Pending)) as Hp by done.
  destruct (en_status e) eqn:Es; simpl; case_bool_decide as Ep; try done; clear Ep.
  - constructor; simpl; [done|..].
    + rewrite held_delete, Ha. eapply aged_of_delete; eauto.
    + intros r. rewrite held_delete, Hr.
      assert (of_repo r e = (en_repo_id e == r)) as Hor by (unfold of_repo; by rewrite Hp).
      assert (of_repo (en_repo_id e) e = true) as Hoe by (unfold of_repo; by rewrite Hp, bool_decide_eq_true_2).
      pose proof (Hs _ Hoe) as He. unfold unless_empty at 1. rewrite bool_decide_eq_false_2 by (by eapply lookup_nonempty).
      simpl. rewrite (aged_of_delete _ i), aged_of_eqb by eauto.
      destruct (decide (en_repo_id e = r)) as [<-|Hne].
      * unfold unless_empty. destruct (delete i _ == ∅); [apply lookup_delete_eq|]. rewrite lookup_insert_eq.
        by rewrite (weight_delete _ i e), sat_sub_cancel.
      * rewrite (Hno (of_repo r)) by (by rewrite Hor, bool_decide_eq_false_2).
        destruct (delete i _ == ∅); [rewrite lookup_delete_ne by done|rewrite lookup_insert_ne by done]; apply Hr.
    + intros r. rewrite held_delete, Hh.
      assert (of_hook r e = (hook_key e == r)) as Hor by (unfold of_hook; by rewrite Hp).
      assert (of_hook (hook_key e) e = true) as Hoe by (unfold of_hook; by rewrite Hp, bool_decide_eq_true_2).
      pose proof (Hs _ Hoe) as He. unfold unless_empty at 1. rewrite bool_decide_eq_false_2 by (by eapply lookup_nonempty).
      rewrite (aged_of_delete _ i), aged_of_eqb by eauto.
      destruct (decide (hook_key e = r)) as [<-|Hne].
      * unfold unless_empty. destruct (delete i _ == ∅); [apply lookup_delete_eq|]. by rewrite lookup_insert_eq.
      * rewrite (Hno (of_hook r)) by (by rewrite Hor, bool_decide_eq_false_2).
        destruct (delete i _ == ∅); [rewrite lookup_delete_ne by done|rewrite lookup_insert_ne by done]; apply Hh.
    + rewrite held_delete, Hb, (weight_delete _ i e), sat_sub_cancel by auto. done.
    + rewrite held_delete, Hno by (by rewrite pending_or_dropped, Hp). exact Hd.
  - constructor; simpl; [done|..].
    + rewrite held_delete, Hno by done. exact Ha.
    + intros r. rewrite held_delete, Hno by (unfold of_repo; by rewrite Hp). apply Hr.
    + intros r. rewrite held_delete, Hno by (unfold of_hook; by rewrite Hp). apply Hh.
    + rewrite held_delete, Hno by done. exact Hb.
    + rewrite held_delete, Hd. symmetry. apply keys_delete; [done|by apply Hk|].
      apply Hs. by rewrite pending_or_dropped, Hp.
Qed.

Lemma unindex_set_entries st m e : unindex (set_entries m st) e = set_entries m (unindex st e).
Proof. unfold unindex. by destruct (en_status e). Qed.
Lemma index_set_entries st m e : index (set_entries m st) e = set_entries m (index st e).
Proof. unfold index. by destruct (en_status e). Qed.
Lemma unindex_entries st e : st_entries (unindex st e) = st_entries st.
Proof. unfold unindex. by destruct (en_status e). Qed.
Lemma index_entries st e : st_entries (index st e) = st_entries st.
Proof. unfold index. by destruct (en_status e). Qed.
Lemma unindex_claimed st e : st_claimed (unindex st e) = st_claimed st.
Proof. unfold unindex. by destruct (en_status e). Qed.
Lemma index_claimed st e : st_claimed (index st e) = st_claimed st.
Proof. unfold index. by destruct (en_status e). Qed.
Lemma set_entries_twice m m' st : set_entries m (set_entries m' st) = set_entries m st.
Proof. done. Qed.
Lemma set_entries_id st : set_entries (st_entries st) st = st.
Proof. by destruct st. Qed.

(** The fields the indexes are made of. *)
Definition same_place (e e' : Entry) : Prop :=
  en_id e' = en_id e /\ en_repo_id e' = en_repo_id e /\ en_hook_id e' = en_hook_id e /\ en_created_ms e' = en_created_ms e
  /\ en_status e' = en_status e /\ en_dropped_ms e' = en_dropped_ms e /\ en_bytes e' = en_bytes e.

(** An entry changed in place. *)
Lemma update_indexed st i e e' : indexed st -> st_entries st !! i = Some e -> same_place e e' ->
  indexed (set_entries (<[i := e']> (st_entries st)) st).
Proof.
  intros [Hid Ha Hr Hh Hb Hd] Hi (Ei & Er & Eh & Ec & Es & Ed & Eb).
  assert (forall p key, p e' = p e -> key e' = key e ->
    keys key (held p (<[i := e']> (st_entries st))) = keys key (held p (st_entries st))) as Hkeys.
  { intros p key Hp Hk. rewrite (held_update _ _ _ _ _ Hi Hp). destruct (p e) eqn:Ep; [|done].
    apply (keys_update _ _ _ e); [by apply held_Some|done]. }
  assert (forall p, p e' = p e -> weight (held p (<[i := e']> (st_entries st))) = weight (held p (st_entries st))) as Hw.
  { intros p Hp. rewrite (held_update _ _ _ _ _ Hi Hp). destruct (p e) eqn:Ep; [|done].
    apply (weight_update _ _ e); [by apply held_Some|done]. }
  assert (forall A p (x : A), p e' = p e ->
    unless_empty (held p (<[i := e']> (st_entries st))) x = unless_empty (held p (st_entries st)) x) as Hu.
  { intros A p x Hp. unfold unless_empty. rewrite <-!aged_of_eqb. unfold aged_of.
    rewrite Hkeys; [done|done|]. unfold age_key. by rewrite Ec, Ei. }
  assert (age_key e' = age_key e) as Eage by (unfold age_key; by rewrite Ec, Ei).
  assert (drop_key e' = drop_key e) as Edrop by (unfold drop_key; by rewrite Ed, Ei).
  assert (hook_key e' = hook_key e) as Ehook by (unfold hook_key; by rewrite Er, Eh).
  assert (is_pending_entry e' = is_pending_entry e) as Ep by (unfold is_pending_entry; by rewrite Es).
  assert (is_dropped_entry e' = is_dropped_entry e) as Edr by (unfold is_dropped_entry; by rewrite Es).
  assert (forall r, of_repo r e' = of_repo r e) as Eor by (intros r; unfold of_repo; by rewrite Ep, Er).
  assert (forall k, of_hook k e' = of_hook k e) as Eoh by (intros k; unfold of_hook; by rewrite Ep, Ehook).
  constructor; simpl.
  - intros j x [[<- <-]|[_ Hx]]%lookup_insert_Some; [rewrite Ei; by apply Hid|by apply Hid].
  - unfold aged_of. by rewrite Hkeys.
  - intros r. unfold aged_of. rewrite Hkeys, Hw, Hu by auto. apply Hr.
  - intros k. unfold aged_of. rewrite Hkeys, Hu by auto. apply Hh.
  - by rewrite Hw.
  - by rewrite Hkeys.
Qed.

Lemma without_id_aged p st id : indexed st -> is_pending st id = false -> (forall e, p e = true -> is_pending_entry e = true) ->
  without_id id (aged_of (held p (st_entries st))) = aged_of (held p (st_entries st)).
Proof.
  intros Hix Hid Hp. apply set_eq. intros k. unfold without_id. rewrite elem_of_filter. split; [by intros [_ ?]|].
  intros Hk. split; [|done]. unfold aged_of in Hk. apply elem_of_keys in Hk as (i & e & [Hi He]%held_Some & <-).
  simpl. rewrite (ix_keyed _ Hix _ _ Hi). intros ->. unfold is_pending in Hid. rewrite Hi in Hid. simpl in Hid.
  by rewrite Hp in Hid.
Qed.

(** Purging an id that is not pending changes nothing: the loop over an index never spins. *)
Lemma purge_id st id : indexed st -> is_pending st id = false -> purge_pending_keys st id = st.
Proof.
  intros Hix Hid. pose proof (fun p => without_id_aged p st id Hix Hid) as Hw. destruct Hix as [_ Ha Hr Hh _ _].
  unfold purge_pending_keys. rewrite Ha, Hw by done.
  assert (forall r e, of_repo r e = true -> is_pending_entry e = true) as Hpr by (intros r e [? _]%andb_prop; done).
  assert (forall r e, of_hook r e = true -> is_pending_entry e = true) as Hph by (intros r e [? _]%andb_prop; done).
  destruct st as [m c a rs hs b d]; simpl in *. f_equal; [done|..]; apply map_eq; intros k; rewrite lookup_omap.
  - rewrite Hr. unfold unless_empty. case_bool_decide as E; simpl; [done|]. rewrite Hw by apply Hpr.
    rewrite bool_decide_eq_false_2; [done|]. by intros ?%keys_empty.
  - rewrite Hh. unfold unless_empty. case_bool_decide as E; simpl; [done|]. rewrite Hw by apply Hph.
    rewrite bool_decide_eq_false_2; [done|]. by intros ?%keys_empty.
Qed.

(** ** Loops *)

(** A step that lowers a measure, repeated as many times as the measure allows, ends where it has
    nothing left to do. *)
Lemma repeat_step_done {A} (P : A -> Prop) (R : A -> A -> Prop) `{!PreOrder R} (mu : A -> nat) (step : A -> option A) :
  (forall x y, P x -> step x = Some y -> P y /\ R x y /\ mu y < mu x) ->
  forall fuel x, P x -> mu x <= fuel ->
  P (repeat_step fuel step x) /\ R x (repeat_step fuel step x) /\ step (repeat_step fuel step x) = None.
Proof.
  intros Hstep fuel. induction fuel as [|fuel IH]; intros x Hx Hmu; simpl.
  - split_and!; [done|reflexivity|]. destruct (step x) as [y|] eqn:Ey; [|done].
    destruct (Hstep _ _ Hx Ey) as (_ & _ & ?). lia.
  - destruct (step x) as [y|] eqn:Ey; [|by split_and!].
    destruct (Hstep _ _ Hx Ey) as (Hy & Hxy & Hlt). destruct (IH y Hy) as (? & ? & ?); [lia|].
    split_and!; [done| |done]. by etrans.
Qed.

(** ** Every operation is a run of primitive changes *)

Section steps.
Context `{codec : Codec} `{order : HashOrder}.

(** One change of the entries, with its indexes and its file, of the claims, or of the disk. *)
Inductive change (q : RetryQueue) : RetryQueue -> Prop :=
  | change_put e :
      st_entries (q_state q) !! en_id e = None -> is_pending_entry e = true -> en_bytes e = payload_len (en_payload e) ->
      change q (persist (set_entry (with_state q (index (q_state q) e)) e) e)
  | change_update e e' :
      st_entries (q_state q) !! en_id e = Some e -> same_place e e' -> en_payload e' = en_payload e ->
      change q (persist (set_entry q e') e')
  | change_drop e reason now :
      st_entries (q_state q) !! en_id e = Some e -> is_pending_entry e = true ->
      change q (set_entry (persist (with_state q (index (unindex (set_entries (delete (en_id e) (st_entries (q_state q)))
        (q_state q)) e) (dropped_as e reason now))) (dropped_as e reason now)) (dropped_as e reason now))
  | change_forget e :
      st_entries (q_state q) !! en_id e = Some e ->
      change q (unlink (with_state q (unindex (set_entries (delete (en_id e) (st_entries (q_state q))) (q_state q)) e)) (en_id e))
  | change_claims c : change q (with_state q (set_claimed c (q_state q))).

Lemma persist_state q e : q_state (persist q e) = q_state q.
Proof. unfold persist, send_op. by destruct (to_vec e). Qed.
Lemma persist_schedule q e : q_schedule (persist q e) = q_schedule q.
Proof. unfold persist, send_op. by destruct (to_vec e). Qed.
Lemma persist_limits q e : q_limits (persist q e) = q_limits q.
Proof. unfold persist, send_op. by destruct (to_vec e). Qed.

(** The indexes agree with the entries, and an entry's size is its body's. *)
Record good (q : RetryQueue) : Prop := mkGood {
    gd_indexed : indexed (q_state q);
    gd_sized : forall i e, st_entries (q_state q) !! i = Some e -> en_bytes e = payload_len (en_payload e)
  }.

Lemma set_entry_index q e :
  set_entries (<[en_id e := e]> (st_entries (index (q_state q) e))) (index (q_state q) e)
  = set_entries (<[en_id e := e]> (st_entries (q_state q))) (index (q_state q) e).
Proof. by rewrite index_entries. Qed.

Lemma change_good q q' : change q q' -> good q -> good q'.
Proof.
  intros Hc [Hix Hsz]. pose proof (ix_keyed _ Hix) as Hid.
  destruct Hc as [e Hn Hp Hb|e e' He Hsame Hpl|e reason now He Hp|e He|c];
    constructor; unfold set_entry, unlink, send_op; rewrite ?persist_state; simpl.
  - rewrite set_entry_index. by apply index_indexed.
  - rewrite index_entries. intros i x [[<- <-]|[_ Hx]]%lookup_insert_Some; [done|eauto].
  - rewrite (proj1 Hsame). by eapply update_indexed.
  - intros i x [[<- <-]|[_ Hx]]%lookup_insert_Some; [|eauto].
    destruct Hsame as (_ & _ & _ & _ & _ & _ & ->). rewrite Hpl. eauto.
  - pose proof (unindex_indexed _ _ _ Hix He) as Hix'.
    rewrite ?index_entries, !unindex_entries. simpl.
    rewrite unindex_set_entries, index_set_entries, set_entries_twice.
    apply (index_indexed _ (dropped_as e reason now)) in Hix'; [|apply lookup_delete_eq].
    simpl in Hix'. by rewrite index_set_entries, set_entries_twice in Hix'.
  - rewrite ?index_entries, !unindex_entries. simpl.
    intros i x [[<- <-]|[_ [_ Hx]%lookup_delete_Some]]%lookup_insert_Some; [done|eauto].
  - rewrite unindex_set_entries. by apply unindex_indexed.
  - rewrite unindex_entries. simpl. intros i x [_ Hx]%lookup_delete_Some. eauto.
  - by destruct Hix; constructor.
  - done.
Qed.

Lemma changes_good q q' : rtc change q q' -> good q -> good q'.
Proof. induction 1; eauto using change_good. Qed.

(** *** The pending entries *)

Definition pend (q : RetryQueue) : gmap string Entry := held is_pending_entry (st_entries (q_state q)).

Lemma held_pend p q : (forall e, p e = true -> is_pending_entry e = true) -> held p (st_entries (q_state q)) = held p (pend q).
Proof.
  intros Hp. apply map_eq. intros i. apply option_eq. intros e. unfold pend. rewrite !held_Some. naive_solver.
Qed.

Lemma of_repo_pending r e : of_repo r e = true -> is_pending_entry e = true.
Proof. by intros [? _]%andb_prop. Qed.
Lemma of_hook_pending k e : of_hook k e = true -> is_pending_entry e = true.
Proof. by intros [? _]%andb_prop. Qed.

Lemma held_mono p m m' : m ⊆ m' -> held p m ⊆ held p m'.
Proof. intros Hs. apply map_subseteq_spec. intros i e. rewrite !held_Some. intros [? ?]. split; [by eapply lookup_weaken|done]. Qed.

Lemma is_pending_pend q id : is_pending (q_state q) id = true <-> is_Some (pend q !! id).
Proof.
  unfold is_pending, pend. rewrite is_some_and_true. split.
  - intros (e & He & Hp). exists e. by apply held_Some.
  - intros [e [He Hp]%held_Some]. eauto.
Qed.

(** How many entries a group holds, and how many bytes. *)
Definition count (h : gmap string Entry) : N := N.of_nat (size h).
Lemma held_count_mono h h' : h ⊆ h' -> (count h <= count h')%N.
Proof. intros Hs%map_subseteq_size. unfold count. lia. Qed.

Lemma aged_len_of q p : good q -> aged_len (aged_of (held p (st_entries (q_state q)))) = count (held p (st_entries (q_state q))).
Proof.
  intros [Hix _]. unfold aged_len, count, aged_of. rewrite keys_size; [done|done|].
  apply held_keyed, (ix_keyed _ Hix).
Qed.

Lemma aged_count q : good q -> aged_len (st_aged (q_state q)) = count (pend q).
Proof. intros Hg. rewrite (ix_aged _ (gd_indexed _ Hg)). by apply aged_len_of. Qed.

(** Within a queue's limits, by its pending entries. *)
Record within_limits (l : Limits) (p : gmap string Entry) : Prop := mkWithin {
    wl_hooks : forall k, (count (held (of_hook k) p) <= per_hook l)%N;
    wl_repos : forall r, (count (held (of_repo r) p) <= per_repo l)%N;
    wl_total : (count p <= total l)%N;
    wl_bytes : (weight p <= max_bytes l)%N
  }.

Lemma within_mono l p p' : p' ⊆ p -> within_limits l p -> within_limits l p'.
Proof.
  intros Hs [Hh Hr Ht Hb]. constructor.
  - intros k. etrans; [|apply (Hh k)]. by apply held_count_mono, held_mono.
  - intros r. etrans; [|apply (Hr r)]. by apply held_count_mono, held_mono.
  - etrans; [|exact Ht]. by apply held_count_mono.
  - etrans; [|exact Hb]. by apply weight_mono.
Qed.

Lemma count_empty : count ∅ = 0%N.
Proof. done. Qed.

Lemma bounded_within l q : good q -> (aged_len (st_dropped (q_state q)) <= MAX_DROPPED)%N ->
  bounded l (q_state q) <-> within_limits l (pend q).
Proof.
  intros Hg Hd. pose proof (gd_indexed _ Hg) as [Hid Ha Hr Hh Hb _]. split.
  - intros [Bh Br Bt Bb _]. constructor.
    + intros k. rewrite <-held_pend by apply of_hook_pending. destruct (st_hooks (q_state q) !! k) as [a|] eqn:Ek.
      * specialize (Bh _ _ Ek). rewrite Hh in Ek. apply unless_Some in Ek as [_ ->]. by rewrite <-aged_len_of.
      * rewrite Hh in Ek. apply unless_None in Ek. rewrite Ek, count_empty. lia.
    + intros r. rewrite <-held_pend by apply of_repo_pending. destruct (st_repos (q_state q) !! r) as [t|] eqn:Ek.
      * specialize (Br _ _ Ek). rewrite Hr in Ek. apply unless_Some in Ek as [_ ->]. by rewrite <-aged_len_of.
      * rewrite Hr in Ek. apply unless_None in Ek. rewrite Ek, count_empty. lia.
    + by rewrite <-aged_count.
    + unfold pend. by rewrite <-Hb.
  - intros [Bh Br Bt Bb]. constructor; [..|done].
    + intros k a Ek. rewrite Hh in Ek. apply unless_Some in Ek as [_ ->]. rewrite aged_len_of, held_pend by (done || apply of_hook_pending).
      apply Bh.
    + intros r t Ek. rewrite Hr in Ek. apply unless_Some in Ek as [_ ->]. simpl.
      rewrite aged_len_of, held_pend by (done || apply of_repo_pending). apply Br.
    + by rewrite aged_count.
    + by rewrite Hb.
Qed.

(** *** Dropping *)

Lemma aged_first_Some a k : aged_first a = Some k -> k ∈ a /\ forall k', k' ∈ a -> key_cmp k k' <> Gt.
Proof.
  intros [Hk Hmin]%min_by_Some; [|apply _]. split; [by apply elem_of_elements|].
  intros k' Hk'. by apply Hmin, elem_of_elements.
Qed.

Lemma aged_first_None a : aged_first a = None <-> a = ∅.
Proof. unfold aged_first. by rewrite min_by_None, elements_empty_iff, leibniz_equiv_iff. Qed.

(** What housekeeping may do: drop pending entries, never add one, nor leave more dropped records
    than are kept. *)
Record sheds (q q' : RetryQueue) : Prop := mkSheds {
    sh_run : rtc change q q';
    sh_pend : pend q' ⊆ pend q;
    sh_ids : dom (st_entries (q_state q')) ⊆ dom (st_entries (q_state q));
    sh_schedule : q_schedule q' = q_schedule q;
    sh_limits : q_limits q' = q_limits q;
    sh_claimed : st_claimed (q_state q') = st_claimed (q_state q);
    sh_dropped : (aged_len (st_dropped (q_state q)) <= MAX_DROPPED)%N -> (aged_len (st_dropped (q_state q')) <= MAX_DROPPED)%N
  }.

#[global] Instance sheds_preorder : PreOrder sheds.
Proof.
  split.
  - intros q. by constructor.
  - intros q1 q2 q3 [R1 P1 I1 S1 L1 C1 D1] [R2 P2 I2 S2 L2 C2 D2]. constructor; [by etrans..|congruence|congruence|congruence|auto].
Qed.

Lemma sheds_good q q' : sheds q q' -> good q -> good q'.
Proof. intros Hs. apply changes_good, Hs. Qed.

Lemma with_state_id q : with_state q (q_state q) = q.
Proof. by destruct q. Qed.

Lemma dropped_entry q k : good q -> k ∈ st_dropped (q_state q) ->
  exists e, st_entries (q_state q) !! k.2 = Some e /\ is_pending_entry e = false /\ drop_key e = k.
Proof.
  intros [Hix _] Hk. rewrite (ix_dropped _ Hix) in Hk. apply elem_of_keys in Hk as (i & e & [Hi Hd]%held_Some & <-).
  exists e. simpl. rewrite (ix_keyed _ Hix _ _ Hi). rewrite pending_or_dropped in Hd.
  by destruct (is_pending_entry e).
Qed.

Lemma pop_dropped_spec q k : good q -> k ∈ st_dropped (q_state q) ->
  change q (pop_dropped q k) /\ pend (pop_dropped q k) = pend q
  /\ st_dropped (q_state (pop_dropped q k)) = st_dropped (q_state q) ∖ {[k]}.
Proof.
  intros Hg Hk. destruct (dropped_entry q k Hg Hk) as (e & He & Hp & <-). simpl in He. split_and!; [| |done].
  - assert (unindex (set_entries (delete (en_id e) (st_entries (q_state q))) (q_state q)) e
            = set_entries (delete (en_id e) (st_entries (q_state q)))
                (set_dropped (st_dropped (q_state q) ∖ {[drop_key e]}) (q_state q))) as E.
    { unfold unindex. unfold is_pending_entry in Hp. by destruct (en_status e). }
    unfold pop_dropped. simpl. rewrite <-E. by apply change_forget.
  - unfold pend. simpl. rewrite held_delete. apply delete_id, map_lookup_filter_None. right.
    intros x Hx. simplify_eq. by rewrite Hp.
Qed.

Lemma pop_dropped_sheds q k : good q -> k ∈ st_dropped (q_state q) ->
  sheds q (pop_dropped q k) /\ size (st_dropped (q_state (pop_dropped q k))) < size (st_dropped (q_state q)).
Proof.
  intros Hg Hk. destruct (pop_dropped_spec q k Hg Hk) as (Hc & Hp & Hd).
  assert (size (st_dropped (q_state (pop_dropped q k))) < size (st_dropped (q_state q))) as Hlt.
  { rewrite Hd. apply subset_size. set_solver. }
  split; [|done]. constructor; [by apply rtc_once|by rewrite Hp| |done..|].
  - simpl. rewrite dom_delete. set_solver.
  - unfold aged_len. lia.
Qed.

Lemma trim_dropped_spec q : good q ->
  sheds q (trim_dropped q) /\ pend (trim_dropped q) = pend q
  /\ (aged_len (st_dropped (q_state (trim_dropped q))) <= MAX_DROPPED)%N.
Proof.
  intros Hg.
  destruct (repeat_step_done (fun x => good x /\ pend x = pend q) sheds (fun x => size (st_dropped (q_state x))) trim_step)
    with (fuel := size (st_dropped (q_state q))) (x := q) as ([_ Hp] & Hs & Hnone); [|done|done|].
  - intros x y [Hx Hpx] Hy. unfold trim_step in Hy. destruct (_ <? _)%N; [|done].
    destruct (aged_first _) as [k|] eqn:Ek; simpl in Hy; [|done]. simplify_eq.
    apply aged_first_Some in Ek as [Hk _]. destruct (pop_dropped_sheds x k Hx Hk) as [Hs Hlt].
    destruct (pop_dropped_spec x k Hx Hk) as (_ & Hp & _).
    split_and!; [by eapply sheds_good|by rewrite Hp|done|done].
  - split_and!; [done|done|]. fold (trim_dropped q) in Hnone. revert Hnone. generalize (trim_dropped q). intros x Hnone.
    unfold trim_step in Hnone. destruct (_ <? _)%N eqn:El; [|by apply N.ltb_ge in El]. exfalso.
    destruct (aged_first (st_dropped (q_state x))) eqn:Ek; [done|]. apply aged_first_None in Ek.
    apply N.ltb_lt in El. unfold aged_len in El. rewrite Ek, size_empty in El. lia.
Qed.

Lemma pend_delete q id : (forall e, st_entries (q_state q) !! id = Some e -> is_pending_entry e = false) ->
  delete id (pend q) = pend q.
Proof.
  intros H. apply delete_id, map_lookup_filter_None. right. intros e He. by rewrite (H e He).
Qed.

Lemma set_entries_same st id e : st_entries st !! id = Some e ->
  set_entries (<[id := e]> (delete id (st_entries st))) st = st.
Proof. intros He. by rewrite insert_delete_eq, insert_id, set_entries_id. Qed.

Lemma mark_dropped_spec q id reason now : good q ->
  sheds q (mark_dropped q id reason now) /\ pend (mark_dropped q id reason now) = delete id (pend q).
Proof.
  intros Hg. pose proof (gd_indexed _ Hg) as Hix. unfold mark_dropped.
  destruct (st_entries (q_state q) !! id) as [e|] eqn:He; cycle 1.
  { rewrite purge_id, with_state_id, pend_delete; try done; [by intros; congruence|].
    unfold is_pending. by rewrite He. }
  pose proof (ix_keyed _ Hix _ _ He) as Hid. destruct (en_status e) eqn:Es.
  - set (e' := dropped_as e reason now).
    set (q1 := set_entry (persist (with_state q (index (unindex (set_entries (delete id (st_entries (q_state q))) (q_state q)) e) e')) e') e').
    assert (is_pending_entry e = true) as Hp by (unfold is_pending_entry; by rewrite Es, bool_decide_eq_true_2).
    assert (change q q1) as Hc by (subst id; by apply change_drop).
    assert (pend q1 = delete id (pend q)) as Hpend.
    { unfold q1, pend, set_entry. rewrite !persist_state. simpl. rewrite ?index_entries, unindex_entries. simpl.
      rewrite held_insert by (subst id; apply lookup_delete_eq). simpl. by rewrite held_delete. }
    destruct (trim_dropped_spec q1) as (Hs & Hps & Hd); [by eapply change_good|].
    fold (set_entry (persist (with_state q (index (unindex (set_entries (delete id (st_entries (q_state q))) (q_state q)) e) e')) e') e').
    fold q1. split; [|by rewrite Hps].
    destruct Hs as [R P I S L C _]. constructor; [by eapply rtc_l|by rewrite Hps, Hpend; apply delete_subseteq|..|done].
    + etrans; [exact I|]. unfold q1. simpl. rewrite ?persist_state. simpl. rewrite ?index_entries, unindex_entries. simpl.
      rewrite dom_insert, dom_delete, Hid. apply elem_of_dom_2 in He. set_solver.
    + rewrite S. unfold q1. simpl. by rewrite persist_schedule.
    + rewrite L. unfold q1. simpl. by rewrite persist_limits.
    + rewrite C. unfold q1. simpl. rewrite persist_state. simpl. by rewrite ?index_claimed, unindex_claimed.
  - assert (is_pending (q_state q) id = false) as Hnp.
    { unfold is_pending, is_pending_entry. rewrite He. simpl. by rewrite Es. }
    simpl. rewrite <-Hid in He |- *.
    assert (purge_pending_keys (set_entries (delete (en_id e) (st_entries (q_state q))) (q_state q)) (en_id e)
      = set_entries (delete (en_id e) (st_entries (q_state q))) (purge_pending_keys (q_state q) (en_id e))) as -> by done.
    rewrite purge_id by (done || by rewrite Hid). rewrite set_entries_twice, (set_entries_same _ _ _ He).
    assert (with_state (with_state q (set_entries (delete (en_id e) (st_entries (q_state q))) (q_state q))) (q_state q) = q) as -> by by destruct q.
    destruct (trim_dropped_spec q Hg) as (Hs & Hps & Hd). split; [done|]. rewrite Hps, pend_delete; [done|].
    intros x Hx. simplify_eq. unfold is_pending_entry. by rewrite Es.
Qed.

(** *** The bounds *)

Lemma aged_pend q p k : good q -> (forall e, p e = true -> is_pending_entry e = true) ->
  k ∈ aged_of (held p (st_entries (q_state q))) -> exists e, pend q !! k.2 = Some e /\ p e = true /\ age_key e = k.
Proof.
  intros [Hix _] Hp Hk. apply elem_of_keys in Hk as (i & e & [Hi He]%held_Some & <-).
  exists e. simpl. rewrite (ix_keyed _ Hix _ _ Hi). split; [|done]. apply held_Some. auto.
Qed.

(** A step that only ever drops a pending entry. *)
Definition drops_pending (step : RetryQueue -> option RetryQueue) : Prop :=
  forall x y, good x -> step x = Some y -> exists id reason now, y = mark_dropped x id reason now /\ is_Some (pend x !! id).

Lemma drop_one q id reason now : good q -> is_Some (pend q !! id) ->
  sheds q (mark_dropped q id reason now) /\ size (pend (mark_dropped q id reason now)) < size (pend q).
Proof.
  intros Hg [e He]. destruct (mark_dropped_spec q id reason now Hg) as [Hs Hp]. split; [done|].
  rewrite Hp, map_size_delete, He. assert (size (pend q) <> 0) as ?; [|lia].
  intros E%map_size_empty_inv. by rewrite E, lookup_empty in He.
Qed.

Lemma enforce_loop_spec step q : drops_pending step -> good q ->
  sheds q (enforce_loop step q) /\ good (enforce_loop step q) /\ step (enforce_loop step q) = None.
Proof.
  intros Hstep Hg. unfold enforce_loop.
  destruct (repeat_step_done good sheds (fun x => size (pend x)) step) with (fuel := size (st_aged (q_state q))) (x := q)
    as (? & ? & ?); [|done| |done].
  - intros x y Hx Hy. destruct (Hstep _ _ Hx Hy) as (id & reason & now & -> & Hid).
    destruct (drop_one x id reason now Hx Hid) as [Hs Hlt]. split_and!; [by eapply sheds_good|done|done].
  - pose proof (aged_count q Hg) as E. unfold aged_len, count in E. lia.
Qed.

Lemma oldest_past_Some bound a id : oldest_past bound a = Some id ->
  exists k, k ∈ a /\ k.2 = id /\ (forall k', k' ∈ a -> key_cmp k k' <> Gt) /\ (bound < aged_len a)%N.
Proof.
  unfold oldest_past. destruct (_ <? _)%N eqn:E; [|done]. destruct (aged_first a) as [k|] eqn:Ek; [|done].
  intros [= <-]. apply aged_first_Some in Ek as [? ?]. apply N.ltb_lt in E. eauto.
Qed.

Lemma oldest_past_None bound a : oldest_past bound a = None -> (aged_len a <= bound)%N.
Proof.
  unfold oldest_past. destruct (_ <? _)%N eqn:E; [|by apply N.ltb_ge in E].
  destruct (aged_first a) eqn:Ek; [done|]. apply aged_first_None in Ek as ->. apply N.ltb_lt in E.
  unfold aged_len in E. rewrite size_empty in E. lia.
Qed.

Lemma enforce_hook_drops repo hook now : drops_pending (enforce_hook_step repo hook now).
Proof.
  intros x y Hx. unfold enforce_hook_step. rewrite (ix_hooks _ (gd_indexed _ Hx)). unfold unless_empty.
  case_bool_decide; simpl; [done|]. destruct (oldest_past _ _) as [id|] eqn:Ho; simpl; [|done]. intros [= <-].
  apply oldest_past_Some in Ho as (k & Hk & <- & _). destruct (aged_pend x _ k Hx (of_hook_pending _) Hk) as (e & He & _).
  eauto 10.
Qed.

Lemma enforce_repo_drops repo now : drops_pending (enforce_repo_step repo now).
Proof.
  intros x y Hx. unfold enforce_repo_step. rewrite (ix_repos _ (gd_indexed _ Hx)). unfold unless_empty.
  case_bool_decide; simpl; [done|]. destruct (oldest_past _ _) as [id|] eqn:Ho; simpl; [|done]. intros [= <-].
  apply oldest_past_Some in Ho as (k & Hk & <- & _). destruct (aged_pend x _ k Hx (of_repo_pending _) Hk) as (e & He & _).
  eauto 10.
Qed.

(** The victim of a global bound: the oldest entry of a repo none holds more than. *)
Lemma global_victim_spec q by_count id : good q -> global_victim by_count (q_state q) = Some id ->
  exists e, pend q !! id = Some e
  /\ (forall i x, pend q !! i = Some x -> en_repo_id x = en_repo_id e -> key_cmp (age_key e) (age_key x) <> Gt)
  /\ forall r, if by_count then (count (held (of_repo r) (pend q)) <= count (held (of_repo (en_repo_id e)) (pend q)))%N
               else (weight (held (of_repo r) (pend q)) <= weight (held (of_repo (en_repo_id e)) (pend q)))%N.
Proof.
  intros Hg. pose proof (gd_indexed _ Hg) as Hix. unfold global_victim.
  destruct (max_by _ _) as [t|] eqn:Et; simpl; [|done]. apply max_by_Some in Et as [Ht Hmax]; [|apply _].
  destruct (aged_first (ta_aged t)) as [k|] eqn:Ek; simpl; [|done]. intros [= <-].
  apply aged_first_Some in Ek as [Hk Hmin].
  assert (forall r t', st_repos (q_state q) !! r = Some t' -> t' ∈ map snd (iter_order (st_repos (q_state q)))) as Hin.
  { intros r t' Hr. apply list_elem_of_In, in_map_iff. exists (r, t'). split; [done|].
    apply list_elem_of_In. by rewrite iter_perm, elem_of_map_to_list. }
  apply list_elem_of_In, in_map_iff in Ht as ([r0 t0] & <- & Hr0%list_elem_of_In). simpl in *.
  rewrite iter_perm, elem_of_map_to_list, (ix_repos _ Hix) in Hr0. apply unless_Some in Hr0 as [Hne ->]. simpl in Hk.
  destruct (aged_pend q _ k Hg (of_repo_pending r0) Hk) as (e & He & Hre & <-).
  assert (en_repo_id e = r0) as <-.
  { apply andb_prop in Hre as [_ Hre]. by apply bool_decide_eq_true in Hre. }
  exists e. split; [done|]. split.
  - intros i x Hx Er. apply Hmin. simpl. apply held_Some in Hx as [Hx Hpx]. apply elem_of_keys. exists i, x. split; [|done].
    apply held_Some. split; [done|]. unfold of_repo. rewrite Hpx, Er. by apply bool_decide_eq_true_2.
  - intros r. rewrite <-!held_pend by apply of_repo_pending.
    destruct (decide (held (of_repo r) (st_entries (q_state q)) = ∅)) as [E|E].
    { rewrite E. destruct by_count; [rewrite count_empty|rewrite weight_empty]; lia. }
    assert (st_repos (q_state q) !! r = Some (mkTally (aged_of (held (of_repo r) (st_entries (q_state q))))
              (weight (held (of_repo r) (st_entries (q_state q)))))) as Hr by (rewrite (ix_repos _ Hix); by apply unless_Some).
    apply Hin, Hmax in Hr. unfold cmp_on in Hr. simpl in Hr.
    destruct by_count; [|by apply N.compare_le_iff in Hr]. by rewrite !aged_len_of in Hr by done.
Qed.

Lemma global_victim_None q by_count : good q -> global_victim by_count (q_state q) = None -> pend q = ∅.
Proof.
  intros Hg. pose proof (gd_indexed _ Hg) as Hix. unfold global_victim.
  destruct (max_by _ _) as [t|] eqn:Et; simpl.
  - apply max_by_Some in Et as [Ht _]; [|apply _].
    apply list_elem_of_In, in_map_iff in Ht as ([r0 t0] & <- & Hr0%list_elem_of_In). simpl in *.
    rewrite iter_perm, elem_of_map_to_list, (ix_repos _ Hix) in Hr0. apply unless_Some in Hr0 as [Hne ->]. simpl.
    destruct (aged_first _) eqn:Ek; [done|]. apply aged_first_None, (keys_empty age_key) in Ek. done.
  - intros _. apply max_by_None in Et. apply map_eq_nil in Et.
    pose proof (iter_perm (st_repos (q_state q))) as Hperm. rewrite Et in Hperm. apply Permutation_nil_l in Hperm.
    clear Et. symmetry in Hperm. rename Hperm into Et. apply map_to_list_empty_iff in Et. apply map_empty. intros i. destruct (pend q !! i) as [e|] eqn:He; [|done].
    apply held_Some in He as [He Hp]. exfalso.
    assert (st_repos (q_state q) !! en_repo_id e = None) as Hno by (by rewrite Et).
    rewrite (ix_repos _ Hix) in Hno. apply unless_None in Hno.
    assert (held (of_repo (en_repo_id e)) (st_entries (q_state q)) !! i = Some e) as Hi.
    { apply held_Some. split; [done|]. unfold of_repo. rewrite Hp. by apply bool_decide_eq_true_2. }
    by rewrite Hno, lookup_empty in Hi.
Qed.

Lemma enforce_global_drops now : drops_pending (enforce_global_step now).
Proof.
  intros x y Hx. unfold enforce_global_step. destruct (_ && _); [done|].
  destruct (global_victim _ _) as [id|] eqn:Ev; simpl; [|done]. intros [= <-].
  apply global_victim_spec in Ev as (e & He & _); [|done]. eauto 10.
Qed.

Lemma enforce_hook_bound_spec q repo hook now : good q ->
  sheds q (enforce_hook_bound q repo hook now) /\ good (enforce_hook_bound q repo hook now)
  /\ (count (held (of_hook (repo, hook)) (pend (enforce_hook_bound q repo hook now))) <= per_hook (q_limits q))%N.
Proof.
  intros Hg. destruct (enforce_loop_spec _ q (enforce_hook_drops repo hook now) Hg) as (Hs & Hg' & Hnone).
  fold (enforce_hook_bound q repo hook now) in Hs, Hg', Hnone. split_and!; [done|done|]. revert Hnone.
  unfold enforce_hook_step. rewrite (sh_limits _ _ Hs), (ix_hooks _ (gd_indexed _ Hg')), <-held_pend by apply of_hook_pending.
  unfold unless_empty. case_bool_decide as E; [rewrite E, count_empty; lia|]. simpl.
  destruct (oldest_past _ _) eqn:Ho; [done|]. intros _. apply oldest_past_None in Ho. by rewrite aged_len_of in Ho.
Qed.

Lemma enforce_repo_bound_spec q repo now : good q ->
  sheds q (enforce_repo_bound q repo now) /\ good (enforce_repo_bound q repo now)
  /\ (count (held (of_repo repo) (pend (enforce_repo_bound q repo now))) <= per_repo (q_limits q))%N.
Proof.
  intros Hg. destruct (enforce_loop_spec _ q (enforce_repo_drops repo now) Hg) as (Hs & Hg' & Hnone).
  fold (enforce_repo_bound q repo now) in Hs, Hg', Hnone. split_and!; [done|done|]. revert Hnone.
  unfold enforce_repo_step. rewrite (sh_limits _ _ Hs), (ix_repos _ (gd_indexed _ Hg')), <-held_pend by apply of_repo_pending.
  unfold unless_empty. case_bool_decide as E; [rewrite E, count_empty; lia|]. simpl.
  destruct (oldest_past _ _) eqn:Ho; [done|]. intros _. apply oldest_past_None in Ho. by rewrite aged_len_of in Ho.
Qed.

Lemma enforce_global_bounds_spec q now : good q ->
  sheds q (enforce_global_bounds q now) /\ good (enforce_global_bounds q now)
  /\ (count (pend (enforce_global_bounds q now)) <= total (q_limits q))%N
  /\ (weight (pend (enforce_global_bounds q now)) <= max_bytes (q_limits q))%N.
Proof.
  intros Hg. destruct (enforce_loop_spec _ q (enforce_global_drops now) Hg) as (Hs & Hg' & Hnone).
  fold (enforce_global_bounds q now) in Hs, Hg', Hnone. split; [done|]. split; [done|]. revert Hnone.
  unfold enforce_global_step. rewrite (sh_limits _ _ Hs), aged_count, (ix_bytes _ (gd_indexed _ Hg')) by done. fold (pend (enforce_global_bounds q now)).
  destruct (global_victim _ _) as [v|] eqn:Ev.
  - simpl. destruct (_ <? _)%N eqn:Ec; simpl; [done|]. destruct (_ <=? _)%N eqn:Eb; [|done]. intros _.
    apply N.ltb_ge in Ec. by apply N.leb_le in Eb.
  - intros _. apply global_victim_None in Ev; [|done]. rewrite Ev, count_empty, weight_empty. lia.
Qed.

Lemma count_sheds p q q' : sheds q q' -> (count (held p (pend q')) <= count (held p (pend q)))%N.
Proof. intros Hs. apply held_count_mono, held_mono, (sh_pend _ _ Hs). Qed.

(** One group filled past its bound is brought back, and every other one stays within. *)
Lemma enforce_bounds_spec q repo hook now : good q ->
  (forall k, k <> (repo, hook) -> count (held (of_hook k) (pend q)) <= per_hook (q_limits q))%N ->
  (forall r, r <> repo -> count (held (of_repo r) (pend q)) <= per_repo (q_limits q))%N ->
  sheds q (enforce_bounds q repo hook now) /\ good (enforce_bounds q repo hook now)
  /\ within_limits (q_limits q) (pend (enforce_bounds q repo hook now)).
Proof.
  intros Hg Hh Hr. unfold enforce_bounds.
  destruct (enforce_hook_bound_spec q repo hook now Hg) as (S1 & G1 & B1).
  destruct (enforce_repo_bound_spec _ repo now G1) as (S2 & G2 & B2).
  destruct (enforce_global_bounds_spec _ now G2) as (S3 & G3 & B3 & B4).
  rewrite (sh_limits _ _ S2), (sh_limits _ _ S1) in B3, B4. rewrite (sh_limits _ _ S1) in B2.
  split_and!; [by etrans; [|etrans]|done|]. constructor; [| |done|done].
  - intros k. etrans; [apply count_sheds; etrans; [exact S2|exact S3]|].
    destruct (decide (k = (repo, hook))) as [->|Hne]; [done|]. etrans; [by apply count_sheds|]. by apply Hh.
  - intros r. etrans; [apply count_sheds; exact S3|].
    destruct (decide (r = repo)) as [->|Hne]; [done|]. etrans; [apply count_sheds; etrans; [exact S1|exact S2]|]. by apply Hr.
Qed.

(** Every listed group brought within its bound, in turn. *)
Lemma enforce_each {K} (enforce : RetryQueue -> K -> RetryQueue) (size_of : K -> RetryQueue -> N) (bound : N) l :
  forall q, good q ->
  (forall x k, good x -> q_limits x = q_limits q -> sheds x (enforce x k) /\ (size_of k (enforce x k) <= bound)%N) ->
  (forall k x y, sheds x y -> (size_of k y <= size_of k x)%N) ->
  sheds q (foldl enforce q l) /\ forall k, k ∈ l -> (size_of k (foldl enforce q l) <= bound)%N.
Proof.
  induction l as [|k l IH]; intros q Hg Hstep Hmono; simpl; [split; [done|by intros k ?%not_elem_of_nil]|].
  destruct (Hstep q k Hg eq_refl) as [Hs Hb].
  destruct (IH (enforce q k)) as [Hs' Hb']; [by eapply sheds_good| |done|].
  { intros x j Hx Hl. apply Hstep; [done|]. by rewrite Hl, (sh_limits _ _ Hs). }
  split; [by etrans|]. intros j [->|Hj]%elem_of_cons; [|by apply Hb']. etrans; [by apply Hmono|done].
Qed.

Lemma in_iter_keys {K A} `{Countable K} (m : gmap K A) k : k ∈ map fst (iter_order m) <-> is_Some (m !! k).
Proof.
  rewrite list_elem_of_In, in_map_iff. split.
  - intros ([k' x] & <- & Hx%list_elem_of_In). rewrite iter_perm, elem_of_map_to_list in Hx. by exists x.
  - intros [x Hx]. exists (k, x). split; [done|]. apply list_elem_of_In. by rewrite iter_perm, elem_of_map_to_list.
Qed.

Lemma enforce_all_spec q now : good q ->
  sheds q (enforce_all q now) /\ within_limits (q_limits q) (pend (enforce_all q now))
  /\ (aged_len (st_dropped (q_state (enforce_all q now))) <= MAX_DROPPED)%N.
Proof.
  intros Hg. unfold enforce_all.
  set (q1 := foldl _ q (map fst (iter_order (st_hooks (q_state q))))).
  destruct (enforce_each (fun q '(repo, hook) => enforce_hook_bound q repo hook now)
    (fun k x => count (held (of_hook k) (pend x))) (per_hook (q_limits q)) (map fst (iter_order (st_hooks (q_state q)))) q Hg)
    as [S1 B1].
  { intros x [r h] Hx Hl. destruct (enforce_hook_bound_spec x r h now Hx) as (? & ? & ?). by rewrite <-Hl. }
  { intros k x y. apply count_sheds. }
  fold q1 in S1, B1. pose proof (sheds_good _ _ S1 Hg) as G1.
  set (q2 := foldl _ q1 (map fst (iter_order (st_repos (q_state q1))))).
  destruct (enforce_each (fun q repo => enforce_repo_bound q repo now)
    (fun k x => count (held (of_repo k) (pend x))) (per_repo (q_limits q)) (map fst (iter_order (st_repos (q_state q1)))) q1 G1)
    as [S2 B2].
  { intros x r Hx Hl. destruct (enforce_repo_bound_spec x r now Hx) as (? & ? & ?). by rewrite <-(sh_limits _ _ S1), <-Hl. }
  { intros k x y. apply count_sheds. }
  fold q2 in S2, B2. pose proof (sheds_good _ _ S2 G1) as G2.
  destruct (enforce_global_bounds_spec q2 now G2) as (S3 & G3 & B3 & B4).
  destruct (trim_dropped_spec _ G3) as (S4 & P4 & D4).
  rewrite (sh_limits _ _ S2), (sh_limits _ _ S1) in B3, B4.
  split_and!; [by etrans; [|etrans; [|etrans]]| |done]. rewrite P4. constructor; [| |done|done].
  - intros k. destruct (st_hooks (q_state q) !! k) as [a|] eqn:Ek.
    + etrans; [apply count_sheds; etrans; [exact S2|exact S3]|]. apply B1, in_iter_keys. eauto.
    + rewrite (ix_hooks _ (gd_indexed _ Hg)) in Ek. apply unless_None in Ek. rewrite held_pend in Ek by apply of_hook_pending.
      etrans; [apply count_sheds; etrans; [exact S1|etrans; [exact S2|exact S3]]|]. rewrite Ek, count_empty. lia.
  - intros r. destruct (st_repos (q_state q1) !! r) as [a|] eqn:Ek.
    + etrans; [apply count_sheds; exact S3|]. apply B2, in_iter_keys. eauto.
    + rewrite (ix_repos _ (gd_indexed _ G1)) in Ek. apply unless_None in Ek. rewrite held_pend in Ek by apply of_repo_pending.
      etrans; [apply count_sheds; etrans; [exact S2|exact S3]|]. rewrite Ek, count_empty. lia.
Qed.

(** *** The operations *)

Lemma index_same_place st e e' : same_place e e' -> index st e' = index st e.
Proof.
  intros (Ei & Er & Eh & Ec & Es & Ed & Eb). unfold index, age_key, drop_key, hook_key. by rewrite Ei, Er, Eh, Ec, Es, Ed, Eb.
Qed.

Lemma tried_place q f now cnt until e : same_place e (tried q f now cnt until e).
Proof. by split_and!. Qed.

Lemma pend_insert q e : is_pending_entry e = true ->
  held is_pending_entry (<[en_id e := e]> (st_entries (q_state q))) = <[en_id e := e]> (pend q).
Proof. intros Hp. by apply map_filter_insert_True. Qed.

(** The queue as [fail] leaves it before the bounds are enforced. *)
Lemma fail_locked_cases q f now cnt until : good q ->
  (exists e, st_entries (q_state q) !! fa_id f = Some e /\ is_pending_entry e = false
    /\ fail_locked q f now cnt until = (q, false))
  \/ (st_entries (q_state q) !! fa_id f = pend q !! fa_id f
    /\ let e := tried q f now cnt until (default (new_entry f now) (pend q !! fa_id f)) in
       en_id e = fa_id f /\ is_pending_entry e = true
       /\ exists q1, change q q1 /\ pend q1 = <[fa_id f := e]> (pend q)
          /\ dom (st_entries (q_state q1)) ⊆ {[fa_id f]} ∪ dom (st_entries (q_state q)) /\ q_limits q1 = q_limits q
          /\ q_schedule q1 = q_schedule q /\ st_claimed (q_state q1) = st_claimed (q_state q)
          /\ st_dropped (q_state q1) = st_dropped (q_state q)
          /\ fail_locked q f now cnt until
             = (enforce_bounds q1 (en_repo_id e) (en_hook_id e) now,
                is_pending (q_state (enforce_bounds q1 (en_repo_id e) (en_hook_id e) now)) (fa_id f))).
Proof.
  intros Hg. pose proof (ix_keyed _ (gd_indexed _ Hg)) as Hid.
  destruct (st_entries (q_state q) !! fa_id f) as [e|] eqn:He.
  - destruct (is_pending_entry e) eqn:Hp; [right|left; exists e].
    + assert (pend q !! fa_id f = Some e) as -> by by apply held_Some. split; [done|]. simpl.
      split; [by apply Hid in He|]. split; [done|].
      exists (persist (set_entry q (tried q f now cnt until e)) (tried q f now cnt until e)).
      assert (en_id e = fa_id f) as Ei by by apply Hid in He.
      split_and!; [apply (change_update q e); [by rewrite Ei|apply tried_place|done]| | | | | | |].
      * unfold pend at 1. rewrite persist_state. simpl. rewrite <-Ei. by apply (pend_insert q (tried q f now cnt until e)).
      * rewrite persist_state. simpl. rewrite dom_insert, Ei. done.
      * by rewrite persist_limits.
      * by rewrite persist_schedule.
      * by rewrite persist_state.
      * by rewrite persist_state.
      * unfold fail_locked. rewrite He. rewrite He. unfold opt_filter. simpl. by rewrite Hp.
    + split_and!; [done|done|]. unfold fail_locked. rewrite He. rewrite He. unfold opt_filter. simpl. by rewrite Hp.
  - right. assert (pend q !! fa_id f = None) as -> by by apply held_None. split; [done|]. simpl. split; [done|]. split; [done|].
    set (e0 := new_entry f now). set (e := tried q f now cnt until e0).
    assert (set_entry (set_entry (with_state q (index (q_state q) e0)) e0) e = set_entry (with_state q (index (q_state q) e)) e) as E.
    { unfold set_entry. simpl. rewrite (index_same_place _ e0 e) by apply tried_place.
      by rewrite insert_insert_eq. }
    exists (persist (set_entry (with_state q (index (q_state q) e)) e) e).
    split_and!; [by apply change_put| | | | | | |].
    + unfold pend at 1. rewrite persist_state. cbn [set_entry with_state q_state set_entries st_entries]. rewrite index_entries. by apply (pend_insert q e).
    + rewrite persist_state. cbn [set_entry with_state q_state set_entries st_entries]. by rewrite index_entries, dom_insert.
    + by rewrite persist_limits.
    + by rewrite persist_schedule.
    + by rewrite persist_state.
    + by rewrite persist_state.
    + unfold fail_locked. rewrite He. unfold set_entry at 1. simpl. rewrite lookup_insert_eq. simpl.
      change (tried (set_entry (with_state q (index (q_state q) e0)) e0) f now cnt until e0) with e. by rewrite <-E.
Qed.

(** Everything the queue promises of its state between two operations. *)
Record sound (q : RetryQueue) : Prop := mkSound {
    so_good : good q;
    so_within : within_limits (q_limits q) (pend q);
    so_dropped : (aged_len (st_dropped (q_state q)) <= MAX_DROPPED)%N
  }.

(** A run of changes from a sound queue to a sound queue of the same limits. *)
Record moves (q q' : RetryQueue) : Prop := mkMoves {
    mv_run : rtc change q q';
    mv_sound : sound q';
    mv_limits : q_limits q' = q_limits q;
    mv_schedule : q_schedule q' = q_schedule q
  }.

Lemma moves_trans q1 q2 q3 : moves q1 q2 -> moves q2 q3 -> moves q1 q3.
Proof. intros [R1 S1 L1 C1] [R2 S2 L2 C2]. constructor; [by etrans|done|congruence|congruence]. Qed.

Lemma moves_refl q : sound q -> moves q q.
Proof. by constructor. Qed.

Lemma sheds_moves q q' : sound q -> sheds q q' -> moves q q'.
Proof.
  intros [Hg Hw Hd] Hs. constructor; [apply Hs| |apply Hs|apply Hs].
  constructor; [by eapply sheds_good|rewrite (sh_limits _ _ Hs); eapply within_mono; [apply Hs|done]|by apply Hs].
Qed.

Lemma held_insert_other p m i e : p e = false -> held p (<[i := e]> m) ⊆ held p m.
Proof.
  intros Hp. unfold held. rewrite map_filter_insert_False by (by rewrite Hp).
  apply map_filter_subseteq_mono, delete_subseteq.
Qed.

(** One pending entry recorded in a sound queue, and the bounds enforced for its hook and repo. *)
Lemma enforce_recorded q q1 i e now : sound q -> good q1 -> q_limits q1 = q_limits q -> is_pending_entry e = true ->
  pend q1 = <[i := e]> (pend q) ->
  let q2 := enforce_bounds q1 (en_repo_id e) (en_hook_id e) now in
  sheds q1 q2 /\ good q2 /\ within_limits (q_limits q1) (pend q2).
Proof.
  intros [_ Hw _] G1 Hl Hp Hpend. apply enforce_bounds_spec; [done|..].
  - intros k Hk. rewrite Hpend, Hl. etrans; [apply held_count_mono, held_insert_other|apply (wl_hooks _ _ Hw)].
    unfold of_hook. rewrite Hp. apply bool_decide_eq_false_2. intros <-. by apply Hk.
  - intros r Hr. rewrite Hpend, Hl. etrans; [apply held_count_mono, held_insert_other|apply (wl_repos _ _ Hw)].
    unfold of_repo. rewrite Hp. apply bool_decide_eq_false_2. congruence.
Qed.

Lemma fail_locked_moves q f now cnt until : sound q -> moves q (fail_locked q f now cnt until).1.
Proof.
  intros Hq. pose proof Hq as [Hg Hw Hd].
  destruct (fail_locked_cases q f now cnt until Hg) as [(e & _ & _ & ->)|[_ H]]; [by apply moves_refl|].
  cbv zeta in H. set (e := tried q f now cnt until _) in H.
  destruct H as (Hi & Hp & q1 & Hc & Hpend & _ & Hl & Hs & _ & Hdr & ->). cbn [fst].
  destruct (enforce_recorded q q1 _ e now Hq (change_good _ _ Hc Hg) Hl Hp Hpend) as (S1 & G1 & W1).
  constructor.
  - eapply rtc_l; [exact Hc|apply S1].
  - constructor; [done|by rewrite (sh_limits _ _ S1)|]. apply (sh_dropped _ _ S1). by rewrite Hdr.
  - by rewrite (sh_limits _ _ S1).
  - by rewrite (sh_schedule _ _ S1).
Qed.

Lemma change_moves q q' : sound q -> change q q' ->
  within_limits (q_limits q) (pend q') -> q_limits q' = q_limits q -> q_schedule q' = q_schedule q ->
  (aged_len (st_dropped (q_state q')) <= MAX_DROPPED)%N -> moves q q'.
Proof.
  intros [Hg _ _] Hc Hw Hl Hs Hd. constructor; [by apply rtc_once| |done|done].
  constructor; [by eapply change_good|by rewrite Hl|done].
Qed.

Lemma claims_moves q c : sound q -> moves q (with_state q (set_claimed c (q_state q))).
Proof. intros Hq. pose proof Hq as [_ Hw Hd]. apply change_moves; [done|apply change_claims|done..]. Qed.

Lemma mark_dropped_moves q id reason now : sound q -> moves q (mark_dropped q id reason now).
Proof. intros Hq. apply sheds_moves; [done|]. by apply mark_dropped_spec, so_good. Qed.

Lemma same_place_held p i e e' m : m !! i = Some e -> p e' = p e -> same_place e e' ->
  count (held p (<[i := e']> m)) = count (held p m) /\ weight (held p (<[i := e']> m)) = weight (held p m).
Proof.
  intros Hi Hp Hs. rewrite (held_update _ _ _ _ _ Hi Hp). destruct (p e) eqn:Ep; [|done].
  assert (held p m !! i = Some e) as Hh by by apply held_Some. split.
  - unfold count. by rewrite (map_size_insert_Some _ _ _ (mk_is_Some _ _ Hh)).
  - apply (weight_update _ _ e); [done|]. by destruct Hs as (_ & _ & _ & _ & _ & _ & ->).
Qed.

Lemma same_place_groups e e' : same_place e e' ->
  is_pending_entry e' = is_pending_entry e /\ (forall r, of_repo r e' = of_repo r e) /\ (forall k, of_hook k e' = of_hook k e).
Proof.
  intros (Ei & Er & Eh & Ec & Es & Ed & Eb). unfold of_repo, of_hook, hook_key, is_pending_entry. rewrite Er, Eh, Es. done.
Qed.

Lemma within_update l i e e' m : m !! i = Some e -> same_place e e' -> is_pending_entry e = true ->
  within_limits l m -> within_limits l (<[i := e']> m).
Proof.
  intros Hi Hs Hp [Wh Wr Wt Wb]. destruct (same_place_groups _ _ Hs) as (Ep & Er & Eh).
  constructor.
  - intros k. destruct (same_place_held (of_hook k) i e e' m Hi (Eh k) Hs) as [-> _]. apply Wh.
  - intros r. destruct (same_place_held (of_repo r) i e e' m Hi (Er r) Hs) as [-> _]. apply Wr.
  - unfold count. rewrite (map_size_insert_Some _ _ _ (mk_is_Some _ _ Hi)). apply Wt.
  - rewrite (weight_update _ _ e); [done|done|]. by destruct Hs as (_ & _ & _ & _ & _ & _ & ->).
Qed.

Lemma defer_moves q id until : sound q -> moves q (defer q id until).
Proof.
  intros Hq. pose proof Hq as [Hg Hw Hd]. unfold defer, opt_filter.
  destruct (st_entries (q_state q) !! id) as [e|] eqn:He; simpl; [|by apply moves_refl].
  destruct (is_pending_entry e && _) eqn:Hp; [|by apply moves_refl]. apply andb_prop in Hp as [Hp _].
  pose proof (ix_keyed _ (gd_indexed _ Hg) _ _ He) as Hi.
  assert (same_place e (deferred e until)) as Hs by by split_and!.
  apply change_moves; [done|by apply (change_update q e); [rewrite Hi|..]|..]; rewrite ?persist_limits, ?persist_schedule, ?persist_state; [|done..].
  unfold pend. rewrite persist_state. cbn [set_entry with_state q_state set_entries st_entries].
  rewrite (pend_insert q (deferred e until)) by done. apply within_update with e; [|done|done|done].
  apply held_Some. split; [by rewrite <-He, <-Hi|done].
Qed.

Lemma unindex_dropped st e : st_dropped (unindex st e) ⊆ st_dropped st.
Proof. unfold unindex. destruct (en_status e); simpl; set_solver. Qed.

Lemma succeeded_moves q id : sound q -> moves q (succeeded q id).
Proof.
  intros Hq. pose proof Hq as [Hg Hw Hd]. unfold succeeded.
  assert (forall x, moves q x -> moves q (unclaim x id)) as Hun.
  { intros x Hx. eapply moves_trans; [done|]. apply claims_moves, Hx. }
  destruct (st_entries (q_state q) !! id) as [e|] eqn:He; [|by apply Hun, moves_refl].
  pose proof (ix_keyed _ (gd_indexed _ Hg) _ _ He) as <-. apply Hun.
  apply change_moves; [done|by apply change_forget| |done|done|].
  - eapply within_mono; [|done]. unfold pend. simpl. rewrite unindex_entries. simpl. rewrite held_delete. apply delete_subseteq.
  - simpl. etrans; [|exact Hd]. unfold aged_len.
    pose proof (subseteq_size _ _ (unindex_dropped (set_entries (delete (en_id e) (st_entries (q_state q))) (q_state q)) e)) as Hle.
    simpl in Hle. lia.
Qed.

Lemma drop_entry_moves q id reason now : sound q -> moves q (drop_entry q id reason now).
Proof.
  intros Hq. unfold drop_entry. destruct (is_pending _ _); [|by apply claims_moves].
  pose proof (mark_dropped_moves q id reason now Hq) as Hm.
  eapply moves_trans; [done|]. apply claims_moves, Hm.
Qed.

Lemma mark_each_spec ids reason now : forall q, good q ->
  sheds q (foldl (fun q id => mark_dropped q id reason now) q ids)
  /\ pend (foldl (fun q id => mark_dropped q id reason now) q ids) = filter (fun '(i, _) => i ∉ ids) (pend q).
Proof.
  induction ids as [|id ids IH]; intros q Hg; simpl.
  { split; [done|]. symmetry. apply map_filter_id. intros i e _. by apply not_elem_of_nil. }
  destruct (mark_dropped_spec q id reason now Hg) as [Hs Hp].
  destruct (IH (mark_dropped q id reason now)) as [Hs' ->]; [by eapply sheds_good|]. split; [by etrans|].
  rewrite Hp. apply map_eq. intros i. apply option_eq. intros e.
  rewrite !map_lookup_filter_Some, lookup_delete_Some, not_elem_of_cons. naive_solver.
Qed.

Lemma drop_where_moves q matches reason now : sound q -> moves q (drop_where q matches reason now).
Proof. intros Hq. apply sheds_moves; [done|]. by apply mark_each_spec, so_good. Qed.

(** *** What is due *)

Lemma expire_drops now : drops_pending (expire_step now).
Proof.
  intros x y Hx. unfold expire_step. destruct (aged_first _) as [[c i]|] eqn:Ek; simpl; [|done].
  destruct (_ <? _)%N; [done|]. intros [= <-]. apply aged_first_Some in Ek as [Hk _].
  rewrite (ix_aged _ (gd_indexed _ Hx)) in Hk. destruct (aged_pend x _ _ Hx (fun _ H => H) Hk) as (e & He & _). eauto 10.
Qed.

Lemma prune_loop_spec q now : good q ->
  let q' := repeat_step (size (st_dropped (q_state q))) (prune_step now) q in
  sheds q q' /\ pend q' = pend q /\ prune_step now q' = None.
Proof.
  intros Hg q'.
  destruct (repeat_step_done (fun x => good x /\ pend x = pend q) sheds (fun x => size (st_dropped (q_state x))) (prune_step now))
    with (fuel := size (st_dropped (q_state q))) (x := q) as ([_ Hp] & Hs & Hnone); [|done|done|done].
  intros x y [Hx Hpx]. unfold prune_step. destruct (aged_first _) as [[d i]|] eqn:Ek; simpl; [|done].
  destruct (_ <? _)%N; [done|]. intros [= <-]. apply aged_first_Some in Ek as [Hk _].
  destruct (pop_dropped_sheds x _ Hx Hk) as [Hs Hlt]. destruct (pop_dropped_spec x _ Hx Hk) as (_ & Hp & _).
  split_and!; [by eapply sheds_good|by rewrite Hp|done|done].
Qed.

Lemma due_sheds q now : good q -> sheds q (due q now).1.
Proof.
  intros Hg. destruct (enforce_loop_spec _ q (expire_drops now) Hg) as (S1 & G1 & _).
  destruct (prune_loop_spec _ now G1) as (S2 & _ & _). by etrans.
Qed.

Lemma claim_state q id : exists c, (claim q id).1 = with_state q (set_claimed c (q_state q)).
Proof.
  unfold claim. destruct (_ ≫= _); simpl; [eauto|]. exists (st_claimed (q_state q)). by destruct q as [? ? ? []].
Qed.

(** Every operation of the queue moves it from a sound state to a sound state. *)
Lemma run_op_moves q op : sound q ->
  match op with WriterTake | WriterApply _ => q_state (run_op q op) = q_state q | _ => moves q (run_op q op) end.
Proof.
  intros Hq. destruct op; simpl; try done.
  - pose proof (fail_locked_moves q f now count0 defer_until Hq) as Hm. unfold fail.
    destruct (fail_locked _ _ _ _ _) as [q1 b]. simpl in *. destruct (fa_claimed f); [|done].
    eapply moves_trans; [done|]. apply claims_moves, Hm.
  - by apply defer_moves.
  - by apply succeeded_moves.
  - by apply drop_entry_moves.
  - by apply drop_where_moves.
  - apply sheds_moves; [done|]. by apply due_sheds, so_good.
  - destruct (claim_state q id) as [c ->]. by apply claims_moves.
  - by apply claims_moves.
Qed.

Lemma on_disk_sound f q : sound q -> sound (on_disk f q).
Proof. intros [[Hi Hs] Hw Hd]. constructor; [by constructor|done|done]. Qed.

Lemma run_op_sound q op : sound q ->
  sound (run_op q op) /\ q_limits (run_op q op) = q_limits q /\ q_schedule (run_op q op) = q_schedule q.
Proof.
  intros Hq. pose proof (run_op_moves q op Hq) as Hm. destruct op; try (by split_and!; apply Hm); by split_and!; [apply on_disk_sound|..].
Qed.

Lemma run_sound ops : forall q, sound q -> sound (run q ops) /\ q_limits (run q ops) = q_limits q.
Proof.
  induction ops as [|op ops IH]; intros q Hq; simpl; [done|].
  destruct (run_op_sound q op Hq) as (Hs & Hl & _). destruct (IH _ Hs) as [? E]. split; [done|]. etrans; [exact E|exact Hl].
Qed.

(** *** What is loaded *)

Lemma no_entries i e : st_entries State_default !! i <> Some e.
Proof. simpl. by rewrite lookup_empty. Qed.

(** What the files hold, entry by entry. *)
Definition stored (files : gmap string string) : gmap string Entry :=
  map_imap (fun stem content =>
    e ← from_slice content; if shaped (en_id e) && (en_id e == stem) then Some (with_bytes e) else None) files.

Lemma stored_lookup files i e : stored files !! i = Some e <->
  exists content e0, files !! i = Some content /\ from_slice content = Some e0 /\ shaped i = true /\ en_id e0 = i /\ e = with_bytes e0.
Proof.
  unfold stored. rewrite map_lookup_imap. destruct (files !! i) as [content|]; simpl; [|naive_solver].
  destruct (from_slice content) as [e0|] eqn:E0; simpl; [|naive_solver].
  destruct (shaped (en_id e0) && (en_id e0 == i)) eqn:Es.
  - apply andb_prop in Es as [Es Ei%bool_decide_eq_true]. rewrite Ei in Es. naive_solver.
  - split; [done|]. intros (c & e1 & [= <-] & E1 & Hs & <- & ->). rewrite E0 in E1. injection E1 as ->.
    by rewrite Hs, bool_decide_eq_true_2 in Es.
Qed.

Lemma read_dir_spec files e0 : e0 ∈ read_dir files <->
  exists content, files !! en_id e0 = Some content /\ from_slice content = Some e0 /\ shaped (en_id e0) = true.
Proof.
  unfold read_dir. rewrite list_elem_of_omap. split.
  - intros ([stem content] & Hin & He). rewrite iter_perm, elem_of_map_to_list in Hin.
    destruct (from_slice content) as [x|] eqn:Ex; simpl in He; [|done]. destruct (_ && _) eqn:Es; [|done]. simplify_eq.
    apply andb_prop in Es as [Es Ei%bool_decide_eq_true]. subst stem. eauto.
  - intros (content & Hf & Hs & Hsh). exists (en_id e0, content).
    split; [by rewrite iter_perm, elem_of_map_to_list|]. by rewrite Hs; simpl; rewrite Hsh, bool_decide_eq_true_2.
Qed.

Lemma read_dir_NoDup files : NoDup (map en_id (read_dir files)).
Proof.
  unfold read_dir. assert (NoDup (map fst (iter_order files))) as Hnd.
  { change (map fst) with (fmap (M := list) (@fst string string)). rewrite iter_perm. apply NoDup_fst_map_to_list. }
  revert Hnd. induction (iter_order files) as [|[stem content] l IH]; simpl; [constructor|].
  intros [Hn Hl]%NoDup_cons. specialize (IH Hl). destruct (from_slice content) as [x|]; simpl; [|done].
  destruct (shaped (en_id x) && _) eqn:Es; [|done]. apply andb_prop in Es as [_ Ei%bool_decide_eq_true].
  simpl. constructor; [|done]. intros Hin. apply Hn. rewrite <-Ei in *.
  apply list_elem_of_In, in_map_iff in Hin as (y & Ey & Hy%list_elem_of_In).
  apply list_elem_of_omap in Hy as ([s c] & Hsc & He). destruct (from_slice c) as [z|]; simpl in He; [|done].
  destruct (shaped (en_id z) && _) eqn:Ez; [|done]. apply andb_prop in Ez as [_ Ezi%bool_decide_eq_true]. simplify_eq.
  apply list_elem_of_In, in_map_iff. exists (en_id y, c). split; [by rewrite <-Ey|]. by apply list_elem_of_In.
Qed.

Lemma load_all l : forall st, indexed st ->
  (forall i e, st_entries st !! i = Some e -> en_bytes e = payload_len (en_payload e)) ->
  NoDup (map en_id l) -> (forall e, e ∈ l -> st_entries st !! en_id e = None) ->
  let st' := foldl load st l in
  indexed st' /\ st_claimed st' = st_claimed st
  /\ (forall i e, st_entries st' !! i = Some e -> en_bytes e = payload_len (en_payload e))
  /\ forall i e, st_entries st' !! i = Some e <-> st_entries st !! i = Some e \/ exists e0, e0 ∈ l /\ en_id e0 = i /\ e = with_bytes e0.
Proof.
  induction l as [|e0 l IH]; intros st Hix Hsz Hnd Hfresh; simpl.
  { split_and!; try done. intros i e. split; [by left|]. intros [?|(x & ?%not_elem_of_nil & _)]; done. }
  apply NoDup_cons in Hnd as [Hn Hnd].
  assert (load st e0 = set_entries (<[en_id e0 := with_bytes e0]> (st_entries st)) (index st (with_bytes e0))) as El.
  { unfold load. by rewrite index_entries. }
  destruct (IH (load st e0)) as (H1 & H2 & H3 & H4).
  - rewrite El. apply (index_indexed st (with_bytes e0)); [done|]. apply (Hfresh e0). by left.
  - rewrite El. simpl. intros i e [[<- <-]|[_ Hx]]%lookup_insert_Some; [done|eauto].
  - done.
  - intros e He. rewrite El. simpl. rewrite lookup_insert_ne; [by apply Hfresh; right|].
    intros E. apply Hn. rewrite E. apply list_elem_of_In, in_map_iff. exists e. by split; [|apply list_elem_of_In].
  - cbv zeta in *. split_and!; [done| |done|].
    + rewrite H2, El. simpl. by rewrite index_claimed.
    + intros i e. rewrite H4, El. cbn [set_entries st_entries]. rewrite lookup_insert_Some. split.
      * intros [[[<- <-]|[_ ?]]|(x & ? & ? & ?)]; [right; exists e0; by split; [left|]|by left|right; exists x; by split; [right|]].
      * intros [He|(x & [->|Hx]%elem_of_cons & <- & ->)]; [left; right|left; left; done|right; eauto].
        split; [|done]. intros <-. rewrite Hfresh in He by by left. done.
Qed.

(** The queue as loaded, before anything is dropped: every readable file's entry. *)
Definition loaded (files : gmap string string) (schedule : list Duration) : RetryQueue :=
  mkQueue (Some (mkDisk ∅ ∅ files)) (q_schedule (in_memory schedule)) Limits_default (foldl load State_default (read_dir files)).

Lemma loaded_spec files schedule : good (loaded files schedule) /\ st_entries (q_state (loaded files schedule)) = stored files
  /\ st_claimed (q_state (loaded files schedule)) = ∅.
Proof.
  destruct (load_all (read_dir files) State_default) as (H1 & H2 & H3 & H4);
    [apply indexed_default|by intros i e ?%no_entries|apply read_dir_NoDup|by intros; apply lookup_empty|].
  split_and!; [by constructor| |done]. apply map_eq. intros i. apply option_eq. intros e. simpl. rewrite H4, stored_lookup. split.
  - intros [?%no_entries|(e0 & (c & Hc & Hs & Hsh)%read_dir_spec & <- & ->)]; [done|]. eauto 10.
  - intros (c & e0 & Hc & Hs & Hsh & <- & ->). right. exists e0. split; [|done]. apply read_dir_spec. eauto.
Qed.

Lemma open_eq files schedule now : open files schedule now =
  enforce_all (foldl (fun q id => mark_dropped q id "no body stored (unreadable entry)" now) (loaded files schedule)
    (map en_id (List.filter bodiless (read_dir files)))) now.
Proof. done. Qed.

Lemma open_spec files schedule now :
  sound (open files schedule now) /\ sheds (loaded files schedule) (open files schedule now).
Proof.
  destruct (loaded_spec files schedule) as (Hg & _ & _). rewrite open_eq.
  destruct (mark_each_spec (map en_id (List.filter bodiless (read_dir files))) "no body stored (unreadable entry)" now _ Hg) as [S1 _].
  set (q1 := foldl _ _ _) in *. pose proof (sheds_good _ _ S1 Hg) as G1.
  destruct (enforce_all_spec q1 now G1) as (S2 & W2 & D2).
  split; [|by etrans]. constructor; [by eapply sheds_good|by rewrite (sh_limits _ _ S2)|done].
Qed.

Lemma in_memory_sound schedule : sound (in_memory schedule).
Proof.
  constructor.
  - constructor; [apply indexed_default|by intros i e ?%no_entries].
  - assert (pend (in_memory schedule) = ∅) as -> by apply map_filter_empty.
    constructor; intros; rewrite ?count_empty, ?weight_empty; try (unfold held; rewrite map_filter_empty, count_empty); lia.
  - simpl. unfold aged_len. rewrite size_empty. lia.
Qed.
End steps.
