(* ===== verification/QueueRuns.v ===== *)
(** The retry queue over whole runs ([forge-relay/src/queue.rs]): what every reachable queue keeps,
    what [fail], [due] and [claim] promise of it, and that a restart finds what was queued. *)
From S2P Require Import Wire Prelude Text RetryQueue.

(** ** Definitions *)

Section starts.
Context `{codec : Codec} `{order : HashOrder}.

(** How the relay starts: on the files of its state directory at a time, or in memory. *)
Definition start (disk : option (gmap string string * N)) (schedule : list Duration) : RetryQueue :=
  match disk with Some (files, now) => open files schedule now | None => in_memory schedule end.

(** The operations that end a claim on [id]. *)
Definition gives_up (id : string) (op : Op) : bool :=
  match op with
  | Fail_ f _ _ _ => fa_claimed f && (fa_id f == id)
  | Succeeded i | DropEntry i _ _ | Release i => i == id
  | _ => false
  end.

(** Not yet [EXPIRY] old. *)
Definition unexpired (now : N) (e : Entry) : Prop := (now - en_created_ms e < ms EXPIRY)%N.
#[export] Instance unexpired_dec now e : Decision (unexpired now e).
Proof. unfold unexpired. apply _. Defined.

(** What a delivery is of. *)
Definition origin (e : Entry) : string * string * string * string * option string :=
  (en_repo_id e, en_hook_id e, en_event e, en_source_doc_id e, en_payload e).
Definition fa_origin (f : Failure) : string * string * string * string * option string :=
  (fa_repo_id f, fa_hook_id f, fa_event f, fa_source_doc_id f, fa_payload f).

(** An operation as the relay makes it, on a disk that does not fail: delivery ids have their
    shape, and a body serializes. *)
Definition op_ok (op : Op) : Prop :=
  match op with
  | Fail_ f _ _ _ => shaped (fa_id f) = true /\ is_Some (fa_payload f)
  | WriterApply io => forall id, io id = true
  | _ => True
  end.

(** What the files will hold once everything sent is written. *)
Definition settled (d : Disk) : gmap string string := apply_ops (dk_ops d) (apply_ops (dk_busy d) (dk_files d)).

(** The files stand for the entries, wherever an id is one the load accepts. *)
Definition follows (d : Disk) (m : gmap string Entry) : Prop := forall i, shaped i = true -> stored (settled d) !! i = m !! i.

(** The files stand for the entries, which all have the shape of a delivery's, with its body
    while it is pending. *)
Record synced (q : RetryQueue) : Prop := mkSynced {
    sy_files : forall d, q_disk q = Some d -> follows d (st_entries (q_state q));
    sy_shaped : forall i e, st_entries (q_state q) !! i = Some e -> shaped i = true;
    sy_bodies : forall i e, pend q !! i = Some e -> is_Some (en_payload e)
  }.
End starts.

(** ** Reachable queues *)

Section runs.
Context `{codec : Codec} `{order : HashOrder}.

Lemma start_sound disk schedule : sound (start disk schedule) /\ q_limits (start disk schedule) = Limits_default.
Proof.
  destruct disk as [[files now]|]; simpl.
  - destruct (open_spec files schedule now) as [Hs Hsh]. split; [done|]. by rewrite (sh_limits _ _ Hsh).
  - split; [apply in_memory_sound|done].
Qed.

Lemma reachable_sound disk schedule ops :
  sound (run (start disk schedule) ops) /\ q_limits (run (start disk schedule) ops) = Limits_default.
Proof.
  destruct (start_sound disk schedule) as [Hs Hl]. destruct (run_sound ops _ Hs) as [? E]. by rewrite E.
Qed.

(** C9: however the relay starts and whatever it then does, in any order, and however its writer
    fares, the queue's indexes are those of its entries, an entry's recorded size is its body's,
    and no hook, repo, total, byte or dropped-record bound is exceeded. *)
Theorem queue_invariant disk schedule ops :
  let q := run (start disk schedule) ops in
  indexed (q_state q) /\ bounded Limits_default (q_state q)
  /\ forall i e, st_entries (q_state q) !! i = Some e -> en_bytes e = payload_len (en_payload e).
Proof.
  intros q. destruct (reachable_sound disk schedule ops) as [[Hg Hw Hd] Hl]. fold q in Hg, Hw, Hd, Hl.
  split_and!; [apply Hg| |apply Hg]. rewrite <-Hl. by apply bounded_within.
Qed.

(** ** Claims *)

Lemma sheds_claimed q q' : sheds q q' -> st_claimed (q_state q') = st_claimed (q_state q).
Proof. apply sh_claimed. Qed.

Lemma unclaim_claimed q id : st_claimed (q_state (unclaim q id)) = st_claimed (q_state q) ∖ {[id]}.
Proof. done. Qed.

Lemma fail_locked_claimed q f now cnt until : sound q ->
  st_claimed (q_state (fail_locked q f now cnt until).1) = st_claimed (q_state q).
Proof.
  intros Hq. pose proof Hq as [Hg Hw Hd].
  destruct (fail_locked_cases q f now cnt until Hg) as [(e & _ & _ & ->)|[_ H]]; [done|]. cbv zeta in H.
  set (e := tried q f now cnt until _) in H. destruct H as (_ & Hp & q1 & Hc & Hpend & _ & Hl & _ & Hcl & _ & ->). cbn [fst].
  destruct (enforce_recorded q q1 _ e now Hq (change_good _ _ Hc Hg) Hl Hp Hpend) as (S1 & _ & _).
  by rewrite (sh_claimed _ _ S1).
Qed.

(** What each operation does to the claims. *)
Definition claims_after (op : Op) (q : RetryQueue) : gset string :=
  match op with
  | Fail_ f _ _ _ => if fa_claimed f then st_claimed (q_state q) ∖ {[fa_id f]} else st_claimed (q_state q)
  | Succeeded i | DropEntry i _ _ | Release i => st_claimed (q_state q) ∖ {[i]}
  | Claim i => if (opt_filter is_pending_entry (st_entries (q_state q) !! i) ≫= en_payload) is Some _
               then {[i]} ∪ st_claimed (q_state q) else st_claimed (q_state q)
  | _ => st_claimed (q_state q)
  end.

Lemma run_op_claimed q op : sound q -> st_claimed (q_state (run_op q op)) = claims_after op q.
Proof.
  intros Hq. pose proof (so_good _ Hq) as Hg. destruct op; cbn [run_op claims_after]; try done.
  - pose proof (fail_locked_claimed q f now count defer_until Hq) as Hc. unfold fail.
    destruct (fail_locked _ _ _ _ _) as [q1 b]. cbn [fst] in *. rewrite <-Hc. by destruct (fa_claimed f).
  - unfold defer. destruct (opt_filter _ _); [|done]. by rewrite persist_state.
  - unfold succeeded. cbv zeta. rewrite unclaim_claimed.
    destruct (st_entries (q_state q) !! id); simpl; by rewrite ?unindex_claimed.
  - unfold drop_entry. rewrite unclaim_claimed. destruct (is_pending _ _); [|done].
    by rewrite (sh_claimed _ _ (proj1 (mark_dropped_spec q id reason now Hg))).
  - unfold drop_where. by rewrite (sh_claimed _ _ (proj1 (mark_each_spec _ reason now q Hg))).
  - by rewrite (sh_claimed _ _ (due_sheds q now Hg)).
  - unfold claim. by destruct (_ ≫= _).
Qed.

Lemma claimed_stays q op id : sound q -> gives_up id op = false ->
  id ∈ st_claimed (q_state q) -> id ∈ st_claimed (q_state (run_op q op)).
Proof.
  intros Hq Hgu Hid. rewrite run_op_claimed by done. destruct op; cbn [claims_after gives_up] in *; try done;
    try (apply bool_decide_eq_false in Hgu; set_solver).
  - destruct (fa_claimed f); [|done]. apply bool_decide_eq_false in Hgu. set_solver.
  - destruct (_ ≫= _); set_solver.
Qed.

Lemma claimed_run ops id : forall q, sound q -> Forall (fun op => gives_up id op = false) ops ->
  id ∈ st_claimed (q_state q) -> sound (run q ops) /\ id ∈ st_claimed (q_state (run q ops)).
Proof.
  induction ops as [|op ops IH]; intros q Hq Hops Hid; simpl; [done|]. apply Forall_cons in Hops as [Hop Hops].
  apply IH; [by apply run_op_sound|done|]. by apply claimed_stays.
Qed.

Lemma claimed_not_claimable q id : id ∈ st_claimed (q_state q) -> (claim q id).2 = None.
Proof. intros Hid. unfold claim. destruct (_ ≫= _); [|done]. simpl. by rewrite bool_decide_eq_true_2. Qed.

Lemma due_list q now : (due q now).2 =
  map head (List.filter (fun e => negb (bool_decide (en_id e ∈ st_claimed (q_state (due q now).1))))
    (List.filter (fun e => is_pending_entry e && (en_next_ms e <=? now)%N) (map snd (btree_items (st_entries (q_state (due q now).1)))))).
Proof. done. Qed.

Lemma claimed_not_due q now id : sound q -> id ∈ st_claimed (q_state q) -> forall e, e ∈ (due q now).2 -> en_id e <> id.
Proof.
  intros Hq Hid e. rewrite due_list, list_elem_of_In, in_map_iff. intros (x & <- & Hx). apply filter_In in Hx as [_ Hx].
  apply negb_true_iff, bool_decide_eq_false in Hx. rewrite (sh_claimed _ _ (due_sheds q now (so_good _ Hq))) in Hx.
  simpl. congruence.
Qed.

(** C33: a delivery handed to a worker is not handed out again until the worker is done with it: from
    the claim that gave out its body to an operation that ends the claim, no other claim of it
    succeeds and it is never listed as due. *)
Theorem claims_exclusive disk schedule before id body ops :
  let q := run (start disk schedule) before in
  (claim q id).2 = Some body -> Forall (fun op => gives_up id op = false) ops ->
  let q' := run (claim q id).1 ops in
  (claim q' id).2 = None /\ forall now e, e ∈ (due q' now).2 -> en_id e <> id.
Proof.
  intros q Hc Hops q'. destruct (reachable_sound disk schedule before) as [Hq _]. fold q in Hq.
  assert (sound (claim q id).1 /\ id ∈ st_claimed (q_state (claim q id).1)) as [Hs Hid].
  { split; [|unfold claim in *; destruct (_ ≫= _); [simpl; set_solver|done]].
    pose proof (run_op_sound q (Claim id) Hq) as [H _]. exact H. }
  destruct (claimed_run ops id _ Hs Hops Hid) as [Hs' Hid'].
  split; [by apply claimed_not_claimable|]. intros now. by apply claimed_not_due.
Qed.

(** ** What is due *)

Lemma key_cmp_created k k' : key_cmp k k' <> Gt -> (k.1 <= k'.1)%N.
Proof.
  destruct k as [a i], k' as [b j]. unfold key_cmp, cmp_then, cmp_on. simpl. destruct (N.compare_spec a b); [lia|lia|done].
Qed.

Lemma expire_loop_spec q now : good q ->
  let q' := enforce_loop (expire_step now) q in
  good q' /\ pend q' = filter (fun '(_, e) => unexpired now e) (pend q).
Proof.
  intros Hg q'.
  destruct (repeat_step_done (fun x => good x /\ pend x ⊆ pend q /\ forall i e, pend q !! i = Some e -> unexpired now e -> pend x !! i = Some e)
    sheds (fun x => size (pend x)) (expire_step now)) with (fuel := size (st_aged (q_state q))) (x := q)
    as ((G1 & Hsub & Hkeep) & _ & Hnone).
  - intros x y (Hx & Hsub & Hkeep) Hy. pose proof Hy as Hstep. unfold expire_step in Hy.
    destruct (aged_first (st_aged (q_state x))) as [[c i]|] eqn:Ek; simpl in Hy; [|done].
    destruct (_ <? _)%N eqn:Ex; [done|]. simplify_eq. apply aged_first_Some in Ek as [Hk _].
    rewrite (ix_aged _ (gd_indexed _ Hx)) in Hk.
    destruct (aged_pend x _ _ Hx (fun _ H => H) Hk) as (e & He & _ & Hkey). simpl in He.
    destruct (drop_one x i "expired: undelivered for 48 h" now Hx) as [Hs Hlt]; [eauto|].
    destruct (mark_dropped_spec x i "expired: undelivered for 48 h" now Hx) as [_ Hp].
    split; [|by split]. split; [by eapply sheds_good|]. split; [by etrans; [apply Hs|]|].
    intros j e' Hj Hun. rewrite Hp. apply lookup_delete_Some. split; [|by apply Hkeep]. intros ->.
    assert (pend q !! j = Some e) as E by by eapply lookup_weaken. simplify_eq.
    unfold unexpired in Hun. unfold age_key in Hkey. injection Hkey as <- _. unfold sat_sub in Ex. apply N.ltb_ge in Ex. lia.
  - by split.
  - pose proof (aged_count q Hg) as E. unfold aged_len, count in E. lia.
  - fold (enforce_loop (expire_step now) q) in G1, Hsub, Hkeep, Hnone. fold q' in G1, Hsub, Hkeep, Hnone.
    split; [done|]. apply map_eq. intros i. apply option_eq. intros e. rewrite map_lookup_filter_Some. split.
    + intros He. split; [by eapply lookup_weaken|]. unfold expire_step in Hnone.
      assert (age_key e ∈ st_aged (q_state q')) as Hin.
      { rewrite (ix_aged _ (gd_indexed _ G1)). apply elem_of_keys. by exists i, e. }
      destruct (aged_first (st_aged (q_state q'))) as [[c j]|] eqn:Ek; simpl in Hnone.
      * destruct (_ <? _)%N eqn:Ex; [|done]. apply aged_first_Some in Ek as [_ Hmin].
        apply Hmin, key_cmp_created in Hin. simpl in Hin. apply N.ltb_lt in Ex. unfold sat_sub in Ex. unfold unexpired. lia.
      * apply aged_first_None in Ek. rewrite Ek in Hin. by apply not_elem_of_empty in Hin.
    + intros [? ?]. by apply Hkeep.
Qed.

Lemma ids_sorted {A} (p : string * A -> bool) l :
  StronglySorted (fun x y => String.compare x y <> Gt) (map fst l) ->
  StronglySorted (fun x y => String.compare x y <> Gt) (map fst (List.filter p l)).
Proof.
  induction l as [|[k x] l IH]; simpl; [done|]. intros [Hs Hx]%StronglySorted_inv.
  destruct (p (k, x)); simpl; [|by apply IH]. constructor; [by apply IH|].
  rewrite List.Forall_forall in Hx |- *. intros y (z & <- & [Hz _]%filter_In)%in_map_iff. apply Hx, in_map_iff. eauto.
Qed.

Lemma filter_ids_NoDup {A} (p : string * A -> bool) l : NoDup (map fst l) -> NoDup (map fst (List.filter p l)).
Proof.
  rewrite !NoDup_ListNoDup. induction l as [|x l IH]; simpl; [done|]. intros [Hn Hl]%List.NoDup_cons_iff.
  destruct (p x); simpl; [|by apply IH]. constructor; [|by apply IH].
  intros (y & Ey & [Hy _]%filter_In)%in_map_iff. apply Hn, in_map_iff. eauto.
Qed.

Lemma due_state q now : good q ->
  good (due q now).1 /\ st_claimed (q_state (due q now).1) = st_claimed (q_state q)
  /\ pend (due q now).1 = filter (fun '(_, e) => unexpired now e) (pend q).
Proof.
  intros Hg. destruct (expire_loop_spec q now Hg) as [G1 P1]. destruct (prune_loop_spec _ now G1) as (S2 & P2 & _).
  split_and!; [eapply sheds_good; [by apply due_sheds|done]|by apply sh_claimed, due_sheds|]. etrans; [exact P2|exact P1].
Qed.

(** Whether an entry is listed, once the expired ones are gone. *)
Definition listable (st : State) (now : N) (e : Entry) : bool :=
  is_pending_entry e && (en_next_ms e <=? now)%N && negb (bool_decide (en_id e ∈ st_claimed st)).

Lemma filter_filter {A} (p1 p2 : A -> bool) l : List.filter p2 (List.filter p1 l) = List.filter (fun x => p1 x && p2 x) l.
Proof. induction l as [|x l IH]; simpl; [done|]. destruct (p1 x); simpl; [destruct (p2 x)|]; by rewrite IH. Qed.

Lemma filter_map_snd {A B} (p : B -> bool) (l : list (A * B)) :
  List.filter p (map snd l) = map snd (List.filter (fun x => p x.2) l).
Proof. induction l as [|x l IH]; simpl; [done|]. destruct (p x.2); simpl; by rewrite IH. Qed.

Lemma due_items q now : let st := q_state (due q now).1 in
  (due q now).2 = map (fun x => head x.2) (List.filter (fun x => listable st now x.2) (btree_items (st_entries st))).
Proof. intros st. by rewrite due_list, filter_filter, filter_map_snd, map_map. Qed.

Lemma due_ids q now : good q -> let st := q_state (due q now).1 in
  map en_id (due q now).2 = map fst (List.filter (fun x => listable st now x.2) (btree_items (st_entries st))).
Proof.
  intros Hg st. rewrite due_items, map_map. apply map_ext_in.
  intros [i e] [He%list_elem_of_In%elem_of_btree_items _]%filter_In. exact (ix_keyed _ (gd_indexed _ (proj1 (due_state q now Hg))) _ _ He).
Qed.

(** [due] gives up exactly the pending entries [EXPIRY] old, and lists, in the order of their ids
    and each once, without its body, exactly those of the rest that are due and not claimed. So a
    queued delivery is offered again whenever its time has come, until it has expired. *)
Theorem due_spec disk schedule ops now :
  let q := run (start disk schedule) ops in
  let '(q', listed) := due q now in
  pend q' = filter (fun '(_, e) => unexpired now e) (pend q)
  /\ StronglySorted (fun x y => String.compare x y <> Gt) (map en_id listed) /\ NoDup (map en_id listed)
  /\ forall h, h ∈ listed <->
       exists id e, pend q !! id = Some e /\ unexpired now e /\ (en_next_ms e <= now)%N
                    /\ (id ∉ st_claimed (q_state q)) /\ h = head e.
Proof.
  intros q. destruct (reachable_sound disk schedule ops) as [Hq _]. fold q in Hq. pose proof (so_good _ Hq) as Hg.
  rewrite (surjective_pairing (due q now)). destruct (due_state q now Hg) as (Hg' & Hc & Hp).
  split; [done|]. rewrite due_ids by done. split; [apply ids_sorted, btree_keys_sorted|].
  split; [apply filter_ids_NoDup, NoDup_btree_items|]. intros h. rewrite due_items, list_elem_of_In, in_map_iff. split.
  - intros ([i e] & <- & [Hin%list_elem_of_In%elem_of_btree_items Hl]%filter_In). unfold listable in Hl. cbn [snd] in *.
    apply andb_prop in Hl as [[Hpe Hnext]%andb_prop Hcl%negb_true_iff%bool_decide_eq_false].
    assert (pend (due q now).1 !! i = Some e) as Hi by by apply held_Some.
    rewrite Hp in Hi. apply map_lookup_filter_Some in Hi as [Hi Hun]. exists i, e.
    rewrite (ix_keyed _ (gd_indexed _ Hg') _ _ Hin), Hc in Hcl. split_and!; try done. by apply N.leb_le.
  - intros (i & e & Hin & Hun & Hnext & Hcl & ->).
    assert (pend (due q now).1 !! i = Some e) as Hi by (rewrite Hp; by apply map_lookup_filter_Some).
    apply held_Some in Hi as [Hi Hpe]. exists (i, e). split; [done|]. apply filter_In.
    split; [by apply list_elem_of_In, elem_of_btree_items|]. unfold listable. cbn [snd].
    rewrite Hpe, (ix_keyed _ (gd_indexed _ Hg') _ _ Hi), Hc, bool_decide_eq_false_2 by done.
    cbn [negb andb]. rewrite andb_true_r. by apply N.leb_le.
Qed.

(** ** A failed delivery *)

Lemma repeat_none {A} fuel (step : A -> option A) x : step x = None -> repeat_step fuel step x = x.
Proof. intros Hn. destruct fuel; simpl; [done|]. by rewrite Hn. Qed.

Lemma oldest_within bound a : (aged_len a <= bound)%N -> oldest_past bound a = None.
Proof. intros H. unfold oldest_past. by destruct (N.ltb_spec bound (aged_len a)); [lia|]. Qed.

(** Within the limits there is nothing to enforce. *)
Lemma enforce_hook_idle q repo hook now : good q -> within_limits (q_limits q) (pend q) -> enforce_hook_bound q repo hook now = q.
Proof.
  intros Hg Hw. apply repeat_none. unfold enforce_hook_step. rewrite (ix_hooks _ (gd_indexed _ Hg)).
  unfold unless_empty. case_bool_decide; simpl; [done|]. rewrite oldest_within; [done|].
  rewrite aged_len_of, held_pend by (done || apply of_hook_pending). apply (wl_hooks _ _ Hw).
Qed.

Lemma enforce_repo_idle q repo now : good q -> within_limits (q_limits q) (pend q) -> enforce_repo_bound q repo now = q.
Proof.
  intros Hg Hw. apply repeat_none. unfold enforce_repo_step. rewrite (ix_repos _ (gd_indexed _ Hg)).
  unfold unless_empty. case_bool_decide; simpl; [done|]. rewrite oldest_within; [done|].
  rewrite aged_len_of, held_pend by (done || apply of_repo_pending). apply (wl_repos _ _ Hw).
Qed.

Lemma enforce_global_idle q now : good q -> within_limits (q_limits q) (pend q) -> enforce_global_bounds q now = q.
Proof.
  intros Hg Hw. apply repeat_none. unfold enforce_global_step. rewrite aged_count, (ix_bytes _ (gd_indexed _ Hg)) by done.
  fold (pend q). destruct (N.ltb_spec (total (q_limits q)) (count (pend q))) as [Hlt|_]; [pose proof (wl_total _ _ Hw); lia|].
  destruct (N.leb_spec (weight (pend q)) (max_bytes (q_limits q))) as [_|Hlt]; [done|]. pose proof (wl_bytes _ _ Hw). lia.
Qed.

Lemma enforce_idle q repo hook now : good q -> within_limits (q_limits q) (pend q) -> enforce_bounds q repo hook now = q.
Proof.
  intros Hg Hw. unfold enforce_bounds. by rewrite enforce_hook_idle, enforce_repo_idle, enforce_global_idle.
Qed.

Lemma is_pending_spec q id : is_pending (q_state q) id = bool_decide (is_Some (pend q !! id)).
Proof. apply eq_bool_prop_intro. rewrite !Is_true_true. rewrite bool_decide_eq_true. apply is_pending_pend. Qed.

Lemma pend_unclaim q id : pend (unclaim q id) = pend q.
Proof. done. Qed.

(** What the queue's pending entries become when [f] is recorded, before any bound is enforced. *)
Definition recorded (q : RetryQueue) (f : Failure) (now : N) (cnt : bool) (until : option N) : gmap string Entry :=
  <[fa_id f := tried q f now cnt until (default (new_entry f now) (pend q !! fa_id f))]> (pend q).

(** [fail] on a delivery given up before changes nothing that is pending and says it is not
    queued. On any other it records the failure: the entry gets its error, its next time and, if
    counted, one more try; no other pending entry is changed, and none is lost at all while the
    recorded entries fit the bounds; and the answer says whether the delivery is queued. *)
Theorem fail_spec disk schedule ops f now cnt until :
  let q := run (start disk schedule) ops in
  let '(q', queued) := fail q f now cnt until in
  queued = bool_decide (is_Some (pend q' !! fa_id f))
  /\ if bool_decide (is_Some (st_entries (q_state q) !! fa_id f) /\ pend q !! fa_id f = None) then pend q' = pend q
     else pend q' ⊆ recorded q f now cnt until
          /\ (within_limits Limits_default (recorded q f now cnt until) -> pend q' = recorded q f now cnt until).
Proof.
  intros q. destruct (reachable_sound disk schedule ops) as [Hq Hlim]. fold q in Hq, Hlim. pose proof Hq as [Hg Hw _].
  unfold fail. destruct (fail_locked q f now cnt until) as [q1 b] eqn:Ef.
  set (q' := if fa_claimed f then unclaim q1 (fa_id f) else q1).
  assert (pend q' = pend q1) as -> by (unfold q'; by destruct (fa_claimed f)).
  destruct (fail_locked_cases q f now cnt until Hg) as [(e & He & Hp & Hf)|[Hsame H]].
  - rewrite Ef in Hf. injection Hf as -> ->.
    assert (pend q !! fa_id f = None) as Hn.
    { apply map_lookup_filter_None. right. intros x Hx. simplify_eq. by rewrite Hp. }
    split; [by rewrite Hn|]. case_bool_decide as E; [done|]. exfalso. apply E. rewrite He. eauto.
  - cbv zeta in H. set (e := tried q f now cnt until _) in H. destruct H as (Hi & Hpe & q2 & Hc & Hpend & _ & Hl & _ & _ & _ & Hf).
    rewrite Ef in Hf. pose proof (f_equal fst Hf) as Hq1. pose proof (f_equal snd Hf) as Hb. cbn [fst snd] in Hq1, Hb.
    rewrite (bool_decide_eq_false_2 (is_Some _ /\ _)) by (rewrite Hsame; intros [[x Hx] Hn]; congruence).
    assert (good q2) as G2 by by eapply change_good.
    destruct (enforce_recorded q q2 _ e now Hq G2 Hl Hpe Hpend) as (S1 & _ & _).
    rewrite <-Hq1 in S1, Hb. split; [by rewrite Hb, is_pending_spec|]. fold e. split.
    + etrans; [apply S1|]. by rewrite Hpend.
    + intros Hfit. rewrite Hq1, enforce_idle; [done|done|]. by rewrite Hl, Hlim, Hpend.
Qed.
(** ** What an operation leaves *)

Lemma fail_pend q f now cnt until : sound q ->
  dom (st_entries (q_state (fail_locked q f now cnt until).1)) ⊆ {[fa_id f]} ∪ dom (st_entries (q_state q))
  /\ pend (fail_locked q f now cnt until).1 ⊆ recorded q f now cnt until
  \/ (fail_locked q f now cnt until).1 = q.
Proof.
  intros Hq. pose proof (so_good _ Hq) as Hg.
  destruct (fail_locked_cases q f now cnt until Hg) as [(e & _ & _ & ->)|[_ H]]; [by right|]. left. cbv zeta in H.
  set (e := tried q f now cnt until _) in H. destruct H as (_ & Hp & q1 & Hc & Hpend & Hdom & Hl & _ & _ & _ & ->). cbn [fst].
  destruct (enforce_recorded q q1 _ e now Hq (change_good _ _ Hc Hg) Hl Hp Hpend) as (S1 & _ & _).
  split; [etrans; [exact (sh_ids _ _ S1)|exact Hdom]|]. etrans; [exact (sh_pend _ _ S1)|]. by rewrite Hpend.
Qed.

(** A pending entry after an operation is one of before, with its tries and times perhaps changed, or
    the failed delivery's; an id is one held before, or the failed delivery's. *)
Lemma op_entries q op : sound q ->
  (forall i, i ∈ dom (st_entries (q_state (run_op q op))) ->
     i ∈ dom (st_entries (q_state q)) \/ exists f now cnt until, op = Fail_ f now cnt until /\ i = fa_id f)
  /\ forall i e, pend (run_op q op) !! i = Some e ->
     (exists e0, pend q !! i = Some e0 /\ origin e = origin e0)
     \/ exists f now cnt until, op = Fail_ f now cnt until /\ i = fa_id f /\ origin e = fa_origin f.
Proof.
  intros Hq. pose proof (so_good _ Hq) as Hg.
  assert (forall q', sheds q q' -> (forall i, i ∈ dom (st_entries (q_state q')) -> i ∈ dom (st_entries (q_state q)))
    /\ forall i e, pend q' !! i = Some e -> exists e0, pend q !! i = Some e0 /\ origin e = origin e0) as Hshed.
  { intros q' Hs. split; [apply (sh_ids _ _ Hs)|]. intros i e He. exists e. split; [|done].
    eapply lookup_weaken; [exact He|apply Hs]. }
  destruct op; cbn [run_op]; try (split; [by left|by left; eauto]).
  - assert (pend (fail q f now count defer_until).1 = pend (fail_locked q f now count defer_until).1
      /\ st_entries (q_state (fail q f now count defer_until).1) = st_entries (q_state (fail_locked q f now count defer_until).1)) as [-> ->].
    { unfold fail. destruct (fail_locked _ _ _ _ _). by destruct (fa_claimed f). }
    destruct (fail_pend q f now count defer_until Hq) as [[Hd Hp]| ->]; [|split; [by left|by left; eauto]]. split.
    + intros i Hi%Hd. apply elem_of_union in Hi as [Hi%elem_of_singleton|Hi]; [right; eauto 10|by left].
    + intros i e He. eapply lookup_weaken in He; [|exact Hp]. unfold recorded in He.
      apply lookup_insert_Some in He as [[<- <-]|[_ He]]; [|left; eauto].
      destruct (pend q !! fa_id f) as [e0|]; [left; eauto|right; eauto 10].
  - unfold defer, opt_filter. destruct (st_entries (q_state q) !! id) as [e|] eqn:He; simpl; [|split; [by left|by left; eauto]].
    destruct (is_pending_entry e && _) eqn:Hp; [|split; [by left|by left; eauto]]. apply andb_prop in Hp as [Hp _].
    pose proof (ix_keyed _ (gd_indexed _ Hg) _ _ He) as Hi. unfold pend. rewrite persist_state.
    cbn [set_entry with_state q_state set_entries st_entries]. split.
    + intros i. rewrite dom_insert. simpl. rewrite Hi. apply elem_of_dom_2 in He. set_solver.
    + intros i x [Hx Hpx]%held_Some. left. simpl in Hx. rewrite Hi in Hx. apply lookup_insert_Some in Hx as [[<- <-]|[_ Hx]].
      * exists e. split; [by apply held_Some|done].
      * exists x. split; [by apply held_Some|done].
  - unfold succeeded. destruct (st_entries (q_state q) !! id) as [e|] eqn:He; [|split; [by left|by left; eauto]]. unfold pend.
    cbn [unclaim unlink send_op with_state q_state set_claimed st_entries]. rewrite unindex_entries. cbn [set_entries st_entries]. split.
    + intros i. rewrite dom_delete. set_solver.
    + intros i x. rewrite held_delete. intros [_ Hx]%lookup_delete_Some. left. eauto.
  - unfold drop_entry. rewrite pend_unclaim. cbn [unclaim with_state q_state set_claimed st_entries].
    destruct (is_pending _ _); [|split; [by left|by left; eauto]].
    destruct (Hshed _ (proj1 (mark_dropped_spec q id reason now Hg))). split; [left|left]; eauto.
  - destruct (Hshed _ (proj1 (mark_each_spec (concat (map (fun '(_, aged) => map snd (aged_items aged))
      (List.filter (fun '((repo, hook), _) => matches repo hook) (iter_order (st_hooks (q_state q)))))) reason now q Hg))).
    split; left; eauto.
  - destruct (Hshed _ (due_sheds q now Hg)). split; left; eauto.
  - destruct (claim_state q id) as [c ->]. split; [by left|by left; eauto].
Qed.

(** [drop_where] drops the pending entries of the matching hooks, and only those. *)
Lemma drop_where_pend q matches reason now : good q ->
  pend (drop_where q matches reason now) = filter (fun '(_, e) => matches (en_repo_id e) (en_hook_id e) = false) (pend q).
Proof.
  intros Hg. pose proof (gd_indexed _ Hg) as Hix. unfold drop_where.
  rewrite (proj2 (mark_each_spec _ reason now q Hg)). set (ids := concat _).
  assert (forall i e, pend q !! i = Some e -> (i ∈ ids) <-> matches (en_repo_id e) (en_hook_id e) = true) as Hids.
  { intros i e He. unfold ids. rewrite list_elem_of_In, in_concat. split.
    - intros (l & ([[r h] a] & <- & [Hk Hm]%filter_In)%in_map_iff & ([c j] & Ej & Hj%list_elem_of_In)%in_map_iff). simpl in Ej. subst j.
      apply list_elem_of_In in Hk. rewrite iter_perm, elem_of_map_to_list, (ix_hooks _ Hix) in Hk. apply unless_Some in Hk as [_ ->].
      unfold aged_items in Hj. rewrite elem_of_sort_by, elem_of_elements in Hj.
      destruct (aged_pend q _ _ Hg (of_hook_pending _) Hj) as (x & Hx & Hof & _). simpl in Hx. rewrite He in Hx. injection Hx as <-.
      apply andb_prop in Hof as [_ Hof%bool_decide_eq_true]. unfold hook_key in Hof. by injection Hof as -> ->.
    - intros Hm. exists (map snd (aged_items (aged_of (held (of_hook (hook_key e)) (st_entries (q_state q)))))). split.
      + apply in_map_iff. exists (hook_key e, aged_of (held (of_hook (hook_key e)) (st_entries (q_state q)))). split; [done|].
        apply filter_In. split; [|done]. apply list_elem_of_In. rewrite iter_perm, elem_of_map_to_list, (ix_hooks _ Hix). apply unless_Some.
        split; [|done]. apply held_Some in He as [He Hp]. apply (lookup_nonempty _ i e), held_Some. split; [done|]. unfold of_hook.
        rewrite Hp. by apply bool_decide_eq_true_2.
      + apply in_map_iff. exists (age_key e). split.
        * simpl. apply held_Some in He as [He _]. by apply (ix_keyed _ Hix).
        * apply list_elem_of_In. unfold aged_items. rewrite elem_of_sort_by, elem_of_elements. apply elem_of_keys. exists i, e. split; [|done].
          apply held_Some in He as [He Hp]. apply held_Some. split; [done|]. unfold of_hook. rewrite Hp. by apply bool_decide_eq_true_2. }
  apply map_eq. intros i. apply option_eq. intros e. rewrite !map_lookup_filter_Some. split; intros [He Hn]; (split; [done|]).
  - rewrite (Hids i e He) in Hn. by destruct (matches _ _).
  - rewrite (Hids i e He), Hn. done.
Qed.
End runs.

(** ** The files *)

Section files.
Context `{codec : Codec} `{order : HashOrder} {laws : CodecLaws codec}.

Lemma apply_ops_lookup ops files i : apply_ops ops files !! i = match ops !! i with Some o => o | None => files !! i end.
Proof. unfold apply_ops. rewrite lookup_merge. by destruct (ops !! i) as [[?|]|], (files !! i). Qed.

Lemma settled_send d id op i : settled (send d id op) !! i = if bool_decide (i = id) then op else settled d !! i.
Proof.
  unfold settled, send. rewrite !apply_ops_lookup. simpl. case_bool_decide as E; [by rewrite E, lookup_insert_eq|].
  by rewrite lookup_insert_ne.
Qed.

(** What one file holds, read as the entry of its name. *)
Definition read_file (stem content : string) : option Entry :=
  e ← from_slice content; if shaped (en_id e) && (en_id e == stem) then Some (with_bytes e) else None.

Lemma stored_at files i : stored files !! i = files !! i ≫= read_file i.
Proof. unfold stored. by rewrite map_lookup_imap. Qed.

Lemma with_bytes_id e : en_bytes e = payload_len (en_payload e) -> with_bytes e = e.
Proof. intros H. unfold with_bytes. rewrite <-H. by destruct e. Qed.

Lemma follows_insert d m e c : follows d m -> to_vec e = Some c -> en_bytes e = payload_len (en_payload e) ->
  follows (send d (en_id e) (Some c)) (<[en_id e := e]> m).
Proof.
  intros Hf Hc Hb i Hi. rewrite stored_at, settled_send. case_bool_decide as E.
  - subst i. rewrite lookup_insert_eq. simpl. unfold read_file. rewrite (from_to _ _ Hc). simpl.
    by rewrite Hi, bool_decide_eq_true_2, with_bytes_id.
  - rewrite lookup_insert_ne by done. rewrite <-stored_at. by apply Hf.
Qed.

Lemma follows_delete d m id : follows d m -> follows (send d id None) (delete id m).
Proof.
  intros Hf i Hi. rewrite stored_at, settled_send. case_bool_decide as E; [by rewrite E, lookup_delete_eq|].
  rewrite lookup_delete_ne by done. rewrite <-stored_at. by apply Hf.
Qed.

Definition written (q : RetryQueue) : Prop := forall d, q_disk q = Some d -> follows d (st_entries (q_state q)).

Lemma persist_written q e m : (forall d, q_disk q = Some d -> follows d m) -> en_bytes e = payload_len (en_payload e) ->
  forall d, q_disk (persist q e) = Some d -> follows d (<[en_id e := e]> m).
Proof.
  intros Hf Hb d. unfold persist. destruct (to_vec_total e) as [c Hc]. rewrite Hc. simpl.
  destruct (q_disk q) as [d0|]; simpl; [|done]. intros [= <-]. apply follows_insert; auto.
Qed.

Lemma change_written q q' : change q q' -> good q -> written q -> written q'.
Proof.
  intros Hc [Hix Hsz] Hw. unfold written in *.
  destruct Hc as [e Hn Hp Hb|e e' He Hsame Hpl|e reason now He Hp|e He|c].
  - rewrite persist_state. cbn [set_entry with_state q_state set_entries st_entries]. rewrite index_entries. by apply persist_written.
  - rewrite persist_state. apply persist_written; [exact Hw|]. destruct Hsame as (_ & _ & _ & _ & _ & _ & ->). rewrite Hpl. eauto.
  - cbn [set_entry with_state q_state set_entries st_entries q_disk]. rewrite persist_state.
    cbn [with_state q_state]. rewrite index_entries, unindex_entries. cbn [set_entries st_entries].
    rewrite insert_delete_eq. by apply (persist_written _ (dropped_as e reason now)).
  - cbn [unlink send_op with_state q_state q_disk]. rewrite unindex_entries. cbn [set_entries st_entries].
    destruct (q_disk q) as [d0|]; simpl; [|done]. intros d [= <-]. by apply follows_delete, Hw.
  - exact Hw.
Qed.

Lemma changes_written q q' : rtc change q q' -> good q -> written q -> written q'.
Proof. induction 1; eauto using change_written, change_good. Qed.

(** The writer's own steps leave what the files will hold as it is. *)
Lemma apply_ops_all io ops files : (forall id, io id = true) -> apply_ops (filter (fun '(id, _) => io id = true) ops) files = apply_ops ops files.
Proof. intros Hio. f_equal. apply map_filter_id. intros i o _. apply Hio. Qed.

Lemma apply_ops_none files : apply_ops ∅ files = files.
Proof. apply map_eq. intros i. by rewrite apply_ops_lookup, lookup_empty. Qed.

Lemma writer_take_settled d : settled (writer_take d) = settled d.
Proof.
  unfold writer_take, settled. destruct (_ || _) eqn:E; [done|]. simpl. apply orb_false_iff in E as [_ E].
  apply negb_false_iff, bool_decide_eq_true in E. by rewrite E, !apply_ops_none.
Qed.

Lemma writer_apply_settled io d : (forall id, io id = true) -> settled (writer_apply io d) = settled d.
Proof. intros Hio. unfold writer_apply, settled. simpl. by rewrite apply_ops_none, apply_ops_all. Qed.

Lemma follows_settled d d' m : settled d' = settled d -> follows d m -> follows d' m.
Proof. unfold follows. by intros ->. Qed.

Lemma op_written q op : sound q -> op_ok op -> written q -> written (run_op q op).
Proof.
  intros Hq Hop Hw. pose proof (run_op_moves q op Hq) as Hm.
  destruct op; try (eapply changes_written; [apply Hm|apply Hq|done]); intros d; simpl; destruct (q_disk q) as [d0|] eqn:Ed; try done;
    simpl; intros [= <-].
  - eapply follows_settled; [apply writer_take_settled|by apply Hw].
  - eapply follows_settled; [by apply writer_apply_settled|by apply Hw].
Qed.

Lemma op_synced q op : sound q -> op_ok op -> synced q -> synced (run_op q op).
Proof.
  intros Hq Hop [Hf Hs Hb]. destruct (op_entries q op Hq) as [Hids Hbodies]. constructor.
  - by apply op_written.
  - intros i e He. apply elem_of_dom_2, Hids in He as [[x Hx]%elem_of_dom|(f & now & cnt & until & -> & ->)]; [eauto|apply Hop].
  - intros i e He. apply Hbodies in He as [(e0 & He0 & [= _ _ _ _ Hpl])|(f & now & cnt & until & -> & _ & [= _ _ _ _ Hpl])];
      rewrite Hpl; [eauto|apply Hop].
Qed.

Lemma run_synced ops : forall q, sound q -> Forall op_ok ops -> synced q -> synced (run q ops).
Proof.
  induction ops as [|op ops IH]; intros q Hq Hops Hs; simpl; [done|]. apply Forall_cons in Hops as [Hop Hops].
  apply IH; [by apply run_op_sound|done|by apply op_synced].
Qed.

(** ** The start *)

Lemma loaded_written files schedule : written (loaded files schedule).
Proof.
  intros d [= <-] i Hi. destruct (loaded_spec files schedule) as (_ & -> & _).
  unfold settled. simpl. by rewrite !apply_ops_none.
Qed.

Lemma open_synced files schedule now : synced (open files schedule now).
Proof.
  destruct (loaded_spec files schedule) as (Hg & He & _). destruct (open_spec files schedule now) as [_ Hs]. constructor.
  - eapply changes_written; [apply Hs|done|apply loaded_written].
  - intros i e Hi. apply elem_of_dom_2, (sh_ids _ _ Hs) in Hi. rewrite He in Hi.
    apply elem_of_dom in Hi as [x (c & e0 & _ & _ & Hsh & _)%stored_lookup]. done.
  - intros i e Hi. rewrite open_eq in Hi.
    destruct (mark_each_spec (map en_id (List.filter bodiless (read_dir files))) "no body stored (unreadable entry)" now _ Hg) as [S1 P1].
    set (q1 := foldl _ _ _) in Hi, S1, P1. destruct (enforce_all_spec q1 now (sheds_good _ _ S1 Hg)) as (S2 & _ & _).
    eapply lookup_weaken in Hi; [|apply S2]. rewrite P1 in Hi. apply map_lookup_filter_Some in Hi as [Hi Hn].
    apply held_Some in Hi as [Hi Hp]. rewrite He in Hi. apply stored_lookup in Hi as (c & e0 & Hc & Hd & Hsh & Hid & ->).
    destruct (en_payload (with_bytes e0)) as [body|] eqn:Eb; [done|]. exfalso. apply Hn.
    apply list_elem_of_In, in_map_iff. exists e0. split; [done|]. apply filter_In. split.
    + apply list_elem_of_In, read_dir_spec. exists c. by rewrite Hid.
    + unfold bodiless. simpl in Eb. rewrite Eb. unfold is_pending_entry in *. simpl in Hp. by rewrite Hp.
Qed.

(** ** A restart *)

(** The indexes are determined by the entries. *)
Lemma indexed_unique st st' : indexed st -> indexed st' -> st_entries st = st_entries st' -> st_claimed st = st_claimed st' -> st = st'.
Proof.
  intros [_ Ha Hr Hh Hb Hd] [_ Ha' Hr' Hh' Hb' Hd'] He Hc. rewrite He in *.
  destruct st as [m c a r h b d], st' as [m' c' a' r' h' b' d']; simpl in *. subst. f_equal; apply map_eq; intros k; [by rewrite Hr, Hr'|by rewrite Hh, Hh'].
Qed.

Lemma foldl_idle {A B} (f : A -> B -> A) x l : (forall y, f x y = x) -> foldl f x l = x.
Proof. intros Hf. induction l as [|y l IH]; simpl; [done|]. by rewrite Hf. Qed.

Lemma enforce_all_idle q now : good q -> within_limits (q_limits q) (pend q) -> (aged_len (st_dropped (q_state q)) <= MAX_DROPPED)%N ->
  enforce_all q now = q.
Proof.
  intros Hg Hw Hd. unfold enforce_all.
  assert (forall l, foldl (fun q '(repo, hook) => enforce_hook_bound q repo hook now) q l = q) as ->.
  { intros l. apply foldl_idle. intros [r h]. by apply enforce_hook_idle. }
  rewrite foldl_idle by (intros r; by apply enforce_repo_idle). rewrite enforce_global_idle by done.
  apply repeat_none. unfold trim_step. by destruct (N.ltb_spec MAX_DROPPED (aged_len (st_dropped (q_state q)))); [lia|].
Qed.

(** Files that stand for a sound queue open as that queue, with no claim. *)
Lemma open_same q files schedule now : sound q -> q_limits q = Limits_default ->
  stored files = st_entries (q_state q) -> (forall i e, pend q !! i = Some e -> is_Some (en_payload e)) ->
  q_state (open files schedule now) = set_claimed ∅ (q_state q).
Proof.
  intros [Hg Hw Hd] Hl Hst Hb. destruct (loaded_spec files schedule) as (G1 & E1 & C1).
  assert (q_state (loaded files schedule) = set_claimed ∅ (q_state q)) as Heq.
  { apply indexed_unique; [apply G1|by destruct (gd_indexed _ Hg); constructor|by rewrite E1, Hst|done]. }
  assert (List.filter bodiless (read_dir files) = []) as Hno.
  { apply filter_none. intros e0 He0. destruct (bodiless e0) eqn:Eb; [exfalso|done].
    apply andb_prop in Eb as [Hp Hn%bool_decide_eq_true]. apply read_dir_spec in He0 as (c & Hc & Hdec & Hsh).
    assert (pend q !! en_id e0 = Some (with_bytes e0)) as Hin.
    { apply held_Some. split; [|done]. rewrite <-Hst. apply stored_lookup. eauto 10. }
    apply Hb in Hin as [body Hin]. simpl in Hin. congruence. }
  rewrite open_eq, Hno. simpl. rewrite enforce_all_idle; [done|done|..].
  - assert (pend (loaded files schedule) = pend q) as -> by (unfold pend; by rewrite Heq). by rewrite Hl in Hw.
  - by rewrite Heq.
Qed.

(** C10: the queue survives a restart: once the writer has caught up, on a disk that takes its writes,
    opening the directory gives back the very state the queue had, its indexes and dropped
    records included, with no delivery claimed. *)
Theorem restart_restores files schedule now ops d schedule' now' :
  let q := run (open files schedule now) ops in
  Forall op_ok ops -> q_disk q = Some d -> flushed d = true ->
  q_state (open (dk_files d) schedule' now') = set_claimed ∅ (q_state q).
Proof.
  intros q Hops Hd Hfl. destruct (open_spec files schedule now) as [Hs0 Hsh].
  destruct (reachable_sound (Some (files, now)) schedule ops) as [Hq Hl]. cbn [start] in Hq, Hl. fold q in Hq, Hl.
  destruct (run_synced ops _ Hs0 Hops (open_synced files schedule now)) as [Hf Hshaped Hb]. fold q in Hf, Hshaped, Hb.
  apply open_same; [done|done| |done].
  apply andb_prop in Hfl as [Ho%bool_decide_eq_true Hbu%bool_decide_eq_true].
  assert (settled d = dk_files d) as Hset by (unfold settled; by rewrite Ho, Hbu, !apply_ops_none).
  apply map_eq. intros i. specialize (Hf d Hd i). rewrite Hset in Hf.
  destruct (shaped i) eqn:Hi; [by apply Hf|]. transitivity (@None Entry).
  - destruct (stored (dk_files d) !! i) as [e|] eqn:E; [|done]. apply stored_lookup in E as (c & e0 & _ & _ & Hsi & _). congruence.
  - symmetry. destruct (st_entries (q_state q) !! i) as [e|] eqn:E; [|done]. apply Hshaped in E. congruence.
Qed.
End files.

(** ** Examples and witnesses *)

(** Maps read in the order of their own representation. *)
Definition map_order : HashOrder := {| iter_order _ _ _ _ m := map_to_list m; iter_perm _ _ _ _ m := Permutation_refl _ |}.

(** A codec that reads back what it writes: an entry as the sequence of its fields. *)
Fixpoint pos_bits (p : positive) : string :=
  match p with xH => "" | xO p => String "0"%char (pos_bits p) | xI p => String "1"%char (pos_bits p) end.
Fixpoint bits_pos (s : string) : positive :=
  match s with "" => xH | String a s => if a == "1"%char then xI (bits_pos s) else xO (bits_pos s) end.
Lemma bits_pos_bits p : bits_pos (pos_bits p) = p.
Proof. induction p as [p IH|p IH|]; simpl; [by rewrite IH..|done]. Qed.

Definition N_text (n : N) : string := pos_bits (N.succ_pos n).
Definition text_N (s : string) : N := Pos.pred_N (bits_pos s).
Definition opt_text {A} (f : A -> string) (o : option A) : string := match o with Some x => String "+"%char (f x) | None => "" end.
Definition text_opt {A} (g : string -> A) (s : string) : option A := match s with "" => None | String _ s => Some (g s) end.
Definition status_text (s : Status) : string := match s with Pending => "pending" | Dropped => "dropped" end.
Definition text_status (s : string) : Status := if s == "pending" then Pending else Dropped.

Lemma text_N_text n : text_N (N_text n) = n.
Proof. unfold text_N, N_text. rewrite bits_pos_bits. apply N.pos_pred_succ. Qed.
Lemma text_opt_text {A} (f : A -> string) g o : (forall x, g (f x) = x) -> text_opt g (opt_text f o) = o.
Proof. intros H. destruct o; simpl; by rewrite ?H. Qed.
Lemma text_status_text s : text_status (status_text s) = s.
Proof. by destruct s. Qed.

(** Strings one after another, each ended by a mark. *)
Fixpoint put_text (s rest : string) : string :=
  match s with "" => String "."%char rest | String a s => String "+"%char (String a (put_text s rest)) end.
Fixpoint get_text (t : string) : string * string :=
  match t with
  | String c (String a t' as t1) => if c == "+"%char then let '(s, r) := get_text t' in (String a s, r) else ("", t1)
  | String _ "" | "" => ("", "")
  end.
Lemma get_put s rest : get_text (put_text s rest) = (s, rest).
Proof. induction s as [|a s IH]; simpl; [by destruct rest|]. by rewrite IH. Qed.

Fixpoint get_texts (n : nat) (t : string) : list string :=
  match n with O => [] | S n => let '(s, r) := get_text t in s :: get_texts n r end.
Lemma get_put_all l : get_texts (length l) (foldr put_text "" l) = l.
Proof. induction l as [|s l IH]; simpl; [done|]. by rewrite get_put, IH. Qed.

Definition entry_texts (e : Entry) : list string :=
  [en_id e; en_repo_id e; en_hook_id e; en_event e; en_source_doc_id e; N_text (en_created_ms e); N_text (en_tries e);
   N_text (en_next_ms e); en_last_error e; status_text (en_status e); opt_text id (en_drop_reason e);
   opt_text N_text (en_dropped_ms e); opt_text id (en_payload e); N_text (en_bytes e)].
Definition text_codec : Codec := {|
  to_vec e := Some (foldr put_text "" (entry_texts e));
  from_slice s :=
    match get_texts 14 s with
    | [a; b; c; d; e; f; g; h; i; j; k; l; m; n] =>
        Some (mkEntry a b c d e (text_N f) (text_N g) (text_N h) i (text_status j) (text_opt id k) (text_opt text_N l)
                (text_opt id m) (text_N n))
    | _ => None
    end
|}.
Lemma text_codec_laws : CodecLaws text_codec.
Proof.
  constructor; [by eexists|]. intros e b [= <-].
  change (from_slice (Codec := text_codec) (foldr put_text "" (entry_texts e)) = Some e).
  unfold from_slice, text_codec. change 14 with (length (entry_texts e)). rewrite get_put_all. unfold entry_texts.
  rewrite !text_N_text, text_status_text, !text_opt_text by (done || apply text_N_text). by destruct e.
Qed.

Definition example_id : string := "b50f124f-72a9-90b7-c943-e486822a82f0".
Definition example_failure : Failure := mkFailure example_id "R" "H" "push" "D" (Some "{}") "HTTP 503" false.
Definition example_queue : RetryQueue := run (codec := text_codec) (order := map_order) (in_memory []) [Fail_ example_failure 5 true None].

(** One failure, due again a minute later, claimed, then expired after two days. *)
Example example_due_times :
  (map en_next_ms (due (codec := text_codec) example_queue 60004).2, map en_next_ms (due (codec := text_codec) example_queue 60005).2,
   (claim example_queue example_id).2,
   map en_id (due (codec := text_codec) (claim example_queue example_id).1 60005).2,
   map en_id (due (codec := text_codec) example_queue 172800004).2, map en_id (due (codec := text_codec) example_queue 172800005).2)
  = ([], [60005%N], Some "{}", [], [example_id], []).
Proof. vm_compute. reflexivity. Qed.

Lemma claims_exclusive_witness :
  (claim example_queue example_id).2 = Some "{}" /\
  (claim (run (codec := text_codec) (order := map_order) (claim example_queue example_id).1
     [Defer example_id 9; Due 60005; Fail_ example_failure 8 true None]) example_id).2 = None.
Proof.
  split; [vm_compute; reflexivity|].
  refine (proj1 (claims_exclusive (codec := text_codec) (order := map_order) None [] [Fail_ example_failure 5 true None]
    example_id "{}" [Defer example_id 9; Due 60005; Fail_ example_failure 8 true None] _ _)).
  - vm_compute; reflexivity.
  - repeat constructor.
Defined.

Definition example_ops : list Op := [Fail_ example_failure 5 true None; Claim example_id; WriterTake; WriterApply (fun _ => true)].
Definition example_disk : Disk :=
  default (mkDisk ∅ ∅ ∅) (q_disk (run (codec := text_codec) (order := map_order) (open (codec := text_codec) (order := map_order) ∅ [] 0) example_ops)).

Lemma restart_restores_witness :
  size (dk_files example_disk) = 1 /\
  q_state (open (codec := text_codec) (order := map_order) (dk_files example_disk) [] 7)
  = set_claimed ∅ (q_state (run (codec := text_codec) (order := map_order) (open (codec := text_codec) (order := map_order) ∅ [] 0) example_ops)).
Proof.
  split; [vm_compute; reflexivity|].
  apply (restart_restores (codec := text_codec) (order := map_order) (laws := text_codec_laws) ∅ [] 0 example_ops example_disk [] 7).
  - repeat constructor; eauto.
  - vm_compute; reflexivity.
  - vm_compute; reflexivity.
Defined.
