(* ===== verification/Dispatch.v ===== *)
(** The webhook dispatcher of the relay ([forge-relay/src/deliver.rs]): delivery ids, the retries and
    outcomes of one delivery, the circuit breaker, and the hooks' workers with their channels over
    the durable queue of [RetryQueue]. *)
From S2P Require Import Wire Prelude Text RetryQueue QueueRuns.
From stdpp Require Import pretty.

(** ** Definitions *)

(** *** Events, subscriptions and errors *)

Definition MAX_BODY_BYTES : N := 1024 * 1024.
Definition QUEUE_PER_HOOK : nat := 256.
Definition BREAKER_THRESHOLD : N := 3.
Definition BREAKER_BASE : Duration := from_secs 60.
Definition BREAKER_MAX : Duration := from_secs 3600.

Definition ALL_EVENTS : list string :=
  ["push"; "release"; "issues"; "pull_request"; "issue_comment"; "pull_request_review"; "check_run"].

Record WebhookEvent {Value : Type} := mkWebhookEvent {
  we_event : string;
  we_action : option string;
  we_payload : Value;
  we_source_doc_id : string
}.
Arguments WebhookEvent : clear implicits.

Record WebhookSub := mkWebhookSub {
  ws_repo_id : string;
  ws_hook_id : string;
  ws_url : string;
  ws_events : list string;
  ws_secret : string;
  ws_created_at : N;
  ws_document_id : option string
}.

Definition wants_event (events : list string) (event : string) : bool :=
  (events == []) || existsb (fun e => (e == event) || (e == "*")) events.
Definition wants (sub : WebhookSub) (event : string) : bool := wants_event (ws_events sub) event.

Inductive RelayError :=
  | Config (m : string)
  | Ssrf (m : string)
  | Unresolved (m : string)
  | DeliveryExhausted (attempts : N) (reason : string)
  | Permanent (m : string)
  | StateLocked (m : string)
  | DestinationBusy (m : string)
  | Core (m : string)
  | PrivateRepo (m : string)
  | Io (m : string).

(** [Display]; the text of a forge-core error is that error's own. *)
Definition relay_error_text (e : RelayError) : string :=
  match e with
  | Config m => "configuration error: " +:+ m
  | Ssrf m => "ssrf guard: " +:+ m
  | Unresolved m => "delivery host unresolved: " +:+ m
  | DeliveryExhausted attempts reason => "delivery failed after " +:+ pretty attempts +:+ " attempts: " +:+ reason
  | Permanent m => "not retried: " +:+ m
  | StateLocked m => m
  | DestinationBusy m => "destination busy: " +:+ m
  | Core m => "forge-core: " +:+ m
  | PrivateRepo m => m +:+ " is a private repository; the relay does not serve private repositories"
  | Io m => "io error: " +:+ m
  end.

Record DeliveryReceipt := mkReceipt { dr_delivery_id : string; dr_status : N; dr_attempts : N }.

(** *** The circuit breaker *)

(** An [Instant], in nanoseconds of the monotonic clock. *)
Definition Instant : Type := N.
Record Breaker := mkBreaker { br_failures : N; br_opens : N; br_open_until : option Instant }.
Definition Breaker_default : Breaker := mkBreaker 0%N 0%N None.

Definition is_open (b : Breaker) (now : Instant) : bool := is_some_and (br_open_until b) (fun t => now <? t)%N.

(** The cool-down of the next opening. *)
Definition cool_down (b : Breaker) : Duration := N.min (BREAKER_BASE * N.shiftl 1 (N.min (br_opens b) 10)) BREAKER_MAX.
Definition record (b : Breaker) (ok : bool) (now : Instant) : Breaker * option Duration :=
  if ok then (Breaker_default, None)
  else
    let failures := (br_failures b + 1)%N in
    if (failures <? BREAKER_THRESHOLD)%N then (mkBreaker failures (br_opens b) (br_open_until b), None)
    else (mkBreaker 0%N (br_opens b + 1)%N (Some (now + cool_down b)%N), Some (cool_down b)).

(** *** One delivery *)

(** How one attempt ends: no slot in time, an answer with its status, or no answer. *)
Inductive Attempt := NoSlot (m : string) | Answer (status : N) | NoAnswer (m : string).

Definition is_success (status : N) : bool := (200 <=? status)%N && (status <? 300)%N.
Definition is_client_error (status : N) : bool := (400 <=? status)%N && (status <? 500)%N.
(** A client error other than throttling will not recover. *)
Definition gives_no_hope (status : N) : bool := is_client_error status && negb (status =? 408)%N && negb (status =? 429)%N.

(** What is parsed, hashed and named by code outside the repository: the first half of a SHA-256
    in hex, JSON bodies, and the text of an HTTP status. *)
Class Services (Value : Type) := {
  hash16 : string -> string;
  json_text : Value -> option string;
  json_parse : string -> string + Value;
  status_text : N -> string
}.

(** [hex::encode] of sixteen bytes. *)
Class ServiceLaws {Value} (services : Services Value) : Prop := {
  hash16_length : forall s, String.length (hash16 s) = 32;
  hash16_hex : forall s, forallb is_hex_digit (bytes (hash16 s)) = true
}.

Definition slice (from to : nat) (s : string) : string := of_bytes (take (to - from) (drop from (bytes s))).

Section dispatch.
Context {Value : Type} `{services : Services Value} `{codec : Codec} `{order : HashOrder}.

Definition delivery_id (hook_id source_doc_id : string) : string :=
  let h := hash16 (hook_id +:+ ":" +:+ source_doc_id) in
  slice 0 8 h +:+ "-" +:+ slice 8 12 h +:+ "-" +:+ slice 12 16 h +:+ "-" +:+ slice 16 20 h +:+ "-" +:+ slice 20 32 h.

(** [Deliverer::send]: at most [n] more attempts, from the [attempt]th. *)
Fixpoint send_from (n : nat) (outcomes : N -> Attempt) (delivery : string) (attempt : N) (sent : bool) (last_reason : string) :
    RelayError + DeliveryReceipt :=
  match n with
  | O => inl (if sent then DeliveryExhausted (attempt - 1)%N last_reason else DestinationBusy last_reason)
  | S n =>
      let next := send_from n outcomes delivery (attempt + 1)%N in
      match outcomes attempt with
      | NoSlot m => next sent m
      | NoAnswer m => next true m
      | Answer status =>
          if is_success status then inr (mkReceipt delivery status attempt)
          else
            let reason := "HTTP " +:+ status_text status in
            if gives_no_hope status then inl (Permanent ("the receiver answered " +:+ reason)) else next true reason
      end
  end.
Definition send (max_attempts : nat) (outcomes : N -> Attempt) (hook_id : string) (event : WebhookEvent Value) :
    RelayError + DeliveryReceipt :=
  send_from max_attempts outcomes (delivery_id hook_id (we_source_doc_id event)) 1%N false "".

(** [Deliverer::deliver_inner]: the body is serialized and the target resolved first. *)
Definition deliver_inner (max_attempts : nat) (target : RelayError + (N -> Attempt)) (hook_id : string)
    (event : WebhookEvent Value) (serialize_error : string) : RelayError + DeliveryReceipt :=
  match json_text (we_payload event) with
  | None => inl (Config ("serializing payload: " +:+ serialize_error))
  | Some body =>
      let n := N.of_nat (String.length body) in
      if (MAX_BODY_BYTES <? n)%N
      then inl (Permanent ("payload of " +:+ pretty n +:+ " bytes exceeds the " +:+ pretty MAX_BODY_BYTES +:+ "-byte cap"))
      else
        match target with
        | inl (Ssrf m) => inl (Permanent ("ssrf guard: " +:+ m))
        | inl other => inl other
        | inr outcomes => send max_attempts outcomes hook_id event
        end
  end.

(** *** Workers and the dispatcher *)

Record Job := mkJob { jb_event : WebhookEvent Value; jb_retry : bool }.

(** What a call that has let go of the hooks, or a worker, is still to do: each is one turn, and the
    turns of the others come between. *)
Inductive Action :=
  | OnQueue (op : N -> Op)
  | WarnHookless (repo_id : string)
  | Targets (now : N) (due : list Entry)
  | RetryEntry (now : N) (authoritative : gset string) (e : Entry) (target : option (nat * N * bool))
  | HandOver (now : N) (e : Entry) (event_name : string) (t : nat) (raw : string)
  | Begin (now : N) (j : Job) (sub : WebhookSub)
  | Break (result : RelayError + DeliveryReceipt).

(** A hook's worker task, with the channel into it and what its [HookWorker] shares with it. *)
Record Task := mkTask {
    tk_sub : WebhookSub;
    tk_cancelled : bool;
    tk_open_until_ms : N;
    tk_breaker : Breaker;
    tk_chan : list Job;
    tk_flight : option (Job * WebhookSub);
    tk_todo : list Action;
    tk_done : bool
  }.
Definition new_task (sub : WebhookSub) : Task := mkTask sub false 0%N Breaker_default [] None [] false.

Definition set_sub (sub : WebhookSub) (t : Task) : Task :=
  mkTask sub (tk_cancelled t) (tk_open_until_ms t) (tk_breaker t) (tk_chan t) (tk_flight t) (tk_todo t) (tk_done t).
Definition cancel (t : Task) : Task :=
  mkTask (tk_sub t) true (tk_open_until_ms t) (tk_breaker t) (tk_chan t) (tk_flight t) (tk_todo t) (tk_done t).
Definition set_chan (chan : list Job) (t : Task) : Task :=
  mkTask (tk_sub t) (tk_cancelled t) (tk_open_until_ms t) (tk_breaker t) chan (tk_flight t) (tk_todo t) (tk_done t).
Definition set_flight (flight : option (Job * WebhookSub)) (t : Task) : Task :=
  mkTask (tk_sub t) (tk_cancelled t) (tk_open_until_ms t) (tk_breaker t) (tk_chan t) flight (tk_todo t) (tk_done t).
Definition set_todo (todo : list Action) (t : Task) : Task :=
  mkTask (tk_sub t) (tk_cancelled t) (tk_open_until_ms t) (tk_breaker t) (tk_chan t) (tk_flight t) todo (tk_done t).
Definition set_breaker (b : Breaker) (open_until_ms : N) (t : Task) : Task :=
  mkTask (tk_sub t) (tk_cancelled t) open_until_ms b (tk_chan t) (tk_flight t) (tk_todo t) (tk_done t).
(** The worker is returning: its receiver is closed and empty, and [todo] is all it still does. *)
Definition finished (todo : list Action) (t : Task) : Task :=
  mkTask (tk_sub t) (tk_cancelled t) (tk_open_until_ms t) (tk_breaker t) [] None todo true.

Record Dispatcher := mkDispatcher {
    dp_hooks : gmap string nat;
    dp_tasks : gmap nat Task;
    dp_queue : option RetryQueue;
    dp_calls : gmap nat (list Action);
    dp_authoritative : gset string;
    dp_hookless : gset string;
    dp_warned_no_hooks : gset string;
    dp_stop : bool
  }.
Definition with_queue (queue : option RetryQueue) : Dispatcher := mkDispatcher ∅ ∅ queue ∅ ∅ ∅ ∅ false.

Definition set_hooks (hooks : gmap string nat) (tasks : gmap nat Task) (d : Dispatcher) : Dispatcher :=
  mkDispatcher hooks tasks (dp_queue d) (dp_calls d) (dp_authoritative d) (dp_hookless d) (dp_warned_no_hooks d) (dp_stop d).
Definition set_tasks (tasks : gmap nat Task) (d : Dispatcher) : Dispatcher := set_hooks (dp_hooks d) tasks d.
Definition put_task (t : nat) (task : Task) (d : Dispatcher) : Dispatcher := set_tasks (<[t := task]> (dp_tasks d)) d.
Definition set_queue (queue : option RetryQueue) (d : Dispatcher) : Dispatcher :=
  mkDispatcher (dp_hooks d) (dp_tasks d) queue (dp_calls d) (dp_authoritative d) (dp_hookless d) (dp_warned_no_hooks d) (dp_stop d).
Definition on_queue (f : RetryQueue -> RetryQueue) (d : Dispatcher) : Dispatcher := set_queue (option_map f (dp_queue d)) d.
Definition set_calls (calls : gmap nat (list Action)) (d : Dispatcher) : Dispatcher :=
  mkDispatcher (dp_hooks d) (dp_tasks d) (dp_queue d) calls (dp_authoritative d) (dp_hookless d) (dp_warned_no_hooks d) (dp_stop d).
Definition set_repos (authoritative hookless warned : gset string) (stop : bool) (d : Dispatcher) : Dispatcher :=
  mkDispatcher (dp_hooks d) (dp_tasks d) (dp_queue d) (dp_calls d) authoritative hookless warned stop.

(** A call goes on outside the lock. *)
Definition start_call (l : list Action) (d : Dispatcher) : Dispatcher :=
  set_calls (<[fresh (dom (dp_calls d)) := l]> (dp_calls d)) d.

(** What is logged of a delivery's end. *)
Inductive Note := DeliveredNote (id : string) | QueuedNote (id : string) | DeadLetter (id : string).

Definition failure_of (sub : WebhookSub) (event : WebhookEvent Value) (error id : string) (claimed : bool) : Failure :=
  mkFailure id (ws_repo_id sub) (ws_hook_id sub) (we_event event) (we_source_doc_id event) (json_text (we_payload event)) error claimed.

Definition job_id (sub : WebhookSub) (j : Job) : string := delivery_id (ws_hook_id sub) (we_source_doc_id (jb_event j)).

(** One call of the durable queue, if there is one, and what is logged of it. *)
Definition call_queue (d : Dispatcher) (op : Op) : Dispatcher * list Note :=
  (on_queue (fun q => run_op q op) d,
   match op with
   | Fail_ f now count until =>
       [if is_some_and (dp_queue d) (fun q => (fail q f now count until).2) then QueuedNote (fa_id f) else DeadLetter (fa_id f)]
   | Succeeded id => [DeliveredNote id]
   | DropEntry id _ _ => [DeadLetter id]
   | _ => []
   end).

Definition key (sub : WebhookSub) : string := ws_repo_id sub +:+ ":" +:+ ws_hook_id sub.
Definition fresh_task (d : Dispatcher) : nat := fresh (dom (dp_tasks d)).

(** [sync]'s turn of one wanted hook. *)
Definition sync_one (d : Dispatcher) (w : string * WebhookSub) : Dispatcher :=
  match dp_hooks d !! w.1 with
  | Some t => set_tasks (alter (set_sub w.2) t (dp_tasks d)) d
  | None => set_hooks (<[w.1 := fresh_task d]> (dp_hooks d)) (<[fresh_task d := new_task w.2]> (dp_tasks d)) d
  end.

Definition wanted_hooks (subs : list WebhookSub) : gmap string WebhookSub :=
  foldl (fun m s => <[key s := s]> m) ∅ subs.

(** Dropping a hook's [HookWorker] cancels its task and closes the channel to it. *)
Definition retain_hooks (wanted : gmap string WebhookSub) (d : Dispatcher) : Dispatcher :=
  let gone := filter (fun '(k, _) => wanted !! k = None) (dp_hooks d) in
  set_hooks (filter (fun '(k, _) => is_Some (wanted !! k)) (dp_hooks d))
    (foldr (fun t => alter cancel t) (dp_tasks d) (map snd (map_to_list gone))) d.

(** [sync]'s last call: the entries of hooks that are gone are dropped. *)
Definition gone_entries (subs : list WebhookSub) (authoritative : gset string) : Action :=
  let live := map (fun s => (ws_repo_id s, ws_hook_id s)) subs in
  OnQueue (DropWhere (fun repo hook => bool_decide (repo ∈ authoritative) && negb (bool_decide ((repo, hook) ∈ live)))
    "hook removed or disabled").

Definition sync (d : Dispatcher) (subs : list WebhookSub) (authoritative : gset string) : Dispatcher :=
  let wanted := wanted_hooks subs in
  let d := retain_hooks wanted d in
  let d := set_repos authoritative (dp_hookless d) (dp_warned_no_hooks d) (dp_stop d) d in
  start_call [gone_entries subs authoritative] (foldl sync_one d (iter_order wanted)).

Definition set_hookless (d : Dispatcher) (repos : gset string) : Dispatcher :=
  set_repos (dp_authoritative d) repos (dp_warned_no_hooks d) (dp_stop d) d.

(** [Sender::try_send]: refused when the channel is full, or its receiver is gone. *)
Definition try_send (d : Dispatcher) (t : nat) (j : Job) : option Dispatcher :=
  task ← dp_tasks d !! t;
  if tk_done task || (QUEUE_PER_HOOK <=? length (tk_chan task))%nat then None
  else Some (put_task t (set_chan (tk_chan task ++ [j]) task) d).

(** [enqueue]'s turn of one hook: the dispatcher, the hooks whose channel refused the event, and
    whether the repository has a hook. *)
Definition enqueue_one (repo_id : string) (event : WebhookEvent Value) (acc : Dispatcher * list WebhookSub * bool) (t : nat) :
    Dispatcher * list WebhookSub * bool :=
  let '(d, overflow, has_hooks) := acc in
  match dp_tasks d !! t with
  | None => acc
  | Some task =>
      let of_repo := ws_repo_id (tk_sub task) == repo_id in
      if negb (of_repo && wants (tk_sub task) (we_event event)) then (d, overflow, has_hooks || of_repo)
      else
        match (if dp_stop d then None else try_send d t (mkJob event false)) with
        | Some d => (d, overflow, true)
        | None => (d, overflow ++ [tk_sub task], true)
        end
  end.

(** The failure recorded of an event whose hook's channel refused it. *)
Definition overflowed (stopping : bool) (event : WebhookEvent Value) (sub : WebhookSub) : Action :=
  OnQueue (fun now =>
    Fail_ (failure_of sub event (if stopping then "the relay was stopping" else "the hook's in-memory queue was full")
             (job_id sub (mkJob event false)) false) now false (Some now)).

Definition enqueue (d : Dispatcher) (repo_id : string) (event : WebhookEvent Value) : Dispatcher :=
  let stopping := dp_stop d in
  let '(d, overflow, has_hooks) := foldl (enqueue_one repo_id event) (d, [], false) (map snd (iter_order (dp_hooks d))) in
  start_call (map (overflowed stopping event) overflow ++ (if has_hooks then [] else [WarnHookless repo_id])) d.

Definition warn_hookless (d : Dispatcher) (repo_id : string) : Dispatcher :=
  if bool_decide (repo_id ∈ dp_hookless d) then d
  else set_repos (dp_authoritative d) (dp_hookless d) ({[repo_id]} ∪ dp_warned_no_hooks d) (dp_stop d) d.

Definition static_event_name (name : string) : option string := List.find (fun e => e == name) ALL_EVENTS.

(** Where a due retry would go: its hook's task, until when the hook's circuit is open, and whether
    the hook still wants the event. *)
Definition retry_target (d : Dispatcher) (e : Entry) : option (nat * N * bool) :=
  t ← dp_hooks d !! (en_repo_id e +:+ ":" +:+ en_hook_id e);
  task ← dp_tasks d !! t;
  Some (t, tk_open_until_ms task, wants (tk_sub task) (en_event e)).

(** [dispatch_retries], up to the due entries; their targets are looked up under the lock. *)
Definition dispatch_retries (d : Dispatcher) (now : N) : Dispatcher :=
  match dp_queue d with
  | None => d
  | Some q =>
      if dp_stop d then d
      else let '(q, listed) := due q now in start_call [Targets now listed] (set_queue (Some q) d)
  end.

(** [dispatch_retries]' turn of one due entry, up to its claim. *)
Definition retry_one (now : N) (authoritative : gset string) (d : Dispatcher) (e : Entry) (target : option (nat * N * bool)) :
    Dispatcher * list Action :=
  match target with
  | None =>
      (if bool_decide (en_repo_id e ∈ authoritative)
       then on_queue (fun q => run_op q (DropEntry (en_id e) "hook removed or disabled" now)) d else d, [])
  | Some (t, open_until, wanted) =>
      if (now <? open_until)%N then (on_queue (fun q => run_op q (Defer (en_id e) open_until)) d, [])
      else
        match opt_filter (fun _ => wanted) (static_event_name (en_event e)) with
        | None => (on_queue (fun q => run_op q (DropEntry (en_id e) "the hook no longer subscribes to this event" now)) d, [])
        | Some event_name =>
            if (QUEUE_PER_HOOK <=? default 0 (length ∘ tk_chan <$> dp_tasks d !! t))%nat then (d, [])
            else
              match dp_queue d with
              | None => (d, [])
              | Some q =>
                  match claim q (en_id e) with
                  | (q, None) => (set_queue (Some q) d, [])
                  | (q, Some raw) => (set_queue (Some q) d, [HandOver now e event_name t raw])
                  end
              end
        end
  end.

(** The claimed entry goes to its hook's worker. *)
Definition hand_over (now : N) (d : Dispatcher) (e : Entry) (event_name : string) (t : nat) (raw : string) : Dispatcher * list Action :=
  match json_parse raw with
  | inl err => (on_queue (fun q => run_op q (DropEntry (en_id e) ("unreadable body: " +:+ err) now)) d, [])
  | inr payload =>
      match try_send d t (mkJob (mkWebhookEvent _ event_name None payload (en_source_doc_id e)) true) with
      | Some d => (d, [])
      | None => (d, [OnQueue (fun _ => Release (en_id e))])
      end
  end.

(** One action of a call; it may leave others. The last two are the workers' own. *)
Definition perform (d : Dispatcher) (a : Action) (now : N) : Dispatcher * list Action * list Note :=
  match a with
  | OnQueue op => let '(d, notes) := call_queue d (op now) in (d, [], notes)
  | WarnHookless repo_id => (warn_hookless d repo_id, [], [])
  | Targets at_ listed => (d, map (fun e => RetryEntry at_ (dp_authoritative d) e (retry_target d e)) listed, [])
  | RetryEntry at_ authoritative e target => (retry_one at_ authoritative d e target, [])
  | HandOver at_ e event_name t raw => (hand_over at_ d e event_name t raw, [])
  | Begin _ _ _ | Break _ => (d, [a], [])
  end.

Definition proceed (d : Dispatcher) (c : nat) (now : N) : Dispatcher * list Note :=
  match dp_calls d !! c with
  | Some (a :: l) => let '(d, next, notes) := perform d a now in (set_calls (<[c := next ++ l]> (dp_calls d)) d, notes)
  | _ => (d, [])
  end.

(** *** A worker's turns *)

(** [drain_cancelled]: the claimed retries of [jobs] are released; nothing is delivered. *)
Definition drain_cancelled (jobs : list Job) (hook_id : string) : list Action :=
  map (fun j => OnQueue (fun _ => Release (delivery_id hook_id (we_source_doc_id (jb_event j))))) (List.filter jb_retry jobs).

(** [persist_backlog]'s turn of one job. *)
Definition persist_one (sub : WebhookSub) (now : N) (j : Job) : Action :=
  OnQueue (fun _ =>
    if jb_retry j then Release (job_id sub j)
    else Fail_ (failure_of sub (jb_event j) "the relay stopped before delivering it" (job_id sub j) false) now false (Some now)).

(** The task's backlog, behind [first], is taken, to be handed over, and the task ends. *)
Definition persist_backlog (task : Task) (first : option Job) (now : N) : Task :=
  let jobs := option_list first ++ tk_chan task in
  finished (if tk_cancelled task then drain_cancelled jobs (ws_hook_id (tk_sub task)) else map (persist_one (tk_sub task) now) jobs) task.

(** [record_outcome]'s call of the queue; [cancelled] is what it read before. *)
Definition record_outcome (cancelled : bool) (j : Job) (sub : WebhookSub) (result : RelayError + DeliveryReceipt) : Action :=
  let id := job_id sub j in
  OnQueue (fun now =>
    match result with
    | inr _ => Succeeded id
    | inl (Permanent m) => DropEntry id (relay_error_text (Permanent m)) now
    | inl e =>
        if cancelled then DropEntry id "hook removed or disabled" now
        else Fail_ (failure_of sub (jb_event j) (relay_error_text e) id (jb_retry j)) now
               (match e with DestinationBusy _ => false | _ => true end) None
    end).

(** Neither a busy destination nor a permanent failure moves the breaker. *)
Definition moves_breaker (result : RelayError + DeliveryReceipt) : bool :=
  match result with inl (DestinationBusy _ | Permanent _) => false | _ => true end.
Definition break_circuit (task : Task) (result : RelayError + DeliveryReceipt) (now : N) (instant : Instant) : Task :=
  if moves_breaker result then
    let ok := match result with inr _ => true | inl _ => false end in
    match record (tk_breaker task) ok instant with
    | (b, Some cool) => set_breaker b (sat_add_u64 now (ms cool)) task
    | (b, None) => set_breaker b (if ok then 0%N else tk_open_until_ms task) task
    end
  else task.

(** [run_hook], up to where it has read whether it is cancelled: an idle task takes its next job. *)
Definition wake (d : Dispatcher) (t : nat) (now : N) : Dispatcher :=
  match dp_tasks d !! t with
  | None => d
  | Some task =>
      match tk_flight task, tk_todo task with
      | None, [] =>
          if tk_done task then d
          else if dp_stop d then put_task t (persist_backlog task None now) d
          else
            match tk_chan task with
            | [] => if tk_cancelled task then put_task t (finished [] task) d else d
            | job :: chan =>
                if tk_cancelled task then put_task t (finished (drain_cancelled (job :: chan) (ws_hook_id (tk_sub task))) task) d
                else put_task t (set_todo [Begin now job (tk_sub task)] (set_chan chan task)) d
            end
      | _, _ => d
      end
  end.

(** From there to where the delivery starts. *)
Definition begin (d : Dispatcher) (task : Task) (at_ : N) (job : Job) (sub : WebhookSub) (instant : Instant) : Task :=
  let id := job_id sub job in
  let then_ a := set_todo (a :: tk_todo task) task in
  if jb_retry job && negb (is_some_and (dp_queue d) (fun q => is_pending (q_state q) id)) then then_ (OnQueue (fun _ => Release id))
  else if is_open (tk_breaker task) instant
  then
    let until := tk_open_until_ms task in
    then_ (OnQueue (fun _ => Fail_ (failure_of sub (jb_event job) "circuit open for this hook" id (jb_retry job)) at_ false (Some until)))
  else set_flight (Some (job, sub)) task.

(** The next thing a worker has to do, unless it waits for a delivery. *)
Definition act (d : Dispatcher) (t : nat) (now : N) (instant : Instant) : Dispatcher * list Note :=
  match dp_tasks d !! t with
  | None => (d, [])
  | Some task =>
      match (if tk_flight task is Some _ then [] else tk_todo task) with
      | OnQueue op :: todo => call_queue (put_task t (set_todo todo task) d) (op now)
      | Begin at_ job sub :: todo => (put_task t (begin d (set_todo todo task) at_ job sub instant) d, [])
      | Break result :: todo => (put_task t (break_circuit (set_todo todo task) result now instant) d, [])
      | _ => (d, [])
      end
  end.

(** [run_hook], from the delivery's result. *)
Definition finish (d : Dispatcher) (t : nat) (result : RelayError + DeliveryReceipt) : Dispatcher :=
  match dp_tasks d !! t with
  | Some task =>
      match tk_flight task, tk_todo task with
      | Some (job, sub), [] =>
          put_task t (set_todo [record_outcome (tk_cancelled task) job sub result; Break result] (set_flight None task)) d
      | _, _ => d
      end
  | None => d
  end.

(** The relay stops while a delivery is in flight: the attempt is abandoned. *)
Definition abandon (d : Dispatcher) (t : nat) (now : N) : Dispatcher :=
  match dp_tasks d !! t with
  | Some task =>
      match tk_flight task, tk_todo task with
      | Some (job, _), [] => if dp_stop d then put_task t (persist_backlog task (Some job) now) d else d
      | _, _ => d
      end
  | None => d
  end.

(** *** Runs *)

Inductive Step :=
  | Sync (subs : list WebhookSub) (authoritative : gset string)
  | SetHookless (repos : gset string)
  | Enqueue (repo_id : string) (event : WebhookEvent Value)
  | DispatchRetries (now : N)
  | Proceed (c : nat) (now : N)
  | Wake (t : nat) (now : N)
  | Act (t : nat) (now : N) (instant : Instant)
  | Finish (t : nat) (result : RelayError + DeliveryReceipt)
  | Abandon (t : nat) (now : N)
  | Shutdown
  | Writer (take_ : bool) (io : string -> bool).

Definition step (d : Dispatcher) (s : Step) : Dispatcher * list Note :=
  match s with
  | Sync subs authoritative => (sync d subs authoritative, [])
  | SetHookless repos => (set_hookless d repos, [])
  | Enqueue repo_id event => (enqueue d repo_id event, [])
  | DispatchRetries now => (dispatch_retries d now, [])
  | Proceed c now => proceed d c now
  | Wake t now => (wake d t now, [])
  | Act t now instant => act d t now instant
  | Finish t result => (finish d t result, [])
  | Abandon t now => (abandon d t now, [])
  | Shutdown => (set_repos (dp_authoritative d) (dp_hookless d) (dp_warned_no_hooks d) true d, [])
  | Writer take_ io => (on_queue (fun q => run_op q (if take_ then WriterTake else WriterApply io)) d, [])
  end.
Definition steps (d : Dispatcher) (l : list Step) : Dispatcher * list Note :=
  foldl (fun acc s => let '(d, notes) := step acc.1 s in (d, acc.2 ++ notes)) (d, []) l.
End dispatch.

(** ** Delivery ids *)

Section ids.
Context {Value : Type} `{services : Services Value} {laws : ServiceLaws services}.

Lemma bytes_str_app s t : bytes (s +:+ t) = bytes s ++ bytes t.
Proof. apply bytes_app. Qed.

Lemma slice_length from to s : to <= String.length s -> from <= to -> length (bytes (slice from to s)) = to - from.
Proof.
  intros Ht Hf. unfold slice. rewrite bytes_of_bytes, length_take, length_drop, length_bytes. lia.
Qed.

Lemma slice_forall p from to s : forallb p (bytes s) = true -> forallb p (bytes (slice from to s)) = true.
Proof.
  unfold slice. rewrite bytes_of_bytes, !forallb_forall. intros H x Hx%list_elem_of_In. apply H, list_elem_of_In.
  apply elem_of_take in Hx as (i & Hi & _). rewrite lookup_drop in Hi. by eapply list_elem_of_lookup_2.
Qed.

(** A delivery id has the shape the queue's files are read back by. *)
Lemma delivery_id_shaped hook_id doc : shaped (delivery_id hook_id doc) = true.
Proof.
  unfold shaped, delivery_id. set (h := hash16 _).
  assert (String.length h = 32) as Hl by apply hash16_length.
  assert (forallb is_hex_digit (bytes h) = true) as Hx by apply hash16_hex.
  set (p := fun c => is_hex_digit c || (c == "-"%char)).
  assert (forallb p (bytes h) = true) as Hp.
  { rewrite forallb_forall in Hx |- *. intros c Hc. unfold p. by rewrite Hx. }
  apply andb_true_iff. split.
  - apply Nat.eqb_eq. rewrite <-length_bytes, !bytes_app, !length_app, !slice_length by lia. done.
  - rewrite !bytes_app, !forallb_app, !slice_forall by done. done.
Qed.
End ids.

(** ** One delivery *)

Section delivery.
Context {Value : Type} `{services : Services Value}.

(** An answer that ends the attempts. *)
Definition ends_attempts (a : Attempt) : bool :=
  match a with Answer status => is_success status || gives_no_hope status | _ => false end.

Definition no_slot (a : Attempt) : bool := match a with NoSlot _ => true | _ => false end.

(** What [send] answers, by the attempts from [first] to [last] and whether one before them got a slot. *)
Definition sent_as (outcomes : N -> Attempt) (delivery : string) (first last : N) (sent : bool) (r : RelayError + DeliveryReceipt) : Prop :=
  match r with
  | inr receipt => exists i status, (first <= i <= last)%N /\ outcomes i = Answer status /\ is_success status = true
      /\ receipt = mkReceipt delivery status i /\ forall j, (first <= j < i)%N -> ends_attempts (outcomes j) = false
  | inl (Permanent _) => exists i status, (first <= i <= last)%N /\ outcomes i = Answer status /\ gives_no_hope status = true
      /\ forall j, (first <= j < i)%N -> ends_attempts (outcomes j) = false
  | inl (DestinationBusy _) => sent = false /\ forall i, (first <= i <= last)%N -> no_slot (outcomes i) = true
  | inl (DeliveryExhausted n _) => n = last /\ (forall i, (first <= i <= last)%N -> ends_attempts (outcomes i) = false)
      /\ (sent = true \/ exists i, (first <= i <= last)%N /\ no_slot (outcomes i) = false)
  | inl _ => False
  end.

Lemma success_has_hope status : is_success status = true -> gives_no_hope status = false.
Proof.
  unfold is_success, gives_no_hope, is_client_error. intros [_ H%N.ltb_lt]%andb_prop.
  destruct (N.leb_spec 400 status); [lia|done].
Qed.

Lemma send_from_spec n outcomes delivery : forall attempt sent reason,
  sent_as outcomes delivery attempt (attempt + N.of_nat n - 1)%N sent (send_from n outcomes delivery attempt sent reason) \/ attempt = 0%N.
Proof.
  induction n as [|n IH]; intros attempt sent reason; cbn [send_from].
  { destruct (decide (attempt = 0%N)); [by right|left].
    destruct sent; simpl; [|split; [done|intros i; lia]]. split; [lia|]. split; [intros i; lia|by left]. }
  destruct (decide (attempt = 0%N)); [by right|left].
  replace (attempt + N.of_nat (S n) - 1)%N with (attempt + 1 + N.of_nat n - 1)%N by lia. cbv zeta.
  assert (forall sent' reason', ends_attempts (outcomes attempt) = false ->
    (no_slot (outcomes attempt) = true -> sent' = sent) -> (no_slot (outcomes attempt) = false -> sent' = true) ->
    sent_as outcomes delivery attempt (attempt + 1 + N.of_nat n - 1)%N sent (send_from n outcomes delivery (attempt + 1)%N sent' reason')) as Hnext.
  { intros sent' reason' He Hslot Hno. destruct (IH (attempt + 1)%N sent' reason') as [H|?]; [|lia].
    assert (forall P : N -> Prop, P attempt -> (forall j, (attempt + 1 <= j)%N -> P j) -> forall j, (attempt <= j)%N -> P j) as Hsplit.
    { intros P H0 H1 j Hj. destruct (decide (j = attempt)) as [->|]; [done|]. apply H1. lia. }
    destruct (send_from n outcomes delivery (attempt + 1)%N sent' reason') as [[m|m|m|k m|m|m|m|m|m|m]|receipt]; simpl in *; try done.
    - destruct H as (-> & Hall & Hs). split; [done|]. split.
      + intros i Hi. destruct (decide (i = attempt)) as [->|]; [done|]. apply Hall. lia.
      + destruct Hs as [->|(i & Hi & Hn)]; [|right; exists i; split; [lia|done]].
        destruct (no_slot (outcomes attempt)) eqn:E; [left; symmetry; by apply Hslot|right; exists attempt; split; [lia|done]].
    - destruct H as (i & status & Hi & Ho & Hh & Hb). exists i, status. split_and!; [lia|lia|done|done|].
      intros j Hj. destruct (decide (j = attempt)) as [->|]; [done|]. apply Hb. lia.
    - destruct H as (-> & Hall). destruct (no_slot (outcomes attempt)) eqn:E; [|by specialize (Hno eq_refl)].
      split; [symmetry; by apply Hslot|]. intros i Hi. destruct (decide (i = attempt)) as [->|]; [done|]. apply Hall. lia.
    - destruct H as (i & status & Hi & Ho & Hok & -> & Hb). exists i, status. split_and!; [lia|lia|done|done|done|].
      intros j Hj. destruct (decide (j = attempt)) as [->|]; [done|]. apply Hb. lia. }
  destruct (outcomes attempt) as [m|status|m] eqn:Eo.
  - by apply Hnext.
  - destruct (is_success status) eqn:Es; [|destruct (gives_no_hope status) eqn:Eh].
    + exists attempt, status. split_and!; [lia|lia|done|done|done|]. intros j. lia.
    + exists attempt, status. split_and!; [lia|lia|done|done|]. intros j. lia.
    + apply Hnext; simpl; [by rewrite Es, Eh|done|done].
  - by apply Hnext.
Qed.

(** A delivery succeeds at the first answer that is a success, is given up at the first that is a
    client error other than 408 and 429, whichever comes first, and otherwise uses every attempt;
    only then, and only when none of them got a slot, is the destination called busy. *)
Theorem send_spec max_attempts outcomes hook_id (event : WebhookEvent Value) :
  sent_as outcomes (delivery_id hook_id (we_source_doc_id event)) 1%N (N.of_nat max_attempts) false
    (send max_attempts outcomes hook_id event).
Proof.
  unfold send. destruct (send_from_spec max_attempts outcomes (delivery_id hook_id (we_source_doc_id event)) 1%N false "") as [H|?]; [|done].
  by replace (1 + N.of_nat max_attempts - 1)%N with (N.of_nat max_attempts) in H by lia.
Qed.
End delivery.

(** ** The breaker *)

(** The breaker after a run of failures at the given times. *)
Definition failing (times : list Instant) : Breaker := foldl (fun b now => (record b false now).1) Breaker_default times.

(** Every third failure in a row opens the circuit, for a minute, then twice as long each time, and
    never for longer than an hour; a success closes it. *)
Lemma breaker_counts times :
  br_failures (failing times) = (N.of_nat (length times) mod 3)%N /\ br_opens (failing times) = (N.of_nat (length times) / 3)%N.
Proof.
  unfold failing. induction times as [|now times IH] using rev_ind; [done|].
  rewrite foldl_app, length_app. simpl. set (b := foldl _ _ _) in *. destruct IH as [Hf Ho]. unfold record. rewrite Hf.
  pose proof (N.mod_upper_bound (N.of_nat (length times)) 3 ltac:(done)) as Hm.
  pose proof (N.div_mod (N.of_nat (length times)) 3 ltac:(done)) as Hd.
  unfold BREAKER_THRESHOLD. set (n := N.of_nat (length times)) in *.
  replace (N.of_nat (length times + 1)) with (n + 1)%N by lia.
  destruct (N.ltb_spec (n mod 3 + 1) 3) as [Hlt|Hge]; simpl; rewrite Ho.
  - split; [apply (N.mod_unique _ _ (n / 3)); lia|apply (N.div_unique _ _ _ (n mod 3 + 1)); lia].
  - split; [apply (N.mod_unique _ _ (n / 3 + 1)); lia|apply (N.div_unique _ _ _ 0); lia].
Qed.

Lemma cool_down_bounds b : (BREAKER_BASE <= cool_down b <= BREAKER_MAX)%N.
Proof.
  unfold cool_down. rewrite N.shiftl_1_l. unfold BREAKER_BASE, BREAKER_MAX, from_secs.
  pose proof (N.pow_nonzero 2 (N.min (br_opens b) 10) ltac:(done)). nia.
Qed.

(** ** The workers, the calls and the claims of the queue *)

(** No colon: a repository id is base58, so the key of a hook is one of it alone. *)
Definition no_colon (s : string) : bool := forallb (fun c => negb (c == ":"%char)) (bytes s).

Lemma key_inj r h r' h' : no_colon r = true -> no_colon r' = true -> r +:+ ":" +:+ h = r' +:+ ":" +:+ h' -> r = r' /\ h = h'.
Proof.
  unfold no_colon. intros Hr Hr' E. apply (f_equal bytes) in E. rewrite !bytes_app in E. simpl in E.
  assert (forall x, forallb (fun c => negb (c == ":"%char)) (bytes x) = true -> ":"%char ∉ bytes x) as Hno.
  { intros x Hx Hin. rewrite forallb_forall in Hx. specialize (Hx ":"%char (proj1 (list_elem_of_In _ _) Hin)). by rewrite bool_decide_true in Hx. }
  apply app_sep_inj in E as [E1%Prelude.bytes_inj E2%Prelude.bytes_inj]; auto.
Qed.

Section workers.
Context {Value : Type} `{services : Services Value} `{codec : Codec} `{order : HashOrder}.
Abbreviation Dispatcher := (Dispatcher (Value := Value)).
Abbreviation Task := (Task (Value := Value)).
Abbreviation Action := (Action (Value := Value)).

(** Hooks, by repository and id. *)
Abbreviation Hooks := (string -> string -> Prop).

(** An entry the dispatcher made: its id is that of its hook and document. *)
Definition fits_entry (e : Entry) : Prop := en_id e = delivery_id (en_hook_id e) (en_source_doc_id e) /\ no_colon (en_repo_id e) = true.
Definition own_entry (P : Hooks) (e : Entry) : Prop := fits_entry e /\ P (en_repo_id e) (en_hook_id e).
Definition sub_ok (P : Hooks) (sub : WebhookSub) : Prop := no_colon (ws_repo_id sub) = true /\ P (ws_repo_id sub) (ws_hook_id sub).

(** The claims an operation other than a claim ends. *)
Definition freed (op : Op) : gset string :=
  match op with
  | Fail_ f _ _ _ => if fa_claimed f then {[fa_id f]} else ∅
  | Succeeded i | DropEntry i _ _ | Release i => {[i]}
  | _ => ∅
  end.
Definition makes_own (P : Hooks) (op : Op) : Prop :=
  match op with
  | Fail_ f _ _ _ => fa_id f = delivery_id (fa_hook_id f) (fa_source_doc_id f) /\ no_colon (fa_repo_id f) = true
               /\ P (fa_repo_id f) (fa_hook_id f)
  | _ => True
  end.

Definition ended (cl : bool) (id : string) : gset string := if cl then {[id]} else ∅.

(** The claims an action ends, or hands over. *)
Definition frees (a : Action) : gset string :=
  match a with
  | OnQueue op => freed (op 0%N)
  | HandOver _ e _ _ _ => {[en_id e]}
  | Begin _ j sub => ended (jb_retry j) (job_id sub j)
  | _ => ∅
  end.

(** The claims a worker has to end: those of the retries in its channel and in flight, and those it
    is about to. *)
Definition task_owes (t : Task) (id : string) : Prop :=
  (exists j, j ∈ tk_chan t /\ jb_retry j = true /\ job_id (tk_sub t) j = id)
  \/ (exists j sub, tk_flight t = Some (j, sub) /\ jb_retry j = true /\ job_id sub j = id)
  \/ exists a, a ∈ tk_todo t /\ id ∈ frees a.
Definition task_held (d : Dispatcher) (id : string) : Prop := exists t task, dp_tasks d !! t = Some task /\ task_owes task id.
Definition owes (d : Dispatcher) (id : string) : Prop :=
  task_held d id
  \/ exists c l a, dp_calls d !! c = Some l /\ a ∈ l /\ id ∈ frees a.

Definition claimed (o : option RetryQueue) : gset string := from_option (fun q => st_claimed (q_state q)) ∅ o.

(** A sound queue of entries the dispatcher made. *)
Definition queue_ok (P : Hooks) (o : option RetryQueue) : Prop :=
  forall q, o = Some q -> sound q /\ forall i e, pend q !! i = Some e -> own_entry P e.

Definition hook_of (d : Dispatcher) (t : nat) : option string := (fun task => ws_hook_id (tk_sub task)) <$> dp_tasks d !! t.
Definition same_hooks (d d' : Dispatcher) : Prop := forall t h, hook_of d t = Some h -> hook_of d' t = Some h.

Definition action_ok (P : Hooks) (d : Dispatcher) (a : Action) : Prop :=
  match a with
  | OnQueue op => forall now, makes_own P (op now) /\ (forall i, op now <> Claim i) /\ freed (op now) = freed (op 0%N)
  | Targets _ listed => Forall fits_entry listed
  | RetryEntry _ _ e target => fits_entry e /\ forall t o w, target = Some (t, o, w) -> hook_of d t = Some (en_hook_id e)
  | HandOver _ e _ t _ => fits_entry e /\ hook_of d t = Some (en_hook_id e)
  | Begin _ _ sub => sub_ok P sub
  | WarnHookless _ | Break _ => True
  end.

(** A worker's deliveries, in flight or about to be, are of its own hook. *)
Definition begun (t : Task) (j : Job) (sub : WebhookSub) : Prop :=
  tk_flight t = Some (j, sub) \/ exists now, Begin now j sub ∈ tk_todo t.
Definition task_ok (t : Task) : Prop :=
  no_colon (ws_repo_id (tk_sub t)) = true
  /\ forall j sub, begun t j sub -> ws_hook_id sub = ws_hook_id (tk_sub t) /\ ws_repo_id sub = ws_repo_id (tk_sub t).
Definition live_ok (P : Hooks) (t : Task) : Prop := tk_cancelled t = false -> P (ws_repo_id (tk_sub t)) (ws_hook_id (tk_sub t)).

(** Every hook's task is there, under the hook's key. *)
Record workers_ok (P : Hooks) (d : Dispatcher) : Prop := mkWorkersOk {
    wo_tasks : forall t task, dp_tasks d !! t = Some task -> task_ok task /\ live_ok P task;
    wo_hooks : forall k t, dp_hooks d !! k = Some t ->
      exists task, dp_tasks d !! t = Some task /\ key (tk_sub task) = k /\ tk_cancelled task = false;
    wo_live : forall t task, dp_tasks d !! t = Some task -> tk_cancelled task = false -> dp_hooks d !! key (tk_sub task) = Some t
  }.

(** What every run keeps, with live workers of the hooks of [W], and entries and writes of those of [Q]. *)
Record disp_ok (W Q : Hooks) (d : Dispatcher) : Prop := mkDispOk {
    do_queue : queue_ok Q (dp_queue d);
    do_workers : workers_ok W d;
    do_todo : forall t task a, dp_tasks d !! t = Some task -> a ∈ tk_todo task -> action_ok Q d a;
    do_calls : forall c l a, dp_calls d !! c = Some l -> a ∈ l -> action_ok Q d a;
    do_claims : forall id, id ∈ claimed (dp_queue d) -> owes d id
  }.

(** The subscriptions are of Platform repositories. *)
Definition step_ok (P : Hooks) (s : Step (Value := Value)) : Prop :=
  match s with Sync subs _ => Forall (sub_ok P) subs | _ => True end.

(** *** Operations of the queue *)

Lemma own_origin P e e0 : en_id e = en_id e0 -> origin e = origin e0 -> own_entry P e0 -> own_entry P e.
Proof. unfold origin, own_entry, fits_entry. intros -> [= -> -> _ -> _]. done. Qed.

Lemma run_op_ok P q op : sound q -> (forall i e, pend q !! i = Some e -> own_entry P e) -> makes_own P op ->
  sound (run_op q op) /\ forall i e, pend (run_op q op) !! i = Some e -> own_entry P e.
Proof.
  intros Hq Hown Hop. destruct (run_op_sound q op Hq) as (Hs & _ & _). split; [done|]. intros i e He.
  destruct (op_entries q op Hq) as [_ Hent].
  assert (forall x (y : RetryQueue), sound y -> pend y !! i = Some x -> en_id x = i) as Hid.
  { intros x y Hy [Hx _]%held_Some. by apply (ix_keyed _ (gd_indexed _ (so_good _ Hy))). }
  pose proof (Hid _ _ Hs He) as Ei. apply Hent in He as [(e0 & He0 & Ho)|(f & now & cnt & until & -> & -> & Ho)].
  - apply (own_origin P e e0); [by rewrite Ei, (Hid _ _ Hq He0)|done|eauto].
  - destruct Hop as (H1 & H2 & H3). unfold own_entry, fits_entry. unfold origin, fa_origin in Ho. injection Ho as -> -> _ -> _. by rewrite Ei.
Qed.

Lemma op_queue_ok P o op : queue_ok P o -> makes_own P op -> queue_ok P (option_map (fun q => run_op q op) o).
Proof. intros Ho Hop q'. destruct o as [q|]; [|done]. intros [= <-]. destruct (Ho q eq_refl). by apply run_op_ok. Qed.

Lemma op_claims P o op : queue_ok P o -> (forall i, op <> Claim i) ->
  claimed (option_map (fun q => run_op q op) o) ⊆ claimed o ∖ freed op.
Proof.
  intros Ho Hc. destruct o as [q|]; [|set_solver]. destruct (Ho q eq_refl) as [Hq _]. simpl. rewrite run_op_claimed by done.
  destruct op; cbn [claims_after freed]; try set_solver. destruct (fa_claimed f); set_solver.
Qed.

(** *** Changes of the dispatcher *)

Lemma same_hooks_refl (d d' : Dispatcher) : dp_tasks d' = dp_tasks d -> same_hooks d d'.
Proof. intros E t h. unfold hook_of. by rewrite E. Qed.

Lemma same_hooks_put d t task task' : dp_tasks d !! t = Some task -> tk_sub task' = tk_sub task -> same_hooks d (put_task t task' d).
Proof.
  intros Ht Hs t' h. unfold hook_of. simpl. destruct (decide (t' = t)) as [->|Hne].
  - rewrite lookup_insert_eq, Ht. simpl. by rewrite Hs.
  - by rewrite lookup_insert_ne.
Qed.

Lemma action_kept P d d' a : same_hooks d d' -> action_ok P d a -> action_ok P d' a.
Proof. intros Hs. destruct a; simpl; [done|done|done| | |done|done]; intros [H1 H2]; split; eauto. Qed.

(** The same worker, of the same subscription. *)
Definition same_worker (task task' : Task) : Prop := tk_sub task' = tk_sub task /\ tk_cancelled task' = tk_cancelled task.

Lemma workers_put P d t task task' : workers_ok P d -> dp_tasks d !! t = Some task -> same_worker task task' -> task_ok task' ->
  workers_ok P (put_task t task' d).
Proof.
  intros [Wt Wh Wl] Ht [Hsub Hcan] Hok. constructor; simpl.
  - intros t' x [[<- <-]|[_ Hx]]%lookup_insert_Some; [|eauto]. split; [done|]. unfold live_ok. rewrite Hsub, Hcan. by apply (Wt t task).
  - intros k t' Hk. destruct (Wh k t' Hk) as (x & Hx & <- & Hxc). destruct (decide (t' = t)) as [->|Hne].
    + rewrite Ht in Hx. injection Hx as <-. exists task'. rewrite lookup_insert_eq. split_and!; [done|by rewrite Hsub|by rewrite Hcan].
    + exists x. by rewrite lookup_insert_ne.
  - intros t' x [[<- <-]|[_ Hx]]%lookup_insert_Some Hc; [rewrite Hsub; apply Wl; [done|congruence]|eauto].
Qed.

Lemma workers_same P (d d' : Dispatcher) : dp_hooks d' = dp_hooks d -> dp_tasks d' = dp_tasks d -> workers_ok P d -> workers_ok P d'.
Proof. intros Eh Et [Wt Wh Wl]. constructor; rewrite ?Eh, Et; done. Qed.

(** One task changed, claims ended in the queue. *)
Lemma disp_put W Q ids o d t task task' : disp_ok W Q d -> dp_tasks d !! t = Some task -> same_worker task task' -> task_ok task' ->
  (forall a, a ∈ tk_todo task' -> a ∈ tk_todo task \/ action_ok Q (put_task t task' d) a) ->
  (forall id, task_owes task id -> (id ∈ ids) \/ task_owes task' id) ->
  queue_ok Q o -> claimed o ⊆ claimed (dp_queue d) ∖ ids -> disp_ok W Q (set_queue o (put_task t task' d)).
Proof.
  intros [_ Hw Ht Hc Hcl] Htask Hsame Hok Htodo Howes Hqok Hids.
  pose proof (same_hooks_put d t task task' Htask (proj1 Hsame)) as Hs. constructor; simpl.
  - done.
  - eapply (workers_same _ (put_task t task' d)); [done..|]. by eapply workers_put.
  - intros t' x a [[<- <-]|[_ Hx]]%lookup_insert_Some Ha; (eapply (action_kept _ (put_task t task' d)); [by apply same_hooks_refl|]).
    + destruct (Htodo a Ha) as [Ha'|?]; [|done]. eapply action_kept; [exact Hs|eauto].
    + eapply action_kept; [exact Hs|eauto].
  - intros c l a Hcall Ha. eapply (action_kept _ d); [|eauto]. exact Hs.
  - intros id Hid%Hids. apply elem_of_difference in Hid as [Hid Hn]. destruct (Hcl id Hid) as [(t0 & x & Hx & Hin)|?]; [|by right].
    left. simpl. destruct (decide (t0 = t)) as [->|Hne].
    + rewrite Htask in Hx. injection Hx as <-. destruct (Howes _ Hin) as [?|Hin']; [done|]. exists t, task'. simpl. by rewrite lookup_insert_eq.
    + exists t0, x. simpl. by rewrite lookup_insert_ne.
Qed.

Lemma set_queue_same (d : Dispatcher) : set_queue (dp_queue d) d = d.
Proof. by destruct d. Qed.

Lemma disp_put_only W Q d t task task' : disp_ok W Q d -> dp_tasks d !! t = Some task -> same_worker task task' -> task_ok task' ->
  (forall a, a ∈ tk_todo task' -> a ∈ tk_todo task \/ action_ok Q (put_task t task' d) a) ->
  (forall id, task_owes task id -> task_owes task' id) -> disp_ok W Q (put_task t task' d).
Proof.
  intros Hd Ht Hs Hok Htodo Ho. rewrite <-(set_queue_same (put_task t task' d)).
  eapply (disp_put W Q ∅); [done..| |apply Hd|simpl; set_solver]. auto.
Qed.

(** One call gone on, claims ended in the queue or taken over by it. *)
Lemma disp_call W Q ids o d c l l' : disp_ok W Q d -> dp_calls d !! c = Some l ->
  (forall a, a ∈ l' -> a ∈ l \/ action_ok Q d a) ->
  (forall id a, a ∈ l -> id ∈ frees a -> (id ∈ ids) \/ (exists a', a' ∈ l' /\ id ∈ frees a') \/ task_held d id) ->
  queue_ok Q o -> (forall id, id ∈ claimed o -> id ∈ claimed (dp_queue d) ∖ ids \/ exists a, a ∈ l' /\ id ∈ frees a) ->
  disp_ok W Q (set_calls (<[c := l']> (dp_calls d)) (set_queue o d)).
Proof.
  intros [_ Hw Ht Hc Hcl] Hl Hl' Hfrees Hqok Hids. constructor; simpl.
  - done.
  - by eapply (workers_same _ d).
  - intros t x a Hx Ha. eapply (action_kept _ d); [by apply same_hooks_refl|eauto].
  - intros c' x a [[<- <-]|[_ Hx]]%lookup_insert_Some Ha; (eapply (action_kept _ d); [by apply same_hooks_refl|]); [|eauto].
    destruct (Hl' a Ha) as [?|?]; [eauto|done].
  - intros id [Hid|(a & Ha & Hid)]%Hids; [|right; exists c, l', a; simpl; by rewrite lookup_insert_eq].
    apply elem_of_difference in Hid as [Hid Hn]. destruct (Hcl id Hid) as [?|(c0 & x & a & Hx & Ha & Hin)]; [by left|].
    destruct (decide (c0 = c)) as [->|Hne].
    + rewrite Hl in Hx. injection Hx as <-. destruct (Hfrees _ _ Ha Hin) as [?|[(a' & Ha' & Hin')|?]]; [done|right|by left].
      exists c, l', a'. simpl. by rewrite lookup_insert_eq.
    + right. exists c0, x, a. simpl. by rewrite lookup_insert_ne.
Qed.

Lemma start_call_ok W Q d l : disp_ok W Q d -> Forall (action_ok Q d) l -> disp_ok W Q (start_call l d).
Proof.
  intros [Hq Hw Ht Hc Hcl] Hl. unfold start_call. set (c := fresh _).
  assert (dp_calls d !! c = None) as Hc0 by apply not_elem_of_dom, is_fresh. constructor; simpl.
  - done.
  - by eapply (workers_same _ d).
  - intros t x a Hx Ha. eapply (action_kept _ d); [by apply same_hooks_refl|eauto].
  - intros c' x a [[<- <-]|[_ Hx]]%lookup_insert_Some Ha; (eapply (action_kept _ d); [by apply same_hooks_refl|]); [|eauto].
    rewrite Forall_forall in Hl. auto.
  - intros id [?|(c0 & x & a & Hx & Ha & Hin)]%Hcl; [by left|right]. exists c0, x, a. simpl. rewrite lookup_insert_ne; [done|]. congruence.
Qed.

(** *** Steps of one task *)

Context (W Q : Hooks) (allowed : forall r h, W r h -> Q r h).

Lemma live_sub_ok d t task : disp_ok W Q d -> dp_tasks d !! t = Some task -> tk_cancelled task = false -> sub_ok Q (tk_sub task).
Proof. intros Hd Ht Hc. destruct (wo_tasks _ _ (do_workers _ _ _ Hd) _ _ Ht) as [[Hn _] Hl]. split; [done|]. by apply allowed, Hl. Qed.

Lemma finished_ok todo (task : Task) : task_ok task -> (forall now j sub, Begin now j sub ∉ todo) -> task_ok (finished todo task).
Proof. intros [H _] Hn. split; [done|]. intros j sub [?|[now Hin]]; [done|]. by apply Hn in Hin. Qed.

Lemma elem_of_drain jobs hook_id a : a ∈ drain_cancelled jobs hook_id <->
  exists j, j ∈ jobs /\ jb_retry j = true /\ a = OnQueue (fun _ => Release (delivery_id hook_id (we_source_doc_id (jb_event j)))).
Proof.
  unfold drain_cancelled. rewrite list_elem_of_In, in_map_iff. setoid_rewrite filter_In. setoid_rewrite <-list_elem_of_In. naive_solver.
Qed.

Lemma elem_of_persist sub now jobs a : a ∈ map (persist_one sub now) jobs <-> exists j, j ∈ jobs /\ a = persist_one sub now j.
Proof. rewrite list_elem_of_In, in_map_iff. setoid_rewrite <-list_elem_of_In. naive_solver. Qed.

(** A task that ends hands over all it owes. *)
Lemma drain_ok d t task jobs : disp_ok W Q d -> dp_tasks d !! t = Some task ->
  (forall id, task_owes task id -> exists j, j ∈ jobs /\ jb_retry j = true /\ job_id (tk_sub task) j = id) ->
  disp_ok W Q (put_task t (finished (drain_cancelled jobs (ws_hook_id (tk_sub task))) task) d).
Proof.
  intros Hd Ht Howes. eapply disp_put_only; [done|done|done| | |].
  - apply finished_ok; [by apply (wo_tasks _ _ (do_workers _ _ _ Hd) _ _ Ht)|]. intros now j sub (x & _ & _ & [=])%elem_of_drain.
  - intros a (j & _ & _ & ->)%elem_of_drain. right. by intros now.
  - intros id (j & Hj & Hr & <-)%Howes. right; right. eexists. split; [by apply elem_of_drain; exists j|]. simpl. set_solver.
Qed.

Lemma persist_ok d t task first now : disp_ok W Q d -> dp_tasks d !! t = Some task -> tk_todo task = [] ->
  (forall j sub, tk_flight task = Some (j, sub) -> first = Some j) -> disp_ok W Q (put_task t (persist_backlog task first now) d).
Proof.
  intros Hd Ht Htodo Hfirst. destruct (wo_tasks _ _ (do_workers _ _ _ Hd) _ _ Ht) as [Hok Hlive].
  assert (forall id, task_owes task id -> exists j, j ∈ option_list first ++ tk_chan task /\ jb_retry j = true /\ job_id (tk_sub task) j = id) as Howes.
  { intros id [(j & Hj & Hr & Hid)|[(j & sub & Hf & Hr & Hid)|(a & Ha & _)]].
    - exists j. split; [|done]. rewrite elem_of_app. by right.
    - exists j. rewrite (Hfirst _ _ Hf). split; [by left|]. split; [done|]. unfold job_id in *.
      rewrite <-(proj1 (proj2 Hok _ _ (or_introl Hf))). done.
    - rewrite Htodo in Ha. by apply not_elem_of_nil in Ha. }
  unfold persist_backlog. destruct (tk_cancelled task) eqn:Ecan; [by apply drain_ok|].
  pose proof (live_sub_ok _ _ _ Hd Ht Ecan) as Hsub. eapply disp_put_only; [done|done|done| | |].
  - apply finished_ok; [done|]. intros at_ j sub (x & _ & [=])%elem_of_persist.
  - intros a (j & _ & ->)%elem_of_persist. right. intros at_. destruct (jb_retry j); [done|]. split; [|done]. by split.
  - intros id (j & Hj & Hr & <-)%Howes. right; right. eexists. split; [by apply elem_of_persist; exists j|]. simpl. rewrite Hr. simpl. set_solver.
Qed.

Lemma wake_ok d t now : disp_ok W Q d -> disp_ok W Q (wake d t now).
Proof.
  intros Hd. unfold wake. destruct (dp_tasks d !! t) as [task|] eqn:Ht; [|done].
  destruct (wo_tasks _ _ (do_workers _ _ _ Hd) _ _ Ht) as [Hok Hlive].
  destruct (tk_flight task) eqn:Hfl; [done|]. destruct (tk_todo task) eqn:Htodo; [|done]. destruct (tk_done task); [done|].
  destruct (dp_stop d); [by apply persist_ok; [..|congruence]|].
  assert (forall id, task_owes task id -> exists j, j ∈ tk_chan task /\ jb_retry j = true /\ job_id (tk_sub task) j = id) as Howes.
  { intros id [?|[(j & sub & E & _)|(a & Ha & _)]]; [done|congruence|]. rewrite Htodo in Ha. by apply not_elem_of_nil in Ha. }
  destruct (tk_chan task) as [|job chan] eqn:Ec.
  { destruct (tk_cancelled task); [|done]. by apply (drain_ok d t task []). }
  destruct (tk_cancelled task) eqn:Ecan; [by apply drain_ok|].
  eapply disp_put_only; [done|done|done| | |].
  - destruct Hok as [Hn _]. split; [done|]. intros j sub [E|[at_ Hin]]; [simpl in E; congruence|]. simpl in Hin.
    apply list_elem_of_singleton in Hin. by injection Hin as _ _ ->.
  - intros a ->%list_elem_of_singleton. right. simpl. by eapply live_sub_ok.
  - intros id (j & [->|Hj]%elem_of_cons & Hr & <-)%Howes; [|left; by exists j].
    right; right. eexists. split; [by left|]. simpl. rewrite Hr. simpl. set_solver.
Qed.

Lemma break_circuit_same (task : Task) result now instant : let task' := break_circuit task result now instant in
  same_worker task task' /\ tk_chan task' = tk_chan task /\ tk_flight task' = tk_flight task /\ tk_todo task' = tk_todo task.
Proof.
  unfold break_circuit. destruct (moves_breaker result); [|done]. by destruct (record _ _ _) as [b [cool|]].
Qed.

(** What a task still owes when the first thing it had to do is done. *)
Lemma owes_rest (task : Task) a todo id : tk_todo task = a :: todo -> task_owes task id -> id ∈ frees a \/ task_owes (set_todo todo task) id.
Proof.
  intros Ht [?|[?|(b & Hb & Hin)]]; [by right; left|by right; right; left|]. rewrite Ht in Hb.
  apply elem_of_cons in Hb as [->|Hb]; [by left|right]. right; right. by exists b.
Qed.

Lemma rest_ok (task : Task) a todo : tk_todo task = a :: todo -> task_ok task -> task_ok (set_todo todo task).
Proof. intros Ht [Hn Hb]. split; [done|]. intros j sub [Hf|[now Hin]]; apply (Hb j sub); [by left|right]. exists now. rewrite Ht. by right. Qed.

Lemma begin_ok d t task at_ job sub todo instant : disp_ok W Q d -> dp_tasks d !! t = Some task -> tk_todo task = Begin at_ job sub :: todo ->
  tk_flight task = None -> disp_ok W Q (put_task t (begin d (set_todo todo task) at_ job sub instant) d).
Proof.
  intros Hd Ht Htodo Hfl. destruct (wo_tasks _ _ (do_workers _ _ _ Hd) _ _ Ht) as [Hok Hlive].
  pose proof (rest_ok _ _ _ Htodo Hok) as Hok'.
  assert (sub_ok Q sub) as Hsub by (apply (do_todo _ _ _ Hd t task (Begin at_ job sub)); [done|rewrite Htodo; by left]).
  assert (forall a, (forall now j s, a <> Begin now j s) -> action_ok Q (put_task t (set_todo (a :: todo) task) d) a ->
    ended (jb_retry job) (job_id sub job) ⊆ frees a -> disp_ok W Q (put_task t (set_todo (a :: todo) task) d)) as Hthen.
  { intros a Hne Ha Hfrees. eapply disp_put_only; [done|done|done| | |].
    - split; [apply Hok'|]. intros j s [E|[now Hin]]; [by apply (proj2 Hok' j s); left|]. simpl in Hin. apply elem_of_cons in Hin as [E|Hin].
      + by destruct (Hne now j s).
      + apply (proj2 Hok' j s). right. by exists now.
    - intros b [->|Hb]%elem_of_cons; [by right|left]. rewrite Htodo. by right.
    - intros id [Hin|[?|[?|(b & Hb & Hin)]]]%(owes_rest task _ _ id Htodo); [|by left|by right; left|].
      + right; right. exists a. split; [by left|]. by apply Hfrees.
      + right; right. exists b. split; [by right|done]. }
  unfold begin. destruct (jb_retry job && _) eqn:Er.
  - apply Hthen; [done|by intros now|]. apply andb_prop in Er as [-> _]. done.
  - destruct (is_open _ _).
    + apply Hthen; [done|intros now; split; [by split; [|apply Hsub]|done]|]. simpl. by destruct (jb_retry job).
    + eapply disp_put_only; [done|done|done| | |].
      * split; [apply Hok'|]. intros j s [[= <- <-]|Hb]; [|apply (proj2 Hok' j s); by right]. apply (proj2 Hok job sub). right. exists at_. rewrite Htodo. by left.
      * intros b Hb. left. simpl in Hb. rewrite Htodo. by right.
      * intros id [Hin|[?|[(j & s & E & _)|?]]]%(owes_rest task _ _ id Htodo).
        -- right; left. exists job, sub. split; [done|]. unfold frees, ended in Hin. destruct (jb_retry job); set_solver.
        -- by left.
        -- simpl in E. congruence.
        -- by right; right.
Qed.

Lemma act_ok d t now instant : disp_ok W Q d -> disp_ok W Q (act d t now instant).1.
Proof.
  intros Hd. unfold act. destruct (dp_tasks d !! t) as [task|] eqn:Ht; [|done]. destruct (tk_flight task) eqn:Hfl; [done|].
  destruct (wo_tasks _ _ (do_workers _ _ _ Hd) _ _ Ht) as [Hok Hlive].
  destruct (tk_todo task) as [|a todo] eqn:Htodo; [done|].
  assert (action_ok Q d a) as Ha by (apply (do_todo _ _ _ Hd t task a); [done|rewrite Htodo; by left]).
  pose proof (rest_ok _ _ _ Htodo Hok) as Hok'.
  assert (forall b, b ∈ todo -> b ∈ tk_todo task) as Hrest by (intros b Hb; rewrite Htodo; by right).
  destruct a as [op|r|n l|n auth e target|n e name t' raw|n j sub|result]; cbn [fst]; try done.
  - destruct (Ha now) as (Hmake & Hnoclaim & Hfreed). unfold call_queue. cbn [fst].
    apply (disp_put W Q (freed (op now)) _ d t task (set_todo todo task)); [done|done|done|done|auto| | |].
    + intros id Hid. rewrite Hfreed. by eapply (owes_rest task (OnQueue op)).
    + apply op_queue_ok; [apply Hd|done].
    + eapply op_claims; [apply Hd|done].
  - by apply begin_ok.
  - destruct (break_circuit_same (set_todo todo task) result now instant) as (Hs & Ec & Ef & Et).
    eapply disp_put_only; [done|done|exact Hs| | |].
    + destruct Hok' as [Hn Hb]. unfold task_ok, begun. rewrite Et, Ef, (proj1 Hs). done.
    + intros b. rewrite Et. auto.
    + intros id [Hin|Ho]%(owes_rest task (Break result) todo id Htodo); [set_solver|]. unfold task_owes in *. by rewrite Et, Ec, Ef, (proj1 Hs).
Qed.

Lemma finish_ok d t result : disp_ok W Q d -> disp_ok W Q (finish d t result).
Proof.
  intros Hd. unfold finish. destruct (dp_tasks d !! t) as [task|] eqn:Ht; [|done].
  destruct (wo_tasks _ _ (do_workers _ _ _ Hd) _ _ Ht) as [Hok Hlive].
  destruct (tk_flight task) as [[job sub]|] eqn:Ef; [|done]. destruct (tk_todo task) eqn:Htodo; [|done].
  destruct (proj2 Hok job sub (or_introl Ef)) as [Eh Er].
  eapply disp_put_only; [done|done|done| | |].
  - split; [apply Hok|]. intros j s [?|[at_ Hin]]; [done|]. simpl in Hin.
    apply elem_of_cons in Hin as [?|Hin%list_elem_of_singleton]; discriminate.
  - intros a [->|Ha]%elem_of_cons; right; [|by apply list_elem_of_singleton in Ha as ->]. intros now.
    assert (tk_cancelled task = false -> sub_ok Q sub) as Hsub.
    { intros Hc. destruct (live_sub_ok _ _ _ Hd Ht Hc). by split; rewrite ?Er, ?Eh. }
    destruct result as [e|receipt]; [|done].
    destruct e; try done; (destruct (tk_cancelled task); [done|]); (split; [by split; [|apply Hsub]|done]).
  - intros id [?|[(j & s & E & Hr & <-)|(a & Ha & _)]]; [by left| |rewrite Htodo in Ha; by apply not_elem_of_nil in Ha].
    rewrite Ef in E. injection E as -> ->. right; right. eexists. split; [by left|]. simpl.
    destruct result as [e|receipt]; [|simpl; set_solver].
    destruct e; try (destruct (tk_cancelled task)); simpl; rewrite ?Hr; set_solver.
Qed.

Lemma abandon_ok d t now : disp_ok W Q d -> disp_ok W Q (abandon d t now).
Proof.
  intros Hd. unfold abandon. destruct (dp_tasks d !! t) as [task|] eqn:Ht; [|done].
  destruct (tk_flight task) as [[job sub]|] eqn:Ef; [|done]. destruct (tk_todo task) eqn:Htodo; [|done].
  destruct (dp_stop d); [|done]. apply persist_ok; [done..|]. intros j s E. congruence.
Qed.

(** *** Events *)

Lemma try_send_Some (d d' : Dispatcher) t j : try_send d t j = Some d' ->
  exists task, dp_tasks d !! t = Some task /\ d' = put_task t (set_chan (tk_chan task ++ [j]) task) d.
Proof.
  unfold try_send. destruct (dp_tasks d !! t) as [task|]; simpl; [|done]. destruct (_ || _); [done|]. intros [= <-]. eauto.
Qed.

Lemma owes_push (task : Task) j id : task_owes task id -> task_owes (set_chan (tk_chan task ++ [j]) task) id.
Proof.
  intros [(x & Hx & Hr & Hid)|?]; [left|by right]. exists x. split; [|done]. simpl. rewrite elem_of_app. by left.
Qed.

Lemma push_ok d t task j : disp_ok W Q d -> dp_tasks d !! t = Some task -> disp_ok W Q (put_task t (set_chan (tk_chan task ++ [j]) task) d).
Proof.
  intros Hd Ht. destruct (wo_tasks _ _ (do_workers _ _ _ Hd) _ _ Ht) as [Hok Hlive].
  eapply disp_put_only; [done|done|done|done|by left|]. intros id. apply owes_push.
Qed.

Lemma enqueue_one_ok repo event acc t : disp_ok W Q acc.1.1 -> Forall (sub_ok Q) acc.1.2 -> (exists k, dp_hooks acc.1.1 !! k = Some t) ->
  let acc' := enqueue_one repo event acc t in
  disp_ok W Q acc'.1.1 /\ Forall (sub_ok Q) acc'.1.2 /\ dp_hooks acc'.1.1 = dp_hooks acc.1.1.
Proof.
  destruct acc as [[d overflow] has]. simpl. intros Hd Ho [k Hk]. destruct (dp_tasks d !! t) as [task|] eqn:Ht; [|done].
  destruct (negb _); [done|].
  destruct (if dp_stop d then None else try_send d t (mkJob event false)) as [d'|] eqn:Es; simpl.
  - destruct (dp_stop d); [done|]. apply try_send_Some in Es as (x & Hx & ->). split; [by apply push_ok|done].
  - split; [done|]. split; [|done]. apply Forall_app. split; [done|]. apply Forall_singleton. eapply live_sub_ok; [done..|].
    destruct (wo_hooks _ _ (do_workers _ _ _ Hd) _ _ Hk) as (x & Hx & _ & Hc). congruence.
Qed.

Lemma enqueue_ok d repo event : disp_ok W Q d -> disp_ok W Q (enqueue d repo event).
Proof.
  intros Hd. unfold enqueue.
  assert (forall l acc, disp_ok W Q acc.1.1 -> Forall (sub_ok Q) acc.1.2 -> (forall t, t ∈ l -> exists k, dp_hooks acc.1.1 !! k = Some t) ->
    disp_ok W Q (foldl (enqueue_one repo event) acc l).1.1 /\ Forall (sub_ok Q) (foldl (enqueue_one repo event) acc l).1.2) as Hfold.
  { intros l. induction l as [|t l IH]; intros acc H1 H2 H3; simpl; [done|].
    destruct (enqueue_one_ok repo event acc t H1 H2) as (H4 & H5 & H6); [apply H3; by left|].
    apply IH; [done|done|]. intros t' Ht'. rewrite H6. apply H3. by right. }
  destruct (Hfold (map snd (iter_order (dp_hooks d))) (d, [], false) Hd (Forall_nil_2 _)) as [Hd1 Ho].
  { intros t Ht. apply list_elem_of_In, in_map_iff in Ht as ([k x] & <- & Hin%list_elem_of_In).
    rewrite iter_perm, elem_of_map_to_list in Hin. by exists k. }
  destruct (foldl (enqueue_one repo event) _ _) as [[d1 overflow] has]. simpl in Hd1, Ho.
  apply start_call_ok; [done|]. apply Forall_app. split; [|by destruct has; repeat constructor].
  apply Forall_forall. intros a Ha. apply list_elem_of_In, in_map_iff in Ha as (sub & <- & Hin%list_elem_of_In).
  rewrite Forall_forall in Ho. intros now. split; [|done]. by split; [|apply Ho].
Qed.

(** *** Calls *)

Lemma claim_body q id q' raw : claim q id = (q', Some raw) -> q' = run_op q (Claim id).
Proof. intros E. simpl. by rewrite E. Qed.

Lemma claim_none q id q' : sound q -> claim q id = (q', None) ->
  q' = run_op q (Claim id) /\ st_claimed (q_state q') = st_claimed (q_state q).
Proof.
  intros Hq E. split; [simpl; by rewrite E|]. revert E. unfold claim. destruct (_ ≫= _); [|by intros [= <-]].
  case_bool_decide as Hin; [|done]. intros [= <-]. simpl. set_solver.
Qed.

Lemma set_calls_same (d : Dispatcher) : set_calls (dp_calls d) d = d.
Proof. by destruct d. Qed.

(** A call that goes on, with no change but to itself and the queue. *)
Lemma call_on W' d d' c a l next ids : disp_ok W' Q d -> dp_calls d !! c = Some (a :: l) -> d' = set_queue (dp_queue d') d ->
  Forall (action_ok Q d) next -> (forall id, id ∈ frees a -> id ∈ ids \/ (exists b, b ∈ next /\ id ∈ frees b) \/ task_held d id) ->
  queue_ok Q (dp_queue d') ->
  (forall id, id ∈ claimed (dp_queue d') -> id ∈ claimed (dp_queue d) ∖ ids \/ exists b, b ∈ next /\ id ∈ frees b) ->
  disp_ok W' Q (set_calls (<[c := next ++ l]> (dp_calls d')) d').
Proof.
  intros Hd Hc -> Hnext Hfrees Hq Hids. simpl. rewrite Forall_forall in Hnext.
  apply (disp_call W' Q ids (dp_queue d') d c (a :: l)); [done|done| | |done|].
  - intros b [Hb|Hb]%elem_of_app; [right; auto|left; by right].
  - intros id b [->|Hb]%elem_of_cons Hid.
    + destruct (Hfrees id Hid) as [?|[(b & Hb & ?)|?]]; [by left|right; left|by right; right]. exists b. rewrite elem_of_app. eauto.
    + right; left. exists b. rewrite elem_of_app. eauto.
  - intros id [?|(b & Hb & ?)]%Hids; [by left|right]. exists b. rewrite elem_of_app. eauto.
Qed.

(** The same, when the queue is called once, and nothing is claimed. *)
Lemma call_queued d c a l op : disp_ok W Q d -> dp_calls d !! c = Some (a :: l) -> makes_own Q op -> (forall i, op <> Claim i) ->
  frees a ⊆ freed op -> let d' := on_queue (fun q => run_op q op) d in disp_ok W Q (set_calls (<[c := l]> (dp_calls d')) d').
Proof.
  intros Hd Hc Hmake Hno Hfrees. apply (call_on W d _ c a l [] (freed op)); [done|done|done|by constructor| |apply op_queue_ok; [apply Hd|done]|].
  - intros id Hid. left. by apply Hfrees.
  - intros id Hid. left. simpl in Hid. eapply op_claims; [apply Hd|done|done].
Qed.

(** And when it only leaves other actions. *)
Lemma call_next d c a l next : disp_ok W Q d -> dp_calls d !! c = Some (a :: l) -> Forall (action_ok Q d) next ->
  (forall id, id ∈ frees a -> (exists b, b ∈ next /\ id ∈ frees b) \/ task_held d id) -> disp_ok W Q (set_calls (<[c := next ++ l]> (dp_calls d)) d).
Proof.
  intros Hd Hc Hnext Hfrees. apply (call_on W d d c a l next ∅); [done|done|by rewrite set_queue_same|done| |apply Hd|].
  - auto.
  - intros id Hid. left. set_solver.
Qed.

Lemma retry_one_ok d c l at_ auth e target : disp_ok W Q d -> dp_calls d !! c = Some (RetryEntry at_ auth e target :: l) ->
  let r := retry_one at_ auth d e target in disp_ok W Q (set_calls (<[c := r.2 ++ l]> (dp_calls r.1)) r.1).
Proof.
  intros Hd Hc.
  assert (action_ok Q d (RetryEntry at_ auth e target)) as [Hfit Htgt] by (eapply (do_calls _ _ _ Hd); [exact Hc|by left]).
  assert (disp_ok W Q (set_calls (<[c := l]> (dp_calls d)) d)) as Hskip.
  { apply (call_next d c _ l [] Hd Hc); [by constructor|]. intros id. simpl. set_solver. }
  assert (forall op, makes_own Q op -> (forall i, op <> Claim i) ->
    let d' := on_queue (fun q => run_op q op) d in disp_ok W Q (set_calls (<[c := l]> (dp_calls d')) d')) as Hop.
  { intros op H1 H2. apply (call_queued d c _ l op Hd Hc H1 H2). simpl. set_solver. }
  cbv zeta. unfold retry_one. destruct target as [[[t open_until] wanted]|]; [|case_bool_decide; [by apply (Hop (DropEntry _ _ _))|done]].
  destruct (at_ <? open_until)%N; [by apply (Hop (Defer _ _))|].
  destruct (opt_filter _ _) as [event_name|]; [|by apply (Hop (DropEntry _ _ _))].
  destruct (_ <=? _)%nat; [done|]. destruct (dp_queue d) as [q|] eqn:Eq; [|done].
  destruct (do_queue _ _ _ Hd q Eq) as [Hsound Hpend].
  assert (queue_ok Q (Some (run_op q (Claim (en_id e))))) as Hq' by (apply (op_queue_ok Q (Some q) (Claim (en_id e))); [rewrite <-Eq; apply Hd|done]).
  destruct (claim q (en_id e)) as [q' [raw|]] eqn:Ecl; cbn [fst snd].
  - apply claim_body in Ecl as ->. apply (call_on W d _ c _ l [HandOver at_ e event_name t raw] ∅ Hd Hc); [done| | |exact Hq'|].
    + apply Forall_singleton. split; [done|]. by eapply Htgt.
    + intros id. simpl. set_solver.
    + intros id. cbn [set_queue dp_queue claimed from_option]. rewrite Eq, run_op_claimed by done. cbn [claims_after]. intros Hid.
      destruct (decide (id = en_id e)) as [->|Hne]; [right; eexists; split; [by left|simpl; set_solver]|left]. simpl.
      destruct (_ ≫= _); set_solver.
  - destruct (claim_none _ _ _ Hsound Ecl) as [-> Ecl']. apply (call_on W d _ c _ l [] ∅ Hd Hc); [done|by constructor| |exact Hq'|].
    + intros id. simpl. set_solver.
    + intros id. cbn [set_queue dp_queue claimed from_option]. rewrite Eq, Ecl'. left. simpl. set_solver.
Qed.

Lemma hand_over_ok d c l at_ e event_name t raw : disp_ok W Q d -> dp_calls d !! c = Some (HandOver at_ e event_name t raw :: l) ->
  let r := hand_over at_ d e event_name t raw in disp_ok W Q (set_calls (<[c := r.2 ++ l]> (dp_calls r.1)) r.1).
Proof.
  intros Hd Hc.
  assert (action_ok Q d (HandOver at_ e event_name t raw)) as [Hfit Hhook] by (eapply (do_calls _ _ _ Hd); [exact Hc|by left]).
  cbv zeta. unfold hand_over. destruct (json_parse raw) as [err|payload].
  { by apply (call_queued d c _ l (DropEntry (en_id e) ("unreadable body: " +:+ err) at_) Hd Hc). }
  destruct (try_send d t _) as [d'|] eqn:Es; cbn [fst snd].
  - apply try_send_Some in Es as (task & Ht & ->). set (job := mkJob _ true).
    assert (disp_ok W Q (put_task t (set_chan (tk_chan task ++ [job]) task) d)) as Hd' by by apply push_ok.
    apply (call_next _ c (HandOver at_ e event_name t raw) l [] Hd'); [done|by constructor|]. intros id Hid. right. simpl in Hid. apply elem_of_singleton in Hid.
    exists t, (set_chan (tk_chan task ++ [job]) task). simpl. rewrite lookup_insert_eq. split; [done|]. left. exists job. simpl.
    split; [rewrite elem_of_app; right; by left|]. split; [done|]. unfold job_id. simpl. unfold hook_of in Hhook. rewrite Ht in Hhook.
    injection Hhook as ->. rewrite Hid. symmetry. apply Hfit.
  - apply (call_next d c _ l _ Hd Hc).
    + apply Forall_singleton. by intros now.
    + intros id Hid. left. eexists. split; [by left|done].
Qed.

Lemma repos_ok d authoritative hookless warned stop : disp_ok W Q d -> disp_ok W Q (set_repos authoritative hookless warned stop d).
Proof.
  intros [Hq Hw Ht Hc Hcl]. constructor; [done|by eapply (workers_same _ d)| | |done].
  - intros t x a Hx Ha. eapply (action_kept _ d); [by apply same_hooks_refl|eauto].
  - intros c x a Hx Ha. eapply (action_kept _ d); [by apply same_hooks_refl|eauto].
Qed.

Lemma proceed_ok d c now : disp_ok W Q d -> disp_ok W Q (proceed d c now).1.
Proof.
  intros Hd. unfold proceed. destruct (dp_calls d !! c) as [[|a l]|] eqn:Hc; [done| |done].
  assert (action_ok Q d a) as Ha by (eapply (do_calls _ _ _ Hd); [exact Hc|by left]).
  destruct a as [op|r|at_ listed|at_ auth e target|at_ e name t raw|at_ j sub|result]; cbn [perform].
  - destruct (Ha now) as (H1 & H2 & H3). apply (call_queued d c _ l (op now) Hd Hc H1 H2). simpl. by rewrite H3.
  - assert (disp_ok W Q (warn_hookless d r)) as Hw by (unfold warn_hookless; case_bool_decide; [done|by apply repos_ok]).
    apply (call_next (warn_hookless d r) c (WarnHookless r) l []); [done|unfold warn_hookless; by case_bool_decide|by constructor|].
    intros id. simpl. set_solver.
  - apply (call_next d c _ l _ Hd Hc); [|intros id; simpl; set_solver].
    apply Forall_forall. intros b Hb. apply list_elem_of_In, in_map_iff in Hb as (e & <- & Hin%list_elem_of_In).
    pose proof (proj1 (Forall_forall _ _) Ha e Hin) as Hfit. split; [done|]. intros t o w E. unfold retry_target in E.
    destruct (dp_hooks d !! (en_repo_id e +:+ ":" +:+ en_hook_id e)) as [t0|] eqn:Eh; simpl in E; [|done].
    destruct (wo_hooks _ _ (do_workers _ _ _ Hd) _ _ Eh) as (task & Htask & Hkey & _). rewrite Htask in E. simpl in E. injection E as <- _ _.
    unfold hook_of. rewrite Htask. simpl. unfold key in Hkey.
    apply key_inj in Hkey as [_ ->]; [done|apply (wo_tasks _ _ (do_workers _ _ _ Hd) _ _ Htask)|apply Hfit].
  - pose proof (retry_one_ok d c l at_ auth e target Hd Hc) as Hr. by destruct (retry_one at_ auth d e target).
  - pose proof (hand_over_ok d c l at_ e name t raw Hd Hc) as Hr. by destruct (hand_over at_ d e name t raw).
  - apply (call_next d c _ l [_] Hd Hc); [by apply Forall_singleton|]. intros id Hid. left. eexists. split; [by left|done].
  - apply (call_next d c _ l [_] Hd Hc); [by apply Forall_singleton|]. intros id Hid. left. eexists. split; [by left|done].
Qed.

Lemma dispatch_ok d now : disp_ok W Q d -> disp_ok W Q (dispatch_retries d now).
Proof.
  intros Hd. unfold dispatch_retries. destruct (dp_queue d) as [q|] eqn:Eq; [|done]. destruct (dp_stop d); [done|].
  destruct (due q now) as [q' listed] eqn:Edue. destruct (do_queue _ _ _ Hd q Eq) as [Hs Ho].
  assert (queue_ok Q (Some q') /\ claimed (Some q') ⊆ claimed (dp_queue d)) as [Hq' Hcl].
  { assert (Some q' = option_map (fun q => run_op q (Due now)) (dp_queue d)) as -> by (rewrite Eq; cbn [option_map run_op]; by rewrite Edue).
    split; [by apply op_queue_ok; [apply Hd|]|]. pose proof (op_claims Q (dp_queue d) (Due now) (do_queue _ _ _ Hd)) as H. set_solver. }
  assert (disp_ok W Q (set_queue (Some q') d)) as Hd'.
  { destruct Hd as [_ Hw Ht Hc Hclaims]. constructor; [done|by eapply (workers_same _ d)| | |].
    - intros t x a Hx Ha. eapply (action_kept _ d); [by apply same_hooks_refl|eauto].
    - intros c x a Hx Ha. eapply (action_kept _ d); [by apply same_hooks_refl|eauto].
    - intros id Hid. by apply Hclaims, Hcl. }
  apply start_call_ok; [done|]. apply Forall_singleton, Forall_forall. intros x Hx.
  assert (listed = (due q now).2) as El by by rewrite Edue. rewrite El, due_list in Hx. apply list_elem_of_In, in_map_iff in Hx as (e0 & <- & He0).
  apply filter_In in He0 as [He0 _]. apply filter_In in He0 as [He0 Hp]. apply andb_prop in Hp as [Hp _].
  apply in_map_iff in He0 as ([i y] & Ey & Hi%list_elem_of_In%elem_of_btree_items). simpl in Ey. subst y.
  assert (pend (due q now).1 !! i = Some e0) as Hi' by by apply held_Some.
  destruct (run_op_ok Q q (Due now) Hs Ho I) as [_ Hall]. destruct (Hall _ _ Hi') as [Hfit _]. exact Hfit.
Qed.

(** *** Subscriptions *)

(** Tasks changed one for one, each doing and owing what it did. *)
Lemma disp_retask (d d' : Dispatcher) : disp_ok W Q d -> dp_queue d' = dp_queue d -> dp_calls d' = dp_calls d ->
  (forall t task, dp_tasks d !! t = Some task -> exists task', dp_tasks d' !! t = Some task'
     /\ ws_hook_id (tk_sub task') = ws_hook_id (tk_sub task) /\ forall id, task_owes task id -> task_owes task' id) ->
  (forall t task' a, dp_tasks d' !! t = Some task' -> a ∈ tk_todo task' -> exists task, dp_tasks d !! t = Some task /\ a ∈ tk_todo task) ->
  workers_ok W d' -> disp_ok W Q d'.
Proof.
  intros [Hq _ Ht Hc Hcl] Eq Ec Htasks Htodo Hw.
  assert (same_hooks d d') as Hs.
  { intros t h. unfold hook_of. destruct (dp_tasks d !! t) as [task|] eqn:E; [|done]. destruct (Htasks _ _ E) as (x & -> & Eh & _). simpl. by rewrite Eh. }
  constructor; [by rewrite Eq|done| | |].
  - intros t x a Hx Ha. destruct (Htodo _ _ _ Hx Ha) as (y & Hy & Hay). eapply action_kept; [exact Hs|eauto].
  - rewrite Ec. intros c x a Hx Ha. eapply action_kept; [exact Hs|eauto].
  - rewrite Eq. intros id Hid. destruct (Hcl id Hid) as [(t & task & Htask & Hin)|?]; [left|right; by rewrite Ec].
    destruct (Htasks _ _ Htask) as (x & Hx & _ & Ho). exists t, x. auto.
Qed.

Lemma cancel_all l : forall (m : gmap nat Task) t task, foldr (fun t => alter cancel t) m l !! t = Some task ->
  exists task0, m !! t = Some task0 /\ (task = task0 \/ task = cancel task0).
Proof.
  induction l as [|t0 l IH]; intros m t task; simpl; [eauto|]. intros H.
  destruct (decide (t0 = t)) as [->|Hne].
  - rewrite lookup_alter_eq in H. apply fmap_Some in H as (x & Hx & ->). apply IH in Hx as (task0 & H0 & [->| ->]); eauto.
  - rewrite lookup_alter_ne in H by done. by apply IH.
Qed.

Lemma cancel_all_inv l : forall (m : gmap nat Task) t task0, m !! t = Some task0 ->
  exists task, foldr (fun t => alter cancel t) m l !! t = Some task /\ (task = task0 \/ task = cancel task0).
Proof.
  induction l as [|t0 l IH]; intros m t task0 H0; simpl; [eauto|]. destruct (IH m t task0 H0) as (task & Ht & Hor).
  destruct (decide (t0 = t)) as [->|Hne].
  - rewrite lookup_alter_eq, Ht. simpl. eexists. split; [done|]. right. by destruct Hor as [->| ->].
  - rewrite lookup_alter_ne by done. eauto.
Qed.

Lemma cancel_all_out l : forall (m : gmap nat Task) t, t ∉ l -> foldr (fun t => alter cancel t) m l !! t = m !! t.
Proof.
  induction l as [|t0 l IH]; intros m t Hn; simpl; [done|]. apply not_elem_of_cons in Hn as [Hne Hn].
  rewrite lookup_alter_ne by done. by apply IH.
Qed.

Lemma cancel_all_in l : forall (m : gmap nat Task) t task0, t ∈ l -> m !! t = Some task0 ->
  exists task, foldr (fun t => alter cancel t) m l !! t = Some task /\ tk_cancelled task = true.
Proof.
  induction l as [|t0 l IH]; intros m t task0 Hin H0; [by apply not_elem_of_nil in Hin|]. simpl.
  destruct (decide (t0 = t)) as [->|Hne].
  - rewrite lookup_alter_eq. destruct (cancel_all_inv l m t task0 H0) as (task & -> & _). simpl. eauto.
  - apply elem_of_cons in Hin as [->|Hin]; [done|]. rewrite lookup_alter_ne by done. eauto.
Qed.

(** The hooks that stay, with their workers, after the others are dropped. *)
Lemma retain_workers P wanted d : workers_ok P d -> workers_ok P (retain_hooks wanted d)
  /\ forall t task, dp_tasks (retain_hooks wanted d) !! t = Some task -> tk_cancelled task = false -> is_Some (wanted !! key (tk_sub task)).
Proof.
  intros [Wt Wh Wl]. set (gone := map snd (map_to_list (filter (fun '(k, _) => wanted !! k = None) (dp_hooks d)))).
  assert (forall t task0, dp_tasks d !! t = Some task0 -> tk_cancelled task0 = false -> wanted !! key (tk_sub task0) = None -> t ∈ gone) as Hgone.
  { intros t task0 H0 Hcan Ew. apply list_elem_of_In, in_map_iff. exists (key (tk_sub task0), t). split; [done|].
    apply list_elem_of_In, elem_of_map_to_list, map_lookup_filter_Some. split; [by apply Wl|done]. }
  assert (forall t task, foldr (fun t => alter cancel t) (dp_tasks d) gone !! t = Some task -> tk_cancelled task = false ->
    exists task0, dp_tasks d !! t = Some task0 /\ task = task0 /\ is_Some (wanted !! key (tk_sub task))) as Hlive.
  { intros t task Ht Hcan. destruct (cancel_all _ _ _ _ Ht) as (task0 & H0 & [->| ->]); [|done]. exists task0. split_and!; [done..|].
    destruct (wanted !! key (tk_sub task0)) eqn:Ew; [by eexists|exfalso].
    destruct (cancel_all_in gone (dp_tasks d) t task0) as (x & Hx & Hxc); [by eapply Hgone|done|]. rewrite Ht in Hx. injection Hx as <-. congruence. }
  split; [constructor; simpl|].
  - intros t task (task0 & H0 & [->| ->])%cancel_all; [eauto|]. destruct (Wt _ _ H0). by split.
  - intros k t [Hk Hw]%map_lookup_filter_Some. destruct (Wh k t Hk) as (task & Ht & <- & Hc). exists task.
    rewrite cancel_all_out; [done|]. intros Hin. apply list_elem_of_In, in_map_iff in Hin as ([k' t'] & <- & Hin%list_elem_of_In).
    apply elem_of_map_to_list, map_lookup_filter_Some in Hin as [Hk' Hnone].
    destruct (Wh k' _ Hk') as (x & Hx & Ek & _). simpl in Ht. rewrite Ht in Hx. injection Hx as <-. subst k'. rewrite Hnone in Hw.
    by apply is_Some_None in Hw.
  - intros t task Ht Hcan. destruct (Hlive t task Ht Hcan) as (task0 & H0 & -> & Hw). apply map_lookup_filter_Some. split; [by apply Wl|done].
  - intros t task Ht Hcan. by destruct (Hlive t task Ht Hcan) as (? & _ & _ & ?).
Qed.

Lemma retain_ok wanted d : disp_ok W Q d -> disp_ok W Q (retain_hooks wanted d).
Proof.
  intros Hd. eapply disp_retask; [exact Hd|done|done| | |by apply retain_workers, Hd].
  - intros t task Ht. destruct (cancel_all_inv (map snd (map_to_list (filter (fun '(k, _) => wanted !! k = None) (dp_hooks d)))) _ _ _ Ht)
      as (x & Hx & [->| ->]); eexists; (split; [exact Hx|done]).
  - intros t task a Ht Ha. simpl in Ht. apply cancel_all in Ht as (x & Hx & [->| ->]); eauto.
Qed.

Lemma sync_one_ok d w : disp_ok W Q d -> w.1 = key w.2 -> sub_ok W w.2 -> disp_ok W Q (sync_one d w).
Proof.
  intros Hd Hkey [Hno Hall]. pose proof (do_workers _ _ _ Hd) as [Wt Wh Wl]. destruct w as [k sub]. simpl in Hkey, Hno, Hall. subst k.
  unfold sync_one. simpl. destruct (dp_hooks d !! key sub) as [t|] eqn:Eh.
  - destruct (Wh _ _ Eh) as (task & Ht & Ek & Hc). destruct (Wt _ _ Ht) as [[Hno' Hb] _].
    pose proof (key_inj _ _ _ _ Hno' Hno Ek) as [Erepo Ehook].
    assert (forall t0 x, alter (set_sub sub) t (dp_tasks d) !! t0 = Some x ->
      (t0 = t /\ x = set_sub sub task) \/ (t0 <> t /\ dp_tasks d !! t0 = Some x)) as Hcase.
    { intros t0 x Hx. destruct (decide (t0 = t)) as [->|Hne]; [|rewrite lookup_alter_ne in Hx by done; by right].
      rewrite lookup_alter_eq, Ht in Hx. injection Hx as <-. by left. }
    eapply disp_retask; [exact Hd|done|done| | |].
    + intros t0 x Hx. simpl. destruct (decide (t0 = t)) as [->|Hne]; [|rewrite lookup_alter_ne by done; eauto].
      rewrite lookup_alter_eq, Hx. rewrite Ht in Hx. injection Hx as <-. simpl. eexists. split; [done|]. split; [done|].
      intros id [(j & Hj & Hr & Hid)|?]; [left; exists j|by right]. split; [done|]. split; [done|]. unfold job_id in *. simpl. by rewrite <-Ehook.
    + intros t0 x a [[-> ->]|[_ Hx]]%Hcase Ha; eauto.
    + constructor; simpl.
      * intros t0 x [[-> ->]|[_ Hx]]%Hcase; [|eauto]. split; [|by intros _]. split; [done|].
        intros j s E. destruct (Hb j s E) as [H1 H2]. simpl. by rewrite H1, H2.
      * intros k t0 Hk. destruct (Wh _ _ Hk) as (x & Hx & <- & Hxc). destruct (decide (t0 = t)) as [->|Hne].
        -- rewrite lookup_alter_eq, Ht. simpl. eexists. split; [done|]. rewrite Ht in Hx. injection Hx as <-. done.
        -- rewrite lookup_alter_ne by done. eauto.
      * intros t0 x [[-> ->]|[_ Hx]]%Hcase Hcan; [done|eauto].
  - assert (dp_tasks d !! fresh_task d = None) as Hfresh by apply not_elem_of_dom, is_fresh.
    eapply disp_retask; [exact Hd|done|done| | |].
    + intros t x Hx. simpl. exists x. rewrite lookup_insert_ne; [done|]. intros <-. congruence.
    + intros t x a Hx Ha. simpl in Hx. apply lookup_insert_Some in Hx as [[<- <-]|[_ Hx]]; [by apply not_elem_of_nil in Ha|eauto].
    + constructor; simpl.
      * intros t x [[<- <-]|[_ Hx]]%lookup_insert_Some; [|eauto]. split; [|by intros _]. split; [done|].
        intros j s [?|[now Hin]]; [done|by apply not_elem_of_nil in Hin].
      * intros k t [[<- <-]|[Hne Hk]]%lookup_insert_Some; [eexists; by rewrite lookup_insert_eq|].
        destruct (Wh _ _ Hk) as (x & Hx & Ex & Hxc). exists x. rewrite lookup_insert_ne; [done|]. intros <-. congruence.
      * intros t x [[<- <-]|[_ Hx]]%lookup_insert_Some Hcan; [by rewrite lookup_insert_eq|].
        specialize (Wl _ _ Hx Hcan). rewrite lookup_insert_ne; [done|]. intros E. congruence.
Qed.

Lemma wanted_ok P subs : Forall (sub_ok P) subs -> forall k sub, wanted_hooks subs !! k = Some sub -> k = key sub /\ sub_ok P sub.
Proof.
  unfold wanted_hooks. induction subs as [|s subs IH] using rev_ind; intros Hs k sub; [done|].
  rewrite foldl_app. simpl. rewrite Forall_app, Forall_singleton in Hs. destruct Hs as [Hs H1].
  intros [[<- <-]|[_ H]]%lookup_insert_Some; [done|by apply IH].
Qed.

Lemma sync_all_ok l : Forall (fun w => w.1 = key w.2 /\ sub_ok W w.2) l -> forall d, disp_ok W Q d -> disp_ok W Q (foldl sync_one d l).
Proof.
  induction 1 as [|w l [H1 H2] _ IH]; intros d Hd; simpl; [done|]. apply IH. by apply sync_one_ok.
Qed.

Lemma wanted_subs P subs : Forall (sub_ok P) subs -> Forall (fun w => w.1 = key w.2 /\ sub_ok P w.2) (iter_order (wanted_hooks subs)).
Proof.
  intros Hs. apply Forall_forall. intros [k sub] Hin. rewrite iter_perm, elem_of_map_to_list in Hin. by apply (wanted_ok P subs Hs) in Hin.
Qed.

Lemma sync_ok d subs authoritative : disp_ok W Q d -> Forall (sub_ok W) subs -> disp_ok W Q (sync d subs authoritative).
Proof.
  intros Hd Hs. unfold sync. apply start_call_ok; [|by apply Forall_singleton].
  apply sync_all_ok; [by apply wanted_subs|]. by apply repos_ok, retain_ok.
Qed.

(** *** Runs *)

Lemma step_keeps d s : disp_ok W Q d -> step_ok W s -> disp_ok W Q (step d s).1.
Proof.
  intros Hd Hs. destruct s; cbn [step fst].
  - by apply sync_ok.
  - by apply repos_ok.
  - by apply enqueue_ok.
  - by apply dispatch_ok.
  - by apply proceed_ok.
  - by apply wake_ok.
  - by apply act_ok.
  - by apply finish_ok.
  - by apply abandon_ok.
  - by apply repos_ok.
  - set (op := if take_ then WriterTake else WriterApply io).
    assert (makes_own Q op /\ (forall i, op <> Claim i)) as [H1 H2] by (unfold op; by destruct take_).
    destruct Hd as [Hq Hw Ht Hc Hcl]. constructor.
    + by apply op_queue_ok.
    + by eapply (workers_same _ d).
    + intros t x a Hx Ha. eapply (action_kept _ d); [by apply same_hooks_refl|eauto].
    + intros c x a Hx Ha. eapply (action_kept _ d); [by apply same_hooks_refl|eauto].
    + intros id Hid. apply Hcl. apply (op_claims Q _ op Hq H2) in Hid. set_solver.
Qed.

Lemma steps_fst l : forall d : Dispatcher, (steps d l).1 = foldl (fun d s => (step d s).1) d l.
Proof.
  unfold steps. intros d. generalize (@nil Note) as notes. revert d. induction l as [|s l IH]; intros d notes; simpl; [done|].
  destruct (step d s) as [d' notes'] eqn:E. simpl. by rewrite IH.
Qed.

Lemma steps_ok l d : Forall (step_ok W) l -> disp_ok W Q d -> disp_ok W Q (steps d l).1.
Proof.
  rewrite steps_fst. intros Hl. revert d. induction Hl as [|s l Hs _ IH]; intros d Hd; simpl; [done|]. apply IH. by apply step_keeps.
Qed.

Lemma with_queue_ok q : (forall q0, q = Some q0 -> sound q0 /\ st_claimed (q_state q0) = ∅ /\ forall i e, pend q0 !! i = Some e -> own_entry Q e) ->
  disp_ok W Q (with_queue q).
Proof.
  intros Hq. constructor; [|by constructor|done|done|].
  - intros q0 E. by destruct (Hq q0 E) as (? & ? & ?).
  - intros id. destruct q as [q0|]; simpl; [|set_solver]. destruct (Hq q0 eq_refl) as (_ & -> & _). set_solver.
Qed.

(** From a start, on files whose entries the dispatcher made. *)
Lemma started_ok disk schedule : (forall i e, pend (start disk schedule) !! i = Some e -> own_entry Q e) ->
  disp_ok W Q (with_queue (Some (start disk schedule))).
Proof.
  intros Hown. apply with_queue_ok. intros q1 [= <-]. split; [apply start_sound|]. split; [|done].
  unfold start. destruct disk as [[files now]|]; [|done]. destruct (open_spec files schedule now) as [_ Hsh].
  rewrite (sh_claimed _ _ Hsh). apply loaded_spec.
Qed.
End workers.

(** ** What the runs keep *)

(** Whatever the hook. *)
Definition any_hook (repo_id hook_id : string) : Prop := True.

(** Every hook but one. *)
Definition other_hook (r h repo_id hook_id : string) : Prop := (repo_id, hook_id) <> (r, h).

Section claims.
Context {Value : Type} `{services : Services Value} `{codec : Codec} `{order : HashOrder}.

(** C34: no claim of the queue is ever lost, however the turns of the relay's calls and workers
    interleave: in every state they reach, from a queue whose entries the relay wrote itself, a
    claimed delivery is one that a worker still holds as a retry, in its channel or in flight, or
    that a worker or a call is about to hand over, release or record. So once all of them are idle,
    nothing is claimed and every queued delivery is offered again when its time comes. *)
Theorem claims_held disk schedule l :
  let q0 := start disk schedule in
  (forall i e, pend q0 !! i = Some e -> own_entry any_hook e) -> Forall (step_ok any_hook) l ->
  let d := (steps (with_queue (Some q0)) l).1 in
  forall q id, dp_queue d = Some q -> id ∈ st_claimed (q_state q) -> owes d id.
Proof.
  intros q0 Hown Hl d q id Hq Hid.
  assert (disp_ok any_hook any_hook d) as Hd by by apply steps_ok, started_ok.
  apply (do_claims _ _ _ Hd). by rewrite Hq.
Qed.
End claims.

(** ** A removed hook *)

Section removed.
Context {Value : Type} `{services : Services Value} `{codec : Codec} `{order : HashOrder}.
Abbreviation Dispatcher := (Dispatcher (Value := Value)).
Abbreviation Action := (Action (Value := Value)).
Context (r h : string).

(** An action about the hook that may queue an event for it. *)
Definition about_hook (a : Action) : Prop :=
  match a with
  | OnQueue op => exists now f at_ counts until, op now = Fail_ f at_ counts until /\ (fa_repo_id f, fa_hook_id f) = (r, h)
  | Begin _ _ sub => (ws_repo_id sub, ws_hook_id sub) = (r, h)
  | _ => False
  end.

(** No worker and no call is about to do one. *)
Definition quiet (d : Dispatcher) : Prop :=
  (forall t task a, dp_tasks d !! t = Some task -> a ∈ tk_todo task -> ~ about_hook a)
  /\ forall c l a, dp_calls d !! c = Some l -> a ∈ l -> ~ about_hook a.

Lemma action_other d a : action_ok any_hook d a -> ~ about_hook a -> action_ok (other_hook r h) d a.
Proof.
  destruct a as [op|x|n l|n auth e target|n e name t raw|n j sub|result]; simpl; try done.
  - intros Ha Hn now. destruct (Ha now) as (Hm & Hc & Hf). split; [|done]. unfold makes_own in *.
    destruct (op now) as [| | | | |f at_ counts until| | | |] eqn:E; try done. destruct Hm as (H1 & H2 & _). split_and!; [done|done|].
    intros Ek. apply Hn. eauto 7.
  - intros [Hno _] Hn. done.
Qed.

(** Once the hook's entries are out of the queue and nothing about to be written is of it. *)
Lemma disp_other W d : disp_ok W any_hook d -> queue_ok (other_hook r h) (dp_queue d) -> quiet d -> disp_ok W (other_hook r h) d.
Proof.
  intros [_ Hw Ht Hc Hcl] Hq [H1 H2]. constructor; [done|done| | |done].
  - intros t task a Htask Ha. apply action_other; eauto.
  - intros c l a Hl Ha. apply action_other; eauto.
Qed.

(** After [sync] the workers that live are of the hooks it was given. *)
Lemma sync_removes d subs authoritative : disp_ok any_hook any_hook d -> Forall (sub_ok (other_hook r h)) subs ->
  disp_ok (other_hook r h) any_hook (sync d subs authoritative).
Proof.
  intros Hd Hs. unfold sync. apply start_call_ok; [|by apply Forall_singleton]. apply sync_all_ok; [by apply wanted_subs|].
  apply repos_ok. destruct (retain_workers any_hook (wanted_hooks subs) d) as [[Wt Wh Wl] Hlive]; [apply Hd|].
  destruct (retain_ok any_hook any_hook (wanted_hooks subs) d Hd) as [Hq _ Ht Hc Hcl].
  constructor; [done| |done|done|done]. constructor; [|done|done]. intros t task Htask. destruct (Wt _ _ Htask) as [Hok _]. split; [done|].
  intros Hcan. destruct (Hlive _ _ Htask Hcan) as [w Hw]. apply (wanted_ok (other_hook r h) subs Hs) in Hw as [Ek [Hno Hall]].
  apply key_inj in Ek as [-> ->]; [done|apply Hok|done].
Qed.

Lemma dropping_ok subs authoritative now d :
  queue_ok any_hook (dp_queue d) -> r ∈ authoritative -> Forall (sub_ok (other_hook r h)) subs ->
  queue_ok (other_hook r h) (dp_queue (perform d (gone_entries subs authoritative) now).1.1).
Proof.
  intros Hq Hr Hs q' Eq'. simpl in Eq'. destruct (dp_queue d) as [q|] eqn:Eq; [|done]. injection Eq' as <-. destruct (Hq q eq_refl) as [Hsound Hown].
  split; [by apply (run_op_sound q (DropWhere _ _ _))|]. intros i e He. simpl in He. rewrite drop_where_pend in He by apply Hsound.
  apply map_lookup_filter_Some in He as [He Hm]. destruct (Hown i e He) as (H1 & H2). split; [done|]. intros [= Er Eh].
  rewrite Er, Eh, bool_decide_eq_true_2 in Hm by done. simpl in Hm. apply negb_false_iff, bool_decide_eq_true in Hm.
  apply list_elem_of_In, in_map_iff in Hm as (s & [= Es1 Es2] & Hin%list_elem_of_In). rewrite Forall_forall in Hs.
  destruct (Hs s Hin) as [_ Ho]. apply Ho. congruence.
Qed.

(** The call [sync] left drops what is queued for the hook; when nothing else about it is under way,
    nothing is queued for it from then on. *)
Lemma dropped_other d c subs authoritative now :
  disp_ok (other_hook r h) any_hook d -> r ∈ authoritative -> Forall (sub_ok (other_hook r h)) subs ->
  dp_calls d !! c = Some [gone_entries subs authoritative] -> quiet d -> disp_ok (other_hook r h) (other_hook r h) (proceed d c now).1.
Proof.
  intros Hd Hr Hs Hc [Hq1 Hq2]. apply disp_other; [by apply proceed_ok| |].
  - unfold proceed. rewrite Hc. apply (dropping_ok subs authoritative now); [apply Hd|done..].
  - unfold proceed. rewrite Hc. simpl. split; [done|]. simpl. intros c' l a [[<- <-]|[_ Hl]]%lookup_insert_Some Ha; [by apply not_elem_of_nil in Ha|eauto].
Qed.

(** *** Deliveries begun *)

(** Every delivery a worker has begun was begun before, or is [fresh]. *)
Definition begun_from (fresh : WebhookSub -> Prop) (d d' : Dispatcher) : Prop :=
  forall t task j sub, dp_tasks d' !! t = Some task -> begun task j sub ->
  (exists task0, dp_tasks d !! t = Some task0 /\ begun task0 j sub) \/ fresh sub.

Lemma begun_tasks fresh d d' : dp_tasks d' = dp_tasks d -> begun_from fresh d d'.
Proof. intros E t task j sub Ht Hb. rewrite E in Ht. left. eauto. Qed.

Lemma begun_trans fresh d1 d2 d3 : begun_from fresh d1 d2 -> begun_from fresh d2 d3 -> begun_from fresh d1 d3.
Proof.
  intros H12 H23 t task j sub Ht Hb. destruct (H23 _ _ _ _ Ht Hb) as [(x & Hx & Hxb)|?]; [|by right]. by apply (H12 t x).
Qed.

Lemma begun_put fresh d t task task' : dp_tasks d !! t = Some task ->
  (forall j sub, begun task' j sub -> begun task j sub \/ fresh sub) -> begun_from fresh d (put_task t task' d).
Proof.
  intros Ht Hb t0 x j sub Hx Hxb. simpl in Hx. apply lookup_insert_Some in Hx as [[<- <-]|[_ Hx]]; [|left; eauto].
  destruct (Hb _ _ Hxb) as [?|?]; [left; eauto|by right].
Qed.

(** A worker that ends begins nothing. *)
Lemma finished_begun todo (task : Task (Value := Value)) j sub : (forall now j sub, Begin now j sub ∉ todo) -> ~ begun (finished todo task) j sub.
Proof. intros Hn [?|[now Hin]]; [done|]. by apply Hn in Hin. Qed.

Lemma drain_begun jobs hook_id (task : Task (Value := Value)) j sub : ~ begun (finished (drain_cancelled jobs hook_id) task) j sub.
Proof. apply finished_begun. intros now j' sub' (x & _ & _ & [=])%elem_of_drain. Qed.

Lemma persist_begun (task : Task (Value := Value)) first now j sub : ~ begun (persist_backlog task first now) j sub.
Proof.
  unfold persist_backlog. destruct (tk_cancelled task); [apply drain_begun|]. apply finished_begun.
  intros at_ j' sub' (x & _ & [=])%elem_of_persist.
Qed.

Lemma send_begun fresh d d' t j : try_send d t j = Some d' -> begun_from fresh d d'.
Proof. intros (task & Ht & ->)%try_send_Some. eapply begun_put; [exact Ht|]. by left. Qed.

Lemma enqueue_begun fresh d repo event : begun_from fresh d (enqueue d repo event).
Proof.
  unfold enqueue.
  assert (forall l acc, begun_from fresh acc.1.1 (foldl (enqueue_one repo event) acc l).1.1) as Hfold.
  { intros l. induction l as [|t l IH]; intros acc; simpl; [by apply begun_tasks|]. eapply begun_trans; [|apply IH].
    destruct acc as [[d0 o] b]. simpl. destruct (dp_tasks d0 !! t) as [task|] eqn:Ht; [|by apply begun_tasks].
    destruct (negb _); [by apply begun_tasks|].
    destruct (if dp_stop d0 then None else try_send d0 t (mkJob event false)) as [d'|] eqn:Es; [|by apply begun_tasks].
    destruct (dp_stop d0); [done|]. by eapply send_begun. }
  specialize (Hfold (map snd (iter_order (dp_hooks d))) (d, [], false)).
  destruct (foldl (enqueue_one repo event) _ _) as [[d1 overflow] has]. eapply begun_trans; [exact Hfold|]. by apply begun_tasks.
Qed.

Lemma sync_begun fresh d subs authoritative : begun_from fresh d (sync d subs authoritative).
Proof.
  assert (forall l d0, begun_from fresh d0 (foldl sync_one d0 l)) as Hfold.
  { intros l. induction l as [|w l IH]; intros d0; simpl; [by apply begun_tasks|]. eapply begun_trans; [|apply IH].
    intros t0 task j sub Ht Hb. unfold sync_one in Ht. destruct (dp_hooks d0 !! w.1) as [t|]; simpl in Ht.
    - destruct (decide (t0 = t)) as [->|Hne]; [|rewrite lookup_alter_ne in Ht by done; left; eauto].
      rewrite lookup_alter_eq in Ht. apply fmap_Some in Ht as (x & Hx & ->). left. eauto.
    - apply lookup_insert_Some in Ht as [[<- <-]|[_ Ht]]; [|left; eauto]. destruct Hb as [?|[now Hin]]; [done|by apply not_elem_of_nil in Hin]. }
  eapply begun_trans; [|apply Hfold]. intros t task j sub Ht Hb. simpl in Ht.
  apply cancel_all in Ht as (x & Hx & [->| ->]); left; eauto.
Qed.

Lemma perform_begun fresh d a now : begun_from fresh d (perform d a now).1.1.
Proof.
  destruct a as [op|x|n l|n auth e target|n e name t raw|n j sub|result]; cbn [perform]; try by apply begun_tasks.
  - unfold warn_hookless. apply begun_tasks. by case_bool_decide.
  - apply begun_tasks. unfold retry_one. destruct target as [[[t o] w]|]; [|by case_bool_decide]. destruct (n <? o)%N; [done|].
    destruct (opt_filter _ _); [|done]. destruct (_ <=? _)%nat; [done|]. destruct (dp_queue d) as [q|]; [|done].
    by destruct (claim q (en_id e)) as [q' [raw|]].
  - unfold hand_over. destruct (json_parse raw); [by apply begun_tasks|]. destruct (try_send d t _) eqn:Es; [by eapply send_begun|by apply begun_tasks].
Qed.

(** What a worker that has done the first thing had begun, it has begun still. *)
Lemma rest_begun (task : Task (Value := Value)) a todo j sub : tk_todo task = a :: todo -> begun (set_todo todo task) j sub -> begun task j sub.
Proof. intros Ht [?|[now Hin]]; [by left|right]. exists now. rewrite Ht. by right. Qed.

Lemma act_begun fresh d t now instant : begun_from fresh d (act d t now instant).1.
Proof.
  unfold act. destruct (dp_tasks d !! t) as [task|] eqn:Ht; [|by apply begun_tasks].
  destruct (tk_flight task) eqn:Hfl; [by apply begun_tasks|]. destruct (tk_todo task) as [|a todo] eqn:Htodo; [by apply begun_tasks|].
  destruct a as [op|x|n l|n auth e target|n e name t' raw|n j sub|result]; cbn [fst]; try by apply begun_tasks.
  - unfold call_queue. cbn [fst]. eapply begun_trans; [eapply begun_put; [exact Ht|]|by apply begun_tasks].
    intros j sub Hb. left. by eapply rest_begun.
  - eapply begun_put; [exact Ht|]. intros j' sub' Hb. left. revert Hb. unfold begin.
    assert (forall op, begun (set_todo (OnQueue op :: todo) (set_todo todo task)) j' sub' -> begun task j' sub') as Hop.
    { intros op [?|[at_ [E|Hin]%elem_of_cons]]; [by left|done|]. right. exists at_. rewrite Htodo. by right. }
    destruct (jb_retry j && _); [apply Hop|]. destruct (is_open _ _); [apply Hop|].
    intros [[= <- <-]|[at_ Hin]]; right; [exists n|exists at_]; rewrite Htodo; [by left|by right].
  - destruct (break_circuit_same (set_todo todo task) result now instant) as (_ & _ & Ef & Et).
    eapply begun_put; [exact Ht|]. intros j sub Hb. left. eapply rest_begun; [exact Htodo|]. unfold begun in *. by rewrite Et, Ef in Hb.
Qed.

(** A delivery that begins is of a hook that is still there. *)
Lemma step_begun P d s : workers_ok P d -> begun_from (fun sub => P (ws_repo_id sub) (ws_hook_id sub)) d (step d s).1.
Proof.
  intros Hw. destruct s; cbn [step fst]; try by apply begun_tasks.
  - apply sync_begun.
  - apply enqueue_begun.
  - apply begun_tasks. unfold dispatch_retries. destruct (dp_queue d); [|done]. destruct (dp_stop d); [done|]. by destruct (due _ _).
  - unfold proceed. destruct (dp_calls d !! c) as [[|a l]|]; [by apply begun_tasks| |by apply begun_tasks].
    pose proof (perform_begun (fun sub => P (ws_repo_id sub) (ws_hook_id sub)) d a now) as Hp. destruct (perform d a now) as [[d' next] notes].
    eapply begun_trans; [exact Hp|]. by apply begun_tasks.
  - unfold wake. destruct (dp_tasks d !! t) as [task|] eqn:Ht; [|by apply begun_tasks].
    destruct (tk_flight task) eqn:Hfl; [by apply begun_tasks|]. destruct (tk_todo task) eqn:Htodo; [|by apply begun_tasks].
    destruct (tk_done task); [by apply begun_tasks|].
    destruct (dp_stop d); [eapply begun_put; [exact Ht|]; by intros j sub ?%persist_begun|].
    destruct (tk_chan task) as [|job chan].
    { destruct (tk_cancelled task); [|by apply begun_tasks]. eapply begun_put; [exact Ht|]. by intros j sub ?%(drain_begun [] ""). }
    destruct (tk_cancelled task) eqn:Ecan; (eapply begun_put; [exact Ht|]); [by intros j sub ?%drain_begun|].
    intros j sub [E|[at_ Hin]]; [simpl in E; congruence|]. apply list_elem_of_singleton in Hin as [= _ -> ->]. right.
    by apply (wo_tasks _ _ Hw _ _ Ht).
  - apply act_begun.
  - unfold finish. destruct (dp_tasks d !! t) as [task|] eqn:Ht; [|by apply begun_tasks].
    destruct (tk_flight task) as [[job sub]|]; [|by apply begun_tasks]. destruct (tk_todo task); [|by apply begun_tasks].
    eapply begun_put; [exact Ht|]. intros j s [?|[at_ [E|Hin]%elem_of_cons]]; [done|done|]. by apply list_elem_of_singleton in Hin.
  - unfold abandon. destruct (dp_tasks d !! t) as [task|] eqn:Ht; [|by apply begun_tasks].
    destruct (tk_flight task) as [[job sub]|]; [|by apply begun_tasks]. destruct (tk_todo task); [|by apply begun_tasks].
    destruct (dp_stop d); [|by apply begun_tasks]. eapply begun_put; [exact Ht|]. by intros j s ?%persist_begun.
Qed.

Lemma steps_begun P Q (allowed : forall r h, P r h -> Q r h) l d : Forall (step_ok P) l -> disp_ok P Q d ->
  begun_from (fun sub => P (ws_repo_id sub) (ws_hook_id sub)) d (steps d l).1.
Proof.
  rewrite steps_fst. intros Hl. revert d. induction Hl as [|s l Hs _ IH]; intros d Hd; simpl; [by apply begun_tasks|].
  eapply begun_trans; [by apply step_begun, Hd|]. apply IH. by apply step_keeps.
Qed.
End removed.

Section silence.
Context {Value : Type} `{services : Services Value} `{codec : Codec} `{order : HashOrder}.

(** C35: a removed or disabled hook falls silent, however the turns of calls and workers interleave.
    Once a hook is missing from the subscriptions [sync] was given, of a repository whose hooks were
    read for sure, and until it is listed again: (1) no delivery to it begins, not even of what was
    queued before; what its worker had begun when [sync] let go of the hooks is all it may still send.
    (2) When [sync]'s last call drops the hook's entries while no worker and no call is about to
    queue an event for it or to begin a delivery to it, nothing is queued for it from then on. Those
    under way may overtake the drop: [example_overtaken]. *)
Theorem removed_hook_silent disk schedule before r h subs authoritative meanwhile c now after :
  let q0 := start disk schedule in
  (forall i e, pend q0 !! i = Some e -> own_entry any_hook e) -> Forall (step_ok any_hook) before ->
  r ∈ authoritative -> Forall (sub_ok (other_hook r h)) subs ->
  Forall (step_ok (other_hook r h)) meanwhile -> Forall (step_ok (other_hook r h)) after ->
  let d1 := sync (steps (with_queue (Some q0)) before).1 subs authoritative in
  let d2 := (steps d1 meanwhile).1 in
  let d3 := (steps (proceed d2 c now).1 after).1 in
  (forall t task j sub, dp_tasks d3 !! t = Some task -> begun task j sub -> (ws_repo_id sub, ws_hook_id sub) = (r, h) ->
     exists task1, dp_tasks d1 !! t = Some task1 /\ begun task1 j sub)
  /\ (dp_calls d2 !! c = Some [gone_entries subs authoritative] -> quiet r h d2 ->
      forall q i e, dp_queue d3 = Some q -> pend q !! i = Some e -> hook_key e <> (r, h)).
Proof.
  intros q0 Hown Hb Hr Hs Hm Ha d1 d2 d3.
  assert (disp_ok (other_hook r h) any_hook d1) as H1 by by apply sync_removes; [apply steps_ok, started_ok|].
  assert (disp_ok (other_hook r h) any_hook d2) as H2 by by apply steps_ok.
  assert (Forall (step_ok (other_hook r h)) (meanwhile ++ Proceed c now :: after)) as Hall.
  { apply Forall_app. split; [done|]. by apply Forall_cons. }
  assert (d3 = (steps d1 (meanwhile ++ Proceed c now :: after)).1) as E3.
  { unfold d3, d2. rewrite !steps_fst, foldl_app. done. }
  split.
  - intros t task j sub Ht Hbegun Esub. rewrite E3 in Ht.
    by destruct (steps_begun (other_hook r h) any_hook (fun _ _ _ => I) _ d1 Hall H1 t task j sub Ht Hbegun) as [?|?].
  - intros Hc Hq q i e Eq He.
    assert (disp_ok (other_hook r h) (other_hook r h) d3) as H3 by by apply steps_ok; [..|apply (dropped_other r h d2 c subs authoritative)].
    destruct (do_queue _ _ _ H3 q Eq) as [_ Hown3]. by destruct (Hown3 i e He) as [_ ?].
Qed.
End silence.
(** ** Examples and witnesses *)

(** Sixteen bytes that depend on the text, as hex. *)
Definition hex_digit (a : Ascii.ascii) : Ascii.ascii := default "0"%char (String.get (N.to_nat (byte_val a mod 16)) "0123456789abcdef").
Definition example_hash (s : string) : string := of_bytes (take 32 (map hex_digit (rev (bytes s)) ++ replicate 32 "0"%char)).

Definition text_services : Services string := {|
  hash16 := example_hash;
  json_text s := Some s;
  json_parse s := inr s;
  status_text n := pretty n
|}.

Lemma hex_digit_hex a : is_hex_digit (hex_digit a) = true.
Proof. destruct a as [[] [] [] [] [] [] [] []]; reflexivity. Qed.

Lemma text_services_laws : ServiceLaws text_services.
Proof.
  constructor; intros s; change (hash16 s) with (example_hash s); unfold example_hash.
  - rewrite <-length_bytes, bytes_of_bytes, length_take, length_app, length_replicate. lia.
  - rewrite bytes_of_bytes. apply forallb_forall. intros a Ha%list_elem_of_In.
    apply elem_of_take in Ha as (i & Hi & _). apply list_elem_of_lookup_2, elem_of_app in Hi as [Hi|Hi].
    + apply list_elem_of_In, in_map_iff in Hi as (b & <- & _). apply hex_digit_hex.
    + apply elem_of_replicate in Hi as [-> _]. reflexivity.
Qed.

Definition example_sub : WebhookSub := mkWebhookSub "R" "h1" "https://example.org/hook" [] "secret" 0%N None.
Definition example_event : WebhookEvent string := mkWebhookEvent _ "push" None "{}" "D1".

Abbreviation Steps := (list (Step (Value := string))).

(** A worker takes its next job up to where the delivery starts; and what it does when it ends. *)
Definition start_delivery (now : N) : Steps := [Wake 0 now; Act 0 now now].
Definition end_delivery (result : RelayError + DeliveryReceipt) (now : N) : Steps := [Finish 0 result; Act 0 now now; Act 0 now now].
Definition failed : RelayError + DeliveryReceipt := inl (Unresolved "no such host").

(** The hook is listed, an event comes, its delivery fails: calls 0 and 1. *)
Definition failing_steps : Steps :=
  [Sync [example_sub] {["R"]}; Proceed 0 0; Enqueue "R" example_event] ++ start_delivery 1 ++ end_delivery failed 2.
(** Call [c] retries what is due. *)
Definition retry_steps (c : nat) (now : N) : Steps := [DispatchRetries now; Proceed c now; Proceed c now; Proceed c now].

Definition example_start : RetryQueue := start (codec := text_codec) (order := map_order) None [].
Definition run_example (l : Steps) : Dispatcher * list Note :=
  steps (services := text_services) (codec := text_codec) (order := map_order) (with_queue (Some example_start)) l.
Definition example_delivery : string := delivery_id (services := text_services) "h1" "D1".
Definition queued (d : Dispatcher (Value := string)) : list string := map fst (map_to_list (default ∅ (pend <$> dp_queue d))).

(** A delivery fails, waits a minute in the queue, is handed back to its worker, and succeeds. *)
Example example_retry :
  let d := run_example (failing_steps ++ retry_steps 2 60001 ++ start_delivery 60001 ++ retry_steps 3 60002 ++ start_delivery 60002) in
  let d' := run_example (failing_steps ++ retry_steps 2 60002 ++ start_delivery 60002
                         ++ end_delivery (inr (mkReceipt example_delivery 200%N 1%N)) 60003) in
  (d.2, elements (claimed (dp_queue d.1)), d'.2, elements (claimed (dp_queue d'.1)), queued d'.1)
  = ([QueuedNote example_delivery], [example_delivery], [QueuedNote example_delivery; DeliveredNote example_delivery], [], []).
Proof. vm_compute. reflexivity. Qed.

(** A worker reads that its hook is there, the hook is removed and its entries are dropped, and then
    the worker queues its failure: the event of the removed hook stays in the queue, and once the
    hook is enabled again it is delivered. *)
Definition overtaking_steps : Steps :=
  [Sync [example_sub] {["R"]}; Proceed 0 0; Enqueue "R" example_event] ++ start_delivery 1
  ++ [Finish 0 failed; Sync [] {["R"]}; Proceed 2 2; Act 0 3 3%N; Act 0 3 3%N].
Example example_overtaken :
  let d := (run_example overtaking_steps).1 in
  let d' := (run_example (overtaking_steps ++ [Sync [example_sub] {["R"]}; Proceed 3 4] ++ retry_steps 4 60003
                          ++ [Wake 1 60004; Act 1 60004 60004%N])).1 in
  (map_to_list (dp_hooks d), queued d, option_map (fun t => is_some_and (tk_flight t) (fun f => job_id (services := text_services) f.2 f.1 == example_delivery)) (dp_tasks d' !! 1))
  = ([], [example_delivery], Some true).
Proof. vm_compute. reflexivity. Qed.

Lemma nothing_pending i e : pend example_start !! i <> Some e.
Proof. intros [He _]%held_Some. simpl in He. by rewrite (lookup_empty i) in He. Qed.

Lemma example_steps_ok : Forall (step_ok any_hook) (failing_steps ++ retry_steps 2 60002).
Proof. repeat constructor. Qed.

Lemma claims_held_witness :
  let d := (steps (services := text_services) (codec := text_codec) (order := map_order)
              (with_queue (Some (start (codec := text_codec) (order := map_order) None []))) (failing_steps ++ retry_steps 2 60002)).1 in
  exists q, dp_queue d = Some q /\ owes (services := text_services) d example_delivery.
Proof.
  pose proof (claims_held (services := text_services) (codec := text_codec) (order := map_order) None [] (failing_steps ++ retry_steps 2 60002)
    (fun i e He => False_ind _ (nothing_pending i e He)) example_steps_ok) as Hheld.
  cbv zeta in *. set (d := (steps _ _).1) in *.
  assert (from_option (fun q => bool_decide (example_delivery ∈ st_claimed (q_state q))) false (dp_queue d) = true) as Hin by (vm_compute; reflexivity).
  clearbody d. destruct (dp_queue d) as [q|]; [|discriminate Hin].
  exists q. split; [reflexivity|]. apply (Hheld q example_delivery eq_refl). simpl in Hin. by apply bool_decide_eq_true in Hin.
Defined.

Definition is_nil {A} (l : list A) : bool := match l with [] => true | _ => false end.

(** Nothing is under way but call [c]. *)
Definition idle_but (c : nat) (d : Dispatcher (Value := string)) : bool :=
  forallb (fun x => is_nil (tk_todo x.2)) (map_to_list (dp_tasks d)) && forallb (fun x => (x.1 =? c)%nat || is_nil x.2) (map_to_list (dp_calls d)).

Lemma idle_quiet r h c d subs authoritative : idle_but c d = true -> dp_calls d !! c = Some [gone_entries subs authoritative] -> quiet r h d.
Proof.
  unfold idle_but. rewrite andb_true_iff, !forallb_forall. intros [Ht Hc] Hgone. split.
  - intros t task a Htask Ha. specialize (Ht (t, task) (proj1 (list_elem_of_In _ _) (proj2 (elem_of_map_to_list _ _ _) Htask))). simpl in Ht.
    destruct (tk_todo task); [by apply not_elem_of_nil in Ha|done].
  - intros c' l a Hl Ha. specialize (Hc (c', l) (proj1 (list_elem_of_In _ _) (proj2 (elem_of_map_to_list _ _ _) Hl))). simpl in Hc.
    apply orb_prop in Hc as [->%Nat.eqb_eq|Hnil]; [|destruct l; [by apply not_elem_of_nil in Ha|done]].
    rewrite Hgone in Hl. injection Hl as <-. apply list_elem_of_singleton in Ha as ->. intros (now & f & at_ & counts & until & E & _). discriminate E.
Qed.

Lemma removed_hook_silent_witness :
  let d1 := sync (order := map_order)
    (steps (services := text_services) (codec := text_codec) (order := map_order)
       (with_queue (Some (start (codec := text_codec) (order := map_order) None []))) failing_steps).1 [] {["R"]} in
  let d3 := (steps (services := text_services) (codec := text_codec) (order := map_order)
    (proceed (services := text_services) (codec := text_codec) (order := map_order)
      (steps (services := text_services) (codec := text_codec) (order := map_order) d1 []).1 2 3).1 (retry_steps 3 60002)).1 in
  exists q, dp_queue d3 = Some q /\ map_Forall (fun _ e => hook_key e <> ("R", "h1")) (pend q).
Proof.
  assert (Forall (step_ok any_hook) failing_steps) as Hb by repeat constructor.
  assert ("R" ∈ ({["R"]} : gset string)) as Hr by set_solver.
  assert (Forall (step_ok (other_hook "R" "h1")) (retry_steps 3 60002)) as Ha by repeat constructor.
  pose proof (proj2 (removed_hook_silent (services := text_services) (codec := text_codec) (order := map_order) None [] failing_steps
    "R" "h1" [] {["R"]} [] 2 3 (retry_steps 3 60002) (fun i e He => False_ind _ (nothing_pending i e He)) Hb Hr (Forall_nil_2 _) (Forall_nil_2 _) Ha)) as Hsilent.
  cbv zeta in *. set (d2 := (steps (sync _ _ _) []).1) in *.
  assert (dp_calls d2 !! 2 = Some [gone_entries [] {["R"]}]) as Hc by (vm_compute; reflexivity).
  assert (idle_but 2 d2 = true) as Hi by (vm_compute; reflexivity).
  specialize (Hsilent Hc (idle_quiet "R" "h1" 2 d2 [] {["R"]} Hi Hc)). set (d3 := (steps (proceed d2 2 3).1 _).1) in *.
  assert (is_some_and (dp_queue d3) (fun _ => true) = true) as Hq by (vm_compute; reflexivity).
  clearbody d3. destruct (dp_queue d3) as [q|]; [|discriminate Hq].
  exists q. split; [reflexivity|]. intros i e He. exact (Hsilent q i e eq_refl He).
Defined.
