(* ===== verification/Ssrf.v ===== *)
(** The guard on webhook targets ([forge-relay/src/ssrf.rs]) and the clients the deliverer sends
    through ([Deliverer::client_for] of [deliver.rs]): which addresses are not public, the checks of
    a delivery URL, the addresses a delivery is pinned to, and what these leave reachable. *)
From S2P Require Import Wire Prelude Text RetryQueue QueueRuns Dispatch.
From stdpp Require Import pretty.
From Stdlib Require Import ZifyBool.

(** ** Definitions *)

(** *** Addresses *)

Local Open Scope N_scope.

Record Ipv4Addr := mkV4 { oct0 : N; oct1 : N; oct2 : N; oct3 : N }.
Record Ipv6Addr := mkV6 { seg0 : N; seg1 : N; seg2 : N; seg3 : N; seg4 : N; seg5 : N; seg6 : N; seg7 : N }.
Inductive IpAddr := V4 (ip : Ipv4Addr) | V6 (ip : Ipv6Addr).

#[export] Instance Ipv4Addr_eq_dec : EqDecision Ipv4Addr.
Proof. solve_decision. Defined.
#[export] Instance Ipv6Addr_eq_dec : EqDecision Ipv6Addr.
Proof. solve_decision. Defined.
#[export] Instance IpAddr_eq_dec : EqDecision IpAddr.
Proof. solve_decision. Defined.

Record SocketAddr := mkSocketAddr { sa_ip : IpAddr; sa_port : N }.
#[export] Instance SocketAddr_eq_dec : EqDecision SocketAddr.
Proof. solve_decision. Defined.

Definition segments (ip : Ipv6Addr) : list N :=
  [seg0 ip; seg1 ip; seg2 ip; seg3 ip; seg4 ip; seg5 ip; seg6 ip; seg7 ip].

(** The octets are bytes, the segments 16-bit words. *)
Definition ip_wf (ip : IpAddr) : Prop :=
  match ip with
  | V4 ip => oct0 ip < 256 /\ oct1 ip < 256 /\ oct2 ip < 256 /\ oct3 ip < 256
  | V6 ip => Forall (fun s => s < 65536) (segments ip)
  end.

(** *** The standard library's address predicates *)

Definition v4_is_loopback (ip : Ipv4Addr) : bool := oct0 ip =? 127.
Definition v4_is_private (ip : Ipv4Addr) : bool :=
  (oct0 ip =? 10) || (oct0 ip =? 172) && (16 <=? oct1 ip) && (oct1 ip <=? 31) || (oct0 ip =? 192) && (oct1 ip =? 168).
Definition v4_is_link_local (ip : Ipv4Addr) : bool := (oct0 ip =? 169) && (oct1 ip =? 254).
Definition v4_is_unspecified (ip : Ipv4Addr) : bool := (oct0 ip =? 0) && (oct1 ip =? 0) && (oct2 ip =? 0) && (oct3 ip =? 0).
Definition v4_is_broadcast (ip : Ipv4Addr) : bool :=
  (oct0 ip =? 255) && (oct1 ip =? 255) && (oct2 ip =? 255) && (oct3 ip =? 255).
Definition v4_is_documentation (ip : Ipv4Addr) : bool :=
  (oct0 ip =? 192) && (oct1 ip =? 0) && (oct2 ip =? 2)
  || (oct0 ip =? 198) && (oct1 ip =? 51) && (oct2 ip =? 100)
  || (oct0 ip =? 203) && (oct1 ip =? 0) && (oct2 ip =? 113).
Definition v4_is_multicast (ip : Ipv4Addr) : bool := (224 <=? oct0 ip) && (oct0 ip <=? 239).

Definition v6_is_loopback (ip : Ipv6Addr) : bool := segments ip == [0; 0; 0; 0; 0; 0; 0; 1].
Definition v6_is_unspecified (ip : Ipv6Addr) : bool := segments ip == [0; 0; 0; 0; 0; 0; 0; 0].
Definition v6_is_multicast (ip : Ipv6Addr) : bool := N.land (seg0 ip) 0xFF00 =? 0xFF00.

(** *** What is not public *)

Definition v4_is_non_public (ip : Ipv4Addr) : bool :=
  v4_is_loopback ip || v4_is_private ip || v4_is_link_local ip || v4_is_unspecified ip || v4_is_broadcast ip
  || v4_is_documentation ip || v4_is_multicast ip
  || (oct0 ip =? 0)
  || (oct0 ip =? 100) && (N.land (oct1 ip) 0xC0 =? 64)
  || (oct0 ip =? 192) && (oct1 ip =? 0) && (oct2 ip =? 0)
  || (oct0 ip =? 192) && (oct1 ip =? 88) && (oct2 ip =? 99)
  || (oct0 ip =? 198) && (N.land (oct1 ip) 0xFE =? 18)
  || (240 <=? oct0 ip).

Definition embedded_v4 (hi lo : N) : Ipv4Addr := mkV4 (hi / 256) (hi mod 256) (lo / 256) (lo mod 256).

(** [Ipv6Addr::to_ipv4_mapped]. *)
Definition to_ipv4_mapped (ip : Ipv6Addr) : option Ipv4Addr :=
  if take 6 (segments ip) == [0; 0; 0; 0; 0; 0xFFFF] then Some (embedded_v4 (seg6 ip) (seg7 ip)) else None.

(** The special-purpose ranges of no host. *)
Definition v6_special_purpose (ip : Ipv6Addr) : bool :=
  (seg0 ip =? 0x0100) && (take 3 (drop 1 (segments ip)) == [0; 0; 0])
  || (seg0 ip =? 0x2001) && (seg1 ip =? 0x0002) && (seg2 ip =? 0)
  || (seg0 ip =? 0x2001) && (N.land (seg1 ip) 0xFFF0 =? 0x0010)
  || (seg0 ip =? 0x2001) && (N.land (seg1 ip) 0xFFF0 =? 0x0020)
  || (seg0 ip =? 0x3FFF) && (N.land (seg1 ip) 0xF000 =? 0)
  || (seg0 ip =? 0x5F00).

Definition v6_is_non_public (ip : Ipv6Addr) : bool :=
  if v6_is_loopback ip || v6_is_unspecified ip || v6_is_multicast ip then true
  else if (N.land (seg0 ip) 0xFFC0 =? 0xFE80) || (N.land (seg0 ip) 0xFFC0 =? 0xFEC0) then true
  else if N.land (seg0 ip) 0xFE00 =? 0xFC00 then true
  else if (seg0 ip =? 0x2001) && (seg1 ip =? 0x0DB8) then true
  else
    match to_ipv4_mapped ip with
    | Some v4 => v4_is_non_public v4
    | None =>
        if forallb (fun s => s =? 0) (take 6 (segments ip)) then v4_is_non_public (embedded_v4 (seg6 ip) (seg7 ip))
        else if take 6 (segments ip) == [0; 0; 0; 0; 0xFFFF; 0] then v4_is_non_public (embedded_v4 (seg6 ip) (seg7 ip))
        else if v6_special_purpose ip then true
        else if (seg0 ip =? 0x0064) && (seg1 ip =? 0xFF9B) then
          if seg2 ip =? 0x0001 then true else v4_is_non_public (embedded_v4 (seg6 ip) (seg7 ip))
        else if seg0 ip =? 0x2002 then v4_is_non_public (embedded_v4 (seg1 ip) (seg2 ip))
        else if (seg0 ip =? 0x2001) && (seg1 ip =? 0) then true
        else false
    end.

Definition ip_is_non_public (ip : IpAddr) : bool :=
  match ip with V4 v4 => v4_is_non_public v4 | V6 v6 => v6_is_non_public v6 end.

(** *** The blocks, as the registries list them: a prefix, its length, and addresses as numbers *)

Definition bits4 (ip : Ipv4Addr) : N := ((oct0 ip * 256 + oct1 ip) * 256 + oct2 ip) * 256 + oct3 ip.
Definition bits6 (ip : Ipv6Addr) : N := foldl (fun a s => a * 65536 + s) 0 (segments ip).
Definition block4 (a b c d len : N) : N * N := (bits4 (mkV4 a b c d), 2 ^ (32 - len)).
(** An IPv6 prefix whose segments from the fourth on are zero. *)
Definition block6 (a b c len : N) : N * N := (bits6 (mkV6 a b c 0 0 0 0 0), 2 ^ (128 - len)).
Definition in_block (block : N * N) (n : N) : bool := (block.1 <=? n) && (n <? block.1 + block.2).

Definition RESERVED_V4 : list (N * N) :=
  [block4 0 0 0 0 8; block4 10 0 0 0 8; block4 100 64 0 0 10; block4 127 0 0 0 8; block4 169 254 0 0 16; block4 172 16 0 0 12;
   block4 192 0 0 0 24; block4 192 0 2 0 24; block4 192 88 99 0 24; block4 192 168 0 0 16; block4 198 18 0 0 15;
   block4 198 51 100 0 24; block4 203 0 113 0 24; block4 224 0 0 0 4; block4 240 0 0 0 4].
Definition reserved4 (n : N) : bool := existsb (fun b => in_block b n) RESERVED_V4.

(** [::/128], [::1/128], [64:ff9b:1::/48], [100::/64], [2001::/32], [2001:2::/48], [2001:10::/28], [2001:20::/28],
    [2001:db8::/32], [3fff::/20], [5f00::/16], [fc00::/7], [fe80::/10], [fec0::/10] and [ff00::/8]. *)
Definition RESERVED_V6 : list (N * N) :=
  [block6 0 0 0 128; (1, 1); block6 0x64 0xFF9B 1 48; block6 0x100 0 0 64; block6 0x2001 0 0 32; block6 0x2001 2 0 48;
   block6 0x2001 0x10 0 28; block6 0x2001 0x20 0 28; block6 0x2001 0xDB8 0 32; block6 0x3FFF 0 0 20; block6 0x5F00 0 0 16;
   block6 0xFC00 0 0 7; block6 0xFE80 0 0 10; block6 0xFEC0 0 0 10; block6 0xFF00 0 0 8].
(** The forms that hold an IPv4 address, and how far above its end: IPv4-compatible, IPv4-mapped,
    IPv4-translated, NAT64 and 6to4. *)
Definition EMBEDDING_V6 : list (N * N * N) :=
  [(block6 0 0 0 96, 0); ((bits6 (mkV6 0 0 0 0 0 0xFFFF 0 0), 2 ^ 32), 0); ((bits6 (mkV6 0 0 0 0 0xFFFF 0 0 0), 2 ^ 32), 0);
   (block6 0x64 0xFF9B 0 32, 0); (block6 0x2002 0 0 16, 80)].
Definition reserved6 (n : N) : bool :=
  existsb (fun b => in_block b n) RESERVED_V6
  || existsb (fun b => in_block b.1 n && reserved4 (n / 2 ^ b.2 mod 2 ^ 32)) EMBEDDING_V6.

Definition reserved (ip : IpAddr) : bool :=
  match ip with V4 ip => reserved4 (bits4 ip) | V6 ip => reserved6 (bits6 ip) end.

(** *** Texts of addresses *)

Definition ipv4_text (ip : Ipv4Addr) : string :=
  pretty (oct0 ip) +:+ "." +:+ pretty (oct1 ip) +:+ "." +:+ pretty (oct2 ip) +:+ "." +:+ pretty (oct3 ip).

Definition hex_char (n : N) : Ascii.ascii := default "0"%char (String.get (N.to_nat n) "0123456789abcdef").
(** [{:x}]. *)
Fixpoint hex_from (fuel : nat) (n : N) (rest : string) : string :=
  match fuel with
  | O => rest
  | S fuel =>
      let rest := String (hex_char (n mod 16)) rest in
      if n <? 16 then rest else hex_from fuel (n / 16) rest
  end.
Definition hex_text (n : N) : string := hex_from 4 n "".
Definition segments_text (l : list N) : string := String.concat ":" (map hex_text l).

(** The first longest run of zero segments, as its start and length. *)
Definition zero_run (l : list N) : nat * nat :=
  (foldl (fun acc x =>
     let '(longest, current) := acc in
     if x.2 =? 0 then
       let current := ((if bool_decide (current.2 = 0%nat) then x.1 else current.1), S current.2) in
       ((if (longest.2 <? current.2)%nat then current else longest), current)
     else (longest, (0%nat, 0%nat)))
   ((0%nat, 0%nat), (0%nat, 0%nat)) (zip (seq 0 (length l)) l)).1.

(** [Ipv6Addr]'s [Display]. *)
Definition ipv6_text (ip : Ipv6Addr) : string :=
  match to_ipv4_mapped ip with
  | Some v4 => "::ffff:" +:+ ipv4_text v4
  | None =>
      let '(start, run) := zero_run (segments ip) in
      if (1 <? run)%nat
      then segments_text (take start (segments ip)) +:+ "::" +:+ segments_text (drop (start + run) (segments ip))
      else segments_text (segments ip)
  end.
Definition ip_text (ip : IpAddr) : string := match ip with V4 ip => ipv4_text ip | V6 ip => ipv6_text ip end.

(** *** Targets *)

Inductive Host := Domain (name : string) | HostV4 (ip : Ipv4Addr) | HostV6 (ip : Ipv6Addr).
Definition host_ip (h : Host) : option IpAddr :=
  match h with Domain _ => None | HostV4 ip => Some (V4 ip) | HostV6 ip => Some (V6 ip) end.

(** The WHATWG parser ([reqwest::Url]). *)
Class UrlParser (Url : Type) := {
  url_parse : string -> string + Url;
  url_scheme : Url -> string;
  url_username : Url -> string;
  url_password : Url -> option string;
  url_host : Url -> option Host;
  url_host_str : Url -> option string;
  url_port : Url -> option N;
  url_port_or_known_default : Url -> option N;
  url_text : Url -> string
}.
Class UrlLaws {Url} (parser : UrlParser Url) : Prop := {
  domain_text : forall u d, url_host u = Some (Domain d) -> url_host_str u = Some d;
  domain_chars : forall u d, url_host u = Some (Domain d) -> "|"%char ∉ bytes d;
  literal_wf : forall u h ip, url_host u = Some h -> host_ip h = Some ip -> ip_wf ip
}.

Inductive Lookup := TimedOut | LookupFailed (e : string) | Found (addrs : list SocketAddr).

Record ValidatedTarget {Url : Type} := mkTarget { vt_url : Url; vt_host : string; vt_pinned : option (list SocketAddr) }.
Arguments ValidatedTarget : clear implicits.
Arguments mkTarget {Url} _ _ _.

(** What a [reqwest::ClientBuilder] is told: whether redirects are followed and environment proxies
    used, the names with addresses of their own, the resolver of the others, and the timeout. *)
Record ClientBuilder := mkBuilder {
  cb_redirects : bool;
  cb_proxy : bool;
  cb_pins : list (string * list SocketAddr);
  cb_resolver : string -> string + list SocketAddr;
  cb_timeout : option Duration
}.

(** [NoDns]. *)
Definition no_dns (name : string) : string + list SocketAddr := inl (name +:+ " has no validated address").

Definition MAX_DEST_POOLS : nat := 4096.

Section targets.
Context {Url : Type} `{parser : UrlParser Url} (debug : string -> string) (debug_pins : option (list SocketAddr) -> string).

Definition parse_target (url : string) : RelayError + Url :=
  match url_parse (trim url) with
  | inl e => inl (Ssrf ("malformed delivery URL (" +:+ e +:+ ")"))
  | inr parsed =>
      if negb ((url_scheme parsed == "http") || (url_scheme parsed == "https"))
      then inl (Ssrf ("refusing delivery URL with scheme " +:+ debug (url_scheme parsed)))
      else if (url_username parsed != "") || is_some_and (url_password parsed) (fun _ => true)
      then inl (Ssrf "refusing delivery URL with userinfo (user:pass@host)")
      else match url_host parsed with None => inl (Ssrf "delivery URL has no host") | Some _ => inr parsed end
  end.

Definition redact (url : string) : string :=
  match url_parse url with
  | inr u =>
      match url_host_str u, url_port u with
      | Some h, Some p => url_scheme u +:+ "://" +:+ h +:+ ":" +:+ pretty p
      | Some h, None => url_scheme u +:+ "://" +:+ h
      | None, _ => "<url without host>"
      end
  | inl _ => "<malformed url>"
  end.

Definition refuse (shown : string) (ip : IpAddr) (how : string) : RelayError :=
  Ssrf ("refusing delivery to non-public address " +:+ ip_text ip +:+ how
        +:+ " (run with --allow-private for local testing): " +:+ shown).

Definition resolve_and_validate (url : string) (allow_private : bool) (lookup : string -> N -> Lookup) :
    RelayError + ValidatedTarget Url :=
  match parse_target url with
  | inl e => inl e
  | inr parsed =>
      let shown := redact url in
      match url_host parsed ≫= host_ip with
      | Some ip =>
          if negb allow_private && ip_is_non_public ip then inl (refuse shown ip "") else inr (mkTarget parsed "" None)
      | None =>
          let host := default "" (url_host_str parsed) in
          let port := default 443 (url_port_or_known_default parsed) in
          match lookup host port with
          | TimedOut => inl (Unresolved ("DNS lookup for " +:+ debug host +:+ " timed out"))
          | LookupFailed e => inl (Unresolved ("resolving delivery host " +:+ debug host +:+ ": " +:+ e))
          | Found [] => inl (Unresolved ("delivery host " +:+ debug host +:+ " resolved to no addresses"))
          | Found addrs =>
              match (if allow_private then None else List.find (fun a => ip_is_non_public (sa_ip a)) addrs) with
              | Some bad => inl (refuse shown (sa_ip bad) (" (resolved from " +:+ debug host +:+ ")"))
              | None => inr (mkTarget parsed host (Some addrs))
              end
          end
      end
  end.

Definition ip_key (t : ValidatedTarget Url) : string :=
  match vt_pinned t, url_host (vt_url t) with
  | Some (a :: _), _ => ip_text (sa_ip a)
  | _, Some (HostV4 ip) => ipv4_text ip
  | _, Some (HostV6 ip) => ipv6_text ip
  | _, _ => vt_host t
  end.

Definition client_builder (t : ValidatedTarget Url) : ClientBuilder :=
  mkBuilder false false (match vt_pinned t with Some addrs => [(vt_host t, addrs)] | None => [] end) no_dns None.
Definition with_timeout (timeout : Duration) (b : ClientBuilder) : ClientBuilder :=
  mkBuilder (cb_redirects b) (cb_proxy b) (cb_pins b) (cb_resolver b) (Some timeout).

(** [Deliverer::client_for], with the cache of clients; building one can fail. *)
Definition client_key (t : ValidatedTarget Url) : string := vt_host t +:+ "|" +:+ debug_pins (vt_pinned t).
Definition client_for (timeout : Duration) (build_error : option string) (cache : gmap string ClientBuilder)
    (t : ValidatedTarget Url) : gmap string ClientBuilder * (RelayError + ClientBuilder) :=
  match cache !! client_key t with
  | Some c => (cache, inr c)
  | None =>
      match build_error with
      | Some e => (cache, inl (Config ("building HTTP client: " +:+ e)))
      | None =>
          let client := with_timeout timeout (client_builder t) in
          let cache := if (MAX_DEST_POOLS <=? size cache)%nat then ∅ else cache in
          (<[client_key t := client]> cache, inr client)
      end
  end.

(** What [deliver_inner] resolves before it sends; [outcomes] are the attempts' at a target. *)
Definition target_of (url : string) (allow_private : bool) (lookup : string -> N -> Lookup)
    (outcomes : ValidatedTarget Url -> N -> Attempt) : RelayError + (N -> Attempt) :=
  match resolve_and_validate url allow_private lookup with inl e => inl e | inr t => inr (outcomes t) end.

(** *** What a client reaches *)

(** The addresses a client told [b] may connect to for [u]: the literal host's; those of its own for
    the name, and without any the resolver's; anything at all where it follows redirects or a proxy. *)
Definition may_reach (b : ClientBuilder) (u : Url) (ip : IpAddr) : Prop :=
  cb_redirects b = true \/ cb_proxy b = true
  \/ match url_host u with
     | None => False
     | Some (Domain d) =>
         match List.find (fun p => p.1 == d) (cb_pins b) with
         | Some p => ip ∈ map sa_ip p.2
         | None => match cb_resolver b d with inl _ => False | inr addrs => ip ∈ map sa_ip addrs end
         end
     | Some h => host_ip h = Some ip
     end.

(** Where a validated target may be connected to. *)
Definition destinations (t : ValidatedTarget Url) : list IpAddr :=
  match vt_pinned t with Some addrs => map sa_ip addrs | None => option_list (url_host (vt_url t) ≫= host_ip) end.

(** Every cached client was built for a target of its key, whose host is a domain. *)
Definition cache_sound (timeout : Duration) (cache : gmap string ClientBuilder) : Prop :=
  map_Forall (fun k c => exists t, k = client_key t /\ ("|"%char ∉ bytes (vt_host t)) /\ c = with_timeout timeout (client_builder t)) cache.
End targets.

(** ** The code's tests pick out exactly the registries' blocks *)

(** A predicate that holds of every number below [n]. *)
Definition below (n : N) (p : N -> bool) : bool := (N.iter n (fun st => (st.1 + 1, st.2 && p st.1)) (0, true)).2.
Lemma below_spec n p x : below n p = true -> x < n -> p x = true.
Proof.
  unfold below. revert x.
  assert (forall m, (N.iter m (fun st => (st.1 + 1, st.2 && p st.1)) (0, true)).1 = m) as Hf.
  { intros m. induction m as [|m IH] using N.peano_ind; [done|]. rewrite N.iter_succ. simpl. lia. }
  induction n as [|n IH] using N.peano_ind; [lia|]. rewrite N.iter_succ. simpl. intros x [H1 H2]%andb_true_iff Hx.
  rewrite Hf in H2. destruct (decide (x = n)) as [->|]; [done|]. apply IH; [done|lia].
Qed.

(** A masked byte or word is a range. *)
Lemma mask_range n mask value lo hi s :
  below n (fun s => eqb (N.land s mask =? value) ((lo <=? s) && (s <=? hi))) = true -> s < n ->
  (N.land s mask =? value) = (lo <=? s) && (s <=? hi).
Proof. intros H Hs. apply eqb_prop. exact (below_spec _ _ s H Hs). Qed.

Ltac by_range lo hi n := apply (mask_range n _ _ lo hi); [vm_compute; reflexivity|done].
Lemma mask_C0 s : s < 256 -> (N.land s 0xC0 =? 64) = (64 <=? s) && (s <=? 127).
Proof. intros. by_range 64 127 256. Qed.
Lemma mask_FE s : s < 256 -> (N.land s 0xFE =? 18) = (18 <=? s) && (s <=? 19).
Proof. intros. by_range 18 19 256. Qed.
Lemma mask_FF00 s : s < 65536 -> (N.land s 0xFF00 =? 0xFF00) = (0xFF00 <=? s) && (s <=? 0xFFFF).
Proof. intros. by_range 0xFF00 0xFFFF 65536. Qed.
Lemma mask_FFC0 s : s < 65536 ->
  (N.land s 0xFFC0 =? 0xFE80) || (N.land s 0xFFC0 =? 0xFEC0) = (0xFE80 <=? s) && (s <=? 0xFEFF).
Proof.
  intros. replace (N.land s 0xFFC0 =? 0xFE80) with ((0xFE80 <=? s) && (s <=? 0xFEBF)) by (symmetry; by_range 0xFE80 0xFEBF 65536).
  replace (N.land s 0xFFC0 =? 0xFEC0) with ((0xFEC0 <=? s) && (s <=? 0xFEFF)) by (symmetry; by_range 0xFEC0 0xFEFF 65536). lia.
Qed.
Lemma mask_FE00 s : s < 65536 -> (N.land s 0xFE00 =? 0xFC00) = (0xFC00 <=? s) && (s <=? 0xFDFF).
Proof. intros. by_range 0xFC00 0xFDFF 65536. Qed.
Lemma mask_FFF0 s v : v = 0x10 \/ v = 0x20 -> s < 65536 -> (N.land s 0xFFF0 =? v) = (v <=? s) && (s <=? v + 15).
Proof. intros [->| ->] ?; [by_range 0x10 (0x10 + 15) 65536|by_range 0x20 (0x20 + 15) 65536]. Qed.
Lemma mask_F000 s : s < 65536 -> (N.land s 0xF000 =? 0) = (0 <=? s) && (s <=? 0xFFF).
Proof. intros. by_range 0 0xFFF 65536. Qed.

(** Close powers of two. *)
Ltac powers :=
  repeat match goal with |- context [N.pow ?a ?b] => let v := eval vm_compute in (N.pow a b) in change (N.pow a b) with v end.

(** Prove a boolean disjunction by one of its disjuncts, and two equal by each's disjuncts. *)
Ltac pick := lazymatch goal with |- _ || _ = true => apply orb_true_iff; first [right; pick|left; pick] | |- _ => lia end.
Ltac each_disjunct :=
  repeat match goal with
  | H : _ || _ = true |- _ => apply orb_true_iff in H as [H|H]
  | H : _ || _ = false |- _ => apply orb_false_iff in H as [? H]
  end.

Lemma non_public_v4 ip : ip_wf (V4 ip) -> v4_is_non_public ip = reserved4 (bits4 ip).
Proof.
  destruct ip as [a b c d]. intros (Ha & Hb & Hc & Hd). simpl in *.
  unfold v4_is_non_public, v4_is_loopback, v4_is_private, v4_is_link_local, v4_is_unspecified, v4_is_broadcast, v4_is_documentation,
    v4_is_multicast, reserved4, RESERVED_V4, in_block, block4, bits4. cbn [existsb fst snd oct0 oct1 oct2 oct3].
  rewrite mask_C0, mask_FE by done. powers. apply eq_iff_eq_true; split; intros H; each_disjunct; try done; pick.
Qed.

Lemma non_public_embedded hi lo : hi < 65536 -> lo < 65536 ->
  v4_is_non_public (embedded_v4 hi lo) = reserved4 (hi * 65536 + lo).
Proof.
  intros Hhi Hlo. pose proof (N.div_mod' hi 256). pose proof (N.div_mod' lo 256).
  pose proof (N.mod_lt hi 256 ltac:(done)). pose proof (N.mod_lt lo 256 ltac:(done)).
  rewrite non_public_v4.
  - f_equal. unfold bits4, embedded_v4. cbn [oct0 oct1 oct2 oct3]. lia.
  - unfold ip_wf, embedded_v4. cbn [oct0 oct1 oct2 oct3]. split_and!; (done || by apply N.Div0.div_lt_upper_bound).
Qed.

(** The IPv6 tests, on the address as a number. *)
Section v6_tests.
Context (ip : Ipv6Addr) (Hwf : ip_wf (V6 ip)).
Abbreviation n := (bits6 ip).

Local Ltac by_segments :=
  destruct ip as [a b c d e f g h]; unfold ip_wf, segments in Hwf; cbn [seg0 seg1 seg2 seg3 seg4 seg5 seg6 seg7] in Hwf; split_forall;
  unfold v6_is_loopback, v6_is_unspecified, v6_is_multicast, to_ipv4_mapped, segments, in_block, block6, bits6;
  cbn [forallb foldl take drop segments fst snd seg0 seg1 seg2 seg3 seg4 seg5 seg6 seg7] in *.

Lemma loopback_block : v6_is_loopback ip = in_block (1, 1) n.
Proof.
  by_segments. apply eq_iff_eq_true. rewrite bool_decide_eq_true. split; [intros [=]; lia|].
  intros Hr. repeat f_equal; lia.
Qed.
Lemma unspecified_block : v6_is_unspecified ip = in_block (block6 0 0 0 128) n.
Proof.
  by_segments. powers. apply eq_iff_eq_true. rewrite bool_decide_eq_true. split; [intros [=]; lia|].
  intros Hr. repeat f_equal; lia.
Qed.
Lemma multicast_block : v6_is_multicast ip = in_block (block6 0xFF00 0 0 8) n.
Proof. by_segments. rewrite mask_FF00 by done. powers. lia. Qed.
Lemma link_local_block :
  (N.land (seg0 ip) 0xFFC0 =? 0xFE80) || (N.land (seg0 ip) 0xFFC0 =? 0xFEC0)
  = in_block (block6 0xFE80 0 0 10) n || in_block (block6 0xFEC0 0 0 10) n.
Proof. by_segments. rewrite mask_FFC0 by done. powers. lia. Qed.
Lemma unique_local_block : (N.land (seg0 ip) 0xFE00 =? 0xFC00) = in_block (block6 0xFC00 0 0 7) n.
Proof. by_segments. rewrite mask_FE00 by done. powers. lia. Qed.
Lemma documentation_block : (seg0 ip =? 0x2001) && (seg1 ip =? 0x0DB8) = in_block (block6 0x2001 0xDB8 0 32) n.
Proof. by_segments. powers. lia. Qed.
Lemma teredo_block : (seg0 ip =? 0x2001) && (seg1 ip =? 0) = in_block (block6 0x2001 0 0 32) n.
Proof. by_segments. powers. lia. Qed.
Lemma six_to_four_block : (seg0 ip =? 0x2002) = in_block (block6 0x2002 0 0 16) n.
Proof. by_segments. powers. lia. Qed.
Lemma nat64_block : (seg0 ip =? 0x0064) && (seg1 ip =? 0xFF9B) = in_block (block6 0x64 0xFF9B 0 32) n.
Proof. by_segments. powers. lia. Qed.
Lemma local_nat64_block : in_block (block6 0x64 0xFF9B 0 32) n = true ->
  (seg2 ip =? 1) = in_block (block6 0x64 0xFF9B 1 48) n.
Proof. by_segments. powers. lia. Qed.
Lemma compatible_block : forallb (fun s => s =? 0) (take 6 (segments ip)) = in_block (block6 0 0 0 96) n.
Proof. by_segments. powers. lia. Qed.
Lemma mapped_block (other : bool) : match to_ipv4_mapped ip with Some v4 => v4_is_non_public v4 | None => other end
  = if in_block (bits6 (mkV6 0 0 0 0 0 0xFFFF 0 0), 2 ^ 32) n then v4_is_non_public (embedded_v4 (seg6 ip) (seg7 ip)) else other.
Proof.
  assert (bool_decide (take 6 (segments ip) = [0; 0; 0; 0; 0; 0xFFFF]) = in_block (bits6 (mkV6 0 0 0 0 0 0xFFFF 0 0), 2 ^ 32) n) as He.
  { by_segments. powers. apply eq_iff_eq_true. rewrite bool_decide_eq_true. split; [intros [=]; lia|].
    intros Hr. repeat f_equal; lia. }
  unfold to_ipv4_mapped. rewrite He. by destruct (in_block _ _).
Qed.
Lemma translated_block :
  (take 6 (segments ip) == [0; 0; 0; 0; 0xFFFF; 0]) = in_block (bits6 (mkV6 0 0 0 0 0xFFFF 0 0 0), 2 ^ 32) n.
Proof.
  by_segments. powers. apply eq_iff_eq_true. rewrite bool_decide_eq_true. split; [intros [=]; lia|].
  intros Hr. repeat f_equal; lia.
Qed.
Lemma special_block : v6_special_purpose ip
  = in_block (block6 0x100 0 0 64) n || in_block (block6 0x2001 2 0 48) n || in_block (block6 0x2001 0x10 0 28) n
    || in_block (block6 0x2001 0x20 0 28) n || in_block (block6 0x3FFF 0 0 20) n || in_block (block6 0x5F00 0 0 16) n.
Proof.
  unfold v6_special_purpose. by_segments.
  rewrite (mask_FFF0 _ 0x10), (mask_FFF0 _ 0x20), mask_F000 by auto. powers.
  replace ([b; c; d] == [0; 0; 0]) with ((b =? 0) && (c =? 0) && (d =? 0)) by (apply eq_iff_eq_true; rewrite bool_decide_eq_true; split; [intros Hr; repeat f_equal; lia|intros [=]; lia]).
  do 5 (f_equal; [|lia]). lia.
Qed.

Lemma low_embedded : v4_is_non_public (embedded_v4 (seg6 ip) (seg7 ip)) = reserved4 (n / 2 ^ 0 mod 2 ^ 32).
Proof.
  by_segments. rewrite non_public_embedded by done. f_equal. powers. rewrite N.div_1_r.
  apply N.mod_unique with (((((a * 65536 + b) * 65536 + c) * 65536 + d) * 65536 + e) * 65536 + f); lia.
Qed.
Lemma high_embedded : v4_is_non_public (embedded_v4 (seg1 ip) (seg2 ip)) = reserved4 (n / 2 ^ 80 mod 2 ^ 32).
Proof.
  by_segments. rewrite non_public_embedded by done. f_equal. powers.
  rewrite <-(N.div_unique _ 1208925819614629174706176 (a * 4294967296 + b * 65536 + c)
    ((((d * 65536 + e) * 65536 + f) * 65536 + g) * 65536 + h)); [|lia..].
  apply N.mod_unique with a; lia.
Qed.
End v6_tests.

(** Compute the blocks. *)
Ltac blocks :=
  repeat match goal with |- context [block6 ?a ?b ?c ?l] => let v := eval vm_compute in (block6 a b c l) in change (block6 a b c l) with v end;
  repeat match goal with |- context [bits6 (mkV6 ?a ?b ?c ?d ?e ?f ?g ?h)] =>
    let v := eval vm_compute in (bits6 (mkV6 a b c d e f g h)) in change (bits6 (mkV6 a b c d e f g h)) with v end;
  powers; unfold in_block; cbn [fst snd].

Lemma non_public_v6 ip : ip_wf (V6 ip) -> v6_is_non_public ip = reserved6 (bits6 ip).
Proof.
  intros Hwf. unfold v6_is_non_public.
  rewrite loopback_block, unspecified_block, multicast_block, link_local_block, unique_local_block, documentation_block,
    mapped_block, compatible_block, translated_block, special_block, nat64_block, six_to_four_block, teredo_block,
    low_embedded, high_embedded by done.
  destruct (in_block (block6 0x64 0xFF9B 0 32) (bits6 ip)) eqn:H64; [rewrite local_nat64_block by done|];
    revert H64; generalize (bits6 ip) as n; intros n H64; unfold reserved6, RESERVED_V6, EMBEDDING_V6; cbn [existsb fst snd];
    generalize (reserved4 (n / 2 ^ 0 mod 2 ^ 32)) as low, (reserved4 (n / 2 ^ 80 mod 2 ^ 32)) as high; intros low high;
    revert H64; blocks; intros H64;
    repeat match goal with |- context [if ?c then _ else _] => destruct c eqn:? end; each_disjunct;
    try match goal with |- low = _ => destruct low end;
    try match goal with |- high = _ => destruct high end;
    first [symmetry; pick|symmetry; apply not_true_is_false; intros H; each_disjunct; lia].
Qed.

(** The resolver answers with addresses. *)
Definition lookup_wf (lookup : string -> N -> Lookup) : Prop :=
  forall host port addrs, lookup host port = Found addrs -> Forall (fun a => ip_wf (sa_ip a)) addrs.

(** ** Properties *)

(** The addresses a delivery is refused for are exactly those of the blocks listed: the special-purpose
    IPv4 and IPv6 prefixes ([RESERVED_V4], [RESERVED_V6]), and the IPv6 forms that hold an IPv4 address
    of one ([EMBEDDING_V6]), whatever the order in which the code tests them. *)
Theorem non_public_spec ip : ip_wf ip -> ip_is_non_public ip = reserved ip.
Proof. destruct ip; [apply non_public_v4|apply non_public_v6]. Qed.

(** *** Targets *)

Section target_properties.
Context {Url : Type} {parser : UrlParser Url} {laws : UrlLaws parser} (debug : string -> string) (debug_pins : option (list SocketAddr) -> string).
Abbreviation resolve := (resolve_and_validate debug).

(** A URL a delivery may be sent to at all. *)
Definition deliverable (u : Url) : Prop :=
  (url_scheme u = "http" \/ url_scheme u = "https") /\ url_username u = "" /\ url_password u = None /\ is_Some (url_host u).

Lemma parse_target_spec url u : parse_target debug url = inr u <-> url_parse (trim url) = inr u /\ deliverable u.
Proof.
  unfold parse_target, deliverable, is_some_and. destruct (url_parse (trim url)) as [e|v]; [naive_solver|]. split.
  - destruct (negb (_ || _)) eqn:H1; [done|]. 
    destruct ((url_username v != "") || _) eqn:H2; [done|]. destruct (url_host v) eqn:H3; [|done].
    intros [= ->]. apply negb_false_iff, orb_true_iff in H1. rewrite !bool_decide_eq_true in H1.
    apply orb_false_iff in H2 as [H2%negb_false_iff%bool_decide_eq_true H4]. destruct (url_password u); [done|]. by eauto.
  - intros ([= ->] & Hs & -> & -> & [h ->]). replace (negb (_ || _)) with false; [done|]. by destruct Hs as [-> | ->].
Qed.

(** What makes the answer [t] for the URL [u]: the literal's own address, or the name's, pinned. *)
Definition validated (allow_private : bool) (lookup : string -> N -> Lookup) (u : Url) (t : ValidatedTarget Url) : Prop :=
  vt_url t = u
  /\ match url_host u ≫= host_ip with
     | Some _ => vt_host t = "" /\ vt_pinned t = None
     | None => vt_host t = default "" (url_host_str u) /\ exists addrs, vt_pinned t = Some addrs /\ addrs <> []
         /\ lookup (vt_host t) (default 443 (url_port_or_known_default u)) = Found addrs
     end
  /\ (allow_private = true \/ forall ip, ip ∈ destinations t -> ip_is_non_public ip = false).

Lemma resolve_validated url allow lookup t :
  resolve url allow lookup = inr t <-> exists u, url_parse (trim url) = inr u /\ deliverable u /\ validated allow lookup u t.
Proof.
  unfold resolve_and_validate. destruct (parse_target debug url) as [e|u] eqn:Hp.
  { split; [done|]. intros (u & Hu & Hd & _). by rewrite (proj2 (parse_target_spec url u)) in Hp. }
  apply parse_target_spec in Hp as [Hu Hd].
  trans (validated allow lookup u t); [|split; [by exists u|by intros (u' & [= <-]%(eq_trans (eq_sym Hu)) & _ & ?)]].
  unfold validated, destinations. destruct (url_host u ≫= host_ip) as [ip|] eqn:Hip.
  - assert (forall t, vt_url t = u -> vt_pinned t = None -> (match vt_pinned t with
      Some addrs => map sa_ip addrs | None => option_list (url_host (vt_url t) ≫= host_ip) end) = [ip]) as Hdest.
    { intros ? -> ->. by rewrite Hip. }
    destruct allow; simpl.
    + split; [intros [= <-]; by auto|]. destruct t as [v h p]; simpl. by intros (-> & [-> ->] & _).
    + destruct (ip_is_non_public ip) eqn:Hn; split; try done.
      * intros (Ht & [_ Hq] & [?|Hall]); [done|]. rewrite Hdest in Hall by done. by rewrite Hall in Hn by by left.
      * intros [= <-]. simpl. rewrite Hip. split_and!; [done..|]. right. by intros ? ->%list_elem_of_singleton.
      * destruct t as [v h p]; simpl. by intros (-> & [-> ->] & _).
  - destruct (lookup _ _) as [|e|[|a addrs]] eqn:Hl.
    1-3: split; [done|]; intros (_ & (Hh & addrs & _ & Hne & Hf) & _); rewrite Hh, Hl in Hf; by simplify_eq.
    destruct (if allow then None else _) as [bad|] eqn:Hbad; split; try done.
    + intros (_ & (Hh & addrs' & Hq & _ & Hf) & Hall). rewrite Hh, Hl in Hf. simplify_eq.
      destruct allow; [done|]. destruct Hall as [|Hall]; [done|]. apply List.find_some in Hbad as [Hin Hbad].
      rewrite Hq in Hall. rewrite Hall in Hbad; [done|]. apply list_elem_of_In, in_map, Hin.
    + intros [= <-]. cbn [vt_url vt_host vt_pinned]. split_and!; [done|done|by exists (a :: addrs)|].
      destruct allow; [by left|]. right. intros ip [x [-> Hx]]%list_elem_of_fmap. by apply (proj1 (find_none_iff _ _) Hbad).
    + destruct t as [v h p]; simpl. intros (-> & (-> & addrs' & -> & _ & Hf) & _). congruence.
Qed.

Lemma destinations_wf url allow lookup t : lookup_wf lookup -> resolve url allow lookup = inr t -> Forall ip_wf (destinations t).
Proof.
  intros Hlookup (u & _ & _ & Hu & Hip & _)%resolve_validated. unfold destinations. rewrite Hu.
  destruct (url_host u) as [h|] eqn:Hh; simpl in *.
  - destruct (host_ip h) as [ip|] eqn:E; simpl in *.
    + destruct Hip as [_ ->]. apply Forall_singleton. by apply (literal_wf u h).
    + destruct Hip as (_ & addrs & -> & _ & Hf). by apply Forall_fmap, (Hlookup _ _ _ Hf).
  - destruct Hip as (_ & addrs & -> & _ & Hf). by apply Forall_fmap, (Hlookup _ _ _ Hf).
Qed.

Lemma validated_host url allow lookup t : resolve url allow lookup = inr t ->
  ("|"%char ∉ bytes (vt_host t))
  /\ match vt_pinned t with
     | Some _ => url_host (vt_url t) = Some (Domain (vt_host t))
     | None => exists h, url_host (vt_url t) = Some h /\ is_Some (host_ip h)
     end.
Proof.
  intros (u & _ & (_ & _ & _ & [h Hh]) & -> & Hip & _)%resolve_validated. rewrite Hh in *. simpl in Hip.
  destruct h as [d|ip|ip]; simpl in Hip.
  - destruct Hip as [-> (addrs & -> & _)]. rewrite (domain_text u d Hh). split; [by apply (domain_chars u)|done].
  - destruct Hip as [-> ->]. split; [apply not_elem_of_nil|by eexists].
  - destruct Hip as [-> ->]. split; [apply not_elem_of_nil|by eexists].
Qed.

Lemma client_key_inj (Hpins : Inj (=) (=) debug_pins) (t t' : ValidatedTarget Url) : "|"%char ∉ bytes (vt_host t) -> "|"%char ∉ bytes (vt_host t') ->
  client_key debug_pins t = client_key debug_pins t' -> client_builder t = client_builder t'.
Proof.
  unfold client_key, client_builder. intros Ht Ht' E%(f_equal bytes). rewrite !bytes_app in E. simpl in E.
  by apply app_sep_inj in E as [->%Prelude.bytes_inj ->%Prelude.bytes_inj%Hpins].
Qed.

(** The cache never answers with the client of another target. *)
Lemma client_for_sound (Hpins : Inj (=) (=) debug_pins) timeout build_error cache (t : ValidatedTarget Url) cache' r :
  cache_sound (Url := Url) debug_pins timeout cache -> "|"%char ∉ bytes (vt_host t) ->
  client_for debug_pins timeout build_error cache t = (cache', r) ->
  cache_sound (Url := Url) debug_pins timeout cache' /\ (forall c, r = inr c -> c = with_timeout timeout (client_builder t)).
Proof.
  intros Hok Ht. unfold client_for. destruct (cache !! client_key debug_pins t) as [c|] eqn:Hc.
  { intros [= <- <-]. split; [done|]. intros ? [= <-]. destruct (Hok _ _ Hc) as (t' & E & Ht' & ->). by rewrite (client_key_inj Hpins t t'). }
  destruct build_error; intros [= <- <-]; split; [done|done| |by intros ? [= <-]].
  apply map_Forall_insert_2; [by exists t|]. by case_match; [apply map_Forall_empty|].
Qed.

(** C14: where the relay does not allow private targets, a client it sends through, fresh or from its
    cache, can reach nothing but the addresses its target was validated with, and none of these is in
    a reserved block, whatever the name resolves to later; and every client in the cache stays the one
    built of a target with that key (two targets of different pins have different keys). What a client
    reaches is what it was built to: the literal address of the URL, or the addresses given for its
    name, and more only where it follows redirects or a proxy. *)
Theorem deliveries_reach_public (Hpins : Inj (=) (=) debug_pins) url lookup timeout build_error cache t cache' c ip :
  lookup_wf lookup ->
  cache_sound (Url := Url) debug_pins timeout cache ->
  resolve url false lookup = inr t ->
  client_for debug_pins timeout build_error cache t = (cache', inr c) ->
  cache_sound (Url := Url) debug_pins timeout cache'
  /\ (may_reach c (vt_url t) ip -> ip ∈ destinations t /\ reserved ip = false).
Proof.
  intros Hlookup Hok Hr Hc. destruct (validated_host _ _ _ _ Hr) as [Hbar Hhost].
  destruct (client_for_sound Hpins _ _ _ _ _ _ Hok Hbar Hc) as [Hok' Hb]. split; [done|].
  rewrite (Hb c eq_refl). intros Hreach. assert (ip ∈ destinations t) as Hin.
  { unfold may_reach, with_timeout, client_builder, destinations in *. destruct Hreach as [|[|Hreach]]; [done..|].
    cbn [cb_pins cb_resolver] in Hreach. destruct (vt_pinned t) as [addrs|].
    - rewrite Hhost in Hreach. simpl in Hreach. by rewrite bool_decide_true in Hreach.
    - destruct Hhost as (h & Hh & [ip' Hip]). rewrite Hh in *. simpl. rewrite Hip. destruct h; [done|..]; simpl in *; simplify_eq; by left. }
  split; [done|]. pose proof (destinations_wf _ _ _ _ Hlookup Hr) as Hwf. rewrite Forall_forall in Hwf.
  apply resolve_validated in Hr as (u & _ & _ & _ & _ & [?|Hall]); [done|]. rewrite <-non_public_spec; auto.
Qed.

(** *** Deliveries *)

Context {Value : Type} `{services : Services Value}.

Lemma refused_private url lookup t : resolve url true lookup = inr t ->
  (exists ip, ip ∈ destinations t /\ ip_is_non_public ip = true) -> exists m, resolve url false lookup = inl (Ssrf m).
Proof.
  unfold resolve_and_validate. destruct (parse_target debug url) as [e|u] eqn:Hp; [done|].
  destruct (url_host u ≫= host_ip) as [ip|] eqn:Hip; simpl.
  - intros [= <-] (ip' & Hin & Hbad). unfold destinations in Hin. simpl in Hin. rewrite Hip in Hin.
    apply list_elem_of_singleton in Hin as ->. rewrite Hbad. by eexists.
  - destruct (lookup _ _) as [|e|[|a addrs]]; try done. intros [= <-] (ip & Hin & Hbad). unfold destinations in Hin. simpl vt_pinned in Hin.
    apply list_elem_of_fmap in Hin as (x & -> & Hx). destruct (List.find _ _) as [bad|] eqn:Hf; [by eexists|].
    by rewrite (proj1 (find_none_iff _ _) Hf x Hx) in Hbad.
Qed.

(** A payload is posted to public addresses only: a delivery that succeeds was answered by a
    target whose addresses are all outside the reserved blocks, and one to a URL that names, or
    resolves to, an address inside fails for good, whatever the attempts would have brought, and
    leaves the hook's circuit breaker as it was. *)
Theorem guarded_delivery max_attempts url lookup hook_id (event : WebhookEvent Value) serialize_error :
  lookup_wf lookup ->
  (forall outcomes receipt,
    deliver_inner max_attempts (target_of debug url false lookup outcomes) hook_id event serialize_error = inr receipt ->
    exists t, resolve url false lookup = inr t /\ outcomes t (dr_attempts receipt) = Answer (dr_status receipt)
      /\ forall ip, ip ∈ destinations t -> reserved ip = false)
  /\ (forall t ip, resolve url true lookup = inr t -> ip ∈ destinations t -> reserved ip = true ->
    is_Some (json_text (we_payload event)) ->
    exists m, moves_breaker (inl (Permanent m)) = false /\ forall outcomes,
      deliver_inner max_attempts (target_of debug url false lookup outcomes) hook_id event serialize_error = inl (Permanent m)).
Proof.
  intros Hlookup. split.
  - intros outcomes receipt. unfold deliver_inner, target_of. destruct (json_text _) as [body|]; [|done]. case_match; [done|].
    destruct (resolve url false lookup) as [e|t] eqn:Hr; [by destruct e|]. intros Hs.
    pose proof (send_spec max_attempts (outcomes t) hook_id event) as H1. rewrite Hs in H1.
    destruct H1 as (n & status & _ & Ho & _ & -> & _). exists t. split_and!; [done|done|]. intros ip Hin.
    pose proof (destinations_wf _ _ _ _ Hlookup Hr) as Hwf. rewrite Forall_forall in Hwf.
    apply resolve_validated in Hr as (u & _ & _ & _ & _ & [?|Hall]); [done|]. rewrite <-non_public_spec; auto.
  - intros t ip Hr Hin Hbad [body Hbody]. pose proof (destinations_wf _ _ _ _ Hlookup Hr) as Hwf. rewrite Forall_forall in Hwf.
    destruct (refused_private url lookup t Hr) as [m Hm]; [exists ip; split; [done|by rewrite non_public_spec by auto]|].
    unfold deliver_inner, target_of. rewrite Hbody, Hm. case_match; (eexists; split; [|by intros]; done).
Qed.
End target_properties.

(** *** Witnesses *)

Lemma non_public_spec_witness :
  ip_is_non_public (V6 (mkV6 0x2002 0xA9FE 0xA9FE 0 0 0 0 1)) = reserved (V6 (mkV6 0x2002 0xA9FE 0xA9FE 0 0 0 0 1)).
Proof. apply non_public_spec. unfold ip_wf. repeat constructor. Defined.

(** https URLs of a name and a path. *)
Definition name_ok (name : string) : bool := (name != "") && forallb (fun c => c != "|"%char) (bytes name).
Definition name_parser : UrlParser string := {|
  url_parse s := match Prelude.strip_prefix "https://" s with
                 | Some rest => inr (default "" (head (split_on (fun c => c == "/"%char) rest)))
                 | None => inl "relative URL without a base"
                 end;
  url_scheme _ := "https";
  url_username _ := "";
  url_password _ := None;
  url_host u := if name_ok u then Some (Domain u) else None;
  url_host_str u := if name_ok u then Some u else None;
  url_port _ := None;
  url_port_or_known_default _ := Some 443;
  url_text u := "https://" +:+ u +:+ "/"
|}.
Lemma name_parser_laws : UrlLaws name_parser.
Proof.
  constructor; simpl.
  - intros u d. by destruct (name_ok u); intros [= ->].
  - intros u d. destruct (name_ok u) eqn:Hok; intros [= <-]. unfold name_ok in Hok. split_bools.
    match goal with H : forallb _ _ = true |- _ => rewrite forallb_forall in H; rename H into Hall end.
    intros Hin%list_elem_of_In%Hall. by rewrite bool_decide_true in Hin.
  - intros u h ip. by destruct (name_ok u); intros [= <-].
Qed.

(** One text per list of addresses. *)
#[export] Instance Ipv4Addr_countable : Countable Ipv4Addr :=
  inj_countable' (fun ip => (oct0 ip, oct1 ip, oct2 ip, oct3 ip)) (fun x => let '(a, b, c, d) := x in mkV4 a b c d) ltac:(by intros []).
#[export] Instance Ipv6Addr_countable : Countable Ipv6Addr :=
  inj_countable' (fun ip => (seg0 ip, seg1 ip, seg2 ip, seg3 ip, (seg4 ip, seg5 ip, seg6 ip, seg7 ip)))
    (fun x => let '(a, b, c, d, (e, f, g, h)) := x in mkV6 a b c d e f g h) ltac:(by intros []).
#[export] Instance SocketAddr_countable : Countable SocketAddr :=
  inj_countable' (fun a => (match sa_ip a with V4 ip => inl ip | V6 ip => inr ip end, sa_port a))
    (fun x => mkSocketAddr (match x.1 with inl ip => V4 ip | inr ip => V6 ip end) x.2) ltac:(by intros [[] ?]).
Definition pins_text (pins : option (list SocketAddr)) : string := pretty (Npos (encode pins)).
Lemma pins_text_inj : Inj (=) (=) pins_text.
Proof. intros p q E. unfold pins_text in E. apply (inj (pretty (A := N))) in E. assert (encode p = encode q) by congruence. by apply (inj encode). Qed.

Definition example_lookup (host : string) (port : N) : Lookup :=
  if host == "ci.example" then Found [mkSocketAddr (V4 (mkV4 93 184 215 14)) port]
  else if host == "meta.example" then Found [mkSocketAddr (V4 (mkV4 93 184 215 14)) port; mkSocketAddr (V4 (mkV4 169 254 169 254)) port]
  else LookupFailed "no such host".
Lemma example_lookup_wf : lookup_wf example_lookup.
Proof.
  intros host port addrs. unfold example_lookup. repeat case_bool_decide; intros [= <-]; repeat constructor.
Qed.

Definition example_target : ValidatedTarget string := mkTarget "ci.example" "ci.example" (Some [mkSocketAddr (V4 (mkV4 93 184 215 14)) 443]).
Lemma deliveries_reach_public_witness :
  let c := with_timeout (from_secs 10) (client_builder example_target) in
  cache_sound (Url := string) pins_text (from_secs 10) (<[client_key pins_text example_target := c]> ∅)
  /\ (V4 (mkV4 93 184 215 14) ∈ destinations (parser := name_parser) example_target /\ reserved (V4 (mkV4 93 184 215 14)) = false).
Proof.
  destruct (deliveries_reach_public (laws := name_parser_laws) id pins_text pins_text_inj "https://ci.example/hook" example_lookup
    (from_secs 10) None ∅ example_target
    (<[client_key pins_text example_target := with_timeout (from_secs 10) (client_builder example_target)]> ∅)
    (with_timeout (from_secs 10) (client_builder example_target)) (V4 (mkV4 93 184 215 14))) as [Hok Hreach].
  - exact example_lookup_wf.
  - apply map_Forall_empty.
  - reflexivity.
  - reflexivity.
  - split; [exact Hok|]. apply Hreach. right; right. simpl. left.
Defined.

(** A name with one private address among others is refused, though it also has a public one. *)
Lemma guarded_delivery_witness :
  let send url := deliver_inner (services := text_services) 3 (target_of (parser := name_parser) id url false example_lookup (fun _ _ => Answer 204))
    "h1" example_event "" in
  send "https://ci.example/hook" = inr (mkReceipt example_delivery 204 1)
  /\ exists m, send "https://meta.example/hook" = inl (Permanent m).
Proof.
  intros send. split; [vm_compute; reflexivity|].
  destruct (guarded_delivery (laws := name_parser_laws) (services := text_services) id 3 "https://meta.example/hook" example_lookup "h1"
    example_event "" example_lookup_wf) as [_ Href].
  destruct (Href (mkTarget "meta.example" "meta.example"
      (Some [mkSocketAddr (V4 (mkV4 93 184 215 14)) 443; mkSocketAddr (V4 (mkV4 169 254 169 254)) 443])) (V4 (mkV4 169 254 169 254)))
    as (m & _ & Hm).
  - reflexivity.
  - right. left.
  - vm_compute. reflexivity.
  - by eexists.
  - exists m. apply Hm.
Defined.
