(* ===== verification/Slots.v ===== *)
(** The delivery slots of the relay ([Deliverer::pool] and [slots] of [forge-relay/src/deliver.rs]):
    the pools of permits per destination, as attempts of many workers interleave. *)
From S2P Require Import Wire Prelude Text RetryQueue QueueRuns Dispatch Ssrf.

(** ** Definitions *)

Definition MAX_IN_FLIGHT_PER_DEST : nat := 2.
Definition MAX_IN_FLIGHT_PER_IP : nat := 8.

(** How far an attempt is, with the semaphores it keeps alive: the tenant's and the address's. *)
Inductive Phase :=
  | Started
  | HasPool (tenant : nat)
  | WaitsTenant (tenant address : nat)
  | WaitsAddress (tenant address : nat)
  | InFlight (tenant address : nat).

(** An attempt to a target, by its [ip_key] and its URL's host. *)
Record SlotUse := mkUse { su_ip : string; su_host : string; su_phase : Phase }.
Definition set_phase (p : Phase) (u : SlotUse) : SlotUse := mkUse (su_ip u) (su_host u) p.

(** [Arc]s of a semaphore outside the map. *)
Definition refers (id : nat) (u : SlotUse) : bool :=
  match su_phase u with
  | Started => false
  | HasPool t => t == id
  | WaitsTenant t a | WaitsAddress t a | InFlight t a => (t == id) || (a == id)
  end.
(** Permits of a semaphore held. *)
Definition holds (id : nat) (u : SlotUse) : bool :=
  match su_phase u with
  | WaitsAddress t _ => t == id
  | InFlight t a => (t == id) || (a == id)
  | _ => false
  end.

Record Slots := mkSlots {
  sl_dests : gmap string nat;
  (** The size of each semaphore made. *)
  sl_sems : gmap nat nat;
  sl_uses : gmap nat SlotUse
}.
Definition no_slots : Slots := mkSlots ∅ ∅ ∅.

Definition count (p : SlotUse -> bool) (uses : gmap nat SlotUse) : nat := size (filter (fun x => p x.2 = true) uses).
Definition referenced (s : Slots) (id : nat) : bool := (0 <? count (refers id) (sl_uses s))%nat.
Definition available (s : Slots) (id : nat) : bool := (count (holds id) (sl_uses s) <? default 0 (sl_sems s !! id))%nat.

(** [pool]: when the map is full, pools no attempt keeps are dropped from it. *)
Definition pool (s : Slots) (key : string) (permits : nat) : Slots * nat :=
  let dests :=
    if (MAX_DEST_POOLS <=? size (sl_dests s))%nat && bool_decide (sl_dests s !! key = None)
    then filter (fun x => referenced s x.2 = true) (sl_dests s) else sl_dests s in
  match dests !! key with
  | Some id => (mkSlots dests (sl_sems s) (sl_uses s), id)
  | None =>
      let id := fresh (dom (sl_sems s)) in
      (mkSlots (<[key := id]> dests) (<[id := permits]> (sl_sems s)) (sl_uses s), id)
  end.

Definition slot_key (ip host : string) : string := ip +:+ "|" +:+ host.
Definition tenant_key (u : SlotUse) : string := slot_key (su_ip u) (su_host u).
Definition address_key (u : SlotUse) : string := slot_key (su_ip u) "*".

Definition put_use (a : nat) (u : SlotUse) (s : Slots) : Slots := mkSlots (sl_dests s) (sl_sems s) (<[a := u]> (sl_uses s)).

(** [slots], one turn at a time: the attempt asks for its two pools, waits for a permit of the
    tenant's, then for one of the address's; a timeout, or the end of the attempt, drops both. *)
Inductive SlotStep := Begin (a : nat) (ip host : string) | Turn (a : nat) | Drop (a : nat).

Definition turn (s : Slots) (a : nat) (u : SlotUse) : Slots :=
  match su_phase u with
  | Started => let '(s, t) := pool s (tenant_key u) MAX_IN_FLIGHT_PER_DEST in put_use a (set_phase (HasPool t) u) s
  | HasPool t => let '(s, ad) := pool s (address_key u) MAX_IN_FLIGHT_PER_IP in put_use a (set_phase (WaitsTenant t ad) u) s
  | WaitsTenant t ad => if available s t then put_use a (set_phase (WaitsAddress t ad) u) s else s
  | WaitsAddress t ad => if available s ad then put_use a (set_phase (InFlight t ad) u) s else s
  | InFlight _ _ => s
  end.
Definition slot_step (s : Slots) (step : SlotStep) : Slots :=
  match step with
  | Begin a ip host => match sl_uses s !! a with Some _ => s | None => put_use a (mkUse ip host Started) s end
  | Turn a => match sl_uses s !! a with Some u => turn s a u | None => s end
  | Drop a => mkSlots (sl_dests s) (sl_sems s) (delete a (sl_uses s))
  end.
Definition slot_steps (s : Slots) (l : list SlotStep) : Slots := foldl slot_step s l.

Definition in_flight (u : SlotUse) : bool := match su_phase u with InFlight _ _ => true | _ => false end.
(** Attempts in flight to an address, and to a host of it. *)
Definition to_address (ip : string) (u : SlotUse) : bool := in_flight u && (su_ip u == ip).
Definition to_tenant (ip host : string) (u : SlotUse) : bool := to_address ip u && (su_host u == host).

(** ** Counting *)

Section counting.
Context (p : SlotUse -> bool) (uses : gmap nat SlotUse) (a : nat).

Definition once (u : SlotUse) : nat := if p u then 1 else 0.

Lemma count_put u : count p (<[a := u]> uses) = once u + count p (delete a uses).
Proof.
  unfold count, once. destruct (p u) eqn:Hp.
  - rewrite map_filter_insert_True by done. rewrite <-insert_delete_eq, <-map_filter_delete.
    rewrite map_size_insert_None; [done|]. rewrite map_lookup_filter, lookup_delete_eq. done.
  - rewrite map_filter_insert_False by (simpl; congruence). done.
Qed.
Lemma count_at u : uses !! a = Some u -> count p uses = once u + count p (delete a uses).
Proof. intros Hu. rewrite <-count_put. by rewrite insert_id. Qed.
Lemma count_delete : count p (delete a uses) <= count p uses.
Proof.
  destruct (uses !! a) as [u|] eqn:Hu; [rewrite (count_at u Hu); lia|]. by rewrite delete_id.
Qed.
End counting.

Lemma count_le p q uses : (forall a u, uses !! a = Some u -> p u = true -> q u = true) -> count p uses <= count q uses.
Proof.
  intros H. unfold count. apply map_subseteq_size. apply map_subseteq_spec. intros a u [Hu Hp]%map_lookup_filter_Some.
  apply map_lookup_filter_Some. split; [done|]. by eapply H.
Qed.
Lemma count_none p uses : (forall a u, uses !! a = Some u -> p u = false) -> count p uses = 0.
Proof.
  intros H. unfold count. apply map_size_empty_iff. apply map_empty. intros a. apply map_lookup_filter_None. right.
  intros u Hu. simpl. by rewrite (H _ _ Hu).
Qed.
Lemma count_some p uses a u : uses !! a = Some u -> p u = true -> 0 < count p uses.
Proof. intros Hu Hp. rewrite (count_at p uses a u Hu). unfold once. rewrite Hp. lia. Qed.

(** ** The pools never let more attempts through than they have permits *)

Definition tenant_of (u : SlotUse) : option nat :=
  match su_phase u with Started => None | HasPool t | WaitsTenant t _ | WaitsAddress t _ | InFlight t _ => Some t end.
Definition address_of (u : SlotUse) : option nat :=
  match su_phase u with WaitsTenant _ a | WaitsAddress _ a | InFlight _ a => Some a | _ => None end.

(** The address's text holds no bar, and the host is not the one that stands for every host. *)
Definition use_ok (u : SlotUse) : Prop := ("|"%char ∉ bytes (su_ip u)) /\ su_host u <> "*".
Definition permits_of (host : string) : nat := if host == "*" then MAX_IN_FLIGHT_PER_IP else MAX_IN_FLIGHT_PER_DEST.

Definition refs_ok (dests : gmap string nat) (u : SlotUse) : Prop :=
  (forall id, tenant_of u = Some id -> dests !! tenant_key u = Some id)
  /\ (forall id, address_of u = Some id -> dests !! address_key u = Some id).

Record slots_ok (s : Slots) : Prop := mkSlotsOk {
  so_size : forall ip host id, "|"%char ∉ bytes ip -> sl_dests s !! slot_key ip host = Some id -> sl_sems s !! id = Some (permits_of host);
  so_known : forall key id, sl_dests s !! key = Some id -> is_Some (sl_sems s !! id);
  so_uses : forall a u, sl_uses s !! a = Some u -> use_ok u /\ refs_ok (sl_dests s) u;
  so_bound : forall id n, sl_sems s !! id = Some n -> count (holds id) (sl_uses s) <= n
}.

Lemma slot_key_inj ip host ip' host' : "|"%char ∉ bytes ip -> "|"%char ∉ bytes ip' ->
  slot_key ip host = slot_key ip' host' -> ip = ip' /\ host = host'.
Proof.
  unfold slot_key. intros Hip Hip' E%(f_equal bytes). rewrite !bytes_app in E. simpl in E.
  by apply app_sep_inj in E as [->%Prelude.bytes_inj ->%Prelude.bytes_inj].
Qed.

Lemma holds_refers id u : holds id u = true -> refers id u = true.
Proof. unfold holds, refers. destruct (su_phase u); try done. intros ->. done. Qed.
Lemma refers_id id u : refers id u = true <-> tenant_of u = Some id \/ address_of u = Some id.
Proof. unfold refers, tenant_of, address_of. destruct (su_phase u); rewrite ?orb_true_iff, ?bool_decide_eq_true; naive_solver. Qed.

(** A pool in use survives the clearing of idle ones. *)
Lemma kept_refs s u a : slots_ok s -> sl_uses s !! a = Some u ->
  refs_ok (filter (fun x => referenced s x.2 = true) (sl_dests s)) u.
Proof.
  intros Hok Hu. destruct (so_uses s Hok a u Hu) as [_ [Ht Ha]].
  assert (forall id, refers id u = true -> referenced s id = true) as Href.
  { intros id Hid. apply Nat.ltb_lt. by apply (count_some _ _ a u). }
  split; intros id Hid; apply map_lookup_filter_Some; (split; [by auto|]); apply Href, refers_id; auto.
Qed.

Lemma pool_ok s ip host s' id : slots_ok s -> "|"%char ∉ bytes ip -> pool s (slot_key ip host) (permits_of host) = (s', id) ->
  slots_ok s' /\ sl_dests s' !! slot_key ip host = Some id /\ sl_uses s' = sl_uses s.
Proof.
  intros Hok Hip. unfold pool. set (dests := if _ && _ then _ else _).
  assert (dests ⊆ sl_dests s) as Hsub by (unfold dests; case_match; [apply map_filter_subseteq|done]).
  assert (forall a u, sl_uses s !! a = Some u -> use_ok u /\ refs_ok dests u) as Huses.
  { intros a u Hu. split; [by eapply so_uses|]. unfold dests. case_match; [by eapply kept_refs|by eapply so_uses]. }
  assert (forall k i, dests !! k = Some i -> sl_dests s !! k = Some i) as Hin by (intros k i Hi; by eapply lookup_weaken).
  clearbody dests. destruct (dests !! slot_key ip host) as [i|] eqn:Hi; intros [= <- <-]; simpl.
  - split_and!; [|done|done]. split; simpl; [|by intros k i' ?%Hin%(so_known s Hok)|done|apply (so_bound s Hok)].
    intros ip' h' i' Hb Hd%Hin. by apply (so_size s Hok ip').
  - assert (sl_sems s !! fresh (dom (sl_sems s)) = None) as Hnew by apply not_elem_of_dom, is_fresh.
    set (i := fresh _) in *. clearbody i. split_and!; [|apply lookup_insert_eq|done].
    assert (forall k j, sl_dests s !! k = Some j -> i <> j) as Hne.
    { intros k j Hj ->. destruct (so_known s Hok _ _ Hj) as [? ?]. congruence. }
    split; simpl.
    + intros ip' h' j Hip' [[E <-]|[_ Hj]]%lookup_insert_Some.
      * apply slot_key_inj in E as [<- <-]; [|done..]. apply lookup_insert_eq.
      * apply Hin in Hj. rewrite lookup_insert_ne by by eapply Hne. by apply (so_size s Hok ip').
    + intros k j [[_ <-]|[_ Hj]]%lookup_insert_Some; [rewrite lookup_insert_eq; by eexists|].
      apply Hin in Hj. rewrite lookup_insert_ne by by eapply Hne. by apply (so_known s Hok k).
    + intros a u Hu. destruct (Huses a u Hu) as [Huse [Ht Ha]]. split; [done|].
      assert (forall k j, dests !! k = Some j -> <[slot_key ip host := i]> dests !! k = Some j) as Hmore.
      { intros k j Hj. rewrite lookup_insert_ne; [done|]. intros <-. congruence. }
      split; auto.
    + intros j n [[<- <-]|[_ Hj]]%lookup_insert_Some; [|by apply (so_bound s Hok)].
      rewrite count_none; [lia|]. intros a u Hu. apply not_true_is_false. intros Hh%holds_refers%refers_id.
      destruct (so_uses s Hok a u Hu) as [_ [Ht Ha]]. destruct Hh as [Hh|Hh]; [by eapply Hne; [apply Ht|]|by eapply Hne; [apply Ha|]].
Qed.

(** A turn of an attempt that takes no permit, or takes one that is available. *)
Lemma put_ok s a u p : slots_ok s -> sl_uses s !! a = Some u -> refs_ok (sl_dests s) (set_phase p u) ->
  (forall id, holds id (set_phase p u) = true -> holds id u = true \/ available s id = true) -> slots_ok (put_use a (set_phase p u) s).
Proof.
  intros Hok Hu Hrefs Hholds. split; simpl; [apply (so_size s Hok)|apply (so_known s Hok)| |].
  - intros b v [[-> <-]|[_ Hv]]%lookup_insert_Some; [|by apply (so_uses s Hok b)].
    split; [|done]. exact (proj1 (so_uses s Hok b u Hu)).
  - intros id n Hn. rewrite count_put. pose proof (so_bound s Hok id n Hn) as Hb.
    rewrite (count_at _ _ a u Hu) in Hb. unfold once in *. destruct (holds id (set_phase p u)) eqn:Hp.
    + destruct (Hholds id Hp) as [Hh|Hh]; [by rewrite Hh in Hb|]. unfold available in Hh. rewrite Hn in Hh. simpl in Hh.
      apply Nat.ltb_lt in Hh. pose proof (count_delete (holds id) (sl_uses s) a). lia.
    + lia.
Qed.

Lemma step_keeps_slots s step : slots_ok s ->
  (match step with Begin _ ip host => use_ok (mkUse ip host Started) | _ => True end) -> slots_ok (slot_step s step).
Proof.
  intros Hok Hstep. destruct step as [a ip host|a|a]; simpl.
  - destruct (sl_uses s !! a) eqn:Ha; [done|]. split; simpl; [apply (so_size s Hok)|apply (so_known s Hok)| |].
    + intros b v [[-> <-]|[_ Hv]]%lookup_insert_Some; [|by apply (so_uses s Hok b)]. by split; [|split].
    + intros id n Hn. rewrite count_put. unfold once. simpl. pose proof (so_bound s Hok id n Hn).
      pose proof (count_delete (holds id) (sl_uses s) a). lia.
  - destruct (sl_uses s !! a) as [u|] eqn:Ha; [|done]. destruct (so_uses s Hok a u Ha) as [[Hip Hhost] [Ht Had]].
    unfold turn. destruct (su_phase u) as [|t|t ad|t ad|t ad] eqn:Hp.
    + destruct (pool s _ _) as [s' t] eqn:Hpool. unfold tenant_key in Hpool.
      replace MAX_IN_FLIGHT_PER_DEST with (permits_of (su_host u)) in Hpool by (unfold permits_of; by rewrite bool_decide_false).
      apply pool_ok in Hpool as (Hok' & Hd & Hu); [|done..]. apply put_ok; [done|by rewrite Hu| |by intros id].
      split; intros id; [intros [= <-]; done|done].
    + destruct (pool s _ _) as [s' ad] eqn:Hpool. unfold address_key in Hpool.
      apply (pool_ok s (su_ip u) "*") in Hpool as (Hok' & Hd & Hu); [|done..]. apply put_ok; [done|by rewrite Hu| |by intros id].
      destruct (so_uses s' Hok' a u) as [_ [Ht' _]]; [by rewrite Hu|]. unfold tenant_of in Ht'. rewrite Hp in Ht'.
      split; intros id; [intros [= <-]; by apply Ht'|intros [= <-]; done].
    + destruct (available s t) eqn:Hav; [|done]. apply put_ok; [done|done| |].
      * unfold tenant_of, address_of in *. rewrite Hp in *. by split.
      * intros id. unfold holds; simpl. intros ->%bool_decide_eq_true. by right.
    + destruct (available s ad) eqn:Hav; [|done]. apply put_ok; [done|done| |].
      * unfold tenant_of, address_of in *. rewrite Hp in *. by split.
      * intros id. unfold holds; simpl. rewrite Hp, orb_true_iff, !bool_decide_eq_true. intros [->| ->]; [by left|by right].
    + done.
  - split; simpl; [apply (so_size s Hok)|apply (so_known s Hok)| |].
    + intros b v [_ Hv]%lookup_delete_Some. by apply (so_uses s Hok b).
    + intros id n Hn. etrans; [apply count_delete|]. by apply (so_bound s Hok).
Qed.

Definition begins_ok (step : SlotStep) : Prop := match step with Begin _ ip host => use_ok (mkUse ip host Started) | _ => True end.
Lemma steps_keep_slots steps s : slots_ok s -> Forall begins_ok steps -> slots_ok (slot_steps s steps).
Proof.
  intros Hok Hsteps. revert s Hok. induction Hsteps as [|step steps Hstep _ IH]; intros s Hok; [done|].
  simpl. apply IH, step_keeps_slots; [done|]. by destruct step.
Qed.

(** Every attempt of a kind holds a permit of one pool. *)
Lemma pool_bounds s ip host p : slots_ok s -> "|"%char ∉ bytes ip ->
  (forall a u, sl_uses s !! a = Some u -> p u = true -> exists id, holds id u = true /\ sl_dests s !! slot_key ip host = Some id) ->
  count p (sl_uses s) <= permits_of host.
Proof.
  intros Hok Hip Hp. destruct (sl_dests s !! slot_key ip host) as [id|] eqn:Hd.
  - etrans; [|apply (so_bound s Hok id), (so_size s Hok ip); done]. apply count_le. intros a u Hu Hpu.
    by destruct (Hp a u Hu Hpu) as (? & ? & [= <-]).
  - rewrite count_none; [lia|]. intros a u Hu. apply not_true_is_false. intros Hpu. by destruct (Hp a u Hu Hpu) as (? & _ & ?).
Qed.

(** ** Properties *)

(** However the attempts of all hooks interleave, time out and end, and whatever pools were
    dropped from a full map in between, at most two are in flight to a host of an address, and at
    most eight to the address. *)
Theorem in_flight_bounds steps ip host :
  Forall begins_ok steps -> "|"%char ∉ bytes ip ->
  let uses := sl_uses (slot_steps no_slots steps) in
  count (to_tenant ip host) uses <= MAX_IN_FLIGHT_PER_DEST /\ count (to_address ip) uses <= MAX_IN_FLIGHT_PER_IP.
Proof.
  intros Hsteps Hip. cbv zeta. assert (slots_ok (slot_steps no_slots steps)) as Hok.
  { apply steps_keep_slots; [|done]. split; simpl; intros *; try by rewrite lookup_empty. }
  revert Hok. generalize (slot_steps no_slots steps) as s. intros s Hok. split.
  - destruct (decide (host = "*")) as [->|Hhost].
    { rewrite count_none; [lia|]. intros a u Hu. unfold to_tenant. destruct (so_uses s Hok a u Hu) as [[_ Hne] _].
      by rewrite (bool_decide_false (su_host u = "*")), andb_false_r. }
    replace MAX_IN_FLIGHT_PER_DEST with (permits_of host) by (unfold permits_of; by rewrite bool_decide_false).
    apply (pool_bounds s ip); [done..|]. unfold to_tenant, to_address, in_flight. intros a u Hu Hp. split_bools. subst.
    destruct (so_uses s Hok a u Hu) as [_ [Ht _]]. unfold holds, tenant_of in *. destruct (su_phase u) as [| | | |t ad]; try done.
    exists t. rewrite bool_decide_true by done. by split; [|apply Ht].
  - apply (pool_bounds s ip "*"); [done..|]. unfold to_address, in_flight. intros a u Hu Hp. split_bools. subst.
    destruct (so_uses s Hok a u Hu) as [_ [_ Had]]. unfold holds, address_of in *. destruct (su_phase u) as [| | | |t ad]; try done.
    exists ad. rewrite (bool_decide_true (ad = ad)) by done. rewrite orb_true_r. by split; [|apply Had].
Qed.

(** Three attempts to one host: the third waits. *)
Definition three_attempts : list SlotStep :=
  flat_map (fun a => [Begin a "93.184.215.14" "ci.example"; Turn a; Turn a; Turn a; Turn a]) [0; 1; 2].
Lemma in_flight_bounds_witness :
  let uses := sl_uses (slot_steps no_slots three_attempts) in
  count (to_tenant "93.184.215.14" "ci.example") uses = MAX_IN_FLIGHT_PER_DEST /\ count (to_address "93.184.215.14") uses <= MAX_IN_FLIGHT_PER_IP.
Proof.
  split; [vm_compute; reflexivity|]. apply (in_flight_bounds three_attempts "93.184.215.14" "ci.example").
  - repeat constructor; try (intros H; vm_compute in H); set_solver.
  - intros H. vm_compute in H. set_solver.
Defined.
