(* ===== verification/SealedDoc.v ===== *)
(** Encrypted documents ([private/keys.rs], [private/doc.rs] and the envelopes of
    [private/bot_post.rs]): the key schedule, the associated data an [enc] binds, the writers of
    each envelope version, and the readers with the late-content rule. *)
From S2P Require Import Wire Prelude Tlv Content.

(** ** Definitions *)

(** *** Cryptography *)

(** HKDF-SHA256, HMAC-SHA256, SHA-256 and AES-256-GCM; [gcm_decrypt] checks the tag. *)
Class Crypto := {
  hkdf_extract : list byte -> list byte -> list byte;
  hkdf_expand : list byte -> list byte -> list byte;
  hmac : list byte -> list byte -> list byte;
  sha256 : list byte -> list byte;
  gcm_encrypt : list byte -> list byte -> list byte -> list byte -> list byte;
  gcm_decrypt : list byte -> list byte -> list byte -> list byte -> option (list byte)
}.
(** The lengths of what they return; what was encrypted decrypts, under the same key, nonce and
    data; and only a ciphertext the key holder would make passes the tag check. *)
Class CryptoLaws (crypto : Crypto) : Prop := {
  expand_length : forall prk info, length (hkdf_expand prk info) = 32;
  hmac_length : forall key m, length (hmac key m) = 32;
  sha256_length : forall m, length (sha256 m) = 32;
  encrypt_length : forall k n ad m, length (gcm_encrypt k n ad m) = length m + 16;
  decrypt_encrypt : forall k n ad m, gcm_decrypt k n ad (gcm_encrypt k n ad m) = Some m;
  decrypt_inv : forall k n ad c m, gcm_decrypt k n ad c = Some m -> c = gcm_encrypt k n ad m
}.

Definition V1 : byte := byte_of 1.
Definition V2 : byte := byte_of 2.
Definition V3 : byte := byte_of 3.
Definition V4 : byte := byte_of 4.
Definition V5 : byte := byte_of 5.
Definition FIRST_UNKNOWN : N := 6.
Definition NONCE_LEN : nat := 12.
Definition TAG_LEN : nat := 16.
Definition MIN_V1 : nat := 1 + NONCE_LEN + TAG_LEN.
Definition MIN_V2 : nat := 1 + 32 + NONCE_LEN + TAG_LEN.
Definition MIN_V3 : nat := 1 + NONCE_LEN + 32 + TAG_LEN.
Definition GRACE_BLOCKS : N := 240.
Definition MAX_RECIPIENTS : N := 16.
Definition HEAD_LEN : nat := 1 + 1 + 4 + 32.
Definition nul : byte := byte_of 0.
Definition AD_DOMAIN : list byte := bytes "dash-forge/v2/doc" ++ [nul].

Definition type_name (kind : DocKind) : string :=
  match kind with
  | DIssue => "issue" | DPatch => "patch" | DComment => "comment" | DReview => "review" | DRefUpdate => "refUpdate"
  | DProtectedRefUpdate => "protectedRefUpdate" | DConfig => "config" | DEvent => "event" | DAuthorEvent => "authorEvent"
  | DRelease => "release"
  end.
Definition max_enc (kind : DocKind) : nat :=
  match kind with
  | DIssue | DPatch | DComment | DReview | DEvent | DAuthorEvent => 5120
  | DRefUpdate | DProtectedRefUpdate | DConfig | DRelease => 1536
  end.

Inductive PrivateError := PMalformed | PTooLarge (type : string) (max : nat).

(** [ct_eq]. *)
Definition ct_eq (a b : list byte) : bool := a == b.

(** An identity or document id, an epoch key and a hash are their 32 bytes. *)
Definition Id : Type := list byte.
Definition EpochKey : Type := list byte.

Record EpochKeys := mkEpochKeys {
  ek_repo_id : Id;
  ek_epoch : N;
  ek_prk : list byte;
  ek_doc : list byte;
  ek_ref_key : list byte;
  ek_tag_key : list byte;
  ek_hedge : list byte;
  ek_kcv : list byte;
  ek_commit : list byte
}.
Record ObjKeys := mkObjKeys { ok_prk : list byte; ok_doc : list byte; ok_commit : list byte }.

(** The post key of a bot. *)
Record PostKey := mkPostKey { pk_repo_id : Id; pk_epoch : N; pk_bot : Id; pk_w : list byte; pk_prk : list byte; pk_hedge : list byte }.

Record DocHeader := mkHeader {
  dh_kind : DocKind;
  dh_vis : Visibility;
  dh_owner_id : Id;
  dh_epoch : N;
  dh_number : option N;
  dh_target_id : option Id;
  dh_patch_id : option Id;
  dh_ref_name_hash : option (list byte);
  dh_new_oid : option (list byte);
  dh_prev_oid : option (list byte);
  dh_force : option bool;
  dh_base_ref_name_hash : option (list byte);
  dh_source_ref_name_hash : option (list byte);
  dh_tag_name : option string;
  dh_id : option Id;
  dh_created_at_block_height : option N;
  dh_updated_at_block_height : option N
}.
Definition DocHeader_new (kind : DocKind) (owner_id : Id) (epoch : N) : DocHeader :=
  mkHeader kind VPrivate owner_id epoch None None None None None None None None None None None None None.

Inductive Unreadable :=
  NoEpoch | NoKey | CommitMismatch | BadTag | Late | LateEdit | EarlierUse | LetterDoc | UnknownVersion | NotABot.
Inductive Opened := Readable (f : Fields) | UnreadableAs (u : Unreadable) | MalformedDoc.

Record AnchorRef := mkAnchorRef { ar_id : Id; ar_height : N; ar_stated_height : N }.
Record OpenContext := mkOpenContext {
  oc_keys : gmap N EpochKeys;
  oc_anchors : gmap N AnchorRef;
  oc_members : gset Id;
  oc_burned : gset N;
  oc_bots : gset Id
}.

(** *** The associated data *)

Definition build_ad (repo_id owner_id : Id) (epoch : N) (version : byte) (doc_type : string) (bind : list byte) : list byte :=
  AD_DOMAIN ++ [version] ++ repo_id ++ owner_id ++ be32 epoch ++ bytes doc_type ++ [nul] ++ bind.

(** An object id behind its length, which must fit a byte. *)
Definition oidf (o : list byte) : option (list byte) := if (len o <=? u8_max)%N then Some (byte_of (len o) :: o) else None.

(** [commit] is the epoch's commitment, where the keys are held. *)
Definition bind (h : DocHeader) (commit : option (list byte)) : option (list byte) :=
  match dh_kind h with
  | DIssue | DPatch => be32 <$> dh_number h
  | DComment | DEvent | DAuthorEvent => dh_target_id h
  | DReview => dh_patch_id h
  | DRefUpdate | DProtectedRefUpdate =>
      hash ← dh_ref_name_hash h;
      new ← dh_new_oid h ≫= oidf;
      prev ← oidf (default [] (dh_prev_oid h));
      Some (hash ++ new ++ prev ++ [if default false (dh_force h) then byte_of 1 else byte_of 0])
  | DConfig => commit
  | DRelease => bytes <$> dh_tag_name h
  end.
Definition ad_with (h : DocHeader) (repo_id : Id) (epoch : N) (version : byte) (b : list byte) : list byte :=
  build_ad repo_id (dh_owner_id h) epoch version (type_name (dh_kind h)) b.
Definition ad (h : DocHeader) (keys : EpochKeys) (version : byte) : option (list byte) :=
  b ← bind h (Some (ek_commit keys)); Some (ad_with h (ek_repo_id keys) (dh_epoch h) version b).
Definition ad_in (h : DocHeader) (repo_id : Id) (version : byte) : option (list byte) :=
  b ← bind h None; Some (ad_with h repo_id (dh_epoch h) version b).
Definition ad_without_keys (h : DocHeader) (repo_id : Id) (version : byte) : option (list byte) :=
  b ← bind h None; Some (ad_with h repo_id 0 version b).
Definition header_version (h : DocHeader) : byte := if dh_kind h == DConfig then V2 else V1.

(** A config of an epoch above the first carries the link to the epoch below. *)
Definition anchor_with_prev (h : DocHeader) (is_anchor : bool) : bool := (dh_kind h == DConfig) && (1 <=? dh_epoch h)%N.

(** *** Framing *)

Definition pads (kind : DocKind) : bool := match kind with DIssue | DPatch | DComment | DReview => true | _ => false end.
Definition padded (kind : DocKind) (records : list byte) (max : nat) : list byte :=
  records ++ (if pads kind then pad_record (length records) max else []).

Definition posts_kind (kind : DocKind) : bool := match kind with DIssue | DComment | DReview => true | _ => false end.
Definition bundles_kind (kind : DocKind) : bool := match kind with DIssue | DComment | DReview | DPatch => true | _ => false end.
Definition shares_kind (kind : DocKind) : bool := bundles_kind kind || match kind with DPatch | DEvent => true | _ => false end.

(** [named::framing]: a letter's head, slots and sealed fields around the text. *)
Definition letter_framing (n : nat) : nat := HEAD_LEN + n * 64 + NONCE_LEN + TAG_LEN.

Definition is_unknown_version (kind : DocKind) (enc : list byte) : bool :=
  negb ((kind == DConfig) || (kind == DRelease)) && is_some_and (head enc) (fun v => FIRST_UNKNOWN <=? byte_val v)%N.

(** [take] and [drop] of what [well_framed] ensures. *)
Definition nonce_of (enc : list byte) : list byte := take NONCE_LEN (drop 1 enc).
Definition commit_of (enc : list byte) : list byte := take 32 (drop (1 + NONCE_LEN) enc).
Definition sealed_of (enc : list byte) : list byte := drop (1 + NONCE_LEN + 32) enc.

Section documents.
Context `{crypto : Crypto}.

(** *** The key schedule *)

Definition info (label : string) (epoch : N) (extra : list byte) : list byte :=
  bytes "dash-forge/v2/" ++ bytes label ++ [nul] ++ be32 epoch ++ extra.
Definition derive (repo_id : Id) (epoch : N) (key : EpochKey) : EpochKeys :=
  let prk := hkdf_extract repo_id key in
  let expand label := hkdf_expand prk (info label epoch []) in
  mkEpochKeys repo_id epoch prk (expand "doc") (expand "ref") (expand "tag") (expand "hedge") (take 14 (expand "kcv")) (expand "commit").
Definition expand (keys : EpochKeys) (label : string) (extra : list byte) : list byte :=
  hkdf_expand (ek_prk keys) (info label (ek_epoch keys) extra).
Definition ref_name_hash (keys : EpochKeys) (ref_name : string) : list byte := hmac (ek_ref_key keys) (bytes ref_name).
Definition release_tag_hash (keys : EpochKeys) (tag : string) : list byte := hmac (ek_tag_key keys) (bytes tag).
Definition commits_to (keys : EpochKeys) (commit : list byte) : bool := ct_eq (ek_commit keys) commit.
Definition hedged_nonce (keys : EpochKeys) (rnd a pt : list byte) : list byte :=
  take NONCE_LEN (hmac (ek_hedge keys) ([byte_of 2] ++ rnd ++ a ++ sha256 pt)).
Definition obj_key (keys : EpochKeys) (nonce a : list byte) : list byte := expand keys "obj" (nonce ++ sha256 a).
Definition bot_post_key (keys : EpochKeys) (bot : Id) : list byte := expand keys "bot-post" bot.
Definition derive_obj (repo_id : Id) (k_obj : list byte) : ObjKeys :=
  let prk := hkdf_extract repo_id k_obj in
  mkObjKeys prk (hkdf_expand prk (bytes "dash-forge/v2/obj-doc" ++ [nul])) (hkdf_expand prk (bytes "dash-forge/v2/obj-commit" ++ [nul])).

Definition post_expand (prk : list byte) (epoch : N) (label : string) (extra : list byte) : list byte :=
  hkdf_expand prk (info label epoch extra).
Definition PostKey_new (repo_id : Id) (epoch : N) (bot : Id) (w : list byte) : PostKey :=
  let prk := hkdf_extract repo_id w in mkPostKey repo_id epoch bot w prk (post_expand prk epoch "hedge" []).
Definition PostKey_derive (keys : EpochKeys) (bot : Id) : PostKey :=
  PostKey_new (ek_repo_id keys) (ek_epoch keys) bot (bot_post_key keys bot).
Definition post_obj_key (post : PostKey) (nonce a : list byte) : list byte :=
  post_expand (pk_prk post) (pk_epoch post) "obj" (nonce ++ sha256 a).
Definition post_hedged_nonce (post : PostKey) (rnd a pt : list byte) : list byte :=
  take NONCE_LEN (hmac (pk_hedge post) ([byte_of 2] ++ rnd ++ a ++ sha256 pt)).
Definition post_fits (post : PostKey) (h : DocHeader) : bool := (dh_owner_id h == pk_bot post) && (dh_epoch h =? pk_epoch post)%N.

(** *** The ref-name check *)

Definition name_matches (keys : EpochKeys) (hash : option (list byte)) (name : option string) (public_ok : bool) : bool :=
  match hash, name with
  | Some h, Some n => ct_eq h (ref_name_hash keys n) || (public_ok && ct_eq h (sha256 (bytes n)))
  | Some _, None => false
  | None, _ => true
  end.
Definition ref_names_match (h : DocHeader) (f : Fields) (keys : EpochKeys) (version : byte) : bool :=
  match dh_kind h with
  | DRefUpdate | DProtectedRefUpdate => name_matches keys (dh_ref_name_hash h) (f_ref_name f) false
  | DPatch =>
      let public_ok := version == V3 in
      name_matches keys (dh_base_ref_name_hash h) (f_base_ref_name f) public_ok
      && name_matches keys (dh_source_ref_name_hash h) (f_source_ref_name f) public_ok
  | _ => true
  end.

(** *** Writers *)

(** [nonce] is made from the associated data and the plaintext. *)
Definition seal_inner (keys : EpochKeys) (h : DocHeader) (f : Fields) (is_anchor : bool) (nonce : list byte -> list byte -> list byte) :
    PrivateError + list byte :=
  let kind := dh_kind h in
  if negb (dh_epoch h =? ek_epoch keys)%N || (dh_vis h == VPublic) && (kind != DConfig) then inl PMalformed
  else
    let pt := encode f in
    match parse pt kind (anchor_with_prev h is_anchor) with
    | None => inl PMalformed
    | Some parsed =>
        if negb (ref_names_match h parsed keys V1) then inl PMalformed
        else
          let version := header_version h in
          let max := (max_enc kind - (if version == V2 then MIN_V2 else MIN_V1))%nat in
          if (max <? length pt)%nat then inl (PTooLarge (type_name kind) max)
          else
            match ad h keys version with
            | None => inl PMalformed
            | Some a =>
                let n := nonce a pt in
                inr ([version] ++ (if version == V2 then ek_commit keys else []) ++ n ++ gcm_encrypt (ek_doc keys) n a pt)
            end
    end.
Definition seal (rnd : list byte) (keys : EpochKeys) (h : DocHeader) (f : Fields) : PrivateError + list byte :=
  seal_inner keys h f ((dh_kind h == DConfig) && is_some_and (f_prev_epoch f) (fun _ => true)) (hedged_nonce keys rnd).

(** The envelope of versions 3 and 5: the object's key commits to itself and its data. *)
Definition obj_envelope (version : byte) (repo_id : Id) (k_obj nonce a pt : list byte) : list byte :=
  let obj := derive_obj repo_id k_obj in
  [version] ++ nonce ++ ok_commit obj ++ gcm_encrypt (ok_doc obj) nonce (a ++ ok_commit obj) pt.

Definition v3_envelope (keys : EpochKeys) (h : DocHeader) (records : list byte) (parsed : Fields)
    (nonce : list byte -> list byte -> list byte) : PrivateError + list byte :=
  let kind := dh_kind h in
  if negb (dh_epoch h =? ek_epoch keys)%N || (kind == DConfig) || (kind == DRelease) then inl PMalformed
  else if negb (ref_names_match h parsed keys V3) then inl PMalformed
  else
    let max := (max_enc kind - MIN_V3)%nat in
    if (max <? length records)%nat then inl (PTooLarge (type_name kind) max)
    else
      let pt := padded kind records max in
      match ad h keys V3 with
      | None => inl PMalformed
      | Some a => let n := nonce a pt in inr (obj_envelope V3 (ek_repo_id keys) (obj_key keys n a) n a pt)
      end.
Definition seal_members (rnd : list byte) (keys : EpochKeys) (h : DocHeader) (f : Fields) : PrivateError + list byte :=
  if dh_vis h != VPublic then inl PMalformed
  else
    match parse_members (encode f) (dh_kind h) with
    | None => inl PMalformed
    | Some parsed => v3_envelope keys h (encode f) parsed (hedged_nonce keys rnd)
    end.
Definition seal_private_v3 (rnd : list byte) (keys : EpochKeys) (h : DocHeader) (f : Fields) : PrivateError + list byte :=
  if dh_vis h != VPrivate then inl PMalformed
  else
    match parse (encode f) (dh_kind h) false with
    | None => inl PMalformed
    | Some parsed => v3_envelope keys h (encode f) parsed (hedged_nonce keys rnd)
    end.

(** The plaintext of a members-only or private document. *)
Definition parse_by_vis (h : DocHeader) (pt : list byte) : option Fields :=
  if dh_vis h == VPublic then parse_members pt (dh_kind h) else parse pt (dh_kind h) false.

Definition seal_post (rnd : list byte) (post : PostKey) (h : DocHeader) (f : Fields) : PrivateError + list byte :=
  let kind := dh_kind h in
  if negb (post_fits post h) || negb (posts_kind kind) then inl PMalformed
  else
    let records := encode f in
    match parse_by_vis h records with
    | None => inl PMalformed
    | Some _ =>
        let max := (max_enc kind - MIN_V3)%nat in
        if (max <? length records)%nat then inl (PTooLarge (type_name kind) max)
        else
          let pt := padded kind records max in
          match ad_in h (pk_repo_id post) V5 with
          | None => inl PMalformed
          | Some a =>
              let n := post_hedged_nonce post rnd a pt in inr (obj_envelope V5 (pk_repo_id post) (post_obj_key post n a) n a pt)
          end
    end.

(** *** Readers *)

Definition letter_framed (h : DocHeader) (enc : list byte) : bool :=
  if negb (dh_epoch h =? 0)%N || negb (letter_kind (dh_kind h)) || (length enc <? HEAD_LEN)%nat then false
  else
    let n := from_option byte_val 0%N (enc !! 1) in
    bool_decide (head enc = Some V4) && (1 <=? n)%N && (n <=? MAX_RECIPIENTS)%N && (letter_framing (N.to_nat n) <=? length enc)%nat.
Definition post_framed (h : DocHeader) (enc : list byte) : bool :=
  bool_decide (head enc = Some V5) && (MIN_V3 <=? length enc)%nat && posts_kind (dh_kind h).
Definition well_framed (h : DocHeader) (enc : list byte) : bool :=
  match head enc with
  | None => false
  | Some version =>
      match dh_kind h with
      | DConfig => (MIN_V2 <=? length enc)%nat && (version == V2)
      | DRelease => false
      | _ =>
          if (version == V1) && (dh_vis h == VPrivate) then (MIN_V1 <=? length enc)%nat
          else if version == V3 then (MIN_V3 <=? length enc)%nat
          else if version == V4 then letter_framed h enc
          else if version == V5 then post_framed h enc
          else false
      end
  end.

(** A tag that checks is [BadTag] when it does not. *)
Definition opened (pt : option (list byte)) (parse : list byte -> option Fields) : Opened :=
  match pt with
  | None => UnreadableAs BadTag
  | Some pt => match parse pt with Some f => Readable f | None => MalformedDoc end
  end.
Definition checked_names (h : DocHeader) (keys : EpochKeys) (version : byte) (f : option Fields) : option Fields :=
  f ← f; if ref_names_match h f keys version then Some f else None.

Definition decrypt_members (keys : EpochKeys) (h : DocHeader) (enc : list byte) : Opened :=
  match ad h keys V3 with
  | None => MalformedDoc
  | Some a =>
      let n := nonce_of enc in
      let obj := derive_obj (ek_repo_id keys) (obj_key keys n a) in
      if negb (ct_eq (ok_commit obj) (commit_of enc)) then UnreadableAs CommitMismatch
      else opened (gcm_decrypt (ok_doc obj) n (a ++ commit_of enc) (sealed_of enc)) (fun pt => checked_names h keys V3 (parse_by_vis h pt))
  end.

Definition decrypt (keys : EpochKeys) (h : DocHeader) (enc : list byte) (is_anchor : bool) : Opened :=
  match head enc with
  | None => MalformedDoc
  | Some version =>
      if version == V3 then decrypt_members keys h enc
      else if version == V4 then UnreadableAs LetterDoc
      else if version == V5 then MalformedDoc
      else if (version == V2) && negb (commits_to keys (take 32 (drop 1 enc))) then UnreadableAs CommitMismatch
      else
        let body := if version == V2 then drop 33 enc else drop 1 enc in
        match ad h keys version with
        | None => MalformedDoc
        | Some a =>
            opened (gcm_decrypt (ek_doc keys) (take NONCE_LEN body) a (drop NONCE_LEN body))
              (fun pt => checked_names h keys version (parse pt (dh_kind h) (anchor_with_prev h is_anchor)))
        end
  end.
Definition open_with (keys : EpochKeys) (h : DocHeader) (enc : list byte) (is_anchor : bool) : Opened :=
  if negb (well_framed h enc) then MalformedDoc else decrypt keys h enc is_anchor.

(** The object's key of a framed post, checked against the commitment it carries. *)
Definition checked_post_key (post : PostKey) (h : DocHeader) (enc : list byte) : option (list byte * list byte) :=
  a ← ad_in h (pk_repo_id post) V5;
  let k_obj := post_obj_key post (nonce_of enc) a in
  if ct_eq (ok_commit (derive_obj (pk_repo_id post) k_obj)) (commit_of enc) then Some (k_obj, a) else None.
Definition open_post (post : PostKey) (h : DocHeader) (enc : list byte) : Opened :=
  if negb (post_framed h enc) then MalformedDoc
  else if negb (post_fits post h) then UnreadableAs NoKey
  else
    match checked_post_key post h enc with
    | None => UnreadableAs CommitMismatch
    | Some (k_obj, a) =>
        let obj := derive_obj (pk_repo_id post) k_obj in
        opened (gcm_decrypt (ok_doc obj) (nonce_of enc) (a ++ commit_of enc) (sealed_of enc)) (parse_by_vis h)
    end.

(** *** The late-content rule *)

(** [BTreeMap::range(from..).next()]. *)
Definition first_from {A} (from : N) (m : gmap N A) : option (N * A) :=
  head (sort_by (cmp_on fst N.compare) (map_to_list (filter (fun x => (from <= x.1)%N) m))).
Definition is_late_in (anchors : gmap N AnchorRef) (burned : gset N) (epoch height : N) (current_member : bool) : bool :=
  if current_member then false
  else if bool_decide (epoch ∈ burned) then true
  else
    match (if (epoch <? u32_max)%N then first_from (epoch + 1)%N anchors else None) with
    | Some (_, a) => (sat_add_u64 (ar_stated_height a) GRACE_BLOCKS <? height)%N
    | None => false
    end.
Definition is_late (ctx : OpenContext) (epoch height : N) (owner : Id) : bool :=
  is_late_in (oc_anchors ctx) (oc_burned ctx) epoch height (bool_decide (owner ∈ oc_members ctx)).

(** Step 7: whether a document that decrypted is still shown. *)
Definition shown (ctx : OpenContext) (h : DocHeader) (f : Fields) : Opened :=
  match dh_kind h with
  | DEvent => Readable f
  | DAuthorEvent =>
      if is_late ctx (dh_epoch h) (default u64_max (dh_created_at_block_height h)) (dh_owner_id h) then UnreadableAs Late else Readable f
  | _ =>
      match dh_created_at_block_height h with
      | None => MalformedDoc
      | Some created =>
          if is_late ctx (dh_epoch h) created (dh_owner_id h) then UnreadableAs Late
          else if is_some_and (opt_filter (fun u => created <? u)%N (dh_updated_at_block_height h))
                    (fun u => is_late ctx (dh_epoch h) u (dh_owner_id h))
          then UnreadableAs LateEdit
          else Readable f
      end
  end.

Definition open_content (ctx : OpenContext) (h : DocHeader) (enc : list byte) : Opened :=
  if is_unknown_version (dh_kind h) enc then UnreadableAs UnknownVersion
  else if negb (well_framed h enc) then MalformedDoc
  else if bool_decide (head enc = Some V4) then UnreadableAs LetterDoc
  else
    match oc_anchors ctx !! dh_epoch h with
    | None => UnreadableAs NoEpoch
    | Some anchor =>
        match oc_keys ctx !! dh_epoch h with
        | None => UnreadableAs NoKey
        | Some keys =>
            let is_anchor := bool_decide (dh_id h = Some (ar_id anchor)) in
            let opened :=
              if bool_decide (head enc = Some V5) then
                if negb (bool_decide (dh_owner_id h ∈ oc_bots ctx)) then UnreadableAs NotABot
                else open_post (PostKey_derive keys (dh_owner_id h)) h enc
              else decrypt keys h enc is_anchor in
            match opened with Readable f => shown ctx h f | other => other end
        end
    end.

(** *** Keys of single documents *)

Definition post_obj_key_of (post : PostKey) (h : DocHeader) (enc : list byte) : option (list byte) :=
  if negb (post_framed h enc) || negb (post_fits post h) then None else fst <$> checked_post_key post h enc.
Definition obj_key_of (keys : EpochKeys) (h : DocHeader) (enc : list byte) (kind_ok : DocKind -> bool) : option (list byte) :=
  if bool_decide (head enc = Some V5) then
    if negb (kind_ok (dh_kind h)) then None else post_obj_key_of (PostKey_derive keys (dh_owner_id h)) h enc
  else if bool_decide (head enc <> Some V3) || negb (kind_ok (dh_kind h)) || negb (well_framed h enc)
          || negb (ek_epoch keys =? dh_epoch h)%N
  then None
  else
    a ← ad h keys V3;
    let k_obj := obj_key keys (nonce_of enc) a in
    if ct_eq (ok_commit (derive_obj (ek_repo_id keys) k_obj)) (commit_of enc) then Some k_obj else None.
Definition members_obj_key (keys : EpochKeys) (h : DocHeader) (enc : list byte) : option (list byte) := obj_key_of keys h enc bundles_kind.
Definition read_obj_key (keys : EpochKeys) (h : DocHeader) (enc : list byte) : option (list byte) := obj_key_of keys h enc shares_kind.

(** A branch name a published key may show: one whose hash is its plain SHA-256. [None] for a
    hash without a name; [Some None] hides the name. *)
Definition public_name (hash : option (list byte)) (name : option string) : option (option string) :=
  match hash, name with
  | Some h, Some n => Some (if ct_eq h (sha256 (bytes n)) then Some n else None)
  | Some _, None => None
  | None, name => Some name
  end.
Definition with_public_names (h : DocHeader) (f : Fields) : option Fields :=
  base ← public_name (dh_base_ref_name_hash h) (f_base_ref_name f);
  source ← public_name (dh_source_ref_name_hash h) (f_source_ref_name f);
  Some (set_source_ref_name source (set_base_ref_name base f)).
Definition bundled_patch (h : DocHeader) (f : Fields) : option Fields :=
  if dh_kind h != DPatch then Some f
  else f ← with_public_names h f; Some (set_oid_salt None (set_head_oid None f)).

Definition open_with_obj_key (repo_id : Id) (h : DocHeader) (enc k_obj : list byte) (bundle : bool) : Opened :=
  match head enc with
  | None => MalformedDoc
  | Some version =>
      if negb ((version == V3) || (version == V5)) then MalformedDoc
      else if negb (well_framed h enc) then MalformedDoc
      else
        match ad_in h repo_id version with
        | None => MalformedDoc
        | Some a =>
            let obj := derive_obj repo_id k_obj in
            if negb (ct_eq (ok_commit obj) (commit_of enc)) then UnreadableAs CommitMismatch
            else
              opened (gcm_decrypt (ok_doc obj) (nonce_of enc) (a ++ commit_of enc) (sealed_of enc))
                (fun pt => f ← parse_by_vis h pt; if bundle then bundled_patch h f else Some f)
        end
  end.
Definition open_members_with_key (repo_id : Id) (h : DocHeader) (enc k_obj : list byte) : Opened :=
  if negb (bundles_kind (dh_kind h)) then MalformedDoc else open_with_obj_key repo_id h enc k_obj true.
Definition open_shared_with_key (repo_id : Id) (h : DocHeader) (enc k_obj : list byte) : Opened :=
  if negb (shares_kind (dh_kind h)) then MalformedDoc
  else
    match open_with_obj_key repo_id h enc k_obj false with
    | Readable f =>
        if dh_kind h == DPatch then match with_public_names h f with Some f => Readable f | None => MalformedDoc end else Readable f
    | other => other
    end.

Definition keyed_name (hash : option (list byte)) (name : option string) : bool :=
  match hash, name with
  | Some h, Some n => negb (ct_eq h (sha256 (bytes n)))
  | Some _, None => true
  | None, _ => false
  end.
Definition bundle_would_publish_members_only (h : DocHeader) (f : Fields) : bool :=
  (dh_kind h == DPatch)
  && (is_some_and (f_head_oid f) (fun _ => true) || is_some_and (f_oid_salt f) (fun _ => true)
      || keyed_name (dh_base_ref_name_hash h) (f_base_ref_name f) || keyed_name (dh_source_ref_name_hash h) (f_source_ref_name f)).
End documents.

(** ** Envelopes, and what they are made of *)

Lemma take_len_app {A} (a b : list A) n : length a = n -> take n (a ++ b) = a.
Proof. intros <-. by rewrite take_app_length. Qed.
Lemma drop_len_app {A} (a b : list A) n : length a = n -> drop n (a ++ b) = b.
Proof. intros <-. by rewrite drop_app_length. Qed.

Lemma obj_parts v n c s : length n = NONCE_LEN -> length c = 32 ->
  nonce_of ([v] ++ n ++ c ++ s) = n /\ commit_of ([v] ++ n ++ c ++ s) = c /\ sealed_of ([v] ++ n ++ c ++ s) = s.
Proof.
  intros Hn Hc. unfold nonce_of, commit_of, sealed_of, NONCE_LEN in *. split_and!.
  - change (drop 1 ([v] ++ n ++ c ++ s)) with (n ++ c ++ s). by apply take_len_app.
  - change (drop (1 + 12) ([v] ++ n ++ c ++ s)) with (drop 12 (n ++ c ++ s)). rewrite (drop_len_app n) by done. by apply take_len_app.
  - change (drop (1 + 12 + 32) ([v] ++ n ++ c ++ s)) with (drop (12 + 32) (n ++ c ++ s)).
    rewrite app_assoc. apply drop_len_app. rewrite length_app. lia.
Qed.

Lemma obj_whole v enc : head enc = Some v -> enc = [v] ++ nonce_of enc ++ commit_of enc ++ sealed_of enc.
Proof.
  destruct enc as [|b rest]; [done|]. intros [= ->]. unfold nonce_of, commit_of, sealed_of, NONCE_LEN.
  change (drop 1 (v :: rest)) with rest. change (drop (1 + 12) (v :: rest)) with (drop 12 rest).
  change (drop (1 + 12 + 32) (v :: rest)) with (drop (12 + 32) rest).
  rewrite <-(drop_drop rest 32 12), take_drop, take_drop. done.
Qed.

(** A padded document parses as it does without its padding. *)
Lemma parse_padded kind blinds f max : writable kind false blinds f = true -> kind <> DConfig ->
  parse_inner (padded kind (encode f) max) kind false None blinds = Some (f, None).
Proof.
  intros Hw Hkind. destruct (writable_records _ _ _ _ Hw) as (Hfit & Hok & Hk & Hp). specialize (Hok false).
  assert (Hw' := Hw). apply andb_true_iff in Hw' as [[_ He]%andb_true_iff Hc].
  assert (exists rs, (if pads kind then pad_record (length (encode f)) max else []) = document rs /\ Forall fits rs
    /\ (rs = [] \/ exists v, rs = [(PAD, v)])) as (pad & Hpad & Hpfit & Hps).
  { destruct (pads kind); [by apply pad_record_document|]. exists []. by split_and!; [..|left]. }
  unfold padded. rewrite Hpad, encode_document, <-document_app. apply (parse_inner_iff kind false blinds false).
  exists (records_of f ++ pad). split_and!; try done.
  - by apply Forall_app.
  - assert (forall r, r ∈ records_of f -> (r.1 < FIRST_EXTENSION)%N) as Hlow.
    { intros [t v] Hr%list_elem_of_In. rewrite forallb_forall in Hk. specialize (Hk _ Hr). unfold keeps in Hk. simpl.
      destruct (FIRST_EXTENSION <=? t)%N eqn:E; [|by apply N.leb_gt].
      apply andb_true_iff in Hk as [_ Hk%bool_decide_eq_true]. done. }
    unfold accepted. rewrite ascending_app, ascending_records, !forallb_app, Hok. cbn [andb]. apply andb_true_iff; split.
    + apply andb_true_iff; split; [|by destruct Hps as [->|[v ->]]].
      destruct Hps as [->|[v ->]]; [done|]. simpl. rewrite andb_true_r. apply in_order_above.
      destruct (last (map fst (records_of f))) as [t|] eqn:Hl; [|done]. simpl.
      apply last_Some_elem_of, list_elem_of_In, in_map_iff in Hl as (r & <- & Hr%list_elem_of_In%Hlow). by apply N.ltb_lt.
    + apply Nat.leb_le. rewrite count_values, values_app, (values_pad pad), app_nil_r, <-count_values by done. done.
  - intros t. rewrite kept_app, kept_values, values_records by done. rewrite (kept_dropped kind), app_nil_r; [done|].
    intros r Hr. destruct Hps as [->|[v ->]]; [by apply elem_of_nil in Hr|]. apply list_elem_of_singleton in Hr as ->. done.
Qed.

Section laws.
Context {crypto : Crypto} {laws : CryptoLaws crypto}.

(** The keys are those of some epoch key. *)
Definition derived (keys : EpochKeys) : Prop := exists repo_id epoch key, keys = derive repo_id epoch key.

Lemma commit_length keys : derived keys -> length (ek_commit keys) = 32.
Proof. intros (? & ? & ? & ->). apply expand_length. Qed.
Lemma obj_commit_length repo_id k : length (ok_commit (derive_obj repo_id k)) = 32.
Proof. apply expand_length. Qed.
Lemma nonce_length key m : length (take NONCE_LEN (hmac key m)) = NONCE_LEN.
Proof. rewrite length_take, hmac_length. done. Qed.

Lemma ct_eq_refl l : ct_eq l l = true.
Proof. by apply bool_decide_eq_true. Qed.

(** *** What the writers write, the readers read *)

(** The fields fit the document: what its plaintext parser keeps, all of it. *)
Definition fits_header (h : DocHeader) (f : Fields) : bool :=
  if dh_kind h == DConfig then writable DConfig (anchor_with_prev h true) false f
  else writable (dh_kind h) false (dh_vis h == VPublic) f.

Lemma parse_padded_by_vis h f max : fits_header h f = true -> dh_kind h <> DConfig ->
  parse_by_vis h (padded (dh_kind h) (encode f) max) = Some f /\ parse_by_vis h (encode f) = Some f.
Proof.
  unfold fits_header, parse_by_vis. intros Hf Hk. rewrite bool_decide_false in Hf by done.
  unfold parse_members, parse. split.
  - by case_bool_decide; rewrite parse_padded.
  - by case_bool_decide; rewrite (parse_encode _ _ _ _ Hf).
Qed.

Lemma parse_fit h f a : fits_header h f = true -> (dh_vis h == VPublic) && (dh_kind h != DConfig) = false ->
  parse (encode f) (dh_kind h) (anchor_with_prev h a) = Some f.
Proof.
  intros Hfit Hg. unfold parse, fits_header in *. change (anchor_with_prev h a) with (anchor_with_prev h true).
  destruct (decide (dh_kind h = DConfig)) as [Hk|Hk].
  - rewrite bool_decide_true in Hfit by done. rewrite Hk. by rewrite (parse_encode _ _ _ _ Hfit).
  - rewrite (bool_decide_false (dh_kind h = DConfig)) in * by done. rewrite andb_true_r in Hg. rewrite Hg in Hfit.
    unfold anchor_with_prev. rewrite (bool_decide_false (dh_kind h = DConfig)) by done. cbn [andb]. by rewrite (parse_encode _ _ _ _ Hfit).
Qed.

Lemma decrypt_V1 keys h rest a : decrypt keys h (V1 :: rest) a =
  match ad h keys V1 with
  | None => MalformedDoc
  | Some d => opened (gcm_decrypt (ek_doc keys) (take NONCE_LEN rest) d (drop NONCE_LEN rest))
                (fun pt => checked_names h keys V1 (parse pt (dh_kind h) (anchor_with_prev h a)))
  end.
Proof. reflexivity. Qed.
Lemma decrypt_V2 keys h rest a : decrypt keys h (V2 :: rest) a =
  if negb (commits_to keys (take 32 rest)) then UnreadableAs CommitMismatch
  else match ad h keys V2 with
  | None => MalformedDoc
  | Some d => opened (gcm_decrypt (ek_doc keys) (take NONCE_LEN (drop 32 rest)) d (drop NONCE_LEN (drop 32 rest)))
                (fun pt => checked_names h keys V2 (parse pt (dh_kind h) (anchor_with_prev h a)))
  end.
Proof. reflexivity. Qed.

Lemma fits_kind h f : fits_header h f = true -> dh_kind h <> DRelease.
Proof.
  unfold fits_header. intros Hf Hk. rewrite Hk in Hf. unfold writable, complete, required in Hf. cbn [andb] in Hf.
  rewrite bool_decide_false, andb_false_r in Hf by done. done.
Qed.

Lemma seal_opens rnd keys h f enc a : derived keys -> fits_header h f = true -> seal rnd keys h f = inr enc ->
  well_framed h enc = true /\ (head enc = Some V1 \/ head enc = Some V2) /\ decrypt keys h enc a = Readable f.
Proof.
  intros Hkeys Hfit. unfold seal, seal_inner. destruct (negb (dh_epoch h =? ek_epoch keys)%N || _) eqn:Hg; [done|].
  apply orb_false_iff in Hg as [_ Hg]. rewrite parse_fit by done.
  destruct (negb (ref_names_match _ _ _ _)) eqn:Hn; [done|]. apply negb_false_iff in Hn.
  case_match; [done|]. destruct (ad h keys (header_version h)) as [d|] eqn:Ha; [|done]. intros [= <-].
  set (n := hedged_nonce keys rnd d (encode f)). assert (length n = NONCE_LEN) as Hlen by apply nonce_length.
  pose proof (commit_length keys Hkeys) as Hc.
  assert (forall v, ref_names_match h f keys v = true ->
    opened (gcm_decrypt (ek_doc keys) n d (gcm_encrypt (ek_doc keys) n d (encode f)))
      (fun pt => checked_names h keys v (parse pt (dh_kind h) (anchor_with_prev h a))) = Readable f) as Hopen.
  { intros v Hr. rewrite decrypt_encrypt. simpl. unfold checked_names. rewrite parse_fit by done. simpl. by rewrite Hr. }
  unfold header_version in *. destruct (decide (dh_kind h = DConfig)) as [Hk|Hk].
  - rewrite (bool_decide_true (dh_kind h = DConfig)) in * by done. rewrite (bool_decide_true (V2 = V2)) by done. cbn [app].
    split_and!; [|by right|].
    + unfold well_framed. cbn [head]. rewrite Hk. apply andb_true_iff; split; [|by apply bool_decide_eq_true]. apply Nat.leb_le.
      cbn [length]. rewrite !length_app, encrypt_length, Hc, Hlen. unfold MIN_V2, NONCE_LEN, TAG_LEN. lia.
    + rewrite decrypt_V2, Ha, (take_len_app (ek_commit keys)), (drop_len_app (ek_commit keys)), take_len_app, drop_len_app by done.
      unfold commits_to. rewrite ct_eq_refl. apply Hopen. unfold ref_names_match. by rewrite Hk.
  - rewrite (bool_decide_false (dh_kind h = DConfig)) in * by done. rewrite (bool_decide_false (V1 = V2)) by done. cbn [app].
    split_and!; [|by left|].
    + unfold well_framed. cbn [head]. rewrite bool_decide_true by done. rewrite andb_true_r in Hg. apply bool_decide_eq_false in Hg.
      destruct (dh_vis h) eqn:Hv; [done|]. rewrite bool_decide_true by done. cbn [andb].
      assert ((MIN_V1 <=? length (V1 :: n ++ gcm_encrypt (ek_doc keys) n d (encode f)))%nat = true) as Hm.
      { apply Nat.leb_le. cbn [length]. rewrite length_app, encrypt_length, Hlen. unfold MIN_V1, NONCE_LEN, TAG_LEN. lia. }
      pose proof (fits_kind h f Hfit). by destruct (dh_kind h).
    + rewrite decrypt_V1, Ha, take_len_app, drop_len_app by done. by apply Hopen.
Qed.

Lemma decrypt_V3 keys h rest a : decrypt keys h (V3 :: rest) a = decrypt_members keys h (V3 :: rest).
Proof. reflexivity. Qed.

Lemma framed_obj v repo_id k n a pt : length n = NONCE_LEN -> (MIN_V3 <=? length (obj_envelope v repo_id k n a pt))%nat = true.
Proof.
  intros Hn. unfold obj_envelope. cbv zeta. rewrite !length_app, encrypt_length, obj_commit_length, Hn. apply Nat.leb_le.
  unfold MIN_V3, NONCE_LEN, TAG_LEN. simpl. lia.
Qed.

Lemma v3_opens keys h f parsed nonce enc : fits_header h f = true -> (forall d pt, length (nonce d pt) = NONCE_LEN) ->
  parse_by_vis h (encode f) = Some parsed -> v3_envelope keys h (encode f) parsed nonce = inr enc ->
  well_framed h enc = true /\ head enc = Some V3 /\ decrypt_members keys h enc = Readable f.
Proof.
  intros Hfit Hnonce Hp. unfold v3_envelope. destruct (negb _ || _ || _) eqn:Hg; [done|].
  apply orb_false_iff in Hg as [[_ Hk%bool_decide_eq_false]%orb_false_iff Hr%bool_decide_eq_false].
  destruct (negb (ref_names_match _ _ _ _)) eqn:Hn; [done|]. apply negb_false_iff in Hn. case_match; [done|].
  destruct (ad h keys V3) as [d|] eqn:Ha; [|done]. intros [= <-].
  set (pt := padded _ _ _). set (n := nonce d pt). assert (length n = NONCE_LEN) as Hlen by apply Hnonce. split_and!.
  - unfold well_framed. change (head (obj_envelope V3 _ _ _ _ _)) with (Some V3).
    change (V3 == V1) with false. change (V3 == V3) with true. cbn [andb]. rewrite framed_obj by done. by destruct (dh_kind h).
  - done.
  - unfold decrypt_members, obj_envelope. rewrite Ha. cbv zeta.
    destruct (obj_parts V3 n (ok_commit (derive_obj (ek_repo_id keys) (obj_key keys n d)))
      (gcm_encrypt (ok_doc (derive_obj (ek_repo_id keys) (obj_key keys n d))) n
         (d ++ ok_commit (derive_obj (ek_repo_id keys) (obj_key keys n d))) pt) Hlen (obj_commit_length _ _)) as (-> & -> & ->).
    rewrite ct_eq_refl, decrypt_encrypt. cbn [negb opened].
    destruct (parse_padded_by_vis h f (max_enc (dh_kind h) - MIN_V3) Hfit Hk) as [Hpad Hpl].
    unfold checked_names. unfold pt. rewrite Hpad. simpl. rewrite Hpl in Hp. injection Hp as <-. by rewrite Hn.
Qed.

Lemma post_opens rnd post h f enc : fits_header h f = true -> seal_post rnd post h f = inr enc ->
  well_framed h enc = true /\ head enc = Some V5 /\ open_post post h enc = Readable f.
Proof.
  intros Hfit. unfold seal_post. destruct (negb (post_fits post h) || _) eqn:Hg; [done|].
  apply orb_false_iff in Hg as [Hpost%negb_false_iff Hk%negb_false_iff].
  assert (dh_kind h <> DConfig) as Hc by (intros E; by rewrite E in Hk).
  destruct (parse_by_vis h (encode f)) as [parsed|]; [|done]. case_match; [done|].
  destruct (ad_in h (pk_repo_id post) V5) as [d|] eqn:Ha; [|done]. intros [= <-].
  set (pt := padded _ _ _). set (n := post_hedged_nonce post rnd d pt). assert (length n = NONCE_LEN) as Hlen by apply nonce_length.
  assert (post_framed h (obj_envelope V5 (pk_repo_id post) (post_obj_key post n d) n d pt) = true) as Hframed.
  { unfold post_framed. change (head (obj_envelope V5 _ _ _ _ _)) with (Some V5). rewrite bool_decide_true by done. by rewrite framed_obj, Hk. }
  split_and!.
  - unfold well_framed. change (head (obj_envelope V5 _ _ _ _ _)) with (Some V5).
    change (V5 == V1) with false. change (V5 == V3) with false. change (V5 == V4) with false. change (V5 == V5) with true. cbn [andb].
    rewrite Hframed. by destruct (dh_kind h).
  - done.
  - unfold open_post. rewrite Hframed, Hpost. cbn [negb]. unfold checked_post_key. rewrite Ha. cbn [mbind option_bind].
    unfold obj_envelope. cbv zeta.
    destruct (obj_parts V5 n (ok_commit (derive_obj (pk_repo_id post) (post_obj_key post n d)))
      (gcm_encrypt (ok_doc (derive_obj (pk_repo_id post) (post_obj_key post n d))) n
         (d ++ ok_commit (derive_obj (pk_repo_id post) (post_obj_key post n d))) pt) Hlen (obj_commit_length _ _)) as (-> & -> & ->).
    rewrite ct_eq_refl. rewrite decrypt_encrypt. cbn [opened]. unfold pt.
    by rewrite (proj1 (parse_padded_by_vis h f _ Hfit Hc)).
Qed.

(** *** What the readers read, someone holding the keys wrote *)

(** [enc] was made from [pt] under the keys, for this very document. *)
Definition bound_to (keys : EpochKeys) (h : DocHeader) (enc pt : list byte) : Prop :=
  exists n d,
    (ad h keys V1 = Some d /\ dh_vis h = VPrivate /\ enc = [V1] ++ n ++ gcm_encrypt (ek_doc keys) n d pt)
    \/ (ad h keys V2 = Some d /\ dh_kind h = DConfig /\ enc = [V2] ++ ek_commit keys ++ n ++ gcm_encrypt (ek_doc keys) n d pt)
    \/ (ad h keys V3 = Some d /\ enc = obj_envelope V3 (ek_repo_id keys) (obj_key keys n d) n d pt)
    \/ (ad_in h (ek_repo_id keys) V5 = Some d
        /\ enc = obj_envelope V5 (ek_repo_id keys) (post_obj_key (PostKey_derive keys (dh_owner_id h)) n d) n d pt).

Lemma opened_Readable pt parse f : opened pt parse = Readable f -> exists m, pt = Some m /\ parse m = Some f.
Proof. unfold opened. destruct pt as [m|]; [|done]. destruct (parse m) eqn:E; [|done]. intros [= <-]. by exists m. Qed.
Lemma checked_names_Some h keys v o f : checked_names h keys v o = Some f -> o = Some f /\ ref_names_match h f keys v = true.
Proof. unfold checked_names. destruct o as [g|]; [|done]. simpl. destruct (ref_names_match h g keys v) eqn:E; [|done]. by intros [= <-]. Qed.

Lemma envelope_whole v repo_id k d enc pt : head enc = Some v -> ok_commit (derive_obj repo_id k) = commit_of enc ->
  gcm_decrypt (ok_doc (derive_obj repo_id k)) (nonce_of enc) (d ++ commit_of enc) (sealed_of enc) = Some pt ->
  enc = obj_envelope v repo_id k (nonce_of enc) d pt.
Proof.
  intros Hh Hc Hd%decrypt_inv. unfold obj_envelope. cbv zeta. rewrite Hc, <-Hd. by apply obj_whole.
Qed.

Lemma decrypt_bound keys h enc a f : well_framed h enc = true -> decrypt keys h enc a = Readable f ->
  exists pt, bound_to keys h enc pt /\ (parse pt (dh_kind h) (anchor_with_prev h a) = Some f \/ parse_by_vis h pt = Some f).
Proof.
  unfold well_framed. destruct enc as [|v rest]; [done|]. cbn [head]. intros Hw.
  destruct (decide (v = V3)) as [->|H3].
  { rewrite decrypt_V3. unfold decrypt_members. destruct (ad h keys V3) as [d|] eqn:Ha; [|done].
    set (enc := V3 :: rest). destruct (ct_eq _ _) eqn:Hc; [|done]. apply bool_decide_eq_true in Hc. cbn [negb].
    intros (pt & Hd & Hp)%opened_Readable. apply checked_names_Some in Hp as [Hp _]. exists pt. split; [|by right].
    exists (nonce_of enc), d. right; right; left. split; [done|]. by apply envelope_whole. }
  unfold decrypt. cbn [head]. rewrite (bool_decide_false (v = V3)) in * by done.
  destruct (decide (v = V4)) as [->|H4]; [done|]. rewrite (bool_decide_false (v = V4)) in * by done.
  destruct (decide (v = V5)) as [->|H5]; [done|]. rewrite (bool_decide_false (v = V5)) in * by done.
  destruct ((v == V2) && negb (commits_to keys (take 32 (drop 1 (v :: rest))))) eqn:Hc; [done|].
  destruct (ad h keys v) as [d|] eqn:Ha; [|done]. intros (pt & Hd%decrypt_inv & Hp)%opened_Readable.
  apply checked_names_Some in Hp as [Hp _]. exists pt. split; [|by left].
  exists (take NONCE_LEN (if v == V2 then drop 33 (v :: rest) else drop 1 (v :: rest))), d.
  destruct (decide (v = V2)) as [->|H2].
  - rewrite bool_decide_true in * by done. apply andb_false_iff in Hc as [|Hc%negb_false_iff]; [done|].
    apply bool_decide_eq_true in Hc. right; left. split_and!; [done| |].
    + destruct (dh_kind h); try done; exfalso; revert Hw; change (V2 == V1) with false; by cbn.
    + rewrite <-Hd, Hc. change (drop 33 (V2 :: rest)) with (drop 32 rest). change (drop 1 (V2 :: rest)) with rest.
      rewrite !take_drop. done.
  - rewrite (bool_decide_false (v = V2)) in * by done. left.
    assert (v = V1 /\ dh_vis h = VPrivate) as [-> Hv].
    { destruct (dh_kind h); revert Hw; rewrite ?andb_false_r; try done;
        destruct (bool_decide_reflect (v = V1)), (bool_decide_reflect (dh_vis h = VPrivate)); done. }
    split_and!; [done|done|]. rewrite <-Hd. change (drop 1 (V1 :: rest)) with rest. by rewrite take_drop.
Qed.

Lemma post_bound keys h enc f : open_post (PostKey_derive keys (dh_owner_id h)) h enc = Readable f ->
  exists pt, bound_to keys h enc pt /\ parse_by_vis h pt = Some f.
Proof.
  unfold open_post. destruct (post_framed h enc) eqn:Hf; [|done]. destruct (post_fits _ h); [|done]. cbn [negb].
  unfold checked_post_key. change (pk_repo_id (PostKey_derive keys (dh_owner_id h))) with (ek_repo_id keys).
  destruct (ad_in h (ek_repo_id keys) V5) as [d|] eqn:Ha; [|done]. cbn [mbind option_bind].
  destruct (ct_eq _ _) eqn:Hc; [|done]. apply bool_decide_eq_true in Hc.
  intros (pt & Hd & Hp)%opened_Readable. exists pt. split; [|done]. exists (nonce_of enc), d. right; right; right. split; [done|].
  apply envelope_whole; [|done|done]. unfold post_framed in Hf. split_bools. done.
Qed.
End laws.

(** ** The late-content rule *)

Lemma first_from_Some {A} from (m : gmap N A) e x : first_from from m = Some (e, x) ->
  m !! e = Some x /\ (from <= e)%N /\ forall e', (from <= e' < e)%N -> m !! e' = None.
Proof.
  unfold first_from. set (l := map_to_list _). pose proof (sort_by_sorted (cmp_on fst N.compare) l) as Hs.
  destruct (sort_by _ l) as [|y k] eqn:Hl; [done|]. intros [= ->]. inversion Hs as [|? ? _ Hall]; subst.
  assert (forall e' x', (e', x') ∈ (e, x) :: k <-> m !! e' = Some x' /\ (from <= e')%N) as Hin.
  { intros e' x'. rewrite <-Hl, elem_of_sort_by. unfold l. rewrite elem_of_map_to_list, map_lookup_filter_Some. done. }
  destruct (proj1 (Hin e x) ltac:(by left)) as [Hm Hf0]. split_and!; [done|done|]. clear Hm Hf0. intros e' [Hf Hlt]. destruct (m !! e') as [x'|] eqn:Hm; [|done]. exfalso.
  assert ((e', x') ∈ (e, x) :: k) as Hk by by apply Hin.
  apply elem_of_cons in Hk as [[= -> ->]|Hk]; [lia|].
  rewrite Forall_forall in Hall. apply Hall in Hk. unfold cmp_on in Hk. simpl in Hk. by apply Hk, N.compare_gt_iff.
Qed.
Lemma first_from_None {A} from (m : gmap N A) e : first_from from m = None -> (from <= e)%N -> m !! e = None.
Proof.
  unfold first_from. intros Hh Hle. destruct (m !! e) as [x|] eqn:Hm; [|done]. exfalso.
  assert ((e, x) ∈ sort_by (cmp_on fst N.compare) (map_to_list (filter (fun x => (from <= x.1)%N) m))) as Hin.
  { rewrite elem_of_sort_by, elem_of_map_to_list, map_lookup_filter_Some. done. }
  destruct (sort_by _ _); [by apply elem_of_nil in Hin|done].
Qed.

(** The epoch after [epoch], and how late content under [epoch] may come. *)
Definition next_epoch (anchors : gmap N AnchorRef) (epoch e : N) (a : AnchorRef) : Prop :=
  anchors !! e = Some a /\ (epoch < e)%N /\ forall e', (epoch < e' < e)%N -> anchors !! e' = None.
Definition in_time (ctx : OpenContext) (epoch height : N) (owner : Id) : Prop :=
  owner ∈ oc_members ctx
  \/ (epoch ∉ oc_burned ctx)
     /\ forall e a, next_epoch (oc_anchors ctx) epoch e a -> (height <= sat_add_u64 (ar_stated_height a) GRACE_BLOCKS)%N.

Lemma is_late_in_time ctx epoch height owner : map_Forall (fun e _ => e <= u32_max)%N (oc_anchors ctx) ->
  is_late ctx epoch height owner = false <-> in_time ctx epoch height owner.
Proof.
  intros Hu32. unfold is_late, is_late_in, in_time. destruct (bool_decide_reflect (owner ∈ oc_members ctx)) as [|Hm]; [naive_solver|].
  destruct (bool_decide_reflect (epoch ∈ oc_burned ctx)) as [|Hb]; [naive_solver|].
  assert (forall e a, next_epoch (oc_anchors ctx) epoch e a <->
    (if (epoch <? u32_max)%N then first_from (epoch + 1)%N (oc_anchors ctx) else None) = Some (e, a)) as Hnext.
  { intros e a. destruct (N.ltb_spec epoch u32_max) as [Hlt|Hge].
    - split.
      + intros (Ha & He & Hno). destruct (first_from _ _) as [[e' a']|] eqn:Hf.
        * apply first_from_Some in Hf as (Ha' & He' & Hno'). destruct (decide (e = e')) as [->|Hne]; [congruence|].
          exfalso. destruct (decide (e < e')%N); [by rewrite Hno' in Ha by lia|by rewrite Hno in Ha' by lia].
        * by rewrite (first_from_None _ _ e Hf) in Ha by lia.
      + intros (Ha & He & Hno)%first_from_Some. split_and!; [done|lia|]. intros e' He'. apply Hno. lia.
    - split; [|done]. intros (Ha & He & _). apply Hu32 in Ha. lia. }
  destruct (if (epoch <? u32_max)%N then _ else _) as [[e a]|].
  - rewrite N.ltb_ge. split.
    + intros Hle. right. split; [done|]. intros e' a' Hn%Hnext. congruence.
    + intros [?|[_ Hall]]; [done|]. by apply (Hall e a), Hnext.
  - split; [|done]. intros _. right. split; [done|]. intros e' a' Hn%Hnext. done.
Qed.

(** The block a document was last written at. *)
Definition last_write (h : DocHeader) : N :=
  match dh_kind h with
  | DAuthorEvent => default u64_max (dh_created_at_block_height h)
  | _ => N.max (default 0%N (dh_created_at_block_height h)) (default 0%N (dh_updated_at_block_height h))
  end.

Lemma shown_in_time ctx h f g : map_Forall (fun e _ => e <= u32_max)%N (oc_anchors ctx) -> shown ctx h f = Readable g ->
  g = f /\ (dh_kind h = DEvent \/ in_time ctx (dh_epoch h) (last_write h) (dh_owner_id h)).
Proof.
  intros Hu32. assert (forall height, is_late ctx (dh_epoch h) height (dh_owner_id h) = false ->
    in_time ctx (dh_epoch h) height (dh_owner_id h)) as Htime by (intros height; by apply is_late_in_time).
  assert (forall created, dh_created_at_block_height h = Some created -> is_late ctx (dh_epoch h) created (dh_owner_id h) = false ->
    is_some_and (opt_filter (fun u => created <? u)%N (dh_updated_at_block_height h)) (fun u => is_late ctx (dh_epoch h) u (dh_owner_id h)) = false ->
    in_time ctx (dh_epoch h) (N.max created (default 0%N (dh_updated_at_block_height h))) (dh_owner_id h)) as Hboth.
  { intros created _ Hl Hu. destruct (dh_updated_at_block_height h) as [u|]; simpl in *.
    - destruct (N.ltb_spec created u) as [Hlt|Hge]; simpl in Hu; [rewrite N.max_r by lia|rewrite N.max_l by lia]; by apply Htime.
    - rewrite N.max_0_r. by apply Htime. }
  unfold shown, last_write. destruct (dh_kind h).
  8: by intros [= <-]; auto.
  8: destruct (is_late ctx _ _ _) eqn:Hl; [done|]; intros [= <-]; auto.
  all: destruct (dh_created_at_block_height h) as [created|] eqn:Hc; [|done]; destruct (is_late ctx _ created _) eqn:Hl; [done|];
    destruct (is_some_and _ _) eqn:Hu; [done|]; intros [= <-]; split; [done|right]; by apply Hboth.
Qed.

(** ** What the associated data bind *)

Record header_wf (h : DocHeader) : Prop := mkHeaderWf {
  hw_owner : length (dh_owner_id h) = 32;
  hw_epoch : (dh_epoch h <= u32_max)%N;
  hw_number : is_none_or (dh_number h) (fun n => n <=? u32_max)%N = true;
  hw_ref_name_hash : is_none_or (dh_ref_name_hash h) (fun x => length x =? 32)%nat = true
}.

(** The fields of its kind that a document cannot change without its data changing. *)
Definition same_binding (h h' : DocHeader) : Prop :=
  match dh_kind h with
  | DIssue | DPatch => dh_number h = dh_number h'
  | DComment | DEvent | DAuthorEvent => dh_target_id h = dh_target_id h'
  | DReview => dh_patch_id h = dh_patch_id h'
  | DRefUpdate | DProtectedRefUpdate =>
      dh_ref_name_hash h = dh_ref_name_hash h' /\ dh_new_oid h = dh_new_oid h'
      /\ default [] (dh_prev_oid h) = default [] (dh_prev_oid h') /\ default false (dh_force h) = default false (dh_force h')
  | DConfig => True
  | DRelease => dh_tag_name h = dh_tag_name h'
  end.

Lemma oidf_inj o o' x x' a b : oidf o = Some x -> oidf o' = Some x' -> x ++ a = x' ++ b -> o = o' /\ a = b.
Proof.
  unfold oidf. destruct (N.leb_spec (len o) u8_max) as [Ho|]; [|done]. destruct (N.leb_spec (len o') u8_max) as [Ho'|]; [|done].
  intros [= <-] [= <-] [= E1 E2]. assert (len o = len o') as Hl.
  { apply (f_equal byte_val) in E1. unfold u8_max in *. by rewrite !byte_val_of in E1 by lia. }
  apply app_inj_1 in E2 as [-> ->]; [done|]. unfold len in Hl. lia.
Qed.

Lemma nul_free kind : nul ∉ bytes (type_name kind).
Proof. intros Hin. apply (bool_decide_pack _) in Hin. by destruct kind; vm_compute in Hin. Qed.
Lemma type_name_inj k k' : type_name k = type_name k' -> k = k'.
Proof. by destruct k, k'. Qed.

Lemma build_ad_inj r o e v t b r' o' e' v' t' b' : length r = 32 -> length r' = 32 -> length o = 32 -> length o' = 32 ->
  (e <= u32_max)%N -> (e' <= u32_max)%N -> nul ∉ bytes t -> nul ∉ bytes t' ->
  build_ad r o e v t b = build_ad r' o' e' v' t' b' -> r = r' /\ o = o' /\ e = e' /\ v = v' /\ t = t' /\ b = b'.
Proof.
  intros Hr Hr' Ho Ho' He He' Ht Ht'. unfold build_ad. intros E%app_inv_head. apply app_inj_1 in E as [[= ->] E]; [|done].
  apply app_inj_1 in E as [-> E]; [|congruence]. apply app_inj_1 in E as [-> E]; [|congruence].
  apply app_inj_1 in E as [E1%be32_inj E]; [|done..]. subst e'. cbn [app] in E.
  apply app_sep_inj in E as [E%Prelude.bytes_inj ->]; [|done..]. by subst.
Qed.

Lemma bind_inj h h' c c' b : header_wf h -> header_wf h' -> dh_kind h = dh_kind h' ->
  bind h c = Some b -> bind h' c' = Some b -> same_binding h h' /\ (dh_kind h = DConfig -> c = c').
Proof.
  intros Hh Hh' Hk. unfold bind, same_binding. rewrite <-Hk.
  assert (forall n n', dh_number h = n -> dh_number h' = n' -> be32 <$> n = Some b -> be32 <$> n' = Some b -> n = n') as Hnum.
  { pose proof (hw_number h Hh) as Hn. pose proof (hw_number h' Hh') as Hn'.
    intros n n' E E'. rewrite E in Hn. rewrite E' in Hn'. destruct n, n'; try done. simpl in *.
    intros [= Eb] [= Eb']. f_equal. apply be32_inj; [by apply N.leb_le..|congruence]. }
  destruct (dh_kind h); intros Hb Hb'.
  1,2: split; [by apply (Hnum _ _ eq_refl eq_refl)|done].
  all: try (split; [congruence|congruence]); try (split; [done|congruence]).
  1,2: split; [|done]; pose proof (hw_ref_name_hash h Hh) as Hl; pose proof (hw_ref_name_hash h' Hh') as Hl';
    destruct (dh_ref_name_hash h) as [x|]; [|done]; destruct (dh_ref_name_hash h') as [x'|]; [|done]; cbn [mbind option_bind] in *;
    destruct (dh_new_oid h) as [o|]; [|done]; destruct (dh_new_oid h') as [o'|]; [|done]; cbn [mbind option_bind] in *;
    destruct (oidf o) as [y|] eqn:Ho; [|done]; destruct (oidf o') as [y'|] eqn:Ho'; [|done]; cbn [mbind option_bind] in *;
    destruct (oidf (default [] (dh_prev_oid h))) as [z|] eqn:Hp; [|done];
    destruct (oidf (default [] (dh_prev_oid h'))) as [z'|] eqn:Hp'; [|done]; cbn [mbind option_bind] in *;
    injection Hb as <-; injection Hb' as Hb'; simpl in Hl, Hl'; apply Nat.eqb_eq in Hl, Hl';
    apply app_inj_1 in Hb' as [-> Hb']; [|congruence]; apply (oidf_inj _ _ _ _ _ _ Ho' Ho) in Hb' as [-> Hb'];
    apply (oidf_inj _ _ _ _ _ _ Hp' Hp) in Hb' as [-> Hb']; split_and!; [done|done|done|];
    by destruct (default false (dh_force h)), (default false (dh_force h')).
  split; [|done]. destruct (dh_tag_name h) as [t|], (dh_tag_name h') as [t'|]; try done. simpl in *.
  injection Hb as <-. injection Hb' as Hb'%Prelude.bytes_inj. congruence.
Qed.

(** ** Properties *)

Section properties.
Context {crypto : Crypto} {laws : CryptoLaws crypto}.

(** Written as one of the four envelopes. *)
Definition written (rnd : list byte) (keys : EpochKeys) (h : DocHeader) (f : Fields) (enc : list byte) : Prop :=
  seal rnd keys h f = inr enc \/ seal_members rnd keys h f = inr enc \/ seal_private_v3 rnd keys h f = inr enc
  \/ seal_post rnd (PostKey_derive keys (dh_owner_id h)) h f = inr enc.

(** What a writer seals, of fields that fit their document, in any of the four envelopes, every holder of the epoch's keys opens to
    exactly the fields it sealed, padding and all, wherever the epoch exists (and, for a bot's post,
    its author is a bot); whether they are shown is then only a matter of when they were written. *)
Theorem sealed_opens ctx anchor rnd keys h f enc :
  derived keys -> oc_anchors ctx !! dh_epoch h = Some anchor -> oc_keys ctx !! dh_epoch h = Some keys ->
  fits_header h f = true -> written rnd keys h f enc -> (head enc = Some V5 -> dh_owner_id h ∈ oc_bots ctx) ->
  open_content ctx h enc = shown ctx h f.
Proof.
  intros Hkeys Ha Hk Hfit Hw Hbot.
  assert (forall v, head enc = Some v -> (byte_val v < FIRST_UNKNOWN)%N -> is_unknown_version (dh_kind h) enc = false) as Hknown.
  { intros v Hv Hlt. unfold is_unknown_version. rewrite Hv. simpl. rewrite (proj2 (N.leb_gt _ _) Hlt). apply andb_false_r. }
  assert (forall opened, well_framed h enc = true -> head enc = Some V3 \/ head enc = Some V1 \/ head enc = Some V2 ->
    decrypt keys h enc (bool_decide (dh_id h = Some (ar_id anchor))) = opened -> opened = Readable f -> open_content ctx h enc = shown ctx h f) as Hopen.
  { intros opened Hf Hv <- Ho. unfold open_content. rewrite Ha, Hk, Hf, Ho. cbn [negb].
    by destruct Hv as [Hv|[Hv|Hv]]; rewrite (Hknown _ Hv) by done; rewrite Hv. }
  destruct Hw as [Hs|[Hs|[Hs|Hs]]].
  - destruct (seal_opens rnd keys h f enc (bool_decide (dh_id h = Some (ar_id anchor))) Hkeys Hfit Hs) as (Hf & Hv & Ho).
    by apply (Hopen _ Hf (or_intror Hv) eq_refl).
  - unfold seal_members in Hs. case_match eqn:Hvis; [done|]. destruct (parse_members _ _) as [parsed|] eqn:Hp; [|done].
    apply negb_false_iff, bool_decide_eq_true in Hvis.
    destruct (v3_opens keys h f parsed (hedged_nonce keys rnd) enc Hfit (fun _ _ => nonce_length _ _)) as (Hf & Hv & Ho); [|done|].
    { unfold parse_by_vis. by rewrite bool_decide_true. }
    apply (Hopen _ Hf (or_introl Hv) eq_refl). destruct enc as [|v rest]; [done|]. injection Hv as ->. by rewrite decrypt_V3.
  - unfold seal_private_v3 in Hs. case_match eqn:Hvis; [done|]. destruct (parse _ _ _) as [parsed|] eqn:Hp; [|done].
    apply negb_false_iff, bool_decide_eq_true in Hvis.
    destruct (v3_opens keys h f parsed (hedged_nonce keys rnd) enc Hfit (fun _ _ => nonce_length _ _)) as (Hf & Hv & Ho); [|done|].
    { unfold parse_by_vis. rewrite bool_decide_false by congruence. done. }
    apply (Hopen _ Hf (or_introl Hv) eq_refl). destruct enc as [|v rest]; [done|]. injection Hv as ->. by rewrite decrypt_V3.
  - destruct (post_opens rnd _ h f enc Hfit Hs) as (Hf & Hv & Ho). unfold open_content.
    rewrite (Hknown V5 Hv) by done. rewrite Hf, Ha, Hk, Hv. cbn [negb].
    rewrite (bool_decide_true (dh_owner_id h ∈ _)) by auto. cbn [negb]. by rewrite Ho.
Qed.


(** No two documents share their associated data: one that opens for a document cannot be
    relabelled as another repository's, author's, epoch's, kind's or version's, nor moved to another
    issue, target, branch or commit. *)
Theorem ad_binds keys keys' h h' v v' d :
  length (ek_repo_id keys) = 32 -> length (ek_repo_id keys') = 32 -> header_wf h -> header_wf h' ->
  ad h keys v = Some d -> ad h' keys' v' = Some d ->
  ek_repo_id keys = ek_repo_id keys' /\ v = v' /\ dh_kind h = dh_kind h' /\ dh_owner_id h = dh_owner_id h' /\ dh_epoch h = dh_epoch h'
  /\ same_binding h h' /\ (dh_kind h = DConfig -> ek_commit keys = ek_commit keys').
Proof.
  intros Hr Hr' Hh Hh'. unfold ad. destruct (bind h _) as [b|] eqn:Hb; [|done]. destruct (bind h' _) as [b'|] eqn:Hb'; [|done].
  cbn [mbind option_bind]. unfold ad_with. intros E1 E. rewrite <-E in E1. apply (inj Some) in E1. clear E. rename E1 into E.
  apply build_ad_inj in E as (Er & Eo & Ee & Ev & Et%type_name_inj & ->); try done; try apply nul_free;
    [|apply Hh|apply Hh'|apply Hh|apply Hh'].
  destruct (bind_inj h h' _ _ b' Hh Hh' Et Hb Hb') as [Hsame Hc]. split_and!; try done. intros Hk. by injection (Hc Hk).
Qed.

(** A config of an epoch above the first is refused without its link to the epoch below, even one
    that is meant as no anchor. *)
Lemma unlinked_config_refused rnd keys h : dh_kind h = DConfig -> (1 <= dh_epoch h)%N ->
  seal rnd keys h Fields_default = inl PMalformed.
Proof.
  intros Hk He. unfold seal, seal_inner. destruct (negb _ || _); [done|]. unfold anchor_with_prev. rewrite Hk.
  by rewrite (proj2 (N.leb_le _ _) He).
Qed.
End properties.

(** ** Witnesses *)

Definition digest (m : list byte) : list byte := take 32 (rev m ++ replicate 32 nul).
Definition tag_of (k n d m : list byte) : list byte := take 16 (digest (k ++ n ++ d ++ m)).
Definition example_crypto : Crypto := {|
  hkdf_extract salt ikm := digest (salt ++ ikm);
  hkdf_expand prk info := digest (info ++ prk);
  hmac key m := digest (key ++ m);
  sha256 m := digest m;
  gcm_encrypt k n d m := m ++ tag_of k n d m;
  gcm_decrypt k n d c :=
    let m := take (length c - 16) c in
    if (16 <=? length c)%nat && (drop (length c - 16) c == tag_of k n d m) then Some m else None
|}.

Lemma digest_length m : length (digest m) = 32.
Proof. unfold digest. rewrite length_take, length_app, length_replicate. lia. Qed.
Lemma tag_length k n d m : length (tag_of k n d m) = 16.
Proof. unfold tag_of. rewrite length_take, digest_length. done. Qed.

Lemma example_crypto_laws : CryptoLaws example_crypto.
Proof.
  constructor; intros.
  1-3: apply digest_length.
  - simpl. by rewrite length_app, tag_length.
  - unfold gcm_decrypt, gcm_encrypt, example_crypto. rewrite length_app, tag_length.
    replace (length m + 16 - 16) with (length m) by lia. rewrite take_app_length, drop_app_length.
    rewrite (proj2 (Nat.leb_le 16 (length m + 16))) by lia. by rewrite bool_decide_true.
  - revert H. unfold gcm_decrypt, gcm_encrypt, example_crypto. destruct (_ && _) eqn:E; [|done]. intros [= <-]. split_bools.
    match goal with H : drop _ c = _ |- _ => rewrite <-H end. by rewrite take_drop.
Qed.

Definition example_repo : Id := repeat (byte_of 17) 32.
Definition example_owner : Id := repeat (byte_of 34) 32.
Definition example_keys : EpochKeys := derive (crypto := example_crypto) example_repo 0 (repeat (byte_of 3) 32).
Definition example_anchor : AnchorRef := mkAnchorRef (repeat (byte_of 51) 32) 5 5.
Definition example_ctx : OpenContext := mkOpenContext {[0%N := example_keys]} {[0%N := example_anchor]} ∅ ∅ ∅.
Definition example_issue : DocHeader :=
  mkHeader DIssue VPrivate example_owner 0 (Some 7%N) None None None None None None None None None None (Some 9%N) None.
Definition example_enc : list byte :=
  match seal (crypto := example_crypto) (repeat (byte_of 1) 32) example_keys example_issue issue_fields with inr enc => enc | inl _ => [] end.

Lemma sealed_opens_witness :
  open_content (crypto := example_crypto) example_ctx example_issue example_enc = Readable issue_fields.
Proof.
  assert (shown example_ctx example_issue issue_fields = Readable issue_fields) as <- by (vm_compute; reflexivity).
  apply (sealed_opens (laws := example_crypto_laws) example_ctx example_anchor (repeat (byte_of 1) 32) example_keys).
  - by eexists _, _, _.
  - reflexivity.
  - reflexivity.
  - reflexivity.
  - left. vm_compute. reflexivity.
  - intros H. vm_compute in H. discriminate H.
Defined.


Lemma ad_binds_witness :
  let d := default [] (ad example_issue example_keys V1) in
  ad example_issue example_keys V1 = Some d /\ same_binding example_issue example_issue.
Proof.
  assert (header_wf example_issue) as Hwf by (constructor; vm_compute; (reflexivity || discriminate)).
  intros d. assert (ad example_issue example_keys V1 = Some d) as Hd by (vm_compute; reflexivity). split; [exact Hd|].
  apply (ad_binds example_keys example_keys example_issue example_issue V1 V1 d eq_refl eq_refl Hwf Hwf Hd Hd).
Defined.
