(* ===== verification/Epochs.v ===== *)
(** Epochs and their keys ([private/epoch.rs]): which epochs of a private repository exist, whose
    anchors they have, which of their keys a reader recovers from wraps and the chain, under which
    epoch it writes, and what is wrong. *)
From S2P Require Import Wire Prelude Members Tlv Content SealedDoc.

(** ** Definitions *)

Record MemberRow := mkMemberRow { me_identity : Id; me_role : Role; me_created_at : N }.
Record ConfigRow := mkConfigRow {
  cf_id : Id;
  cf_owner : Id;
  cf_epoch : N;
  cf_height : N;
  cf_created_at : N;
  cf_enc : list byte
}.
Record WrapRow := mkWrapRow {
  wr_id : Id;
  wr_owner : Id;
  wr_member_id : Id;
  wr_epoch : N;
  wr_recipient_key_id : N;
  wr_key_enabled : bool;
  wr_key : option EpochKey
}.

Inductive Alert :=
  | KeyMismatch (epoch : N) (author : Id)
  | ChainBroken (epoch : N) (author : Id)
  | EpochGap (epoch : N) (author : Id)
  | PublishedKeyMismatch (epoch : N) (author : Id)
  | RotationRequired (epoch : N) (members : list Id).
#[export] Instance Alert_eq_dec : EqDecision Alert.
Proof. solve_decision. Defined.

Definition sort_key (a : Alert) : N * N * Id :=
  match a with
  | KeyMismatch epoch author => (epoch, 0%N, author)
  | ChainBroken epoch author => (epoch, 1%N, author)
  | EpochGap epoch author => (epoch, 2%N, author)
  | RotationRequired epoch _ => (epoch, 3%N, repeat nul 32)
  | PublishedKeyMismatch epoch author => (epoch, 4%N, author)
  end.
Definition sort_key_cmp : N * N * Id -> N * N * Id -> comparison :=
  cmp_then (cmp_then (cmp_on (fun k => k.1.1) N.compare) (cmp_on (fun k => k.1.2) N.compare)) (cmp_on snd bytes_cmp).

(** The derived order of alerts, in which a [BTreeSet] of them iterates. *)
Definition alert_index (a : Alert) : N :=
  match a with KeyMismatch _ _ => 0 | ChainBroken _ _ => 1 | EpochGap _ _ => 2 | PublishedKeyMismatch _ _ => 3 | RotationRequired _ _ => 4 end.
Fixpoint ids_cmp (l k : list Id) : comparison :=
  match l, k with
  | [], [] => Eq
  | [], _ => Lt
  | _, [] => Gt
  | x :: l, y :: k => match bytes_cmp x y with Eq => ids_cmp l k | c => c end
  end.
Definition alert_args (a : Alert) : N * list Id :=
  match a with
  | KeyMismatch e x | ChainBroken e x | EpochGap e x | PublishedKeyMismatch e x => (e, [x])
  | RotationRequired e l => (e, l)
  end.
Definition alert_cmp : Alert -> Alert -> comparison :=
  cmp_then (cmp_then (cmp_on alert_index N.compare) (cmp_on (fun a => (alert_args a).1) N.compare)) (cmp_on (fun a => (alert_args a).2) ids_cmp).
Definition sorted_alerts (l : list Alert) : list Alert :=
  sort_by (cmp_on sort_key sort_key_cmp) (sort_by alert_cmp (remove_dups l)).

Record Repair := mkRepair { rp_rotate : bool; rp_non_members : list Id; rp_missing_wraps : list Id }.

Record Anchor := mkAnchor {
  an_id : Id;
  an_owner : Id;
  an_height : N;
  an_commit : option (list byte);
  an_stated_height : N
}.

Record EpochResolution := mkResolution {
  er_current_epoch : option N;
  er_anchors : gmap N Anchor;
  er_keys : gmap N EpochKey;
  er_write_epoch : option N;
  er_burned : gset N;
  er_unanchored : list N;
  er_alerts : list Alert;
  er_repair : option Repair;
  er_members : gset Id;
  er_published : gset N
}.

Record ManifestStanding := mkStanding { ms_suspect : bool; ms_readable : bool }.

(** *** Anchors *)

(** The order of configs: by block height, then by id. *)
Definition config_cmp : ConfigRow -> ConfigRow -> comparison := cmp_then (cmp_on cf_height N.compare) (cmp_on cf_id bytes_cmp).

(** The epoch's configs that state a key, in order. *)
Definition configs_of (configs : list ConfigRow) (e : N) : list ConfigRow :=
  sort_by config_cmp (List.filter (fun c => negb (cf_enc c == []) && (cf_epoch c =? e)%N) configs).

Definition anchor_of (c : ConfigRow) : Anchor :=
  let commit := if (MIN_V2 <=? length (cf_enc c))%nat && bool_decide (head (cf_enc c) = Some V2)
                then Some (take 32 (drop 1 (cf_enc c))) else None in
  mkAnchor (cf_id c) (cf_owner c) (cf_height c) commit (cf_height c).

#[global] Arguments anchor_of : simpl never.

(** Strictly after the config that stated the key of the epoch below. *)
Definition after (stated : option ConfigRow) (c : ConfigRow) : bool :=
  match stated with None => true | Some s => match config_cmp c s with Gt => true | _ => false end end.

(** The anchor of an epoch and the first statement of its key, among its configs. *)
Definition select_one (maintainers : gset Id) (stated : option ConfigRow) (cs : list ConfigRow) : option (ConfigRow * ConfigRow) :=
  let valid := List.filter (after stated) cs in
  anchor ← List.find (fun c => bool_decide (cf_owner c ∈ maintainers)) valid;
  let commit := an_commit (anchor_of anchor) in
  let first := default anchor
    (List.find (fun c => is_some_and commit (fun _ => true) && bool_decide (an_commit (anchor_of c) = commit)) valid) in
  Some (anchor, first).

(** The loop over the epochs, up to the first that has no anchor; [fuel] bounds how many have one. *)
Fixpoint select_from (fuel : nat) (configs : list ConfigRow) (maintainers : gset Id) (e : N) (stated : option ConfigRow)
    (anchors : gmap N (ConfigRow * N)) : gmap N (ConfigRow * N) :=
  match fuel with
  | O => anchors
  | S fuel =>
      if (u32_max <? e)%N then anchors
      else
        match select_one maintainers stated (configs_of configs e) with
        | None => anchors
        | Some (anchor, first) =>
            select_from fuel configs maintainers (e + 1)%N (Some first) (<[e := (anchor, cf_height first)]> anchors)
        end
  end.
Definition select_anchors (configs : list ConfigRow) (maintainers : gset Id) : gmap N (ConfigRow * N) :=
  select_from (S (length configs)) configs maintainers 0%N None ∅.

(** [BTreeMap::keys] and the like of epochs. *)
Definition sorted_epochs (s : gset N) : list N := sort_by N.compare (elements s).
Definition last_epoch {A} (m : gmap N A) : option N := last (sorted_epochs (dom m)).

Definition select_gaps (configs : list ConfigRow) (maintainers : gset Id) (anchors : gmap N (ConfigRow * N)) : list ConfigRow :=
  let epochs := list_to_set (C := gset N) (map cf_epoch (List.filter (fun c => negb (cf_enc c == [])) configs)) in
  omap (fun e => if bool_decide (is_Some (anchors !! e)) then None
                 else List.find (fun c => bool_decide (cf_owner c ∈ maintainers)) (configs_of configs e))
    (sorted_epochs epochs).

Section epochs.
Context `{crypto : Crypto} (repo_id : Id).

(** *** The chain of keys *)

Definition commits (anchors : gmap N Anchor) (e : N) (key : EpochKey) : bool :=
  is_some_and (anchors !! e ≫= an_commit) (fun c => commits_to (derive repo_id e key) c).

(** An anchor's sealed config under a key, where it opens. *)
Definition open_config (c : ConfigRow) (e : N) (key : EpochKey) : option Fields :=
  match open_with (derive repo_id e key) (DocHeader_new DConfig (cf_owner c) e) (cf_enc c) true with Readable f => Some f | _ => None end.
Definition open_anchor (first : gmap N ConfigRow) (e : N) (key : EpochKey) : option Fields := first !! e ≫= (fun c => open_config c e key).

(** The epochs below [p], downwards. *)
Definition below_rev (p : N) : list N := rev (map N.of_nat (seq 0 (N.to_nat p))).

(** [walk_chain] from [e]; [None] where it indexes a map without the key. *)
Fixpoint walk_from (fuel : nat) (first : gmap N ConfigRow) (commits_to : N -> EpochKey -> bool) (e : N)
    (keys : gmap N EpochKey) (alerts : list Alert) : option (gmap N EpochKey * list Alert) :=
  if (e =? 0)%N then Some (keys, alerts)
  else
    match fuel with
    | O => None
    | S fuel =>
        c ← first !! e;
        key ← keys !! e;
        let broken := Some (keys, alerts ++ [ChainBroken e (cf_owner c)]) in
        match open_anchor first e key with
        | None => broken
        | Some fields =>
            if f_burned fields then Some (keys, alerts)
            else
              match f_prev_epoch fields, f_prev_epoch_key fields with
              | Some p, Some pk =>
                  if negb (p =? e - 1)%N || negb (commits_to p pk) then broken
                  else
                    _ ← first !! p;
                    if negb (is_some_and (open_anchor first p pk) f_burned) then
                      if bool_decide (is_Some (keys !! p)) then Some (keys, alerts)
                      else walk_from fuel first commits_to p (<[p := pk]> keys) alerts
                    else
                      let keys := match keys !! p with Some _ => keys | None => <[p := pk]> keys end in
                      let target :=
                        sk ← f_skip_epoch_key fields;
                        s ← List.find (fun s => commits_to s sk) (below_rev p);
                        Some (s, sk) in
                      match target with
                      | None => Some (keys, alerts ++ [ChainBroken e (cf_owner c)])
                      | Some (s, sk) =>
                          _ ← first !! s;
                          if negb (is_some_and (open_anchor first s sk) (fun f => negb (f_burned f)))
                          then Some (keys, alerts ++ [ChainBroken e (cf_owner c)])
                          else if bool_decide (is_Some (keys !! s)) then Some (keys, alerts)
                          else walk_from fuel first commits_to s (<[s := sk]> keys) alerts
                      end
              | _, _ => broken
              end
        end
    end.
Definition walk_chain (first : gmap N ConfigRow) (commits_to : N -> EpochKey -> bool) (start : N)
    (keys : gmap N EpochKey) (alerts : list Alert) : option (gmap N EpochKey * list Alert) :=
  walk_from (N.to_nat start) first commits_to start keys alerts.

(** The readable epochs whose anchor is burned. *)
Definition burned_epochs (first : gmap N ConfigRow) (keys : gmap N EpochKey) : option (gset N) :=
  _ ← mapM (fun x : N * EpochKey => first !! x.1) (map_to_list keys);
  Some (dom (filter (fun x => is_some_and (open_anchor first x.1 x.2) f_burned = true) keys)).

(** *** The repair check *)

Definition sorted_ids (s : gset Id) : list Id := sort_by bytes_cmp (elements s).
Definition repair_check (n : N) (burned : bool) (wraps : list WrapRow) (maintainers members : gset Id) : Repair :=
  let from_maintainer := List.filter (fun w => (wr_epoch w =? n)%N && bool_decide (wr_owner w ∈ maintainers)) wraps in
  let wrapped := list_to_set (C := gset Id) (map wr_member_id from_maintainer) in
  let enabled := list_to_set (C := gset Id) (map wr_member_id (List.filter wr_key_enabled from_maintainer)) in
  let non_members := sorted_ids (wrapped ∖ members) in
  mkRepair (burned || negb (non_members == [])) non_members (sorted_ids (members ∖ enabled)).

(** *** The resolution *)

Definition maintainers_of (memberships : list MemberRow) : gset Id :=
  list_to_set (map me_identity (List.filter (fun m => me_role m == Maintainer) memberships)).
Definition members_of (memberships : list MemberRow) : gset Id := list_to_set (map me_identity memberships).

Definition anchors_of (selected : gmap N (ConfigRow * N)) : gmap N Anchor :=
  (fun x => let a := anchor_of x.1 in mkAnchor (an_id a) (an_owner a) (an_height a) (an_commit a) x.2) <$> selected.

(** The wraps' turn: the keys accepted, the epochs to walk from, and the alerts. *)
Definition accept_wrap (reader : Id) (maintainers : gset Id) (anchors : gmap N Anchor)
    (acc : gmap N EpochKey * list N * list Alert) (w : WrapRow) : gmap N EpochKey * list N * list Alert :=
  let '(keys, starts, alerts) := acc in
  match wr_key w with
  | None => acc
  | Some key =>
      if bool_decide (wr_member_id w <> reader) || negb (bool_decide (wr_owner w ∈ maintainers))
         || negb (bool_decide (is_Some (anchors !! wr_epoch w)))
      then acc
      else if commits anchors (wr_epoch w) key then (<[wr_epoch w := key]> keys, starts ++ [wr_epoch w], alerts)
      else (keys, starts, alerts ++ [KeyMismatch (wr_epoch w) (wr_owner w)])
  end.

Definition walk_all (first : gmap N ConfigRow) (commits_to : N -> EpochKey -> bool) (starts : list N)
    (acc : option (gmap N EpochKey * list Alert)) : option (gmap N EpochKey * list Alert) :=
  foldl (fun acc start => '(keys, alerts) ← acc; walk_chain first commits_to start keys alerts) acc starts.

Definition resolve_epochs (reader : Id) (memberships : list MemberRow) (configs : list ConfigRow) (wraps : list WrapRow) :
    option EpochResolution :=
  let maintainers := maintainers_of memberships in
  let members := members_of memberships in
  let selected := select_anchors configs maintainers in
  let gaps := select_gaps configs maintainers selected in
  let first := fst <$> selected in
  let anchors := anchors_of selected in
  let current_epoch := last_epoch anchors in
  let unanchored := sorted_epochs (list_to_set (C := gset N) (List.filter (fun e => negb (bool_decide (is_Some (anchors !! e))))
    (map cf_epoch configs ++ map wr_epoch wraps))) in
  let '(keys, starts, alerts) :=
    foldl (accept_wrap reader maintainers anchors) (∅, [], map (fun c => EpochGap (cf_epoch c) (cf_owner c)) gaps) wraps in
  '(keys, alerts) ← walk_all first (commits anchors) starts (Some (keys, alerts));
  burned ← burned_epochs first keys;
  let repair := (fun n => repair_check n (bool_decide (n ∈ burned)) wraps maintainers members) <$> current_epoch in
  let alerts :=
    match repair, current_epoch with
    | Some r, Some n =>
        if rp_rotate r && bool_decide (reader ∈ maintainers) then alerts ++ [RotationRequired n (rp_non_members r)] else alerts
    | _, _ => alerts
    end in
  let leaked := is_some_and repair (fun r => negb (rp_non_members r == [])) in
  let write_epoch :=
    opt_filter (fun n => bool_decide (is_Some (keys !! n)) && negb (bool_decide (n ∈ burned)) && negb leaked) current_epoch in
  Some (mkResolution current_epoch anchors keys write_epoch burned unanchored (sorted_alerts alerts) repair members ∅).

(** *** What a resolution is asked *)

Definition anchor_refs (r : EpochResolution) : gmap N AnchorRef :=
  (fun a => mkAnchorRef (an_id a) (an_height a) (an_stated_height a)) <$> er_anchors r.
Definition open_context (r : EpochResolution) : OpenContext :=
  mkOpenContext (map_imap (fun e k => Some (derive repo_id e k)) (er_keys r)) (anchor_refs r) (er_members r) (er_burned r) ∅.
Definition resolution_is_late (r : EpochResolution) (epoch height : N) (owner : Id) : bool :=
  is_late_in (anchor_refs r) (er_burned r) epoch height (bool_decide (owner ∈ er_members r)).
Definition manifest_standing (r : EpochResolution) (header_epoch height : N) (owner : Id) : ManifestStanding :=
  let current_at := last_epoch (filter (fun x => (an_stated_height x.2 <= height)%N) (er_anchors r)) in
  let suspect := is_some_and current_at (fun c => header_epoch <? c)%N || bool_decide (header_epoch ∈ er_burned r) in
  let member := bool_decide (owner ∈ er_members r) in
  mkStanding suspect (member || negb suspect && negb (resolution_is_late r header_epoch height owner)).

(** [add_published]: the keys the owner of a repository made public has published. *)
Definition add_published (r : EpochResolution) (configs : list ConfigRow) (published : gmap N EpochKey) (alerts : list Alert) :
    option EpochResolution :=
  if bool_decide (published = ∅) && (alerts == []) then Some r
  else
    let first := omap (M := gmap N) (fun a => List.find (fun c => cf_id c == an_id a) configs) (er_anchors r) in
    let commits_to := commits (er_anchors r) in
    let order := map (fun e => (e, default [] (published !! e))) (sorted_epochs (dom published)) in
    reached ← foldl (fun acc x =>
        reached ← acc;
        if bool_decide (is_Some (first !! x.1)) then fst <$> walk_chain first commits_to x.1 (<[x.1 := x.2]> reached) [] else Some reached)
      (Some ∅) order;
    '(keys, all) ← foldl (fun acc (x : N * EpochKey) =>
        '(keys, all) ← acc;
        if bool_decide (is_Some (keys !! x.1)) || negb (bool_decide (is_Some (first !! x.1))) then Some (keys, all)
        else walk_chain first commits_to x.1 (<[x.1 := x.2]> keys) all)
      (Some (er_keys r, er_alerts r ++ alerts)) order;
    burned ← burned_epochs first keys;
    Some (mkResolution (er_current_epoch r) (er_anchors r) keys (er_write_epoch r) burned (er_unanchored r) (sorted_alerts all)
      (er_repair r) (er_members r) (er_published r ∪ dom reached)).
End epochs.

(** ** Anchors *)

#[export] Instance config_cmp_ord : CmpOrd config_cmp.
Proof. unfold config_cmp. apply _. Qed.

(** The least element of a kind, in the order of configs. *)
Definition least (P : ConfigRow -> Prop) (c : ConfigRow) : Prop := P c /\ forall c', P c' -> config_cmp c c' <> Gt.

Section anchors.
Context (configs : list ConfigRow) (maintainers : gset Id).

(** A config that states a key for [e], after the statement of the key below. *)
Definition candidate (e : N) (below : option ConfigRow) (c : ConfigRow) : Prop :=
  c ∈ configs /\ cf_enc c <> [] /\ cf_epoch c = e /\ forall s, below = Some s -> config_cmp c s = Gt.
(** The anchor of [e], and where the key it commits to was first stated, by anyone. *)
Definition is_anchor (e : N) (below : option ConfigRow) (a : ConfigRow) : Prop :=
  least (fun c => candidate e below c /\ cf_owner c ∈ maintainers) a.
Definition states (e : N) (below : option ConfigRow) (a f : ConfigRow) : Prop :=
  match an_commit (anchor_of a) with
  | None => f = a
  | Some commit => least (fun c => candidate e below c /\ an_commit (anchor_of c) = Some commit) f
  end.

(** The epochs that exist: each with its anchor and the first statement of its key. *)
Inductive anchored : N -> ConfigRow -> ConfigRow -> Prop :=
  | anchored_first a f : is_anchor 0 None a -> states 0 None a f -> anchored 0 a f
  | anchored_next e a0 f0 a f : anchored e a0 f0 -> (e < u32_max)%N ->
      is_anchor (e + 1) (Some f0) a -> states (e + 1) (Some f0) a f -> anchored (e + 1) a f.

Lemma elem_of_candidates e below c : c ∈ List.filter (after below) (configs_of configs e) <-> candidate e below c.
Proof.
  unfold configs_of, candidate, after. rewrite list_elem_of_In, filter_In, <-list_elem_of_In, elem_of_sort_by, list_elem_of_In, filter_In, <-list_elem_of_In.
  rewrite andb_true_iff, negb_true_iff, bool_decide_eq_false, N.eqb_eq.
  assert ((match below with None => true | Some s => match config_cmp c s with Gt => true | _ => false end end) = true
    <-> forall s, below = Some s -> config_cmp c s = Gt) as ->; [|tauto].
  destruct below as [s|]; [|done]. split; [intros H s' [= <-]; by destruct (config_cmp c s)|].
  intros H. by rewrite (H s eq_refl).
Qed.

Lemma find_config (p : ConfigRow -> bool) e below c : NoDup (map cf_id configs) ->
  List.find p (List.filter (after below) (configs_of configs e)) = Some c <-> least (fun c => candidate e below c /\ p c = true) c.
Proof.
  intros Hids. set (l := List.filter _ _).
  assert (StronglySorted (fun x y => config_cmp x y <> Gt) l) as Hl by apply sorted_filter, sort_by_sorted, _.
  assert (forall x, x ∈ l <-> candidate e below x) as Hin by apply elem_of_candidates.
  assert (forall x y, candidate e below x -> candidate e below y -> config_cmp x y <> Gt -> config_cmp y x <> Gt -> x = y) as Hunique.
  { intros x y (Hx & _) (Hy & _) Hxy Hyx.
    assert (config_cmp x y = Eq) as Heq.
    { destruct (config_cmp x y) eqn:E; [done| |done]. by rewrite (cmp_opp (cmp := config_cmp) x y), E in Hyx. }
    unfold config_cmp, cmp_then, cmp_on in Heq. destruct (cf_height x ?= cf_height y)%N; try done.
    apply (cmp_eq (cmp := bytes_cmp)) in Heq.
    apply list_elem_of_lookup in Hx as [i Hi], Hy as [j Hj].
    assert (i = j) as ->; [|congruence]. eapply NoDup_lookup; [exact Hids| |].
    - rewrite list_lookup_fmap, Hi. done.
    - rewrite list_lookup_fmap, Hj. simpl. congruence. }
  pose proof (find_least config_cmp p l Hl) as Hfind. split.
  - intros Hf. rewrite Hf in Hfind. destruct Hfind as (Hc & Hp & Hall). split; [split; [by apply Hin|done]|].
    intros c' [Hc' Hp']. apply Hall; [by apply Hin|done].
  - intros [[Hc Hp] Hall]. destruct (List.find p l) as [d|]; [|by rewrite Hfind in Hp by by apply Hin].
    destruct Hfind as (Hd & Hpd & Hall'). f_equal. apply Hunique; [by apply Hin|done| |].
    + apply Hall'; [by apply Hin|done].
    + apply Hall. by split; [apply Hin|].
Qed.

Lemma least_ext (P Q : ConfigRow -> Prop) c : (forall c, P c <-> Q c) -> least P c <-> least Q c.
Proof. intros H. unfold least. setoid_rewrite H. done. Qed.

Lemma find_config_dec (P : ConfigRow -> Prop) `{!forall c, Decision (P c)} e below c : NoDup (map cf_id configs) ->
  List.find (fun c => bool_decide (P c)) (List.filter (after below) (configs_of configs e)) = Some c
  <-> least (fun c => candidate e below c /\ P c) c.
Proof. intros Hids. rewrite find_config by done. apply least_ext. intros d. by rewrite bool_decide_eq_true. Qed.

Lemma select_one_spec e below a f : NoDup (map cf_id configs) ->
  select_one maintainers below (configs_of configs e) = Some (a, f) <-> is_anchor e below a /\ states e below a f.
Proof.
  intros Hids. unfold select_one, is_anchor, states.
  pose proof (fun c => find_config_dec (fun c => cf_owner c ∈ maintainers) e below c Hids) as Ha.
  destruct (List.find _ (List.filter _ _)) as [a'|] eqn:Hf; simpl.
  - assert (least (fun c => candidate e below c /\ cf_owner c ∈ maintainers) a') as Ha' by by apply Ha.
    assert (forall f, default a' (List.find (fun c => is_some_and (an_commit (anchor_of a')) (fun _ => true)
        && bool_decide (an_commit (anchor_of c) = an_commit (anchor_of a'))) (List.filter (after below) (configs_of configs e))) = f
      <-> match an_commit (anchor_of a') with
          | None => f = a'
          | Some commit => least (fun c => candidate e below c /\ an_commit (anchor_of c) = Some commit) f
          end) as Hstate.
    { clear f Ha Hf. intros f. destruct (an_commit (anchor_of a')) as [commit|] eqn:Hc; cbn [is_some_and andb].
      - pose proof (fun c => find_config_dec (fun c => an_commit (anchor_of c) = Some commit) e below c Hids) as Hl. cbv beta in Hl.
        destruct (List.find _ _) as [f'|] eqn:Hf'; cbn [default].
        + split; [intros <-; by apply Hl|intros Hl'; by apply Hl in Hl' as [=]].
        + rewrite find_none_iff in Hf'. specialize (Hf' a'). rewrite elem_of_candidates, bool_decide_true in Hf' by done.
          by specialize (Hf' (proj1 (proj1 Ha'))).
      - rewrite (proj2 (find_none_iff _ _)); [done|]. done. }
    split.
    + intros [<- Hff]%(inj Some)%pair_equal_spec. split; [done|]. by apply Hstate.
    + intros [Ha'' Hs]. apply Ha in Ha'' as [= <-]. by apply Hstate in Hs as <-.
  - split; [done|]. intros [Ha' _]. by apply Ha in Ha'.
Qed.

(** The stages of the selection, without fuel. *)
Fixpoint stage (k : nat) : option (ConfigRow * ConfigRow) :=
  match k with
  | O => select_one maintainers None (configs_of configs 0)
  | S k => '(_, f) ← stage k; if (N.of_nat k <? u32_max)%N then select_one maintainers (Some f) (configs_of configs (N.of_nat (S k))) else None
  end.

Lemma stage_anchored k a f : NoDup (map cf_id configs) -> stage k = Some (a, f) <-> anchored (N.of_nat k) a f.
Proof.
  intros Hids. revert a f. induction k as [|k IH]; intros a f; cbn [stage].
  - change (N.of_nat 0) with 0%N. rewrite select_one_spec by done. split; [intros []; by constructor|].
    intros H. inversion H; [done|]. lia.
  - split.
    + destruct (stage k) as [[a0 f0]|]; [|done]. cbn [mbind option_bind]. destruct (N.ltb_spec (N.of_nat k) u32_max); [|done].
      rewrite select_one_spec by done. replace (N.of_nat (S k)) with (N.of_nat k + 1)%N by lia. intros [].
      apply (anchored_next _ a0 f0); [by apply IH|done..].
    + intros H. inversion H as [|e a0 f0 ? ? H0 Hlt Ha Hs Heq]. subst. replace e with (N.of_nat k) in * by lia.
      apply IH in H0 as ->. cbn [mbind option_bind]. rewrite (proj2 (N.ltb_lt _ _) Hlt). apply select_one_spec; [done|]. replace (N.of_nat (S k)) with (N.of_nat k + 1)%N by lia. done.
Qed.

Lemma select_one_in below e a f : select_one maintainers below (configs_of configs e) = Some (a, f) -> candidate e below a /\ cf_owner a ∈ maintainers.
Proof.
  unfold select_one. destruct (List.find _ _) as [a'|] eqn:Hf; [|done]. cbn [mbind option_bind].
  intros [<- _]%(inj Some)%pair_equal_spec. apply List.find_some in Hf as [Hin Hm%bool_decide_eq_true].
  by apply list_elem_of_In, elem_of_candidates in Hin.
Qed.
Lemma stage_in k a f : stage k = Some (a, f) -> a ∈ configs /\ cf_epoch a = N.of_nat k /\ cf_owner a ∈ maintainers /\ (N.of_nat k <= u32_max)%N.
Proof.
  destruct k as [|k]; cbn [stage].
  - intros [(Hin & _ & He & _) Hm]%select_one_in. by split_and!.
  - destruct (stage k) as [[a0 f0]|]; [|done]. cbn [mbind option_bind]. destruct (N.ltb_spec (N.of_nat k) u32_max); [|done].
    intros [(Hin & _ & He & _) Hm]%select_one_in. split_and!; [done..|lia].
Qed.
Lemma stage_below k j : is_Some (stage k) -> (j <= k)%nat -> is_Some (stage j).
Proof.
  intros Hk Hle. induction k as [|k IH]; [by replace j with 0 by lia|].
  destruct (decide (j = S k)) as [->|]; [done|]. apply IH; [|lia]. cbn [stage] in Hk. destruct (stage k) as [[]|]; [by eexists|by destruct Hk].
Qed.
(** There are no more epochs than configs. *)
Lemma stage_bound k : is_Some (stage k) -> (k < length configs)%nat.
Proof.
  intros Hk. assert (seq 0 (S k) ⊆ map (fun c => N.to_nat (cf_epoch c)) configs) as Hsub.
  { intros j Hj%elem_of_seq. destruct (stage_below k j Hk ltac:(lia)) as [[a f] Ha]. apply stage_in in Ha as (Hin & He & _).
    apply list_elem_of_In, in_map_iff. exists a. rewrite He. split; [lia|by apply list_elem_of_In]. }
  assert (length (seq 0 (S k)) <= length (map (fun c => N.to_nat (cf_epoch c)) configs)) as Hl.
  { apply (NoDup_incl_length (l := seq 0 (S k))); [apply seq_NoDup|]. intros j. rewrite <-!list_elem_of_In. apply Hsub. }
  rewrite length_map, length_seq in Hl. lia.
Qed.

Lemma select_from_stage fuel k below anchors : (length configs < fuel + k)%nat ->
  match k with O => below = None | S k => exists a f, stage k = Some (a, f) /\ below = Some f end ->
  (forall e, (N.of_nat k <= e)%N -> anchors !! e = None) ->
  forall e, select_from fuel configs maintainers (N.of_nat k) below anchors !! e
    = if (N.of_nat k <=? e)%N then (fun x => (x.1, cf_height x.2)) <$> stage (N.to_nat e) else anchors !! e.
Proof.
  revert k below anchors. induction fuel as [|fuel IH]; intros k below anchors Hfuel Hbelow Hnew e; cbn [select_from].
  { destruct (N.leb_spec (N.of_nat k) e); [|done]. rewrite Hnew by done. destruct (stage (N.to_nat e)) eqn:E; [|done].
    pose proof (stage_bound (N.to_nat e) ltac:(by eexists)). lia. }
  assert (forall e, (N.of_nat k <= e)%N -> stage k = None -> stage (N.to_nat e) = None) as Hnone.
  { intros e' He Hk. destruct (stage (N.to_nat e')) eqn:E; [|done]. destruct (stage_below (N.to_nat e') k) as [? Hs]; [by eexists|lia|congruence]. }
  assert (stage k = if (u32_max <? N.of_nat k)%N then None else select_one maintainers below (configs_of configs (N.of_nat k))) as Hk.
  { destruct k as [|k]; [by subst|]. destruct Hbelow as (a & f & Hs & ->). cbn [stage]. rewrite Hs. cbn [mbind option_bind].
    destruct (N.ltb_spec (N.of_nat k) u32_max), (N.ltb_spec u32_max (N.of_nat (S k))); try done; lia. }
  destruct (u32_max <? N.of_nat k)%N.
  { destruct (N.leb_spec (N.of_nat k) e); [|done]. by rewrite Hnew, Hnone. }
  rewrite <-Hk. destruct (stage k) as [[a f]|] eqn:Hs.
  - replace (N.of_nat k + 1)%N with (N.of_nat (S k)) by lia. rewrite IH; [|lia|by exists a, f|].
    + destruct (N.leb_spec (N.of_nat (S k)) e), (N.leb_spec (N.of_nat k) e); try done; [lia| |].
      * replace e with (N.of_nat k) by lia. rewrite lookup_insert_eq, Nat2N.id, Hs. done.
      * rewrite lookup_insert_ne by lia. done.
    + intros e' He. rewrite lookup_insert_ne by lia. apply Hnew. lia.
  - destruct (N.leb_spec (N.of_nat k) e); [|done]. by rewrite Hnew, Hnone.
Qed.

Lemma select_anchors_stage e : select_anchors configs maintainers !! e = (fun x => (x.1, cf_height x.2)) <$> stage (N.to_nat e).
Proof.
  unfold select_anchors. change 0%N with (N.of_nat 0). rewrite select_from_stage; [|lia|done|done].
  by rewrite (proj2 (N.leb_le _ _)) by lia.
Qed.
End anchors.

(** The anchors selected are the ones the definition of an epoch's anchor names, each with the height
    its key was first stated at. *)
Theorem anchors_refine configs maintainers e a h : NoDup (map cf_id configs) ->
  select_anchors configs maintainers !! e = Some (a, h) <-> exists f, anchored configs maintainers e a f /\ h = cf_height f.
Proof.
  intros Hids. rewrite select_anchors_stage, fmap_Some.
  setoid_rewrite <-(N2Nat.id e) at 2. split.
  - intros ([a' f] & Hs & [= -> ->]). exists f. split; [by apply stage_anchored|done].
  - intros (f & Hs & ->). exists (a, f). split; [by apply stage_anchored|done].
Qed.

(** ** The chain *)

Section chain.
Context `{crypto : Crypto} (repo_id : Id).
Context (first : gmap N ConfigRow) (commits_to : N -> EpochKey -> bool).
Context (commits_first : forall e k, commits_to e k = true -> is_Some (first !! e)).

Definition burned_under (e : N) (k : EpochKey) : Prop := is_some_and (open_anchor repo_id first e k) f_burned = true.

(** The anchor of [e], sealed under [k], hands down the key of the epoch below. *)
Definition linked (e : N) (k : EpochKey) (f : Fields) (pk : EpochKey) : Prop :=
  (0 < e)%N /\ open_anchor repo_id first e k = Some f /\ f_burned f = false
  /\ f_prev_epoch f = Some (e - 1)%N /\ f_prev_epoch_key f = Some pk /\ commits_to (e - 1)%N pk = true.
(** [f] hands down the key of the nearest epoch below [p] it commits to, which is not burned. *)
Definition skips (f : Fields) (p s : N) (sk : EpochKey) : Prop :=
  f_skip_epoch_key f = Some sk /\ (s < p)%N /\ commits_to s sk = true /\ (forall s', (s < s' < p)%N -> commits_to s' sk = false)
  /\ exists g, open_anchor repo_id first s sk = Some g /\ f_burned g = false.

(** The keys that can be read from the ones wrapped to the reader. *)
Inductive held (wrapped : N -> EpochKey -> Prop) : N -> EpochKey -> Prop :=
  | held_wrap e k : wrapped e k -> held wrapped e k
  | held_link e k f pk : held wrapped e k -> linked e k f pk -> held wrapped (e - 1)%N pk
  | held_skip e k f pk s sk : held wrapped e k -> linked e k f pk -> burned_under (e - 1)%N pk -> skips f (e - 1)%N s sk ->
      held wrapped s sk.

(** Below an epoch that is held, the chain goes on, or the stop is said. *)
Definition settled (keys : gmap N EpochKey) (alerts : list Alert) (e : N) : Prop :=
  exists k, keys !! e = Some k /\
  (e = 0%N \/ (exists c, first !! e = Some c /\ ChainBroken e (cf_owner c) ∈ alerts) \/ burned_under e k \/
   exists f pk, linked e k f pk /\ is_Some (keys !! (e - 1)%N)
     /\ (burned_under (e - 1)%N pk -> exists s sk, skips f (e - 1)%N s sk /\ is_Some (keys !! s))).

Lemma settled_mono keys keys' alerts alerts' e : keys ⊆ keys' -> alerts ⊆ alerts' -> settled keys alerts e -> settled keys' alerts' e.
Proof.
  intros Hk Ha (k & He & H). exists k. split; [by eapply lookup_weaken|]. destruct H as [H|[(c & Hc & H)|[H|(f & pk & Hl & Hp & H)]]].
  - by left.
  - right; left. exists c. split; [done|by apply Ha].
  - by right; right; left.
  - right; right; right. exists f, pk. split_and!; [done|by eapply lookup_weaken_is_Some|].
    intros Hb. destruct (H Hb) as (s & sk & Hs & Hin). exists s, sk. split; [done|by eapply lookup_weaken_is_Some].
Qed.

Lemma held_commits wrapped e k : (forall e k, wrapped e k -> commits_to e k = true) -> held wrapped e k -> commits_to e k = true.
Proof. intros Hw. induction 1; [by apply Hw|by unfold linked in *; naive_solver|by unfold skips in *; naive_solver]. Qed.

Lemma below_rev_succ p : below_rev (N.succ p) = p :: below_rev p.
Proof. unfold below_rev. rewrite N2Nat.inj_succ, seq_S, map_app, rev_app_distr. cbn [map rev app Nat.add]. by rewrite N2Nat.id. Qed.
Lemma find_below commits p s : List.find commits (below_rev p) = Some s ->
  (s < p)%N /\ commits s = true /\ forall s', (s < s' < p)%N -> commits s' = false.
Proof.
  induction p as [|p IH] using N.peano_ind; [done|]. rewrite below_rev_succ. cbn [List.find].
  destruct (commits p) eqn:Hp.
  - intros [= ->]. split_and!; [lia|done|lia].
  - intros Hs. destruct (IH Hs) as (Hlt & Hc & Hno). split_and!; [lia|done|]. intros s' H.
    destruct (decide (s' = p)) as [->|]; [done|]. apply Hno. lia.
Qed.

(** A walk always ends, keeps what it was given, reads only what can be read, and leaves every epoch
    it read settled. *)
Definition walked (wrapped : N -> EpochKey -> Prop) (e : N) (keys : gmap N EpochKey) (alerts : list Alert)
    (out : option (gmap N EpochKey * list Alert)) : Prop :=
  exists keys' alerts', out = Some (keys', alerts') /\ keys ⊆ keys' /\ alerts ⊆ alerts'
    /\ map_Forall (held wrapped) keys' /\ forall e', e' = e \/ keys !! e' = None -> is_Some (keys' !! e') -> settled keys' alerts' e'.

Lemma walked_here wrapped e keys alerts alerts' : map_Forall (held wrapped) keys -> alerts ⊆ alerts' -> settled keys alerts' e ->
  walked wrapped e keys alerts (Some (keys, alerts')).
Proof.
  intros Hk Ha He. exists keys, alerts'. split_and!; [done..|]. intros e' [->|Hn] Hin; [done|]. rewrite Hn in Hin. by destruct Hin.
Qed.
Lemma walked_on wrapped e p pk keys alerts out : keys !! p = None -> walked wrapped p (<[p := pk]> keys) alerts out ->
  (forall keys' alerts', <[p := pk]> keys ⊆ keys' -> settled keys' alerts' e) -> walked wrapped e keys alerts out.
Proof.
  intros Hp (keys' & alerts' & -> & Hk & Ha & Hheld & Hs) He. exists keys', alerts'. split_and!; [done| |done|done|].
  - etrans; [|done]. by apply insert_subseteq.
  - intros e' Hor Hin. destruct (decide (e' = p)) as [->|Hne]; [apply Hs; [by left|done]|].
    destruct Hor as [->|Hn]; [by apply He|]. apply Hs; [right; by rewrite lookup_insert_ne|done].
Qed.
Lemma walked_add wrapped e p pk keys alerts out : keys !! p = None -> burned_under p pk -> e <> p ->
  walked wrapped e (<[p := pk]> keys) alerts out -> walked wrapped e keys alerts out.
Proof.
  intros Hp Hb Hne (keys' & alerts' & -> & Hk & Ha & Hheld & Hs). exists keys', alerts'. split_and!; [done| |done|done|].
  - etrans; [|done]. by apply insert_subseteq.
  - intros e' Hor Hin. destruct (decide (e' = p)) as [->|Hne'].
    + exists pk. split; [|by right; right; left]. eapply lookup_weaken; [|done]. by rewrite lookup_insert_eq.
    + apply Hs; [|done]. destruct Hor; [by left|right]. by rewrite lookup_insert_ne.
Qed.

(** A step to [p]: on from there, unless its key was there already. *)
Lemma walked_to wrapped e p pk keys alerts out : map_Forall (held wrapped) keys ->
  (forall keys' alerts', keys ⊆ keys' -> is_Some (keys' !! p) -> settled keys' alerts' e) ->
  (keys !! p = None -> walked wrapped p (<[p := pk]> keys) alerts out) ->
  walked wrapped e keys alerts (if bool_decide (is_Some (keys !! p)) then Some (keys, alerts) else out).
Proof.
  intros Hheld Hset Hon. destruct (keys !! p) as [pk'|] eqn:Hin.
  - rewrite bool_decide_true by by eexists. apply walked_here; [done..|]. apply Hset; [done|]. by eexists.
  - rewrite bool_decide_false by (by intros []). eapply walked_on; [done|by apply Hon|].
    intros keys' alerts' Hsub. apply Hset; [etrans; [|done]; by apply insert_subseteq|].
    eapply lookup_weaken_is_Some; [|done]. by rewrite lookup_insert_eq.
Qed.

(** A walk that stops at [e], and says so. *)
Lemma walked_broken wrapped e k c keys alerts : map_Forall (held wrapped) keys -> keys !! e = Some k -> first !! e = Some c ->
  walked wrapped e keys alerts (Some (keys, alerts ++ [ChainBroken e (cf_owner c)])).
Proof.
  intros Hheld Hk Hc. apply walked_here; [done|set_solver|]. exists k. split; [done|]. right; left. exists c. split; [done|set_solver].
Qed.

Lemma walk_from_walked wrapped fuel e keys alerts : (forall e k, wrapped e k -> commits_to e k = true) ->
  (N.to_nat e <= fuel)%nat -> is_Some (keys !! e) -> map_Forall (held wrapped) keys ->
  walked wrapped e keys alerts (walk_from repo_id fuel first commits_to e keys alerts).
Proof.
  intros Hw. revert e keys alerts. induction fuel as [|fuel IH]; intros e keys alerts Hfuel [k Hk] Hheld; cbn [walk_from].
  { rewrite (proj2 (N.eqb_eq _ _)) by lia. apply walked_here; [done..|]. exists k. split; [done|left; lia]. }
  destruct (N.eqb_spec e 0) as [->|Hpos]; [apply walked_here; [done..|]; exists k; split; [done|by left]|].
  assert (held wrapped e k) as Hek by by apply Hheld.
  destruct (commits_first e k) as [c Hc]; [by eapply held_commits|]. rewrite Hc, Hk. cbn [mbind option_bind].
  pose proof (walked_broken wrapped e k c keys alerts Hheld Hk Hc) as Hbroken.
  destruct (open_anchor repo_id first e k) as [f|] eqn:Hopen; [|done].
  destruct (f_burned f) eqn:Hburned.
  { apply walked_here; [done..|]. exists k. split; [done|]. right; right; left. unfold burned_under. by rewrite Hopen. }
  destruct (f_prev_epoch f) as [p|] eqn:Hp; [|done]. destruct (f_prev_epoch_key f) as [pk|] eqn:Hpk; [|done].
  destruct (N.eqb_spec p (e - 1)) as [->|]; [|done]. cbn [negb orb].
  destruct (commits_to (e - 1) pk) eqn:Hcommits; [|done]. cbn [negb].
  destruct (commits_first _ _ Hcommits) as [c' Hc']. rewrite Hc'. cbn [mbind option_bind].
  assert (linked e k f pk) as Hl by (split_and!; [lia|done..]).
  assert (held wrapped (e - 1) pk) as Hheld1 by by eapply held_link.
  destruct (is_some_and (open_anchor repo_id first (e - 1) pk) f_burned) eqn:Hb; cbn [negb].
  2:{ apply (walked_to _ _ _ pk); [done| |].
      - intros keys' alerts' Hsub Hin. exists k. split; [by eapply lookup_weaken|]. right; right; right. exists f, pk.
        split_and!; [done..|]. unfold burned_under. by rewrite Hb.
      - intros Hin. eapply IH; [lia|by rewrite lookup_insert_eq|by apply map_Forall_insert_2]. }
  set (keys1 := match keys !! (e - 1)%N with Some _ => keys | None => _ end).
  assert (map_Forall (held wrapped) keys1) as Hheld1'.
  { unfold keys1. destruct (keys !! (e - 1)%N); [done|by apply map_Forall_insert_2]. }
  assert (keys1 !! e = Some k) as Hk1.
  { unfold keys1. destruct (keys !! (e - 1)%N); [done|]. by rewrite lookup_insert_ne by lia. }
  assert (is_Some (keys1 !! (e - 1)%N)) as Hin1.
  { unfold keys1. destruct (keys !! (e - 1)%N) eqn:E; [by rewrite E|by rewrite lookup_insert_eq]. }
  match goal with |- walked _ _ keys _ ?out => assert (walked wrapped e keys1 alerts out) as Hout end.
  2:{ unfold keys1 in Hout. destruct (keys !! (e - 1)%N) eqn:E; [exact Hout|]. by eapply walked_add; [done..|lia|]. }
  pose proof (walked_broken wrapped e k c keys1 alerts Hheld1' Hk1 Hc) as Hbroken1.
  destruct (f_skip_epoch_key f) as [sk|] eqn:Hsk; [|done]. cbn [mbind option_bind].
  destruct (List.find _ (below_rev (e - 1))) as [s|] eqn:Hfind; [|done]. cbn [mbind option_bind].
  apply find_below in Hfind as (Hlt & Hcs & Hno). destruct (commits_first _ _ Hcs) as [c'' Hc'']. rewrite Hc''. cbn [mbind option_bind].
  destruct (is_some_and (open_anchor repo_id first s sk) _) eqn:Hs; [|done]. cbn [negb].
  assert (skips f (e - 1) s sk) as Hskip.
  { split_and!; [done..|]. apply is_some_and_true in Hs as (g & Hg & Hnb%negb_true_iff). by exists g. }
  apply (walked_to _ _ _ sk); [done| |].
  - intros keys' alerts' Hsub Hin. exists k. split; [by eapply lookup_weaken|]. right; right; right. exists f, pk.
    split_and!; [done|by eapply lookup_weaken_is_Some|]. intros _. by exists s, sk.
  - intros Hin. apply IH; [lia|by rewrite lookup_insert_eq|]. apply map_Forall_insert_2; [|done].
    by apply (held_skip wrapped e k f pk s sk).
Qed.
Lemma walk_all_walked wrapped starts keys alerts : (forall e k, wrapped e k -> commits_to e k = true) ->
  (forall e, e ∈ starts -> is_Some (keys !! e)) -> map_Forall (held wrapped) keys ->
  (forall e, is_Some (keys !! e) -> settled keys alerts e \/ e ∈ starts) ->
  exists keys' alerts', walk_all repo_id first commits_to starts (Some (keys, alerts)) = Some (keys', alerts')
    /\ keys ⊆ keys' /\ alerts ⊆ alerts' /\ map_Forall (held wrapped) keys' /\ forall e, is_Some (keys' !! e) -> settled keys' alerts' e.
Proof.
  intros Hw. revert keys alerts. induction starts as [|e starts IH]; intros keys alerts Hin Hheld Hset.
  { exists keys, alerts. split_and!; [done..|]. intros e He. destruct (Hset e He) as [|[]%not_elem_of_nil]; done. }
  cbn [walk_all foldl mbind option_bind]. unfold walk_chain.
  destruct (walk_from_walked wrapped (N.to_nat e) e keys alerts Hw ltac:(lia) (Hin e ltac:(by left)) Hheld)
    as (keys1 & alerts1 & -> & Hk1 & Ha1 & Hheld1 & Hs1).
  destruct (IH keys1 alerts1) as (keys' & alerts' & Hwalk & Hk & Ha & Hrest).
  - intros e' He'. eapply lookup_weaken_is_Some; [|done]. apply Hin. by right.
  - done.
  - intros e' He'. destruct (decide (e' = e)) as [->|Hne]; [left; apply Hs1; [by left|done]|].
    destruct (keys !! e') as [k|] eqn:Hk; [|left; apply Hs1; [by right|done]].
    destruct (Hset e' ltac:(by eexists)) as [Hs|Hs%elem_of_cons]; [left; by eapply settled_mono|right; by destruct Hs].
  - exists keys', alerts'. split_and!; [done|by etrans|by etrans|apply Hrest..].
Qed.

Lemma burned_epochs_spec keys : map_Forall (fun e _ => is_Some (first !! e)) keys ->
  exists burned, burned_epochs repo_id first keys = Some burned /\ forall e, e ∈ burned <-> exists k, keys !! e = Some k /\ burned_under e k.
Proof.
  intros Hk. unfold burned_epochs.
  destruct (mapM (fun x : N * EpochKey => first !! x.1) (map_to_list keys)) as [l|] eqn:E.
  - cbn [mbind option_bind]. eexists. split; [done|]. intros e. rewrite elem_of_dom. unfold is_Some.
    setoid_rewrite map_lookup_filter_Some. done.
  - exfalso. apply mapM_None, Exists_exists in E as ([e k] & Hin%elem_of_map_to_list & Hn). apply Hk in Hin as [? Hs]. simpl in Hn. congruence.
Qed.
End chain.

(** ** The resolution *)

Section resolution.
Context `{crypto : Crypto} (repo_id reader : Id).
Context (memberships : list MemberRow) (configs : list ConfigRow) (wraps : list WrapRow).
#[local] Abbreviation maintainers := (maintainers_of memberships).
#[local] Abbreviation selected := (select_anchors configs maintainers).

(** An accepted wrap: to the reader, by a current maintainer, of a key its epoch's anchor commits to. *)
Definition accepted (w : WrapRow) (e : N) (k : EpochKey) : Prop :=
  w ∈ wraps /\ wr_key w = Some k /\ wr_epoch w = e /\ wr_member_id w = reader /\ wr_owner w ∈ maintainers
  /\ commits repo_id (anchors_of selected) e k = true.
Definition wrapped (e : N) (k : EpochKey) : Prop := exists w, accepted w e k.

Lemma commits_anchored e k : commits repo_id (anchors_of selected) e k = true -> is_Some ((fst <$> selected : gmap N ConfigRow) !! e).
Proof.
  unfold commits, anchors_of. rewrite !lookup_fmap. intros (c & Hc & _)%is_some_and_true. by destruct (selected !! e).
Qed.

(** What the wraps' turn keeps: every accepted key, each a start of a walk, and every mismatch. *)
Record turn (initial : list Alert) (seen : list WrapRow) (acc : gmap N EpochKey * list N * list Alert) : Prop := mkTurn {
    turn_keys : map_Forall wrapped acc.1.1;
    turn_starts : forall e, is_Some (acc.1.1 !! e) <-> e ∈ acc.1.2;
    turn_accepted : forall w e k, w ∈ seen -> accepted w e k -> e ∈ acc.1.2;
    turn_alerts : initial ⊆ acc.2;
    turn_mismatch : forall w k, w ∈ seen -> wr_key w = Some k -> wr_member_id w = reader -> wr_owner w ∈ maintainers ->
      is_Some (anchors_of selected !! wr_epoch w) -> commits repo_id (anchors_of selected) (wr_epoch w) k = false ->
      KeyMismatch (wr_epoch w) (wr_owner w) ∈ acc.2
  }.

Lemma accept_wrap_turn initial seen acc w : w ∈ wraps -> turn initial seen acc ->
  turn initial (w :: seen) (accept_wrap repo_id reader maintainers (anchors_of selected) acc w).
Proof.
  intros Hw [Hk Hs Ha Hi Hm]. destruct acc as [[keys starts] alerts]. cbn [fst snd] in *. unfold accept_wrap.
  destruct (wr_key w) as [key|] eqn:Hkey.
  2:{ split; cbn [fst snd]; [done..| |done|].
      - intros w' e k [->|Hin]%elem_of_cons Hacc; [destruct Hacc as (_ & ? & _); congruence|by eapply Ha].
      - intros w' k [->|Hin]%elem_of_cons Hwk; [congruence|by apply (Hm w' k)]. }
  destruct (decide (wr_member_id w = reader)) as [Hr|Hr].
  2:{ rewrite (bool_decide_true (wr_member_id w <> reader)) by done. cbn [orb]. split; cbn [fst snd]; [done..| |done|].
      - intros w' e k [->|Hin]%elem_of_cons Hacc; [destruct Hacc as (_ & _ & _ & ? & _); congruence|by eapply Ha].
      - intros w' k [->|Hin]%elem_of_cons Hwk Hr'; [congruence|by apply (Hm w' k)]. }
  rewrite (bool_decide_false (wr_member_id w <> reader)) by tauto. cbn [orb].
  destruct (decide (wr_owner w ∈ maintainers)) as [Ho|Ho].
  2:{ rewrite (bool_decide_false (wr_owner w ∈ _)) by done. cbn [negb orb]. split; cbn [fst snd]; [done..| |done|].
      - intros w' e k [->|Hin]%elem_of_cons Hacc; [by destruct Hacc as (_ & _ & _ & _ & ? & _)|by eapply Ha].
      - intros w' k [->|Hin]%elem_of_cons Hwk Hr' Ho'; [done|by apply (Hm w' k)]. }
  rewrite (bool_decide_true (wr_owner w ∈ _)) by done. cbn [negb orb].
  destruct (commits repo_id (anchors_of selected) (wr_epoch w) key) eqn:Hc.
  - rewrite bool_decide_true by (unfold commits in Hc; apply is_some_and_true in Hc as (c & Hc & _); by destruct (anchors_of selected !! wr_epoch w)).
    cbn [negb]. split; cbn [fst snd].
    + apply map_Forall_insert_2; [|done]. exists w. by split_and!.
    + intros e. destruct (decide (e = wr_epoch w)) as [->|Hne]; [rewrite lookup_insert_eq; split; [set_solver|by eexists]|].
      rewrite lookup_insert_ne, Hs by done. set_solver.
    + intros w' e k [->|Hin]%elem_of_cons Hacc; [destruct Hacc as (_ & _ & <- & _); set_solver|]. apply elem_of_app. left. by eapply Ha.
    + done.
    + intros w' k [->|Hin]%elem_of_cons Hwk; [congruence|by apply (Hm w' k)].
  - case_bool_decide as Han; cbn [negb].
    + split; cbn [fst snd]; [done..| |set_solver|].
      * intros w' e k [->|Hin]%elem_of_cons Hacc; [destruct Hacc as (_ & ? & <- & _ & _ & ?); congruence|by eapply Ha].
      * intros w' k [->|Hin]%elem_of_cons Hwk ????; apply elem_of_app; [right; set_solver|left; by apply (Hm w' k)].
    + split; cbn [fst snd]; [done..| |done|].
      * intros w' e k [->|Hin]%elem_of_cons Hacc; [destruct Hacc as (_ & ? & <- & _ & _ & ?); congruence|by eapply Ha].
      * intros w' k [->|Hin]%elem_of_cons Hwk; [done|by apply (Hm w' k)].
Qed.

Lemma accept_wraps_turn initial l seen acc : l ⊆ wraps -> turn initial seen acc ->
  turn initial (rev l ++ seen) (foldl (accept_wrap repo_id reader maintainers (anchors_of selected)) acc l).
Proof.
  revert seen acc. induction l as [|w l IH]; intros seen acc Hl Ht; [done|]. cbn [foldl rev]. rewrite <-app_assoc.
  apply IH; [set_solver|]. apply accept_wrap_turn; [set_solver|done].
Qed.

Lemma elem_of_sorted_alerts a l : a ∈ sorted_alerts l <-> a ∈ l.
Proof. unfold sorted_alerts. by rewrite !elem_of_sort_by, elem_of_remove_dups. Qed.

Lemma elem_of_sorted_epochs e s : e ∈ sorted_epochs s <-> e ∈ s.
Proof. unfold sorted_epochs. by rewrite elem_of_sort_by, elem_of_elements. Qed.

Lemma last_epoch_spec {A} (m : gmap N A) n : last_epoch m = Some n <-> is_Some (m !! n) /\ forall e, is_Some (m !! e) -> (e <= n)%N.
Proof.
  unfold last_epoch. setoid_rewrite <-elem_of_dom. setoid_rewrite <-elem_of_sorted_epochs.
  assert (StronglySorted (fun x y => N.compare x y <> Gt) (sorted_epochs (dom m))) as Hs by apply sort_by_sorted, _.
  revert Hs. generalize (sorted_epochs (dom m)). intros l Hs.
  assert (forall n, last l = Some n -> (n ∈ l) /\ forall e, e ∈ l -> (e <= n)%N) as Hlast.
  { intros x Hx. apply last_Some in Hx as [l' ->]. split; [set_solver|]. intros e He. apply elem_of_app in He as [He|He]; [|by apply list_elem_of_singleton in He as ->].
    by apply (StronglySorted_app_1_elem_of _ l' [x] e x Hs He); left. }
  split; [apply Hlast|]. intros [Hin Hmax]. destruct (last l) as [x|] eqn:Hx.
  - destruct (Hlast x eq_refl) as [H1 H2]. f_equal. apply N.le_antisymm; auto.
  - apply last_None in Hx as ->. by apply not_elem_of_nil in Hin.
Qed.

Lemma sorted_ids_nil s : sorted_ids s = [] <-> s = ∅.
Proof.
  unfold sorted_ids. split; [|by intros ->]. intros H. apply set_eq. intros x. split; [|set_solver].
  intros Hx. assert (x ∈ sort_by bytes_cmp (elements s)) as Hin by (by apply elem_of_sort_by, elem_of_elements).
  rewrite H in Hin. by apply not_elem_of_nil in Hin.
Qed.

#[local] Abbreviation firsts := (fst <$> selected : gmap N ConfigRow).
#[local] Abbreviation commits_to := (commits repo_id (anchors_of selected)).

(** The epochs wrapped to someone who is no member, by a maintainer. *)
Definition leaked (n : N) : Prop :=
  exists w, w ∈ wraps /\ wr_epoch w = n /\ wr_owner w ∈ maintainers /\ wr_member_id w ∉ members_of memberships.

Lemma elem_of_non_members n b x : x ∈ rp_non_members (repair_check n b wraps maintainers (members_of memberships)) <->
  exists w, w ∈ wraps /\ wr_epoch w = n /\ wr_owner w ∈ maintainers /\ wr_member_id w = x /\ x ∉ members_of memberships.
Proof.
  unfold repair_check, sorted_ids. cbn [rp_non_members]. rewrite elem_of_sort_by, elem_of_elements, elem_of_difference, elem_of_list_to_set,
    list_elem_of_In, in_map_iff. setoid_rewrite filter_In. setoid_rewrite <-list_elem_of_In. setoid_rewrite andb_true_iff.
  setoid_rewrite N.eqb_eq. setoid_rewrite bool_decide_eq_true. naive_solver.
Qed.

Lemma non_members_nil n b : rp_non_members (repair_check n b wraps maintainers (members_of memberships)) = [] <-> ~ leaked n.
Proof.
  split.
  - intros H (w & ? & ? & ? & ?). apply (not_elem_of_nil (wr_member_id w)). rewrite <-H. apply (elem_of_non_members n b). eauto 6.
  - intros Hn. apply elem_of_nil_inv. intros x Hx%elem_of_non_members. apply Hn. unfold leaked. naive_solver.
Qed.

(** What [resolve_epochs] promises of the keys. *)
Record resolved (r : EpochResolution) : Prop := mkResolved {
    rs_selected : er_anchors r = anchors_of selected;
  rs_anchors : NoDup (map cf_id configs) -> forall e x, er_anchors r !! e = Some x <->
    exists a f, anchored configs maintainers e a f
      /\ x = mkAnchor (cf_id a) (cf_owner a) (cf_height a) (an_commit (anchor_of a)) (cf_height f);
    rs_current : forall n, er_current_epoch r = Some n <-> is_Some (er_anchors r !! n) /\ forall e, is_Some (er_anchors r !! e) -> (e <= n)%N;
    rs_sound : map_Forall (held repo_id firsts commits_to wrapped) (er_keys r);
    rs_wrapped : forall e k, wrapped e k -> is_Some (er_keys r !! e);
    rs_chain : forall e, is_Some (er_keys r !! e) -> settled repo_id firsts commits_to (er_keys r) (er_alerts r) e;
    rs_mismatch : forall w k, w ∈ wraps -> wr_key w = Some k -> wr_member_id w = reader -> wr_owner w ∈ maintainers ->
      is_Some (er_anchors r !! wr_epoch w) -> commits_to (wr_epoch w) k = false -> KeyMismatch (wr_epoch w) (wr_owner w) ∈ er_alerts r;
    rs_burned : forall e, e ∈ er_burned r <-> exists k, er_keys r !! e = Some k /\ burned_under repo_id firsts e k;
    rs_write : forall n, er_write_epoch r = Some n <->
      er_current_epoch r = Some n /\ is_Some (er_keys r !! n) /\ n ∉ er_burned r /\ ~ leaked n
  }.

Lemma turn_none initial : turn initial [] (∅, [], initial).
Proof.
  split; cbn [fst snd].
  - apply map_Forall_empty.
  - intros e. rewrite lookup_empty. split; [by intros []|by intros ?%not_elem_of_nil].
  - by intros w e k ?%not_elem_of_nil.
  - done.
  - by intros w k ?%not_elem_of_nil.
Qed.

Lemma resolve_resolved : exists r, resolve_epochs repo_id reader memberships configs wraps = Some r /\ resolved r.
Proof.
  unfold resolve_epochs. set (initial := map _ (select_gaps _ _ _)).
  pose proof (accept_wraps_turn initial wraps [] (∅, [], initial) ltac:(done)) as Hturn.
  destruct (foldl (accept_wrap repo_id reader maintainers (anchors_of selected)) (∅, [], initial) wraps) as [[keys0 starts] alerts0].
  destruct Hturn as [Hk Hs Ha Hi Hm]; [apply turn_none|]. cbn [fst snd] in *.
  assert (forall e k, wrapped e k -> commits_to e k = true) as Hcommit by (by intros e k (w & _ & _ & _ & _ & _ & ?)).
  destruct (walk_all_walked repo_id firsts commits_to commits_anchored wrapped starts keys0 alerts0 Hcommit)
    as (keys & alerts & -> & Hsub & Hsuba & Hheld & Hset).
  { intros e. apply Hs. }
  { intros e k He. by apply held_wrap, Hk. }
  { intros e He. right. by apply Hs. }
  cbn [mbind option_bind].
  destruct (burned_epochs_spec repo_id firsts keys) as (burned & -> & Hburned).
  { intros e k He. eapply commits_anchored, (held_commits _ _ _ wrapped); [done|by apply Hheld]. }
  cbn [mbind option_bind]. eexists. split; [done|]. set (current := last_epoch (anchors_of selected)).
  assert (forall b, alerts ⊆ (match (fun n => repair_check n (b n) wraps maintainers (members_of memberships)) <$> current, current with
    | Some r, Some n => if rp_rotate r && bool_decide (reader ∈ maintainers) then alerts ++ [RotationRequired n (rp_non_members r)] else alerts
    | _, _ => alerts end)) as Hmore.
  { intros b. destruct current; simpl; [|done]. destruct (_ && _); set_solver. }
  split; cbn [er_anchors er_current_epoch er_keys er_alerts er_burned er_write_epoch].
  - done.
  - intros Hids e x. unfold anchors_of. rewrite lookup_fmap, fmap_Some. split.
    + intros ([a h] & (f & Hf & ->)%anchors_refine & ->); [|done]. by exists a, f.
    + intros (a & f & Hf & ->). exists (a, cf_height f). split; [|done]. apply anchors_refine; [done|]. by exists f.
  - apply last_epoch_spec.
  - done.
  - intros e k (w & Hw). eapply lookup_weaken_is_Some; [|done]. apply Hs. eapply Ha; [|done]. rewrite app_nil_r, list_elem_of_In, <-in_rev, <-list_elem_of_In. apply Hw.
  - intros e He. apply (settled_mono repo_id firsts commits_to keys keys alerts); [done| |by apply Hset].
    intros a Ha'. apply elem_of_sorted_alerts. by apply (Hmore (fun n => bool_decide (n ∈ burned))).
  - intros w k Hw Hkey Hr Ho Han Hc. apply elem_of_sorted_alerts, (Hmore (fun n => bool_decide (n ∈ burned))), Hsuba. eapply Hm; [|done..]. by rewrite app_nil_r, list_elem_of_In, <-in_rev, <-list_elem_of_In.
  - done.
  - intros n. destruct current as [c|] eqn:Ec; simpl.
    2:{ naive_solver. }
    pose proof (non_members_nil c (bool_decide (c ∈ burned))) as Hleak. unfold repair_check in Hleak. cbn [rp_non_members] in Hleak.
    match goal with |- (if ?b then _ else _) = _ <-> _ => assert (b = true <-> is_Some (keys !! c) /\ (c ∉ burned) /\ ~ leaked c) as Hb end.
    { rewrite !andb_true_iff, !negb_true_iff, negb_false_iff, bool_decide_eq_true, bool_decide_eq_false, bool_decide_eq_true. tauto. }
    match goal with |- (if ?b then _ else _) = _ <-> _ => destruct b end; (split; [|intros ([= <-] & H)]).
    + intros [= <-]. by split; [|apply Hb].
    + done.
    + done.
    + by apply Hb in H.
Qed.
End resolution.

(** C8: what [resolve_epochs] answers, always, from rows as they are read. An epoch exists when each
    one from the first to it has an anchor, the earliest config of a current maintainer that comes
    after the statement of the key below it; the current epoch is the greatest. A key it holds is one
    that the wraps and the chain below them hand down, to an epoch whose anchor commits to it; every
    accepted wrap gives one, and one whose key the anchor does not commit to is said; and at every
    epoch it holds the chain goes on to the epoch below, or the break is said in an alert, or the
    epoch is burned. It writes under the current epoch alone, and only when its key is held, it is
    not burned, and no maintainer wrapped it to someone who is no member. So a reader who is wrapped
    an epoch reads it and every epoch below, when no chain is said to break there and none of them
    is burned. *)
Theorem resolve_spec `{crypto : Crypto} repo_id reader memberships configs wraps :
  exists r, resolve_epochs repo_id reader memberships configs wraps = Some r
    /\ resolved repo_id reader memberships configs wraps r
    /\ forall n k, wrapped repo_id reader memberships configs wraps n k ->
         (forall e author, (e <= n)%N -> ChainBroken e author ∉ er_alerts r) -> (forall e, (e <= n)%N -> e ∉ er_burned r) ->
         forall e, (e <= n)%N -> is_Some (er_keys r !! e).
Proof.
  destruct (resolve_resolved repo_id reader memberships configs wraps) as (r & Hr & Hres). exists r. split_and!; [done..|].
  intros n k Hk Hchain Hburned.
  assert (forall d e, (e + N.of_nat d = n)%N -> is_Some (er_keys r !! e)) as Hdown.
  { intros d. induction d as [|d IH]; intros e He.
    - replace e with n by lia. by eapply rs_wrapped.
    - destruct (rs_chain _ _ _ _ _ _ Hres (e + 1)%N) as (k' & Hk' & H); [apply IH; lia|].
      destruct H as [H|[(c & _ & H)|[H|(f & pk & _ & Hp & _)]]]; [lia| | |].
      + by destruct (Hchain (e + 1)%N (cf_owner c)); [lia|].
      + exfalso. apply (Hburned (e + 1)%N); [lia|]. apply (rs_burned _ _ _ _ _ _ Hres). by exists k'.
      + by replace (e + 1 - 1)%N with e in Hp by lia. }
  intros e He. apply (Hdown (N.to_nat (n - e))). lia.
Qed.

(** ** An example *)

Definition example_reader : Id := repeat (byte_of 85) 32.
Definition example_key (n : N) : EpochKey := repeat (byte_of n) 32.
Definition example_sealed (e : N) (fields : Fields) : list byte :=
  match seal (crypto := example_crypto) (repeat (byte_of 1) 32) (derive (crypto := example_crypto) example_repo e (example_key (e + 3)%N))
          (DocHeader_new DConfig example_owner e) fields with
  | inr enc => enc
  | inl _ => []
  end.
Definition linked_fields (p : N) (pk : EpochKey) : Fields := set_prev_epoch (Some p) (set_prev_epoch_key (Some pk) Fields_default).
Definition example_configs : list ConfigRow :=
  [mkConfigRow (repeat (byte_of 61) 32) example_owner 1 20 2 (example_sealed 1 (linked_fields 0 (example_key 3)));
   mkConfigRow (repeat (byte_of 60) 32) example_owner 0 10 1 (example_sealed 0 Fields_default)].
Definition example_wrap (e : N) (k : EpochKey) : WrapRow :=
  mkWrapRow (repeat (byte_of 70) 32) example_owner example_reader e 0 true (Some k).
Definition example_memberships : list MemberRow := [mkMemberRow example_owner Maintainer 0; mkMemberRow example_reader Reader 5].

(** The reader is wrapped the key of epoch 1, and a false one of epoch 0: the chain gives the true one. *)
Example example_resolution :
  option_map (fun r => (er_keys r !! 0%N, er_keys r !! 1%N, er_current_epoch r, er_write_epoch r, er_alerts r))
    (resolve_epochs (crypto := example_crypto) example_repo example_reader example_memberships example_configs
       [example_wrap 0 (example_key 9); example_wrap 1 (example_key 4)])
  = Some (Some (example_key 3), Some (example_key 4), Some 1%N, Some 1%N, [KeyMismatch 0 example_owner]).
Proof. vm_compute. reflexivity. Qed.

Lemma anchors_refine_witness : exists f, anchored example_configs {[example_owner]} 1 (nth 0 example_configs (mkConfigRow [] [] 0 0 0 [])) f.
Proof.
  assert (NoDup (map cf_id example_configs)) as Hids.
  { repeat constructor; [|by intros ?%not_elem_of_nil]. intros H%list_elem_of_singleton. discriminate H. }
  pose proof (anchors_refine example_configs {[example_owner]} 1 (nth 0 example_configs (mkConfigRow [] [] 0 0 0 [])) 20 Hids) as [H _].
  destruct H as (f & Hf & _); [vm_compute; reflexivity|]. by exists f.
Defined.
